(* ===== verification/_CoqProject ===== *)
-Q . S2P
Prelude.v
GoStrings.v
Errors.v
Digest.v
Float64.v
FloatRound.v
GoTime.v
Utf8.v
BaseN.v
GoAny.v
GoJson.v
Ordered.v
SliceSort.v
Money.v
Billing.v
Inventory.v
Order.v
Cart.v
Product.v
Payment.v
Breaker.v
Saga.v
Paxos.v
PaxosNet.v
Lru.v
Arc.v
Lfu.v
Crdt.v
VectorClock.v
Circular.v
Deque.v
Ring.v
TimerWheel.v
Raft.v
Avl.v
BPlus.v
Skiplist.v
Trie.v
Radix.v
UnionFind.v
Dag.v
Swim.v
Semaphore.v
Bulkhead.v
Retry.v
EventStore.v
AuditLog.v
Broker.v
EventSource.v
Projection.v
DurableSaga.v
Distlock.v
Scheduler.v
Oauth2.v
Totp.v
Crypto.v
Mfa.v
LoadBalancing.v
Maglev.v
Affinity.v
RateLimit.v
MemCache.v
ResilientCache.v
HashRing.v
Chord.v
Sorting.v
Heap.v
Dijkstra.v
SearchIndex.v
VectorSearch.v
StateMachine.v
Workflow.v
Merkle.v
RangeTree.v
Bloom.v
Dedup.v
Cuckoo.v
GraphSearch.v
Kruskal.v
AhoCorasick.v
