(* ===== verification/Prelude.v ===== *)
(** * go-hyperforge: a verification development

    go-hyperforge is a collection of Go libraries for distributed systems (pkg/) and of
    services built from them (services/).  Most of it is glue: interfaces, adapters to
    third-party systems, decorators that log and trace.  This development models the code
    that carries the repository's own logic: the stores of the commerce services, the
    packages they share, the resilience, workflow and event-sourcing patterns, the
    authorization server, the consensus, routing and rate-limiting algorithms and the data
    structures.

    ** The parts, and where they are

    Shared ground
    - [Prelude]: the integers of Go at their widths ([i64], [u64] and the lemmas on
      wrap-around), the monad [GoM] of code that threads a state and may return an error,
      tactics and generic lemmas.
    - [Errors] (pkg/errors/errors.go): error values, their wrapping, the classification
      by code, and the HTTP and gRPC status tables.  Every store answers with these.
    - [Float64]: the language's binary64 numbers, their order and conversions; [FloatRound]:
      the value of a rounded sum, product or quotient.  [GoStrings], [GoTime], [SliceSort] and
      [Digest]: what the code uses of packages strings, strconv, time, sort, crypto/sha256,
      crypto/sha1 and crypto/hmac.  [BaseN]: digits, and packages encoding/base32, base64 and
      hex.  [Utf8]: ranging over a string.  [GoAny]: values of type interface{}, and their
      comparison, which can panic.  [GoJson]: what package encoding/json writes.  [Ordered]:
      the constraint cmp.Ordered, and what makes its operators a total order.
    - [Money] (pkg/commerce/commerce.go): amounts in minor units with a currency.

    Commerce
    - [Inventory], [Order], [Cart], [Product]
      (services/*/internal/store/store.go): one definition per method of the store.  A
      store is a finite map; a method is a [GoM] computation from the context's error,
      the clock and the generated identifier, where it uses them, to an error or an answer
      and the new store.  The methods run under the store's lock: one call is one step.
    - [Payment] (pkg/commerce/payment, the in-memory adapter): transactions and the index
      of idempotency keys.
    - [Billing] (pkg/commerce/billing): proration, and the in-memory service of plans,
      subscriptions and invoices.

    Resilience and workflow
    - [Breaker] (pkg/resilience/circuitbreaker.go): the methods as functions, for calls that
      run alone; module [Threads] interleaves their atomic operations, since they hold the
      mutex only to change the state.  The clock is an argument.
    - [Retry] (pkg/resilience: retry, hedge, fallback, timeouts): the protected function,
      the context and the random generator act on an arbitrary world.
    - [Semaphore] (pkg/concurrency/semaphore.go) and [Bulkhead] (pkg/resilience/bulkhead.go)
      on top of it: the stretches under the lock, interleaved.
    - [Saga] (pkg/workflow/saga/saga.go): actions and compensations are arbitrary
      functions on an arbitrary world.  [DurableSaga] (durable.go): the same with a saved
      state, crashes and resumption.
    - [StateMachine] and [Workflow] (pkg/workflow and its in-memory engine): state machines
      whose tasks are arbitrary functions on an arbitrary world, and the engine as a system
      of calls and of one goroutine per execution.
    - [Distlock] (pkg/concurrency/distlock, the in-memory adapter): expiring locks.
      [Scheduler] (pkg/workflow/scheduler): nodes that run due jobs under these locks.

    Event sourcing and authorization
    - [EventStore] (pkg/enterprise/eventsource, the in-memory adapter), [EventSource] (the
      repository and the snapshots, proved against the class of that name in [EventStore]) and
      [Projection] (the projection runner).
    - [Oauth2] (pkg/auth/oauth2, the in-memory adapter): clients, codes, tokens, grants.
    - [Totp] (pkg/auth/mfa/otp): one-time passwords and recovery codes.  [Crypto]
      (pkg/security/crypto, pkg/auth/encrypt.go): strings encrypted at rest, over the class of
      an authenticated cipher.  [Mfa] (pkg/auth/mfa, the in-memory adapter): second factors,
      on both.

    Messages and audit
    - [Broker] (pkg/messaging and its in-memory adapter): channels as bounded queues; the
      stretches of [Publish], of consumers and of [Close] between locks, interleaved.
      [Dedup] (pkg/messaging/dedup.go): the consumer that drops repeated messages, over
      [Bloom].
    - [AuditLog] (pkg/audit and its in-memory adapter): events, the hash chain over their JSON,
      redaction, the store.

    Routing, caching and rate limits (pkg/algorithms, pkg/cache)
    - [LoadBalancing] (loadbalancing): the interface as the class [Balancer]; modules
      [RoundRobin], [LeastConnections], [Weighted] and [HealthAware], which wraps any
      balancer.  [Maglev] (loadbalancing/maglev).  [Affinity]: modules [Random], [P2c],
      [Sticky].
    - [RateLimit] (ratelimit): modules [SlidingLocal], [LeakyBucket], [TokenBucket], [Shaper]
      and [Htb], the hierarchy of buckets in a heap.
    - [MemCache] (pkg/cache and its in-memory adapter): the interface as the class [Cache],
      its implementation, and modules [FixedWindow] and [SlidingCounter], the limiters written
      against the class.
      [ResilientCache] (pkg/cache/resilient.go) composes [Breaker] and [Retry].  [Bloom]
      (pkg/datastructures/bloomfilter, pkg/cache/bloom.go): the filter, and any cache behind
      it.
    - [HashRing] (consistenthash/ring, and in module [Bounded] consistenthash/bounded) and
      [Chord] (dht/chord).

    Search (pkg/data/search, pkg/database/vector)
    - [SearchIndex]: the in-memory engine with its inverted index.  [VectorSearch]: the
      in-memory store, the search over shards and the hybrid search.  Package fmt, the order
      in which maps are ranged over and the sort are classes.

    Consensus
    - [Paxos] (pkg/algorithms/consensus/paxos/paxos.go): acceptor, learner, proposer over
      a transport, multi-paxos.  [PaxosNet] puts the acceptors of [Paxos] on a network
      that loses, delays and duplicates requests and replies, and loses, delays and reorders
      the notices to the learner, and proves agreement for values other than nil.
    - [Raft] (pkg/algorithms/consensus/raft/raft.go): the stretches of code that run
      under the node's lock, and an event system that interleaves them.
    - [Swim] (pkg/algorithms/gossip/swim/swim.go): one node's view of the membership.

    Data structures
    - [Lru] (pkg/datastructures/lru): the linked list is a heap of entries with the code's
      pointer updates.  [Lfu] (pkg/datastructures/lfu) and [Arc] (pkg/datastructures/arc):
      the frequency-based and the adaptive cache.
    - [Crdt] (pkg/datastructures/crdt) and [VectorClock] (pkg/datastructures/vectorclock).
    - [Circular]: elements in a slice that wraps around, shared by [Deque]
      (pkg/datastructures/deque) and [Ring] (pkg/datastructures/queue/ring; with its
      condition variables).
    - [Avl] (pkg/datastructures/tree/avl), [BPlus] (tree/bplus), [Skiplist] (skiplist: nodes
      in a heap; and tree/lsm on top of it), [Trie] (tree/trie) and [Radix] (tree/radix);
      [UnionFind] (pkg/datastructures/set/disjoint) and [Dag] (pkg/datastructures/graph/dag).
    - [TimerWheel] (pkg/datastructures/timer/wheel) and [Cuckoo]
      (pkg/datastructures/bloomfilter/cuckoo).
    - [Heap] (pkg/datastructures/heap): the priority queue of [Dijkstra] and [VectorSearch].
    - [Merkle] (pkg/datastructures/merkle): nodes in a heap, hashes in slices of a shared
      memory.  [RangeTree] (pkg/datastructures/tree/fenwick and segment).

    Algorithms (pkg/algorithms)
    - [Sorting] (sort, search/binarysearch): modules [MergeSort], [QuickSort], [HeapSort],
      [RadixSort] and [BinarySearch] over the class [Ordered].
    - [GraphSearch] (graph/bfs, graph/dfs): modules [Bfs] and [Dfs].  [Dijkstra]
      (graph/dijkstra) on the heap, [Kruskal] (graph/kruskal) on the disjoint sets.
    - [AhoCorasick] (search/ahocorasick): the automaton as nodes in a heap.

    ** How code is modelled

    Integers are [Z], with the wrap of [int], [int64] and [uint64] written out where an
    operation can reach it.  Times are nanoseconds in [Z].  Maps are [gmap], sets [gset];
    where the order in which Go ranges over a map can matter it is an argument.  A slice
    is a list.  Where the code shares objects through pointers and a result depends on it
    (the LRU list) the heap is modelled; records copied before they are returned are
    values.  An index out of range or a nil dereference is an explicit [None] where the
    proofs have to exclude it.  Identifiers from package uuid, the clock and the context
    are arguments; theorems that need fresh identifiers say so.

    Loops are structural recursions over lists where the code ranges over one.  The others
    have fuel: [UnionFind.find] and [Dag.visit] the number of elements (ranks increase, a
    node is visited once), [Dag.kahn_loop] the number of nodes (a round removes one),
    [Raft.apply_loop] the distance to the commit index, [Retry.retry_loop] the attempts,
    [LoadBalancing.Weighted.next_loop] the number of nodes (a node of the greatest weight is
    chosen in every round), [LoadBalancing.HealthAware.ha_loop] 4097 (every turn adds a node
    to a set that is checked against 4096), [Maglev.fill] and [Maglev.probe] the table size
    (a preference list of a prime table is a permutation), [Chord.FindSuccessor] one more
    than the number of nodes (every call goes to a node nearer to the key), the binary
    search of [HashRing] the length.  The sorts and the trees of [RangeTree] have the length
    of the slice, [RadixSort] 19 turns (no int has more digits), [Merkle.buildTree] the number
    of leaves, the traversals of [GraphSearch] the number of nodes or edges, [Dijkstra] one
    more than the number of edges (an edge is relaxed once), the moves of [Heap] the number
    of items, [BPlus] the height, [Radix] the length of the key, [AhoCorasick] the length of a
    node's address for its failure links and the number of nodes for the queue,
    [Skiplist.walk] the number of nodes, [Cuckoo.kick] the code's bound of kicks,
    [RateLimit.Htb.climb] the number of buckets (a path in a forest has none twice); the branches
    of a parallel state get a number of turns that is an argument, and the theorem on
    completion says how many are enough.  The theorems show that the fuel is enough: they
    state that a result is there, not only what it would be.  Hash functions
    of the standard library (CRC-32, FNV-1a, SHA-1, SHA-256) are executable and checked
    against known digests; the hashing of secrets and verifiers and the random tokens of the
    authorization server are parameters, AES-GCM and the cron parser classes with their laws.

    ** What is proved

    Refinement: the cart store is maps of lines, the LRU cache a list cut off at the
    capacity, the LFU cache a list that drops the least used, the deque a list, the AVL tree,
    the trie, the radix tree and the skip list maps, the disjoint sets the equivalence
    closure of the unions, vector clocks the happened-before relation; each over all
    histories of calls.  Invariants over histories: stock is never oversold, the SKU
    index is exact, orders and payments move only along their life cycles, a charge is
    idempotent, the adaptive cache keeps its bounds and is coherent, the graph stays
    acyclic, the B+ tree stays balanced and holds what was inserted.  Concurrency: agreement of Paxos, at most one vote per term and log matching
    of Raft, membership views that only advance, the probe budget of the half-open breaker,
    FIFO order and no lost wake-up of the ring buffer, the capacity and the order of the
    semaphore and the bulkhead, mutual exclusion of the expiring locks with distinct values, convergence of the
    CRDTs.  Functional behaviour on every branch: order creation, reservations, checkout,
    the saga.

    Workflow and events: a durable saga with distinct step names that crashes between turns
    ends, when resumed, as the uninterrupted one, and one that crashes in an action or while
    it compensates repeats what was interrupted and settles;
    the repository gives back what was saved, on any event store that keeps the promises of
    the class; projections see every event at least once; authorization codes and refresh
    tokens are used once; one-time passwords are accepted exactly within their window, recovery
    codes once, and secrets are read back from their encryption; nodes whose locks have
    distinct values never run a job of one name together while their leases last; a workflow execution settles once, tells every waiter, and ends when
    its definition has no cycle.  Retries are bounded, and stop at an open breaker; behind both, a
    cache answers hits and misses as if it were bare.

    Messages: the broker loses and repeats nothing between the groups and their channels, in
    every interleaving; the deduplicating consumer never runs a key twice at once or after a
    success; the timer wheel, stopped at most once, starts every callback at its tick.  Audit: a log that verifies
    and ends in the stored hash is the stored one in all that enters its JSON, or two
    encodings at hand collide.

    Routing and limits: weighted round robin is the interleaved schedule repeated; the
    health-aware balancer finds the first healthy node; the Maglev table is complete and
    balanced; sessions are sticky; the hash ring moves only the keys it has to; a Chord
    lookup finds the owner and a join repairs the ring; the sliding window bounds every
    interval, and the fixed window admits exactly its limit; the sliding counter admits at most
    its limit in a window and counts the one before; a hierarchy of buckets takes from all of
    a path or from none, and bounds what passes below every bucket; the shaper keeps the
    order and its burst; a Bloom filter before a cache
    changes no answer.

    Money: proration in binary64 never credits or charges more than the price, and a change of
    plan bills at most the difference.  Search: a query through the inverted index answers as
    a scan of the documents; a search over shards as one over their union.

    Algorithms: the four sorts return the sorted permutation, binary search the bounds,
    traversals exactly what is reachable and shortest paths, cycle detection decides;
    Dijkstra's algorithm finds a path that no other undercuts, by lengths rounded to binary64,
    up to the largest float; Kruskal's algorithm a minimum spanning forest; the Aho-Corasick automaton finds exactly
    the occurrences of its patterns; range queries are the sums over the range; Merkle proofs
    are accepted, and the verification of a forged one hashes a string that collides with one
    of the honest verification; a cuckoo filter of a power of two buckets has no false
    negatives.

    Some theorems are about behaviour that is not what the code means to do, as concrete
    runs or general statements: a Raft leader that commits an entry nobody else has, a
    node that votes twice after a late reply, a leader without an election, a multi-paxos
    log entry that was not chosen, Paxos rounds that disagree after nil was chosen, a learner
    that counts a notice twice, locks that release each other, a first pause above the cap, a
    probe that is not counted, a walk over the largest float that is not found, a dead member that gossip revives, a breaker stuck
    half-open, compensations mixed up by equal names, unchecked refunds, registers that
    never converge, a projection that skips an event, a client that widens its scope, buckets
    that never drain, a Maglev table that is never finished, ring points without an owner, a
    Fenwick update that never ends, a Merkle proof spoilt by the memory it lies in, a workflow
    result replaced by its input, half a year billed for half a month, a shard whose panic is
    swallowed, a search that misses parts of words, a B+ tree that finds the older value, keys
    that a trie confuses, timers that fire early or panic, a purge that breaks the audit chain,
    a publisher that panics while the broker closes, a consumer that replaces another, a
    cuckoo filter that loses elements, an empty memory table that is full, a password that is
    replayed, an enrolment that turns a factor off, a due job that every node runs, a full host
    that gets every request, buckets in a cycle, a burst across windows of 1.5 s.

    ** What is not modelled

    Adapters to third-party systems, servers, instrumentation and configuration are input
    and output.  A stretch of code that holds a lock throughout is one step; methods that give
    the lock up or act without it are split into such stretches or into their atomic operations
    where calls are interleaved.  Deadlocks between locks are outside the models.  The state-change callback of the breaker and the loggers do not act
    on the state.  The blocking loops around operations that are modelled (the polling of
    projections, [Wait] of the limiters, the ticker of SWIM) are left out.
    The tracing, retrying and event-publishing decorators of the packages repeat one pattern,
    which [ResilientCache] models once.  Sketches and estimates (HyperLogLog, count-min,
    adaptive concurrency limits) promise only approximations by floating-point logarithms.
    Packages over cryptographic libraries, drivers and clients of cloud providers are calls of
    code that is not in the repository. *)

From stdpp Require Export base tactics decidable numbers strings gmap list fin_maps sets.
From stdpp Require Import options.
From Stdlib Require Export ZArith Lia.

#[export] Set Default Goal Selector "1".

(** ** Scopes and automation *)

Declare Scope go_scope.
Delimit Scope go_scope with go.

(** Lemmas about the fixed-width integers, used with [autorewrite]. *)
Create Rewrite HintDb go_int.

(** Preservation lemmas of the component invariants, used with [eauto]. *)
Create HintDb go_inv discriminated.

(** ** Go's fixed-width integers

    Go's [int] is 64 bits wide on the platforms the project targets, and its
    arithmetic wraps around.  A value of type [int] or [int64] is an element of
    [Z] in [[-2^63, 2^63)], a [uint64] one of [[0, 2^64)]; an arithmetic
    operation of the source is the operation on [Z] followed by the wrap of its
    type. *)

Open Scope Z_scope.

Definition i64 (z : Z) : Z := (z + 2 ^ 63) mod 2 ^ 64 - 2 ^ 63.
Definition u64 (z : Z) : Z := z mod 2 ^ 64.
Definition u32 (z : Z) : Z := z mod 2 ^ 32.
Definition u16 (z : Z) : Z := z mod 2 ^ 16.

Definition is_i64 (z : Z) : Prop := - 2 ^ 63 ≤ z < 2 ^ 63.
Definition is_u64 (z : Z) : Prop := 0 ≤ z < 2 ^ 64.

#[global] Instance is_i64_dec z : Decision (is_i64 z).
Proof. unfold is_i64. apply _. Defined.
#[global] Instance is_u64_dec z : Decision (is_u64 z).
Proof. unfold is_u64. apply _. Defined.

Lemma i64_id z : is_i64 z → i64 z = z.
Proof. unfold is_i64, i64. intros. rewrite Z.mod_small by lia. lia. Qed.

Lemma i64_range z : is_i64 (i64 z).
Proof.
  unfold is_i64, i64. pose proof (Z.mod_pos_bound (z + 2 ^ 63) (2 ^ 64)). lia.
Qed.

Lemma u64_id z : is_u64 z → u64 z = z.
Proof. unfold is_u64, u64. intros. by rewrite Z.mod_small by lia. Qed.

Lemma u64_range z : is_u64 (u64 z).
Proof. unfold is_u64, u64. apply Z.mod_pos_bound. lia. Qed.

(** Two integers congruent modulo [2^64] wrap to the same [int64]. *)
Lemma i64_congr a b : a mod 2 ^ 64 = b mod 2 ^ 64 → i64 a = i64 b.
Proof.
  intros H. unfold i64. f_equal.
  rewrite (Z.add_mod a), (Z.add_mod b), H by lia. reflexivity.
Qed.

Lemma i64_mod z : i64 z mod 2 ^ 64 = z mod 2 ^ 64.
Proof.
  unfold i64. rewrite Zminus_mod, Z.mod_mod, <- Zminus_mod by lia.
  f_equal. lia.
Qed.

Lemma i64_i64 z : i64 (i64 z) = i64 z.
Proof. apply i64_id, i64_range. Qed.

Lemma i64_add_l a b : i64 (i64 a + b) = i64 (a + b).
Proof. apply i64_congr. rewrite Z.add_mod, i64_mod, <- Z.add_mod; lia. Qed.

Lemma i64_add_r a b : i64 (a + i64 b) = i64 (a + b).
Proof. apply i64_congr. rewrite Z.add_mod, i64_mod, <- Z.add_mod; lia. Qed.

Lemma i64_sub_l a b : i64 (i64 a - b) = i64 (a - b).
Proof. apply i64_congr. rewrite Zminus_mod, i64_mod, <- Zminus_mod. done. Qed.

Lemma i64_sub_r a b : i64 (a - i64 b) = i64 (a - b).
Proof. apply i64_congr. rewrite Zminus_mod, i64_mod, <- Zminus_mod. done. Qed.

Lemma i64_mul_l a b : i64 (i64 a * b) = i64 (a * b).
Proof. apply i64_congr. rewrite Z.mul_mod, i64_mod, <- Z.mul_mod; lia. Qed.

Lemma u64_add_l a b : u64 (u64 a + b) = u64 (a + b).
Proof. unfold u64. by rewrite Zplus_mod_idemp_l. Qed.

Lemma u64_add_r a b : u64 (a + u64 b) = u64 (a + b).
Proof. unfold u64. by rewrite Zplus_mod_idemp_r. Qed.

#[export] Hint Rewrite i64_i64 i64_add_l i64_add_r i64_sub_l i64_sub_r i64_mul_l
  u64_add_l u64_add_r : go_int.

#[export] Hint Resolve i64_range u64_range : go_inv.

(** [go_lia] is [lia] after the wrap of every in-range operation is removed. *)
Ltac go_lia :=
  unfold is_i64, is_u64 in *; try lia;
  repeat match goal with
  | |- context [i64 ?z] => rewrite (i64_id z) by (unfold is_i64; lia)
  | H : context [i64 ?z] |- _ => rewrite (i64_id z) in H by (unfold is_i64; lia)
  | |- context [u64 ?z] => rewrite (u64_id z) by (unfold is_u64; lia)
  | H : context [u64 ?z] |- _ => rewrite (u64_id z) in H by (unfold is_u64; lia)
  end; try lia.

(** Go's integer division and remainder truncate towards zero. *)
Notation "a 'quot' b" := (Z.quot a b) (at level 40, only parsing) : go_scope.

(** [time.Time{}], the first instant of year 1, in nanoseconds. *)
Definition zero_time : Z := - 62135596800 * 10 ^ 9.

(** ** Stateful, fallible methods

    A method on a mutable receiver is a function from the receiver's state to
    an outcome and the state it leaves behind: Go keeps the writes made before
    an error return, so the state is produced in both cases.  Every method
    modelled here runs under its receiver's mutex, which makes it one atomic
    step. *)

Definition GoM (E S A : Type) : Type := S → (E + A) * S.

Section GoM.
  Context {E S : Type}.

#[global] Instance GoM_ret : MRet (GoM E S) := λ A x s, (inr x, s).
#[global] Instance GoM_bind : MBind (GoM E S) := λ A B k m s,
    match m s with
    | (inl e, s') => (inl e, s')
    | (inr x, s') => k x s'
    end.

  (** [return nil, e] *)
Definition throw {A} (e : E) : GoM E S A := λ s, (inl e, s).
  (** [if P { return nil, e }] *)
Definition throw_if (P : Prop) `{!Decision P} (e : E) : GoM E S unit := λ s,
    if decide P then (inl e, s) else (inr tt, s).
  (** [if err := f(); err != nil { return nil, err }] *)
Definition throw_some (oe : option E) : GoM E S unit := λ s,
    match oe with Some e => (inl e, s) | None => (inr tt, s) end.
  (** [x, ok := ...; if !ok { return nil, e }] *)
Definition unwrap {A} (o : option A) (e : E) : GoM E S A := λ s,
    match o with Some x => (inr x, s) | None => (inl e, s) end.
Definition lift {A} (r : E + A) : GoM E S A := λ s, (r, s).
Definition get : GoM E S S := λ s, (inr s, s).
Definition put (s : S) : GoM E S unit := λ _, (inr tt, s).
End GoM.

#[global] Typeclasses Opaque GoM.

(** Run a method, keeping only the state or only the outcome. *)
Definition exec {E S A} (m : GoM E S A) (s : S) : S := (m s).2.
Definition outcome {E S A} (m : GoM E S A) (s : S) : E + A := (m s).1.

(** [go_run] unfolds a method into the nest of tests it is, [go_cases] splits
    the tests in the goal and the hypotheses, the innermost one first. *)
Ltac go_run :=
  unfold mbind, mret, GoM_bind, GoM_ret, throw, throw_if, throw_some, unwrap,
    lift, get, put, exec, outcome in *; simpl in *.

Ltac case_inner x :=
  lazymatch x with
  | context [match ?y with _ => _ end] => case_inner y
  | decide ?P => destruct (decide P)
  | _ => let E := fresh "E" in destruct x eqn:E; try rewrite E in *
  end.
Ltac go_case :=
  match goal with
  | |- context [match ?x with _ => _ end] => case_inner x
  | H : context [match ?x with _ => _ end] |- _ => case_inner x
  end.
Ltac go_cases := repeat first [progress simplify_eq/= | go_case].

(** [elem_cases H] splits [H : x ∈ [a; b; ...]] into its cases. *)
Ltac elem_cases H :=
  repeat (rewrite elem_of_cons in H); rewrite elem_of_nil in H;
  destruct_or! H; try done.

(** Prove a closed decidable proposition by evaluating its decision. *)
Ltac compute_decide := apply (bool_decide_unpack _); vm_compute; exact I.

(** ** Lists *)

(** The sum of a list of integers, and its behaviour under the operations the
    components use. *)
Definition sumZ (l : list Z) : Z := foldr Z.add 0 l.

Lemma sumZ_cons x l : sumZ (x :: l) = x + sumZ l.
Proof. done. Qed.

Lemma sumZ_app l k : sumZ (l ++ k) = sumZ l + sumZ k.
Proof. induction l; simpl in *; lia. Qed.

Lemma sumZ_perm l k : l ≡ₚ k → sumZ l = sumZ k.
Proof. induction 1; simpl; lia. Qed.

#[global] Instance sumZ_proper : Proper ((≡ₚ) ==> (=)) sumZ.
Proof. intros ???. by apply sumZ_perm. Qed.

Lemma sumZ_nonneg l : Forall (λ z, 0 ≤ z) l → 0 ≤ sumZ l.
Proof. induction 1; simpl; lia. Qed.

Lemma elem_of_concat {A} (x : A) ls : x ∈ concat ls ↔ ∃ l, x ∈ l ∧ l ∈ ls.
Proof. induction ls as [|l ls IH]; cbn; [set_solver|]. rewrite elem_of_app, IH. set_solver. Qed.

Lemma sublist_Forall {A} (P : A → Prop) (l k : list A) :
  l `sublist_of` k → Forall P k → Forall P l.
Proof. rewrite !Forall_forall. intros Hl Hk x Hx. eapply Hk, elem_of_sublist; eauto. Qed.

Lemma submseteq_NoDup {A} (l k : list A) : NoDup k → l ⊆+ k → NoDup l.
Proof.
  intros Hk [r Hr]%submseteq_Permutation. rewrite Hr in Hk.
  by apply NoDup_app in Hk as [? _].
Qed.

(** [remove_first P l] drops the first element satisfying [P]: the idiom
    [append(s[:i], s[i+1:]...)] followed by a [return] or a [break]. *)
Fixpoint remove_first {A} (P : A → Prop) `{∀ x, Decision (P x)} (l : list A) : list A :=
  match l with
  | [] => []
  | x :: l' => if decide (P x) then l' else x :: remove_first P l'
  end.

Section remove_first.
  Context {A : Type} (P : A → Prop) `{∀ x, Decision (P x)}.

Lemma remove_first_sublist l : remove_first P l `sublist_of` l.
  Proof.
    induction l as [|x l IH]; simpl; [done|]. case_decide; [|by constructor].
    by apply sublist_cons.
  Qed.

Lemma remove_first_none l : Forall (λ x, ¬ P x) l → remove_first P l = l.
  Proof. induction 1; simpl; [done|]. case_decide; [done|]. by f_equal. Qed.

Lemma remove_first_elem_of x l : x ∈ remove_first P l → x ∈ l.
  Proof. intros. eapply elem_of_sublist; [done|apply remove_first_sublist]. Qed.

Lemma remove_first_elem_of_ne x l : ¬ P x → x ∈ l → x ∈ remove_first P l.
  Proof.
    intros HP. induction l as [|y l IH]; simpl; [done|].
    rewrite elem_of_cons. intros [->|?]; case_decide; [done|left|done|].
    right. auto.
  Qed.

Lemma remove_first_absent x l :
    NoDup l → (∀ y, P y → y = x) → P x → x ∉ remove_first P l.
  Proof.
    intros Hnd HP Hx. induction Hnd as [|y l Hy Hnd IH]; simpl; [set_solver|].
    case_decide as E; [by rewrite <- (HP _ E)|]. set_solver.
  Qed.

Lemma remove_first_nodup l : NoDup l → NoDup (remove_first P l).
  Proof. intros. eapply sublist_NoDup; [done|apply remove_first_sublist]. Qed.
End remove_first.

(** ** Sums over finite maps *)

Definition msum `{Countable K} (m : gmap K Z) : Z := map_fold (λ _ v acc, v + acc) 0 m.

Section msum.
  Context `{Countable K}.
  Implicit Types m : gmap K Z.

Lemma msum_empty : msum (∅ : gmap K Z) = 0.
  Proof. apply map_fold_empty. Qed.

Lemma msum_insert_new m k v : m !! k = None → msum (<[k := v]> m) = v + msum m.
  Proof.
    intros. unfold msum. rewrite map_fold_insert_L; [done| |done]. intros. lia.
  Qed.

Lemma msum_delete m k : msum (delete k m) = msum m - default 0 (m !! k).
  Proof.
    destruct (m !! k) as [v|] eqn:E; simpl.
    - rewrite <- (insert_delete_id m k v E) at 2.
      rewrite msum_insert_new by apply lookup_delete_eq. lia.
    - rewrite delete_id by done. lia.
  Qed.

Lemma msum_insert m k v : msum (<[k := v]> m) = v + msum m - default 0 (m !! k).
  Proof.
    rewrite <- insert_delete_eq, msum_insert_new by apply lookup_delete_eq.
    rewrite msum_delete. lia.
  Qed.

Lemma msum_nonneg m : map_Forall (λ _ v, 0 ≤ v) m → 0 ≤ msum m.
  Proof.
    induction m as [|k v m Hk IH] using map_ind; [by rewrite msum_empty|].
    rewrite map_Forall_insert, msum_insert_new by done. intros [??]. specialize (IH H1). lia.
  Qed.

Lemma msum_le m k v : map_Forall (λ _ v, 0 ≤ v) m → m !! k = Some v → v ≤ msum m.
  Proof.
    intros Hm Hk. rewrite <- (insert_delete_id m k v Hk), msum_insert_new
      by apply lookup_delete_eq.
    pose proof (msum_nonneg (delete k m) (map_Forall_delete _ _ _ Hm)). lia.
  Qed.

(** Taking one more key out. *)
Lemma msum_filter_delete m (X : gset K) u : u ∉ X →
  msum (filter (λ p, p.1 ∉ X) m) = msum (filter (λ p, p.1 ∉ {[u]} ∪ X) m) + default 0 (m !! u).
Proof.
  intros Hu. assert (filter (λ p : K * Z, p.1 ∉ {[u]} ∪ X) m = delete u (filter (λ p : K * Z, p.1 ∉ X) m)) as ->.
  { apply map_eq. intros k. apply option_eq. intros x. rewrite lookup_delete_Some, !map_lookup_filter_Some. cbn. set_solver. }
  rewrite msum_delete. assert (filter (λ p : K * Z, p.1 ∉ X) m !! u = m !! u) as ->; [|lia].
  apply option_eq. intros x. rewrite map_lookup_filter_Some. cbn. naive_solver.
Qed.
End msum.
