(* ===== verification/GoStrings.v ===== *)
(** * Go's strings

    What the modelled code uses of packages strings, strconv and fmt, on strings of bytes.
    Upper and lower case are those of ASCII; [quote] is the verb %q on ASCII (bytes above
    127 are taken to be parts of printable characters). *)

From S2P Require Import Prelude.
From stdpp Require Import options.
Open Scope Z_scope.

(** [strings.ToLower] on ASCII. *)
Definition to_lower_ascii (a : Ascii.ascii) : Ascii.ascii :=
  let n := Ascii.nat_of_ascii a in
  if decide (65 ≤ n ≤ 90)%nat then Ascii.ascii_of_nat (n + 32) else a.
Fixpoint ToLower (s : string) : string :=
  match s with
  | EmptyString => EmptyString
  | String a s' => String (to_lower_ascii a) (ToLower s')
  end.

(** [strings.ToUpper], [strings.TrimSpace] and [strings.EqualFold] on ASCII. *)
Definition to_upper_ascii (a : Ascii.ascii) : Ascii.ascii :=
  let n := Ascii.nat_of_ascii a in
  if decide (97 ≤ n ≤ 122)%nat then Ascii.ascii_of_nat (n - 32) else a.

Definition is_space (a : Ascii.ascii) : bool :=
  let n := Ascii.nat_of_ascii a in
  bool_decide ((9 ≤ n ≤ 13)%nat ∨ n = 32%nat).

Fixpoint ToUpper (s : string) : string :=
  match s with
  | EmptyString => EmptyString
  | String a s' => String (to_upper_ascii a) (ToUpper s')
  end.

Fixpoint TrimLeft (s : string) : string :=
  match s with
  | EmptyString => EmptyString
  | String a s' => if is_space a then TrimLeft s' else s
  end.

Fixpoint TrimRight (s : string) : string :=
  match s with
  | EmptyString => EmptyString
  | String a s' =>
      match TrimRight s' with
      | EmptyString => if is_space a then EmptyString else String a EmptyString
      | t => String a t
      end
  end.

Definition TrimSpace (s : string) : string := TrimRight (TrimLeft s).

Definition EqualFold (s t : string) : bool := bool_decide (ToUpper s = ToUpper t).

(** [strings.CutPrefix] and [strings.TrimPrefix] *)
Fixpoint CutPrefix (s prefix : string) : option string :=
  match prefix, s with
  | EmptyString, _ => Some s
  | String a prefix, String b s => if decide (a = b) then CutPrefix s prefix else None
  | _, EmptyString => None
  end.
Definition TrimPrefix (s prefix : string) : string := default s (CutPrefix s prefix).

Lemma CutPrefix_app prefix s : CutPrefix (prefix +:+ s) prefix = Some s.
Proof.
  induction prefix as [|a p IH]; [by destruct s|].
  change (CutPrefix (String a (p +:+ s)) (String a p) = Some s). cbn [CutPrefix]. by rewrite decide_True.
Qed.

(** The verb %q. *)
Definition hex_digit (n : nat) : Ascii.ascii :=
  Ascii.ascii_of_nat (if decide (n < 10)%nat then 48 + n else 87 + n).
Definition quote_ascii (a : Ascii.ascii) : string :=
  let n := Ascii.nat_of_ascii a in
  let esc (c : nat) := String (Ascii.ascii_of_nat 92) (String (Ascii.ascii_of_nat c) EmptyString) in
  if decide (n = 34 ∨ n = 92)%nat then esc n
  else if decide (7 ≤ n ≤ 13)%nat then
    default EmptyString (esc <$> [97; 98; 116; 110; 118; 102; 114]%nat !! (n - 7)%nat)
  else if decide (n < 32 ∨ n = 127)%nat then
    esc 120%nat +:+ String (hex_digit (n / 16)) (String (hex_digit (n mod 16)) EmptyString)
  else String a EmptyString.
Fixpoint quote_body (s : string) : string :=
  match s with
  | EmptyString => EmptyString
  | String a s => quote_ascii a +:+ quote_body s
  end.
Definition quote (s : string) : string :=
  let dq := String (Ascii.ascii_of_nat 34) EmptyString in dq +:+ quote_body s +:+ dq.

(** ** Lemmas on the string operations *)

Lemma to_upper_ascii_idem a : to_upper_ascii (to_upper_ascii a) = to_upper_ascii a.
Proof. destruct a as [[] [] [] [] [] [] [] []]; reflexivity. Qed.

Lemma is_space_upper a : is_space (to_upper_ascii a) = is_space a.
Proof. destruct a as [[] [] [] [] [] [] [] []]; reflexivity. Qed.

Lemma ToUpper_idem s : ToUpper (ToUpper s) = ToUpper s.
Proof. induction s as [|a s IH]; simpl; [done|]. by rewrite to_upper_ascii_idem, IH. Qed.

Lemma TrimLeft_ToUpper s : TrimLeft (ToUpper s) = ToUpper (TrimLeft s).
Proof.
  induction s as [|a s IH]; simpl; [done|]. rewrite is_space_upper.
  by destruct (is_space a).
Qed.

Lemma TrimRight_ToUpper s : TrimRight (ToUpper s) = ToUpper (TrimRight s).
Proof.
  induction s as [|a s IH]; simpl; [done|]. rewrite IH, is_space_upper.
  destruct (TrimRight s); simpl; [by destruct (is_space a)|done].
Qed.

Lemma TrimSpace_ToUpper s : TrimSpace (ToUpper s) = ToUpper (TrimSpace s).
Proof. unfold TrimSpace. by rewrite TrimLeft_ToUpper, TrimRight_ToUpper. Qed.

Lemma TrimRight_idem s : TrimRight (TrimRight s) = TrimRight s.
Proof.
  induction s as [|a s IH]; simpl; [done|].
  destruct (TrimRight s) as [|b t] eqn:E; simpl.
  - destruct (is_space a) eqn:Ha; simpl; [done|]. by rewrite Ha.
  - simpl in IH. by rewrite IH.
Qed.

(** Trimming on the right keeps a string that starts with a non-space fixed
    under trimming on the left. *)
Lemma TrimLeft_TrimRight s : TrimLeft s = s → TrimLeft (TrimRight s) = TrimRight s.
Proof.
  destruct s as [|a s]; simpl; [done|]. destruct (is_space a) eqn:Ha.
  - intros H. exfalso.
    assert (∀ t, String.length (TrimLeft t) ≤ String.length t)%nat as Hlen.
    { induction t as [|b t IH]; simpl; [lia|]. destruct (is_space b); simpl; lia. }
    specialize (Hlen s). rewrite H in Hlen. simpl in Hlen. lia.
  - intros _. destruct (TrimRight s); simpl; by rewrite Ha.
Qed.

Lemma TrimLeft_idem s : TrimLeft (TrimLeft s) = TrimLeft s.
Proof.
  induction s as [|a s IH]; simpl; [done|].
  destruct (is_space a) eqn:Ha; [done|]. simpl. by rewrite Ha.
Qed.

Lemma TrimSpace_idem s : TrimSpace (TrimSpace s) = TrimSpace s.
Proof.
  unfold TrimSpace. rewrite TrimLeft_TrimRight by apply TrimLeft_idem.
  apply TrimRight_idem.
Qed.

(** ** Searching *)

(** [strings.HasPrefix] and [strings.Contains] *)
Definition HasPrefix (s prefix : string) : bool := String.prefix prefix s.
Fixpoint Contains (s substr : string) : bool :=
  String.prefix substr s || match s with EmptyString => false | String _ s' => Contains s' substr end.

(** [strings.Count] and [strings.ReplaceAll] of a string that is not empty look for it from
    left to right and go on behind it: [skip] bytes of the last occurrence are left. *)
Fixpoint count_from (skip : nat) (s substr : string) : nat :=
  match s with
  | EmptyString => 0
  | String _ s' =>
      match skip with
      | S skip => count_from skip s' substr
      | O => if String.prefix substr s then S (count_from (String.length substr - 1) s' substr)
             else count_from 0 s' substr
      end
  end.
Definition Count (s substr : string) : nat :=
  if decide (substr = "") then S (String.length s) else count_from 0 s substr.
Fixpoint replace_from (skip : nat) (s old new : string) : string :=
  match s with
  | EmptyString => EmptyString
  | String a s' =>
      match skip with
      | S skip => replace_from skip s' old new
      | O => if String.prefix old s then new +:+ replace_from (String.length old - 1) s' old new
             else String a (replace_from 0 s' old new)
      end
  end.

Example Count_check : (Count "cheese" "e", Count "aaaa" "aa", replace_from 0 "oink oink" "oink" "moo") = (3, 2, "moo moo")%nat.
Proof. reflexivity. Qed.

(** [strings.FieldsFunc]: the runs of bytes that are not separators; the first component is
    the run the string starts with. *)
Fixpoint fields (sep : Ascii.ascii → bool) (s : string) : string * list string :=
  match s with
  | EmptyString => ("", [])
  | String a s =>
      let '(t, r) := fields sep s in
      if sep a then ("", if decide (t = "") then r else t :: r) else (String a t, r)
  end.
Definition FieldsFunc (sep : Ascii.ascii → bool) (s : string) : list string :=
  let '(t, r) := fields sep s in if decide (t = "") then r else t :: r.

(** [unicode.IsLetter] or [unicode.IsNumber], on ASCII; bytes above 127 are taken to be parts
    of letters. *)
Definition is_alnum (a : Ascii.ascii) : bool :=
  let n := Ascii.nat_of_ascii a in
  bool_decide (48 ≤ n ≤ 57 ∨ 65 ≤ n ≤ 90 ∨ 97 ≤ n ≤ 122 ∨ 128 ≤ n)%nat.

(** [<] on strings, by bytes. *)
Definition string_lt (s t : string) : bool :=
  match String.compare s t with Lt => true | _ => false end.
