(* ===== verification/Errors.v ===== *)
(** * pkg/errors: coded application errors

    The error type every component of the project returns, its constructors,
    the translations to and from HTTP statuses and gRPC codes, and wrapping.
    The gRPC library is not part of the repository: its codes are the members
    of the class [GrpcCodes], and [status.New(c, m)] is the pair [(c, m)] of its
    arguments. *)

From S2P Require Import Prelude.
From stdpp Require Import options.
Open Scope Z_scope.

(** ** Error values *)

(* src: pkg/errors/errors.go 13-31 const *)
Definition CodeNotFound := "NOT_FOUND".
Definition CodeInvalidArgument := "INVALID_ARGUMENT".
Definition CodeInternal := "INTERNAL".
Definition CodeUnauthorized := "UNAUTHORIZED".
Definition CodeForbidden := "FORBIDDEN".
Definition CodeConflict := "CONFLICT".
Definition CodeUnimplemented := "UNIMPLEMENTED".
Definition CodeDeadlineExceeded := "DEADLINE_EXCEEDED".
Definition CodeUnavailable := "UNAVAILABLE".
Definition CodeResourceExhausted := "RESOURCE_EXHAUSTED".
Definition CodeCanceled := "CANCELED".
Definition CodeAborted := "ABORTED".
Definition CodeFailedPrecondition := "FAILED_PRECONDITION".

(** The thirteen codes of the package, in the order of their declaration. *)
Definition standard_codes : list string :=
  [CodeNotFound; CodeInvalidArgument; CodeInternal; CodeUnauthorized;
   CodeForbidden; CodeConflict; CodeUnimplemented; CodeDeadlineExceeded;
   CodeUnavailable; CodeResourceExhausted; CodeCanceled; CodeAborted;
   CodeFailedPrecondition].

(** A Go [error]: an [*AppError], the result of [fmt.Errorf] with the format
    [%s: %w], or any other value, of which only the text is known.  The [Err]
    field of an [*AppError] may be nil. *)
(* src: pkg/errors/errors.go 37-42 AppError *)
#[warnings="-register-all"]
Inductive error :=
  | AppError (Code Message : string) (Err : option error)
  | WrapError (msg : string) (err : error)
  | OtherError (text : string).

(* src: pkg/errors/errors.go 44-49 AppError.Error *)
Fixpoint Error (e : error) : string :=
  match e with
  | AppError c m (Some e') => "[" +:+ c +:+ "] " +:+ m +:+ ": " +:+ Error e'
  | AppError c m None => "[" +:+ c +:+ "] " +:+ m
  | WrapError m e' => m +:+ ": " +:+ Error e'
  | OtherError t => t
  end.

(* src: pkg/errors/errors.go 51-53 AppError.Unwrap *)
Definition Unwrap (e : error) : option error :=
  match e with
  | AppError _ _ e' => e'
  | WrapError _ e' => Some e'
  | OtherError _ => None
  end.

(* src: pkg/errors/errors.go 55-62 New *)
Definition New (code message : string) (err : option error) : error :=
  AppError code message err.

(** The constructors share the replacement of an empty message. *)
Definition or_default (msg dflt : string) : string :=
  if decide (msg = "") then dflt else msg.

(* src: pkg/errors/errors.go 66-72 NotFound *)
Definition NotFound (msg : string) (err : option error) : error :=
  New CodeNotFound (or_default msg "resource not found") err.
(* src: pkg/errors/errors.go 74-80 InvalidArgument *)
Definition InvalidArgument (msg : string) (err : option error) : error :=
  New CodeInvalidArgument (or_default msg "invalid argument") err.
(* src: pkg/errors/errors.go 82-88 Internal *)
Definition Internal (msg : string) (err : option error) : error :=
  New CodeInternal (or_default msg "internal server error") err.
(* src: pkg/errors/errors.go 90-96 Unauthorized *)
Definition Unauthorized (msg : string) (err : option error) : error :=
  New CodeUnauthorized (or_default msg "unauthorized") err.
(* src: pkg/errors/errors.go 98-104 Forbidden *)
Definition Forbidden (msg : string) (err : option error) : error :=
  New CodeForbidden (or_default msg "forbidden") err.
(* src: pkg/errors/errors.go 106-112 Conflict *)
Definition Conflict (msg : string) (err : option error) : error :=
  New CodeConflict (or_default msg "conflict") err.
(* src: pkg/errors/errors.go 114-120 Unimplemented *)
Definition Unimplemented (msg : string) (err : option error) : error :=
  New CodeUnimplemented (or_default msg "not implemented") err.
(* src: pkg/errors/errors.go 122-128 DeadlineExceeded *)
Definition DeadlineExceeded (msg : string) (err : option error) : error :=
  New CodeDeadlineExceeded (or_default msg "deadline exceeded") err.
(* src: pkg/errors/errors.go 130-136 Unavailable *)
Definition Unavailable (msg : string) (err : option error) : error :=
  New CodeUnavailable (or_default msg "service unavailable") err.
(* src: pkg/errors/errors.go 138-144 ResourceExhausted *)
Definition ResourceExhausted (msg : string) (err : option error) : error :=
  New CodeResourceExhausted (or_default msg "resource exhausted") err.
(* src: pkg/errors/errors.go 146-152 Canceled *)
Definition Canceled (msg : string) (err : option error) : error :=
  New CodeCanceled (or_default msg "canceled") err.
(* src: pkg/errors/errors.go 154-160 Aborted *)
Definition Aborted (msg : string) (err : option error) : error :=
  New CodeAborted (or_default msg "aborted") err.
(* src: pkg/errors/errors.go 162-168 FailedPrecondition *)
Definition FailedPrecondition (msg : string) (err : option error) : error :=
  New CodeFailedPrecondition (or_default msg "failed precondition") err.

(** The code and message of the first [*AppError] of the chain, which is what
    [errors.As] with an [*AppError] target finds. *)
(* src: pkg/errors/errors.go 358-362 As *)
Definition As (err : option error) : option (string * string) :=
  match err with
  | None => None
  | Some e =>
      (fix go (e : error) : option (string * string) :=
         match e with
         | AppError c m _ => Some (c, m)
         | WrapError _ e' => go e'
         | OtherError _ => None
         end) e
  end.

(** ** HTTP *)

(** The constants of [net/http] the package names. *)
Definition StatusBadRequest := 400.
Definition StatusUnauthorized := 401.
Definition StatusForbidden := 403.
Definition StatusNotFound := 404.
Definition StatusRequestTimeout := 408.
Definition StatusConflict := 409.
Definition StatusPreconditionFailed := 412.
Definition StatusTooManyRequests := 429.
Definition StatusInternalServerError := 500.
Definition StatusNotImplemented := 501.
Definition StatusServiceUnavailable := 503.
Definition StatusGatewayTimeout := 504.

(* src: pkg/errors/errors.go 33-35 StatusClientClosedRequest *)
Definition StatusClientClosedRequest := 499.

(** [http.StatusText]. *)
Definition StatusText_table : list (Z * string) :=
  [(100, "Continue"); (101, "Switching Protocols"); (102, "Processing");
   (103, "Early Hints"); (200, "OK"); (201, "Created"); (202, "Accepted");
   (203, "Non-Authoritative Information"); (204, "No Content");
   (205, "Reset Content"); (206, "Partial Content"); (207, "Multi-Status");
   (208, "Already Reported"); (226, "IM Used"); (300, "Multiple Choices");
   (301, "Moved Permanently"); (302, "Found"); (303, "See Other");
   (304, "Not Modified"); (305, "Use Proxy"); (307, "Temporary Redirect");
   (308, "Permanent Redirect"); (400, "Bad Request"); (401, "Unauthorized");
   (402, "Payment Required"); (403, "Forbidden"); (404, "Not Found");
   (405, "Method Not Allowed"); (406, "Not Acceptable");
   (407, "Proxy Authentication Required"); (408, "Request Timeout");
   (409, "Conflict"); (410, "Gone"); (411, "Length Required");
   (412, "Precondition Failed"); (413, "Request Entity Too Large");
   (414, "Request URI Too Long"); (415, "Unsupported Media Type");
   (416, "Requested Range Not Satisfiable"); (417, "Expectation Failed");
   (418, "I'm a teapot"); (421, "Misdirected Request");
   (422, "Unprocessable Entity"); (423, "Locked"); (424, "Failed Dependency");
   (425, "Too Early"); (426, "Upgrade Required"); (428, "Precondition Required");
   (429, "Too Many Requests"); (431, "Request Header Fields Too Large");
   (451, "Unavailable For Legal Reasons"); (500, "Internal Server Error");
   (501, "Not Implemented"); (502, "Bad Gateway"); (503, "Service Unavailable");
   (504, "Gateway Timeout"); (505, "HTTP Version Not Supported");
   (506, "Variant Also Negotiates"); (507, "Insufficient Storage");
   (508, "Loop Detected"); (510, "Not Extended");
   (511, "Network Authentication Required")].

Definition StatusText (code : Z) : string :=
  default "" ((list_to_map StatusText_table : gmap Z string) !! code).

(** The first branch whose label equals [x]: a Go [switch] with constant
    cases; [None] when no case matches. *)
Fixpoint switch {A B} `{EqDecision A} (x : A) (cases : list (A * B)) : option B :=
  match cases with
  | [] => None
  | (a, b) :: cases' => if decide (x = a) then Some b else switch x cases'
  end.

(* src: pkg/errors/errors.go 170-205 HTTPStatus *)
Definition HTTPStatus (err : option error) : Z :=
  match As err with
  | Some (code, _) =>
      default StatusInternalServerError (switch code
        [(CodeNotFound, StatusNotFound);
         (CodeInvalidArgument, StatusBadRequest);
         (CodeUnauthorized, StatusUnauthorized);
         (CodeForbidden, StatusForbidden);
         (CodeConflict, StatusConflict);
         (CodeInternal, StatusInternalServerError);
         (CodeUnimplemented, StatusNotImplemented);
         (CodeDeadlineExceeded, StatusGatewayTimeout);
         (CodeUnavailable, StatusServiceUnavailable);
         (CodeResourceExhausted, StatusTooManyRequests);
         (CodeCanceled, StatusClientClosedRequest);
         (CodeAborted, StatusConflict);
         (CodeFailedPrecondition, StatusBadRequest)])
  | None => StatusInternalServerError
  end.

(* src: pkg/errors/errors.go 247-281 FromHTTP *)
Definition FromHTTP (statusCode : Z) (msg : string) : error :=
  let msg := if decide (msg = "") then StatusText statusCode else msg in
  match switch statusCode
    [(StatusNotFound, NotFound msg None);
     (StatusBadRequest, InvalidArgument msg None);
     (StatusUnauthorized, Unauthorized msg None);
     (StatusForbidden, Forbidden msg None);
     (StatusConflict, Conflict msg None);
     (StatusNotImplemented, Unimplemented msg None);
     (StatusGatewayTimeout, DeadlineExceeded msg None);
     (StatusRequestTimeout, DeadlineExceeded msg None);
     (StatusServiceUnavailable, Unavailable msg None);
     (StatusTooManyRequests, ResourceExhausted msg None);
     (StatusClientClosedRequest, Canceled msg None);
     (StatusPreconditionFailed, FailedPrecondition msg None)]
  with
  | Some e => e
  | None =>
      if decide (500 ≤ statusCode) then Internal msg None
      else InvalidArgument msg None
  end.

(** ** gRPC *)

Class GrpcCodes := {
  Code_t : Type;
  Code_t_eqdec :: EqDecision Code_t;
  Code_String : Code_t → string;
  cOK : Code_t; cCanceled : Code_t; cUnknown : Code_t; cInvalidArgument : Code_t;
  cDeadlineExceeded : Code_t; cNotFound : Code_t; cAlreadyExists : Code_t;
  cPermissionDenied : Code_t; cResourceExhausted : Code_t;
  cFailedPrecondition : Code_t; cAborted : Code_t; cUnimplemented : Code_t;
  cInternal : Code_t; cUnavailable : Code_t; cUnauthenticated : Code_t;
  codes_distinct :
    NoDup [cOK; cCanceled; cUnknown; cInvalidArgument; cDeadlineExceeded;
           cNotFound; cAlreadyExists; cPermissionDenied; cResourceExhausted;
           cFailedPrecondition; cAborted; cUnimplemented; cInternal;
           cUnavailable; cUnauthenticated]
}.

Section grpc.
  Context `{!GrpcCodes}.

(** The cases of the [switch] of [GRPCStatus] and of that of [FromGRPC]. *)
Definition grpc_cases : list (string * Code_t) :=
  [(CodeNotFound, cNotFound);
   (CodeInvalidArgument, cInvalidArgument);
   (CodeUnauthorized, cUnauthenticated);
   (CodeForbidden, cPermissionDenied);
   (CodeConflict, cAlreadyExists);
   (CodeInternal, cInternal);
   (CodeUnimplemented, cUnimplemented);
   (CodeDeadlineExceeded, cDeadlineExceeded);
   (CodeUnavailable, cUnavailable);
   (CodeResourceExhausted, cResourceExhausted);
   (CodeCanceled, cCanceled);
   (CodeAborted, cAborted);
   (CodeFailedPrecondition, cFailedPrecondition)].

Definition from_grpc_cases : list (Code_t * (string → option error → error)) :=
  [(cNotFound, NotFound);
   (cInvalidArgument, InvalidArgument);
   (cUnauthenticated, Unauthorized);
   (cPermissionDenied, Forbidden);
   (cAlreadyExists, Conflict);
   (cUnimplemented, Unimplemented);
   (cDeadlineExceeded, DeadlineExceeded);
   (cUnavailable, Unavailable);
   (cResourceExhausted, ResourceExhausted);
   (cCanceled, Canceled);
   (cAborted, Aborted);
   (cFailedPrecondition, FailedPrecondition);
   (cInternal, Internal)].

(** The code and message given to [status.New]. *)
(* src: pkg/errors/errors.go 207-245 GRPCStatus *)
Definition GRPCStatus (err : option error) : Code_t * string :=
  let fallback :=
    match err with
    | None => (cOK, "")
    | Some e => (cUnknown, Error e)
    end in
  match As err with
  | Some (code, message) =>
      match switch code grpc_cases
      with
      | Some c => (c, message)
      | None => fallback
      end
  | None => fallback
  end.

(* src: pkg/errors/errors.go 283-318 FromGRPC *)
Definition FromGRPC (code : Code_t) (msg : string) : error :=
  let msg := if decide (msg = "") then Code_String code else msg in
  match switch code from_grpc_cases with
  | Some mk => mk msg None
  | None => Internal msg None
  end.
End grpc.

(** ** Wrapping and classification *)

(* src: pkg/errors/errors.go 320-332 Wrap *)
Definition Wrap (err : option error) (msg : string) : option error :=
  match err with
  | None => None
  | Some e =>
      match As err with
      | Some (code, _) => Some (New code msg (Some e))
      | None => Some (WrapError msg e)
      end
  end.

(* src: pkg/errors/errors.go 334-341 IsCode *)
Definition IsCode (err : option error) (code : string) : bool :=
  match As err with
  | Some (c, _) => bool_decide (c = code)
  | None => false
  end.

(* src: pkg/errors/errors.go 343-351 Code *)
Definition Code (err : option error) : string :=
  match As err with
  | Some (c, _) => c
  | None => ""
  end.

(** ** Lemmas *)

Lemma switch_elem_of {A B} `{EqDecision A} (x : A) (cases : list (A * B)) b :
  switch x cases = Some b → (x, b) ∈ cases.
Proof.
  induction cases as [|[a b'] cases IH]; simpl; [done|].
  case_decide; intros; simplify_eq; rewrite elem_of_cons; auto.
Qed.

(** In a [switch] with distinct labels, a label selects its own branch. *)
Lemma switch_NoDup {A B} `{EqDecision A} (x : A) (cases : list (A * B)) b :
  NoDup cases.*1 → (x, b) ∈ cases → switch x cases = Some b.
Proof.
  induction cases as [|[a b'] cases IH]; simpl; [by intros _ ?%elem_of_nil|].
  rewrite NoDup_cons, elem_of_cons. intros [Hna Hnd] [?|Hin]; simplify_eq.
  - by rewrite decide_True.
  - rewrite decide_False; [auto|]. intros ->. destruct Hna.
    apply list_elem_of_fmap. by exists (a, b).
Qed.

(** Wrapping keeps the code that [errors.As] finds. *)
Lemma As_Wrap err msg : fst <$> As (Wrap err msg) = fst <$> As err.
Proof.
  destruct err as [e|]; [|done]. unfold Wrap.
  destruct (As (Some e)) as [[c m]|] eqn:E; simpl; [done|].
  simpl in E. by rewrite E.
Qed.

Lemma Code_As err : Code err = default "" (fst <$> As err).
Proof. unfold Code. by destruct (As err) as [[]|]. Qed.

Lemma HTTPStatus_Code err err' :
  fst <$> As err = fst <$> As err' → HTTPStatus err = HTTPStatus err'.
Proof.
  unfold HTTPStatus.
  destruct (As err) as [[]|], (As err') as [[]|]; simpl; naive_solver.
Qed.

(** The statuses [HTTPStatus] can produce. *)
Lemma HTTPStatus_range err :
  HTTPStatus err ∈
    [404; 400; 401; 403; 409; 500; 501; 504; 503; 429; 499].
Proof.
  unfold HTTPStatus. destruct (As err) as [[c m]|]; [|compute_decide].
  destruct (switch _ _) as [z|] eqn:E; [|compute_decide].
  apply switch_elem_of in E.
  elem_cases E; injection E as _ ->; compute_decide.
Qed.

Section grpc_lemmas.
  Context `{!GrpcCodes}.

Lemma from_grpc_cases_distinct : NoDup from_grpc_cases.*1.
  Proof. eapply submseteq_NoDup; [apply codes_distinct|simpl; solve_submseteq]. Qed.

  (** Each standard code has a gRPC code, which has the constructor of that
      standard code. *)
Lemma grpc_case c : c ∈ standard_codes → ∃ gc mk,
    switch c grpc_cases = Some gc ∧ switch gc from_grpc_cases = Some mk ∧
    ∀ m, m ≠ "" → mk m None = AppError c m None.
  Proof.
    intros Hc. unfold standard_codes in Hc.
    assert (∀ m d, m ≠ "" → or_default m d = m) as Hd
      by (intros; unfold or_default; by case_decide).
    elem_cases Hc; subst c; eexists _, _; (split_and!;
      [reflexivity
      |apply switch_NoDup; [apply from_grpc_cases_distinct|];
       unfold from_grpc_cases; repeat (first [left; reflexivity|right])
      |intros m ?; cbv [NotFound InvalidArgument Internal Unauthorized Forbidden
         Conflict Unimplemented DeadlineExceeded Unavailable ResourceExhausted
         Canceled Aborted FailedPrecondition New]; by rewrite Hd]).
  Qed.
End grpc_lemmas.

(** ** Properties *)

(** Wrapping an error never changes how it is classified: [Wrap] returns
    nil exactly on nil, and the code, the result of [IsCode] for every code and
    the HTTP status of a wrapped error are those of the error it wraps, however
    deep the [*AppError] is buried in the chain. *)
Theorem Wrap_preserves_classification err msg :
  (Wrap err msg = None ↔ err = None) ∧
  Code (Wrap err msg) = Code err ∧
  (∀ c, IsCode (Wrap err msg) c = IsCode err c) ∧
  HTTPStatus (Wrap err msg) = HTTPStatus err.
Proof.
  split_and!.
  - destruct err as [e|]; simpl; [|done]. by repeat case_match.
  - by rewrite !Code_As, As_Wrap.
  - intros c. pose proof (As_Wrap err msg) as H. unfold IsCode.
    destruct (As (Wrap err msg)) as [[]|], (As err) as [[]|]; simpl in H; naive_solver.
  - apply HTTPStatus_Code, As_Wrap.
Qed.

(** Errors survive both transports. Over HTTP, an error rebuilt from the
    status it was sent with has that same status, whatever the error and the
    message. Over gRPC, an application error with one of the thirteen standard
    codes and a non-empty message is rebuilt with exactly its code and its
    message. *)
Theorem transport_roundtrip `{!GrpcCodes} :
  (∀ err msg, HTTPStatus (Some (FromHTTP (HTTPStatus err) msg)) = HTTPStatus err) ∧
  (∀ c m e, c ∈ standard_codes → m ≠ "" →
     let st := GRPCStatus (Some (AppError c m e)) in
     FromGRPC st.1 st.2 = AppError c m None).
Proof.
  split.
  - intros err msg. pose proof (HTTPStatus_range err) as Hs.
    elem_cases Hs; rewrite Hs; reflexivity.
  - intros c m e Hc Hm st. destruct (grpc_case c Hc) as (gc & mk & Hgc & Hmk & Hd).
    assert (st = (gc, m)) as -> by (unfold st, GRPCStatus; cbn [As]; by rewrite Hgc).
    simpl fst. simpl snd.
    unfold FromGRPC. rewrite Hmk, decide_False by done. by apply Hd.
Qed.

(** The numbering gRPC documents for its codes. *)
Definition grpc_numbers : GrpcCodes.
Proof.
  refine {| Code_t := Z; Code_String := λ _, "code";
    cOK := 0; cCanceled := 1; cUnknown := 2; cInvalidArgument := 3;
    cDeadlineExceeded := 4; cNotFound := 5; cAlreadyExists := 6;
    cPermissionDenied := 7; cResourceExhausted := 8; cFailedPrecondition := 9;
    cAborted := 10; cUnimplemented := 12; cInternal := 13; cUnavailable := 14;
    cUnauthenticated := 16 |}.
  compute_decide.
Defined.

Lemma transport_roundtrip_witness :
  let st := @GRPCStatus grpc_numbers (Some (AppError CodeAborted "busy" None)) in
  @FromGRPC grpc_numbers st.1 st.2 = AppError CodeAborted "busy" None.
Proof.
  apply (proj2 (@transport_roundtrip grpc_numbers)); [|done].
  compute_decide.
Defined.
