(* ===== verification/Digest.v ===== *)
(** * Packages crypto/sha256, crypto/sha1 and crypto/hmac

    [Sum256] of the standard library, and in module [Sha1] SHA-1 and HMAC-SHA-1, executable
    on lists of bytes. *)

From S2P Require Import Prelude.
From stdpp Require Import options.
Open Scope Z_scope.

Definition w32 (z : Z) : Z := z mod 2 ^ 32.
Definition rotr (n x : Z) : Z := Z.lor (Z.shiftr x n) (w32 (Z.shiftl x (32 - n))).

(** The message with its padding: 0x80, zeros, and the length in bits. *)
Definition pad (bytes : list Z) : list Z :=
  let n := Z.of_nat (length bytes) in
  bytes ++ [128] ++ replicate (Z.to_nat ((55 - n) mod 64)) 0 ++
  ((λ k, Z.shiftr (8 * n) (8 * Z.of_nat k) mod 256) <$> [7; 6; 5; 4; 3; 2; 1; 0]%nat).

Fixpoint words (n : nat) (bs : list Z) : list Z :=
  match n, bs with
  | S n, a :: b :: c :: d :: bs => (a * 2 ^ 24 + b * 2 ^ 16 + c * 2 ^ 8 + d) :: words n bs
  | _, _ => []
  end.

(** The 64 words of a block, the latest first. *)
Definition extend (l : list Z) : list Z :=
  let s0 := let x := l !!! 14%nat in Z.lxor (rotr 7 x) (Z.lxor (rotr 18 x) (Z.shiftr x 3)) in
  let s1 := let x := l !!! 1%nat in Z.lxor (rotr 17 x) (Z.lxor (rotr 19 x) (Z.shiftr x 10)) in
  w32 (s1 + l !!! 6%nat + s0 + l !!! 15%nat) :: l.
Definition schedule (ws : list Z) : list Z := Nat.iter 48 extend (reverse ws).

Definition K : list Z :=
  [1116352408; 1899447441; 3049323471; 3921009573; 961987163; 1508970993; 2453635748; 2870763221;
   3624381080; 310598401; 607225278; 1426881987; 1925078388; 2162078206; 2614888103; 3248222580;
   3835390401; 4022224774; 264347078; 604807628; 770255983; 1249150122; 1555081692; 1996064986;
   2554220882; 2821834349; 2952996808; 3210313671; 3336571891; 3584528711; 113926993; 338241895;
   666307205; 773529912; 1294757372; 1396182291; 1695183700; 1986661051; 2177026350; 2456956037;
   2730485921; 2820302411; 3259730800; 3345764771; 3516065817; 3600352804; 4094571909; 275423344;
   430227734; 506948616; 659060556; 883997877; 958139571; 1322822218; 1537002063; 1747873779;
   1955562222; 2024104815; 2227730452; 2361852424; 2428436474; 2756734187; 3204031479; 3329325298].
Definition H0 : list Z :=
  [1779033703; 3144134277; 1013904242; 2773480762; 1359893119; 2600822924; 528734635; 1541459225].

Definition round (h : list Z) (kw : Z * Z) : list Z :=
  match h with
  | [a; b; c; d; e; f; g; hh] =>
      let S1 := Z.lxor (rotr 6 e) (Z.lxor (rotr 11 e) (rotr 25 e)) in
      let ch := Z.lxor (Z.land e f) (Z.land (2 ^ 32 - 1 - e) g) in
      let t1 := w32 (hh + S1 + ch + kw.1 + kw.2) in
      let S0 := Z.lxor (rotr 2 a) (Z.lxor (rotr 13 a) (rotr 22 a)) in
      let maj := Z.lxor (Z.land a b) (Z.lxor (Z.land a c) (Z.land b c)) in
      [w32 (t1 + S0 + maj); a; b; c; w32 (d + t1); e; f; g]
  | _ => h
  end.

Definition block (h bs : list Z) : list Z :=
  zip_with (λ x y, w32 (x + y)) h (foldl round h (zip K (reverse (schedule (words 16 bs))))).

Fixpoint blocks (fuel : nat) (h bs : list Z) : list Z :=
  match fuel, bs with
  | S fuel, _ :: _ => blocks fuel (block h (take 64 bs)) (drop 64 bs)
  | _, _ => h
  end.

Definition be32 (z : Z) : list Z := (λ k, Z.shiftr z (8 * k) mod 256) <$> [3; 2; 1; 0].

(** The 32 bytes of the digest. *)
Definition Sum256 (bytes : list Z) : list Z :=
  let bs := pad bytes in concat (be32 <$> blocks (length bs) H0 bs).

Definition bytes_of (s : string) : list Z :=
  (λ c, Z.of_N (Ascii.N_of_ascii c)) <$> String.list_ascii_of_string s.

Example Sum256_abc : Sum256 (bytes_of "abc") =
  [186; 120; 22; 191; 143; 1; 207; 234; 65; 65; 64; 222; 93; 174; 34; 35; 176; 3; 97; 163; 150; 23;
   122; 156; 180; 16; 255; 97; 242; 0; 21; 173].
Proof. vm_compute. reflexivity. Qed.
Example Sum256_two_blocks :
  Sum256 (bytes_of "abcdbcdecdefdefgefghfghighijhijkijkljklmklmnlmnomnopnopq") =
  [36; 141; 106; 97; 210; 6; 56; 184; 229; 192; 38; 147; 12; 62; 96; 57; 163; 60; 228; 89; 100;
   255; 33; 103; 246; 236; 237; 212; 25; 219; 6; 193].
Proof. vm_compute. reflexivity. Qed.

(** A digest has 32 bytes. *)
Lemma round_length h kw : length h = 8%nat → length (round h kw) = 8%nat.
Proof. by destruct h as [|? [|? [|? [|? [|? [|? [|? [|? [|]]]]]]]]]. Qed.

Lemma rounds_length l h : length h = 8%nat → length (foldl round h l) = 8%nat.
Proof. revert h. induction l as [|kw l IH]; intros h Hh; [done|]. by apply IH, round_length. Qed.

Lemma blocks_length fuel h bs : length h = 8%nat → length (blocks fuel h bs) = 8%nat.
Proof.
  revert h bs. induction fuel as [|fuel IH]; intros h bs Hh; [done|]. destruct bs; [done|].
  apply IH. unfold block. rewrite length_zip_with, rounds_length by done. lia.
Qed.

Lemma Sum256_length bytes : length (Sum256 bytes) = 32%nat.
Proof.
  unfold Sum256. pose proof (blocks_length (length (pad bytes)) H0 (pad bytes) eq_refl) as Hl.
  revert Hl. generalize (blocks (length (pad bytes)) H0 (pad bytes)) as l. intros l Hl.
  by destruct l as [|? [|? [|? [|? [|? [|? [|? [|? [|]]]]]]]]].
Qed.

(** ** SHA-1 *)

Module Sha1.

Definition rotl (n x : Z) : Z := Z.lor (w32 (Z.shiftl x n)) (Z.shiftr x (32 - n)).

(** The 80 words of a block, the latest first. *)
Definition schedule (ws : list Z) : list Z :=
  Nat.iter 64 (λ l, rotl 1 (Z.lxor (Z.lxor (l !!! 2%nat) (l !!! 7%nat))
                                   (Z.lxor (l !!! 13%nat) (l !!! 15%nat))) :: l) (reverse ws).

Definition round (h : Z * Z * Z * Z * Z) (tw : nat * Z) : Z * Z * Z * Z * Z :=
  let '(a, b, c, d, e) := h in
  let '(t, w) := tw in
  let '(f, k) :=
    if decide (t < 20)%nat then (Z.lor (Z.land b c) (Z.land (2 ^ 32 - 1 - b) d), 1518500249)
    else if decide (t < 40)%nat then (Z.lxor b (Z.lxor c d), 1859775393)
    else if decide (t < 60)%nat
    then (Z.lor (Z.land b c) (Z.lor (Z.land b d) (Z.land c d)), 2400959708)
    else (Z.lxor b (Z.lxor c d), 3395469782) in
  (w32 (rotl 5 a + f + e + k + w), a, rotl 30 b, c, d).

Definition block (h : Z * Z * Z * Z * Z) (bs : list Z) : Z * Z * Z * Z * Z :=
  let '(a, b, c, d, e) := h in
  let '(a', b', c', d', e') := foldl round h (imap pair (reverse (schedule (words 16 bs)))) in
  (w32 (a + a'), w32 (b + b'), w32 (c + c'), w32 (d + d'), w32 (e + e')).

Fixpoint blocks (fuel : nat) (h : Z * Z * Z * Z * Z) (bs : list Z) : Z * Z * Z * Z * Z :=
  match fuel, bs with
  | S fuel, _ :: _ => blocks fuel (block h (take 64 bs)) (drop 64 bs)
  | _, _ => h
  end.

Definition state (bytes : list Z) : Z * Z * Z * Z * Z :=
  let bs := pad bytes in blocks (length bs) (1732584193, 4023233417, 2562383102, 271733878, 3285377520) bs.

(** The digest as a big-endian integer. *)
Definition sha1 (s : string) : Z :=
  let '(a, b, c, d, e) := state (bytes_of s) in
  (((a * 2 ^ 32 + b) * 2 ^ 32 + c) * 2 ^ 32 + d) * 2 ^ 32 + e.

Example sha1_abc : sha1 "abc" = 968236873715988614170569073515315707566766479517.
Proof. vm_compute. reflexivity. Qed.

(** The digest as bytes. *)
Definition Sum (bytes : list Z) : list Z :=
  let '(a, b, c, d, e) := state bytes in be32 a ++ be32 b ++ be32 c ++ be32 d ++ be32 e.

Lemma Sum_length bytes : length (Sum bytes) = 20%nat.
Proof. unfold Sum. by destruct (state bytes) as [[[[a b] c] d] e]. Qed.

Lemma Sum_bytes bytes : Forall (λ b, 0 ≤ b < 256) (Sum bytes).
Proof.
  unfold Sum. destruct (state bytes) as [[[[a b] c] d] e]. assert (∀ z, Forall (λ b, 0 ≤ b < 256) (be32 z)) as Hb by (intros z; apply Forall_fmap, Forall_true; intros k; by apply Z.mod_pos_bound).
  by repeat (apply Forall_app; split).
Qed.

(** Package crypto/hmac with this hash. *)
Definition hmac (key msg : list Z) : list Z :=
  let key := if decide (64 < length key)%nat then Sum key else key in
  let key := key ++ replicate (64 - length key) 0 in
  Sum ((Z.lxor 92 <$> key) ++ Sum ((Z.lxor 54 <$> key) ++ msg)).

Lemma hmac_length key msg : length (hmac key msg) = 20%nat.
Proof. apply Sum_length. Qed.

(** The second case of RFC 2202. *)
Example hmac_rfc2202 : hmac (bytes_of "Jefe")
    (bytes_of "what do ya want for nothing?") =
  [0xef; 0xfc; 0xdf; 0x6a; 0xe5; 0xeb; 0x2f; 0xa2; 0xd2; 0x74; 0x16; 0xd5; 0xf1; 0x84; 0xdf; 0x9c; 0x25; 0x9a; 0x7c; 0x79].
Proof. vm_compute. reflexivity. Qed.
End Sha1.
