(* ===== verification/Float64.v ===== *)
(** * Go's [float64]

    A [float64] is a [spec_float] of the Standard Library: the values of IEEE 754 binary64,
    with the operations rounded to the nearest.  What the conversion of a float out of the
    range of [int64] gives is up to the platform: it is the argument [oor]. *)

From S2P Require Import Prelude.
From Stdlib Require Export SpecFloat.
From stdpp Require Import options.
Open Scope Z_scope.

Abbreviation float64 := spec_float.
Definition fmul : float64 → float64 → float64 := SFmul 53 1024.
Definition fadd : float64 → float64 → float64 := SFadd 53 1024.
Definition fdiv : float64 → float64 → float64 := SFdiv 53 1024.
Definition fsub : float64 → float64 → float64 := SFsub 53 1024.
(** [float64(z)], rounded to the nearest. *)
Definition of_i64 (z : Z) : float64 := binary_normalize 53 1024 z 0 false.

(** [int64(f)] truncates towards zero. *)
Definition trunc (f : float64) : option Z :=
  match f with
  | S754_zero _ => Some 0
  | S754_finite s m e =>
      let a := if decide (0 ≤ e) then Z.pos m * 2 ^ e else Z.pos m / 2 ^ (- e) in
      Some (if s : bool then - a else a)
  | _ => None
  end.
Definition to_i64 (oor : float64 → Z) (f : float64) : Z :=
  match trunc f with
  | Some z => if decide (is_i64 z) then z else i64 (oor f)
  | None => i64 (oor f)
  end.

Lemma to_i64_range oor f : is_i64 (to_i64 oor f).
Proof. unfold to_i64. destruct (trunc f); [case_decide; [done|]|]; apply i64_range. Qed.

(** [time.Duration.Seconds] *)
Definition Seconds (d : Z) : float64 :=
  fadd (of_i64 (Z.quot d (10 ^ 9))) (fdiv (of_i64 (Z.rem d (10 ^ 9))) (of_i64 (10 ^ 9))).

Example Seconds_hour : to_i64 (λ _, 0) (Seconds (3600 * 10 ^ 9 + 999999999)) = 3600.
Proof. vm_compute. reflexivity. Qed.

(** ** Order

    Comparisons are false on NaN; on the other values [<] is a strict weak order (the two
    zeros are equal): it compares [rank]s lexicographically. *)

Definition flt (a b : float64) : bool := match SFcompare a b with Some Lt => true | _ => false end.
Definition fge (a b : float64) : bool :=
  match SFcompare a b with Some Gt | Some Eq => true | _ => false end.
Definition feq (a b : float64) : bool := match SFcompare a b with Some Eq => true | _ => false end.

Definition is_num (f : float64) : Prop := f ≠ S754_nan.
#[global] Instance is_num_dec f : Decision (is_num f).
Proof. unfold is_num. destruct f; (left; done) || (right; by intros H). Defined.

Definition rank (f : float64) : Z * Z * Z :=
  match f with
  | S754_zero _ | S754_nan => (0, 0, 0)
  | S754_infinity s => (if s then -2 else 2, 0, 0)
  | S754_finite true m e => (-1, - e, Z.neg m)
  | S754_finite false m e => (1, e, Z.pos m)
  end.
Definition rank_lt (x y : Z * Z * Z) : Prop :=
  x.1.1 < y.1.1 ∨ (x.1.1 = y.1.1 ∧ (x.1.2 < y.1.2 ∨ (x.1.2 = y.1.2 ∧ x.2 < y.2))).

Lemma SFcompare_rank a b : is_num a → is_num b →
  match SFcompare a b with
  | Some Lt => rank_lt (rank a) (rank b)
  | Some Gt => rank_lt (rank b) (rank a)
  | Some Eq => rank a = rank b
  | None => False
  end.
Proof.
  intros Ha Hb. destruct a as [[]|[]| |[] m e]; try done; destruct b as [[]|[]| |[] m' e']; try done;
    cbn; unfold rank_lt; cbn; try lia.
  - destruct (Z.compare_spec e e') as [->|?|?]; cbn; [|lia|lia].
    fold (Pos.compare m m'). destruct (Pos.compare_spec m m') as [->|?|?]; cbn; [done|lia|lia].
  - destruct (Z.compare_spec e e') as [->|?|?]; cbn; [|lia|lia].
    fold (Pos.compare m m'). destruct (Pos.compare_spec m m') as [->|?|?]; cbn; [done|lia|lia].
Qed.

Lemma flt_spec a b : is_num a → is_num b → flt a b = true ↔ rank_lt (rank a) (rank b).
Proof.
  intros Ha Hb. unfold flt. pose proof (SFcompare_rank a b Ha Hb) as H. unfold rank_lt in *.
  destruct (SFcompare a b) as [[]|]; [rewrite H|..]; split; intros; try done; lia.
Qed.

Lemma flt_irrefl a : flt a a = false.
Proof.
  unfold flt. destruct a as [s|s| |s m e]; cbn; [done|by destruct s|done|].
  destruct s; rewrite Z.compare_refl, Pos.compare_cont_refl; done.
Qed.

(** [fle a b]: not greater. *)
Definition fle (a b : float64) : Prop := flt b a = false.

Lemma fle_spec a b : is_num a → is_num b → fle a b ↔ ¬ rank_lt (rank b) (rank a).
Proof. intros Ha Hb. unfold fle. rewrite <- (flt_spec b a Hb Ha). by destruct (flt b a). Qed.

Lemma fle_refl a : fle a a.
Proof. apply flt_irrefl. Qed.
Lemma fle_trans a b c : is_num a → is_num b → is_num c → fle a b → fle b c → fle a c.
Proof. intros Ha Hb Hc. rewrite !fle_spec by done. unfold rank_lt. lia. Qed.
Lemma flt_fle a b : is_num a → is_num b → flt a b = true → fle a b.
Proof. intros Ha Hb. rewrite flt_spec, fle_spec by done. unfold rank_lt. lia. Qed.
Lemma fle_total a b : is_num a → is_num b → fle a b ∨ fle b a.
Proof. intros Ha Hb. rewrite !fle_spec by done. unfold rank_lt. lia. Qed.

(** ** Signs

    Rounding keeps the sign and never gives NaN. *)

Definition has_sign (s : bool) (f : float64) : Prop :=
  match f with
  | S754_zero s' | S754_infinity s' | S754_finite s' _ _ => s' = s
  | S754_nan => False
  end.

Lemma has_sign_num s f : has_sign s f → is_num f.
Proof. intros Hs. unfold is_num. by intros ->. Qed.

Lemma iter_shr_nonneg p mrs : 0 ≤ shr_m mrs → 0 ≤ shr_m (iter_pos shr_1 p mrs).
Proof.
  revert mrs. induction p as [p IH|p IH|]; intros mrs H; cbn; [apply IH, IH|by apply IH, IH|];
    destruct mrs as [[|[]|] r s]; cbn in *; lia.
Qed.

Lemma shr_fexp_nonneg prec emax m e l : 0 ≤ m → 0 ≤ shr_m (shr_fexp prec emax m e l).1.
Proof.
  intros Hm. unfold shr_fexp, shr. assert (0 ≤ shr_m (shr_record_of_loc m l)) by (by destruct l as [|[]]).
  destruct (_ - e) as [|p|p]; cbn; [done|by apply iter_shr_nonneg|done].
Qed.

Lemma round_aux_sign prec emax s m e l : 0 ≤ m → has_sign s (binary_round_aux prec emax s m e l).
Proof.
  intros Hm. unfold binary_round_aux. pose proof (shr_fexp_nonneg prec emax m e l Hm) as H1.
  destruct (shr_fexp prec emax m e l) as [mrs1 e1]. cbn in H1.
  set (m2 := round_nearest_even _ _). assert (0 ≤ m2) as H2.
  { unfold m2, round_nearest_even. destruct (loc_of_shr_record mrs1) as [|[]]; try lia. destruct (Z.even _); lia. }
  pose proof (shr_fexp_nonneg prec emax m2 e1 loc_Exact H2) as H3.
  destruct (shr_fexp prec emax m2 e1 loc_Exact) as [mrs3 e3]. cbn in H3.
  destruct (shr_m mrs3); cbn; [done| |lia]. by destruct (Z.leb _ _).
Qed.

Lemma normalize_sign prec emax m e : 0 ≤ m → has_sign false (binary_normalize prec emax m e false).
Proof.
  intros Hm. destruct m as [|m|m]; cbn; [done| |lia]. unfold binary_round.
  destruct (shl_align _ _ _). by apply round_aux_sign.
Qed.

Lemma of_i64_nonneg z : 0 ≤ z → has_sign false (of_i64 z).
Proof. intros Hz. by apply normalize_sign. Qed.

Lemma fadd_nonneg a b : has_sign false a → has_sign false b → has_sign false (fadd a b).
Proof.
  intros Ha Hb. destruct a as [sa|sa| |sa ma ea], b as [sb|sb| |sb mb eb]; cbn in Ha, Hb; try done; subst;
    cbn [fadd SFadd has_sign]; try done. unfold fadd, SFadd. apply normalize_sign. cbn. lia.
Qed.

(** The quotient of two positive numbers. *)
Lemma fdiv_nonneg ma ea mb eb : has_sign false (fdiv (S754_finite false ma ea) (S754_finite false mb eb)).
Proof.
  unfold fdiv, SFdiv. destruct (SFdiv_core_binary _ _ _ _ _ _) as [[m e] l] eqn:E. apply round_aux_sign.
  unfold SFdiv_core_binary in E. set (m' := match _ with Z0 => _ | Zpos _ => _ | Zneg _ => _ end) in E.
  assert (0 ≤ m') as Hm'.
  { unfold m'. destruct (_ - _); [lia|apply Z.shiftl_nonneg; lia|lia]. }
  pose proof (Z.div_pos m' (Zpos mb) Hm' ltac:(lia)) as Hq. unfold Z.div in Hq.
  destruct (Z.div_eucl m' (Zpos mb)) as [q r]. by simplify_eq.
Qed.
