(* ===== verification/FloatRound.v ===== *)
(** * Rounding of binary64

    The operations of [Float64] on numbers that are not negative, as operations on integers:
    [val] is a number in units of the smallest positive one, [rnd] the rounding of an exact
    result, and sums and products are the rounded sums and products of the values.  Rounding
    is monotone and keeps what is representable. *)

From S2P Require Import Prelude Float64.
From stdpp Require Import options.
Open Scope Z_scope.

(** ** Rounding of integers *)

(** [X / 2 ^ q], rounded to the nearest, ties to even. *)
Definition rne (X q : Z) : Z :=
  let n := X / 2 ^ q in
  match 2 * (X mod 2 ^ q) ?= 2 ^ q with
  | Lt => n
  | Gt => n + 1
  | Eq => if Z.even n then n else n + 1
  end.

(** [X / 2 ^ t], rounded to 53 bits, or to an integer when it has fewer. *)
Definition drops (t X : Z) : Z := Z.max (Z.log2 X - 52) t.
Definition rnd (t X : Z) : Z := rne X (drops t X) * 2 ^ (drops t X - t).

Lemma rne_bounds X q : 0 ≤ q → X / 2 ^ q ≤ rne X q ≤ X / 2 ^ q + 1.
Proof. intros Hq. unfold rne. destruct (_ ?= _); [destruct (Z.even _)|..]; lia. Qed.

Lemma rne_mono X Y q : 0 ≤ q → X ≤ Y → rne X q ≤ rne Y q.
Proof.
  intros Hq HXY. pose proof (Z.pow_pos_nonneg 2 q ltac:(lia) Hq) as Hp.
  pose proof (rne_bounds X q Hq). pose proof (rne_bounds Y q Hq). pose proof (Z.div_le_mono X Y (2 ^ q) Hp HXY).
  destruct (decide (X / 2 ^ q = Y / 2 ^ q)) as [E|]; [|lia].
  pose proof (Z.div_mod X (2 ^ q) ltac:(lia)) as HX. pose proof (Z.div_mod Y (2 ^ q) ltac:(lia)) as HY.
  rewrite E in HX. unfold rne. rewrite E.
  destruct (Z.compare_spec (2 * (X mod 2 ^ q)) (2 ^ q)), (Z.compare_spec (2 * (Y mod 2 ^ q)) (2 ^ q));
    try destruct (Z.even (Y / 2 ^ q)); lia.
Qed.

Lemma rne_exact n q : 0 ≤ q → rne (n * 2 ^ q) q = n.
Proof.
  intros Hq. pose proof (Z.pow_pos_nonneg 2 q ltac:(lia) Hq) as Hp. unfold rne.
  rewrite Z.div_mul, Z.mod_mul by lia. destruct (Z.compare_spec (2 * 0) (2 ^ q)); lia.
Qed.

Lemma rne_pow a q : 0 ≤ q ≤ a → rne (2 ^ a) q = 2 ^ (a - q).
Proof.
  intros Hq. rewrite <- (rne_exact (2 ^ (a - q)) q) by lia. f_equal. rewrite <- Z.pow_add_r by lia. f_equal. lia.
Qed.

Lemma rne_scale X q a : 0 ≤ q → 0 ≤ a → rne (X * 2 ^ a) (q + a) = rne X q.
Proof.
  intros Hq Ha. pose proof (Z.pow_pos_nonneg 2 q ltac:(lia) Hq). pose proof (Z.pow_pos_nonneg 2 a ltac:(lia) Ha).
  unfold rne. rewrite Z.pow_add_r by lia. rewrite Z.div_mul_cancel_r, Z.mul_mod_distr_r by lia.
  replace (2 * (X mod 2 ^ q * 2 ^ a)) with ((2 * (X mod 2 ^ q)) * 2 ^ a) by lia.
  rewrite <- Zmult_compare_compat_r by lia. done.
Qed.

Lemma rnd_0 t : 0 ≤ t → rnd t 0 = 0.
Proof.
  intros Ht. unfold rnd, drops. change (Z.log2 0) with 0. rewrite Z.max_r by lia.
  pose proof (rne_exact 0 t Ht) as H. rewrite Z.mul_0_l in H. rewrite H. lia.
Qed.

Lemma drops_ge t X : t ≤ drops t X.
Proof. unfold drops. lia. Qed.

Lemma rnd_nonneg t X : 0 ≤ t → 0 ≤ X → 0 ≤ rnd t X.
Proof.
  intros Ht HX. unfold rnd. pose proof (drops_ge t X). pose proof (rne_bounds X (drops t X) ltac:(lia)).
  pose proof (Z.div_pos X (2 ^ drops t X) HX ltac:(apply Z.pow_pos_nonneg; lia)).
  apply Z.mul_nonneg_nonneg; [lia|]. apply Z.pow_nonneg. lia.
Qed.

Lemma rnd_mono t X Y : 0 ≤ t → 0 ≤ X ≤ Y → rnd t X ≤ rnd t Y.
Proof.
  intros Ht HXY. destruct (decide (X = 0)) as [->|HX]; [rewrite rnd_0 by done; by apply rnd_nonneg; [|lia]|].
  pose proof (Z.log2_le_mono X Y ltac:(lia)) as Hlog. pose proof (Z.log2_spec X ltac:(lia)) as SX.
  pose proof (Z.log2_spec Y ltac:(lia)) as SY. pose proof (Z.log2_nonneg X). pose proof (Z.log2_nonneg Y).
  unfold rnd. set (qx := drops t X). set (qy := drops t Y). assert (t ≤ qx ≤ qy) as Hq by (unfold qx, qy, drops; lia).
  destruct (decide (qx = qy)) as [->|Hne].
  { apply Z.mul_le_mono_nonneg_r; [apply Z.pow_nonneg; lia|]. apply rne_mono; lia. }
  assert (qy = Z.log2 Y - 52) as Hqy by (unfold qy, qx, drops in *; lia).
  assert (Z.log2 X + 1 ≤ Z.log2 Y) as HlogXY by (unfold qy, qx, drops in *; lia).
  set (a := Z.max (Z.log2 X + 1) qx). assert (a ≤ Z.log2 Y) by lia.
  transitivity (2 ^ (a - t)).
  - replace (a - t) with ((a - qx) + (qx - t)) by lia. rewrite Z.pow_add_r by lia.
    apply Z.mul_le_mono_nonneg_r; [apply Z.pow_nonneg; lia|]. rewrite <- rne_pow by lia. apply rne_mono; [lia|].
    transitivity (2 ^ (Z.log2 X + 1)); [unfold Z.succ in SX; lia|]. apply Z.pow_le_mono_r; lia.
  - transitivity (2 ^ (Z.log2 Y - t)); [apply Z.pow_le_mono_r; lia|].
    replace (Z.log2 Y - t) with ((Z.log2 Y - qy) + (qy - t)) by lia. rewrite Z.pow_add_r by lia.
    apply Z.mul_le_mono_nonneg_r; [apply Z.pow_nonneg; lia|]. rewrite <- rne_pow by lia. apply rne_mono; lia.
Qed.

(** Values with at most 53 significant bits are kept. *)
Lemma rnd_exact t m j : 0 ≤ t → 0 ≤ j → 0 ≤ m < 2 ^ 53 → rnd t (m * 2 ^ j * 2 ^ t) = m * 2 ^ j.
Proof.
  intros Ht Hj Hm. destruct (decide (m = 0)) as [->|]; [rewrite !Z.mul_0_l; by apply rnd_0|].
  rewrite <- Z.mul_assoc, <- Z.pow_add_r by lia. unfold rnd, drops. rewrite Z.log2_mul_pow2 by lia.
  pose proof (Z.log2_nonneg m). assert (Z.log2 m < 53) by (apply Z.log2_lt_pow2; lia).
  set (q := Z.max _ t). assert (t ≤ q ≤ j + t) by lia.
  replace (m * 2 ^ (j + t)) with (m * 2 ^ (j + t - q) * 2 ^ q) by (rewrite <- Z.mul_assoc, <- Z.pow_add_r by lia; do 2 f_equal; lia).
  rewrite rne_exact, <- Z.mul_assoc, <- Z.pow_add_r by lia. do 2 f_equal. lia.
Qed.

(** ** Shifts of mantissas *)

Lemma iter_pos_nat {A} (f : A → A) p x : iter_pos f p x = Nat.iter (Pos.to_nat p) f x.
Proof.
  revert x. induction p as [p IH|p IH|]; intros x; cbn [iter_pos].
  - rewrite !IH, Pos2Nat.inj_xI, <- Nat.iter_add. replace (S (2 * Pos.to_nat p)) with (Pos.to_nat p + Pos.to_nat p + 1)%nat by lia.
    rewrite (Nat.iter_add _ 1). done.
  - rewrite !IH, Pos2Nat.inj_xO, <- Nat.iter_add. f_equal. lia.
  - done.
Qed.

(** The two bits of a shift by [n] places say where the remainder [R] lies. *)
Definition located (R : Z) (n : nat) (r s : bool) : Prop :=
  match r, s with
  | false, false => R = 0
  | false, true => 0 < R ∧ 2 * R < 2 ^ Z.of_nat n
  | true, false => 2 * R = 2 ^ Z.of_nat n
  | true, true => 2 ^ Z.of_nat n < 2 * R
  end.

Lemma shr_1_spec m r s : 0 ≤ m → shr_1 {| shr_m := m; shr_r := r; shr_s := s |} =
  {| shr_m := m / 2; shr_r := Z.odd m; shr_s := r || s |}.
Proof.
  intros Hm. rewrite <- Z.div2_div. destruct m as [|[p|p|]|p]; cbn; done || lia.
Qed.

Lemma shr_iter m n : 0 ≤ m →
  let mrs := Nat.iter n shr_1 {| shr_m := m; shr_r := false; shr_s := false |} in
  shr_m mrs = m / 2 ^ Z.of_nat n ∧ located (m mod 2 ^ Z.of_nat n) n (shr_r mrs) (shr_s mrs).
Proof.
  intros Hm. induction n as [|n IH]; cbn zeta.
  { cbn. by rewrite Z.div_1_r, Z.mod_1_r. }
  rewrite Nat.iter_succ. destruct (Nat.iter n shr_1 _) as [m' r s] eqn:E. cbn [shr_m shr_r shr_s] in IH.
  destruct IH as [Hm' Hloc]. set (P := 2 ^ Z.of_nat n) in *.
  assert (0 < P) as HP by (apply Z.pow_pos_nonneg; lia).
  assert (0 ≤ m') as Hm0 by (rewrite Hm'; by apply Z.div_pos).
  rewrite shr_1_spec by done. cbn [shr_m shr_r shr_s].
  assert (2 ^ Z.of_nat (S n) = P * 2) as HP2 by (unfold P; rewrite Nat2Z.inj_succ, Z.pow_succ_r; lia).
  unfold located in *. rewrite HP2. split; [by rewrite <- Z.div_div, Hm' by lia|].
  rewrite Z.rem_mul_r by lia. rewrite <- Hm'. pose proof (Z.mod_pos_bound m P HP) as Hr.
  rewrite (Zmod_odd m'). set (R := m mod P) in *. destruct (Z.odd m'), r, s; cbn; lia.
Qed.

Lemma shift_rne m n : 0 ≤ m →
  let mrs := Nat.iter n shr_1 {| shr_m := m; shr_r := false; shr_s := false |} in
  round_nearest_even (shr_m mrs) (loc_of_shr_record mrs) = rne m (Z.of_nat n).
Proof.
  intros Hm mrs. destruct (shr_iter m n Hm) as [H1 H2]. fold mrs in H1, H2. unfold rne.
  pose proof (Z.pow_pos_nonneg 2 (Z.of_nat n) ltac:(lia) ltac:(lia)) as HP. rewrite <- H1.
  destruct mrs as [m' r s]. cbn in *. unfold located in H2.
  destruct (Z.compare_spec (2 * (m mod 2 ^ Z.of_nat n)) (2 ^ Z.of_nat n)), r, s; cbn; try done; lia.
Qed.

Lemma digits_log2 p : Z.pos (digits2_pos p) = Z.log2 (Z.pos p) + 1.
Proof.
  induction p as [p IH|p IH|]; cbn [digits2_pos]; [| |done]; rewrite Pos2Z.inj_succ, IH.
  - rewrite (Pos2Z.inj_xI p), Z.log2_succ_double by lia. lia.
  - rewrite (Pos2Z.inj_xO p), Z.log2_double by lia. lia.
Qed.

(** ** Values *)

Abbreviation valid f := (valid_binary 53 1024 f = true).

(** In units of 2 ^ -1074; [huge] stands for infinity. *)
Definition huge : Z := 2 ^ 2098.
Definition val (f : float64) : Z :=
  match f with
  | S754_zero _ | S754_nan => 0
  | S754_infinity _ => huge
  | S754_finite _ m e => Z.pos m * 2 ^ (e + 1074)
  end.

Lemma huge_pos : 0 < huge.
Proof. unfold huge. apply Z.pow_pos_nonneg; lia. Qed.

Lemma valid_finite s m e : valid (S754_finite s m e) ↔
  Z.log2 (Z.pos m) ≤ 52 ∧ -1074 ≤ e ≤ 971 ∧ (Z.log2 (Z.pos m) = 52 ∨ e = -1074).
Proof.
  cbn [valid_binary]. unfold bounded, canonical_mantissa, fexp, emin. rewrite andb_true_iff, Z.eqb_eq, Z.leb_le, digits_log2. lia.
Qed.

Lemma mantissa_bound m : Z.log2 (Z.pos m) ≤ 52 → Z.pos m < 2 ^ 53.
Proof. intros H. apply Z.log2_lt_pow2; lia. Qed.

(** The second step of the rounding: a mantissa of 54 bits is shifted once more. *)
Lemma second_round s x k : 0 ≤ x ≤ 2 ^ 53 → -1074 ≤ k → k = -1074 ∨ 2 ^ 52 ≤ x →
  let r := let '(mrs, e) := shr_fexp 53 1024 x k loc_Exact in
           match shr_m mrs with
           | 0 => S754_zero s
           | Z.pos m => if e <=? 1024 - 53 then S754_finite s m e else S754_infinity s
           | Z.neg _ => S754_nan
           end in
  valid r ∧ has_sign s r ∧ val r = Z.min (x * 2 ^ (k + 1074)) huge.
Proof.
  intros Hx Hk Hlo r. pose proof huge_pos as Hh. set (P := 2 ^ (k + 1074)).
  assert (0 < P) as HP by (apply Z.pow_pos_nonneg; lia).
  assert (∀ y, k ≤ 971 → y < 2 ^ 53 → y * P < huge) as Hfin.
  { intros y Hk' Hy. unfold huge, P. apply Z.lt_le_trans with (2 ^ 53 * 2 ^ (k + 1074)); [by apply Z.mul_lt_mono_pos_r|].
    rewrite <- Z.pow_add_r by lia. apply Z.pow_le_mono_r; lia. }
  assert (∀ a y, 0 ≤ a → 2098 ≤ a + (k + 1074) → 2 ^ a ≤ y → huge ≤ y * P) as Hinf.
  { intros a y Ha Hak Hy. unfold huge, P. transitivity (2 ^ a * 2 ^ (k + 1074)); [|apply Z.mul_le_mono_nonneg_r; lia].
    rewrite <- Z.pow_add_r by lia. apply Z.pow_le_mono_r; lia. }
  destruct (decide (x = 2 ^ 53)) as [->|Hne].
  - assert (r = if k + 1 <=? 1024 - 53 then S754_finite s 4503599627370496 (k + 1) else S754_infinity s) as ->.
    { unfold r, shr_fexp, shr, shr_record_of_loc, fexp, emin. change (Zdigits2 (2 ^ 53)) with 54.
      by replace (Z.max (54 + k - 53) (3 - 1024 - 53) - k) with 1 by lia. }
    destruct (Z.leb_spec (k + 1) (1024 - 53)) as [Hle|Hgt].
    + rewrite valid_finite. cbn [has_sign val]. change (Z.log2 (Z.pos 4503599627370496)) with 52. split_and!; [lia|lia|lia|by left|done|].
      replace (Z.pos 4503599627370496 * 2 ^ (k + 1 + 1074)) with (2 ^ 53 * P).
      2: { unfold P. replace (k + 1 + 1074) with (Z.succ (k + 1074)) by lia. rewrite Z.pow_succ_r by lia.
           change (2 ^ 53) with (Z.pos 4503599627370496 * 2). lia. }
      rewrite Z.min_l; [done|]. unfold huge, P. rewrite <- Z.pow_add_r by lia. apply Z.pow_le_mono_r; lia.
    + split_and!; [done|done|]. cbn [val]. rewrite Z.min_r; [done|]. apply (Hinf 53); lia.
  - assert (r = match x with
                | Z.pos m => if k <=? 1024 - 53 then S754_finite s m k else S754_infinity s
                | _ => S754_zero s
                end) as ->.
    { unfold r, shr_fexp, shr, shr_record_of_loc, fexp, emin.
      assert (Z.max (Zdigits2 x + k - 53) (3 - 1024 - 53) - k ≤ 0) as Hns.
      { destruct x as [|p|p]; cbn [Zdigits2]; [lia| |lia]. rewrite digits_log2.
        assert (Z.log2 (Z.pos p) < 53) by (apply Z.log2_lt_pow2; lia). lia. }
      destruct (Z.max _ _ - k) as [|p|p] eqn:E; try lia; cbn [shr_m]; destruct x; done || lia. }
    destruct x as [|m|m]; [split_and!; [done|done|cbn; lia]| |lia].
    assert (Z.log2 (Z.pos m) < 53) as Hl by (apply Z.log2_lt_pow2; lia).
    destruct (Z.leb_spec k (1024 - 53)) as [Hle|Hgt].
    + rewrite valid_finite. cbn [has_sign val]. split_and!; [lia|lia|lia| |done|].
      * destruct Hlo as [?|Hlo]; [by right|left]. apply Z.log2_le_pow2 in Hlo; lia.
      * rewrite Z.min_l; [done|]. apply Z.lt_le_incl, Hfin; lia.
    + split_and!; [done|done|]. cbn [val]. rewrite Z.min_r; [done|]. apply (Hinf 52); lia.
Qed.

(** The rounding of [m * 2 ^ e], when its last place is not above [e]. *)
Lemma round_aux_val t s m e : 0 ≤ t → 0 ≤ e + 1074 + t → e ≤ Z.max (Z.log2 (Z.pos m) + 1 + e - 53) (-1074) →
  let r := binary_round_aux 53 1024 s (Z.pos m) e loc_Exact in
  valid r ∧ has_sign s r ∧ val r = Z.min (rnd t (Z.pos m * 2 ^ (e + 1074 + t))) huge.
Proof.
  intros Ht He Hk r. set (k := Z.max (Z.log2 (Z.pos m) + 1 + e - 53) (-1074)) in Hk.
  pose proof (Z.log2_nonneg (Z.pos m)) as Hlog0.
  assert (∃ n, k - e = Z.of_nat n) as [n Hn] by (exists (Z.to_nat (k - e)); lia).
  set (mrs := Nat.iter n shr_1 {| shr_m := Z.pos m; shr_r := false; shr_s := false |}).
  assert (shr_fexp 53 1024 (Z.pos m) e loc_Exact = (mrs, k)) as E1.
  { unfold shr_fexp, shr, shr_record_of_loc, Zdigits2, fexp, emin. rewrite digits_log2.
    replace (Z.max _ _ - e) with (Z.of_nat n) by lia. destruct n as [|n].
    - cbn. f_equal. lia.
    - change (Z.of_nat (S n)) with (Z.pos (Pos.of_succ_nat n)). cbv iota beta. rewrite iter_pos_nat, SuccNat2Pos.id_succ. f_equal. lia. }
  assert (rnd t (Z.pos m * 2 ^ (e + 1074 + t)) = rne (Z.pos m) (Z.of_nat n) * 2 ^ (k + 1074)) as Ernd.
  { unfold rnd, drops. rewrite Z.log2_mul_pow2 by lia.
    replace (Z.max (e + 1074 + t + Z.log2 (Z.pos m) - 52) t) with (Z.of_nat n + (e + 1074 + t)) by lia.
    set (a := e + 1074 + t) in *. rewrite <- (rne_scale (Z.pos m) (Z.of_nat n) a) by lia. do 2 f_equal. lia. }
  pose proof (shift_rne (Z.pos m) n ltac:(lia)) as Hrne. fold mrs in Hrne.
  set (x := rne (Z.pos m) (Z.of_nat n)) in *.
  assert (0 ≤ x ≤ 2 ^ 53 ∧ (k = -1074 ∨ 2 ^ 52 ≤ x)) as [Hx Hx'].
  { pose proof (Z.log2_spec (Z.pos m) ltac:(lia)) as [Hlo Hhi]. unfold x. split; [split|].
    - pose proof (rne_bounds (Z.pos m) (Z.of_nat n) ltac:(lia)).
      pose proof (Z.div_pos (Z.pos m) (2 ^ Z.of_nat n) ltac:(lia) ltac:(apply Z.pow_pos_nonneg; lia)). lia.
    - replace 53 with (Z.of_nat n + 53 - Z.of_nat n) by lia. rewrite <- rne_pow by lia. apply rne_mono; [lia|].
      transitivity (2 ^ Z.succ (Z.log2 (Z.pos m))); [lia|]. apply Z.pow_le_mono_r; lia.
    - destruct (decide (k = -1074)) as [->|]; [by left|right].
      replace 52 with (Z.log2 (Z.pos m) - Z.of_nat n) by lia. rewrite <- rne_pow by lia. apply rne_mono; lia. }
  assert (-1074 ≤ k) as Hk1 by lia. rewrite Ernd. unfold r, binary_round_aux. rewrite E1, Hrne.
  clearbody x k. clear E1 Ernd Hrne mrs r Hn Hk n He. apply second_round; [lia|lia|done].
Qed.

Lemma iter_xO m d : Z.pos (Pos.iter xO m d) = Z.pos m * 2 ^ Z.pos d.
Proof.
  induction d as [|d IH] using Pos.peano_ind; [cbn; lia|].
  rewrite Pos.iter_succ, Pos2Z.inj_xO, IH, Pos2Z.inj_succ, Z.pow_succ_r by lia. lia.
Qed.

Lemma shl_align_spec m e e' mz ez : shl_align m e e' = (mz, ez) → ez = Z.min e e' ∧ Z.pos mz = Z.pos m * 2 ^ (e - ez).
Proof.
  unfold shl_align. destruct (e' - e) as [|d|d] eqn:E; intros [= <- <-].
  - split; [lia|]. rewrite Z.sub_diag. lia.
  - split; [lia|]. rewrite Z.sub_diag. lia.
  - split; [lia|]. rewrite iter_xO. do 2 f_equal. lia.
Qed.

Lemma normalize_val t m e : 0 ≤ t → 0 ≤ e + 1074 + t → 0 ≤ m →
  let r := binary_normalize 53 1024 m e false in
  valid r ∧ has_sign false r ∧ val r = Z.min (rnd t (m * 2 ^ (e + 1074 + t))) huge.
Proof.
  intros Ht He Hm. pose proof huge_pos. destruct m as [|m|m]; cbn zeta; [|cbn [binary_normalize]; unfold binary_round|lia].
  { cbn [binary_normalize]. split_and!; [done|done|]. rewrite Z.mul_0_l, rnd_0 by done. cbn. lia. }
  destruct (shl_align m e _) as [mz ez] eqn:E. apply shl_align_spec in E as [Hez Hmz].
  unfold fexp, emin in Hez. rewrite digits_log2 in Hez.
  assert (Z.log2 (Z.pos mz) = Z.log2 (Z.pos m) + (e - ez)) as Hlog by (rewrite Hmz, Z.log2_mul_pow2; lia).
  destruct (round_aux_val t false mz ez) as (H1 & H2 & H3); [done|lia|lia|]. split_and!; [done|done|].
  rewrite H3. do 2 f_equal. rewrite Hmz, <- Z.mul_assoc, <- Z.pow_add_r by lia. do 2 f_equal. lia.
Qed.

(** ** Operations *)

Lemma val_nonneg f : 0 ≤ val f.
Proof. pose proof huge_pos. destruct f; cbn; [lia|lia|lia|]. apply Z.mul_nonneg_nonneg; [lia|]. apply Z.pow_nonneg. lia. Qed.

Lemma val_finite s m e : valid (S754_finite s m e) → val (S754_finite s m e) < huge.
Proof.
  rewrite valid_finite. intros (Hl & He & _). cbn. pose proof (mantissa_bound m Hl). unfold huge.
  apply Z.lt_le_trans with (2 ^ 53 * 2 ^ (e + 1074)).
  - apply Z.mul_lt_mono_pos_r; [apply Z.pow_pos_nonneg; lia|done].
  - rewrite <- Z.pow_add_r by lia. apply Z.pow_le_mono_r; lia.
Qed.

Lemma val_le_huge f : valid f → val f ≤ huge.
Proof. intros Hf. pose proof huge_pos. destruct f as [| | |s m e]; cbn; try lia. apply Z.lt_le_incl. by apply (val_finite s). Qed.

(** A value is its own rounding. *)
Lemma rnd_val t f : 0 ≤ t → valid f → rnd t (val f * 2 ^ t) = val f.
Proof.
  intros Ht Hf. destruct f as [s|s| |s m e]; cbn [val].
  - by rewrite Z.mul_0_l, rnd_0.
  - unfold huge. pose proof (rnd_exact t 1 2098 Ht) as H. rewrite Z.mul_1_l in H. apply H; lia.
  - by rewrite Z.mul_0_l, rnd_0.
  - apply valid_finite in Hf as (Hl & He & _). apply rnd_exact; [done|lia|]. split; [lia|by apply mantissa_bound].
Qed.

Lemma rnd_val0 f : valid f → rnd 0 (val f) = val f.
Proof. intros Hf. pose proof (rnd_val 0 f ltac:(lia) Hf) as H. by rewrite Z.mul_1_r in H. Qed.

Lemma fadd_val a b : valid a → valid b → has_sign false a → has_sign false b →
  valid (fadd a b) ∧ has_sign false (fadd a b) ∧ val (fadd a b) = Z.min (rnd 0 (val a + val b)) huge.
Proof.
  intros Va Vb Sa Sb. pose proof (val_nonneg a) as Na. pose proof (val_nonneg b) as Nb. pose proof huge_pos as Hh.
  assert (∀ c, 0 ≤ c → Z.min (rnd 0 (huge + c)) huge = huge) as Hinf.
  { intros c Hc. pose proof (rnd_mono 0 huge (huge + c)) as H. pose proof (rnd_val0 (S754_infinity false) eq_refl) as H'. cbn in H'. lia. }
  assert (∀ f, valid f → has_sign false f → valid f ∧ has_sign false f ∧ val f = Z.min (rnd 0 (val f)) huge) as Hid.
  { intros f Vf Sf. split_and!; [done|done|]. rewrite rnd_val0, Z.min_l by (by try apply val_le_huge). done. }
  assert (∀ f c, val f = huge → 0 ≤ c → has_sign false f → valid f →
    valid f ∧ has_sign false f ∧ val f = Z.min (rnd 0 (huge + c)) huge) as Htop.
  { intros f c Hf Hc Sf Vf. split_and!; [done|done|]. by rewrite Hinf, Hf. }
  destruct a as [sa|sa| |sa ma ea]; [| |contradiction|]; destruct b as [sb|sb| |sb mb eb]; try contradiction;
    cbn in Sa, Sb; subst; unfold fadd; cbn [SFadd].
  - apply (Hid (S754_zero false)); done.
  - apply (Hid (S754_infinity false)); done.
  - apply (Hid (S754_finite false mb eb)); done.
  - apply (Htop (S754_infinity false) 0); done.
  - apply (Htop (S754_infinity false) huge); [done|lia|done|done].
  - apply (Htop (S754_infinity false)); done.
  - rewrite Z.add_comm. apply (Hid (S754_finite false ma ea)); done.
  - rewrite Z.add_comm. apply (Htop (S754_infinity false)); done.
  - apply valid_finite in Va as (_ & Hea & _), Vb as (_ & Heb & _).
    destruct (shl_align ma ea _) as [m1 e1] eqn:E1, (shl_align mb eb _) as [m2 e2] eqn:E2.
    apply shl_align_spec in E1 as [He1 Hm1], E2 as [He2 Hm2]. cbn [fst cond_Zopp].
    destruct (normalize_val 0 (Z.pos m1 + Z.pos m2) (Z.min ea eb)) as (H1 & H2 & H3); [lia|lia|lia|].
    split_and!; [exact H1|exact H2|]. rewrite H3. do 2 f_equal. cbn [val]. rewrite Z.mul_add_distr_r, Hm1, Hm2.
    change (IntDef.Z.min ea eb) with (Z.min ea eb) in *. clear -He1 He2 Hea Heb.
    f_equal; rewrite <- Z.mul_assoc, <- Z.pow_add_r by lia; do 2 f_equal; lia.
Qed.

Lemma fmul_val a b : valid a → valid b → has_sign false a → has_sign false b → val a < huge → val b < huge →
  valid (fmul a b) ∧ has_sign false (fmul a b) ∧ val (fmul a b) = Z.min (rnd 1074 (val a * val b)) huge.
Proof.
  intros Va Vb Sa Sb Fa Fb. pose proof huge_pos as Hh.
  assert (Z.min (rnd 1074 0) huge = 0) as H0 by (rewrite rnd_0; lia).
  assert (valid (S754_zero false) ∧ has_sign false (S754_zero false) ∧ val (S754_zero false) = Z.min (rnd 1074 0) huge) as Hz
    by (rewrite H0; done).
  destruct a as [sa|sa| |sa ma ea]; [|cbn [val] in Fa; lia|contradiction|];
    (destruct b as [sb|sb| |sb mb eb]; [|cbn [val] in Fb; lia|contradiction|]);
    cbn in Sa, Sb; subst; unfold fmul; cbn [SFmul xorb].
  - exact Hz.
  - cbn [val]. rewrite Z.mul_0_l. exact Hz.
  - cbn [val]. rewrite Z.mul_0_r. exact Hz.
  - apply valid_finite in Va as (La & Hea & Ca), Vb as (Lb & Heb & Cb).
    pose proof (Z.log2_nonneg (Z.pos ma)). pose proof (Z.log2_nonneg (Z.pos mb)).
    pose proof (Z.log2_mul_below (Z.pos ma) (Z.pos mb) ltac:(lia) ltac:(lia)) as Hlog. rewrite <- Pos2Z.inj_mul in Hlog.
    destruct (round_aux_val 1074 false (ma * mb) (ea + eb)) as (R1 & R2 & R3); [lia|lia|lia|].
    split_and!; [exact R1|exact R2|]. rewrite R3. do 2 f_equal. cbn [val]. rewrite Pos2Z.inj_mul.
    replace (ea + eb + 1074 + 1074) with ((ea + 1074) + (eb + 1074)) by lia. rewrite Z.pow_add_r by lia. lia.
Qed.

(** The order of the values. *)
Lemma fle_val a b : valid a → valid b → has_sign false a → has_sign false b → fle a b ↔ val a ≤ val b.
Proof.
  intros Va Vb Sa Sb. rewrite fle_spec by (by eapply has_sign_num).
  pose proof huge_pos as Hh. unfold rank_lt.
  destruct a as [sa|sa| |sa ma ea]; [| |contradiction|]; destruct b as [sb|sb| |sb mb eb]; try contradiction;
    cbn in Sa, Sb; subst; cbn [rank fst snd].
  - cbn [val]. lia.
  - cbn [val]. lia.
  - pose proof (val_nonneg (S754_finite false mb eb)). cbn [val] in *. lia.
  - cbn [val]. lia.
  - cbn [val]. lia.
  - pose proof (val_finite _ _ _ Vb). cbn [val] in *. lia.
  - assert (0 < val (S754_finite false ma ea)) as Hp.
    { apply valid_finite in Va as (_ & Hea & _). cbn. apply Z.mul_pos_pos; [lia|]. apply Z.pow_pos_nonneg; lia. }
    cbn [val] in *. lia.
  - pose proof (val_finite _ _ _ Va). cbn [val] in *. lia.
  - apply valid_finite in Va as (La & Hea & Ca), Vb as (Lb & Heb & Cb).
    assert (∀ m e m' e', Z.log2 (Z.pos m) ≤ 52 → Z.log2 (Z.pos m') = 52 → -1074 ≤ e → e < e' →
      Z.pos m * 2 ^ (e + 1074) < Z.pos m' * 2 ^ (e' + 1074)) as Hlt.
    { intros m e m' e' Hm Hm' He He'. pose proof (mantissa_bound m Hm). pose proof (Z.log2_spec (Z.pos m') ltac:(lia)) as [Hlo _].
      rewrite Hm' in Hlo. pose proof (Z.pow_pos_nonneg 2 (e + 1074) ltac:(lia) ltac:(lia)).
      apply Z.lt_le_trans with (2 ^ 53 * 2 ^ (e + 1074)); [by apply Z.mul_lt_mono_pos_r|].
      transitivity (2 ^ 52 * 2 ^ (e' + 1074)); [|apply Z.mul_le_mono_nonneg_r; [apply Z.pow_nonneg; lia|done]].
      rewrite <- !Z.pow_add_r by lia. apply Z.pow_le_mono_r; lia. }
    cbn [val]. destruct (Z.lt_trichotomy ea eb) as [He|[->|He]].
    + pose proof (Hlt ma ea mb eb La). lia.
    + rewrite <- Z.mul_le_mono_pos_r by (apply Z.pow_pos_nonneg; lia). lia.
    + pose proof (Hlt mb eb ma ea Lb). lia.
Qed.

(** Addition is monotone, and adding does not make smaller. *)
Lemma fadd_mono a b c : valid a → valid b → valid c → has_sign false a → has_sign false b → has_sign false c →
  fle a b → fle (fadd a c) (fadd b c).
Proof.
  intros Va Vb Vc Sa Sb Sc. rewrite fle_val by done. intros Hab.
  destruct (fadd_val a c Va Vc Sa Sc) as (V1 & S1 & H1). destruct (fadd_val b c Vb Vc Sb Sc) as (V2 & S2 & H2).
  rewrite fle_val by done. rewrite H1, H2. apply Z.min_le_compat_r. pose proof (val_nonneg a). pose proof (val_nonneg c).
  apply rnd_mono; lia.
Qed.

Lemma fadd_ge a c : valid a → valid c → has_sign false a → has_sign false c → fle a (fadd a c).
Proof.
  intros Va Vc Sa Sc. destruct (fadd_val a c Va Vc Sa Sc) as (V1 & S1 & H1). rewrite fle_val by done. rewrite H1.
  pose proof (val_nonneg a). pose proof (val_nonneg c). pose proof (val_le_huge a Va).
  pose proof (rnd_mono 0 (val a) (val a + val c)) as Hm. rewrite (rnd_val0 a Va) in Hm. lia.
Qed.

(** ** Division and conversions *)

Lemma shr_iter_m mrs n : 0 ≤ shr_m mrs → shr_m (Nat.iter n shr_1 mrs) = shr_m mrs / 2 ^ Z.of_nat n.
Proof.
  intros Hm. induction n as [|n IH]; [by rewrite Z.div_1_r|]. rewrite Nat.iter_succ.
  pose proof (Z.pow_pos_nonneg 2 (Z.of_nat n) ltac:(lia) ltac:(lia)).
  pose proof (Z.div_pos (shr_m mrs) (2 ^ Z.of_nat n) Hm ltac:(lia)).
  destruct (Nat.iter n shr_1 mrs) as [m r s]. cbn [shr_m] in IH. rewrite shr_1_spec by lia. cbn [shr_m].
  rewrite IH, Z.div_div by lia. f_equal. rewrite Nat2Z.inj_succ, Z.pow_succ_r by lia. lia.
Qed.

Lemma Zdigits2_log2 m : 0 < m → Zdigits2 m = Z.log2 m + 1.
Proof. intros Hm. destruct m as [|p|p]; [lia|apply digits_log2|lia]. Qed.

(** Rounding gives a number of the format, wherever the exact result lies behind [m], not
    above the power of two after it. *)
Lemma round_aux_valid s m e l : 0 ≤ m → e ≤ Z.max (Zdigits2 m + e - 53) (-1074) →
  let r := binary_round_aux 53 1024 s m e l in
  valid r ∧ has_sign s r ∧ val r ≤ 2 ^ (Z.max (Zdigits2 m + e) (-1021) + 1074).
Proof.
  intros Hm Hk. set (k := Z.max (Zdigits2 m + e - 53) (-1074)) in Hk.
  assert (∃ n, k - e = Z.of_nat n) as [n Hn] by (exists (Z.to_nat (k - e)); lia).
  set (mrs := Nat.iter n shr_1 (shr_record_of_loc m l)).
  assert (shr_m (shr_record_of_loc m l) = m) as Hm0 by (by destruct l as [|[]]).
  assert (shr_fexp 53 1024 m e l = (mrs, k)) as E1.
  { unfold shr_fexp, shr, fexp, emin. replace (Z.max _ _ - e) with (Z.of_nat n) by lia. destruct n as [|n].
    - cbn. f_equal. lia.
    - change (Z.of_nat (S n)) with (Z.pos (Pos.of_succ_nat n)). cbv iota beta.
      rewrite iter_pos_nat, SuccNat2Pos.id_succ. f_equal. lia. }
  assert (shr_m mrs = m / 2 ^ Z.of_nat n) as Hq by (unfold mrs; rewrite shr_iter_m; by rewrite Hm0).
  unfold binary_round_aux. rewrite E1. set (x := round_nearest_even _ _).
  assert (m / 2 ^ Z.of_nat n ≤ x ≤ m / 2 ^ Z.of_nat n + 1) as Hx.
  { unfold x, round_nearest_even. rewrite Hq. destruct (loc_of_shr_record mrs) as [|[]]; try lia. destruct (Z.even _); lia. }
  pose proof (Z.pow_pos_nonneg 2 (Z.of_nat n) ltac:(lia) ltac:(lia)) as HP.
  pose proof (Z.div_pos m (2 ^ Z.of_nat n) Hm HP) as Hd0.
  assert (m / 2 ^ Z.of_nat n < 2 ^ 53 ∧ (k = -1074 ∨ 2 ^ 52 ≤ m / 2 ^ Z.of_nat n)) as [Hhi Hlo].
  { destruct (decide (m = 0)) as [->|Hne]; [rewrite Z.div_0_l by lia; split; [lia|left; cbn [Zdigits2] in k; unfold k in *; lia]|].
    pose proof (Zdigits2_log2 m ltac:(lia)) as Hdg. pose proof (Z.log2_spec m ltac:(lia)) as [Hl Hh]. split.
    - apply Z.div_lt_upper_bound; [done|]. rewrite <- Z.pow_add_r by lia.
      apply Z.lt_le_trans with (2 ^ Z.succ (Z.log2 m)); [done|]. apply Z.pow_le_mono_r; lia.
    - destruct (decide (k = -1074)) as [?|Hk1]; [by left|right]. apply Z.div_le_lower_bound; [done|].
      rewrite <- Z.pow_add_r by lia. transitivity (2 ^ Z.log2 m); [|done]. apply Z.pow_le_mono_r; lia. }
  destruct (second_round s x k) as (V & S & Hv); [lia|lia| |].
  { destruct Hlo as [?|?]; [by left|right; lia]. }
  split_and!; [done|done|]. cbn zeta. rewrite Hv. etransitivity; [apply Z.le_min_l|].
  replace (Z.max (Zdigits2 m + e) (-1021) + 1074) with (53 + (k + 1074)) by (unfold k; lia). rewrite (Z.pow_add_r 2 53) by lia.
  apply Z.mul_le_mono_nonneg_r; [apply Z.pow_nonneg; lia|lia].
Qed.

(** The number of digits of an integer quotient. *)
Lemma quotient_digits m' b a sh : 0 < a → 0 < b → 0 ≤ sh → m' = a * 2 ^ sh →
  (Z.log2 a + sh) - Z.log2 b ≤ Zdigits2 (m' / b) ≤ Z.max 0 (Z.log2 a + sh - Z.log2 b + 1).
Proof.
  intros Ha Hb Hsh Hm'. pose proof (Z.pow_pos_nonneg 2 sh ltac:(lia) Hsh) as HP.
  pose proof (Z.log2_spec a Ha) as [L1 H1]. pose proof (Z.log2_spec b Hb) as [L2 H2].
  pose proof (Z.log2_nonneg a). pose proof (Z.log2_nonneg b).
  assert (2 ^ (Z.log2 a + sh) ≤ m' < 2 ^ (Z.log2 a + sh + 1)) as [M1 M2].
  { rewrite Hm'. replace (Z.log2 a + sh + 1) with (Z.succ (Z.log2 a) + sh) by lia. rewrite !Z.pow_add_r by lia. nia. }
  destruct (decide (m' / b = 0)) as [E0|E0].
  - rewrite E0. change (Zdigits2 0) with 0. apply Z.div_small_iff in E0; [|lia]. destruct E0 as [[_ Hlt]|?]; [|lia].
    assert (2 ^ (Z.log2 a + sh) < 2 ^ Z.succ (Z.log2 b)) as Hpw by lia. apply Z.pow_lt_mono_r_iff in Hpw; lia.
  - assert (0 < m' / b) as Hq by (pose proof (Z.div_pos m' b ltac:(lia) Hb); lia).
    rewrite Zdigits2_log2 by lia. pose proof (Z.log2_spec (m' / b) Hq) as [Q1 Q2]. pose proof (Z.log2_nonneg (m' / b)).
    pose proof (Z.mul_div_le m' b Hb). pose proof (Z.mul_succ_div_gt m' b Hb). split.
    + assert (2 ^ (Z.log2 a + sh) < 2 ^ (Z.succ (Z.log2 b) + Z.succ (Z.log2 (m' / b)))) as Hpw by (rewrite (Z.pow_add_r 2 (Z.succ _)) by lia; nia).
      apply Z.pow_lt_mono_r_iff in Hpw; lia.
    + assert (2 ^ (Z.log2 b + Z.log2 (m' / b)) < 2 ^ (Z.log2 a + sh + 1)) as Hpw by (rewrite Z.pow_add_r by lia; nia).
      apply Z.pow_lt_mono_r_iff in Hpw; lia.
Qed.

Lemma div_eucl_pair a b : Z.div_eucl a b = (a / b, a mod b).
Proof. unfold Z.div, Z.modulo. by destruct (Z.div_eucl a b). Qed.

(** The quotient of a number and a positive one is in the format; it is at most 2 if that of
    the exact values is at most 1. *)
Lemma fdiv_valid a mb eb : valid a → has_sign false a → val a < huge →
  let r := fdiv a (S754_finite false mb eb) in
  valid r ∧ has_sign false r ∧
  (valid (S754_finite false mb eb) → val a ≤ val (S754_finite false mb eb) → val r ≤ 2 ^ 1075).
Proof.
  intros Va Sa Fa. pose proof huge_pos as Hh. destruct a as [s|s| |s ma ea]; [|cbn [val] in Fa; lia|contradiction|].
  { cbn in Sa. subst s. cbn. split_and!; [done|done|]. intros _ _. apply Z.pow_nonneg. lia. }
  cbn in Sa. subst s.
  cbn zeta. unfold fdiv. cbn [SFdiv xorb]. destruct (SFdiv_core_binary _ _ _ _ _ _) as [[q e'] l] eqn:E.
  unfold SFdiv_core_binary in E. unfold fexp, emin in E. set (d1 := Zdigits2 (Z.pos ma)) in E. set (d2 := Zdigits2 (Z.pos mb)) in E.
  set (e0 := IntDef.Z.min _ _) in E. set (sh := ea - eb - e0) in E.
  change (IntDef.Z.min) with Z.min in e0. change (IntDef.Z.max) with Z.max in e0.
  assert (0 ≤ sh) as Hsh by (unfold sh, e0; lia).
  set (m' := match sh with Z0 => _ | Zpos _ => _ | Zneg _ => _ end) in E.
  assert (m' = Z.pos ma * 2 ^ sh) as Hm'.
  { unfold m'. clearbody sh. destruct sh as [|p|p]; [lia|by rewrite Z.shiftl_mul_pow2 by lia|lia]. }
  pose proof (Z.pow_pos_nonneg 2 sh ltac:(lia) Hsh) as HP.
  rewrite div_eucl_pair in E. injection E as <- <- _. assert (0 ≤ m' / Z.pos mb) as Hq by (apply Z.div_pos; lia).
  pose proof (Zdigits2_log2 (Z.pos ma) ltac:(lia)) as D1. pose proof (Zdigits2_log2 (Z.pos mb) ltac:(lia)) as D2. fold d1 in D1. fold d2 in D2.
  pose proof (quotient_digits m' (Z.pos mb) (Z.pos ma) sh ltac:(lia) ltac:(lia) Hsh Hm') as [Hlo Hhi].
  destruct (round_aux_valid false (m' / Z.pos mb) e0 l Hq) as (V & S & F); [unfold sh, e0 in *; lia|].
  split_and!; [done|done|]. intros Vb Hab. etransitivity; [exact F|]. clear F V S. apply Z.pow_le_mono_r; [lia|].
  apply valid_finite in Va as (_ & He & _), Vb as (_ & He' & _). cbn [val] in Hab.
  assert (Z.log2 (Z.pos ma * 2 ^ (ea + 1074)) ≤ Z.log2 (Z.pos mb * 2 ^ (eb + 1074))) as Hlog by (by apply Z.log2_le_mono).
  rewrite !Z.log2_mul_pow2 in Hlog by lia. unfold sh, e0 in *. lia.
Qed.

(** A number divided by itself. *)
Lemma fdiv_self m e : fdiv (S754_finite false m e) (S754_finite false m e) = of_i64 1.
Proof.
  unfold fdiv. cbn [SFdiv xorb]. unfold SFdiv_core_binary, fexp, emin. cbv zeta. rewrite !Z.sub_diag.
  change (IntDef.Z.min _ _) with (-53). cbv zeta. change (0 - -53) with 53. cbv iota. rewrite Z.shiftl_mul_pow2 by lia.
  assert (Z.div_eucl (Z.pos m * 2 ^ 53) (Z.pos m) = (2 ^ 53, 0)) as ->.
  { rewrite div_eucl_pair, Z.mul_comm, Z.div_mul, Z.mod_mul by lia. done. }
  assert (new_location (Z.pos m) 0 = loc_Exact) as -> by (unfold new_location; by destruct (Z.even _)).
  vm_compute. reflexivity.
Qed.

Lemma of_i64_good z : 0 ≤ z → valid (of_i64 z) ∧ has_sign false (of_i64 z).
Proof. intros Hz. destruct (normalize_val 0 z 0) as (V & S & _); [lia|lia|done|]. by split. Qed.

Lemma of_i64_val z : 0 ≤ z < 2 ^ 53 → val (of_i64 z) = z * 2 ^ 1074.
Proof.
  intros Hz. destruct (normalize_val 0 z 0) as (_ & _ & V); [lia|lia|lia|]. unfold of_i64. rewrite V.
  pose proof (rnd_exact 0 z 1074 ltac:(lia) ltac:(lia) Hz) as R. rewrite Z.mul_1_r in R.
  replace (0 + 1074 + 0) with 1074 by lia. rewrite R, Z.min_l; [done|]. unfold huge.
  transitivity (2 ^ 53 * 2 ^ 1074); [apply Z.mul_le_mono_nonneg_r; [apply Z.pow_nonneg; lia|lia]|].
  rewrite <- Z.pow_add_r by lia. apply Z.pow_le_mono_r; lia.
Qed.

(** Truncation of a finite number. *)
Lemma trunc_val f : valid f → has_sign false f → val f < huge → trunc f = Some (val f / 2 ^ 1074).
Proof.
  intros Vf Sf Ff. destruct f as [s|s| |s m e]; [done|cbn [val] in Ff; lia|contradiction|]. cbn in Sf. subst s.
  apply valid_finite in Vf as (_ & He & _). cbn [trunc val]. f_equal. case_decide as E.
  - replace (e + 1074) with (e + 1074) by lia. rewrite Z.pow_add_r, Z.mul_assoc, Z.div_mul by (try apply Z.pow_nonzero; lia). done.
  - replace (2 ^ 1074) with (2 ^ (- e) * 2 ^ (e + 1074)) by (rewrite <- Z.pow_add_r by lia; f_equal; lia).
    rewrite Z.div_mul_cancel_r; [done|apply Z.pow_nonzero; lia..].
Qed.

Lemma positive_finite f : has_sign false f → 0 < val f < huge → ∃ m e, f = S754_finite false m e.
Proof.
  intros Sf Hf. destruct f as [s|s| |s m e]; cbn [val] in Hf; [lia|lia|contradiction|]. cbn in Sf. subst s. eauto.
Qed.

(** [Seconds] of a duration that is not negative. *)
Lemma Seconds_val d : 0 ≤ d < 2 ^ 63 →
  valid (Seconds d) ∧ has_sign false (Seconds d) ∧
  (d / 10 ^ 9) * 2 ^ 1074 ≤ val (Seconds d) ≤ (d / 10 ^ 9 + 2) * 2 ^ 1074.
Proof.
  intros Hd. unfold Seconds. rewrite Z.quot_div_nonneg, Z.rem_mod_nonneg by lia.
  set (q := d / 10 ^ 9). set (r := d mod 10 ^ 9). assert (0 ≤ r < 10 ^ 9) as Hr by (apply Z.mod_pos_bound; lia).
  assert (0 ≤ q < 2 ^ 34) as Hq by (unfold q; Z.to_euclidean_division_equations; lia).
  destruct (of_i64_good q) as [Vq Sq]; [lia|]. destruct (of_i64_good r) as [Vr Sr]; [lia|].
  destruct (of_i64_good (10 ^ 9)) as [Vb Sb]; [lia|].
  pose proof (of_i64_val q ltac:(lia)) as Eq. pose proof (of_i64_val r ltac:(lia)) as Er. pose proof (of_i64_val (10 ^ 9) ltac:(lia)) as Eb9.
  remember (2 ^ 1074) as U eqn:HUd. assert (0 < U) as HU by (rewrite HUd; apply Z.pow_pos_nonneg; lia). assert (2 ^ 1075 = 2 * U) as EU by (rewrite HUd; by rewrite <- Z.pow_succ_r).
  assert (2 ^ 53 * U ≤ huge) as Hhuge by (rewrite HUd; unfold huge; rewrite <- Z.pow_add_r by lia; apply Z.pow_le_mono_r; lia). clearbody q r.
  destruct (positive_finite _ Sb) as (mb & eb & Eb); [lia|]. rewrite Eb in Eb9, Vb |- *. destruct (fdiv_valid (of_i64 r) mb eb Vr Sr) as (Vd & Sd & Bd); [nia|]. specialize (Bd Vb ltac:(nia)).
  set (x := fdiv _ _) in *. pose proof (val_nonneg x) as Nx. destruct (fadd_val _ _ Vq Vd Sq Sd) as (V & S & Hv). split_and!; [done|done|..].
  - pose proof (fadd_ge _ _ Vq Vd Sq Sd) as Hge. rewrite fle_val, Eq in Hge by done. done.
  - rewrite Hv, Eq. etransitivity; [apply Z.le_min_l|]. etransitivity; [apply (rnd_mono 0 _ ((q + 2) * U * 2 ^ 0)); nia|].
    rewrite HUd, rnd_exact by lia. done.
Qed.

Lemma val_pos m e : valid (S754_finite false m e) → 0 < val (S754_finite false m e).
Proof. intros (_ & He & _)%valid_finite. cbn. apply Z.mul_pos_pos; [lia|]. apply Z.pow_pos_nonneg; lia. Qed.

(** The exact difference, before the rounding. *)
Lemma fsub_exact ma ea mb eb : valid (S754_finite false ma ea) → valid (S754_finite false mb eb) →
  ∃ z e, fsub (S754_finite false ma ea) (S754_finite false mb eb) = binary_normalize 53 1024 z e false ∧ -1074 ≤ e ∧
    z * 2 ^ (e + 1074) = val (S754_finite false ma ea) - val (S754_finite false mb eb).
Proof.
  intros (_ & Hea & _)%valid_finite (_ & Heb & _)%valid_finite. unfold fsub. cbn [SFsub].
  destruct (shl_align ma ea _) as [m1 e1] eqn:E1, (shl_align mb eb _) as [m2 e2] eqn:E2.
  apply shl_align_spec in E1 as [He1 Hm1], E2 as [He2 Hm2]. cbn [fst cond_Zopp].
  change (IntDef.Z.min ea eb) with (Z.min ea eb) in *. exists (Z.pos m1 - Z.pos m2), (Z.min ea eb). split_and!; [done|lia|].
  cbn [val]. rewrite Z.mul_sub_distr_r, Hm1, Hm2. f_equal; rewrite <- Z.mul_assoc, <- Z.pow_add_r by lia; do 2 f_equal; lia.
Qed.

Lemma fsub_val a b : valid a → valid b → has_sign false a → has_sign false b → val b ≤ val a < huge →
  valid (fsub a b) ∧ has_sign false (fsub a b) ∧ val (fsub a b) = rnd 0 (val a - val b).
Proof.
  intros Va Vb Sa Sb [Hba Hfin]. pose proof huge_pos as Hh.
  destruct a as [sa|sa| |sa ma ea]; [|cbn [val] in Hfin; lia|contradiction|];
    (destruct b as [sb|sb| |sb mb eb]; [|cbn [val] in Hba, Hfin; lia|contradiction|]);
    cbn in Sa, Sb; subst.
  - cbn [val]. by rewrite Z.sub_diag, rnd_0.
  - pose proof (val_pos mb eb Vb). cbn [val] in *. lia.
  - split_and!; [done|done|]. change (val (S754_zero false)) with 0. by rewrite Z.sub_0_r, rnd_val0.
  - pose proof (val_pos mb eb Vb). destruct (fsub_exact ma ea mb eb Va Vb) as (z & e & -> & He & Hz).
    assert (0 < 2 ^ (e + 1074)) by (apply Z.pow_pos_nonneg; lia).
    destruct (normalize_val 0 z e) as (R1 & R2 & R3); [lia|lia|nia|]. split_and!; [exact R1|exact R2|].
    rewrite R3, Z.add_0_r, Hz. apply Z.min_l. etransitivity; [apply (rnd_mono 0 _ (val (S754_finite false ma ea))); lia|].
    rewrite rnd_val0 by done. lia.
Qed.

Lemma fsub_le a b : valid a → valid b → has_sign false a → has_sign false b → val b ≤ val a < huge → val (fsub a b) ≤ val a.
Proof.
  intros Va Vb Sa Sb Hab. destruct (fsub_val a b Va Vb Sa Sb Hab) as (_ & _ & ->). pose proof (val_nonneg b).
  rewrite <- (rnd_val0 a Va) at 2. apply rnd_mono; lia.
Qed.

Lemma fsub_neg a b : valid a → valid b → has_sign false a → has_sign false b → val a < val b → has_sign true (fsub a b).
Proof.
  intros Va Vb Sa Sb Hab. pose proof huge_pos. pose proof (val_le_huge b Vb).
  destruct a as [sa|sa| |sa ma ea]; [|cbn [val] in Hab; lia|contradiction|];
    (destruct b as [sb|sb| |sb mb eb]; [|by cbn in Sa, Sb; subst|contradiction|]); cbn in Sa, Sb; subst; [cbn [val] in Hab; lia|done| |].
  - pose proof (val_nonneg (S754_finite false ma ea)). cbn [val] in *. lia.
  - destruct (fsub_exact ma ea mb eb Va Vb) as (z & e & -> & He & Hz).
    assert (0 < 2 ^ (e + 1074)) by (apply Z.pow_pos_nonneg; lia). destruct z as [|z|z]; [nia|nia|]. cbn [binary_normalize]. unfold binary_round.
    destruct (shl_align _ _ _). by apply round_aux_sign.
Qed.

Lemma whole_lt_huge n : n < 2 ^ 53 → n * 2 ^ 1074 < huge.
Proof.
  intros Hn. unfold huge. apply Z.lt_le_trans with (2 ^ 53 * 2 ^ 1074); [|rewrite <- Z.pow_add_r by lia; apply Z.pow_le_mono_r; lia].
  apply Z.mul_lt_mono_pos_r; [apply Z.pow_pos_nonneg; lia|done].
Qed.

(** Taking [c] from at most [n] leaves at most [n - c], whole numbers below 2 ^ 53. *)
Lemma fsub_whole a c n : valid a → has_sign false a → 0 ≤ c → n < 2 ^ 53 →
  c * 2 ^ 1074 ≤ val a ≤ n * 2 ^ 1074 →
  valid (fsub a (of_i64 c)) ∧ has_sign false (fsub a (of_i64 c)) ∧ val (fsub a (of_i64 c)) ≤ (n - c) * 2 ^ 1074.
Proof.
  intros Va Sa Hc Hn Ha.
  pose proof (whole_lt_huge n Hn) as Hhuge. pose proof (of_i64_val c) as Hvc. pose proof (rnd_exact 0 (n - c) 1074 ltac:(lia) ltac:(lia)) as R.
  rewrite Z.mul_1_r in R. assert (0 < 2 ^ 1074) as HU by (apply Z.pow_pos_nonneg; lia).
  remember (2 ^ 1074) as U eqn:EU. clear EU. assert (c ≤ n) by nia.
  destruct (of_i64_good c Hc) as [Vc Sc]. specialize (Hvc ltac:(lia)). specialize (R ltac:(lia)).
  destruct (fsub_val a (of_i64 c) Va Vc Sa Sc) as (V & S & ->); [lia|]. split_and!; [done|done|].
  rewrite Hvc, <- R. apply rnd_mono; lia.
Qed.

Lemma fge_val a b : valid a → valid b → has_sign false a → has_sign false b → fge a b = true ↔ val b ≤ val a.
Proof.
  intros Va Vb Sa Sb. rewrite <- fle_val by done. unfold fle, fge, flt.
  pose proof (SFcompare_rank a b (has_sign_num _ _ Sa) (has_sign_num _ _ Sb)) as Hc.
  destruct (SFcompare a b) as [[]|]; naive_solver.
Qed.

(** Seconds times a rate that is not negative. *)
Lemma Seconds_mul_good d r : 0 ≤ d < 2 ^ 63 → valid r → has_sign false r → val r < huge →
  valid (fmul (Seconds d) r) ∧ has_sign false (fmul (Seconds d) r).
Proof.
  intros Hd Vr Sr Fr. destruct (Seconds_val d Hd) as (V & S & _ & Hle).
  assert (val (Seconds d) < huge) as F.
  { eapply Z.le_lt_trans; [exact Hle|]. apply whole_lt_huge. Z.to_euclidean_division_equations; lia. }
  destruct (fmul_val _ _ V Vr S Sr F Fr) as (? & ? & _). done.
Qed.
