(* ===== verification/GoTime.v ===== *)
(** * Package time

    A point in time is a number of nanoseconds since 1970 in UTC.  Dates are those of the
    Gregorian calendar, computed from the number of days by the usual method with years that
    start in March; [AddDate] normalises as [time.Date] does, so that January 31 and one month
    is March 2 or 3. *)

From S2P Require Import Prelude.
From stdpp Require Import options.
Open Scope Z_scope.

(** [time.Time.Sub] saturates. *)
Definition time_Sub (a b : Z) : Z := Z.max (- 2 ^ 63) (Z.min (2 ^ 63 - 1) (a - b)).

Definition day_ns : Z := 86400 * 10 ^ 9.

(** The days before March 1 of a year, counted from March 1 of the year 0. *)
Definition year_days (y : Z) : Z := 365 * y + y / 4 - y / 100 + y / 400.
(** The days before the month [mp] after March, in such a year. *)
Definition month_days (mp : Z) : Z := (153 * mp + 2) / 5.

Definition days_of_date (y m d : Z) : Z :=
  let y := if decide (m ≤ 2) then y - 1 else y in
  let mp := if decide (m ≤ 2) then m + 9 else m - 3 in
  year_days y + month_days mp + (d - 1) - 719468.

(** Year, month and day. *)
Definition date_of_days (n : Z) : Z * Z * Z :=
  let z := n + 719468 in
  let era := z / 146097 in
  let doe := z mod 146097 in
  let yoe := (doe - doe / 1460 + doe / 36524 - doe / 146096) / 365 in
  let y := yoe + era * 400 in
  let doy := doe - (365 * yoe + yoe / 4 - yoe / 100) in
  let mp := (5 * doy + 2) / 153 in
  let d := doy - month_days mp + 1 in
  let m := if decide (mp < 10) then mp + 3 else mp - 9 in
  (if decide (m ≤ 2) then y + 1 else y, m, d).

Example date_leap : (days_of_date 2024 2 29, date_of_days 19782, date_of_days (-1)) = (19782, (2024, 2, 29), (1969, 12, 31)).
Proof. reflexivity. Qed.

(** [t.AddDate(years, months, days)] *)
Definition AddDate (years months days : Z) (t : Z) : Z :=
  let '(y, m, d) := date_of_days (t / day_ns) in
  let m0 := m - 1 + months in
  let y := y + years + m0 / 12 in
  (days_of_date y (m0 mod 12 + 1) 1 + (d - 1) + days) * day_ns + t mod day_ns.

Example AddDate_overflow : AddDate 0 1 0 (days_of_date 2023 1 31 * day_ns) = days_of_date 2023 3 3 * day_ns.
Proof. reflexivity. Qed.

(** A check of [n] consecutive integers. *)
Fixpoint all_from (f : Z → bool) (n : nat) (z : Z) : bool :=
  match n with O => true | S n => f z && all_from f n (z + 1) end.

Lemma all_from_spec f n : ∀ z x, all_from f n z = true → z ≤ x < z + Z.of_nat n → f x = true.
Proof.
  induction n as [|n IH]; intros z x; cbn [all_from]; [lia|]. intros [Hz Hn]%andb_true_iff Hx.
  destruct (decide (x = z)) as [->|]; [done|]. apply (IH (z + 1)); [done|lia].
Qed.

(** The day of the year found for a day of the 400-year cycle is one. *)
Lemma cycle_ok doe : 0 ≤ doe < 146097 →
  let yoe := (doe - doe / 1460 + doe / 36524 - doe / 146096) / 365 in
  let doy := doe - (365 * yoe + yoe / 4 - yoe / 100) in 0 ≤ yoe < 400 ∧ 0 ≤ doy ≤ 365.
Proof.
  intros Hd. assert (all_from (λ doe, let yoe := (doe - doe / 1460 + doe / 36524 - doe / 146096) / 365 in
    let doy := doe - (365 * yoe + yoe / 4 - yoe / 100) in (0 <=? yoe) && (yoe <? 400) && (0 <=? doy) && (doy <=? 365))
    (Z.to_nat 146097) 0 = true) as Hall by (vm_compute; reflexivity).
  apply all_from_spec with (x := doe) in Hall; [|lia]. cbv zeta in *. rewrite !andb_true_iff in Hall.
  destruct Hall as [[[H1 H2] H3] H4]. lia.
Qed.

Lemma date_roundtrip n : let '(y, m, d) := date_of_days n in days_of_date y m d = n ∧ 1 ≤ m ≤ 12.
Proof.
  unfold date_of_days. set (z := n + 719468). set (doe := z mod 146097).
  assert (0 ≤ doe < 146097) as Hdoe by (unfold doe; apply Z.mod_pos_bound; lia).
  pose proof (cycle_ok doe Hdoe) as [Hy Hdoy]. set (yoe := (doe - doe / 1460 + doe / 36524 - doe / 146096) / 365) in *.
  set (doy := doe - (365 * yoe + yoe / 4 - yoe / 100)) in *. set (mp := (5 * doy + 2) / 153).
  assert (0 ≤ mp ≤ 11) as Hmp by (unfold mp; Z.to_euclidean_division_equations; lia).
  set (m := if decide (mp < 10) then mp + 3 else mp - 9).
  assert (1 ≤ m ≤ 12 ∧ (if decide (m ≤ 2) then m + 9 else m - 3) = mp) as [Hm Hmp'].
  { unfold m. clearbody mp. destruct (decide (mp < 10)); destruct (decide _); lia. }
  split; [|done]. unfold days_of_date. rewrite Hmp'.
  assert ((if decide (m ≤ 2) then (if decide (m ≤ 2) then yoe + z / 146097 * 400 + 1 else yoe + z / 146097 * 400) - 1
           else if decide (m ≤ 2) then yoe + z / 146097 * 400 + 1 else yoe + z / 146097 * 400) = yoe + z / 146097 * 400) as ->
    by (destruct (decide (m ≤ 2)); lia).
  assert (year_days (yoe + z / 146097 * 400) = 146097 * (z / 146097) + (365 * yoe + yoe / 4 - yoe / 100)) as ->.
  { unfold year_days. clear -Hy. set (e := z / 146097). clearbody e. Z.to_euclidean_division_equations. lia. }
  pose proof (Z.div_mod z 146097 ltac:(lia)) as Hz. fold doe in Hz. unfold z in *. lia.
Qed.

Lemma date_day n : 1 ≤ (date_of_days n).2 ≤ 31.
Proof.
  unfold date_of_days. cbn [snd]. set (doe := (n + 719468) mod 146097).
  assert (0 ≤ doe < 146097) as Hdoe by (unfold doe; by apply Z.mod_pos_bound). pose proof (cycle_ok doe Hdoe) as [_ Hdoy].
  set (yoe := (doe - doe / 1460 + doe / 36524 - doe / 146096) / 365) in *. set (doy := doe - (365 * yoe + yoe / 4 - yoe / 100)) in *.
  clearbody doy. unfold month_days. Z.to_euclidean_division_equations. lia.
Qed.

(** The first of the month, by the number of months. *)
Definition month_start (k : Z) : Z := days_of_date (k / 12) (k mod 12 + 1) 1.

Lemma year_days_step y : 365 ≤ year_days (y + 1) - year_days y ≤ 366.
Proof. unfold year_days. Z.to_euclidean_division_equations. lia. Qed.

Lemma month_start_step k : 28 ≤ month_start (k + 1) - month_start k ≤ 31.
Proof.
  unfold month_start, days_of_date, month_days. set (y := k / 12). set (m := k mod 12).
  assert (0 ≤ m < 12) as Hm by (apply Z.mod_pos_bound; lia). pose proof (Z.div_mod k 12 ltac:(lia)) as Hk. fold y m in Hk.
  pose proof (year_days_step (y - 1)) as Hy. replace (y - 1 + 1) with y in Hy by lia.
  destruct (decide (m = 11)) as [E|Hne].
  - replace ((k + 1) / 12) with (y + 1) by (Z.to_euclidean_division_equations; lia).
    replace ((k + 1) mod 12) with 0 by (Z.to_euclidean_division_equations; lia). rewrite E.
    replace (y + 1 - 1) with y by lia. clearbody y. clear.
    rewrite !(decide_True (P := 0 + 1 ≤ 2)), !(decide_False (P := 11 + 1 ≤ 2)) by lia.
    Z.to_euclidean_division_equations. lia.
  - replace ((k + 1) / 12) with y by (Z.to_euclidean_division_equations; lia).
    replace ((k + 1) mod 12) with (m + 1) by (Z.to_euclidean_division_equations; lia).
    clearbody m y. clear Hk. destruct (decide (m + 1 + 1 ≤ 2)), (decide (m + 1 ≤ 2));
      Z.to_euclidean_division_equations; lia.
Qed.

Lemma month_start_mono k j : (0 < j) → month_start k < month_start (k + j).
Proof.
  intros Hj. pattern j. apply Zlt_lower_bound_ind with (z := 1); [|lia]. clear j Hj. intros j IH Hj.
  destruct (decide (j = 1)) as [->|]; [pose proof (month_start_step k); lia|].
  pose proof (IH (j - 1) ltac:(lia)). pose proof (month_start_step (k + (j - 1))). replace (k + (j - 1) + 1) with (k + j) in * by lia. lia.
Qed.

(** Adding years or months goes forward, by a whole number of days. *)
Lemma AddDate_later years months t : 0 < 12 * years + months → t + day_ns ≤ AddDate years months 0 t.
Proof.
  intros Hpos. unfold AddDate. pose proof (date_roundtrip (t / day_ns)) as Hr.
  destruct (date_of_days (t / day_ns)) as [[y m] d]. destruct Hr as [Hr Hm].
  set (k := 12 * y + (m - 1)). set (j := 12 * years + months) in *.
  assert (days_of_date (y + years + (m - 1 + months) / 12) ((m - 1 + months) mod 12 + 1) 1 = month_start (k + j)) as ->.
  { unfold month_start, k, j. f_equal; [|f_equal]; Z.to_euclidean_division_equations; lia. }
  assert (days_of_date y m d = month_start k + (d - 1)) as Hd.
  { unfold month_start, k. replace ((12 * y + (m - 1)) / 12) with y by (Z.to_euclidean_division_equations; lia).
    replace ((12 * y + (m - 1)) mod 12 + 1) with m by (Z.to_euclidean_division_equations; lia). unfold days_of_date. lia. }
  pose proof (month_start_mono k j Hpos). pose proof (Z.div_mod t day_ns ltac:(done)) as Ht. unfold day_ns in *. lia.
Qed.
