(* ===== verification/Utf8.v ===== *)
(** * Ranging over a string

    [for i, r := range s] decodes UTF-8: the runes of [s], each with the number of bytes it was
    decoded from; a byte that starts no encoding of a code point gives U+FFFD and is one byte
    long (unicode/utf8, DecodeRune).  Bytes and runes are integers. *)

From S2P Require Import Prelude.
From stdpp Require Import options.
Open Scope Z_scope.

Definition bytes (s : string) : list Z := (λ a, Z.of_N (Ascii.N_of_ascii a)) <$> String.list_ascii_of_string s.
Definition string_of_bytes (l : list Z) : string := String.string_of_list_ascii ((λ b, Ascii.ascii_of_N (Z.to_N b)) <$> l).

Lemma bytes_string_of_bytes l : Forall (λ b, 0 ≤ b < 256) l → bytes (string_of_bytes l) = l.
Proof.
  intros Hl. unfold bytes, string_of_bytes. rewrite String.list_ascii_of_string_of_list_ascii.
  induction Hl as [|b l Hb _ IH]; [done|]. cbn. f_equal; [|exact IH]. rewrite Ascii.N_ascii_embedding; lia.
Qed.

Lemma string_of_bytes_bytes s : string_of_bytes (bytes s) = s.
Proof.
  unfold bytes, string_of_bytes. rewrite <- (String.string_of_list_ascii_of_string s) at 2. f_equal.
  induction (String.list_ascii_of_string s) as [|a l IH]; [done|]. cbn. f_equal; [|exact IH]. rewrite N2Z.id. apply Ascii.ascii_N_embedding.
Qed.

Lemma bytes_range s : Forall (λ b, 0 ≤ b < 256) (bytes s).
Proof. unfold bytes. apply Forall_fmap, Forall_true. intros a. cbn. pose proof (Ascii.N_ascii_bounded a). lia. Qed.

Definition between (lo hi b : Z) : bool := (lo <=? b) && (b <=? hi).
Definition cont : Z → bool := between 128 191.
Definition RuneError : Z := 65533.

(** The second byte after a first byte, as the table [acceptRanges] restricts it. *)
Definition second3 (b0 b1 : Z) : bool :=
  between (if b0 =? 224 then 160 else 128) (if b0 =? 237 then 159 else 191) b1.
Definition second4 (b0 b1 : Z) : bool :=
  between (if b0 =? 240 then 144 else 128) (if b0 =? 244 then 143 else 191) b1.

Definition rune2 (b0 b1 : Z) : Z := Z.lor (Z.shiftl (Z.land b0 31) 6) (Z.land b1 63).
Definition rune3 (b0 b1 b2 : Z) : Z :=
  Z.lor (Z.lor (Z.shiftl (Z.land b0 15) 12) (Z.shiftl (Z.land b1 63) 6)) (Z.land b2 63).
Definition rune4 (b0 b1 b2 b3 : Z) : Z :=
  Z.lor (Z.lor (Z.lor (Z.shiftl (Z.land b0 7) 18) (Z.shiftl (Z.land b1 63) 12)) (Z.shiftl (Z.land b2 63) 6)) (Z.land b3 63).

Fixpoint scan (bs : list Z) : list (Z * nat) :=
  match bs with
  | [] => []
  | b0 :: t0 =>
      if b0 <? 128 then (b0, 1%nat) :: scan t0
      else match t0 with
      | b1 :: t1 =>
          if between 194 223 b0 && cont b1 then (rune2 b0 b1, 2%nat) :: scan t1
          else match t1 with
          | b2 :: t2 =>
              if between 224 239 b0 && second3 b0 b1 && cont b2 then (rune3 b0 b1 b2, 3%nat) :: scan t2
              else match t2 with
              | b3 :: t3 =>
                  if between 240 244 b0 && second4 b0 b1 && cont b2 && cont b3 then (rune4 b0 b1 b2 b3, 4%nat) :: scan t3
                  else (RuneError, 1%nat) :: scan t0
              | [] => (RuneError, 1%nat) :: scan t0
              end
          | [] => (RuneError, 1%nat) :: scan t0
          end
      | [] => (RuneError, 1%nat) :: scan t0
      end
  end.

Definition runes (s : string) : list Z := (scan (bytes s)).*1.

(** "aé€😀" and the bytes after a lone 0xFF. *)
Example scan_widths : scan [97; 195; 169; 226; 130; 172; 240; 159; 152; 128; 255; 97]
  = [(97, 1%nat); (233, 2%nat); (8364, 3%nat); (128512, 4%nat); (65533, 1%nat); (97, 1%nat)].
Proof. reflexivity. Qed.

(** On ASCII, runes are bytes. *)
Lemma scan_ascii bs : Forall (λ b, b < 128) bs → scan bs = (λ b, (b, 1%nat)) <$> bs.
Proof.
  induction 1 as [|b bs Hb _ IH]; [done|]. cbn [scan]. rewrite (proj2 (Z.ltb_lt b 128) Hb), IH. done.
Qed.

Lemma scan_total bs : sum_list ((scan bs).*2) = length bs.
Proof.
  enough (∀ n bs, (length bs ≤ n)%nat → sum_list ((scan bs).*2) = length bs) as Hn by (by apply (Hn (length bs))).
  intros n. induction n as [|n IH]; intros l Hl; [by destruct l; cbn in Hl; [|lia]|].
  destruct l as [|b0 t0]; [done|]. cbn in Hl. cbn [scan].
  repeat match goal with |- context [if ?b then _ else _] => destruct b | |- context [match ?l with [] => _ | _ => _ end] => destruct l end;
    rewrite fmap_cons; cbn [fst snd sum_list sum_list_with]; unfold sum_list in IH; cbn [length] in *;
    rewrite IH by (cbn [length] in *; lia); cbn [length]; done.
Qed.
