(* ===== verification/BaseN.v ===== *)
(** * Packages encoding/base32, base64 and hex

    Numbers in a base, and the codings of bytes that the code uses: base32 without padding and
    the standard base64. *)

From S2P Require Import Prelude GoStrings Utf8.
From stdpp Require Import pretty options.
Open Scope Z_scope.

(** ** Digits, the most significant first *)

Fixpoint digits (b : Z) (n : nat) (v : Z) : list Z :=
  match n with O => [] | S n => digits b n (v / b) ++ [v mod b] end.
Fixpoint value_from (b v : Z) (l : list Z) : Z :=
  match l with [] => v | d :: l => value_from b (v * b + d) l end.
Definition value (b : Z) (l : list Z) : Z := value_from b 0 l.

Definition digit (b d : Z) : Prop := 0 ≤ d < b.

Lemma digits_length b n v : length (digits b n v) = n.
Proof. revert v. induction n as [|n IH]; intros v; cbn; [done|]. rewrite length_app, IH. cbn. lia. Qed.

Lemma digits_digit b n v : 0 < b → Forall (digit b) (digits b n v).
Proof.
  intros Hb. revert v. induction n as [|n IH]; intros v; cbn; [constructor|]. apply Forall_app. split; [apply IH|]. repeat constructor; by apply Z.mod_pos_bound.
Qed.

Lemma value_from_app b v l m : value_from b v (l ++ m) = value_from b (value_from b v l) m.
Proof. revert v. induction l as [|d l IH]; intros v; cbn; [done|]. apply IH. Qed.

Lemma value_snoc b l d : value b (l ++ [d]) = value b l * b + d.
Proof. unfold value. by rewrite value_from_app. Qed.

Lemma value_digits b n v : 0 < b → 0 ≤ v < b ^ Z.of_nat n → value b (digits b n v) = v.
Proof.
  intros Hb. revert v. induction n as [|n IH]; intros v Hv; cbn [digits]; [cbn in *; unfold value; cbn; lia|].
  rewrite Nat2Z.inj_succ, Z.pow_succ_r in Hv by lia. rewrite value_snoc, IH; [pose proof (Z.div_mod v b); lia|]. split; [apply Z.div_pos; lia|apply Z.div_lt_upper_bound; lia].
Qed.

Lemma value_bound b l : 0 < b → Forall (digit b) l → 0 ≤ value b l < b ^ Z.of_nat (length l).
Proof.
  intros Hb. induction l as [|d l IH] using rev_ind; [unfold value; cbn; lia|]. intros [Hl [Hd _]%Forall_cons]%Forall_app. specialize (IH Hl).
  rewrite value_snoc, length_app, Nat2Z.inj_add. change (Z.of_nat (length [d])) with 1. rewrite Z.pow_add_r, Z.pow_1_r by lia. unfold digit in Hd. nia.
Qed.

Lemma digits_value b l : 0 < b → Forall (digit b) l → digits b (length l) (value b l) = l.
Proof.
  intros Hb. induction l as [|d l IH] using rev_ind; [done|]. intros [Hl [Hd _]%Forall_cons]%Forall_app.
  rewrite length_app, Nat.add_comm. cbn [length Nat.add digits]. unfold digit in Hd. rewrite value_snoc. rewrite Z.div_add_l, Z.div_small, Z.add_0_r, IH by (done || lia).
  rewrite Z.add_comm, Z_mod_plus_full, Z.mod_small by done. done.
Qed.

Lemma value_zeros b l k : value b (l ++ replicate k 0) = value b l * b ^ Z.of_nat k.
Proof.
  induction k as [|k IH]; [rewrite app_nil_r; cbn; lia|]. rewrite replicate_S_end, app_assoc, value_snoc, IH, Nat2Z.inj_succ, Z.pow_succ_r by lia. lia.
Qed.

Lemma digits_inj b n x y : 0 < b → 0 ≤ x < b ^ Z.of_nat n → 0 ≤ y < b ^ Z.of_nat n → digits b n x = digits b n y → x = y.
Proof. intros Hb Hx Hy E. rewrite <- (value_digits b n x), <- (value_digits b n y), E by done. done. Qed.

(** The digits of a multiple of [b^k] end in [k] zeros. *)
Lemma digits_multiple b n k q : 1 < b → digits b (n + k) (q * b ^ Z.of_nat k) = digits b n q ++ replicate k 0.
Proof.
  intros Hb. induction k as [|k IH]; [by rewrite Nat.add_0_r, app_nil_r, Z.pow_0_r, Z.mul_1_r|].
  rewrite Nat.add_succ_r. cbn [digits]. rewrite Nat2Z.inj_succ, Z.pow_succ_r by lia. replace (q * (b * b ^ Z.of_nat k)) with (q * b ^ Z.of_nat k * b) by lia.
  rewrite Z.div_mul, IH, Z.mod_mul by lia. by rewrite replicate_S_end, app_assoc.
Qed.

Lemma digits_zero b n : 1 < b → digits b n 0 = replicate n 0.
Proof. intros Hb. exact (digits_multiple b 0 n 0 Hb). Qed.

(** ** Decimal numbers with leading zeros *)

Definition decimal (n : nat) (x : Z) : list Z := Z.add 48 <$> digits 10 n x.

Lemma decimal_length n x : length (decimal n x) = n.
Proof. unfold decimal. by rewrite length_fmap, digits_length. Qed.

Lemma decimal_inj n x y : 0 ≤ x < 10 ^ Z.of_nat n → 0 ≤ y < 10 ^ Z.of_nat n → decimal n x = decimal n y → x = y.
Proof. intros Hx Hy E. apply (digits_inj 10 n); [done|done|done|]. eapply list_fmap_eq_inj; [|exact E]. intros a b. lia. Qed.

(** [strconv.FormatInt], with zeros put before it. *)
Lemma pretty_N_go_decimal n x s : (0 < x)%N → Z.of_N x < 10 ^ Z.of_nat n →
  ∃ k, bytes (pretty_N_go x s) = drop k (decimal n (Z.of_N x)) ++ bytes s ∧ take k (decimal n (Z.of_N x)) = replicate k 48 ∧ (k < n)%nat.
Proof.
  revert x s. induction n as [|n IH]; intros x s Hx Hn; [cbn in Hn; lia|]. rewrite Nat2Z.inj_succ, Z.pow_succ_r in Hn by lia.
  rewrite pretty_N_go_step by done. unfold decimal in *. cbn [digits]. rewrite fmap_app. change (Z.add 48 <$> [Z.of_N x mod 10]) with [48 + Z.of_N x mod 10].
  assert (Z.of_N x / 10 = Z.of_N (x / 10)) as Ed by (by rewrite N2Z.inj_div). assert (Z.of_N x mod 10 = Z.of_N (x mod 10)) as Em by (by rewrite N2Z.inj_mod).
  assert (∀ t, bytes (String (pretty_N_char (x mod 10)) t) = (48 + Z.of_N x mod 10) :: bytes t) as Hc.
  { intros t. unfold bytes. cbn. f_equal. rewrite Em. assert (x mod 10 < 10)%N as Hm by (by apply N.mod_lt). revert Hm. generalize (x mod 10)%N. intros m Hm.
    assert (m = 0 ∨ m = 1 ∨ m = 2 ∨ m = 3 ∨ m = 4 ∨ m = 5 ∨ m = 6 ∨ m = 7 ∨ m = 8 ∨ m = 9)%N as Hcase by lia. by repeat destruct Hcase as [->|Hcase]; [..|subst m]. }
  rewrite Ed. assert (length (Z.add 48 <$> digits 10 n (Z.of_N (x / 10))) = n) as Hl by (by rewrite length_fmap, digits_length).
  destruct (decide (x / 10 = 0)%N) as [E0|E0].
  - rewrite E0, pretty_N_go_0 in *. exists n. rewrite Hc, drop_app_length', take_app_length' by done. split_and!; [done| |lia].
    rewrite digits_zero by done. by rewrite fmap_replicate.
  - destruct (IH (x / 10)%N (String (pretty_N_char (x mod 10)) s)) as (k & E1 & E2 & E3); [by apply N.neq_0_lt_0|rewrite <- Ed; apply Z.div_lt_upper_bound; lia|].
    exists k. rewrite E1, Hc, drop_app_le, take_app_le, E2, <- app_assoc by lia. split_and!; [done|done|lia].
Qed.

Lemma pretty_decimal n z : (0 < n)%nat → 0 ≤ z < 10 ^ Z.of_nat n →
  (String.length (pretty z) ≤ n)%nat ∧ replicate (n - String.length (pretty z)) 48 ++ bytes (pretty z) = decimal n z.
Proof.
  intros Hn Hz. assert (∀ s, String.length s = length (bytes s)) as Hlen. { intros s. unfold bytes. rewrite length_fmap. induction s; cbn; [done|]. by f_equal. }
  rewrite Hlen. assert (∃ k, bytes (pretty z) = drop k (decimal n z) ∧ take k (decimal n z) = replicate k 48 ∧ (k ≤ n)%nat) as (k & E1 & E2 & Hk).
  { destruct z as [|p|p]; [|..]; [| |lia].
    - exists (pred n). destruct n as [|n]; [lia|]. cbn [pred]. unfold decimal. rewrite digits_zero by done.
      rewrite fmap_replicate. change (48 + 0) with 48. rewrite replicate_S_end, drop_app_length', take_app_length' by (by rewrite length_replicate). split_and!; [done|done|lia].
    - destruct (pretty_N_go_decimal n (N.pos p) "" ltac:(lia) ltac:(cbn; lia)) as (k & E1 & E2 & E3). exists k. change (Z.of_N (N.pos p)) with (Z.pos p) in *. rewrite app_nil_r in E1. split_and!; [|done|lia].
      rewrite <- E1. unfold pretty, pretty_Z, pretty_positive, pretty, pretty_N. by rewrite decide_False. }
  rewrite E1, length_drop, decimal_length. split; [lia|]. replace (n - (n - k))%nat with k by lia. by rewrite <- E2, take_drop.
Qed.

(** ** Regrouping: from groups of [G] digits of base [B] to groups of [G'] digits of base [B'] *)

(** [out k] is the number of digits that a last group of [k] becomes. *)
Record regrouping := { from_base : Z; from_size : nat; to_base : Z; to_size : nat; out : nat → nat }.

Definition quantum (g : regrouping) (q : list Z) : list Z :=
  take (out g (length q)) (digits (to_base g) (to_size g) (value (from_base g) (q ++ replicate (from_size g - length q) 0))).

Fixpoint regroup_from (fuel : nat) (g : regrouping) (l : list Z) : list Z :=
  match fuel, l with
  | S fuel, _ :: _ => quantum g (take (from_size g) l) ++ regroup_from fuel g (drop (from_size g) l)
  | _, _ => []
  end.
Definition regroup (g : regrouping) (l : list Z) : list Z := regroup_from (length l) g l.

Lemma regroup_from_fuel g fuel l : (0 < from_size g)%nat → (length l ≤ fuel)%nat → regroup_from fuel g l = regroup g l.
Proof.
  intros Hg. unfold regroup. enough (∀ n fuel l, (length l ≤ n)%nat → (length l ≤ fuel)%nat → regroup_from fuel g l = regroup_from n g l) as Hn by (intros; by apply Hn).
  clear fuel l. induction n as [|n IH]; intros fuel l Hn Hl; [destruct l; [by destruct fuel|cbn in Hn; lia]|].
  destruct l as [|d l]; [by destruct fuel|]. destruct fuel as [|fuel]; [cbn in Hl; lia|]. cbn [regroup_from]. f_equal.
  apply IH; rewrite length_drop; cbn in *; lia.
Qed.

Lemma regroup_step g l : (0 < from_size g)%nat → l ≠ [] → regroup g l = quantum g (take (from_size g) l) ++ regroup g (drop (from_size g) l).
Proof.
  intros Hg Hl. destruct l as [|d l]; [done|]. unfold regroup at 1. cbn [length regroup_from]. f_equal. apply regroup_from_fuel; [done|]. rewrite length_drop. cbn. lia.
Qed.

(** Regrouping back: full groups become full groups, and no digit of a shorter one is lost. *)
Record inverse (g h : regrouping) : Prop := {
  inv_bases : from_base h = to_base g ∧ to_base h = from_base g ∧ from_size h = to_size g ∧ to_size h = from_size g;
  inv_sizes : (0 < from_size g)%nat ∧ (0 < to_size g)%nat ∧ 1 < from_base g ∧ 1 < to_base g;
  inv_full : out g (from_size g) = to_size g ∧ from_base g ^ Z.of_nat (from_size g) = to_base g ^ Z.of_nat (to_size g);
  inv_out k : (0 < k ≤ from_size g)%nat → (0 < out g k ≤ to_size g)%nat ∧ out h (out g k) = k ∧
    ((k < from_size g)%nat → (out g k < to_size g)%nat) ∧
    (to_base g ^ Z.of_nat (to_size g - out g k) | from_base g ^ Z.of_nat (from_size g - k)) }.

Lemma quantum_length g q : (out g (length q) ≤ to_size g)%nat → length (quantum g q) = out g (length q).
Proof. intros H. unfold quantum. rewrite length_take, digits_length. lia. Qed.

Lemma quantum_inverse g h q : inverse g h → Forall (digit (from_base g)) q → (0 < length q ≤ from_size g)%nat → quantum h (quantum g q) = q.
Proof.
  intros [(B1 & B2 & S1 & S2) (P1 & P2 & P3 & P4) [_ Hpow] Hout] Hq Hl. destruct (Hout _ Hl) as (Hc & Ho & _ & [m Hm]).
  set (k := length q) in *. set (c := out g k) in *. set (v := value (from_base g) (q ++ replicate (from_size g - k) 0)).
  assert (length (quantum g q) = c) as Hlen by (apply quantum_length; fold k c; lia).
  assert (Forall (digit (from_base g)) (q ++ replicate (from_size g - k) 0)) as Hall. { apply Forall_app. split; [done|]. apply Forall_replicate. unfold digit. lia. }
  assert (length (q ++ replicate (from_size g - k) 0) = from_size g) as HL by (rewrite length_app, length_replicate; fold k; lia).
  assert (0 ≤ v < to_base g ^ Z.of_nat (to_size g)) as Hv by (rewrite <- Hpow, <- HL; apply value_bound; [lia|done]).
  assert (value (to_base g) (quantum g q ++ replicate (to_size g - c) 0) = v) as Hback.
  { unfold quantum. fold k c v. assert (v = value (from_base g) q * m * to_base g ^ Z.of_nat (to_size g - c)) as Hvm by (unfold v; rewrite value_zeros, Hm; lia).
    pose proof (digits_multiple (to_base g) c (to_size g - c) (value (from_base g) q * m) ltac:(lia)) as Hd. replace (c + (to_size g - c))%nat with (to_size g) in Hd by lia.
    rewrite <- Hvm in Hd. rewrite Hd, take_app_length' by (by rewrite digits_length). rewrite <- Hd. apply value_digits; [lia|done]. }
  unfold quantum at 1. rewrite Hlen, B1, B2, S1, S2, Ho, Hback. 
  pose proof (digits_value (from_base g) _ ltac:(lia) Hall) as Hd. rewrite HL in Hd. fold v in Hd. by rewrite Hd, take_app_length'.
Qed.

Lemma regroup_inverse g h l : inverse g h → Forall (digit (from_base g)) l → regroup h (regroup g l) = l.
Proof.
  intros Hi. pose proof Hi as [(B1 & B2 & S1 & S2) (P1 & P2 & P3 & P4) [Hfull Hpow] Hout].
  remember (length l) as n eqn:Hn. revert l Hn. induction (lt_wf n) as [n _ IH]. intros l -> Hl. destruct (decide (l = [])) as [->|Hne]; [done|].
  rewrite (regroup_step g l) by done. set (q := take (from_size g) l). assert (0 < length q ≤ from_size g)%nat as Hq. { unfold q. rewrite length_take. destruct l; [done|]. cbn. lia. }
  destruct (Hout _ Hq) as (Hc & Ho & Hlt & _). assert (length (quantum g q) = out g (length q)) as Hlen by (apply quantum_length; lia).
  assert (quantum g q ≠ []) as Hqne by (intros E; rewrite E in Hlen; cbn in Hlen; lia).
  assert (Forall (digit (from_base g)) q) as Hqd by (by apply Forall_take).
  rewrite regroup_step by (lia || by intros [? _]%app_nil). rewrite S1. destruct (decide (length q = from_size g)) as [Eq|Eq].
  - rewrite take_app_length', drop_app_length' by (rewrite Hlen, Eq; done). rewrite quantum_inverse, (IH (length (drop (from_size g) l))); [apply take_drop| |done|by apply Forall_drop|done|done|done].
    rewrite length_drop. destruct l; [done|]. cbn. lia.
  - assert (drop (from_size g) l = []) as Hd. { apply drop_ge. unfold q in *. rewrite length_take in *. lia. }
    rewrite Hd. change (regroup g []) with (@nil Z). rewrite app_nil_r, take_ge, drop_ge by lia. rewrite quantum_inverse by done. change (regroup h []) with (@nil Z). rewrite app_nil_r. unfold q. rewrite <- (take_drop (from_size g) l) at 2. by rewrite Hd, app_nil_r.
Qed.

Lemma regroup_digit g l : 0 < to_base g → Forall (digit (to_base g)) (regroup g l).
Proof.
  intros Hb. unfold regroup. generalize (length l). intros n. revert l. induction n as [|n IH]; intros [|d l]; cbn [regroup_from]; try constructor.
  apply Forall_app. split; [|apply IH]. apply Forall_take. by apply digits_digit.
Qed.

(** ** Base32 without padding *)

Definition to32 : regrouping := {| from_base := 256; from_size := 5; to_base := 32; to_size := 8; out := λ k, ((8 * k + 4) / 5)%nat |}.
(** One, three or six letters at the end are dropped. *)
Definition of32 : regrouping := {| from_base := 32; from_size := 8; to_base := 256; to_size := 5;
  out := λ c, match c with 2 => 1 | 4 => 2 | 5 => 3 | 7 => 4 | 8 => 5 | _ => 0 end%nat |}.

Definition letter32 (d : Z) : Z := if decide (d < 26) then 65 + d else 24 + d.
Definition digit32 (c : Z) : option Z :=
  if decide (65 ≤ c ≤ 90) then Some (c - 65) else if decide (50 ≤ c ≤ 55) then Some (c - 24) else None.

Definition newline (c : Z) : Prop := c = 10 ∨ c = 13.
#[global] Instance newline_dec c : Decision (newline c).
Proof. unfold newline. apply _. Defined.
Definition strip_newlines (l : list Z) : list Z := filter (λ c, ¬ newline c) l.

Definition encode32 (l : list Z) : string := string_of_bytes (letter32 <$> regroup to32 l).
Definition decode32 (s : string) : option (list Z) := regroup of32 <$> mapM digit32 (strip_newlines (bytes s)).

Example base32_foobar : (encode32 (bytes "foobar"), decode32 "MZXW6YTBOI") = ("MZXW6YTBOI", Some (bytes "foobar")).
Proof. reflexivity. Qed.

Lemma base32_inverse : inverse to32 of32.
Proof.
  split; [done|by cbn; lia|done|]. cbn [to32 of32 from_size to_size from_base to_base out]. intros k Hk.
  assert (k = 1 ∨ k = 2 ∨ k = 3 ∨ k = 4 ∨ k = 5)%nat as Hc by lia. destruct Hc as [->|[->|[->|[->| ->]]]]; (split_and!; [cbn; lia|cbn; lia|done|cbn; lia|]).
  - exists 4. reflexivity.
  - exists 16. reflexivity.
  - exists 2. reflexivity.
  - exists 8. reflexivity.
  - exists 1. reflexivity.
Qed.

Lemma letter32_ok d : digit 32 d → 50 ≤ letter32 d ≤ 90 ∧ digit32 (letter32 d) = Some d.
Proof.
  unfold digit, letter32, digit32. intros Hd. destruct (decide (d < 26)); [rewrite decide_True by lia|rewrite decide_False, decide_True by lia]; (split; [lia|f_equal; lia]).
Qed.

Lemma decode_encode32 l : Forall (digit 256) l → decode32 (encode32 l) = Some l.
Proof.
  intros Hl. unfold decode32, encode32. pose proof (regroup_digit to32 l ltac:(done)) as Hd. cbn [to_base to32] in Hd.
  rewrite bytes_string_of_bytes by (apply Forall_fmap; eapply Forall_impl; [exact Hd|]; intros d ?%letter32_ok; cbn; lia).
  assert (strip_newlines (letter32 <$> regroup to32 l) = letter32 <$> regroup to32 l) as ->.
  { unfold strip_newlines. induction Hd as [|d ds Hd _ IH]; [done|]. rewrite fmap_cons, filter_cons_True, IH; [done|]. apply letter32_ok in Hd. unfold newline. lia. }
  assert (mapM digit32 (letter32 <$> regroup to32 l) = Some (regroup to32 l)) as ->.
  { apply mapM_Some. apply Forall2_fmap_l. apply Forall_Forall2_diag. eapply Forall_impl; [exact Hd|]. intros d ?%letter32_ok. naive_solver. }
  cbn. f_equal. by apply regroup_inverse; [apply base32_inverse|].
Qed.

(** ** Base64 with padding *)

Definition to64 : regrouping := {| from_base := 256; from_size := 3; to_base := 64; to_size := 4; out := S |}.
Definition of64 : regrouping := {| from_base := 64; from_size := 4; to_base := 256; to_size := 3; out := Nat.pred |}.

Definition letter64 (d : Z) : Z :=
  if decide (d < 26) then 65 + d else if decide (d < 52) then 71 + d else if decide (d < 62) then d - 4 else if decide (d = 62) then 43 else 47.
Definition digit64 (c : Z) : option Z :=
  if decide (65 ≤ c ≤ 90) then Some (c - 65) else if decide (97 ≤ c ≤ 122) then Some (c - 71)
  else if decide (48 ≤ c ≤ 57) then Some (c + 4) else if decide (c = 43) then Some 62 else if decide (c = 47) then Some 63 else None.

(** One group of letters, with the padding. *)
Definition padded64 (q : list Z) : list Z := (letter64 <$> quantum to64 q) ++ replicate (3 - length q) 61.
Fixpoint encode64_from (fuel : nat) (l : list Z) : list Z :=
  match fuel, l with
  | S fuel, _ :: _ => padded64 (take 3 l) ++ encode64_from fuel (drop 3 l)
  | _, _ => []
  end.
Definition encode64 (l : list Z) : string := string_of_bytes (encode64_from (length l) l).

Fixpoint decode64_from (l : list Z) : option (list Z) :=
  match l with
  | [] => Some []
  | c1 :: c2 :: c3 :: c4 :: l =>
      if decide (c4 = 61) then
        if decide (l ≠ []) then None
        else quantum of64 <$> mapM digit64 (if decide (c3 = 61) then [c1; c2] else [c1; c2; c3])
      else
        q ← mapM digit64 [c1; c2; c3; c4];
        rest ← decode64_from l;
        Some (quantum of64 q ++ rest)
  | _ => None
  end.
Definition decode64 (s : string) : option (list Z) := decode64_from (strip_newlines (bytes s)).

Example base64_fooba : (encode64 (bytes "fooba"), decode64 "Zm9vYmE=", decode64 "Zm9vYmE") = ("Zm9vYmE=", Some (bytes "fooba"), None).
Proof. reflexivity. Qed.

Lemma base64_inverse : inverse to64 of64.
Proof.
  split; [done|by cbn; lia|done|]. cbn [to64 of64 from_size to_size from_base to_base out]. intros k Hk.
  assert (k = 1 ∨ k = 2 ∨ k = 3)%nat as Hc by lia. destruct Hc as [->|[->| ->]]; (split_and!; [lia|lia|done|lia|]).
  - exists 16. reflexivity.
  - exists 4. reflexivity.
  - exists 1. reflexivity.
Qed.

Lemma letter64_ok d : digit 64 d → 43 ≤ letter64 d ≤ 122 ∧ letter64 d ≠ 61 ∧ digit64 (letter64 d) = Some d.
Proof.
  unfold digit, letter64. intros Hd.
  assert (∀ c, 43 ≤ c ≤ 122 → c ≠ 61 → digit64 c = Some d → 43 ≤ c ≤ 122 ∧ c ≠ 61 ∧ digit64 c = Some d) as H by done.
  destruct (decide (d < 26)); [apply H; [lia|lia|unfold digit64; rewrite decide_True by lia; f_equal; lia]|].
  destruct (decide (d < 52)); [apply H; [lia|lia|unfold digit64; rewrite decide_False, decide_True by lia; f_equal; lia]|].
  destruct (decide (d < 62)); [apply H; [lia|lia|unfold digit64; rewrite !decide_False, decide_True by lia; f_equal; lia]|].
  destruct (decide (d = 62)) as [->|]; [done|]. assert (d = 63) as -> by lia. done.
Qed.

(** The letters of a group: as many as [out] says, that read back to the group. *)
Lemma quantum64 q : Forall (digit 256) q → (0 < length q ≤ 3)%nat → let cs := letter64 <$> quantum to64 q in
  length cs = S (length q) ∧ Forall (λ c, 43 ≤ c ≤ 122 ∧ c ≠ 61) cs ∧ quantum of64 <$> mapM digit64 cs = Some q.
Proof.
  intros Hq Hl cs. assert (Forall (digit 64) (quantum to64 q)) as Hd by (apply Forall_take; by apply digits_digit).
  split_and!.
  - unfold cs. rewrite length_fmap. apply quantum_length. cbn. lia.
  - apply Forall_fmap. eapply Forall_impl; [exact Hd|]. intros d ?%letter64_ok. cbn. naive_solver.
  - assert (mapM digit64 cs = Some (quantum to64 q)) as ->.
    { apply mapM_Some, Forall2_fmap_l, Forall_Forall2_diag. eapply Forall_impl; [exact Hd|]. intros d ?%letter64_ok. naive_solver. }
    change (Some (quantum of64 (quantum to64 q)) = Some q). f_equal. by apply quantum_inverse; [apply base64_inverse| |].
Qed.

Lemma decode64_padded q l : Forall (digit 256) q → (0 < length q ≤ 3)%nat → (length q < 3 → l = [])%nat →
  decode64_from (padded64 q ++ l) = rest ← decode64_from l; Some (q ++ rest).
Proof.
  intros Hq Hl Hlast. unfold padded64. destruct (quantum64 q Hq Hl) as (L & C & D). revert L C D. generalize (letter64 <$> quantum to64 q). intros cs L C D.
  destruct q as [|a [|b [|c [|? ?]]]]; [cbn in Hl; lia| | | |cbn in Hl; lia]; cbn [length Nat.sub replicate] in *.
  - rewrite (Hlast ltac:(lia)). destruct cs as [|c1 [|c2 [|? ?]]]; [done|done| |done]. cbn [app decode64_from]. rewrite decide_True, decide_False by naive_solver. rewrite decide_True by done. rewrite D. reflexivity.
  - rewrite (Hlast ltac:(lia)). destruct cs as [|c1 [|c2 [|c3 [|? ?]]]]; [done|done|done| |done]. apply Forall_cons in C as [_ [_ [[_ C3] _]%Forall_cons]%Forall_cons].
    cbn [app decode64_from]. rewrite decide_True, decide_False by naive_solver. rewrite decide_False by done. rewrite D. reflexivity.
  - destruct cs as [|c1 [|c2 [|c3 [|c4 [|? ?]]]]]; [done|done|done|done| |done]. apply Forall_cons in C as [_ [_ [_ [[_ C4] _]%Forall_cons]%Forall_cons]%Forall_cons].
    rewrite app_nil_r. cbn [app decode64_from]. rewrite decide_False by done. destruct (mapM digit64 [c1; c2; c3; c4]) as [ds|]; [|done]. cbn in D |- *. injection D as ->. done.
Qed.

Lemma decode_encode64 l : Forall (digit 256) l → decode64 (encode64 l) = Some l.
Proof.
  intros Hl. unfold decode64, encode64.
  assert (∀ n l, (length l ≤ n)%nat → Forall (digit 256) l → Forall (λ c, 43 ≤ c ≤ 122) (encode64_from n l) ∧ decode64_from (encode64_from n l) = Some l) as Hn.
  { clear. induction n as [|n IH]; intros l Hn Hl; [destruct l; [by split|cbn in Hn; lia]|]. destruct l as [|b l]; [by split|]. cbn [encode64_from].
    set (q := take 3 (b :: l)). assert (0 < length q ≤ 3)%nat as Hq by (unfold q; rewrite length_take; cbn [length]; lia). assert (Forall (digit 256) q) as Hqd by (by apply Forall_take).
    destruct (IH (drop 3 (b :: l))) as [IH1 IH2]; [rewrite length_drop; cbn in *; lia|by apply Forall_drop|]. split.
    - apply Forall_app. split; [|done]. unfold padded64. apply Forall_app. split; [|apply Forall_replicate; lia]. destruct (quantum64 q Hqd Hq) as (_ & C & _). eapply Forall_impl; [exact C|]. naive_solver.
    - rewrite decode64_padded, IH2; [|done|done|]; [cbn [mbind option_bind]; f_equal; apply take_drop|]. intros Hlt. unfold q in Hlt. rewrite length_take in Hlt.
      rewrite drop_ge by lia. by destruct n. }
  destruct (Hn (length l) l (le_n _) Hl) as [H1 H2]. rewrite bytes_string_of_bytes by (eapply Forall_impl; [exact H1|]; cbn; lia).
  assert (∀ cs, Forall (λ c, 43 ≤ c ≤ 122) cs → strip_newlines cs = cs) as ->; [|done|done].
  clear. unfold strip_newlines. induction 1 as [|c cs Hc _ IH]; [done|]. rewrite filter_cons_True, IH; [done|]. unfold newline. lia.
Qed.

(** ** Hexadecimal *)

(** [hex.EncodeToString] *)
Definition hex_byte (b : Z) : string :=
  String (hex_digit (Z.to_nat (b / 16))) (String (hex_digit (Z.to_nat (b mod 16))) EmptyString).
Definition hex (bs : list Z) : string := String.concat "" (hex_byte <$> bs).

Definition is_byte (b : Z) : Prop := 0 ≤ b < 256.

Lemma hex_digit_inj a b : (a < 16)%nat → (b < 16)%nat → hex_digit a = hex_digit b → a = b.
Proof.
  intros Ha Hb. unfold hex_digit. intros E. apply (f_equal Ascii.nat_of_ascii) in E.
  destruct (decide (a < 10)%nat), (decide (b < 10)%nat); rewrite !Ascii.nat_ascii_embedding in E by lia; lia.
Qed.

Lemma concat_cons x l : String.concat "" (x :: l) = x +:+ String.concat "" l.
Proof.
  destruct l; cbn [String.concat]; [|done]. induction x as [|a x IH]; [done|]. by rewrite IH at 1.
Qed.

Lemma hex_cons b bs : hex (b :: bs) = hex_byte b +:+ hex bs.
Proof. unfold hex. rewrite fmap_cons. apply concat_cons. Qed.

Lemma nibbles b : is_byte b → 0 ≤ b / 16 < 16 ∧ 0 ≤ b mod 16 < 16 ∧ b = 16 * (b / 16) + b mod 16.
Proof. unfold is_byte. intros Hb. split_and!; try (apply Z.mod_pos_bound; lia); [apply Z.div_pos; lia|apply Z.div_lt_upper_bound; lia|by apply Z.div_mod]. Qed.

Lemma hex_inj bs cs : Forall is_byte bs → Forall is_byte cs → hex bs = hex cs → bs = cs.
Proof.
  intros Hb. revert cs. induction Hb as [|b bs Hb _ IH]; intros [|c cs] Hc; [done| | |].
  1, 2: rewrite hex_cons; done.
  apply Forall_cons in Hc as [Hc Hcs]. rewrite !hex_cons. unfold hex_byte. cbn. intros [= E1 E2 E3]. apply nibbles in Hb, Hc.
  apply hex_digit_inj in E1; [|lia|lia]. apply hex_digit_inj in E2; [|lia|lia]. f_equal; [lia|by apply IH].
Qed.

(** [hex.DecodeString] *)
Definition hex_value (a : Ascii.ascii) : option Z :=
  let n := Z.of_N (Ascii.N_of_ascii a) in
  if decide (48 ≤ n ≤ 57) then Some (n - 48) else if decide (97 ≤ n ≤ 102) then Some (n - 87)
  else if decide (65 ≤ n ≤ 70) then Some (n - 55) else None.
Fixpoint decode_hex (s : string) : option (list Z) :=
  match s with
  | EmptyString => Some []
  | String a (String b s) => x ← hex_value a; y ← hex_value b; l ← decode_hex s; Some (16 * x + y :: l)
  | _ => None
  end.

Lemma hex_value_digit n : (n < 16)%nat → hex_value (hex_digit n) = Some (Z.of_nat n).
Proof. intros Hn. do 16 (destruct n as [|n]; [reflexivity|]). lia. Qed.

Lemma decode_hex_hex l : Forall is_byte l → decode_hex (hex l) = Some l.
Proof.
  induction 1 as [|b l Hb _ IH]; [done|]. rewrite hex_cons. apply nibbles in Hb. unfold hex_byte.
  change (decode_hex _) with (x ← hex_value (hex_digit (Z.to_nat (b / 16))); y ← hex_value (hex_digit (Z.to_nat (b mod 16))); l ← decode_hex (hex l); Some (16 * x + y :: l)).
  rewrite !hex_value_digit by lia. cbn [mbind option_bind]. rewrite IH. cbn. do 2 f_equal. lia.
Qed.
