(* ===== verification/GoAny.v ===== *)
(** * Values of type [interface{}]

    The dynamic types the modelled code tells apart; [AOther] is a comparable value of any
    other type.  A float32 is given by its value. *)

From S2P Require Import Prelude Float64.
From stdpp Require Import options.
Open Scope Z_scope.

Inductive Any :=
  | ANil | AString (s : string) | ABool (b : bool)
  | AInt (z : Z) | AInt64 (z : Z) | AFloat64 (f : float64) | AFloat32 (f : float64)
  | AStrings (l : list string) | AList (l : list Any) | AMap (m : list (string * Any))
  | AOther (type value : Z).

(** [==] on interfaces: values of different types are different; comparing two slices or two
    maps panics. *)
Definition any_eq (a b : Any) : option bool :=
  match a, b with
  | ANil, ANil => Some true
  | AString s, AString t => Some (bool_decide (s = t))
  | ABool x, ABool y => Some (bool_decide (x = y))
  | AInt x, AInt y | AInt64 x, AInt64 y => Some (bool_decide (x = y))
  | AFloat64 x, AFloat64 y | AFloat32 x, AFloat32 y => Some (feq x y)
  | AStrings _, AStrings _ | AList _, AList _ | AMap _, AMap _ => None
  | AOther t x, AOther u y => Some (bool_decide (t = u ∧ x = y))
  | _, _ => Some false
  end.

(** Can be the key of a map. *)
Definition hashable (a : Any) : bool :=
  match a with AStrings _ | AList _ | AMap _ => false | _ => true end.
