(* ===== verification/GoJson.v ===== *)
(** * Package encoding/json, writing

    What json.Marshal writes for strings, for objects and for values of type [interface{}], and
    the layout time.RFC3339Nano of a time in UTC.  Texts are lists of bytes.  A value whose type
    the development does not tell apart (a float, a struct, a type with its own MarshalJSON) is
    written by the class [Json]; slices and maps are not nil. *)

From S2P Require Import Prelude GoStrings Errors Float64 GoTime Utf8 BaseN GoAny.
From stdpp Require Import pretty sorting options.
Open Scope Z_scope.
#[local] Set Default Proof Using "Type*".

(** ** Strings *)

Definition hexd (n : Z) : Z := if decide (n < 10) then 48 + n else 87 + n.

(** [htmlSafeSet]: the bytes below 128 that are written as they are. *)
Definition html_safe (b : Z) : bool := (32 <=? b) && negb (existsb (Z.eqb b) [34; 38; 60; 62; 92]).

Definition escape (b : Z) : list Z :=
  if decide (b = 92 ∨ b = 34) then [92; b]
  else if decide (b = 8) then [92; 98]
  else if decide (b = 12) then [92; 102]
  else if decide (b = 10) then [92; 110]
  else if decide (b = 13) then [92; 114]
  else if decide (b = 9) then [92; 116]
  else [92; 117; 48; 48; hexd (b / 16); hexd (b mod 16)].

(** One rune, decoded from the bytes [raw]: invalid UTF-8 becomes U+FFFD. *)
Definition piece (r : Z) (raw : list Z) : list Z :=
  match raw with
  | [b] => if decide (b < 128) then if html_safe b then [b] else escape b else [92; 117; 102; 102; 102; 100]
  | _ => if decide (r = 8232 ∨ r = 8233) then [92; 117; 50; 48; 50; hexd (r mod 16)] else raw
  end.

Fixpoint pieces (rs : list (Z * nat)) (bs : list Z) : list Z :=
  match rs with
  | [] => []
  | (r, w) :: rs => piece r (take w bs) ++ pieces rs (drop w bs)
  end.

(** [appendString] *)
Definition json_string (s : string) : list Z := 34 :: pieces (scan (bytes s)) (bytes s) ++ [34].

Example json_string_escapes : json_string ("a<" +:+ String (Ascii.ascii_of_nat 34) (String (Ascii.ascii_of_nat 255) "")) =
  bytes (String (Ascii.ascii_of_nat 34) "a\u003c\" +:+ String (Ascii.ascii_of_nat 34) "\ufffd" +:+ String (Ascii.ascii_of_nat 34) "").
Proof. reflexivity. Qed.

(** ** Values *)

Class Json := leaf : Any → error + list Z.

(** Texts with commas between them. *)
Fixpoint commas (vs : list (list Z)) : list Z :=
  match vs with [] => [] | [v] => v | v :: vs => v ++ 44 :: commas vs end.
Definition array (vs : list (list Z)) : list Z := 91 :: commas vs ++ [93].
Definition member (kv : string * list Z) : list Z := json_string kv.1 ++ 58 :: kv.2.
Definition object (kvs : list (string * list Z)) : list Z := 123 :: commas (member <$> kvs) ++ [125].

Fixpoint sequence {A B} (l : list (A + B)) : A + list B :=
  match l with
  | [] => inr []
  | inl e :: _ => inl e
  | inr x :: l => match sequence l with inl e => inl e | inr xs => inr (x :: xs) end
  end.

Definition key_le {A} (x y : string * A) : Prop := String.le x.1 y.1.
#[export] Instance key_le_dec {A} : RelDecision (@key_le A) := λ x y, String.le_dec x.1 y.1.

Definition pair_value {A} (kv : string * (error + A)) : error + string * A :=
  match kv.2 with inl e => inl e | inr v => inr (kv.1, v) end.

(** The members are sorted by key before their values are written. *)
Definition json_map (m : list (string * (error + list Z))) : error + list Z :=
  match sequence (pair_value <$> merge_sort key_le m) with inl e => inl e | inr kvs => inr (object kvs) end.

Section json.
  Context `{Json}.

Fixpoint json_value (a : Any) : error + list Z :=
  match a with
  | ANil => inr (bytes "null")
  | AString s => inr (json_string s)
  | ABool b => inr (bytes (if b then "true" else "false"))
  | AInt z | AInt64 z => inr (bytes (pretty z))
  | AStrings l => inr (array (json_string <$> l))
  | AList l =>
      match sequence ((fix go (l : list Any) := match l with [] => [] | a :: l => json_value a :: go l end) l) with
      | inl e => inl e
      | inr vs => inr (array vs)
      end
  | AMap m => json_map ((fix go (m : list (string * Any)) := match m with [] => [] | (k, a) :: m => (k, json_value a) :: go m end) m)
  | AFloat64 _ | AFloat32 _ | AOther _ _ => leaf a
  end.
End json.

(** A struct, by its fields in order; a field that is omitted is [None]. *)
Definition present (f : string * option (list Z)) : option (string * list Z) := (f.1,.) <$> f.2.
Definition json_struct (fs : list (string * option (list Z))) : list Z :=
  object (omap present fs).

(** ** Reading strings back *)

(** The first rune of a text: how many bytes it has, and that what follows does not matter. *)
Lemma scan_step b0 bs : ∃ r w, scan (b0 :: bs) = (r, w) :: scan (drop w (b0 :: bs)) ∧
  (w = 1%nat ∧ r = (if decide (b0 < 128) then b0 else RuneError) ∨
   Forall (λ b, 128 ≤ b) (take w (b0 :: bs)) ∧ (∃ b1 t, take w (b0 :: bs) = b0 :: b1 :: t ∧ w = length (b0 :: b1 :: t)) ∧
   ∀ l, scan (take w (b0 :: bs) ++ l) = (r, w) :: scan l).
Proof.
  cbn [scan]. destruct (Z.ltb_spec b0 128) as [Hb|Hb]; [exists b0, 1%nat; split; [done|left; by rewrite decide_True]|].
  destruct bs as [|b1 t1]; [exists RuneError, 1%nat; split; [done|left; rewrite decide_False by lia; done]|].
  destruct (Utf8.between 194 223 b0 && cont b1) eqn:E2.
  { exists (rune2 b0 b1), 2%nat. split; [done|right]. pose proof E2 as [_ E]%andb_true_iff. unfold cont, Utf8.between in E.
    split_and!; [repeat constructor; lia|by eexists _, _|]. intros l. cbn. by rewrite (proj2 (Z.ltb_ge b0 128)), E2. }
  destruct t1 as [|b2 t2]; [exists RuneError, 1%nat; split; [done|left; rewrite decide_False by lia; done]|].
  destruct (Utf8.between 224 239 b0 && second3 b0 b1 && cont b2) eqn:E3.
  { exists (rune3 b0 b1 b2), 3%nat. split; [done|right]. pose proof E3 as [[_ E]%andb_true_iff E']%andb_true_iff. unfold second3, cont, Utf8.between in E, E'.
    split_and!; [repeat constructor; destruct (b0 =? 224); lia|by eexists _, _|].
    intros l. cbn. by rewrite (proj2 (Z.ltb_ge b0 128)), E2, E3. }
  destruct t2 as [|b3 t3]; [exists RuneError, 1%nat; split; [done|left; rewrite decide_False by lia; done]|].
  destruct (Utf8.between 240 244 b0 && second4 b0 b1 && cont b2 && cont b3) eqn:E4.
  { exists (rune4 b0 b1 b2 b3), 4%nat. split; [done|right]. pose proof E4 as [[[_ E]%andb_true_iff E']%andb_true_iff E'']%andb_true_iff. unfold second4, cont, Utf8.between in E, E', E''.
    split_and!; [repeat constructor; destruct (b0 =? 240); lia|by eexists _, _|].
    intros l. cbn. by rewrite (proj2 (Z.ltb_ge b0 128)), E2, E3, E4. }
  exists RuneError, 1%nat. split; [done|left; rewrite decide_False by lia; done].
Qed.

Definition unhex (h : Z) : Z := if decide (h < 58) then h - 48 else h - 87.
Definition unescape (c : Z) : Z :=
  if decide (c = 98) then 8 else if decide (c = 102) then 12 else if decide (c = 110) then 10
  else if decide (c = 114) then 13 else if decide (c = 116) then 9 else c.

(** The runes before the closing quote, and the text behind it. *)
Fixpoint unquote (fuel : nat) (l : list Z) : list Z * list Z :=
  match fuel, l with
  | S fuel, c :: t =>
      if decide (c = 34) then ([], t)
      else
        let '(r, t) :=
          if decide (c = 92) then
            match t with
            | 117 :: h1 :: h2 :: h3 :: h4 :: t => (unhex h1 * 4096 + unhex h2 * 256 + unhex h3 * 16 + unhex h4, t)
            | e :: t => (unescape e, t)
            | [] => (c, t)
            end
          else if decide (c < 128) then (c, t)
          else match scan l with (r, w) :: _ => (r, drop w l) | [] => (c, t) end in
        let '(rs, rest) := unquote fuel t in (r :: rs, rest)
  | _, _ => ([], l)
  end.

Lemma unhex_hexd n : 0 ≤ n < 16 → unhex (hexd n) = n.
Proof. unfold unhex, hexd. intros. destruct (decide (n < 10)); [rewrite decide_True by lia|rewrite decide_False by lia]; lia. Qed.

(** The bytes of a piece that come from one byte, by cases on all of them. *)
Lemma single_bytes (P : Z → list Z → Prop) :
  (∀ b, 0 ≤ b < 128 → html_safe b = true → P b [b]) →
  (∀ b e, In (b, e) [(92, 92); (34, 34); (8, 98); (12, 102); (10, 110); (13, 114); (9, 116)] → P b [92; e]) →
  (∀ b, 0 ≤ b < 128 → P b [92; 117; 48; 48; hexd (b / 16); hexd (b mod 16)]) →
  ∀ b, 0 ≤ b < 128 → P b (if html_safe b then [b] else escape b).
Proof.
  intros H1 H2 H3 b Hb. destruct (html_safe b) eqn:E; [by apply H1|]. unfold escape.
  repeat match goal with |- context [decide ?Q] => destruct (decide Q) as [Hd|_]; [apply H2; cbn; naive_solver lia|] end. by apply H3.
Qed.

Lemma html_safe_plain b : html_safe b = true → b ≠ 34 ∧ b ≠ 92.
Proof. unfold html_safe. cbn. lia. Qed.

(** Reads an escape sequence that is given. *)
Ltac read_escape := cbn; repeat (first [rewrite decide_False by done|rewrite decide_True by done]); cbn;
  match goal with |- context [unquote ?f ?l] => destruct (unquote f l) end; reflexivity.

Lemma unquote_piece fuel b0 bs r w l : scan (b0 :: bs) = (r, w) :: scan (drop w (b0 :: bs)) → 0 ≤ b0 →
  unquote (S fuel) (piece r (take w (b0 :: bs)) ++ l) = (r :: (unquote fuel l).1, (unquote fuel l).2).
Proof.
  intros E Hb. destruct (scan_step b0 bs) as (r' & w' & E' & Hw). rewrite E in E'. injection E' as <- <- _.
  destruct Hw as [[-> ->]|(H128 & (b1 & t & Ht & Hw) & Hl)].
  - change (take 1 (b0 :: bs)) with (b0 :: take 0 bs). rewrite take_0. cbn [piece]. destruct (decide (b0 < 128)); [|read_escape].
    clear E. revert b0 Hb l0. enough (∀ b0, 0 ≤ b0 < 128 → unquote (S fuel) ((if html_safe b0 then [b0] else escape b0) ++ l) = (b0 :: (unquote fuel l).1, (unquote fuel l).2)) as He by (intros; by apply He).
    apply (single_bytes (λ b0 p, unquote (S fuel) (p ++ l) = (b0 :: (unquote fuel l).1, (unquote fuel l).2))).
    + intros b Hb [? ?]%html_safe_plain. cbn. rewrite !decide_False by done. rewrite decide_True by lia. by destruct (unquote fuel l).
    + intros b e Hin. cbn [In] in Hin. repeat destruct Hin as [Hin|Hin]; [simplify_eq; read_escape..|done].
    + intros b Hb. cbn. rewrite decide_False, decide_True by done. assert (0 ≤ b / 16 < 16) by (split; [apply Z.div_pos|apply Z.div_lt_upper_bound]; lia). assert (0 ≤ b mod 16 < 16) by (by apply Z.mod_pos_bound). rewrite !unhex_hexd by done.
      destruct (unquote fuel l). cbn. do 2 f_equal. pose proof (Z.div_mod b 16). change (unhex 48) with 0. lia.
  - rewrite Ht in *. unfold piece. destruct (decide _) as [[-> | ->]|_]; [read_escape..|].
    apply Forall_cons in H128 as [Hb0 _]. cbn [app unquote]. rewrite !decide_False by lia. cbn [app] in Hl. rewrite Hl.
    change (b0 :: b1 :: t ++ l) with ((b0 :: b1 :: t) ++ l). rewrite drop_app_length' by done. by destruct (unquote fuel l).
Qed.

(** Induction rune by rune. *)
Lemma scan_rect_runes (P : list Z → Prop) : P [] →
  (∀ b0 bs r w, scan (b0 :: bs) = (r, w) :: scan (drop w (b0 :: bs)) → P (drop w (b0 :: bs)) → P (b0 :: bs)) → ∀ bs, P bs.
Proof.
  intros H0 HS bs. remember (length bs) as n eqn:Hn. revert bs Hn. induction (lt_wf n) as [n _ IH]. intros [|b0 bs] ->; [done|].
  destruct (scan_step b0 bs) as (r & w & E & Hw). eapply HS; [exact E|]. eapply IH; [|reflexivity]. rewrite length_drop. cbn [length].
  enough (0 < w)%nat by lia. destruct Hw as [[-> _]|(_ & (b1 & t & _ & ->) & _)]; cbn; lia.
Qed.

Lemma pieces_step b0 bs r w : scan (b0 :: bs) = (r, w) :: scan (drop w (b0 :: bs)) →
  pieces (scan (b0 :: bs)) (b0 :: bs) = piece r (take w (b0 :: bs)) ++ pieces (scan (drop w (b0 :: bs))) (drop w (b0 :: bs)).
Proof. intros E. by rewrite E. Qed.

Lemma unquote_pieces bs rest : Forall (λ b, 0 ≤ b) bs → ∀ fuel, (length bs < fuel)%nat →
  unquote fuel (pieces (scan bs) bs ++ 34 :: rest) = ((scan bs).*1, rest).
Proof.
  induction bs as [|b0 bs r w E IH] using scan_rect_runes; intros Hb fuel Hf; (destruct fuel as [|fuel]; [lia|]); [done|].
  rewrite (pieces_step _ _ _ _ E), <- app_assoc, unquote_piece by (done || by apply Forall_cons in Hb as [? _]). rewrite IH; [by rewrite E| |].
  - by apply Forall_drop.
  - destruct (scan_step b0 bs) as (r' & w' & E' & Hw). rewrite E in E'. injection E' as <- <- _. rewrite length_drop. cbn [length] in *.
    enough (0 < w)%nat by lia. destruct Hw as [[-> _]|(_ & (b1 & t & _ & ->) & _)]; cbn; lia.
Qed.

Lemma bytes_nonneg s : Forall (λ b, 0 ≤ b) (bytes s).
Proof. unfold bytes. apply Forall_fmap, Forall_true. intros a. cbn. lia. Qed.

(** A string can be read off the text, up to what is not UTF-8. *)
Lemma json_string_prefix s t r r' : json_string s ++ r = json_string t ++ r' → runes s = runes t ∧ r = r'.
Proof.
  unfold json_string. cbn. intros [= E]. rewrite <- !app_assoc in E. cbn in E.
  pose proof (unquote_pieces (bytes s) r (bytes_nonneg s) (S (length (bytes s) + length (bytes t))) ltac:(lia)) as Hs.
  pose proof (unquote_pieces (bytes t) r' (bytes_nonneg t) (S (length (bytes s) + length (bytes t))) ltac:(lia)) as Ht.
  rewrite E, Ht in Hs. injection Hs as H1 H2. unfold runes. by split.
Qed.

(** ** Where a value ends *)

(** The rest of the text from the first comma or closing bracket that is outside of the value:
    not in a string and not in a bracket. *)
Fixpoint value_end (depth : nat) (instr : bool) (l : list Z) : option (list Z) :=
  match l with
  | [] => None
  | c :: t =>
      if instr then
        if decide (c = 92) then match t with [] => None | _ :: t => value_end depth true t end
        else value_end depth (negb (bool_decide (c = 34))) t
      else if decide (c = 34) then value_end depth true t
      else if decide (c = 123 ∨ c = 91) then value_end (S depth) false t
      else if decide (c = 125 ∨ c = 93) then match depth with O => Some l | S depth => value_end depth false t end
      else if decide (c = 44 ∧ depth = O) then Some l
      else value_end depth false t
  end.

(** The text of one value. *)
Definition closed (v : list Z) : Prop := v ≠ [] ∧ ∀ n r, value_end n false (v ++ r) = value_end n false r.

Definition delimiter (d : Z) : Prop := d = 44 ∨ d = 93 ∨ d = 125.

Lemma value_end_delimiter d r : delimiter d → value_end 0 false (d :: r) = Some (d :: r).
Proof. intros [->|[->| ->]]; reflexivity. Qed.

Lemma closed_prefix v w d d' r r' : closed v → closed w → delimiter d → delimiter d' →
  v ++ d :: r = w ++ d' :: r' → v = w ∧ d :: r = d' :: r'.
Proof.
  intros [_ Hv] [_ Hw] Hd Hd' E. assert (d :: r = d' :: r') as Er.
  { apply (inj Some). rewrite <- (value_end_delimiter d r), <- (value_end_delimiter d' r') by done. by rewrite <- (Hv 0%nat (d :: r)), <- (Hw 0%nat (d' :: r')), E. }
  split; [|done]. rewrite Er in E. by apply app_inv_tail in E.
Qed.

Definition inner (v : list Z) : Prop := ∀ n r, value_end n true (v ++ r) = value_end n true r.

Lemma inner_plain v : Forall (λ b, b ≠ 34 ∧ b ≠ 92) v → inner v.
Proof.
  intros Hv n r. induction Hv as [|b v [H1 H2] _ IH]; [done|]. cbn. rewrite decide_False, bool_decide_eq_false_2 by done. exact IH.
Qed.

Lemma inner_escape c v : Forall (λ b, b ≠ 34 ∧ b ≠ 92) v → inner (92 :: c :: v).
Proof. intros Hv n r. cbn. rewrite decide_True by done. by apply inner_plain. Qed.

Lemma hexd_plain n : 0 ≤ n < 16 → hexd n ≠ 34 ∧ hexd n ≠ 92.
Proof. unfold hexd. destruct (decide (n < 10)); lia. Qed.

Lemma inner_piece b0 bs r w : scan (b0 :: bs) = (r, w) :: scan (drop w (b0 :: bs)) → 0 ≤ b0 → inner (piece r (take w (b0 :: bs))).
Proof.
  intros E Hb. destruct (scan_step b0 bs) as (r' & w' & E' & Hw). rewrite E in E'. injection E' as <- <- _.
  destruct Hw as [[-> ->]|(H128 & (b1 & t & Ht & Hw) & Hl)].
  - change (take 1 (b0 :: bs)) with (b0 :: take 0 bs). rewrite take_0. cbn [piece]. destruct (decide (b0 < 128)); [|by apply inner_escape; repeat constructor].
    clear E. revert b0 Hb l. enough (∀ b0, 0 ≤ b0 < 128 → inner (if html_safe b0 then [b0] else escape b0)) as He by (intros; by apply He).
    apply (single_bytes (λ _ p, inner p)).
    + intros b _ ?%html_safe_plain. apply inner_plain. by apply Forall_singleton.
    + intros b e _. by apply inner_escape.
    + intros b Hb. apply inner_escape. assert (0 ≤ b / 16 < 16) by (split; [apply Z.div_pos|apply Z.div_lt_upper_bound]; lia). assert (0 ≤ b mod 16 < 16) by (by apply Z.mod_pos_bound).
      repeat constructor; try done; by apply hexd_plain.
  - rewrite Ht in *. unfold piece. destruct (decide _) as [[-> | ->]|_]; [by apply inner_escape; repeat constructor..|].
    apply inner_plain. eapply Forall_impl; [exact H128|]. cbn. lia.
Qed.

Lemma json_string_closed s : closed (json_string s).
Proof.
  split; [done|]. intros n r. unfold json_string. cbn. rewrite decide_True by done. rewrite <- app_assoc. pose proof (bytes_nonneg s) as Hb.
  induction (bytes s) as [|b0 bs r' w E IH] using scan_rect_runes; [done|]. rewrite (pieces_step _ _ _ _ E), <- app_assoc.
  rewrite inner_piece by (done || by apply Forall_cons in Hb as [? _]). apply IH. by apply Forall_drop.
Qed.

(** Bytes outside of strings that are neither commas nor brackets. *)
Definition outer (b : Z) : Prop := b ∉ [34; 123; 91; 125; 93; 44].

Lemma value_end_outer n b r : outer b → value_end n false (b :: r) = value_end n false r.
Proof.
  unfold outer. rewrite !not_elem_of_cons. intros (? & ? & ? & ? & ? & ? & _). cbn. by rewrite !decide_False by naive_solver.
Qed.

Lemma closed_outer v : v ≠ [] → Forall outer v → closed v.
Proof. intros Hne Hv. split; [done|]. intros n r. clear Hne. induction Hv as [|b v Hb _ IH]; [done|]. cbn [app]. by rewrite value_end_outer. Qed.

Lemma commas_nested vs n r : Forall closed vs → value_end (S n) false (commas vs ++ r) = value_end (S n) false r.
Proof.
  intros Hvs. induction Hvs as [|v vs [_ Hv] _ IH]; [done|]. destruct vs as [|w vs]; [apply Hv|].
  change (commas (v :: w :: vs)) with (v ++ 44 :: commas (w :: vs)). rewrite <- app_assoc, Hv. cbn [app].
  change (value_end (S n) false (44 :: commas (w :: vs) ++ r)) with (value_end (S n) false (commas (w :: vs) ++ r)). exact IH.
Qed.

Lemma array_closed vs : Forall closed vs → closed (array vs).
Proof. intros Hvs. split; [done|]. intros n r. unfold array. cbn [app]. cbn [value_end]. rewrite decide_False, decide_True by naive_solver. by rewrite <- app_assoc, commas_nested. Qed.

Lemma member_closed k v : closed v → closed (member (k, v)).
Proof.
  intros [_ Hv]. split; [done|]. intros n r. unfold member. cbn [fst snd]. rewrite <- app_assoc. rewrite (proj2 (json_string_closed k)). cbn [app].
  rewrite value_end_outer by (unfold outer; set_solver). apply Hv.
Qed.

Lemma object_closed kvs : Forall closed kvs.*2 → closed (object kvs).
Proof.
  intros Hvs. split; [done|]. intros n r. unfold object. cbn [app]. cbn [value_end]. rewrite decide_False, decide_True by naive_solver. rewrite <- app_assoc, commas_nested; [done|].
  apply Forall_fmap. rewrite Forall_fmap in Hvs. eapply Forall_impl; [exact Hvs|]. intros [k v]. apply member_closed.
Qed.

Lemma sequence_Forall {A B} (P : B → Prop) (l : list (A + B)) xs : sequence l = inr xs → (∀ x, inr x ∈ l → P x) → Forall P xs.
Proof.
  revert xs. induction l as [|[e|x] l IH]; intros xs; cbn; [by intros [= <-]|done|]. destruct (sequence l) as [|ys]; [done|]. intros [= <-] Hl.
  constructor; [apply Hl; by left|]. apply IH; [done|]. intros y Hy. apply Hl. by right.
Qed.

Lemma json_map_closed m v : json_map m = inr v → (∀ k x, (k, inr x) ∈ m → closed x) → closed v.
Proof.
  unfold json_map. intros E Hm. destruct (sequence _) as [|kvs] eqn:Es; [done|]. injection E as <-. apply object_closed, Forall_fmap.
  eapply sequence_Forall; [exact Es|]. intros [k x] Hx. apply list_elem_of_fmap in Hx as ([k' [e|x']] & E & Hin); [done|]. injection E as -> ->.
  apply (Hm k'). by rewrite merge_sort_Permutation in Hin.
Qed.

Lemma outer_digit a : 45 ≤ a ≤ 57 → outer a.
Proof. intros Ha Hin. repeat apply elem_of_cons in Hin as [->|Hin]; try lia. by apply elem_of_nil in Hin. Qed.

Lemma pretty_N_go_outer x s : Forall outer (bytes s) → Forall outer (bytes (pretty_N_go x s)).
Proof.
  revert s. induction (N.lt_wf_0 x) as [x _ IH]. intros s Hs. destruct (decide (x = 0)%N) as [->|Hx]; [by rewrite pretty_N_go_0|].
  rewrite pretty_N_go_step by lia. apply IH; [apply N.div_lt; lia|]. unfold bytes. cbn. constructor; [|exact Hs].
  apply outer_digit. assert (x mod 10 < 10)%N as Hm by (by apply N.mod_lt). unfold pretty_N_char. by repeat case_match; vm_compute; split.
Qed.

Lemma pretty_N_go_ne x s : s ≠ "" → pretty_N_go x s ≠ "".
Proof.
  revert s. induction (N.lt_wf_0 x) as [x _ IH]. intros s Hs. destruct (decide (x = 0)%N) as [->|Hx]; [by rewrite pretty_N_go_0|].
  rewrite pretty_N_go_step by lia. apply IH; [apply N.div_lt; lia|done].
Qed.

Lemma pretty_closed (z : Z) : closed (bytes (pretty z)).
Proof.
  assert (∀ x, Forall outer (bytes (pretty (N.pos x)))) as Hx.
  { intros x. unfold pretty, pretty_N. rewrite decide_False by done. apply pretty_N_go_outer. constructor. }
  apply closed_outer.
  - intros E. assert (pretty z = "") as Ez by (by destruct (pretty z)). clear E. destruct z as [|x|x]; [done| |done].
    revert Ez. change (pretty (Z.pos x)) with (pretty (N.pos x)). unfold pretty, pretty_N. rewrite decide_False, pretty_N_go_step by done. by apply pretty_N_go_ne.
  - destruct z as [|x|x]; [by repeat constructor; apply outer_digit|apply Hx|]. unfold pretty, pretty_Z, bytes. cbn. constructor; [by apply outer_digit|apply Hx].
Qed.

(** ** Values are closed *)

(** The texts that the class writes are texts of one value. *)
Definition leaves_closed `{Json} : Prop := ∀ a v, leaf a = inr v → closed v.

Section values.
  Context `{Json} (Hleaf : leaves_closed).

Fixpoint json_value_closed (a : Any) : ∀ v, json_value a = inr v → closed v.
Proof.
  destruct a as [|s|b|z|z|f|f|l|l|m|t x]; intros v; cbn [json_value].
  - intros [= <-]. apply closed_outer; [done|]. repeat constructor; unfold outer; set_solver.
  - intros [= <-]. apply json_string_closed.
  - intros [= <-]. destruct b; (apply closed_outer; [done|]; repeat constructor; unfold outer; set_solver).
  - intros [= <-]. apply pretty_closed.
  - intros [= <-]. apply pretty_closed.
  - apply Hleaf.
  - apply Hleaf.
  - intros [= <-]. apply array_closed, Forall_fmap, Forall_true. apply json_string_closed.
  - set (go := fix go (l : list Any) := match l with [] => [] | a :: l => json_value a :: go l end).
    assert (∀ x, inr x ∈ go l → closed x) as Hl.
    { induction l as [|a l IH]; cbn; [by intros x ?%elem_of_nil|]. intros x [E|Hin]%elem_of_cons; [|by apply IH]. apply (json_value_closed a). done. }
    destruct (sequence (go l)) as [|vs] eqn:E; [done|]. intros [= <-]. apply array_closed. by eapply sequence_Forall.
  - set (go := fix go (m : list (string * Any)) := match m with [] => [] | (k, a) :: m => (k, json_value a) :: go m end).
    assert (∀ k x, (k, inr x) ∈ go m → closed x) as Hm.
    { induction m as [|[k a] m IH]; cbn; [by intros k x ?%elem_of_nil|]. intros k' x [E|Hin]%elem_of_cons; [|by apply (IH k')]. apply (json_value_closed a). by injection E. }
    intros E. by eapply json_map_closed.
  - apply Hleaf.
Qed.
End values.

(** ** Reading objects back *)

Lemma commas_head v vs d : delimiter d → ∃ d' r, commas (v :: vs) ++ [d] = v ++ d' :: r ∧ delimiter d' ∧
  d' :: r = match vs with [] => [d] | _ => 44 :: commas vs ++ [d] end.
Proof.
  intros Hd. destruct vs as [|w vs]; [by exists d, []|]. exists 44, (commas (w :: vs) ++ [d]). split_and!; [|by left|done].
  change (commas (v :: w :: vs)) with (v ++ 44 :: commas (w :: vs)). by rewrite <- app_assoc.
Qed.

Lemma commas_inj d vs : delimiter d → ∀ ws, Forall closed vs → Forall closed ws → commas vs ++ [d] = commas ws ++ [d] → vs = ws.
Proof.
  intros Hd. induction vs as [|v vs IH]; intros [|w ws] Hvs Hws E; [done| | |].
  - exfalso. apply Forall_cons in Hws as [[Hne Hw] _]. destruct (commas_head w ws d Hd) as (d' & r & E' & Hd' & _). rewrite E' in E. cbn in E.
    assert (Some [d] = Some (d' :: r)) as Hs by (by rewrite <- (value_end_delimiter d), E, Hw, value_end_delimiter).
    injection Hs as -> <-. apply Hne. apply (app_inv_tail [d']). by rewrite <- E.
  - exfalso. apply Forall_cons in Hvs as [[Hne Hv] _]. destruct (commas_head v vs d Hd) as (d' & r & E' & Hd' & _). rewrite E' in E. cbn in E. symmetry in E.
    assert (Some [d] = Some (d' :: r)) as Hs by (by rewrite <- (value_end_delimiter d), E, Hv, value_end_delimiter).
    injection Hs as -> <-. apply Hne. apply (app_inv_tail [d']). by rewrite <- E.
  - apply Forall_cons in Hvs as [Hv Hvs]. apply Forall_cons in Hws as [Hw Hws].
    destruct (commas_head v vs d Hd) as (d1 & r1 & E1 & Hd1 & R1). destruct (commas_head w ws d Hd) as (d2 & r2 & E2 & Hd2 & R2).
    rewrite E1, E2 in E. apply closed_prefix in E as [-> E]; [|done..]. f_equal. apply IH; [done|done|]. rewrite R1, R2 in E.
    destruct vs as [|v' vs], ws as [|w' ws]; [done| | |by injection E]; injection E as E3 E4.
    all: apply (f_equal length) in E4; rewrite length_app in E4; cbn in E4; lia.
Qed.

(** The members can be read off an object: the runes of the keys and the texts of the values. *)
Definition read (kv : string * list Z) : list Z * list Z := (runes kv.1, kv.2).

Lemma object_inj kvs kvs' : Forall closed kvs.*2 → Forall closed kvs'.*2 → object kvs = object kvs' → read <$> kvs = read <$> kvs'.
Proof.
  unfold object. intros H1 H2 [= E]. apply commas_inj in E; [|by right; right| |].
  2, 3: apply Forall_fmap; rewrite Forall_fmap in H1, H2; eapply Forall_impl; [eassumption|]; intros [k v]; apply member_closed.
  clear H1 H2. revert kvs' E. induction kvs as [|[k v] kvs IH]; intros [|[k' v'] kvs'] E; [done|done|done|].
  rewrite !fmap_cons in *. apply (inj2 cons) in E as [E1 E2]. f_equal; [|by apply IH]. unfold member in E1. cbn [fst snd] in E1. apply json_string_prefix in E1 as [E1 E3].
  injection E3 as ->. unfold read. cbn [fst snd]. by rewrite E1.
Qed.

Lemma json_struct_closed fs : (∀ k v, (k, Some v) ∈ fs → closed v) → Forall closed (omap present fs).*2.
Proof.
  intros Hfs. apply Forall_fmap, Forall_forall. intros [k v] (f & Hf & E)%list_elem_of_omap. destruct f as [k' [v'|]]; [|done]. injection E as -> ->. by apply (Hfs k).
Qed.

(** The fields of a struct can be read off its text: which were omitted, and the texts. *)
Lemma json_struct_inj fs fs' : fs.*1 = fs'.*1 → NoDup (runes <$> fs.*1) →
  (∀ k v, (k, Some v) ∈ fs → closed v) → (∀ k v, (k, Some v) ∈ fs' → closed v) →
  json_struct fs = json_struct fs' → fs = fs'.
Proof.
  intros Hn Hnd H1 H2 E. apply object_inj in E; [|by apply json_struct_closed..]. clear H1 H2. revert fs' Hn Hnd E.
  assert (∀ (fs : list (string * option (list Z))) x, x ∈ (read <$> omap present fs) → x.1 ∈ runes <$> fs.*1) as Hsub.
  { intros l x (y & -> & (f & Hf & Ey)%list_elem_of_omap)%list_elem_of_fmap. destruct f as [k [v|]]; [|done]. injection Ey as <-. cbn.
    apply list_elem_of_fmap. exists k. split; [done|]. apply list_elem_of_fmap. by exists (k, Some v). }
  induction fs as [|[k o] fs IH]; intros [|[k' o'] fs'] Hn Hnd E; [done|done|done|]. rewrite !fmap_cons in *. cbn in Hn. injection Hn as -> Hn. cbn [fst] in Hnd.
  apply NoDup_cons in Hnd as [Hk Hnd].
  assert (∀ o (l : list (string * option (list Z))), omap present ((k', o) :: l) = match o with Some v => (k', v) :: omap present l | None => omap present l end) as Ho by (by intros []).
  rewrite !Ho in E. destruct o as [v|], o' as [v'|]; [| | |f_equal; by apply IH]; rewrite ?fmap_cons in E.
  - apply (inj2 cons) in E as [E1 E2]. injection E1 as ->. f_equal. by apply IH.
  - exfalso. apply Hk. rewrite Hn. change (runes k') with (read (k', v)).1. apply Hsub. rewrite <- E. by left.
  - exfalso. apply Hk. change (runes k') with (read (k', v')).1. apply Hsub. rewrite E. by left.
Qed.

(** ** Times *)

(** The layout 2006-01-02T15:04:05.999999999Z07:00 in UTC: the fraction of a second is written
    without its trailing zeros. *)
Definition padded (u : Z) : list Z := if decide (u < 10 ^ 4) then decimal 4 u else bytes (pretty u).
Definition year_text (y : Z) : list Z := if decide (y < 0) then 45 :: padded (- y) else padded y.

Fixpoint trim (l : list Z) : list Z :=
  match l with [] => [] | c :: l => match trim l with [] => if decide (c = 48) then [] else [c] | l => c :: l end end.
Definition fraction (ns : Z) : list Z := match trim (decimal 9 ns) with [] => [] | l => 46 :: l end.

Definition time_text (t : Z) : list Z :=
  let '(y, m, d) := date_of_days (t / day_ns) in
  let s := t mod day_ns in
  year_text y ++ 45 :: decimal 2 m ++ 45 :: decimal 2 d ++ 84 :: decimal 2 (s / (3600 * 10 ^ 9)) ++
    58 :: decimal 2 (s / (60 * 10 ^ 9) mod 60) ++ 58 :: decimal 2 (s / 10 ^ 9 mod 60) ++ fraction (s mod 10 ^ 9) ++ [90].

Definition Format (t : Z) : string := string_of_bytes (time_text t).

Example Format_leap : (Format (1709208000 * 10 ^ 9), Format (1709208000 * 10 ^ 9 + 120000000), Format zero_time) =
  ("2024-02-29T12:00:00Z", "2024-02-29T12:00:00.12Z", "0001-01-01T00:00:00Z").
Proof. reflexivity. Qed.

Lemma trim_zeros l : ∃ k, l = trim l ++ replicate k 48.
Proof.
  induction l as [|c l (k & E)]; [by exists 0%nat|]. cbn. destruct (trim l) as [|b t] eqn:Et.
  - destruct (decide (c = 48)) as [->|]; [exists (S k)|exists k]; cbn in *; congruence.
  - exists k. by rewrite E at 1.
Qed.

Lemma trim_inj l l' : length l = length l' → trim l = trim l' → l = l'.
Proof.
  intros Hl E. destruct (trim_zeros l) as [k Hk], (trim_zeros l') as [k' Hk']. rewrite Hk, Hk' in Hl |- *. rewrite E in *. rewrite !length_app, !length_replicate in Hl. do 2 f_equal. lia.
Qed.

Lemma fraction_inj x y : 0 ≤ x < 10 ^ 9 → 0 ≤ y < 10 ^ 9 → fraction x = fraction y → x = y.
Proof.
  intros Hx Hy E. apply (decimal_inj 9); [done|done|]. apply trim_inj; [by rewrite !decimal_length|]. unfold fraction in E.
  destruct (trim (decimal 9 x)), (trim (decimal 9 y)); by simplify_eq.
Qed.

(** Between the years 0 and 9999 the text tells the time. *)
Definition four_digits (t : Z) : Prop := 0 ≤ (date_of_days (t / day_ns)).1.1 < 10000.

Lemma clock_digits s s' : 0 ≤ s < 86400 * 10 ^ 9 → 0 ≤ s' < 86400 * 10 ^ 9 →
  decimal 2 (s / (3600 * 10 ^ 9)) = decimal 2 (s' / (3600 * 10 ^ 9)) → decimal 2 (s / (60 * 10 ^ 9) mod 60) = decimal 2 (s' / (60 * 10 ^ 9) mod 60) →
  decimal 2 (s / 10 ^ 9 mod 60) = decimal 2 (s' / 10 ^ 9 mod 60) → s mod 10 ^ 9 = s' mod 10 ^ 9 → s = s'.
Proof.
  intros Hs Hs' E1 E2 E3 E4.
  apply decimal_inj in E1; [|split; [apply Z.div_pos|eapply Z.lt_trans; [apply (Z.div_lt_upper_bound _ _ 24)|]]; lia..].
  apply decimal_inj in E2, E3; [|pose proof (Z.mod_pos_bound (s / (60 * 10 ^ 9)) 60); pose proof (Z.mod_pos_bound (s' / (60 * 10 ^ 9)) 60); pose proof (Z.mod_pos_bound (s / 10 ^ 9) 60); pose proof (Z.mod_pos_bound (s' / 10 ^ 9) 60); lia..].
  Z.to_euclidean_division_equations. lia.
Qed.

Lemma time_text_inj t t' : four_digits t → four_digits t' → time_text t = time_text t' → t = t'.
Proof.
  unfold four_digits, time_text. pose proof (date_roundtrip (t / day_ns)) as D. pose proof (date_roundtrip (t' / day_ns)) as D'.
  pose proof (date_day (t / day_ns)) as B. pose proof (date_day (t' / day_ns)) as B'.
  destruct (date_of_days (t / day_ns)) as [[y m] d], (date_of_days (t' / day_ns)) as [[y' m'] d']. cbn [fst snd] in *. intros Hy Hy' E.
  unfold year_text, padded in E. rewrite (decide_False (P := y < 0)), (decide_False (P := y' < 0)), !decide_True in E by lia.
  assert (∀ n (a b : list Z) x y c, decimal n x ++ c :: a = decimal n y ++ c :: b → decimal n x = decimal n y ∧ a = b) as Hd.
  { intros n a b x z c Eq. apply app_inj_1 in Eq as [? [= ?]]; [done|by rewrite !decimal_length]. }
  assert (0 ≤ t mod day_ns < day_ns) as R by (by apply Z.mod_pos_bound). assert (0 ≤ t' mod day_ns < day_ns) as R' by (by apply Z.mod_pos_bound).
  set (s := t mod day_ns) in *. set (s' := t' mod day_ns) in *.
  apply Hd in E as [E1 E]. apply Hd in E as [E2 E]. apply Hd in E as [E3 E]. apply Hd in E as [E4 E]. apply Hd in E as [E5 E].
  apply app_inj_1 in E as [E6 E]; [|by rewrite !decimal_length]. apply app_inj_tail in E as [E7 _].
  destruct D as [D Hm], D' as [D' Hm']. unfold day_ns in R, R'. apply decimal_inj in E1, E2, E3; [|lia..].
  apply fraction_inj in E7; [|by apply Z.mod_pos_bound..]. apply clock_digits in E4; [|done..].
  assert (t / day_ns = t' / day_ns) as Eq by congruence. by rewrite (Z.div_mod t day_ns), (Z.div_mod t' day_ns), Eq by done; f_equal.
Qed.

Definition ascii_byte (b : Z) : Prop := 0 ≤ b < 128.

Lemma runes_string_of_bytes l : Forall ascii_byte l → runes (string_of_bytes l) = l.
Proof.
  intros Hl. assert (bytes (string_of_bytes l) = l) as E by (apply bytes_string_of_bytes; eapply Forall_impl; [exact Hl|]; unfold ascii_byte; cbn; lia).
  unfold runes. rewrite E, scan_ascii; [|eapply Forall_impl; [exact Hl|]; unfold ascii_byte; cbn; lia]. clear. induction l as [|b l IH]; cbn; [done|]. f_equal. exact IH.
Qed.

Lemma decimal_ascii n x : Forall ascii_byte (decimal n x).
Proof. apply Forall_fmap. eapply Forall_impl; [by apply (digits_digit 10)|]. unfold digit, ascii_byte. cbn. lia. Qed.

Lemma fraction_ascii x : Forall ascii_byte (fraction x).
Proof.
  unfold fraction. pose proof (decimal_ascii 9 x) as Hd. destruct (trim_zeros (decimal 9 x)) as [k Hk]. rewrite Hk in Hd. apply Forall_app in Hd as [Hd _].
  destruct (trim _); [constructor|]. by constructor.
Qed.

Lemma Format_inj t t' : four_digits t → four_digits t' → runes (Format t) = runes (Format t') → t = t'.
Proof.
  intros Ht Ht'. assert (∀ t, four_digits t → Forall ascii_byte (time_text t)) as Ha.
  { clear. intros t. unfold four_digits, time_text. destruct (date_of_days _) as [[y m] d]. cbn [fst]. intros Hy. unfold year_text, padded. rewrite decide_False, decide_True by lia.
    repeat first [apply decimal_ascii|apply Forall_app; split|apply Forall_cons; split|apply fraction_ascii|apply Forall_nil_2|unfold ascii_byte; lia]. }
  unfold Format. rewrite !runes_string_of_bytes by auto. by apply time_text_inj.
Qed.
