(* ===== verification/Ordered.v ===== *)
(** * Ordered types

    The operators of Go's constraint [Ordered], and the class of the types on which they are
    a total order: integers and strings, but not float64, because of NaN. *)

From S2P Require Import Prelude.
From stdpp Require Import sorting.
From stdpp Require Import options.

Open Scope Z_scope.
#[local] Set Default Proof Using "Type*".

(** The operators [<], [<=] and [==] of an ordered type. *)
Class Ordered (A : Type) := {
  olt : A → A → bool;
  ole : A → A → bool;
  oeq : A → A → bool;
}.

Class TotalOrder (A : Type) `{Ordered A} : Prop := {
  olt_irrefl x : olt x x = false;
  olt_trans x y z : olt x y = true → olt y z = true → olt x z = true;
  olt_total x y : olt x y = false → olt y x = false → x = y;
  ole_spec x y : ole x y = negb (olt y x);
  oeq_spec x y : oeq x y = true ↔ x = y;
}.

#[global] Instance Z_ordered : Ordered Z := {| olt := Z.ltb; ole := Z.leb; oeq := Z.eqb |}.
#[global] Instance Z_total : TotalOrder Z.
Proof.
  split; cbn; intros.
  - apply Z.ltb_irrefl.
  - lia.
  - lia.
  - apply Z.leb_antisym.
  - apply Z.eqb_eq.
Qed.

(** [ordered l]: the slice is ascending. *)
Definition le `{Ordered A} (x y : A) : Prop := olt y x = false.
Abbreviation ordered := (StronglySorted le).

Section order.
  Context `{TotalOrder A}.

#[global] Instance le_preorder : PreOrder (@le A _).
Proof.
  unfold le. split; [intros x; apply olt_irrefl|].
  intros x y z Hxy Hyz. destruct (olt z x) eqn:E; [|done].
  destruct (olt y z) eqn:E'; [by rewrite (olt_trans y z x) in Hxy|].
  rewrite (olt_total y z) in Hxy by done. congruence.
Qed.

Lemma olt_le x y : olt x y = true → le x y.
Proof.
  unfold le. intros Hxy. destruct (olt y x) eqn:E; [|done].
  by rewrite <- (olt_irrefl x), (olt_trans x y x).
Qed.

Lemma ordered_lookup (l : list A) :
  ordered l ↔ ∀ i j x y, (i < j)%nat → l !! i = Some x → l !! j = Some y → le x y.
Proof.
  induction l as [|a l IH].
  - split; [intros _ i j x y _; by rewrite lookup_nil|constructor].
  - split.
    + intros [Hl Ha]%StronglySorted_inv [|i] [|j] x y Hij; cbn; try lia.
      * intros [= <-] Hy. rewrite Forall_lookup in Ha. eauto.
      * apply IH; [done|lia].
    + intros Hl. constructor.
      * apply IH. intros i j x y Hij Hx Hy. apply (Hl (S i) (S j)); [lia|done|done].
      * apply Forall_lookup. intros j y Hy. apply (Hl O (S j)); [lia|done|done].
Qed.
End order.

