(* ===== verification/SliceSort.v ===== *)
(** * Package sort

    [sort.Slice] is not stable: which of two elements that are not in order comes first is
    not specified.  It is an argument of the code that uses it, as the class [SliceSort] of
    functions that permute their argument and, for a strict weak order, put it in order.
    The result of [sort.SliceStable] is determined; it is insertion from the back. *)

From S2P Require Import Prelude.
From stdpp Require Import sorting options.

Section order.
  Context {A : Type}.
  Implicit Types (less : A → A → bool) (l : list A).

(** What package sort asks of [less] on the elements of [l]. *)
Definition strict_weak less l : Prop :=
  (∀ x y, x ∈ l → y ∈ l → less x y = true → less y x = false) ∧
  (∀ x y z, x ∈ l → y ∈ l → z ∈ l → less x y = false → less y z = false → less x z = false).

Definition in_order less l : Prop := StronglySorted (λ x y, less y x = false) l.

Fixpoint insert_stable less (x : A) l : list A :=
  match l with
  | [] => [x]
  | y :: l' => if less y x then y :: insert_stable less x l' else x :: l
  end.
Definition SliceStable less l : list A := foldr (insert_stable less) [] l.

Lemma insert_stable_perm less x l : insert_stable less x l ≡ₚ x :: l.
Proof. induction l as [|y l IH]; cbn; [done|]. destruct (less y x); [|done]. rewrite IH. solve_Permutation. Qed.

Lemma SliceStable_perm less l : SliceStable less l ≡ₚ l.
Proof. induction l as [|x l IH]; cbn; [done|]. by rewrite insert_stable_perm, IH. Qed.

Lemma strict_weak_sub less l k : (∀ x, x ∈ k → x ∈ l) → strict_weak less l → strict_weak less k.
Proof. intros Hs [H1 H2]. split; eauto. Qed.

Lemma insert_stable_order less x l : strict_weak less (x :: l) → in_order less l → in_order less (insert_stable less x l).
Proof.
  intros Hw Hl. induction Hl as [|y l Hl IH Hy]; cbn; [repeat constructor|].
  destruct (less y x) eqn:E.
  - constructor.
    + apply IH. apply (strict_weak_sub _ (x :: y :: l)); [set_solver|done].
    + rewrite insert_stable_perm. constructor; [|done]. destruct Hw as [Ha _]. apply Ha; set_solver.
  - constructor; [by constructor|]. constructor; [done|]. rewrite Forall_forall in Hy |- *. intros z Hz.
    destruct Hw as [_ Ht]. apply (Ht z y x); [set_solver|set_solver|set_solver|by apply Hy|done].
Qed.

Lemma SliceStable_order less l : strict_weak less l → in_order less (SliceStable less l).
Proof.
  induction l as [|x l IH]; intros Hw; cbn; [constructor|]. apply insert_stable_order.
  - apply (strict_weak_sub _ (x :: l)); [|done]. fold (SliceStable less l). intros z.
    rewrite !elem_of_cons, SliceStable_perm. done.
  - apply IH. apply (strict_weak_sub _ (x :: l)); [set_solver|done].
Qed.
End order.

Class SliceSort := {
  sort_Slice : ∀ {A}, (A → A → bool) → list A → list A;
  sort_Slice_perm : ∀ A less (l : list A), sort_Slice less l ≡ₚ l;
  sort_Slice_order : ∀ A less (l : list A), strict_weak less l → in_order less (sort_Slice less l);
}.

(** Insertion sort, which Go uses for slices of at most twelve elements, is one. *)
Definition insertion : SliceSort :=
  {| sort_Slice A := SliceStable; sort_Slice_perm A := SliceStable_perm; sort_Slice_order A := SliceStable_order |}.

(** ** Binary search *)

Open Scope Z_scope.

(** The binary search of [sort.Search] between [i] and [j]. *)
Fixpoint sort_search_loop (fuel : nat) (f : Z → bool) (i j : Z) : Z :=
  match fuel with
  | O => i
  | S fuel =>
      if decide (i < j) then
        let h := (i + j) / 2 in
        if f h then sort_search_loop fuel f i h else sort_search_loop fuel f (h + 1) j
      else i
  end.
Definition sort_Search (n : Z) (f : Z → bool) : Z := sort_search_loop (Z.to_nat n) f 0 n.

Lemma sort_Search_spec fuel f i j :
  i ≤ j → j - i ≤ Z.of_nat fuel →
  (∀ a b, i ≤ a → a ≤ b → b < j → f a = true → f b = true) →
  let r := sort_search_loop fuel f i j in
  i ≤ r ≤ j ∧ (∀ a, i ≤ a < r → f a = false) ∧ (r < j → f r = true).
Proof.
  revert i j. induction fuel as [|fuel IH]; intros i j Hij Hf Hmono; cbn.
  { split_and!; [lia|lia|lia|lia]. }
  destruct (decide (i < j)) as [Hlt|Hge]; [|split_and!; [lia|lia|lia|lia]].
  assert (i ≤ (i + j) / 2 < j) as Hh by (split; [apply Z.div_le_lower_bound|apply Z.div_lt_upper_bound]; lia).
  destruct (f ((i + j) / 2)) eqn:Hfh.
  - destruct (IH i ((i + j) / 2)) as (Hr & Hlow & Hup); [lia|lia|intros a b ???; apply Hmono; lia|]. split_and!; [lia|lia|done|].
    intros _. destruct (decide (sort_search_loop fuel f i ((i + j) / 2) < (i + j) / 2)) as [|Hn]; [by apply Hup|].
    replace (sort_search_loop fuel f i ((i + j) / 2)) with ((i + j) / 2) by lia. done.
  - destruct (IH ((i + j) / 2 + 1) j) as (Hr & Hlow & Hup); [lia|lia|intros a b ???; apply Hmono; lia|].
    split_and!; [lia|lia| |done]. intros a Ha.
    destruct (decide (a ≤ (i + j) / 2)) as [Hle|]; [|apply Hlow; lia].
    destruct (f a) eqn:Hfa; [|done]. rewrite (Hmono a ((i + j) / 2)) in Hfh; [done|lia|lia|lia|done].
Qed.
