(* ===== verification/Money.v ===== *)
(** * pkg/commerce: money in minor units

    [Money] values carry an [int64] amount and a currency code. *)

From S2P Require Import Prelude GoStrings Errors.
From stdpp Require Import pretty.
From stdpp Require Import options.
Open Scope Z_scope.

(** ** Money *)

(* src: pkg/commerce/commerce.go 10-18 Money *)
Record Money := { Amount : Z; Currency : string }.

#[global] Instance Money_eq_dec : EqDecision Money.
Proof. solve_decision. Defined.

(** The Go zero value [Money{}]. *)
Definition zero_Money : Money := {| Amount := 0; Currency := "" |}.

(* src: pkg/commerce/commerce.go 20-26 NewMoney *)
Definition NewMoney (amount : Z) (currency : string) : Money :=
  {| Amount := amount; Currency := ToUpper (TrimSpace currency) |}.

(* src: pkg/commerce/commerce.go 28-31 Zero *)
Definition Zero (currency : string) : Money := NewMoney 0 currency.

(* src: pkg/commerce/commerce.go 33-36 Money.IsZero *)
Definition IsZero (m : Money) : bool := bool_decide (Amount m = 0).

(* src: pkg/commerce/commerce.go 38-41 Money.Equal *)
Definition Equal (m other : Money) : bool :=
  bool_decide (Amount m = Amount other) && EqualFold (Currency m) (Currency other).

(* src: pkg/commerce/commerce.go 43-46 Money.SameCurrency *)
Definition SameCurrency (m other : Money) : bool :=
  EqualFold (Currency m) (Currency other).

Definition mismatch_error (m other : Money) : error :=
  InvalidArgument
    ("currency mismatch: " +:+ Currency m +:+ " vs " +:+ Currency other) None.

(* src: pkg/commerce/commerce.go 48-60 Money.Add *)
Definition Add (m other : Money) : error + Money :=
  if decide (Currency m = "" ∨ Currency other = "") then
    inl (InvalidArgument "currency is required" None)
  else if negb (SameCurrency m other) then inl (mismatch_error m other)
  else inr (NewMoney (i64 (Amount m + Amount other)) (Currency m)).

(* src: pkg/commerce/commerce.go 62-74 Money.Sub *)
Definition Sub (m other : Money) : error + Money :=
  if decide (Currency m = "" ∨ Currency other = "") then
    inl (InvalidArgument "currency is required" None)
  else if negb (SameCurrency m other) then inl (mismatch_error m other)
  else inr (NewMoney (i64 (Amount m - Amount other)) (Currency m)).

(* src: pkg/commerce/commerce.go 76-79 Money.Negate *)
Definition Negate (m : Money) : Money :=
  NewMoney (i64 (- Amount m)) (Currency m).

(* src: pkg/commerce/commerce.go 81-92 Decimals *)
Definition Decimals (currency : string) : Z :=
  let c := ToUpper (TrimSpace currency) in
  if decide (c ∈ ["JPY"; "KRW"; "VND"; "CLP"; "XOF"; "XAF"; "XPF"]) then 0
  else if decide (c ∈ ["BHD"; "IQD"; "JOD"; "KWD"; "LYD"; "OMR"; "TND"]) then 3
  else 2.

(** [%d] of an integer, and [%0*d] with a width. *)
Definition fmt_d (z : Z) : string := pretty z.
Definition fmt_pad (width : nat) (z : Z) : string :=
  let s := fmt_d z in
  if decide (z < 0) then
    "-" +:+ String.concat "" (repeat "0" (width - String.length s)) +:+ fmt_d (- z)
  else String.concat "" (repeat "0" (width - String.length s)) +:+ s.

(** The scale loop [for i := 0; i < dec; i++ { scale *= 10 }]. *)
Fixpoint scale_loop (dec : nat) (scale : Z) : Z :=
  match dec with O => scale | S d => scale_loop d (i64 (scale * 10)) end.

(* src: pkg/commerce/commerce.go 94-124 Format *)
Definition Format (m : Money) : string :=
  let cur := ToUpper (TrimSpace (Currency m)) in
  let cur := if decide (cur = "") then "XXX" else cur in
  let dec := Decimals cur in
  if decide (dec = 0) then cur +:+ " " +:+ fmt_d (Amount m)
  else
    let neg := bool_decide (Amount m < 0) in
    let abs := if neg then i64 (- Amount m) else Amount m in
    let scale := scale_loop (Z.to_nat dec) 1 in
    let major := Z.quot abs scale in
    let minor := Z.rem abs scale in
    (if neg then "-" else "") +:+ cur +:+ " " +:+ fmt_d major +:+ "." +:+
      fmt_pad (Z.to_nat dec) minor.

(* src: pkg/commerce/commerce.go 126-129 Money.String *)
Definition Money_String (m : Money) : string := Format m.

(* src: pkg/commerce/commerce.go 131-137 Money.Validate *)
Definition Validate (m : Money) : option error :=
  if decide (TrimSpace (Currency m) = "") then
    Some (InvalidArgument "currency is required" None)
  else None.

(** ** Normalised money *)

(** The currency codes [NewMoney] produces. *)
Definition normal (c : string) : Prop := ToUpper (TrimSpace c) = c.

#[global] Instance normal_dec c : Decision (normal c).
Proof. unfold normal. apply _. Defined.

Lemma normal_normalise c : normal (ToUpper (TrimSpace c)).
Proof. unfold normal. by rewrite TrimSpace_ToUpper, TrimSpace_idem, ToUpper_idem. Qed.

Lemma NewMoney_normal a c : normal (Currency (NewMoney a c)).
Proof. apply normal_normalise. Qed.

Lemma NewMoney_id m : normal (Currency m) → NewMoney (Amount m) (Currency m) = m.
Proof. intros H. destruct m as [a c]; simpl in *. unfold NewMoney. by rewrite H. Qed.

Lemma normal_upper c : normal c → ToUpper c = c.
Proof. unfold normal. intros H. rewrite <- H at 1. by rewrite ToUpper_idem. Qed.

(** On normalised currencies, comparing up to case is comparing. *)
Lemma SameCurrency_normal m o :
  normal (Currency m) → normal (Currency o) →
  SameCurrency m o = bool_decide (Currency m = Currency o).
Proof.
  intros Hm Ho. unfold SameCurrency, EqualFold. by rewrite !normal_upper.
Qed.

#[export] Hint Resolve NewMoney_normal normal_normalise : go_inv.

(** [Add] and [Sub] on two amounts in the same normalised, non-empty currency. *)
Lemma Add_same a b c : normal c → c ≠ "" →
  Add (NewMoney a c) (NewMoney b c) = inr (NewMoney (i64 (a + b)) c).
Proof.
  intros Hn Hc. unfold Add. simpl. rewrite decide_False by (rewrite Hn; naive_solver).
  rewrite SameCurrency_normal by auto with go_inv. simpl.
  rewrite bool_decide_true by done. simpl. by rewrite Hn.
Qed.

(** ** Properties *)

(** Money arithmetic is exact up to the wrap of [int64] and stays within a
    currency: for amounts in range with a normalised currency, an addition that
    succeeds is undone by subtracting the same operand, and gives back the
    amount and the currency it started from, even when the sum overflows. *)
Theorem Money_Add_Sub m o s :
  is_i64 (Amount m) → normal (Currency m) →
  Add m o = inr s → Sub s o = inr m.
Proof.
  intros Hr Hn HA. unfold Add in HA. case_decide as He; [done|].
  destruct (SameCurrency m o) eqn:Hs; simplify_eq/=.
  unfold Sub. rewrite decide_False by (simpl; rewrite Hn; naive_solver).
  assert (SameCurrency (NewMoney (i64 (Amount m + Amount o)) (Currency m)) o = true) as ->
    by (unfold SameCurrency; simpl; by rewrite Hn).
  simpl. rewrite i64_sub_l, Hn.
  replace (Amount m + Amount o - Amount o) with (Amount m) by lia.
  rewrite i64_id by done. f_equal. by apply NewMoney_id.
Qed.

Lemma Money_Add_Sub_witness :
  Sub {| Amount := - 2 ^ 63 + 6; Currency := "USD" |} {| Amount := 7; Currency := "usd" |}
    = inr {| Amount := 2 ^ 63 - 1; Currency := "USD" |}.
Proof. by apply (Money_Add_Sub {| Amount := 2 ^ 63 - 1; Currency := "USD" |}). Defined.
