(* ===== verification/Billing.v ===== *)
(** * pkg/commerce/billing: proration and the in-memory billing service

    Subscriptions to the plans of a catalogue, their invoices, and the proration of a change
    of plan in the middle of a period, in [float64] as the code computes it.  [uuid.New()] is
    the argument [uid] of a method, and [s.now()] the argument [now].  A stored subscription
    or invoice is updated in place through a pointer that only the map holds; the results are
    copies.  A map is ranged over in the order of [map_to_list]; Go's order is any. *)

From S2P Require Import Prelude GoStrings Errors Float64 FloatRound GoTime Money.
From stdpp Require Import relations options.
Open Scope Z_scope.

(* src: pkg/commerce/billing/billing.go 16-23 SubscriptionStatus *)
Inductive SubscriptionStatus := StatusActive | StatusCanceled | StatusPastDue.

(* src: pkg/commerce/billing/billing.go 25-31 InvoiceOpen *)
Inductive InvoiceStatus := InvoiceOpen | InvoicePaid | InvoiceVoid | InvoicePastDue.

#[global] Instance SubscriptionStatus_eq_dec : EqDecision SubscriptionStatus.
Proof. solve_decision. Defined.
#[global] Instance InvoiceStatus_eq_dec : EqDecision InvoiceStatus.
Proof. solve_decision. Defined.

(* src: pkg/commerce/billing/billing.go 33-40 Plan *)
Record Plan := {
  p_ID : string; p_Name : string; p_Amount : Money; p_Interval : string;
  p_Metadata : option (gmap string string) }.

(* src: pkg/commerce/billing/billing.go 42-55 Subscription *)
Record Subscription := {
  s_ID : string; s_CustomerID : string; PlanID : string; s_Status : SubscriptionStatus;
  s_Amount : Money; s_Interval : string; NextBillAt : Z; s_CreatedAt : Z; UpdatedAt : Z;
  PeriodStart : Z }.

(* src: pkg/commerce/billing/billing.go 57-68 Invoice *)
Record Invoice := {
  i_ID : string; SubscriptionID : string; i_CustomerID : string; i_Amount : Money;
  i_Status : InvoiceStatus; IssuedAt : Z; PaidAt : option Z; i_Description : string }.

(* src: pkg/commerce/billing/billing.go 76-86 ProrationResult *)
Record ProrationResult := { Credit : Money; Charge_ : Money; Net : Money; Fraction : float64 }.

(* src: pkg/commerce/billing/billing.go 88-92 DunningResult *)
Record DunningResult := { d_Subscription : Subscription; d_Invoices : list Invoice }.

(* src: pkg/commerce/billing/errors.go 6-7 ErrPlanNotFound *)
Definition ErrPlanNotFound : error := NotFound "plan not found" None.
(* src: pkg/commerce/billing/errors.go 9-10 ErrSubscriptionNotFound *)
Definition ErrSubscriptionNotFound : error := NotFound "subscription not found" None.
(* src: pkg/commerce/billing/errors.go 12-13 ErrSubscriptionCanceled *)
Definition ErrSubscriptionCanceled : error := Conflict "subscription already canceled" None.
(* src: pkg/commerce/billing/errors.go 18-19 ErrSamePlan *)
Definition ErrSamePlan : error := InvalidArgument "subscription already on this plan" None.
(* src: pkg/commerce/billing/errors.go 21-22 ErrCurrencyMismatch *)
Definition ErrCurrencyMismatch : error := InvalidArgument "plan currency mismatch" None.
(* src: pkg/commerce/billing/errors.go 24-25 ErrInvalidPeriod *)
Definition ErrInvalidPeriod : error := InvalidArgument "invalid billing period" None.

(** ** Proration *)

Section Prorate.
(** [int64(f)] of a float out of range. *)
Context (oor : float64 → Z).

Definition half : float64 := S754_finite false 4503599627370496 (-53).

(* src: pkg/commerce/billing/billing.go 185-190 roundHalfAway *)
Definition roundHalfAway (v : float64) : Z :=
  if flt v (S754_zero false) then to_i64 oor (fsub v half) else to_i64 oor (fadd v half).

(* src: pkg/commerce/billing/billing.go 135-183 Prorate *)
Definition Prorate (oldAmount newAmount : Money) (periodStart periodEnd changeAt : Z)
    : error + ProrationResult :=
  match Validate oldAmount, Validate newAmount with
  | Some err, _ => inl err
  | _, Some err => inl err
  | None, None =>
      if negb (SameCurrency oldAmount newAmount) then inl ErrCurrencyMismatch
      else if decide (¬ periodStart < periodEnd) then inl ErrInvalidPeriod
      else
        let changeAt := if decide (changeAt < periodStart) then periodStart else changeAt in
        let changeAt := if decide (periodEnd < changeAt) then periodEnd else changeAt in
        let total := Seconds (time_Sub periodEnd periodStart) in
        let remaining := Seconds (time_Sub periodEnd changeAt) in
        let fraction := fdiv remaining total in
        let fraction := if flt fraction (S754_zero false) then S754_zero false else fraction in
        let fraction := if flt (of_i64 1) fraction then of_i64 1 else fraction in
        let creditMinor := roundHalfAway (fmul (of_i64 (Amount oldAmount)) fraction) in
        let chargeMinor := roundHalfAway (fmul (of_i64 (Amount newAmount)) fraction) in
        let cur := Currency oldAmount in
        let credit := NewMoney creditMinor cur in
        let charge := NewMoney chargeMinor cur in
        match Sub charge credit with
        | inl err => inl err
        | inr net => inr {| Credit := credit; Charge_ := charge; Net := net; Fraction := fraction |}
        end
  end.

(** ** The service *)

(* src: pkg/commerce/billing/adapters/memory/memory.go 16-24 Service *)
Record Service := {
  subscriptions : gmap string Subscription; invoices : gmap string Invoice;
  plans : gmap string Plan }.

Abbreviation ServiceM := (GoM error Service).

(* src: pkg/commerce/billing/adapters/memory/memory.go 26-48 DefaultPlans *)
Definition DefaultPlans : gmap string Plan :=
  {[ "basic_monthly" := {| p_ID := "basic_monthly"; p_Name := "Basic Monthly";
       p_Amount := NewMoney 1000 "USD"; p_Interval := "month"; p_Metadata := None |};
     "pro_monthly" := {| p_ID := "pro_monthly"; p_Name := "Pro Monthly";
       p_Amount := NewMoney 2900 "USD"; p_Interval := "month"; p_Metadata := None |};
     "pro_yearly" := {| p_ID := "pro_yearly"; p_Name := "Pro Yearly";
       p_Amount := NewMoney 29000 "USD"; p_Interval := "year"; p_Metadata := None |} ]}.

(* src: pkg/commerce/billing/adapters/memory/memory.go 55-69 NewWithPlans *)
Definition NewWithPlans (ps : gmap string Plan) : Service :=
  {| subscriptions := ∅; invoices := ∅; plans := map_fold (λ k v cp, <[k := v]> cp) ∅ ps |}.

(* src: pkg/commerce/billing/adapters/memory/memory.go 50-53 New *)
Definition New : Service := NewWithPlans DefaultPlans.

Definition set_sub (id : string) (sub : Subscription) (s : Service) : Service :=
  {| subscriptions := <[id := sub]> (subscriptions s); invoices := invoices s; plans := plans s |}.
Definition set_inv (id : string) (inv : Invoice) (s : Service) : Service :=
  {| subscriptions := subscriptions s; invoices := <[id := inv]> (invoices s); plans := plans s |}.
(** [sub.Status = st; sub.UpdatedAt = now] *)
Definition with_status (st : SubscriptionStatus) (now : Z) (sub : Subscription) : Subscription :=
  {| s_ID := s_ID sub; s_CustomerID := s_CustomerID sub; PlanID := PlanID sub; s_Status := st;
     s_Amount := s_Amount sub; s_Interval := s_Interval sub; NextBillAt := NextBillAt sub;
     s_CreatedAt := s_CreatedAt sub; UpdatedAt := now; PeriodStart := PeriodStart sub |}.

(* src: pkg/commerce/billing/adapters/memory/memory.go 86-98 GetPlan *)
Definition GetPlan (ctx : option error) (planID : string) : ServiceM Plan :=
  throw_some ctx;; s ← get; unwrap (plans s !! planID) ErrPlanNotFound.

(* src: pkg/commerce/billing/adapters/memory/memory.go 100-112 ListPlans *)
Definition ListPlans (ctx : option error) : ServiceM (list Plan) :=
  throw_some ctx;; s ← get; mret (map_to_list (plans s)).*2.

(* src: pkg/commerce/billing/adapters/memory/memory.go 114-148 CreateSubscription *)
Definition CreateSubscription (ctx : option error) (uid : string) (now : Z) (customerID planID : string)
    : ServiceM Subscription :=
  throw_some ctx;;
  s ← get;
  plan ← unwrap (plans s !! planID) ErrPlanNotFound;
  let next := AddDate 0 1 0 now in
  let next := if decide (p_Interval plan = "year") then AddDate 1 0 0 now else next in
  let sub := {| s_ID := uid; s_CustomerID := customerID; PlanID := planID; s_Status := StatusActive;
                s_Amount := p_Amount plan; s_Interval := p_Interval plan; NextBillAt := next;
                s_CreatedAt := now; UpdatedAt := now; PeriodStart := now |} in
  put (set_sub uid sub s);;
  mret sub.

(* src: pkg/commerce/billing/adapters/memory/memory.go 150-170 CancelSubscription *)
Definition CancelSubscription (ctx : option error) (now : Z) (subscriptionID : string)
    : ServiceM Subscription :=
  throw_some ctx;;
  s ← get;
  sub ← unwrap (subscriptions s !! subscriptionID) ErrSubscriptionNotFound;
  throw_if (s_Status sub = StatusCanceled) ErrSubscriptionCanceled;;
  let sub := with_status StatusCanceled now sub in
  put (set_sub subscriptionID sub s);;
  mret sub.

(* src: pkg/commerce/billing/adapters/memory/memory.go 172-186 GetSubscription *)
Definition GetSubscription (ctx : option error) (subscriptionID : string) : ServiceM Subscription :=
  throw_some ctx;; s ← get; unwrap (subscriptions s !! subscriptionID) ErrSubscriptionNotFound.

(* src: pkg/commerce/billing/adapters/memory/memory.go 212-220 UpgradeSubscription *)
Definition period (sub : Subscription) : Z * Z :=
  let periodStart := if decide (PeriodStart sub = zero_time) then s_CreatedAt sub else PeriodStart sub in
  let periodEnd := NextBillAt sub in
  let periodEnd := if decide (periodStart < periodEnd) then periodEnd else AddDate 0 1 0 periodStart in
  (periodStart, periodEnd).

(* src: pkg/commerce/billing/adapters/memory/memory.go 188-248 UpgradeSubscription *)
Definition UpgradeSubscription (ctx : option error) (uid : string) (now : Z)
    (subscriptionID newPlanID : string) : ServiceM Subscription :=
  throw_some ctx;;
  s ← get;
  sub ← unwrap (subscriptions s !! subscriptionID) ErrSubscriptionNotFound;
  throw_if (s_Status sub = StatusCanceled) ErrSubscriptionCanceled;;
  throw_if (PlanID sub = newPlanID) ErrSamePlan;;
  plan ← unwrap (plans s !! newPlanID) ErrPlanNotFound;
  let '(periodStart, periodEnd) := period sub in
  match Prorate (s_Amount sub) (p_Amount plan) periodStart periodEnd now with
  | inl err => throw err
  | inr pr =>
      let inv := {| i_ID := uid; SubscriptionID := s_ID sub; i_CustomerID := s_CustomerID sub;
                    i_Amount := Net pr; i_Status := InvoiceOpen; IssuedAt := now; PaidAt := None;
                    i_Description := "proration" |} in
      let s := if decide (0 < Amount (Net pr)) then set_inv uid inv s else s in
      let sub := {| s_ID := s_ID sub; s_CustomerID := s_CustomerID sub; PlanID := newPlanID;
                    s_Status := StatusActive; s_Amount := p_Amount plan; s_Interval := p_Interval plan;
                    NextBillAt := NextBillAt sub; s_CreatedAt := s_CreatedAt sub; UpdatedAt := now;
                    PeriodStart := PeriodStart sub |} in
      put (set_sub subscriptionID sub s);;
      mret sub
  end.

(* src: pkg/commerce/billing/adapters/memory/memory.go 250-270 MarkPastDue *)
Definition MarkPastDue (ctx : option error) (now : Z) (subscriptionID : string) : ServiceM Subscription :=
  throw_some ctx;;
  s ← get;
  sub ← unwrap (subscriptions s !! subscriptionID) ErrSubscriptionNotFound;
  throw_if (s_Status sub = StatusCanceled) ErrSubscriptionCanceled;;
  let sub := with_status StatusPastDue now sub in
  put (set_sub subscriptionID sub s);;
  mret sub.

(** The condition of the loop of [ProcessDunning], and its step. *)
Definition is_due (subscriptionID : string) (inv : Invoice) : Prop :=
  SubscriptionID inv = subscriptionID ∧ i_Status inv = InvoiceOpen.
#[global] Instance is_due_dec sid inv : Decision (is_due sid inv).
Proof. unfold is_due. apply _. Defined.

(* src: pkg/commerce/billing/adapters/memory/memory.go 292-302 ProcessDunning *)
Definition dun (subscriptionID : string) (inv : Invoice) : Invoice :=
  if decide (is_due subscriptionID inv) then
    {| i_ID := i_ID inv; SubscriptionID := SubscriptionID inv; i_CustomerID := i_CustomerID inv;
       i_Amount := i_Amount inv; i_Status := InvoicePastDue; IssuedAt := IssuedAt inv;
       PaidAt := PaidAt inv; i_Description := i_Description inv |}
  else inv.

(* src: pkg/commerce/billing/adapters/memory/memory.go 272-311 ProcessDunning *)
Definition ProcessDunning (ctx : option error) (now : Z) (subscriptionID : string)
    : ServiceM DunningResult :=
  throw_some ctx;;
  s ← get;
  sub ← unwrap (subscriptions s !! subscriptionID) ErrSubscriptionNotFound;
  throw_if (s_Status sub = StatusCanceled) ErrSubscriptionCanceled;;
  let transitioned := dun subscriptionID <$> filter (is_due subscriptionID) (map_to_list (invoices s)).*2 in
  let sub := with_status StatusPastDue now sub in
  put {| subscriptions := <[subscriptionID := sub]> (subscriptions s);
         invoices := dun subscriptionID <$> invoices s; plans := plans s |};;
  mret {| d_Subscription := sub; d_Invoices := transitioned |}.

(* src: pkg/commerce/billing/adapters/memory/memory.go 313-335 CreateInvoice *)
Definition CreateInvoice (ctx : option error) (uid : string) (now : Z) (customerID : string) (amount : Money)
    : ServiceM Invoice :=
  throw_some ctx;;
  throw_some (Validate amount);;
  s ← get;
  let inv := {| i_ID := uid; SubscriptionID := ""; i_CustomerID := customerID; i_Amount := amount;
                i_Status := InvoiceOpen; IssuedAt := now; PaidAt := None; i_Description := "" |} in
  put (set_inv uid inv s);;
  mret inv.

(* src: pkg/commerce/billing/adapters/memory/memory.go 337-366 CreateSubscriptionInvoice *)
Definition CreateSubscriptionInvoice (ctx : option error) (uid : string) (now : Z) (subscriptionID : string)
    (amount : Money) : ServiceM Invoice :=
  throw_some ctx;;
  throw_some (Validate amount);;
  s ← get;
  sub ← unwrap (subscriptions s !! subscriptionID) ErrSubscriptionNotFound;
  let inv := {| i_ID := uid; SubscriptionID := subscriptionID; i_CustomerID := s_CustomerID sub;
                i_Amount := amount; i_Status := InvoiceOpen; IssuedAt := now; PaidAt := None;
                i_Description := "" |} in
  put (set_inv uid inv s);;
  mret inv.

(* src: pkg/commerce/billing/adapters/memory/memory.go 368-385 ListInvoices *)
Definition ListInvoices (ctx : option error) (customerID : string) : ServiceM (list Invoice) :=
  throw_some ctx;;
  s ← get;
  mret (filter (λ inv, customerID = "" ∨ i_CustomerID inv = customerID) (map_to_list (invoices s)).*2).

(** ** What is charged and credited

    The amount rounded from [a] and the fraction [x / 2^1074]: the two roundings of the
    product and of the addition of one half, and the truncation. *)

Definition prorated (a x : Z) : Z := rnd 0 (rnd 1074 (a * 2 ^ 1074 * x) + 2 ^ 1073) / 2 ^ 1074.

Lemma prorated_mono a b x y : 0 ≤ a ≤ b → 0 ≤ x ≤ y → prorated a x ≤ prorated b y.
Proof.
  intros Ha Hx. unfold prorated. assert (0 < 2 ^ 1074) as HU by (apply Z.pow_pos_nonneg; lia).
  assert (0 < 2 ^ 1073) as HH by (apply Z.pow_pos_nonneg; lia).
  remember (2 ^ 1074) as U eqn:EU. remember (2 ^ 1073) as H eqn:EH. apply Z.div_le_mono; [done|]. apply rnd_mono; [lia|].
  pose proof (rnd_nonneg 1074 (a * U * x) ltac:(lia) ltac:(nia)). pose proof (rnd_mono 1074 (a * U * x) (b * U * y) ltac:(lia)) as Hm.
  assert (a * U * x ≤ b * U * y) by (apply Z.mul_le_mono_nonneg; nia). split; [lia|]. apply Z.add_le_mono_r. apply Hm. nia.
Qed.

Lemma prorated_half a : 0 ≤ a < 2 ^ 52 → rnd 0 (a * 2 ^ 1074 + 2 ^ 1073) = a * 2 ^ 1074 + 2 ^ 1073.
Proof.
  intros Ha. pose proof (rnd_exact 0 (2 * a + 1) 1073 ltac:(lia) ltac:(lia) ltac:(lia)) as R. rewrite Z.mul_1_r in R.
  assert (2 ^ 1074 = 2 * 2 ^ 1073) as E by (by rewrite <- Z.pow_succ_r). rewrite E.
  remember (2 ^ 1073) as H eqn:EH. replace (a * (2 * H) + H) with ((2 * a + 1) * H) by lia. done.
Qed.

Lemma half_below a : (a * 2 ^ 1074 + 2 ^ 1073) / 2 ^ 1074 = a.
Proof.
  assert (2 ^ 1074 = 2 * 2 ^ 1073) as E by (by rewrite <- Z.pow_succ_r).
  assert (0 < 2 ^ 1073) by (apply Z.pow_pos_nonneg; lia). rewrite E. remember (2 ^ 1073) as H' eqn:EH.
  symmetry. apply (Z.div_unique _ _ a H'); lia.
Qed.

Lemma prorated_full a : 0 ≤ a < 2 ^ 52 → prorated a (2 ^ 1074) = a.
Proof.
  intros Ha. unfold prorated. rewrite rnd_exact by lia. rewrite prorated_half by done. apply half_below.
Qed.

Lemma prorated_none a : prorated a 0 = 0.
Proof.
  unfold prorated. rewrite Z.mul_0_r, rnd_0 by lia. pose proof (prorated_half 0 ltac:(lia)) as R.
  rewrite Z.mul_0_l in R. rewrite R. pose proof (half_below 0) as E. by rewrite Z.mul_0_l in E.
Qed.

(** A fraction: a [float64] between 0 and 1. *)
Definition fraction_ok (f : float64) : Prop := valid f ∧ has_sign false f ∧ val f ≤ 2 ^ 1074.

Lemma roundHalfAway_prorated a f : 0 ≤ a < 2 ^ 52 → fraction_ok f →
  roundHalfAway (fmul (of_i64 a) f) = prorated a (val f).
Proof.
  intros Ha (Vf & Sf & Hf). destruct (of_i64_good a) as [Va Sa]; [lia|]. pose proof (of_i64_val a ltac:(lia)) as Ea.
  pose proof (val_nonneg f) as Nf. assert (0 < 2 ^ 1074) as HU by (apply Z.pow_pos_nonneg; lia).
  assert (2 ^ 53 * 2 ^ 1074 < huge) as Hh by (unfold huge; rewrite <- Z.pow_add_r by lia; apply Z.pow_lt_mono_r; lia).
  assert (rnd 1074 (a * 2 ^ 1074 * val f) ≤ a * 2 ^ 1074) as Hle.
  { etransitivity; [apply (rnd_mono 1074 _ (a * 2 ^ 1074 * 2 ^ 1074)); [lia|]|by rewrite rnd_exact by lia].
    remember (2 ^ 1074) as U. nia. }
  pose proof (rnd_nonneg 1074 (a * 2 ^ 1074 * val f) ltac:(lia)) as Hge.
  pose proof (prorated_half a ltac:(lia)) as Hhalf. pose proof (half_below a) as Hbelow.
  assert (2 ^ 1074 = 2 * 2 ^ 1073) as E by (by rewrite <- Z.pow_succ_r).
  destruct (fmul_val (of_i64 a) f Va Vf Sa Sf) as (Vv & Sv & Hv); [rewrite Ea; remember (2 ^ 1074) as U; nia|remember (2 ^ 1074) as U; lia|].
  rewrite Ea in Hv. set (v := fmul (of_i64 a) f) in *. rewrite Z.min_l in Hv by (remember (2 ^ 1074) as U; nia).
  assert (valid half ∧ has_sign false half ∧ val half = 2 ^ 1073) as (Vh & Sh & Hval).
  { split_and!; [by vm_compute|done|]. unfold half, val. change (Z.pos 4503599627370496) with (2 ^ 52). by rewrite <- Z.pow_add_r by lia. }
  unfold roundHalfAway. assert (flt v (S754_zero false) = false) as ->.
  { assert (fle (S754_zero false) v) as H; [|done]. apply fle_val; [done|done|done|done|]. apply val_nonneg. }
  destruct (fadd_val v half Vv Vh Sv Sh) as (Vw & Sw & Hw). rewrite Hv, Hval in Hw.
  assert (rnd 0 (rnd 1074 (a * 2 ^ 1074 * val f) + 2 ^ 1073) ≤ a * 2 ^ 1074 + 2 ^ 1073) as Hle2.
  { rewrite <- Hhalf. apply rnd_mono; [lia|]. remember (2 ^ 1074) as U. remember (2 ^ 1073) as H'. nia. }
  rewrite Z.min_l in Hw by (remember (2 ^ 1074) as U; remember (2 ^ 1073) as H'; nia).
  unfold to_i64. rewrite trunc_val by (done || (rewrite Hw; remember (2 ^ 1074) as U; remember (2 ^ 1073) as H'; nia)).
  rewrite Hw. fold (prorated a (val f)). rewrite decide_True; [done|]. unfold is_i64.
  assert (0 ≤ prorated a (val f) ≤ a) as Hpr; [|lia]. split; unfold prorated.
  - apply Z.div_pos; [|lia]. apply rnd_nonneg; [lia|]. remember (2 ^ 1074) as U. remember (2 ^ 1073) as H'. nia.
  - rewrite <- Hbelow at 2. apply Z.div_le_mono; [lia|done].
Qed.
(** The fraction of the period that remains, as [Prorate] computes it. *)
Definition clamp (f : float64) : float64 :=
  let f := if flt f (S754_zero false) then S754_zero false else f in
  if flt (of_i64 1) f then of_i64 1 else f.

Lemma clamp_ok f : valid f → has_sign false f → fraction_ok (clamp f).
Proof.
  intros Vf Sf. unfold clamp. assert (flt f (S754_zero false) = false) as ->.
  { assert (fle (S754_zero false) f) as H; [|done]. apply fle_val; [done|done|done|done|]. apply val_nonneg. }
  destruct (of_i64_good 1) as [V1 S1]; [lia|]. pose proof (of_i64_val 1 ltac:(lia)) as E1. rewrite Z.mul_1_l in E1.
  destruct (flt (of_i64 1) f) eqn:E; (split_and!; [done|done|]).
  - rewrite E1. reflexivity.
  - assert (fle f (of_i64 1)) as H by done. rewrite fle_val, E1 in H by done. done.
Qed.

Lemma remaining_ok T R : 10 ^ 9 ≤ T < 2 ^ 63 → 0 ≤ R < 2 ^ 63 →
  fraction_ok (clamp (fdiv (Seconds R) (Seconds T))) ∧
  (R = T → val (clamp (fdiv (Seconds R) (Seconds T))) = 2 ^ 1074) ∧
  (R = 0 → val (clamp (fdiv (Seconds R) (Seconds T))) = 0).
Proof.
  intros HT HR. destruct (Seconds_val T ltac:(lia)) as (VT & ST & BT). destruct (Seconds_val R ltac:(lia)) as (VR & SR & BR).
  assert (0 < 2 ^ 1074) as HU by (apply Z.pow_pos_nonneg; lia).
  assert (2 ^ 53 * 2 ^ 1074 < huge) as Hh by (unfold huge; rewrite <- Z.pow_add_r by lia; apply Z.pow_lt_mono_r; lia).
  assert (1 ≤ T / 10 ^ 9 < 2 ^ 34) as HTq by (Z.to_euclidean_division_equations; lia).
  assert (0 ≤ R / 10 ^ 9 < 2 ^ 34) as HRq by (Z.to_euclidean_division_equations; lia).
  destruct (positive_finite (Seconds T) ST) as (m & e & ET); [remember (2 ^ 1074) as U; nia|].
  rewrite ET. split_and!.
  - destruct (fdiv_valid (Seconds R) m e VR SR) as (V & S & _); [remember (2 ^ 1074) as U; nia|]. by apply clamp_ok.
  - intros ->. rewrite ET, fdiv_self. unfold clamp. rewrite (eq_refl : flt (of_i64 1) (S754_zero false) = false), flt_irrefl.
    by rewrite of_i64_val, Z.mul_1_l by lia.
  - intros ->. rewrite (eq_refl : Seconds 0 = S754_zero false). reflexivity.
Qed.

Lemma time_Sub_range a b : - 2 ^ 63 ≤ time_Sub a b < 2 ^ 63.
Proof. unfold time_Sub. lia. Qed.

Lemma Sub_same a b c : c ≠ "" → normal c → Sub (NewMoney a c) (NewMoney b c) = inr (NewMoney (i64 (a - b)) c).
Proof.
  intros Hc Hn. unfold Sub. cbn [Currency NewMoney]. rewrite Hn. rewrite decide_False by naive_solver.
  unfold SameCurrency, EqualFold. cbn [Currency NewMoney]. rewrite bool_decide_true by done. cbn [negb Amount]. done.
Qed.

(** [Prorate], when the amounts are valid and the period is one. *)
Lemma Prorate_spec old new ps pe at_ : Currency old = Currency new → normal (Currency old) → Currency old ≠ "" →
  0 ≤ Amount old < 2 ^ 52 → 0 ≤ Amount new < 2 ^ 52 → ps + 10 ^ 9 ≤ pe →
  ∃ f, fraction_ok f ∧ (at_ ≤ ps → val f = 2 ^ 1074) ∧ (pe ≤ at_ → val f = 0) ∧
    let c := Currency old in
    Prorate old new ps pe at_ = inr {|
      Credit := NewMoney (prorated (Amount old) (val f)) c; Charge_ := NewMoney (prorated (Amount new) (val f)) c;
      Net := NewMoney (i64 (prorated (Amount new) (val f) - prorated (Amount old) (val f))) c; Fraction := f |}.
Proof.
  intros Hcur Hn Hne Hold Hnew Hp. set (at1 := if decide (at_ < ps) then ps else at_).
  set (at2 := if decide (pe < at1) then pe else at1).
  assert (ps ≤ at2 ≤ pe ∧ (at_ ≤ ps → at2 = ps) ∧ (pe ≤ at_ → at2 = pe)) as (Hat & Hlo & Hhi).
  { unfold at2, at1. destruct (decide (at_ < ps)), (decide (pe < _)); lia. }
  set (T := time_Sub pe ps). set (R := time_Sub pe at2).
  assert (10 ^ 9 ≤ T < 2 ^ 63 ∧ 0 ≤ R < 2 ^ 63) as [HT HR] by (unfold T, R, time_Sub; lia).
  destruct (remaining_ok T R HT HR) as (Hok & Hfull & Hnone). set (f := clamp (fdiv (Seconds R) (Seconds T))) in *. exists f.
  split_and!; [done|..].
  { intros ?. apply Hfull. unfold R, T. by rewrite Hlo. } { intros ?. apply Hnone. unfold R. rewrite Hhi by done. unfold time_Sub. lia. }
  cbn zeta. unfold Prorate, Validate. rewrite <- Hcur, (decide_False (P := TrimSpace _ = "")).
  2: { intros E. apply Hne. rewrite <- Hn, E. reflexivity. }
  unfold SameCurrency, EqualFold. rewrite <- Hcur, bool_decide_true by done. cbn [negb].
  rewrite decide_False by lia. cbv zeta. fold at1. fold at2. fold T R.
  change (if flt (of_i64 1) _ then _ else _) with f. rewrite !roundHalfAway_prorated by done.
  by rewrite Sub_same.
Qed.

(** The laws of proration. *)
Lemma prorate_laws old new ps pe at_ :
  Currency old = Currency new → normal (Currency old) → Currency old ≠ "" →
  0 ≤ Amount old < 2 ^ 52 → 0 ≤ Amount new < 2 ^ 52 → ps + 10 ^ 9 ≤ pe →
  ∃ r, Prorate old new ps pe at_ = inr r ∧
    0 ≤ Amount (Credit r) ≤ Amount old ∧ 0 ≤ Amount (Charge_ r) ≤ Amount new ∧
    Amount (Net r) = Amount (Charge_ r) - Amount (Credit r) ∧
    (Amount new ≤ Amount old → Amount (Net r) ≤ 0) ∧ (Amount old ≤ Amount new → 0 ≤ Amount (Net r)) ∧
    (at_ ≤ ps → Credit r = old ∧ Charge_ r = new) ∧
    (pe ≤ at_ → Amount (Credit r) = 0 ∧ Amount (Charge_ r) = 0).
Proof.
  intros Hcur Hn Hne Hold Hnew Hp. destruct (Prorate_spec old new ps pe at_) as (f & (Vf & Sf & Hf) & Hlo & Hhi & E); [done..|].
  eexists. split; [exact E|]. cbn [Credit Charge_ Net Amount NewMoney]. pose proof (val_nonneg f) as Nf.
  assert (∀ a, 0 ≤ a < 2 ^ 52 → 0 ≤ prorated a (val f) ≤ a) as Hb.
  { intros a Ha. split; [rewrite <- (prorated_none a); apply prorated_mono; lia|].
    rewrite <- (prorated_full a Ha) at 2. apply prorated_mono; [lia|done]. }
  pose proof (Hb _ Hold). pose proof (Hb _ Hnew). rewrite i64_id by (unfold is_i64; lia). split_and!; [lia..| | | |].
  - intros ?. pose proof (prorated_mono (Amount new) (Amount old) (val f) (val f)). lia.
  - intros ?. pose proof (prorated_mono (Amount old) (Amount new) (val f) (val f)). lia.
  - intros ?. rewrite Hlo, !prorated_full by done. rewrite Hcur at 2. rewrite !NewMoney_id by (done || by rewrite <- Hcur). done.
  - intros ?. rewrite Hhi, !prorated_none by done. done.
Qed.

(** C20. The proration of a change of plan is fair, although it is computed in floating point:
    for two amounts of one currency below 2^52 minor units, and a period of at least a second,
    it succeeds; the credit is between 0 and the old price and the charge between 0 and the
    new one, the net is their difference, no rounding makes a move to a dearer plan earn the
    customer money or a move to a cheaper one cost any; at the start of the period (or before)
    both prices count in full, and at the end (or after) nothing does. *)
Theorem prorate_fair old new ps pe at_ :
  Currency old = Currency new → normal (Currency old) → Currency old ≠ "" →
  0 ≤ Amount old < 2 ^ 52 → 0 ≤ Amount new < 2 ^ 52 → ps + 10 ^ 9 ≤ pe →
  ∃ r, Prorate old new ps pe at_ = inr r ∧
    0 ≤ Amount (Credit r) ≤ Amount old ∧ 0 ≤ Amount (Charge_ r) ≤ Amount new ∧
    Amount (Net r) = Amount (Charge_ r) - Amount (Credit r) ∧
    (Amount new ≤ Amount old → Amount (Net r) ≤ 0) ∧ (Amount old ≤ Amount new → 0 ≤ Amount (Net r)) ∧
    (at_ ≤ ps → Credit r = old ∧ Charge_ r = new) ∧
    (pe ≤ at_ → Amount (Credit r) = 0 ∧ Amount (Charge_ r) = 0).
Proof. apply prorate_laws. Qed.
End Prorate.

Lemma prorate_fair_witness :
  (∃ r, Prorate (λ _, 0) (NewMoney 1000 "USD") (NewMoney 2900 "USD") 0 (2592000 * 10 ^ 9) (1296000 * 10 ^ 9) = inr r ∧
    Amount (Net r) = 950) ∧
  ∃ r, Prorate (λ _, 0) (NewMoney 1000 "USD") (NewMoney 2900 "USD") 0 (2592000 * 10 ^ 9) (-1) = inr r ∧ Credit r = NewMoney 1000 "USD".
Proof.
  split; [eexists; split; [vm_compute; reflexivity|reflexivity]|].
  destruct (prorate_fair (λ _, 0) (NewMoney 1000 "USD") (NewMoney 2900 "USD") 0 (2592000 * 10 ^ 9) (-1)) as (r & E & _ & _ & _ & _ & _ & H & _);
    [reflexivity|reflexivity|discriminate|cbn; lia|cbn; lia|lia|].
  exists r. split; [exact E|]. apply H. lia.
Defined.

(** ** The life of a subscription *)

#[local] Arguments AddDate : simpl never.
#[local] Arguments Prorate : simpl never.
#[local] Arguments day_ns : simpl never.

Section Service.
Context (oor : float64 → Z) (cur : string).

(** A catalogue in one currency, with prices below 2^52. *)
Definition catalogue_ok (ps : gmap string Plan) : Prop :=
  normal cur ∧ cur ≠ "" ∧ map_Forall (λ _ p, Currency (p_Amount p) = cur ∧ 0 ≤ Amount (p_Amount p) < 2 ^ 52) ps.

(** A subscription has the price of its plan, and a period of at least a day. *)
Definition sub_ok (s : Service) (id : string) (sub : Subscription) : Prop :=
  s_ID sub = id ∧ PeriodStart sub = s_CreatedAt sub ∧ PeriodStart sub + day_ns ≤ NextBillAt sub ∧
  ∃ p, plans s !! PlanID sub = Some p ∧ s_Amount sub = p_Amount p ∧ s_Interval sub = p_Interval p.
Definition service_ok (s : Service) : Prop :=
  catalogue_ok (plans s) ∧ map_Forall (sub_ok s) (subscriptions s) ∧
  map_Forall (λ _ inv, i_Status inv = InvoiceOpen ∨ i_Status inv = InvoicePastDue) (invoices s).

Inductive billing_op :=
  | OCreate (uid : string) (now : Z) (customer plan : string)
  | OCancel (now : Z) (id : string)
  | OUpgrade (uid : string) (now : Z) (id plan : string)
  | OMarkPastDue (now : Z) (id : string)
  | ODunning (now : Z) (id : string)
  | OInvoice (uid : string) (now : Z) (customer : string) (amount : Money)
  | OSubInvoice (uid : string) (now : Z) (id : string) (amount : Money).

Definition billing_step (ctx : option error) (o : billing_op) (s : Service) : Service :=
  match o with
  | OCreate uid now c p => exec (CreateSubscription ctx uid now c p) s
  | OCancel now id => exec (CancelSubscription ctx now id) s
  | OUpgrade uid now id p => exec (UpgradeSubscription oor ctx uid now id p) s
  | OMarkPastDue now id => exec (MarkPastDue ctx now id) s
  | ODunning now id => exec (ProcessDunning ctx now id) s
  | OInvoice uid now c a => exec (CreateInvoice ctx uid now c a) s
  | OSubInvoice uid now id a => exec (CreateSubscriptionInvoice ctx uid now id a) s
  end.
Definition billing_run (os : list (option error * billing_op)) (s : Service) : Service :=
  foldl (λ s o, billing_step o.1 o.2 s) s os.

Lemma set_sub_ok id sub s : service_ok s → sub_ok s id sub → service_ok (set_sub id sub s).
Proof. intros (Hc & Hs & Hi) Hsub. split_and!; [done| |done]. by apply map_Forall_insert_2. Qed.

Lemma set_inv_ok id inv s : service_ok s → i_Status inv = InvoiceOpen → service_ok (set_inv id inv s).
Proof. intros (Hc & Hs & Hi) Hinv. split_and!; [done|done|]. apply map_Forall_insert_2; [by left|done]. Qed.

Lemma with_status_ok s id sub st now : sub_ok s id sub → sub_ok s id (with_status st now sub).
Proof. done. Qed.

Lemma dunning_ok s id sub sid : service_ok s → sub_ok s id sub →
  service_ok {| subscriptions := <[id := sub]> (subscriptions s); invoices := dun sid <$> invoices s; plans := plans s |}.
Proof.
  intros (Hc & Hs & Hi) Hsub. split_and!; [done|by apply map_Forall_insert_2|]. cbn. apply map_Forall_fmap.
  intros k inv Hinv. cbn. unfold dun. specialize (Hi k inv Hinv). destruct (decide _); [by right|done].
Qed.

#[local] Hint Resolve set_sub_ok set_inv_ok with_status_ok dunning_ok : billing.

Lemma billing_step_ok ctx o s : service_ok s → service_ok (billing_step ctx o s).
Proof.
  intros Hs. destruct ctx as [err|]; [by destruct o|].
  assert (∀ id sub, subscriptions s !! id = Some sub → sub_ok s id sub) as Hsub by (intros id sub; apply Hs).
  destruct o as [uid now c p|now id|uid now id p|now id|now id|uid now c a|uid now id a]; unfold billing_step, exec.
  - unfold CreateSubscription. go_run. destruct (plans s !! p) as [plan|] eqn:E; [|done]. cbn.
    apply set_sub_ok; [done|]. unfold sub_ok. cbn. split_and!; [done|done| |by exists plan].
    destruct (decide _); apply AddDate_later; lia.
  - unfold CancelSubscription. go_run. destruct (_ !! id) eqn:E; [|done]. destruct (decide _); [done|]. cbn. auto with billing.
  - unfold UpgradeSubscription. go_run. destruct (_ !! id) as [sub|] eqn:E; [|done]. destruct (decide _); [done|]. destruct (decide _); [done|].
    destruct (plans s !! p) as [plan|] eqn:Ep; [|done]. destruct (period sub) as [pst pen]. destruct (Prorate _ _ _ _ _) as [err|r]; [done|]. cbn.
    destruct (Hsub id sub E) as (H1 & H2 & H3 & _).
    apply set_sub_ok; [destruct (decide _); [by apply set_inv_ok|done]|].
    unfold sub_ok. cbn. split_and!; [done..|]. exists plan. by destruct (decide _).
  - unfold MarkPastDue. go_run. destruct (_ !! id) eqn:E; [|done]. destruct (decide _); [done|]. cbn. auto with billing.
  - unfold ProcessDunning. go_run. destruct (_ !! id) eqn:E; [|done]. destruct (decide _); [done|]. cbn. auto with billing.
  - unfold CreateInvoice. go_run. destruct (Validate a); [done|]. cbn. auto with billing.
  - unfold CreateSubscriptionInvoice. go_run. destruct (Validate a); [done|]. destruct (_ !! id) eqn:E; [|done]. cbn. auto with billing.
Qed.

Lemma billing_run_ok os s : service_ok s → service_ok (billing_run os s).
Proof. revert s. induction os as [|o os IH]; intros s Hs; [done|]. cbn. by apply IH, billing_step_ok. Qed.

Lemma copied_plans (ps : gmap string Plan) : map_fold (λ k (v : Plan) cp, <[k := v]> cp) ∅ ps = ps.
Proof.
  apply (map_fold_weak_ind (λ r m, r = m)); [done|]. intros k v m r _ ->. done.
Qed.

Lemma NewWithPlans_ok ps : catalogue_ok ps → service_ok (NewWithPlans ps).
Proof. intros Hc. unfold NewWithPlans. rewrite copied_plans. split_and!; [done|apply map_Forall_empty..]. Qed.

(** Whatever happened before, a subscription that is not cancelled can be moved to any other
    plan, at any time: the move succeeds, keeps the period, and adds at most one invoice, an
    open one for the subscription's customer; it is for more than nothing and at most the price
    of the new plan, and there is none when the new plan is not dearer. *)
Theorem upgrade_bills_difference os ps id sub p plan uid now :
  catalogue_ok ps →
  let s := billing_run os (NewWithPlans ps) in
  subscriptions s !! id = Some sub → s_Status sub ≠ StatusCanceled → PlanID sub ≠ p → plans s !! p = Some plan →
  ∃ sub' inv, UpgradeSubscription oor None uid now id p s =
      (inr sub', {| subscriptions := <[id := sub']> (subscriptions s); plans := plans s;
                    invoices := match inv with Some i => <[uid := i]> (invoices s) | None => invoices s end |}) ∧
    PlanID sub' = p ∧ s_Amount sub' = p_Amount plan ∧ s_Status sub' = StatusActive ∧
    NextBillAt sub' = NextBillAt sub ∧ PeriodStart sub' = PeriodStart sub ∧
    (Amount (p_Amount plan) ≤ Amount (s_Amount sub) → inv = None) ∧
    match inv with
    | Some i => i_Status i = InvoiceOpen ∧ i_CustomerID i = s_CustomerID sub ∧ SubscriptionID i = id ∧
        0 < Amount (i_Amount i) ≤ Amount (p_Amount plan)
    | None => True
    end.
Proof.
  intros Hc s Hsub Hst Hne Hp. assert (service_ok s) as ((Hn & Hcur & Hcat) & Hs & _) by (by apply billing_run_ok, NewWithPlans_ok).
  destruct (Hs id sub Hsub) as (Hid & Hper & Hday & q & Hq & Ha & _).
  assert ((if decide (PeriodStart sub = zero_time) then s_CreatedAt sub else PeriodStart sub) = PeriodStart sub) as Est
    by (by destruct (decide _)).
  assert (PeriodStart sub < NextBillAt sub) as Hlt by (unfold day_ns in Hday; lia).
  destruct (Hcat _ _ Hq) as [Cq Aq]. destruct (Hcat _ _ Hp) as [Cp Ap].
  destruct (prorate_laws oor (s_Amount sub) (p_Amount plan) (PeriodStart sub) (NextBillAt sub) now) as (r & E & Hcr & Hch & Hnet & Hdown & _);
    [by rewrite Ha, Cq|by rewrite Ha, Cq|by rewrite Ha, Cq|by rewrite Ha|done|unfold day_ns in Hday; lia|].
  unfold UpgradeSubscription. go_run. fold s. rewrite Hsub, decide_False, decide_False, Hp by done. cbv beta iota.
  rewrite Est, (decide_True (P := PeriodStart sub < NextBillAt sub)), E by done.
  clear Est. destruct (decide (0 < Amount (Net r))) as [Hpos|Hpos].
  - eexists _, (Some _). split; [reflexivity|]. cbn. split_and!; [done..| |done|done|done|lia|lia]. intros Hle. specialize (Hdown Hle). lia.
  - eexists _, None. split; [reflexivity|]. done.
Qed.
End Service.

(** A cancelled subscription stays as it is, whatever is done, while new ids are not its own. *)
Theorem canceled_is_final oor ctx o s id sub : subscriptions s !! id = Some sub → s_Status sub = StatusCanceled →
  (∀ uid now c p, o = OCreate uid now c p → uid ≠ id) → subscriptions (billing_step oor ctx o s) !! id = Some sub.
Proof.
  intros Hsub Hst Huid. destruct ctx as [err|]; [by destruct o|].
  assert (∀ id' sub' x, subscriptions s !! id' = Some sub' → s_Status sub' ≠ StatusCanceled → <[id' := x]> (subscriptions s) !! id = Some sub) as Hins.
  { intros id' sub' x E Hne. rewrite lookup_insert_ne; [done|]. intros ->. congruence. }
  destruct o as [uid now c p|now id'|uid now id' p|now id'|now id'|uid now c a|uid now id' a]; unfold billing_step, exec.
  - unfold CreateSubscription. go_run. destruct (plans s !! p); [|done]. cbn. rewrite lookup_insert_ne; [done|]. by eapply Huid.
  - unfold CancelSubscription. go_run. destruct (_ !! id') eqn:E; [|done]. destruct (decide _); [done|]. cbn. eauto.
  - unfold UpgradeSubscription. go_run. destruct (_ !! id') as [sub'|] eqn:E; [|done]. destruct (decide _); [done|]. destruct (decide _); [done|].
    destruct (plans s !! p) as [plan|] eqn:Ep; [|done]. destruct (Prorate _ _ _ _ _) as [err|r]; [done|]. cbn. destruct (decide _); cbn; eauto.
  - unfold MarkPastDue. go_run. destruct (_ !! id') eqn:E; [|done]. destruct (decide _); [done|]. cbn. eauto.
  - unfold ProcessDunning. go_run. destruct (_ !! id') eqn:E; [|done]. destruct (decide _); [done|]. cbn. eauto.
  - unfold CreateInvoice. go_run. by destruct (Validate a).
  - unfold CreateSubscriptionInvoice. go_run. destruct (Validate a); [done|]. by destruct (_ !! id').
Qed.

(** A subscription of 2023-06-01 to the monthly plan, moved to the yearly one on June 16. *)
Definition june (d : Z) : Z := days_of_date 2023 6 d * day_ns.
Definition june_ops : list (option error * billing_op) :=
  [(None, OCreate "s" (june 1) "c" "basic_monthly"); (None, ODunning (june 10) "s");
   (None, OUpgrade "i" (june 16) "s" "pro_yearly")].

(** The price of the year is prorated over what is left of the month: half a month of the
    yearly plan costs half of the year, and the next bill is due when the month ends.  The
    move also makes an overdue subscription active. *)
Theorem yearly_upgrade_overcharges :
  let s := billing_run (λ _, 0) june_ops New in
  (Amount ∘ i_Amount <$> invoices s !! "i") = Some (14500 - 500) ∧
  (NextBillAt <$> subscriptions s !! "s") = Some (days_of_date 2023 7 1 * day_ns) ∧
  (s_Status <$> subscriptions (billing_run (λ _, 0) (take 2 june_ops) New) !! "s") = Some StatusPastDue ∧
  (s_Status <$> subscriptions s !! "s") = Some StatusActive.
Proof. vm_compute. done. Qed.

(** From 2^52 on, the addition of one half can round an amount up: all of it and one more. *)
Theorem prorate_credits_more : ∃ r,
  Prorate (λ _, 0) (NewMoney (2 ^ 52 + 1) "USD") (NewMoney 0 "USD") 0 (10 ^ 9) 0 = inr r ∧ Amount (Credit r) = 2 ^ 52 + 2.
Proof. eexists. split; [vm_compute; reflexivity|reflexivity]. Qed.
