(* ===== verification/Inventory.v ===== *)
(** * services/inventory: stock and reservations

    The in-memory store behind the inventory service.  [time.Now()] is the
    argument [now] of a method, [ctx.Err()] its argument [ctx]; the store maps a
    SKU to its record, and every record a method returns is a copy. *)

From S2P Require Import Prelude Errors.
From stdpp Require Import options.
Open Scope Z_scope.

(* src: services/inventory/internal/store/store.go 11-17 SKU *)
Record SKU := { sku_id : string; Quantity : Z; Reserved : Z; UpdatedAt : Z }.

(* src: services/inventory/internal/store/store.go 19-22 SKU.Available *)
Definition Available (s : SKU) : Z := i64 (Quantity s - Reserved s).

(** [Store] of [services/inventory/internal/store/store.go]. *)
Abbreviation Store := (gmap string SKU).

Abbreviation StoreM := (GoM error Store).

(* src: services/inventory/internal/store/store.go 30-33 New *)
Definition New : Store := ∅.

(* src: services/inventory/internal/store/store.go 129-132 cloneSKU *)
Definition cloneSKU (s : SKU) : SKU :=
  {| sku_id := sku_id s; Quantity := Quantity s; Reserved := Reserved s;
     UpdatedAt := UpdatedAt s |}.

(* src: services/inventory/internal/store/store.go 35-60 Upsert *)
Definition Upsert (ctx : option error) (now : Z) (sku : string) (quantity : Z) : StoreM SKU :=
  throw_some ctx;;
  throw_if (sku = "") (InvalidArgument "sku is required" None);;
  throw_if (quantity < 0) (InvalidArgument "quantity must be non-negative" None);;
  s ← get;
  rec ← match s !! sku with
        | Some rec => mret rec
        | None =>
            let rec := {| sku_id := sku; Quantity := 0; Reserved := 0;
                          UpdatedAt := zero_time |} in
            put (<[sku := rec]> s);; mret rec
        end;
  throw_if (quantity < Reserved rec)
    (FailedPrecondition "quantity cannot be less than reserved" None);;
  let rec := {| sku_id := sku_id rec; Quantity := quantity;
                Reserved := Reserved rec; UpdatedAt := now |} in
  s ← get;
  put (<[sku := rec]> s);;
  mret (cloneSKU rec).

(* src: services/inventory/internal/store/store.go 62-77 Get *)
Definition Get (ctx : option error) (sku : string) : StoreM SKU :=
  throw_some ctx;;
  throw_if (sku = "") (InvalidArgument "sku is required" None);;
  s ← get;
  rec ← unwrap (s !! sku) (NotFound "sku not found" None);
  mret (cloneSKU rec).

(* src: services/inventory/internal/store/store.go 79-102 Reserve *)
Definition Reserve (ctx : option error) (now : Z) (sku : string) (qty : Z) : StoreM SKU :=
  throw_some ctx;;
  throw_if (sku = "") (InvalidArgument "sku is required" None);;
  throw_if (qty ≤ 0) (InvalidArgument "qty must be positive" None);;
  s ← get;
  rec ← unwrap (s !! sku) (NotFound "sku not found" None);
  throw_if (Available rec < qty)
    (FailedPrecondition "insufficient available inventory" None);;
  let rec := {| sku_id := sku_id rec; Quantity := Quantity rec;
                Reserved := i64 (Reserved rec + qty); UpdatedAt := now |} in
  put (<[sku := rec]> s);;
  mret (cloneSKU rec).

(* src: services/inventory/internal/store/store.go 104-127 Release *)
Definition Release (ctx : option error) (now : Z) (sku : string) (qty : Z) : StoreM SKU :=
  throw_some ctx;;
  throw_if (sku = "") (InvalidArgument "sku is required" None);;
  throw_if (qty ≤ 0) (InvalidArgument "qty must be positive" None);;
  s ← get;
  rec ← unwrap (s !! sku) (NotFound "sku not found" None);
  throw_if (Reserved rec < qty)
    (FailedPrecondition "cannot release more than reserved" None);;
  let rec := {| sku_id := sku_id rec; Quantity := Quantity rec;
                Reserved := i64 (Reserved rec - qty); UpdatedAt := now |} in
  put (<[sku := rec]> s);;
  mret (cloneSKU rec).

(** ** Histories of the store *)

(** A call of one of the methods that change the store, with its [int64]
    argument. *)
Inductive call :=
  | CUpsert (ctx : option error) (now : Z) (sku : string) (quantity : Z)
  | CReserve (ctx : option error) (now : Z) (sku : string) (qty : Z)
  | CRelease (ctx : option error) (now : Z) (sku : string) (qty : Z).

Definition call_ok (c : call) : Prop :=
  match c with
  | CUpsert _ _ _ q | CReserve _ _ _ q | CRelease _ _ _ q => is_i64 q
  end.

#[global] Instance call_ok_dec c : Decision (call_ok c).
Proof. destruct c; simpl; apply _. Defined.

Definition run_call (c : call) : StoreM SKU :=
  match c with
  | CUpsert ctx now k q => Upsert ctx now k q
  | CReserve ctx now k q => Reserve ctx now k q
  | CRelease ctx now k q => Release ctx now k q
  end.

(** What a call that succeeded contributes to the reservation of [k]. *)
Definition contribution (c : call) (r : error + SKU) (k : string) : Z :=
  match c, r with
  | CReserve _ _ k' q, inr _ => if decide (k = k') then q else 0
  | CRelease _ _ k' q, inr _ => if decide (k = k') then - q else 0
  | _, _ => 0
  end.

(** Run a history, summing what its successful calls contribute to [k]. *)
Fixpoint run_calls (cs : list call) (k : string) (s : Store) : Z * Store :=
  match cs with
  | [] => (0, s)
  | c :: cs' =>
      let '(r, s') := run_call c s in
      let '(n, s'') := run_calls cs' k s' in
      (contribution c r k + n, s'')
  end.

Definition reserved_of (s : Store) (k : string) : Z :=
  match s !! k with Some r => Reserved r | None => 0 end.

(** ** Invariant *)

Definition sku_ok (k : string) (r : SKU) : Prop :=
  sku_id r = k ∧ 0 ≤ Reserved r ≤ Quantity r ∧ is_i64 (Quantity r).

#[global] Instance sku_ok_dec k r : Decision (sku_ok k r).
Proof. unfold sku_ok. apply _. Defined.

Definition store_ok (s : Store) : Prop := map_Forall sku_ok s.

Lemma Available_ok k r : sku_ok k r → Available r = Quantity r - Reserved r.
Proof. unfold sku_ok, Available. intros. go_lia. Qed.

Lemma store_ok_insert s k r : store_ok s → sku_ok k r → store_ok (<[k := r]> s).
Proof. intros. by apply map_Forall_insert_2. Qed.

#[local] Hint Resolve store_ok_insert : go_inv.

Lemma reserved_of_insert s k k' r :
  reserved_of (<[k := r]> s) k' = if decide (k' = k) then Reserved r else reserved_of s k'.
Proof.
  unfold reserved_of. case_decide; simplify_map_eq; done.
Qed.

(** One call keeps the invariant and changes the reservation of each SKU by its
    contribution. *)
Lemma inventory_run_call_ok c s k :
  store_ok s → call_ok c →
  store_ok (run_call c s).2 ∧
  reserved_of (run_call c s).2 k = contribution c (run_call c s).1 k + reserved_of s k.
Proof.
  intros Hs Hc. destruct c as [ctx now k' q|ctx now k' q|ctx now k' q]; simpl in Hc;
    cbv [run_call Upsert Reserve Release]; go_run; go_cases; try (split; [done|lia]);
    repeat match goal with
    | H : s !! _ = Some ?r |- _ =>
        lazymatch goal with
        | _ : sku_ok _ r |- _ => fail
        | _ => pose proof (Hs _ _ H)
        end
    end;
    try match goal with H : ¬ Available _ < _ |- _ => rewrite (Available_ok k') in H by done end;
    unfold sku_ok in *; destruct_and?; simpl in *.
  all: split;
    [repeat apply store_ok_insert; try done; unfold sku_ok; simpl;
     split_and!; try done; go_lia
    |rewrite !reserved_of_insert; unfold reserved_of in *; repeat case_decide; subst;
     simplify_map_eq; go_lia].
Qed.

(** ** Properties *)

(** C2. Stock is never oversold. After any history of [Upsert], [Reserve] and
    [Release] calls on a fresh store, successful or not, every SKU satisfies
    [0 <= Reserved <= Quantity], its [int64] arithmetic has never overflowed,
    and what is reserved is exactly the total of the reservations that
    succeeded minus the total of the releases that succeeded. *)
Theorem inventory_never_oversold cs k :
  Forall call_ok cs →
  let '(n, s) := run_calls cs k New in
  store_ok s ∧ reserved_of s k = n.
Proof.
  intros Hcs.
  enough (∀ s, store_ok s → let '(n, s') := run_calls cs k s in
    store_ok s' ∧ reserved_of s' k = n + reserved_of s k) as Hgen.
  { specialize (Hgen New). destruct (run_calls cs k New) as [n s].
    destruct Hgen as [? Hr]; [done|]. split; [done|].
    rewrite Hr. unfold reserved_of, New. rewrite lookup_empty. lia. }
  induction Hcs as [|c cs Hc Hcs IH]; intros s Hs; simpl; [split; [done|lia]|].
  pose proof (inventory_run_call_ok c s k Hs Hc) as [Hs' Hr].
  destruct (run_call c s) as [r s'] eqn:E. simpl in *.
  specialize (IH s' Hs'). destruct (run_calls cs k s') as [n s''].
  destruct IH as [? ->]. split; [done|]. lia.
Qed.

Lemma inventory_never_oversold_witness :
  let cs := [CUpsert None 1 "a" 10; CReserve None 2 "a" 7; CReserve None 3 "a" 4;
             CRelease None 4 "a" 2; CUpsert None 5 "a" 4] in
  let '(n, s) := run_calls cs "a" New in
  store_ok s ∧ reserved_of s "a" = n.
Proof. apply inventory_never_oversold. compute_decide. Defined.

(** [Reserve] does what it promises on every path. It succeeds exactly when
    the context is live, the SKU is named and known, the quantity is positive
    and no larger than the available stock; it then adds the quantity to that
    SKU's reservation, returns the updated record and touches no other SKU. On
    any other call it returns an error and leaves the store as it was. *)
Theorem Reserve_spec ctx now sku qty s :
  store_ok s → is_i64 qty →
  match Reserve ctx now sku qty s with
  | (inr r, s') =>
      ctx = None ∧ sku ≠ "" ∧ 0 < qty ∧
      (∃ r0, s !! sku = Some r0 ∧ qty ≤ Quantity r0 - Reserved r0 ∧
         Quantity r = Quantity r0 ∧ Reserved r = Reserved r0 + qty) ∧
      s' = <[sku := r]> s
  | (inl e, s') =>
      s' = s ∧
      (ctx = Some e ∨ sku = "" ∨ qty ≤ 0 ∨ s !! sku = None ∨
       ∃ r0, s !! sku = Some r0 ∧ Quantity r0 - Reserved r0 < qty)
  end.
Proof.
  intros Hs Hq. unfold Reserve. go_run. go_cases; eauto 10.
  - match goal with H : s !! sku = Some ?r |- _ => pose proof (Hs _ _ H) as Hr end.
    split; [done|]. rewrite (Available_ok sku) in * by done. eauto 10.
  - match goal with H : s !! sku = Some ?r |- _ => pose proof (Hs _ _ H) as Hr end.
    rewrite (Available_ok sku) in * by done. unfold sku_ok in *.
    split_and!; [done|done|lia| |done].
    eexists; split_and!; [done|lia|done|simpl; go_lia].
Qed.

Lemma Reserve_spec_witness :
  match Reserve None 9 "a" 3 {["a" := {| sku_id := "a"; Quantity := 5; Reserved := 1; UpdatedAt := 0 |}]} with
  | (inr r, s') => Reserved r = 4 ∧ s' = {["a" := r]}
  | _ => False
  end.
Proof.
  pose proof (Reserve_spec None 9 "a" 3
    {["a" := {| sku_id := "a"; Quantity := 5; Reserved := 1; UpdatedAt := 0 |}]}) as H.
  destruct (Reserve _ _ _ _ _) as [[e|r] s'] eqn:E.
  - vm_compute in E. discriminate E.
  - destruct H as (_ & _ & _ & (r0 & H1 & _ & _ & H2) & H3).
    + apply map_Forall_singleton. compute_decide.
    + compute_decide.
    + rewrite lookup_singleton_eq in H1. injection H1 as <-. split; [done|].
      rewrite H3. apply insert_singleton_eq.
Defined.
