(* ===== verification/Order.v ===== *)
(** * services/order: the order store

    Validation and totalling of new orders, and the order lifecycle.
    [uuid.NewString()] is the argument [uid] of [Create]. *)

From S2P Require Import Prelude GoStrings Errors Money.
From stdpp Require Import options.
Open Scope Z_scope.

(* src: services/order/internal/store/store.go 13-21 Status *)
Inductive Status := StatusPending | StatusPaid | StatusCancelled | StatusFulfilled.

#[global] Instance Status_eq_dec : EqDecision Status.
Proof. solve_decision. Defined.

(* src: services/order/internal/store/store.go 23-29 Item *)
Record Item := { SKU : string; Qty : Z; AmountMinor : Z; ItemCurrency : string }.

(* src: services/order/internal/store/store.go 31-41 Order *)
Record Order := {
  ID : string; CustomerID : string; Items : list Item; OrderCurrency : string;
  TotalMinor : Z; OStatus : Status; CreatedAt : Z; UpdatedAt : Z }.

(* src: services/order/internal/store/store.go 43-48 CreateInput *)
Record CreateInput := { in_CustomerID : string; in_Items : list Item; in_Currency : string }.

(** [Store] of [services/order/internal/store/store.go]. *)
Abbreviation Store := (gmap string Order).
Abbreviation StoreM := (GoM error Store).

(* src: services/order/internal/store/store.go 56-59 New *)
Definition New : Store := ∅.

(* src: services/order/internal/store/store.go 183-190 cloneOrder *)
Definition cloneOrder (o : Order) : Order := o.

(** The loop of [Create] over the items of the input: the running total and the
    normalised items, or the error of the first item that is refused. *)
(* src: services/order/internal/store/store.go 79-107 total *)
Fixpoint items_loop (currency : string) (its : list Item) (total : Money)
    (items : list Item) : error + (Money * list Item) :=
  match its with
  | [] => inr (total, items)
  | it :: its' =>
      if decide (SKU it = "") then
        inl (InvalidArgument "items[].sku is required" None)
      else if decide (Qty it ≤ 0) then
        inl (InvalidArgument "items[].qty must be positive" None)
      else
        let itemCurrency :=
          if decide (ItemCurrency it = "") then currency else ItemCurrency it in
        let line := NewMoney (AmountMinor it) itemCurrency in
        if negb (SameCurrency line total) then
          inl (InvalidArgument "item currency must match order currency" None)
        else
          let lineTotal := NewMoney (i64 (Amount line * Qty it)) (Currency line) in
          match Add total lineTotal with
          | inl e => inl e
          | inr total' =>
              items_loop currency its' total'
                (items ++ [{| SKU := SKU it; Qty := Qty it;
                              AmountMinor := Amount line;
                              ItemCurrency := Currency line |}])
          end
  end.

(* src: services/order/internal/store/store.go 61-125 Create *)
Definition Create (ctx : option error) (uid : string) (now : Z) (inp : CreateInput)
    : StoreM Order :=
  throw_some ctx;;
  throw_if (in_CustomerID inp = "") (InvalidArgument "customer_id is required" None);;
  throw_if (in_Currency inp = "") (InvalidArgument "currency is required" None);;
  throw_if (in_Items inp = []) (InvalidArgument "items are required" None);;
  let currency := Currency (NewMoney 0 (in_Currency inp)) in
  '(total, items) ← lift (items_loop currency (in_Items inp) (Zero currency) []);
  let o := {| ID := uid; CustomerID := in_CustomerID inp; Items := items;
              OrderCurrency := currency; TotalMinor := Amount total;
              OStatus := StatusPending; CreatedAt := now; UpdatedAt := now |} in
  s ← get;
  put (<[uid := o]> s);;
  mret (cloneOrder o).

(* src: services/order/internal/store/store.go 127-142 Get *)
Definition Get (ctx : option error) (id : string) : StoreM Order :=
  throw_some ctx;;
  throw_if (id = "") (InvalidArgument "id is required" None);;
  s ← get;
  o ← unwrap (s !! id) (NotFound "order not found" None);
  mret (cloneOrder o).

(** The order in which Go ranges over a map is unspecified; the list below is
    one of the possible ones. *)
(* src: services/order/internal/store/store.go 144-156 List *)
Definition List (ctx : option error) : StoreM (list Order) :=
  throw_some ctx;;
  s ← get;
  mret (cloneOrder <$> (map_to_list s).*2).

Definition set_status (st : Status) (now : Z) (o : Order) : Order :=
  {| ID := ID o; CustomerID := CustomerID o; Items := Items o;
     OrderCurrency := OrderCurrency o; TotalMinor := TotalMinor o;
     OStatus := st; CreatedAt := CreatedAt o; UpdatedAt := now |}.

(* src: services/order/internal/store/store.go 158-181 Cancel *)
Definition Cancel (ctx : option error) (now : Z) (id : string) : StoreM Order :=
  throw_some ctx;;
  throw_if (id = "") (InvalidArgument "id is required" None);;
  s ← get;
  o ← unwrap (s !! id) (NotFound "order not found" None);
  match OStatus o with
  | StatusCancelled => throw (Conflict "order already cancelled" None)
  | StatusFulfilled =>
      throw (FailedPrecondition "fulfilled order cannot be cancelled" None)
  | _ =>
      let o := set_status StatusCancelled now o in
      put (<[id := o]> s);;
      mret (cloneOrder o)
  end.

(** ** Totals *)

(** The price of a line, and the items an order in [currency] accepts. *)
Definition line_price (it : Item) : Z := AmountMinor it * Qty it.

Definition item_ok (currency : string) (it : Item) : Prop :=
  SKU it ≠ "" ∧ 0 < Qty it ∧
  (ItemCurrency it = "" ∨ ToUpper (TrimSpace (ItemCurrency it)) = currency).

(** The item as the order records it. *)
Definition norm_item (currency : string) (it : Item) : Item :=
  {| SKU := SKU it; Qty := Qty it; AmountMinor := AmountMinor it;
     ItemCurrency := currency |}.

#[global] Instance item_ok_dec currency it : Decision (item_ok currency it).
Proof. unfold item_ok. apply _. Defined.

(** The currency test of the loop, and the line it lets through. *)
Lemma item_line currency it t :
  normal currency →
  let line := NewMoney (AmountMinor it)
    (if decide (ItemCurrency it = "") then currency else ItemCurrency it) in
  SameCurrency line (NewMoney t currency) =
    bool_decide (ItemCurrency it = "" ∨ ToUpper (TrimSpace (ItemCurrency it)) = currency) ∧
  (SameCurrency line (NewMoney t currency) = true →
   line = NewMoney (AmountMinor it) currency).
Proof.
  intros Hn. simpl. rewrite SameCurrency_normal by apply NewMoney_normal. simpl.
  rewrite Hn. split.
  - apply bool_decide_ext. case_decide; naive_solver.
  - intros H%bool_decide_eq_true. unfold NewMoney. by rewrite H, Hn.
Qed.

Lemma items_loop_spec currency its t items :
  normal currency → currency ≠ "" →
  match items_loop currency its (NewMoney (i64 t) currency) items with
  | inr (total, items') =>
      Forall (item_ok currency) its ∧
      total = NewMoney (i64 (t + sumZ (line_price <$> its))) currency ∧
      items' = items ++ (norm_item currency <$> its)
  | inl e => ¬ Forall (item_ok currency) its ∧ Code (Some e) = CodeInvalidArgument
  end.
Proof.
  intros Hn Hne. revert t items.
  induction its as [|it its IH]; intros t items; cbn [items_loop]; cbv zeta.
  { simpl. by rewrite Z.add_0_r, app_nil_r. }
  case_decide; [by split; [rewrite Forall_cons; unfold item_ok; naive_solver|]|].
  case_decide; [by split; [rewrite Forall_cons; unfold item_ok; naive_solver lia|]|].
  destruct (item_line currency it (i64 t) Hn) as [Hc Hl].
  destruct (SameCurrency _ _) eqn:Hs; cbn [negb].
  2:{ split; [|done]. symmetry in Hc. apply bool_decide_eq_false in Hc.
      rewrite Forall_cons. unfold item_ok. naive_solver. }
  symmetry in Hc. apply bool_decide_eq_true in Hc. rewrite Hl by done. simpl.
  rewrite Hn, Add_same by done. autorewrite with go_int.
  specialize (IH (t + line_price it) (items ++ [norm_item currency it])).
  unfold norm_item at 1, line_price at 1 in IH. 
  destruct (items_loop _ _ _ _) as [e|[total items']].
  - destruct IH as [IH ?]. split; [|done]. by rewrite Forall_cons; intros [??].
  - destruct IH as (IH & -> & ->). rewrite Forall_cons.
    split_and!; [by unfold item_ok; split_and!; [|lia|]|done|..].
    + f_equal. f_equal. simpl. by rewrite Z.add_assoc.
    + by rewrite <- app_assoc.
Qed.

(** A whitespace-only currency normalises to the empty one, which [Money.Add]
    refuses at the first item. *)
Lemma items_loop_empty_currency its t items :
  its ≠ [] →
  ∃ e, items_loop "" its (NewMoney t "") items = inl e ∧
       Code (Some e) = CodeInvalidArgument.
Proof.
  destruct its as [|it its]; [done|]; intros _; simpl. repeat case_decide; eauto.
  all: destruct (negb _); eauto. all: unfold Add; rewrite decide_True; eauto.
Qed.

Lemma normalise_empty c : ToUpper (TrimSpace c) = "" ↔ TrimSpace c = "".
Proof. by destruct (TrimSpace c). Qed.

(** ** Histories *)

Inductive call :=
  | CCreate (ctx : option error) (uid : string) (now : Z) (inp : CreateInput)
  | CCancel (ctx : option error) (now : Z) (id : string).

Definition run_call (c : call) : StoreM Order :=
  match c with
  | CCreate ctx uid now inp => Create ctx uid now inp
  | CCancel ctx now id => Cancel ctx now id
  end.

Definition run_calls (cs : list call) (s : Store) : Store :=
  fold_left (λ s c, exec (run_call c) s) cs s.

(** The identifiers a history generates. *)
Definition uids (cs : list call) : list string :=
  omap (λ c, match c with CCreate _ uid _ _ => Some uid | _ => None end) cs.

(** An order as the store keeps it: stored under its own identifier, in a
    normalised non-empty currency, its items in that currency with positive
    quantities, and its total the sum of its lines. *)
Definition order_ok (id : string) (o : Order) : Prop :=
  ID o = id ∧ CustomerID o ≠ "" ∧ normal (OrderCurrency o) ∧ OrderCurrency o ≠ "" ∧
  Items o ≠ [] ∧
  Forall (λ it, SKU it ≠ "" ∧ 0 < Qty it ∧ ItemCurrency it = OrderCurrency o) (Items o) ∧
  TotalMinor o = i64 (sumZ (line_price <$> Items o)) ∧
  (OStatus o = StatusPending ∨ OStatus o = StatusCancelled).

Definition store_ok (s : Store) : Prop := map_Forall order_ok s.

(** How an order evolves: a pending order may be cancelled; a cancelled order
    and every other field never change. *)
Definition evolves (o o' : Order) : Prop :=
  o' = o ∨ OStatus o = StatusPending ∧ ∃ now, o' = set_status StatusCancelled now o.

(** The order [Create] builds from an accepted input. *)
Definition new_order (uid : string) (now : Z) (inp : CreateInput) : Order :=
  let currency := ToUpper (TrimSpace (in_Currency inp)) in
  {| ID := uid; CustomerID := in_CustomerID inp;
     Items := norm_item currency <$> in_Items inp; OrderCurrency := currency;
     TotalMinor := i64 (sumZ (line_price <$> in_Items inp));
     OStatus := StatusPending; CreatedAt := now; UpdatedAt := now |}.

Definition input_ok (inp : CreateInput) : Prop :=
  in_CustomerID inp ≠ "" ∧ TrimSpace (in_Currency inp) ≠ "" ∧ in_Items inp ≠ [] ∧
  Forall (item_ok (ToUpper (TrimSpace (in_Currency inp)))) (in_Items inp).

Lemma Create_cases ctx uid now inp s :
  (ctx = None ∧ input_ok inp ∧
   Create ctx uid now inp s =
     (inr (new_order uid now inp), <[uid := new_order uid now inp]> s)) ∨
  (∃ e, Create ctx uid now inp s = (inl e, s) ∧
    (ctx = Some e ∨ ctx = None ∧ ¬ input_ok inp ∧ Code (Some e) = CodeInvalidArgument)).
Proof.
  unfold Create, input_ok. go_run.
  assert (in_Currency inp = "" → TrimSpace (in_Currency inp) = "") by by intros ->.
  destruct ctx as [e|]; [right; eauto|].
  do 3 (case_decide; simpl; [right; eexists; split; [done|right; intuition]|]).
  set (currency := ToUpper (TrimSpace (in_Currency inp))).
  assert (normal currency) as Hn by apply normal_normalise.
  destruct (decide (TrimSpace (in_Currency inp) = "")) as [He|He].
  - subst currency. rewrite He. simpl.
    destruct (items_loop_empty_currency (in_Items inp) 0 []) as (e & He' & ?); [done|].
    unfold Zero. rewrite He'. right. eexists; split; [done|]. right. naive_solver.
  - assert (currency ≠ "") by by (unfold currency; rewrite normalise_empty).
    pose proof (items_loop_spec currency (in_Items inp) 0 [] Hn) as Hl.
    unfold Zero. change (i64 0) with 0 in Hl.
    destruct (items_loop _ _ _ _) as [e|[total items]]; simpl.
    + destruct Hl as [??]; [done|].
      right. eexists; split; [done|]. right. naive_solver.
    + destruct Hl as (? & -> & ->); [done|]. by left.
Qed.

Lemma new_order_ok uid now inp : input_ok inp → order_ok uid (new_order uid now inp).
Proof.
  intros (? & Hc & ? & Hits). unfold order_ok, new_order. simpl.
  split_and!; [done|done|apply normal_normalise|by rewrite normalise_empty| | | |by left].
  - by destruct (in_Items inp).
  - rewrite Forall_fmap. eapply Forall_impl; [done|]. intros it (?&?&?). done.
  - do 2 f_equal. rewrite <- list_fmap_compose. done.
Qed.

Lemma Cancel_cases ctx now id s :
  (∃ o, s !! id = Some o ∧ OStatus o ≠ StatusCancelled ∧ OStatus o ≠ StatusFulfilled ∧
    Cancel ctx now id s = (inr (set_status StatusCancelled now o),
                           <[id := set_status StatusCancelled now o]> s)) ∨
  (∃ e, Cancel ctx now id s = (inl e, s)).
Proof.
  unfold Cancel, cloneOrder. go_run. go_cases; eauto.
  all: left; eexists; split_and!; [done| | |done]; congruence.
Qed.

Lemma order_run_call_ok c s : store_ok s → store_ok (exec (run_call c) s).
Proof.
  intros Hs. unfold exec. destruct c as [ctx uid now inp|ctx now id]; simpl.
  - destruct (Create_cases ctx uid now inp s) as [(_ & Hi & ->)|(e & -> & _)]; [|done].
    apply map_Forall_insert_2; [by apply new_order_ok|done].
  - destruct (Cancel_cases ctx now id s) as [(o & Ho & _ & _ & ->)|(e & ->)]; [|done].
    apply map_Forall_insert_2; [|done].
    destruct (Hs _ _ Ho) as (?&?&?&?&?&?&?&?). by split_and!; [..|right].
Qed.

(** A call leaves the orders it does not create alone, up to cancellation. *)
Lemma run_call_evolves c s id o :
  store_ok s → s !! id = Some o → id ∉ uids [c] →
  ∃ o', exec (run_call c) s !! id = Some o' ∧ evolves o o'.
Proof.
  intros Hs Ho Hid. unfold exec. destruct c as [ctx uid now inp|ctx now id']; simpl in *.
  - destruct (Create_cases ctx uid now inp s) as [(_ & _ & ->)|(e & -> & _)].
    + simpl. rewrite lookup_insert_ne by set_solver. exists o. split; [done|by left].
    + exists o. split; [done|by left].
  - destruct (Cancel_cases ctx now id' s) as [(o' & Ho' & Hs1 & Hs2 & ->)|(e & ->)];
      [|exists o; split; [done|by left]].
    destruct (decide (id = id')) as [->|?].
    + simpl. rewrite lookup_insert_eq. simplify_eq. eexists. split; [done|]. right.
      destruct (Hs _ _ Ho) as (_&_&_&_&_&_&_&[?|?]); [eauto|done].
    + simpl. rewrite lookup_insert_ne by done. exists o. split; [done|by left].
Qed.

Lemma evolves_trans o1 o2 o3 : evolves o1 o2 → evolves o2 o3 → evolves o1 o3.
Proof. unfold evolves. intros [->|[? (?&->)]] [->|[? (?&->)]]; naive_solver. Qed.

Lemma run_calls_evolves cs s id o :
  store_ok s → s !! id = Some o → id ∉ uids cs →
  ∃ o', run_calls cs s !! id = Some o' ∧ evolves o o'.
Proof.
  revert s o. induction cs as [|c cs IH]; intros s o Hs Ho Hid; simpl.
  { exists o. split; [done|by left]. }
  assert (id ∉ uids [c] ∧ id ∉ uids cs) as [Hid1 Hid2] by (destruct c; set_solver).
  destruct (run_call_evolves c s id o) as (o1 & Ho1 & ?); [done..|].
  destruct (IH _ o1 (order_run_call_ok c s Hs) Ho1) as (o2 & ? & ?); [done|].
  exists o2. split; [done|by eapply evolves_trans].
Qed.

(** ** Properties *)

(** [Create] accepts exactly the well-formed inputs: a customer, a currency
    that is not blank, at least one item, each with a SKU, a positive quantity
    and either no currency or the order's own up to case and surrounding space.
    The accepted order is pending, records the items in the normalised currency
    and totals [amount * qty] over them exactly up to the wrap of [int64]; it is
    stored under the fresh identifier.  A refusal leaves the store as it was and
    is classified as an invalid argument unless the context had ended. *)
Theorem order_Create_spec ctx uid now inp s :
  (ctx = None ∧ input_ok inp ∧
   Create ctx uid now inp s =
     (inr (new_order uid now inp), <[uid := new_order uid now inp]> s)) ∨
  (∃ e, Create ctx uid now inp s = (inl e, s) ∧
    (ctx = Some e ∨ ctx = None ∧ ¬ input_ok inp ∧ Code (Some e) = CodeInvalidArgument)).
Proof. apply Create_cases. Qed.

(** Over any history of calls whose generated identifiers are fresh for an
    order, that order never changes except that a pending one may become
    cancelled, once; and every order of the store stays well formed. *)
Theorem order_lifecycle cs cs' id o :
  let s := run_calls cs New in
  s !! id = Some o → id ∉ uids cs' →
  order_ok id o ∧ ∃ o', run_calls cs' s !! id = Some o' ∧ evolves o o' ∧ order_ok id o'.
Proof.
  intros s Ho Hid.
  assert (∀ cs s, store_ok s → store_ok (run_calls cs s)) as Hrun.
  { clear. intros cs. induction cs; simpl; auto using order_run_call_ok. }
  assert (store_ok s) as Hs by (apply Hrun, map_Forall_empty).
  split; [by apply Hs|].
  destruct (run_calls_evolves cs' s id o) as (o' & Ho' & ?); [done..|].
  exists o'. split_and!; [done..|]. by apply (Hrun cs' s).
Qed.

Definition sample_input : CreateInput :=
  {| in_CustomerID := "c1"; in_Currency := " usd ";
     in_Items := [{| SKU := "tea"; Qty := 3; AmountMinor := 250; ItemCurrency := "USD" |};
                  {| SKU := "mug"; Qty := 1; AmountMinor := 1200; ItemCurrency := "" |}] |}.

Lemma order_lifecycle_witness :
  let s := run_calls [CCreate None "o1" 5 sample_input] New in
  order_ok "o1" (new_order "o1" 5 sample_input) ∧
  ∃ o', run_calls [CCancel None 9 "o1"; CCreate None "o2" 9 sample_input] s !! "o1" = Some o' ∧
        evolves (new_order "o1" 5 sample_input) o' ∧ order_ok "o1" o'.
Proof. apply (order_lifecycle [_] [_; _]); [vm_compute; reflexivity|compute_decide]. Defined.
