(* ===== verification/Cart.v ===== *)
(** * services/cart: the cart store

    Lines of a cart are kept in a slice in which a SKU is looked up by scanning.
    The specification below sees a cart as a finite map from SKUs to lines; the
    store refines it. *)

From S2P Require Import Prelude GoStrings Errors Money.
From stdpp Require Import options.
Open Scope Z_scope.

(* src: services/cart/internal/store/store.go 13-19 Item *)
Record Item := { SKU : string; Qty : Z; AmountMinor : Z; ItemCurrency : string }.

(* src: services/cart/internal/store/store.go 21-28 Cart *)
Record Cart := {
  ID : string; UserID : string; Items : list Item; CreatedAt : Z; UpdatedAt : Z }.

(* src: services/cart/internal/store/store.go 30-38 CheckoutResult *)
Record CheckoutResult := {
  out_CartID : string; out_UserID : string; out_Items : list Item;
  out_Currency : string; out_TotalMinor : Z; CheckedOut : Z }.

(* src: services/cart/internal/store/store.go 40-46 AddItemInput *)
Record AddItemInput := {
  in_SKU : string; in_Qty : Z; in_AmountMinor : Z; in_Currency : string }.

(** [Store] of [services/cart/internal/store/store.go]. *)
Abbreviation Store := (gmap string Cart).
Abbreviation StoreM := (GoM error Store).

(* src: services/cart/internal/store/store.go 54-57 New *)
Definition New : Store := ∅.

(* src: services/cart/internal/store/store.go 219-226 cloneCart *)
Definition cloneCart (c : Cart) : Cart :=
  {| ID := ID c; UserID := UserID c; Items := Items c;
     CreatedAt := CreatedAt c; UpdatedAt := UpdatedAt c |}.

(* src: services/cart/internal/store/store.go 59-76 Create *)
Definition Create (ctx : option error) (uid : string) (now : Z) (userID : string)
    : StoreM Cart :=
  throw_some ctx;;
  let c := {| ID := uid; UserID := userID; Items := []; CreatedAt := now;
              UpdatedAt := now |} in
  s ← get;
  put (<[uid := c]> s);;
  mret (cloneCart c).

(* src: services/cart/internal/store/store.go 78-93 Get *)
Definition Get (ctx : option error) (id : string) : StoreM Cart :=
  throw_some ctx;;
  throw_if (id = "") (InvalidArgument "id is required" None);;
  s ← get;
  c ← unwrap (s !! id) (NotFound "cart not found" None);
  mret (cloneCart c).

Definition with_items (items : list Item) (now : Z) (c : Cart) : Cart :=
  {| ID := ID c; UserID := UserID c; Items := items; CreatedAt := CreatedAt c;
     UpdatedAt := now |}.

(** The scan of [AddItem]: [None] when no line has the SKU, else the error or
    the updated lines. *)
(* src: services/cart/internal/store/store.go 120-130 c.Items *)
Fixpoint add_loop (inp : AddItemInput) (money : Money) (items : list Item)
    : option (error + list Item) :=
  match items with
  | [] => None
  | it :: items' =>
      if decide (SKU it = in_SKU inp) then
        Some (if negb (SameCurrency (NewMoney (AmountMinor it) (ItemCurrency it)) money)
              then inl (InvalidArgument "currency mismatch for existing sku" None)
              else inr ({| SKU := SKU it; Qty := i64 (Qty it + in_Qty inp);
                           AmountMinor := Amount money;
                           ItemCurrency := ItemCurrency it |} :: items'))
      else (λ r, match r with inl e => inl e | inr l => inr (it :: l) end)
             <$> add_loop inp money items'
  end.

(* src: services/cart/internal/store/store.go 95-139 AddItem *)
Definition AddItem (ctx : option error) (now : Z) (cartID : string) (inp : AddItemInput)
    : StoreM Cart :=
  throw_some ctx;;
  throw_if (cartID = "") (InvalidArgument "id is required" None);;
  throw_if (in_SKU inp = "") (InvalidArgument "sku is required" None);;
  throw_if (in_Qty inp ≤ 0) (InvalidArgument "qty must be positive" None);;
  throw_if (in_Currency inp = "") (InvalidArgument "currency is required" None);;
  let money := NewMoney (in_AmountMinor inp) (in_Currency inp) in
  s ← get;
  c ← unwrap (s !! cartID) (NotFound "cart not found" None);
  items ← lift (match add_loop inp money (Items c) with
                | Some r => r
                | None =>
                    inr (Items c ++ [{| SKU := in_SKU inp; Qty := in_Qty inp;
                                        AmountMinor := Amount money;
                                        ItemCurrency := Currency money |}])
                end);
  let c := with_items items now c in
  put (<[cartID := c]> s);;
  mret (cloneCart c).

(** The loop of [RemoveItem]: whether the SKU was found, and the other lines. *)
(* src: services/cart/internal/store/store.go 158-166 found *)
Fixpoint remove_loop (sku : string) (items : list Item) (found : bool) (next : list Item)
    : bool * list Item :=
  match items with
  | [] => (found, next)
  | it :: items' =>
      if decide (SKU it = sku) then remove_loop sku items' true next
      else remove_loop sku items' found (next ++ [it])
  end.

(* src: services/cart/internal/store/store.go 141-173 RemoveItem *)
Definition RemoveItem (ctx : option error) (now : Z) (cartID sku : string) : StoreM Cart :=
  throw_some ctx;;
  throw_if (cartID = "") (InvalidArgument "id is required" None);;
  throw_if (sku = "") (InvalidArgument "sku is required" None);;
  s ← get;
  c ← unwrap (s !! cartID) (NotFound "cart not found" None);
  let '(found, next) := remove_loop sku (Items c) false [] in
  throw_if (found = false) (NotFound "cart item not found" None);;
  let c := with_items next now c in
  put (<[cartID := c]> s);;
  mret (cloneCart c).

(* src: services/cart/internal/store/store.go 197-207 total *)
Fixpoint total_loop (items : list Item) (total : Money) : error + Money :=
  match items with
  | [] => inr total
  | it :: items' =>
      let line := NewMoney (i64 (AmountMinor it * Qty it)) (ItemCurrency it) in
      if negb (SameCurrency line total) then
        inl (InvalidArgument "cart items have mixed currencies" None)
      else match Add total line with
           | inl e => inl e
           | inr total' => total_loop items' total'
           end
  end.

(* src: services/cart/internal/store/store.go 175-217 Checkout *)
Definition Checkout (ctx : option error) (now : Z) (cartID : string)
    : StoreM CheckoutResult :=
  throw_some ctx;;
  throw_if (cartID = "") (InvalidArgument "id is required" None);;
  s ← get;
  c ← unwrap (s !! cartID) (NotFound "cart not found" None);
  match Items c with
  | [] => throw (FailedPrecondition "cart is empty" None)
  | it0 :: _ =>
      let currency := ItemCurrency it0 in
      total ← lift (total_loop (Items c) (Zero currency));
      mret {| out_CartID := ID c; out_UserID := UserID c; out_Items := Items c;
              out_Currency := currency; out_TotalMinor := Amount total;
              CheckedOut := now |}
  end.

(** ** The specification: a cart is a map from SKUs to lines *)

Definition lines (items : list Item) : gmap string Item :=
  list_to_map ((λ it, (SKU it, it)) <$> items).

Abbreviation Spec := (gmap string (gmap string Item)).

Definition abs (s : Store) : Spec := (λ c, lines (Items c)) <$> s.

Definition fail_code (ctx : option error) : string :=
  match ctx with Some e => Code (Some e) | None => CodeInvalidArgument end.

Definition new_line (inp : AddItemInput) : Item :=
  {| SKU := in_SKU inp; Qty := in_Qty inp; AmountMinor := in_AmountMinor inp;
     ItemCurrency := ToUpper (TrimSpace (in_Currency inp)) |}.
Definition more (inp : AddItemInput) (it : Item) : Item :=
  {| SKU := SKU it; Qty := i64 (Qty it + in_Qty inp);
     AmountMinor := in_AmountMinor inp; ItemCurrency := ItemCurrency it |}.

(** Each step answers with the code of its error, if any. *)
Definition spec_AddItem (ctx : option error) (cartID : string) (inp : AddItemInput)
    (m : Spec) : option string * Spec :=
  if decide (ctx = None ∧ cartID ≠ "" ∧ in_SKU inp ≠ "" ∧ 0 < in_Qty inp ∧
             in_Currency inp ≠ "") then
    match m !! cartID with
    | None => (Some CodeNotFound, m)
    | Some ls =>
        match ls !! in_SKU inp with
        | None => (None, <[cartID := <[in_SKU inp := new_line inp]> ls]> m)
        | Some it =>
            if decide (ItemCurrency it = ToUpper (TrimSpace (in_Currency inp)))
            then (None, <[cartID := <[in_SKU inp := more inp it]> ls]> m)
            else (Some CodeInvalidArgument, m)
        end
    end
  else (Some (fail_code ctx), m).

Definition spec_RemoveItem (ctx : option error) (cartID sku : string) (m : Spec)
    : option string * Spec :=
  if decide (ctx = None ∧ cartID ≠ "" ∧ sku ≠ "") then
    match m !! cartID with
    | None => (Some CodeNotFound, m)
    | Some ls =>
        match ls !! sku with
        | None => (Some CodeNotFound, m)
        | Some _ => (None, <[cartID := delete sku ls]> m)
        end
    end
  else (Some (fail_code ctx), m).

Inductive call :=
  | CCreate (ctx : option error) (uid : string) (now : Z) (userID : string)
  | CAddItem (ctx : option error) (now : Z) (cartID : string) (inp : AddItemInput)
  | CRemoveItem (ctx : option error) (now : Z) (cartID sku : string).

Definition run_call (c : call) : StoreM Cart :=
  match c with
  | CCreate ctx uid now userID => Create ctx uid now userID
  | CAddItem ctx now id inp => AddItem ctx now id inp
  | CRemoveItem ctx now id sku => RemoveItem ctx now id sku
  end.

Definition spec_call (c : call) (m : Spec) : option string * Spec :=
  match c with
  | CCreate ctx uid _ _ =>
      match ctx with
      | Some e => (Some (Code (Some e)), m)
      | None => (None, <[uid := ∅]> m)
      end
  | CAddItem ctx _ id inp => spec_AddItem ctx id inp m
  | CRemoveItem ctx _ id sku => spec_RemoveItem ctx id sku m
  end.

Definition code_of {A} (r : error + A) : option string :=
  match r with inl e => Some (Code (Some e)) | inr _ => None end.

(** Run a history, recording the code of every answer. *)
Fixpoint run_calls (cs : list call) (s : Store) : list (option string) * Store :=
  match cs with
  | [] => ([], s)
  | c :: cs' =>
      let '(r, s') := run_call c s in
      let '(rs, s'') := run_calls cs' s' in (code_of r :: rs, s'')
  end.

Fixpoint spec_calls (cs : list call) (m : Spec) : list (option string) * Spec :=
  match cs with
  | [] => ([], m)
  | c :: cs' =>
      let '(r, m') := spec_call c m in
      let '(rs, m'') := spec_calls cs' m' in (r :: rs, m'')
  end.

(** ** Representation invariant *)

Definition cart_ok (c : Cart) : Prop :=
  NoDup (SKU <$> Items c) ∧ Forall (λ it, normal (ItemCurrency it)) (Items c).
Definition store_ok (s : Store) : Prop := map_Forall (λ _, cart_ok) s.

Lemma lines_cons it items : lines (it :: items) = <[SKU it := it]> (lines items).
Proof. done. Qed.

Lemma lines_None items sku : lines items !! sku = None ↔ sku ∉ SKU <$> items.
Proof.
  unfold lines. rewrite <- not_elem_of_list_to_map, <- list_fmap_compose. done.
Qed.

Lemma lines_snoc it items :
  SKU it ∉ SKU <$> items → lines (items ++ [it]) = <[SKU it := it]> (lines items).
Proof.
  intros Hn. unfold lines. rewrite fmap_app, list_to_map_app. simpl.
  apply map_eq. intros k. rewrite lookup_union.
  destruct (decide (k = SKU it)) as [->|?].
  - rewrite !lookup_insert_eq. apply lines_None in Hn. unfold lines in Hn. by rewrite Hn.
  - rewrite !lookup_insert_ne, lookup_empty by done. by rewrite (right_id_L None _).
Qed.

Lemma add_loop_spec inp items :
  cart_ok {| ID := ""; UserID := ""; Items := items; CreatedAt := 0; UpdatedAt := 0 |} →
  let money := NewMoney (in_AmountMinor inp) (in_Currency inp) in
  match add_loop inp money items with
  | None => lines items !! in_SKU inp = None
  | Some r => ∃ it, lines items !! in_SKU inp = Some it ∧ SKU it = in_SKU inp ∧
      match r with
      | inl e => ItemCurrency it ≠ Currency money ∧ Code (Some e) = CodeInvalidArgument
      | inr items' => ItemCurrency it = Currency money ∧
          lines items' = <[in_SKU inp := more inp it]> (lines items) ∧
          SKU <$> items' = SKU <$> items ∧
          (Forall (λ it, normal (ItemCurrency it)) items')
      end
  end.
Proof.
  intros [Hnd Hn] money. simpl in *.
  induction items as [|it items IH]; simpl; [done|]. rewrite !lines_cons.
  apply NoDup_cons in Hnd as [Hin Hnd]. apply Forall_cons in Hn as [Hc Hn].
  case_decide as Hsku.
  - exists it. rewrite Hsku, lookup_insert_eq. do 2 (split; [done|]).
    rewrite SameCurrency_normal by apply NewMoney_normal. simpl. rewrite Hc.
    case_bool_decide; simpl; [|done]. split_and!; [done| |done|by constructor].
    rewrite lines_cons. simpl. rewrite insert_insert_eq. unfold more. by rewrite Hsku.
  - rewrite lookup_insert_ne by done. specialize (IH Hnd Hn).
    destruct (add_loop inp money items) as [[e|items']|]; simpl; [done| |done].
    destruct IH as (it' & ? & ? & ? & Hl & ? & ?). exists it'.
    rewrite lines_cons, Hl. split_and!; [done..| |by f_equal|by constructor].
    by rewrite insert_insert_ne.
Qed.

Lemma remove_loop_spec sku items found next :
  remove_loop sku items found next =
    (found || bool_decide (sku ∈ SKU <$> items), next ++ filter (λ it, SKU it ≠ sku) items).
Proof.
  revert found next. induction items as [|it items IH]; intros found next;
    cbn [remove_loop].
  { rewrite bool_decide_false by apply not_elem_of_nil. by rewrite orb_false_r, app_nil_r. }
  rewrite fmap_cons, filter_cons.
  destruct (decide (SKU it = sku)) as [Hs|Hs]; rewrite IH.
  - rewrite (bool_decide_true (sku ∈ SKU it :: _)) by (rewrite elem_of_cons; auto).
    rewrite decide_False by (intros ?; done). by rewrite orb_true_r.
  - rewrite decide_True by done. rewrite <- app_assoc. simpl. f_equal. f_equal.
    apply bool_decide_ext. rewrite elem_of_cons. naive_solver.
Qed.

Lemma lines_filter sku items :
  lines (filter (λ it, SKU it ≠ sku) items) = delete sku (lines items).
Proof.
  induction items as [|it items IH]; [by unfold lines; simpl; rewrite delete_empty|].
  rewrite filter_cons, lines_cons. case_decide as Hs.
  - by rewrite lines_cons, IH, delete_insert_ne.
  - subst. by rewrite IH, delete_insert_eq.
Qed.

Lemma cart_ok_filter sku c now :
  cart_ok c → cart_ok (with_items (filter (λ it, SKU it ≠ sku) (Items c)) now c).
Proof.
  intros [Hnd Hn]. split; simpl.
  - eapply sublist_NoDup; [done|]. by apply fmap_sublist, sublist_filter.
  - by eapply sublist_Forall; [apply sublist_filter|].
Qed.

Lemma lookup_abs s id : abs s !! id = (λ c, lines (Items c)) <$> s !! id.
Proof. apply lookup_fmap. Qed.
Lemma abs_insert s id c : abs (<[id := c]> s) = <[id := lines (Items c)]> (abs s).
Proof. apply (fmap_insert (λ c, lines (Items c))). Qed.

Lemma AddItem_refines ctx now id inp s :
  store_ok s →
  let '(r, s') := AddItem ctx now id inp s in
  (code_of r, abs s') = spec_AddItem ctx id inp (abs s) ∧ store_ok s'.
Proof.
  intros Hs. unfold AddItem, spec_AddItem. go_run.
  destruct ctx as [e|]; [done|].
  do 4 (case_decide; simpl; [by rewrite decide_False by naive_solver lia|]).
  rewrite decide_True by naive_solver lia. rewrite lookup_abs.
  destruct (s !! id) as [c|] eqn:Hc; simpl; [|done].
  destruct (Hs _ _ Hc) as [Hnd Hn].
  pose proof (add_loop_spec inp (Items c) (conj Hnd Hn)) as Hl. simpl in Hl.
  destruct (add_loop _ _ _) as [[e|items]|]; simpl.
  - destruct Hl as (it & -> & _ & ? & Hcode). simpl. rewrite decide_False by done.
    by rewrite Hcode.
  - destruct Hl as (it & -> & _ & ? & Hl & Hk & Hn'). simpl. rewrite decide_True by done.
    rewrite abs_insert. simpl. rewrite Hl. split; [done|].
    apply map_Forall_insert_2; [|done]. split; simpl; [by rewrite Hk|done].
  - rewrite Hl, abs_insert. simpl.
    rewrite lines_snoc by (apply lines_None in Hl; done). split; [done|].
    apply map_Forall_insert_2; [|done]. apply lines_None in Hl. split; simpl.
    + rewrite fmap_app. apply NoDup_app. split_and!; [done| |apply NoDup_singleton].
      intros k Hk ->%list_elem_of_singleton. done.
    + apply Forall_app. split; [done|]. constructor; [apply normal_normalise|done].
Qed.

Lemma RemoveItem_refines ctx now id sku s :
  store_ok s →
  let '(r, s') := RemoveItem ctx now id sku s in
  (code_of r, abs s') = spec_RemoveItem ctx id sku (abs s) ∧ store_ok s'.
Proof.
  intros Hs. unfold RemoveItem, spec_RemoveItem. go_run.
  destruct ctx as [e|]; [done|].
  do 2 (case_decide; simpl; [by rewrite decide_False by naive_solver lia|]).
  rewrite decide_True by naive_solver. rewrite lookup_abs.
  destruct (s !! id) as [c|] eqn:Hc; simpl; [|done].
  rewrite remove_loop_spec. simpl. case_bool_decide as Hin; simpl.
  - destruct (lines (Items c) !! sku) eqn:Hl; [|by apply lines_None in Hl].
    simpl. rewrite abs_insert. simpl. rewrite lines_filter. split; [done|].
    apply map_Forall_insert_2; [|done]. apply cart_ok_filter. by eapply Hs.
  - apply lines_None in Hin. by rewrite Hin.
Qed.

Lemma cart_run_call_refines c s :
  store_ok s →
  let '(r, s') := run_call c s in
  (code_of r, abs s') = spec_call c (abs s) ∧ store_ok s'.
Proof.
  intros Hs. destruct c as [ctx uid now userID|ctx now id inp|ctx now id sku]; simpl.
  - unfold Create. go_run. destruct ctx; simpl; [done|]. rewrite abs_insert.
    split; [done|]. apply map_Forall_insert_2; [|done]. split; constructor.
  - by apply AddItem_refines.
  - by apply RemoveItem_refines.
Qed.

(** ** Checkout *)

Definition line_price (it : Item) : Z := AmountMinor it * Qty it.

(** The total of a cart does not depend on the order of its lines. *)
Definition lines_total (ls : gmap string Item) : Z :=
  i64 (sumZ (line_price <$> (map_to_list ls).*2)).

Lemma lines_perm items :
  NoDup (SKU <$> items) → (map_to_list (lines items)).*2 ≡ₚ items.
Proof.
  intros Hnd. unfold lines. rewrite map_to_list_to_map.
  - rewrite <- list_fmap_compose. rewrite list_fmap_id. done.
  - by rewrite <- list_fmap_compose.
Qed.

Lemma lines_Forall (P : Item → Prop) items :
  NoDup (SKU <$> items) → map_Forall (λ _, P) (lines items) ↔ Forall P items.
Proof.
  intros Hnd. rewrite <- (lines_perm items Hnd) at 2.
  rewrite map_Forall_to_list, Forall_fmap. apply Forall_proper; [|done]. by intros [].
Qed.

Lemma total_loop_spec currency items t :
  normal currency → currency ≠ "" → Forall (λ it, normal (ItemCurrency it)) items →
  match total_loop items (NewMoney (i64 t) currency) with
  | inr total => Forall (λ it, ItemCurrency it = currency) items ∧
      total = NewMoney (i64 (t + sumZ (line_price <$> items))) currency
  | inl e => ¬ Forall (λ it, ItemCurrency it = currency) items ∧
      Code (Some e) = CodeInvalidArgument
  end.
Proof.
  intros Hc Hne Hn. revert t.
  induction Hn as [|it items Hit Hn IH]; intros t; [by rewrite Z.add_0_r|].
  cbn [total_loop]. rewrite SameCurrency_normal by apply NewMoney_normal. simpl.
  rewrite Hit, Hc. case_bool_decide as Hcur; simpl.
  - rewrite Hcur, Add_same by done. autorewrite with go_int.
    specialize (IH (t + AmountMinor it * Qty it)).
    destruct (total_loop _ _) as [e|total]; rewrite Forall_cons; [naive_solver|].
    destruct IH as [? ->]. split; [done|]. f_equal. f_equal. simpl. by rewrite <- Z.add_assoc.
  - split; [|done]. rewrite Forall_cons. naive_solver.
Qed.

Lemma total_loop_empty it items :
  ItemCurrency it = "" →
  ∃ e, total_loop (it :: items) (Zero "") = inl e ∧ Code (Some e) = CodeInvalidArgument.
Proof.
  intros Hc. simpl. rewrite Hc, SameCurrency_normal by apply NewMoney_normal.
  rewrite bool_decide_true by done. simpl. unfold Add. eauto.
Qed.

(** ** Properties *)

(** The cart store refines the map specification: after any history of
    [Create], [AddItem] and [RemoveItem] calls, started on an empty store, each
    cart is the map of lines the specification computes and every call answered
    with the error code, or success, the specification gives.  In particular a
    SKU has at most one line, [AddItem] of a SKU already in the cart adds the
    quantities (up to the wrap of [int64]) and takes the last price, and a
    refused call changes nothing. *)
Theorem cart_refines_map cs :
  let '(rs, s) := run_calls cs New in (rs, abs s) = spec_calls cs ∅.
Proof.
  assert (∀ s, store_ok s →
    let '(rs, s') := run_calls cs s in (rs, abs s') = spec_calls cs (abs s)) as H.
  { induction cs as [|c cs IH]; intros s Hs; simpl; [done|].
    pose proof (cart_run_call_refines c s Hs) as Hc.
    destruct (run_call c s) as [r s1]. destruct Hc as [<- Hs1].
    specialize (IH s1 Hs1). destruct (run_calls cs s1) as [rs s2].
    by rewrite <- IH. }
  apply (H New). apply map_Forall_empty.
Qed.

Lemma cart_reachable_ok cs : store_ok (run_calls cs New).2.
Proof.
  assert (∀ s, store_ok s → store_ok (run_calls cs s).2) as H;
    [|apply H, map_Forall_empty].
  induction cs as [|c cs IH]; intros s Hs; simpl; [done|].
  pose proof (cart_run_call_refines c s Hs) as Hc.
  destruct (run_call c s) as [r s1]. destruct Hc as [_ Hs1].
  specialize (IH s1 Hs1). by destruct (run_calls cs s1).
Qed.

(** [Checkout] of a reachable store changes nothing and answers by the lines
    of the cart alone: it succeeds when the cart has lines, all in one currency
    that is not blank, with the total of [amount * qty] over the lines up to the
    wrap of [int64]; otherwise it fails, with the code that says which of the
    conditions was violated first. *)
Theorem cart_Checkout_spec cs ctx now id :
  let s := (run_calls cs New).2 in
  ∃ r, Checkout ctx now id s = (r, s) ∧
  match r with
  | inr out => ctx = None ∧ id ≠ "" ∧ ∃ ls, abs s !! id = Some ls ∧ ls ≠ ∅ ∧
      out_Currency out ≠ "" ∧ map_Forall (λ _ it, ItemCurrency it = out_Currency out) ls ∧
      out_TotalMinor out = lines_total ls ∧ lines (out_Items out) = ls
  | inl e =>
      ctx = Some e ∨ ctx = None ∧
      (id = "" ∧ Code (Some e) = CodeInvalidArgument ∨
       id ≠ "" ∧ match abs s !! id with
                 | None => Code (Some e) = CodeNotFound
                 | Some ls =>
                     ls = ∅ ∧ Code (Some e) = CodeFailedPrecondition ∨
                     ¬ (∃ cur, cur ≠ "" ∧ map_Forall (λ _ it, ItemCurrency it = cur) ls) ∧
                     Code (Some e) = CodeInvalidArgument
                 end)
  end.
Proof.
  pose proof (cart_reachable_ok cs) as Hs. generalize dependent (run_calls cs New).2.
  intros s Hs. simpl. unfold Checkout. go_run.
  destruct ctx as [e|]; [eexists; split; [done|]; simpl; by left|].
  case_decide as Hid; simpl; [eexists; split; [done|]; simpl; naive_solver|].
  rewrite lookup_abs. destruct (s !! id) as [c|] eqn:Hc; simpl.
  2:{ eexists; split; [done|]; simpl; naive_solver. }
  destruct (Hs _ _ Hc) as [Hnd Hn].
  destruct (Items c) as [|it items] eqn:Hi.
  { eexists; split; [done|]; simpl. naive_solver. }
  pose proof (proj1 (Forall_cons _ _ _) Hn) as [Hit _].
  destruct (decide (ItemCurrency it = "")) as [He|Hne].
  - destruct (total_loop_empty it items He) as (e & Ht & He'). rewrite He, Ht.
    eexists; split; [done|]; simpl. right. split; [done|]. right. split; [done|].
    right. split; [|done]. intros (cur & ? & Hall). rewrite lines_Forall in Hall by done.
    apply Forall_cons in Hall as [? _]. congruence.
  - pose proof (total_loop_spec (ItemCurrency it) (it :: items) 0 Hit Hne Hn) as Ht.
    change (Zero ?c) with (NewMoney (i64 0) c).
    destruct (total_loop _ _) as [e|total]; eexists; (split; [done|]); simpl.
    + right. split; [done|]. right. split; [done|]. right. split; [|apply Ht].
      intros (cur & ? & Hall). rewrite lines_Forall in Hall by done. apply Ht.
      by apply Forall_cons in Hall as Hall'; destruct Hall' as [-> _].
    + destruct Ht as [Hall ->]. split_and!; [done..|]. eexists. split; [done|].
      split_and!; [|done|by apply lines_Forall| |done].
      * rewrite lines_cons. apply insert_non_empty.
      * simpl. unfold lines_total. by rewrite (lines_perm (it :: items)).
Qed.
