(* ===== verification/Product.v ===== *)
(** * services/product: the product catalogue

    Products by identifier, with an index from SKUs to identifiers that the
    write operations keep in step with the catalogue. *)

From S2P Require Import Prelude GoStrings Errors Money.
From stdpp Require Import options.
Open Scope Z_scope.

(* src: services/product/internal/store/store.go 13-23 Product *)
Record Product := {
  ID : string; Name : string; SKU : string; PriceMinor : Z; PCurrency : string;
  Description : string; CreatedAt : Z; UpdatedAt : Z }.

(* src: services/product/internal/store/store.go 25-32 CreateInput *)
Record CreateInput := {
  c_Name : string; c_SKU : string; c_PriceMinor : Z; c_Currency : string;
  c_Description : string }.

(* src: services/product/internal/store/store.go 34-41 UpdateInput *)
Record UpdateInput := {
  u_Name : string; u_SKU : string; u_PriceMinor : Z; u_Currency : string;
  u_Description : string }.

(* src: services/product/internal/store/store.go 43-48 Store *)
Record Store := { products : gmap string Product; bySKU : gmap string string }.

Abbreviation StoreM := (GoM error Store).

(* src: services/product/internal/store/store.go 50-56 New *)
Definition New : Store := {| products := ∅; bySKU := ∅ |}.

(* src: services/product/internal/store/store.go 184-187 cloneProduct *)
Definition cloneProduct (p : Product) : Product := p.

(* src: services/product/internal/store/store.go 58-93 Create *)
Definition Create (ctx : option error) (uid : string) (now : Z) (inp : CreateInput)
    : StoreM Product :=
  throw_some ctx;;
  throw_if (c_Name inp = "") (InvalidArgument "name is required" None);;
  throw_if (c_SKU inp = "") (InvalidArgument "sku is required" None);;
  throw_if (c_Currency inp = "") (InvalidArgument "currency is required" None);;
  let money := NewMoney (c_PriceMinor inp) (c_Currency inp) in
  s ← get;
  throw_if (is_Some (bySKU s !! c_SKU inp)) (Conflict "sku already exists" None);;
  let p := {| ID := uid; Name := c_Name inp; SKU := c_SKU inp;
              PriceMinor := Amount money; PCurrency := Currency money;
              Description := c_Description inp; CreatedAt := now; UpdatedAt := now |} in
  put {| products := <[ID p := p]> (products s); bySKU := <[SKU p := ID p]> (bySKU s) |};;
  mret (cloneProduct p).

(* src: services/product/internal/store/store.go 95-110 Get *)
Definition Get (ctx : option error) (id : string) : StoreM Product :=
  throw_some ctx;;
  throw_if (id = "") (InvalidArgument "id is required" None);;
  s ← get;
  p ← unwrap (products s !! id) (NotFound "product not found" None);
  mret (cloneProduct p).

(** One of the orders in which Go may range over the map. *)
(* src: services/product/internal/store/store.go 112-124 List *)
Definition List (ctx : option error) : StoreM (list Product) :=
  throw_some ctx;;
  s ← get;
  mret (cloneProduct <$> (map_to_list (products s)).*2).

(** The index answers with another product's identifier. *)
Definition taken (idx : gmap string string) (sku id : string) : Prop :=
  match idx !! sku with Some otherID => otherID ≠ id | None => False end.
#[global] Instance taken_dec idx sku id : Decision (taken idx sku id).
Proof. unfold taken. destruct (idx !! sku); apply _. Defined.

(* src: services/product/internal/store/store.go 126-163 Update *)
Definition Update (ctx : option error) (now : Z) (id : string) (inp : UpdateInput)
    : StoreM Product :=
  throw_some ctx;;
  throw_if (id = "") (InvalidArgument "id is required" None);;
  throw_if (u_Name inp = "") (InvalidArgument "name is required" None);;
  throw_if (u_SKU inp = "") (InvalidArgument "sku is required" None);;
  throw_if (u_Currency inp = "") (InvalidArgument "currency is required" None);;
  let money := NewMoney (u_PriceMinor inp) (u_Currency inp) in
  s ← get;
  p ← unwrap (products s !! id) (NotFound "product not found" None);
  throw_if (taken (bySKU s) (u_SKU inp) id) (Conflict "sku already exists" None);;
  let p' := {| ID := ID p; Name := u_Name inp; SKU := u_SKU inp;
               PriceMinor := Amount money; PCurrency := Currency money;
               Description := u_Description inp; CreatedAt := CreatedAt p;
               UpdatedAt := now |} in
  put {| products := <[id := p']> (products s);
         bySKU := <[SKU p' := ID p']> (delete (SKU p) (bySKU s)) |};;
  mret (cloneProduct p').

(* src: services/product/internal/store/store.go 165-182 Delete *)
Definition Delete (ctx : option error) (id : string) : StoreM unit :=
  throw_some ctx;;
  throw_if (id = "") (InvalidArgument "id is required" None);;
  s ← get;
  p ← unwrap (products s !! id) (NotFound "product not found" None);
  put {| products := delete id (products s); bySKU := delete (SKU p) (bySKU s) |}.

(** ** Histories and the index invariant *)

Inductive call :=
  | CCreate (ctx : option error) (uid : string) (now : Z) (inp : CreateInput)
  | CUpdate (ctx : option error) (now : Z) (id : string) (inp : UpdateInput)
  | CDelete (ctx : option error) (id : string).

Definition run_call (c : call) (s : Store) : Store :=
  match c with
  | CCreate ctx uid now inp => exec (Create ctx uid now inp) s
  | CUpdate ctx now id inp => exec (Update ctx now id inp) s
  | CDelete ctx id => exec (Delete ctx id) s
  end.

Definition run_calls (cs : list call) (s : Store) : Store := fold_left (flip run_call) cs s.

Definition uids (cs : list call) : list string :=
  omap (λ c, match c with CCreate _ uid _ _ => Some uid | _ => None end) cs.

(** The index holds exactly the pairs of the catalogue. *)
Definition index_ok (s : Store) : Prop :=
  (∀ sku id, bySKU s !! sku = Some id ↔
     ∃ p, products s !! id = Some p ∧ SKU p = sku) ∧
  (∀ id p, products s !! id = Some p →
     ID p = id ∧ Name p ≠ "" ∧ SKU p ≠ "" ∧ normal (PCurrency p)).

Lemma index_ok_insert (s : Store) id p' sku0 :
  index_ok s → ID p' = id → Name p' ≠ "" → SKU p' ≠ "" → normal (PCurrency p') →
  (* the entry that is dropped is the old one of [id], or absent *)
  (match products s !! id with
   | Some p => sku0 = SKU p | None => bySKU s !! sku0 = None end) →
  ¬ taken (bySKU s) (SKU p') id →
  index_ok {| products := <[id := p']> (products s);
              bySKU := <[SKU p' := id]> (delete sku0 (bySKU s)) |}.
Proof.
  intros [Hidx Hp] ???? Hold Hfree. split; simpl.
  - intros sku id'. destruct (decide (sku = SKU p')) as [->|Hsku].
    + rewrite lookup_insert_eq. split; [|intros (p & Hl & Hs)].
      * intros [= <-]. exists p'. by rewrite lookup_insert_eq.
      * destruct (decide (id' = id)) as [->|?]; [done|exfalso].
        rewrite lookup_insert_ne in Hl by done. apply Hfree. unfold taken.
        by rewrite (proj2 (Hidx (SKU p') id')) by eauto.
    + rewrite lookup_insert_ne by done. destruct (decide (id' = id)) as [->|Hid].
      * rewrite lookup_insert_eq. split; [|naive_solver].
        destruct (decide (sku = sku0)) as [->|?]; [by rewrite lookup_delete_eq|].
        rewrite lookup_delete_ne, Hidx by done. intros (p & Hl & ?).
        rewrite Hl in Hold. naive_solver.
      * rewrite lookup_insert_ne by done. rewrite <- Hidx.
        destruct (decide (sku = sku0)) as [->|?]; [|by rewrite lookup_delete_ne].
        rewrite lookup_delete_eq. split; [done|]. intros Hl.
        destruct (products s !! id) as [p|] eqn:Hpid; [|congruence]. subst sku0.
        rewrite (proj2 (Hidx (SKU p) id)) in Hl by eauto. congruence.
  - intros id' p. destruct (decide (id' = id)) as [->|?].
    + rewrite lookup_insert_eq. by intros [= <-].
    + rewrite lookup_insert_ne by done. apply Hp.
Qed.

Lemma index_ok_delete (s : Store) id p :
  index_ok s → products s !! id = Some p →
  index_ok {| products := delete id (products s); bySKU := delete (SKU p) (bySKU s) |}.
Proof.
  intros [Hidx Hp] Hl. split; simpl.
  - intros sku id'. rewrite !lookup_delete_Some. rewrite Hidx.
    setoid_rewrite lookup_delete_Some. split.
    + intros [Hne (p' & Hp' & Hs)]. exists p'. split_and!; [|done..]. by intros ->; simplify_eq.
    + intros (p' & [Hne Hp'] & Hs). split; [|by eauto]. intros Heq. rewrite <- Hs in Heq.
      assert (bySKU s !! SKU p = Some id) as H1 by (apply Hidx; eauto).
      assert (bySKU s !! SKU p = Some id') as H2 by (apply Hidx; eauto). congruence.
  - intros id' p' [_ ?]%lookup_delete_Some. by apply Hp.
Qed.

(** Every product was created under an identifier of the history. *)
Lemma product_run_call_ok c (s : Store) (ids : gset string) :
  index_ok s → dom (products s) ⊆ ids →
  (∀ uid, uid ∈ uids [c] → uid ∉ ids) →
  index_ok (run_call c s) ∧ dom (products (run_call c s)) ⊆ list_to_set (uids [c]) ∪ ids.
Proof.
  intros Hs Hdom Hfresh. pose proof Hs as [Hidx Hp].
  assert (dom (products s) ⊆ list_to_set (uids [c]) ∪ ids) as Hdom'.
  { etrans; [exact Hdom|apply union_subseteq_r]. }
  destruct c as [ctx uid now inp|ctx now id inp|ctx id]; simpl in *.
  - assert (uid ∉ ids) as Huid by (apply Hfresh; left).
    assert (products s !! uid = None) as Hnone.
    { apply not_elem_of_dom. auto. }
    unfold Create. go_run. go_cases; try done.
    split; [|simpl; rewrite dom_insert_L; clear -Hdom; set_solver].
    rewrite <- (delete_id (bySKU s) (c_SKU inp)) by by apply eq_None_not_Some.
    apply (index_ok_insert s uid {| ID := uid |}); simpl;
      [done..|apply normal_normalise| |].
    + rewrite Hnone. by apply eq_None_not_Some.
    + unfold taken. destruct (bySKU s !! c_SKU inp) eqn:E; [|tauto].
      exfalso. eauto.
  - unfold Update. go_run. go_cases; try done.
    destruct (Hp id p) as (-> & _); [done|].
    split; [|simpl; by rewrite dom_insert_lookup_L by eauto].
    apply (index_ok_insert s id {| ID := id |}); simpl; [done..|apply normal_normalise| |done].
    by rewrite E.
  - unfold Delete. go_run. go_cases; try done.
    split; [by apply index_ok_delete|]. simpl. rewrite dom_delete_L. clear -Hdom'. set_solver.
Qed.

Lemma product_run_calls_ok cs (s : Store) (ids : gset string) :
  index_ok s → dom (products s) ⊆ ids → NoDup (uids cs) →
  (∀ uid, uid ∈ uids cs → uid ∉ ids) → index_ok (run_calls cs s).
Proof.
  revert s ids. induction cs as [|c cs IH]; intros s ids Hs Hdom Hnd Hfresh; [done|].
  assert (uids (c :: cs) = uids [c] ++ uids cs) as Hu by by destruct c.
  rewrite Hu in Hnd, Hfresh. apply NoDup_app in Hnd as (_ & Hdisj & Hnd).
  destruct (product_run_call_ok c s ids) as [? ?]; [done..|set_solver|].
  apply (IH _ (list_to_set (uids [c]) ∪ ids)); [done..|]. set_solver.
Qed.

(** ** Properties *)

(** After any history of [Create], [Update] and [Delete] calls whose
    generated identifiers are distinct, the SKU index and the catalogue agree:
    the index maps a SKU to an identifier exactly when the product stored under
    that identifier carries that SKU.  So no two products share a SKU, and no
    entry of the index outlives its product. *)
Theorem product_index_exact cs :
  NoDup (uids cs) →
  let s := run_calls cs New in
  (∀ sku id, bySKU s !! sku = Some id ↔ ∃ p, products s !! id = Some p ∧ SKU p = sku) ∧
  (∀ id1 id2 p1 p2, products s !! id1 = Some p1 → products s !! id2 = Some p2 →
     SKU p1 = SKU p2 → id1 = id2 ∧ p1 = p2).
Proof.
  intros Hnd s. assert (index_ok s) as [Hidx Hp].
  { apply (product_run_calls_ok cs New ∅); [|set_solver..|done|set_solver].
    split; simpl; [|done]. intros sku id. rewrite lookup_empty. naive_solver. }
  split; [done|]. intros id1 id2 p1 p2 H1 H2 Hsku.
  assert (bySKU s !! SKU p1 = Some id1) as E1 by (apply Hidx; eauto).
  assert (bySKU s !! SKU p1 = Some id2) as E2 by (apply Hidx; eauto).
  by simplify_eq.
Qed.

Definition sample (name sku : string) : CreateInput :=
  {| c_Name := name; c_SKU := sku; c_PriceMinor := 250; c_Currency := "usd";
     c_Description := "" |}.
Definition sample_update (name sku : string) : UpdateInput :=
  {| u_Name := name; u_SKU := sku; u_PriceMinor := 300; u_Currency := "usd";
     u_Description := "" |}.

(** A SKU released by an update can be taken by a new product, and only then. *)
Lemma product_index_exact_witness :
  let cs := [CCreate None "p1" 1 (sample "tea" "T"); CCreate None "p2" 2 (sample "mug" "T");
             CUpdate None 3 "p1" (sample_update "tea" "T2");
             CCreate None "p3" 4 (sample "mug" "T")] in
  let s := run_calls cs New in
  bySKU s = list_to_map [("T2", "p1"); ("T", "p3")] ∧
  ∀ sku id, bySKU s !! sku = Some id ↔ ∃ p, products s !! id = Some p ∧ SKU p = sku.
Proof.
  split; [compute_decide|]. apply product_index_exact. compute_decide.
Defined.
