(* ===== verification/Payment.v ===== *)
(** * pkg/commerce/payment: the in-memory payment provider

    Charges, authorisations, captures, voids and refunds over a map of
    transactions, with an index from idempotency keys to transactions.
    [uuid.New()] is the argument [uid] of a method.  A stored transaction is
    updated in place through a pointer that only the map holds; the results are
    copies. *)

From S2P Require Import Prelude GoStrings Errors Money.
From stdpp Require Import relations options.
Open Scope Z_scope.

(* src: pkg/commerce/payment/payment.go 30-40 TransactionStatus *)
Inductive TransactionStatus :=
  | StatusPending | StatusAuthorized | StatusSucceeded | StatusFailed
  | StatusRefunded | StatusVoided.

#[global] Instance TransactionStatus_eq_dec : EqDecision TransactionStatus.
Proof. solve_decision. Defined.

(** A Go map of strings: [None] is the nil map. *)
Abbreviation metadata := (option (gmap string string)).

(* src: pkg/commerce/payment/payment.go 42-58 ChargeRequest *)
Record ChargeRequest := {
  c_Amount : Money; c_SourceID : string; c_Description : string;
  c_Metadata : metadata; c_IdempotencyKey : string }.

(* src: pkg/commerce/payment/payment.go 60-68 RefundRequest *)
Record RefundRequest := { r_TransactionID : string; r_Amount : Money; r_Reason : string }.

(* src: pkg/commerce/payment/payment.go 70-76 CaptureRequest *)
Record CaptureRequest := { cap_TransactionID : string; cap_Amount : Money }.

(* src: pkg/commerce/payment/payment.go 78-91 Transaction *)
Record Transaction := {
  ID : string; TAmount : Money; Status : TransactionStatus; SourceID : string;
  Description : string; FailureReason : string; CreatedAt : Z;
  Metadata : metadata; IdempotencyKey : string }.

(* src: pkg/commerce/payment/errors.go 6-7 ErrDeclined *)
Definition ErrDeclined : error := Errors.New "PAYMENT_DECLINED" "payment declined" None.
(* src: pkg/commerce/payment/errors.go 21-22 ErrNotAuthorized *)
Definition ErrNotAuthorized : error :=
  Errors.New "NOT_AUTHORIZED" "transaction is not authorized" None.
(* src: pkg/commerce/payment/errors.go 24-25 ErrIdempotencyConflict *)
Definition ErrIdempotencyConflict : error := Conflict "idempotency key conflict" None.

(* src: pkg/commerce/payment/adapters/memory/memory.go 20-25 Provider *)
Record Provider := {
  transactions : gmap string Transaction; idempotency : gmap string string }.

Abbreviation ProviderM := (GoM error Provider).

(* src: pkg/commerce/payment/adapters/memory/memory.go 27-34 New *)
Definition New : Provider := {| transactions := ∅; idempotency := ∅ |}.

(* src: pkg/commerce/payment/adapters/memory/memory.go 224-233 cloneMetadata *)
Definition cloneMetadata (inp : metadata) : metadata :=
  match inp with
  | None => None
  | Some m => Some (map_fold (λ k v out, <[k := v]> out) ∅ m)
  end.

(** [p.transactions[id] = tx], or an update of the transaction stored there. *)
Definition set_tx (id : string) (tx : Transaction) (p : Provider) : Provider :=
  {| transactions := <[id := tx]> (transactions p); idempotency := idempotency p |}.

Definition request_tx (uid : string) (now : Z) (st : TransactionStatus)
    (req : ChargeRequest) : Transaction :=
  {| ID := uid; TAmount := c_Amount req; Status := st; SourceID := c_SourceID req;
     Description := c_Description req; FailureReason := ""; CreatedAt := now;
     Metadata := cloneMetadata (c_Metadata req);
     IdempotencyKey := c_IdempotencyKey req |}.

(* src: pkg/commerce/payment/adapters/memory/memory.go 36-79 Charge *)
Definition Charge (ctx : option error) (uid : string) (now : Z) (req : ChargeRequest)
    : ProviderM Transaction :=
  throw_some ctx;;
  throw_some (Validate (c_Amount req));;
  p ← get;
  match (if decide (c_IdempotencyKey req ≠ "")
         then idempotency p !! c_IdempotencyKey req else None) with
  | Some existingID =>
      match transactions p !! existingID with
      | Some tx =>
          if Equal (TAmount tx) (c_Amount req) && bool_decide (SourceID tx = c_SourceID req)
          then mret tx
          else throw ErrIdempotencyConflict
      | None => throw ErrIdempotencyConflict
      end
  | None =>
      throw_if (c_SourceID req = "fail_card") ErrDeclined;;
      let tx := request_tx uid now StatusSucceeded req in
      put {| transactions := <[uid := tx]> (transactions p);
             idempotency := if decide (c_IdempotencyKey req ≠ "")
                            then <[c_IdempotencyKey req := uid]> (idempotency p)
                            else idempotency p |};;
      mret tx
  end.

(* src: pkg/commerce/payment/adapters/memory/memory.go 81-110 Authorize *)
Definition Authorize (ctx : option error) (uid : string) (now : Z) (req : ChargeRequest)
    : ProviderM Transaction :=
  throw_some ctx;;
  throw_some (Validate (c_Amount req));;
  p ← get;
  throw_if (c_SourceID req = "fail_card") ErrDeclined;;
  let tx := request_tx uid now StatusAuthorized req in
  put (set_tx uid tx p);;
  mret tx.

Definition with_status (st : TransactionStatus) (amt : Money) (tx : Transaction)
    : Transaction :=
  {| ID := ID tx; TAmount := amt; Status := st; SourceID := SourceID tx;
     Description := Description tx; FailureReason := FailureReason tx;
     CreatedAt := CreatedAt tx; Metadata := Metadata tx;
     IdempotencyKey := IdempotencyKey tx |}.

(* src: pkg/commerce/payment/adapters/memory/memory.go 112-141 Capture *)
Definition Capture (ctx : option error) (req : CaptureRequest) : ProviderM Transaction :=
  throw_some ctx;;
  p ← get;
  tx ← unwrap (transactions p !! cap_TransactionID req)
         (NotFound "transaction not found" None);
  throw_if (Status tx ≠ StatusAuthorized) ErrNotAuthorized;;
  captureAmt ←
    (if IsZero (cap_Amount req) then mret (TAmount tx)
     else if negb (SameCurrency (cap_Amount req) (TAmount tx)) then
       throw (InvalidArgument "capture currency mismatch" None)
     else if decide (Amount (TAmount tx) < Amount (cap_Amount req)) then
       throw (InvalidArgument "capture exceeds authorized amount" None)
     else mret (cap_Amount req));
  let tx := with_status StatusSucceeded captureAmt tx in
  put (set_tx (cap_TransactionID req) tx p);;
  mret tx.

(* src: pkg/commerce/payment/adapters/memory/memory.go 143-161 Void *)
Definition Void (ctx : option error) (transactionID : string) : ProviderM Transaction :=
  throw_some ctx;;
  p ← get;
  tx ← unwrap (transactions p !! transactionID) (NotFound "transaction not found" None);
  throw_if (Status tx ≠ StatusAuthorized) ErrNotAuthorized;;
  let tx := with_status StatusVoided (TAmount tx) tx in
  put (set_tx transactionID tx p);;
  mret tx.

(** The refund is stored before the status of the original changes; the original
    is reached through its pointer, so a refund stored under the same identifier
    would stay. *)
(* src: pkg/commerce/payment/adapters/memory/memory.go 163-202 Refund *)
Definition Refund (ctx : option error) (uid : string) (now : Z) (req : RefundRequest)
    : ProviderM Transaction :=
  throw_some ctx;;
  p ← get;
  tx ← unwrap (transactions p !! r_TransactionID req)
         (NotFound "transaction not found" None);
  throw_if (Status tx = StatusRefunded) (Conflict "transaction already refunded" None);;
  throw_if (Status tx ≠ StatusSucceeded)
    (InvalidArgument "only succeeded transactions can be refunded" None);;
  let refundAmt :=
    if IsZero (r_Amount req) then TAmount tx
    else if decide (Currency (r_Amount req) = "") then
      {| Amount := Amount (r_Amount req); Currency := Currency (TAmount tx) |}
    else r_Amount req in
  let refundTx :=
    {| ID := uid; TAmount := refundAmt; Status := StatusRefunded;
       SourceID := SourceID tx;
       Description := "Refund for " +:+ ID tx +:+ ": " +:+ r_Reason req;
       FailureReason := ""; CreatedAt := now; Metadata := None; IdempotencyKey := "" |} in
  put (set_tx uid refundTx
         (set_tx (r_TransactionID req) (with_status StatusRefunded (TAmount tx) tx) p));;
  mret refundTx.

(* src: pkg/commerce/payment/adapters/memory/memory.go 204-218 GetTransaction *)
Definition GetTransaction (ctx : option error) (id : string) : ProviderM Transaction :=
  throw_some ctx;;
  p ← get;
  unwrap (transactions p !! id) (NotFound "transaction not found" None).

(** ** Histories *)

Inductive call :=
  | CCharge (ctx : option error) (uid : string) (now : Z) (req : ChargeRequest)
  | CAuthorize (ctx : option error) (uid : string) (now : Z) (req : ChargeRequest)
  | CCapture (ctx : option error) (req : CaptureRequest)
  | CVoid (ctx : option error) (id : string)
  | CRefund (ctx : option error) (uid : string) (now : Z) (req : RefundRequest).

Definition run_call (c : call) : ProviderM Transaction :=
  match c with
  | CCharge ctx uid now req => Charge ctx uid now req
  | CAuthorize ctx uid now req => Authorize ctx uid now req
  | CCapture ctx req => Capture ctx req
  | CVoid ctx id => Void ctx id
  | CRefund ctx uid now req => Refund ctx uid now req
  end.

Definition run_calls (cs : list call) (p : Provider) : Provider :=
  fold_left (λ p c, exec (run_call c) p) cs p.

Definition call_uid (c : call) : option string :=
  match c with
  | CCharge _ uid _ _ | CAuthorize _ uid _ _ | CRefund _ uid _ _ => Some uid
  | CCapture _ _ | CVoid _ _ => None
  end.
Definition uids (cs : list call) : list string := omap call_uid cs.

Lemma uids_cons c cs : uids (c :: cs) = uids [c] ++ uids cs.
Proof. by destruct c. Qed.

(** ** The life of a transaction *)

(** What a capture may set the amount to. *)
Definition captures (auth cap : Money) : Prop :=
  cap = auth ∨ SameCurrency cap auth = true ∧ Amount cap ≤ Amount auth.

Inductive tx_step : relation Transaction :=
  | step_capture tx amt : Status tx = StatusAuthorized → captures (TAmount tx) amt →
      tx_step tx (with_status StatusSucceeded amt tx)
  | step_void tx : Status tx = StatusAuthorized →
      tx_step tx (with_status StatusVoided (TAmount tx) tx)
  | step_refund tx : Status tx = StatusSucceeded →
      tx_step tx (with_status StatusRefunded (TAmount tx) tx).

Lemma insert_step (m : gmap string Transaction) k t t' id tx :
  m !! k = Some t → tx_step t t' → m !! id = Some tx →
  ∃ tx', <[k := t']> m !! id = Some tx' ∧ (tx' = tx ∨ tx_step tx tx').
Proof.
  intros Hk Ht Hid. destruct (decide (id = k)) as [->|?].
  - rewrite lookup_insert_eq. simplify_eq. eauto.
  - rewrite lookup_insert_ne by done. eauto.
Qed.

(** A call takes at most one step on a transaction it does not create. *)
Lemma run_call_step c p id tx :
  transactions p !! id = Some tx → id ∉ uids [c] →
  ∃ tx', transactions (exec (run_call c) p) !! id = Some tx' ∧ (tx' = tx ∨ tx_step tx tx').
Proof.
  intros Hl Hid.
  destruct c as [ctx uid now req|ctx uid now req|ctx req|ctx tid|ctx uid now req];
    simpl in *; [unfold Charge|unfold Authorize|unfold Capture|unfold Void|unfold Refund];
    go_run; go_cases; try (by exists tx; split; [|left]);
    rewrite ?lookup_insert_ne by set_solver; eauto;
    (eapply insert_step; [done| |done]); constructor;
    unfold captures; rewrite ?negb_false_iff in *;
    try (by apply dec_stable); try (by left); try (by right; split; [|lia]).
Qed.

Lemma run_calls_step cs p id tx :
  transactions p !! id = Some tx → id ∉ uids cs →
  ∃ tx', transactions (run_calls cs p) !! id = Some tx' ∧ rtc tx_step tx tx'.
Proof.
  revert p tx. induction cs as [|c cs IH]; intros p tx Hl Hid; [by eauto using rtc_refl|].
  rewrite uids_cons, elem_of_app in Hid.
  destruct (run_call_step c p id tx) as (tx1 & Hl1 & Hstep); [done|tauto|].
  destruct (IH _ tx1 Hl1) as (tx2 & Hl2 & ?); [tauto|]. exists tx2. split; [done|].
  destruct Hstep as [->|?]; [done|by eapply rtc_l].
Qed.

(** What a life of a transaction preserves. *)
Definition settled (tx : Transaction) : Prop :=
  Status tx = StatusVoided ∨ Status tx = StatusRefunded.

Lemma settled_final tx tx' : settled tx → rtc tx_step tx tx' → tx' = tx.
Proof.
  unfold settled. intros Hs [->|(tx1 & Hst & _)]%rtc_inv; [done|].
  inversion Hst; subst; destruct Hs; congruence.
Qed.

Lemma charged_stable tx tx' :
  Status tx = StatusSucceeded ∨ Status tx = StatusRefunded → rtc tx_step tx tx' →
  (Status tx' = StatusSucceeded ∨ Status tx' = StatusRefunded) ∧
  ID tx' = ID tx ∧ TAmount tx' = TAmount tx ∧ SourceID tx' = SourceID tx.
Proof.
  intros Hs Hst. induction Hst as [tx|tx1 tx2 tx3 H1 _ IH]; [done|].
  inversion H1; subst; simpl in *; [destruct Hs; congruence..|]. apply IH. by right.
Qed.

Lemma SameCurrency_trans m1 m2 m3 :
  SameCurrency m1 m2 = true → SameCurrency m2 m3 = true → SameCurrency m1 m3 = true.
Proof. unfold SameCurrency, EqualFold. rewrite !bool_decide_eq_true. congruence. Qed.

Lemma captures_steps tx tx' :
  rtc tx_step tx tx' →
  ID tx' = ID tx ∧ SourceID tx' = SourceID tx ∧ captures (TAmount tx) (TAmount tx').
Proof.
  unfold captures. induction 1 as [tx|tx1 tx2 tx3 H1 _ IH]; [by auto|].
  destruct IH as (Hi & Hso & Hc). rewrite Hi, Hso.
  inversion H1 as [tx amt Hs [->|[??]]|tx Hs|tx Hs]; subst; simpl in *; auto.
  do 2 (split; [done|]). right. destruct Hc as [->|[? ?]]; [done|].
  split; [by eapply SameCurrency_trans|lia].
Qed.

(** ** The idempotency index *)

(** Every transaction is stored under its identifier, and every key leads to a
    transaction that was charged. *)
Definition provider_ok (p : Provider) : Prop :=
  (∀ id tx, transactions p !! id = Some tx → ID tx = id) ∧
  (∀ k id, idempotency p !! k = Some id → ∃ tx, transactions p !! id = Some tx ∧
     (Status tx = StatusSucceeded ∨ Status tx = StatusRefunded)).

Lemma run_call_new c p id tx :
  transactions p !! id = None → transactions (exec (run_call c) p) !! id = Some tx →
  id ∈ uids [c] ∧ ID tx = id.
Proof.
  intros Hl.
  destruct c as [ctx uid now req|ctx uid now req|ctx req|ctx tid|ctx uid now req];
    simpl in *; [unfold Charge|unfold Authorize|unfold Capture|unfold Void|unfold Refund];
    go_run; go_cases; try congruence; intros Hl';
    repeat (apply lookup_insert_Some in Hl' as [[??]|[? Hl']]; simplify_eq/=;
      try by split; [left|]).
Qed.

Lemma run_call_index c p k id :
  idempotency (exec (run_call c) p) !! k = Some id →
  idempotency p !! k = Some id ∨
  idempotency p !! k = None ∧ id ∈ uids [c] ∧
  ∃ tx, transactions (exec (run_call c) p) !! id = Some tx ∧ Status tx = StatusSucceeded.
Proof.
  destruct c as [ctx uid now req|ctx uid now req|ctx req|ctx tid|ctx uid now req];
    simpl in *; [unfold Charge|unfold Authorize|unfold Capture|unfold Void|unfold Refund];
    go_run; go_cases; auto.
  rewrite lookup_insert_Some. intros [[<- <-]|[??]]; [|by left]. right.
  split; [done|]. split; [set_solver|]. eexists. by rewrite lookup_insert_eq.
Qed.

Lemma run_call_index_stable c p k id :
  idempotency p !! k = Some id → idempotency (exec (run_call c) p) !! k = Some id.
Proof.
  intros Hk.
  destruct c as [ctx uid now req|ctx uid now req|ctx req|ctx tid|ctx uid now req];
    simpl in *; [unfold Charge|unfold Authorize|unfold Capture|unfold Void|unfold Refund];
    go_run; go_cases; auto.
  rewrite lookup_insert_ne; congruence.
Qed.

Lemma run_call_provider_ok c p :
  provider_ok p → (∀ uid, uid ∈ uids [c] → transactions p !! uid = None) →
  provider_ok (exec (run_call c) p).
Proof.
  intros [Hid Hidx] Hfresh.
  assert (∀ id tx, transactions p !! id = Some tx → ∃ tx',
    transactions (exec (run_call c) p) !! id = Some tx' ∧ rtc tx_step tx tx') as Hstep.
  { intros id tx Hl.
    destruct (run_call_step c p id tx) as (tx' & ? & [->|?]); [done| |by eauto using rtc_refl|
      by eauto using rtc_once].
    intros Hin. rewrite (Hfresh _ Hin) in Hl. done. }
  split.
  - intros id tx Hl. destruct (transactions p !! id) as [tx0|] eqn:Hl0.
    + destruct (Hstep _ _ Hl0) as (tx' & Hl' & (Hi & _)%captures_steps).
      simplify_eq. rewrite Hi. by apply Hid.
    + by apply (run_call_new c p id tx).
  - intros k id [Hk|(_ & _ & tx & ? & ?)]%run_call_index; [|by eauto].
    destruct (Hidx _ _ Hk) as (tx & Hl & Hs). destruct (Hstep _ _ Hl) as (tx' & ? & Hr).
    exists tx'. split; [done|]. by eapply charged_stable.
Qed.

Lemma run_calls_provider_ok cs p (ids : gset string) :
  provider_ok p → dom (transactions p) ⊆ ids → NoDup (uids cs) →
  (∀ uid, uid ∈ uids cs → uid ∉ ids) →
  provider_ok (run_calls cs p) ∧
  dom (transactions (run_calls cs p)) ⊆ list_to_set (uids cs) ∪ ids.
Proof.
  revert p ids. induction cs as [|c cs IH]; intros p ids Hp Hdom Hnd Hfresh;
    [split; [done|simpl; clear -Hdom; set_solver]|].
  rewrite uids_cons in *. apply NoDup_app in Hnd as (_ & Hdisj & Hnd).
  assert (dom (transactions (exec (run_call c) p)) ⊆ list_to_set (uids [c]) ∪ ids) as Hd.
  { intros id [tx Htx]%elem_of_dom. destruct (transactions p !! id) eqn:E.
    - apply elem_of_union. right. by apply Hdom, elem_of_dom.
    - apply run_call_new in Htx as [? _]; [|done]. set_solver. }
  destruct (IH (exec (run_call c) p) (list_to_set (uids [c]) ∪ ids)) as [Hok Hd'];
    [|done..|clear -Hdisj Hfresh; set_solver|].
  - apply run_call_provider_ok; [done|]. intros uid Hu. apply not_elem_of_dom.
    intros ?%Hdom. by apply (Hfresh uid); [set_solver|].
  - split; [done|]. clear -Hd'. simpl. set_solver.
Qed.

Lemma index_persists cs p k id :
  idempotency p !! k = Some id → idempotency (run_calls cs p) !! k = Some id.
Proof. revert p. induction cs; intros p Hk; simpl; auto using run_call_index_stable. Qed.

(** What a successful charge with a key leaves behind. *)
Lemma Charge_indexed ctx uid now req p tx p' :
  provider_ok p → c_IdempotencyKey req ≠ "" →
  Charge ctx uid now req p = (inr tx, p') →
  idempotency p' !! c_IdempotencyKey req = Some (ID tx) ∧
  transactions p' !! ID tx = Some tx ∧
  (Status tx = StatusSucceeded ∨ Status tx = StatusRefunded) ∧
  (ID tx = uid ∨ ID tx ∈ dom (transactions p)).
Proof.
  intros [Hid Hidx] Hkey. unfold Charge. go_run. intros H.
  go_cases; simpl.
  - rewrite (Hid _ _ E1). destruct (Hidx _ _ E0) as (tx' & Hl & ?). simplify_eq.
    split_and!; [done..|]. right. apply elem_of_dom. eauto.
  - rewrite !lookup_insert_eq. auto.
Qed.

(** ** Properties *)

(** A charge with an idempotency key happens once.  In any history with
    distinct generated identifiers, once a charge with key [k] has answered with
    a transaction, every later charge with that key leaves the provider as it is,
    whatever happened in between: it answers with that transaction (its
    identifier, amount and source; it may have been refunded since) when the
    request repeats the amount and the source, and with a conflict otherwise. *)
Theorem payment_Charge_idempotent cs ctx uid now req tx p' cs' uid' now' req' :
  NoDup (uids (cs ++ CCharge ctx uid now req :: cs')) →
  Charge ctx uid now req (run_calls cs New) = (inr tx, p') →
  c_IdempotencyKey req ≠ "" → c_IdempotencyKey req' = c_IdempotencyKey req →
  Validate (c_Amount req') = None →
  let p := run_calls cs' p' in
  if Equal (TAmount tx) (c_Amount req') && bool_decide (SourceID tx = c_SourceID req')
  then ∃ tx', Charge None uid' now' req' p = (inr tx', p) ∧
         ID tx' = ID tx ∧ TAmount tx' = TAmount tx ∧ SourceID tx' = SourceID tx
  else Charge None uid' now' req' p = (inl ErrIdempotencyConflict, p).
Proof.
  intros Hnd Hch Hkey Hkey' Hv p.
  unfold uids in Hnd. rewrite omap_app in Hnd. fold (uids cs) in Hnd.
  apply NoDup_app in Hnd as (Hnd1 & Hdisj & Hnd2). simpl in Hnd2, Hdisj.
  apply NoDup_cons in Hnd2 as [Huid _].
  destruct (run_calls_provider_ok cs New ∅) as [Hok Hdom]; [|set_solver..|].
  { by split. }
  destruct (Charge_indexed ctx uid now req _ tx p' Hok Hkey Hch) as (Hk & Hl & Hs & Hid).
  destruct (run_calls_step cs' p' (ID tx) tx) as (tx' & Hl' & Hst); [done| |].
  { destruct Hid as [->|Hin]; [done|]. intros Hin'.
    apply (Hdisj (ID tx)); [|by right]. apply Hdom in Hin. set_solver. }
  destruct (charged_stable tx tx' Hs Hst) as (_ & Hi & Ha & Hso).
  apply (index_persists cs') in Hk. fold p in Hk, Hl'.
  unfold Charge. go_run. rewrite Hv, Hkey', decide_True by done. rewrite Hk, Hl', Ha, Hso.
  destruct (_ && _); simpl; [|done]. by exists tx'.
Qed.

Definition usd (a : Z) : Money := {| Amount := a; Currency := "USD" |}.
Definition charge_of (a : Z) (src key : string) : ChargeRequest :=
  {| c_Amount := usd a; c_SourceID := src; c_Description := ""; c_Metadata := None;
     c_IdempotencyKey := key |}.

(** A replay after a refund answers with the refunded transaction. *)
Lemma payment_Charge_idempotent_witness :
  let r := charge_of 500 "card" "k" in
  let cs' := [CRefund None "t2" 2 {| r_TransactionID := "t1"; r_Amount := usd 0;
                                     r_Reason := "late" |}] in
  let p := run_calls cs' (exec (Charge None "t1" 1 r) New) in
  ∃ tx', Charge None "t3" 3 r p = (inr tx', p) ∧ ID tx' = "t1" ∧
         TAmount tx' = usd 500 ∧ SourceID tx' = "card".
Proof.
  intros r cs' p.
  apply (payment_Charge_idempotent [] None "t1" 1 r (request_tx "t1" 1 StatusSucceeded r)
           (exec (Charge None "t1" 1 r) New) cs' "t3" 3 r);
    [compute_decide|reflexivity|done|reflexivity..].
Defined.

(** C18. The life of a transaction.  Over any history that does not reuse its
    identifier, a transaction stays stored, keeps its identifier and source, and
    moves only along authorised to succeeded or voided, and succeeded to
    refunded; its amount changes only at the capture, to an amount of the same
    currency that does not exceed the authorised one; a voided or refunded
    transaction never changes again. *)
Theorem payment_lifecycle cs id tx p :
  transactions p !! id = Some tx → id ∉ uids cs →
  ∃ tx', transactions (run_calls cs p) !! id = Some tx' ∧ rtc tx_step tx tx' ∧
    ID tx' = ID tx ∧ SourceID tx' = SourceID tx ∧ captures (TAmount tx) (TAmount tx') ∧
    (Status tx ≠ StatusAuthorized → TAmount tx' = TAmount tx) ∧
    (Status tx = StatusVoided ∨ Status tx = StatusRefunded → tx' = tx).
Proof.
  intros Hl Hid. destruct (run_calls_step cs p id tx Hl Hid) as (tx' & Hl' & Hst).
  destruct (captures_steps tx tx' Hst) as (?&?&?). exists tx'.
  split_and!; [done..| |intros ?; by apply settled_final].
  intros Hs. apply rtc_inv in Hst as [->|(tx1 & Hst1 & Hst2)]; [done|].
  inversion Hst1; subst; [done..|]. by apply settled_final in Hst2 as ->; [|right].
Qed.

Lemma payment_lifecycle_witness :
  let p := exec (Authorize None "t1" 1 (charge_of 500 "card" "")) New in
  let tx := request_tx "t1" 1 StatusAuthorized (charge_of 500 "card" "") in
  let cs := [CCapture None {| cap_TransactionID := "t1"; cap_Amount := usd 600 |};
             CCapture None {| cap_TransactionID := "t1"; cap_Amount := usd 300 |};
             CVoid None "t1"] in
  ∃ tx', transactions (run_calls cs p) !! "t1" = Some tx' ∧ rtc tx_step tx tx' ∧
    ID tx' = ID tx ∧ SourceID tx' = SourceID tx ∧ captures (TAmount tx) (TAmount tx') ∧
    (Status tx ≠ StatusAuthorized → TAmount tx' = TAmount tx) ∧
    (Status tx = StatusVoided ∨ Status tx = StatusRefunded → tx' = tx).
Proof. apply payment_lifecycle; [reflexivity|compute_decide]. Defined.

(** A transaction is refunded at most once: after a refund has succeeded,
    every further refund of the same transaction is refused as a conflict,
    whatever calls happen in between, and changes nothing. *)
Theorem payment_refund_once uid now req r p p' cs uid' now' req' :
  Refund None uid now req p = (inr r, p') →
  r_TransactionID req' = r_TransactionID req →
  r_TransactionID req ∉ uid :: uids cs →
  let q := run_calls cs p' in
  Refund None uid' now' req' q = (inl (Conflict "transaction already refunded" None), q).
Proof.
  intros Hr Hreq [Huid Hid]%not_elem_of_cons q.
  assert (∃ tx, transactions p' !! r_TransactionID req = Some tx ∧
                Status tx = StatusRefunded) as (tx & Hl & Hs).
  { unfold Refund in Hr. go_run. go_cases; rewrite lookup_insert_ne, lookup_insert_eq;
      eauto. }
  destruct (run_calls_step cs p' _ tx Hl Hid) as (tx' & Hl' & Hst).
  apply settled_final in Hst as ->; [|by right]. fold q in Hl'.
  unfold Refund. go_run. rewrite Hreq, Hl', decide_True by done. done.
Qed.

Definition refund_of (a : Z) : RefundRequest :=
  {| r_TransactionID := "t1"; r_Amount := usd a; r_Reason := "" |}.

Lemma payment_refund_once_witness :
  let p := exec (Charge None "t1" 1 (charge_of 500 "card" "")) New in
  let q := run_calls [CVoid None "t1"] (exec (Refund None "t2" 2 (refund_of 200)) p) in
  Refund None "t3" 3 (refund_of 300) q =
    (inl (Conflict "transaction already refunded" None), q).
Proof.
  intros p q. apply (payment_refund_once "t2" 2 (refund_of 200)
    {| ID := "t2"; TAmount := usd 200; Status := StatusRefunded; SourceID := "card";
       Description := "Refund for t1: "; FailureReason := ""; CreatedAt := 2;
       Metadata := None; IdempotencyKey := "" |} p);
    [vm_compute; reflexivity|reflexivity|compute_decide].
Defined.

(** The amount of a refund is not compared with the charge.  For every
    succeeded transaction and every requested amount other than zero in a named
    currency, whatever its size, sign or currency, [Refund] succeeds, records a
    refund of exactly that amount and marks the whole transaction refunded. *)
Theorem payment_refund_unchecked uid now req p tx :
  transactions p !! r_TransactionID req = Some tx → Status tx = StatusSucceeded →
  Amount (r_Amount req) ≠ 0 → Currency (r_Amount req) ≠ "" →
  ∃ r p', Refund None uid now req p = (inr r, p') ∧ TAmount r = r_Amount req ∧
    (uid ≠ r_TransactionID req →
     transactions p' !! r_TransactionID req =
       Some (with_status StatusRefunded (TAmount tx) tx)).
Proof.
  intros Hl Hs Ha Hc. unfold Refund, IsZero. go_run. rewrite Hl. simpl.
  rewrite Hs, bool_decide_false, !decide_False by naive_solver.
  do 2 eexists. split; [done|]. split; [done|]. intros ?.
  simpl. by rewrite lookup_insert_ne, lookup_insert_eq.
Qed.

(** A charge of 5.00 refunded by 9.99. *)
Lemma payment_refund_unchecked_witness :
  let p := exec (Charge None "t1" 1 (charge_of 500 "card" "")) New in
  ∃ r p', Refund None "t2" 2 (refund_of 999) p = (inr r, p') ∧ TAmount r = usd 999 ∧
    ("t2" ≠ "t1" → transactions p' !! "t1" = Some (with_status StatusRefunded (usd 500)
       (request_tx "t1" 1 StatusSucceeded (charge_of 500 "card" "")))).
Proof.
  apply (payment_refund_unchecked "t2" 2 (refund_of 999) _
           (request_tx "t1" 1 StatusSucceeded (charge_of 500 "card" "")));
    [reflexivity..| |]; done.
Defined.
