(* ===== verification/Breaker.v ===== *)
(** * pkg/resilience: the circuit breaker

    The methods of the breaker are functions on its record of atomics, as they act when they
    run alone.  [event]s are methods of concurrent calls that do not overlap, though the
    protected functions do: [allowRequest] of one call may come between [allowRequest] and the
    recording of another.  The methods hold the mutex only while they change the state:
    [Threads] splits them into their atomic operations, and interleaves those.
    [time.Now()], in nanoseconds, is the argument [now]. *)

From S2P Require Import Prelude Errors.
From stdpp Require Import relations options.
Open Scope Z_scope.

(* src: pkg/resilience/resilience.go 53-73 CircuitBreakerConfig *)
Record CircuitBreakerConfig := {
  Name : string; FailureThreshold : Z; SuccessThreshold : Z; Timeout : Z;
  MaxRequests : Z; OnStateChange : bool (* a callback is configured *) }.

(* src: pkg/resilience/resilience.go 8-15 State *)
Inductive State := StateClosed | StateOpen | StateHalfOpen.
#[global] Instance State_eq_dec : EqDecision State.
Proof. solve_decision. Defined.

(** [notified] is the trace of the calls of [OnStateChange]. *)
(* src: pkg/resilience/circuitbreaker.go 11-28 CircuitBreaker *)
Record CircuitBreaker := {
  config : CircuitBreakerConfig; state : State; failures : Z; successes : Z;
  lastFailure : Z; halfOpenCount : Z; notified : list (string * State * State) }.

(* src: pkg/resilience/errors.go 17-18 ErrCircuitOpen *)
Definition ErrCircuitOpen : error := Unavailable "circuit breaker is open" None.
(* src: pkg/resilience/errors.go 20-21 ErrTooManyRequests *)
Definition ErrTooManyRequests : error :=
  ResourceExhausted "too many requests in half-open state" None.

(* src: pkg/resilience/circuitbreaker.go 30-49 NewCircuitBreaker *)
Definition NewCircuitBreaker (cfg : CircuitBreakerConfig) : CircuitBreaker :=
  let cfg := {|
    Name := Name cfg;
    FailureThreshold := if decide (FailureThreshold cfg = 0) then 5 else FailureThreshold cfg;
    SuccessThreshold := if decide (SuccessThreshold cfg = 0) then 2 else SuccessThreshold cfg;
    Timeout := if decide (Timeout cfg = 0) then 30 * 10 ^ 9 else Timeout cfg;
    MaxRequests := MaxRequests cfg; OnStateChange := OnStateChange cfg |} in
  {| config := cfg; state := StateClosed; failures := 0; successes := 0;
     lastFailure := 0; halfOpenCount := 0; notified := [] |}.

(* src: pkg/resilience/circuitbreaker.go 188-196 setState *)
Definition setState (newState : State) (cb : CircuitBreaker) : CircuitBreaker :=
  if decide (state cb = newState) then cb
  else {| config := config cb; state := newState; failures := failures cb;
          successes := successes cb; lastFailure := lastFailure cb;
          halfOpenCount := halfOpenCount cb;
          notified := if OnStateChange (config cb)
                      then notified cb ++ [(Name (config cb), state cb, newState)]
                      else notified cb |}.

(** The [Store] operations of the atomics. *)
Definition set_failures (v : Z) (cb : CircuitBreaker) : CircuitBreaker :=
  {| config := config cb; state := state cb; failures := v; successes := successes cb;
     lastFailure := lastFailure cb; halfOpenCount := halfOpenCount cb;
     notified := notified cb |}.
Definition set_successes (v : Z) (cb : CircuitBreaker) : CircuitBreaker :=
  {| config := config cb; state := state cb; failures := failures cb; successes := v;
     lastFailure := lastFailure cb; halfOpenCount := halfOpenCount cb;
     notified := notified cb |}.
Definition set_lastFailure (v : Z) (cb : CircuitBreaker) : CircuitBreaker :=
  {| config := config cb; state := state cb; failures := failures cb;
     successes := successes cb; lastFailure := v; halfOpenCount := halfOpenCount cb;
     notified := notified cb |}.
Definition set_halfOpenCount (v : Z) (cb : CircuitBreaker) : CircuitBreaker :=
  {| config := config cb; state := state cb; failures := failures cb;
     successes := successes cb; lastFailure := lastFailure cb; halfOpenCount := v;
     notified := notified cb |}.

(** [Time.UnixMilli], and [time.Since], whose result saturates. *)
Definition UnixMilli (now : Z) : Z := now / 10 ^ 6.
Definition since (now ms : Z) : Z := (- 2 ^ 63) `max` (2 ^ 63 - 1) `min` (now - ms * 10 ^ 6).

(* src: pkg/resilience/circuitbreaker.go 74-82 Reset *)
Definition Reset (cb : CircuitBreaker) : CircuitBreaker :=
  set_halfOpenCount 0 (set_successes 0 (set_failures 0 (setState StateClosed cb))).

(* src: pkg/resilience/circuitbreaker.go 84-91 ForceOpen *)
Definition ForceOpen (now : Z) (cb : CircuitBreaker) : CircuitBreaker :=
  setState StateOpen (set_halfOpenCount 0 (set_lastFailure (UnixMilli now) cb)).

(* src: pkg/resilience/circuitbreaker.go 93-96 ForceClose *)
Definition ForceClose (cb : CircuitBreaker) : CircuitBreaker := Reset cb.

(** Alone, the compare-and-swap of the loop succeeds at once. *)
(* src: pkg/resilience/circuitbreaker.go 127-140 reserveHalfOpen *)
Definition reserveHalfOpen (cb : CircuitBreaker) : (bool * option error) * CircuitBreaker :=
  if decide (MaxRequests (config cb) ≤ 0) then ((true, None), cb)
  else
    let cur := halfOpenCount cb in
    if decide (MaxRequests (config cb) ≤ cur) then ((false, Some ErrTooManyRequests), cb)
    else ((true, None), set_halfOpenCount (i64 (cur + 1)) cb).

(* src: pkg/resilience/circuitbreaker.go 98-125 allowRequest *)
Definition allowRequest (now : Z) (cb : CircuitBreaker)
    : (bool * option error) * CircuitBreaker :=
  match state cb with
  | StateClosed => ((true, None), cb)
  | StateOpen =>
      if decide (Timeout (config cb) < since now (lastFailure cb)) then
        let cb := if decide (state cb = StateOpen)
                  then set_halfOpenCount 0 (set_successes 0 (setState StateHalfOpen cb))
                  else cb in
        reserveHalfOpen cb
      else ((false, Some ErrCircuitOpen), cb)
  | StateHalfOpen => reserveHalfOpen cb
  end.

(* src: pkg/resilience/circuitbreaker.go 142-161 recordSuccess *)
Definition recordSuccess (cb : CircuitBreaker) : CircuitBreaker :=
  match state cb with
  | StateClosed => set_failures 0 cb
  | StateHalfOpen =>
      let cb := set_successes (i64 (successes cb + 1)) cb in
      if decide (SuccessThreshold (config cb) ≤ successes cb) then
        if decide (state cb = StateHalfOpen)
        then set_halfOpenCount 0 (set_failures 0 (setState StateClosed cb))
        else cb
      else cb
  | StateOpen => cb
  end.

(* src: pkg/resilience/circuitbreaker.go 163-186 recordFailure *)
Definition recordFailure (now : Z) (cb : CircuitBreaker) : CircuitBreaker :=
  let st := state cb in
  let cb := set_lastFailure (UnixMilli now) cb in
  match st with
  | StateClosed =>
      let cb := set_failures (i64 (failures cb + 1)) cb in
      if decide (FailureThreshold (config cb) ≤ failures cb) then
        if decide (state cb = StateClosed) then setState StateOpen cb else cb
      else cb
  | StateHalfOpen =>
      if decide (state cb = StateHalfOpen)
      then set_halfOpenCount 0 (setState StateOpen cb) else cb
  | StateOpen => cb
  end.

(** The recording half of [Execute], after [fn] has returned. *)
Definition record (now : Z) (err : option error) (cb : CircuitBreaker) : CircuitBreaker :=
  match err with Some _ => recordFailure now cb | None => recordSuccess cb end.

(** A call with nothing in between: [fn] acts on a world that knows the time. *)
(* src: pkg/resilience/circuitbreaker.go 51-67 Execute *)
Definition Execute {W} (clock : W → Z) (fn : W → option error * W)
    (s : CircuitBreaker * W) : option error * (CircuitBreaker * W) :=
  let '(cb, w) := s in
  let '((allowed, reject), cb) := allowRequest (clock w) cb in
  if allowed then
    let '(err, w) := fn w in (err, (record (clock w) err cb, w))
  else (reject, (cb, w)).

(* src: pkg/resilience/circuitbreaker.go 198-206 Metrics *)
Definition Metrics (cb : CircuitBreaker) : State * Z * Z * Z :=
  (state cb, failures cb, successes cb, lastFailure cb * 10 ^ 6).

(** ** Calls whose methods do not overlap

    The events of concurrent calls: a call is admitted or refused, and an admitted
    call records its result later; an operator resets or opens the breaker. *)

Inductive event :=
  | Admit (now : Z)
  | Record (now : Z) (err : option error)
  | DoReset
  | DoForceOpen (now : Z).

Definition step (e : event) (cb : CircuitBreaker) : CircuitBreaker :=
  match e with
  | Admit now => (allowRequest now cb).2
  | Record now err => record now err cb
  | DoReset => Reset cb
  | DoForceOpen now => ForceOpen now cb
  end.

Definition admitted (e : event) (cb : CircuitBreaker) : bool :=
  match e with Admit now => (allowRequest now cb).1.1 | _ => false end.

Definition run (es : list event) (cb : CircuitBreaker) : CircuitBreaker :=
  fold_left (flip step) es cb.

(** The calls admitted since the breaker last became half-open. *)
Fixpoint probes (es : list event) (cb : CircuitBreaker) (n : Z) : Z :=
  match es with
  | [] => n
  | e :: es' =>
      let cb' := step e cb in
      let n' :=
        if decide (state cb' = StateHalfOpen) then
          (if decide (state cb = StateHalfOpen) then n else 0) +
          (if admitted e cb then 1 else 0)
        else 0 in
      probes es' cb' n'
  end.

(** ** Lemmas *)

(** Setters change one field; [setState] changes the state. *)
Lemma state_setState st cb : state (setState st cb) = st.
Proof. unfold setState. by case_decide. Qed.
Lemma config_setState st cb : config (setState st cb) = config cb.
Proof. unfold setState. by case_decide. Qed.
Lemma failures_setState st cb : failures (setState st cb) = failures cb.
Proof. unfold setState. by case_decide. Qed.
Lemma successes_setState st cb : successes (setState st cb) = successes cb.
Proof. unfold setState. by case_decide. Qed.
Lemma lastFailure_setState st cb : lastFailure (setState st cb) = lastFailure cb.
Proof. unfold setState. by case_decide. Qed.
Lemma halfOpenCount_setState st cb : halfOpenCount (setState st cb) = halfOpenCount cb.
Proof. unfold setState. by case_decide. Qed.

Create Rewrite HintDb breaker.
#[export] Hint Rewrite state_setState config_setState failures_setState
  successes_setState lastFailure_setState halfOpenCount_setState : breaker.

Ltac breaker_simpl := simpl in *; autorewrite with breaker in *; simpl in *.

Lemma step_config e cb : config (step e cb) = config cb.
Proof.
  destruct e as [now|now [err|]| |now]; simpl;
    unfold allowRequest, reserveHalfOpen, recordFailure, recordSuccess, Reset, ForceOpen;
    repeat (case_match; breaker_simpl); breaker_simpl; done.
Qed.

Lemma run_config es cb : config (run es cb) = config cb.
Proof.
  revert cb. induction es as [|e es IH]; intros cb; [done|].
  simpl. unfold flip. by rewrite IH, step_config.
Qed.

(** A half-open breaker counts its probes. *)
Definition count_ok (cb : CircuitBreaker) (n : Z) : Prop :=
  state cb = StateHalfOpen → n = halfOpenCount cb ∧ 0 ≤ n ≤ MaxRequests (config cb).

Lemma step_count e cb n :
  0 < MaxRequests (config cb) → is_i64 (MaxRequests (config cb)) → count_ok cb n →
  count_ok (step e cb)
    (if decide (state (step e cb) = StateHalfOpen) then
       (if decide (state cb = StateHalfOpen) then n else 0) +
       (if admitted e cb then 1 else 0) else 0).
Proof.
  unfold count_ok. intros Hmax Hi Hn Hst. rewrite decide_True, step_config by done.
  destruct e as [now|now [err|]| |now]; simpl in *;
    unfold allowRequest, reserveHalfOpen, recordFailure, recordSuccess, Reset, ForceOpen in *;
    destruct (state cb) eqn:E; repeat (case_decide; breaker_simpl; simplify_eq/=);
    try congruence; try (destruct Hn as [-> ?]; [done|]);
    (split; [try (rewrite i64_id by (unfold is_i64 in *; lia)); done || lia|lia]).
Qed.

Lemma run_probes es cb n :
  0 < MaxRequests (config cb) → is_i64 (MaxRequests (config cb)) → count_ok cb n →
  count_ok (run es cb) (probes es cb n).
Proof.
  revert cb n. induction es as [|e es IH]; intros cb n Hm Hi Hn; [done|].
  simpl. apply IH; [by rewrite step_config..|]. by apply step_count.
Qed.

(** [k] trailing failures, or [None] once [m] failures came in a row. *)
Fixpoint streak (m k : nat) (rs : list (Z * option error)) : option nat :=
  match rs with
  | [] => Some k
  | (_, None) :: rs' => streak m 0 rs'
  | (_, Some _) :: rs' => if decide (m ≤ S k)%nat then None else streak m (S k) rs'
  end.

Definition record_all (rs : list (Z * option error)) (cb : CircuitBreaker) : CircuitBreaker :=
  fold_left (λ cb r, record r.1 r.2 cb) rs cb.

Lemma record_all_open rs cb :
  state cb = StateOpen → state (record_all rs cb) = StateOpen.
Proof.
  revert cb. induction rs as [|[now [e|]] rs IH]; intros cb Hs; [done|..]; simpl; apply IH.
  - unfold recordFailure. by rewrite Hs.
  - unfold recordSuccess. by rewrite Hs.
Qed.

Lemma record_all_closed rs cb k :
  state cb = StateClosed → failures cb = Z.of_nat k →
  0 < FailureThreshold (config cb) → is_i64 (FailureThreshold (config cb)) →
  Z.of_nat k < FailureThreshold (config cb) →
  match streak (Z.to_nat (FailureThreshold (config cb))) k rs with
  | Some k' => state (record_all rs cb) = StateClosed ∧
               failures (record_all rs cb) = Z.of_nat k'
  | None => state (record_all rs cb) = StateOpen
  end.
Proof.
  revert cb k. induction rs as [|[now [e|]] rs IH]; intros cb k Hs Hf Hpos Hi Hk;
    [done|..]; cbn [streak record_all fold_left fst snd record].
  - unfold recordFailure. rewrite Hs. simpl. rewrite Hf, i64_id by (unfold is_i64 in *; lia).
    case_decide as Hd; case_decide; try lia; simpl.
    + apply record_all_open. by rewrite decide_True, state_setState.
    + apply (IH (set_failures (Z.of_nat k + 1) (set_lastFailure (UnixMilli now) cb)) (S k));
        simpl; auto; lia.
  - unfold recordSuccess. rewrite Hs. by apply (IH (set_failures 0 cb) 0%nat).
Qed.

Lemma streak_None m k rs :
  (k < m)%nat →
  streak m k rs = None ↔
    (∃ l1 l2, rs = l1 ++ l2 ∧ (m ≤ k + length l1)%nat ∧ Forall (λ r, is_Some r.2) l1) ∨
    ∃ l1 l2 l3, rs = l1 ++ l2 ++ l3 ∧ (m ≤ length l2)%nat ∧ Forall (λ r, is_Some r.2) l2.
Proof.
  revert k. induction rs as [|[now [e|]] rs IH]; intros k Hk; simpl.
  - split; [done|]. intros [(l1 & l2 & H & ? & _)|(l1 & l2 & l3 & H & ? & _)].
    + destruct l1; simpl in *; [lia|done].
    + destruct l1, l2; simpl in *; first [lia|done].
  - case_decide.
    + split; [|done]. intros _. left. exists [(now, Some e)], rs.
      split_and!; [done|simpl; lia|]. constructor; eauto.
    + rewrite IH by lia. split.
      * intros [(l1 & l2 & -> & ? & ?)|(l1 & l2 & l3 & -> & ? & ?)].
        -- left. exists ((now, Some e) :: l1), l2. split_and!; [done|simpl; lia|].
           constructor; eauto.
        -- right. by exists ((now, Some e) :: l1), l2, l3.
      * intros [(l1 & l2 & H1 & ? & Hl)|(l1 & l2 & l3 & H1 & ? & Hl)].
        -- destruct l1 as [|r l1]; simpl in *; [lia|]. simplify_eq.
           apply Forall_cons in Hl as [_ ?]. left. exists l1, l2. split_and!; [done|lia|done].
        -- destruct l1 as [|r l1]; simpl in *; simplify_eq; [|by right; exists l1, l2, l3].
           destruct l2 as [|r l2]; simpl in *; [lia|]. simplify_eq.
           apply Forall_cons in Hl as [_ ?]. left. exists l2, l3. split_and!; [done|lia|done].
  - rewrite IH by lia. split.
    + intros [(l1 & l2 & -> & ? & ?)|(l1 & l2 & l3 & -> & ? & ?)]; right.
      * by exists [(now, None)], l1, l2.
      * by exists ((now, None) :: l1), l2, l3.
    + intros [(l1 & l2 & H1 & ? & Hl)|(l1 & l2 & l3 & H1 & ? & Hl)].
      * destruct l1 as [|r l1]; simpl in *; [lia|]. simplify_eq.
        apply Forall_cons in Hl as [[? ?] _]. done.
      * destruct l1 as [|r l1]; simpl in *; simplify_eq; [|by right; exists l1, l2, l3].
        destruct l2 as [|r l2]; simpl in *; [lia|]. simplify_eq.
        apply Forall_cons in Hl as [[? ?] _]. done.
Qed.

(** ** Properties *)

(** A closed breaker opens exactly on [FailureThreshold] failures in a row:
    whatever calls finish, in whatever order, on a new breaker, it is open
    afterwards when and only when that many consecutive results were failures
    (a success in between starts the count again), and closed otherwise. *)
Theorem breaker_opens_iff cfg rs :
  0 < FailureThreshold cfg → is_i64 (FailureThreshold cfg) →
  let cb := record_all rs (NewCircuitBreaker cfg) in
  (state cb = StateOpen ↔
     ∃ l1 l2 l3, rs = l1 ++ l2 ++ l3 ∧ FailureThreshold cfg ≤ Z.of_nat (length l2) ∧
       Forall (λ r, is_Some r.2) l2) ∧
  (state cb = StateOpen ∨ state cb = StateClosed).
Proof.
  intros Hpos Hi cb.
  pose proof (record_all_closed rs (NewCircuitBreaker cfg) 0) as Hc.
  simpl in Hc. rewrite decide_False in Hc by lia. specialize (Hc eq_refl eq_refl Hpos Hi Hpos).
  set (m := Z.to_nat (FailureThreshold cfg)) in *.
  pose proof (streak_None m 0 rs ltac:(lia)) as Hstr. fold cb in Hc.
  assert (streak m 0 rs = None ↔ ∃ l1 l2 l3, rs = l1 ++ l2 ++ l3 ∧
    FailureThreshold cfg ≤ Z.of_nat (length l2) ∧ Forall (λ r, is_Some r.2) l2) as Hiff.
  { rewrite Hstr. split.
    - intros [(l1 & l2 & -> & ? & ?)|(l1 & l2 & l3 & -> & ? & ?)].
      + exists [], l1, l2. split_and!; [done|lia|done].
      + exists l1, l2, l3. split_and!; [done|lia|done].
    - intros (l1 & l2 & l3 & -> & ? & ?). right. exists l1, l2, l3.
      split_and!; [done|lia|done]. }
  rewrite <- Hiff. destruct (streak m 0 rs) as [k|].
  - destruct Hc as [Hc _]. rewrite Hc. split; [split; done|by right].
  - rewrite Hc. split; [done|by left].
Qed.

Definition sample_cfg (f s m : Z) : CircuitBreakerConfig :=
  {| Name := "db"; FailureThreshold := f; SuccessThreshold := s; Timeout := 10 ^ 9;
     MaxRequests := m; OnStateChange := true |}.
Definition boom : error := Internal "boom" None.

Lemma breaker_opens_iff_witness :
  state (record_all [(1, Some boom); (2, None); (3, Some boom); (4, Some boom)]
    (NewCircuitBreaker (sample_cfg 2 2 0))) = StateOpen.
Proof.
  apply (breaker_opens_iff (sample_cfg 2 2 0)); [done|compute_decide|].
  exists [(1, Some boom); (2, None)], [(3, Some boom); (4, Some boom)], [].
  split_and!; [done..|]. repeat constructor; eauto.
Defined.

(** While open, the breaker refuses every call until more than [Timeout] has
    passed since the failure that is on record: over any sequence of admissions
    and of results of calls still in flight, at times within the timeout of the
    last recorded failure, no call is admitted and the breaker stays open. *)
Theorem breaker_open_window es cb :
  state cb = StateOpen →
  (∀ e, e ∈ es → match e with
                 | Admit now => now - lastFailure cb * 10 ^ 6 ≤ Timeout (config cb)
                 | Record now err => err = None ∨ lastFailure cb ≤ UnixMilli now
                 | _ => False end) →
  0 ≤ Timeout (config cb) →
  state (run es cb) = StateOpen ∧
  Forall (λ e, ∀ es1 es2, es = es1 ++ e :: es2 → admitted e (run es1 cb) = false) es.
Proof.
  intros Hs Hes Ht.
  assert (∀ es1 es2, es = es1 ++ es2 → state (run es1 cb) = StateOpen ∧
    config (run es1 cb) = config cb ∧ lastFailure cb ≤ lastFailure (run es1 cb)) as Hrun.
  { intros es1. induction es1 as [|e es1 IH] using rev_ind; intros es2 ->; [done|].
    rewrite <- app_assoc in IH. destruct (IH _ eq_refl) as (Hst & Hcfg & Hl).
    unfold run. rewrite fold_left_app. simpl. fold (run es1 cb).
    assert (e ∈ (es1 ++ [e]) ++ es2) as He by set_solver. apply Hes in He.
    split_and!; [|by rewrite step_config|];
      destruct e as [now|now [err|]| |now]; simpl in *; try done;
      unfold allowRequest, recordFailure, recordSuccess; rewrite Hst; try done;
      try (rewrite decide_False; [done|]; rewrite Hcfg; unfold since; lia).
    simpl. destruct He as [?|He]; [done|]. lia. }
  split; [apply (Hrun es []); by rewrite app_nil_r|].
  apply Forall_forall. intros e He es1 es2 ->.
  destruct (Hrun es1 (e :: es2) eq_refl) as (Hst & Hcfg & Hl). apply Hes in He.
  destruct e as [now| | |]; try done. simpl. unfold allowRequest. rewrite Hst.
  rewrite decide_False; [done|]. rewrite Hcfg. unfold since. lia.
Qed.

Definition tripped (f s m : Z) : CircuitBreaker :=
  record_all (replicate (Z.to_nat f) (5 * 10 ^ 6, Some boom))
    (NewCircuitBreaker (sample_cfg f s m)).

Lemma breaker_open_window_witness :
  state (run [Admit (7 * 10 ^ 6); Record (8 * 10 ^ 6) (Some boom); Admit (10 ^ 9)]
           (tripped 2 2 1)) = StateOpen.
Proof.
  apply breaker_open_window; [reflexivity| |done].
  intros e He. elem_cases He; subst; [done|right; done|done].
Defined.

(** ** The atomic operations of concurrent calls

    The methods of the breaker take the mutex only to change [state]; the state and the
    counters are read, added to and compared and swapped without it.  Here every load, store,
    addition and compare-and-swap of an atomic, and every lock and unlock, is a step of its own. *)

Module Threads.

(** Where a goroutine is in [Execute], [Reset] or [ForceOpen]; the comment is the line it executes
    next. *)
(* src: pkg/resilience/circuitbreaker.go 51-186 Execute *)
Inductive pc :=
  | Call                                                                     (* 100 *)
  | OpenSince                                                                (* 107-108 *)
  | OpenLock | OpenCheck | OpenSuccesses | OpenCount | OpenUnlock            (* 109-115 *)
  | Load | Swap (cur : Z)                                                    (* 132-133, 136 *)
  | Rejected (e : option error)                                              (* 55 *)
  | Running                                                                  (* 58 *)
  | Fail (e : error) | FailTime (e : error) (st : State)                     (* 164, 165 *)
  | FailAdd (e : error) | FailLock (e : error) | FailCheck (e : error)       (* 169, 171, 172-174 *)
  | ProbeLock (e : error) | ProbeCheck (e : error) | ProbeCount (e : error)  (* 179, 180-181, 182 *)
  | FailUnlock (e : error)                                                   (* 175, 184 *)
  | Succeed | SuccessClosed | SuccessAdd | SuccessLock | SuccessCheck        (* 143, 147, 150-151, 152, 153-154 *)
  | SuccessFailures | SuccessCount | SuccessUnlock                           (* 155, 156, 158 *)
  | ResetLock | ResetState | ResetFailures | ResetSuccesses | ResetCount | ResetUnlock (* 76-81, 77 *)
  | ForceLock | ForceLast | ForceCount | ForceState | ForceUnlock            (* 86-90, 87 *)
  | Returned (e : option error).

(** The goroutine, the holder of the mutex and the breaker. *)
Abbreviation local := (pc * option nat * CircuitBreaker)%type.

Definition lock (t : nat) (next : pc) (mu : option nat) (cb : CircuitBreaker) : option local :=
  match mu with None => Some (next, Some t, cb) | Some _ => None end.

(** One atomic operation of goroutine [t] at the time [now]; [ret] is what the function returns,
    [None] that [t] is blocked or has returned.  The state is stored only by the holder of the
    mutex, so the load of [setState] belongs to its store. *)
(* src: pkg/resilience/circuitbreaker.go 51-196 Execute *)
Definition atomic (now : Z) (ret : option error) (t : nat) (l : local) : option local :=
  let '(p, mu, cb) := l in
  match p with
  | Call =>
      Some (match state cb with StateClosed => Running | StateOpen => OpenSince | StateHalfOpen => Load end, mu, cb)
  | OpenSince =>
      Some (if decide (Timeout (config cb) < since now (lastFailure cb)) then OpenLock else Rejected (Some ErrCircuitOpen), mu, cb)
  | OpenLock => lock t OpenCheck mu cb
  | OpenCheck =>
      if decide (state cb = StateOpen) then Some (OpenSuccesses, mu, setState StateHalfOpen cb) else Some (OpenUnlock, mu, cb)
  | OpenSuccesses => Some (OpenCount, mu, set_successes 0 cb)
  | OpenCount => Some (OpenUnlock, mu, set_halfOpenCount 0 cb)
  | OpenUnlock => Some (Load, None, cb)
  | Load =>
      if decide (MaxRequests (config cb) ≤ 0) then Some (Running, mu, cb)
      else if decide (MaxRequests (config cb) ≤ halfOpenCount cb) then Some (Rejected (Some ErrTooManyRequests), mu, cb)
      else Some (Swap (halfOpenCount cb), mu, cb)
  | Swap cur =>
      if decide (halfOpenCount cb = cur) then Some (Running, mu, set_halfOpenCount (i64 (cur + 1)) cb)
      else Some (Load, mu, cb)
  | Running => Some (match ret with Some e => Fail e | None => Succeed end, mu, cb)
  | Fail e => Some (FailTime e (state cb), mu, cb)
  | FailTime e st =>
      Some (match st with StateClosed => FailAdd e | StateHalfOpen => ProbeLock e | StateOpen => Returned (Some e) end,
            mu, set_lastFailure (UnixMilli now) cb)
  | FailAdd e =>
      let cb := set_failures (i64 (failures cb + 1)) cb in
      Some (if decide (FailureThreshold (config cb) ≤ failures cb) then FailLock e else Returned (Some e), mu, cb)
  | FailLock e => lock t (FailCheck e) mu cb
  | FailCheck e => Some (FailUnlock e, mu, if decide (state cb = StateClosed) then setState StateOpen cb else cb)
  | ProbeLock e => lock t (ProbeCheck e) mu cb
  | ProbeCheck e =>
      if decide (state cb = StateHalfOpen) then Some (ProbeCount e, mu, setState StateOpen cb) else Some (FailUnlock e, mu, cb)
  | ProbeCount e => Some (FailUnlock e, mu, set_halfOpenCount 0 cb)
  | FailUnlock e => Some (Returned (Some e), None, cb)
  | Succeed =>
      Some (match state cb with StateClosed => SuccessClosed | StateHalfOpen => SuccessAdd | StateOpen => Returned None end, mu, cb)
  | SuccessClosed => Some (Returned None, mu, set_failures 0 cb)
  | SuccessAdd =>
      let cb := set_successes (i64 (successes cb + 1)) cb in
      Some (if decide (SuccessThreshold (config cb) ≤ successes cb) then SuccessLock else Returned None, mu, cb)
  | SuccessLock => lock t SuccessCheck mu cb
  | SuccessCheck =>
      if decide (state cb = StateHalfOpen) then Some (SuccessFailures, mu, setState StateClosed cb) else Some (SuccessUnlock, mu, cb)
  | SuccessFailures => Some (SuccessCount, mu, set_failures 0 cb)
  | SuccessCount => Some (SuccessUnlock, mu, set_halfOpenCount 0 cb)
  | SuccessUnlock => Some (Returned None, None, cb)
  | ResetLock => lock t ResetState mu cb
  | ResetState => Some (ResetFailures, mu, setState StateClosed cb)
  | ResetFailures => Some (ResetSuccesses, mu, set_failures 0 cb)
  | ResetSuccesses => Some (ResetCount, mu, set_successes 0 cb)
  | ResetCount => Some (ResetUnlock, mu, set_halfOpenCount 0 cb)
  | ResetUnlock => Some (Returned None, None, cb)
  | ForceLock => lock t ForceLast mu cb
  | ForceLast => Some (ForceCount, mu, set_lastFailure (UnixMilli now) cb)
  | ForceCount => Some (ForceState, mu, set_halfOpenCount 0 cb)
  | ForceState => Some (ForceUnlock, mu, setState StateOpen cb)
  | ForceUnlock => Some (Returned None, None, cb)
  | Rejected _ | Returned _ => None
  end.

(** [probes] are the calls that [reserveHalfOpen] has let through since the breaker last became
    half-open, [erased] those of them that came before the last store of 0 to [halfOpenCount]
    since then. *)
Record system := {
  brk : CircuitBreaker; mu : option nat; threads : gmap nat pc; probes : Z; erased : Z }.

Definition reserves (p p' : pc) : bool := match p, p' with Swap _, Running => true | _, _ => false end.
Definition stores_zero (p : pc) : bool :=
  match p with OpenCount | ProbeCount _ | SuccessCount | ResetCount | ForceCount => true | _ => false end.
Definition becomes_half_open (cb cb' : CircuitBreaker) : bool :=
  bool_decide (state cb ≠ StateHalfOpen ∧ state cb' = StateHalfOpen).

Definition moved (t : nat) (p : pc) (l : local) (s : system) : system :=
  let '(p', mu', cb') := l in
  let began := becomes_half_open (brk s) cb' in
  {| brk := cb'; mu := mu'; threads := <[t := p']> (threads s);
     probes := if began then 0 else probes s + (if reserves p p' then 1 else 0);
     erased := if began then 0 else if stores_zero p then probes s else erased s |}.

Definition entry (p : pc) : Prop := p = Call ∨ p = ResetLock ∨ p = ForceLock.

Inductive step (s : system) : system → Prop :=
  | step_call t p : threads s !! t = None → entry p →
      step s {| brk := brk s; mu := mu s; threads := <[t := p]> (threads s); probes := probes s; erased := erased s |}
  | step_move t p now ret l : threads s !! t = Some p → atomic now ret t (p, mu s, brk s) = Some l → step s (moved t p l s).

Definition start (cfg : CircuitBreakerConfig) : system :=
  {| brk := NewCircuitBreaker cfg; mu := None; threads := ∅; probes := 0; erased := 0 |}.

(** *** Invariant *)

(** The sections under the mutex, and what the holder knows there of the state. *)
Definition critical (p : pc) : bool :=
  match p with
  | OpenCheck | OpenSuccesses | OpenCount | OpenUnlock | FailCheck _ | ProbeCheck _ | ProbeCount _ | FailUnlock _
  | SuccessCheck | SuccessFailures | SuccessCount | SuccessUnlock | ResetState | ResetFailures | ResetSuccesses | ResetCount
  | ResetUnlock | ForceLast | ForceCount | ForceState | ForceUnlock => true
  | _ => false
  end.

Definition known (p : pc) : option State :=
  match p with
  | OpenSuccesses | OpenCount => Some StateHalfOpen
  | ProbeCount _ | ForceUnlock => Some StateOpen
  | SuccessFailures | SuccessCount | ResetFailures | ResetSuccesses | ResetCount => Some StateClosed
  | _ => None
  end.

(** How often 0 has been stored to [halfOpenCount] since the breaker became half-open. *)
Definition stores (p : pc) : Z := match p with OpenSuccesses | OpenCount => 0 | ForceState => 2 | _ => 1 end.

Definition holder_stores (s : system) : Z :=
  match mu s with Some t => default 1 (stores <$> threads s !! t) | None => 1 end.

Record inv (cfg : CircuitBreakerConfig) (s : system) : Prop := {
  inv_config : MaxRequests (config (brk s)) = MaxRequests cfg;
  inv_critical t p : threads s !! t = Some p → critical p = true → mu s = Some t;
  inv_known t p st : threads s !! t = Some p → known p = Some st → state (brk s) = st;
  inv_swap t cur : threads s !! t = Some (Swap cur) → cur < MaxRequests cfg;
  inv_count : 0 ≤ halfOpenCount (brk s) ≤ MaxRequests cfg;
  inv_probes : state (brk s) = StateHalfOpen →
    0 ≤ erased s ≤ holder_stores s * MaxRequests cfg ∧ erased s ≤ probes s ≤ erased s + halfOpenCount (brk s);
}.

Lemma threads_start cfg : 0 < MaxRequests cfg → inv cfg (start cfg).
Proof. intros. split; cbn; try done; try (intros *; by rewrite lookup_empty). lia. Qed.
Lemma critical_stores p : critical p = false → stores p = 1.
Proof. by destruct p. Qed.

Lemma known_critical p st : known p = Some st → critical p = true.
Proof. by destruct p. Qed.

Lemma inv_moved cfg s t p p' mu' cb' : inv cfg s → threads s !! t = Some p →
  MaxRequests (config cb') = MaxRequests cfg → (critical p' = true → mu' = Some t) →
  (mu' = mu s ∨ mu s = None ∨ mu s = Some t) → (∀ st, known p' = Some st → state cb' = st) →
  (state cb' = state (brk s) ∨ mu s = Some t) → (∀ cur, p' = Swap cur → cur < MaxRequests cfg) →
  0 ≤ halfOpenCount cb' ≤ MaxRequests cfg →
  let s' := moved t p (p', mu', cb') s in
  (state cb' = StateHalfOpen →
    0 ≤ erased s' ≤ holder_stores s' * MaxRequests cfg ∧ erased s' ≤ probes s' ≤ erased s' + halfOpenCount cb') →
  inv cfg s'.
Proof.
  intros I Hp Hc Hcr Hmu Hk Hst Hsw Hn s' Hpr. split; cbn; [done|..|done|done].
  - intros t' q Hq Hq'. destruct (decide (t' = t)) as [->|Hne].
    + rewrite lookup_insert_eq in Hq. injection Hq as <-. auto.
    + rewrite lookup_insert_ne in Hq by done. pose proof (inv_critical _ _ I _ _ Hq Hq'). destruct Hmu as [->|[?|?]]; congruence.
  - intros t' q st Hq Hq'. destruct (decide (t' = t)) as [->|Hne].
    + rewrite lookup_insert_eq in Hq. injection Hq as <-. auto.
    + rewrite lookup_insert_ne in Hq by done. destruct Hst as [->|Ht]; [by eapply I|].
      pose proof (inv_critical _ _ I _ _ Hq (known_critical _ _ Hq')). congruence.
  - intros t' cur Hq. destruct (decide (t' = t)) as [->|Hne]; [rewrite lookup_insert_eq in Hq; naive_solver|].
    rewrite lookup_insert_ne in Hq by done. by eapply I.
Qed.

Lemma holder_kept s t p p' cb' : threads s !! t = Some p → critical p = false → critical p' = false →
  holder_stores (moved t p (p', mu s, cb') s) = holder_stores s.
Proof.
  intros Hp Hc Hc'. unfold holder_stores. cbn. destruct (mu s) as [t'|]; [|done]. destruct (decide (t' = t)) as [->|Hne].
  - rewrite lookup_insert_eq, Hp. cbn. by rewrite !critical_stores.
  - by rewrite lookup_insert_ne.
Qed.

Lemma holder_holds s t p p' cb' : holder_stores (moved t p (p', Some t, cb') s) = stores p'.
Proof. unfold holder_stores. cbn. by rewrite lookup_insert_eq. Qed.

Lemma began_same cb cb' : state cb' = state cb → becomes_half_open cb cb' = false.
Proof. intros E. apply bool_decide_eq_false. rewrite E. tauto. Qed.

Lemma began_new cb : state cb = StateOpen → becomes_half_open cb (setState StateHalfOpen cb) = true.
Proof. intros E. apply bool_decide_eq_true. by rewrite E, state_setState. Qed.

Lemma inv_advance cfg s t p now ret l : 0 < MaxRequests cfg → is_i64 (MaxRequests cfg) → inv cfg s → threads s !! t = Some p →
  atomic now ret t (p, mu s, brk s) = Some l → inv cfg (moved t p l s).
Proof.
  intros Hm Hi I Hp Ha. pose proof (inv_critical _ _ I _ _ Hp) as Hc. pose proof (inv_known _ _ I t p) as Hk.
  pose proof (inv_config _ _ I) as Hcfg. pose proof (inv_count _ _ I) as Hn. pose proof (inv_probes _ _ I) as Hpr.
  assert (∀ cur, p = Swap cur → cur < MaxRequests cfg) as Hsw by (intros ? ->; by eapply I). unfold is_i64 in Hi.
  assert (mu s = Some t → holder_stores s = stores p) as Hh by (intros E; unfold holder_stores; by rewrite E, Hp).
  assert (mu s = None → holder_stores s = 1) as Hf by (intros E; unfold holder_stores; by rewrite E).
  destruct l as [[p' mu'] cb'].
  destruct p; cbn [atomic] in Ha; unfold lock in Ha;
    repeat (case_match || (apply (inj Some) in Ha || done) || (injection Ha as <- <- <-));
  (apply (inv_moved cfg s t);
    [done|done|cbn; by rewrite ?config_setState
    |cbn; try done; try (intros _; by apply Hc)
    |first [by left|right; left; done|right; right; by apply Hc]
    |cbn; rewrite ?state_setState; try (intros ? [= <-]; (done || by apply (Hk _ Hp))); done
    |cbn; rewrite ?state_setState; first [by left|right; by apply Hc]
    |try (intros ? [= <-]; lia); done
    |cbn; try (specialize (Hsw _ eq_refl)); rewrite ?halfOpenCount_setState, ?i64_id by (unfold is_i64; lia); lia
    |intros Hst; cbn in Hst; rewrite ?state_setState in Hst;
     try (exfalso; first [congruence|specialize (Hk _ Hp eq_refl); congruence]);
     try rewrite (Hc eq_refl) in *; try (specialize (Hh eq_refl); cbn in Hh); try (specialize (Hf eq_refl));
     rewrite ?holder_holds, ?holder_kept by done; cbn -[holder_stores];
     rewrite ?began_same, ?began_new, ?halfOpenCount_setState by done;
     try (specialize (Hsw _ eq_refl); rewrite i64_id by (unfold is_i64; lia));
     try (change (holder_stores _) with 1); try (destruct Hpr as [Hpr1 Hpr2]; [congruence|]); lia]).
Qed.

Lemma threads_inv cfg s : 0 < MaxRequests cfg → is_i64 (MaxRequests cfg) → rtc step (start cfg) s → inv cfg s.
Proof.
  intros Hm Hi H. eapply (rtc_ind_r (λ s, inv cfg s)); [by apply threads_start| |exact H]. clear s H. intros s s' _ [t p Hp He|t p now ret l Hp Ha] I.
  - assert (critical p = false ∧ known p = None ∧ ∀ cur, p ≠ Swap cur) as (E1 & E2 & E3) by (by destruct He as [->|[->| ->]]).
    split; cbn; try apply I.
    + intros t' q [[-> <-]|[? Hq]]%lookup_insert_Some; [congruence|by eapply I].
    + intros t' q st [[-> <-]|[? Hq]]%lookup_insert_Some; [congruence|by eapply I].
    + intros t' cur [[-> E]|[? Hq]]%lookup_insert_Some; [by destruct (E3 cur)|by eapply I].
    + intros Hst. destruct (inv_probes _ _ I Hst) as [H1 H2]. split; [|done]. unfold holder_stores in *. cbn.
      destruct (mu s) as [t'|]; [|done]. destruct (decide (t' = t)) as [->|Hne]; [|by rewrite lookup_insert_ne].
      rewrite lookup_insert_eq. rewrite Hp in H1. cbn in *. by rewrite critical_stores.
  - by eapply inv_advance.
Qed.

(** *** Methods that run alone *)

Definition alone (t : nat) (l l' : local) : Prop := ∃ now ret, atomic now ret t l = Some l'.

Lemma alone_runs t l l' : rtc (alone t) l l' → ∀ s, threads s !! t = Some l.1.1 → mu s = l.1.2 → brk s = l.2 →
  ∃ s', rtc step s s' ∧ threads s' !! t = Some l'.1.1 ∧ mu s' = l'.1.2 ∧ brk s' = l'.2.
Proof.
  induction 1 as [[[p m] cb]|[[p m] cb] [[p' m'] cb'] l' (now & ret & Ha) _ IH]; cbn; intros s Hp <- <-; [by exists s|].
  destruct (IH (moved t p (p', m', cb') s)) as (s' & Hr & HP); [cbn; by rewrite lookup_insert_eq|done|done|].
  exists s'. split; [|done]. eapply rtc_l; [by eapply step_move|done].
Qed.

(** One step, with what decides it. *)
Definition ok : option error := None.
Ltac solo now ret :=
  eapply rtc_l; [exists now, ret; cbn;
    first [match goal with E : state _ = _ |- _ => by rewrite E end|by rewrite decide_True|by rewrite decide_False|done]|].

Lemma alone_reserve t cb :
  let r := reserveHalfOpen cb in
  rtc (alone t) (Load, None, cb) (if r.1.1 then Running else Rejected r.1.2, None, r.2).
Proof.
  unfold reserveHalfOpen. destruct (decide (MaxRequests (config cb) ≤ 0)) as [H|H]; [|destruct (decide (MaxRequests (config cb) ≤ halfOpenCount cb)) as [H'|H']]; cbn.
  - eapply rtc_l; [|done]. exists 0, None. cbn. by rewrite decide_True.
  - eapply rtc_l; [|done]. exists 0, None. cbn. by rewrite decide_False, decide_True.
  - eapply rtc_l; [exists 0, None; cbn; by rewrite !decide_False|]. eapply rtc_l; [|done]. exists 0, None. cbn. by rewrite decide_True.
Qed.

Lemma alone_allow t now cb :
  let r := allowRequest now cb in
  rtc (alone t) (Call, None, cb) (if r.1.1 then Running else Rejected r.1.2, None, r.2).
Proof.
  unfold allowRequest. destruct (state cb) eqn:E.
  - solo now ok. done.
  - destruct (decide _) as [H|H].
    + rewrite decide_True by done.
      do 7 solo now ok. apply alone_reserve.
    + do 2 solo now ok. done.
  - solo now ok. apply alone_reserve.
Qed.

Lemma alone_record t now err cb : rtc (alone t) (Running, None, cb) (Returned err, None, record now err cb).
Proof.
  destruct err as [e|]; cbn [record].
  - do 2 solo now (Some e). unfold recordFailure. destruct (state cb) eqn:E.
    + solo now ok. cbn. destruct (decide (FailureThreshold _ ≤ _)) as [H|H].
      * rewrite decide_True by done. do 4 solo now ok. done.
      * solo now ok. done.
    + solo now ok. done.
    + do 2 solo now ok. rewrite decide_True by done. do 3 solo now ok. done.
  - solo now ok. unfold recordSuccess. destruct (state cb) eqn:E.
    + do 2 solo now ok. done.
    + solo now ok. done.
    + solo now ok. cbn. destruct (decide (SuccessThreshold _ ≤ _)) as [H|H].
      * rewrite decide_True by done. do 6 solo now ok. done.
      * solo now ok. done.
Qed.

Lemma alone_reset t cb : rtc (alone t) (ResetLock, None, cb) (Returned None, None, Reset cb).
Proof. do 6 solo 0 ok. done. Qed.

Lemma alone_force_open t now cb : rtc (alone t) (ForceLock, None, cb) (Returned None, None, ForceOpen now cb).
Proof. do 5 solo now ok. done. Qed.

(** *** The bound *)

(** A run of atomic operations, as the goroutines that move. *)
Fixpoint schedule (ts : list (nat * Z)) (ret : option error) (s : system) : option system :=
  match ts with
  | [] => Some s
  | (t, now) :: ts =>
      p ← threads s !! t; l ← atomic now ret t (p, mu s, brk s); schedule ts ret (moved t p l s)
  end.

Lemma schedule_sound ts ret : ∀ s s', schedule ts ret s = Some s' → rtc step s s'.
Proof.
  induction ts as [|[t now] ts IH]; cbn [schedule]; intros s s'; [by intros [= ->]|].
  destruct (threads s !! t) as [p|] eqn:Hp; cbn -[atomic]; [|done]. destruct (atomic now ret t (p, mu s, brk s)) as [l|] eqn:Ha; cbn -[atomic]; [|done].
  intros H. eapply rtc_l; [by eapply step_move|by apply IH].
Qed.

(** Goroutines 1, 2 and 3 call [Execute] of a new breaker, and the first fails. *)
Definition three_calls (cfg : CircuitBreakerConfig) : system :=
  {| brk := NewCircuitBreaker cfg; mu := None; threads := <[3%nat := Call]> (<[2%nat := Call]> (<[1%nat := Call]> ∅)); probes := 0; erased := 0 |}.

Lemma three_calls_reachable cfg : rtc step (start cfg) (three_calls cfg).
Proof.
  eapply rtc_l; [apply (step_call _ 1%nat Call); [reflexivity|by left]|].
  eapply rtc_l; [apply (step_call _ 2%nat Call); [reflexivity|by left]|].
  eapply rtc_l; [apply (step_call _ 3%nat Call); [reflexivity|by left]|]. done.
Qed.

(** Goroutine [t] can go on, with the others at rest, to [p] and leave the breaker as [cb]. *)
Definition runs_to (s : system) (t : nat) (p : pc) (cb : CircuitBreaker) : Prop :=
  ∃ s', rtc step s s' ∧ threads s' !! t = Some p ∧ mu s' = None ∧ brk s' = cb.

Lemma runs_to_alone s t p p' cb : threads s !! t = Some p → mu s = None →
  rtc (alone t) (p, None, brk s) (p', None, cb) → runs_to s t p' cb.
Proof. intros Hp Hm H. by apply (alone_runs t _ _ H s). Qed.

(** C26. The probe budget of a half-open breaker, in every interleaving of the atomic operations
    of any number of calls of [Execute], [Reset] and [ForceOpen], for a positive [MaxRequests]
    (others mean no limit).  [halfOpenCount] stays between 0 and [MaxRequests].  While the
    breaker is half-open, of the calls let through since it became so all but [erased] are
    counted in [halfOpenCount].  The calls erased are none before the goroutine that opened the
    window stores 0, and afterwards at most [MaxRequests], those that came between the stores
    of lines 111 and 113 (twice that between the two stores of [ForceOpen], lines 89 and 90):
    so at most twice [MaxRequests] calls probe, and [MaxRequests] when none came in between.
    A method that runs without interruption does what the function of its name computes. *)
Theorem breaker_half_open_bound cfg s :
  0 < MaxRequests cfg → is_i64 (MaxRequests cfg) → rtc step (start cfg) s →
  0 ≤ halfOpenCount (brk s) ≤ MaxRequests cfg ∧
  (state (brk s) = StateHalfOpen →
    0 ≤ erased s ≤ probes s ∧ probes s ≤ erased s + halfOpenCount (brk s) ∧ erased s ≤ 2 * MaxRequests cfg ∧
    ((∀ t, threads s !! t ≠ Some ForceState) → erased s ≤ MaxRequests cfg ∧ probes s ≤ 2 * MaxRequests cfg) ∧
    (∀ t, threads s !! t = Some OpenSuccesses ∨ threads s !! t = Some OpenCount → erased s = 0)) ∧
  (∀ t now, mu s = None → threads s !! t = Some Call →
    let r := allowRequest now (brk s) in runs_to s t (if r.1.1 then Running else Rejected r.1.2) r.2) ∧
  (∀ t now err, mu s = None → threads s !! t = Some Running → runs_to s t (Returned err) (record now err (brk s))) ∧
  (∀ t, mu s = None → threads s !! t = Some ResetLock → runs_to s t (Returned None) (Reset (brk s))) ∧
  (∀ t now, mu s = None → threads s !! t = Some ForceLock → runs_to s t (Returned None) (ForceOpen now (brk s))).
Proof.
  intros Hm Hi H. pose proof (threads_inv cfg s Hm Hi H) as I. pose proof (inv_count _ _ I) as Hn. split_and!.
  - lia.
  - lia.
  - intros Hst. destruct (inv_probes _ _ I Hst) as [H1 H2].
    assert (holder_stores s = 2 ∧ (∃ t, threads s !! t = Some ForceState) ∨ holder_stores s ≤ 1) as Hh.
    { unfold holder_stores. destruct (mu s) as [t|]; [|right; lia]. destruct (threads s !! t) as [p|] eqn:Hp; cbn; [|right; lia].
      destruct p; cbn; eauto with lia. }
    split_and!; [lia|lia|lia|destruct Hh as [[E _]|?]; nia| |].
    + intros Hf. destruct Hh as [[_ [t Ht]]|?]; [by destruct (Hf t)|]. nia.
    + intros t Ht. assert (holder_stores s = 0) as E; [|rewrite E in H1; lia]. unfold holder_stores.
      destruct Ht as [Ht|Ht]; rewrite (inv_critical _ _ I t _ Ht eq_refl), Ht; done.
  - intros t now Hmu Ht. eapply runs_to_alone; [done|done|apply alone_allow].
  - intros t now err Hmu Ht. eapply runs_to_alone; [done|done|apply alone_record].
  - intros t Hmu Ht. eapply runs_to_alone; [done|done|apply alone_reset].
  - intros t now Hmu Ht. eapply runs_to_alone; [done|done|apply alone_force_open].
Qed.

(** The first call fails and opens the breaker; after the timeout the second makes it half-open,
    and the third is let through before the second stores 0 to [halfOpenCount] and passes too. *)
Definition race : list (nat * Z) :=
  replicate 8 (1%nat, 1) ++ replicate 4 (2%nat, 2 * 10 ^ 9) ++ replicate 3 (3%nat, 2 * 10 ^ 9) ++ replicate 5 (2%nat, 2 * 10 ^ 9).

Lemma schedule_reached cfg ts ret (P : system → Prop) :
  match schedule ts ret (three_calls cfg) with Some s => P s | None => False end → ∃ s, rtc step (start cfg) s ∧ P s.
Proof.
  destruct (schedule ts ret (three_calls cfg)) as [s|] eqn:E; [|done]. intros HP. exists s. split; [|done].
  etrans; [apply three_calls_reachable|by eapply schedule_sound].
Qed.

Lemma breaker_half_open_bound_witness : ∃ s, rtc step (start (sample_cfg 1 2 1)) s ∧ probes s = 2 ∧ probes s ≤ 2 * 1.
Proof.
  destruct (schedule_reached (sample_cfg 1 2 1) race (Some boom) (λ s, state (brk s) = StateHalfOpen ∧ probes s = 2 ∧ threads s = <[3%nat := Running]> (<[2%nat := Running]> (<[1%nat := Returned (Some boom)]> ∅))))
    as (s & Hs & Hst & Hp & Ht); [vm_compute; by split_and!|].
  destruct (breaker_half_open_bound (sample_cfg 1 2 1) s ltac:(done) ltac:(compute_decide) Hs) as (_ & Hb & _).
  destruct (Hb Hst) as (_ & _ & _ & Hf & _). exists s. split_and!; [done|done|]. apply Hf. intros t. rewrite Ht.
  destruct (decide (t = 3%nat)) as [->|]; [by rewrite lookup_insert_eq|rewrite lookup_insert_ne by done].
  destruct (decide (t = 2%nat)) as [->|]; [by rewrite lookup_insert_eq|rewrite lookup_insert_ne by done].
  destruct (decide (t = 1%nat)) as [->|]; [by rewrite lookup_insert_eq|rewrite lookup_insert_ne by done]. by rewrite lookup_empty.
Defined.

(** The budget can be exceeded: with [MaxRequests] 1, two probes run at once. *)
Theorem breaker_half_open_race : ∃ s, rtc step (start (sample_cfg 1 2 1)) s ∧
  state (brk s) = StateHalfOpen ∧ MaxRequests (config (brk s)) = 1 ∧ probes s = 2 ∧
  threads s !! 2%nat = Some Running ∧ threads s !! 3%nat = Some Running.
Proof. apply (schedule_reached (sample_cfg 1 2 1) race (Some boom)). vm_compute. by split_and!. Qed.
End Threads.

(** When no two methods overlap, the calls admitted since the breaker last became half-open
    number exactly what [halfOpenCount] says, and at most [MaxRequests]. *)
Theorem breaker_half_open_count cfg es :
  0 < MaxRequests cfg → is_i64 (MaxRequests cfg) →
  let cb := run es (NewCircuitBreaker cfg) in
  let n := probes es (NewCircuitBreaker cfg) 0 in
  state cb = StateHalfOpen → n = halfOpenCount cb ∧ 0 ≤ n ≤ MaxRequests cfg.
Proof.
  intros Hpos Hi cb n Hst.
  destruct (run_probes es (NewCircuitBreaker cfg) 0) as [Hn Hb]; [done..|].
  rewrite run_config in Hb. by split.
Qed.

(** [k] sequential calls, the [i]-th admitted and finished at the given times,
    all successful. *)
Definition succeed_all (ts : list (Z * Z)) (cb : CircuitBreaker) : CircuitBreaker :=
  run (ts ≫= λ t, [Admit t.1; Record t.2 None]) cb.

Lemma succeed_all_spend ts cb :
  state cb = StateHalfOpen → halfOpenCount cb = successes cb → 0 ≤ successes cb →
  successes cb + Z.of_nat (length ts) = MaxRequests (config cb) →
  0 < MaxRequests (config cb) < SuccessThreshold (config cb) →
  is_i64 (MaxRequests (config cb)) →
  state (succeed_all ts cb) = StateHalfOpen ∧
  halfOpenCount (succeed_all ts cb) = MaxRequests (config (succeed_all ts cb)) ∧
  0 < MaxRequests (config (succeed_all ts cb)).
Proof.
  revert cb. induction ts as [|[t1 t2] ts IH]; intros cb Hst Hc Hs Hlen Hm Hi.
  { simpl in Hlen. change (succeed_all [] cb) with cb. split_and!; [done|lia|lia]. }
  simpl in Hlen. unfold is_i64 in *.
  change (succeed_all ((t1, t2) :: ts) cb)
    with (succeed_all ts (recordSuccess (allowRequest t1 cb).2)).
  unfold allowRequest, reserveHalfOpen. rewrite Hst, !decide_False by lia. simpl.
  unfold recordSuccess. simpl. rewrite Hst, !i64_id by (unfold is_i64; lia).
  rewrite decide_False by lia. apply IH; simpl; try done; lia.
Qed.

(** The probe budget is spent, never returned: a finished probe does not
    lower [halfOpenCount].  So when [MaxRequests] is positive and smaller than
    [SuccessThreshold], a breaker that became half-open and whose [MaxRequests]
    probes all succeeded is stuck: it is still half-open, and refuses every later
    call, at any time, with too many requests, until it is reset or forced open. *)
Theorem breaker_half_open_stuck cb ts nows :
  state cb = StateHalfOpen → halfOpenCount cb = 0 → successes cb = 0 →
  0 < MaxRequests (config cb) < SuccessThreshold (config cb) →
  is_i64 (MaxRequests (config cb)) → Z.of_nat (length ts) = MaxRequests (config cb) →
  let cb' := succeed_all ts cb in
  state cb' = StateHalfOpen ∧ run (Admit <$> nows) cb' = cb' ∧
  Forall (λ now, allowRequest now cb' = ((false, Some ErrTooManyRequests), cb')) nows.
Proof.
  intros Hst Hc Hs Hm Hi Hlen cb'.
  destruct (succeed_all_spend ts cb) as (Hst' & Hc' & Hm'); [done|lia..|done|].
  fold cb' in Hst', Hc', Hm'.
  assert (∀ now, allowRequest now cb' = ((false, Some ErrTooManyRequests), cb')) as Ha.
  { intros now. unfold allowRequest, reserveHalfOpen. rewrite Hst'.
    by rewrite decide_False, decide_True by lia. }
  split_and!; [done| |by apply Forall_true].
  induction nows as [|now nows IH]; [done|]. simpl. by rewrite Ha.
Qed.

(** One allowed probe, two successes needed: the probe succeeds, and the breaker
    answers every later call, hours after, with too many requests. *)
Lemma breaker_half_open_stuck_witness :
  let cb := {| config := sample_cfg 1 2 1; state := StateHalfOpen; failures := 1;
               successes := 0; lastFailure := 0; halfOpenCount := 0; notified := [] |} in
  let cb' := succeed_all [(2, 3)] cb in
  state cb' = StateHalfOpen ∧ run (Admit <$> [4 * 10 ^ 9; 10 ^ 13]) cb' = cb' ∧
  Forall (λ now, allowRequest now cb' = ((false, Some ErrTooManyRequests), cb'))
    [4 * 10 ^ 9; 10 ^ 13].
Proof. apply breaker_half_open_stuck; try done. Defined.

Lemma succeed_all_half_open ts cb :
  state cb = StateHalfOpen → 0 < SuccessThreshold (config cb) →
  is_i64 (SuccessThreshold (config cb)) →
  (MaxRequests (config cb) ≤ 0 ∨ SuccessThreshold (config cb) ≤ MaxRequests (config cb) ∧
     is_i64 (MaxRequests (config cb)) ∧ halfOpenCount cb = successes cb) →
  0 ≤ successes cb →
  successes cb + Z.of_nat (length ts) = SuccessThreshold (config cb) → ts ≠ [] →
  state (succeed_all ts cb) = StateClosed.
Proof.
  revert cb. induction ts as [|[t1 t2] ts IH]; intros cb Hst Hs Hsi Hm Hpos Hlen Hne; [done|].
  change (state (succeed_all ts (recordSuccess (allowRequest t1 cb).2)) = StateClosed).
  simpl in Hlen. unfold is_i64 in *.
  assert (∃ c, (allowRequest t1 cb).2 = set_halfOpenCount c cb ∧
    (MaxRequests (config cb) ≤ 0 ∨ c = halfOpenCount cb + 1)) as (c & Hc & Hc').
  { unfold allowRequest, reserveHalfOpen. rewrite Hst. case_decide.
    - exists (halfOpenCount cb). split; [by destruct cb|by left].
    - rewrite decide_False by lia. simpl. rewrite i64_id by (unfold is_i64; lia). eauto. }
  rewrite Hc. unfold recordSuccess. simpl. rewrite Hst, i64_id by (unfold is_i64; lia).
  case_decide.
  - rewrite decide_True by done. simpl.
    destruct ts; [simpl; by rewrite state_setState|simpl in *; lia].
  - apply IH; simpl; [done|done|done|lia|lia|lia|].
    intros ->. simpl in *. lia.
Qed.

(** Recovery: when [MaxRequests] is unlimited or at least [SuccessThreshold],
    a breaker that has just become half-open closes after exactly
    [SuccessThreshold] successful calls in sequence. *)
Theorem breaker_recovers cb ts :
  state cb = StateHalfOpen → halfOpenCount cb = 0 → successes cb = 0 →
  0 < SuccessThreshold (config cb) → is_i64 (SuccessThreshold (config cb)) →
  MaxRequests (config cb) ≤ 0 ∨
    SuccessThreshold (config cb) ≤ MaxRequests (config cb) ∧ is_i64 (MaxRequests (config cb)) →
  Z.of_nat (length ts) = SuccessThreshold (config cb) →
  state (succeed_all ts cb) = StateClosed.
Proof.
  intros Hst Hh Hs Hpos Hi Hm Hlen. apply succeed_all_half_open; try done; try lia.
  - destruct Hm as [?|[??]]; [by left|right]. split_and!; [done..|lia].
  - intros ->. simpl in *. lia.
Qed.

Lemma breaker_recovers_witness :
  state (succeed_all [(1, 2); (3, 4)]
    {| config := sample_cfg 1 2 2; state := StateHalfOpen; failures := 1; successes := 0;
       lastFailure := 0; halfOpenCount := 0; notified := [] |}) = StateClosed.
Proof.
  apply breaker_recovers; try done. right. split; [done|compute_decide].
Defined.
