(* ===== verification/Saga.v ===== *)
(** * pkg/workflow/saga: sagas with compensation

    The values that flow between steps ([interface{}]) are the type [D], whose
    [nil] is [nilD]; what the actions act on is the type [W], which also knows the
    time.  An [ActionFunc] receives the timeout of the context it runs under, [0]
    for the caller's own, and answers with an output or an error.

    The step results are pointers shared by [exec.Steps] and [completedSteps]:
    the completed steps are a prefix of the steps of the execution, and the
    compensation updates them in place. *)

From S2P Require Import Prelude Errors.
From stdpp Require Import options.
Open Scope Z_scope.

(* src: pkg/workflow/saga/saga.go 13-23 ExecutionStatus *)
Inductive ExecutionStatus :=
  | StatusPending | StatusRunning | StatusCompleted | StatusCompensating
  | StatusCompensated | StatusFailed.

#[global] Instance ExecutionStatus_eq_dec : EqDecision ExecutionStatus.
Proof. solve_decision. Defined.

Section saga.
Context {D W : Type} (nilD : D) (clock : W → Z).

(* src: pkg/workflow/saga/saga.go 25-26 ActionFunc *)
Definition ActionFunc : Type := Z → D → W → (error + D) * W.

(* src: pkg/workflow/saga/saga.go 28-41 Step *)
Record Step := {
  Name : string; Action : ActionFunc; Compensate : option ActionFunc; Timeout : Z }.

(* src: pkg/workflow/saga/saga.go 43-62 StepResult *)
Record StepResult := {
  r_Name : string; r_Status : ExecutionStatus; r_Output : D; r_Error : option error;
  r_StartedAt : Z; r_CompletedAt : Z }.

(* src: pkg/workflow/saga/saga.go 64-92 Execution *)
Record Execution := {
  ID : string; SagaName : string; Status : ExecutionStatus; Input : D; Output : D;
  ErrorMsg : string; Steps : list StepResult; StartedAt : Z; CompletedAt : Z }.

(* src: pkg/workflow/saga/saga.go 94-98 Saga *)
Record Saga := { name : string; steps : list Step }.

(* src: pkg/workflow/saga/saga.go 100-106 New *)
Definition New (n : string) : Saga := {| name := n; steps := [] |}.

(* src: pkg/workflow/saga/saga.go 108-112 AddStep *)
Definition AddStep (s : Saga) (step : Step) : Saga :=
  {| name := name s; steps := steps s ++ [step] |}.

Definition mark (st : ExecutionStatus) (err : option error) (r : StepResult) : StepResult :=
  {| r_Name := r_Name r; r_Status := st; r_Output := r_Output r; r_Error := err;
     r_StartedAt := r_StartedAt r; r_CompletedAt := r_CompletedAt r |}.

(** The first step of the saga with the name. *)
(* src: pkg/workflow/saga/saga.go 187-193 step *)
Fixpoint find_step (n : string) (l : list Step) : option Step :=
  match l with
  | [] => None
  | st :: l' => if decide (Name st = n) then Some st else find_step n l'
  end.

(** The loop of [compensate], over the completed steps from the last one. *)
(* src: pkg/workflow/saga/saga.go 184-206 errs *)
Fixpoint compensate_loop (l : list Step) (rs : list StepResult) (w : W)
    : list StepResult * list error * W :=
  match rs with
  | [] => ([], [], w)
  | r :: rs' =>
      match find_step (r_Name r) l ≫= Compensate with
      | None =>
          let '(rs'', errs, w) := compensate_loop l rs' w in (r :: rs'', errs, w)
      | Some comp =>
          match comp 0 (r_Output r) w with
          | (inl err, w) =>
              let '(rs'', errs, w) := compensate_loop l rs' w in
              (mark StatusFailed (Some err) r :: rs'', err :: errs, w)
          | (inr _, w) =>
              let '(rs'', errs, w) := compensate_loop l rs' w in
              (mark StatusCompensated (r_Error r) r :: rs'', errs, w)
          end
      end
  end.

(** The text of [errors.Join]: the texts, one per line. *)
Fixpoint join_text (errs : list error) : string :=
  match errs with
  | [] => ""
  | [e] => Error e
  | e :: errs' => Error e +:+ String (Ascii.ascii_of_nat 10) EmptyString +:+ join_text errs'
  end.

(** The completed steps as the compensation leaves them, and its error. *)
(* src: pkg/workflow/saga/saga.go 181-213 compensate *)
Definition compensate (s : Saga) (completedSteps : list StepResult) (w : W)
    : list StepResult * option error * W :=
  let '(rs, errs, w) := compensate_loop (steps s) (rev completedSteps) w in
  (rev rs,
   match errs with
   | [] => None
   | _ => Some (Internal "compensation failed" (Some (OtherError (join_text errs))))
   end, w).

(** The loop of [Execute] over the remaining steps; [completed] are the results
    so far, all of them in [exec.Steps]. *)
(* src: pkg/workflow/saga/saga.go 125-178 exec *)
Fixpoint execute_loop (s : Saga) (ex : Execution) (todo : list Step) (data : D)
    (completed : list StepResult) (w : W) : Execution * option error * W :=
  match todo with
  | [] =>
      ({| ID := ID ex; SagaName := SagaName ex; Status := StatusCompleted;
          Input := Input ex; Output := data; ErrorMsg := ErrorMsg ex;
          Steps := completed; StartedAt := StartedAt ex; CompletedAt := clock w |},
       None, w)
  | step :: todo' =>
      let start := clock w in
      let timeout := if decide (0 < Timeout step) then Timeout step else 0 in
      match Action step timeout data w with
      | (inl err, w) =>
          let stepResult :=
            {| r_Name := Name step; r_Status := StatusFailed; r_Output := nilD;
               r_Error := Some err; r_StartedAt := start; r_CompletedAt := clock w |} in
          let '(completed, compErr, w) := compensate s completed w in
          ({| ID := ID ex; SagaName := SagaName ex;
              Status := match compErr with Some _ => StatusFailed
                                         | None => StatusCompensated end;
              Input := Input ex; Output := Output ex;
              ErrorMsg := match compErr with
                          | Some e => Error err +:+ "; compensation failed: " +:+ Error e
                          | None => Error err end;
              Steps := completed ++ [stepResult];
              StartedAt := StartedAt ex; CompletedAt := clock w |},
           Some err, w)
      | (inr output, w) =>
          let stepResult :=
            {| r_Name := Name step; r_Status := StatusCompleted; r_Output := output;
               r_Error := None; r_StartedAt := start; r_CompletedAt := clock w |} in
          execute_loop s ex todo' output (completed ++ [stepResult]) w
      end
  end.

(* src: pkg/workflow/saga/saga.go 114-179 Execute *)
Definition Execute (s : Saga) (uid : string) (input : D) (w : W)
    : Execution * option error * W :=
  let ex := {| ID := uid; SagaName := name s; Status := StatusRunning; Input := input;
               Output := nilD; ErrorMsg := ""; Steps := []; StartedAt := clock w;
               CompletedAt := zero_time |} in
  execute_loop s ex (steps s) input [] w.

(** [SagaRegistry] of [pkg/workflow/saga/saga.go]. *)
Abbreviation SagaRegistry := (gmap string Saga).

(* src: pkg/workflow/saga/saga.go 233-239 NewRegistry *)
Definition NewRegistry : SagaRegistry := ∅.

(* src: pkg/workflow/saga/saga.go 241-246 Register *)
Definition Register (r : SagaRegistry) (s : Saga) : SagaRegistry := <[name s := s]> r.

(* src: pkg/workflow/saga/saga.go 248-254 Get *)
Definition Get (r : SagaRegistry) (n : string) : option Saga := r !! n.

(** ** Specification: forward, then backward *)

(** Run the actions until one fails: the steps done with their outputs, latest
    first, then the error or the final value. *)
Fixpoint forward (todo : list Step) (data : D) (done : list (Step * D)) (w : W)
    : list (Step * D) * (error + D) * W :=
  match todo with
  | [] => (done, inr data, w)
  | st :: todo' =>
      match Action st (0 `max` Timeout st) data w with
      | (inl e, w) => (done, inl e, w)
      | (inr out, w) => forward todo' out ((st, out) :: done) w
      end
  end.

(** Run the compensation of each step that has one, on that step's own output:
    the errors, in order. *)
Fixpoint backward (done : list (Step * D)) (w : W) : list error * W :=
  match done with
  | [] => ([], w)
  | (st, out) :: done' =>
      match Compensate st with
      | None => backward done' w
      | Some comp =>
          match comp 0 out w with
          | (inl e, w) => let '(errs, w) := backward done' w in (e :: errs, w)
          | (inr _, w) => backward done' w
          end
      end
  end.

Definition result_of (r : StepResult) (so : Step * D) : Prop :=
  r_Name r = Name so.1 ∧ r_Output r = so.2.

Lemma find_step_self l st :
  NoDup (Name <$> l) → st ∈ l → find_step (Name st) l = Some st.
Proof.
  induction l as [|st' l IH]; simpl; [by intros _ ?%not_elem_of_nil|].
  intros [Hn Hnd]%NoDup_cons. rewrite elem_of_cons. intros [->|Hin].
  - by rewrite decide_True.
  - rewrite decide_False; [by auto|]. intros Heq. apply Hn. rewrite Heq.
    by apply list_elem_of_fmap_2.
Qed.

Lemma compensate_loop_spec l rs dn w :
  NoDup (Name <$> l) → Forall2 result_of rs dn → Forall (λ so, so.1 ∈ l) dn →
  let '(_, errs, w') := compensate_loop l rs w in backward dn w = (errs, w').
Proof.
  intros Hnd Hrs. revert w.
  induction Hrs as [|r [st out] rs dn [Hn Ho] Hrs IH]; intros w Hin; simpl in *; [done|].
  apply Forall_cons in Hin as [Hst Hin]. simpl in *.
  rewrite Hn, Ho, find_step_self by done. simpl.
  destruct (Compensate st) as [comp|].
  - destruct (comp 0 out w) as [[e|d] w1]; specialize (IH w1 Hin);
      destruct (compensate_loop l rs w1) as [[rs' errs] w2]; by rewrite IH.
  - specialize (IH w Hin). by destruct (compensate_loop l rs w) as [[rs' errs] w2].
Qed.

(** What [Execute] answers, by the specification. *)
Definition agrees (out : Execution * option error * W)
    (spec : list (Step * D) * (error + D) * W) : Prop :=
  let '(ex, err, w) := out in
  match spec with
  | (dn, inr d, w1) =>
      w = w1 ∧ err = None ∧ Status ex = StatusCompleted ∧ Output ex = d
  | (dn, inl e, w1) =>
      let '(errs, w2) := backward dn w1 in
      w = w2 ∧ err = Some e ∧
      Status ex = (if decide (errs = []) then StatusCompensated else StatusFailed)
  end.

Lemma execute_loop_spec s ex todo data completed dn w :
  NoDup (Name <$> steps s) → Forall2 result_of (rev completed) dn →
  Forall (λ so, so.1 ∈ steps s) dn → Forall (λ st, st ∈ steps s) todo →
  agrees (execute_loop s ex todo data completed w) (forward todo data dn w).
Proof.
  intros Hnd. revert data completed dn w.
  induction todo as [|st todo IH]; intros data completed dn w Hrs Hdn Htodo; simpl; [done|].
  apply Forall_cons in Htodo as [Hst Htodo].
  assert ((if decide (0 < Timeout st) then Timeout st else 0) = 0 `max` Timeout st) as ->.
  { case_decide; lia. }
  destruct (Action st _ data w) as [[e|out] w1].
  - unfold agrees, compensate.
    pose proof (compensate_loop_spec (steps s) (rev completed) dn w1 Hnd Hrs Hdn) as Hc.
    destruct (compensate_loop _ _ _) as [[rs' errs] w2]. rewrite Hc.
    destruct errs; simpl; by split_and!.
  - apply IH; [|by constructor|done]. rewrite rev_app_distr. simpl. by constructor.
Qed.

Lemma Execute_agrees s uid input w :
  NoDup (Name <$> steps s) →
  agrees (Execute s uid input w) (forward (steps s) input [] w).
Proof.
  intros Hnd. apply execute_loop_spec; [done|constructor|constructor|].
  by apply Forall_forall.
Qed.

(** Undoing what was done. *)
Definition undoes (st : Step) : Prop :=
  ∀ t d w out w', Action st t d w = (inr out, w') →
    match Compensate st with
    | Some comp => ∃ x, comp 0 out w' = (inr x, w)
    | None => w' = w
    end.

Definition clean_failure (st : Step) : Prop :=
  ∀ t d w e w', Action st t d w = (inl e, w') → w' = w.

Lemma forward_backward todo data dn w w0 dn' e w' :
  Forall undoes todo → Forall clean_failure todo →
  backward dn w = ([], w0) → forward todo data dn w = (dn', inl e, w') →
  backward dn' w' = ([], w0).
Proof.
  intros Hu Hc. revert data dn w.
  induction Hu as [|st todo Hst Hu IH]; intros data dn w Hb Hf; simpl in *; [done|].
  apply Forall_cons in Hc as [Hcst Hc].
  destruct (Action st _ data w) as [[e1|out] w1] eqn:Ha.
  - simplify_eq. by rewrite (Hcst _ _ _ _ _ Ha).
  - apply (IH Hc out ((st, out) :: dn) w1); [|done]. simpl.
    specialize (Hst _ _ _ _ _ Ha). destruct (Compensate st) as [comp|]; [|by subst].
    destruct Hst as [x ->]. done.
Qed.

End saga.

Arguments Step : clear implicits.
Arguments StepResult : clear implicits.
Arguments Execution : clear implicits.
Arguments Saga : clear implicits.
Arguments ActionFunc : clear implicits.

(** ** Properties *)

(** [Execute] is "forward until a failure, then back": for a saga whose step
    names are distinct it runs the actions in order, each on the output of the
    one before; when all succeed the execution is completed with the last output
    and no compensation runs; when one fails, the compensations of the completed
    steps run, latest first, each on its own step's output, and the execution is
    compensated if all of them succeed and failed otherwise, with the error of
    the action in either case. *)
Theorem saga_Execute_spec {D W} (nilD : D) (clock : W → Z) (s : Saga D W) uid input w :
  NoDup (Name <$> steps s) →
  agrees (Execute nilD clock s uid input w) (forward (steps s) input [] w).
Proof. apply Execute_agrees. Qed.

(** A sample world: a ledger of entries, with its length as the clock. *)
Abbreviation ledger := (list Z).
Definition push (v : Z) : ActionFunc Z ledger := λ _ d w, (inr (d + v), v :: w).
Definition pop : ActionFunc Z ledger := λ _ d w, (inr 0, tail w).
Definition refuse : ActionFunc Z ledger := λ _ _ w, (inl (Internal "no" None), w).
Definition step_of (n : string) (v : Z) : Step Z ledger :=
  {| Name := n; Action := push v; Compensate := Some pop; Timeout := 0 |}.
Definition failing (n : string) : Step Z ledger :=
  {| Name := n; Action := refuse; Compensate := None; Timeout := 5 |}.
Definition ledger_clock (w : ledger) : Z := Z.of_nat (length w).
Definition sample_saga : Saga Z ledger :=
  AddStep (AddStep (AddStep (New "s") (step_of "a" 1)) (step_of "b" 2)) (failing "c").

Lemma saga_Execute_spec_witness :
  agrees (Execute 0 ledger_clock sample_saga "x" 7 [])
    (forward (steps sample_saga) 7 [] []).
Proof. apply saga_Execute_spec. compute_decide. Defined.

(** A failed saga leaves no trace: when step names are distinct, every
    compensation undoes its action exactly (a step without one changes nothing)
    and a failing action changes nothing, [Execute] either completes or returns
    the world it started from, with the execution marked compensated. *)
Theorem saga_all_or_nothing {D W} (nilD : D) (clock : W → Z) (s : Saga D W) uid input w :
  NoDup (Name <$> steps s) → Forall undoes (steps s) → Forall clean_failure (steps s) →
  let '(ex, err, w') := Execute nilD clock s uid input w in
  (err = None ∧ Status ex = StatusCompleted) ∨
  (is_Some err ∧ Status ex = StatusCompensated ∧ w' = w).
Proof.
  intros Hnd Hu Hc. pose proof (Execute_agrees nilD clock s uid input w Hnd) as Ha.
  destruct (Execute _ _ _ _ _ _) as [[ex err] w'].
  destruct (forward (steps s) input [] w) as [[dn [e|d]] w1] eqn:Hf; simpl in Ha.
  - rewrite (forward_backward (steps s) input [] w w dn e w1 Hu Hc eq_refl Hf) in Ha.
    destruct Ha as (-> & -> & ->). right. eauto.
  - left. by destruct Ha as (_ & -> & -> & _).
Qed.

Lemma saga_all_or_nothing_witness :
  let '(ex, err, w') := Execute 0 ledger_clock sample_saga "x" 7 [9] in
  (err = None ∧ Status ex = StatusCompleted) ∨
  (is_Some err ∧ Status ex = StatusCompensated ∧ w' = [9]).
Proof.
  apply (saga_all_or_nothing 0 ledger_clock sample_saga "x" 7 [9]); [compute_decide|..].
  - repeat constructor; intros t d w out w' [= <- <-] || intros t d w out w' [=]; simpl; eauto.
  - repeat constructor; intros t d w e w' [=]; done.
Defined.

(** A compensation that records which output it was given. *)
Definition undo (tag : Z) : ActionFunc Z ledger := λ _ d w, (inr 0, (tag + d) :: w).
Definition tagged (n : string) (v tag : Z) : Step Z ledger :=
  {| Name := n; Action := push v; Compensate := Some (undo tag); Timeout := 0 |}.

(** Step names must be distinct for the compensations to be the right ones:
    [compensate] finds a completed step by its name, so in a saga with two steps
    of the same name the compensation of the first runs for both of them, and
    that of the second never runs.  Here the second step's compensation would
    leave an entry above 1000 in the ledger. *)
Theorem saga_duplicate_names :
  let s : Saga Z ledger :=
    {| name := "s"; steps := [tagged "a" 1 100; tagged "a" 2 1000; failing "c"] |} in
  let '(ex, _, w') := Execute 0 ledger_clock s "x" 0 [] in
  Status ex = StatusCompensated ∧ w' = [101; 103; 2; 1] ∧
  backward [(tagged "a" 2 1000, 3); (tagged "a" 1 100, 1)] [2; 1] = ([], [101; 1003; 2; 1]).
Proof. vm_compute. done. Qed.
