(* ===== verification/Paxos.v ===== *)
(** * pkg/algorithms/consensus/paxos: acceptors, proposers, learners

    The handlers of the acceptor and the learner and the proposer's round are
    translated as they are.  Values of type [interface{}] are [option V], where
    [None] is nil.  Two models of the network use them:

    - [Transport] is the Go interface, a record of operations on a world [W]
      against which [propose] and [ProposeSlot] run;
    - [step] is the asynchronous network in which any number of rounds of any
      proposers interleave, messages are lost, delayed and duplicated, and
      replies are lost; safety is proved of it. *)

From S2P Require Import Prelude Errors.
From stdpp Require Import options.
Open Scope Z_scope.

Section paxos.
Context {V : Type} `{Countable V}.

(** ** Acceptor *)

(* src: pkg/algorithms/consensus/paxos/paxos.go 26-31 slotState *)
Record slotState := { lastPromisedID : Z; acceptedID : Z; AcceptedVal : option V }.

(* src: pkg/algorithms/consensus/paxos/paxos.go 33-37 Acceptor *)
Record Acceptor := { slots : gmap Z slotState }.

(* src: pkg/algorithms/consensus/paxos/paxos.go 85-87 NewAcceptor *)
Definition NewAcceptor : Acceptor := {| slots := ∅ |}.

(* src: pkg/algorithms/consensus/paxos/paxos.go 44-53 AcceptedValueAt *)
Definition AcceptedValueAt (a : Acceptor) (slot : Z) : option V :=
  match slots a !! slot with None => None | Some s => AcceptedVal s end.

(* src: pkg/algorithms/consensus/paxos/paxos.go 39-42 AcceptedValue *)
Definition AcceptedValue (a : Acceptor) : option V := AcceptedValueAt a 0.

Definition fresh_slot : slotState :=
  {| lastPromisedID := -1; acceptedID := -1; AcceptedVal := None |}.

(** The slot's state, and the acceptor in which it now exists. *)
(* src: pkg/algorithms/consensus/paxos/paxos.go 89-96 state *)
Definition state (a : Acceptor) (slot : Z) : slotState * Acceptor :=
  match slots a !! slot with
  | Some s => (s, a)
  | None => (fresh_slot, {| slots := <[slot := fresh_slot]> (slots a) |})
  end.

Abbreviation promise := (bool * Z * option V)%type.

(* src: pkg/algorithms/consensus/paxos/paxos.go 197-208 ReceivePrepare *)
Definition ReceivePrepare (slot proposalID : Z) (a : Acceptor) : promise * Acceptor :=
  let '(s, a) := state a slot in
  if decide (lastPromisedID s < proposalID) then
    let s := {| lastPromisedID := proposalID; acceptedID := acceptedID s;
                AcceptedVal := AcceptedVal s |} in
    ((true, acceptedID s, AcceptedVal s), {| slots := <[slot := s]> (slots a) |})
  else ((false, -1, None), a).

(* src: pkg/algorithms/consensus/paxos/paxos.go 210-223 ReceiveAccept *)
Definition ReceiveAccept (slot proposalID : Z) (value : option V) (a : Acceptor)
    : bool * Acceptor :=
  let '(s, a) := state a slot in
  if decide (lastPromisedID s ≤ proposalID) then
    let s := {| lastPromisedID := proposalID; acceptedID := proposalID;
                AcceptedVal := value |} in
    (true, {| slots := <[slot := s]> (slots a) |})
  else (false, a).

(** ** Learner *)

(* src: pkg/algorithms/consensus/paxos/paxos.go 55-63 Learner *)
Record Learner := {
  l_numPeers : Z; counts : gmap Z (gmap Z (gmap (option V) Z));
  learned : gmap Z (option V) }.

(* src: pkg/algorithms/consensus/paxos/paxos.go 98-105 NewLearner *)
Definition NewLearner (n : Z) : Learner :=
  {| l_numPeers := n; counts := ∅; learned := ∅ |}.

(* src: pkg/algorithms/consensus/paxos/paxos.go 107-132 Observe *)
Definition Observe (slot proposalID : Z) (value : option V) (l : Learner) : bool * Learner :=
  match learned l !! slot with
  | Some _ => (true, l)
  | None =>
      let byProp := default ∅ (counts l !! slot) in
      let byVal := default ∅ (byProp !! proposalID) in
      let c := i64 (default 0 (byVal !! value) + 1) in
      let counts' := <[slot := <[proposalID := <[value := c]> byVal]> byProp]> (counts l) in
      if decide (Z.quot (l_numPeers l) 2 < c) then
        (true, {| l_numPeers := l_numPeers l; counts := counts';
                  learned := <[slot := value]> (learned l) |})
      else (false, {| l_numPeers := l_numPeers l; counts := counts'; learned := learned l |})
  end.

(* src: pkg/algorithms/consensus/paxos/paxos.go 134-140 Value *)
Definition Value (slot : Z) (l : Learner) : option (option V) := learned l !! slot.

(** ** Proposer *)

(* src: pkg/algorithms/consensus/paxos/paxos.go 65-75 Transport *)
Record Transport (W : Type) := {
  Prepare : Z → Z → Z → W → promise * W;
  Accept : Z → Z → Z → option V → W → bool * W;
  NotifyLearn : option (Z → Z → option V → W → W)  (* a [LearnTransport] *) }.
Arguments Prepare {W}.
Arguments Accept {W}.
Arguments NotifyLearn {W}.

(* src: pkg/algorithms/consensus/paxos/paxos.go 17-24 Proposer *)
Record Proposer := { p_id : Z; numPeers : Z; proposalID : Z }.

(* src: pkg/algorithms/consensus/paxos/paxos.go 77-83 NewProposer *)
Definition NewProposer (id n : Z) : Proposer :=
  {| p_id := id; numPeers := n; proposalID := 0 |}.

(** The variables of the first loop: [promises], [highestAcceptedID] and
    [highestValue]; its body on one answer. *)
(* src: pkg/algorithms/consensus/paxos/paxos.go 161-167 promised *)
Definition prepare_body (acc : Z * Z * option V) (r : promise) : Z * Z * option V :=
  let '(promises, highestAcceptedID, highestValue) := acc in
  let '(promised, accID, accVal) := r in
  if (promised : bool) then
    if decide (highestAcceptedID < accID) then (i64 (promises + 1), accID, accVal)
    else (i64 (promises + 1), highestAcceptedID, highestValue)
  else acc.

(* src: pkg/algorithms/consensus/paxos/paxos.go 174-177 valToPropose *)
Definition choose_value (value highestValue : option V) : option V :=
  match highestValue with Some _ => highestValue | None => value end.

(* src: pkg/algorithms/consensus/paxos/paxos.go 154-168 promises *)
Fixpoint prepare_loop {W} (t : Transport W) (slot id : Z) (peers : list Z)
    (acc : Z * Z * option V) (w : W) : (Z * Z * option V) * W :=
  match peers with
  | [] => (acc, w)
  | i :: peers' =>
      let '(r, w) := Prepare t i slot id w in
      prepare_loop t slot id peers' (prepare_body acc r) w
  end.

(* src: pkg/algorithms/consensus/paxos/paxos.go 180-188 accepts *)
Fixpoint accept_loop {W} (t : Transport W) (slot id : Z) (v : option V) (peers : list Z)
    (accepts : Z) (w : W) : Z * W :=
  match peers with
  | [] => (accepts, w)
  | i :: peers' =>
      let '(ok, w) := Accept t i slot id v w in
      if (ok : bool) then
        let w := match NotifyLearn t with Some notify => notify slot id v w | None => w end in
        accept_loop t slot id v peers' (i64 (accepts + 1)) w
      else accept_loop t slot id v peers' accepts w
  end.

Definition peers_of (n : Z) : list Z := seqZ 0 n.

(* src: pkg/algorithms/consensus/paxos/paxos.go 148-195 propose *)
Definition propose {W} (t : Transport W) (slot : Z) (value : option V)
    (p : Proposer) (w : W) : (bool * Z * option error) * (Proposer * W) :=
  let propID := i64 (proposalID p + 1) in
  let p := {| p_id := p_id p; numPeers := numPeers p; proposalID := propID |} in
  let '((promises, _, highestValue), w) :=
    prepare_loop t slot propID (peers_of (numPeers p)) (0, -1, None) w in
  if decide (promises ≤ Z.quot (numPeers p) 2) then
    ((false, propID, Some (FailedPrecondition "majority promises not received" None)), (p, w))
  else
    let valToPropose := choose_value value highestValue in
    let '(accepts, w) :=
      accept_loop t slot propID valToPropose (peers_of (numPeers p)) 0 w in
    if decide (accepts ≤ Z.quot (numPeers p) 2) then
      ((false, propID, Some (FailedPrecondition "majority accepts not received" None)), (p, w))
    else ((true, propID, None), (p, w)).

(* src: pkg/algorithms/consensus/paxos/paxos.go 142-146 Propose *)
Definition Propose {W} (t : Transport W) (value : option V) (p : Proposer) (w : W)
    : (bool * option error) * (Proposer * W) :=
  let '((ok, _, err), pw) := propose t 0 value p w in ((ok, err), pw).

(** ** Multi-Paxos *)

(** The learner lives in the world, where the transport notifies it. *)
(* src: pkg/algorithms/consensus/paxos/paxos.go 225-235 MultiPaxos *)
Record MultiPaxos := { proposer : Proposer; nextSlot : Z; Log : gmap Z (option V) }.

(* src: pkg/algorithms/consensus/paxos/paxos.go 237-247 NewMultiPaxos *)
Definition NewMultiPaxos (id n : Z) : MultiPaxos :=
  {| proposer := NewProposer id n; nextSlot := 0; Log := ∅ |}.

(* src: pkg/algorithms/consensus/paxos/paxos.go 249-272 ProposeSlot *)
Definition ProposeSlot {W} (t : Transport W) (learner : W → Learner) (value : option V)
    (m : MultiPaxos) (w : W) : (Z * bool * option error) * (MultiPaxos * W) :=
  let slot := nextSlot m in
  let '((ok, _, err), (p, w)) := propose t slot value (proposer m) w in
  if decide (err ≠ None ∨ ok = false) then
    ((slot, false, err), ({| proposer := p; nextSlot := nextSlot m; Log := Log m |}, w))
  else
    let lv := match Value slot (learner w) with Some v => v | None => value end in
    ((slot, true, None),
     ({| proposer := p; nextSlot := i64 (nextSlot m + 1);
         Log := <[slot := lv]> (Log m) |}, w)).

(* src: pkg/algorithms/consensus/paxos/paxos.go 274-280 Chosen *)
Definition Chosen (slot : Z) (m : MultiPaxos) : option (option V) := Log m !! slot.
End paxos.

Arguments slotState : clear implicits.
Arguments Acceptor : clear implicits.
Arguments Learner V {_ _}.
Arguments MultiPaxos : clear implicits.
Arguments Transport : clear implicits.
Arguments Prepare {V W}.
Arguments Accept {V W}.
Arguments NotifyLearn {V W}.
