(* ===== verification/PaxosNet.v ===== *)
(** * Agreement of the Paxos rounds over an asynchronous network

    The handlers of [Paxos] on a network of [N] acceptors.  A round is one run of
    [propose]: the answers its two loops have received so far, from peer [0] on.
    Rounds interleave freely and carry any proposal identifiers, so the counters
    of the proposers, which are not unique, are covered.  A request that gets no
    answer counts as refused; it may have been delivered, or be delivered later
    or again ([s_stray_prepare], [s_stray_accept]).  The notice of an acceptance to
    the learner may be lost, or wait in [notices] and arrive at any later time, in
    any order; it arrives at most once, since the learner counts notices and not
    acceptors ([learner_counts_duplicates]).  A proposed value may be nil: that
    values are not is a hypothesis of the theorem ([paxos_nil_disagrees] is what
    happens otherwise).  [votes] records, for the proofs, every acceptance that
    ever happened. *)

From S2P Require Import Prelude Errors Paxos.
From stdpp Require Import relations options.
Open Scope Z_scope.
#[local] Set Default Proof Using "Type*".

Section net.
Context {V : Type} `{Countable V} (N : Z) (HN : 0 < N) (HNi : is_i64 N).

Abbreviation reply := (bool * Z * option V)%type.

Record round := {
  r_slot : Z; r_id : Z; r_value : option V; replies : list reply; acks : list bool }.

Record net := {
  acceptors : list (Acceptor V); rounds : list round; learner : Learner V;
  notices : list (Z * Z * option V); votes : list (nat * Z * Z * option V) }.

Definition init : net :=
  {| acceptors := replicate (Z.to_nat N) NewAcceptor; rounds := [];
     learner := NewLearner N; notices := []; votes := [] |}.

(** The variables of the first loop after the answers received. *)
Definition tally (rs : list reply) : Z * Z * option V :=
  foldl prepare_body (0, -1, None) rs.

(** The round got past the majority test and sends this value. *)
Definition phase2 (r : round) : Prop :=
  Z.of_nat (length (replies r)) = N ∧ Z.quot N 2 < (tally (replies r)).1.1.
Definition r_val (r : round) : option V :=
  choose_value (r_value r) (tally (replies r)).2.

Definition trues (l : list bool) : Z := Z.of_nat (length (filter Is_true l)).

(** [propose] returned true. *)
Definition succeeded (r : round) : Prop :=
  phase2 r ∧ Z.of_nat (length (acks r)) = N ∧ Z.quot N 2 < trues (acks r).

Definition add_reply (r : round) (x : reply) : round :=
  {| r_slot := r_slot r; r_id := r_id r; r_value := r_value r;
     replies := replies r ++ [x]; acks := acks r |}.
Definition add_ack (r : round) (b : bool) : round :=
  {| r_slot := r_slot r; r_id := r_id r; r_value := r_value r;
     replies := replies r; acks := acks r ++ [b] |}.

Definition vote_if (ok : bool) (i : nat) (r : round) (vs : list (nat * Z * Z * option V)) :=
  if ok then (i, r_slot r, r_id r, r_val r) :: vs else vs.

Inductive step (s : net) : net → Prop :=
  | s_start slot id v :
      step s {| acceptors := acceptors s; learner := learner s; notices := notices s; votes := votes s;
                rounds := rounds s ++ [{| r_slot := slot; r_id := id; r_value := v;
                                          replies := []; acks := [] |}] |}
  | s_prepare k r a rep a' :
      rounds s !! k = Some r → Z.of_nat (length (replies r)) < N →
      acceptors s !! length (replies r) = Some a →
      ReceivePrepare (r_slot r) (r_id r) a = (rep, a') →
      step s {| acceptors := <[length (replies r) := a']> (acceptors s);
                rounds := <[k := add_reply r rep]> (rounds s);
                learner := learner s; notices := notices s; votes := votes s |}
  | s_prepare_lost k r :
      rounds s !! k = Some r → Z.of_nat (length (replies r)) < N →
      step s {| acceptors := acceptors s;
                rounds := <[k := add_reply r (false, -1, None)]> (rounds s);
                learner := learner s; notices := notices s; votes := votes s |}
  | s_stray_prepare i slot id a :
      acceptors s !! i = Some a →
      step s {| acceptors := <[i := (ReceivePrepare slot id a).2]> (acceptors s);
                rounds := rounds s; learner := learner s; notices := notices s; votes := votes s |}
  | s_accept k r a ok a' (sent : bool) :
      rounds s !! k = Some r → phase2 r → Z.of_nat (length (acks r)) < N →
      acceptors s !! length (acks r) = Some a →
      ReceiveAccept (r_slot r) (r_id r) (r_val r) a = (ok, a') →
      step s {| acceptors := <[length (acks r) := a']> (acceptors s);
                rounds := <[k := add_ack r ok]> (rounds s);
                learner := learner s;
                notices := if ok && sent then notices s ++ [(r_slot r, r_id r, r_val r)] else notices s;
                votes := vote_if ok (length (acks r)) r (votes s) |}
  | s_accept_lost k r :
      rounds s !! k = Some r → phase2 r → Z.of_nat (length (acks r)) < N →
      step s {| acceptors := acceptors s; rounds := <[k := add_ack r false]> (rounds s);
                learner := learner s; notices := notices s; votes := votes s |}
  | s_stray_accept i k r a ok a' :
      rounds s !! k = Some r → phase2 r → acceptors s !! i = Some a →
      ReceiveAccept (r_slot r) (r_id r) (r_val r) a = (ok, a') →
      step s {| acceptors := <[i := a']> (acceptors s); rounds := rounds s;
                learner := learner s; notices := notices s; votes := vote_if ok i r (votes s) |}
  | s_learn j slot id v :
      notices s !! j = Some (slot, id, v) →
      step s {| acceptors := acceptors s; rounds := rounds s;
                learner := (Observe slot id v (learner s)).2;
                notices := delete j (notices s); votes := votes s |}.

Definition reachable (s : net) : Prop := rtc step init s.

(** ** Quorums *)

Lemma trues_cons b l : trues (b :: l) = (if b then 1 else 0) + trues l.
Proof. unfold trues. rewrite filter_cons. destruct b; simpl; lia. Qed.

Lemma trues_snoc l b : trues (l ++ [b]) = trues l + (if b then 1 else 0).
Proof. unfold trues. rewrite filter_app, length_app, filter_cons. destruct b; simpl; lia. Qed.

Lemma trues_bound l : 0 ≤ trues l ≤ Z.of_nat (length l).
Proof. unfold trues. pose proof (length_filter Is_true l). lia. Qed.

Lemma quorums_meet (l1 l2 : list bool) :
  length l1 = length l2 → Z.of_nat (length l1) < trues l1 + trues l2 →
  ∃ i : nat, l1 !! i = Some true ∧ l2 !! i = Some true.
Proof.
  revert l2. induction l1 as [|b1 l1 IH]; intros [|b2 l2] Hlen Hc; simpl in *; try lia.
  { by cbv in Hc. }
  rewrite !trues_cons in Hc.
  destruct b1, b2; [by exists 0%nat|destruct (IH l2) as [i ?]; [lia|lia|by exists (S i)]..].
Qed.

(** The peers that promised to a round. *)
Definition promisers (r : round) : list bool := (λ x : reply, x.1.1) <$> replies r.

Lemma promisers_lookup r i :
  promisers r !! i = Some true → ∃ x y, replies r !! i = Some (true, x, y).
Proof.
  unfold promisers. rewrite list_lookup_fmap. destruct (replies r !! i) as [[[[] x] y]|]; naive_solver.
Qed.

Lemma tally_spec (rs : list reply) :
  Z.of_nat (length rs) ≤ N →
  let '(promises, h, hv) := tally rs in
  promises = trues ((λ x : reply, x.1.1) <$> rs) ∧
  (∀ i x y, rs !! i = Some (true, x, y) → x ≤ h) ∧
  (h = -1 ∧ hv = None ∨ ∃ i, rs !! i = Some (true, h, hv) ∧ -1 < h).
Proof.
  unfold tally. induction rs as [|[[b x] y] rs IH] using rev_ind; intros Hlen.
  { simpl. split_and!; [done|by intros|by left]. }
  rewrite length_app in Hlen. simpl in Hlen. rewrite foldl_snoc, fmap_app. simpl.
  rewrite trues_snoc. destruct (foldl _ _ rs) as [[p h] hv] eqn:E.
  destruct IH as (Hp & Hmax & Hh); [lia|].
  pose proof (trues_bound ((λ x : reply, x.1.1) <$> rs)) as Hb. rewrite length_fmap in Hb.
  assert (∀ h' hv', (∃ i, rs !! i = Some (true, h', hv') ∧ -1 < h') →
    ∃ i, (rs ++ [(b, x, y)]) !! i = Some (true, h', hv') ∧ -1 < h') as Hkeep.
  { intros h' hv' (i & Hi & ?). exists i. split; [|done]. by apply lookup_app_l_Some. }
  destruct b; simpl; [|split_and!; [lia| |naive_solver]].
  - case_decide; (split_and!; [rewrite i64_id; unfold is_i64 in *; lia|..]).
    + intros i x' y' [[_ Hl]|[_ Hl]]%lookup_snoc_Some; [|naive_solver lia].
      apply Hmax in Hl. lia.
    + right. exists (length rs). split; [by apply lookup_snoc_Some; right|].
      destruct Hh as [[-> _]|(i & _ & ?)]; lia.
    + intros i x' y' [[_ Hl]|[_ Hl]]%lookup_snoc_Some; [by eapply Hmax|naive_solver lia].
    + naive_solver.
  - intros i x' y' [[_ Hl]|[_ Hl]]%lookup_snoc_Some; [by eapply Hmax|naive_solver].
Qed.

Lemma phase2_quorum r :
  phase2 r → length (promisers r) = Z.to_nat N ∧ Z.quot N 2 < trues (promisers r).
Proof.
  intros [Hlen Hq]. pose proof (tally_spec (replies r) ltac:(lia)) as Ht.
  destruct (tally (replies r)) as [[p h] hv]. simpl in Hq. destruct Ht as (-> & _).
  unfold promisers. rewrite length_fmap. split; [lia|done].
Qed.

Lemma half : 0 ≤ Z.quot N 2 ∧ N ≤ 2 * Z.quot N 2 + 1.
Proof.
  rewrite Z.quot_div_nonneg by lia. pose proof (Z.mod_pos_bound N 2 ltac:(lia)).
  pose proof (Z.div_mod N 2 ltac:(lia)). lia.
Qed.

Lemma majorities_meet (l1 l2 : list bool) :
  length l1 = Z.to_nat N → length l2 = Z.to_nat N →
  Z.quot N 2 < trues l1 → Z.quot N 2 < trues l2 →
  ∃ i : nat, l1 !! i = Some true ∧ l2 !! i = Some true.
Proof. pose proof half. intros ????. apply quorums_meet; lia. Qed.

Lemma trues_pos (l : list bool) : 0 < trues l → ∃ i : nat, l !! i = Some true.
Proof.
  induction l as [|[] l IH]; intros Hl; [by cbv in Hl|by exists 0%nat|].
  rewrite trues_cons in Hl. destruct IH as [i ?]; [lia|by exists (S i)].
Qed.

Lemma majority_nonempty (l : list bool) :
  Z.quot N 2 < trues l → ∃ i : nat, l !! i = Some true.
Proof. pose proof half. intros Hq. apply trues_pos. lia. Qed.

(** ** Acceptors *)

Definition sst (a : Acceptor V) (slot : Z) : slotState V := default fresh_slot (slots a !! slot).

Lemma state_sst a slot s a' : state a slot = (s, a') → s = sst a slot ∧ ∀ sl, sst a' sl = sst a sl.
Proof.
  unfold state, sst. destruct (slots a !! slot) eqn:E; intros [= <- <-]; [done|].
  split; [done|]. intros sl. simpl. destruct (decide (sl = slot)) as [->|?].
  - by rewrite lookup_insert_eq, E.
  - by rewrite lookup_insert_ne.
Qed.

Lemma sst_insert a slot s sl :
  sst {| slots := <[slot := s]> (slots a) |} sl = if decide (sl = slot) then s else sst a sl.
Proof.
  unfold sst. simpl. case_decide as Hs; [subst; by rewrite lookup_insert_eq|].
  by rewrite lookup_insert_ne.
Qed.

Lemma ReceivePrepare_cases slot id a rep a' :
  ReceivePrepare slot id a = (rep, a') →
  (rep = (true, acceptedID (sst a slot), AcceptedVal (sst a slot)) ∧
   lastPromisedID (sst a slot) < id ∧
   ∀ sl, sst a' sl = if decide (sl = slot)
         then {| lastPromisedID := id; acceptedID := acceptedID (sst a slot);
                 AcceptedVal := AcceptedVal (sst a slot) |} else sst a sl) ∨
  (rep = (false, -1, None) ∧ ∀ sl, sst a' sl = sst a sl).
Proof.
  unfold ReceivePrepare. destruct (state a slot) as [s a1] eqn:E.
  apply state_sst in E as [-> Hs]. case_decide; intros [= <- <-]; [left|by right].
  split_and!; [done..|]. intros sl. rewrite sst_insert. case_decide; [done|apply Hs].
Qed.

Lemma ReceiveAccept_cases slot id v a ok a' :
  ReceiveAccept slot id v a = (ok, a') →
  (ok = true ∧ lastPromisedID (sst a slot) ≤ id ∧
   ∀ sl, sst a' sl = if decide (sl = slot)
         then {| lastPromisedID := id; acceptedID := id; AcceptedVal := v |} else sst a sl) ∨
  (ok = false ∧ ∀ sl, sst a' sl = sst a sl).
Proof.
  unfold ReceiveAccept. destruct (state a slot) as [s a1] eqn:E.
  apply state_sst in E as [-> Hs]. case_decide; intros [= <- <-]; [left|by right].
  split_and!; [done..|]. intros sl. rewrite sst_insert. case_decide; [done|apply Hs].
Qed.

(** ** The invariant *)

Abbreviation vote := (nat * Z * Z * option V)%type.

Definition acc_ok (vs : list vote) (i : nat) (slot : Z) (st : slotState V) : Prop :=
  -1 ≤ acceptedID st ≤ lastPromisedID st ∧
  (0 ≤ acceptedID st → (i, slot, acceptedID st, AcceptedVal st) ∈ vs) ∧
  (∀ id v, (i, slot, id, v) ∈ vs → id ≤ acceptedID st).

(** A promise given for [id] that reported [(x, y)]: [x] is the last vote before
    [id] that acceptor [i] ever cast. *)
Definition prom_ok (vs : list vote) (i : nat) (slot id x : Z) (y : option V)
    (st : slotState V) : Prop :=
  0 ≤ id ≤ lastPromisedID st ∧ -1 ≤ x < id ∧
  (0 ≤ x → (i, slot, x, y) ∈ vs) ∧
  (∀ id' v, (i, slot, id', v) ∈ vs → id' < id → id' ≤ x).

Record inv (accs : list (Acceptor V)) (rs : list round) (vs : list vote) : Prop := {
  i_len : length accs = Z.to_nat N;
  i_acc i a slot : accs !! i = Some a → acc_ok vs i slot (sst a slot);
  i_prom k r i x y : rs !! k = Some r → replies r !! i = Some (true, x, y) →
    ∃ a, accs !! i = Some a ∧ prom_ok vs i (r_slot r) (r_id r) x y (sst a (r_slot r));
  i_uniq k1 r1 k2 r2 i x1 y1 x2 y2 : rs !! k1 = Some r1 → rs !! k2 = Some r2 →
    r_slot r1 = r_slot r2 → r_id r1 = r_id r2 →
    replies r1 !! i = Some (true, x1, y1) → replies r2 !! i = Some (true, x2, y2) → k1 = k2;
  i_votes i slot id v : (i, slot, id, v) ∈ vs → ∃ k r, rs !! k = Some r ∧
    r_slot r = slot ∧ r_id r = id ∧ phase2 r ∧ v = r_val r;
  i_acks k r i : rs !! k = Some r → acks r !! i = Some true →
    (i, r_slot r, r_id r, r_val r) ∈ vs;
  i_rounds k r : rs !! k = Some r →
    Z.of_nat (length (replies r)) ≤ N ∧ Z.of_nat (length (acks r)) ≤ N ∧
    (acks r ≠ [] → phase2 r);
  i_valid i slot id v : (i, slot, id, v) ∈ vs → ∃ k r, rs !! k = Some r ∧
    r_slot r = slot ∧ r_value r = v }.

Lemma r_val_some r : r_value r ≠ None → r_val r ≠ None.
Proof. unfold r_val, choose_value. by destruct (tally (replies r)).2. Qed.

(** The acceptors move: promises only grow. *)
Lemma inv_move accs rs vs i a a' :
  inv accs rs vs → accs !! i = Some a →
  (∀ sl, lastPromisedID (sst a sl) ≤ lastPromisedID (sst a' sl) ∧
         acceptedID (sst a' sl) = acceptedID (sst a sl) ∧
         AcceptedVal (sst a' sl) = AcceptedVal (sst a sl)) →
  inv (<[i := a']> accs) rs vs.
Proof.
  intros [] Ha Hmono. split; try done.
  - by rewrite length_insert.
  - intros j b slot Hj. destruct (decide (j = i)) as [->|?].
    + rewrite list_lookup_insert_eq in Hj by by eapply lookup_lt_Some. simplify_eq.
      destruct (i_acc0 _ _ slot Ha) as (? & ? & ?). destruct (Hmono slot) as (? & E1 & E2).
      unfold acc_ok. rewrite E1, E2. split_and!; [lia|lia|done|done].
    + rewrite list_lookup_insert_ne in Hj by done. by apply i_acc0.
  - intros k r j x y Hk Hr. destruct (i_prom0 _ _ _ _ _ Hk Hr) as (b & Hb & Hp).
    destruct (decide (j = i)) as [->|?].
    + rewrite list_lookup_insert_eq by by eapply lookup_lt_Some. eexists. split; [done|].
      simplify_eq. destruct (Hmono (r_slot r)) as (? & _ & _).
      destruct Hp as (? & ? & ? & ?). split_and!; try done; lia.
    + rewrite list_lookup_insert_ne by done. eauto.
Qed.

Lemma phase2_full r : Z.of_nat (length (replies r)) < N → ¬ phase2 r.
Proof. intros ? [? _]. lia. Qed.

(** Replacing a round by one that has heard more. *)
Lemma insert_cases (rs : list round) k r r' k' r1 :
  rs !! k = Some r → <[k := r']> rs !! k' = Some r1 →
  (k' = k ∧ r1 = r') ∨ (k' ≠ k ∧ rs !! k' = Some r1).
Proof.
  intros Hk. destruct (decide (k' = k)) as [->|?].
  - rewrite list_lookup_insert_eq by by eapply lookup_lt_Some. naive_solver.
  - rewrite list_lookup_insert_ne by done. auto.
Qed.

(** A reply reaches a round: if it is a promise, the acceptor has made it and had
    not made one for that identifier before. *)
Lemma inv_reply accs rs vs k r b x y :
  inv accs rs vs → rs !! k = Some r → Z.of_nat (length (replies r)) < N →
  (b = true →
    (∃ a, accs !! length (replies r) = Some a ∧
       prom_ok vs (length (replies r)) (r_slot r) (r_id r) x y (sst a (r_slot r))) ∧
    (∀ k' r' x' y', rs !! k' = Some r' → r_slot r' = r_slot r → r_id r' = r_id r →
       replies r' !! length (replies r) ≠ Some (true, x', y'))) →
  inv accs (<[k := add_reply r (b, x, y)]> rs) vs.
Proof.
  intros [] Hk Hlen Hb.
  assert (acks r = []) as Hnil.
  { destruct (i_rounds0 _ _ Hk) as (_ & _ & Hp). destruct (acks r); [done|].
    exfalso. by apply (phase2_full r); [|apply Hp]. }
  assert (∀ k' r', rs !! k' = Some r' → phase2 r' → <[k:=add_reply r (b, x, y)]> rs !! k' = Some r')
    as Hkeep.
  { intros k' r' Hk' Hp. rewrite list_lookup_insert_ne; [done|]. intros ->. simplify_eq.
    by apply (phase2_full r). }
  split; try done.
  - intros k1 r1 i x1 y1 Hk1 Hr1. eapply insert_cases in Hk1 as [[-> ->]|[_ Hk1]]; [|by eauto..].
    simpl in *. apply lookup_snoc_Some in Hr1 as [[_ Hr1]|[-> [= -> -> ->]]]; [by eauto|].
    by apply Hb.
  - intros k1 r1 k2 r2 i x1 y1 x2 y2 Hk1 Hk2 Hs Hi H1 H2.
    eapply insert_cases in Hk1 as [[-> ->]|[Hn1 Hk1]]; [| |done];
      (eapply insert_cases in Hk2 as [[-> ->]|[Hn2 Hk2]]; [| |done]); simpl in *; try done;
      [apply lookup_snoc_Some in H1 as [[_ H1]|[-> [= -> -> ->]]]
      |apply lookup_snoc_Some in H2 as [[_ H2]|[-> [= -> -> ->]]]|]; try by eauto.
    + by destruct (proj2 (Hb eq_refl) k2 r2 x2 y2).
    + by destruct (proj2 (Hb eq_refl) k1 r1 x1 y1).
  - intros i slot id v Hv. destruct (i_votes0 _ _ _ _ Hv) as (k' & r' & Hk' & ? & ? & ? & ?).
    exists k', r'. split_and!; try done. by apply Hkeep.
  - intros k1 r1 i Hk1 Hr1. eapply insert_cases in Hk1 as [[-> ->]|[_ Hk1]]; [|by eauto..].
    simpl in Hr1. by rewrite Hnil in Hr1.
  - intros k1 r1 Hk1. eapply insert_cases in Hk1 as [[-> ->]|[_ Hk1]]; [|by eauto..].
    destruct (i_rounds0 _ _ Hk) as (? & ? & ?). simpl. rewrite length_app, Hnil. simpl.
    split_and!; [lia|lia|done].
  - intros i slot id v Hv. destruct (i_valid0 _ _ _ _ Hv) as (k' & r' & Hk' & ? & ?).
    destruct (decide (k' = k)) as [->|?].
    + simplify_eq. exists k, (add_reply r (b, x, y)).
      rewrite list_lookup_insert_eq by by eapply lookup_lt_Some. done.
    + exists k', r'. by rewrite list_lookup_insert_ne.
Qed.

(** A round with a value to send has a proper identifier. *)
Lemma phase2_id accs rs vs k r :
  inv accs rs vs → rs !! k = Some r → phase2 r → 0 ≤ r_id r.
Proof.
  intros [] Hk [_ Hq]%phase2_quorum. destruct (majority_nonempty _ Hq) as [i Hi].
  apply promisers_lookup in Hi as (x & y & Hi).
  destruct (i_prom0 _ _ _ _ _ Hk Hi) as (a & _ & ? & _). lia.
Qed.

Lemma phase2_unique accs rs vs k1 r1 k2 r2 :
  inv accs rs vs → rs !! k1 = Some r1 → rs !! k2 = Some r2 →
  r_slot r1 = r_slot r2 → r_id r1 = r_id r2 → phase2 r1 → phase2 r2 → k1 = k2 ∧ r1 = r2.
Proof.
  intros [] Hk1 Hk2 Hs Hi [Hl1 Hq1]%phase2_quorum [Hl2 Hq2]%phase2_quorum.
  destruct (majorities_meet _ _ Hl1 Hl2 Hq1 Hq2) as (i & H1 & H2).
  apply promisers_lookup in H1 as (x1 & y1 & H1), H2 as (x2 & y2 & H2).
  assert (k1 = k2) as -> by eauto. by simplify_eq.
Qed.

(** The value a round sends was proposed by a round of the slot. *)
Lemma r_val_valid accs rs vs k r :
  inv accs rs vs → rs !! k = Some r →
  ∃ k' r', rs !! k' = Some r' ∧ r_slot r' = r_slot r ∧ r_value r' = r_val r.
Proof.
  intros [] Hk. destruct (i_rounds0 _ _ Hk) as (Hlen & _).
  pose proof (tally_spec (replies r) Hlen) as Ht. unfold r_val, choose_value.
  destruct (tally (replies r)) as [[p h] hv]. simpl.
  destruct Ht as (_ & _ & [[_ ->]|(i & Hi & ?)]); [by eauto|].
  destruct (i_prom0 _ _ _ _ _ Hk Hi) as (a & _ & _ & _ & Hv & _).
  destruct (i_valid0 _ _ _ _ (Hv ltac:(lia))) as (k' & r' & ? & ? & ?).
  destruct hv; eauto.
Qed.

(** An acceptor handles the request of a round in its second phase. *)
Lemma inv_accept accs rs vs i a ok a' k r :
  inv accs rs vs → accs !! i = Some a → rs !! k = Some r → phase2 r →
  ReceiveAccept (r_slot r) (r_id r) (r_val r) a = (ok, a') →
  inv (<[i := a']> accs) rs (vote_if ok i r vs).
Proof.
  intros Hinv Ha Hk Hp Hacc. pose proof (phase2_id _ _ _ _ _ Hinv Hk Hp) as Hid.
  apply ReceiveAccept_cases in Hacc as [(-> & Hlp & Hs)|(-> & Hs)]; simpl.
  2:{ eapply inv_move; [done..|]. intros sl. rewrite !Hs. done. }
  pose proof (r_val_valid _ _ _ _ _ Hinv Hk) as (k0 & r0 & Hk0 & Hs0 & Hv0).
  destruct Hinv. split; try done.
  - by rewrite length_insert.
  - intros j b slot Hj. destruct (decide (j = i)) as [->|Hne].
    + rewrite list_lookup_insert_eq in Hj by by eapply lookup_lt_Some. simplify_eq.
      destruct (i_acc0 _ _ slot Ha) as (Hb1 & Hb2 & Hb3). rewrite Hs.
      case_decide as Hsl; [subst slot|]; unfold acc_ok; simpl.
      * split_and!; [lia|lia|by intros _; left|].
        intros id v [[= -> ->]|Hin]%elem_of_cons; [done|]. apply Hb3 in Hin. lia.
      * split_and!; [lia|lia|by intros ?; right; auto|].
        intros id v [[= -> -> ->]|Hin]%elem_of_cons; [done|]. by eapply Hb3.
    + rewrite list_lookup_insert_ne in Hj by done.
      destruct (i_acc0 _ _ slot Hj) as (Hb1 & Hb2 & Hb3). split_and!; [lia|lia|..].
      * intros ?. right. auto.
      * intros id v [[= -> -> -> ->]|Hin]%elem_of_cons; [done|]. by eapply Hb3.
  - intros k1 r1 j x y Hk1 Hr1.
    destruct (i_prom0 _ _ _ _ _ Hk1 Hr1) as (b & Hb & Hp1 & Hp2 & Hp3 & Hp4).
    destruct (decide (j = i)) as [->|Hne].
    + rewrite list_lookup_insert_eq by by eapply lookup_lt_Some.
      eexists. split; [done|]. simplify_eq. rewrite Hs.
      destruct (decide (r_slot r1 = r_slot r)) as [Hsl|Hsl]; split_and!; simpl; try lia;
        try (intros ?; right; by auto).
      * rewrite Hsl in *. lia.
      * intros id' v [[= _ -> ->]|Hin]%elem_of_cons ?; [|by eapply Hp4].
        rewrite Hsl in *. lia.
      * intros id' v [[= ? _ _]|Hin]%elem_of_cons ?; [done|by eapply Hp4].
    + rewrite list_lookup_insert_ne by done. exists b. split; [done|].
      split_and!; try lia; [intros ?; right; by auto|].
      intros id' v [[= ? _ _ _]|Hin]%elem_of_cons ?; [done|by eapply Hp4].
  - intros j slot id v [[= -> -> -> ->]|Hin]%elem_of_cons; [|by eauto].
    exists k, r. done.
  - intros k1 r1 j Hk1 Hr1. right. by eapply i_acks0.
  - intros j slot id v [[= -> -> -> ->]|Hin]%elem_of_cons; [|by eauto]. eauto.
Qed.

Lemma inv_ack accs rs vs k r b :
  inv accs rs vs → rs !! k = Some r → phase2 r → Z.of_nat (length (acks r)) < N →
  (b = true → (length (acks r), r_slot r, r_id r, r_val r) ∈ vs) →
  inv accs (<[k := add_ack r b]> rs) vs.
Proof.
  intros [] Hk Hp Hlen Hb.
  assert (∀ k' r' (P : Z → Z → option V → option V → Prop), rs !! k' = Some r' → phase2 r' →
    P (r_slot r') (r_id r') (r_value r') (r_val r') →
    ∃ r1, <[k := add_ack r b]> rs !! k' = Some r1 ∧ phase2 r1 ∧
          P (r_slot r1) (r_id r1) (r_value r1) (r_val r1)) as Hkeep.
  { intros k' r' P Hk' Hp' HP. destruct (decide (k' = k)) as [->|?].
    - simplify_eq. exists (add_ack r b).
      rewrite list_lookup_insert_eq by by eapply lookup_lt_Some. done.
    - exists r'. by rewrite list_lookup_insert_ne. }
  split; try done.
  - intros k1 r1 i x y Hk1 Hr1. eapply insert_cases in Hk1 as [[-> ->]|[_ Hk1]]; [|by eauto..].
    by apply (i_prom0 k r).
  - intros k1 r1 k2 r2 i x1 y1 x2 y2 Hk1 Hk2 Hs Hi H1 H2.
    eapply insert_cases in Hk1 as [[-> ->]|[Hn1 Hk1]]; [| |done];
      (eapply insert_cases in Hk2 as [[-> ->]|[Hn2 Hk2]]; [| |done]); simpl in *;
      first [done | eapply i_uniq0; eassumption].
  - intros i slot id v Hv. destruct (i_votes0 _ _ _ _ Hv) as (k' & r' & Hk' & ? & ? & Hp' & ?).
    destruct (Hkeep k' r' (λ sl i _ w, sl = slot ∧ i = id ∧ v = w)) as (r1 & ? & ? & ? & ? & ?);
      [done..|]. by exists k', r1.
  - intros k1 r1 i Hk1 Hr1. eapply insert_cases in Hk1 as [[-> ->]|[_ Hk1]]; [|by eauto..].
    simpl in Hr1. apply lookup_snoc_Some in Hr1 as [[_ Hr1]|[-> ->]]; [by apply (i_acks0 k r)|].
    by apply Hb.
  - intros k1 r1 Hk1. eapply insert_cases in Hk1 as [[-> ->]|[_ Hk1]]; [|by eauto..].
    destruct (i_rounds0 _ _ Hk) as (? & ? & ?). simpl. rewrite length_app. simpl.
    split_and!; [lia|lia|done].
  - intros i slot id v Hv. destruct (i_valid0 _ _ _ _ Hv) as (k' & r' & Hk' & ? & ?).
    destruct (decide (k' = k)) as [->|?].
    + simplify_eq. exists k, (add_ack r b).
      rewrite list_lookup_insert_eq by by eapply lookup_lt_Some. done.
    + exists k', r'. by rewrite list_lookup_insert_ne.
Qed.

Lemma inv_start accs rs vs slot id v :
  inv accs rs vs →
  inv accs (rs ++ [{| r_slot := slot; r_id := id; r_value := v; replies := []; acks := [] |}]) vs.
Proof.
  intros []. split; try done.
  - intros k r i x y [[_ Hk]|[_ <-]]%lookup_snoc_Some Hr; [by eauto|done].
  - intros k1 r1 k2 r2 i x1 y1 x2 y2 [[_ Hk1]|[_ <-]]%lookup_snoc_Some
      [[_ Hk2]|[_ <-]]%lookup_snoc_Some Hs Hi H1 H2; try done. by eauto.
  - intros i sl id' w Hw. destruct (i_votes0 _ _ _ _ Hw) as (k' & r' & Hk' & ?).
    exists k', r'. split; [by apply lookup_app_l_Some|done].
  - intros k r i [[_ Hk]|[_ <-]]%lookup_snoc_Some Hr; [by eauto|done].
  - intros k r [[_ Hk]|[_ <-]]%lookup_snoc_Some; [by eauto|]. simpl. split_and!; [lia|lia|done].
  - intros i sl id' w Hw. destruct (i_valid0 _ _ _ _ Hw) as (k' & r' & Hk' & ?).
    exists k', r'. split; [by apply lookup_app_l_Some|done].
Qed.

Definition net_inv (s : net) : Prop := inv (acceptors s) (rounds s) (votes s).

Lemma init_inv : net_inv init.
Proof.
  split; simpl; try done.
  - by rewrite length_replicate.
  - intros i a slot [-> _]%lookup_replicate. unfold sst. simpl. rewrite lookup_empty.
    split_and!; simpl; [lia|lia|lia|]. by intros id v ?%not_elem_of_nil.
  - by intros i slot id v ?%not_elem_of_nil.
  - by intros i slot id v ?%not_elem_of_nil.
Qed.

Lemma prepare_moves slot id (a : Acceptor V) rep a' :
  ReceivePrepare slot id a = (rep, a') →
  ∀ sl, lastPromisedID (sst a sl) ≤ lastPromisedID (sst a' sl) ∧
        acceptedID (sst a' sl) = acceptedID (sst a sl) ∧
        AcceptedVal (sst a' sl) = AcceptedVal (sst a sl).
Proof.
  intros [(_ & Hlp & Hs)|(_ & Hs)]%ReceivePrepare_cases sl; rewrite Hs; [|done].
  case_decide as Hsl; [subst; simpl|done]. split_and!; [lia|done..].
Qed.

Lemma step_inv s s' : net_inv s → step s s' → net_inv s'.
Proof.
  unfold net_inv. intros Hinv.
  destruct 1 as [slot id v|k r a rep a' Hk Hlen Ha Hrep|k r Hk Hlen|i slot id a Ha
    |k r a ok a' sent Hk Hp Hlen Ha Hacc|k r Hk Hp Hlen|i k r a ok a' Hk Hp Ha Hacc|j slot id v Hj]; simpl.
  - by apply inv_start.
  - destruct rep as [[b x] y]. apply inv_reply; [|done..|].
    { eapply inv_move; [done..|]. by eapply prepare_moves. }
    intros ->. apply ReceivePrepare_cases in Hrep as [(Heq & Hlp & Hs)|([=] & _)].
    injection Heq as -> ->. pose proof (i_acc _ _ _ Hinv _ _ (r_slot r) Ha) as (? & ? & ?). split.
    + exists a'. rewrite list_lookup_insert_eq by by eapply lookup_lt_Some.
      split; [done|]. rewrite Hs, decide_True by done. simpl.
      split_and!; simpl; [lia|lia|lia|lia|done|]. intros id' v Hv _. eauto.
    + intros k' r' x' y' Hk' Hs' Hi' Hr'.
      destruct (i_prom _ _ _ Hinv _ _ _ _ _ Hk' Hr') as (b & Hb & Hp & _).
      simplify_eq. rewrite Hs' in Hp. lia.
  - by apply inv_reply.
  - destruct (ReceivePrepare slot id a) as [rep a'] eqn:E. simpl.
    eapply inv_move; [done..|]. by eapply prepare_moves.
  - apply inv_ack; [by eapply inv_accept|done..|]. intros ->. left.
  - by apply inv_ack.
  - by eapply inv_accept.
  - done.
Qed.

Lemma reachable_inv s : reachable s → net_inv s.
Proof.
  unfold reachable. generalize init_inv. intros Hi Hr.
  induction Hr as [s0|s0 s1 s2 Hstep _ IH]; [done|]. apply IH. by eapply step_inv.
Qed.

(** ** Safety *)

(** A majority of the acceptors voted for [v] under [id]. *)
Definition chosen (s : net) (slot id : Z) (v : option V) : Prop :=
  ∃ q : list bool, length q = Z.to_nat N ∧ Z.quot N 2 < trues q ∧
    ∀ i : nat, q !! i = Some true → (i, slot, id, v) ∈ votes s.

(** Every round was started with a value that is not nil. *)
Definition no_nil (s : net) : Prop := ∀ k r, rounds s !! k = Some r → r_value r ≠ None.

Lemma chosen_safe s slot c v :
  net_inv s → no_nil s → chosen s slot c v →
  ∀ n k r, rounds s !! k = Some r → phase2 r → r_slot r = slot → c ≤ r_id r →
    r_id r ≤ Z.of_nat n → r_val r = v.
Proof.
  intros Hinv Hnil (q & Hlq & Hq & Hvotes) n.
  induction n as [n IH] using lt_wf_ind. intros k r Hk Hp Hs Hc Hn.
  destruct (decide (r_id r = c)) as [Heq|Hne].
  - destruct (majority_nonempty q Hq) as [i Hi].
    destruct (i_votes _ _ _ Hinv _ _ _ _ (Hvotes _ Hi)) as (k' & r' & Hk' & ? & ? & Hp' & ->).
    destruct (phase2_unique _ _ _ k r k' r' Hinv) as [_ ->]; congruence.
  - destruct (phase2_quorum r Hp) as [Hl1 Hq1].
    destruct (majorities_meet _ _ Hl1 Hlq Hq1 Hq) as (i & Hi1 & Hi2).
    apply promisers_lookup in Hi1 as (x & y & Hi1).
    destruct (i_prom _ _ _ Hinv _ _ _ _ _ Hk Hi1) as (a & Ha & _ & _ & _ & Hlast).
    assert (c ≤ x) as Hcx by (eapply Hlast; [rewrite Hs; by apply Hvotes|lia]).
    assert (0 ≤ c) as Hc0.
    { destruct (i_votes _ _ _ Hinv _ _ _ _ (Hvotes _ Hi2)) as (k' & r' & Hk' & ? & <- & Hp' & _).
      by eapply phase2_id. }
    destruct (i_rounds _ _ _ Hinv _ _ Hk) as (Hlen & _).
    pose proof (tally_spec (replies r) Hlen) as Ht. unfold r_val, choose_value.
    destruct (tally (replies r)) as [[p h] hv]. destruct Ht as (_ & Hmax & Hh). simpl.
    apply Hmax in Hi1. destruct Hh as [[-> _]|(j & Hj & _)]; [lia|].
    destruct (i_prom _ _ _ Hinv _ _ _ _ _ Hk Hj) as (b & _ & _ & Hbnd & Hv & _).
    destruct (i_votes _ _ _ Hinv _ _ _ _ (Hv ltac:(lia))) as (k' & r' & Hk' & Hs' & Hi' & Hp' & Hv').
    assert (r_val r' = v) as Hval.
    { apply (IH (Z.to_nat h) ltac:(lia) k' r'); [done|done|congruence|lia|lia]. }
    destruct hv as [w|]; [congruence|]. exfalso.
    by apply (r_val_some r'); [by eapply Hnil|].
Qed.

Lemma succeeded_chosen s k r :
  net_inv s → rounds s !! k = Some r → succeeded r →
  chosen s (r_slot r) (r_id r) (r_val r).
Proof.
  intros Hinv Hk (Hp & Hlen & Hq). exists (acks r). split_and!; [lia|done|].
  intros i Hi. by eapply i_acks.
Qed.

Lemma chosen_round s slot c v :
  net_inv s → chosen s slot c v →
  ∃ k r, rounds s !! k = Some r ∧ r_slot r = slot ∧ r_id r = c ∧ phase2 r ∧ r_val r = v.
Proof.
  intros Hinv (q & _ & Hq & Hvotes). destruct (majority_nonempty q Hq) as [i Hi].
  destruct (i_votes _ _ _ Hinv _ _ _ _ (Hvotes _ Hi)) as (k & r & ? & ? & ? & ? & ->). eauto 10.
Qed.

Lemma chosen_agree s slot c1 v1 c2 v2 :
  net_inv s → no_nil s → chosen s slot c1 v1 → chosen s slot c2 v2 → v1 = v2.
Proof.
  intros Hinv Hnil H1 H2.
  destruct (chosen_round _ _ _ _ Hinv H1) as (k1 & r1 & Hk1 & Hs1 & Hi1 & Hp1 & Hv1).
  destruct (chosen_round _ _ _ _ Hinv H2) as (k2 & r2 & Hk2 & Hs2 & Hi2 & Hp2 & Hv2).
  destruct (Z.le_ge_cases c1 c2).
  - rewrite <- Hv2. symmetry.
    by apply (chosen_safe s slot c1 v1 Hinv Hnil H1 (Z.to_nat c2) k2 r2); [..|lia|lia].
  - rewrite <- Hv1. by apply (chosen_safe s slot c2 v2 Hinv Hnil H2 (Z.to_nat c1) k1 r1); [..|lia|lia].
Qed.

(** ** The learner *)

Definition cnt (l : Learner V) (slot id : Z) (v : option V) : Z :=
  default 0 (default ∅ (default ∅ (counts l !! slot) !! id) !! v).

(** The notices of a vote that are on their way. *)
Definition waiting (ns : list (Z * Z * option V)) (slot id : Z) (v : option V) : Z :=
  Z.of_nat (length (filter (λ x, x = (slot, id, v)) ns)).

(** The learner has counted, or will count, no more acceptances than the round received. *)
Definition learner_ok (l : Learner V) (ns : list (Z * Z * option V)) (rs : list round) : Prop :=
  l_numPeers l = N ∧
  (∀ slot id v, 0 ≤ cnt l slot id v ∧ (0 < cnt l slot id v + waiting ns slot id v →
     ∃ k r, rs !! k = Some r ∧ r_slot r = slot ∧ r_id r = id ∧ phase2 r ∧ r_val r = v ∧
       cnt l slot id v + waiting ns slot id v ≤ trues (acks r))) ∧
  (∀ slot v, learned l !! slot = Some v →
     ∃ k r, rs !! k = Some r ∧ r_slot r = slot ∧ phase2 r ∧ r_val r = v ∧
       Z.quot N 2 < trues (acks r)).

Lemma waiting_snoc ns x slot id v :
  waiting (ns ++ [x]) slot id v = waiting ns slot id v + if decide (x = (slot, id, v)) then 1 else 0.
Proof. unfold waiting. rewrite filter_app, length_app, filter_cons, filter_nil. case_decide; cbn; lia. Qed.

Lemma waiting_delete ns j x slot id v : ns !! j = Some x →
  waiting ns slot id v = waiting (delete j ns) slot id v + if decide (x = (slot, id, v)) then 1 else 0.
Proof.
  intros Hj. unfold waiting. rewrite <- (take_drop_middle ns j x Hj) at 1.
  rewrite delete_take_drop, !filter_app, !length_app, filter_cons. case_decide; cbn; lia.
Qed.

Lemma waiting_nonneg ns slot id v : 0 ≤ waiting ns slot id v.
Proof. unfold waiting. lia. Qed.

(** Rounds in their second phase persist, and gather acknowledgements. *)
Definition rounds_grow (rs rs' : list round) : Prop :=
  ∀ k r, rs !! k = Some r → phase2 r → ∃ r', rs' !! k = Some r' ∧
    r_slot r' = r_slot r ∧ r_id r' = r_id r ∧ phase2 r' ∧ r_val r' = r_val r ∧
    trues (acks r) ≤ trues (acks r').

Lemma learner_ok_grow l ns rs rs' : rounds_grow rs rs' → learner_ok l ns rs → learner_ok l ns rs'.
Proof.
  intros Hg (Hn & Hc & Hl). split_and!; [done|..].
  - intros slot id v. destruct (Hc slot id v) as [? Hc']. split; [done|]. intros Hpos.
    destruct (Hc' Hpos) as (k & r & Hk & ? & ? & Hp & ? & ?).
    destruct (Hg k r Hk Hp) as (r' & ? & ? & ? & ? & ? & ?).
    exists k, r'. split_and!; [done|congruence..|done|congruence|lia].
  - intros slot v (k & r & Hk & ? & Hp & ? & ?)%Hl.
    destruct (Hg k r Hk Hp) as (r' & ? & ? & ? & ? & ? & ?).
    exists k, r'. split_and!; [done|congruence|done|congruence|lia].
Qed.

Lemma grow_insert rs k r r' :
  rs !! k = Some r → r_slot r' = r_slot r → r_id r' = r_id r →
  (phase2 r → phase2 r' ∧ r_val r' = r_val r ∧ trues (acks r) ≤ trues (acks r')) →
  rounds_grow rs (<[k := r']> rs).
Proof.
  intros Hk Hs Hi Hp k1 r1 Hk1 Hp1. destruct (decide (k1 = k)) as [->|?].
  - simplify_eq. exists r'. rewrite list_lookup_insert_eq by by eapply lookup_lt_Some.
    destruct (Hp Hp1) as (? & ? & ?). done.
  - exists r1. by rewrite list_lookup_insert_ne.
Qed.

Lemma cnt_insert l slot id v c slot' id' v' :
  cnt {| l_numPeers := l_numPeers l;
         counts := <[slot := <[id := <[v := c]>
           (default ∅ (default ∅ (counts l !! slot) !! id))]>
           (default ∅ (counts l !! slot))]> (counts l);
         learned := learned l |} slot' id' v' =
  if decide (slot' = slot ∧ id' = id ∧ v' = v) then c else cnt l slot' id' v'.
Proof.
  unfold cnt. simpl. destruct (decide (slot' = slot)) as [->|?].
  2:{ rewrite lookup_insert_ne, decide_False by naive_solver. done. }
  rewrite lookup_insert_eq. simpl. destruct (decide (id' = id)) as [->|?].
  2:{ rewrite lookup_insert_ne, decide_False by naive_solver. done. }
  rewrite lookup_insert_eq. simpl. destruct (decide (v' = v)) as [->|?].
  - by rewrite lookup_insert_eq, decide_True.
  - rewrite lookup_insert_ne, decide_False by naive_solver. done.
Qed.

(** A notice is sent. *)
Lemma notice_ok accs rs vs l ns k r :
  inv accs rs vs → learner_ok l ns rs → rs !! k = Some r → phase2 r →
  learner_ok l (ns ++ [(r_slot r, r_id r, r_val r)]) (<[k := add_ack r true]> rs).
Proof.
  intros Hinv Hl Hk Hp.
  assert (learner_ok l ns (<[k := add_ack r true]> rs)) as (Hn & Hc & Hle).
  { eapply learner_ok_grow; [|done]. eapply grow_insert; [done..|]. intros _.
    split_and!; [done..|]. simpl. rewrite trues_snoc. lia. }
  split_and!; [done| |done]. intros slot id v. destruct (Hc slot id v) as [Hpos Hc']. split; [done|].
  rewrite waiting_snoc. case_decide as E; [injection E as <- <- <-|by rewrite Z.add_0_r]. intros _.
  exists k, (add_ack r true). rewrite list_lookup_insert_eq by by eapply lookup_lt_Some. simpl. rewrite trues_snoc.
  split_and!; [done..|]. pose proof (trues_bound (acks r)). pose proof (waiting_nonneg ns (r_slot r) (r_id r) (r_val r)).
  destruct Hl as (_ & Hc1 & _). destruct (Hc1 (r_slot r) (r_id r) (r_val r)) as [_ Hc2].
  destruct (decide (0 < cnt l (r_slot r) (r_id r) (r_val r) + waiting ns (r_slot r) (r_id r) (r_val r))); [|lia].
  destruct Hc2 as (k' & r' & Hk' & ? & ? & Hp' & ? & ?); [done|].
  destruct (phase2_unique _ _ _ k' r' k r Hinv) as [_ ->]; [done..|]. lia.
Qed.

(** A notice arrives. *)
Lemma Observe_ok rs l ns j slot id v :
  (∀ k r, rs !! k = Some r → Z.of_nat (length (acks r)) ≤ N) →
  learner_ok l ns rs → ns !! j = Some (slot, id, v) →
  learner_ok (Observe slot id v l).2 (delete j ns) rs.
Proof.
  intros Hlen (Hn & Hc & Hle) Hj.
  assert (∀ slot' id' v', waiting ns slot' id' v' = waiting (delete j ns) slot' id' v' +
    if decide ((slot, id, v) = (slot', id', v')) then 1 else 0) as Hw by (intros; by apply waiting_delete).
  unfold Observe. destruct (learned l !! slot) eqn:El.
  { cbn [snd]. split_and!; [done| |done]. intros slot' id' v'. destruct (Hc slot' id' v') as [Hpos Hc']. split; [done|].
    rewrite Hw in Hc'. intros Hp. destruct Hc' as (k & r & ? & ? & ? & ? & ? & ?); [destruct (decide _); lia|].
    exists k, r. split_and!; [done..|]. destruct (decide _); lia. }
  destruct (Hc slot id v) as [Hpos Hc1]. pose proof (waiting_nonneg (delete j ns) slot id v).
  rewrite Hw, decide_True in Hc1 by done. destruct Hc1 as (k & r & Hk & Hs & Hi & Hp & Hv & Hcnt); [lia|].
  pose proof (trues_bound (acks r)). pose proof (Hlen k r Hk).
  fold (cnt l slot id v). rewrite (i64_id (cnt l _ _ _ + 1)) by (unfold is_i64 in *; lia).
  assert (∀ lm slot' id' v',
    let l' := {| l_numPeers := l_numPeers l; learned := lm; counts :=
      <[slot := <[id := <[v := cnt l slot id v + 1]>
           (default ∅ (default ∅ (counts l !! slot) !! id))]>
           (default ∅ (counts l !! slot))]> (counts l) |} in
    0 ≤ cnt l' slot' id' v' ∧ (0 < cnt l' slot' id' v' + waiting (delete j ns) slot' id' v' → ∃ k' r',
      rs !! k' = Some r' ∧ r_slot r' = slot' ∧ r_id r' = id' ∧
      phase2 r' ∧ r_val r' = v' ∧ cnt l' slot' id' v' + waiting (delete j ns) slot' id' v' ≤ trues (acks r'))) as Hc'.
  { intros lm slot' id' v' l'.
    assert (cnt l' slot' id' v' = if decide (slot' = slot ∧ id' = id ∧ v' = v)
      then cnt l slot id v + 1 else cnt l slot' id' v') as -> by apply cnt_insert.
    case_decide as Hd.
    - destruct Hd as (-> & -> & ->). split; [lia|]. intros _. exists k, r. split_and!; [done..|lia].
    - destruct (Hc slot' id' v') as [? Hc2]. rewrite Hw, decide_False, Z.add_0_r in Hc2 by naive_solver. done. }
  case_decide; simpl; (split_and!; [done|by apply Hc'|]); [|done]. simpl.
  intros slot' v' [[<- <-]|[_ Hv']]%lookup_insert_Some; [|by eauto].
  exists k, r. rewrite Hn in *. split_and!; [done..|lia].
Qed.

Definition full_inv (s : net) : Prop := net_inv s ∧ learner_ok (learner s) (notices s) (rounds s).

Lemma step_full_inv s s' : full_inv s → step s s' → full_inv s'.
Proof.
  intros [Hinv Hl] Hstep. split; [by eapply step_inv|].
  destruct Hstep as [slot id v|k r a rep a' Hk Hlen Ha Hrep|k r Hk Hlen|i slot id a Ha
    |k r a ok a' sent Hk Hp Hlen Ha Hacc|k r Hk Hp Hlen|i k r a ok a' Hk Hp Ha Hacc|j slot id v Hj]; simpl;
    try done.
  - eapply learner_ok_grow; [|done]. intros k r Hk Hp. exists r.
    split_and!; [by apply lookup_app_l_Some|done..].
  - eapply learner_ok_grow; [|done]. eapply grow_insert; [done..|].
    intros Hp. by apply phase2_full in Hp.
  - eapply learner_ok_grow; [|done]. eapply grow_insert; [done..|].
    intros Hp. by apply phase2_full in Hp.
  - assert (learner_ok (learner s) (notices s) (<[k := add_ack r ok]> (rounds s))) as Hg.
    { eapply learner_ok_grow; [|done]. eapply grow_insert; [done..|]. intros _.
      split_and!; [done..|]. simpl. rewrite trues_snoc. destruct ok; lia. }
    destruct ok, sent; simpl; try done. by eapply notice_ok.
  - eapply learner_ok_grow; [|done]. eapply grow_insert; [done..|]. intros _.
    split_and!; [done..|]. simpl. rewrite trues_snoc. lia.
  - apply Observe_ok; [|done|done]. intros k r Hk. by destruct (i_rounds _ _ _ Hinv _ _ Hk) as (_ & ? & _).
Qed.

Lemma reachable_full_inv s : reachable s → full_inv s.
Proof.
  assert (full_inv init) as Hi.
  { split; [apply init_inv|]. split_and!; [done| |].
    - intros slot id v. by change (cnt (NewLearner N) slot id v) with 0.
    - done. }
  unfold reachable. revert Hi. intros Hi Hr.
  induction Hr as [s0|s0 s1 s2 Hstep _ IH]; [done|]. apply IH. by eapply step_full_inv.
Qed.

Lemma learned_chosen s slot v :
  full_inv s → learned (learner s) !! slot = Some v → ∃ id, chosen s slot id v.
Proof.
  intros [Hinv (_ & _ & Hl)] (k & r & Hk & <- & Hp & <- & Hq)%Hl.
  exists (r_id r). destruct (i_rounds _ _ _ Hinv _ _ Hk) as (_ & Hlen & _).
  set (m := (Z.to_nat N - length (acks r))%nat).
  exists (acks r ++ replicate m false). split_and!.
  - rewrite length_app, length_replicate. lia.
  - enough (trues (acks r ++ replicate m false) = trues (acks r)) as -> by done.
    unfold trues. rewrite filter_app, length_app.
    enough (filter Is_true (replicate m false) = []) as -> by (simpl; lia).
    by clear; induction m.
  - intros i [Hi|[_ Hi]]%lookup_app_Some; [by eapply i_acks|].
    by apply lookup_replicate in Hi as [? _].
Qed.

(** ** Executable steps *)

Inductive action :=
  | AStart (slot id : Z) (v : option V)
  | APrepare (k : nat) | APrepareLost (k : nat) | AStrayPrepare (i : nat) (slot id : Z)
  | AAccept (k : nat) (sent : bool) | AAcceptLost (k : nat)
  | AStrayAccept (i k : nat) | ALearn (j : nat).

#[global] Instance phase2_dec r : Decision (phase2 r).
Proof using Type. unfold phase2. apply _. Defined.

Definition act (x : action) (s : net) : option net :=
  match x with
  | AStart slot id v =>
      Some {| acceptors := acceptors s; learner := learner s; notices := notices s; votes := votes s;
              rounds := rounds s ++ [{| r_slot := slot; r_id := id; r_value := v;
                                        replies := []; acks := [] |}] |}
  | APrepare k =>
      r ← rounds s !! k; guard (Z.of_nat (length (replies r)) < N);;
      a ← acceptors s !! length (replies r);
      let '(rep, a') := ReceivePrepare (r_slot r) (r_id r) a in
      Some {| acceptors := <[length (replies r) := a']> (acceptors s);
              rounds := <[k := add_reply r rep]> (rounds s);
              learner := learner s; notices := notices s; votes := votes s |}
  | APrepareLost k =>
      r ← rounds s !! k; guard (Z.of_nat (length (replies r)) < N);;
      Some {| acceptors := acceptors s;
              rounds := <[k := add_reply r (false, -1, None)]> (rounds s);
              learner := learner s; notices := notices s; votes := votes s |}
  | AStrayPrepare i slot id =>
      a ← acceptors s !! i;
      Some {| acceptors := <[i := (ReceivePrepare slot id a).2]> (acceptors s);
              rounds := rounds s; learner := learner s; notices := notices s; votes := votes s |}
  | AAccept k sent =>
      r ← rounds s !! k; guard (phase2 r);; guard (Z.of_nat (length (acks r)) < N);;
      a ← acceptors s !! length (acks r);
      let '(ok, a') := ReceiveAccept (r_slot r) (r_id r) (r_val r) a in
      Some {| acceptors := <[length (acks r) := a']> (acceptors s);
              rounds := <[k := add_ack r ok]> (rounds s);
              learner := learner s;
              notices := if ok && sent then notices s ++ [(r_slot r, r_id r, r_val r)] else notices s;
              votes := vote_if ok (length (acks r)) r (votes s) |}
  | AAcceptLost k =>
      r ← rounds s !! k; guard (phase2 r);; guard (Z.of_nat (length (acks r)) < N);;
      Some {| acceptors := acceptors s; rounds := <[k := add_ack r false]> (rounds s);
              learner := learner s; notices := notices s; votes := votes s |}
  | AStrayAccept i k =>
      r ← rounds s !! k; guard (phase2 r);; a ← acceptors s !! i;
      let '(ok, a') := ReceiveAccept (r_slot r) (r_id r) (r_val r) a in
      Some {| acceptors := <[i := a']> (acceptors s); rounds := rounds s;
              learner := learner s; notices := notices s; votes := vote_if ok i r (votes s) |}
  | ALearn j =>
      '(slot, id, v) ← notices s !! j;
      Some {| acceptors := acceptors s; rounds := rounds s; learner := (Observe slot id v (learner s)).2;
              notices := delete j (notices s); votes := votes s |}
  end.

Lemma act_step x s s' : act x s = Some s' → step s s'.
Proof using Type.
  destruct x; simpl; intros; simplify_option_eq;
    repeat match goal with Hx : (let (_, _) := ?x in _) = Some _ |- _ => destruct x eqn:? end;
    simplify_eq/=;
    [eapply s_start|eapply s_prepare|eapply s_prepare_lost|eapply s_stray_prepare
    |eapply s_accept|eapply s_accept_lost|eapply s_stray_accept|eapply s_learn]; done.
Qed.

Fixpoint acts (xs : list action) (s : net) : option net :=
  match xs with [] => Some s | x :: xs' => act x s ≫= acts xs' end.

Lemma acts_reachable xs s : acts xs init = Some s → reachable s.
Proof using Type.
  unfold reachable. generalize init. induction xs as [|x xs IH]; intros s0 Hs; simpl in *.
  - simplify_eq. constructor.
  - destruct (act x s0) as [s1|] eqn:E; simpl in Hs; [|done].
    eapply rtc_l; [by eapply act_step|by apply IH].
Qed.
End net.

(** ** Properties *)

(** C1. Agreement.  On a network of [N] acceptors in which any number of rounds
    of any proposers run concurrently, with proposal identifiers that need not be
    unique, requests and replies lost, delayed and duplicated, and notices to the
    learner lost, delayed and reordered (not duplicated): if no round was started
    with the nil value, any two rounds of a slot for which [propose] returned true sent
    the same value, a value some round of the slot was started with; and whatever
    the learner has learned for the slot is that value. *)
Theorem paxos_agreement {V} `{Countable V} (N : Z) (s : @net V _ _) k1 r1 k2 r2 :
  0 < N → is_i64 N → reachable N s → no_nil s →
  rounds s !! k1 = Some r1 → rounds s !! k2 = Some r2 → r_slot r1 = r_slot r2 →
  succeeded N r1 → succeeded N r2 →
  r_val r1 = r_val r2 ∧
  (∃ k r, rounds s !! k = Some r ∧ r_slot r = r_slot r1 ∧ r_value r = r_val r1) ∧
  (∀ v, learned (learner s) !! r_slot r1 = Some v → v = r_val r1).
Proof.
  intros HN HNi Hr Hnil Hk1 Hk2 Hs Hs1 Hs2.
  pose proof (reachable_full_inv N HN HNi s Hr) as Hfull. pose proof Hfull as [Hinv _].
  pose proof (succeeded_chosen N HN HNi s k1 r1 Hinv Hk1 Hs1) as H1.
  pose proof (succeeded_chosen N HN HNi s k2 r2 Hinv Hk2 Hs2) as H2.
  rewrite <- Hs in H2. split_and!.
  - by eapply (chosen_agree N HN HNi).
  - by eapply (r_val_valid N HN HNi).
  - intros v Hv. destruct (learned_chosen N HN HNi s _ v Hfull Hv) as [id Hid].
    by eapply (chosen_agree N HN HNi).
Qed.

(** Two proposers use the counters 1 and 2; the second adopts the first value. *)
Definition sample_run : list (@action string) :=
  [AStart 0 1 (Some "x"); APrepare 0; APrepare 0; APrepare 0;
   AAccept 0 true; AStart 0 2 (Some "y"); AAccept 0 true; AAcceptLost 0;
   APrepare 1; APrepareLost 1; AStrayPrepare 1 0 2; APrepare 1;
   AAccept 1 true; ALearn 1; AAccept 1 true; AAccept 1 true; ALearn 0; ALearn 1].

Lemma paxos_agreement_witness :
  ∃ s r1 r2, acts 3 sample_run (init 3) = Some s ∧
    rounds s !! 0%nat = Some r1 ∧ rounds s !! 1%nat = Some r2 ∧
    r_value r1 = Some "x" ∧ r_value r2 = Some "y" ∧ r_val r1 = r_val r2.
Proof.
  eexists _, _, _. split; [vm_compute; reflexivity|].
  split; [vm_compute; reflexivity|]. split; [vm_compute; reflexivity|].
  split; [reflexivity|]. split; [reflexivity|].
  match goal with |- r_val ?a = r_val ?b =>
    refine (proj1 (paxos_agreement 3 _ 0%nat a 1%nat b _ _ _ _ _ _ _ _ _)) end;
    [done|compute_decide|apply (acts_reachable 3 sample_run); vm_compute; reflexivity
    |by intros [|[|k]] r [= <-]|reflexivity|reflexivity|reflexivity| |]; vm_compute; done.
Defined.

(** An accepted nil is taken for nothing accepted: with nil chosen by all three acceptors, the
    next round, which has seen their promises, sends its own value, and both succeed. *)
Theorem paxos_nil_disagrees :
  ∃ s r1 r2, acts 3 [AStart 0 1 None; APrepare 0; APrepare 0; APrepare 0; AAccept 0 true; AAccept 0 true; AAccept 0 true;
      AStart 0 2 (Some "y"); APrepare 1; APrepare 1; APrepare 1; AAccept 1 true; AAccept 1 true; AAccept 1 true] (init 3) = Some s ∧
    rounds s !! 0%nat = Some r1 ∧ rounds s !! 1%nat = Some r2 ∧ succeeded 3 r1 ∧ succeeded 3 r2 ∧
    r_val r1 = None ∧ r_val r2 = Some "y".
Proof.
  eexists _, _, _. split; [vm_compute; reflexivity|]. split; [vm_compute; reflexivity|]. split; [vm_compute; reflexivity|].
  vm_compute. done.
Qed.

(** The learner counts notices, not acceptors: of three peers, one acceptance that is
    announced twice is learned. *)
Theorem learner_counts_duplicates :
  let l := (Observe 0 1 (Some "x") (Observe 0 1 (Some "x") (NewLearner 3)).2).2 in Value 0 l = Some (Some "x").
Proof. vm_compute. reflexivity. Qed.

(** ** Multi-Paxos over a direct transport *)

(** Acceptors in the same process, reached by method calls; not a
    [LearnTransport]. *)
Definition direct {V} : Transport V (list (Acceptor V)) :=
  {| Prepare i slot id w :=
       match w !! Z.to_nat i with
       | Some a => let '(r, a) := ReceivePrepare slot id a in (r, <[Z.to_nat i := a]> w)
       | None => ((false, -1, None), w)
       end;
     Accept i slot id v w :=
       match w !! Z.to_nat i with
       | Some a => let '(ok, a) := ReceiveAccept slot id v a in (ok, <[Z.to_nat i := a]> w)
       | None => (false, w)
       end;
     NotifyLearn := None |}.

(** [ProposeSlot] can log a value that was not chosen.  The round may have
    to adopt a value accepted earlier, but [propose] does not return what it
    sent, and when the learner has heard nothing about the slot the caller's own
    value is logged.  Here three acceptors have accepted ["x"] for slot 0; a
    fresh proposer with a plain transport proposes ["y"] twice (its first
    identifier is too low), is told that slot 0 succeeded and logs ["y"], while
    the acceptors all hold ["x"]. *)
Theorem multipaxos_logs_unchosen :
  let acc : list (Acceptor string) :=
    replicate 3 (ReceiveAccept 0 1 (Some "x") NewAcceptor).2 in
  let m0 := NewMultiPaxos 7 3 in
  let learner := λ _ : list (Acceptor string), NewLearner 3 in
  let '(r1, (m1, w1)) := ProposeSlot direct learner (Some "y") m0 acc in
  let '(r2, (m2, w2)) := ProposeSlot direct learner (Some "y") m1 w1 in
  r1.1 = (0, false) ∧ r2 = (0, true, None) ∧ Chosen 0 m2 = Some (Some "y") ∧
  (λ a, AcceptedValueAt a 0) <$> w2 = replicate 3 (Some "x").
Proof. vm_compute. done. Qed.
