(* ===== verification/Lru.v ===== *)
(** * pkg/datastructures/lru: the LRU cache

    The doubly linked list of the cache is modelled on a heap: an entry is a
    cell at a location, [prev] and [next] are locations or nil, and the methods
    update cells in place.  The cache refines a list of pairs, the most recently
    used first. *)

From S2P Require Import Prelude.
From stdpp Require Import options.
Open Scope Z_scope.

Section lru.
Context {K V : Type} `{Countable K}.

Abbreviation loc := nat.

(* src: pkg/datastructures/lru/lru.go 17-22 entry *)
Record entry := { key : K; value : V; prev : option loc; next : option loc }.

(** The cache, with the heap its entries live in; [alloc] is the next fresh
    location. *)
(* src: pkg/datastructures/lru/lru.go 7-15 Cache *)
Record Cache := {
  capacity : Z; items : gmap K loc; head : option loc; tail : option loc; size : Z;
  heap : gmap loc entry; alloc : loc }.

(* src: pkg/datastructures/lru/lru.go 24-33 New *)
Definition New (cap : Z) : Cache :=
  {| capacity := if decide (cap ≤ 0) then 1 else cap; items := ∅; head := None;
     tail := None; size := 0; heap := ∅; alloc := 0 |}.

(** Assignments to the fields of the cache and of an entry. *)
Definition set_items (m : gmap K loc) (c : Cache) : Cache :=
  {| capacity := capacity c; items := m; head := head c; tail := tail c;
     size := size c; heap := heap c; alloc := alloc c |}.
Definition set_head (h : option loc) (c : Cache) : Cache :=
  {| capacity := capacity c; items := items c; head := h; tail := tail c;
     size := size c; heap := heap c; alloc := alloc c |}.
Definition set_tail (t : option loc) (c : Cache) : Cache :=
  {| capacity := capacity c; items := items c; head := head c; tail := t;
     size := size c; heap := heap c; alloc := alloc c |}.
Definition set_size (n : Z) (c : Cache) : Cache :=
  {| capacity := capacity c; items := items c; head := head c; tail := tail c;
     size := n; heap := heap c; alloc := alloc c |}.
Definition set_heap (h : gmap loc entry) (c : Cache) : Cache :=
  {| capacity := capacity c; items := items c; head := head c; tail := tail c;
     size := size c; heap := h; alloc := alloc c |}.

Definition with_next (n : option loc) (e : entry) : entry :=
  {| key := key e; value := value e; prev := prev e; next := n |}.
Definition with_prev (p : option loc) (e : entry) : entry :=
  {| key := key e; value := value e; prev := p; next := next e |}.
Definition with_value (v : V) (e : entry) : entry :=
  {| key := key e; value := v; prev := prev e; next := next e |}.

Definition upd (l : loc) (f : entry → entry) (c : Cache) : Cache :=
  set_heap (alter f l (heap c)) c.
(** [if p != nil { p.f = ... }] *)
Definition upd_opt (p : option loc) (f : entry → entry) (c : Cache) : Cache :=
  match p with Some l => upd l f c | None => c end.
Definition prev_of (c : Cache) (l : loc) : option loc := heap c !! l ≫= prev.
Definition next_of (c : Cache) (l : loc) : option loc := heap c !! l ≫= next.

(* src: pkg/datastructures/lru/lru.go 95-109 pushFront *)
Definition pushFront (e : loc) (c : Cache) : Cache :=
  let c := match head c with
           | None =>
               upd e (with_next None) (upd e (with_prev None)
                 (set_tail (Some e) (set_head (Some e) c)))
           | Some h =>
               set_head (Some e) (upd h (with_prev (Some e))
                 (upd e (with_prev None) (upd e (with_next (Some h)) c)))
           end in
  set_size (i64 (size c + 1)) c.

(* src: pkg/datastructures/lru/lru.go 111-135 moveToFront *)
Definition moveToFront (e : loc) (c : Cache) : Cache :=
  if decide (head c = Some e) then c
  else
    let c := upd_opt (prev_of c e) (with_next (next_of c e)) c in
    let c := upd_opt (next_of c e) (with_prev (prev_of c e)) c in
    let c := if decide (tail c = Some e) then set_tail (prev_of c e) c else c in
    let c := upd e (with_prev None) (upd e (with_next (head c)) c) in
    let c := upd_opt (head c) (with_prev (Some e)) c in
    set_head (Some e) c.

(* src: pkg/datastructures/lru/lru.go 137-152 remove *)
Definition remove (e : loc) (c : Cache) : Cache :=
  let c := match prev_of c e with
           | Some p => upd p (with_next (next_of c e)) c
           | None => set_head (next_of c e) c
           end in
  let c := match next_of c e with
           | Some n => upd n (with_prev (prev_of c e)) c
           | None => set_tail (prev_of c e) c
           end in
  let c := upd e (with_prev None) (upd e (with_next None) c) in
  set_size (i64 (size c - 1)) c.

(* src: pkg/datastructures/lru/lru.go 69-76 removeOldest *)
Definition removeOldest (c : Cache) : Cache :=
  match tail c with
  | Some ent =>
      let c := remove ent c in
      match heap c !! ent with
      | Some e => set_items (delete (key e) (items c)) c
      | None => c
      end
  | None => c
  end.

(* src: pkg/datastructures/lru/lru.go 35-47 Get *)
Definition Get (k : K) (c : Cache) : option V * Cache :=
  match items c !! k with
  | Some ent =>
      let c := moveToFront ent c in
      (value <$> heap c !! ent, c)
  | None => (None, c)
  end.

(* src: pkg/datastructures/lru/lru.go 49-67 Set *)
Definition Set_ (k : K) (v : V) (c : Cache) : Cache :=
  match items c !! k with
  | Some ent => upd ent (with_value v) (moveToFront ent c)
  | None =>
      let ent := alloc c in
      let c := {| capacity := capacity c; items := items c; head := head c;
                  tail := tail c; size := size c; alloc := S ent;
                  heap := <[ent := {| key := k; value := v; prev := None;
                                      next := None |}]> (heap c) |} in
      let c := pushFront ent c in
      let c := set_items (<[k := ent]> (items c)) c in
      if decide (capacity c < size c) then removeOldest c else c
  end.

(* src: pkg/datastructures/lru/lru.go 78-83 Len *)
Definition Len (c : Cache) : Z := size c.

(* src: pkg/datastructures/lru/lru.go 85-93 Clear *)
Definition Clear (c : Cache) : Cache :=
  set_items ∅ (set_size 0 (set_tail None (set_head None c))).

(** ** The specification: pairs, the most recently used first *)

Abbreviation spec := (list (K * V)).

Definition without (k : K) (l : spec) : spec := filter (λ p, p.1 ≠ k) l.

Definition spec_Get (k : K) (l : spec) : option V * spec :=
  match (list_to_map l : gmap K V) !! k with
  | Some v => (Some v, (k, v) :: without k l)
  | None => (None, l)
  end.

Definition spec_Set (cap : Z) (k : K) (v : V) (l : spec) : spec :=
  take (Z.to_nat cap) ((k, v) :: without k l).

(** ** The list in the heap *)

(** A cell of the list: its location, key and value. *)
Abbreviation cell := (loc * (K * V))%type.

Definition first_of (n : option loc) (xs : list cell) : option loc :=
  match xs with [] => n | x :: _ => Some x.1 end.
Definition last_of (p : option loc) (xs : list cell) : option loc :=
  match last xs with None => p | Some x => Some x.1 end.

(** [xs] is linked in the heap, between the neighbours [p] and [n]. *)
Fixpoint dll (h : gmap loc entry) (p : option loc) (xs : list cell) (n : option loc) : Prop :=
  match xs with
  | [] => True
  | x :: xs' =>
      h !! x.1 = Some {| key := x.2.1; value := x.2.2; prev := p; next := first_of n xs' |} ∧
      dll h (Some x.1) xs' n
  end.

Lemma first_of_app n xs ys : first_of n (xs ++ ys) = first_of (first_of n ys) xs.
Proof. by destruct xs. Qed.
Lemma last_of_cons p x xs : last_of p (x :: xs) = last_of (Some x.1) xs.
Proof. unfold last_of. rewrite last_cons. by destruct (last xs). Qed.
Lemma last_of_snoc p xs x : last_of p (xs ++ [x]) = Some x.1.
Proof. unfold last_of. by rewrite last_snoc. Qed.

Lemma dll_app h p xs ys n :
  dll h p (xs ++ ys) n ↔ dll h p xs (first_of n ys) ∧ dll h (last_of p xs) ys n.
Proof.
  revert p. induction xs as [|x xs IH]; intros p; simpl; [tauto|].
  rewrite IH, first_of_app, last_of_cons. tauto.
Qed.

(** Cells outside the list do not matter. *)
Lemma dll_alter h p xs n l f : l ∉ xs.*1 → dll h p xs n → dll (alter f l h) p xs n.
Proof.
  revert p. induction xs as [|x xs IH]; intros p; simpl; [done|].
  intros [? ?]%not_elem_of_cons [? ?]. rewrite lookup_alter_ne by done. auto.
Qed.

Lemma dll_insert h p xs n l e : l ∉ xs.*1 → dll h p xs n → dll (<[l := e]> h) p xs n.
Proof.
  revert p. induction xs as [|x xs IH]; intros p; simpl; [done|].
  intros [? ?]%not_elem_of_cons [? ?]. rewrite lookup_insert_ne by done. auto.
Qed.

(** Changing the neighbours of a list. *)
Lemma dll_new_prev h p xs n p' :
  NoDup xs.*1 → dll h p xs n →
  dll (match first_of None xs with Some l => alter (with_prev p') l h | None => h end) p' xs n.
Proof.
  destruct xs as [|x xs]; simpl; [done|]. intros [Hx _]%NoDup_cons [Hl Hd].
  rewrite lookup_alter_eq, Hl. split; [done|]. by apply dll_alter.
Qed.

Lemma dll_new_next h p xs n n' :
  NoDup xs.*1 → dll h p xs n →
  dll (match last_of None xs with Some l => alter (with_next n') l h | None => h end) p xs n'.
Proof.
  induction xs as [|x xs _] using rev_ind; [done|].
  rewrite fmap_app, last_of_snoc. intros (Hnd & Hdis & _)%NoDup_app.
  rewrite !dll_app. simpl. intros (Hd & Hl & _). rewrite lookup_alter_eq, Hl.
  split_and!; [|done..]. apply dll_alter; [|done]. intros Hin. apply (Hdis _ Hin). by left.
Qed.

Lemma dll_lookup h p xs n l1 x l2 :
  xs = l1 ++ x :: l2 → dll h p xs n →
  h !! x.1 = Some {| key := x.2.1; value := x.2.2; prev := last_of p l1;
                     next := first_of n l2 |}.
Proof. intros -> [_ [? _]]%dll_app. done. Qed.

(** ** Representation *)

Record repr (c : Cache) (xs : list cell) : Prop := {
  re_locs : NoDup xs.*1;
  re_keys : NoDup xs.*2.*1;
  re_head : head c = first_of None xs;
  re_tail : tail c = last_of None xs;
  re_dll : dll (heap c) None xs None;
  re_items k l : items c !! k = Some l ↔ ∃ v, (l, (k, v)) ∈ xs;
  re_size : size c = Z.of_nat (length xs);
  re_cap : 0 < capacity c ∧ is_i64 (capacity c + 1) ∧ size c ≤ capacity c + 1;
  re_alloc l : l ∈ xs.*1 → (l < alloc c)%nat }.

Definition unlink_heap (x : cell) (l1 l2 : list cell) (h : gmap loc entry) : gmap loc entry :=
  let h := match last_of None l1 with
           | Some l => alter (with_next (first_of None l2)) l h | None => h end in
  match first_of None l2 with
  | Some l => alter (with_prev (last_of None l1)) l h | None => h end.

Lemma first_of_elem xs l : first_of None xs = Some l → l ∈ xs.*1.
Proof. destruct xs as [|x xs]; simpl; [done|]. intros [= <-]. left. Qed.
Lemma last_of_elem xs l : last_of None xs = Some l → l ∈ xs.*1.
Proof.
  destruct xs as [|x xs _] using rev_ind; [done|]. rewrite last_of_snoc, fmap_app.
  intros [= <-]. set_solver.
Qed.

(** Unlinking a cell leaves the others linked, and the cell as it was. *)
Lemma unlink_dll x l1 l2 h :
  NoDup (l1 ++ x :: l2).*1 → dll h None (l1 ++ x :: l2) None →
  dll (unlink_heap x l1 l2 h) None (l1 ++ l2) None ∧
  unlink_heap x l1 l2 h !! x.1 = h !! x.1.
Proof.
  rewrite fmap_app. intros (Hnd1 & Hdis & Hnd2)%NoDup_app.
  simpl in *. apply NoDup_cons in Hnd2 as [Hx Hnd2].
  rewrite dll_app. simpl. intros (Hd1 & Hl & Hd2). unfold unlink_heap.
  pose proof (dll_new_next h None l1 _ (first_of None l2) Hnd1 Hd1) as Hd1'.
  set (h1 := match last_of None l1 with Some l => _ | None => h end) in *.
  assert (dll h1 (Some x.1) l2 None ∧ h1 !! x.1 = h !! x.1) as [Hd2' Hx1].
  { subst h1. destruct (last_of None l1) as [l|] eqn:E; [|done]. apply last_of_elem in E.
    specialize (Hdis _ E). split; [apply dll_alter; set_solver|].
    apply lookup_alter_ne. set_solver. }
  pose proof (dll_new_prev h1 _ l2 _ (last_of None l1) Hnd2 Hd2') as Hd2''.
  split.
  - apply dll_app. split; [|done]. destruct (first_of None l2) as [l|] eqn:E; [|done].
    apply first_of_elem in E. apply dll_alter; [|done]. intros Hin. apply (Hdis _ Hin).
    by right.
  - destruct (first_of None l2) as [l|] eqn:E; [|done]. apply first_of_elem in E.
    rewrite lookup_alter_ne; [done|]. set_solver.
Qed.

Definition alter_opt (p : option loc) (f : entry → entry) (h : gmap loc entry) :=
  match p with Some l => alter f l h | None => h end.

Lemma moveToFront_eq c l1 x l2 :
  NoDup (l1 ++ x :: l2).*1 → dll (heap c) None (l1 ++ x :: l2) None →
  head c ≠ Some x.1 →
  moveToFront x.1 c =
    {| capacity := capacity c; items := items c; head := Some x.1;
       tail := if decide (tail c = Some x.1) then last_of None l1 else tail c;
       size := size c; alloc := alloc c;
       heap := alter_opt (head c) (with_prev (Some x.1))
         (alter (with_prev None) x.1
           (alter (with_next (head c)) x.1 (unlink_heap x l1 l2 (heap c)))) |}.
Proof.
  intros Hnd Hd Hh. unfold moveToFront. rewrite decide_False by done.
  pose proof (dll_lookup _ _ _ _ l1 x l2 eq_refl Hd) as Hx.
  rewrite fmap_app in Hnd. apply NoDup_app in Hnd as (_ & Hdis & Hnd2).
  simpl in *. apply NoDup_cons in Hnd2 as [Hx2 _].
  assert (last_of None l1 ≠ Some x.1) as Hp.
  { intros E%last_of_elem. apply (Hdis _ E). by left. }
  assert (first_of None l2 ≠ Some x.1) as Hn by by intros E%first_of_elem.
  assert (prev_of c x.1 = last_of None l1) as E1 by by (unfold prev_of; rewrite Hx).
  assert (next_of c x.1 = first_of None l2) as E2 by by (unfold next_of; rewrite Hx).
  rewrite E1, E2. set (c1 := upd_opt _ _ c).
  assert (heap c1 !! x.1 = heap c !! x.1) as Hx1.
  { subst c1. destruct (last_of None l1); simpl; [|done].
    apply lookup_alter_ne. congruence. }
  assert (prev_of c1 x.1 = last_of None l1) as E3 by by (unfold prev_of; rewrite Hx1, Hx).
  assert (next_of c1 x.1 = first_of None l2) as E4 by by (unfold next_of; rewrite Hx1, Hx).
  rewrite E3, E4. set (c2 := upd_opt _ _ c1).
  assert (heap c2 !! x.1 = heap c !! x.1) as Hx2'.
  { rewrite <- Hx1. subst c2. destruct (first_of None l2); simpl; [|done].
    apply lookup_alter_ne. congruence. }
  assert (prev_of c2 x.1 = last_of None l1) as -> by by (unfold prev_of; rewrite Hx2', Hx).
  assert (c2 = {| capacity := capacity c; items := items c; head := head c; tail := tail c;
    size := size c; heap := unlink_heap x l1 l2 (heap c); alloc := alloc c |}) as ->.
  { subst c2 c1. unfold unlink_heap. destruct c, (last_of None l1), (first_of None l2); done. }
  simpl. case_decide; simpl; by destruct (head c).
Qed.

Lemma last_of_app p xs ys : last_of p (xs ++ ys) = last_of (last_of p xs) ys.
Proof. unfold last_of. rewrite last_app. by destruct (last ys). Qed.

Lemma moveToFront_repr c l1 x l2 :
  repr c (l1 ++ x :: l2) → repr (moveToFront x.1 c) (x :: l1 ++ l2).
Proof.
  intros [Hnd Hk Hhd Htl Hd Hit Hsz Hcap Hal].
  assert (x :: l1 ++ l2 ≡ₚ l1 ++ x :: l2) as Hperm by apply Permutation_middle.
  destruct (decide (head c = Some x.1)) as [Hh|Hh].
  { destruct l1 as [|y l1].
    - unfold moveToFront. rewrite decide_True by done. done.
    - rewrite Hhd in Hh. simpl in *. simplify_eq. apply NoDup_cons in Hnd as [Hy _].
      exfalso. apply Hy. rewrite Hh, fmap_app. set_solver. }
  assert (l1 ≠ []) as Hne by by intros ->.
  destruct (unlink_dll x l1 l2 (heap c) Hnd Hd) as [Hd' Hx'].
  pose proof (dll_lookup _ _ _ _ l1 x l2 eq_refl Hd) as Hx.
  assert (head c = first_of None (l1 ++ l2)) as Hh'.
  { rewrite Hhd. by destruct l1. }
  assert (NoDup (x :: l1 ++ l2).*1) as Hnd' by by rewrite Hperm.
  assert (NoDup (x :: l1 ++ l2).*2.*1) as Hk' by by rewrite Hperm.
  rewrite (moveToFront_eq c l1 x l2) by done.
  set (h1 := unlink_heap x l1 l2 (heap c)) in *.
  split; simpl; try done.
  - rewrite Htl, !last_of_app, !last_of_cons, last_of_app.
    destruct l2 as [|z l2 _] using rev_ind.
    + rewrite decide_True by done. simpl. by destruct l1 as [|y l1 _] using rev_ind;
        [done|rewrite !last_of_snoc].
    + rewrite !last_of_snoc, decide_False; [done|]. intros [= Heq].
      rewrite fmap_app in Hnd. apply NoDup_app in Hnd as (_ & _ & Hnd). simpl in Hnd.
      apply NoDup_cons in Hnd as [Hnd _]. apply Hnd. rewrite fmap_app. simpl. set_solver.
  - simpl in Hnd'. apply NoDup_cons in Hnd' as [Hxn Hnd'].
    set (h2 := alter (with_prev None) x.1 (alter (with_next (head c)) x.1 h1)).
    assert (dll h2 None (l1 ++ l2) None) as Hd2 by by do 2 (apply dll_alter; [done|]).
    assert (h2 !! x.1 = Some {| key := x.2.1; value := x.2.2; prev := None;
      next := head c |}) as Hx2.
    { subst h2. rewrite !lookup_alter_eq, Hx', Hx. done. }
    rewrite Hh' in *. pose proof (dll_new_prev h2 _ _ _ (Some x.1) Hnd' Hd2) as Hd3.
    split; [|by destruct (first_of None (l1 ++ l2))].
    destruct (first_of None (l1 ++ l2)) as [l|] eqn:E; simpl; [|done].
    apply first_of_elem in E. rewrite lookup_alter_ne by by intros ->. done.
  - intros k l. rewrite Hit. by setoid_rewrite Hperm.
  - rewrite Hsz, !length_app. simpl. lia.
  - intros l. change (l ∈ (x :: l1 ++ l2).*1 → (l < alloc c)%nat). rewrite Hperm. apply Hal.
Qed.

Lemma with_value_repr c x xs v :
  repr c (x :: xs) → repr (upd x.1 (with_value v) c) ((x.1, (x.2.1, v)) :: xs).
Proof.
  intros [Hnd Hk Hhd Htl Hd Hit Hsz Hcap Hal]. split; simpl in *; try done.
  - rewrite Htl, !last_of_cons. done.
  - destruct Hd as [Hx Hd]. rewrite lookup_alter_eq, Hx. split; [done|].
    apply NoDup_cons in Hnd as [? _]. by apply dll_alter.
  - intros k l. rewrite Hit. destruct x as [lx [kx vx]]. simpl.
    setoid_rewrite elem_of_cons. split; intros [w [?|?]]; simplify_eq; eauto.
Qed.

Lemma push_repr c xs k v :
  repr c xs → items c !! k = None → size c ≤ capacity c →
  let ent := alloc c in
  let c' := {| capacity := capacity c; items := items c; head := head c;
               tail := tail c; size := size c; alloc := S ent;
               heap := <[ent := {| key := k; value := v; prev := None;
                                   next := None |}]> (heap c) |} in
  let c' := pushFront ent c' in
  repr (set_items (<[k := ent]> (items c')) c') ((ent, (k, v)) :: xs).
Proof.
  intros [Hnd Hk Hhd Htl Hd Hit Hsz Hcap Hal] Hnone Hle ent c0 c'.
  assert (ent ∉ xs.*1) as Hfresh by (intros ?%Hal; lia).
  assert (k ∉ xs.*2.*1) as Hkf.
  { intros ([k' v'] & Hk1 & ([l p] & Hk2 & Hin)%list_elem_of_fmap)%list_elem_of_fmap.
    simplify_eq/=. assert (items c !! k' = Some l) as E by (apply Hit; eauto). congruence. }
  assert (dll (heap c0) None xs None) as Hd0 by by apply dll_insert.
  assert (heap c0 !! ent = Some {| key := k; value := v; prev := None; next := None |}) as He
    by apply lookup_insert_eq.
  assert (capacity c' = capacity c ∧ items c' = items c ∧ alloc c' = S ent ∧
    head c' = Some ent ∧ size c' = i64 (size c + 1)) as (Hc1 & Hc2 & Hc3 & Hc4 & Hc5).
  { subst c'. unfold pushFront. simpl. by destruct (head c). }
  assert (tail c' = last_of (Some ent) xs) as Hc6.
  { subst c'. unfold pushFront. simpl. rewrite Hhd.
    destruct xs as [|y xs]; simpl; [done|]. by rewrite Htl, !last_of_cons. }
  assert (dll (heap c') None ((ent, (k, v)) :: xs) None) as Hc7.
  { subst c'. unfold pushFront. simpl. rewrite Hhd. destruct xs as [|y xs]; simpl.
    { by rewrite !lookup_alter_eq, lookup_insert_eq. }
    simpl in Hfresh. apply not_elem_of_cons in Hfresh as [Hy Hfresh]. split.
    - rewrite lookup_alter_ne, !lookup_alter_eq, lookup_insert_eq by done. done.
    - pose proof (dll_new_prev (alter (with_prev None) ent (alter (with_next (Some y.1)) ent
        (heap c0))) None (y :: xs) None (Some ent) Hnd) as Hn. simpl in Hn. apply Hn.
      destruct Hd0 as [Hy0 Hd0]. split; [by rewrite !lookup_alter_ne|].
      by do 2 (apply dll_alter; [done|]). }
  rewrite i64_id in Hc5 by (unfold is_i64 in *; lia).
  clearbody c'. split; simpl; try done; [by constructor|by constructor|..].
  - by rewrite last_of_cons.
  - intros k' l. rewrite Hc2, lookup_insert_Some, Hit. setoid_rewrite elem_of_cons. split.
    + intros [[<- <-]|[Hne [w Hw]]]; eauto.
    + intros [w [[= -> -> ->]|Hw]]; [by left|]. right. split; [|by eauto].
      intros ->. apply Hkf. apply list_elem_of_fmap. exists (k', w). split; [done|].
      apply list_elem_of_fmap. by exists (l, (k', w)).
  - rewrite Hc5, Hsz. lia.
  - rewrite Hc1, Hc5. destruct Hcap as (? & ? & ?). split_and!; [done|done|lia].
  - rewrite Hc3. intros l [->|Hl]%elem_of_cons; [lia|]. apply Hal in Hl. lia.
Qed.

Lemma removeOldest_repr c xs x :
  repr c (xs ++ [x]) → xs ≠ [] → repr (removeOldest c) xs ∧ size (removeOldest c) = size c - 1.
Proof.
  intros [Hnd Hk Hhd Htl Hd Hit Hsz Hcap Hal] Hne. unfold removeOldest.
  rewrite Htl, last_of_snoc. pose proof (dll_lookup _ _ _ _ xs x [] eq_refl Hd) as Hx.
  destruct xs as [|y xs _] using rev_ind; [done|].
  rewrite last_of_snoc in Hx. set (ys := xs ++ [y]) in *. unfold remove.
  assert (x.1 ∉ ys.*1) as Hxn.
  { rewrite fmap_app in Hnd. apply NoDup_app in Hnd as (_ & Hdis & _).
    intros Hin. apply (Hdis _ Hin). by left. }
  assert (y.1 ≠ x.1) as Hxy by (intros Heq; apply Hxn; subst ys; rewrite fmap_app; set_solver).
  assert (prev_of c x.1 = Some y.1) as -> by by (unfold prev_of; rewrite Hx).
  assert (next_of c x.1 = None) as -> by by (unfold next_of; rewrite Hx).
  set (c1 := upd y.1 _ c).
  assert (heap c1 !! x.1 = heap c !! x.1) as Hx1 by by apply lookup_alter_ne.
  assert (next_of c1 x.1 = None) as -> by by (unfold next_of; rewrite Hx1, Hx).
  assert (prev_of c1 x.1 = Some y.1) as -> by by (unfold prev_of; rewrite Hx1, Hx).
  assert (size c - 1 = i64 (size c - 1)) as Hsize.
  { rewrite i64_id; [done|]. rewrite length_app in Hsz. simpl in Hsz. unfold is_i64 in *. lia. }
  simpl. rewrite !lookup_alter_eq, lookup_alter_ne, Hx by done. simpl.
  split; [|by rewrite <- Hsize].
  apply dll_app in Hd as [Hd _]. rewrite !fmap_app in Hk. apply NoDup_app in Hk as (Hk & Hkd & _).
  rewrite fmap_app in Hnd. pose proof (proj1 (proj1 (NoDup_app _ _) Hnd)) as Hnd'.
  split; simpl; try done.
  - rewrite Hhd. subst ys. by destruct xs.
  - subst ys. by rewrite last_of_snoc.
  - do 2 (apply dll_alter; [done|]).
    pose proof (dll_new_next (heap c) None ys _ None Hnd' Hd) as Hn.
    subst ys. by rewrite last_of_snoc in Hn.
  - intros k l. rewrite lookup_delete_Some, Hit. setoid_rewrite elem_of_app. split.
    + intros [Hne' [v [Hv|Hv%list_elem_of_singleton]]]; [by eauto|]. subst x. done.
    + intros [v Hv]. split; [|by eauto]. intros <-. apply (Hkd x.2.1); [|by left].
      apply list_elem_of_fmap. exists (x.2.1, v). split; [done|]. apply list_elem_of_fmap.
      by exists (l, (x.2.1, v)).
  - rewrite <- Hsize, Hsz, length_app. simpl. lia.
  - rewrite <- Hsize. destruct Hcap as (? & ? & ?). split_and!; [done|done|lia].
  - intros l Hl. apply Hal. rewrite fmap_app. set_solver.
Qed.

(** ** Refinement *)

Definition refines (cap : Z) (c : Cache) (l : spec) : Prop :=
  ∃ xs, repr c xs ∧ xs.*2 = l ∧ size c ≤ capacity c ∧ capacity c = cap.

Lemma without_notin k (l : spec) : k ∉ l.*1 → without k l = l.
Proof.
  unfold without. induction l as [|p l IH]; simpl; [done|].
  intros [? ?]%not_elem_of_cons. rewrite filter_cons, decide_True, IH by done. done.
Qed.

Lemma without_split k v (l1 l2 : spec) :
  NoDup (l1 ++ (k, v) :: l2).*1 → without k (l1 ++ (k, v) :: l2) = l1 ++ l2.
Proof.
  rewrite fmap_app. simpl. intros (_ & Hdis & Hnd)%NoDup_app.
  apply NoDup_cons in Hnd as [Hk _]. unfold without. rewrite filter_app, filter_cons.
  simpl. rewrite decide_False by naive_solver. fold (without k l1) (without k l2).
  rewrite !without_notin; [done|done|]. intros Hin. apply (Hdis _ Hin). by left.
Qed.

Lemma find_cell c xs k l :
  repr c xs → items c !! k = Some l → ∃ l1 v l2, xs = l1 ++ (l, (k, v)) :: l2 ∧
    (list_to_map xs.*2 : gmap K V) !! k = Some v ∧
    without k xs.*2 = l1.*2 ++ l2.*2.
Proof.
  intros Hr Hl. apply (re_items _ _ Hr) in Hl as [v Hin].
  apply list_elem_of_split in Hin as (l1 & l2 & ->). exists l1, v, l2.
  pose proof (re_keys _ _ Hr) as Hnd. rewrite fmap_app in *. simpl in *.
  split_and!; [done| |by apply without_split].
  apply elem_of_list_to_map_1; [done|]. set_solver.
Qed.

Lemma missing_key c xs k :
  repr c xs → items c !! k = None → k ∉ xs.*2.*1.
Proof.
  intros Hr Hn ([k' v] & Hk1 & ([l p] & Hk2 & Hin)%list_elem_of_fmap)%list_elem_of_fmap.
  simplify_eq/=. assert (items c !! k' = Some l) by (apply (re_items _ _ Hr); eauto). congruence.
Qed.

Lemma moveToFront_size l c : size (moveToFront l c) = size c ∧ capacity (moveToFront l c) = capacity c.
Proof.
  unfold moveToFront, upd_opt, upd. repeat case_decide; simpl; try done;
    repeat (case_match; simpl); done.
Qed.

Lemma Get_refines cap c l k :
  refines cap c l → (Get k c).1 = (spec_Get k l).1 ∧ refines cap (Get k c).2 (spec_Get k l).2.
Proof.
  intros (xs & Hr & <- & Hsz & Hcap). unfold Get, spec_Get.
  destruct (items c !! k) as [e|] eqn:Hk.
  - destruct (find_cell _ _ _ _ Hr Hk) as (l1 & v & l2 & -> & -> & Hw). simpl.
    pose proof (moveToFront_repr c l1 (e, (k, v)) l2 Hr) as Hr'. simpl in Hr'.
    split.
    + destruct (re_dll _ _ Hr') as [Hx _]. simpl in Hx. by rewrite Hx.
    + rewrite Hw. exists ((e, (k, v)) :: l1 ++ l2). destruct (moveToFront_size e c) as [-> ->].
      split_and!; [done| |done|done]. by rewrite fmap_cons, fmap_app.
  - rewrite (not_elem_of_list_to_map_1 _ k) by by eapply missing_key.
    split; [done|]. by exists xs.
Qed.

Lemma Set_refines cap c l k v :
  refines cap c l → refines cap (Set_ k v c) (spec_Set cap k v l).
Proof.
  intros (xs & Hr & <- & Hsz & Hcap). unfold Set_, spec_Set.
  pose proof (re_cap _ _ Hr) as (Hpos & _ & _). pose proof (re_size _ _ Hr) as Hlen.
  destruct (items c !! k) as [e|] eqn:Hk.
  - destruct (find_cell _ _ _ _ Hr Hk) as (l1 & v' & l2 & -> & _ & Hw). rewrite Hw.
    pose proof (moveToFront_repr c l1 (e, (k, v')) l2 Hr) as Hr'. simpl in Hr'.
    apply (with_value_repr _ _ _ v) in Hr'. simpl in Hr'.
    eexists. split; [done|]. simpl. destruct (moveToFront_size e c) as [-> ->].
    split_and!; [|done|done]. rewrite fmap_app. rewrite length_app in Hlen. simpl in Hlen.
    rewrite take_ge; [done|]. simpl. rewrite length_app, !length_fmap. lia.
  - rewrite without_notin by by eapply missing_key.
    pose proof (push_repr c xs k v Hr Hk Hsz) as Hr'. cbv zeta in Hr'.
    set (c' := set_items _ _) in *.
    assert (capacity c' = capacity c) as Hc1 by by (subst c'; unfold pushFront; simpl; destruct (head c)).
    clearbody c'. pose proof (re_size _ _ Hr') as Hsz'. simpl in Hsz'.
    case_decide as Hfull.
    + destruct xs as [|x xs _] using rev_ind; [simpl in *; lia|].
      destruct (removeOldest_repr c' ((alloc c, (k, v)) :: xs) x Hr') as [Hr'' Hs'']; [done|].
      assert (capacity (removeOldest c') = capacity c') as Hc2.
      { unfold removeOldest, remove. repeat (case_match; simpl); done. }
      exists ((alloc c, (k, v)) :: xs). rewrite Hs'', Hc2. rewrite length_app in *. simpl in *.
      split_and!; [done| |lia|lia].
      rewrite fmap_app. change ((k, v) :: ?a ++ ?b) with (((k, v) :: a) ++ b).
      rewrite take_app_length'; [done|]. simpl. rewrite length_fmap. lia.
    + eexists. split; [done|]. split_and!; [|lia|lia]. simpl.
      rewrite take_ge; [done|]. simpl. rewrite length_fmap. lia.
Qed.

Lemma empty_refines cap c :
  items c = ∅ → head c = None → tail c = None → size c = 0 → capacity c = cap →
  0 < cap → is_i64 (cap + 1) → refines cap c [].
Proof.
  intros Hi Hh Ht Hs <- Hpos Hcap. exists []. split_and!; [|done|lia|done].
  split; try done; [apply NoDup_nil_2|apply NoDup_nil_2| | |].
  - intros k l. rewrite Hi, lookup_empty. split; [done|]. by intros [v ?%not_elem_of_nil].
  - split_and!; [done|done|lia].
  - by intros l ?%not_elem_of_nil.
Qed.

Lemma Clear_refines cap c l : refines cap c l → refines cap (Clear c) [].
Proof.
  intros (xs & Hr & <- & Hsz & <-). pose proof (re_cap _ _ Hr) as (? & ? & ?).
  by apply empty_refines.
Qed.

(** ** Histories *)

Inductive call := CGet (k : K) | CSet (k : K) (v : V) | CLen | CClear.
Inductive answer := AGet (v : option V) | ALen (n : Z) | ANone.

Definition run_call (x : call) (c : Cache) : answer * Cache :=
  match x with
  | CGet k => let '(v, c) := Get k c in (AGet v, c)
  | CSet k v => (ANone, Set_ k v c)
  | CLen => (ALen (Len c), c)
  | CClear => (ANone, Clear c)
  end.

Definition spec_call (cap : Z) (x : call) (l : spec) : answer * spec :=
  match x with
  | CGet k => let '(v, l) := spec_Get k l in (AGet v, l)
  | CSet k v => (ANone, spec_Set cap k v l)
  | CLen => (ALen (Z.of_nat (length l)), l)
  | CClear => (ANone, [])
  end.

Fixpoint answers (xs : list call) (c : Cache) : list answer :=
  match xs with
  | [] => []
  | x :: xs' => let '(a, c') := run_call x c in a :: answers xs' c'
  end.
Fixpoint spec_answers (cap : Z) (xs : list call) (l : spec) : list answer :=
  match xs with
  | [] => []
  | x :: xs' => let '(a, l') := spec_call cap x l in a :: spec_answers cap xs' l'
  end.

Lemma answers_refine cap xs c l :
  refines cap c l → answers xs c = spec_answers cap xs l.
Proof.
  revert c l. induction xs as [|x xs IH]; intros c l Hr; simpl; [done|].
  destruct x as [k|k v| |]; simpl.
  - destruct (Get_refines cap c l k Hr) as [E Hr']. destruct (Get k c), (spec_Get k l).
    simpl in *. subst. f_equal. by apply IH.
  - f_equal. by apply IH, Set_refines.
  - f_equal; [|by apply IH]. destruct Hr as (ys & Hr & <- & _). unfold Len.
    by rewrite (re_size _ _ Hr), length_fmap.
  - f_equal. by eapply IH, Clear_refines.
Qed.

Lemma New_refines cap :
  is_i64 (cap + 1) → refines (if decide (cap ≤ 0) then 1 else cap) (New cap) [].
Proof.
  intros Hcap. unfold is_i64 in *. apply empty_refines; try done; simpl;
    case_decide; unfold is_i64; lia.
Qed.
End lru.

(** ** Properties *)

(** C29. The LRU cache, with its map, its linked list in the heap and its pointer
    updates, answers every sequence of [Get], [Set], [Len] and [Clear] calls as
    the list of pairs does: a hit moves the pair to the front, [Set] puts the pair
    at the front and drops what no longer fits, so the pair dropped is always the
    least recently used one and at most [capacity] pairs are kept. *)
Theorem lru_refines_list {K V} `{Countable K} (cap : Z) (xs : list (@call K V)) :
  is_i64 (cap + 1) →
  answers xs (New cap) = spec_answers (if decide (cap ≤ 0) then 1 else cap) xs [].
Proof. intros Hcap. by apply answers_refine, New_refines. Qed.

Lemma lru_refines_list_witness :
  answers [CSet 1 "a"; CSet 2 "b"; CGet 1; CSet 3 "c"; CGet 2; CLen] (New 2) =
    [ANone; ANone; AGet (Some "a"); ANone; AGet None; ALen 2].
Proof.
  rewrite (lru_refines_list 2); [vm_compute; reflexivity|compute_decide].
Defined.
