(* ===== verification/Arc.v ===== *)
(** * pkg/datastructures/arc: the adaptive replacement cache

    A [container/list] list of entries is the list of their keys, front first: an
    entry is the value of at most one list element, and its key identifies it in
    [items], so removing [ent.el] is removing the key from the list [ent.listID]
    names.  The fields of the entries live in [items]. *)

From S2P Require Import Prelude.
From stdpp Require Import options.
Open Scope Z_scope.

Section arc.
Context {K V : Type} `{Countable K} (zero : V).

(* src: pkg/datastructures/arc/arc.go 19-25 entry *)
Record entry := { value : V; isGhost : bool; listID : Z }.

(* src: pkg/datastructures/arc/arc.go 9-17 Cache *)
Record Cache := {
  capacity : Z; p : Z; t1 : list K; t2 : list K; b1 : list K; b2 : list K;
  items : gmap K entry }.

(* src: pkg/datastructures/arc/arc.go 27-41 New *)
Definition New (cap : Z) : Cache :=
  {| capacity := if decide (cap ≤ 0) then 1 else cap; p := 0; t1 := []; t2 := [];
     b1 := []; b2 := []; items := ∅ |}.

(** [l.Len()] *)
Definition Len (l : list K) : Z := Z.of_nat (length l).

(** [l.Remove(el)] of the element that holds the entry of [k], and [l.Back()]. *)
Definition Remove (k : K) (l : list K) : list K := remove_first (λ k', k' = k) l.

Definition set_lists (l1 l2 l3 l4 : list K) (c : Cache) : Cache :=
  {| capacity := capacity c; p := p c; t1 := l1; t2 := l2; b1 := l3; b2 := l4;
     items := items c |}.
Definition set_p (v : Z) (c : Cache) : Cache :=
  {| capacity := capacity c; p := v; t1 := t1 c; t2 := t2 c; b1 := b1 c; b2 := b2 c;
     items := items c |}.
Definition set_items (m : gmap K entry) (c : Cache) : Cache :=
  {| capacity := capacity c; p := p c; t1 := t1 c; t2 := t2 c; b1 := b1 c; b2 := b2 c;
     items := m |}.

(* src: pkg/datastructures/arc/arc.go 165-176 remove *)
Definition remove (k : K) (ent : entry) (c : Cache) : Cache :=
  if decide (listID ent = 1) then set_lists (Remove k (t1 c)) (t2 c) (b1 c) (b2 c) c
  else if decide (listID ent = 2) then set_lists (t1 c) (Remove k (t2 c)) (b1 c) (b2 c) c
  else if decide (listID ent = 3) then set_lists (t1 c) (t2 c) (Remove k (b1 c)) (b2 c) c
  else if decide (listID ent = 4) then set_lists (t1 c) (t2 c) (b1 c) (Remove k (b2 c)) c
  else c.

(** [ent.listID = 2; ent.el = c.t2.PushFront(ent)], with the other fields. *)
Definition to_t2 (k : K) (v : V) (c : Cache) : Cache :=
  set_items (<[k := {| value := v; isGhost := false; listID := 2 |}]> (items c))
    (set_lists (t1 c) (k :: t2 c) (b1 c) (b2 c) c).

(* src: pkg/datastructures/arc/arc.go 43-60 Get *)
Definition Get (k : K) (c : Cache) : option V * Cache :=
  match items c !! k with
  | None => (None, c)
  | Some ent =>
      if isGhost ent then (None, c)
      else (Some (value ent), to_t2 k (value ent) (remove k ent c))
  end.

(** Turn the last entry of [t1] or [t2] into a ghost. *)
(* src: pkg/datastructures/arc/arc.go 141-163 replace *)
Definition replace (current : option entry) (c : Cache) : Cache :=
  if decide (0 < Len (t1 c) ∧
             (p c < Len (t1 c) ∨
              listID <$> current = Some 4 ∧ Len (t1 c) = p c)) then
    match last (t1 c) with
    | Some k =>
        set_items (<[k := {| value := zero; isGhost := true; listID := 3 |}]> (items c))
          (set_lists (Remove k (t1 c)) (t2 c) (k :: b1 c) (b2 c) c)
    | None => c
    end
  else
    match last (t2 c) with
    | Some k =>
        set_items (<[k := {| value := zero; isGhost := true; listID := 4 |}]> (items c))
          (set_lists (t1 c) (Remove k (t2 c)) (b1 c) (k :: b2 c) c)
    | None => c
    end.

(** The list to evict from is given by its number. *)
(* src: pkg/datastructures/arc/arc.go 178-186 evictLRU *)
Definition evictLRU (l : Z) (c : Cache) : Cache :=
  let lst := if decide (l = 1) then t1 c else if decide (l = 3) then b1 c else b2 c in
  match last lst with
  | None => c
  | Some k =>
      set_items (delete k (items c))
        (if decide (l = 1) then set_lists (Remove k (t1 c)) (t2 c) (b1 c) (b2 c) c
         else if decide (l = 3) then set_lists (t1 c) (t2 c) (Remove k (b1 c)) (b2 c) c
         else set_lists (t1 c) (t2 c) (b1 c) (Remove k (b2 c)) c)
  end.

(* src: pkg/datastructures/arc/arc.go 188-193 min *)
Definition min (a b : Z) : Z := if decide (a < b) then a else b.
(* src: pkg/datastructures/arc/arc.go 194-199 max *)
Definition max (a b : Z) : Z := if decide (b < a) then a else b.

(** Case 4 of [Set]: make room, then insert at the front of [t1]. *)
(* src: pkg/datastructures/arc/arc.go 117-138 newEnt *)
Definition insert_new (k : K) (v : V) (c : Cache) : Cache :=
  let c :=
    if decide (i64 (Len (t1 c) + Len (b1 c)) = capacity c) then
      if decide (Len (t1 c) < capacity c) then replace None (evictLRU 3 c)
      else evictLRU 1 c
    else if decide (i64 (Len (t1 c) + Len (b1 c)) < capacity c) then
      let total c := i64 (Len (t1 c) + Len (t2 c) + Len (b1 c) + Len (b2 c)) in
      if decide (capacity c ≤ total c) then
        let c := if decide (total c = i64 (2 * capacity c)) then evictLRU 4 c else c in
        replace None c
      else c
    else c in
  set_items (<[k := {| value := v; isGhost := false; listID := 1 |}]> (items c))
    (set_lists (k :: t1 c) (t2 c) (b1 c) (b2 c) c).

(* src: pkg/datastructures/arc/arc.go 62-139 Set *)
Definition Set_ (k : K) (v : V) (c : Cache) : Cache :=
  match items c !! k with
  | None => insert_new k v c
  | Some ent =>
      if negb (isGhost ent) then to_t2 k v (remove k ent c)
      else if decide (listID ent = 3) then
        let delta := if decide (Len (b1 c) < Len (b2 c))
                     then Z.quot (Len (b2 c)) (Len (b1 c)) else 1 in
        let c := set_p (min (i64 (p c + delta)) (capacity c)) c in
        to_t2 k v (remove k ent (replace (Some ent) c))
      else if decide (listID ent = 4) then
        let delta := if decide (Len (b2 c) < Len (b1 c))
                     then Z.quot (Len (b1 c)) (Len (b2 c)) else 1 in
        let c := set_p (max (i64 (p c - delta)) 0) c in
        to_t2 k v (remove k ent (replace (Some ent) c))
      else insert_new k v c
  end.

(** ** Invariant

    Every operation is made of two moves: dropping a key from its list and from
    [items], and adding one at the front of a list. *)

Definition lst (i : Z) (c : Cache) : list K :=
  if decide (i = 1) then t1 c else if decide (i = 2) then t2 c
  else if decide (i = 3) then b1 c else b2 c.
Definition set_lst (i : Z) (l : list K) (c : Cache) : Cache :=
  if decide (i = 1) then set_lists l (t2 c) (b1 c) (b2 c) c
  else if decide (i = 2) then set_lists (t1 c) l (b1 c) (b2 c) c
  else if decide (i = 3) then set_lists (t1 c) (t2 c) l (b2 c) c
  else set_lists (t1 c) (t2 c) (b1 c) l c.

Definition drop_key (i : Z) (k : K) (c : Cache) : Cache :=
  set_items (delete k (items c)) (set_lst i (Remove k (lst i c)) c).
Definition add_key (i : Z) (k : K) (v : V) (c : Cache) : Cache :=
  set_items (<[k := {| value := v; isGhost := bool_decide (3 ≤ i); listID := i |}]> (items c))
    (set_lst i (k :: lst i c) c).

Definition all_keys (c : Cache) : list K := t1 c ++ t2 c ++ b1 c ++ b2 c.

Definition entry_ok (c : Cache) (k : K) : Prop :=
  match items c !! k with
  | None => k ∉ all_keys c
  | Some e => 1 ≤ listID e ≤ 4 ∧ k ∈ lst (listID e) c ∧
              isGhost e = bool_decide (3 ≤ listID e)
  end.

Definition index_ok (c : Cache) : Prop := NoDup (all_keys c) ∧ ∀ k, entry_ok c k.

(** The sizes: [T1] and [T2] hold at most [capacity] values, [T1] and [B1] at most
    [capacity] keys, and all four lists at most twice that. *)
Definition sizes_ok (c : Cache) : Prop :=
  0 < capacity c ≤ 2 ^ 60 ∧ 0 ≤ p c ≤ capacity c ∧
  Len (t1 c) + Len (t2 c) ≤ capacity c ∧ Len (t1 c) + Len (b1 c) ≤ capacity c ∧
  Len (t1 c) + Len (t2 c) + Len (b1 c) + Len (b2 c) ≤ 2 * capacity c.

(** Resident values are the last ones written. *)
Definition values_ok (m : gmap K V) (c : Cache) : Prop :=
  ∀ k e, items c !! k = Some e → isGhost e = false → m !! k = Some (value e).

Lemma Remove_perm k (l : list K) : k ∈ l → l ≡ₚ k :: Remove k l.
Proof.
  unfold Remove. induction l as [|x l IH]; simpl; [by intros ?%not_elem_of_nil|].
  rewrite elem_of_cons. case_decide as Hx; [by subst|]. intros [->|Hin]; [done|].
  rewrite IH at 1 by done. constructor.
Qed.

Lemma four i : 1 ≤ i ≤ 4 → i = 1 ∨ i = 2 ∨ i = 3 ∨ i = 4.
Proof. lia. Qed.

Ltac each_list Hi :=
  apply four in Hi as [->|[->|[->| ->]]]; unfold set_lst, lst, all_keys in *; simpl in *.

Lemma drop_perm i k c :
  1 ≤ i ≤ 4 → k ∈ lst i c → all_keys c ≡ₚ k :: all_keys (drop_key i k c).
Proof.
  intros Hi Hin. unfold drop_key. each_list Hi; pose proof (Remove_perm _ _ Hin) as Hp;
    rewrite Hp at 1; by solve_Permutation.
Qed.

Lemma add_perm i k v c : 1 ≤ i ≤ 4 → all_keys (add_key i k v c) ≡ₚ k :: all_keys c.
Proof. intros Hi. unfold add_key. each_list Hi; by solve_Permutation. Qed.

Lemma lst_all i k c : 1 ≤ i ≤ 4 → k ∈ lst i c → k ∈ all_keys c.
Proof. intros Hi. each_list Hi; set_solver. Qed.

Lemma index_drop i k c :
  index_ok c → 1 ≤ i ≤ 4 → k ∈ lst i c → index_ok (drop_key i k c).
Proof.
  intros [Hnd He] Hi Hin. pose proof (drop_perm i k c Hi Hin) as Hp.
  rewrite Hp in Hnd. apply NoDup_cons in Hnd as [Hk Hnd]. split; [done|].
  intros k'. unfold entry_ok. simpl. destruct (decide (k' = k)) as [->|Hne].
  { by rewrite lookup_delete_eq. }
  rewrite lookup_delete_ne by done. specialize (He k'). unfold entry_ok in He.
  destruct (items c !! k') as [[v g n]|]; simpl in *.
  - destruct He as (Hle & Hl & Hg). split_and!; [lia|lia| |done].
    assert (k' ∈ Remove k (lst i c) ∨ i ≠ n) as Hr.
    { destruct (decide (i = n)) as [->|?]; [left|by right].
      by apply remove_first_elem_of_ne. }
    clear Hp Hk Hnd Hg Hin. unfold drop_key.
    each_list Hle; each_list Hi; by destruct Hr.
  - intros Hin'. apply He. rewrite Hp. by right.
Qed.

Lemma index_add i k v c :
  index_ok c → 1 ≤ i ≤ 4 → k ∉ all_keys c → index_ok (add_key i k v c).
Proof.
  intros [Hnd He] Hi Hin. pose proof (add_perm i k v c Hi) as Hp. split.
  { rewrite Hp. by constructor. }
  intros k'. unfold entry_ok. simpl. destruct (decide (k' = k)) as [->|Hne].
  - rewrite lookup_insert_eq. simpl. split_and!; [lia|lia| |done].
    unfold add_key. clear Hp. each_list Hi; left.
  - rewrite lookup_insert_ne by done. specialize (He k'). unfold entry_ok in He.
    destruct (items c !! k') as [[v' g n]|]; simpl in *.
    + destruct He as (Hle & Hl & Hg). split_and!; [lia|lia| |done].
      unfold add_key. clear Hp Hin Hnd. each_list Hle; each_list Hi; set_solver.
    + rewrite Hp. set_solver.
Qed.

Lemma Remove_len k (l : list K) : k ∈ l → Len (Remove k l) = Len l - 1.
Proof.
  intros Hin. pose proof (Permutation_length (Remove_perm k l Hin)) as Hl.
  simpl in Hl. unfold Len. lia.
Qed.

Definition one (i j : Z) : Z := if decide (i = j) then 1 else 0.

Lemma drop_lens i k c :
  1 ≤ i ≤ 4 → k ∈ lst i c →
  Len (t1 (drop_key i k c)) = Len (t1 c) - one i 1 ∧
  Len (t2 (drop_key i k c)) = Len (t2 c) - one i 2 ∧
  Len (b1 (drop_key i k c)) = Len (b1 c) - one i 3 ∧
  Len (b2 (drop_key i k c)) = Len (b2 c) - one i 4.
Proof.
  intros Hi Hin. unfold drop_key, one. each_list Hi; rewrite (Remove_len _ _ Hin);
    split_and!; lia.
Qed.

Lemma add_lens i k v c :
  1 ≤ i ≤ 4 →
  Len (t1 (add_key i k v c)) = Len (t1 c) + one i 1 ∧
  Len (t2 (add_key i k v c)) = Len (t2 c) + one i 2 ∧
  Len (b1 (add_key i k v c)) = Len (b1 c) + one i 3 ∧
  Len (b2 (add_key i k v c)) = Len (b2 c) + one i 4.
Proof.
  intros Hi. unfold add_key, one, Len. each_list Hi; split_and!; lia.
Qed.

(** A key of a list has its entry there. *)
Lemma listed i k c :
  index_ok c → 1 ≤ i ≤ 4 → k ∈ lst i c →
  ∃ e, items c !! k = Some e ∧ listID e = i ∧ isGhost e = bool_decide (3 ≤ i).
Proof.
  intros [Hnd He] Hi Hin. specialize (He k). unfold entry_ok in He.
  destruct (items c !! k) as [[v g n]|]; [|by destruct He; eapply lst_all].
  simpl in He. destruct He as (Hle & Hl & Hg). eexists. split; [done|]. simpl.
  enough (n = i) as <- by done. destruct (decide (n = i)) as [|Hne]; [done|].
  exfalso. clear Hg. revert Hnd. unfold all_keys.
  rewrite !NoDup_app. intros (_ & H1 & _ & H2 & _ & H3 & _).
  specialize (H1 k). specialize (H2 k). specialize (H3 k). rewrite !elem_of_app in *.
  each_list Hle; each_list Hi; tauto.
Qed.

Lemma to_t2_move k v e c :
  1 ≤ listID e ≤ 4 →
  to_t2 k v (remove k e c) = add_key 2 k v (drop_key (listID e) k c).
Proof.
  destruct e as [v' g n]. simpl. intros Hi.
  unfold to_t2, remove, add_key, drop_key, set_lst, lst, set_items, set_lists. simpl.
  apply four in Hi as [->|[->|[->| ->]]]; simpl; by rewrite insert_delete_eq.
Qed.

(** [replace] does nothing or turns a resident key into a ghost. *)
Lemma replace_cases cur c :
  index_ok c →
  (replace cur c = c ∧ t2 c = [] ∧ (t1 c = [] ∨ Len (t1 c) ≤ p c) ∧
     (listID <$> cur = Some 4 → t1 c = [] ∨ Len (t1 c) < p c)) ∨
  (∃ i k, (i = 1 ∨ i = 2) ∧ k ∈ lst i c ∧
     replace cur c = add_key (i + 2) k zero (drop_key i k c)).
Proof.
  intros Hok. unfold replace. case_decide as Hd.
  - destruct (last (t1 c)) as [k|] eqn:El.
    + right. exists 1, k. split; [by left|]. apply last_Some_elem_of in El. split; [done|].
      unfold add_key, drop_key, set_lst, lst, set_items, set_lists. simpl.
      by rewrite insert_delete_eq.
    + apply last_None in El. rewrite El in Hd. cbv in Hd. naive_solver.
  - destruct (last (t2 c)) as [k|] eqn:El.
    + right. exists 2, k. split; [by right|]. apply last_Some_elem_of in El. split; [done|].
      unfold add_key, drop_key, set_lst, lst, set_items, set_lists. simpl.
      by rewrite insert_delete_eq.
    + apply last_None in El. left. split_and!; [done|done| |].
      * destruct (t1 c) eqn:E1; [by left|right]. unfold Len in *. simpl in *. 
        destruct (decide (p c < Z.of_nat (S (length l)))); [exfalso; apply Hd; lia|lia].
      * intros Hc. destruct (t1 c) eqn:E1; [by left|right]. unfold Len in *. simpl in *.
        destruct (decide (p c ≤ Z.of_nat (S (length l)))); [exfalso; apply Hd|lia].
        split; [lia|]. destruct (decide (Z.of_nat (S (length l)) = p c)); [by right|left; lia].
Qed.

Lemma evict_drop i c :
  i = 1 ∨ i = 3 ∨ i = 4 → lst i c ≠ [] →
  ∃ k, k ∈ lst i c ∧ evictLRU i c = drop_key i k c.
Proof.
  intros Hi Hne. unfold evictLRU.
  assert ((if decide (i = 1) then t1 c else if decide (i = 3) then b1 c else b2 c) = lst i c)
    as -> by (destruct Hi as [->|[->| ->]]; done).
  destruct (last (lst i c)) as [k|] eqn:El; [|by apply last_None in El].
  exists k. split; [by apply last_Some_elem_of|].
  unfold drop_key, set_lst, lst. destruct Hi as [->|[->| ->]]; done.
Qed.

Lemma values_drop m i k c : values_ok m c → values_ok m (drop_key i k c).
Proof. intros Hv k' e. simpl. intros [_ ?]%lookup_delete_Some. by apply Hv. Qed.

Lemma values_add m i k v c :
  values_ok m c → (i < 3 → m !! k = Some v) → values_ok m (add_key i k v c).
Proof.
  intros Hv Hk k' e. simpl. intros [[<- <-]|[_ ?]]%lookup_insert_Some; simpl; [|by apply Hv].
  intros Hg%bool_decide_eq_false. apply Hk. lia.
Qed.

Lemma values_write m k v c :
  values_ok m c → (∀ e, items c !! k = Some e → isGhost e = true) →
  values_ok (<[k := v]> m) c.
Proof.
  intros Hv Hk k' e He Hg. rewrite lookup_insert_ne; [by apply Hv|].
  intros ->. rewrite (Hk _ He) in Hg. done.
Qed.

Definition cache_ok (m : gmap K V) (c : Cache) : Prop :=
  index_ok c ∧ sizes_ok c ∧ values_ok m c.

(** [replace] keeps the keys, and makes room unless there is some. *)
Lemma replace_spec m cur c :
  index_ok c → values_ok m c →
  let c' := replace cur c in
  index_ok c' ∧ values_ok m c' ∧ all_keys c' ≡ₚ all_keys c ∧
  capacity c' = capacity c ∧ p c' = p c ∧
  (∀ j k, 3 ≤ j ≤ 4 → k ∈ lst j c → k ∈ lst j c' ∧ items c' !! k = items c !! k) ∧
  Len (t1 c') + Len (b1 c') = Len (t1 c) + Len (b1 c) ∧
  Len (t2 c') + Len (b2 c') = Len (t2 c) + Len (b2 c) ∧
  ((c' = c ∧ Len (t2 c) = 0 ∧ (Len (t1 c) = 0 ∨ Len (t1 c) ≤ p c) ∧
      (listID <$> cur = Some 4 → Len (t1 c) = 0 ∨ Len (t1 c) < p c)) ∨
   Len (t1 c') + Len (t2 c') = Len (t1 c) + Len (t2 c) - 1).
Proof.
  intros Hok Hv c'. destruct (replace_cases cur c Hok) as [(E & H2 & H1 & Hc)|(i & k & Hi & Hin & E)];
    subst c'; rewrite E.
  { split_and!; try done. left. rewrite H2. split_and!; [done..| |].
    - by destruct H1 as [->|?]; [left|right].
    - intros ?%Hc. by destruct H0 as [->|?]; [left|right]. }
  assert (1 ≤ i ≤ 4) as Hi' by lia.
  pose proof (index_drop i k c Hok Hi' Hin) as Hok'.
  pose proof (drop_perm i k c Hi' Hin) as Hp.
  assert (k ∉ all_keys (drop_key i k c)) as Hk.
  { destruct Hok as [Hnd _]. rewrite Hp in Hnd. by apply NoDup_cons in Hnd as [? _]. }
  destruct (drop_lens i k c Hi' Hin) as (L1 & L2 & L3 & L4).
  destruct (add_lens (i + 2) k zero (drop_key i k c)) as (M1 & M2 & M3 & M4); [lia|].
  rewrite M1, M2, M3, M4, L1, L2, L3, L4.
  split_and!; [apply index_add; [done|lia|done]|apply values_add; [by apply values_drop|lia]
    |by rewrite add_perm, <- Hp by lia| | | | | |right]; unfold one;
    try (destruct Hi as [->| ->]; repeat case_decide; lia).
  - by destruct Hi as [->| ->].
  - by destruct Hi as [->| ->].
  - intros j k' Hj Hk'. split.
    + destruct (four j ltac:(lia)) as [->|[->|[->| ->]]]; try lia;
        destruct Hi as [->| ->]; unfold add_key, drop_key, lst, set_lst in *; simpl in *; set_solver.
    + simpl. assert (k' ≠ k).
      { intros ->. destruct (listed i k c) as (e & He & Hle & _); [done..|].
        destruct (listed j k c) as (e' & He' & Hle' & _); [done|lia|done|]. simplify_eq. lia. }
      by rewrite lookup_insert_ne, lookup_delete_ne.
Qed.

Lemma hit_ok m k v e c :
  cache_ok m c → items c !! k = Some e → isGhost e = false →
  cache_ok (<[k := v]> m) (to_t2 k v (remove k e c)).
Proof.
  intros (Hok & Hs & Hv) Hk Hg. pose proof (proj2 Hok k) as He. unfold entry_ok in He.
  rewrite Hk in He. destruct He as (Hi & Hin & Hg'). rewrite to_t2_move by done.
  rewrite Hg in Hg'. symmetry in Hg'. apply bool_decide_eq_false in Hg'.
  pose proof (drop_perm _ k c Hi Hin) as Hp. split_and!.
  - apply index_add; [by apply index_drop|lia|]. destruct Hok as [Hnd _].
    rewrite Hp in Hnd. by apply NoDup_cons in Hnd as [? _].
  - destruct (drop_lens _ k c Hi Hin) as (L1 & L2 & L3 & L4).
    destruct (add_lens 2 k v (drop_key (listID e) k c)) as (M1 & M2 & M3 & M4); [lia|].
    destruct Hs as (? & ? & ? & ? & ?). unfold sizes_ok. rewrite M1, M2, M3, M4, L1, L2, L3, L4.
    assert (capacity (add_key 2 k v (drop_key (listID e) k c)) = capacity c ∧
      p (add_key 2 k v (drop_key (listID e) k c)) = p c) as [-> ->].
    { unfold add_key, drop_key, set_lst. repeat case_decide; done. }
    unfold one. repeat case_decide; lia.
  - apply values_add; [|by rewrite lookup_insert_eq]. apply values_write; [by apply values_drop|].
    simpl. intros e'. by rewrite lookup_delete_eq.
Qed.

Lemma ghost_ok m k v e c p' :
  cache_ok m c → items c !! k = Some e → (listID e = 3 ∨ listID e = 4) →
  0 ≤ p' ≤ capacity c →
  cache_ok (<[k := v]> m) (to_t2 k v (remove k e (replace (Some e) (set_p p' c)))).
Proof.
  intros (Hok & Hs & Hv) Hk Hi3 Hp'. pose proof (proj2 Hok k) as He. unfold entry_ok in He.
  rewrite Hk in He. destruct He as (Hi & Hin & Hg).
  assert (values_ok (<[k := v]> m) (set_p p' c)) as Hv1.
  { apply values_write; [done|]. simpl. intros e' He'. simplify_eq. rewrite Hg.
    apply bool_decide_eq_true. lia. }
  destruct (replace_spec (<[k := v]> m) (Some e) (set_p p' c) Hok Hv1)
    as (Hok2 & Hv2 & Hperm & Hcap & Hp2 & Hkeep & Hl1 & Hl2 & Hroom).
  set (c2 := replace (Some e) (set_p p' c)) in *. clearbody c2.
  destruct (Hkeep (listID e) k) as [Hin2 Hk2]; [lia|done|]. simpl in *.
  rewrite to_t2_move by done. pose proof (drop_perm _ k c2 Hi Hin2) as Hdp. split_and!.
  - apply index_add; [by apply index_drop|lia|]. destruct Hok2 as [Hnd _].
    rewrite Hdp in Hnd. by apply NoDup_cons in Hnd as [? _].
  - destruct (drop_lens _ k c2 Hi Hin2) as (L1 & L2 & L3 & L4).
    destruct (add_lens 2 k v (drop_key (listID e) k c2)) as (M1 & M2 & M3 & M4); [lia|].
    unfold sizes_ok in *. rewrite M1, M2, M3, M4, L1, L2, L3, L4.
    assert (capacity (add_key 2 k v (drop_key (listID e) k c2)) = capacity c ∧
      p (add_key 2 k v (drop_key (listID e) k c2)) = p') as [-> ->].
    { unfold add_key, drop_key, set_lst. simpl in *. by repeat case_decide; simpl; rewrite Hcap, Hp2. }
    assert (0 ≤ Len (t1 c2) ∧ 0 ≤ Len (b2 c2) ∧ 0 ≤ Len (t2 c2)) as (? & ? & ?) by (unfold Len; lia).
    assert (listID e = 3 → 1 ≤ Len (b1 c)) as Hb1.
    { intros E3. rewrite E3 in Hin. unfold lst in Hin. simpl in Hin. unfold Len.
      destruct (b1 c); [by apply not_elem_of_nil in Hin|simpl; lia]. }
    unfold one. destruct Hroom as [(-> & ? & ? & Hc4)|?].
    + simpl in *. destruct Hi3 as [E3|E4].
      * specialize (Hb1 E3). rewrite E3. simpl. lia.
      * rewrite E4 in Hc4 |- *. simpl. specialize (Hc4 eq_refl). lia.
    + destruct Hi3 as [E|E]; rewrite E in *; simpl in *; lia.
  - apply values_add; [by apply values_drop|]. intros _. apply lookup_insert_eq.
Qed.

(** What the room-making of a complete miss leaves for the insertion. *)
Definition room (c : Cache) : Prop :=
  0 < capacity c ≤ 2 ^ 60 ∧ 0 ≤ p c ≤ capacity c ∧
  Len (t1 c) + Len (t2 c) < capacity c ∧ Len (t1 c) + Len (b1 c) < capacity c ∧
  Len (t1 c) + Len (t2 c) + Len (b1 c) + Len (b2 c) < 2 * capacity c.

Lemma add_new_ok m k v c :
  index_ok c → values_ok m c → room c → k ∉ all_keys c →
  cache_ok (<[k := v]> m) (add_key 1 k v c).
Proof.
  intros Hok Hv Hr Hk. split_and!; [by apply index_add| |].
  - destruct (add_lens 1 k v c) as (M1 & M2 & M3 & M4); [lia|].
    unfold sizes_ok, room in *. rewrite M1, M2, M3, M4. unfold one. simpl. lia.
  - apply values_add; [|by rewrite lookup_insert_eq]. apply values_write; [done|].
    intros e He. pose proof (proj2 Hok k) as Hk'. unfold entry_ok in Hk'. rewrite He in Hk'.
    destruct Hk' as (Hi & Hin & _). destruct Hk. by eapply lst_all.
Qed.

Lemma evict_spec m i c :
  index_ok c → values_ok m c → (i = 1 ∨ i = 3 ∨ i = 4) → lst i c ≠ [] →
  let c' := evictLRU i c in
  index_ok c' ∧ values_ok m c' ∧ (∀ k, k ∈ all_keys c' → k ∈ all_keys c) ∧
  capacity c' = capacity c ∧ p c' = p c ∧
  Len (t1 c') = Len (t1 c) - one i 1 ∧ Len (t2 c') = Len (t2 c) ∧
  Len (b1 c') = Len (b1 c) - one i 3 ∧ Len (b2 c') = Len (b2 c) - one i 4.
Proof.
  intros Hok Hv Hi Hne c'. destruct (evict_drop i c Hi Hne) as (k & Hin & E).
  subst c'. rewrite E. assert (1 ≤ i ≤ 4) as Hi' by lia.
  destruct (drop_lens i k c Hi' Hin) as (-> & -> & -> & ->).
  split_and!; [by apply index_drop|by apply values_drop| | | |done| |done|done].
  - intros k' Hk'. rewrite (drop_perm i k c Hi' Hin). by right.
  - unfold drop_key, set_lst. by repeat case_decide.
  - unfold drop_key, set_lst. by repeat case_decide.
  - unfold one. rewrite decide_False by lia. lia.
Qed.

Lemma Len_ne (l : list K) : 0 < Len l → l ≠ [].
Proof. unfold Len. destruct l; simpl; [lia|done]. Qed.

Ltac len_pos c :=
  assert (0 ≤ Len (t1 c) ∧ 0 ≤ Len (t2 c) ∧ 0 ≤ Len (b1 c) ∧ 0 ≤ Len (b2 c))
    as (? & ? & ? & ?) by (unfold Len; lia).

(** [replace] after which there is room. *)
Lemma replace_room m c :
  index_ok c → values_ok m c → 0 < capacity c ≤ 2 ^ 60 → 0 ≤ p c ≤ capacity c →
  Len (t1 c) + Len (t2 c) ≤ capacity c → Len (t1 c) < capacity c →
  Len (t1 c) + Len (b1 c) < capacity c →
  Len (t1 c) + Len (t2 c) + Len (b1 c) + Len (b2 c) < 2 * capacity c →
  let c' := replace None c in
  index_ok c' ∧ values_ok m c' ∧ room c' ∧ ∀ k, k ∉ all_keys c → k ∉ all_keys c'.
Proof.
  intros Hok Hv Hc Hp Hs1 Hs2 Hs3 Hs4.
  destruct (replace_spec m None c Hok Hv)
    as (Hok2 & Hv2 & Hperm & Hcap & Hp2 & _ & Hl1 & Hl2 & Hroom).
  simpl. set (c2 := replace None c) in *. clearbody c2. split_and!; [done..| |].
  - unfold room. rewrite Hcap, Hp2. destruct Hroom as [(-> & ? & ? & _)|?]; lia.
  - intros k. by rewrite Hperm.
Qed.

Lemma insert_new_ok m k v c :
  cache_ok m c → k ∉ all_keys c → cache_ok (<[k := v]> m) (insert_new k v c).
Proof.
  intros (Hok & Hs & Hv) Hk. unfold insert_new. cbv zeta.
  match goal with |- cache_ok _ (set_items _ (set_lists (k :: t1 ?x) _ _ _ _)) => set (c' := x) end.
  change (cache_ok (<[k := v]> m) (add_key 1 k v c')).
  enough (index_ok c' ∧ values_ok m c' ∧ room c' ∧ k ∉ all_keys c') as (?&?&?&?)
    by by apply add_new_ok.
  destruct Hs as (Hc & Hp & Hs1 & Hs2 & Hs3). len_pos c. subst c'.
  rewrite !i64_id by (unfold is_i64; lia).
  case_decide as E1; [case_decide as E2|case_decide as E2; [case_decide as E3|]].
  - destruct (evict_spec m 3 c Hok Hv) as (Hok1 & Hv1 & Hk1 & Hc1 & Hp1 & L1 & L2 & L3 & L4);
      [by auto|apply Len_ne; unfold lst; simpl; lia|].
    set (c1 := evictLRU 3 c) in *. clearbody c1. unfold one in *. simpl in *.
    destruct (replace_room m c1) as (? & ? & ? & Hk2); [done|done|lia..|].
    split_and!; [done..|]. apply Hk2. auto.
  - destruct (evict_spec m 1 c Hok Hv) as (Hok1 & Hv1 & Hk1 & Hc1 & Hp1 & L1 & L2 & L3 & L4);
      [by auto|apply Len_ne; unfold lst; simpl; lia|].
    set (c1 := evictLRU 1 c) in *. clearbody c1. unfold one in *. simpl in *.
    split_and!; [done..| |auto]. unfold room. lia.
  - case_decide as E4.
    + destruct (evict_spec m 4 c Hok Hv) as (Hok1 & Hv1 & Hk1 & Hc1 & Hp1 & L1 & L2 & L3 & L4);
        [by auto|apply Len_ne; unfold lst; simpl; lia|].
      set (c1 := evictLRU 4 c) in *. clearbody c1. unfold one in *. simpl in *.
      destruct (replace_room m c1) as (? & ? & ? & Hk2); [done|done|lia..|].
      split_and!; [done..|]. apply Hk2. auto.
    + destruct (replace_room m c) as (? & ? & ? & Hk2); [done|done|lia..|].
      split_and!; [done..|]. auto.
  - split_and!; [done..| |done]. unfold room. lia.
  - lia.
Qed.

Lemma Set_ok m k v c : cache_ok m c → cache_ok (<[k := v]> m) (Set_ k v c).
Proof.
  intros Hc. pose proof Hc as (Hok & Hs & Hv). unfold Set_.
  pose proof (proj2 Hok k) as He. unfold entry_ok in He.
  destruct (items c !! k) as [e|] eqn:Hk; [|by apply insert_new_ok].
  destruct He as (Hi & Hin & Hg). destruct (isGhost e) eqn:Eg; simpl; [|by apply hit_ok].
  symmetry in Hg. apply bool_decide_eq_true in Hg.
  destruct Hs as (? & ? & ? & ? & ?). len_pos c.
  assert (∀ a b, 0 ≤ a → 0 ≤ b ≤ 2 ^ 61 → 0 ≤ (if decide (a < b) then Z.quot b a else 1) ≤ 2 ^ 61)
    as Hq.
  { intros a b ??. case_decide; [|lia]. destruct (decide (a = 0)) as [->|?]; [by rewrite Z.quot_0_r_ext|].
    rewrite Z.quot_div_nonneg by lia. split; [apply Z.div_pos; lia|].
    etrans; [apply Z.div_le_upper_bound with (q := b); nia|lia]. }
  case_decide as E3; [|case_decide as E4; [|lia]]; (apply ghost_ok; [done|done|lia|]).
  - destruct (Hq (Len (b1 c)) (Len (b2 c))) as [Hd1 Hd2]; [lia..|].
    revert Hd1 Hd2. generalize (if decide (Len (b1 c) < Len (b2 c)) then
      Z.quot (Len (b2 c)) (Len (b1 c)) else 1). intros d ??. unfold min.
    rewrite i64_id by (unfold is_i64; lia). case_decide; lia.
  - destruct (Hq (Len (b2 c)) (Len (b1 c))) as [Hd1 Hd2]; [lia..|].
    revert Hd1 Hd2. generalize (if decide (Len (b2 c) < Len (b1 c)) then
      Z.quot (Len (b1 c)) (Len (b2 c)) else 1). intros d ??. unfold max.
    rewrite i64_id by (unfold is_i64; lia). case_decide; lia.
Qed.

Lemma Get_ok m k c :
  cache_ok m c → cache_ok m (Get k c).2 ∧
  match (Get k c).1 with Some v => m !! k = Some v | None => True end.
Proof.
  intros Hc. pose proof Hc as (Hok & Hs & Hv). unfold Get.
  destruct (items c !! k) as [e|] eqn:Hk; [|done].
  destruct (isGhost e) eqn:Eg; [done|]. simpl. specialize (Hv k e Hk Eg). split; [|done].
  rewrite <- (insert_id m k (value e)) by done. by apply hit_ok.
Qed.

(** ** Histories *)

Inductive call := CGet (k : K) | CSet (k : K) (v : V).

(** The answers of the [Get] calls, with what was last written for the key. *)
Fixpoint run (xs : list call) (m : gmap K V) (c : Cache)
    : list (option V * option V) * gmap K V * Cache :=
  match xs with
  | [] => ([], m, c)
  | CGet k :: xs' =>
      let '(r, c') := Get k c in
      let '(rs, m', c'') := run xs' m c' in ((r, m !! k) :: rs, m', c'')
  | CSet k v :: xs' => run xs' (<[k := v]> m) (Set_ k v c)
  end.

Lemma run_ok xs m c :
  cache_ok m c →
  let '(rs, m', c') := run xs m c in
  cache_ok m' c' ∧ Forall (λ r, r.1 = None ∨ r.1 = r.2) rs.
Proof.
  revert m c. induction xs as [|[k|k v] xs IH]; intros m c Hc; simpl.
  - by split.
  - destruct (Get_ok m k c Hc) as [Hc' Hr]. destruct (Get k c) as [r c1]. simpl in *.
    specialize (IH m c1 Hc'). destruct (run xs m c1) as [[rs m'] c2].
    destruct IH as [? IH]. split; [done|]. constructor; [|done]. simpl.
    destruct r as [v|]; [right; by rewrite Hr|by left].
  - by apply IH, Set_ok.
Qed.

Lemma New_ok cap : cap ≤ 2 ^ 60 → cache_ok ∅ (New cap).
Proof.
  intros Hcap. split_and!.
  - split; [apply NoDup_nil_2|]. intros k. unfold entry_ok. simpl. rewrite lookup_empty.
    apply not_elem_of_nil.
  - unfold sizes_ok, Len. simpl. case_decide; lia.
  - intros k e. simpl. by rewrite lookup_empty.
Qed.

Lemma run_capacity_ok m c : cache_ok m c → sizes_ok c ∧ NoDup (all_keys c).
Proof. by intros ([? _] & ? & _). Qed.
End arc.

(** ** Properties *)

(** C31. Over any history of [Get] and [Set] calls on a new cache (of a capacity
    up to [2^60]), the adaptive cache keeps its bounds: at most [capacity] values
    in [T1] and [T2], at most [capacity] keys in [T1] and [B1], at most twice
    [capacity] in all four lists, no key in two of them, and a target [p] between
    0 and [capacity]; and it is coherent: every [Get] misses or answers with the
    value last set for the key. *)
Theorem arc_bounded_and_coherent {K V} `{Countable K} (zero : V) cap (xs : list (@call K V)) :
  cap ≤ 2 ^ 60 →
  let '(rs, _, c) := run zero xs ∅ (New cap) in
  sizes_ok c ∧ NoDup (all_keys c) ∧ Forall (λ r, r.1 = None ∨ r.1 = r.2) rs.
Proof.
  intros Hcap. pose proof (run_ok zero xs ∅ (New cap) (New_ok cap Hcap)) as Hr.
  destruct (run zero xs ∅ (New cap)) as [[rs m] c]. destruct Hr as [Hc Hr].
  apply run_capacity_ok in Hc as [??]. done.
Qed.

Definition sample : list (@call Z string) :=
  [CSet 1 "a"; CSet 2 "b"; CGet 2; CSet 3 "c"; CGet 1; CSet 1 "d"; CGet 1].

(** Key 1 is evicted as a ghost, and comes back with its new value. *)
Lemma arc_bounded_and_coherent_witness :
  ∃ rs m c, run "" sample ∅ (New 2) = (rs, m, c) ∧
  rs = [(Some "b", Some "b"); (None, Some "a"); (Some "d", Some "d")] ∧
  sizes_ok c ∧ NoDup (all_keys c).
Proof.
  pose proof (arc_bounded_and_coherent "" 2 sample ltac:(done)) as Hc.
  assert ((run "" sample ∅ (New 2)).1.1 =
    [(Some "b", Some "b"); (None, Some "a"); (Some "d", Some "d")]) as Hrs
    by (vm_compute; reflexivity).
  destruct (run "" sample ∅ (New 2)) as [[rs m] c]. exists rs, m, c.
  destruct Hc as (? & ? & _). done.
Defined.
