(* ===== verification/Lfu.v ===== *)
(** * pkg/datastructures/lfu

    The LFU cache.  A key has one [*entry], shared by the map and by the list of its
    frequency, and one element of one list: entries are kept by key in [items], and a
    list of package container/list is the list of the keys of its elements, the front
    first.  The methods run under the cache's lock. *)

From S2P Require Import Prelude.
From stdpp Require Import options.
Open Scope Z_scope.

Section lfu.
Context {K V : Type} `{!EqDecision K, !Countable K}.

(* src: pkg/datastructures/lfu/lfu.go 18-22 entry *)
Record entry := { key : K; value : V; freq : Z }.

(* src: pkg/datastructures/lfu/lfu.go 8-16 Cache *)
Record Cache := { capacity : Z; items : gmap K entry; freqs : gmap Z (list K); minFreq : Z }.

(* src: pkg/datastructures/lfu/lfu.go 24-35 New *)
Definition New (capacity : Z) : Cache :=
  {| capacity := if decide (capacity ≤ 0) then 1 else capacity; items := ∅; freqs := ∅;
     minFreq := 0 |}.

(** [c.freqs[f]], nil as the empty list, and taking an element out of a list. *)
Definition freq_list (c : Cache) (f : Z) : list K := default [] (freqs c !! f).
Definition Remove (k : K) (l : list K) : list K := filter (.≠ k) l.

(* src: pkg/datastructures/lfu/lfu.go 78-97 incrementFreq *)
Definition incrementFreq (val : entry) (c : Cache) : Cache :=
  let oldFreq := freq val in
  let val := {| key := key val; value := value val; freq := i64 (freq val + 1) |} in
  let l := Remove (key val) (freq_list c oldFreq) in
  let c :=
    match l with
    | [] => {| capacity := capacity c; items := items c; freqs := delete oldFreq (freqs c);
               minFreq := if decide (minFreq c = oldFreq) then i64 (minFreq c + 1) else minFreq c |}
    | _ => {| capacity := capacity c; items := items c; freqs := <[oldFreq := l]> (freqs c);
              minFreq := minFreq c |}
    end in
  {| capacity := capacity c; items := <[key val := val]> (items c);
     freqs := <[freq val := key val :: freq_list c (freq val)]> (freqs c); minFreq := minFreq c |}.

(* src: pkg/datastructures/lfu/lfu.go 99-115 evict *)
Definition evict (c : Cache) : Cache :=
  match freqs c !! minFreq c with
  | None => c
  | Some l =>
      match last l with
      | None => c
      | Some k =>
          let l := Remove k l in
          {| capacity := capacity c; items := delete k (items c);
             freqs := match l with [] => delete (minFreq c) (freqs c)
                                 | _ => <[minFreq c := l]> (freqs c) end;
             minFreq := minFreq c |}
      end
  end.

(* src: pkg/datastructures/lfu/lfu.go 37-50 Get *)
Definition Get (k : K) (c : Cache) : option V * Cache :=
  match items c !! k with
  | Some val => (Some (value val), incrementFreq val c)
  | None => (None, c)
  end.

(* src: pkg/datastructures/lfu/lfu.go 52-76 Set *)
Definition Set_ (k : K) (v : V) (c : Cache) : Cache :=
  match items c !! k with
  | Some val => incrementFreq {| key := key val; value := v; freq := freq val |} c
  | None =>
      let c := if decide (capacity c ≤ Z.of_nat (size (items c))) then evict c else c in
      {| capacity := capacity c; items := <[k := {| key := k; value := v; freq := 1 |}]> (items c);
         freqs := <[1 := k :: freq_list c 1]> (freqs c); minFreq := 1 |}
  end.

(* src: pkg/datastructures/lfu/lfu.go 117-122 Len *)
Definition Len (c : Cache) : Z := Z.of_nat (size (items c)).

(** ** The specification: the entries in the order of their last use, latest first *)

Definition find (k : K) (l : list entry) : option entry := list.head (filter (λ e, key e = k) l).
Definition without (k : K) (l : list entry) : list entry := filter (λ e, key e ≠ k) l.
Definition used (e : entry) (v : V) (l : list entry) : list entry :=
  {| key := key e; value := v; freq := freq e + 1 |} :: without (key e) l.

(** The keys used [f] times, latest first; the smallest number of uses; and what is left
    when the key used least often, and longest ago among those, is dropped. *)
Definition at_freq (f : Z) (l : list entry) : list K := key <$> filter (λ e, freq e = f) l.
Definition min_freq (l : list entry) : Z :=
  match l with [] => 0 | e :: l => foldr (λ e' m, freq e' `min` m) (freq e) l end.
Definition dropped (l : list entry) : list entry :=
  match last (at_freq (min_freq l) l) with Some k => without k l | None => l end.

Definition spec_Get (k : K) (l : list entry) : option V * list entry :=
  match find k l with
  | Some e => (Some (value e), used e (value e) l)
  | None => (None, l)
  end.

Definition spec_Set (cap : Z) (k : K) (v : V) (l : list entry) : list entry :=
  match find k l with
  | Some e => used e v l
  | None =>
      {| key := k; value := v; freq := 1 |} ::
        (if decide (cap ≤ Z.of_nat (length l)) then dropped l else l)
  end.

(** ** The cache refines it *)

Lemma lfu_without_notin k l : k ∉ key <$> l → without k l = l.
Proof.
  intros Hk. unfold without. induction l as [|e l IH]; [done|]. apply not_elem_of_cons in Hk as [? ?].
  rewrite filter_cons_True by done. by rewrite IH.
Qed.

Lemma keys_without k l : key <$> without k l = filter (.≠ k) (key <$> l).
Proof.
  unfold without. induction l as [|e l IH]; [done|]. rewrite fmap_cons, !filter_cons.
  case_decide; [by rewrite fmap_cons, IH|done].
Qed.

Lemma at_freq_cons f e l :
  at_freq f (e :: l) = if decide (freq e = f) then key e :: at_freq f l else at_freq f l.
Proof. unfold at_freq. rewrite filter_cons. by case_decide. Qed.

Lemma at_freq_without f k l : at_freq f (without k l) = Remove k (at_freq f l).
Proof.
  unfold without, Remove. induction l as [|e l IH]; [done|]. rewrite filter_cons, !at_freq_cons.
  repeat case_decide; rewrite ?at_freq_cons, ?filter_cons; repeat case_decide; try done; by rewrite IH.
Qed.

Lemma elem_of_at_freq k f l : k ∈ at_freq f l ↔ ∃ e, e ∈ l ∧ key e = k ∧ freq e = f.
Proof.
  unfold at_freq. rewrite list_elem_of_fmap. split.
  - intros (e & -> & [? ?]%list_elem_of_filter). eauto.
  - intros (e & ? & <- & ?). exists e. by rewrite list_elem_of_filter.
Qed.

(** Entries of a list without repeated keys are told apart by their keys. *)
Lemma same_key l e e' : NoDup (key <$> l) → e ∈ l → e' ∈ l → key e = key e' → e = e'.
Proof.
  intros Hnd (i & Hi)%list_elem_of_lookup (j & Hj)%list_elem_of_lookup Hk.
  assert (i = j) as ->; [|congruence].
  eapply (NoDup_lookup (key <$> l) i j (key e)); [done|by rewrite list_lookup_fmap, Hi|].
  by rewrite list_lookup_fmap, Hj, Hk.
Qed.

Lemma find_Some l k e : NoDup (key <$> l) → find k l = Some e ↔ e ∈ l ∧ key e = k.
Proof.
  intros Hnd. unfold find. split.
  - intros Hh. destruct (filter _ l) as [|e0 l'] eqn:E; [done|]. simplify_eq/=.
    assert (e ∈ filter (λ e, key e = k) l) as [? ?]%list_elem_of_filter by (rewrite E; by left). done.
  - intros [He Hk]. assert (e ∈ filter (λ e, key e = k) l) as Hin by by apply list_elem_of_filter.
    destruct (filter _ l) as [|e0 l'] eqn:E; [by apply elem_of_nil in Hin|]. simpl. f_equal.
    assert (e0 ∈ filter (λ e, key e = k) l) as [? ?]%list_elem_of_filter by (rewrite E; by left).
    eapply same_key; [done|done|done|congruence].
Qed.

Lemma find_None l k : find k l = None ↔ k ∉ key <$> l.
Proof.
  unfold find. rewrite list_elem_of_fmap. split.
  - intros Hh (e & -> & He).
    assert (e ∈ filter (λ e', key e' = key e) l) as Hin by by apply list_elem_of_filter.
    destruct (filter _ l); [by apply elem_of_nil in Hin|done].
  - intros Hno. destruct (filter _ l) as [|e0 l'] eqn:E; [done|]. exfalso. apply Hno.
    assert (e0 ∈ filter (λ e, key e = k) l) as [Hk ?]%list_elem_of_filter by (rewrite E; by left).
    by exists e0.
Qed.

(** The list of a frequency is there exactly when it has an element. *)
Definition lists (l : list entry) (m : gmap Z (list K)) : Prop :=
  ∀ f, m !! f = match at_freq f l with [] => None | ks => Some ks end.

Definition refines (n : Z) (l : list entry) (c : Cache) : Prop :=
  NoDup (key <$> l) ∧ (∀ k, items c !! k = find k l) ∧ lists l (freqs c) ∧
  (∀ e, e ∈ l → 1 ≤ freq e ≤ n) ∧ (l ≠ [] → minFreq c = min_freq l) ∧
  1 ≤ capacity c ∧ Z.of_nat (length l) ≤ capacity c.

Definition is_min (m : Z) (l : list entry) : Prop :=
  (∃ e, e ∈ l ∧ freq e = m) ∧ ∀ e, e ∈ l → m ≤ freq e.

Lemma min_freq_is_min l : l ≠ [] → is_min (min_freq l) l.
Proof.
  destruct l as [|e l]; [done|]. intros _. simpl. induction l as [|e' l [(e0 & He0 & Hm) Hall]]; simpl.
  { split; [exists e; split; [by left|done]|]. intros x [->|?%elem_of_nil]%elem_of_cons; done. }
  split.
  - destruct (Z.min_spec (freq e') (foldr (λ e' m, freq e' `min` m) (freq e) l)) as [[_ ->]|[_ ->]].
    + exists e'. split; [right; by left|done].
    + exists e0. split; [|done]. apply elem_of_cons in He0 as [->|?]; [by left|right; by right].
  - intros x [->|[->|Hx]%elem_of_cons]%elem_of_cons.
    + pose proof (Hall e ltac:(by left)). lia.
    + lia.
    + pose proof (Hall x ltac:(by right)). lia.
Qed.

Lemma is_min_unique m l : is_min m l → min_freq l = m.
Proof.
  intros [(e & He & <-) Hall]. assert (l ≠ []) as Hne by (intros ->; by apply elem_of_nil in He).
  destruct (min_freq_is_min l Hne) as [(e' & He' & Hm) Hall'].
  pose proof (Hall e' He'). pose proof (Hall' e He). lia.
Qed.

Lemma lists_freq l m f : lists l m → default [] (m !! f) = at_freq f l.
Proof. intros Hl. rewrite Hl. by destruct (at_freq f l). Qed.

Lemma lists_push l m e :
  lists l m → lists (e :: l) (<[freq e := key e :: default [] (m !! freq e)]> m).
Proof.
  intros Hl f. rewrite at_freq_cons. case_decide as Hf.
  - subst. by rewrite lookup_insert_eq, (lists_freq l m _ Hl).
  - by rewrite lookup_insert_ne, Hl.
Qed.

Lemma Remove_notin k ks : k ∉ ks → Remove k ks = ks.
Proof.
  intros Hk. unfold Remove. induction ks as [|k' ks IH]; [done|]. apply not_elem_of_cons in Hk as [? ?].
  rewrite filter_cons_True by done. by rewrite IH.
Qed.

Lemma lists_remove l m e :
  NoDup (key <$> l) → lists l m → e ∈ l →
  lists (without (key e) l)
    (match Remove (key e) (default [] (m !! freq e)) with
     | [] => delete (freq e) m
     | ks => <[freq e := ks]> m
     end).
Proof.
  intros Hnd Hl He f. rewrite (lists_freq l m _ Hl), at_freq_without.
  destruct (decide (f = freq e)) as [->|Hf].
  - destruct (Remove (key e) (at_freq (freq e) l)); [by rewrite lookup_delete_eq|by rewrite lookup_insert_eq].
  - assert (key e ∉ at_freq f l) as Hno.
    { intros (e' & He' & Hk & Hf')%elem_of_at_freq.
      assert (e' = e) as -> by by eapply same_key. done. }
    rewrite (Remove_notin _ _ Hno), <- Hl.
    destruct (Remove (key e) (at_freq (freq e) l));
      [by rewrite lookup_delete_ne|by rewrite lookup_insert_ne].
Qed.

Lemma elem_of_without k l e : e ∈ without k l ↔ e ∈ l ∧ key e ≠ k.
Proof. unfold without. rewrite list_elem_of_filter. tauto. Qed.

Lemma find_used l e v k :
  NoDup (key <$> l) → e ∈ l →
  find k (used e v l) =
    if decide (k = key e) then Some {| key := key e; value := v; freq := freq e + 1 |} else find k l.
Proof.
  intros Hnd He. unfold find, used. rewrite filter_cons. simpl.
  destruct (decide (key e = k)) as [<-|Hk]; [by rewrite decide_True|]. rewrite decide_False by congruence.
  f_equal. unfold without. rewrite list_filter_filter. apply list_filter_iff. intros x.
  split; [tauto|]. intros <-. split; congruence.
Qed.

Lemma nodup_used l e v : NoDup (key <$> l) → NoDup (key <$> used e v l).
Proof.
  intros Hnd. unfold used. rewrite fmap_cons, keys_without. apply NoDup_cons. split.
  - simpl. rewrite list_elem_of_filter. tauto.
  - by apply NoDup_filter.
Qed.

Lemma length_without l e : NoDup (key <$> l) → e ∈ l → S (length (without (key e) l)) = length l.
Proof.
  intros Hnd (l1 & l2 & ->)%list_elem_of_split. rewrite fmap_app, fmap_cons in Hnd.
  apply NoDup_app in Hnd as (_ & Hd & [Hno _]%NoDup_cons).
  assert (key e ∉ key <$> l1) as Hno1 by (intros Hin; apply (Hd _ Hin); by left).
  unfold without. rewrite filter_app, filter_cons_False by tauto.
  pose proof (lfu_without_notin _ _ Hno) as E2. pose proof (lfu_without_notin _ _ Hno1) as E1.
  unfold without in *. rewrite E1, E2, !length_app. simpl. lia.
Qed.

(** The smallest frequency after the key of [e] has been used once more. *)
Lemma min_used l e v :
  NoDup (key <$> l) → e ∈ l →
  min_freq (used e v l) =
    match at_freq (freq e) (without (key e) l) with
    | [] => if decide (min_freq l = freq e) then min_freq l + 1 else min_freq l
    | _ => min_freq l
    end.
Proof.
  intros Hnd He. apply is_min_unique. assert (l ≠ []) as Hne by (intros ->; by apply elem_of_nil in He).
  destruct (min_freq_is_min l Hne) as [(e0 & He0 & Hm) Hall]. pose proof (Hall e He) as Hemin.
  set (l1 := without (key e) l). set (e' := {| key := key e; value := v; freq := freq e + 1 |}).
  change (used e v l) with (e' :: l1).
  assert (∀ x, x ∈ l1 → x ∈ l) as Hsub by (intros x [? _]%elem_of_without; done).
  assert (∀ x, x ∈ l → x = e ∨ x ∈ l1) as Hor.
  { intros x Hx. destruct (decide (key x = key e)) as [Hk|Hk]; [left; by eapply same_key|].
    right. by apply elem_of_without. }
  destruct (at_freq (freq e) l1) as [|k0 ks] eqn:E.
  - assert (∀ x, x ∈ l1 → freq x ≠ freq e) as Hnone.
    { intros x Hx Hf. assert (key x ∈ at_freq (freq e) l1) as Hin by (apply elem_of_at_freq; eauto).
      rewrite E in Hin. by apply elem_of_nil in Hin. }
    case_decide as Hmin.
    + split; [exists e'; split; [by left|simpl; lia]|]. intros x [->|Hx]%elem_of_cons; [simpl; lia|].
      pose proof (Hall x (Hsub x Hx)). pose proof (Hnone x Hx). lia.
    + split.
      * destruct (Hor e0 He0) as [->|?]; [lia|]. exists e0. split; [by right|done].
      * intros x [->|Hx]%elem_of_cons; [simpl; lia|]. by apply Hall, Hsub.
  - assert (k0 ∈ at_freq (freq e) l1) as (x0 & Hx0 & _ & Hf0)%elem_of_at_freq by (rewrite E; by left).
    split.
    + destruct (Hor e0 He0) as [->|?]; [exists x0|exists e0]; (split; [by right|congruence]).
    + intros x [->|Hx]%elem_of_cons; [simpl; lia|]. by apply Hall, Hsub.
Qed.

Lemma incrementFreq_refines n l c e v :
  refines n l c → e ∈ l → n < 2 ^ 63 - 1 →
  refines (n + 1) (used e v l) (incrementFreq {| key := key e; value := v; freq := freq e |} c).
Proof.
  intros (Hnd & Hit & Hls & Hfr & Hmin & Hcap & Hlen) He Hn. pose proof (Hfr e He) as Hfe.
  assert (l ≠ []) as Hne by (intros ->; by apply elem_of_nil in He). specialize (Hmin Hne).
  pose proof (lists_remove l (freqs c) e Hnd Hls He) as Hls1.
  pose proof (min_used l e v Hnd He) as Hmu.
  rewrite at_freq_without, <- (lists_freq l (freqs c) _ Hls) in Hmu.
  unfold incrementFreq. simpl. rewrite (i64_id (freq e + 1)) by (unfold is_i64; lia).
  change (freq_list c (freq e)) with (default [] (freqs c !! freq e)).
  set (ks := Remove (key e) (default [] (freqs c !! freq e))) in *.
  assert (0 < min_freq l < 2 ^ 63 - 1) as Hmr.
  { destruct (min_freq_is_min l Hne) as [(e0 & He0 & <-) _]. specialize (Hfr e0 He0). lia. }
  set (c1 := match ks with [] => _ | _ => _ end).
  assert (lists (without (key e) l) (freqs c1) ∧ items c1 = items c ∧ capacity c1 = capacity c ∧
          minFreq c1 = min_freq (used e v l)) as (Hl1 & Hi1 & Hc1 & Hm1).
  { unfold c1. destruct ks; simpl in *; (split; [exact Hls1|]); (split; [done|]); (split; [done|]);
    rewrite Hmu, Hmin; [|done]. case_decide; [|done]. apply i64_id. unfold is_i64. lia. }
  clearbody c1. clear Hmu Hls1. unfold refines. cbn [items freqs capacity minFreq key value freq]. rewrite Hi1, Hc1. split_and!; try done.
  - by apply nodup_used.
  - intros k. rewrite find_used by done. case_decide as Hk.
    + subst. by rewrite lookup_insert_eq.
    + by rewrite lookup_insert_ne, Hit.
  - apply (lists_push _ _ {| key := key e; value := v; freq := freq e + 1 |} Hl1).
  - intros x [->|[Hx _]%elem_of_without]%elem_of_cons; simpl; [lia|]. specialize (Hfr x Hx). lia.
  - unfold used. cbn [length]. by rewrite length_without.
Qed.

Lemma size_items n l c : refines n l c → size (items c) = length l.
Proof.
  intros (Hnd & Hit & _).
  assert (items c = list_to_map ((λ e, (key e, e)) <$> l)) as ->.
  { apply map_eq. intros k. rewrite Hit. destruct (find k l) as [e|] eqn:E; symmetry.
    - apply find_Some in E as [He <-]; [|done]. apply elem_of_list_to_map_1.
      + by rewrite <- list_fmap_compose.
      + apply list_elem_of_fmap. eauto.
    - apply find_None in E. apply not_elem_of_list_to_map_1. by rewrite <- list_fmap_compose. }
  rewrite map_size_list_to_map; [by rewrite length_fmap|]. by rewrite <- list_fmap_compose.
Qed.

Lemma find_without l k k' : find k (without k' l) = if decide (k = k') then None else find k l.
Proof.
  case_decide as Hk.
  - subst. apply find_None. rewrite keys_without, list_elem_of_filter. tauto.
  - unfold find, without. rewrite list_filter_filter. f_equal. apply list_filter_iff.
    intros e. split; [tauto|]. intros <-. done.
Qed.

(** What eviction leaves of a non-empty cache. *)
Lemma evict_drops n l c :
  refines n l c → l ≠ [] →
  ∃ e, e ∈ l ∧ dropped l = without (key e) l ∧ freq e = min_freq l ∧
    items (evict c) = delete (key e) (items c) ∧ capacity (evict c) = capacity c ∧
    lists (without (key e) l) (freqs (evict c)).
Proof.
  intros (Hnd & Hit & Hls & _ & Hmin & _) Hne. specialize (Hmin Hne).
  destruct (min_freq_is_min l Hne) as [(e0 & He0 & Hm) _].
  destruct (last (at_freq (min_freq l) l)) as [k|] eqn:Hlast.
  2:{ apply last_None in Hlast. assert (key e0 ∈ at_freq (min_freq l) l) as Hin
        by (apply elem_of_at_freq; eauto). rewrite Hlast in Hin. by apply elem_of_nil in Hin. }
  assert (k ∈ at_freq (min_freq l) l) as (e & He & <- & Hfe)%elem_of_at_freq
    by by apply last_Some_elem_of.
  exists e. unfold dropped. rewrite Hlast. split_and!; try done.
  all: pose proof (lists_remove l (freqs c) e Hnd Hls He) as Hrem; rewrite Hfe in Hrem.
  all: unfold evict; rewrite Hmin; rewrite (Hls (min_freq l)) in Hrem |- *.
  all: destruct (at_freq (min_freq l) l) as [|k0 ks] eqn:E; [done|]; rewrite Hlast; try done.
  cbn [default freqs id] in *. by destruct (Remove (key e) (k0 :: ks)).
Qed.

Lemma insert_refines n l c k v :
  NoDup (key <$> l) → (∀ k, items c !! k = find k l) → lists l (freqs c) →
  (∀ e, e ∈ l → 1 ≤ freq e ≤ n) → 1 ≤ capacity c → Z.of_nat (length l) < capacity c → 1 ≤ n →
  k ∉ key <$> l →
  refines n ({| key := k; value := v; freq := 1 |} :: l)
    {| capacity := capacity c; items := <[k := {| key := k; value := v; freq := 1 |}]> (items c);
       freqs := <[1 := k :: freq_list c 1]> (freqs c); minFreq := 1 |}.
Proof.
  intros Hnd Hit Hls Hfr Hcap Hlen Hn Hk. unfold refines. cbn [items freqs capacity minFreq].
  split_and!; [by apply NoDup_cons| | | | |done|simpl; lia].
  - intros k'. unfold find. rewrite filter_cons. simpl. case_decide as E.
    + subst. by rewrite lookup_insert_eq.
    + rewrite lookup_insert_ne by done. apply Hit.
  - by apply (lists_push l (freqs c) {| key := k; value := v; freq := 1 |}).
  - intros e [->|He]%elem_of_cons; [simpl; lia|by apply Hfr].
  - intros _. symmetry. apply is_min_unique. split; [eexists; split; [by left|done]|].
    intros e [->|He]%elem_of_cons; [done|]. specialize (Hfr e He). lia.
Qed.

Lemma Set_refines_lfu n l c k v :
  refines n l c → 1 ≤ n < 2 ^ 63 - 1 → refines (n + 1) (spec_Set (capacity c) k v l) (Set_ k v c).
Proof.
  intros Hr Hn. pose proof Hr as (Hnd & Hit & Hls & Hfr & Hmin & Hcap & Hlen).
  unfold Set_, spec_Set. rewrite Hit. destruct (find k l) as [e|] eqn:Hf.
  { apply find_Some in Hf as [He <-]; [|done]. apply incrementFreq_refines; [done|done|lia]. }
  apply find_None in Hf. rewrite (size_items n l c Hr). case_decide as Hfull.
  - assert (l ≠ []) as Hne by (intros ->; simpl in *; lia).
    destruct (evict_drops n l c Hr Hne) as (e & He & -> & _ & Hi & Hc & Hl).
    apply insert_refines; rewrite ?Hc; try done; try lia.
    + rewrite keys_without. by apply NoDup_filter.
    + intros k'. rewrite Hi, find_without. case_decide; [subst; by rewrite lookup_delete_eq|].
      by rewrite lookup_delete_ne.
    + intros x [Hx _]%elem_of_without. specialize (Hfr x Hx). lia.
    + pose proof (length_without l e Hnd He). lia.
    + rewrite keys_without, list_elem_of_filter. tauto.
  - apply insert_refines; try done; try lia. intros x Hx. specialize (Hfr x Hx). lia.
Qed.

Lemma Get_refines_lfu n l c k :
  refines n l c → 1 ≤ n < 2 ^ 63 - 1 →
  (Get k c).1 = (spec_Get k l).1 ∧ refines (n + 1) (spec_Get k l).2 (Get k c).2.
Proof.
  intros Hr Hn. pose proof Hr as (Hnd & Hit & Hls & Hfr & Hmin & Hcap & Hlen).
  unfold Get, spec_Get. rewrite Hit. destruct (find k l) as [e|] eqn:Hf; simpl.
  - apply find_Some in Hf as [He <-]; [|done]. split; [done|].
    pose proof (incrementFreq_refines n l c e (value e) Hr He ltac:(lia)) as H. by destruct e.
  - split; [done|]. split_and!; try done. intros e He. specialize (Hfr e He). lia.
Qed.

(** ** Histories *)

Inductive call := CGet (k : K) | CSet (k : K) (v : V).

Definition run_call (o : call) (c : Cache) : option V * Cache :=
  match o with CGet k => Get k c | CSet k v => (None, Set_ k v c) end.

Definition spec_call (cap : Z) (o : call) (l : list entry) : option V * list entry :=
  match o with CGet k => spec_Get k l | CSet k v => (None, spec_Set cap k v l) end.

Fixpoint run {S A} (step : call → S → A * S) (os : list call) (s : S) : list A * S :=
  match os with
  | [] => ([], s)
  | o :: os => let '(r, s) := step o s in let '(rs, s) := run step os s in (r :: rs, s)
  end.

Lemma capacity_incrementFreq e c : capacity (incrementFreq e c) = capacity c.
Proof. unfold incrementFreq. by destruct (Remove _ _). Qed.

Lemma capacity_run_call o c : capacity (run_call o c).2 = capacity c.
Proof.
  destruct o as [k|k v]; simpl.
  - unfold Get. destruct (items c !! k); simpl; [apply capacity_incrementFreq|done].
  - unfold Set_. destruct (items c !! k); simpl; [apply capacity_incrementFreq|].
    case_decide; [|done]. unfold evict. destruct (freqs c !! minFreq c); [|done]. by destruct (last _).
Qed.

Lemma run_refines os : ∀ n l c,
  refines n l c → 1 ≤ n → n + Z.of_nat (length os) < 2 ^ 63 →
  (run run_call os c).1 = (run (spec_call (capacity c)) os l).1 ∧
  ∃ n', refines n' (run (spec_call (capacity c)) os l).2 (run run_call os c).2.
Proof.
  induction os as [|o os IH]; intros n l c Hr Hn Hlen; simpl in *; [eauto|].
  assert ((run_call o c).1 = (spec_call (capacity c) o l).1 ∧
          refines (n + 1) (spec_call (capacity c) o l).2 (run_call o c).2) as [Ha Hr'].
  { destruct o; [apply Get_refines_lfu; [done|lia]|]. split; [done|]. apply Set_refines_lfu; [done|lia]. }
  pose proof (capacity_run_call o c) as Hcap.
  destruct (run_call o c) as [r c'], (spec_call (capacity c) o l) as [r' l']. simpl in *. subst r'.
  destruct (IH (n + 1) l' c' Hr' ltac:(lia) ltac:(lia)) as [Hos Hr'']. rewrite Hcap in *.
  destruct (run run_call os c') as [rs d], (run (spec_call (capacity c)) os l') as [rs' l'']. simpl in *.
  split; [by f_equal|done].
Qed.

(** The LFU cache, with its frequency lists and the smallest frequency it keeps track
    of, answers every history of Get and Set calls (fewer than 2^63 - 1) as the list of
    entries in the order of their last use does: a hit counts one use, a new key that does not
    fit drops the key used least often, and the one used longest ago among those, and
    never more than the capacity are kept. *)
Theorem lfu_refines_list (cap : Z) (os : list call) :
  1 + Z.of_nat (length os) < 2 ^ 63 →
  let cap' := if decide (cap ≤ 0) then 1 else cap in
  let c := (run run_call os (New cap)).2 in
  let l := (run (spec_call cap') os []).2 in
  (run run_call os (New cap)).1 = (run (spec_call cap') os []).1 ∧
  Len c = Z.of_nat (length l) ∧ Len c ≤ cap' ∧ (∀ k, items c !! k = find k l).
Proof.
  intros Hlen cap' c l.
  assert (refines 1 [] (New cap)) as Hnew.
  { split_and!; simpl; try done; [by constructor|set_solver|case_decide; lia|case_decide; lia]. }
  destruct (run_refines os 1 [] (New cap) Hnew ltac:(lia) Hlen) as [Ha [n Hr]].
  change (capacity (New cap)) with cap' in *. fold c l in Hr. unfold Len.
  assert (capacity c = cap') as Hc.
  { unfold c. change cap' with (capacity (New cap)). clear. generalize (New cap).
    induction os as [|o os IH]; intros c; simpl; [done|]. pose proof (capacity_run_call o c) as Hc.
    destruct (run_call o c) as [r c']. specialize (IH c'). simpl in *.
    destruct (run run_call os c'). simpl in *. congruence. }
  rewrite (size_items n l c Hr). destruct Hr as (_ & Hit & _ & _ & _ & _ & Hle). rewrite Hc in Hle.
  split_and!; done.
Qed.
End lfu.

Lemma lfu_refines_list_witness :
  let os := [CSet 1 10; CSet 2 20; CGet 1; CSet 3 30; CGet 2; CGet 1; CGet 3; CGet 3; CSet 4 40;
             CGet 1; CGet 3; CGet 4] in
  (run run_call os (New (K := Z) (V := Z) 2)).1 =
    [None; None; Some 10; None; None; Some 10; Some 30; Some 30; None; None; Some 30; Some 40].
Proof.
  intros os. destruct (lfu_refines_list (K := Z) (V := Z) 2 os ltac:(vm_compute; reflexivity)) as [-> _].
  vm_compute. reflexivity.
Defined.
