(* ===== verification/Crdt.v ===== *)
(** * pkg/datastructures/crdt: state-based replicated data types

    The counters, the grow-only set and the register are translated as they are.
    What the first three promise is the class [StateCrdt]: up to an equivalence
    that ignores the replica's name and entries that hold zero, merging is a join
    and every update goes up.  Convergence is proved once, against the class, of a
    network in which replicas update, send snapshots of their state and merge
    snapshots in any order, late, repeatedly or never. *)

From S2P Require Import Prelude.
From stdpp Require Import relations options.
Open Scope Z_scope.

(** ** The interface *)

Class StateCrdt (S U : Type) := {
  ceq : relation S;
  merge : S → S → S;
  update : U → S → S;
  bottom : S → Prop;               (** the initial states *)
  good : S → Prop;                 (** reachable states are well formed *)
  allowed : U → S → Prop;          (** the update does not overflow *)
  ceq_equiv : Equivalence ceq;
  merge_ceq s1 s1' s2 s2' : good s1 → good s1' → good s2 → good s2' →
    ceq s1 s1' → ceq s2 s2' → ceq (merge s1 s2) (merge s1' s2');
  merge_comm s1 s2 : good s1 → good s2 → ceq (merge s1 s2) (merge s2 s1);
  merge_assoc s1 s2 s3 : good s1 → good s2 → good s3 →
    ceq (merge s1 (merge s2 s3)) (merge (merge s1 s2) s3);
  merge_idem s : good s → ceq (merge s s) s;
  merge_bottom s0 s : bottom s0 → good s → ceq (merge s0 s) s;
  update_up u s : good s → allowed u s → ceq (merge s (update u s)) (update u s);
  good_bottom s : bottom s → good s;
  good_update u s : good s → allowed u s → good (update u s);
  good_merge s1 s2 : good s1 → good s2 → good (merge s1 s2) }.

Section convergence.
Context {S U : Type} `{!StateCrdt S U}.

#[local] Existing Instance ceq_equiv.
#[local] Hint Resolve good_merge : core.

(** A replica, or a snapshot of one, with the updates it has seen. *)
Abbreviation node := (S * gset nat)%type.

(** [results] records the state each update produced. *)
Record net := { replicas : list node; sent : list node; results : list S }.

Inductive step (s : net) : net → Prop :=
  | s_update i u x k :
      replicas s !! i = Some (x, k) → allowed u x →
      step s {| replicas := <[i := (update u x, {[length (results s)]} ∪ k)]> (replicas s);
                sent := sent s; results := results s ++ [update u x] |}
  | s_send i n :
      replicas s !! i = Some n →
      step s {| replicas := replicas s; sent := sent s ++ [n]; results := results s |}
  | s_merge i x k j y k' :
      replicas s !! i = Some (x, k) → sent s !! j = Some (y, k') →
      step s {| replicas := <[i := (merge x y, k ∪ k')]> (replicas s);
                sent := sent s; results := results s |}.

Definition starts (s : net) : Prop :=
  sent s = [] ∧ results s = [] ∧ Forall (λ n, bottom n.1 ∧ n.2 = ∅) (replicas s).

(** ** The order of the join *)

Definition le (x y : S) : Prop := ceq (merge x y) y.

Lemma le_trans x y z : good x → good y → good z → le x y → le y z → le x z.
Proof.
  unfold le. intros Hx Hy Hz H1 H2. trans (merge x (merge y z)).
  { apply merge_ceq; auto; [done|by symmetry]. }
  rewrite merge_assoc by done. trans (merge y z); [|done]. by apply merge_ceq; auto.
Qed.

Lemma le_antisym x y : good x → good y → le x y → le y x → ceq x y.
Proof.
  unfold le. intros Hx Hy H1 H2. etrans; [symmetry; exact H2|].
  etrans; [by apply merge_comm|done].
Qed.

Lemma le_merge_l x y : good x → good y → le x (merge x y).
Proof.
  unfold le. intros Hx Hy. rewrite merge_assoc by done.
  apply merge_ceq; auto; [by apply merge_idem|done].
Qed.

Lemma le_merge_r x y : good x → good y → le y (merge x y).
Proof.
  unfold le. intros Hx Hy. rewrite merge_comm by auto. rewrite <- merge_assoc by done.
  apply merge_ceq; auto; [done|]. by apply merge_idem.
Qed.

Lemma merge_lub x y z : good x → good y → good z → le x z → le y z → le (merge x y) z.
Proof.
  unfold le. intros Hx Hy Hz H1 H2. rewrite <- merge_assoc by done.
  trans (merge x z); [|done]. by apply merge_ceq; auto.
Qed.

(** [x] is the join of the results of the updates [k]. *)
Definition joins (rs : list S) (x : S) (k : gset nat) : Prop :=
  good x ∧ (∀ e, e ∈ k → ∃ r, rs !! e = Some r ∧ good r ∧ le r x) ∧
  (∀ y, good y → (∀ e r, e ∈ k → rs !! e = Some r → le r y) → le x y).

Lemma joins_unique rs x y k : joins rs x k → joins rs y k → ceq x y.
Proof.
  intros (Hx & Hx1 & Hx2) (Hy & Hy1 & Hy2). apply le_antisym; [done..| |].
  - apply Hx2; [done|]. intros e r He Hr. destruct (Hy1 e He) as (r' & Hr' & _ & ?). by simplify_eq.
  - apply Hy2; [done|]. intros e r He Hr. destruct (Hx1 e He) as (r' & Hr' & _ & ?). by simplify_eq.
Qed.

Definition net_ok (s : net) : Prop :=
  Forall (λ n, joins (results s) n.1 n.2) (replicas s) ∧
  Forall (λ n, joins (results s) n.1 n.2) (sent s).

Lemma joins_snoc rs r x k : joins rs x k → joins (rs ++ [r]) x k.
Proof.
  intros (Hx & H1 & H2). split_and!; [done| |].
  - intros e He. destruct (H1 e He) as (r' & ? & ?). exists r'. split; [|done].
    by apply lookup_app_l_Some.
  - intros y Hy Hle. apply H2; [done|]. intros e r' He Hr'. apply (Hle e); [done|].
    by apply lookup_app_l_Some.
Qed.

Lemma joins_update rs u x k :
  joins rs x k → allowed u x →
  joins (rs ++ [update u x]) (update u x) ({[length rs]} ∪ k).
Proof.
  intros (Hx & H1 & H2) Ha. assert (good (update u x)) as Hu by by apply good_update.
  assert (le x (update u x)) as Hup by by apply update_up. split_and!; [done| |].
  - intros e [->%elem_of_singleton|He]%elem_of_union.
    + exists (update u x). split_and!; [by apply lookup_snoc_Some; right|done|].
      by apply merge_idem.
    + destruct (H1 e He) as (r & Hr & Hg & Hle). exists r.
      split_and!; [by apply lookup_app_l_Some|done|]. by eapply (le_trans r x).
  - intros y Hy Hle. apply (Hle (length rs)); [set_solver|]. by apply lookup_snoc_Some; right.
Qed.

Lemma joins_merge rs x k y k' :
  joins rs x k → joins rs y k' → joins rs (merge x y) (k ∪ k').
Proof.
  intros (Hx & Hx1 & Hx2) (Hy & Hy1 & Hy2).
  assert (good (merge x y)) as Hm by by apply good_merge. split_and!; [done| |].
  - intros e [He|He]%elem_of_union.
    + destruct (Hx1 e He) as (r & ? & ? & ?). exists r. split_and!; [done..|].
      eapply (le_trans r x); try done. by apply le_merge_l.
    + destruct (Hy1 e He) as (r & ? & ? & ?). exists r. split_and!; [done..|].
      eapply (le_trans r y); try done. by apply le_merge_r.
  - intros z Hz Hle. apply merge_lub; [done..| |].
    + apply Hx2; [done|]. intros e r He. apply Hle. set_solver.
    + apply Hy2; [done|]. intros e r He. apply Hle. set_solver.
Qed.

Lemma step_ok s s' : net_ok s → step s s' → net_ok s'.
Proof.
  intros [Hr Hs] Hstep.
  destruct Hstep as [i u x k Hi Ha|i n Hi|i x k j y k' Hi Hj]; split; simpl; try done.
  - apply Forall_insert.
    + eapply Forall_impl; [done|]. intros n. apply joins_snoc.
    + simpl. apply joins_update; [|done]. by apply (Forall_lookup_1 _ _ _ _ Hr Hi).
  - eapply Forall_impl; [done|]. intros n. apply joins_snoc.
  - apply Forall_app. split; [done|]. constructor; [|done].
    by apply (Forall_lookup_1 _ _ _ _ Hr Hi).
  - apply Forall_insert; [done|]. simpl.
    apply joins_merge; [by apply (Forall_lookup_1 _ _ _ _ Hr Hi)|].
    by apply (Forall_lookup_1 _ _ _ _ Hs Hj).
Qed.

Lemma starts_ok s : starts s → net_ok s.
Proof.
  intros (Hs & Hr & Hb). split; [|by rewrite Hs].
  eapply Forall_impl; [done|]. intros [x k] [Hx Hk]. simpl in *. subst k.
  split_and!; [by apply good_bottom|set_solver|]. intros y Hy _. by apply merge_bottom.
Qed.

(** Replicas that have seen the same updates agree. *)
Lemma converges s0 s i x k j y :
  starts s0 → rtc step s0 s →
  replicas s !! i = Some (x, k) → replicas s !! j = Some (y, k) → ceq x y.
Proof.
  intros Hs0%starts_ok Hst Hi Hj.
  assert (net_ok s) as [Hr _].
  { induction Hst as [|s1 s2 s3 H12 _ IH]; [done|]. apply IH; [|done..]. by eapply step_ok. }
  eapply joins_unique; [apply (Forall_lookup_1 _ _ _ _ Hr Hi)|apply (Forall_lookup_1 _ _ _ _ Hr Hj)].
Qed.
End convergence.

Arguments net : clear implicits.

(** ** The counters *)

(* src: pkg/datastructures/crdt/gcounter.go 7-13 GCounter *)
Record GCounter := { id : string; counts : gmap string Z }.

(* src: pkg/datastructures/crdt/gcounter.go 15-21 NewGCounter *)
Definition NewGCounter (i : string) : GCounter := {| id := i; counts := ∅ |}.

(** [c.counts[i]], zero when absent. *)
Definition count_of (c : GCounter) (i : string) : Z := default 0 (counts c !! i).

(* src: pkg/datastructures/crdt/gcounter.go 23-28 GCounter.Inc *)
Definition Inc (delta : Z) (c : GCounter) : GCounter :=
  {| id := id c; counts := <[id c := u64 (count_of c (id c) + delta)]> (counts c) |}.

(* src: pkg/datastructures/crdt/gcounter.go 30-40 GCounter.Count *)
Definition Count (c : GCounter) : Z := map_fold (λ _ v total, u64 (total + v)) 0 (counts c).

(* src: pkg/datastructures/crdt/gcounter.go 42-59 GCounter.Merge *)
Definition Merge (c other : GCounter) : GCounter :=
  {| id := id c;
     counts := map_fold (λ i val m, if decide (default 0 (m !! i) < val)
                                    then <[i := val]> m else m) (counts c) (counts other) |}.

(* src: pkg/datastructures/crdt/pncounter.go 3-8 PNCounter *)
Record PNCounter := { p : GCounter; n : GCounter }.

(* src: pkg/datastructures/crdt/pncounter.go 10-15 NewPNCounter *)
Definition NewPNCounter (i : string) : PNCounter := {| p := NewGCounter i; n := NewGCounter i |}.

(* src: pkg/datastructures/crdt/pncounter.go 17-20 PNCounter.Inc *)
Definition PN_Inc (delta : Z) (c : PNCounter) : PNCounter := {| p := Inc delta (p c); n := n c |}.

(* src: pkg/datastructures/crdt/pncounter.go 22-25 PNCounter.Dec *)
Definition PN_Dec (delta : Z) (c : PNCounter) : PNCounter := {| p := p c; n := Inc delta (n c) |}.

(* src: pkg/datastructures/crdt/pncounter.go 27-30 PNCounter.Count *)
Definition PN_Count (c : PNCounter) : Z := i64 (i64 (Count (p c)) - i64 (Count (n c))).

(* src: pkg/datastructures/crdt/pncounter.go 32-36 PNCounter.Merge *)
Definition PN_Merge (c other : PNCounter) : PNCounter :=
  {| p := Merge (p c) (p other); n := Merge (n c) (n other) |}.

(** ** The set *)

(* src: pkg/datastructures/crdt/gset.go 7-12 GSet *)
Record GSet := { items : gset string }.

(* src: pkg/datastructures/crdt/gset.go 14-20 NewGSet *)
Definition NewGSet : GSet := {| items := ∅ |}.

(* src: pkg/datastructures/crdt/gset.go 22-27 Add *)
Definition Add (item : string) (s : GSet) : GSet := {| items := {[item]} ∪ items s |}.

(* src: pkg/datastructures/crdt/gset.go 29-35 Contains *)
Definition Contains (item : string) (s : GSet) : bool := bool_decide (item ∈ items s).

(* src: pkg/datastructures/crdt/gset.go 37-42 Size *)
Definition Size (s : GSet) : Z := Z.of_nat (size (items s)).

(* src: pkg/datastructures/crdt/gset.go 44-53 Elements *)
Definition Elements (s : GSet) : list string := elements (items s).

(* src: pkg/datastructures/crdt/gset.go 55-67 GSet.Merge *)
Definition GS_Merge (s other : GSet) : GSet :=
  {| items := set_fold (λ item m, {[item]} ∪ m) (items s) (items other) |}.

(** ** The register *)

Section lww.
Context {T : Type}.

(* src: pkg/datastructures/crdt/lwwreg.go 9-16 LWWRegister *)
Record LWWRegister := { value : T; timestamp : Z; reg_id : string }.

(* src: pkg/datastructures/crdt/lwwreg.go 18-25 NewLWWRegister *)
Definition NewLWWRegister (now : Z) (i : string) (initial : T) : LWWRegister :=
  {| value := initial; timestamp := now; reg_id := i |}.

(* src: pkg/datastructures/crdt/lwwreg.go 27-39 Set *)
Definition LWW_Set (v : T) (ts : Z) (r : LWWRegister) : LWWRegister :=
  if decide (timestamp r < ts) then {| value := v; timestamp := ts; reg_id := reg_id r |} else r.

(* src: pkg/datastructures/crdt/lwwreg.go 41-46 Get *)
Definition LWW_Get (r : LWWRegister) : T := value r.

(* src: pkg/datastructures/crdt/lwwreg.go 48-63 Merge *)
Definition LWW_Merge (r other : LWWRegister) : LWWRegister :=
  if decide (timestamp r < timestamp other)
  then {| value := value other; timestamp := timestamp other; reg_id := reg_id r |} else r.
End lww.

(** ** Instances of the interface *)

Definition good_counter (c : GCounter) : Prop := ∀ i v, counts c !! i = Some v → is_u64 v.

Lemma count_of_good c i : good_counter c → 0 ≤ count_of c i < 2 ^ 64.
Proof.
  intros Hc. unfold count_of. destruct (counts c !! i) as [v|] eqn:E; simpl; [|lia].
  apply (Hc i v E).
Qed.

Lemma counts_Merge c o i :
  counts (Merge c o) !! i =
    match counts o !! i with
    | Some v => if decide (count_of c i < v) then Some v else counts c !! i
    | None => counts c !! i
    end.
Proof.
  unfold Merge, count_of. simpl. generalize (counts o). intros m.
  apply (map_fold_weak_ind (λ acc m, acc !! i = match m !! i with
    | Some v => if decide (default 0 (counts c !! i) < v) then Some v else counts c !! i
    | None => counts c !! i end)).
  - by rewrite lookup_empty.
  - intros j v m' acc Hj IH. destruct (decide (j = i)) as [->|Hne].
    + rewrite Hj in IH. rewrite lookup_insert_eq, IH.
      case_decide; [by rewrite lookup_insert_eq|done].
    + rewrite (lookup_insert_ne m') by done. rewrite <- IH. case_decide; [|done].
      by rewrite lookup_insert_ne.
Qed.

Lemma count_of_Merge c o i :
  good_counter c → good_counter o → count_of (Merge c o) i = count_of c i `max` count_of o i.
Proof.
  intros Hc Ho. pose proof (count_of_good c i Hc) as Hb. pose proof (count_of_good o i Ho).
  unfold count_of at 1. rewrite counts_Merge. unfold count_of in *.
  destruct (counts o !! i) as [v|]; simpl in *; [|lia]. case_decide; simpl; lia.
Qed.

Lemma good_Merge c o : good_counter c → good_counter o → good_counter (Merge c o).
Proof.
  intros Hc Ho i v. rewrite counts_Merge.
  destruct (counts o !! i) as [w|] eqn:E; [|by apply Hc].
  case_decide; [|by apply Hc]. intros [= <-]. by apply (Ho i).
Qed.

Definition counter_allowed (delta : Z) (c : GCounter) : Prop :=
  0 ≤ delta ∧ count_of c (id c) + delta < 2 ^ 64.

Lemma count_of_Inc delta c i :
  good_counter c → counter_allowed delta c →
  count_of (Inc delta c) i = count_of c i + if decide (i = id c) then delta else 0.
Proof.
  intros Hc [Hd Ho]. unfold Inc. unfold count_of at 1. simpl.
  pose proof (count_of_good c (id c) Hc). case_decide as Hi.
  - subst. rewrite lookup_insert_eq. simpl. rewrite u64_id by (unfold is_u64; lia). done.
  - rewrite lookup_insert_ne by done. unfold count_of. lia.
Qed.

Lemma good_Inc delta c : good_counter c → good_counter (Inc delta c).
Proof.
  intros Hc i v. simpl. intros [[<- <-]|[_ ?]]%lookup_insert_Some; [apply u64_range|by apply (Hc i)].
Qed.

Definition counter_eq (c1 c2 : GCounter) : Prop := ∀ i, count_of c1 i = count_of c2 i.

#[export] Instance counter_eq_equiv : Equivalence counter_eq.
Proof. split; [done|by intros c1 c2 Hc i|intros ??? H1 H2 i; by rewrite H1]. Qed.

#[export] Program Instance GCounter_crdt : StateCrdt GCounter Z := {|
  ceq := counter_eq; merge := Merge; update := Inc; bottom c := counts c = ∅;
  good := good_counter; allowed := counter_allowed |}.
Next Obligation. intros s1 s1' s2 s2' ???? H1 H2 i. by rewrite !count_of_Merge, H1, H2. Qed.
Next Obligation. intros s1 s2 ?? i. rewrite !count_of_Merge by done. lia. Qed.
Next Obligation.
  intros s1 s2 s3 ??? i. rewrite !count_of_Merge by auto using good_Merge. lia.
Qed.
Next Obligation. intros s ? i. rewrite !count_of_Merge by done. lia. Qed.
Next Obligation.
  intros s0 s Hs0 Hs i. assert (good_counter s0) by (intros ??; by rewrite Hs0).
  rewrite count_of_Merge by done. pose proof (count_of_good s i Hs).
  unfold count_of at 1. rewrite Hs0, lookup_empty. simpl. lia.
Qed.
Next Obligation.
  intros delta s Hs Ha i. rewrite count_of_Merge, count_of_Inc by auto using good_Inc.
  destruct Ha. case_decide; lia.
Qed.
Next Obligation. intros s Hs i v. by rewrite Hs, lookup_empty. Qed.
Next Obligation. intros delta s Hs _. by apply good_Inc. Qed.
Next Obligation. intros s1 s2. apply good_Merge. Qed.

(** The updates of the other counter: [inl] increments, [inr] decrements. *)
Definition pn_update (u : Z + Z) (c : PNCounter) : PNCounter :=
  match u with inl d => PN_Inc d c | inr d => PN_Dec d c end.
Definition pn_allowed (u : Z + Z) (c : PNCounter) : Prop :=
  match u with inl d => counter_allowed d (p c) | inr d => counter_allowed d (n c) end.

#[export] Program Instance PNCounter_crdt : StateCrdt PNCounter (Z + Z) := {|
  ceq c1 c2 := ceq (p c1) (p c2) ∧ ceq (n c1) (n c2);
  merge := PN_Merge; update := pn_update;
  bottom c := bottom (p c) ∧ bottom (n c);
  good c := good (p c) ∧ good (n c); allowed := pn_allowed |}.
Next Obligation.
  split.
  - by intros c.
  - by intros c1 c2 [??].
  - intros c1 c2 c3 [H1 H2] [H3 H4]. split; by etrans.
Qed.
Next Obligation. intros ???? [??] [??] [??] [??] [??] [??]. split; simpl; by apply (@merge_ceq GCounter Z GCounter_crdt). Qed.
Next Obligation. intros ?? [??] [??]. split; simpl; by apply (@merge_comm GCounter Z GCounter_crdt). Qed.
Next Obligation. intros ??? [??] [??] [??]. split; simpl; by apply (@merge_assoc GCounter Z GCounter_crdt). Qed.
Next Obligation. intros ? [??]. split; simpl; by apply (@merge_idem GCounter Z GCounter_crdt). Qed.
Next Obligation. intros ?? [??] [??]. split; simpl; by apply (@merge_bottom GCounter Z GCounter_crdt). Qed.
Next Obligation.
  intros [d|d] c [??] Ha; split; simpl in *;
    (by apply (@update_up GCounter Z GCounter_crdt)) ||
    by apply (@merge_idem GCounter Z GCounter_crdt).
Qed.
Next Obligation. intros ? [??]. split; simpl; by apply (@good_bottom GCounter Z GCounter_crdt). Qed.
Next Obligation.
  intros [d|d] c [??] Ha; split; simpl in *; try done; by apply good_Inc.
Qed.
Next Obligation. intros ?? [??] [??]. split; simpl; by apply (@good_merge GCounter Z GCounter_crdt). Qed.

Lemma items_Merge s o : items (GS_Merge s o) = items s ∪ items o.
Proof.
  unfold GS_Merge. simpl. generalize (items o). intros x.
  apply (set_fold_ind_L (λ acc x, acc = items s ∪ x)); [set_solver|].
  intros y x' acc _ ->. set_solver.
Qed.

#[export] Program Instance GSet_crdt : StateCrdt GSet string := {|
  ceq s1 s2 := items s1 = items s2; merge := GS_Merge; update := Add;
  bottom s := items s = ∅; good _ := True; allowed _ _ := True |}.
Next Obligation. split; by intros ? **; etrans. Qed.
Next Obligation. intros; cbv beta in *; rewrite !items_Merge. congruence. Qed.
Next Obligation. intros; cbv beta in *; rewrite !items_Merge. set_solver. Qed.
Next Obligation. intros; cbv beta in *; rewrite !items_Merge. set_solver. Qed.
Next Obligation. intros; cbv beta in *; rewrite !items_Merge. set_solver. Qed.
Next Obligation. intros ?? Hb _; cbv beta in *; rewrite !items_Merge. set_solver. Qed.
Next Obligation. intros; cbv beta in *; rewrite !items_Merge. simpl. set_solver. Qed.
Next Obligation. done. Qed.
Next Obligation. done. Qed.
Next Obligation. done. Qed.

(** ** Properties *)

(** Convergence of the counters and of the set.  In any network of replicas
    that start empty, update locally (without overflowing [uint64]), and merge
    snapshots of each other in any order, late, repeatedly or not at all, two
    replicas that have seen the same updates hold the same state: equal counts for
    every node for [GCounter] and [PNCounter], equal elements for [GSet]. *)
Theorem crdt_convergence :
  (∀ (s0 s : net GCounter) i x k j y, starts s0 → rtc step s0 s →
     replicas s !! i = Some (x, k) → replicas s !! j = Some (y, k) →
     ∀ node, count_of x node = count_of y node) ∧
  (∀ (s0 s : net PNCounter) i x k j y, starts s0 → rtc step s0 s →
     replicas s !! i = Some (x, k) → replicas s !! j = Some (y, k) →
     ∀ node, count_of (p x) node = count_of (p y) node ∧
             count_of (n x) node = count_of (n y) node) ∧
  (∀ (s0 s : net GSet) i x k j y, starts s0 → rtc step s0 s →
     replicas s !! i = Some (x, k) → replicas s !! j = Some (y, k) → items x = items y).
Proof.
  split_and!.
  - intros s0 s i x k j y H1 H2 H3 H4.
    exact (converges (S:=GCounter) s0 s i x k j y H1 H2 H3 H4).
  - intros s0 s i x k j y H1 H2 H3 H4 node.
    destruct (converges (S:=PNCounter) s0 s i x k j y) as [Hp Hn]; [done..|].
    split; [apply Hp|apply Hn].
  - intros s0 s i x k j y H1 H2 H3 H4.
    exact (converges (S:=GSet) s0 s i x k j y H1 H2 H3 H4).
Qed.

(** Replica b increments, replica a merges the snapshot twice; both have seen the
    same updates. *)
Lemma crdt_convergence_witness :
  ∃ (s : net GCounter) x y k, replicas s = [(x, k); (y, k)] ∧ Count x = 4 ∧
    ∀ node, count_of x node = count_of y node.
Proof.
  set (s0 := {| replicas := [(NewGCounter "a", ∅); (NewGCounter "b", ∅)]; sent := [];
                results := [] |} : net GCounter).
  assert (starts s0) as Hs0.
  { split_and!; [done..|]. by repeat constructor. }
  set (b1 := Inc 4 (NewGCounter "b")). set (k1 := {[0%nat]} ∪ ∅ : gset nat).
  set (a1 := Merge (NewGCounter "a") b1). set (a2 := Merge a1 b1).
  set (s1 := {| replicas := [(a2, ∅ ∪ k1 ∪ k1); (b1, k1)]; sent := [(b1, k1)];
                results := [b1] |} : net GCounter).
  assert (rtc step s0 s1) as Hrun.
  { eapply rtc_l; [apply (s_update s0 1 4 (NewGCounter "b") ∅); [done|by split]|].
    eapply rtc_l; [apply (s_send _ 1 (b1, k1)); done|].
    eapply rtc_l; [apply (s_merge _ 0 (NewGCounter "a") ∅ 0 b1 k1); done|].
    eapply rtc_l; [apply (s_merge _ 0 a1 (∅ ∪ k1) 0 b1 k1); done|].
    apply rtc_refl. }
  assert (∅ ∪ k1 ∪ k1 = k1) as Hk by (vm_compute; reflexivity).
  exists s1, a2, b1, k1. split; [unfold s1; simpl; by rewrite Hk|].
  split; [vm_compute; reflexivity|].
  apply (proj1 crdt_convergence s0 s1 0%nat a2 k1 1%nat b1 Hs0 Hrun); [|done].
  unfold s1. simpl. by rewrite Hk.
Defined.

(** The register converges only while timestamps differ: for any two
    registers that hold different values under the same timestamp, no number of
    merges in either direction changes either of them. *)
Theorem lww_tie_diverges {T} (r1 r2 : @LWWRegister T) :
  timestamp r1 = timestamp r2 → value r1 ≠ value r2 →
  LWW_Merge r1 r2 = r1 ∧ LWW_Merge r2 r1 = r2 ∧ LWW_Get r1 ≠ LWW_Get r2.
Proof.
  intros Ht Hv. unfold LWW_Merge. by rewrite Ht, decide_False, decide_False by lia.
Qed.

Lemma lww_tie_diverges_witness :
  LWW_Merge (NewLWWRegister 5 "a" 1) (NewLWWRegister 5 "b" 2) = NewLWWRegister 5 "a" 1 ∧
  LWW_Merge (NewLWWRegister 5 "b" 2) (NewLWWRegister 5 "a" 1) = NewLWWRegister 5 "b" 2 ∧ 1 ≠ 2.
Proof. by apply (lww_tie_diverges (NewLWWRegister 5 "a" 1) (NewLWWRegister 5 "b" 2)). Defined.
