(* ===== verification/VectorClock.v ===== *)
(** * pkg/datastructures/vectorclock: vector clocks and causality

    A clock is a map from nodes to [uint64] counters.  The methods of
    [ThreadSafeClock] are those of [Clock] under a mutex.  The second part runs
    the operations in a message-passing system and proves that comparing clocks
    decides causality. *)

From S2P Require Import Prelude.
From stdpp Require Import relations options.
Open Scope Z_scope.

(** [Clock] of [pkg/datastructures/vectorclock/clock.go]. *)
Abbreviation Clock := (gmap string Z).

(* src: pkg/datastructures/vectorclock/clock.go 12-20 Ordering *)
Inductive Ordering := Equal | Before | After | Concurrent.

(* src: pkg/datastructures/vectorclock/clock.go 22-25 New *)
Definition New : Clock := ∅.

(** [vc[node]], zero when absent. *)
Definition at_ (vc : Clock) (node : string) : Z := default 0 (vc !! node).

(* src: pkg/datastructures/vectorclock/clock.go 27-30 Increment *)
Definition Increment (node : string) (vc : Clock) : Clock :=
  <[node := u64 (at_ vc node + 1)]> vc.

(* src: pkg/datastructures/vectorclock/clock.go 32-39 Merge *)
Definition Merge (vc other : Clock) : Clock :=
  map_fold (λ node time m, if decide (at_ m node < time) then <[node := time]> m else m)
    vc other.

(* src: pkg/datastructures/vectorclock/clock.go 41-48 Copy *)
Definition Copy (vc : Clock) : Clock := map_fold (λ k v m, <[k := v]> m) ∅ vc.

(** The first loop sets [isBefore] and [isAfter], the second only [isBefore]. *)
(* src: pkg/datastructures/vectorclock/clock.go 50-87 Compare *)
Definition Compare (vc other : Clock) : Ordering :=
  let '(isBefore, isAfter) :=
    map_fold (λ node time '(b, a),
      match other !! node with
      | None => (b, true)
      | Some otherTime =>
          if decide (otherTime < time) then (b, true)
          else if decide (time < otherTime) then (true, a) else (b, a)
      end) (false, false) vc in
  let isBefore :=
    map_fold (λ node _ b, match vc !! node with None => true | Some _ => b end)
      isBefore other in
  match isBefore, isAfter with
  | true, true => Concurrent
  | true, false => Before
  | false, true => After
  | false, false => Equal
  end.

(** ** What the loops compute *)

Definition le (a b : Clock) : Prop := ∀ n, at_ a n ≤ at_ b n.

(** Clocks as the operations build them: no entry is zero. *)
Definition positive (a : Clock) : Prop := ∀ n v, a !! n = Some v → 1 ≤ v.

Lemma at_positive a n : positive a → 0 ≤ at_ a n.
Proof. intros Ha. unfold at_. destruct (a !! n) as [v|] eqn:E; simpl; [|lia]. apply Ha in E. lia. Qed.

Lemma lookup_Merge a b n :
  Merge a b !! n = match b !! n with
                   | Some v => if decide (at_ a n < v) then Some v else a !! n
                   | None => a !! n end.
Proof.
  unfold Merge. apply (map_fold_weak_ind (λ acc m, acc !! n = match m !! n with
    | Some v => if decide (at_ a n < v) then Some v else a !! n | None => a !! n end)).
  - by rewrite lookup_empty.
  - intros j v m acc Hj IH. destruct (decide (j = n)) as [->|Hne].
    + rewrite Hj in IH. rewrite lookup_insert_eq. unfold at_ in *. rewrite IH.
      case_decide; [by rewrite lookup_insert_eq|done].
    + rewrite (lookup_insert_ne m) by done. rewrite <- IH. case_decide; [|done].
      by rewrite lookup_insert_ne.
Qed.

Lemma at_Merge a b n : positive a → positive b → at_ (Merge a b) n = at_ a n `max` at_ b n.
Proof.
  intros Ha Hb. pose proof (at_positive a n Ha). pose proof (at_positive b n Hb).
  unfold at_ at 1. rewrite lookup_Merge. unfold at_ in *.
  destruct (b !! n) as [v|]; simpl in *; [|lia]. case_decide; simpl; lia.
Qed.

Lemma positive_Merge a b : positive a → positive b → positive (Merge a b).
Proof.
  intros Ha Hb n v. rewrite lookup_Merge. destruct (b !! n) as [w|] eqn:E; [|by apply Ha].
  case_decide; [|by apply Ha]. intros [= <-]. by apply (Hb n).
Qed.

Lemma Copy_id a : Copy a = a.
Proof.
  unfold Copy. apply (map_fold_weak_ind (λ acc m, acc = m)); [done|].
  by intros k v m acc _ ->.
Qed.

(** The flags of the first loop. *)
Definition flags_ok (b : Clock) (r : bool * bool) (a : Clock) : Prop :=
  (r.1 = true ↔ ∃ n v w, a !! n = Some v ∧ b !! n = Some w ∧ v < w) ∧
  (r.2 = true ↔ ∃ n v, a !! n = Some v ∧ match b !! n with Some w => w < v | None => True end).

Lemma compare_flags (a b : Clock) :
  flags_ok b (map_fold (λ node time '(b', a'),
      match b !! node with
      | None => (b', true)
      | Some otherTime =>
          if decide (otherTime < time) then (b', true)
          else if decide (time < otherTime) then (true, a') else (b', a')
      end) (false, false) a) a.
Proof.
  apply (map_fold_weak_ind (flags_ok b)); unfold flags_ok; simpl.
  { split; split; [done|intros (n & v & w & ? & _)|done|intros (n & v & ? & _)];
      by rewrite lookup_empty in *. }
  intros i x m [isB isA] Hi [IHB IHA]. simpl in *.
  assert (∀ P : string → Z → Prop, (∃ n v, <[i := x]> m !! n = Some v ∧ P n v) ↔
    P i x ∨ ∃ n v, m !! n = Some v ∧ P n v) as Hex.
  { intros P. split.
    - intros (n & v & [[<- <-]|[? ?]]%lookup_insert_Some & HP); eauto.
    - intros [HP|(n & v & Hn & HP)]; [exists i, x; by rewrite lookup_insert_eq|].
      exists n, v. split; [|done]. rewrite lookup_insert_ne; [done|]. by intros ->; congruence. }
  assert ((∃ n v w, <[i := x]> m !! n = Some v ∧ b !! n = Some w ∧ v < w) ↔
    (∃ w, b !! i = Some w ∧ x < w) ∨ ∃ n v w, m !! n = Some v ∧ b !! n = Some w ∧ v < w) as HexB.
  { specialize (Hex (λ n v, ∃ w, b !! n = Some w ∧ v < w)). split.
    - intros (n & v & w & ? & ? & ?). destruct (proj1 Hex) as [?|(?&?&?&?&?&?)]; eauto 10.
    - intros [(w & ? & ?)|(n & v & w & ? & ? & ?)];
        destruct (proj2 Hex) as (?&?&?&?&?&?); eauto 10. }
  rewrite HexB, (Hex (λ n v, match b !! n with Some w => w < v | None => True end)), <- IHB, <- IHA.
  destruct (b !! i) as [w|]; [|split; naive_solver].
  repeat case_decide; split; naive_solver lia.
Qed.

Lemma compare_second (a b : Clock) (f0 : bool) :
  map_fold (λ node _ f, match a !! node with None => true | Some _ => f end) f0 b = true ↔
  f0 = true ∨ ∃ n w, b !! n = Some w ∧ a !! n = None.
Proof.
  apply (map_fold_weak_ind (λ f b, f = true ↔ f0 = true ∨ ∃ n (w : Z), b !! n = Some w ∧ a !! n = None)).
  { split; [by left|]. intros [?|(n & w & ? & _)]; [done|]. by rewrite lookup_empty in *. }
  intros i x m f Hi IH. destruct (a !! i) as [v|] eqn:E.
  - rewrite IH. split; (intros [?|(n & w & Hn & Ha)]; [by left|right]); exists n, w.
    + split; [|done]. rewrite lookup_insert_ne; [done|]. by intros ->; congruence.
    + apply lookup_insert_Some in Hn as [[<- _]|[_ ?]]; [congruence|done].
  - split; [|done]. intros _. right. exists i, x. by rewrite lookup_insert_eq.
Qed.

(** On clocks without zero entries, [Compare] is the pointwise order. *)
Lemma Compare_spec a b :
  positive a → positive b →
  match Compare a b with
  | Equal => le a b ∧ le b a
  | Before => le a b ∧ ¬ le b a
  | After => ¬ le a b ∧ le b a
  | Concurrent => ¬ le a b ∧ ¬ le b a
  end.
Proof.
  intros Ha Hb. unfold Compare. pose proof (compare_flags a b) as Hf.
  destruct (map_fold _ (false, false) a) as [isB isA]. destruct Hf as [HB HA]. simpl in HB, HA.
  pose proof (compare_second a b isB) as HB2.
  set (isB' := map_fold _ isB b) in *. clearbody isB'.
  assert (isA = false ↔ le a b) as HA'.
  { rewrite <- not_true_iff_false, HA. unfold le, at_. split.
    - intros Hn n. destruct (a !! n) as [v|] eqn:E1; simpl.
      + destruct (b !! n) as [w|] eqn:E2; simpl.
        * destruct (decide (w < v)); [|lia]. destruct Hn. exists n, v. by rewrite E2.
        * destruct Hn. exists n, v. by rewrite E2.
      + by apply (at_positive b n).
    - intros Hle (n & v & E1 & E2). specialize (Hle n). rewrite E1 in Hle. simpl in Hle.
      apply Ha in E1. destruct (b !! n); simpl in *; lia. }
  assert (isB' = false ↔ le b a) as HB'.
  { rewrite <- not_true_iff_false, HB2, HB. unfold le, at_. split.
    - intros Hn n. destruct (b !! n) as [w|] eqn:E2; simpl.
      + destruct (a !! n) as [v|] eqn:E1; simpl.
        * destruct (decide (v < w)); [|lia]. destruct Hn. left. by exists n, v, w.
        * destruct Hn. right. by exists n, w.
      + by apply (at_positive a n).
    - intros Hle [(n & v & w & E1 & E2 & ?)|(n & w & E2 & E1)]; specialize (Hle n);
        rewrite E1, E2 in Hle; simpl in *; [lia|]. apply Hb in E2. lia. }
  destruct isB', isA; rewrite <- HA', <- HB'; naive_solver.
Qed.

(** ** A message-passing system

    An event is local to a node or the receipt of the message sent at an earlier
    event, whose clock the message carries.  The node's clock is that of its last
    event; a receipt merges the message's clock, and every event then increments
    the node's own entry.  [parents] are the event before it at its node and the
    one whose message it receives. *)

Record event := { node : string; clk : Clock; parents : list nat; past : gset nat }.

Record system := { events : list event; last_at : gmap string nat }.

Definition clock_at (s : system) (n : string) : Clock :=
  match last_at s !! n ≫= λ i, events s !! i with Some e => clk e | None => New end.
Definition past_of (s : system) (i : nat) : gset nat :=
  match events s !! i with Some e => past e | None => ∅ end.

Definition new_event (s : system) (n : string) (c : Clock) (ps : list nat) : system :=
  {| events := events s ++ [{| node := n; clk := Increment n c; parents := ps;
       past := {[length (events s)]} ∪ ⋃ (past_of s <$> ps) |}];
     last_at := <[n := length (events s)]> (last_at s) |}.

Inductive step (s : system) : system → Prop :=
  | s_local n :
      step s (new_event s n (clock_at s n) (option_list (last_at s !! n)))
  | s_receive n j e :
      events s !! j = Some e →
      step s (new_event s n (Merge (clock_at s n) (clk e)) (option_list (last_at s !! n) ++ [j])).

Definition init : system := {| events := []; last_at := ∅ |}.

(** Lamport's happened-before. *)
Definition parent (s : system) (i j : nat) : Prop :=
  ∃ e, events s !! j = Some e ∧ i ∈ parents e.
Definition happens_before (s : system) : relation nat := tc (parent s).

Definition seq (e : event) : Z := at_ (clk e) (node e).

(** [total s n] events have happened at node [n]. *)
Definition total (s : system) (n : string) : Z := at_ (clock_at s n) n.

Record sys_ok (s : system) : Prop := {
  so_pos i e : events s !! i = Some e → positive (clk e);
  so_past i e : events s !! i = Some e → ∀ j, j ∈ past e ↔
    ∃ f, events s !! j = Some f ∧ seq f ≤ at_ (clk e) (node f);
  so_le i e j f : events s !! i = Some e → events s !! j = Some f → j ∈ past e → le (clk f) (clk e);
  so_idx i e j : events s !! i = Some e → j ∈ past e → (j ≤ i)%nat;
  so_total i e n : events s !! i = Some e → at_ (clk e) n ≤ total s n;
  so_seq i e : events s !! i = Some e → 1 ≤ seq e;
  so_bound n : 0 ≤ total s n ≤ Z.of_nat (length (events s));
  so_last n i : last_at s !! n = Some i → ∃ e, events s !! i = Some e ∧ node e = n;
  so_par i e j : events s !! i = Some e → j ∈ parents e → (j < i)%nat;
  so_hist i e j : events s !! i = Some e →
    j ∈ past e ↔ j = i ∨ ∃ k f, k ∈ parents e ∧ events s !! k = Some f ∧ j ∈ past f }.

Lemma at_Increment n c m :
  is_u64 (at_ c n + 1) →
  at_ (Increment n c) m = if decide (m = n) then at_ c n + 1 else at_ c m.
Proof.
  intros Hb. unfold Increment, at_. case_decide as Hm.
  - subst. rewrite lookup_insert_eq. simpl. by rewrite u64_id.
  - by rewrite lookup_insert_ne.
Qed.

Lemma positive_Increment n c :
  positive c → is_u64 (at_ c n + 1) → positive (Increment n c).
Proof.
  intros Hc Hb m v. unfold Increment. intros [[<- <-]|[_ ?]]%lookup_insert_Some; [|by apply (Hc m)].
  rewrite u64_id by done. pose proof (at_positive c n Hc). lia.
Qed.

Lemma clock_at_positive s n : sys_ok s → positive (clock_at s n).
Proof.
  intros Hs. unfold clock_at. destruct (last_at s !! n ≫= _) as [e|] eqn:E.
  - apply bind_Some in E as (i & _ & Hi). by eapply so_pos.
  - intros m v. unfold New. by rewrite lookup_empty.
Qed.

Lemma past_of_union s ps j :
  j ∈ ⋃ (past_of s <$> ps) ↔ ∃ k f, k ∈ ps ∧ events s !! k = Some f ∧ j ∈ past f.
Proof.
  rewrite elem_of_union_list. setoid_rewrite list_elem_of_fmap. unfold past_of. split.
  - intros (X & (k & -> & Hk) & Hj). destruct (events s !! k) as [f|] eqn:E; [eauto|set_solver].
  - intros (k & f & Hk & E & Hj). exists (past f). split; [|done]. exists k. by rewrite E.
Qed.

(** What an event needs of the clock [c] it increments. *)
Lemma new_event_ok s n c ps :
  sys_ok s → Z.of_nat (length (events s)) + 1 < 2 ^ 64 →
  positive c → at_ c n = total s n → (∀ m, at_ c m ≤ total s m) →
  (∀ k, k ∈ ps → ∃ f, events s !! k = Some f ∧ le (clk f) c) →
  (∀ j f, events s !! j = Some f → seq f ≤ at_ c (node f) →
     ∃ k g, k ∈ ps ∧ events s !! k = Some g ∧ seq f ≤ at_ (clk g) (node f)) →
  sys_ok (new_event s n c ps).
Proof.
  intros Hs Hlen Hpos Hn Htot Hps Hmax.
  pose proof (so_bound _ Hs n) as Hbn.
  assert (is_u64 (at_ c n + 1)) as Hu by (unfold is_u64; lia).
  set (L := length (events s)).
  set (g := {| node := n; clk := Increment n c; parents := ps;
               past := {[L]} ∪ ⋃ (past_of s <$> ps) |}).
  assert (∀ i e, events (new_event s n c ps) !! i = Some e ↔
    (events s !! i = Some e ∨ i = L ∧ e = g)) as Hlook.
  { intros i e. unfold new_event. simpl. rewrite lookup_snoc_Some. subst L g. split.
    - intros [[_ ?]|[-> <-]]; [by left|by right].
    - intros [Hi|[-> ->]]; [left|by right]. split; [by eapply lookup_lt_Some|done]. }
  assert (∀ m, at_ (clk g) m = if decide (m = n) then total s n + 1 else at_ c m) as Hg.
  { intros m. simpl. rewrite at_Increment by done. by rewrite Hn. }
  assert (seq g = total s n + 1) as Hsg.
  { unfold seq. rewrite Hg. simpl. by rewrite decide_True. }
  assert (le c (clk g)) as Hcg.
  { intros m. rewrite Hg. case_decide; [subst; lia|done]. }
  assert (∀ m, total (new_event s n c ps) m = if decide (m = n) then total s n + 1 else total s m)
    as Htot'.
  { intros m. unfold total, clock_at.
    change (last_at (new_event s n c ps)) with (<[n := L]> (last_at s)). case_decide as Hm.
    - subst m. rewrite lookup_insert_eq. cbn [mbind option_bind].
      rewrite (proj2 (Hlook L g)) by auto. rewrite Hg. by rewrite decide_True.
    - rewrite lookup_insert_ne by done.
      destruct (last_at s !! m) as [i|] eqn:E; cbn [mbind option_bind]; [|done].
      destruct (so_last _ Hs _ _ E) as (e & He & _). by rewrite He, (proj2 (Hlook i e)) by auto. }
  assert (∀ i e, events s !! i = Some e → (i < L)%nat) as Hlt by (intros; by eapply lookup_lt_Some).
  assert (∀ j, j ∈ past g → j = L ∨ ∃ k f, k ∈ ps ∧ events s !! k = Some f ∧ j ∈ past f) as Hpg.
  { intros j. simpl. rewrite elem_of_union, elem_of_singleton, past_of_union. done. }
  split.
  - intros i e [He|[-> ->]]%Hlook; [by eapply so_pos|]. by apply positive_Increment.
  - intros i e [He|[-> ->]]%Hlook j; setoid_rewrite Hlook.
    + rewrite (so_past _ Hs _ _ He). split; [naive_solver|].
      intros (f & [?|[-> ->]] & Hle); [eauto|]. rewrite Hsg in Hle. simpl in Hle.
      pose proof (so_total _ Hs _ _ n He). lia.
    + split.
      * intros [->|(k & f & Hk & Hf & Hj)]%Hpg.
        { exists g. split; [by right|]. done. }
        apply (so_past _ Hs _ _ Hf) in Hj as (f' & Hf' & Hle). exists f'. split; [by left|].
        destruct (Hps k Hk) as (f0 & Hf0 & Hfc). simplify_eq.
        etrans; [done|]. etrans; [apply Hfc|apply Hcg].
      * intros (f & [Hf|[-> _]] & Hle); simpl; rewrite elem_of_union, elem_of_singleton,
          past_of_union; [|by left]. right.
        assert (seq f ≤ at_ c (node f)) as Hle'.
        { rewrite Hg in Hle. case_decide as Hnf; [|done]. rewrite Hnf, Hn.
          rewrite <- Hnf. unfold seq. by apply (so_total _ Hs _ _ (node f) Hf). }
        destruct (Hmax _ _ Hf Hle') as (k & f' & Hk & Hf' & Hle''). exists k, f'.
        split_and!; [done..|]. apply (so_past _ Hs _ _ Hf'). eauto.
  - intros i e j f [He|[-> ->]]%Hlook [Hf|[-> ->]]%Hlook Hj.
    + by eapply (so_le _ Hs i e j f).
    + pose proof (so_idx _ Hs _ _ _ He Hj). apply Hlt in He. lia.
    + apply Hpg in Hj as [->|(k & f' & Hk & Hf' & Hj)]; [by apply Hlt in Hf; lia|].
      destruct (Hps k Hk) as (f0 & Hf0 & Hfc). simplify_eq. intros m.
      etrans; [by eapply (so_le _ Hs k _ j f)|]. etrans; [apply Hfc|apply Hcg].
    + by intros m.
  - intros i e j [He|[-> ->]]%Hlook Hj; [by eapply so_idx|].
    apply Hpg in Hj as [->|(k & f & Hk & Hf & Hj)]; [done|].
    apply (so_idx _ Hs _ _ _ Hf) in Hj. apply Hlt in Hf. lia.
  - intros i e m [He|[-> ->]]%Hlook; rewrite Htot'.
    + pose proof (so_total _ Hs _ _ m He). case_decide; [subst; lia|done].
    + rewrite Hg. case_decide; [done|apply Htot].
  - intros i e [He|[-> ->]]%Hlook; [by eapply so_seq|]. lia.
  - intros m. rewrite Htot'. unfold new_event. simpl. rewrite length_app. simpl.
    pose proof (so_bound _ Hs m). case_decide; lia.
  - intros m i. unfold new_event. simpl. fold L. intros [[<- <-]|[_ Hi]]%lookup_insert_Some.
    + exists g. split; [apply Hlook; by right|done].
    + destruct (so_last _ Hs _ _ Hi) as (e & ? & ?). exists e. split; [apply Hlook; by left|done].
  - intros i e j [He|[-> ->]]%Hlook Hj; [by eapply so_par|].
    destruct (Hps j Hj) as (f & Hf & _). by apply Hlt in Hf.
  - intros i e j [He|[-> ->]]%Hlook.
    + rewrite (so_hist _ Hs _ _ j He). setoid_rewrite Hlook. split; [naive_solver|].
      intros [?|(k & f & Hk & [?|[-> ->]] & Hj)]; [by left|eauto 10|].
      apply (so_par _ Hs _ _ _ He) in Hk. apply Hlt in He. lia.
    + setoid_rewrite Hlook. split; [intros ?%Hpg; naive_solver|]. simpl.
      rewrite elem_of_union, elem_of_singleton, past_of_union.
      intros [?|(k & f & Hk & [?|[-> ->]] & Hj)]; [by left|eauto 10|].
      destruct (Hps _ Hk) as (f & Hf & _). apply Hlt in Hf. lia.
Qed.

Lemma init_ok : sys_ok init.
Proof.
  split; try (by intros i e; rewrite lookup_nil); try done;
    [by intros; rewrite lookup_nil in *..].
Qed.

Lemma clock_step_ok s s' :
  sys_ok s → step s s' → Z.of_nat (length (events s')) < 2 ^ 64 → sys_ok s'.
Proof.
  intros Hs Hstep Hlen.
  assert (∀ n, positive (clock_at s n)) as Hpos by (intros; by apply clock_at_positive).
  assert (∀ n m, at_ (clock_at s n) m ≤ total s m) as Htot.
  { intros n m. unfold clock_at. destruct (last_at s !! n ≫= _) as [e|] eqn:E.
    - apply bind_Some in E as (i & _ & Hi). by eapply so_total.
    - unfold at_ at 1, New. rewrite lookup_empty. apply so_bound. done. }
  assert (∀ n k, k ∈ option_list (last_at s !! n) →
    ∃ f, events s !! k = Some f ∧ clk f = clock_at s n) as Hlast.
  { intros n k. destruct (last_at s !! n) as [i|] eqn:E; simpl; [|by intros ?%not_elem_of_nil].
    intros ->%list_elem_of_singleton. destruct (so_last _ Hs _ _ E) as (e & He & _).
    exists e. unfold clock_at. by rewrite E; simpl; rewrite He. }
  assert (∀ n j f, events s !! j = Some f → seq f ≤ at_ (clock_at s n) (node f) →
    ∃ k g, k ∈ option_list (last_at s !! n) ∧ events s !! k = Some g ∧
           seq f ≤ at_ (clk g) (node f)) as Hmax.
  { intros n j f Hf Hle. pose proof (so_seq _ Hs _ _ Hf) as Hseq.
    destruct (last_at s !! n) as [i|] eqn:E.
    - destruct (Hlast n i) as (g & Hg & Hc); [rewrite E; by left|]. exists i, g.
      rewrite Hc. split_and!; [by left|done..].
    - unfold clock_at in Hle. rewrite E in Hle. simpl in Hle.
      unfold at_ at 1, New in Hle. rewrite lookup_empty in Hle. simpl in Hle. lia. }
  destruct Hstep as [n|n j e He].
  - apply new_event_ok; try done.
    + simpl in Hlen. rewrite length_app in Hlen. simpl in Hlen. lia.
    + intros k Hk. destruct (Hlast n k Hk) as (f & Hf & Hc). exists f. rewrite Hc.
      split; [done|by intros m].
    + apply Hmax.
  - pose proof (so_pos _ Hs _ _ He) as Hpe. simpl in Hlen. rewrite length_app in Hlen. simpl in Hlen.
    apply new_event_ok; try done.
    + lia.
    + by apply positive_Merge.
    + rewrite at_Merge by done. pose proof (so_total _ Hs _ _ n He). unfold total in *. lia.
    + intros m. rewrite at_Merge by done. pose proof (so_total _ Hs _ _ m He).
      pose proof (Htot n m). lia.
    + intros k [Hk| ->%list_elem_of_singleton]%elem_of_app.
      * destruct (Hlast n k Hk) as (f & Hf & Hc). exists f. split; [done|]. intros m.
        rewrite at_Merge, Hc by done. lia.
      * exists e. split; [done|]. intros m. rewrite at_Merge by done. lia.
    + intros i f Hf. rewrite at_Merge by done. intros Hle.
      destruct (decide (seq f ≤ at_ (clock_at s n) (node f))) as [Hl|Hl].
      * destruct (Hmax n i f Hf Hl) as (k & g & ? & ? & ?). exists k, g.
        split_and!; [by apply elem_of_app; left|done..].
      * exists j, e. split_and!; [apply elem_of_app; right; by left|done|lia].
Qed.

Lemma step_length s s' : step s s' → (length (events s) ≤ length (events s'))%nat.
Proof. destruct 1; simpl; rewrite length_app; simpl; lia. Qed.

Lemma clock_reachable_ok s :
  rtc step init s → Z.of_nat (length (events s)) < 2 ^ 64 → sys_ok s.
Proof.
  intros Hr. revert Hr. generalize init_ok. generalize init. intros s0 Hs0 Hr Hlen.
  assert (∀ a b, rtc step a b → (length (events a) ≤ length (events b))%nat) as Hmono.
  { induction 1 as [|a b c Hab _ IH]; [done|]. apply step_length in Hab. lia. }
  induction Hr as [|s0 s1 s2 H01 H12 IH]; [done|]. apply IH; [|done].
  eapply clock_step_ok; [done..|]. apply Hmono in H12. lia.
Qed.

(** The past of an event is what happened before it, and itself. *)
Lemma past_happens_before s i e j :
  sys_ok s → events s !! i = Some e → j ∈ past e ↔ j = i ∨ happens_before s j i.
Proof.
  intros Hs. revert e j. induction i as [i IH] using lt_wf_ind. intros e j He.
  rewrite (so_hist _ Hs _ _ j He). split; (intros [->|Hj]; [by left|right]).
  - destruct Hj as (k & f & Hk & Hf & Hj).
    assert (parent s k i) as Hki by by exists e.
    apply (IH k (so_par _ Hs _ _ _ He Hk) f j Hf) in Hj as [->|Hj]; [by apply tc_once|].
    by eapply tc_r.
  - assert (∃ k, parent s k i ∧ (j = k ∨ happens_before s j k)) as (k & (e' & He' & Hk) & Hj2).
    { clear -Hj. induction Hj as [x y Hxy|x y z Hxy Hyz (k & Hk & IH)]; [by eauto|].
      exists k. split; [done|]. right. destruct IH as [->|?]; [by apply tc_once|by eapply tc_l]. }
    simplify_eq. pose proof (so_par _ Hs _ _ _ He Hk) as Hki.
    destruct (events s !! k) as [f|] eqn:Hf.
    + exists k, f. split_and!; [done..|]. by apply (IH k Hki f j Hf).
    + apply lookup_ge_None in Hf. apply lookup_lt_Some in He. lia.
Qed.

(** ** Properties *)

(** C27. Comparing vector clocks decides causality.  In any run of fewer than
    [2^64] events in which nodes take local steps and receive messages (each
    message merged into the receiver's clock before it increments its own entry),
    and for any two events: the first's clock compares as [Before] exactly when it
    happened before the second, [After] in the converse case, [Equal] only for an
    event with itself, and [Concurrent] when neither could have influenced the
    other. *)
Theorem vectorclock_decides_causality s i e j f :
  rtc step init s → Z.of_nat (length (events s)) < 2 ^ 64 →
  events s !! i = Some e → events s !! j = Some f →
  match Compare (clk e) (clk f) with
  | Equal => i = j
  | Before => happens_before s i j
  | After => happens_before s j i
  | Concurrent => i ≠ j ∧ ¬ happens_before s i j ∧ ¬ happens_before s j i
  end.
Proof.
  intros Hr Hlen He Hf. pose proof (clock_reachable_ok s Hr Hlen) as Hs.
  assert (∀ i e j f, events s !! i = Some e → events s !! j = Some f →
    le (clk e) (clk f) ↔ i = j ∨ happens_before s i j) as Hle.
  { clear -Hs. intros i e j f He Hf. rewrite <- (past_happens_before s j f i Hs Hf). split.
    - intros Hle. apply (so_past _ Hs _ _ Hf). exists e. split; [done|]. apply Hle.
    - by apply (so_le _ Hs j f i e). }
  assert (∀ i e j f, events s !! i = Some e → events s !! j = Some f →
    le (clk e) (clk f) → le (clk f) (clk e) → i = j) as Hanti.
  { clear -Hs Hle. intros i e j f He Hf H1 H2.
    apply (Hle _ _ _ _ He Hf), (past_happens_before s j f i Hs Hf), (so_idx _ Hs _ _ _ Hf) in H1.
    apply (Hle _ _ _ _ Hf He), (past_happens_before s i e j Hs He), (so_idx _ Hs _ _ _ He) in H2.
    lia. }
  pose proof (Compare_spec (clk e) (clk f) (so_pos _ Hs _ _ He) (so_pos _ Hs _ _ Hf)) as Hc.
  pose proof (Hle _ _ _ _ He Hf) as Hef. pose proof (Hle _ _ _ _ Hf He) as Hfe.
  destruct (Compare (clk e) (clk f)).
  - by eapply Hanti; [done..|apply Hc|apply Hc].
  - naive_solver.
  - naive_solver.
  - naive_solver.
Qed.

(** Node b receives the message of a's first event; a's second is concurrent. *)
Lemma vectorclock_decides_causality_witness :
  ∃ s e f g, events s = [e; f; g] ∧ rtc step init s ∧
    Compare (clk e) (clk f) = Before ∧ happens_before s 0%nat 1%nat ∧
    Compare (clk f) (clk g) = Concurrent ∧ ¬ happens_before s 1%nat 2%nat.
Proof.
  set (s1 := new_event init "a" ∅ []).
  set (e := {| node := "a"; clk := Increment "a" ∅; parents := []; past := {[0%nat]} ∪ ∅ |}).
  set (f := {| node := "b"; clk := Increment "b" (Merge ∅ (clk e)); parents := [0%nat];
               past := {[1%nat]} ∪ (past e ∪ ∅) |}).
  set (g := {| node := "a"; clk := Increment "a" (clk e); parents := [0%nat];
               past := {[2%nat]} ∪ (past e ∪ ∅) |}).
  set (s2 := new_event s1 "b" (Merge ∅ (clk e)) [0%nat]).
  set (s3 := new_event s2 "a" (clk e) [0%nat]).
  assert (rtc step init s3) as Hr.
  { eapply rtc_l; [apply (s_local init "a")|].
    eapply rtc_l; [apply (s_receive s1 "b" 0 e); reflexivity|].
    eapply rtc_l; [apply (s_local s2 "a")|]. apply rtc_refl. }
  assert (Compare (clk e) (clk f) = Before) as H1 by (vm_compute; reflexivity).
  assert (Compare (clk f) (clk g) = Concurrent) as H2 by (vm_compute; reflexivity).
  pose proof (vectorclock_decides_causality s3 0%nat e 1%nat f Hr ltac:(done) eq_refl eq_refl) as C1.
  pose proof (vectorclock_decides_causality s3 1%nat f 2%nat g Hr ltac:(done) eq_refl eq_refl) as C2.
  rewrite H1 in C1. rewrite H2 in C2. exists s3, e, f, g.
  split_and!; [reflexivity|exact Hr|exact H1|exact C1|exact H2|apply C2].
Defined.
