(* ===== verification/Circular.v ===== *)
(** * Circular buffers

    What the deque (pkg/datastructures/deque) and the ring buffer
    (pkg/datastructures/queue/ring) share: a list of elements that lies in a slice
    from a head index on and wraps around its end. *)

From S2P Require Import Prelude.
From stdpp Require Import options.
Open Scope Z_scope.

(** The slot of the [i]-th element of a buffer of size [c] that starts at [h]. *)
Definition slot (h c i : Z) : nat := Z.to_nat ((h + i) mod c).

Lemma slot_lt h c i : 0 < c → (slot h c i < Z.to_nat c)%nat.
Proof. intros Hc. unfold slot. pose proof (Z.mod_pos_bound (h + i) c Hc). lia. Qed.

Lemma slot_inj h c i j :
  0 ≤ i < c → 0 ≤ j < c → slot h c i = slot h c j → i = j.
Proof.
  unfold slot. intros Hi Hj Heq.
  pose proof (Z.mod_pos_bound (h + i) c ltac:(lia)). pose proof (Z.mod_pos_bound (h + j) c ltac:(lia)).
  assert ((h + i) mod c = (h + j) mod c) as E by lia.
  pose proof (Z.div_mod (h + i) c ltac:(lia)). pose proof (Z.div_mod (h + j) c ltac:(lia)).
  rewrite E in *. generalize dependent ((h + i) / c). generalize dependent ((h + j) / c).
  intros q2 H2 q1 H1. assert (i - j = c * (q1 - q2)) by (rewrite Z.mul_sub_distr_l; lia).
  destruct (Z.lt_trichotomy q1 q2) as [?|[->|?]]; [nia|lia|nia].
Qed.

Lemma slot_shift h c i k : 0 < c → slot ((h + k) mod c) c i = slot h c (i + k).
Proof.
  intros Hc. unfold slot. f_equal. rewrite Zplus_mod_idemp_l. f_equal. lia.
Qed.

Lemma slot_0 h c : 0 ≤ h < c → slot h c 0 = Z.to_nat h.
Proof. intros ?. unfold slot. rewrite Z.add_0_r, Z.mod_small by lia. done. Qed.

(** The elements [l] lie in [buf] from [h] on, wrapping around. *)
Definition holds {T} (buf : list T) (h : Z) (l : list T) : Prop :=
  let c := Z.of_nat (length buf) in
  0 ≤ h < c ∧ (length l ≤ length buf)%nat ∧
  ∀ i : nat, (i < length l)%nat → buf !! slot h c (Z.of_nat i) = l !! i.

Section holds.
Context {T : Type} (zero : T).
Implicit Types (buf l : list T).

Lemma holds_snoc buf h l v :
  holds buf h l → (length l < length buf)%nat →
  holds (<[slot h (Z.of_nat (length buf)) (Z.of_nat (length l)) := v]> buf) h (l ++ [v]).
Proof.
  intros (Hh & Hl & Hi) Hlt. unfold holds. rewrite length_insert, length_app. simpl.
  split_and!; [lia|lia|lia|]. intros i Hlt'.
  pose proof (slot_lt h (Z.of_nat (length buf)) (Z.of_nat (length l)) ltac:(lia)).
  destruct (decide (i = length l)) as [->|?].
  - rewrite list_lookup_insert_eq by lia. by rewrite lookup_app_r, Nat.sub_diag by lia.
  - rewrite list_lookup_insert_ne, Hi, lookup_app_l by
      (lia || (intros Heq; apply slot_inj in Heq; lia)). done.
Qed.

Lemma holds_cons buf h l v :
  holds buf h l → (length l < length buf)%nat →
  let c := Z.of_nat (length buf) in
  let h' := (h - 1) mod c in
  holds (<[Z.to_nat h' := v]> buf) h' (v :: l).
Proof.
  intros (Hh & Hl & Hi) Hlt c h'. subst c.
  assert (0 ≤ h' < Z.of_nat (length buf)) as Hh' by (apply Z.mod_pos_bound; lia).
  unfold holds. rewrite length_insert. simpl. split_and!; [lia|lia|lia|]. intros i Hlt'.
  rewrite <- (slot_0 h' (Z.of_nat (length buf))) by lia.
  pose proof (slot_lt h' (Z.of_nat (length buf)) 0 ltac:(lia)).
  destruct i as [|i]; simpl.
  - by rewrite list_lookup_insert_eq by lia.
  - rewrite list_lookup_insert_ne by (intros Heq; apply slot_inj in Heq; lia).
    subst h'. change (h - 1) with (h + -1). rewrite slot_shift by lia. rewrite <- Hi by lia. f_equal. f_equal. lia.
Qed.

Lemma holds_head buf h v l :
  holds buf h (v :: l) → default zero (buf !! Z.to_nat h) = v.
Proof.
  intros (Hh & _ & Hi). specialize (Hi 0%nat ltac:(simpl; lia)).
  rewrite slot_0 in Hi by lia. by rewrite Hi.
Qed.

(** Dropping the first element; the rest of the buffer may change at its slot. *)
Lemma holds_tail buf h v l w :
  holds buf h (v :: l) →
  holds (<[Z.to_nat h := w]> buf) ((h + 1) mod Z.of_nat (length buf)) l.
Proof.
  intros (Hh & Hl & Hi). simpl in *. unfold holds. rewrite length_insert.
  pose proof (Z.mod_pos_bound (h + 1) (Z.of_nat (length buf)) ltac:(lia)).
  split_and!; [lia|lia|lia|]. intros i Hlt. rewrite slot_shift by lia.
  rewrite <- (slot_0 h (Z.of_nat (length buf))) by lia.
  rewrite list_lookup_insert_ne by (intros Heq; apply slot_inj in Heq; lia).
  specialize (Hi (S i) ltac:(lia)). simpl in Hi. rewrite <- Hi. f_equal. f_equal. lia.
Qed.

Lemma holds_tail' buf h v l :
  holds buf h (v :: l) → holds buf ((h + 1) mod Z.of_nat (length buf)) l.
Proof.
  intros Hb. assert (buf !! Z.to_nat h = Some v) as Hv.
  { destruct Hb as (Hh & _ & Hi). specialize (Hi 0%nat ltac:(simpl; lia)).
    rewrite slot_0 in Hi by lia. done. }
  rewrite <- (list_insert_id buf (Z.to_nat h) v) at 1 by done. by eapply holds_tail.
Qed.

Lemma holds_last buf h l v :
  holds buf h (l ++ [v]) →
  buf !! slot h (Z.of_nat (length buf)) (Z.of_nat (length l)) = Some v.
Proof.
  intros (Hh & _ & Hi). rewrite Hi by (rewrite length_app; simpl; lia).
  by rewrite lookup_app_r, Nat.sub_diag by lia.
Qed.

Lemma holds_init buf h l v w :
  holds buf h (l ++ [v]) →
  holds (<[slot h (Z.of_nat (length buf)) (Z.of_nat (length l)) := w]> buf) h l.
Proof.
  intros (Hh & Hl & Hi). rewrite length_app in Hl, Hi. simpl in Hl, Hi. unfold holds.
  rewrite length_insert. split_and!; [lia|lia|lia|]. intros i Hlt.
  rewrite list_lookup_insert_ne, Hi, lookup_app_l by
    (lia || (intros Heq; apply slot_inj in Heq; lia)). done.
Qed.

(** A full buffer is its contents, rotated. *)
Lemma holds_full buf h l :
  holds buf h l → length l = length buf →
  drop (Z.to_nat h) buf ++ take (Z.to_nat h) buf = l.
Proof.
  intros (Hh & _ & Hi) Hlen. apply list_eq_same_length with (n := length buf).
  - done.
  - rewrite length_app, length_drop, length_take. lia.
  - intros i x y Hlt Hx Hy. rewrite <- Hi in Hy by lia. unfold slot in Hy.
    destruct (decide (Z.of_nat i + h < Z.of_nat (length buf))).
    + rewrite lookup_app_l in Hx by (rewrite length_drop; lia).
      rewrite lookup_drop in Hx. rewrite Z.mod_small in Hy by lia.
      replace (Z.to_nat (h + Z.of_nat i)) with (Z.to_nat h + i)%nat in Hy by lia. congruence.
    + rewrite lookup_app_r, length_drop in Hx by (rewrite length_drop; lia).
      rewrite lookup_take_lt in Hx by lia.
      replace ((h + Z.of_nat i) mod Z.of_nat (length buf))
        with (h + Z.of_nat i - Z.of_nat (length buf)) in Hy.
      2:{ symmetry. rewrite <- (Z.mod_small (h + Z.of_nat i - Z.of_nat (length buf))
            (Z.of_nat (length buf))) by lia.
          rewrite <- (Z.mod_add (h + Z.of_nat i - _) 1) by lia. f_equal. lia. }
      replace (Z.to_nat _) with (i - (length buf - Z.to_nat h))%nat in Hy by lia. congruence.
Qed.
End holds.
