(* ===== verification/Deque.v ===== *)
(** * pkg/datastructures/deque

    The double-ended queue over a circular slice whose length is a power of two.
    A slice is a list; the indices are always in range, which [represents] shows,
    so a read takes the zero value of the element type as an unused default.
    The methods run under the deque's lock: each is one step. *)

From S2P Require Import Prelude Circular.
From stdpp Require Import options.
Open Scope Z_scope.

Section deque.
Context {T : Type} (zero : T).

(* src: pkg/datastructures/deque/deque.go 16-23 Deque *)
Record Deque := { buf : list T; head : Z; tail : Z; count : Z; minCap : Z }.

(** [bits.Len] *)
Definition bits_Len (x : Z) : Z := if decide (x ≤ 0) then 0 else Z.log2 x + 1.

(* src: pkg/datastructures/deque/deque.go 25-37 New *)
Definition New (initialCap : Z) : Deque :=
  let initialCap :=
    if decide (initialCap < 1) then 16 else i64 (Z.shiftl 1 (bits_Len (initialCap - 1))) in
  {| buf := replicate (Z.to_nat initialCap) zero; head := 0; tail := 0; count := 0;
     minCap := initialCap |}.

Definition len (l : list T) : Z := Z.of_nat (length l).

(** [copy(dst, src)], and the number of elements copied. *)
Definition copy (dst src : list T) : list T * Z :=
  let n := Nat.min (length dst) (length src) in (take n src ++ drop n dst, Z.of_nat n).

(* src: pkg/datastructures/deque/deque.go 103-114 resize *)
Definition resize (newSize : Z) (d : Deque) : Deque :=
  let newBuf := replicate (Z.to_nat newSize) zero in
  let newBuf :=
    if decide (head d < tail d) then
      (copy newBuf (take (Z.to_nat (tail d - head d)) (drop (Z.to_nat (head d)) (buf d)))).1
    else
      let '(newBuf, n) := copy newBuf (drop (Z.to_nat (head d)) (buf d)) in
      take (Z.to_nat n) newBuf ++
        (copy (drop (Z.to_nat n) newBuf) (take (Z.to_nat (tail d)) (buf d))).1 in
  {| buf := newBuf; head := 0; tail := count d; count := count d; minCap := minCap d |}.

(* src: pkg/datastructures/deque/deque.go 97-101 growIfFull *)
Definition growIfFull (d : Deque) : Deque :=
  if decide (count d = len (buf d)) then resize (i64 (len (buf d) * 2)) d else d.

(* src: pkg/datastructures/deque/deque.go 39-47 PushBack *)
Definition PushBack (val : T) (d : Deque) : Deque :=
  let d := growIfFull d in
  {| buf := <[Z.to_nat (tail d) := val]> (buf d); head := head d;
     tail := Z.land (i64 (tail d + 1)) (len (buf d) - 1);
     count := i64 (count d + 1); minCap := minCap d |}.

(* src: pkg/datastructures/deque/deque.go 49-57 PushFront *)
Definition PushFront (val : T) (d : Deque) : Deque :=
  let d := growIfFull d in
  let h := Z.land (i64 (head d - 1)) (len (buf d) - 1) in
  {| buf := <[Z.to_nat h := val]> (buf d); head := h; tail := tail d;
     count := i64 (count d + 1); minCap := minCap d |}.

(* src: pkg/datastructures/deque/deque.go 59-76 PopBack *)
Definition PopBack (d : Deque) : option T * Deque :=
  if decide (count d = 0) then (None, d)
  else
    let t := Z.land (i64 (tail d - 1)) (len (buf d) - 1) in
    let val := default zero (buf d !! Z.to_nat t) in
    (Some val, {| buf := <[Z.to_nat t := zero]> (buf d); head := head d; tail := t;
                  count := i64 (count d - 1); minCap := minCap d |}).

(* src: pkg/datastructures/deque/deque.go 78-95 PopFront *)
Definition PopFront (d : Deque) : option T * Deque :=
  if decide (count d = 0) then (None, d)
  else
    let val := default zero (buf d !! Z.to_nat (head d)) in
    (Some val, {| buf := <[Z.to_nat (head d) := zero]> (buf d);
                  head := Z.land (i64 (head d + 1)) (len (buf d) - 1); tail := tail d;
                  count := i64 (count d - 1); minCap := minCap d |}).

(* src: pkg/datastructures/deque/deque.go 116-120 Len *)
Definition Len (d : Deque) : Z := count d.

(** The buffer's length is a power of two, small enough not to overflow, and
    the contents [l] lie in it. *)
Definition represents (d : Deque) (l : list T) : Prop :=
  (∃ k, 0 ≤ k ≤ 60 ∧ len (buf d) = 2 ^ k) ∧ holds (buf d) (head d) l ∧
  count d = Z.of_nat (length l) ∧ tail d = (head d + count d) mod len (buf d).

Lemma mask x k : 0 ≤ k → Z.land x (2 ^ k - 1) = x mod 2 ^ k.
Proof. intros Hk. rewrite <- Z.land_ones by done. by rewrite Z.ones_equiv. Qed.

Lemma copy_long (dst src : list T) :
  (length src ≤ length dst)%nat →
  copy dst src = (src ++ drop (length src) dst, Z.of_nat (length src)).
Proof. intros Hl. unfold copy. rewrite Nat.min_r by done. by rewrite take_ge. Qed.

Lemma represents_bounds d l :
  represents d l → 0 ≤ head d < len (buf d) ∧ 0 ≤ tail d < len (buf d) ∧
    0 ≤ count d ≤ len (buf d) ∧ len (buf d) ≤ 2 ^ 60 ∧ 0 < len (buf d).
Proof.
  intros ((k & Hk & E) & (Hh & Hl & _) & Hc & Ht). unfold len in *.
  assert (2 ^ k ≤ 2 ^ 60) by (apply Z.pow_le_mono_r; lia).
  pose proof (Z.mod_pos_bound (head d + count d) (Z.of_nat (length (buf d))) ltac:(lia)).
  lia.
Qed.

Lemma grow_represents d l :
  represents d l → Z.of_nat (length l) < 2 ^ 60 →
  represents (growIfFull d) l ∧ (length l < length (buf (growIfFull d)))%nat.
Proof.
  intros Hr Hsmall. pose proof (represents_bounds d l Hr) as (Hh & Ht & Hc & Hb & Hpos).
  destruct Hr as ((k & Hk & E) & Hold & Hcnt & Htl). unfold growIfFull.
  case_decide as Hfull.
  2:{ split; [|unfold len in *; lia]. split_and!; eauto. }
  assert (length l = length (buf d)) as Hlen by (unfold len in *; lia).
  rewrite i64_id by (unfold is_i64; lia).
  assert (tail d = head d) as Hth.
  { rewrite Htl, Hfull, <- Z.add_mod_idemp_r, Z.mod_same, Z.add_0_r, Z.mod_small by lia. done. }
  unfold resize. rewrite decide_False by lia.
  set (nb := replicate (Z.to_nat (len (buf d) * 2)) zero).
  assert (length nb = (2 * length (buf d))%nat) as Hnb.
  { unfold nb, len. rewrite length_replicate. lia. }
  rewrite copy_long by (rewrite length_drop; lia). cbn [fst snd].
  rewrite Nat2Z.id, take_app_length, drop_app_length, Hth.
  rewrite copy_long by (rewrite length_take, !length_drop; lia). cbn [fst].
  rewrite (assoc_L (++)), (holds_full _ _ _ Hold Hlen). rewrite drop_drop.
  set (rest := drop _ nb).
  assert (length rest = length (buf d)) as Hrest.
  { unfold rest. rewrite !length_drop, length_take. lia. }
  assert (len (l ++ rest) = 2 ^ (k + 1)) as Hpow.
  { unfold len in *. rewrite length_app, Hrest, Hlen, Z.pow_add_r by lia. lia. }
  assert (k + 1 ≤ 60) as Hk60.
  { destruct (decide (k = 60)) as [->|?]; [|lia]. unfold len in *. lia. }
  split; [|simpl; rewrite length_app; unfold len in *; lia].
  split_and!; simpl.
  - exists (k + 1). split; [lia|done].
  - split_and!; [lia|rewrite length_app; unfold len in *; lia|rewrite length_app; lia|].
    intros i Hi. unfold slot. rewrite Z.add_0_l, Z.mod_small by (rewrite length_app; lia).
    by rewrite Nat2Z.id, lookup_app_l by lia.
  - done.
  - rewrite Z.mod_small; [lia|]. unfold len in *. rewrite length_app. lia.
Qed.

(** The tail is the slot after the last element. *)
Lemma tail_slot d l :
  represents d l →
  Z.to_nat (tail d) = slot (head d) (Z.of_nat (length (buf d))) (Z.of_nat (length l)).
Proof. intros (_ & _ & Hc & Ht). unfold slot. by rewrite Ht, Hc. Qed.

Lemma PushBack_represents d l v :
  represents d l → Z.of_nat (length l) < 2 ^ 60 → represents (PushBack v d) (l ++ [v]).
Proof.
  intros Hr Hs. destruct (grow_represents d l Hr Hs) as [Hg Hlt]. unfold PushBack.
  generalize dependent (growIfFull d). clear d Hr. intros d Hr Hlt.
  pose proof (represents_bounds d l Hr) as (Hh & Ht & Hc & Hb & Hpos).
  pose proof (tail_slot d l Hr) as Hts.
  destruct Hr as ((k & Hk & E) & Hold & Hcnt & Htl). rewrite !i64_id by (unfold is_i64; lia).
  unfold represents, len in *. cbn [buf head tail count]. rewrite length_insert, length_app. simpl.
  split_and!.
  - by exists k.
  - rewrite Hts. by apply holds_snoc.
  - lia.
  - rewrite E, mask, <- E, Htl, Zplus_mod_idemp_l by lia. f_equal. lia.
Qed.

Lemma PushFront_represents d l v :
  represents d l → Z.of_nat (length l) < 2 ^ 60 → represents (PushFront v d) (v :: l).
Proof.
  intros Hr Hs. destruct (grow_represents d l Hr Hs) as [Hg Hlt]. unfold PushFront.
  generalize dependent (growIfFull d). clear d Hr. intros d Hr Hlt.
  pose proof (represents_bounds d l Hr) as (Hh & Ht & Hc & Hb & Hpos).
  destruct Hr as ((k & Hk & E) & Hold & Hcnt & Htl). rewrite !i64_id by (unfold is_i64; lia).
  unfold represents, len in *. cbn [buf head tail count]. rewrite length_insert. simpl.
  rewrite E, mask, <- E by lia. split_and!.
  - by exists k.
  - by apply holds_cons.
  - lia.
  - rewrite Htl, Zplus_mod_idemp_l. f_equal. lia.
Qed.

Lemma PopFront_represents d l :
  represents d l →
  match l with
  | [] => PopFront d = (None, d)
  | v :: l' => ∃ d', PopFront d = (Some v, d') ∧ represents d' l'
  end.
Proof.
  intros Hr. pose proof (represents_bounds d l Hr) as (Hh & Ht & Hc & Hb & Hpos).
  destruct Hr as ((k & Hk & E) & Hold & Hcnt & Htl). unfold PopFront.
  destruct l as [|v l]; simpl in Hcnt; [by rewrite decide_True by lia|].
  rewrite decide_False by lia. rewrite (holds_head zero _ _ _ _ Hold).
  rewrite !i64_id by (unfold is_i64; lia). eexists. split; [done|].
  unfold represents, len in *. cbn [buf head tail count]. rewrite length_insert.
  rewrite E, mask, <- E by lia. split_and!.
  - by exists k.
  - by eapply holds_tail.
  - lia.
  - rewrite Htl, Zplus_mod_idemp_l. f_equal. lia.
Qed.

Lemma PopBack_represents_nil d : represents d [] → PopBack d = (None, d).
Proof. intros (_ & _ & Hc & _). unfold PopBack. by rewrite decide_True. Qed.

Lemma PopBack_represents d l v :
  represents d (l ++ [v]) → ∃ d', PopBack d = (Some v, d') ∧ represents d' l.
Proof.
  intros Hr. pose proof (represents_bounds d _ Hr) as (Hh & Ht & Hc & Hb & Hpos).
  destruct Hr as ((k & Hk & E) & Hold & Hcnt & Htl). unfold PopBack.
  rewrite length_app in Hcnt. simpl in Hcnt. rewrite decide_False by lia.
  rewrite !i64_id by (unfold is_i64; lia). unfold len in *.
  rewrite E, mask, <- E by lia.
  assert ((tail d - 1) mod Z.of_nat (length (buf d)) =
          (head d + Z.of_nat (length l)) mod Z.of_nat (length (buf d))) as Et.
  { rewrite Htl, Zminus_mod_idemp_l. f_equal. lia. }
  rewrite Et. pose proof (holds_last _ _ _ _ Hold) as Hv. unfold slot in Hv. rewrite Hv.
  eexists. split; [done|]. unfold represents, len in *. cbn [buf head tail count].
  rewrite length_insert. split_and!.
  - by exists k.
  - by eapply holds_init.
  - lia.
  - f_equal. lia.
Qed.

Lemma deque_New_represents c : c ≤ 2 ^ 60 → represents (New c) [].
Proof.
  intros Hc.
  assert (∃ k, 0 ≤ k ≤ 60 ∧
    (if decide (c < 1) then 16 else i64 (Z.shiftl 1 (bits_Len (c - 1)))) = 2 ^ k) as (k & Hk & E).
  { case_decide; [by exists 4|]. unfold bits_Len. case_decide; [by exists 0|].
    assert (Z.log2 (c - 1) < 60) by (apply Z.log2_lt_pow2; lia).
    pose proof (Z.log2_nonneg (c - 1)). exists (Z.log2 (c - 1) + 1). split; [lia|].
    rewrite Z.shiftl_1_l, i64_id; [done|].
    assert (2 ^ (Z.log2 (c - 1) + 1) ≤ 2 ^ 60) by (apply Z.pow_le_mono_r; lia).
    unfold is_i64. lia. }
  unfold New. rewrite E. pose proof (Z.pow_pos_nonneg 2 k ltac:(lia) ltac:(lia)).
  unfold represents, len, holds. cbn [buf head tail count].
  rewrite length_replicate, Z2Nat.id by lia. split_and!; simpl; try lia.
  - exists k. lia.
  - by rewrite Z.mod_0_l by lia.
Qed.

(** *** Histories *)
Inductive DequeOp := PushBackOp (v : T) | PushFrontOp (v : T) | PopBackOp | PopFrontOp.

Definition run_op (o : DequeOp) (d : Deque) : option T * Deque :=
  match o with
  | PushBackOp v => (None, PushBack v d)
  | PushFrontOp v => (None, PushFront v d)
  | PopBackOp => PopBack d
  | PopFrontOp => PopFront d
  end.

(** The specification: the same calls on a list. *)
Definition spec_op (o : DequeOp) (l : list T) : option T * list T :=
  match o with
  | PushBackOp v => (None, l ++ [v])
  | PushFrontOp v => (None, v :: l)
  | PopBackOp => (last l, take (length l - 1) l)
  | PopFrontOp => (list.head l, list.tail l)
  end.

Fixpoint run_ops {S A} (step : DequeOp → S → A * S) (os : list DequeOp) (s : S) : list A * S :=
  match os with
  | [] => ([], s)
  | o :: os => let '(r, s) := step o s in
               let '(rs, s) := run_ops step os s in (r :: rs, s)
  end.

Lemma run_op_represents o d l :
  represents d l → Z.of_nat (length l) < 2 ^ 60 →
  (run_op o d).1 = (spec_op o l).1 ∧ represents (run_op o d).2 (spec_op o l).2.
Proof.
  intros Hr Hs. destruct o; simpl.
  - split; [done|by apply PushBack_represents].
  - split; [done|by apply PushFront_represents].
  - destruct l as [|v l _] using rev_ind; [by rewrite PopBack_represents_nil|].
    destruct (PopBack_represents d l v Hr) as (d' & -> & Hr').
    rewrite last_snoc, length_app. simpl.
    by replace (length l + 1 - 1)%nat with (length l) by lia; rewrite take_app_length.
  - pose proof (PopFront_represents d l Hr) as Hp. destruct l as [|v l]; [by rewrite Hp|].
    by destruct Hp as (d' & -> & ?).
Qed.

Lemma spec_op_length o l : (length (spec_op o l).2 ≤ S (length l))%nat.
Proof.
  destruct o; simpl; rewrite ?length_app, ?length_take; simpl; try lia. destruct l; simpl; lia.
Qed.

Lemma run_ops_represents os d l :
  represents d l → Z.of_nat (length l + length os) < 2 ^ 60 →
  (run_ops run_op os d).1 = (run_ops spec_op os l).1 ∧
  represents (run_ops run_op os d).2 (run_ops spec_op os l).2.
Proof.
  revert d l. induction os as [|o os IH]; intros d l Hr Hs; [done|]. simpl in *.
  destruct (run_op_represents o d l Hr ltac:(lia)) as [Ho Hr']. pose proof (spec_op_length o l).
  destruct (run_op o d) as [r d'], (spec_op o l) as [r' l']. simpl in *. subst r'.
  destruct (IH d' l' Hr' ltac:(lia)) as [Hos Hr''].
  destruct (run_ops run_op os d') as [rs e], (run_ops spec_op os l') as [rs' e']. simpl in *.
  split; [by f_equal|done].
Qed.

(** The deque is a sequence: created with any capacity up to 2^60, it gives in
    every history of fewer than 2^60 PushBack, PushFront, PopBack and PopFront calls the
    answers of the same calls on a list, Len is the length of that list, and no index of
    the circular slice leaves it; growing (doubling a full buffer whose
    contents wrap around) loses and reorders nothing. *)
Theorem deque_refines_list (c : Z) (os : list DequeOp) :
  c ≤ 2 ^ 60 → Z.of_nat (length os) < 2 ^ 60 →
  let d := (run_ops run_op os (New c)).2 in
  let l := (run_ops spec_op os []).2 in
  (run_ops run_op os (New c)).1 = (run_ops spec_op os []).1 ∧
  Len d = Z.of_nat (length l) ∧
  0 ≤ head d < len (buf d) ∧ 0 ≤ tail d < len (buf d) ∧ count d ≤ len (buf d).
Proof.
  intros Hc Hos d l.
  destruct (run_ops_represents os (New c) [] (deque_New_represents c Hc) Hos) as [Ha Hr].
  fold d l in Hr. pose proof (represents_bounds d l Hr). destruct Hr as (_ & _ & Hcnt & _).
  unfold Len. split_and!; [done|done|lia..].
Qed.
End deque.

Lemma deque_refines_list_witness :
  let os := [PushBackOp 1; PushFrontOp 2; PushBackOp 3; PopFrontOp; PushBackOp 4; PopBackOp;
             PushFrontOp 5; PopBackOp; PopBackOp; PopBackOp; PopBackOp] in
  (run_ops (run_op 0) os (New 0 1)).1 =
    [None; None; None; Some 2; None; Some 4; None; Some 3; Some 1; Some 5; None].
Proof.
  intros os. destruct (deque_refines_list 0 1 os ltac:(lia) ltac:(subst os; simpl; lia)) as [-> _].
  reflexivity.
Defined.
