(* ===== verification/Ring.v ===== *)
(** * pkg/datastructures/queue/ring

    The bounded queue between producers and consumers.  The two condition variables are
    part of the buffer's state: how many goroutines wait on each, and how many have been
    signalled and have yet to run the loop test again.  [Enqueue] and [Dequeue] run, under
    the lock, up to their return or up to the call of [Wait] that parks the goroutine; a
    signalled goroutine runs the same code again.  Which waiter a signal wakes is
    not specified by package sync, and neither is it here. *)

From S2P Require Import Prelude Errors Circular.
From stdpp Require Import relations options.
Open Scope Z_scope.

(* src: pkg/datastructures/queue/ring/ring.go 9-9 ErrBufferFull *)
Definition ErrBufferFull : error := ResourceExhausted "ring buffer is full" None.
(* src: pkg/datastructures/queue/ring/ring.go 10-10 ErrBufferEmpty *)
Definition ErrBufferEmpty : error := FailedPrecondition "ring buffer is empty" None.

(** [sync.Cond]: the goroutines parked in [Wait], and those a [Signal] has released. *)
Record Cond := { waiting : nat; woken : nat }.

Definition NewCond : Cond := {| waiting := 0; woken := 0 |}.
Definition Wait (c : Cond) : Cond := {| waiting := S (waiting c); woken := woken c |}.
Definition Signal (c : Cond) : Cond :=
  match waiting c with
  | O => c
  | S n => {| waiting := n; woken := S (woken c) |}
  end.
Definition resume (c : Cond) : Cond := {| waiting := waiting c; woken := pred (woken c) |}.

(** Where a run of a blocking method ends. *)
Inductive run B A := Parked (b : B) | Returned (b : B) (a : A).
Arguments Parked {_ _} _.
Arguments Returned {_ _} _ _.

Section ring.
Context {T : Type} (zero : T).

(* src: pkg/datastructures/queue/ring/ring.go 12-22 Buffer *)
Record Buffer :=
  { buf : list T; head : Z; tail : Z; count : Z; size : Z; notEmpty : Cond; notFull : Cond }.

(* src: pkg/datastructures/queue/ring/ring.go 24-36 New *)
Definition New (size : Z) : Buffer :=
  let size := if decide (size ≤ 0) then 1 else size in
  {| buf := replicate (Z.to_nat size) zero; head := 0; tail := 0; count := 0; size := size;
     notEmpty := NewCond; notFull := NewCond |}.

(* src: pkg/datastructures/queue/ring/ring.go 38-51 Enqueue *)
Definition Enqueue (item : T) (b : Buffer) : run Buffer unit :=
  if decide (count b = size b) then
    Parked {| buf := buf b; head := head b; tail := tail b; count := count b; size := size b;
              notEmpty := notEmpty b; notFull := Wait (notFull b) |}
  else
    Returned {| buf := <[Z.to_nat (tail b) := item]> (buf b); head := head b;
                tail := Z.rem (i64 (tail b + 1)) (size b); count := i64 (count b + 1);
                size := size b; notEmpty := Signal (notEmpty b); notFull := notFull b |} tt.

(* src: pkg/datastructures/queue/ring/ring.go 53-67 TryEnqueue *)
Definition TryEnqueue (item : T) (b : Buffer) : option error * Buffer :=
  if decide (count b = size b) then (Some ErrBufferFull, b)
  else
    (None, {| buf := <[Z.to_nat (tail b) := item]> (buf b); head := head b;
              tail := Z.rem (i64 (tail b + 1)) (size b); count := i64 (count b + 1);
              size := size b; notEmpty := Signal (notEmpty b); notFull := notFull b |}).

(* src: pkg/datastructures/queue/ring/ring.go 69-85 Dequeue *)
Definition Dequeue (b : Buffer) : run Buffer T :=
  if decide (count b = 0) then
    Parked {| buf := buf b; head := head b; tail := tail b; count := count b; size := size b;
              notEmpty := Wait (notEmpty b); notFull := notFull b |}
  else
    Returned {| buf := buf b; head := Z.rem (i64 (head b + 1)) (size b); tail := tail b;
                count := i64 (count b - 1); size := size b;
                notEmpty := notEmpty b; notFull := Signal (notFull b) |}
             (default zero (buf b !! Z.to_nat (head b))).

(* src: pkg/datastructures/queue/ring/ring.go 87-102 TryDequeue *)
Definition TryDequeue (b : Buffer) : (error + T) * Buffer :=
  if decide (count b = 0) then (inl ErrBufferEmpty, b)
  else
    (inr (default zero (buf b !! Z.to_nat (head b))),
     {| buf := buf b; head := Z.rem (i64 (head b + 1)) (size b); tail := tail b;
        count := i64 (count b - 1); size := size b;
        notEmpty := notEmpty b; notFull := Signal (notFull b) |}).

(* src: pkg/datastructures/queue/ring/ring.go 104-109 Len *)
Definition Len (b : Buffer) : Z := count b.
(* src: pkg/datastructures/queue/ring/ring.go 111-114 Cap *)
Definition Cap (b : Buffer) : Z := size b.

(** ** The queue a buffer stands for *)

Definition represents (b : Buffer) (l : list T) : Prop :=
  size b = Z.of_nat (length (buf b)) ∧ 0 < size b < 2 ^ 63 ∧ holds (buf b) (head b) l ∧
  count b = Z.of_nat (length l) ∧ tail b = (head b + count b) mod size b.

Lemma represents_range b l :
  represents b l → 0 ≤ head b < size b ∧ 0 ≤ tail b < size b ∧ 0 ≤ count b ≤ size b.
Proof.
  intros (Hs & Hp & (Hh & Hl & _) & Hc & ->).
  pose proof (Z.mod_pos_bound (head b + count b) (size b) ltac:(lia)). lia.
Qed.

Lemma ring_New_represents s : s < 2 ^ 63 → represents (New s) [].
Proof.
  intros Hs. unfold New, represents, holds. cbn [buf head tail count size].
  rewrite length_replicate. case_decide; cbn [length]; split_and!; try lia; try done;
  by rewrite Z.mod_0_l by lia.
Qed.

Lemma Enqueue_run item b l :
  represents b l →
  match Enqueue item b with
  | Parked b' => length l = Z.to_nat (size b) ∧ represents b' l ∧
      notEmpty b' = notEmpty b ∧ notFull b' = Wait (notFull b) ∧ size b' = size b
  | Returned b' _ => (length l < Z.to_nat (size b))%nat ∧ represents b' (l ++ [item]) ∧
      notEmpty b' = Signal (notEmpty b) ∧ notFull b' = notFull b ∧ size b' = size b
  end.
Proof.
  intros Hr. pose proof (represents_range b l Hr) as (Hh & Ht & Hc). unfold Enqueue.
  case_decide as Hfull.
  { split_and!; try done. destruct Hr as (_ & _ & _ & Hcnt & _). lia. }
  destruct Hr as (Hs & Hp & Hold & Hcnt & Htl). rewrite !i64_id by (unfold is_i64; lia).
  split; [lia|]. split; [|done]. unfold represents. cbn [buf head tail count size].
  rewrite length_insert, length_app. cbn [length]. split_and!; try lia.
  - replace (Z.to_nat (tail b)) with (slot (head b) (Z.of_nat (length (buf b))) (Z.of_nat (length l)))
      by (unfold slot; rewrite Htl, Hcnt, Hs; done).
    apply holds_snoc; [done|lia].
  - rewrite Z.rem_mod_nonneg, Htl, Zplus_mod_idemp_l by lia. f_equal. lia.
Qed.

Lemma Dequeue_run b l :
  represents b l →
  match Dequeue b with
  | Parked b' => l = [] ∧ represents b' l ∧
      notEmpty b' = Wait (notEmpty b) ∧ notFull b' = notFull b ∧ size b' = size b
  | Returned b' v => ∃ l', l = v :: l' ∧ represents b' l' ∧
      notEmpty b' = notEmpty b ∧ notFull b' = Signal (notFull b) ∧ size b' = size b
  end.
Proof.
  intros Hr. pose proof (represents_range b l Hr) as (Hh & Ht & Hc). unfold Dequeue.
  case_decide as Hemp.
  { split_and!; try done. destruct Hr as (_ & _ & _ & Hcnt & _). destruct l; [done|simpl in *; lia]. }
  destruct Hr as (Hs & Hp & Hold & Hcnt & Htl). destruct l as [|v l]; [done|].
  rewrite !i64_id by (unfold is_i64; lia). exists l. rewrite (holds_head zero _ _ _ _ Hold).
  split; [done|]. split; [|done]. unfold represents. cbn [buf head tail count size].
  cbn [length] in Hcnt. rewrite Z.rem_mod_nonneg by lia. split_and!; try lia.
  - rewrite Hs. by eapply holds_tail'.
  - rewrite Htl, Zplus_mod_idemp_l. f_equal. lia.
Qed.

(** The non-blocking methods are the blocking ones with an error in place of [Wait]. *)
Lemma TryEnqueue_Enqueue item b :
  TryEnqueue item b =
    match Enqueue item b with Parked _ => (Some ErrBufferFull, b) | Returned b' _ => (None, b') end.
Proof. unfold TryEnqueue, Enqueue. by case_decide. Qed.

Lemma TryDequeue_Dequeue b :
  TryDequeue b =
    match Dequeue b with Parked _ => (inl ErrBufferEmpty, b) | Returned b' v => (inr v, b') end.
Proof. unfold TryDequeue, Dequeue. by case_decide. Qed.

(** ** Producers and consumers *)

(** The buffer, the items of the producers inside [Enqueue], and what has been
    enqueued and dequeued so far, in order. *)
Record Sys := { ring : Buffer; producers : list T; enqueued : list T; dequeued : list T }.

Definition init (s : Z) : Sys :=
  {| ring := New s; producers := []; enqueued := []; dequeued := [] |}.

Definition ran_enqueue (item : T) (others : list T) (s : Sys) (r : run Buffer unit) : Sys :=
  match r with
  | Parked b => {| ring := b; producers := item :: others;
                   enqueued := enqueued s; dequeued := dequeued s |}
  | Returned b _ => {| ring := b; producers := others;
                       enqueued := enqueued s ++ [item]; dequeued := dequeued s |}
  end.

Definition ran_dequeue (s : Sys) (r : run Buffer T) : Sys :=
  match r with
  | Parked b => {| ring := b; producers := producers s;
                   enqueued := enqueued s; dequeued := dequeued s |}
  | Returned b v => {| ring := b; producers := producers s;
                       enqueued := enqueued s; dequeued := dequeued s ++ [v] |}
  end.

Definition resume_notFull (b : Buffer) : Buffer :=
  {| buf := buf b; head := head b; tail := tail b; count := count b; size := size b;
     notEmpty := notEmpty b; notFull := resume (notFull b) |}.
Definition resume_notEmpty (b : Buffer) : Buffer :=
  {| buf := buf b; head := head b; tail := tail b; count := count b; size := size b;
     notEmpty := resume (notEmpty b); notFull := notFull b |}.

Inductive step : Sys → Sys → Prop :=
  | enqueue_calls s item :
      step s (ran_enqueue item (producers s) s (Enqueue item (ring s)))
  | enqueue_resumes s item ps ps' :
      (0 < woken (notFull (ring s)))%nat → producers s = ps ++ item :: ps' →
      step s (ran_enqueue item (ps ++ ps') s (Enqueue item (resume_notFull (ring s))))
  | tryEnqueue_calls s item b :
      TryEnqueue item (ring s) = (None, b) →
      step s (ran_enqueue item (producers s) s (Returned b tt))
  | dequeue_calls s : step s (ran_dequeue s (Dequeue (ring s)))
  | dequeue_resumes s :
      (0 < woken (notEmpty (ring s)))%nat →
      step s (ran_dequeue s (Dequeue (resume_notEmpty (ring s))))
  | tryDequeue_calls s b v :
      TryDequeue (ring s) = (inr v, b) → step s (ran_dequeue s (Returned b v)).

(** A parked goroutine is waiting on the condition it needs or about to run. *)
Definition sys_inv (n : Z) (s : Sys) : Prop :=
  ∃ l, represents (ring s) l ∧ size (ring s) = n ∧ enqueued s = dequeued s ++ l ∧
    length (producers s) = (waiting (notFull (ring s)) + woken (notFull (ring s)))%nat ∧
    ((0 < waiting (notFull (ring s)))%nat →
       (Z.to_nat n ≤ length l + woken (notFull (ring s)))%nat) ∧
    ((0 < waiting (notEmpty (ring s)))%nat → (length l ≤ woken (notEmpty (ring s)))%nat).

Ltac conds := unfold Signal, Wait, resume in *; simpl in *; repeat case_match; simpl in *.

Lemma enqueue_inv n s l item others b0 :
  represents b0 l → size b0 = n → enqueued s = dequeued s ++ l →
  length others = (waiting (notFull b0) + woken (notFull b0))%nat →
  ((0 < waiting (notFull b0))%nat → (Z.to_nat n ≤ S (length l + woken (notFull b0)))%nat) →
  ((0 < waiting (notEmpty b0))%nat → (length l ≤ woken (notEmpty b0))%nat) →
  sys_inv n (ran_enqueue item others s (Enqueue item b0)).
Proof.
  intros Hr Hn He Hlen Hf Hc. pose proof (Enqueue_run item b0 l Hr) as Hrun.
  destruct (Enqueue item b0) as [b'|b' ?]; destruct Hrun as (Hl & Hr' & Hne & Hnf & Hsz).
  - exists l. simpl. rewrite Hnf, Hne. split_and!; [done|congruence|done|conds; lia|lia|done].
  - exists (l ++ [item]). simpl. rewrite Hnf, Hne, length_app.
    split_and!; [done|congruence|by rewrite He, (assoc_L (++))|done|simpl; lia|conds; lia].
Qed.

Lemma dequeue_inv n s l b0 :
  represents b0 l → size b0 = n → enqueued s = dequeued s ++ l →
  length (producers s) = (waiting (notFull b0) + woken (notFull b0))%nat →
  ((0 < waiting (notFull b0))%nat → (Z.to_nat n ≤ length l + woken (notFull b0))%nat) →
  ((0 < waiting (notEmpty b0))%nat → (length l ≤ S (woken (notEmpty b0)))%nat) →
  sys_inv n (ran_dequeue s (Dequeue b0)).
Proof.
  intros Hr Hn He Hlen Hf Hc. pose proof (Dequeue_run b0 l Hr) as Hrun.
  destruct (Dequeue b0) as [b'|b' v].
  - destruct Hrun as (-> & Hr' & Hne & Hnf & Hsz). exists []. simpl. rewrite Hnf, Hne.
    split_and!; [done|congruence|done|done|done|simpl; lia].
  - destruct Hrun as (l' & -> & Hr' & Hne & Hnf & Hsz). exists l'. simpl. rewrite Hnf, Hne.
    split_and!; [done|congruence|by rewrite He, <- (assoc_L (++))|conds; lia|conds; lia|].
    simpl in Hc. lia.
Qed.

Lemma ring_step_inv n s s' : step s s' → sys_inv n s → sys_inv n s'.
Proof.
  intros Hstep (l & Hr & Hn & He & Hlen & Hf & Hc). destruct Hstep as
    [s item|s item ps ps' Hw Hps|s item b Ht|s|s Hw|s b v Ht].
  - apply enqueue_inv with l; try done; lia.
  - rewrite Hps, length_app in Hlen. simpl in Hlen.
    apply enqueue_inv with l; simpl; rewrite ?length_app; try done; simpl; lia.
  - rewrite TryEnqueue_Enqueue in Ht. destruct (Enqueue item (ring s)) as [|b' []] eqn:E; [done|].
    injection Ht as <-. rewrite <- E. apply enqueue_inv with l; try done; lia.
  - apply dequeue_inv with l; try done; lia.
  - apply dequeue_inv with l; simpl; try done; lia.
  - rewrite TryDequeue_Dequeue in Ht. destruct (Dequeue (ring s)) as [|b' w] eqn:E; [done|].
    injection Ht as <- <-. rewrite <- E. apply dequeue_inv with l; try done; lia.
Qed.

Lemma ring_reachable_inv n s : 0 < n < 2 ^ 63 → rtc step (init n) s → sys_inv n s.
Proof.
  intros Hn Hs. apply (rtc_ind_r (λ s, sys_inv n s) (init n)) in Hs; [done| |].
  - exists []. simpl. split_and!; try done; try lia; [apply ring_New_represents; lia|].
    unfold New. simpl. by rewrite decide_False by lia.
  - intros x y _ Hxy Hx. by eapply ring_step_inv.
Qed.

(** C37. In every interleaving of Enqueue, TryEnqueue, Dequeue and TryDequeue calls with
    blocked calls being signalled and run again, the ring buffer is a bounded FIFO queue
    (the items dequeued are, in order, a prefix of the items enqueued, and the rest, at
    most the capacity, is in the buffer) and no wake-up is lost: when a producer waits and
    none has been signalled the buffer is full, when a consumer waits and none has been
    signalled it is empty, so producers and consumers never block each other for good. *)
Theorem ring_fifo_no_lost_wakeup (n : Z) (s : Sys) :
  0 < n < 2 ^ 63 → rtc step (init n) s →
  (∃ l, enqueued s = dequeued s ++ l ∧ Len (ring s) = Z.of_nat (length l) ∧
        Len (ring s) ≤ Cap (ring s) ∧ Cap (ring s) = n) ∧
  (waiting (notFull (ring s)) ≠ 0%nat → woken (notFull (ring s)) = 0%nat → Len (ring s) = n) ∧
  (waiting (notEmpty (ring s)) ≠ 0%nat → woken (notEmpty (ring s)) = 0%nat → Len (ring s) = 0) ∧
  (waiting (notFull (ring s)) ≠ 0%nat → waiting (notEmpty (ring s)) ≠ 0%nat →
     (0 < woken (notFull (ring s)) + woken (notEmpty (ring s)))%nat).
Proof.
  intros Hn Hs. destruct (ring_reachable_inv n s Hn Hs) as (l & Hr & Hsz & He & Hlen & Hf & Hc).
  pose proof (represents_range _ _ Hr) as (_ & _ & Hcnt).
  destruct Hr as (_ & _ & _ & Hcl & _). unfold Len, Cap. split_and!; [|lia..].
  exists l. split_and!; [done|lia|lia|done].
Qed.
End ring.

(** A full buffer of one slot, a producer waiting on it, and a consumer that takes the
    item and wakes the producer. *)
Lemma ring_fifo_no_lost_wakeup_witness :
  ∃ s : Sys (T := Z), rtc (step 0) (init 0 1) s ∧ dequeued s = [7] ∧
    woken (notFull (ring s)) = 1%nat ∧ ∃ l, enqueued s = dequeued s ++ l.
Proof.
  assert (∃ s : Sys (T := Z), rtc (step 0) (init 0 1) s ∧ dequeued s = [7] ∧
    woken (notFull (ring s)) = 1%nat) as (s & Hs & Hd & Hw).
  { eexists. split; [|].
    - eapply rtc_l; [apply (enqueue_calls 0 _ 7)|]. eapply rtc_l; [apply (enqueue_calls 0 _ 8)|].
      eapply rtc_l; [apply (dequeue_calls 0)|]. apply rtc_refl.
    - vm_compute. done. }
  exists s. split_and!; [done|done|done|].
  destruct (ring_fifo_no_lost_wakeup 0 1 s ltac:(lia) Hs) as [(l & Hl & _) _]. by exists l.
Defined.
