(* ===== verification/TimerWheel.v ===== *)
(** * pkg/datastructures/timer/wheel

    The hashed timer wheel.  [Schedule] and [tick] run under the lock; the callbacks that a tick
    starts are its answer.  The ticker and the goroutine that waits for it are the environment:
    a turn of the loop is a step that may come at any time.  An index out of range and a
    division by zero are [None]. *)

From S2P Require Import Prelude.
From stdpp Require Import options.
Open Scope Z_scope.
#[local] Set Default Proof Using "Type*".

(* src: pkg/datastructures/timer/wheel/hashedwheel.go 20-23 task *)
Record task (A : Type) := Task { rounds : Z; callback : A }.
Arguments Task {A} _ _.
Arguments rounds {A} _.
Arguments callback {A} _.

(** [loops] counts the goroutines that [Start] started and that run; [stopped] says whether the
    channel [stop] is closed. *)
(* src: pkg/datastructures/timer/wheel/hashedwheel.go 9-18 Timer *)
Record Timer (A : Type) := {
  tickDuration : Z; wheelSize : Z; wheel : list (list (task A)); currentTick : Z; stopped : bool; loops : nat
}.
Arguments tickDuration {A} _.
Arguments wheelSize {A} _.
Arguments wheel {A} _.
Arguments currentTick {A} _.
Arguments stopped {A} _.
Arguments loops {A} _.

Section wheel.
  Context {A : Type}.
  Implicit Types (t : Timer A) (l : list (task A)).

Definition set_wheel (w : list (list (task A))) (cur : Z) t : Timer A :=
  {| tickDuration := tickDuration t; wheelSize := wheelSize t; wheel := w; currentTick := cur; stopped := stopped t; loops := loops t |}.
Definition set_loops (s : bool) (n : nat) t : Timer A :=
  {| tickDuration := tickDuration t; wheelSize := wheelSize t; wheel := wheel t; currentTick := currentTick t; stopped := s; loops := n |}.

(* src: pkg/datastructures/timer/wheel/hashedwheel.go 25-38 New *)
Definition New (tick size : Z) : option (Timer A) :=
  if decide (size < 0) then None
  else Some {| tickDuration := tick; wheelSize := size; wheel := replicate (Z.to_nat size) []; currentTick := 0; stopped := false; loops := 0 |}.

(* src: pkg/datastructures/timer/wheel/hashedwheel.go 53-70 Schedule *)
Definition Schedule (d : Z) (cb : A) t : option (Timer A) :=
  if decide (tickDuration t = 0) then None else
  let ticks := i64 (Z.quot d (tickDuration t)) in
  let ticks := if decide (ticks < 0) then 0 else ticks in
  if decide (wheelSize t = 0) then None else
  let rounds := Z.quot ticks (wheelSize t) in
  let bucket := Z.rem (i64 (currentTick t + ticks)) (wheelSize t) in
  if decide (bucket < 0) then None else
  l ← wheel t !! Z.to_nat bucket;
  Some (set_wheel (<[Z.to_nat bucket := l ++ [Task rounds cb]]> (wheel t)) (currentTick t) t).

(** The loop over the list of the bucket: the callbacks started and the tasks that stay. *)
(* src: pkg/datastructures/timer/wheel/hashedwheel.go 91-101 tick *)
Fixpoint tick_loop l : list A * list (task A) :=
  match l with
  | [] => ([], [])
  | tsk :: l =>
      let '(fired, kept) := tick_loop l in
      if decide (0 < rounds tsk) then (fired, Task (rounds tsk - 1) (callback tsk) :: kept)
      else (callback tsk :: fired, kept)
  end.

(* src: pkg/datastructures/timer/wheel/hashedwheel.go 87-104 tick *)
Definition tick t : option (list A * Timer A) :=
  if decide (currentTick t < 0) then None else
  bucket ← wheel t !! Z.to_nat (currentTick t);
  let '(fired, kept) := tick_loop bucket in
  Some (fired, set_wheel (<[Z.to_nat (currentTick t) := kept]> (wheel t)) (Z.rem (i64 (currentTick t + 1)) (wheelSize t)) t).

(* src: pkg/datastructures/timer/wheel/hashedwheel.go 41-44 Start *)
Definition Start t : Timer A := set_loops (stopped t) (S (loops t)) t.

(** Closing a closed channel panics.  [Stop] returns when no loop runs. *)
(* src: pkg/datastructures/timer/wheel/hashedwheel.go 47-50 Stop *)
Definition Stop t : option (Timer A) := if stopped t then None else Some (set_loops true (loops t) t).

(** A turn of a loop: the ticker has fired, or the channel is closed; [select] may choose either
    when both is the case. *)
(* src: pkg/datastructures/timer/wheel/hashedwheel.go 72-85 loop *)
Definition loop_turn (ticker : bool) t : option (list A * Timer A) :=
  match loops t with
  | O => Some ([], t)
  | S n =>
      if ticker then tick t
      else if stopped t then Some ([], set_loops true n t) else Some ([], t)
  end.

(** ** What it promises *)

(** The number of ticks so far, and the callbacks that wait with the number of the tick at which
    each is due, in the order in which they were scheduled. *)
Record agenda := { now : Z; waiting : list (Z * A) }.

Definition ticks_of (tick d : Z) : Z := Z.max 0 (Z.quot d tick).

Inductive wheel_op := OpSchedule (d : Z) (cb : A) | OpTurn (ticker : bool) | OpStart | OpStop.

Definition wheel_step (o : wheel_op) t : option (list A * Timer A) :=
  match o with
  | OpSchedule d cb => t ← Schedule d cb t; Some ([], t)
  | OpTurn ticker => loop_turn ticker t
  | OpStart => Some ([], Start t)
  | OpStop => t ← Stop t; Some ([], t)
  end.

(** How many calls of [Stop] there are. *)
Fixpoint stops (ops : list wheel_op) : nat :=
  match ops with [] => 0 | OpStop :: ops => S (stops ops) | _ :: ops => stops ops end.

(** A tick starts exactly what is due at it. *)
Definition agenda_step (tick : Z) (o : wheel_op) (ticks : bool) (a : agenda) : list A * agenda :=
  match o with
  | OpSchedule d cb => ([], {| now := now a; waiting := waiting a ++ [(now a + ticks_of tick d, cb)] |})
  | OpTurn _ =>
      if ticks then
        ((filter (λ e, e.1 = now a) (waiting a)).*2,
         {| now := now a + 1; waiting := filter (λ e, e.1 ≠ now a) (waiting a) |})
      else ([], a)
  | _ => ([], a)
  end.

Fixpoint run (ops : list wheel_op) t (a : agenda) : option (list (list A) * list (list A) * Timer A * agenda) :=
  match ops with
  | [] => Some ([], [], t, a)
  | o :: ops =>
      let ticks := match o with OpTurn true => bool_decide (0 < loops t)%nat | _ => false end in
      '(f, t') ← wheel_step o t;
      let '(g, a') := agenda_step (tickDuration t) o ticks a in
      '(fs, gs, t', a') ← run ops t' a';
      Some (f :: fs, g :: gs, t', a')
  end.

(** ** It keeps it *)

Definition slot (size n : Z) (b : Z) (ws : list (Z * A)) : list (task A) :=
  (λ e, Task ((e.1 - n) / size) e.2) <$> filter (λ e, e.1 mod size = b) ws.

Definition agrees t (a : agenda) : Prop :=
  0 < tickDuration t < 2 ^ 63 ∧ 0 < wheelSize t < 2 ^ 62 ∧ length (wheel t) = Z.to_nat (wheelSize t) ∧
  0 ≤ now a ∧ currentTick t = now a mod wheelSize t ∧ Forall (λ e, now a ≤ e.1) (waiting a) ∧
  ∀ b, 0 ≤ b < wheelSize t → wheel t !! Z.to_nat b = Some (slot (wheelSize t) (now a) b (waiting a)).

Lemma agrees_loops t a s n : agrees t a → agrees (set_loops s n t) a.
Proof. done. Qed.

Lemma wheel_insert t b l c : 0 ≤ b → 0 ≤ c → (Z.to_nat b < length (wheel t))%nat →
  <[Z.to_nat b := l]> (wheel t) !! Z.to_nat c = if decide (c = b) then Some l else wheel t !! Z.to_nat c.
Proof.
  intros Hb Hc Hl. destruct (decide (c = b)) as [->|Hne]; [by rewrite list_lookup_insert_eq|]. rewrite list_lookup_insert_ne; [done|lia].
Qed.

Lemma Schedule_agrees t a d cb : agrees t a → is_i64 d → ticks_of (tickDuration t) d < 2 ^ 62 →
  ∃ t', Schedule d cb t = Some t' ∧ tickDuration t' = tickDuration t ∧ wheelSize t' = wheelSize t ∧ stopped t' = stopped t ∧
    agrees t' {| now := now a; waiting := waiting a ++ [(now a + ticks_of (tickDuration t) d, cb)] |}.
Proof.
  intros (Ht & Hs & Hl & Hn & Hc & Hw & Hb) Hd Hk. unfold Schedule. rewrite decide_False by lia.
  assert (i64 (Z.quot d (tickDuration t)) = Z.quot d (tickDuration t)) as ->.
  { apply i64_id. unfold is_i64 in *. assert (Z.abs (d ÷ tickDuration t) ≤ Z.abs d); [|].
    - rewrite <- Z.quot_abs by lia. apply Z.quot_le_upper_bound; nia.
    - assert (d = -2 ^ 63 ∨ Z.abs d < 2 ^ 63) as [->|] by lia; [|lia]. split; [lia|]. enough (-2 ^ 63 ÷ tickDuration t ≤ 0) by lia.
      apply Z.quot_le_upper_bound; lia. }
  unfold ticks_of in *. set (k := Z.quot d (tickDuration t)) in *.
  assert ((if decide (k < 0) then 0 else k) = Z.max 0 k) as -> by (destruct (decide _); lia). set (n := Z.max 0 k) in *.
  assert (0 ≤ n) by lia. pose proof (Z.mod_pos_bound (now a) (wheelSize t)) as Hcb.
  rewrite decide_False by lia. rewrite i64_id by (unfold is_i64; lia). rewrite Z.rem_mod_nonneg, Z.quot_div_nonneg by lia.
  assert ((currentTick t + n) mod wheelSize t = (now a + n) mod wheelSize t) as -> by (by rewrite Hc, Zplus_mod_idemp_l).
  set (b := (now a + n) mod wheelSize t). pose proof (Z.mod_pos_bound (now a + n) (wheelSize t)) as Hbb. fold b in Hbb.
  rewrite decide_False by lia. rewrite Hb by lia. cbn [mbind option_bind]. eexists. split; [reflexivity|]. split_and!; [done|done|done|].
  split_and!; cbn [set_wheel tickDuration wheelSize wheel currentTick now waiting]; [lia|lia|lia|lia|by rewrite length_insert|done|done|..].
  - apply Forall_app. split; [done|]. apply Forall_singleton. cbn. lia.
  - intros c Hcr. rewrite wheel_insert by lia. unfold slot. rewrite filter_app. destruct (decide (c = b)) as [->|Hne].
    + rewrite (filter_cons_True _ _ []) by done. rewrite fmap_app. cbn. by replace (now a + n - now a) with n by lia.
    + rewrite (filter_cons_False _ _ []) by (cbn; fold b; done). rewrite app_nil_r. by apply Hb.
Qed.

Lemma tick_loop_spec size n ws : 0 < size → Forall (λ e : Z * A, n ≤ e.1) ws →
  tick_loop (slot size n (n mod size) ws) = ((filter (λ e, e.1 = n) ws).*2, slot size (n + 1) (n mod size) (filter (λ e, e.1 ≠ n) ws)).
Proof.
  intros Hs. unfold slot. induction 1 as [|[D cb] ws HD _ IH]; [done|]. cbn [fst] in HD.
  destruct (decide (D mod size = n mod size)) as [E|E].
  - rewrite (filter_cons_True _ (D, cb)) by done. rewrite fmap_cons. cbn [tick_loop]. rewrite IH. cbn [rounds callback fst snd].
    destruct (decide (D = n)) as [->|Hne].
    + rewrite Z.sub_diag, Z.div_0_l, decide_False by lia. rewrite (filter_cons_True (λ e, e.1 = n)) by done.
      by rewrite (filter_cons_False (λ e, e.1 ≠ n)) by (cbn; lia).
    + assert (∃ k, D = n + k * size ∧ 0 < k) as (k & -> & Hk).
      { exists (D / size - n / size). pose proof (Z.div_mod D size). pose proof (Z.div_mod n size). split; [lia|]. nia. }
      replace (n + k * size - n) with (k * size) by lia. rewrite Z.div_mul, decide_True by lia.
      rewrite (filter_cons_False (λ e, e.1 = n)) by done. rewrite (filter_cons_True (λ e, e.1 ≠ n)) by done.
      rewrite (filter_cons_True (λ e, e.1 mod size = n mod size)) by done. rewrite fmap_cons. cbn [fst snd].
      replace ((n + k * size - (n + 1)) / size) with (k - 1); [done|].
      apply (Z.div_unique _ _ _ (size - 1)); lia.
  - rewrite (filter_cons_False _ (D, cb)) by done. rewrite IH. assert (D ≠ n) as Hne by (by intros ->).
    rewrite (filter_cons_False (λ e, e.1 = n)) by done. rewrite (filter_cons_True (λ e, e.1 ≠ n)) by done.
    by rewrite (filter_cons_False (λ e, e.1 mod size = n mod size)) by done.
Qed.

(** In the other slots nothing is due, and the rounds stay. *)
Lemma slot_next size n b ws : 0 < size → b ≠ n mod size → Forall (λ e : Z * A, n ≤ e.1) ws →
  slot size (n + 1) b (filter (λ e, e.1 ≠ n) ws) = slot size n b ws.
Proof.
  intros Hs Hb. unfold slot. induction 1 as [|[D cb] ws HD _ IH]; [done|]. cbn [fst] in HD. destruct (decide (D = n)) as [->|Hne].
  - rewrite (filter_cons_False (λ e, e.1 ≠ n)) by (cbn; lia). by rewrite IH, (filter_cons_False (λ e, e.1 mod size = b)) by done.
  - rewrite (filter_cons_True (λ e, e.1 ≠ n)) by done. destruct (decide (D mod size = b)) as [E|E].
    + rewrite !(filter_cons_True (λ e, e.1 mod size = b)) by done. rewrite !fmap_cons, IH. cbn [fst snd]. f_equal. f_equal.
      pose proof (Z.div_mod (D - n) size). pose proof (Z.mod_pos_bound (D - n) size).
      assert ((D - n) mod size ≠ 0). { intros E0. apply Hb. rewrite <- E. rewrite <- (Zplus_0_r n), <- E0, Zplus_mod_idemp_r. f_equal. lia. }
      symmetry. apply (Z.div_unique _ _ _ ((D - n) mod size - 1)); lia.
    + by rewrite !(filter_cons_False (λ e, e.1 mod size = b)) by done.
Qed.

Lemma tick_agrees t a : agrees t a → ∃ t', tick t = Some ((filter (λ e, e.1 = now a) (waiting a)).*2, t') ∧
  tickDuration t' = tickDuration t ∧ stopped t' = stopped t ∧
  agrees t' {| now := now a + 1; waiting := filter (λ e, e.1 ≠ now a) (waiting a) |}.
Proof.
  intros (Ht & Hs & Hl & Hn & Hc & Hw & Hb). pose proof (Z.mod_pos_bound (now a) (wheelSize t)) as Hcb. unfold tick. rewrite Hc.
  rewrite decide_False by lia. rewrite Hb by lia. cbn [mbind option_bind]. rewrite tick_loop_spec by (done || lia).
  eexists. split; [reflexivity|]. split_and!; [done|done|].
  split_and!; cbn [set_wheel tickDuration wheelSize wheel currentTick now waiting]; [lia|lia|lia|lia|by rewrite length_insert|lia|..].
  - rewrite i64_id by (unfold is_i64; lia). rewrite Z.rem_mod_nonneg by lia. by rewrite Zplus_mod_idemp_l.
  - apply Forall_forall. intros e [Hne He]%list_elem_of_filter. rewrite Forall_forall in Hw. specialize (Hw e He). lia.
  - intros b Hbr. rewrite wheel_insert by lia. destruct (decide (b = now a mod wheelSize t)) as [->|Hne]; [done|].
    rewrite Hb, slot_next by (done || lia). done.
Qed.

Lemma step_agrees t a o : agrees t a → stopped t = false ∨ (o ≠ OpStop) →
  (∀ d cb, o = OpSchedule d cb → is_i64 d ∧ ticks_of (tickDuration t) d < 2 ^ 62) →
  ∃ f t1 a1, wheel_step o t = Some (f, t1) ∧ tickDuration t1 = tickDuration t ∧
    agenda_step (tickDuration t) o (match o with OpTurn true => bool_decide (0 < loops t)%nat | _ => false end) a = (f, a1) ∧
    agrees t1 a1 ∧ stopped t1 = match o with OpStop => true | _ => stopped t end.
Proof.
  intros Hag Hst Ho. destruct o as [d cb|ticker| |]; cbn [wheel_step agenda_step].
  - destruct (Ho d cb) as [Hd Hk]; [done|]. destruct (Schedule_agrees t a d cb Hag Hd Hk) as (t1 & -> & E1 & _ & E2 & Hag1).
    cbn. eexists [], t1, _. by split_and!.
  - unfold loop_turn. destruct (loops t) as [|n] eqn:El; [exists [], t, a; by destruct ticker|]. destruct ticker.
    + rewrite bool_decide_eq_true_2 by lia. destruct (tick_agrees t a Hag) as (t1 & -> & E1 & E2 & Hag1). eexists _, t1, _. by split_and!.
    + destruct (stopped t) eqn:E; by eexists [], _, a.
  - by eexists [], _, a.
  - unfold Stop. destruct Hst as [->|?]; [|done]. by eexists [], _, a.
Qed.

Lemma wheel_run_agrees ops : ∀ t a, agrees t a → (∀ d cb, OpSchedule d cb ∈ ops → is_i64 d ∧ ticks_of (tickDuration t) d < 2 ^ 62) →
  if decide (stops ops + (if stopped t then 1 else 0) ≤ 1)%nat
  then ∃ fired t' a', run ops t a = Some (fired, fired, t', a') ∧ agrees t' a'
  else run ops t a = None.
Proof.
  induction ops as [|o ops IH]; intros t a Hag Hops; cbn [run].
  { rewrite decide_True by (cbn; destruct (stopped t); lia). by eexists _, _, _. }
  assert (stopped t = true ∧ o = OpStop ∨ (stopped t = false ∨ o ≠ OpStop)) as [[Hst ->]|Hno] by (destruct (stopped t), o; naive_solver).
  { rewrite decide_False by (rewrite Hst; cbn; lia). cbn. unfold Stop. by rewrite Hst. }
  destruct (step_agrees t a o Hag Hno) as (f & t1 & a1 & -> & Et & -> & Hag1 & Hst); [intros d cb ->; apply (Hops d cb); set_solver|].
  assert (∀ d cb, OpSchedule d cb ∈ ops → is_i64 d ∧ ticks_of (tickDuration t1) d < 2 ^ 62) as Hops1
    by (rewrite Et; intros d cb ?; apply (Hops d cb); set_solver).
  specialize (IH t1 a1 Hag1 Hops1). cbn [mbind option_bind].
  assert ((stops (o :: ops) + (if stopped t then 1 else 0) = stops ops + (if stopped t1 then 1 else 0))%nat) as ->
    by (rewrite Hst; destruct o; cbn; destruct (stopped t); lia || naive_solver).
  destruct (decide _); [|by rewrite IH]. destruct IH as (fs & t2 & a2 & -> & Hag2). by eexists _, _, _.
Qed.

(** C36. Every callback runs at its tick.  For a positive tick and size, delays of fewer than [2^62]
    ticks and any order of [Schedule] calls, of turns of any number of loops, of [Start] and of
    [Stop]: with at most one [Stop] no call panics, and a tick starts, in the order of their
    scheduling, exactly the callbacks that were scheduled that many ticks ago as their delay has
    whole ticks, rounded towards zero and at least 0; each once.  A second [Stop] panics. *)
Theorem timer_wheel_on_time (tickd size : Z) (ops : list wheel_op) :
  0 < tickd < 2 ^ 63 → 0 < size < 2 ^ 62 →
  (∀ d cb, OpSchedule d cb ∈ ops → is_i64 d ∧ ticks_of tickd d < 2 ^ 62) →
  ∃ t, New tickd size = Some t ∧
    if decide (stops ops ≤ 1)%nat
    then ∃ fired t' a', run ops t {| now := 0; waiting := [] |} = Some (fired, fired, t', a') ∧ agrees t' a'
    else run ops t {| now := 0; waiting := [] |} = None.
Proof.
  intros Htd Hsz Hops. unfold New. rewrite decide_False by lia. eexists. split; [reflexivity|].
  set (t0 := {| tickDuration := tickd |}). replace (stops ops) with (stops ops + (if stopped t0 then 1 else 0))%nat by (cbn; lia).
  apply wheel_run_agrees; [|exact Hops].
  split_and!; cbn; [lia|lia|lia|lia|by rewrite length_replicate|lia|by rewrite Z.mod_0_l by lia|constructor|].
  intros b Hb. apply lookup_replicate. split; [done|lia].
Qed.
End wheel.

Arguments wheel_op : clear implicits.

Lemma timer_wheel_on_time_witness : ∃ t fired t' a', New 100 4 = Some t ∧
  run [OpStart; OpSchedule 250 "a"; OpTurn true; OpTurn true; OpSchedule 900 "b"; OpTurn true; OpStop] t {| now := 0; waiting := [] |}
    = Some (fired, fired, t', a') ∧ fired !! 5%nat = Some ["a"]%string.
Proof.
  destruct (timer_wheel_on_time 100 4 [OpStart; OpSchedule 250 "a"; OpTurn true; OpTurn true; OpSchedule 900 "b"; OpTurn true; OpStop]%string)
    as (t & Ht & fired & t' & a' & Hr & _); [lia|lia| |].
  - intros d cb H. elem_cases H; injection H as -> ->; (split; [split; vm_compute; congruence|vm_compute; reflexivity]).
  - exists t, fired, t', a'. split; [exact Ht|]. split; [exact Hr|]. vm_compute in Ht. injection Ht as <-. vm_compute in Hr. injection Hr as <- _ _ _. reflexivity.
Defined.

(** A second [Stop] closes a closed channel. *)
Theorem timer_wheel_second_stop_panics (tickd size : Z) (t : Timer string) :
  New tickd size = Some t → run [OpStop; OpStop] t {| now := 0; waiting := [] |} = None.
Proof. unfold New. destruct (decide _); [done|]. by intros [= <-]. Qed.

(** A callback may run early: delays are rounded down to ticks and the tick in progress counts
    as a whole one.  Of a delay of 199 with ticks of 100, two ticks are waited for, and the first
    may come at once. *)
Theorem timer_wheel_rounds_down :
  (t ← New 100 8; t ← Schedule 199 "a" t; '(f1, t) ← tick t; '(f2, t) ← tick t; Some (f1, f2)) = Some ([], ["a"])%string.
Proof. vm_compute. reflexivity. Qed.

(** The slot of a delay near the end of int64 is computed from a sum that wraps: its index is
    negative, and [Schedule] panics. *)
Theorem timer_wheel_huge_delay_panics :
  (t ← New 1 10; '(_, t) ← tick t; Some (Schedule (2 ^ 63 - 1) "a" t)) = Some (None : option (Timer string)).
Proof. vm_compute. reflexivity. Qed.
