(* ===== verification/Raft.v ===== *)
(** * pkg/algorithms/consensus/raft

    One Raft node.  A [Node] is what the Go struct keeps; each stretch of code that runs
    under the node's lock is one definition, and an event system below interleaves them:
    the RPC handlers, the run loop (which reads the state, releases the lock and then
    enters a branch), and the replies of the RPCs the node sent, each of which runs in a
    goroutine of its own and may come at any later time.  An out-of-range index is a
    panic: the result is [None].

    The transport and the clock are the environment: a reply has any value, and a timer
    may expire at any time. *)

From S2P Require Import Prelude Errors.
From stdpp Require Import options.
Open Scope Z_scope.

(* src: pkg/algorithms/consensus/raft/raft.go 13-20 State *)
Inductive State := Follower | Candidate | Leader.

#[global] Instance State_eq_dec : EqDecision State.
Proof. solve_decision. Defined.

(* src: pkg/algorithms/consensus/raft/raft.go 22-33 String *)
Definition State_String (s : State) : string :=
  match s with Follower => "Follower" | Candidate => "Candidate" | Leader => "Leader" end.

(* src: pkg/algorithms/consensus/raft/raft.go 35-36 ErrNotLeader *)
Definition ErrNotLeader : error := FailedPrecondition "raft: not leader" None.

Section raft.
Context {V : Type}.

(* src: pkg/algorithms/consensus/raft/raft.go 38-42 LogEntry *)
Record LogEntry := { Term : Z; Command : V }.

(** A channel with a non-blocking sender: how many more values it takes (places
    of its buffer and parked receivers), and what has been sent. *)
Record Chan := { room : nat; sent : list V }.

(* src: pkg/algorithms/consensus/raft/raft.go 44-68 Node *)
Record Node := {
  id : string; peers : list string; state : State; currentTerm : Z; votedFor : string;
  log : list LogEntry; commitIndex : Z; lastApplied : Z;
  nextIndex : gmap string Z; matchIndex : gmap string Z; applyCh : option Chan }.

(* src: pkg/algorithms/consensus/raft/raft.go 76-91 New *)
Definition New (id : string) (peers : list string) (applyCh : option Chan) : Node :=
  {| id := id; peers := peers; state := Follower; currentTerm := 0; votedFor := "";
     log := []; commitIndex := -1; lastApplied := -1; nextIndex := ∅; matchIndex := ∅;
     applyCh := applyCh |}.

(** Assignments to the fields of a node. *)
Definition set_vote (s : State) (t : Z) (v : string) (n : Node) : Node :=
  {| id := id n; peers := peers n; state := s; currentTerm := t; votedFor := v; log := log n;
     commitIndex := commitIndex n; lastApplied := lastApplied n; nextIndex := nextIndex n;
     matchIndex := matchIndex n; applyCh := applyCh n |}.
Definition set_log (l : list LogEntry) (n : Node) : Node :=
  {| id := id n; peers := peers n; state := state n; currentTerm := currentTerm n;
     votedFor := votedFor n; log := l; commitIndex := commitIndex n;
     lastApplied := lastApplied n; nextIndex := nextIndex n; matchIndex := matchIndex n;
     applyCh := applyCh n |}.
Definition set_commit (c : Z) (n : Node) : Node :=
  {| id := id n; peers := peers n; state := state n; currentTerm := currentTerm n;
     votedFor := votedFor n; log := log n; commitIndex := c; lastApplied := lastApplied n;
     nextIndex := nextIndex n; matchIndex := matchIndex n; applyCh := applyCh n |}.
Definition set_applied (a : Z) (ch : option Chan) (n : Node) : Node :=
  {| id := id n; peers := peers n; state := state n; currentTerm := currentTerm n;
     votedFor := votedFor n; log := log n; commitIndex := commitIndex n; lastApplied := a;
     nextIndex := nextIndex n; matchIndex := matchIndex n; applyCh := ch |}.
Definition set_indexes (ni mi : gmap string Z) (n : Node) : Node :=
  {| id := id n; peers := peers n; state := state n; currentTerm := currentTerm n;
     votedFor := votedFor n; log := log n; commitIndex := commitIndex n;
     lastApplied := lastApplied n; nextIndex := ni; matchIndex := mi; applyCh := applyCh n |}.

Definition len (l : list LogEntry) : Z := Z.of_nat (length l).

(** [log[i]] for an index that may be out of range. *)
Definition at_ (l : list LogEntry) (i : Z) : option LogEntry :=
  if decide (0 ≤ i) then l !! Z.to_nat i else None.

(* src: pkg/algorithms/consensus/raft/raft.go 107-112 State *)
Definition Node_State (n : Node) : State := state n.
(* src: pkg/algorithms/consensus/raft/raft.go 114-119 Term *)
Definition Node_Term (n : Node) : Z := currentTerm n.
(* src: pkg/algorithms/consensus/raft/raft.go 121-126 CommitIndex *)
Definition Node_CommitIndex (n : Node) : Z := commitIndex n.
(* src: pkg/algorithms/consensus/raft/raft.go 128-135 Log *)
Definition Node_Log (n : Node) : list LogEntry := log n.

(** ** Applying committed entries *)

(** [select { case ch <- cmd: default: }] *)
Definition try_send (ch : Chan) (v : V) : Chan :=
  match room ch with
  | O => ch
  | S r => {| room := r; sent := sent ch ++ [v] |}
  end.

Fixpoint apply_loop (fuel : nat) (n : Node) : option Node :=
  match fuel with
  | O => Some n
  | S fuel =>
      if decide (lastApplied n < commitIndex n) then
        let la := i64 (lastApplied n + 1) in
        match applyCh n with
        | None => apply_loop fuel (set_applied la None n)
        | Some ch =>
            e ← at_ (log n) la;
            apply_loop fuel (set_applied la (Some (try_send ch (Command e))) n)
        end
      else Some n
  end.

(** The loop runs [commitIndex - lastApplied] times. *)
(* src: pkg/algorithms/consensus/raft/raft.go 236-247 applyCommittedLocked *)
Definition applyCommittedLocked (n : Node) : option Node :=
  apply_loop (Z.to_nat (commitIndex n - lastApplied n)) n.

(** ** RPC handlers *)

(** The loop over the new entries, at index [idx] of the log. *)
(* src: pkg/algorithms/consensus/raft/raft.go 180-194 entries *)
Fixpoint append_loop (l : list LogEntry) (idx : nat) (entries : list LogEntry) : list LogEntry :=
  match entries with
  | [] => l
  | e :: rest =>
      match l !! idx with
      | Some old => if decide (Term old ≠ Term e) then take idx l ++ entries
                    else append_loop l (S idx) rest
      | None => l ++ entries
      end
  end.

Record AppendArgs := { a_term : Z; a_leaderID : string; a_prevLogIndex : Z; a_prevLogTerm : Z;
                       a_entries : list LogEntry; a_leaderCommit : Z }.

(* src: pkg/algorithms/consensus/raft/raft.go 168-178 prevLogIndex *)
Definition prev_ok (l : list LogEntry) (prevLogIndex prevLogTerm : Z) : bool :=
  if decide (0 ≤ prevLogIndex) then
    match at_ l prevLogIndex with
    | None => false
    | Some e => bool_decide (Term e = prevLogTerm)
    end
  else negb (bool_decide (prevLogIndex < -1)).

(* src: pkg/algorithms/consensus/raft/raft.go 153-207 HandleAppendEntries *)
Definition HandleAppendEntries (a : AppendArgs) (n : Node) : option ((Z * bool) * Node) :=
  if decide (a_term a < currentTerm n) then Some ((currentTerm n, false), n)
  else
    let n := if decide (currentTerm n < a_term a) then set_vote (state n) (a_term a) "" n else n in
    let n := set_vote Follower (currentTerm n) (votedFor n) n in
    if negb (prev_ok (log n) (a_prevLogIndex a) (a_prevLogTerm a))
    then Some ((currentTerm n, false), n)
    else
      let insertAt := i64 (a_prevLogIndex a + 1) in
      let n := set_log (append_loop (log n) (Z.to_nat insertAt) (a_entries a)) n in
      n ← (if decide (commitIndex n < a_leaderCommit a) then
             let lastNew := len (log n) - 1 in
             applyCommittedLocked
               (set_commit (if decide (a_leaderCommit a < lastNew) then a_leaderCommit a
                            else lastNew) n)
           else Some n);
      Some ((currentTerm n, true), n).

(** The index and term of the last entry. *)
Definition lastLog (n : Node) : Z * Z :=
  let lastIdx := len (log n) - 1 in
  (lastIdx, if decide (0 ≤ lastIdx) then default 0 (Term <$> at_ (log n) lastIdx) else 0).

Record VoteArgs := { v_term : Z; v_candidateID : string; v_lastLogIndex : Z; v_lastLogTerm : Z }.

(* src: pkg/algorithms/consensus/raft/raft.go 209-234 HandleRequestVote *)
Definition HandleRequestVote (v : VoteArgs) (n : Node) : (Z * bool) * Node :=
  if decide (v_term v < currentTerm n) then ((currentTerm n, false), n)
  else
    let n := if decide (currentTerm n < v_term v) then set_vote Follower (v_term v) "" n else n in
    let '(lastIdx, lastTerm) := lastLog n in
    if decide ((votedFor n = "" ∨ votedFor n = v_candidateID v) ∧
               (lastTerm < v_lastLogTerm v ∨
                v_lastLogTerm v = lastTerm ∧ lastIdx ≤ v_lastLogIndex v))
    then ((currentTerm n, true), set_vote (state n) (currentTerm n) (v_candidateID v) n)
    else ((currentTerm n, false), n).

(** ** The run loop *)

(* src: pkg/algorithms/consensus/raft/raft.go 267-280 runFollower *)
Definition runFollower (n : Node) : Node := set_vote Candidate (currentTerm n) (votedFor n) n.

(** What the goroutines of one run of [runCandidate] share. *)
Record Campaign := { c_args : VoteArgs; c_votes : Z; c_peers : list string }.

(* src: pkg/algorithms/consensus/raft/raft.go 282-297 runCandidate *)
Definition runCandidate (n : Node) : Node * Campaign :=
  let n := set_vote (state n) (i64 (currentTerm n + 1)) (id n) n in
  let '(lastLogIndex, lastLogTerm) := lastLog n in
  (n, {| c_args := {| v_term := currentTerm n; v_candidateID := id n;
                      v_lastLogIndex := lastLogIndex; v_lastLogTerm := lastLogTerm |};
         c_votes := 1; c_peers := peers n |}).

(* src: pkg/algorithms/consensus/raft/raft.go 309-314 Leader *)
Definition becomeLeader (n : Node) : Node :=
  set_indexes (foldl (λ m p, <[p := len (log n)]> m) (nextIndex n) (peers n))
              (foldl (λ m p, <[p := -1]> m) (matchIndex n) (peers n))
              (set_vote Leader (currentTerm n) (votedFor n) n).

(** The goroutine of one peer, after its RPC has returned [(t, granted)]. *)
(* src: pkg/algorithms/consensus/raft/raft.go 300-333 granted *)
Definition vote_reply (c : Campaign) (t : Z) (granted : bool) (n : Node) : Node * Campaign :=
  let term := v_term (c_args c) in
  if granted then
    let c := {| c_args := c_args c; c_votes := i64 (c_votes c + 1); c_peers := c_peers c |} in
    let majority :=
      bool_decide (Z.quot (Z.of_nat (length (c_peers c)) + 1) 2 < c_votes c) in
    if majority && bool_decide (state n = Candidate ∧ currentTerm n = term)
    then (becomeLeader n, c) else (n, c)
  else if decide (term < t) then (set_vote Follower t "" n, c)
  else (n, c).

(** ** Replication *)

(** What [replicateToFollowers] copies under the lock. *)
Record Snapshot := { s_term : Z; s_leaderID : string; s_commit : Z; s_peers : list string;
                     s_next : gmap string Z; s_log : list LogEntry }.

(* src: pkg/algorithms/consensus/raft/raft.go 367-384 replicateToFollowers *)
Definition replicateToFollowers (n : Node) : option Snapshot :=
  if decide (state n ≠ Leader) then None
  else Some {| s_term := currentTerm n; s_leaderID := id n; s_commit := commitIndex n;
               s_peers := peers n; s_next := nextIndex n; s_log := log n |}.

(** The arguments of the RPC to peer [p]; the slice expression panics on an index below 0. *)
(* src: pkg/algorithms/consensus/raft/raft.go 389-401 AppendEntries *)
Definition append_args (s : Snapshot) (p : string) : option AppendArgs :=
  let ni := default 0 (s_next s !! p) in
  let prevLogIndex := i64 (ni - 1) in
  let prevLogTerm :=
    if decide (0 ≤ prevLogIndex ∧ prevLogIndex < len (s_log s))
    then default 0 (Term <$> at_ (s_log s) prevLogIndex) else 0 in
  entries ← (if decide (ni < len (s_log s))
             then (if decide (0 ≤ ni) then Some (drop (Z.to_nat ni) (s_log s)) else None)
             else Some []);
  Some {| a_term := s_term s; a_leaderID := s_leaderID s; a_prevLogIndex := prevLogIndex;
          a_prevLogTerm := prevLogTerm; a_entries := entries; a_leaderCommit := s_commit s |}.

Definition match_count (n : Node) (N : Z) : Z :=
  1 + Z.of_nat (length (filter (λ p, N ≤ default 0 (matchIndex n !! p)) (peers n))).

(** The loop body for [N] down from [k - 1]. *)
Fixpoint advance_loop (k : nat) (n : Node) : option Node :=
  match k with
  | O => Some n
  | S k =>
      let N := Z.of_nat k in
      if decide (N ≤ commitIndex n) then Some n
      else if decide (default 0 (Term <$> at_ (log n) N) ≠ currentTerm n) then advance_loop k n
      else if decide (Z.quot (Z.of_nat (length (peers n)) + 1) 2 < match_count n N)
      then applyCommittedLocked (set_commit N n)
      else advance_loop k n
  end.

(* src: pkg/algorithms/consensus/raft/raft.go 425-446 advanceCommitLocked *)
Definition advanceCommitLocked (n : Node) : option Node := advance_loop (length (log n)) n.

(** The goroutine of peer [p], after its RPC has returned [(t, ok)]. *)
(* src: pkg/algorithms/consensus/raft/raft.go 402-420 ok *)
Definition append_reply (s : Snapshot) (p : string) (t : Z) (ok : bool) (n : Node) : option Node :=
  if decide (currentTerm n < t) then Some (set_vote Follower t "" n)
  else if decide (state n ≠ Leader ∨ currentTerm n ≠ s_term s) then Some n
  else if ok then
    advanceCommitLocked (set_indexes (<[p := len (log n)]> (nextIndex n))
                                     (<[p := len (log n) - 1]> (matchIndex n)) n)
  else if decide (0 < default 0 (nextIndex n !! p))
  then Some (set_indexes (<[p := default 0 (nextIndex n !! p) - 1]> (nextIndex n)) (matchIndex n) n)
  else Some n.

(** What [Propose] does under the lock; having released it, it calls
    [replicateToFollowers], which is the event [Replicate] below. *)
(* src: pkg/algorithms/consensus/raft/raft.go 137-147 Propose *)
Definition Propose (command : V) (n : Node) : option error * Node :=
  if decide (state n ≠ Leader) then (Some ErrNotLeader, n)
  else (None, set_log (log n ++ [{| Term := currentTerm n; Command := command |}]) n).

(** ** The events of a node *)

(** The node; the branch the run loop has chosen and not yet entered; the campaigns, each
    with the number of replies still to come; the RPCs without a reply yet; and the
    votes the node has given, with their terms. *)
Record World := { node : Node; pc : option State; campaigns : list (Campaign * nat);
                  rpcs : list (Snapshot * string); votes : list (Z * string) }.

Inductive Event :=
  | RecvAppend (a : AppendArgs)
  | RecvVote (v : VoteArgs)
  | LoopReads
  | FollowerTimeout
  | StartCampaign
  | LeaderLeaves
  | VoteReply (i : nat) (t : Z) (granted : bool)
  | Proposed (command : V)
  | Replicate
  | AppendReply (i : nat) (t : Z) (ok : bool).

Definition init (id : string) (peers : list string) (ch : option Chan) : World :=
  {| node := New id peers ch; pc := None; campaigns := []; rpcs := []; votes := [] |}.

Definition with_node (n : Node) (w : World) : World :=
  {| node := n; pc := pc w; campaigns := campaigns w; rpcs := rpcs w; votes := votes w |}.

(** One event; [None] when it cannot happen.  The loop reads the state at the top and
    enters the branch with the lock released in between ([LoopReads]); a follower whose
    timer expires becomes a candidate; a candidate campaigns, and returns to the top when
    its timer expires or it is notified; a leader returns to the top when it finds it is
    no longer one. *)
(* src: pkg/algorithms/consensus/raft/raft.go 249-265 run *)
Definition handle (e : Event) (w : World) : option World :=
  match e with
  | RecvAppend a => '(_, n) ← HandleAppendEntries a (node w); Some (with_node n w)
  | RecvVote v =>
      let '((t, granted), n) := HandleRequestVote v (node w) in
      Some {| node := n; pc := pc w; campaigns := campaigns w; rpcs := rpcs w;
              votes := if granted : bool then (t, v_candidateID v) :: votes w else votes w |}
  | LoopReads =>
      match pc w with
      | None => Some {| node := node w; pc := Some (Node_State (node w)); campaigns := campaigns w;
                        rpcs := rpcs w; votes := votes w |}
      | Some _ => None
      end
  | FollowerTimeout =>
      match pc w with
      | Some Follower => Some {| node := runFollower (node w); pc := None;
                                 campaigns := campaigns w; rpcs := rpcs w; votes := votes w |}
      | _ => None
      end
  | StartCampaign =>
      match pc w with
      | Some Candidate =>
          let '(n, c) := runCandidate (node w) in
          Some {| node := n; pc := None;
                  campaigns := campaigns w ++ [(c, length (c_peers c))]; rpcs := rpcs w;
                  votes := (currentTerm n, id n) :: votes w |}
      | _ => None
      end
  | LeaderLeaves =>
      match pc w with
      | Some Leader =>
          if decide (Node_State (node w) ≠ Leader)
          then Some {| node := node w; pc := None; campaigns := campaigns w; rpcs := rpcs w;
                       votes := votes w |}
          else None
      | _ => None
      end
  | VoteReply i t granted =>
      match campaigns w !! i with
      | Some (c, S k) =>
          let '(n, c) := vote_reply c t granted (node w) in
          Some {| node := n; pc := pc w; campaigns := <[i := (c, k)]> (campaigns w);
                  rpcs := rpcs w; votes := votes w |}
      | _ => None
      end
  | Proposed v =>
      match Propose v (node w) with
      | (None, n) => Some (with_node n w)
      | (Some _, _) => Some w
      end
  | Replicate =>
      s ← replicateToFollowers (node w);
      Some {| node := node w; pc := pc w; campaigns := campaigns w;
              rpcs := rpcs w ++ ((s,.) <$> s_peers s); votes := votes w |}
  | AppendReply i t ok =>
      '(s, p) ← rpcs w !! i;
      n ← append_reply s p t ok (node w);
      Some {| node := n; pc := pc w; campaigns := campaigns w; rpcs := delete i (rpcs w);
              votes := votes w |}
  end.

Fixpoint run (es : list Event) (w : World) : option World :=
  match es with
  | [] => Some w
  | e :: es => w ← handle e w; run es w
  end.

(** What voting once per term rests on: identifiers are not empty (the empty string
    stands for no vote), terms stay below the largest int, and a refusal that carries a
    higher term than its campaign's is delivered before the node has reached that term. *)
Definition sane (w : World) (e : Event) : Prop :=
  match e with
  | RecvVote v => v_candidateID v ≠ ""
  | StartCampaign => currentTerm (node w) < 2 ^ 63 - 1
  | VoteReply i t false =>
      match campaigns w !! i with
      | Some (c, _) => v_term (c_args c) < t → currentTerm (node w) < t
      | None => True
      end
  | _ => True
  end.

Fixpoint sane_run (es : list Event) (w : World) : Prop :=
  match es with
  | [] => True
  | e :: es => sane w e ∧ match handle e w with Some w' => sane_run es w' | None => True end
  end.

(** ** Applying: what it leaves alone, and that it does not panic *)

Definition core (n : Node) :=
  (id n, peers n, state n, currentTerm n, votedFor n, log n, (commitIndex n, nextIndex n, matchIndex n)).

Lemma apply_loop_core k n n' : apply_loop k n = Some n' → core n' = core n.
Proof.
  revert n. induction k as [|k IH]; simpl; intros n H; [by simplify_eq|].
  case_decide; [|by simplify_eq]. destruct (applyCh n); [|by apply IH in H].
  destruct (at_ _ _); simpl in H; [by apply IH in H|done].
Qed.

Lemma apply_loop_total k n :
  -1 ≤ lastApplied n → commitIndex n < len (log n) → commitIndex n < 2 ^ 63 →
  ∃ n', apply_loop k n = Some n' ∧ -1 ≤ lastApplied n' ∧
        (commitIndex n - lastApplied n ≤ Z.of_nat k → commitIndex n' ≤ lastApplied n').
Proof.
  revert n. induction k as [|k IH]; simpl; intros n Hl Hc Hr.
  { exists n. split_and!; [done|done|lia]. }
  case_decide as Hlt; [|exists n; split_and!; [done|done|lia]].
  rewrite i64_id by (unfold is_i64; lia).
  assert (∀ ch, ∃ n', apply_loop k (set_applied (lastApplied n + 1) ch n) = Some n' ∧
    -1 ≤ lastApplied n' ∧ (commitIndex n - lastApplied n ≤ Z.of_nat (S k) →
                           commitIndex n' ≤ lastApplied n')) as Hch.
  { intros ch. destruct (IH (set_applied (lastApplied n + 1) ch n)) as (n' & H1 & H2 & H3);
      simpl in *; [lia|lia|lia|]. exists n'. split_and!; [done|done|intros; apply H3; lia]. }
  destruct (applyCh n) as [ch|]; [|apply Hch].
  unfold at_, len in *. rewrite decide_True by lia.
  destruct (lookup_lt_is_Some_2 (log n) (Z.to_nat (lastApplied n + 1))) as [e ->]; [lia|]. apply Hch.
Qed.

Lemma applyCommittedLocked_ok n :
  -1 ≤ lastApplied n → commitIndex n < len (log n) → commitIndex n < 2 ^ 63 →
  ∃ n', applyCommittedLocked n = Some n' ∧ core n' = core n ∧ -1 ≤ lastApplied n' ∧
        commitIndex n' ≤ lastApplied n'.
Proof.
  intros Hl Hc Hr. unfold applyCommittedLocked.
  destruct (apply_loop_total (Z.to_nat (commitIndex n - lastApplied n)) n Hl Hc Hr)
    as (n' & Hn & Hl' & Hd). exists n'. split_and!; [done|by eapply apply_loop_core|done|].
  apply Hd. lia.
Qed.

(** ** AppendEntries and the log matching property *)

(** Entries of the same index and term come with the same prefix. *)
Definition log_matching (L F : list LogEntry) : Prop :=
  ∀ i e f, L !! i = Some e → F !! i = Some f → Term e = Term f → take (S i) L = take (S i) F.

(** The loop, on a log that agrees with the leader's up to [idx]: it ends with a log that
    agrees with the leader's up to the end of the new entries, and it removes
    entries only if one of them conflicts. *)
Lemma append_loop_spec L entries : ∀ (F : list LogEntry) idx,
  log_matching L F → take idx F = take idx L → (idx ≤ length F)%nat →
  entries `prefix_of` drop idx L →
  let F' := append_loop F idx entries in
  let m := (idx + length entries)%nat in
  take m F' = take m L ∧
  (F' = F ∨ F' = take m L ∧ (take m F ≠ take m L)).
Proof.
  induction entries as [|e rest IH]; intros F idx HLF Htk Hle [suf Hpre]; simpl.
  { rewrite Nat.add_0_r. split; [done|by left]. }
  assert (L !! idx = Some e) as HLi.
  { rewrite <- (Nat.add_0_r idx), <- lookup_drop, Hpre. done. }
  assert (take (idx + S (length rest)) L = take idx L ++ e :: rest) as HtL.
  { rewrite <- (take_drop idx L) at 1. rewrite Hpre.
    assert (length (take idx L) = idx) as Hlen.
    { rewrite length_take. apply lookup_lt_Some in HLi. lia. }
    rewrite take_app, Hlen, take_ge by lia. f_equal.
    replace (idx + S (length rest) - idx)%nat with (length (e :: rest)) by (simpl; lia).
    by rewrite take_app_length. }
  assert (length (take (idx + S (length rest)) L) = (idx + S (length rest))%nat) as HlL.
  { rewrite HtL, length_app, length_take. apply lookup_lt_Some in HLi. simpl. lia. }
  destruct (F !! idx) as [old|] eqn:HFi.
  - case_decide as Hne.
    + rewrite Htk, <- HtL, take_take, Nat.min_id. split; [done|right; split; [done|]].
      intros Heq. assert (F !! idx = L !! idx) as HE.
      { rewrite <- (lookup_take_lt F (idx + S (length rest))),
          <- (lookup_take_lt L (idx + S (length rest))) by lia. by rewrite Heq. }
      rewrite HFi, HLi in HE. congruence.
    + destruct (decide (Term old = Term e)) as [He|]; [|done].
      replace (idx + S (length rest))%nat with (S idx + length rest)%nat by lia. apply IH.
      * done.
      * symmetry. by eapply HLF.
      * apply lookup_lt_Some in HFi. lia.
      * exists suf. rewrite <- Nat.add_1_r, <- drop_drop, Hpre. done.
  - apply lookup_ge_None_1 in HFi. assert (idx = length F) as -> by lia.
    rewrite firstn_all in Htk. rewrite <- Htk in HtL. rewrite <- HtL, take_take, Nat.min_id.
    split; [done|right; split; [done|]]. intros Heq. apply (f_equal length) in Heq.
    rewrite HlL, length_take in Heq. lia.
Qed.

Lemma append_loop_length F idx entries :
  (length (append_loop F idx entries) ≤ length F + length entries)%nat.
Proof.
  revert idx. induction entries as [|e rest IH]; intros idx; simpl; [lia|]. destruct (F !! idx).
  - case_decide; [rewrite length_app, length_take; simpl; lia|]. specialize (IH (S idx)). lia.
  - rewrite length_app. simpl. lia.
Qed.

Lemma log_matching_take L m : log_matching L (take m L).
Proof.
  intros i e f HL Hf _. assert (i < length (take m L))%nat as Hl by by eapply lookup_lt_Some.
  rewrite length_take in Hl. rewrite take_take. f_equal. lia.
Qed.

(** The RPC built for a peer whose next index is within the log: the previous entry's
    index and term, and all the entries from the next index on. *)
Lemma append_args_spec s p :
  let ni := default 0 (s_next s !! p) in
  0 ≤ ni ≤ len (s_log s) → len (s_log s) < 2 ^ 63 →
  ∃ a, append_args s p = Some a ∧ a_term a = s_term s ∧ a_prevLogIndex a = ni - 1 ∧
    (0 < ni → Some (a_prevLogTerm a) = Term <$> at_ (s_log s) (ni - 1)) ∧
    a_entries a = drop (Z.to_nat ni) (s_log s) ∧ a_leaderCommit a = s_commit s.
Proof.
  intros ni Hni Hlen. unfold append_args. fold ni. rewrite i64_id by (unfold is_i64; lia).
  set (pt := if decide _ then _ else _).
  assert (0 < ni → Some pt = Term <$> at_ (s_log s) (ni - 1)) as Hpt.
  { intros Hpos. unfold pt. rewrite decide_True by lia. unfold at_. rewrite decide_True by lia.
    destruct (lookup_lt_is_Some_2 (s_log s) (Z.to_nat (ni - 1))) as [e ->]; [unfold len in *; lia|].
    done. }
  case_decide.
  - rewrite decide_True by lia. simpl. eexists. split; [done|]. simpl. by split_and!.
  - simpl. eexists. split; [done|]. simpl. split_and!; try done.
    rewrite drop_ge; [done|]. unfold len in *. lia.
Qed.

Lemma prev_ok_spec L F ni pt :
  0 ≤ ni ≤ len L → (0 < ni → Some pt = Term <$> at_ L (ni - 1)) →
  prev_ok F (ni - 1) pt = true ↔ ni = 0 ∨ Term <$> at_ F (ni - 1) = Term <$> at_ L (ni - 1).
Proof.
  intros Hni Hpt. unfold prev_ok. case_decide as Hpos.
  - rewrite <- Hpt by lia. destruct (at_ F (ni - 1)) as [e|]; simpl; [|split; [done|intros [?|[=]]; lia]].
    rewrite bool_decide_eq_true. split; [intros ->; by right|intros [?|?]; [lia|congruence]].
  - rewrite negb_true_iff, bool_decide_eq_false. split; [left; lia|lia].
Qed.

(** An accepted previous entry makes the logs agree up to it. *)
Lemma prev_agrees L F ni :
  0 ≤ ni ≤ len L → log_matching L F →
  ni = 0 ∨ Term <$> at_ F (ni - 1) = Term <$> at_ L (ni - 1) →
  take (Z.to_nat ni) F = take (Z.to_nat ni) L ∧ (Z.to_nat ni ≤ length F)%nat.
Proof.
  intros Hni HLF Hor. destruct (decide (ni = 0)) as [->|Hn0]; [split; [done|simpl; lia]|].
  destruct Hor as [?|Heq]; [done|]. unfold at_ in Heq. rewrite !decide_True in Heq by lia.
  destruct (L !! Z.to_nat (ni - 1)) as [e|] eqn:HL.
  2:{ apply lookup_ge_None_1 in HL. unfold len in *. lia. }
  destruct (F !! Z.to_nat (ni - 1)) as [f|] eqn:HF; [|by simplify_eq/=]. simpl in Heq.
  replace (Z.to_nat ni) with (S (Z.to_nat (ni - 1))) by lia. split.
  - symmetry. eapply HLF; [done|done|congruence].
  - apply lookup_lt_Some in HF. lia.
Qed.

Lemma HandleAppendEntries_ok a n :
  is_i64 (a_prevLogIndex a + 1) → -1 ≤ lastApplied n →
  len (log n) + len (a_entries a) < 2 ^ 63 →
  prev_ok (log n) (a_prevLogIndex a) (a_prevLogTerm a) = true → currentTerm n ≤ a_term a →
  ∃ n', HandleAppendEntries a n = Some ((a_term a, true), n') ∧
    log n' = append_loop (log n) (Z.to_nat (a_prevLogIndex a + 1)) (a_entries a) ∧
    currentTerm n' = a_term a ∧ state n' = Follower ∧ -1 ≤ lastApplied n' ∧
    (commitIndex n' = commitIndex n ∨
     commitIndex n' ≤ a_leaderCommit a ∧ commitIndex n' < len (log n') ∧
     commitIndex n' ≤ lastApplied n').
Proof.
  intros Hpi Hla Hlen Hprev Hterm. unfold HandleAppendEntries. rewrite decide_False by lia.
  set (n1 := if decide (currentTerm n < a_term a) then _ else n).
  assert (currentTerm n1 = a_term a ∧ log n1 = log n ∧ commitIndex n1 = commitIndex n ∧
          lastApplied n1 = lastApplied n) as (Ht1 & Hl1 & Hc1 & Ha1).
  { unfold n1. case_decide; simpl; split_and!; try done. lia. }
  simpl. rewrite Hl1, Hprev, i64_id by done. simpl. rewrite Hc1.
  set (F' := append_loop _ _ _). case_decide as Hc; simpl.
  - set (n2 := set_commit _ _). destruct (applyCommittedLocked_ok n2) as (n3 & -> & Hcore & Hla3 & Hca3).
    + simpl. lia.
    + unfold n2. simpl. case_decide; lia.
    + unfold n2. simpl. destruct (decide (a_leaderCommit a < len F' - 1)); [|].
      all: assert (len F' < 2 ^ 63) by
        (unfold len in *; pose proof (append_loop_length (log n) (Z.to_nat (a_prevLogIndex a + 1)) (a_entries a));
         unfold F'; lia); lia.
    + simpl. injection Hcore as _ _ Hst Htm _ Hlg Hci _ _. exists n3.
      rewrite Htm, Hlg, Hci. unfold n2. simpl. rewrite Ht1, Hst. split_and!; try done.
      right. rewrite Hci in Hca3. unfold n2 in Hca3. simpl in Hca3. case_decide; split_and!; lia.
  - eexists. split; [by rewrite Ht1|]. simpl. rewrite Ha1, Hc1. split_and!; try done. by left.
Qed.

Lemma HandleAppendEntries_refused a n :
  currentTerm n ≤ a_term a → prev_ok (log n) (a_prevLogIndex a) (a_prevLogTerm a) = false →
  ∃ n', HandleAppendEntries a n = Some ((a_term a, false), n') ∧ log n' = log n ∧
    currentTerm n' = a_term a ∧ commitIndex n' = commitIndex n.
Proof.
  intros Hterm Hprev. unfold HandleAppendEntries. rewrite decide_False by lia.
  case_decide; simpl; rewrite Hprev; simpl.
  - eexists. split; [done|]. done.
  - replace (a_term a) with (currentTerm n) by lia. eexists. split; [done|]. done.
Qed.

(** C19. AppendEntries keeps the log matching property.  For the RPC a leader builds from
    a snapshot of its log for a peer whose next index lies in that log, a node
    whose log matches the leader's accepts it exactly when the term is current and its
    entry at the previous index has the leader's term; it then holds the leader's log as a
    prefix, its log is either untouched (everything was there already, so a delayed RPC
    removes nothing) or exactly the leader's (an entry was missing or in conflict), and
    the commit index moves at most to the leader's and within the log.  A
    refusal leaves log and commit index alone.  Neither panics, and in both cases the
    logs still match and the node ends in the larger of the two terms. *)
Theorem raft_append_entries_matches (s : Snapshot) (p : string) (n : Node) :
  let L := s_log s in
  let ni := default 0 (s_next s !! p) in
  0 ≤ ni ≤ len L → len L + len (log n) < 2 ^ 63 → -1 ≤ lastApplied n →
  log_matching L (log n) →
  ∃ a ok n', append_args s p = Some a ∧
    HandleAppendEntries a n = Some ((currentTerm n', ok), n') ∧
    currentTerm n' = Z.max (currentTerm n) (s_term s) ∧ log_matching L (log n') ∧
    (ok = true ↔ currentTerm n ≤ s_term s ∧
       (ni = 0 ∨ Term <$> at_ (log n) (ni - 1) = Term <$> at_ L (ni - 1))) ∧
    if ok : bool then
      L `prefix_of` log n' ∧
      (log n' = log n ∨ log n' = L ∧ ¬ L `prefix_of` log n) ∧
      (commitIndex n' = commitIndex n ∨
       commitIndex n' ≤ s_commit s ∧ commitIndex n' < len (log n'))
    else log n' = log n ∧ commitIndex n' = commitIndex n.
Proof.
  intros L ni Hni Hlen Hla HLF.
  destruct (append_args_spec s p Hni ltac:(unfold len, L in *; lia))
    as (a & Ha & Hat & Hpi & Hpt & Hent & Hlc). fold ni L in Hpi, Hpt, Hent. exists a.
  pose proof (prev_ok_spec L (log n) ni _ Hni Hpt) as Hprev. rewrite <- Hpi in Hprev at 1.
  destruct (decide (currentTerm n ≤ s_term s)) as [Hterm|Hterm].
  2:{ exists false, n. unfold HandleAppendEntries. rewrite Hat, decide_True by lia.
      split_and!; try done; [lia|]. split; [done|lia]. }
  rewrite <- Hat in Hterm. destruct (prev_ok (log n) _ _) eqn:Hp.
  2:{ destruct (HandleAppendEntries_refused a n Hterm Hp) as (n' & Hh & Hl & Ht & Hc).
      exists false, n'. rewrite Ht, Hl. split_and!; try done; [lia|].
      split; [done|]. intros [_ Hx]. by apply Hprev in Hx. }
  destruct (HandleAppendEntries_ok a n) as (n' & Hh & Hl & Ht & _ & _ & Hc); try done.
  { unfold is_i64. rewrite Hpi. unfold len in *. lia. }
  { rewrite Hent. unfold len in *. rewrite length_drop. lia. }
  exists true, n'. rewrite Ht.
  destruct (prev_agrees L (log n) ni Hni HLF) as [Htk Hle]; [by apply Hprev|].
  rewrite Hpi, Hent in Hl. replace (ni - 1 + 1) with ni in Hl by lia.
  destruct (append_loop_spec L (drop (Z.to_nat ni) L) (log n) (Z.to_nat ni)) as [Hpre Hcase]; try done.
  rewrite <- Hl, length_drop in *. fold L in Hni, Hlen. unfold len in Hni.
  replace (Z.to_nat ni + (length L - Z.to_nat ni))%nat with (length L) in * by lia.
  rewrite firstn_all in *.
  assert (∀ F, L `prefix_of` F ↔ take (length L) F = L) as Hpfx.
  { intros F. split; [intros [k ->]; by rewrite take_app_length|].
    intros Heq. exists (drop (length L) F). by rewrite <- Heq at 1; rewrite take_drop. }
  split_and!; try done.
  - lia.
  - destruct Hcase as [->|[-> _]]; [done|]. rewrite <- (firstn_all L) at 2. apply log_matching_take.
  - split; [intros _; split; [lia|by apply Hprev]|done].
  - by apply Hpfx.
  - destruct Hcase as [?|[? ?]]; [by left|right]. by rewrite Hpfx.
  - destruct Hc as [?|(? & ? & _)]; [by left|right]. split; [lia|done].
Qed.

(** ** One vote per term *)

Definition vote_inv (w : World) : Prop :=
  id (node w) ≠ "" ∧ 0 ≤ currentTerm (node w) ∧
  (∀ t c, (t, c) ∈ votes w → c ≠ "" ∧ t ≤ currentTerm (node w) ∧
      (t = currentTerm (node w) → votedFor (node w) = c)) ∧
  (∀ t c c', (t, c) ∈ votes w → (t, c') ∈ votes w → c = c').

(** A step of the node that gives no vote. *)
Definition advances (n n' : Node) : Prop :=
  id n' = id n ∧
  (currentTerm n < currentTerm n' ∨ currentTerm n' = currentTerm n ∧ votedFor n' = votedFor n).

Lemma vote_inv_advances w w' :
  vote_inv w → advances (node w) (node w') → votes w' = votes w → vote_inv w'.
Proof.
  intros (Hid & Hp & Hv & Hf) [Hid' Hadv] Hvs. unfold vote_inv. rewrite Hvs, Hid'.
  split_and!; [done|lia| |done]. intros t c Hin. destruct (Hv t c Hin) as (? & ? & Heq).
  split_and!; [done|lia|]. intros ->. destruct Hadv as [?|[Ht Hvf]]; [lia|].
  rewrite Hvf. apply Heq. lia.
Qed.

(** A step that votes for [c] in the term it ends in. *)
Lemma vote_inv_vote w w' c :
  vote_inv w → id (node w') = id (node w) → c ≠ "" → votedFor (node w') = c →
  (currentTerm (node w) < currentTerm (node w') ∨
   currentTerm (node w') = currentTerm (node w) ∧
     (votedFor (node w) = "" ∨ votedFor (node w) = c)) →
  votes w' = (currentTerm (node w'), c) :: votes w → vote_inv w'.
Proof.
  intros (Hid & Hp & Hv & Hf) Hid' Hc Hvf Hadv Hvs. unfold vote_inv. rewrite Hvs, Hid'.
  assert (∀ t c', (t, c') ∈ votes w → t ≤ currentTerm (node w') ∧
            (t = currentTerm (node w') → c' = c)) as Hold.
  { intros t c' Hin. destruct (Hv t c' Hin) as (Hc' & Hle & Heq). split; [lia|]. intros ->.
    destruct Hadv as [?|[Ht Hor]]; [lia|]. specialize (Heq Ht).
    destruct Hor as [Hor|Hor]; [congruence|congruence]. }
  split_and!; [done|lia| |].
  - intros t c' [[= -> ->]|Hin]%elem_of_cons; [done|]. destruct (Hold t c' Hin) as [? He].
    split_and!; [by eapply Hv|done|]. intros Ht. rewrite He; done.
  - intros t c1 c2 [E1|H1]%elem_of_cons [E2|H2]%elem_of_cons; [congruence| | |by eapply Hf].
    + injection E1 as -> ->. symmetry. by apply (Hold _ _ H2).
    + injection E2 as -> ->. by apply (Hold _ _ H1).
Qed.

(** A step that sets neither the identifier, the term nor the vote. *)
Ltac keeps := split; [done|by right].

Lemma advances_core n n0 n' : advances n n0 → core n' = core n0 → advances n n'.
Proof. intros [? ?] Hc. injection Hc as Hid _ _ Ht Hv _ _ _ _. split; congruence || by rewrite Ht, Hv. Qed.

Lemma bump_advances s t n :
  advances n (if decide (currentTerm n < t) then set_vote s t "" n else n).
Proof. case_decide; [split; [done|by left]|keeps]. Qed.

Lemma HandleAppendEntries_advances a n r n' :
  HandleAppendEntries a n = Some (r, n') → advances n n'.
Proof.
  unfold HandleAppendEntries. intros H. case_decide; [simplify_eq; keeps|].
  pose proof (bump_advances (state n) (a_term a) n) as Hadv.
  set (n1 := if decide (currentTerm n < a_term a) then _ else n) in H, Hadv.
  destruct (negb _); [simplify_eq; exact Hadv|]. case_decide; simpl in H; [|simplify_eq; exact Hadv].
  destruct (applyCommittedLocked _) as [n2|] eqn:Happ; [|done]. simplify_eq/=.
  apply apply_loop_core in Happ. eapply advances_core; [|exact Happ]. exact Hadv.
Qed.

Lemma advance_loop_advances k n n' : advance_loop k n = Some n' → advances n n'.
Proof.
  induction k as [|k IH]; simpl; intros H; [simplify_eq; keeps|].
  repeat case_decide; simplify_eq; try (by keeps); try by apply IH.
  apply apply_loop_core in H. eapply advances_core; [|exact H]. keeps.
Qed.

Lemma append_reply_advances s p t ok n n' : append_reply s p t ok n = Some n' → advances n n'.
Proof.
  unfold append_reply. intros H. case_decide; [simplify_eq; split; [done|by left]|].
  case_decide; [simplify_eq; keeps|]. destruct ok.
  - by apply advance_loop_advances in H.
  - case_decide; simplify_eq; keeps.
Qed.

Lemma vote_reply_advances c t granted n :
  (granted = false → v_term (c_args c) < t → currentTerm n < t) →
  advances n (vote_reply c t granted n).1.
Proof.
  intros Hok. unfold vote_reply. destruct granted.
  - destruct (_ && _); keeps.
  - case_decide; [|keeps]. split; [done|left; by apply Hok].
Qed.

Lemma RecvVote_inv w v : sane w (RecvVote v) → vote_inv w → from_option vote_inv True (handle (RecvVote v) w).
Proof.
  intros Hs Hinv. simpl in *. unfold HandleRequestVote. case_decide as Ht.
  { simpl. eapply vote_inv_advances; [done|keeps|done]. }
  pose proof (bump_advances Follower (v_term v) (node w)) as Hadv.
  set (n1 := if decide (currentTerm (node w) < v_term v) then _ else node w) in Hadv |- *.
  destruct (lastLog n1) as [li lt]. case_decide as Hgrant; simpl.
  - destruct Hadv as [Hid Hadv]. eapply vote_inv_vote with (c := v_candidateID v); try done.
    simpl. destruct Hadv as [?|[Heq Hvf]]; [by left|right]. rewrite <- Hvf. tauto.
  - by eapply vote_inv_advances.
Qed.

Lemma StartCampaign_inv w :
  sane w StartCampaign → vote_inv w → from_option vote_inv True (handle StartCampaign w).
Proof.
  intros Hs Hinv. simpl in *. destruct (pc w) as [[]|]; try done.
  simpl. pose proof Hinv as (Hid & Hp & _).
  eapply vote_inv_vote with (c := id (node w)); try done. simpl.
  rewrite i64_id by (unfold is_i64; lia). left. lia.
Qed.

Lemma handle_inv e w w' : sane w e → handle e w = Some w' → vote_inv w → vote_inv w'.
Proof.
  intros Hs Hh Hinv. destruct e.
  2:{ pose proof (RecvVote_inv w v Hs Hinv) as H. by rewrite Hh in H. }
  4:{ pose proof (StartCampaign_inv w Hs Hinv) as H. by rewrite Hh in H. }
  all: apply (vote_inv_advances w); [done| |]; simpl in Hh, Hs.
  - destruct (HandleAppendEntries a (node w)) as [[r n]|] eqn:E; simplify_eq/=.
    by eapply HandleAppendEntries_advances.
  - by destruct (HandleAppendEntries a (node w)) as [[r n]|] eqn:E; simplify_eq/=.
  - destruct (pc w); simplify_eq/=; keeps.
  - by destruct (pc w); simplify_eq/=.
  - destruct (pc w) as [[]|]; simplify_eq/=. keeps.
  - by destruct (pc w) as [[]|]; simplify_eq/=.
  - destruct (pc w) as [[]|]; simplify_eq/=. case_decide; simplify_eq/=. keeps.
  - destruct (pc w) as [[]|]; simplify_eq/=. by case_decide; simplify_eq/=.
  - destruct (campaigns w !! i) as [[c [|k]]|] eqn:E; simplify_eq/=.
    pose proof (vote_reply_advances c t granted (node w)) as Ha.
    destruct (vote_reply c t granted (node w)) as [n c']. simplify_eq/=. apply Ha.
    intros ->. done.
  - destruct (campaigns w !! i) as [[c [|k]]|] eqn:E; simplify_eq/=.
    by destruct (vote_reply c t granted (node w)) as [n c']; simplify_eq/=.
  - unfold Propose in Hh. case_decide; simplify_eq/=; keeps.
  - unfold Propose in Hh. by case_decide; simplify_eq/=.
  - destruct (replicateToFollowers _); simplify_eq/=. keeps.
  - by destruct (replicateToFollowers _); simplify_eq/=.
  - destruct (rpcs w !! i) as [[s p]|]; simplify_eq/=.
    destruct (append_reply s p t ok (node w)) eqn:E; simplify_eq/=. by eapply append_reply_advances.
  - destruct (rpcs w !! i) as [[s p]|]; simplify_eq/=.
    by destruct (append_reply s p t ok (node w)) eqn:E; simplify_eq/=.
Qed.

Lemma run_inv es w w' : sane_run es w → run es w = Some w' → vote_inv w → vote_inv w'.
Proof.
  revert w. induction es as [|e es IH]; simpl; intros w Hs Hr Hinv; [by simplify_eq|].
  destruct Hs as [He Hs]. destruct (handle e w) as [w1|] eqn:Hh; [|done]. simpl in Hr.
  eapply IH; [done|done|]. by eapply handle_inv.
Qed.

(** A node votes at most once per term: in every interleaving of RPCs, timeouts,
    campaigns, proposals and late replies, any two votes it has given in the same
    term (its own candidacies included) were for the same candidate, as long as a
    refusal with a higher term reaches the node before the node has
    reached that term itself. *)
Theorem raft_single_vote (me : string) (ps : list string) (ch : option Chan)
    (es : list Event) (w : World) :
  me ≠ "" → sane_run es (init me ps ch) → run es (init me ps ch) = Some w →
  ∀ t c c', (t, c) ∈ votes w → (t, c') ∈ votes w → c = c'.
Proof.
  intros Hme Hs Hr. apply (run_inv es (init me ps ch) w Hs Hr). split_and!; simpl; try done.
  - intros t c Hin. by apply elem_of_nil in Hin.
  - intros t c c' Hin. by apply elem_of_nil in Hin.
Qed.
End raft.

Lemma raft_append_entries_matches_witness :
  let L := [{| Term := 1; Command := "a" |}; {| Term := 1; Command := "b" |};
            {| Term := 2; Command := "c" |}] in
  let s := {| s_term := 2; s_leaderID := "l"; s_commit := 1; s_peers := ["f"];
              s_next := {["f" := 1]}; s_log := L |} in
  let n := set_vote Follower 1 "" (set_log [{| Term := 1; Command := "a" |};
            {| Term := 1; Command := "b" |}; {| Term := 1; Command := "z" |};
            {| Term := 1; Command := "y" |}] (New "f" ["l"] None)) in
  ∃ a n', append_args s "f" = Some a ∧ HandleAppendEntries a n = Some ((2, true), n') ∧
    L `prefix_of` log n' ∧ log n' ≠ log n.
Proof.
  intros L s n.
  assert (log_matching L (log n)) as HLF.
  { intros [|[|[|i]]] e f; simpl; intros; simplify_eq/=; done. }
  destruct (raft_append_entries_matches s "f" n ltac:(vm_compute; done) ltac:(vm_compute; done)
              ltac:(vm_compute; done) HLF) as (a & ok & n' & Ha & Hh & Ht & _ & Hok & Hcase).
  assert (ok = true) as ->. { apply Hok. split; [vm_compute; done|right; vm_compute; done]. }
  destruct Hcase as (Hpre & Hor & _). exists a, n'. rewrite Hh, Ht. split_and!; [done|done|done|].
  intros Heq. rewrite Heq in Hpre. destruct Hpre as [k Hk]. vm_compute in Hk. done.
Defined.

(** A follower that becomes a candidate and campaigns in term 1. *)
Definition campaign_trace {V} : list (Event (V := V)) :=
  [LoopReads; FollowerTimeout; LoopReads; StartCampaign].

Lemma raft_single_vote_witness :
  let es : list (Event (V := string)) := campaign_trace ++
    [RecvVote {| v_term := 5; v_candidateID := "b"; v_lastLogIndex := -1; v_lastLogTerm := 0 |}] in
  ∃ w, run es (init "a" ["b"; "c"] None) = Some w ∧ votes w = [(5, "b"); (1, "a")] ∧
    ∀ t c c', (t, c) ∈ votes w → (t, c') ∈ votes w → c = c'.
Proof.
  intros es. eexists. split; [vm_compute; reflexivity|]. split; [reflexivity|].
  eapply (raft_single_vote "a" ["b"; "c"] None es); [done| |vm_compute; reflexivity].
  vm_compute. done.
Defined.

(** Elections are not safe against late replies.  A node that campaigned in term 1 and
    has since voted for b in term 5 handles a refusal of that first campaign that carries
    term 5 by forgetting its vote, and votes for c in term 5 as well; a refusal that
    carries term 3 takes its term back from 5 to 3.  And when the vote that completes a
    majority comes in after the run loop has read the state of a candidate of term 1 and
    before it enters the candidate branch, the new leader of term 1 starts the campaign of
    term 2 without looking at its state again: it is the leader of term 2 with its
    own vote alone. *)
Theorem raft_late_replies_unsafe :
  let ask c := RecvVote {| v_term := 5; v_candidateID := c; v_lastLogIndex := -1; v_lastLogTerm := 0 |} in
  let w0 := init (V := string) "a" ["b"; "c"] None in
  (∃ w, run (campaign_trace ++ [ask "b"; VoteReply 0 5 false; ask "c"]) w0 = Some w ∧
        (5, "b") ∈ votes w ∧ (5, "c") ∈ votes w) ∧
  (∃ w w', run (campaign_trace ++ [ask "b"]) w0 = Some w ∧ Node_Term (node w) = 5 ∧
           handle (VoteReply 0 3 false) w = Some w' ∧ Node_Term (node w') = 3) ∧
  (∃ w c, run (campaign_trace ++ [LoopReads; VoteReply 0 1 true; StartCampaign]) w0 = Some w ∧
          Node_State (node w) = Leader ∧ Node_Term (node w) = 2 ∧
          campaigns w !! 1%nat = Some (c, 2%nat) ∧ v_term (c_args c) = 2 ∧ c_votes c = 1).
Proof.
  split; [|split].
  - eexists. split; [vm_compute; reflexivity|]. split; compute_decide.
  - do 2 eexists. split; [vm_compute; reflexivity|]. split; [reflexivity|].
    split; [vm_compute; reflexivity|]. reflexivity.
  - do 2 eexists. split; [vm_compute; reflexivity|]. do 4 (split; [vm_compute; reflexivity|]).
    vm_compute. reflexivity.
Qed.

(** C40. A leader can commit an entry no other node has: an acknowledgement sets the
    peer's match index to the end of the leader's log as it is when the reply comes, not
    as it was when the RPC was sent.  With x sent to b, y proposed before b's
    acknowledgement of x and nothing sent to c, the leader of three nodes commits y, which
    is in neither b's log nor c's. *)
Theorem raft_commits_unreplicated :
  let x := {| Term := 1; Command := "x" |} in
  let y := {| Term := 1; Command := "y" |} in
  ∃ w1 s a b w2,
    run (campaign_trace ++ [VoteReply 0 1 true; Proposed "x"; Replicate])
        (init "a" ["b"; "c"] None) = Some w1 ∧
    rpcs w1 !! 0%nat = Some (s, "b") ∧ append_args s "b" = Some a ∧
    HandleAppendEntries a (New "b" ["a"; "c"] None) = Some ((1, true), b) ∧ log b = [x] ∧
    run [Proposed "y"; AppendReply 0 1 true] w1 = Some w2 ∧
    Node_Log (node w2) = [x; y] ∧ Node_CommitIndex (node w2) = 1.
Proof.
  do 5 eexists. split; [vm_compute; reflexivity|]. do 6 (split; [vm_compute; reflexivity|]).
  vm_compute. reflexivity.
Qed.
