(* ===== verification/Avl.v ===== *)
(** * pkg/datastructures/tree/avl

    The AVL tree.  A [*Node] is reachable from one tree only and each node from one parent
    only, so a pointer to a node is the subtree below it; dereferencing nil is a panic and
    gives [None].  Heights are counts of nodes on a path, below the number of nodes that
    fit in memory: their int arithmetic does not overflow. *)

From S2P Require Import Prelude.
From stdpp Require Import sorting options.
Open Scope Z_scope.

(** What the code takes from constraints.Ordered: [<] is a strict total order (which
    leaves out float keys that are NaN). *)
Class Ordered (K : Type) := {
  lt : relation K;
  lt_dec :: RelDecision lt;
  lt_strict :: StrictOrder lt;
  lt_total : ∀ x y, lt x y ∨ x = y ∨ lt y x }.

#[global, refine] Instance Z_Ordered : Ordered Z := { lt := Z.lt }.
Proof. lia. Defined.

Lemma lt_irrefl `{Ordered K} (x : K) : lt x x → False.
Proof. apply irreflexivity. apply _. Qed.

Lemma lt_asym `{Ordered K} (x y : K) : lt x y → lt y x → False.
Proof. intros H1 H2. apply (lt_irrefl x). by trans y. Qed.

Ltac order :=
  solve [done | exfalso; eauto using lt_irrefl, lt_asym | by etrans
        | match goal with H : ¬ lt ?x ?y, H' : ¬ lt ?y ?x |- _ => destruct (lt_total x y) as [?|[?|?]]; done end].

Section avl.
Context {K V : Type} `{!Ordered K}.

(* src: pkg/datastructures/tree/avl/tree.go 15-21 Node *)
Inductive Node := Nil | Mk (Key : K) (Value : V) (Height : Z) (Left Right : Node).

(* src: pkg/datastructures/tree/avl/tree.go 9-13 Tree *)
Record Tree := { Root : Node }.

(* src: pkg/datastructures/tree/avl/tree.go 23-25 New *)
Definition New : Tree := {| Root := Nil |}.

(* src: pkg/datastructures/tree/avl/tree.go 44-49 Height *)
Definition Height (n : Node) : Z := match n with Nil => 0 | Mk _ _ h _ _ => h end.

(* src: pkg/datastructures/tree/avl/tree.go 51-56 max *)
Definition max (a b : Z) : Z := if decide (b < a) then a else b.

(* src: pkg/datastructures/tree/avl/tree.go 58-60 updateHeight *)
Definition updateHeight (n : Node) : Node :=
  match n with
  | Nil => Nil
  | Mk k v _ l r => Mk k v (1 + max (Height l) (Height r)) l r
  end.

(* src: pkg/datastructures/tree/avl/tree.go 62-67 getBalance *)
Definition getBalance (n : Node) : Z :=
  match n with Nil => 0 | Mk _ _ _ l r => Height l - Height r end.

(* src: pkg/datastructures/tree/avl/tree.go 69-80 rightRotate *)
Definition rightRotate (y : Node) : option Node :=
  match y with
  | Mk ky vy hy (Mk kx vx hx xl T2) yr =>
      let y := updateHeight (Mk ky vy hy T2 yr) in
      Some (updateHeight (Mk kx vx hx xl y))
  | _ => None
  end.

(* src: pkg/datastructures/tree/avl/tree.go 82-93 leftRotate *)
Definition leftRotate (x : Node) : option Node :=
  match x with
  | Mk kx vx hx xl (Mk ky vy hy T2 yr) =>
      let x := updateHeight (Mk kx vx hx xl T2) in
      Some (updateHeight (Mk ky vy hy x yr))
  | _ => None
  end.

(** [n.Key] *)
Definition key (n : Node) : option K := match n with Nil => None | Mk k _ _ _ _ => Some k end.

(** The four rotation cases, after the height of [n] has been updated. *)
(* src: pkg/datastructures/tree/avl/tree.go 110-131 balance *)
Definition rebalance (Key : K) (n : Node) : option Node :=
  match n with
  | Nil => None
  | Mk k v h l r =>
      let balance := getBalance n in
      if decide (1 < balance) then
        lk ← key l;
        if decide (lt Key lk) then rightRotate n
        else if decide (lt lk Key) then
          l' ← leftRotate l; rightRotate (Mk k v h l' r)
        else Some n
      else if decide (balance < -1) then
        rk ← key r;
        if decide (lt rk Key) then leftRotate n
        else if decide (lt Key rk) then
          r' ← rightRotate r; leftRotate (Mk k v h l r')
        else Some n
      else Some n
  end.

(* src: pkg/datastructures/tree/avl/tree.go 95-132 insert *)
Fixpoint insert (n : Node) (Key : K) (Value : V) : option Node :=
  match n with
  | Nil => Some (Mk Key Value 1 Nil Nil)
  | Mk k v h l r =>
      if decide (lt Key k) then
        l' ← insert l Key Value; rebalance Key (updateHeight (Mk k v h l' r))
      else if decide (lt k Key) then
        r' ← insert r Key Value; rebalance Key (updateHeight (Mk k v h l r'))
      else Some (Mk k Value h l r)
  end.

(* src: pkg/datastructures/tree/avl/tree.go 134-144 search *)
Fixpoint search (n : Node) (Key : K) : Node :=
  match n with
  | Nil => Nil
  | Mk k v h l r =>
      if decide (lt Key k) then search l Key
      else if decide (lt k Key) then search r Key else n
  end.

(* src: pkg/datastructures/tree/avl/tree.go 27-31 Put *)
Definition Put (Key : K) (Value : V) (t : Tree) : option Tree :=
  n ← insert (Root t) Key Value; Some {| Root := n |}.

(* src: pkg/datastructures/tree/avl/tree.go 33-42 Get *)
Definition Get (Key : K) (t : Tree) : option V :=
  match search (Root t) Key with Nil => None | Mk _ v _ _ _ => Some v end.

#[local] Arguments rebalance _ _ : simpl never.
#[local] Arguments rightRotate _ : simpl never.
#[local] Arguments leftRotate _ : simpl never.
#[local] Arguments updateHeight !_ /.

(** ** The in-order list *)

Fixpoint elements (n : Node) : list (K * V) :=
  match n with Nil => [] | Mk k v _ l r => elements l ++ (k, v) :: elements r end.

Lemma elements_updateHeight n : elements (updateHeight n) = elements n.
Proof. by destruct n. Qed.

Lemma rightRotate_elements n n' : rightRotate n = Some n' → elements n' = elements n.
Proof. destruct n as [|? ? ? [] ?]; unfold rightRotate; simpl; intros; simplify_eq; simpl. by rewrite <- (assoc_L (++)). Qed.

Lemma leftRotate_elements n n' : leftRotate n = Some n' → elements n' = elements n.
Proof. destruct n as [|? ? ? ? []]; unfold leftRotate; simpl; intros; simplify_eq; simpl. by rewrite <- (assoc_L (++)). Qed.

Lemma rebalance_elements Key n n' : rebalance Key n = Some n' → elements n' = elements n.
Proof.
  destruct n as [|k v h l r]; [done|]. unfold rebalance. intros H. case_decide.
  - destruct (key l); [|done]. simpl in H. case_decide; [by apply rightRotate_elements|].
    case_decide; [|by simplify_eq]. destruct (leftRotate l) as [l'|] eqn:El; [|done]. simpl in H.
    apply leftRotate_elements in El. apply rightRotate_elements in H. rewrite H. simpl. by rewrite El.
  - case_decide; [|by simplify_eq]. destruct (key r); [|done]. simpl in H.
    case_decide; [by apply leftRotate_elements|].
    case_decide; [|by simplify_eq]. destruct (rightRotate r) as [r'|] eqn:El; [|done]. simpl in H.
    apply rightRotate_elements in El. apply leftRotate_elements in H. rewrite H. simpl. by rewrite El.
Qed.

(** The specification: insertion into a list in the order of its keys, and lookup. *)
Fixpoint ins (k : K) (v : V) (l : list (K * V)) : list (K * V) :=
  match l with
  | [] => [(k, v)]
  | (k0, v0) :: l => if decide (lt k k0) then (k, v) :: (k0, v0) :: l
                     else if decide (lt k0 k) then (k0, v0) :: ins k v l
                     else (k0, v) :: l
  end.

Fixpoint assoc (k : K) (l : list (K * V)) : option V :=
  match l with
  | [] => None
  | (k0, v0) :: l => if decide (lt k k0 ∨ lt k0 k) then assoc k l else Some v0
  end.

Definition below (k : K) (l : list (K * V)) : Prop := Forall (λ x, lt x.1 k) l.
Definition above (k : K) (l : list (K * V)) : Prop := Forall (λ x, lt k x.1) l.

Fixpoint bst (n : Node) : Prop :=
  match n with
  | Nil => True
  | Mk k _ _ l r => bst l ∧ bst r ∧ below k (elements l) ∧ above k (elements r)
  end.

Lemma ins_app_l k v k0 v0 l r :
  lt k k0 → ins k v (l ++ (k0, v0) :: r) = ins k v l ++ (k0, v0) :: r.
Proof.
  intros Hlt. induction l as [|[k1 v1] l IH]; simpl; [by rewrite decide_True|].
  case_decide; [done|]. case_decide; [by rewrite IH|done].
Qed.

Lemma ins_app_r k v k0 v0 l r :
  lt k0 k → below k0 l → ins k v (l ++ (k0, v0) :: r) = l ++ (k0, v0) :: ins k v r.
Proof.
  intros Hlt Hb. induction Hb as [|[k1 v1] l Hk Hb IH]; simpl in *.
  - rewrite decide_False by (intros ?; order). by rewrite decide_True.
  - assert (lt k1 k) by order. rewrite decide_False by (intros ?; order).
    rewrite decide_True by done. by rewrite IH.
Qed.

Lemma ins_app_eq k v v0 l r :
  below k l → ins k v (l ++ (k, v0) :: r) = l ++ (k, v) :: r.
Proof.
  intros Hb. induction Hb as [|[k1 v1] l Hk Hb IH]; simpl in *.
  - rewrite !decide_False by (intros ?; order). done.
  - rewrite decide_False by (intros ?; order). rewrite decide_True by done. by rewrite IH.
Qed.

Lemma ins_Forall P k v l : P k → Forall (λ x : K * V, P x.1) l → Forall (λ x, P x.1) (ins k v l).
Proof.
  intros Hk Hl. induction Hl as [|[k1 v1] l H1 Hl IH]; simpl in *; [by constructor|].
  repeat case_decide; repeat constructor; done.
Qed.

(** Keys that are not ordered either way are equal. *)
Lemma neither k k' : ¬ (lt k k' ∨ lt k' k) ↔ k = k'.
Proof.
  split; [intros; destruct (lt_total k k') as [?|[?|?]]; tauto|].
  intros -> [?|?]; by eapply lt_irrefl.
Qed.

Lemma assoc_ins k k' v l :
  assoc k (ins k' v l) = if decide (lt k k' ∨ lt k' k) then assoc k l else Some v.
Proof.
  induction l as [|[k0 v0] l IH]; simpl; [done|].
  destruct (decide (lt k' k0)); simpl; [done|].
  destruct (decide (lt k0 k')); simpl.
  - rewrite IH. repeat case_decide; try done. apply neither in H, H0. subst. exfalso.
    by eapply lt_irrefl.
  - assert (k0 = k') as -> by (apply neither; tauto). by case_decide.
Qed.

(** ** Insertion and search on search trees *)

Lemma insert_elements n k v n' :
  bst n → insert n k v = Some n' → elements n' = ins k v (elements n).
Proof.
  revert n'. induction n as [|k0 v0 h l IHl r IHr]; simpl; intros n' Hb Hi; [by simplify_eq|].
  destruct Hb as (Hl & Hr & Hbl & Har). case_decide.
  - destruct (insert l k v) as [l'|]; [|done]. simpl in Hi.
    apply rebalance_elements in Hi. simpl in Hi. by rewrite Hi, ins_app_l, (IHl l') by done.
  - case_decide.
    + destruct (insert r k v) as [r'|]; [|done]. simpl in Hi.
      apply rebalance_elements in Hi. simpl in Hi. by rewrite Hi, ins_app_r, (IHr r') by done.
    + simplify_eq. assert (k0 = k) as -> by (apply neither; tauto). simpl. by rewrite ins_app_eq.
Qed.

Lemma search_elements n k :
  bst n →
  match search n k with Nil => None | Mk _ v _ _ _ => Some v end = assoc k (elements n).
Proof.
  assert (∀ l r, (below k l ∨ above k l) → assoc k (l ++ r) = assoc k r) as Hskip.
  { intros l r Hl. induction l as [|[k1 v1] l IH]; simpl; [done|].
    rewrite decide_True, IH; [done| |]; destruct Hl as [Hl|Hl]; inversion Hl; subst; simpl in *; auto. }
  assert (∀ l k0, below k0 l → ¬ lt k k0 → below k l) as Hmono.
  { intros l k0 Hl Hn. eapply Forall_impl; [done|]. simpl. intros [k1 v1] ?. simpl in *.
    destruct (lt_total k k0) as [?|[<-|?]]; [done|done|by trans k0]. }
  assert (∀ l k0, above k0 l → lt k k0 → above k l) as Hmono'.
  { intros l k0 Hl Hn. eapply Forall_impl; [done|]. simpl. intros [k1 v1] ?. simpl in *. by trans k0. }
  assert (∀ l r, above k r → assoc k (l ++ r) = assoc k l) as Hskip'.
  { intros l r Hr. induction l as [|[k1 v1] l IH]; simpl.
    - rewrite <- (app_nil_r r). by rewrite Hskip by auto.
    - by rewrite IH. }
  induction n as [|k0 v0 h l IHl r IHr]; simpl; intros Hb; [done|].
  destruct Hb as (Hl & Hr & Hbl & Har). case_decide.
  - rewrite Hskip'; [by apply IHl|]. constructor; [done|by eapply Hmono'].
  - rewrite Hskip by (left; by eapply Hmono). simpl. case_decide.
    + rewrite decide_True by auto. by apply IHr.
    + by rewrite decide_False by tauto.
Qed.

(** A tree is a search tree when its in-order list is sorted. *)
Definition before (x y : K * V) : Prop := lt x.1 y.1.

Lemma bst_sorted n : bst n ↔ StronglySorted before (elements n).
Proof.
  induction n as [|k v h l IHl r IHr]; simpl; [split; [constructor|done]|].
  rewrite IHl, IHr, StronglySorted_app. unfold below, above. rewrite !Forall_forall. split.
  - intros (Hl & Hr & Hb & Ha). split_and!; [|done|].
    + intros x y Hx [->|Hy]%elem_of_cons; [by apply Hb|]. unfold before.
      trans k; [by apply Hb|by apply Ha].
    + constructor; [done|]. apply Forall_forall. intros x Hx. by apply Ha.
  - intros (Hx & Hl & Hr). inversion Hr as [|? ? Hr' Hf]; subst. split_and!; try done.
    + intros x Hin. apply (Hx x (k, v)); [done|by left].
    + rewrite Forall_forall in Hf. intros x Hin. by apply Hf.
Qed.

Lemma ins_sorted k v l : StronglySorted before l → StronglySorted before (ins k v l).
Proof.
  intros Hs. induction Hs as [|[k0 v0] l Hs IH Hf]; simpl; [by repeat constructor|].
  case_decide; [|case_decide].
  - constructor; [by constructor|]. constructor; [done|].
    eapply Forall_impl; [done|]. intros x Hx. unfold before in *. simpl in *. by trans k0.
  - constructor; [done|]. apply (ins_Forall (lt k0)); done.
  - constructor; [done|]. done.
Qed.

Lemma insert_bst n k v n' : bst n → insert n k v = Some n' → bst n'.
Proof.
  intros Hb Hi. apply bst_sorted. rewrite (insert_elements n k v n' Hb Hi).
  by apply ins_sorted, bst_sorted.
Qed.

(** ** Balance *)

Fixpoint avl (n : Node) : Prop :=
  match n with
  | Nil => True
  | Mk _ _ h l r => avl l ∧ avl r ∧ h = 1 + Z.max (Height l) (Height r) ∧
                    -1 ≤ Height l - Height r ≤ 1
  end.

Lemma max_Z a b : max a b = Z.max a b.
Proof. unfold max. case_decide; lia. Qed.

Lemma avl_nonneg n : avl n → 0 ≤ Height n.
Proof. induction n; simpl; [lia|]. intros (? & ? & -> & ?). intuition lia. Qed.

(** The child a new key went to is now the taller one of a node, on the key's side. *)
Definition leans (k : K) (n : Node) : Prop :=
  match n with
  | Nil => False
  | Mk k0 _ _ l r => lt k k0 ∧ Height l = Height r + 1 ∨ lt k0 k ∧ Height r = Height l + 1
  end.

Ltac heights := unfold rightRotate, leftRotate; simpl; rewrite ?max_Z in *;
  eexists; split; [reflexivity|]; simpl; rewrite ?max_Z in *; split_and!; try done; lia.

Lemma rebalance_left k k0 v0 h l r :
  avl l → avl r → -1 ≤ Height l - Height r ≤ 2 → (Height l = Height r + 2 → leans k l) →
  ∃ n', rebalance k (updateHeight (Mk k0 v0 h l r)) = Some n' ∧ avl n' ∧
    (Height l ≤ Height r + 1 → n' = Mk k0 v0 (1 + Z.max (Height l) (Height r)) l r) ∧
    (Height l = Height r + 2 → Height n' = Height r + 2).
Proof.
  intros Hl Hr Hd Hlean. simpl. rewrite max_Z. unfold rebalance. cbn [getBalance].
  destruct (decide (1 < Height l - Height r)).
  2:{ rewrite decide_False by lia. eexists. split; [done|]. simpl. split_and!; try done; lia. }
  specialize (Hlean ltac:(lia)). destruct l as [|lk lv lh ll lr]; [done|]. cbn [key mbind option_bind].
  destruct Hl as (Hll & Hlr & -> & Hld). simpl in *. destruct Hlean as [[Hk Hh]|[Hk Hh]].
  - rewrite decide_True by done. heights.
  - rewrite decide_False by (intros ?; order). rewrite decide_True by done.
    pose proof (avl_nonneg _ Hll). destruct lr as [|rk rv rh rl rr]; [simpl in *; lia|].
    destruct Hlr as (? & ? & -> & ?). simpl in *. heights.
Qed.

Lemma rebalance_right k k0 v0 h l r :
  avl l → avl r → -1 ≤ Height r - Height l ≤ 2 → (Height r = Height l + 2 → leans k r) →
  ∃ n', rebalance k (updateHeight (Mk k0 v0 h l r)) = Some n' ∧ avl n' ∧
    (Height r ≤ Height l + 1 → n' = Mk k0 v0 (1 + Z.max (Height l) (Height r)) l r) ∧
    (Height r = Height l + 2 → Height n' = Height l + 2).
Proof.
  intros Hl Hr Hd Hlean. simpl. rewrite max_Z. unfold rebalance. cbn [getBalance].
  rewrite decide_False by lia. destruct (decide (Height l - Height r < -1)).
  2:{ eexists. split; [done|]. simpl. split_and!; try done; lia. }
  specialize (Hlean ltac:(lia)). destruct r as [|rk rv rh rl rr]; [done|]. cbn [key mbind option_bind].
  destruct Hr as (Hrl & Hrr & -> & Hrd). simpl in *. destruct Hlean as [[Hk Hh]|[Hk Hh]].
  - rewrite decide_False by (intros ?; order). rewrite decide_True by done.
    pose proof (avl_nonneg _ Hrr). destruct rl as [|lk lv lh ll lr]; [simpl in *; lia|].
    destruct Hrl as (? & ? & -> & ?). simpl in *. heights.
  - rewrite decide_True by done. heights.
Qed.

Lemma insert_avl n k v :
  avl n → ∃ n', insert n k v = Some n' ∧ avl n' ∧ Height n ≤ Height n' ≤ Height n + 1 ∧
    (Height n' = Height n + 1 → n = Nil ∨ leans k n').
Proof.
  induction n as [|k0 v0 h l IHl r IHr]; simpl; intros Hn.
  { eexists. split; [done|]. simpl. split_and!; try done; try lia. by left. }
  destruct Hn as (Hl & Hr & -> & Hd). pose proof (avl_nonneg l Hl). pose proof (avl_nonneg r Hr).
  case_decide; [|case_decide].
  - destruct (IHl Hl) as (l' & -> & Hl' & Hh & Hlean). simpl.
    destruct (rebalance_left k k0 v0 (1 + Z.max (Height l) (Height r)) l' r) as (n' & Hn' & Ha & Hsame & Hrot);
      [done|done|lia| |].
    { intros Heq. destruct Hlean as [->|?]; [lia|simpl in *; lia|done]. }
    exists n'. split; [done|]. split; [done|]. destruct (decide (Height l' = Height r + 2)).
    + split; [lia|]. lia.
    + rewrite Hsame by lia. simpl. split; [lia|]. intros. right. left. split; [done|lia].
  - destruct (IHr Hr) as (r' & -> & Hr' & Hh & Hlean). simpl.
    destruct (rebalance_right k k0 v0 (1 + Z.max (Height l) (Height r)) l r') as (n' & Hn' & Ha & Hsame & Hrot);
      [done|done|lia| |].
    { intros Heq. destruct Hlean as [->|?]; [lia|simpl in *; lia|done]. }
    exists n'. split; [done|]. split; [done|]. destruct (decide (Height r' = Height l + 2)).
    + split; [lia|]. lia.
    + rewrite Hsame by lia. simpl. split; [lia|]. intros. right. right. split; [done|lia].
  - eexists. split; [done|]. simpl. split_and!; try done; lia.
Qed.

(** The height is logarithmic in the number of entries. *)
Lemma avl_height n : avl n → 2 ^ (Height n / 2) ≤ Z.of_nat (length (elements n)) + 1.
Proof.
  assert (∀ (m : nat) n, Z.to_nat (Height n) = m → avl n →
            2 ^ (Height n / 2) ≤ Z.of_nat (length (elements n)) + 1) as H; [|eauto].
  intros m. induction m as [m IH] using lt_wf_ind. intros [|k v h l r] Hm Hn; [done|].
  destruct Hn as (Hl & Hr & -> & Hd). pose proof (avl_nonneg l Hl). pose proof (avl_nonneg r Hr).
  simpl in *. rewrite length_app. simpl.
  pose proof (IH (Z.to_nat (Height l)) ltac:(lia) l eq_refl Hl) as HL.
  pose proof (IH (Z.to_nat (Height r)) ltac:(lia) r eq_refl Hr) as HR.
  set (q := Z.max (Height l) (Height r) - 1) in *.
  destruct (decide (q < 0)).
  { assert (Height l = 0 ∧ Height r = 0) as [E1 E2] by lia. rewrite E1, E2. change (2 ^ ((1 + Z.max 0 0) / 2)) with 1. lia. }
  assert ((1 + Z.max (Height l) (Height r)) / 2 = q / 2 + 1) as ->.
  { unfold q. rewrite <- Z.div_add by lia. f_equal. lia. }
  rewrite Z.pow_add_r by (lia || apply Z.div_pos; lia).
  assert (∀ a, q ≤ a → 2 ^ (q / 2) ≤ 2 ^ (a / 2)) as Hmono.
  { intros a Ha. apply Z.pow_le_mono_r; [lia|]. apply Z.div_le_mono; lia. }
  pose proof (Hmono (Height l) ltac:(lia)). pose proof (Hmono (Height r) ltac:(lia)). lia.
Qed.

Fixpoint put_all (ps : list (K * V)) (t : Tree) : option Tree :=
  match ps with
  | [] => Some t
  | (k, v) :: ps => t ← Put k v t; put_all ps t
  end.

Lemma put_all_spec ps t :
  avl (Root t) → bst (Root t) →
  ∃ t', put_all ps t = Some t' ∧ avl (Root t') ∧ bst (Root t') ∧
    ∀ k, assoc k (elements (Root t')) = assoc k (rev ps ++ elements (Root t)).
Proof.
  revert t. induction ps as [|[k v] ps IH]; simpl; intros t Ha Hb; [by exists t|].
  destruct (insert_avl (Root t) k v Ha) as (n & Hi & Hn & _). unfold Put. rewrite Hi. simpl.
  destruct (IH {| Root := n |} Hn (insert_bst _ _ _ _ Hb Hi)) as (t' & Ht & Ha' & Hb' & Hk).
  exists t'. split_and!; try done. intros k'. rewrite Hk. simpl.
  rewrite (insert_elements _ _ _ _ Hb Hi). rewrite <- (assoc_L (++)). simpl. clear.
  induction (rev ps) as [|[k1 v1] l IH]; simpl; [by apply assoc_ins|by rewrite IH].
Qed.

(** The AVL tree is a map of logarithmic height: whatever is put into an empty tree, no
    call panics on a nil child, Get gives the value last put for the key and nothing for
    a key never put, the keys are in order, every node's recorded height is right
    and its subtrees differ in height by at most one, so that a tree of n keys is at most
    about 2 log2 (n + 1) high. *)
Theorem avl_refines_map (ps : list (K * V)) :
  ∃ t, put_all ps New = Some t ∧
    (∀ k, Get k t = assoc k (rev ps)) ∧
    StronglySorted before (elements (Root t)) ∧ avl (Root t) ∧
    2 ^ (Height (Root t) / 2) ≤ Z.of_nat (length (elements (Root t))) + 1.
Proof.
  destruct (put_all_spec ps New) as (t & Ht & Ha & Hb & Hk); [done|done|]. exists t.
  split_and!; [done| |by apply bst_sorted|done|by apply avl_height].
  intros k. unfold Get. rewrite search_elements by done. by rewrite Hk, app_nil_r.
Qed.
End avl.

(** Ascending keys, which a plain search tree would make a list of height 7. *)
Example avl_ascending :
  (λ t, (Height (Root t), Get 4 t, Get 9 t)) <$>
    put_all [(1, "a"); (2, "b"); (3, "c"); (4, "d"); (5, "e"); (6, "f"); (7, "g"); (4, "h")] New =
  Some (3, Some "h", None).
Proof. vm_compute. reflexivity. Qed.
