(* ===== verification/BPlus.v ===== *)
(** * pkg/datastructures/tree/bplus

    The B+ tree.  Nodes are reached through one parent only, so that an update in place is a
    new node; the pointer [next] from leaf to leaf is written and never read, and left out.
    An index out of range is [None].  The recursion follows the height of the tree. *)

From S2P Require Import Prelude SliceSort.
From stdpp Require Import sorting options.
From S2P Require Import Ordered.
Open Scope Z_scope.
#[local] Set Default Proof Using "Type*".

(** [append(l, zero); copy(l[i+1:], l[i:]); l[i] = x] *)
Definition insert_at {A} (i : nat) (x : A) (l : list A) : list A := take i l ++ x :: drop i l.

(* src: pkg/datastructures/tree/bplus/tree.go 19-25 node *)
Inductive node (K V : Type) :=
  | Leaf (keys : list K) (values : list V)
  | Inner (keys : list K) (children : list (node K V)).
Arguments Leaf {K V} _ _.
Arguments Inner {K V} _ _.

Section BPlus.
  Context {K V : Type} `{Ordered K}.
  Implicit Types (n c : node K V) (ks : list K) (cs : list (node K V)).

(* src: pkg/datastructures/tree/bplus/tree.go 10-12 degree *)
Definition degree : nat := 4.
Definition max_keys : nat := 2 * degree - 1.

(* src: pkg/datastructures/tree/bplus/tree.go 27-31 New *)
Definition New : node K V := Leaf [] [].

Definition keys_of n : list K := match n with Leaf ks _ => ks | Inner ks _ => ks end.

Fixpoint height n : nat :=
  match n with Leaf _ _ => O | Inner _ cs => S (foldr max O (map height cs)) end.

(* src: pkg/datastructures/tree/bplus/tree.go 40-51 Search *)
Fixpoint child_index (key : K) ks : nat :=
  match ks with
  | [] => O
  | k :: ks => if olt key k then O else S (child_index key ks)
  end.

(* src: pkg/datastructures/tree/bplus/tree.go 56-56 Search *)
Definition leaf_index (key : K) ks : nat :=
  Z.to_nat (sort_Search (Z.of_nat (length ks))
    (λ i, match ks !! Z.to_nat i with Some k => ole key k | None => true end)).

(* src: pkg/datastructures/tree/bplus/tree.go 33-62 Search *)
Fixpoint search (fuel : nat) n (key : K) : option (option V) :=
  match n with
  | Leaf ks vs =>
      let idx := leaf_index key ks in
      match ks !! idx with
      | Some k => if oeq k key then v ← vs !! idx; Some (Some v) else Some None
      | None => Some None
      end
  | Inner ks cs =>
      match fuel with
      | O => None
      | S fuel => c ← cs !! child_index key ks; search fuel c key
      end
  end.
Definition Search n (key : K) : option (option V) := search (height n) n key.

(* src: pkg/datastructures/tree/bplus/tree.go 121-166 splitChild *)
Definition splitChild (parent : list K * list (node K V)) (index : nat) : option (list K * list (node K V)) :=
  child ← parent.2 !! index;
  let mid := (degree - 1)%nat in
  match child with
  | Leaf ks vs =>
      promotedKey ← ks !! mid;
      Some (insert_at index promotedKey parent.1,
            insert_at (S index) (Leaf (drop mid ks) (drop mid vs)) (<[index := Leaf (take mid ks) (take mid vs)]> parent.2))
  | Inner ks cs =>
      promotedKey ← ks !! mid;
      Some (insert_at index promotedKey parent.1,
            insert_at (S index) (Inner (drop (S mid) ks) (drop (S mid) cs))
              (<[index := Inner (take mid ks) (take (S mid) cs)]> parent.2))
  end.

(* src: pkg/datastructures/tree/bplus/tree.go 83-119 insertNonFull *)
Fixpoint insertNonFull (fuel : nat) n (key : K) (value : V) : option (node K V) :=
  match n with
  | Leaf ks vs =>
      let idx := leaf_index key ks in
      Some (Leaf (insert_at idx key ks) (insert_at idx value vs))
  | Inner ks cs =>
      match fuel with
      | O => None
      | S fuel =>
          let idx := child_index key ks in
          child ← cs !! idx;
          '(ks, cs, idx) ←
            (if decide (length (keys_of child) = max_keys) then
               '(ks, cs) ← splitChild (ks, cs) idx;
               k ← ks !! idx;
               Some (ks, cs, if ole k key then S idx else idx)
             else Some (ks, cs, idx));
          c ← cs !! idx;
          c ← insertNonFull fuel c key value;
          Some (Inner ks (<[idx := c]> cs))
      end
  end.

(* src: pkg/datastructures/tree/bplus/tree.go 64-81 Insert *)
Definition Insert root (key : K) (value : V) : option (node K V) :=
  if decide (length (keys_of root) = max_keys) then
    '(ks, cs) ← splitChild ([], [root]) 0;
    let newRoot := Inner ks cs in
    insertNonFull (height newRoot) newRoot key value
  else insertNonFull (height root) root key value.

(** ** The invariant

    [entries]: the pairs of the leaves, from left to right. *)
Fixpoint entries n : list (K * V) :=
  match n with Leaf ks vs => zip ks vs | Inner _ cs => concat (map entries cs) end.
Definition first_key n : option K := fst <$> head (entries n).

(** All leaves are at the same depth; every node but the root has at least [degree - 1] keys
    and at most [max_keys]; the keys of an inner node are the first keys of its children but
    the first. *)
Fixpoint wf (h : nat) n : Prop :=
  match h, n with
  | O, Leaf ks vs => length ks = length vs ∧ (length ks ≤ max_keys)%nat
  | S h, Inner ks cs =>
      length cs = S (length ks) ∧ (length ks ≤ max_keys)%nat ∧
      Forall (λ c, wf h c ∧ (degree - 1 ≤ length (keys_of c))%nat) cs ∧
      ∀ i k c, ks !! i = Some k → cs !! S i = Some c → first_key c = Some k
  | _, _ => False
  end.
Definition sorted_tree n : Prop := ordered (entries n).*1.
End BPlus.

(** ** Lists *)

Lemma insert_at_lookup {A} i (x : A) l j : (i ≤ length l)%nat →
  insert_at i x l !! j = if decide (j < i)%nat then l !! j else if decide (j = i) then Some x else l !! (j - 1)%nat.
Proof.
  intros Hi. unfold insert_at. destruct (decide (j < i)%nat) as [Hlt|Hge].
  - rewrite lookup_app_l by (rewrite length_take; lia). by rewrite lookup_take_lt.
  - rewrite lookup_app_r by (rewrite length_take; lia). rewrite length_take, Nat.min_l by lia.
    destruct (decide (j = i)) as [->|]; [by rewrite Nat.sub_diag|]. rewrite lookup_cons_ne_0 by lia.
    rewrite lookup_drop. f_equal. lia.
Qed.

Lemma insert_at_length {A} i (x : A) l : length (insert_at i x l) = S (length l).
Proof. unfold insert_at. rewrite length_app, length_cons, length_take, length_drop. lia. Qed.

Lemma insert_at_zip {A B} i (x : A) (y : B) l k : length l = length k →
  zip (insert_at i x l) (insert_at i y k) = take i (zip l k) ++ (x, y) :: drop i (zip l k).
Proof.
  intros Hl. unfold insert_at. rewrite zip_with_app by (rewrite !length_take; lia). cbn.
  by rewrite zip_with_take, zip_with_drop.
Qed.

Section proofs.
  Context {K V : Type} `{TotalOrder K}.
  Implicit Types (n c a b : node K V) (ks : list K) (cs : list (node K V)) (l r : list (K * V)).

Lemma ole_le (x y : K) : ole x y = true ↔ le x y.
Proof. rewrite ole_spec. unfold le. by destruct (olt y x). Qed.
Lemma key_le_antisym (x y : K) : le x y → le y x → x = y.
Proof. intros H1 H2. by apply olt_total. Qed.
Lemma not_olt_le (x y : K) : olt x y = false ↔ le y x.
Proof. done. Qed.

Lemma ordered_app (k1 k2 : list K) : ordered (k1 ++ k2) ↔ (∀ x y, x ∈ k1 → y ∈ k2 → le x y) ∧ ordered k1 ∧ ordered k2.
Proof. apply StronglySorted_app. Qed.

Lemma leaf_index_spec key ks : ordered ks → let i := leaf_index key ks in
  (i ≤ length ks)%nat ∧ (∀ j k, (j < i)%nat → ks !! j = Some k → olt k key = true) ∧
  (∀ j k, (i ≤ j)%nat → ks !! j = Some k → le key k).
Proof.
  intros Ho. unfold leaf_index, sort_Search. set (f := λ i, match ks !! Z.to_nat i with Some k => ole key k | None => true end).
  rewrite ordered_lookup in Ho.
  destruct (sort_Search_spec (Z.to_nat (Z.of_nat (length ks))) f 0 (Z.of_nat (length ks))) as (Hr & Hlow & Hup); [lia|lia| |].
  { intros x y _ Hxy _. unfold f. destruct (ks !! Z.to_nat x) as [kx|] eqn:Ex.
    - destruct (ks !! Z.to_nat y) as [ky|] eqn:Ey; [|done]. rewrite !ole_le. intros Hk. transitivity kx; [done|].
      destruct (decide (x = y)) as [->|]; [by assert (kx = ky) as -> by congruence|].
      destruct (decide (Z.to_nat x = Z.to_nat y)) as [E|]; [rewrite E in Ex; by assert (kx = ky) as -> by congruence|].
      apply (Ho (Z.to_nat x) (Z.to_nat y)); [lia|done|done].
    - apply lookup_ge_None in Ex. rewrite (proj2 (lookup_ge_None ks _)) by lia. done. }
  set (i := sort_search_loop _ f 0 _) in *. cbn zeta. split_and!; [lia| |].
  - intros j k Hj Hk. specialize (Hlow (Z.of_nat j) ltac:(lia)). unfold f in Hlow. rewrite Nat2Z.id, Hk, ole_spec in Hlow.
    by destruct (olt k key).
  - intros j k Hj Hk. pose proof (lookup_lt_Some _ _ _ Hk). specialize (Hup ltac:(lia)). unfold f in Hup.
    destruct (lookup_lt_is_Some_2 ks (Z.to_nat i)) as [ki Hki]; [lia|]. rewrite Hki, ole_le in Hup. transitivity ki; [done|].
    destruct (decide (j = Z.to_nat i)) as [->|]; [by assert (k = ki) as -> by congruence|]. apply (Ho (Z.to_nat i) j); [lia|done|done].
Qed.

Lemma child_index_spec key ks : let i := child_index key ks in
  (i ≤ length ks)%nat ∧ (∀ j k, i = S j → ks !! j = Some k → le k key) ∧ (∀ k, ks !! i = Some k → olt key k = true).
Proof.
  induction ks as [|k ks (H1 & H2 & H3)]; cbn zeta in *; cbn [child_index]; [split_and!; [cbn; lia|done|done]|].
  destruct (olt key k) eqn:E; [split_and!; [cbn; lia|done|by intros ? [= <-]]|]. split_and!; [cbn; lia| |done].
  intros j x [= <-]. destruct (child_index key ks) as [|j]; [by intros [= <-]|]. cbn. by apply H2.
Qed.

Lemma concat_lookup cs i c : cs !! i = Some c →
  concat (map entries cs) = concat (map entries (take i cs)) ++ entries c ++ concat (map entries (drop (S i) cs)).
Proof.
  intros Hc. rewrite <- (take_drop_middle cs i c Hc) at 1. rewrite map_app, concat_app. done.
Qed.

Lemma wf_height h n : wf h n → height n = h.
Proof.
  revert n. induction h as [|h IH]; intros [ks vs|ks cs] Hwf; try done. destruct Hwf as (Hl & _ & Hc & _). cbn. f_equal.
  destruct cs as [|c cs]; [done|]. clear Hl. assert (∀ cs, Forall (λ c, wf h c ∧ (degree - 1 ≤ length (keys_of c))%nat) cs → (foldr max 0 (map height cs) ≤ h)%nat) as Hle.
  { intros l Hl. induction Hl as [|x l [Hx _] _ IHl]; cbn; [lia|]. rewrite (IH _ Hx). lia. }
  apply Forall_cons in Hc as [[Hc _] Hcs]. cbn. rewrite (IH _ Hc). specialize (Hle _ Hcs). lia.
Qed.

Lemma entries_nonempty h n : wf h n → (1 ≤ length (keys_of n))%nat → is_Some (first_key n).
Proof.
  revert n. induction h as [|h IH]; intros [ks vs|ks cs] Hwf Hk; try done.
  - destruct Hwf as [Hl _]. destruct ks as [|k ks], vs as [|v vs]; cbn in *; [lia|done|done|by eexists].
  - destruct Hwf as (Hl & _ & Hc & _). destruct cs as [|c cs]; [done|]. apply Forall_cons in Hc as [[Hc Hn] _].
    destruct (IH c Hc) as [k Hk']; [unfold degree in Hn; lia|]. unfold first_key in *. cbn. destruct (entries c); [done|by eexists].
Qed.

Lemma first_key_inner ks c cs k : first_key c = Some k → first_key (Inner ks (c :: cs)) = Some k.
Proof. unfold first_key. cbn. destruct (entries c); [done|]. done. Qed.

Lemma first_key_elem n k : first_key n = Some k → k ∈ (entries n).*1.
Proof. unfold first_key. destruct (entries n) as [|[x v] l]; [done|]. intros [= <-]. cbn. set_solver. Qed.

Lemma first_key_le n k x : sorted_tree n → first_key n = Some k → x ∈ (entries n).*1 → le k x.
Proof.
  unfold sorted_tree, first_key. destruct (entries n) as [|[y v] l]; [done|]. intros [_ Ha]%StronglySorted_inv [= <-]. cbn.
  intros [->|Hx]%elem_of_cons; [reflexivity|]. rewrite Forall_forall in Ha. by apply Ha.
Qed.

(** ** Splitting a full node *)

Lemma split_leaf ks (vs : list V) : wf 0 (Leaf ks vs) → length ks = max_keys →
  let a := Leaf (take 3 ks) (take 3 vs) in let b := Leaf (drop 3 ks) (drop 3 vs) in
  wf 0 a ∧ wf 0 b ∧ entries (Leaf ks vs) = entries a ++ entries b ∧ first_key b = ks !! 3%nat ∧
  length (keys_of a) = 3%nat ∧ length (keys_of b) = 4%nat.
Proof.
  intros [Hl _] Hk. unfold max_keys, degree in Hk. cbn in Hk. cbn [wf entries keys_of].
  rewrite !length_take, !length_drop, <- Hl, Hk. unfold max_keys, degree. split_and!; try (cbn; lia).
  - rewrite <- zip_with_take, <- zip_with_drop. by rewrite take_drop.
  - unfold first_key. cbn [entries]. do 7 (destruct ks as [|? ks]; [done|]). do 7 (destruct vs as [|? vs]; [done|]). done.
Qed.

Lemma split_inner h ks cs : wf (S h) (Inner ks cs) → length ks = max_keys →
  let a := Inner (take 3 ks) (take 4 cs) in let b := Inner (drop 4 ks) (drop 4 cs) in
  wf (S h) a ∧ wf (S h) b ∧ entries (Inner ks cs) = entries a ++ entries b ∧ first_key b = ks !! 3%nat ∧
  length (keys_of a) = 3%nat ∧ length (keys_of b) = 3%nat.
Proof.
  intros (Hl & _ & Hc & Hs) Hk. rewrite Hk in Hl. unfold max_keys, degree in Hk, Hl. cbn in Hk, Hl. cbn [wf entries keys_of].
  rewrite !length_take, !length_drop, Hl, Hk. unfold max_keys. split_and!; try (unfold degree; cbn; lia).
  - by apply Forall_take.
  - intros i k c Hi Hc'. apply lookup_take_Some in Hi as [Hi ?], Hc' as [Hc' ?]. by apply (Hs i).
  - by apply Forall_drop.
  - intros i k c Hi Hc'. rewrite lookup_drop in Hi. rewrite lookup_drop in Hc'. apply (Hs (4 + i)%nat); [done|]. by rewrite <- Hc'.
  - by rewrite <- concat_app, <- map_app, take_drop.
  - destruct (lookup_lt_is_Some_2 ks 3) as [k Hk3]; [lia|]. destruct (lookup_lt_is_Some_2 cs 4) as [c Hc4]; [lia|].
    rewrite Hk3. rewrite (drop_S cs c 4 Hc4). apply first_key_inner. by apply (Hs 3%nat).
Qed.

(** The pairs after a replacement of the child at [i]. *)
Lemma concat_insert cs i c : (i < length cs)%nat →
  concat (map entries (<[i := c]> cs)) = concat (map entries (take i cs)) ++ entries c ++ concat (map entries (drop (S i) cs)).
Proof. intros Hi. rewrite insert_take_drop by done. by rewrite map_app, concat_app. Qed.

Lemma splitChild_ok h ks cs idx child : wf (S h) (Inner ks cs) → cs !! idx = Some child →
  length (keys_of child) = max_keys → (length ks < max_keys)%nat →
  ∃ p a b, splitChild (ks, cs) idx = Some (insert_at idx p ks, insert_at (S idx) b (<[idx := a]> cs)) ∧
    wf (S h) (Inner (insert_at idx p ks) (insert_at (S idx) b (<[idx := a]> cs))) ∧
    entries (Inner (insert_at idx p ks) (insert_at (S idx) b (<[idx := a]> cs))) = entries (Inner ks cs) ∧
    (length (keys_of a) < max_keys)%nat ∧ (length (keys_of b) < max_keys)%nat.
Proof.
  intros (Hl & Hm & Hc & Hs) Hi Hk Hlt. pose proof (lookup_lt_Some _ _ _ Hi) as Hidx.
  assert (∃ p a b, splitChild (ks, cs) idx = Some (insert_at idx p ks, insert_at (S idx) b (<[idx := a]> cs)) ∧
    wf h a ∧ wf h b ∧ entries child = entries a ++ entries b ∧ first_key b = Some p ∧
    (3 ≤ length (keys_of a) < 5)%nat ∧ (3 ≤ length (keys_of b) < 5)%nat) as (p & a & b & E & Wa & Wb & Ee & Fb & La & Lb).
  { rewrite Forall_lookup in Hc. destruct (Hc idx child Hi) as [Hwf _]. unfold splitChild. cbn [fst snd]. rewrite Hi. cbn.
    destruct child as [ks' vs'|ks' cs']; cbn [keys_of] in Hk; destruct (lookup_lt_is_Some_2 ks' 3) as [p Hp];
      try (rewrite Hk; unfold max_keys, degree; cbn; lia); rewrite Hp; cbn; eexists p, _, _; (split; [reflexivity|]).
    - destruct h; [|done]. destruct (split_leaf ks' vs' Hwf Hk) as (H1 & H2 & H3 & H4 & H5 & H6). rewrite Hp in H4.
      cbn [keys_of] in *. split_and!; try done; lia.
    - destruct h as [|h]; [done|]. destruct (split_inner h ks' cs' Hwf Hk) as (H1 & H2 & H3 & H4 & H5 & H6). rewrite Hp in H4.
      cbn [keys_of] in *. split_and!; try done; lia. }
  exists p, a, b. unfold max_keys, degree in *. cbn in Hlt. split_and!; [done| | |cbn; lia|cbn; lia].
  - cbn [wf]. rewrite !insert_at_length, length_insert. unfold max_keys, degree. split_and!; [lia|cbn; lia| |].
    + unfold insert_at. apply Forall_app. split; [apply Forall_take, Forall_insert; [done|split; [done|cbn; lia]]|].
      constructor; [split; [done|cbn; lia]|]. apply Forall_drop, Forall_insert; [done|split; [done|cbn; lia]].
    + intros i k c Hki Hci. rewrite insert_at_lookup in Hki by lia. rewrite insert_at_lookup in Hci by (rewrite length_insert; lia).
      destruct (decide (i < idx)%nat) as [Hii|Hii].
      * rewrite decide_True in Hci by lia. destruct (decide (S i = idx)) as [<-|Hne].
        -- rewrite list_lookup_insert_eq in Hci by done. injection Hci as <-. specialize (Hs i k child Hki Hi).
           unfold first_key in *. rewrite Ee in Hs. destruct (entries a) eqn:Ea; [|done].
           destruct (entries_nonempty h a Wa ltac:(lia)) as [? Hx]. unfold first_key in Hx. by rewrite Ea in Hx.
        -- rewrite list_lookup_insert_ne in Hci by done. by apply (Hs i).
      * destruct (decide (i = idx)) as [->|Hne].
        -- rewrite decide_False, decide_True in Hci by lia. congruence.
        -- rewrite decide_False, decide_False, list_lookup_insert_ne in Hci by lia. apply (Hs (i - 1)%nat); [done|].
           rewrite <- Hci. f_equal. lia.
  - cbn [entries]. rewrite (concat_lookup cs idx child Hi), Ee. unfold insert_at.
    rewrite map_app, concat_app. cbn [map concat]. rewrite insert_take_drop by done.
    replace (S idx) with (idx + 1)%nat at 1 3 by lia.
    rewrite take_app_add', drop_app_add' by (rewrite length_take; lia). cbn [take drop]. rewrite map_app, concat_app. cbn [map concat].
    by rewrite app_nil_r, <- !app_assoc.
Qed.

(** ** Insertion *)

(** The child at [idx] is the one for [key]. *)
Definition routed (key : K) ks (idx : nat) : Prop :=
  (idx ≤ length ks)%nat ∧ (∀ j k, idx = S j → ks !! j = Some k → le k key) ∧ (∀ k, ks !! idx = Some k → olt key k = true).

(** [l'] is [l] with a pair put in order. *)
Definition put_in_order (key : K) (value : V) (l l' : list (K * V)) : Prop :=
  ∃ l1 l2, l = l1 ++ l2 ∧ l' = l1 ++ (key, value) :: l2 ∧
    (∀ x, x ∈ l1.*1 → le x key) ∧ (∀ x, x ∈ l2.*1 → le key x).

Lemma put_ordered key value l l' : put_in_order key value l l' → ordered l.*1 → ordered l'.*1.
Proof.
  intros (l1 & l2 & -> & -> & H1 & H2). rewrite !fmap_app, !ordered_app. cbn. intros (H3 & H4 & H5). split_and!; [|done|].
  - intros x y Hx [->|Hy]%elem_of_cons; [by apply H1|by apply H3].
  - constructor; [done|]. rewrite Forall_forall. exact H2.
Qed.

(** In the children left of the routed one no key is above [key], in those right of it none
    is below. *)
Lemma routed_sides h ks cs key idx c : wf (S h) (Inner ks cs) → sorted_tree (Inner ks cs) → routed key ks idx → cs !! idx = Some c →
  (∀ x, x ∈ (concat (map entries (take idx cs))).*1 → le x key ∧ (∀ y, first_key c = Some y → le x y)) ∧
  (∀ x, x ∈ (concat (map entries (drop (S idx) cs))).*1 → olt key x = true) ∧
  sorted_tree c ∧ (∀ j, idx = S j → ∃ y, first_key c = Some y ∧ ks !! j = Some y ∧ le y key).
Proof.
  intros (Hl & _ & Hc & Hs) Ho (R1 & R2 & R3) Hi. unfold sorted_tree in Ho. cbn [entries] in Ho.
  rewrite (concat_lookup cs idx c Hi), !fmap_app, !ordered_app in Ho. destruct Ho as (O1 & O2 & O3 & O4 & O5).
  assert (∀ j, idx = S j → ∃ y, first_key c = Some y ∧ ks !! j = Some y ∧ le y key) as Hfirst.
  { intros j ->. destruct (lookup_lt_is_Some_2 ks j) as [y Hy]; [lia|]. exists y. split_and!; [by apply (Hs j)|done|by apply (R2 j)]. }
  split_and!; [| |done|done].
  - intros x Hx. assert (∀ y, first_key c = Some y → le x y) as Hxy.
    { intros y Hy. apply O1; [done|]. rewrite elem_of_app. left. by apply first_key_elem. }
    split; [|done]. destruct idx as [|j]; [by apply elem_of_nil in Hx|]. destruct (Hfirst j eq_refl) as (y & Hy & _ & Hle).
    transitivity y; [by apply Hxy|done].
  - intros x Hx. destruct (cs !! S idx) as [b|] eqn:Eb.
    + pose proof (lookup_lt_Some _ _ _ Eb). destruct (lookup_lt_is_Some_2 ks idx) as [y Hy]; [lia|].
      pose proof (Hs idx y b Hy Eb) as Hfb. specialize (R3 y Hy). rewrite (drop_S cs b (S idx) Eb) in O5, Hx. cbn [map concat] in O5, Hx.
      assert (le y x) as Hyx.
      { rewrite fmap_app in Hx, O5. apply ordered_app in O5 as (O6 & O7 & _). apply elem_of_app in Hx as [Hx|Hx].
        - by apply (first_key_le b).
        - apply O6; [by apply first_key_elem|done]. }
      destruct (olt key x) eqn:E; [done|]. assert (le y key) as Hc' by (transitivity x; [done|exact E]). unfold le in Hc'. congruence.
    + rewrite (drop_ge cs (S idx)) in Hx by (by apply lookup_ge_None). by apply elem_of_nil in Hx.
Qed.

(** Putting the pair into the routed child puts it into the node. *)
Lemma routed_put h ks cs key value idx c c' : wf (S h) (Inner ks cs) → sorted_tree (Inner ks cs) → routed key ks idx → cs !! idx = Some c →
  wf h c' → put_in_order key value (entries c) (entries c') → (length (keys_of c) ≤ length (keys_of c'))%nat →
  wf (S h) (Inner ks (<[idx := c']> cs)) ∧
  put_in_order key value (entries (Inner ks cs)) (entries (Inner ks (<[idx := c']> cs))).
Proof.
  intros Hwf Ho Hr Hi Hwf' (l & r & El & Er & Hl & Hrr) Hn. pose proof (lookup_lt_Some _ _ _ Hi) as Hidx.
  destruct (routed_sides h ks cs key idx c Hwf Ho Hr Hi) as (Hleft & Hright & _ & Hfirst). destruct Hwf as (Hlen & Hm & Hc & Hs). split.
  - cbn [wf]. rewrite length_insert. split_and!; [done|done| |].
    + apply Forall_insert; [done|]. split; [done|]. rewrite Forall_lookup in Hc. destruct (Hc idx c Hi). lia.
    + intros i k d Hk Hd. destruct (decide (S i = idx)) as [<-|Hne]; [|rewrite list_lookup_insert_ne in Hd by done; by apply (Hs i)].
      rewrite list_lookup_insert_eq in Hd by done. injection Hd as <-. destruct (Hfirst i eq_refl) as (y & Hy & Hky & Hle).
      assert (y = k) as -> by congruence. unfold first_key in *. rewrite Er. rewrite El in Hy. destruct l as [|p l]; [|done]. cbn. f_equal.
      destruct r as [|[x v] r]; [done|]. cbn in Hy. injection Hy as ->. apply key_le_antisym; [|done]. apply Hrr. set_solver.
  - cbn [entries]. rewrite (concat_lookup cs idx c Hi), concat_insert by done. rewrite El, Er.
    exists (concat (map entries (take idx cs)) ++ l), (r ++ concat (map entries (drop (S idx) cs))). rewrite <- !app_assoc. split_and!; [done|done| |].
    + intros x. rewrite fmap_app, elem_of_app. intros [Hx|Hx]; [by destruct (Hleft x Hx)|by apply Hl].
    + intros x. rewrite fmap_app, elem_of_app. intros [Hx|Hx]; [by apply Hrr|by apply olt_le, Hright].
Qed.

Lemma insertNonFull_ok key value h : ∀ n, wf h n → sorted_tree n → (length (keys_of n) < max_keys)%nat →
  ∃ n', insertNonFull h n key value = Some n' ∧ wf h n' ∧ put_in_order key value (entries n) (entries n') ∧
    (length (keys_of n) ≤ length (keys_of n'))%nat.
Proof.
  induction h as [|h IH]; intros [ks vs|ks cs] Hwf Ho Hlt; try done.
  - destruct Hwf as [Hl Hm]. unfold sorted_tree in Ho. cbn [entries keys_of] in *. rewrite fst_zip in Ho by lia. eexists. split; [done|].
    destruct (leaf_index_spec key ks Ho) as (I1 & I2 & I3). set (i := leaf_index key ks) in *. cbn [wf entries keys_of].
    rewrite !insert_at_length, insert_at_zip by done. split_and!; [lia|lia| |lia].
    exists (take i (zip ks vs)), (drop i (zip ks vs)). split_and!; [by rewrite take_drop|done| |].
    + intros x. rewrite fmap_take, fst_zip by lia. intros (j & Hj)%list_elem_of_lookup. apply lookup_take_Some in Hj as [Hj ?]. eapply olt_le, I2; done.
    + intros x. rewrite fmap_drop, fst_zip by lia. intros (j & Hj)%list_elem_of_lookup. rewrite lookup_drop in Hj. eapply I3; [|done]. lia.
  - cbn [insertNonFull keys_of] in *. pose proof (child_index_spec key ks) as Hroute. set (idx := child_index key ks) in *.
    destruct (lookup_lt_is_Some_2 cs idx) as [child Hi]; [destruct Hwf; cbn in Hroute; lia|]. rewrite Hi. cbn [mbind option_bind].
    assert (∃ ks' cs' idx' c, (if decide (length (keys_of child) = max_keys) then
               '(ks, cs) ← splitChild (ks, cs) idx; k ← ks !! idx; Some (ks, cs, if ole k key then S idx else idx)
             else Some (ks, cs, idx)) = Some (ks', cs', idx') ∧ cs' !! idx' = Some c ∧ (length (keys_of c) < max_keys)%nat ∧
        wf (S h) (Inner ks' cs') ∧ entries (Inner ks' cs') = entries (Inner ks cs) ∧ routed key ks' idx' ∧ (length ks ≤ length ks')%nat)
      as (ks' & cs' & idx' & c & -> & Hc & Hlc & Hwf' & Ee & Hr & Hlen).
    { destruct (decide _) as [Hfull|Hfull].
      2: { exists ks, cs, idx, child. split_and!; try done; [|apply Hroute..]. destruct Hwf as (_ & _ & Hall & _). rewrite Forall_lookup in Hall.
           destruct (Hall _ _ Hi) as [Hw _]. destruct h, child; cbn [wf keys_of] in *; (done || (destruct Hw as [_ Hw]; lia) || (destruct Hw as (_ & Hw & _); lia)). }
      destruct (splitChild_ok h ks cs idx child Hwf Hi Hfull Hlt) as (p & a & b & -> & Hw & He & La & Lb). cbn [mbind option_bind].
      pose proof (lookup_lt_Some _ _ _ Hi) as Hidx. destruct Hroute as (R1 & R2 & R3). cbn zeta in *.
      rewrite (insert_at_lookup idx p ks idx), decide_False, decide_True by lia. cbn [mbind option_bind].
      eexists _, _, _, (if ole p key then b else a). split; [reflexivity|]. rewrite insert_at_lookup by (rewrite length_insert; lia).
      split_and!; [| | done|done| |rewrite insert_at_length; lia].
      - destruct (ole p key); [by rewrite decide_False, decide_True by lia|]. rewrite decide_True by lia. by apply list_lookup_insert_eq.
      - by destruct (ole p key).
      - unfold routed. rewrite insert_at_length. destruct (ole p key) eqn:Ep; (split_and!; [lia| |]).
        + intros j k [= <-]. rewrite insert_at_lookup, decide_False, decide_True by lia. intros [= <-]. by apply ole_le.
        + intros k. rewrite insert_at_lookup, decide_False, decide_False by lia. rewrite Nat.sub_succ, Nat.sub_0_r. apply R3.
        + intros j k Hj. rewrite insert_at_lookup, decide_True by lia. by apply R2.
        + intros k. rewrite insert_at_lookup, decide_False, decide_True by lia. intros [= <-]. rewrite ole_spec in Ep. by destruct (olt key p). }
    cbn [mbind option_bind]. rewrite Hc. cbn [mbind option_bind]. assert (sorted_tree (Inner ks' cs')) as Ho' by (unfold sorted_tree; by rewrite Ee).
    destruct (routed_sides h ks' cs' key idx' c Hwf' Ho' Hr Hc) as (_ & _ & Hoc & _).
    assert (wf h c) as Hwc by (destruct Hwf' as (_ & _ & Hall & _); rewrite Forall_lookup in Hall; by apply (Hall _ _ Hc)).
    destruct (IH c Hwc Hoc Hlc) as (c' & -> & Hw & Hput & Hn). cbn [mbind option_bind].
    destruct (routed_put h ks' cs' key value idx' c c' Hwf' Ho' Hr Hc Hw Hput Hn) as [H1 H2]. rewrite Ee in H2.
    eexists. split_and!; [reflexivity|done|done|done].
Qed.

(** ** Search *)

Lemma search_ok key h : ∀ n, wf h n → sorted_tree n →
  ∃ r : option V, search h n key = Some r ∧ match r with Some v => (key, v) ∈ entries n | None => key ∉ (entries n).*1 end.
Proof.
  induction h as [|h IH]; intros [ks vs|ks cs] Hwf Ho; try done.
  - destruct Hwf as [Hl _]. unfold sorted_tree in Ho. cbn [entries search] in *. rewrite fst_zip in Ho |- * by lia.
    destruct (leaf_index_spec key ks Ho) as (I1 & I2 & I3). set (i := leaf_index key ks) in *. cbn zeta in *.
    assert (∀ j, ks !! j = Some key → (i ≤ j)%nat) as Hge.
    { intros j Hj. destruct (decide (j < i)%nat) as [Hlt|]; [|lia]. specialize (I2 j key Hlt Hj). by rewrite olt_irrefl in I2. }
    destruct (ks !! i) as [k|] eqn:Ei.
    + destruct (oeq k key) eqn:Ek.
      * apply oeq_spec in Ek as ->. destruct (lookup_lt_is_Some_2 vs i) as [v Hv]; [apply lookup_lt_Some in Ei; lia|].
        rewrite Hv. exists (Some v). split; [done|]. apply list_elem_of_lookup. exists i. rewrite lookup_zip_with, Ei, Hv. done.
      * exists None. split; [done|]. intros (j & Hj)%list_elem_of_lookup. assert (k = key) as ->; [|by rewrite (proj2 (oeq_spec key key)) in Ek].
        apply key_le_antisym; [|by apply (I3 i)]. specialize (Hge j Hj). rewrite ordered_lookup in Ho.
        destruct (decide (i = j)) as [->|]; [assert (k = key) as -> by congruence; reflexivity|]. apply (Ho i j); [lia|done|done].
    + exists None. split; [done|]. intros (j & Hj)%list_elem_of_lookup. specialize (Hge j Hj). apply lookup_ge_None in Ei.
      apply lookup_lt_Some in Hj. lia.
  - cbn [search]. pose proof (child_index_spec key ks) as Hr. set (idx := child_index key ks) in *. cbn zeta in Hr.
    destruct (lookup_lt_is_Some_2 cs idx) as [c Hi]; [destruct Hwf; lia|]. rewrite Hi. cbn [mbind option_bind].
    destruct (routed_sides h ks cs key idx c Hwf Ho Hr Hi) as (Hleft & Hright & Hoc & Hfirst).
    assert (wf h c) as Hwc by (destruct Hwf as (_ & _ & Hall & _); rewrite Forall_lookup in Hall; by apply (Hall _ _ Hi)).
    destruct (IH c Hwc Hoc) as (r & -> & Hres). exists r. split; [done|]. cbn [entries]. rewrite (concat_lookup cs idx c Hi). destruct r as [v|].
    + rewrite !elem_of_app. by right; left.
    + rewrite !fmap_app, !elem_of_app. intros [Hx|[Hx|Hx]]; [|done|by specialize (Hright key Hx); rewrite olt_irrefl in Hright].
      apply Hres. destruct idx as [|j]; [by apply elem_of_nil in Hx|]. destruct (Hfirst j eq_refl) as (y & Hy & _ & Hle).
      destruct (Hleft key Hx) as [_ Hxy]. specialize (Hxy y Hy). rewrite (key_le_antisym key y) by done. by apply first_key_elem.
Qed.

(** ** Histories *)

Fixpoint insert_all (ops : list (K * V)) n : option (node K V) :=
  match ops with [] => Some n | (k, v) :: ops => n ← Insert n k v; insert_all ops n end.

Lemma Insert_ok h n key value : wf h n → sorted_tree n →
  ∃ h' n', Insert n key value = Some n' ∧ wf h' n' ∧ sorted_tree n' ∧ entries n' ≡ₚ (key, value) :: entries n.
Proof.
  intros Hwf Ho. assert (∀ n0, put_in_order key value (entries n) (entries n0) → sorted_tree n0 ∧ entries n0 ≡ₚ (key, value) :: entries n) as Hput.
  { intros n0 Hp. split; [by eapply put_ordered|]. destruct Hp as (l & r & -> & -> & _). by rewrite Permutation_middle. }
  unfold Insert. destruct (decide _) as [Hfull|Hfull].
  - destruct (splitChild_ok h [] [n] 0 n) as (p & a & b & E & Hw & He & La & Lb); [|done|done|by unfold max_keys; cbn; lia|].
    { cbn [wf]. split_and!; [done|cbn; lia| |done]. constructor; [|done]. split; [done|]. rewrite Hfull. unfold max_keys, degree. cbn. lia. }
    rewrite E. cbn [mbind option_bind]. set (root := Inner _ _) in *. cbn [entries map concat] in He. rewrite app_nil_r in He.
    rewrite (wf_height _ _ Hw). destruct (insertNonFull_ok key value (S h) root Hw) as (n' & E' & Hw' & Hp & _).
    { unfold sorted_tree. by rewrite He. } { cbn. unfold max_keys, degree. lia. }
    rewrite He in Hp. destruct (Hput n' Hp). eauto 10.
  - rewrite (wf_height _ _ Hwf). destruct (insertNonFull_ok key value h n Hwf Ho) as (n' & E' & Hw' & Hp & _).
    { destruct h, n as [ks vs|ks cs]; cbn [wf keys_of] in *; (done || (destruct Hwf as [_ ?]; lia) || (destruct Hwf as (_ & ? & _); lia)). }
    destruct (Hput n' Hp). eauto 10.
Qed.

Lemma insert_all_ok ops : ∀ h n, wf h n → sorted_tree n →
  ∃ h' n', insert_all ops n = Some n' ∧ wf h' n' ∧ sorted_tree n' ∧ entries n' ≡ₚ ops ++ entries n.
Proof.
  induction ops as [|[k v] ops IH]; intros h n Hwf Ho; [exists h, n; done|]. cbn.
  destruct (Insert_ok h n k v Hwf Ho) as (h1 & n1 & -> & Hw1 & Ho1 & Hp1). cbn.
  destruct (IH h1 n1 Hw1 Ho1) as (h2 & n2 & E & Hw2 & Ho2 & Hp2). exists h2, n2. split_and!; [done|done|done|].
  rewrite Hp2, Hp1. by rewrite Permutation_middle.
Qed.

(** C32. The B+ tree holds what was inserted.  Whatever pairs are inserted, no index is out of
    range; all leaves stay at one depth, nodes keep between [degree - 1] and [2 degree - 1]
    keys, and the leaves read from left to right are the inserted pairs in ascending order of
    their keys.  A search finds a value that was inserted under the key, and nothing only if
    there is none; so if the keys are distinct it finds the value of the key. *)
Theorem bplus_holds_inserted (ops : list (K * V)) :
  ∃ t, insert_all ops New = Some t ∧ wf (height t) t ∧ sorted_tree t ∧ entries t ≡ₚ ops ∧
    ∀ key, ∃ r : option V, Search t key = Some r ∧
      match r with Some v => (key, v) ∈ ops | None => key ∉ ops.*1 end ∧
      (NoDup ops.*1 → ∀ v, (key, v) ∈ ops → r = Some v).
Proof.
  destruct (insert_all_ok ops 0 New) as (h & t & E & Hw & Ho & Hp); [by cbn; unfold max_keys; lia|constructor|].
  cbn in Hp. rewrite app_nil_r in Hp. exists t. rewrite (wf_height _ _ Hw). split_and!; [done..|]. intros key.
  unfold Search. rewrite (wf_height _ _ Hw). destruct (search_ok key h t Hw Ho) as (r & Es & Hr). exists r. split; [done|].
  assert (match r with Some v => (key, v) ∈ ops | None => key ∉ ops.*1 end) as Hr' by (destruct r; by rewrite <- Hp).
  split; [done|]. intros Hnd v Hv. destruct r as [v'|].
  - f_equal. apply list_elem_of_lookup in Hr' as [i Hi], Hv as [j Hj].
    assert (i = j) as ->; [|congruence]. apply (NoDup_lookup ops.*1 i j key Hnd); by rewrite list_lookup_fmap, ?Hi, ?Hj.
  - destruct Hr'. apply list_elem_of_fmap. by exists (key, v).
Qed.
End proofs.

Lemma bplus_holds_inserted_witness :
  ∃ t, insert_all [(3, 30); (1, 10); (2, 20)] New = Some t ∧ Search t 2 = Some (Some 20).
Proof.
  destruct (bplus_holds_inserted (K := Z) (V := Z) [(3, 30); (1, 10); (2, 20)]) as (t & E & _ & _ & _ & Hs).
  exists t. split; [exact E|]. destruct (Hs 2) as (r & Hr & _ & Hu). rewrite Hr. f_equal. apply Hu; compute_decide.
Defined.

(** An old value comes back: a second insertion under a key puts its pair before the first
    one in the leaf; if the leaf is later split between the two, a search is led to the
    second half and finds the first value. *)
Theorem bplus_stale_value :
  let ops := [(1, 10); (2, 20); (3, 30); (4, 40); (5, 50); (6, 60); (3, 31)] in
  (t ← insert_all ops New; Search t 3) = Some (Some 31) ∧
  (t ← insert_all (ops ++ [(7, 70)]) New; Search t 3) = Some (Some 30).
Proof. vm_compute. done. Qed.
