(* ===== verification/Skiplist.v ===== *)
(** * pkg/datastructures/skiplist and tree/lsm

    The skip list on a heap of nodes, and the memory table of an LSM tree on top of it.  The head
    is the node at address 0; a nil dereference and an index out of range are [None].  The
    random draws are arguments.  A walk along a level visits a node once, so that the number of
    nodes is fuel enough. *)

From S2P Require Import Prelude GoStrings.
From stdpp Require Import sorting options.
From S2P Require Import Ordered.
Open Scope Z_scope.
#[local] Set Default Proof Using "Type*".

(* src: pkg/datastructures/skiplist/skiplist.go 10-11 maxLevel *)
Definition maxLevel : nat := 16.

(* src: pkg/datastructures/skiplist/skiplist.go 19-23 node *)
Record node (K V : Type) := Node { key : K; value : V; forward : list (option nat) }.
Arguments Node {K V} _ _ _.
Arguments key {K V} _.
Arguments value {K V} _.
Arguments forward {K V} _.

(* src: pkg/datastructures/skiplist/skiplist.go 13-17 SkipList *)
Record SkipList (K V : Type) := { heap : gmap nat (node K V); level : nat }.
Arguments heap {K V} _.
Arguments level {K V} _.
Definition head : nat := 0.

Section skiplist.
  Context {K V : Type} `{Ordered K} (zero_key : K) (zero : V).
  Implicit Types (s : SkipList K V) (hp : gmap nat (node K V)).

(* src: pkg/datastructures/skiplist/skiplist.go 25-30 New *)
Definition New : SkipList K V := {| heap := {[ head := Node zero_key zero (replicate maxLevel None) ]}; level := 0 |}.

(** Along level [i] while the next key is smaller. *)
(* src: pkg/datastructures/skiplist/skiplist.go 40-42 Set *)
Fixpoint walk (fuel : nat) hp (i : nat) (k : K) (current : nat) : option nat :=
  nd ← hp !! current;
  f ← forward nd !! i;
  match f with
  | None => Some current
  | Some a =>
      na ← hp !! a;
      if olt (key na) k then match fuel with O => None | S fuel => walk fuel hp i k a end else Some current
  end.

(** The levels below [n], from the top: the last node, and the nodes at which each level was
    left. *)
(* src: pkg/datastructures/skiplist/skiplist.go 36-44 Set *)
Fixpoint descend hp (n : nat) (k : K) (current : nat) : option (nat * list nat) :=
  match n with
  | O => Some (current, [])
  | S i =>
      current ← walk (size hp) hp i k current;
      '(last, update) ← descend hp i k current;
      Some (last, update ++ [current])
  end.

(** [current.forward[0]], if it has the key. *)
(* src: pkg/datastructures/skiplist/skiplist.go 46-48 Set *)
Definition hit hp (current : nat) (k : K) : option (option nat) :=
  nd ← hp !! current;
  f ← forward nd !! 0%nat;
  match f with
  | None => Some None
  | Some a => na ← hp !! a; Some (if oeq (key na) k then Some a else None)
  end.

Definition set_forward (i : nat) (p : option nat) (nd : node K V) : node K V := Node (key nd) (value nd) (<[i := p]> (forward nd)).

(** The loop that links the new node in at the levels [ix]. *)
(* src: pkg/datastructures/skiplist/skiplist.go 67-70 Set *)
Fixpoint link (ix : list nat) (new : nat) (update : list nat) hp : option (gmap nat (node K V)) :=
  match ix with
  | [] => Some hp
  | i :: ix =>
      u ← update !! i;
      un ← hp !! u;
      f ← forward un !! i;
      nn ← hp !! new;
      let hp := <[new := set_forward i f nn]> hp in
      un ← hp !! u;
      link ix new update (<[u := set_forward i (Some new) un]> hp)
  end.

(** [draws n] is whether draw number [n] was below [p]. *)
(* src: pkg/datastructures/skiplist/skiplist.go 125-127 randomLevel *)
Fixpoint random_level (fuel lvl : nat) (draws : nat → bool) : nat :=
  match fuel with
  | O => lvl
  | S fuel => if draws lvl then random_level fuel (S lvl) draws else lvl
  end.
(* src: pkg/datastructures/skiplist/skiplist.go 123-129 randomLevel *)
Definition randomLevel (draws : nat → bool) : nat := random_level (maxLevel - 1) 0 draws.

(* src: pkg/datastructures/skiplist/skiplist.go 32-71 Set *)
Definition Set_ (draws : nat → bool) (k : K) (v : V) s : option (SkipList K V) :=
  '(current, update) ← descend (heap s) (S (level s)) k head;
  h ← hit (heap s) current k;
  match h with
  | Some a =>
      na ← heap s !! a;
      Some {| heap := <[a := Node (key na) v (forward na)]> (heap s); level := level s |}
  | None =>
      let lvl := randomLevel draws in
      let update := if decide (level s < lvl)%nat then update ++ replicate (lvl - level s) head else update in
      let lv := if decide (level s < lvl)%nat then lvl else level s in
      let new := fresh (dom (heap s)) in
      hp ← link (seq 0 (S lvl)) new update (<[new := Node k v (replicate (S lvl) None)]> (heap s));
      Some {| heap := hp; level := lv |}
  end.

(* src: pkg/datastructures/skiplist/skiplist.go 73-91 Get *)
Definition Get (k : K) s : option (option V) :=
  '(current, _) ← descend (heap s) (S (level s)) k head;
  h ← hit (heap s) current k;
  match h with
  | Some a => na ← heap s !! a; Some (Some (value na))
  | None => Some None
  end.

(* src: pkg/datastructures/skiplist/skiplist.go 110-115 Delete *)
Fixpoint unlink (ix : list nat) (a : nat) (update : list nat) hp : option (gmap nat (node K V)) :=
  match ix with
  | [] => Some hp
  | i :: ix =>
      u ← update !! i;
      un ← hp !! u;
      f ← forward un !! i;
      if decide (f ≠ Some a) then Some hp
      else
        an ← hp !! a;
        f ← forward an !! i;
        unlink ix a update (<[u := set_forward i f un]> hp)
  end.

(* src: pkg/datastructures/skiplist/skiplist.go 117-119 Delete *)
Fixpoint lower (lv : nat) (hd : node K V) : option nat :=
  match lv with
  | O => Some O
  | S lv' => f ← forward hd !! lv; match f with None => lower lv' hd | Some _ => Some lv end
  end.

(* src: pkg/datastructures/skiplist/skiplist.go 93-121 Delete *)
Definition Delete (k : K) s : option (SkipList K V) :=
  '(current, update) ← descend (heap s) (S (level s)) k head;
  h ← hit (heap s) current k;
  match h with
  | None => Some s
  | Some a =>
      hp ← unlink (seq 0 (S (level s))) a update (heap s);
      hd ← hp !! head;
      lv ← lower (level s) hd;
      Some {| heap := hp; level := lv |}
  end.
End skiplist.

(** It runs: heights from the draws, then lookups. *)
Definition demo : option (SkipList Z Z) :=
  s ← Set_ (λ n, n <? 2)%nat 5 50 (New 0 0); s ← Set_ (λ _, false) 3 30 s; s ← Set_ (λ n, n <? 4)%nat 9 90 s;
  s ← Set_ (λ _, true) 7 70 s; s ← Set_ (λ _, false) 5 51 s; Delete 9 s.
Example skiplist_demo : (s ← demo; a ← Get 5 s; b ← Get 9 s; c ← Get 7 s; Some (a, b, c, level s)) = Some (Some 51, None, Some 70, 15%nat).
Proof. vm_compute. reflexivity. Qed.

(** ** What the heap represents *)

Section rep.
  Context {K V : Type} `{TotalOrder K}.

(** A node: its address, the number of its levels, its key and its value. *)
Record entry := Entry { addr : nat; high : nat; ek : K; ev : V }.
Implicit Types (e c u : entry) (l ns : list entry) (hp : gmap nat (node K V)) (t : nat → option nat).

(** Where level [i] leads from in front of [l], after which it leads to [p]. *)
Fixpoint next_to (i : nat) l (p : option nat) : option nat :=
  match l with [] => p | e :: l => if decide (i < high e)%nat then Some (addr e) else next_to i l p end.
Definition next (l : list entry) (i : nat) : option nat := next_to i l None.

(** The node of [e] in front of [l], when level [i] behind [l] leads to [t i]. *)
Definition node_to e l t : node K V := Node (ek e) (ev e) ((λ i, next_to i l (t i)) <$> seq 0 (high e)).
Fixpoint stored hp l t : Prop :=
  match l with [] => True | e :: l => hp !! addr e = Some (node_to e l t) ∧ stored hp l t end.

Lemma next_to_app i l l' p : next_to i (l ++ l') p = next_to i l (next_to i l' p).
Proof. induction l as [|e l IH]; cbn; [done|]. by destruct (decide _). Qed.

Lemma forward_node_to e l t i : forward (node_to e l t) !! i = if decide (i < high e)%nat then Some (next_to i l (t i)) else None.
Proof.
  cbn. rewrite list_lookup_fmap. destruct (decide _) as [Hi|Hi]; [by rewrite lookup_seq_lt|]. rewrite lookup_seq_ge by lia. done.
Qed.

Lemma node_to_ext e l l' t t' : (∀ i, (i < high e)%nat → next_to i l (t i) = next_to i l' (t' i)) → node_to e l t = node_to e l' t'.
Proof. intros Hi. unfold node_to. f_equal. apply list_fmap_ext. intros j i Hj. apply Hi. apply lookup_seq in Hj. lia. Qed.

Lemma stored_app hp l l' t : stored hp (l ++ l') t ↔ stored hp l (λ i, next_to i l' (t i)) ∧ stored hp l' t.
Proof.
  induction l as [|e l IH]; cbn; [tauto|]. rewrite IH. assert (node_to e (l ++ l') t = node_to e l (λ i, next_to i l' (t i))) as ->; [|tauto].
  apply node_to_ext. intros i _. apply next_to_app.
Qed.

Lemma stored_ext hp l t t' : (∀ i, t i = t' i) → stored hp l t → stored hp l t'.
Proof.
  intros Ht. induction l as [|e l IH]; cbn; [done|]. intros [He Hl]. split; [|by apply IH]. rewrite He. f_equal. apply node_to_ext. intros i _. by rewrite Ht.
Qed.

(** Changes elsewhere in the heap. *)
Lemma stored_frame hp hp' l t : (∀ e, e ∈ l → hp' !! addr e = hp !! addr e) → stored hp l t → stored hp' l t.
Proof.
  induction l as [|e l IH]; cbn; [done|]. intros Hf [He Hl]. split; [by rewrite Hf by set_solver|]. apply IH; [|done]. intros e' He'. apply Hf. set_solver.
Qed.

Lemma next_stored hp l t i a : stored hp l t → next l i = Some a → ∃ e, e ∈ l ∧ addr e = a ∧ ∃ nd, hp !! a = Some nd ∧ key nd = ek e.
Proof.
  unfold next. induction l as [|e l IH]; cbn; [done|]. intros [He Hl]. destruct (decide _).
  - intros [= <-]. exists e. split_and!; [set_solver|done|]. rewrite He. by eexists.
  - intros Ha. destruct (IH Hl Ha) as (e' & ? & ? & ?). exists e'. split_and!; [set_solver|done|done].
Qed.

(** The last node of level [i] in [l], [a] if there is none. *)
Fixpoint last_at (i a : nat) l : nat :=
  match l with [] => a | e :: l => last_at i (if decide (i < high e)%nat then addr e else a) l end.

Lemma last_at_split i c l : (i < high c)%nat → ∃ pre u post, c :: l = pre ++ u :: post ∧ addr u = last_at i (addr c) l ∧ (i < high u)%nat ∧
  Forall (λ e, (high e ≤ i)%nat) post ∧ ∀ j, (j ≤ i)%nat → last_at j (addr c) l = last_at j (addr u) post.
Proof.
  induction l as [|e l IH] in c |- *; intros Hc; cbn; [by exists [], c, []|]. destruct (decide (i < high e)%nat) as [He|He].
  - destruct (IH e He) as (pre & u & post & E & Ha & Hu & Hp & Hj). exists (c :: pre), u, post. rewrite E. split_and!; [done|done|done|done|].
    intros j Hji. rewrite decide_True by lia. by apply Hj.
  - destruct (IH c Hc) as (pre & u & post & E & Ha & Hu & Hp & Hj). destruct pre as [|c' pre]; cbn in E; injection E as <- E.
    + exists [], c, (e :: l). subst l. split_and!; [done|done|done|constructor; [lia|done]|]. intros j Hji. cbn. done.
    + exists (c :: e :: pre), u, post. subst l. split_and!; [done|done|done|done|]. intros j Hji. destruct (decide (j < high e)%nat) as [Hje|]; [|by apply Hj].
      rewrite <- Hj by done. clear -Hu Hji. revert c e. induction pre as [|d pre IHp]; intros c e; cbn; [by rewrite !decide_True by lia|].
      destruct (decide _); [done|]. apply IHp.
Qed.

Lemma next_to_skip i l q : Forall (λ e, (high e ≤ i)%nat) l → next_to i l q = q.
Proof. induction 1 as [|e l He _ IH]; cbn; [done|]. by rewrite decide_False by lia. Qed.

(** Short nodes do not see the higher levels. *)
Lemma stored_short hp l t t' i : Forall (λ e, (high e ≤ i)%nat) l → (∀ j, (j < i)%nat → t j = t' j) → stored hp l t → stored hp l t'.
Proof.
  intros Hl Ht. induction Hl as [|e l He _ IH]; cbn; [done|]. intros [He' Hp]. split; [|by apply IH].
  rewrite He'. f_equal. apply node_to_ext. intros j Hj. by rewrite Ht by lia.
Qed.

(** A change of level [i] in its last node, seen from all of [l]. *)
Lemma stored_bump hp c l t i p : (i < high c)%nat → NoDup (addr <$> c :: l) → stored hp (c :: l) t →
  let a := last_at i (addr c) l in ∃ nd, hp !! a = Some nd ∧ forward nd !! i = Some (t i) ∧
    stored (<[a := set_forward i p nd]> hp) (c :: l) (λ j, if decide (j = i) then p else t j).
Proof.
  intros Hc Hnd Hs a. destruct (last_at_split i c l Hc) as (pre & u & post & E & Ha & Hu & Hpost & _). rewrite E in *. fold a in Ha. rewrite <- Ha. clear Ha a E Hc.
  rewrite fmap_app, fmap_cons in Hnd. apply NoDup_app in Hnd as (_ & Hpre & [Hup Hnd]%NoDup_cons).
  apply stored_app in Hs as [Hspre [Hsu Hspost]]. exists (node_to u post t). split; [done|]. split; [by rewrite forward_node_to, decide_True, next_to_skip by done|].
  set (t' := λ j, if decide (j = i) then p else t j). apply stored_app. split; [|split].
  - assert (stored hp pre (λ j, next_to j (u :: post) (t' j))) as Hst.
    { eapply stored_ext; [|exact Hspre]. intros j. cbn. destruct (decide (j < high u)%nat); [done|]. unfold t'. by rewrite decide_False by (intros ->; lia). }
    eapply stored_frame; [|exact Hst]. intros e He. apply lookup_insert_ne. intros E. apply (Hpre (addr e)); [set_solver|]. rewrite <- E. set_solver.
  - rewrite lookup_insert_eq. f_equal. unfold set_forward, node_to. cbn. f_equal. apply list_eq. intros j.
    destruct (decide (j < high u)%nat) as [Hj|Hj].
    + destruct (decide (j = i)) as [->|Hji].
      * rewrite list_lookup_insert_eq by (by rewrite length_fmap, length_seq). rewrite list_lookup_fmap, lookup_seq_lt by done. cbn. unfold t'. rewrite decide_True by done.
        by rewrite next_to_skip.
      * rewrite list_lookup_insert_ne by done. rewrite !list_lookup_fmap, lookup_seq_lt by done. cbn. unfold t'. by rewrite decide_False.
    + rewrite !lookup_ge_None_2; [done| |]; rewrite ?length_insert, length_fmap, length_seq; lia.
  - assert (stored hp post t') as Hst.
    { eapply stored_short; [exact Hpost| |exact Hspost]. intros j Hj. unfold t'. by rewrite decide_False by lia. }
    eapply stored_frame; [|exact Hst]. intros e He. apply lookup_insert_ne. intros E. apply Hup. rewrite E. set_solver.
Qed.

(** ** Searching *)

(** Keys below [k], and the others. *)
Definition below (k : K) l : Prop := Forall (λ e, olt (ek e) k = true) l.
Definition above (k : K) l : Prop := Forall (λ e, olt (ek e) k = false) l.

Lemma walk_spec fuel hp i k B A : below k B → above k A → ∀ a nd, hp !! a = Some nd → forward nd !! i = Some (next (B ++ A) i) →
  stored hp (B ++ A) (λ _, None) → (length B ≤ fuel)%nat → walk fuel hp i k a = Some (last_at i a B).
Proof.
  intros HB HA. induction HB as [|b B Hb _ IH] in fuel |- *; intros a nd Hnd Hf Hs Hl.
  - cbn [app last_at] in *. destruct fuel; cbn [walk]; rewrite Hnd; cbn [mbind option_bind]; rewrite Hf; cbn [mbind option_bind].
    all: destruct (next A i) as [a'|] eqn:En; [|done]; destruct (next_stored _ _ _ _ _ Hs En) as (e & He & <- & nd' & -> & Hk); cbn [mbind option_bind].
    all: unfold above in HA; rewrite Forall_forall in HA; by rewrite Hk, (HA e He).
  - cbn [app stored] in Hs. destruct Hs as [Hsb Hs]. unfold next in Hf. cbn [app next_to] in Hf. cbn [last_at]. cbn in Hl. destruct (decide (i < high b)%nat) as [Hi|Hi].
    + destruct fuel as [|fuel]; [lia|]. cbn [walk]. rewrite Hnd. cbn [mbind option_bind]. rewrite Hf. cbn [mbind option_bind]. rewrite Hsb. cbn [mbind option_bind].
      change (key (node_to b (B ++ A) _)) with (ek b). rewrite Hb. eapply IH; [exact Hsb| |done|lia]. rewrite forward_node_to, decide_True by done. done.
    + eapply IH; [exact Hnd|exact Hf|done|lia].
Qed.

Lemma stored_size hp l t : NoDup (addr <$> l) → stored hp l t → (length l ≤ size hp)%nat.
Proof.
  intros Hnd Hs. rewrite <- (length_fmap addr), <- (size_list_to_set (C := gset nat)) by done. rewrite <- size_dom. apply subseteq_size.
  intros a (e & -> & He)%elem_of_list_to_set%list_elem_of_fmap. apply elem_of_dom. clear Hnd.
  induction l as [|e' l IH]; [by apply elem_of_nil in He|]. destruct Hs as [Hs1 Hs2]. apply elem_of_cons in He as [->|He]; [by rewrite Hs1|by apply IH].
Qed.

Lemma descend_spec hp c k B A n : below k B → above k A → NoDup (addr <$> c :: B ++ A) → stored hp (c :: B ++ A) (λ _, None) → (n < high c)%nat →
  descend hp n k (last_at n (addr c) B) = Some (last_at 0 (addr c) B, (λ i, last_at i (addr c) B) <$> seq 0 n).
Proof.
  intros HB HA Hnd Hs. induction n as [|i IH]; intros Hn; [done|]. rewrite seq_S, fmap_app. cbn [descend].
  pose proof (stored_size _ _ _ Hnd Hs) as Hsize. cbn in Hsize. rewrite length_app in Hsize.
  destruct (last_at_split (S i) c B Hn) as (pre & u & post & E & Ha & Hu & _ & Hj). rewrite <- Ha.
  assert (B = tail (pre ++ u :: post)) as EB by (by rewrite <- E).
  assert (below k post) as HB'. { unfold below in *. rewrite Forall_forall in *. intros e He. apply HB. rewrite EB. destruct pre; cbn; [done|]. set_solver. }
  assert (length post ≤ length B)%nat as Hlp. { rewrite EB. destruct pre; cbn; [done|]. rewrite length_app. cbn. lia. }
  change (c :: B ++ A) with ((c :: B) ++ A) in Hs. rewrite E, <- app_assoc in Hs. apply stored_app in Hs as [_ [Hsu Hsp]].
  rewrite (walk_spec (size hp) hp i k post A HB' HA _ _ Hsu); [|by rewrite forward_node_to, decide_True by lia|done|lia].
  cbn [mbind option_bind]. rewrite <- (Hj i) by lia. rewrite IH by lia. done.
Qed.

Lemma hit_spec hp c k B A : below k B → above k A → stored hp (c :: B ++ A) (λ _, None) → Forall (λ e, (0 < high e)%nat) (c :: B ++ A) →
  hit hp (last_at 0 (addr c) B) k = Some (match A with e :: _ => if oeq (ek e) k then Some (addr e) else None | [] => None end).
Proof.
  intros HB HA Hs Hh. destruct (last_at_split 0 c B) as (pre & u & post & E & Ha & Hu & Hpost & _); [by apply Forall_cons in Hh as [? _]|]. rewrite <- Ha.
  change (c :: B ++ A) with ((c :: B) ++ A) in Hs, Hh. rewrite E, <- app_assoc in Hs, Hh.
  assert (post = []) as ->. { destruct post as [|e post]; [done|]. apply Forall_cons in Hpost as [He _]. apply Forall_app in Hh as [_ Hh]. do 2 apply Forall_cons in Hh as [? Hh]. lia. }
  apply stored_app in Hs as [_ [Hsu Hsp]]. unfold hit. rewrite Hsu. cbn [mbind option_bind]. rewrite forward_node_to, decide_True by done. cbn [mbind option_bind app] in *.
  destruct A as [|e A]; [done|]. apply Forall_app in Hh as [_ Hh]. do 2 apply Forall_cons in Hh as [? Hh]. cbn [next_to]. rewrite decide_True by done.
  destruct Hsp as [He _]. rewrite He. done.
Qed.

Lemma last_at_elem i a l : last_at i a l = a ∨ ∃ e, e ∈ l ∧ last_at i a l = addr e.
Proof.
  induction l as [|e l IH] in a |- *; cbn; [by left|]. destruct (IH (if decide (i < high e)%nat then addr e else a)) as [->|(e' & He' & ->)].
  - destruct (decide _); [right; exists e; set_solver|by left].
  - right. exists e'. set_solver.
Qed.

(** The search starts at the node in front with as many levels as any. *)
Lemma descend_top hp c k B A i : below k B → above k A → NoDup (addr <$> c :: B ++ A) → stored hp (c :: B ++ A) (λ _, None) → (i < high c)%nat →
  descend hp (S i) k (addr c) = Some (last_at 0 (addr c) B, (λ i, last_at i (addr c) B) <$> seq 0 (S i)).
Proof.
  intros HB HA Hnd Hs Hi. pose proof (stored_size _ _ _ Hnd Hs) as Hsize. cbn in Hsize. rewrite length_app in Hsize. pose proof Hs as [Hc Hs'].
  rewrite seq_S, fmap_app. cbn [descend]. rewrite (walk_spec (size hp) hp i k B A HB HA _ _ Hc); [|by rewrite forward_node_to, decide_True|done|lia].
  cbn [mbind option_bind]. by rewrite (descend_spec hp c k B A i).
Qed.

(** ** Linking and unlinking *)

Lemma link_spec c B A new k v update n : ∀ m hp, let t m i := if decide (i < m)%nat then Some new else next A i in
  stored hp (c :: B) (t m) → stored hp A (λ _, None) → NoDup (addr <$> c :: B ++ A) → new ∉ addr <$> c :: B ++ A → (m + n ≤ high c)%nat →
  hp !! new = Some (Node k v ((next A <$> seq 0 m) ++ replicate n None)) →
  (∀ i, (i < m + n)%nat → update !! i = Some (last_at i (addr c) B)) →
  ∃ hp', link (seq m n) new update hp = Some hp' ∧ stored hp' (c :: B) (t (m + n)%nat) ∧ stored hp' A (λ _, None) ∧
    hp' !! new = Some (Node k v (next A <$> seq 0 (m + n))).
Proof.
  induction n as [|n IH]; intros m hp t Hs HA Hnd Hnew Hc Hn Hu; cbn [seq link].
  { exists hp. rewrite Nat.add_0_r. by rewrite app_nil_r in Hn. }
  assert (∀ x, x ∈ addr <$> c :: B → x ∉ addr <$> A) as Hdisj.
  { rewrite app_comm_cons, fmap_app in Hnd. apply NoDup_app in Hnd as (_ & Hd & _). exact Hd. }
  assert (NoDup (addr <$> c :: B)) as HndB. { rewrite app_comm_cons, fmap_app in Hnd. by apply NoDup_app in Hnd as (? & _). }
  assert (last_at m (addr c) B ∈ addr <$> c :: B) as Hin. { destruct (last_at_elem m (addr c) B) as [->|(e & He & ->)]; set_solver. }
  set (a := last_at m (addr c) B) in *. assert (a ≠ new) as Hane. { intros ->. apply Hnew. rewrite app_comm_cons, fmap_app. set_solver. }
  rewrite (Hu m) by lia. fold a. cbn [mbind option_bind].
  set (hp1 := <[new := Node k v ((next A <$> seq 0 m) ++ next A m :: replicate n None)]> hp).
  assert (stored hp1 (c :: B) (t m)) as Hs1.
  { eapply stored_frame; [|exact Hs]. intros e He. apply lookup_insert_ne. intros ->. apply Hnew. rewrite app_comm_cons, fmap_app. set_solver. }
  destruct (stored_bump hp1 c B (t m) m (Some new)) as (nd & Hnd' & Hf & Hs2); [lia|done|done|]. fold a in Hnd', Hs2.
  assert (hp !! a = Some nd) as -> by (rewrite <- Hnd'; unfold hp1; by rewrite lookup_insert_ne). cbn [mbind option_bind]. rewrite Hf. cbn [mbind option_bind].
  assert (t m m = next A m) as -> by (unfold t; by rewrite decide_False by lia). rewrite Hn. cbn [mbind option_bind].
  assert (set_forward m (next A m) (Node k v ((next A <$> seq 0 m) ++ replicate (S n) None)) = Node k v ((next A <$> seq 0 m) ++ next A m :: replicate n None)) as ->.
  { unfold set_forward. cbn [key value forward replicate]. f_equal. rewrite insert_app_r_alt by (rewrite length_fmap, length_seq; lia).
    rewrite length_fmap, length_seq, Nat.sub_diag. done. }
  fold hp1. rewrite Hnd'. cbn [mbind option_bind]. set (hp2 := <[a := set_forward m (Some new) nd]> hp1) in *.
  destruct (IH (S m) hp2) as (hp' & E & H1 & H2 & H3).
  - eapply stored_ext; [|exact Hs2]. intros i. unfold t. cbn. destruct (decide (i = m)) as [->|]; [by rewrite decide_True by lia|]. apply decide_ext. lia.
  - eapply stored_frame; [|exact HA]. intros e He. unfold hp2, hp1. assert (addr e ∈ addr <$> A) as HeA by set_solver.
    rewrite lookup_insert_ne; [|intros Ea; apply (Hdisj a); [done|]; by rewrite Ea]. apply lookup_insert_ne. intros ->. apply Hnew. rewrite app_comm_cons, fmap_app. set_solver.
  - done.
  - done.
  - lia.
  - unfold hp2. rewrite lookup_insert_ne by done. unfold hp1. rewrite lookup_insert_eq. rewrite seq_S, fmap_app, <- app_assoc. done.
  - intros i Hi. apply Hu. lia.
  - exists hp'. replace (m + S n)%nat with (S m + n)%nat by lia. by split_and!.
Qed.

Lemma unlink_spec c e B A update n : ∀ m hp, let t m i := if decide (i < m)%nat then next A i else next (e :: A) i in
  stored hp (c :: B) (t m) → stored hp (e :: A) (λ _, None) → NoDup (addr <$> c :: B ++ e :: A) → (m + n ≤ high c)%nat → (high e ≤ m + n)%nat →
  (∀ i, (i < m + n)%nat → update !! i = Some (last_at i (addr c) B)) →
  ∃ hp', unlink (seq m n) (addr e) update hp = Some hp' ∧ stored hp' (c :: B ++ A) (λ _, None).
Proof.
  assert (∀ hp, NoDup (addr <$> c :: B ++ e :: A) → stored hp (c :: B) (next A) → stored hp (e :: A) (λ _, None) → stored hp (c :: B ++ A) (λ _, None)) as Hdone.
  { intros hp _ H1 [_ H2]. apply (stored_app hp (c :: B) A). split; [|done]. eapply stored_ext; [|exact H1]. done. }
  induction n as [|n IH]; intros m hp t Hs HA Hnd Hc He Hu; cbn [seq unlink].
  { exists hp. split; [done|]. apply Hdone; [done| |done]. eapply stored_ext; [|exact Hs]. intros i. unfold t. destruct (decide _); [done|].
    unfold next. cbn. by rewrite decide_False by lia. }
  pose proof Hnd as Hnd0. rewrite app_comm_cons, fmap_app in Hnd0. apply NoDup_app in Hnd0 as (HndB & Hdisj & HndA).
  assert (last_at m (addr c) B ∈ addr <$> c :: B) as Hin. { destruct (last_at_elem m (addr c) B) as [->|(e' & He' & ->)]; set_solver. }
  set (a := last_at m (addr c) B) in *. rewrite (Hu m) by lia. fold a. cbn [mbind option_bind].
  destruct (stored_bump hp c B (t m) m (next A m)) as (nd & Hnd' & Hf & Hs2); [lia|done|done|]. fold a in Hnd', Hs2. rewrite Hnd'. cbn [mbind option_bind]. rewrite Hf. cbn [mbind option_bind].
  assert (t m m = next (e :: A) m) as -> by (unfold t; by rewrite decide_False by lia). destruct (decide (m < high e)%nat) as [Hm|Hm].
  - assert (next (e :: A) m = Some (addr e)) as -> by (unfold next; cbn; by rewrite decide_True). rewrite decide_False by (intros Hx; by apply Hx).
    pose proof HA as [HAe _]. rewrite HAe. cbn [mbind option_bind]. rewrite forward_node_to, decide_True by done. cbn [mbind option_bind].
    apply (IH (S m)).
    + eapply stored_ext; [|exact Hs2]. intros i. unfold t. cbn. destruct (decide (i = m)) as [->|]; [by rewrite decide_True by lia|]. apply decide_ext. lia.
    + eapply stored_frame; [|exact HA]. intros e' He'. apply lookup_insert_ne. intros Ea. apply (Hdisj a Hin). rewrite Ea. set_solver.
    + done.
    + lia.
    + lia.
    + intros i Hi. apply Hu. lia.
  - assert (next (e :: A) m = next A m) as -> by (unfold next; cbn; by rewrite decide_False). rewrite decide_True.
    + exists hp. split; [done|]. apply Hdone; [done| |done]. eapply stored_ext; [|exact Hs]. intros i. unfold t. destruct (decide _); [done|].
      unfold next. cbn. by rewrite decide_False by lia.
    + pose proof HA as [_ HA']. intros En. destruct (next_stored _ _ _ _ _ HA' En) as (e' & He' & Ea & _). cbn in HndA. apply NoDup_cons in HndA as [HndA _].
      apply HndA. rewrite <- Ea. set_solver.
Qed.

(** ** It is a map *)

Context (zero_key : K) (zero : V).

Definition hd : entry := Entry head maxLevel zero_key zero.

Record rep (s : SkipList K V) ns : Prop := {
  r_stored : stored (heap s) (hd :: ns) (λ _, None);
  r_addr : NoDup (addr <$> hd :: ns);
  r_sorted : StronglySorted (λ a b, olt (ek a) (ek b) = true) ns;
  r_high : Forall (λ e, 0 < high e ≤ S (level s))%nat ns;
  r_level : (level s < maxLevel)%nat;
}.

Fixpoint find (k : K) ns : option V :=
  match ns with [] => None | e :: ns => if oeq (ek e) k then Some (ev e) else find k ns end.

Lemma oeq_false x y : x ≠ y → oeq x y = false.
Proof. intros Hne. destruct (oeq x y) eqn:E; [|done]. by apply oeq_spec in E. Qed.
Lemma oeq_refl x : oeq x x = true.
Proof. by apply oeq_spec. Qed.
Lemma olt_ne x y : olt x y = true → x ≠ y.
Proof. intros Hl ->. by rewrite olt_irrefl in Hl. Qed.

Lemma split_key k ns : StronglySorted (λ a b, olt (ek a) (ek b) = true) ns → ∃ B A, ns = B ++ A ∧ below k B ∧ above k A.
Proof.
  induction 1 as [|e ns Hs IH He]; [exists [], []; split_and!; [done|constructor|constructor]|]. destruct (olt (ek e) k) eqn:E.
  - destruct IH as (B & A & -> & HB & HA). exists (e :: B), A. split_and!; [done|by constructor|done].
  - exists [], (e :: ns). split_and!; [done|constructor|]. constructor; [done|]. rewrite Forall_forall in *. intros e' He'.
    destruct (olt (ek e') k) eqn:E'; [|done]. rewrite (olt_trans _ _ _ (He e' He') E') in E. done.
Qed.

Lemma sorted_app l l' : StronglySorted (λ a b, olt (ek a) (ek b) = true) (l ++ l') ↔
  StronglySorted (λ a b, olt (ek a) (ek b) = true) l ∧ StronglySorted (λ a b, olt (ek a) (ek b) = true) l' ∧
  ∀ a b, a ∈ l → b ∈ l' → olt (ek a) (ek b) = true.
Proof.
  induction l as [|e l IH]; cbn.
  - split; [intros Hs; split_and!; [constructor|done|set_solver]|by intros (_ & ? & _)].
  - split.
    + intros [Hs He]%StronglySorted_inv. apply IH in Hs as (H1 & H2 & H3). apply Forall_app in He as [He1 He2]. split_and!; [by constructor|done|].
      intros a b [->|Ha]%elem_of_cons Hb; [rewrite Forall_forall in He2; by apply He2|by apply H3].
    + intros ([H1 He]%StronglySorted_inv & H2 & H3). constructor; [apply IH; split_and!; [done|done|]; intros a b Ha Hb; apply H3; set_solver|].
      apply Forall_app. split; [done|]. apply Forall_forall. intros b Hb. apply H3; set_solver.
Qed.

Lemma find_below k B ns : below k B → find k (B ++ ns) = find k ns.
Proof. induction 1 as [|e B He _ IH]; [done|]. cbn. rewrite oeq_false; [done|]. by apply olt_ne. Qed.

Lemma find_gt k ns : (∀ b, b ∈ ns → olt k (ek b) = true) → find k ns = None.
Proof.
  induction ns as [|b ns IH]; intros Hgt; [done|]. cbn. rewrite oeq_false; [apply IH; intros b' Hb'; apply Hgt; set_solver|].
  intros Eb. specialize (Hgt b). rewrite Eb, olt_irrefl in Hgt. by discriminate Hgt; left.
Qed.

(** Finding in front of a change. *)
Lemma find_app_eq k' l ns ns' : find k' ns = find k' ns' → find k' (l ++ ns) = find k' (l ++ ns').
Proof. intros E. induction l as [|e l IH]; cbn; [done|]. by rewrite IH. Qed.

Lemma find_above k ns : above k ns → StronglySorted (λ a b, olt (ek a) (ek b) = true) ns →
  find k ns = match ns with e :: _ => if oeq (ek e) k then Some (ev e) else None | [] => None end.
Proof.
  intros HA Hs. destruct ns as [|e ns]; [done|]. cbn. destruct (oeq (ek e) k) eqn:E; [done|]. apply StronglySorted_inv in Hs as [_ He].
  apply Forall_cons in HA as [Hk _]. induction ns as [|e' ns IH]; [done|]. apply Forall_cons in He as [He' He]. cbn. rewrite oeq_false; [by apply IH|].
  intros <-. by rewrite He' in Hk.
Qed.

(** The search of the three operations. *)
Lemma rep_search s ns k B A : rep s ns → ns = B ++ A → below k B → above k A →
  descend (heap s) (S (level s)) k head = Some (last_at 0 head B, (λ i, last_at i head B) <$> seq 0 (S (level s))) ∧
  hit (heap s) (last_at 0 head B) k = Some (match A with e :: _ => if oeq (ek e) k then Some (addr e) else None | [] => None end).
Proof.
  intros [] -> HB HA. split; [by apply (descend_top (heap s) hd k B A)|]. apply (hit_spec (heap s) hd k B A); [done|done|done|].
  constructor; [cbn; unfold maxLevel; lia|]. eapply Forall_impl; [exact r_high0|]. cbn. lia.
Qed.

Lemma Get_spec s ns k : rep s ns → Get k s = Some (find k ns).
Proof.
  intros Hr. destruct (split_key k ns) as (B & A & -> & HB & HA); [apply Hr|]. unfold Get. destruct (rep_search s _ k B A Hr eq_refl HB HA) as [-> Hh].
  cbn [mbind option_bind]. rewrite Hh. cbn [mbind option_bind]. destruct Hr as [Hs _ Ho _ _]. apply sorted_app in Ho as (_ & Ho & _). rewrite find_below, find_above by done.
  destruct A as [|e A]; [done|]. destruct (oeq (ek e) k); [|done]. rewrite app_comm_cons in Hs. apply stored_app in Hs as [_ [He _]]. by rewrite He.
Qed.

Lemma random_level_bound fuel lvl draws : (random_level fuel lvl draws ≤ lvl + fuel)%nat.
Proof. induction fuel as [|fuel IH] in lvl |- *; cbn; [lia|]. destruct (draws lvl); [|lia]. specialize (IH (S lvl)). lia. Qed.

(** A new value under a key that is there. *)
Lemma Set_hit s B e A v : rep s (B ++ e :: A) →
  rep {| heap := <[addr e := node_to (Entry (addr e) (high e) (ek e) v) A (λ _, None)]> (heap s); level := level s |} (B ++ Entry (addr e) (high e) (ek e) v :: A).
Proof.
  intros [Hs Ha Ho Hh Hl]. set (e' := Entry (addr e) (high e) (ek e) v). assert (addr <$> hd :: B ++ e' :: A = addr <$> hd :: B ++ e :: A) as Ea by (cbn; by rewrite !fmap_app).
  split; [|by rewrite Ea| | |done].
  - rewrite app_comm_cons in Hs. apply stored_app in Hs as [H1 [H2 H3]]. rewrite app_comm_cons in Ha. rewrite fmap_app in Ha. apply NoDup_app in Ha as (_ & Hd & [Hn _]%NoDup_cons).
    rewrite app_comm_cons. apply stored_app. split; [|split].
    + eapply stored_frame; [|exact H1]. intros x Hx. apply lookup_insert_ne. intros E. apply (Hd (addr x)); [set_solver|]. rewrite <- E. set_solver.
    + cbn. by rewrite lookup_insert_eq.
    + eapply stored_frame; [|exact H3]. intros x Hx. apply lookup_insert_ne. intros E. apply Hn. rewrite E. set_solver.
  - apply sorted_app in Ho as (O1 & [O2 O3]%StronglySorted_inv & O4). apply sorted_app. split_and!; [done|by constructor|].
    intros a b Hx [->|Hb]%elem_of_cons; [apply (O4 a e Hx); set_solver|apply O4; set_solver].
  - apply Forall_app in Hh as [H1 [H2 H3]%Forall_cons]. apply Forall_app. split; [done|]. by constructor.
Qed.

Lemma Set_spec s ns draws k v : rep s ns →
  ∃ s' ns', Set_ draws k v s = Some s' ∧ rep s' ns' ∧ ∀ k', find k' ns' = if oeq k k' then Some v else find k' ns.
Proof.
  intros Hr. destruct (split_key k ns) as (B & A & -> & HB & HA); [apply Hr|]. unfold Set_. destruct (rep_search s _ k B A Hr eq_refl HB HA) as [-> Hh].
  cbn [mbind option_bind]. rewrite Hh. cbn [mbind option_bind]. pose proof Hr as [Hs Ha Ho Hhi Hl].
  destruct (match A with e :: _ => if oeq (ek e) k then Some (addr e) else None | [] => None end) as [a|] eqn:EA.
  - destruct A as [|e A]; [done|]. destruct (oeq (ek e) k) eqn:Ek; [|done]. injection EA as <-. apply oeq_spec in Ek. subst k.
    rewrite app_comm_cons in Hs. pose proof Hs as Hs'. apply stored_app in Hs' as [_ [He _]]. rewrite He. cbn [mbind option_bind]. eexists _, _. split; [reflexivity|].
    split; [exact (Set_hit s B e A v Hr)|]. intros k'. destruct (oeq (ek e) k') eqn:E'.
    + apply oeq_spec in E'. subst k'. rewrite find_below by done. cbn. by rewrite oeq_refl.
    + apply find_app_eq. cbn. by rewrite E'.
  - pose proof (random_level_bound (maxLevel - 1) 0 draws) as Hlvl. fold (randomLevel draws) in Hlvl. set (lvl := randomLevel draws) in *. clearbody lvl.
    set (new := fresh (dom (heap s))). set (lv := if decide (level s < lvl)%nat then lvl else level s).
    set (update := if decide (level s < lvl)%nat then _ ++ _ else _). unfold maxLevel in *.
    assert (∀ x, x ∈ hd :: B ++ A → is_Some (heap s !! addr x)) as Hdom.
    { intros x Hx. clear -Hs Hx. induction (hd :: B ++ A) as [|y l IH]; [by apply elem_of_nil in Hx|]. destruct Hs as [Hy Hs].
      apply elem_of_cons in Hx as [->|Hx]; [by rewrite Hy|by apply IH]. }
    assert (new ∉ addr <$> hd :: B ++ A) as Hnew.
    { intros (x & E & Hx)%list_elem_of_fmap. apply Hdom in Hx. rewrite <- E in Hx. apply elem_of_dom in Hx. by apply (is_fresh (dom (heap s))). }
    set (hp0 := <[new := Node k v (replicate (S lvl) None)]> (heap s)).
    assert (stored hp0 (hd :: B ++ A) (λ _, None)) as Hs0.
    { eapply stored_frame; [|exact Hs]. intros x Hx. apply lookup_insert_ne. intros E. apply Hnew. rewrite E. set_solver. }
    rewrite app_comm_cons in Hs0. apply stored_app in Hs0 as [HsB HsA].
    destruct (link_spec hd B A new k v update (S lvl) 0 hp0) as (hp' & E & H1 & H2 & H3).
    { eapply stored_ext; [|exact HsB]. done. } { done. } { done. } { done. } { change (high hd) with 16%nat. lia. } { by apply lookup_insert_eq. }
    { intros i Hi. assert (((λ i, last_at i head B) <$> seq 0 (S (level s))) !! i = if decide (i < S (level s))%nat then Some (last_at i head B) else None) as Hlk.
      { rewrite list_lookup_fmap. destruct (decide (i < S (level s))%nat); [by rewrite lookup_seq_lt by lia|by rewrite lookup_seq_ge by lia]. }
      unfold update. destruct (decide (level s < lvl)%nat) as [Hd|Hd]; [|rewrite Hlk; by rewrite decide_True by lia].
      destruct (decide (i < S (level s))%nat) as [Hi'|Hi']; [rewrite lookup_app_l by (rewrite length_fmap, length_seq; lia); done|].
      rewrite lookup_app_r by (rewrite length_fmap, length_seq; lia). rewrite length_fmap, length_seq, lookup_replicate_2 by lia. f_equal.
      change (addr hd) with head. assert (Forall (λ e, (high e ≤ i)%nat) B) as HBi. { apply Forall_app in Hhi as [Hhi _]. eapply Forall_impl; [exact Hhi|]. cbn. lia. }
      clear -HBi. induction HBi as [|x B Hx _ IH]; cbn; [done|]. by rewrite decide_False by lia. }
    rewrite E. cbn [mbind option_bind]. set (e := Entry new (S lvl) k v). eexists _, (B ++ e :: A). split; [reflexivity|].
    assert (NoDup (addr <$> hd :: B ++ e :: A)) as Ha'.
    { rewrite app_comm_cons, fmap_app in Ha, Hnew |- *. apply NoDup_app in Ha as (N1 & N2 & N3). apply NoDup_app. rewrite not_elem_of_app in Hnew. destruct Hnew as [Hn1 Hn2].
      split_and!; [done| |cbn; by apply NoDup_cons]. intros x Hx. cbn. rewrite elem_of_cons. intros [->|Hx2]; [done|by apply (N2 x)]. }
    assert (∀ b, b ∈ A → olt k (ek b) = true) as HkA.
    { intros b Hb. apply sorted_app in Ho as (_ & O2 & _). destruct A as [|e0 A]; [by apply elem_of_nil in Hb|]. destruct (oeq (ek e0) k) eqn:Eo; [done|].
      apply Forall_cons in HA as [Hk0 _]. apply StronglySorted_inv in O2 as [_ O2]. rewrite Forall_forall in O2.
      assert (olt k (ek e0) = true) as Hk. { destruct (olt k (ek e0)) eqn:Ek; [done|]. apply (olt_total k (ek e0)) in Ek; [|done]. subst k. by rewrite oeq_refl in Eo. }
      apply elem_of_cons in Hb as [->|Hb]; [done|]. eapply olt_trans; [exact Hk|by apply O2]. }
    split.
    + split; cbn [heap level]; [|done| | |].
      * rewrite app_comm_cons. apply stored_app. split; [|split; [exact H3|done]]. eapply stored_ext; [|exact H1]. done.
      * apply sorted_app in Ho as (O1 & O2 & O3). unfold below in HB. rewrite Forall_forall in HB. apply sorted_app. split_and!; [done|constructor; [done|by apply Forall_forall]|].
        intros a b Hx [->|Hb]%elem_of_cons; [by apply HB|by apply O3].
      * apply Forall_app in Hhi as [H4 H5]. apply Forall_app. unfold lv. split; [|constructor; [cbn; destruct (decide _); lia|]]; (eapply Forall_impl; [eassumption|]); cbn; intros; destruct (decide _); lia.
      * unfold lv, maxLevel. destruct (decide _); lia.
    + intros k'. destruct (oeq k k') eqn:Ek'.
      * apply oeq_spec in Ek'. subst k'. rewrite find_below by done. cbn. by rewrite oeq_refl.
      * apply find_app_eq. cbn. by rewrite Ek'.
Qed.

Lemma lower_spec hp ns lv : hp !! head = Some (node_to hd ns (λ _, None)) → (lv < maxLevel)%nat → Forall (λ e, 0 < high e ≤ S lv)%nat ns →
  ∃ lv', lower lv (node_to hd ns (λ _, None)) = Some lv' ∧ (lv' < maxLevel)%nat ∧ Forall (λ e, 0 < high e ≤ S lv')%nat ns.
Proof.
  intros _. induction lv as [|lv IH]; intros Hl Hh; cbn [lower]; [by exists 0%nat|]. rewrite forward_node_to, decide_True by done. cbn [mbind option_bind].
  destruct (next_to (S lv) ns None) as [a|] eqn:En; [by exists (S lv)|]. apply IH; [lia|]. clear IH. induction ns as [|e ns IHn]; [constructor|].
  apply Forall_cons in Hh as [He Hh]. cbn in En. destruct (decide _); [done|]. constructor; [lia|by apply IHn].
Qed.

Lemma Delete_spec s ns k : rep s ns →
  ∃ s' ns', Delete k s = Some s' ∧ rep s' ns' ∧ ∀ k', find k' ns' = if oeq k k' then None else find k' ns.
Proof.
  intros Hr. destruct (split_key k ns) as (B & A & -> & HB & HA); [apply Hr|]. unfold Delete. destruct (rep_search s _ k B A Hr eq_refl HB HA) as [-> Hh].
  cbn [mbind option_bind]. rewrite Hh. cbn [mbind option_bind]. pose proof Hr as [Hs Ha Ho Hhi Hl]. pose proof Ho as Ho'. apply sorted_app in Ho' as (O1 & O2 & O3).
  assert (∀ k' l, find k' l = None → oeq k k' = true → find k' l = if oeq k k' then None else find k' l) as Hsame by (intros k' l ? ->; done).
  destruct (match A with e :: _ => if oeq (ek e) k then Some (addr e) else None | [] => None end) as [a|] eqn:EA.
  - destruct A as [|e A]; [done|]. destruct (oeq (ek e) k) eqn:Ek; [|done]. injection EA as <-. apply oeq_spec in Ek. subst k.
    rewrite app_comm_cons in Hs. apply stored_app in Hs as [H1 H2].
    destruct (unlink_spec hd e B A ((λ i, last_at i head B) <$> seq 0 (S (level s))) (S (level s)) 0 (heap s)) as (hp' & E & Hst).
    { eapply stored_ext; [|exact H1]. done. } { done. } { done. } { change (high hd) with maxLevel. lia. }
    { apply Forall_app in Hhi as [_ [? _]%Forall_cons]. lia. }
    { intros i Hi. rewrite list_lookup_fmap, lookup_seq_lt by lia. done. }
    rewrite E. cbn [mbind option_bind]. pose proof Hst as [Hhd _]. change (addr hd) with head in Hhd. rewrite Hhd. cbn [mbind option_bind].
    assert (Forall (λ e, 0 < high e ≤ S (level s))%nat (B ++ A)) as Hhi'. { apply Forall_app in Hhi as [Hx [_ Hy]%Forall_cons]. by apply Forall_app. }
    destruct (lower_spec hp' (B ++ A) (level s) Hhd Hl Hhi') as (lv' & -> & Hlv & Hhi2). cbn [mbind option_bind]. eexists _, (B ++ A). split; [reflexivity|].
    apply StronglySorted_inv in O2 as [O2 O4]. rewrite Forall_forall in O4. split.
    + split; cbn [heap level]; [done| | |done|done].
      * rewrite app_comm_cons, fmap_app in Ha |- *. apply NoDup_app in Ha as (N1 & N2 & [_ N3]%NoDup_cons). apply NoDup_app. split_and!; [done| |done]. intros x Hx Hx2. apply (N2 x Hx). set_solver.
      * apply sorted_app. split_and!; [done|done|]. intros a b Hx Hb. apply O3; set_solver.
    + intros k'. destruct (oeq (ek e) k') eqn:Ek'.
      * apply oeq_spec in Ek'. subst k'. rewrite find_below by done. by apply find_gt.
      * apply find_app_eq. cbn. by rewrite Ek'.
  - exists s, (B ++ A). split_and!; [done|done|]. intros k'. destruct (oeq k k') eqn:Ek'; [|done]. apply oeq_spec in Ek'. subst k'.
    rewrite find_below, find_above by done. destruct A as [|e A]; [done|]. by destruct (oeq (ek e) k).
Qed.

Lemma New_rep : rep (New zero_key zero) [].
Proof.
  split; [|apply NoDup_singleton|constructor|constructor|cbn; unfold maxLevel; lia]. split; [by apply lookup_singleton_eq|done].
Qed.

Inductive sl_op := OpSet (draws : nat → bool) (k : K) (v : V) | OpDelete (k : K).
Definition sl_step (s : SkipList K V) (o : sl_op) : option (SkipList K V) :=
  match o with OpSet draws k v => Set_ draws k v s | OpDelete k => Delete k s end.
Fixpoint sl_run (os : list sl_op) (s : SkipList K V) : option (SkipList K V) :=
  match os with [] => Some s | o :: os => s ← sl_step s o; sl_run os s end.

(** The map. *)
Definition sl_spec (m : K → option V) (o : sl_op) : K → option V := λ k',
  match o with
  | OpSet _ k v => if oeq k k' then Some v else m k'
  | OpDelete k => if oeq k k' then None else m k'
  end.

Lemma sl_run_rep os : ∃ s ns, sl_run os (New zero_key zero) = Some s ∧ rep s ns ∧ ∀ k, find k ns = foldl sl_spec (λ _, None) os k.
Proof.
  assert (∀ os s ns m, rep s ns → (∀ k, find k ns = m k) → ∃ s' ns', sl_run os s = Some s' ∧ rep s' ns' ∧ ∀ k, find k ns' = foldl sl_spec m os k) as Hgen.
  { clear os. induction os as [|o os IH]; intros s ns m Hr Hm; [by exists s, ns|]. cbn [sl_run foldl].
    assert (∃ s' ns', sl_step s o = Some s' ∧ rep s' ns' ∧ ∀ k, find k ns' = sl_spec m o k) as (s' & ns' & -> & Hr' & Hm').
    { destruct o as [draws k v|k]; cbn [sl_step sl_spec].
      - destruct (Set_spec s ns draws k v Hr) as (s' & ns' & E & Hr' & Hf). exists s', ns'. split_and!; [done|done|]. intros k'. by rewrite Hf, Hm.
      - destruct (Delete_spec s ns k Hr) as (s' & ns' & E & Hr' & Hf). exists s', ns'. split_and!; [done|done|]. intros k'. by rewrite Hf, Hm. }
    by apply IH with ns'. }
  apply (Hgen os _ [] _ New_rep). done.
Qed.

(** C30. The skip list is a map.  Whatever levels are drawn, a history of [Set] and [Delete]
    dereferences no nil pointer and indexes no node out of its range, every loop ends, and [Get]
    answers the value last set under the key unless it was deleted since. *)
Theorem skiplist_refines_map (os : list sl_op) :
  ∃ s, sl_run os (New zero_key zero) = Some s ∧ ∀ k, Get k s = Some (foldl sl_spec (λ _, None) os k).
Proof.
  destruct (sl_run_rep os) as (s & ns & E & Hr & Hf). exists s. split; [done|]. intros k. by rewrite (Get_spec s ns k Hr), Hf.
Qed.
End rep.

Lemma skiplist_refines_map_witness :
  ∃ s, sl_run [OpSet (λ n, n <? 2)%nat 5 50; OpSet (λ _, true) 3 30; OpDelete 5; OpSet (λ _, false) 3 31] (New 0 0) = Some s ∧
    Get 3 s = Some (Some 31) ∧ Get 5 s = Some None.
Proof.
  destruct (skiplist_refines_map (K := Z) 0 0 [OpSet (λ n, n <? 2)%nat 5 50; OpSet (λ _, true) 3 30; OpDelete 5; OpSet (λ _, false) 3 31]) as (s & E & H).
  exists s. split; [exact E|]. split; rewrite H; reflexivity.
Defined.

(** ** The memory table *)

#[global] Instance string_ordered : Ordered string :=
  {| olt := string_lt; ole := λ s t, negb (string_lt t s); oeq := String.eqb |}.
#[global] Instance string_total : TotalOrder string.
Proof.
  assert (∀ s t, string_lt s t = false ↔ String.le t s) as Hle.
  { intros s t. unfold string_lt, String.le, String.leb. rewrite (String.compare_antisym s t). destruct (String.compare t s); cbn; naive_solver. }
  split; cbn.
  - intros x. apply Hle. reflexivity.
  - intros x y z Hxy Hyz. destruct (string_lt x z) eqn:E; [done|]. apply Hle in E. destruct (string_lt y x) eqn:E2.
    + exfalso. unfold string_lt in Hxy, E2. rewrite (String.compare_antisym y x) in E2. by destruct (String.compare x y).
    + apply Hle in E2. assert (string_lt y z = false) as Hf by (apply Hle; by transitivity x). congruence.
  - intros x y H1%Hle H2%Hle. by apply (anti_symm String.le).
  - done.
  - intros x y. apply String.eqb_eq.
Qed.

(* src: pkg/datastructures/tree/lsm/memtable.go 11-16 MemTable *)
Record MemTable := { sl : SkipList string (list Z); m_size : Z; cap : Z }.

(* src: pkg/datastructures/tree/lsm/memtable.go 18-23 New *)
Definition mt_New (capacityBytes : Z) : MemTable := {| sl := New "" []; m_size := 0; cap := capacityBytes |}.

(* src: pkg/datastructures/tree/lsm/memtable.go 29-29 Put *)
Definition estimated (k : string) (v : list Z) : Z := i64 (Z.of_nat (String.length k) + Z.of_nat (length v)).

(* src: pkg/datastructures/tree/lsm/memtable.go 25-37 Put *)
Definition Put (draws : nat → bool) (k : string) (v : list Z) (m : MemTable) : option (bool * MemTable) :=
  let estimatedSize := estimated k v in
  if decide (cap m < i64 (m_size m + estimatedSize)) then Some (false, m)
  else s ← Set_ draws k v (sl m); Some (true, {| sl := s; m_size := i64 (m_size m + estimatedSize); cap := cap m |}).

(* src: pkg/datastructures/tree/lsm/memtable.go 39-43 Get *)
Definition mt_Get (k : string) (m : MemTable) : option (option (list Z)) := Get k (sl m).

(* src: pkg/datastructures/tree/lsm/memtable.go 45-52 Delete *)
Definition mt_Delete (k : string) (m : MemTable) : option MemTable :=
  s ← Delete k (sl m); Some {| sl := s; m_size := m_size m; cap := cap m |}.

(* src: pkg/datastructures/tree/lsm/memtable.go 60-65 Reset *)
Definition mt_Reset (m : MemTable) : MemTable := {| sl := New "" []; m_size := 0; cap := cap m |}.

Inductive mt_op := MPut (draws : nat → bool) (k : string) (v : list Z) | MDelete (k : string) | MReset.
Definition mt_step (m : MemTable) (o : mt_op) : option MemTable :=
  match o with
  | MPut draws k v => snd <$> Put draws k v m
  | MDelete k => mt_Delete k m
  | MReset => Some (mt_Reset m)
  end.
Fixpoint mt_run (os : list mt_op) (m : MemTable) : option MemTable :=
  match os with [] => Some m | o :: os => m ← mt_step m o; mt_run os m end.

(** The map and the bytes put since the last reset: a put that would exceed the capacity is
    refused. *)
Definition mt_spec (c : Z) (st : (string → option (list Z)) * Z) (o : mt_op) : (string → option (list Z)) * Z :=
  match o with
  | MPut _ k v =>
      if decide (c < st.2 + estimated k v) then st
      else (λ k', if oeq k k' then Some v else st.1 k', st.2 + estimated k v)
  | MDelete k => (λ k', if oeq k k' then None else st.1 k', st.2)
  | MReset => (λ _, None, 0)
  end.

(** The memory table is that map, and the bytes put since the last reset never exceed the
    capacity. *)
Theorem memtable_refines_map (c : Z) (os : list mt_op) : 0 ≤ c < 2 ^ 62 →
  (∀ draws k v, MPut draws k v ∈ os → Z.of_nat (String.length k) + Z.of_nat (length v) < 2 ^ 62) →
  ∃ m, mt_run os (mt_New c) = Some m ∧ m_size m = (foldl (mt_spec c) (λ _, None, 0) os).2 ∧ 0 ≤ m_size m ≤ c ∧
    ∀ k, mt_Get k m = Some ((foldl (mt_spec c) (λ _, None, 0) os).1 k).
Proof.
  intros Hc. assert (∀ os m ns f, (∀ draws k v, MPut draws k v ∈ os → Z.of_nat (String.length k) + Z.of_nat (length v) < 2 ^ 62) →
    rep "" [] (sl m) ns → (∀ k, find k ns = f k) → cap m = c → 0 ≤ m_size m ≤ c →
    ∃ m', mt_run os m = Some m' ∧ m_size m' = (foldl (mt_spec c) (f, m_size m) os).2 ∧ 0 ≤ m_size m' ≤ c ∧ ∀ k, mt_Get k m' = Some ((foldl (mt_spec c) (f, m_size m) os).1 k)) as Hgen.
  { clear os. induction os as [|o os IH]; intros m ns f Hos Hr Hf Hcap Hsz.
    { exists m. split_and!; [done|done|lia|lia|]. intros k. unfold mt_Get. rewrite (Get_spec "" [] _ ns k Hr). by rewrite Hf. }
    assert (∀ draws k v, MPut draws k v ∈ os → Z.of_nat (String.length k) + Z.of_nat (length v) < 2 ^ 62) as Hos' by (intros; eapply Hos; right; done).
    cbn [mt_run foldl]. destruct o as [draws k v|k|]; cbn [mt_step mt_spec fst snd].
    - assert (estimated k v = Z.of_nat (String.length k) + Z.of_nat (length v)) as Ee. { apply i64_id. specialize (Hos draws k v ltac:(set_solver)). unfold is_i64. lia. }
      assert (Z.of_nat (String.length k) + Z.of_nat (length v) < 2 ^ 62) as Hkv by (apply (Hos draws k v); set_solver).
      unfold Put. rewrite Hcap, i64_id by (unfold is_i64; lia). destruct (decide _) as [Hd|Hd]; [by apply IH with ns|].
      destruct (Set_spec "" [] (sl m) ns draws k v Hr) as (s' & ns' & -> & Hr' & Hf'). cbn [mbind option_bind fmap option_fmap option_map snd].
      apply (IH {| sl := s'; m_size := m_size m + estimated k v; cap := c |} ns'); [done|done| |done|cbn; lia].
      intros k'. by rewrite Hf', Hf.
    - unfold mt_Delete. destruct (Delete_spec "" [] (sl m) ns k Hr) as (s' & ns' & -> & Hr' & Hf'). cbn [mbind option_bind].
      apply (IH {| sl := s'; m_size := m_size m; cap := cap m |} ns'); [done|done| |done|done]. intros k'. by rewrite Hf', Hf.
    - apply (IH (mt_Reset m) []); [done|apply New_rep|done|done|cbn; lia]. }
  intros Hos. apply (Hgen os (mt_New c) [] (λ _, None)); [done|apply New_rep|done|done|cbn; lia].
Qed.

(** Neither a deletion nor an overwriting put gives its bytes back: an empty table can be
    full. *)
Theorem memtable_deleted_still_counts :
  (m ← mt_run [MPut (λ _, false) "ab" [1; 2]; MDelete "ab"] (mt_New 4); g ← mt_Get "ab" m; '(ok, _) ← Put (λ _, false) "c" [] m; Some (g, m_size m, ok))
  = Some (None, 4, false).
Proof. vm_compute. reflexivity. Qed.
