(* ===== verification/Trie.v ===== *)
(** * pkg/datastructures/tree/trie

    The prefix tree over the runes of a string.  The nodes are reached through one parent only,
    so that an update in place is a new node.  [zero] is Go's zero value of the element type. *)

From S2P Require Import Prelude Utf8.
From stdpp Require Import options.
Open Scope Z_scope.
#[local] Set Default Proof Using "Type*".

Module Trie.
(* src: pkg/datastructures/tree/trie/trie.go 13-17 node *)
Inductive node (V : Type) := Node { children : gmap Z (node V); value : V; isTerm : bool }.
Arguments Node {V} _ _ _.
Arguments children {V} _.
Arguments value {V} _.
Arguments isTerm {V} _.

Section trie.
  Context {V : Type} (zero : V).
  Implicit Types n : node V.

Definition new_node : node V := Node ∅ zero false.

(* src: pkg/datastructures/tree/trie/trie.go 19-23 New *)
Definition New : node V := new_node.

(* src: pkg/datastructures/tree/trie/trie.go 30-38 Insert *)
Fixpoint insert (key : list Z) (v : V) n : node V :=
  match key with
  | [] => Node (children n) v true
  | char :: key =>
      let child := default new_node (children n !! char) in
      Node (<[char := insert key v child]> (children n)) (value n) (isTerm n)
  end.

(* src: pkg/datastructures/tree/trie/trie.go 25-39 Insert *)
Definition Insert (key : string) (v : V) n : node V := insert (runes key) v n.

(** The loop of [Get] and [PrefixSearch]: the node at the end of [key]. *)
(* src: pkg/datastructures/tree/trie/trie.go 97-103 PrefixSearch *)
Fixpoint walk (key : list Z) n : option (node V) :=
  match key with
  | [] => Some n
  | char :: key => child ← children n !! char; walk key child
  end.

(* src: pkg/datastructures/tree/trie/trie.go 41-59 Get *)
Definition Get (key : string) n : option V :=
  match walk (runes key) n with
  | None => None
  | Some n => if isTerm n then Some (value n) else None
  end.

(* src: pkg/datastructures/tree/trie/trie.go 68-90 delete *)
Fixpoint delete_ (key : list Z) n : bool * node V :=
  match key with
  | [] =>
      if negb (isTerm n) then (false, n)
      else (bool_decide (size (children n) = O), Node (children n) (value n) false)
  | char :: key =>
      match children n !! char with
      | None => (false, n)
      | Some child =>
          let '(shouldDeleteChild, child) := delete_ key child in
          if shouldDeleteChild : bool then
            let cs := delete char (children n) in
            (bool_decide (size cs = O) && negb (isTerm n), Node cs (value n) (isTerm n))
          else (false, Node (<[char := child]> (children n)) (value n) (isTerm n))
      end
  end.

(* src: pkg/datastructures/tree/trie/trie.go 61-66 Delete *)
Definition Delete (key : string) n : node V := (delete_ (runes key) n).2.

(** The children are ranged over in the order of the map; Go's order is any. *)
(* src: pkg/datastructures/tree/trie/trie.go 105-114 PrefixSearch *)
Fixpoint collect n : list V :=
  match n with
  | Node cs v t => (if t then [v] else []) ++ map_fold (λ _ child results, collect child ++ results) [] cs
  end.

(* src: pkg/datastructures/tree/trie/trie.go 92-117 PrefixSearch *)
Definition PrefixSearch (prefix : string) n : list V :=
  match walk (runes prefix) n with None => [] | Some n => collect n end.

(** ** It is a map from sequences of runes *)

Definition lookup_ (key : list Z) n : option V :=
  match walk key n with Some n => if isTerm n then Some (value n) else None | None => None end.

Lemma lookup_cons c key n : lookup_ (c :: key) n = child ← children n !! c; lookup_ key child.
Proof. unfold lookup_. cbn. by destruct (children n !! c). Qed.

Lemma lookup_new key : lookup_ key new_node = None.
Proof. by destruct key. Qed.

Lemma trie_lookup_insert key v n key' : lookup_ key' (insert key v n) = if decide (key = key') then Some v else lookup_ key' n.
Proof.
  revert n key'. induction key as [|c key IH]; intros n key'; cbn [insert].
  - destruct key' as [|c' key']; [done|]. by rewrite decide_False, !lookup_cons.
  - destruct key' as [|c' key']; [by rewrite decide_False|]. rewrite !lookup_cons. cbn [children].
    destruct (decide (c = c')) as [->|Hne].
    + rewrite lookup_insert_eq. cbn. rewrite IH. destruct (decide (key = key')) as [->|Hk]; [by rewrite decide_True|].
      rewrite decide_False by congruence. destruct (children n !! c'); [done|]. apply lookup_new.
    + rewrite lookup_insert_ne, decide_False by congruence. done.
Qed.

(** A node that the parent drops holds nothing. *)
Lemma delete_drops key n : (delete_ key n).1 = true → ∀ key', lookup_ key' (delete_ key n).2 = None.
Proof.
  assert (∀ v key', lookup_ key' (Node ∅ v false : node V) = None) as Hnone by (by intros v []).
  destruct key as [|c key]; cbn [delete_].
  - destruct (isTerm n); [|done]. cbn. intros Hs%bool_decide_eq_true key'. apply map_size_empty_inv in Hs. rewrite Hs. apply Hnone.
  - destruct (children n !! c) as [child|]; [|done]. destruct (delete_ key child) as [b child']. destruct b; [|done]. cbn.
    intros [Hs%bool_decide_eq_true Ht]%andb_true_iff key'. apply map_size_empty_inv in Hs. rewrite Hs. destruct (isTerm n); [done|]. apply Hnone.
Qed.

Lemma trie_lookup_delete key n key' : lookup_ key' (delete_ key n).2 = if decide (key = key') then None else lookup_ key' n.
Proof.
  revert n key'. induction key as [|c key IH]; intros n key'; cbn [delete_].
  - destruct (isTerm n) eqn:Ht; cbn.
    + destruct key' as [|c' key']; [done|]. by rewrite decide_False, !lookup_cons.
    + destruct (decide ([] = key')) as [<-|]; [|done]. unfold lookup_. cbn. by rewrite Ht.
  - destruct (children n !! c) as [child|] eqn:Ec.
    2: { destruct (decide _) as [<-|]; [|done]. cbn. by rewrite lookup_cons, Ec. }
    pose proof (delete_drops key child) as Hdrop. specialize (IH child). destruct (delete_ key child) as [b child']. cbn in Hdrop, IH.
    assert (lookup_ key' (if b then Node (delete c (children n)) (value n) (isTerm n)
              else Node (<[c := child']> (children n)) (value n) (isTerm n)) = if decide (c :: key = key') then None else lookup_ key' n) as Hgoal.
    { destruct key' as [|c' key']; [rewrite decide_False by done; by destruct b|]. rewrite lookup_cons. destruct (decide (c = c')) as [<-|Hne].
      - rewrite lookup_cons, Ec. cbn. destruct b; cbn.
        + rewrite lookup_delete_eq. cbn. specialize (IH key'). rewrite Hdrop in IH by done. destruct (decide (key = key')) as [->|]; [by rewrite decide_True|].
          rewrite decide_False by congruence. done.
        + rewrite lookup_insert_eq. cbn. rewrite IH. destruct (decide (key = key')) as [->|]; [by rewrite decide_True|]. by rewrite decide_False by congruence.
      - rewrite decide_False, lookup_cons by congruence. destruct b; cbn; [by rewrite lookup_delete_ne|by rewrite lookup_insert_ne]. }
    by destruct b.
Qed.

(** ** No dead branches *)

Definition alive n : Prop := ∃ key v, lookup_ key n = Some v.
(** Every node but the root leads to a key. *)
Definition pruned n : Prop := ∀ c key child, walk (c :: key) n = Some child → alive child.

Lemma pruned_children n : pruned n ↔ ∀ c child, children n !! c = Some child → alive child ∧ pruned child.
Proof.
  split.
  - intros Hp c child Hc. split; [apply (Hp c []); cbn; by rewrite Hc|]. intros c' key d Hd. apply (Hp c (c' :: key)). cbn. by rewrite Hc.
  - intros Hch c key child. cbn. destruct (children n !! c) as [d|] eqn:Ed; [|done]. destruct (Hch c d Ed) as [Ha Hp]. cbn.
    destruct key as [|c' key]; [by intros [= <-]|]. apply Hp.
Qed.

Lemma pruned_new : pruned new_node.
Proof. apply pruned_children. intros c child. cbn. by rewrite lookup_empty. Qed.

Lemma pruned_insert key v n : pruned n → pruned (insert key v n).
Proof.
  revert n. induction key as [|c key IH]; intros n Hp; apply pruned_children; rewrite pruned_children in Hp; [done|].
  cbn [insert children]. intros c' child. destruct (decide (c = c')) as [<-|Hne]; [|rewrite lookup_insert_ne by done; apply Hp].
  rewrite lookup_insert_eq. intros [= <-]. split; [exists key, v; rewrite trie_lookup_insert; by rewrite decide_True|]. apply IH.
  destruct (children n !! c) as [d|] eqn:Ed; [by apply (Hp c)|apply pruned_new].
Qed.

(** A term or a child. *)
Definition fruitful n : Prop := isTerm n = true ∨ ∃ c child, children n !! c = Some child.

Lemma fruitful_alive n : pruned n → fruitful n → alive n.
Proof.
  intros Hp [Ht|(c & child & Hc)]; [exists [], (value n); unfold lookup_; cbn; by rewrite Ht|].
  apply pruned_children with (c := c) (child := child) in Hp as [(key & v & Hk) _]; [|done]. exists (c :: key), v. rewrite lookup_cons, Hc. done.
Qed.

Lemma alive_fruitful n : alive n → fruitful n.
Proof.
  intros ([|c key] & v & Hk); [left; unfold lookup_ in Hk; cbn in Hk; by destruct (isTerm n)|].
  rewrite lookup_cons in Hk. right. destruct (children n !! c) as [d|] eqn:Ed; [eauto|done].
Qed.

Lemma size_fruitful (cs : gmap Z (node V)) : size cs ≠ O → ∃ c child, cs !! c = Some child.
Proof.
  intros Hs. apply map_size_non_empty_iff in Hs. by apply map_choose in Hs.
Qed.

Lemma pruned_delete key n : pruned n → pruned (delete_ key n).2 ∧ ((delete_ key n).1 = false → alive n → fruitful (delete_ key n).2).
Proof.
  revert n. induction key as [|c key IH]; intros n Hp; cbn [delete_].
  - destruct (isTerm n) eqn:Ht; cbn; [|split; [done|intros _; apply alive_fruitful]]. split.
    + rewrite pruned_children in Hp |- *. done.
    + intros Hs%bool_decide_eq_false _. right. cbn. by apply size_fruitful.
  - destruct (children n !! c) as [child|] eqn:Ec; [|split; [done|intros _; apply alive_fruitful]].
    pose proof Hp as Hp0. rewrite pruned_children in Hp. destruct (Hp c child Ec) as [Ha Hpc]. destruct (IH child Hpc) as [Hp' Hf].
    destruct (delete_ key child) as [b child']. cbn in Hp', Hf. destruct b; cbn.
    + split.
      * apply pruned_children. cbn. intros c' d Hd. apply lookup_delete_Some in Hd as [_ Hd]. by apply (Hp c').
      * intros [Hs|Ht]%andb_false_iff _.
        -- apply bool_decide_eq_false in Hs. right. by apply size_fruitful.
        -- left. cbn. by destruct (isTerm n).
    + split.
      * apply pruned_children. cbn. intros c' d Hd. destruct (decide (c = c')) as [<-|]; [|rewrite lookup_insert_ne in Hd by done; by apply (Hp c')].
        rewrite lookup_insert_eq in Hd. injection Hd as <-. split; [|done]. apply fruitful_alive; [done|]. by apply Hf.
      * intros _ _. right. exists c, child'. apply lookup_insert_eq.
Qed.

(** ** What is collected *)

(** [collect] with the keys. *)
Fixpoint pairs n : list (list Z * V) :=
  match n with
  | Node cs v t =>
      (if t then [([], v)] else []) ++
      map_fold (λ c child r, (prod_map (cons c) id <$> pairs child) ++ r) [] cs
  end.

Fixpoint depth n : nat := match n with Node cs _ _ => S (map_fold (λ _ child m, max (depth child) m) O cs) end.

Lemma depth_child cs v t c child : cs !! c = Some child → (depth child < depth (Node cs v t))%nat.
Proof.
  intros Hc. cbn. apply Nat.lt_succ_r. revert c child Hc.
  apply (map_fold_weak_ind (λ m (cs : gmap Z (node V)), ∀ c child, cs !! c = Some child → (depth child ≤ m)%nat)).
  - intros c child. by rewrite lookup_empty.
  - intros c d m r Hm IH c' child. destruct (decide (c = c')) as [<-|Hne]; [rewrite lookup_insert_eq; intros [= <-]; lia|].
    rewrite lookup_insert_ne by done. intros Hc'%IH. lia.
Qed.

Lemma node_ind' (P : node V → Prop) : (∀ cs v t, map_Forall (λ _, P) cs → P (Node cs v t)) → ∀ n, P n.
Proof.
  intros Hnode n. remember (depth n) as d eqn:Hd. revert n Hd. induction (lt_wf d) as [d _ IH]. intros [cs v t] ->.
  apply Hnode. intros c child Hc. eapply IH; [|done]. by eapply depth_child.
Qed.

(** The fold over the children, as a fold over a list of them. *)
Definition pairs_below (l : list (Z * node V)) : list (list Z * V) :=
  foldr (λ p r, (prod_map (cons p.1) id <$> pairs p.2) ++ r) [] l.

Lemma pairs_unfold cs v t : pairs (Node cs v t) = (if t then [([], v)] else []) ++ pairs_below (map_to_list cs).
Proof.
  cbn. f_equal. rewrite map_fold_foldr. unfold pairs_below. induction (map_to_list cs) as [|[c child] l IH]; cbn; [done|]. by rewrite IH.
Qed.

Lemma collect_pairs n : collect n = (pairs n).*2.
Proof.
  induction n as [cs v t IH] using node_ind'. rewrite pairs_unfold, fmap_app. cbn. f_equal; [by destruct t|].
  rewrite map_fold_foldr. apply map_Forall_to_list in IH. induction IH as [|[c child] l Hc _ IHl]; cbn; [done|].
  cbn in Hc. rewrite IHl, Hc, fmap_app. f_equal. rewrite <- list_fmap_compose. by apply list_fmap_ext.
Qed.

Lemma elem_pairs_below l k v : (k, v) ∈ pairs_below l ↔ ∃ c child k', (c, child) ∈ l ∧ k = c :: k' ∧ (k', v) ∈ pairs child.
Proof.
  induction l as [|[c child] l IH]; cbn.
  - split; [by intros ?%elem_of_nil|]. intros (c & child & k' & Hin & _). by apply elem_of_nil in Hin.
  - rewrite elem_of_app, IH, list_elem_of_fmap. split.
    + intros [([k' v'] & [= -> ->] & Hin)|(c' & d & k' & Hin & -> & Hv)]; [exists c, child, k'; set_solver|exists c', d, k'; set_solver].
    + intros (c' & d & k' & [[= -> ->]|Hin]%elem_of_cons & -> & Hv); [left; by exists (k', v)|right; eauto 10].
Qed.

Lemma elem_pairs n k v : (k, v) ∈ pairs n ↔ lookup_ k n = Some v.
Proof.
  revert k v. induction n as [cs w t IH] using node_ind'. intros k v. rewrite pairs_unfold, elem_of_app, elem_pairs_below. destruct k as [|c k].
  - unfold lookup_. cbn. split.
    + intros [Hin|(? & ? & ? & _ & ? & _)]; [|done]. destruct t; [|by apply elem_of_nil in Hin]. apply list_elem_of_singleton in Hin. congruence.
    + intros Hl. left. destruct t; [|done]. apply list_elem_of_singleton. congruence.
  - rewrite lookup_cons. cbn [children]. split.
    + intros [Hin|(c' & child & k' & Hin & [= <- <-] & Hv)]; [destruct t; [by apply list_elem_of_singleton in Hin|by apply elem_of_nil in Hin]|].
      apply elem_of_map_to_list in Hin. rewrite Hin. cbn. by apply (IH c child Hin).
    + destruct (cs !! c) as [child|] eqn:Ec; [|done]. cbn. intros Hl. right. exists c, child, k. split_and!; [by apply elem_of_map_to_list|done|]. by apply (IH c child Ec).
Qed.

Lemma NoDup_pairs_below l : NoDup l.*1 → Forall (λ p, NoDup (pairs p.2).*1) l → NoDup (pairs_below l).*1.
Proof.
  induction l as [|[c child] l IH]; cbn; [intros; constructor|]. intros [Hc Hl]%NoDup_cons [Hd Hall]%Forall_cons. rewrite fmap_app, NoDup_app.
  rewrite <- list_fmap_compose. change (fst ∘ prod_map (cons c) id) with (cons c ∘ (fst : list Z * V → list Z)).
  rewrite (list_fmap_compose fst (cons c)). split_and!.
  - apply NoDup_fmap; [|done]. by intros ?? [=].
  - intros k (k' & E & _)%list_elem_of_fmap ([k2 v] & E2 & (c' & d & k3 & Hin & E3 & _)%elem_pairs_below)%list_elem_of_fmap. cbn in E2.
    assert (c' = c) as -> by congruence. apply Hc. apply list_elem_of_fmap. by exists (c, d).
  - by apply IH.
Qed.

Lemma NoDup_pairs n : NoDup (pairs n).*1.
Proof.
  induction n as [cs w t IH] using node_ind'. rewrite pairs_unfold, fmap_app, NoDup_app. split_and!.
  - destruct t; cbn; [apply NoDup_singleton|constructor].
  - intros k Hk ([k2 v] & E2 & (c & d & k3 & _ & E & _)%elem_pairs_below)%list_elem_of_fmap. cbn in E2. subst. destruct t; [|by apply elem_of_nil in Hk].
    by apply list_elem_of_singleton in Hk.
  - apply NoDup_pairs_below; [apply NoDup_fst_map_to_list|]. apply map_Forall_to_list in IH. eapply Forall_impl; [exact IH|]. by intros [].
Qed.

Lemma walk_app k1 k2 n : walk (k1 ++ k2) n = n' ← walk k1 n; walk k2 n'.
Proof. revert n. induction k1 as [|c k1 IH]; intros n; cbn; [done|]. destruct (children n !! c); cbn; [apply IH|done]. Qed.

(** ** Histories *)

Inductive trie_op := OInsert (key : string) (v : V) | ODelete (key : string).
Definition trie_step n (o : trie_op) : node V := match o with OInsert k v => Insert k v n | ODelete k => Delete k n end.
Definition spec_step (m : gmap (list Z) V) (o : trie_op) : gmap (list Z) V :=
  match o with OInsert k v => <[runes k := v]> m | ODelete k => delete (runes k) m end.

(** The trie is a map from sequences of runes.  After any history of insertions and
    deletions [Get] answers as the map does, and [PrefixSearch] returns, in some order, the
    values of exactly the keys that start with the runes of the prefix.  No branch stays
    behind: every node but the root leads to a key. *)
Theorem trie_refines_map (os : list trie_op) :
  let n := foldl trie_step New os in let m := foldl spec_step ∅ os in
  (∀ key, Get key n = m !! runes key) ∧
  (∀ prefix, PrefixSearch prefix n ≡ₚ (map_to_list (filter (λ kv, runes prefix `prefix_of` kv.1) m)).*2) ∧
  pruned n.
Proof.
  intros n m. assert ((∀ key, lookup_ key n = m !! key) ∧ pruned n) as [Hl Hp].
  { unfold n, m. assert ((∀ key, lookup_ key New = (∅ : gmap (list Z) V) !! key) ∧ pruned New) as H0.
    { split; [intros key; rewrite lookup_empty; apply lookup_new|apply pruned_new]. }
    revert H0. generalize (New) (∅ : gmap (list Z) V). induction os as [|o os IH]; intros n0 m0 [H1 H2]; [done|]. cbn. apply IH. destruct o as [k v|k]; cbn.
    - split; [|by apply pruned_insert]. intros key. unfold Insert. rewrite trie_lookup_insert. destruct (decide _) as [->|]; [by rewrite lookup_insert_eq|by rewrite lookup_insert_ne].
    - split; [|by apply pruned_delete]. intros key. unfold Delete. rewrite trie_lookup_delete. destruct (decide _) as [->|]; [by rewrite lookup_delete_eq|by rewrite lookup_delete_ne]. }
  split_and!; [intros key; apply Hl| |done]. intros prefix. unfold PrefixSearch. set (p := runes prefix).
  assert (∀ k, lookup_ (p ++ k) n = n' ← walk p n; lookup_ k n') as Happ.
  { intros k. unfold lookup_. rewrite walk_app. by destruct (walk p n). }
  destruct (walk p n) as [n'|]; cbn in Happ.
  - rewrite collect_pairs. assert (map_to_list (filter (λ kv, p `prefix_of` kv.1) m) ≡ₚ prod_map (app p) id <$> pairs n') as ->.
    { apply NoDup_Permutation; [apply NoDup_map_to_list| |].
      - apply (NoDup_fmap_1 fst). rewrite <- list_fmap_compose. change (fst ∘ prod_map (app p) id) with (app p ∘ (fst : list Z * V → list Z)).
        rewrite (list_fmap_compose fst (app p)). apply NoDup_fmap; [|apply NoDup_pairs]. intros x y. apply app_inv_head.
      - intros [k v]. rewrite elem_of_map_to_list, map_lookup_filter_Some, list_elem_of_fmap. cbn. split.
        + intros [Hk [k' ->]]. exists (k', v). split; [done|]. apply elem_pairs. rewrite <- Happ, Hl. done.
        + intros ([k' v'] & [= -> ->] & Hin). apply elem_pairs in Hin. rewrite <- Hl, Happ. split; [done|]. by exists k'. }
    rewrite <- list_fmap_compose. done.
  - assert (filter (λ kv, p `prefix_of` kv.1) m = ∅) as ->; [|by rewrite map_to_list_empty].
    apply map_empty. intros k. apply map_lookup_filter_None. right. intros v Hk [k' E]. cbn in E. rewrite E, <- Hl, Happ in Hk. done.
Qed.
End trie.

(** Keys are compared by their runes: all bytes that are not UTF-8 are the same rune, and a
    value is found under a key that was never inserted. *)
Theorem trie_confuses_invalid_keys :
  let ff := String.String (Ascii.ascii_of_nat 255) "" in let fe := String.String (Ascii.ascii_of_nat 254) "" in
  ff ≠ fe ∧ Get fe (Insert 0 ff 7 (New 0)) = Some 7.
Proof. vm_compute. done. Qed.
End Trie.
