(* ===== verification/Radix.v ===== *)
(** * pkg/datastructures/tree/radix

    The compressed prefix tree over the bytes of a string.  The nodes are reached through one
    parent only, so that an update in place is a new node.  [zero] is Go's zero value of the
    element type.  Both recursions shorten the rest of the key, whose length is their fuel. *)

From S2P Require Import Prelude Utf8.
From stdpp Require Import options.
Open Scope Z_scope.
#[local] Set Default Proof Using "Type*".

(* src: pkg/datastructures/tree/radix/radix.go 15-20 node *)
Inductive node (V : Type) := Node { path : list Z; children : list (node V); value : V; isTerm : bool }.
Arguments Node {V} _ _ _ _.
Arguments path {V} _.
Arguments children {V} _.
Arguments value {V} _.
Arguments isTerm {V} _.

Section radix.
  Context {V : Type} (zero : V).
  Implicit Types (n child : node V) (cs : list (node V)) (p q : list Z).

(* src: pkg/datastructures/tree/radix/radix.go 22-26 New *)
Definition New : node V := Node [] [] zero false.

(* src: pkg/datastructures/tree/radix/radix.go 53-60 insert *)
Fixpoint lcp (a b : list Z) : nat :=
  match a, b with
  | x :: a, y :: b => if decide (x = y) then S (lcp a b) else O
  | _, _ => O
  end.

(* src: pkg/datastructures/tree/radix/radix.go 68-104 insert *)
Definition split child (l : nat) p (v : V) : node V :=
  let tail := Node (drop l (path child)) (children child) (value child) (isTerm child) in
  if decide (l < length p)%nat then
    let leaf := Node (drop l p) [] v true in
    Node (take l (path child)) [tail; leaf] (value child) false
  else Node (take l (path child)) [tail] v true.

(** The loop over the children: the new children, or [None] if none starts as [p] does;
    [child.path[0]] panics on an empty path. *)
(* src: pkg/datastructures/tree/radix/radix.go 49-109 insert *)
Fixpoint insert_child (rec : node V → list Z → option (node V)) cs p (v : V) : option (option (list (node V))) :=
  match cs with
  | [] => Some None
  | child :: cs =>
      c0 ← head (path child);
      if decide (head p = Some c0) then
        let l := lcp (path child) p in
        if decide (l = length (path child)) then
          child ← rec child (drop l p);
          Some (Some (child :: cs))
        else Some (Some (split child l p v :: cs))
      else
        r ← insert_child rec cs p v;
        Some (option_map (cons child) r)
  end.

(* src: pkg/datastructures/tree/radix/radix.go 40-118 insert *)
Fixpoint insert (fuel : nat) n p (v : V) : option (node V) :=
  match p with
  | [] => Some (Node (path n) (children n) v true)
  | _ =>
      match fuel with
      | O => None
      | S fuel =>
          r ← insert_child (λ child p, insert fuel child p v) (children n) p v;
          let cs := match r with Some cs => cs | None => children n ++ [Node p [] v true] end in
          Some (Node (path n) cs (value n) (isTerm n))
      end
  end.

(* src: pkg/datastructures/tree/radix/radix.go 28-38 Insert *)
Definition Insert (key : string) (v : V) n : option (node V) := insert (length (bytes key)) n (bytes key) v.

(* src: pkg/datastructures/tree/radix/radix.go 136-140 get *)
Fixpoint get_child (rec : node V → list Z → option (option V)) cs p : option (option V) :=
  match cs with
  | [] => Some None
  | child :: cs =>
      if decide (path child `prefix_of` p) then rec child (drop (length (path child)) p) else get_child rec cs p
  end.

(* src: pkg/datastructures/tree/radix/radix.go 127-144 get *)
Fixpoint get (fuel : nat) n p : option (option V) :=
  match p with
  | [] => Some (if isTerm n then Some (value n) else None)
  | _ => match fuel with O => None | S fuel => get_child (get fuel) (children n) p end
  end.

(* src: pkg/datastructures/tree/radix/radix.go 120-125 Get *)
Definition Get (key : string) n : option (option V) := get (length (bytes key)) n (bytes key).

(** ** It is a map from sequences of bytes *)

Definition first n : option Z := head (path n).

(** The children of a node have paths, which differ in their first byte; a node below the
    root ends a key or has several children. *)
Inductive wf : node V → Prop :=
  | Wf n : Forall (λ c, path c ≠ [] ∧ (isTerm c = true ∨ (2 ≤ length (children c))%nat) ∧ wf c) (children n) →
      NoDup (first <$> children n) → wf n.

Lemma wf_children n c : wf n → c ∈ children n → path c ≠ [] ∧ (isTerm c = true ∨ (2 ≤ length (children c))%nat) ∧ wf c.
Proof. intros [n' Hf _] Hc. rewrite Forall_forall in Hf. by apply Hf. Qed.

Definition starts (c : Z) (n : node V) : Prop := first n = Some c.

(** At most one child can hold a key. *)
Lemma get_child_none rec cs c q : Forall (λ d, path d ≠ []) cs → (∀ d, d ∈ cs → ¬ starts c d) → get_child rec cs (c :: q) = Some None.
Proof.
  induction 1 as [|d cs Hd _ IH]; intros Hs; cbn; [done|]. rewrite decide_False; [apply IH; set_solver|].
  intros [k E]. apply (Hs d); [set_solver|]. unfold starts, first. destruct (path d) as [|x pd]; [done|]. by injection E as ->.
Qed.

Lemma get_child_one rec A d B c q : Forall (λ d, path d ≠ []) (A ++ d :: B) → NoDup (first <$> A ++ d :: B) → starts c d →
  get_child rec (A ++ d :: B) (c :: q) =
    if decide (path d `prefix_of` c :: q) then rec d (drop (length (path d)) (c :: q)) else Some None.
Proof.
  intros Hne Hnd Hs. assert (∀ e, e ∈ A ++ B → ¬ starts c e) as Hother.
  { intros e He Hse. rewrite fmap_app, fmap_cons, NoDup_app, NoDup_cons in Hnd. destruct Hnd as (_ & HA & HB & _). unfold starts in *.
    apply elem_of_app in He as [He|He].
    - apply (HA (first e)); [by apply list_elem_of_fmap_2|]. rewrite Hse, Hs. set_solver.
    - apply HB. rewrite Hs, <- Hse. by apply (list_elem_of_fmap_2 first). }
  clear Hnd. induction A as [|e A IH]; cbn [app get_child].
  - destruct (decide _); [done|]. apply get_child_none; [by apply Forall_cons in Hne as [_ ?]|]. intros e He. apply Hother. set_solver.
  - cbn in Hne. apply Forall_cons in Hne as [He Hne]. rewrite decide_False; [apply IH; [done|set_solver]|].
    intros [k E]. apply (Hother e); [set_solver|]. unfold starts, first. destruct (path e) as [|x pe]; [done|]. by injection E as ->.
Qed.

Lemma wf_paths n : wf n → Forall (λ d, path d ≠ []) (children n).
Proof. intros [n' Hf _]. eapply Forall_impl; [exact Hf|]. by intros c (? & _). Qed.
Lemma wf_heads n : wf n → NoDup (first <$> children n).
Proof. by intros [n' _ Hn]. Qed.

(** Splitting the children at the one that starts with [c]. *)
Lemma find_child cs c : (∃ A d B, cs = A ++ d :: B ∧ starts c d ∧ ∀ e, e ∈ A → ¬ starts c e) ∨ (∀ e, e ∈ cs → ¬ starts c e).
Proof.
  induction cs as [|d cs IH]; [right; set_solver|]. destruct (decide (first d = Some c)) as [Hs|Hs]; [left; exists [], d, cs; set_solver|].
  destruct IH as [(A & e & B & -> & He & HA)|Hn]; [left; exists (d :: A), e, B|right]; set_solver.
Qed.

Lemma drop_shorter (c : Z) (q pd : list Z) f : pd ≠ [] → (length (c :: q) ≤ S f)%nat → (length (drop (length pd) (c :: q)) ≤ f)%nat.
Proof. intros Hp Hl. rewrite length_drop. destruct pd; cbn in *; [done|lia]. Qed.

(** Enough fuel. *)
Lemma get_fuel f : ∀ f' n q, wf n → (length q ≤ f)%nat → (length q ≤ f')%nat → get f n q = get f' n q ∧ is_Some (get f n q).
Proof.
  induction f as [|f IH]; intros f' n [|c q] Hwf H1 H2; [by destruct f'; cbn; eauto|cbn in H1; lia|by destruct f'; cbn; eauto|].
  destruct f' as [|f']; [cbn in H2; lia|]. cbn [get].
  pose proof (wf_paths n Hwf) as Hp. pose proof (wf_heads n Hwf) as Hh. pose proof (wf_children n) as Hc.
  destruct (find_child (children n) c) as [(A & d & B & E & Hd & _)|Hn].
  - rewrite E in Hp, Hh |- *. rewrite !get_child_one by done. destruct (decide _); [|eauto].
    destruct (Hc d Hwf) as (Hpd & _ & Hwd); [rewrite E; set_solver|]. apply IH; [done|by apply drop_shorter..].
  - rewrite !get_child_none by done. eauto.
Qed.

Lemma lcp_spec a b : let l := lcp a b in
  take l a = take l b ∧ (l ≤ length a)%nat ∧ (l ≤ length b)%nat ∧ ∀ x y, a !! l = Some x → b !! l = Some y → x ≠ y.
Proof.
  revert b. induction a as [|x a IH]; intros [|y b]; cbn; try (split_and!; [done|lia|lia|done]).
  destruct (decide (x = y)) as [->|Hne]; [|split_and!; [done|lia|lia|by intros ?? [= <-] [= <-]]].
  destruct (IH b) as (H1 & H2 & H3 & H4). cbn. split_and!; [by rewrite H1|lia|lia|done].
Qed.

(** What a child answers for a key of its parent. *)
Definition below (f : nat) d q : option (option V) :=
  if decide (path d `prefix_of` q) then get f d (drop (length (path d)) q) else Some None.

Lemma below_app f d q : below f d (path d ++ q) = get f d q.
Proof. unfold below. rewrite decide_True by (by apply prefix_app_r). by rewrite drop_app_length. Qed.

Definition compressed n : Prop := isTerm n = true ∨ (2 ≤ length (children n))%nat.

(** [d'] is [d] after the insertion of [p] through their parent. *)
Definition updated d d' p (v : V) : Prop :=
  first d' = first d ∧ path d' ≠ [] ∧ wf d' ∧ compressed d' ∧
  ∀ f q, (length q ≤ S f)%nat → below f d' q = if decide (p = q) then Some (Some v) else below f d q.

Lemma split_updated d p v c : wf d → path d ≠ [] → compressed d → starts c d → lcp (path d) (c :: p) ≠ length (path d) →
  updated d (split d (lcp (path d) (c :: p)) (c :: p) v) (c :: p) v.
Proof.
  intros Hwf Hne Hcomp Hs Hl. set (l := lcp (path d) (c :: p)) in *. destruct (lcp_spec (path d) (c :: p)) as (L1 & L2 & L3 & L4). fold l in L1, L2, L3, L4.
  assert (0 < l)%nat as Hpos. { unfold l. unfold starts, first in Hs. destruct (path d) as [|x pd]; [done|]. injection Hs as ->. cbn. rewrite decide_True by done. lia. }
  set (cp := take l (path d)) in *. assert (length cp = l) as Hcp by (unfold cp; rewrite length_take; lia).
  assert (path d = cp ++ drop l (path d)) as Epd by (unfold cp; by rewrite take_drop).
  assert (c :: p = cp ++ drop l (c :: p)) as Ep by (rewrite L1; by rewrite take_drop).
  set (t := drop l (path d)) in *. set (r := drop l (c :: p)) in *.
  set (tail := Node t (children d) (value d) (isTerm d)). assert (t ≠ []) as Ht.
  { intros E. apply (f_equal length) in E. unfold t in E. rewrite length_drop in E. cbn in E. lia. }
  assert (∀ x y, head t = Some x → head r = Some y → x ≠ y) as Hdiff.
  { intros x y. unfold t, r. rewrite !head_lookup, !lookup_drop, Nat.add_0_r. apply L4. }
  assert (wf tail) as Hwt by (destruct Hwf; by constructor).
  assert (∀ f q, get f tail q = get f d q) as Hget by (by intros [] []).
  assert (cp ≠ []) as Hcpne by (intros E; rewrite E in Hcp; cbn in Hcp; lia).
  assert (length r = (length (c :: p) - l)%nat) as Hr by (unfold r; by rewrite length_drop).
  set (d' := split d l (c :: p) v). assert (path d' = cp) as Epath by (unfold d', split; by destruct (decide _)).
  assert (∀ f q, (length q ≤ f)%nat → get f d' q = if decide (r = q) then Some (Some v) else below (pred f) tail q) as Hd'.
  { intros f q Hq. unfold d', split. fold t r cp tail. destruct (decide (l < length (c :: p))%nat) as [Hlt|Hge].
    - destruct q as [|y q]. { destruct (decide _) as [E|_]; [rewrite E in Hr; cbn [length] in Hr, Hlt; lia|]. unfold below. rewrite decide_False by (by intros ?%prefix_nil_inv). by destruct f. }
      destruct f as [|f]; [cbn in Hq; lia|]. cbn [get get_child children pred]. unfold below at 1. fold (path tail). cbn [path tail].
      destruct (decide (t `prefix_of` y :: q)) as [Hpre|Hnp].
      + rewrite decide_False; [done|]. intros Er. destruct Hpre as [k Hk]. destruct t as [|z t']; [done|]. injection Hk as -> _.
        apply (Hdiff z z); [done|by rewrite Er|done].
      + destruct (decide (r `prefix_of` y :: q)) as [[k Hk]|Hn2].
        * rewrite Hk, drop_app_length. destruct k as [|z k]; [rewrite app_nil_r, decide_True by done; by destruct f|].
          rewrite decide_False by (intros E; apply (f_equal length) in E; rewrite length_app in E; cbn in E; lia).
          destruct f as [|f]; [|done]. cbn in Hq. apply (f_equal length) in Hk. rewrite length_app in Hk. cbn in Hk. lia.
        * rewrite decide_False; [done|]. intros ->. by apply Hn2.
    - assert (r = []) as -> by (apply nil_length_inv; lia). destruct q as [|y q]; [by destruct f|]. rewrite decide_False by done.
      destruct f as [|f]; [cbn in Hq; lia|]. cbn [get get_child children pred]. unfold below. cbn [path tail]. done. }
  split_and!.
  - unfold first. rewrite Epath. unfold cp. destruct (path d); [done|]. by destruct l; [lia|].
  - by rewrite Epath.
  - unfold d', split. fold t r cp tail. destruct (decide _) as [Hlt|_].
    + constructor; cbn [children].
      * apply Forall_cons. split; [by split_and!|]. apply Forall_singleton. cbn. split_and!; [|by left|constructor; constructor].
        intros E. rewrite E in Hr. cbn [length] in Hr, Hlt. lia.
      * rewrite !fmap_cons. cbn. apply NoDup_cons. split; [|apply NoDup_singleton]. rewrite list_elem_of_singleton. unfold first. cbn.
        intros E. destruct t as [|x t']; [done|]. by apply (Hdiff x x).
    + constructor; cbn [children]; [|apply NoDup_singleton]. apply Forall_singleton. by split_and!.
  - unfold d', split, compressed. destruct (decide _); cbn; [right; lia|by left].
  - intros f q Hq. unfold below at 1. rewrite Epath. destruct (decide (cp `prefix_of` q)) as [[q' ->]|Hnp].
    + rewrite drop_app_length. rewrite Hd' by (rewrite length_app in Hq; lia). rewrite Ep. rewrite (decide_ext (r = q') (cp ++ r = cp ++ q')).
      2: { split; [by intros ->|apply app_inv_head]. }
      destruct (decide (cp ++ r = cp ++ q')) as [|Hneq]; [done|]. unfold below. rewrite Epd. cbn [path tail].
      destruct (decide (t `prefix_of` q')) as [Hpre|Hnp].
      * rewrite decide_True by (by apply prefix_app). rewrite Hget, length_app, drop_app_add. destruct Hpre as [k ->]. rewrite drop_app_length.
        rewrite !length_app in Hq. destruct f as [|f]; [destruct t; [done|cbn in Hq; lia]|]. cbn [pred].
        destruct (get_fuel f (S f) d k Hwf) as [-> _]; [destruct t; [done|cbn in Hq; lia]|destruct t; [done|cbn in Hq; lia]|done].
      * rewrite decide_False; [done|]. by intros ?%prefix_app_inv.
    + rewrite decide_False; [|intros <-; apply Hnp; rewrite Ep; by apply prefix_app_r]. unfold below. rewrite decide_False; [done|].
      intros Hpre. apply Hnp. etransitivity; [|exact Hpre]. rewrite Epd. by apply prefix_app_r.
Qed.

Lemma insert_child_none rec cs c p v : Forall (λ d, path d ≠ []) cs → (∀ e, e ∈ cs → ¬ starts c e) → insert_child rec cs (c :: p) v = Some None.
Proof.
  induction 1 as [|d cs Hd _ IH]; intros Hs; cbn [insert_child]; [done|].
  assert (¬ starts c d) as Hn by (apply Hs; set_solver). unfold starts, first in Hn. destruct (path d) as [|x pd]; [done|]. cbn.
  rewrite decide_False by (cbn in Hn; congruence). rewrite IH by set_solver. done.
Qed.

Lemma insert_child_at rec A d B c p v : Forall (λ d, path d ≠ []) (A ++ d :: B) → (∀ e, e ∈ A → ¬ starts c e) → starts c d →
  insert_child rec (A ++ d :: B) (c :: p) v =
    let l := lcp (path d) (c :: p) in
    if decide (l = length (path d)) then d' ← rec d (drop l (c :: p)); Some (Some (A ++ d' :: B))
    else Some (Some (A ++ split d l (c :: p) v :: B)).
Proof.
  intros Hne HA Hd. induction A as [|e A IH]; cbn [app insert_child].
  - unfold starts, first in Hd. rewrite Hd. cbn [mbind option_bind]. by rewrite decide_True.
  - assert (¬ starts c e) as Hn by (apply HA; set_solver). cbn in Hne. apply Forall_cons in Hne as [He Hne]. unfold starts, first in Hn.
    destruct (path e) as [|x pe]; [done|]. cbn [head mbind option_bind]. rewrite decide_False by (cbn in Hn |- *; congruence).
    rewrite IH by (done || set_solver). cbv zeta. destruct (decide _); [|done]. by destruct (rec d _).
Qed.

(** Keys with another first byte. *)
Lemma get_child_other rec A d d' B c c' q : starts c d → first d' = first d → c ≠ c' →
  get_child rec (A ++ d' :: B) (c' :: q) = get_child rec (A ++ d :: B) (c' :: q).
Proof.
  intros Hd Hf Hne. assert (∀ e, starts c e → ¬ path e `prefix_of` c' :: q) as Hno.
  { unfold starts, first. intros e He [k E]. destruct (path e) as [|x pe]; [done|]. injection He as ->. by injection E as ->. }
  induction A as [|e A IH]; cbn; [|by rewrite IH]. rewrite !decide_False; [done|by apply Hno|apply Hno]. unfold starts in *. congruence.
Qed.

Lemma insert_ok v f : ∀ n p, wf n → (length p ≤ f)%nat →
  ∃ n', insert f n p v = Some n' ∧ wf n' ∧ path n' = path n ∧ (isTerm n = true → isTerm n' = true) ∧
    (length (children n) ≤ length (children n'))%nat ∧
    ∀ q f', (length q ≤ f')%nat → get f' n' q = if decide (p = q) then Some (Some v) else get f' n q.
Proof.
  induction f as [|f IH]; intros n [|c p] Hwf Hl; [|cbn in Hl; lia| |]; cbn [insert].
  1, 2: eexists; (split; [reflexivity|]); cbn; (split_and!; [by destruct Hwf; constructor|done|done|done|]);
    intros [|y q] [|f'] Hq; cbn in *; try done; lia.
  pose proof (wf_paths n Hwf) as Hp. pose proof (wf_heads n Hwf) as Hh. pose proof (wf_children n) as Hc.
  assert (∀ cs d d' A B, children n = A ++ d :: B → cs = A ++ d' :: B → starts c d → updated d d' (c :: p) v →
    let n' := Node (path n) cs (value n) (isTerm n) in
    wf n' ∧ ∀ q f', (length q ≤ f')%nat → get f' n' q = if decide (c :: p = q) then Some (Some v) else get f' n q) as Hupd.
  { intros cs d d' A B E -> Hd (U1 & U2 & U3 & U4 & U5). rewrite E in Hp, Hh. assert (first <$> A ++ d' :: B = first <$> A ++ d :: B) as Ef by (rewrite !fmap_app, !fmap_cons; by rewrite U1).
    assert (Forall (λ d, path d ≠ []) (A ++ d' :: B)) as Hp' by (rewrite Forall_app, Forall_cons in Hp |- *; naive_solver).
    split.
    - constructor; cbn [children]; [|by rewrite Ef]. apply Forall_forall. intros e He.
      assert (e = d' ∨ e ∈ children n) as [->|Hin] by (rewrite E; set_solver); [done|by apply Hc].
    - intros [|y q] f' Hq; [by destruct f'|]. destruct f' as [|f']; [cbn in Hq; lia|]. cbn [get children]. rewrite E.
      destruct (decide (c = y)) as [<-|Hne].
      + rewrite !get_child_one by (done || (unfold starts in *; congruence) || by rewrite Ef). apply (U5 f' (c :: q)). done.
      + rewrite decide_False by congruence. by apply (get_child_other _ A d d' B c). }
  destruct (find_child (children n) c) as [(A & d & B & E & Hd & HA)|Hn].
  - destruct (Hc d Hwf) as (Hpd & Hcd & Hwd); [rewrite E; set_solver|]. rewrite E in Hp |- *. rewrite insert_child_at by done. cbv zeta.
    destruct (decide _) as [Hfull|Hpart]; cbn [mbind option_bind].
    + set (l := lcp (path d) (c :: p)) in *. destruct (lcp_spec (path d) (c :: p)) as (L1 & L2 & L3 & L4). fold l in L1, L3.
      assert (c :: p = path d ++ drop l (c :: p)) as Ep. { rewrite <- (take_drop l (c :: p)) at 1. f_equal. by rewrite <- L1, Hfull, take_ge. }
      destruct (IH d (drop l (c :: p)) Hwd) as (d' & -> & W & P & T & N & G).
      { rewrite Hfull. by apply drop_shorter. }
      cbn [mbind option_bind]. eexists. split; [reflexivity|]. destruct (Hupd (A ++ d' :: B) d d' A B E eq_refl Hd) as [W' G'].
      { split_and!; [unfold first; by rewrite P|by rewrite P|done|destruct Hcd; [left; auto|right; lia]|].
        intros f' q Hq. unfold below. rewrite P. destruct (decide (path d `prefix_of` q)) as [[k ->]|Hnp].
        - rewrite drop_app_length. rewrite G by (rewrite length_app in Hq; destruct (path d); [done|cbn in Hq; lia]).
          rewrite (decide_ext (drop l (c :: p) = k) (c :: p = path d ++ k)); [done|].
          split; [by intros <-|]. intros Ek. apply (app_inv_head (path d)). by rewrite <- Ep.
        - rewrite decide_False; [done|]. intros <-. apply Hnp. rewrite Ep. by apply prefix_app_r. }
      split_and!; [done|done|done| |done]. cbn. rewrite ?E, !length_app. cbn. lia.
    + eexists. split; [reflexivity|]. destruct (Hupd _ d _ A B E eq_refl Hd (split_updated d p v c Hwd Hpd Hcd Hd Hpart)) as [W' G'].
      split_and!; [done|done|done| |done]. cbn. rewrite ?E, !length_app. cbn. lia.
  - rewrite insert_child_none by done. cbn [mbind option_bind]. eexists. split; [reflexivity|].
    set (leaf := Node (c :: p) [] v true).
    assert (NoDup (first <$> children n ++ [leaf])) as Hnd.
    { rewrite fmap_app. apply NoDup_app. split_and!; [done| |apply NoDup_singleton]. intros x (e & -> & He)%list_elem_of_fmap Hx.
      apply list_elem_of_singleton in Hx. by apply (Hn e He). }
    assert (Forall (λ d, path d ≠ []) (children n ++ [leaf])) as Hp' by (rewrite Forall_app; split; [done|by apply Forall_singleton]).
    split_and!; [|done|done|cbn; rewrite length_app; lia|].
    + constructor; cbn [children]; [|done]. apply Forall_app. split; [apply Forall_forall; intros e He; by apply Hc|]. apply Forall_singleton.
      split_and!; [done|by left|]. constructor; constructor.
    + intros [|y q] f' Hq; [by destruct f'|]. destruct f' as [|f']; [cbn in Hq; lia|]. cbn [get children]. destruct (decide (c = y)) as [<-|Hne].
      * rewrite get_child_one, (get_child_none _ (children n)) by done. cbn [path leaf].
        destruct (decide (c :: p `prefix_of` c :: q)) as [[k E]|Hnp].
        -- injection E as ->. cbn [length drop]. rewrite drop_app_length. destruct k as [|z k]; [rewrite app_nil_r, decide_True by done; by destruct f'|].
           rewrite decide_False by (intros E2; injection E2 as E2; apply (f_equal length) in E2; rewrite length_app in E2; cbn in E2; lia).
           destruct f' as [|f']; [|done]. cbn in Hq. rewrite length_app in Hq. cbn in Hq. lia.
        -- rewrite decide_False; [done|]. intros E. apply Hnp. by rewrite E.
      * rewrite decide_False by congruence. clear -Hne. induction (children n) as [|e cs IHc]; cbn; [|by rewrite IHc].
        rewrite decide_False; [done|]. intros [k E]. by injection E as ->.
Qed.

(** ** Histories *)

Fixpoint insert_all (os : list (string * V)) n : option (node V) :=
  match os with [] => Some n | (k, v) :: os => n ← Insert k v n; insert_all os n end.

(** The radix tree is a map from keys, and stays compressed: after any insertions, none of
    which panics, [Get] answers the value last inserted under exactly the key, and every node
    below the root ends a key or branches. *)
Theorem radix_refines_map (os : list (string * V)) :
  ∃ n, insert_all os New = Some n ∧ wf n ∧
    ∀ key, Get key n = Some ((foldl (λ m kv, <[bytes kv.1 := kv.2]> m) ∅ os : gmap (list Z) V) !! bytes key).
Proof.
  assert (∀ q f, (length q ≤ f)%nat → get f New q = Some ((∅ : gmap (list Z) V) !! q)) as H0.
  { intros q f Hq. rewrite lookup_empty. destruct q, f; cbn in *; (done || lia). }
  assert (wf New) as W0 by (constructor; constructor). unfold Get. revert W0 H0. generalize New (∅ : gmap (list Z) V).
  induction os as [|[k v] os IH]; intros n m W0 H0; cbn; [exists n; split_and!; [done|done|]; intros key; by apply H0|].
  destruct (insert_ok v (length (bytes k)) n (bytes k) W0) as (n' & E & W & _ & _ & _ & G); [done|]. unfold Insert. rewrite E. cbn.
  apply IH; [done|]. intros q f Hq. rewrite G, H0 by done. cbn. destruct (decide (bytes k = q)) as [<-|]; [by rewrite lookup_insert_eq|by rewrite lookup_insert_ne].
Qed.
End radix.
