(* ===== verification/UnionFind.v ===== *)
(** * pkg/datastructures/set/disjoint

    The disjoint sets with union by rank and path compression.  [find] recurses along
    parent pointers; the fuel of the model is the number of elements, which is enough
    because ranks increase strictly along the pointers ([find_ok]). *)

From S2P Require Import Prelude.
From stdpp Require Import relations options.
Open Scope Z_scope.

(* src: pkg/datastructures/set/disjoint/unionfind.go 5-11 Set *)
Record DSet := { parent : gmap string string; rank : gmap string Z }.

(* src: pkg/datastructures/set/disjoint/unionfind.go 13-18 New *)
Definition New : DSet := {| parent := ∅; rank := ∅ |}.

(* src: pkg/datastructures/set/disjoint/unionfind.go 20-28 MakeSet *)
Definition MakeSet (x : string) (s : DSet) : DSet :=
  match parent s !! x with
  | None => {| parent := <[x := x]> (parent s); rank := <[x := 0]> (rank s) |}
  | Some _ => s
  end.

Definition set_parent (x p : string) (s : DSet) : DSet :=
  {| parent := <[x := p]> (parent s); rank := rank s |}.

(* src: pkg/datastructures/set/disjoint/unionfind.go 37-45 find *)
Fixpoint find (fuel : nat) (x : string) (s : DSet) : option (string * DSet) :=
  match parent s !! x with
  | None => Some ("", s)
  | Some p =>
      if decide (p ≠ x) then
        match fuel with
        | O => None
        | S fuel => '(r, s) ← find fuel p s; Some (r, set_parent x r s)
        end
      else Some (p, s)
  end.

(* src: pkg/datastructures/set/disjoint/unionfind.go 30-35 Find *)
Definition Find (x : string) (s : DSet) : option (string * DSet) := find (size (parent s)) x s.

(** [s.rank[x]] *)
Definition rank_of (s : DSet) (x : string) : Z := default 0 (rank s !! x).

(* src: pkg/datastructures/set/disjoint/unionfind.go 47-68 Union *)
Definition Union (x y : string) (s : DSet) : option DSet :=
  '(rootX, s) ← find (size (parent s)) x s;
  '(rootY, s) ← find (size (parent s)) y s;
  if decide (rootX = "" ∨ rootY = "" ∨ rootX = rootY) then Some s
  else if decide (rank_of s rootX < rank_of s rootY) then Some (set_parent rootX rootY s)
  else if decide (rank_of s rootY < rank_of s rootX) then Some (set_parent rootY rootX s)
  else Some {| parent := <[rootY := rootX]> (parent s);
               rank := <[rootX := i64 (rank_of s rootX + 1)]> (rank s) |}.

(* src: pkg/datastructures/set/disjoint/unionfind.go 70-75 Connected *)
Definition Connected (x y : string) (s : DSet) : option (bool * DSet) :=
  '(rx, s) ← Find x s;
  '(ry, s) ← Find y s;
  Some (bool_decide (rx = ry), s).

(** ** Representatives *)

(** Parents are elements, and ranks increase along parent pointers. *)
Definition wf (s : DSet) : Prop :=
  ∀ x p, parent s !! x = Some p →
    is_Some (parent s !! p) ∧ (p ≠ x → rank_of s x < rank_of s p) ∧ x ≠ "".

Inductive rep (s : DSet) : string → string → Prop :=
  | rep_root x : parent s !! x = Some x → rep s x x
  | rep_step x p r : parent s !! x = Some p → p ≠ x → rep s p r → rep s x r.

Lemma rep_det s x r r' : rep s x r → rep s x r' → r = r'.
Proof.
  intros Hr. revert r'. induction Hr as [x Hx|x p r Hx Hne Hp IH]; intros r' Hr';
  inversion Hr' as [? Hy|? p' ? Hy ? ?]; subst; [done|congruence|congruence|].
  assert (p' = p) as -> by congruence. by apply IH.
Qed.

Lemma rep_is_root s x r : rep s x r → parent s !! r = Some r.
Proof. by induction 1. Qed.

Lemma rep_elem s x r : rep s x r → is_Some (parent s !! x).
Proof. by destruct 1; eexists. Qed.

Lemma rep_rank s x r : wf s → rep s x r → r ≠ x → rank_of s x < rank_of s r.
Proof.
  intros Hwf Hr. induction Hr as [x Hx|x p r Hx Hne Hp IH]; intros Hrx; [done|].
  destruct (Hwf x p Hx) as (_ & Hlt & _). specialize (Hlt Hne).
  destruct (decide (r = p)) as [->|Hrp]; [done|]. specialize (IH Hrp). lia.
Qed.

(** The elements of larger rank: the measure of the recursion. *)
Definition higher (s : DSet) (x : string) : gset string :=
  filter (λ y, rank_of s x < rank_of s y) (dom (parent s)).

Lemma higher_lt s x p :
  wf s → parent s !! x = Some p → p ≠ x → (size (higher s p) < size (higher s x))%nat.
Proof.
  intros Hwf Hx Hne. destruct (Hwf x p Hx) as (Hp & Hlt & _). specialize (Hlt Hne).
  apply subset_size. split.
  - intros y. unfold higher. rewrite !elem_of_filter. intros [? ?]. split; [lia|done].
  - intros Hsub. specialize (Hsub p). unfold higher in Hsub. rewrite !elem_of_filter, elem_of_dom in Hsub.
    destruct Hsub as [? _]; [by split|lia].
Qed.

Lemma higher_size s x : is_Some (parent s !! x) → (size (higher s x) < size (parent s))%nat.
Proof.
  intros Hx. rewrite <- (size_dom (D := gset string)). apply subset_size. split.
  - intros y. unfold higher. rewrite elem_of_filter. by intros [_ ?].
  - intros Hsub. specialize (Hsub x). unfold higher in Hsub.
    rewrite elem_of_filter, elem_of_dom in Hsub. destruct (Hsub Hx) as [? _]. lia.
Qed.

Lemma rep_total s x : wf s → is_Some (parent s !! x) → ∃ r, rep s x r.
Proof.
  intros Hwf. remember (size (higher s x)) as m eqn:Hm. revert x Hm.
  induction m as [m IH] using lt_wf_ind. intros x Hm [p Hp].
  destruct (decide (p = x)) as [->|Hne]; [exists x; by constructor|].
  destruct (IH (size (higher s p)) ltac:(subst; by apply higher_lt) p eq_refl) as [r Hr].
  { by eapply Hwf. }
  exists r. by eapply rep_step.
Qed.

(** [s'] has the elements, ranks and representatives of [s]. *)
Definition compressed (s s' : DSet) : Prop :=
  rank s' = rank s ∧ dom (parent s') = dom (parent s) ∧ wf s' ∧ ∀ x r, rep s x r ↔ rep s' x r.

Lemma compressed_refl s : wf s → compressed s s.
Proof. intros Hwf. split; [done|]. split; [done|]. split; [done|]. done. Qed.

Lemma compressed_trans s1 s2 s3 : compressed s1 s2 → compressed s2 s3 → compressed s1 s3.
Proof.
  intros (Hr & Hd & Hw & H1) (Hr' & Hd' & Hw' & H2). split_and!; [congruence|congruence|done|].
  intros. by rewrite H1, H2.
Qed.

Lemma set_parent_rep s x r :
  wf s → rep s x r → r ≠ x → compressed s (set_parent x r s).
Proof.
  intros Hwf Hr Hne. pose proof (rep_is_root s x r Hr) as Hroot.
  assert (wf (set_parent x r s)) as Hwf'.
  { intros y p Hy. unfold set_parent in Hy |- *. simpl in *. rewrite lookup_insert_is_Some'.
    destruct (decide (y = x)) as [->|Hyx].
    - rewrite lookup_insert_eq in Hy. injection Hy as <-. split_and!; [by right; eexists| |].
      + intros _. change (rank_of s x < rank_of s r). by apply rep_rank.
      + destruct (rep_elem _ _ _ Hr) as [p Hp]. by eapply Hwf.
    - rewrite lookup_insert_ne in Hy by done. destruct (Hwf y p Hy) as (? & ? & ?).
      split_and!; [by right|done|done]. }
  assert (∀ y q, rep s y q → rep (set_parent x r s) y q) as Hto.
  { intros y q Hy. induction Hy as [y Hy|y p q Hy Hyp Hp IH].
    - constructor. simpl. rewrite lookup_insert_ne; [done|]. intros <-.
      apply Hne. by eapply rep_det; [|constructor].
    - destruct (decide (y = x)) as [->|Hyx].
      + assert (q = r) as -> by (eapply rep_det; [by eapply rep_step|done]).
        eapply rep_step; [by apply lookup_insert_eq|done|]. constructor. simpl.
        by rewrite lookup_insert_ne.
      + eapply rep_step; [|done|done]. simpl. by rewrite lookup_insert_ne. }
  assert (dom (parent (set_parent x r s)) = dom (parent s)) as Hdom.
  { simpl. apply dom_insert_lookup_L. by eapply rep_elem. }
  split_and!; [done|done|done|]. intros y q. split; [apply Hto|]. intros Hy.
  destruct (rep_total s y Hwf) as [q' Hq'].
  { apply elem_of_dom. rewrite <- Hdom. apply elem_of_dom. by eapply rep_elem. }
  by rewrite (rep_det _ _ _ _ Hy (Hto _ _ Hq')).
Qed.

(** [find] returns the representative, and only shortens paths. *)
Lemma find_rep s x r :
  wf s → rep s x r → ∀ fuel, (size (higher s x) < fuel)%nat →
  ∃ s', find fuel x s = Some (r, s') ∧ compressed s s'.
Proof.
  intros Hwf Hr. induction Hr as [x Hx|x p r Hx Hne Hp IH]; intros fuel Hf.
  - exists s. destruct fuel; simpl; rewrite Hx, decide_False by tauto; by split; [|apply compressed_refl].
  - destruct fuel as [|fuel]; [lia|]. simpl. rewrite Hx, decide_True by done.
    pose proof (higher_lt s x p Hwf Hx Hne).
    destruct (IH fuel ltac:(lia)) as (s' & -> & Hc). simpl. eexists. split; [done|].
    eapply compressed_trans; [done|]. destruct Hc as (_ & _ & Hwf' & Hrep).
    apply set_parent_rep; [done| |].
    + apply Hrep. by eapply rep_step.
    + intros ->. assert (parent s !! x = Some x) by by eapply rep_is_root. congruence.
Qed.

Lemma find_ok s x r :
  wf s → rep s x r → ∃ s', find (size (parent s)) x s = Some (r, s') ∧ compressed s s'.
Proof. intros Hwf Hr. apply find_rep; [done|done|]. apply higher_size. by eapply rep_elem. Qed.

Lemma find_missing fuel s x : parent s !! x = None → find fuel x s = Some ("", s).
Proof. intros Hx. by destruct fuel; simpl; rewrite Hx. Qed.

(** ** Linking two roots *)

(** [s'] is [s] with the root [c] hung below the root [d], whose rank is now the larger. *)
Definition linked (c d : string) (s s' : DSet) : Prop :=
  parent s' = <[c := d]> (parent s) ∧ (∀ y, y ≠ d → rank_of s' y = rank_of s y) ∧
  rank_of s d ≤ rank_of s' d ≤ rank_of s d + 1 ∧ rank_of s' c < rank_of s' d.

Section link.
Context (s s' : DSet) (c d : string).
Hypotheses (Hwf : wf s) (Hc : parent s !! c = Some c) (Hd : parent s !! d = Some d).
Hypotheses (Hcd : c ≠ d) (Hl : linked c d s s').
#[local] Set Default Proof Using "Type*".

Lemma linked_wf : wf s'.
Proof.
  destruct Hl as (Hp & Hr & Hrd & Hlt). intros y p Hy. rewrite Hp in Hy |- *.
  rewrite lookup_insert_is_Some'. destruct (decide (y = c)) as [->|Hyc].
  - rewrite lookup_insert_eq in Hy. injection Hy as <-.
    split_and!; [by right; eexists|done|by eapply Hwf].
  - rewrite lookup_insert_ne in Hy by done. destruct (Hwf y p Hy) as (Hsome & Hrank & Hne).
    split_and!; [by right| |done]. intros Hpy. specialize (Hrank Hpy).
    rewrite (Hr y) by (intros ->; congruence).
    destruct (decide (p = d)) as [->|?]; [lia|]. by rewrite Hr.
Qed.

Lemma linked_rep y q : rep s y q → rep s' y (if decide (q = c) then d else q).
Proof.
  destruct Hl as (Hp & _).
  assert (rep s' d d) as Hdd by (constructor; by rewrite Hp, lookup_insert_ne).
  assert (rep s' c d) as Hcd'.
  { eapply rep_step; [by rewrite Hp, lookup_insert_eq|done|done]. }
  induction 1 as [y Hy|y p q Hy Hne Hq IH].
  - case_decide as E; [by subst|]. constructor. by rewrite Hp, lookup_insert_ne.
  - eapply rep_step; [|done|done]. rewrite Hp, lookup_insert_ne; [done|]. intros <-. congruence.
Qed.

Lemma linked_dom : dom (parent s') = dom (parent s).
Proof. destruct Hl as (-> & _). apply dom_insert_lookup_L. by eexists. Qed.
End link.

(** Two elements with the same representative. *)
Definition same (s : DSet) (a b : string) : Prop := ∃ r, rep s a r ∧ rep s b r.

Lemma compressed_same s s' a b : compressed s s' → same s a b ↔ same s' a b.
Proof.
  intros (_ & _ & _ & Hrep). unfold same.
  split; intros (r & Ha & Hb); exists r; split; by apply Hrep.
Qed.

(** ** Histories *)

Inductive Op := OpMakeSet (x : string) | OpFind (x : string) | OpUnion (x y : string)
              | OpConnected (x y : string).

Definition run_op (o : Op) (s : DSet) : option DSet :=
  match o with
  | OpMakeSet x => Some (MakeSet x s)
  | OpFind x => snd <$> Find x s
  | OpUnion x y => Union x y s
  | OpConnected x y => snd <$> Connected x y s
  end.

Fixpoint run_ops (os : list Op) (s : DSet) : option DSet :=
  match os with
  | [] => Some s
  | o :: os => s ← run_op o s; run_ops os s
  end.

(** The specification: the elements made so far, and the pairs united while both were
    elements. *)
Definition spec_op (o : Op) (st : gset string * list (string * string)) :
    gset string * list (string * string) :=
  match o with
  | OpMakeSet x => ({[x]} ∪ st.1, st.2)
  | OpUnion x y => (st.1, if decide (x ∈ st.1 ∧ y ∈ st.1) then (x, y) :: st.2 else st.2)
  | _ => st
  end.

Definition spec (os : list Op) := foldl (λ st o, spec_op o st) (∅, []) os.

(** Connected by the pairs [es]: their equivalence closure. *)
Definition connected (es : list (string * string)) : relation string :=
  rtsc (λ a b, (a, b) ∈ es).

Definition inv (n : Z) (known : gset string) (es : list (string * string)) (s : DSet) : Prop :=
  wf s ∧ dom (parent s) = known ∧ (∀ x, 0 ≤ rank_of s x ≤ n) ∧
  (∀ a b, (a, b) ∈ es → same s a b) ∧ (∀ a b, same s a b → connected es a b).

Lemma inv_compressed n known es s s' : inv n known es s → compressed s s' → inv n known es s'.
Proof.
  intros (Hwf & Hd & Hr & He & Hs) Hc. pose proof (λ a b, compressed_same s s' a b Hc) as Hsame.
  destruct Hc as (Hrank & Hdom & Hwf' & _). unfold inv, rank_of. rewrite Hrank.
  split_and!; [done|congruence|done| |].
  - intros a b Hab. apply Hsame. by apply He.
  - intros a b Hab. apply Hs. by apply Hsame.
Qed.

Lemma inv_mono n n' known es s : inv n known es s → n ≤ n' → inv n' known es s.
Proof.
  intros (? & ? & Hr & ? & ?) Hle. split_and!; try done. intros x. specialize (Hr x). lia.
Qed.

(** A found element has its representative, another one has none. *)
Lemma inv_find n known es s x :
  inv n known es s →
  ∃ r s', find (size (parent s)) x s = Some (r, s') ∧ compressed s s' ∧ inv n known es s' ∧
    (x ∈ known → rep s' x r ∧ r ≠ "") ∧ (x ∉ known → r = "").
Proof.
  intros Hinv. pose proof Hinv as (Hwf & Hd & _). subst known.
  destruct (decide (x ∈ dom (parent s))) as [Hin|Hout].
  - destruct (rep_total s x Hwf) as [r Hr]; [by apply elem_of_dom|].
    destruct (find_ok s x r Hwf Hr) as (s' & Hf & Hc). exists r, s'.
    split_and!; [done|done|by eapply inv_compressed| |done]. intros _. split; [by apply Hc|].
    eapply Hwf. by eapply rep_is_root.
  - exists "", s. rewrite find_missing by by apply not_elem_of_dom.
    split_and!; [done|by apply compressed_refl|done|done|done].
Qed.

#[local] Instance connected_equiv es : Equivalence (connected es).
Proof. unfold connected. apply _. Qed.

Lemma connected_mono e es a b : connected es a b → connected (e :: es) a b.
Proof. apply rtc_subrel. intros x y [?|?]; [left|right]; by apply elem_of_cons; right. Qed.

Lemma connected_edge x y es : connected ((x, y) :: es) x y.
Proof. apply rtc_once. left. by apply elem_of_cons; left. Qed.

(** Adding a pair to elements that are the same already adds nothing. *)
Lemma inv_same_pair n known es s x y :
  inv n known es s → same s x y → inv n known ((x, y) :: es) s.
Proof.
  intros (Hwf & Hd & Hr & He & Hs) Hxy. split_and!; try done.
  - by intros a b [[= -> ->]|?]%elem_of_cons; [|apply He].
  - intros a b Hab. apply connected_mono. by apply Hs.
Qed.

Lemma inv_link n known es s s' x y rx ry c d :
  inv n known es s → rep s x rx → rep s y ry → rx ≠ ry →
  (c = rx ∧ d = ry ∨ c = ry ∧ d = rx) → linked c d s s' →
  inv (n + 1) known ((x, y) :: es) s'.
Proof.
  intros (Hwf & Hd & Hr & He & Hs) Hx Hy Hne Hcd Hl.
  assert (c ≠ d) as Hcd' by (destruct Hcd as [[-> ->]|[-> ->]]; done).
  assert (parent s !! c = Some c ∧ parent s !! d = Some d) as [Hc Hdr].
  { destruct Hcd as [[-> ->]|[-> ->]]; split; by eapply rep_is_root. }
  pose proof (linked_wf s s' c d Hwf Hc Hdr Hcd' Hl) as Hwf'.
  pose proof (linked_rep s s' c d Hwf Hc Hdr Hcd' Hl) as Hrep.
  pose proof (linked_dom s s' c d Hwf Hc Hdr Hcd' Hl) as Hdom.
  split_and!; [done|congruence| | |].
  - intros z. destruct Hl as (_ & Hrk & Hrd & _). destruct (decide (z = d)) as [->|Hz].
    + specialize (Hr d). lia.
    + rewrite Hrk by done. specialize (Hr z). lia.
  - intros a b [[= -> ->]|Hab]%elem_of_cons.
    + exists d. apply Hrep in Hx, Hy.
      destruct Hcd as [[-> ->]|[-> ->]]; repeat case_decide; congruence || done.
    + destruct (He a b Hab) as (q & Ha & Hb). eexists. split; by apply Hrep.
  - intros a b (q & Ha & Hb).
    assert (∀ z q, rep s' z q → ∃ q0, rep s z q0 ∧ q = if decide (q0 = c) then d else q0) as Hback.
    { intros z q1 Hz. destruct (rep_total s z Hwf) as [q0 Hq0].
      { apply elem_of_dom. rewrite <- Hdom. apply elem_of_dom. by eapply rep_elem. }
      exists q0. split; [done|]. by eapply rep_det; [|apply Hrep]. }
    destruct (Hback a q Ha) as (qa & Hqa & ->). destruct (Hback b _ Hb) as (qb & Hqb & Heq).
    assert (qa = qb ∨ qa = rx ∧ qb = ry ∨ qa = ry ∧ qb = rx) as Hcases.
    { destruct Hcd as [[-> ->]|[-> ->]]; repeat case_decide; subst; tauto. }
    destruct Hcases as [->|[[-> ->]|[-> ->]]].
    + apply connected_mono, Hs. by exists qb.
    + trans x; [apply connected_mono, Hs; by exists rx|]. trans y; [apply connected_edge|].
      apply connected_mono, Hs. by exists ry.
    + trans y; [apply connected_mono, Hs; by exists ry|].
      trans x; [symmetry; apply connected_edge|]. apply connected_mono, Hs. by exists rx.
Qed.

Lemma linked_set_parent s c d :
  rank_of s c < rank_of s d → linked c d s (set_parent c d s).
Proof. intros ?. unfold linked, rank_of in *. simpl. split_and!; [done|done|lia|lia|done]. Qed.

Lemma Union_inv n known es s x y :
  inv n known es s → n < 2 ^ 63 - 1 →
  ∃ s', Union x y s = Some s' ∧
    inv (n + 1) known (if decide (x ∈ known ∧ y ∈ known) then (x, y) :: es else es) s'.
Proof.
  intros Hinv Hn. unfold Union.
  destruct (inv_find n known es s x Hinv) as (rx & s1 & -> & _ & Hi1 & Hx & Hx'). simpl.
  destruct (inv_find n known es s1 y Hi1) as (ry & s2 & -> & Hc & Hi2 & Hy & Hy'). simpl.
  destruct (decide (x ∈ known ∧ y ∈ known)) as [[Hkx Hky]|Hout].
  2:{ rewrite decide_True.
      - exists s2. split; [done|]. eapply inv_mono; [done|lia].
      - destruct (decide (x ∈ known)); [|left; auto].
        destruct (decide (y ∈ known)); [tauto|right; left; auto]. }
  destruct (Hx Hkx) as [Hrx Hnx], (Hy Hky) as [Hry Hny]. apply Hc in Hrx.
  case_decide as Hstop.
  { exists s2. split; [done|]. eapply inv_mono; [|apply Z.le_succ_diag_r].
    apply inv_same_pair; [done|]. destruct Hstop as [?|[?|?]]; [done|done|]. subst. by exists ry. }
  assert (rx ≠ ry) as Hne by tauto. pose proof Hi2 as (_ & _ & Hr & _).
  case_decide; [|case_decide]; eexists; split; try done; eapply inv_link; try done.
  - by left.
  - by apply linked_set_parent.
  - by right.
  - by apply linked_set_parent.
  - by right.
  - pose proof (Hr rx) as Hrrx. split_and!; [done| | | |]; unfold rank_of in *; simpl.
    + intros z Hz. by rewrite lookup_insert_ne.
    + rewrite lookup_insert_eq. simpl. rewrite i64_id by (unfold is_i64; lia). lia.
    + rewrite lookup_insert_eq. simpl. rewrite i64_id by (unfold is_i64; lia). lia.
    + rewrite lookup_insert_eq, lookup_insert_ne by done. simpl.
      rewrite i64_id by (unfold is_i64; lia). lia.
Qed.

Lemma MakeSet_inv n known es s x :
  inv n known es s → 0 ≤ n → x ≠ "" → inv n ({[x]} ∪ known) es (MakeSet x s).
Proof.
  intros (Hwf & Hd & Hr & He & Hs) Hn Hx. unfold MakeSet. destruct (parent s !! x) as [p|] eqn:Hp.
  { split_and!; try done. rewrite <- Hd. apply elem_of_dom_2 in Hp. set_solver. }
  assert (∀ y p, parent s !! y = Some p → y ≠ x ∧ p ≠ x) as Hother.
  { intros y p Hy. split; intros ->; [congruence|]. destruct (Hwf y x Hy) as [[? ?] _]. congruence. }
  set (s' := {| parent := _ |}).
  assert (∀ z, z ≠ x → rank_of s' z = rank_of s z) as Hrk.
  { intros z Hz. unfold rank_of. simpl. by rewrite lookup_insert_ne. }
  assert (∀ a r, rep s a r → rep s' a r) as Hto.
  { induction 1 as [a Ha|a p r Ha Hne Hp' IH]; destruct (Hother _ _ Ha).
    - constructor. simpl. by rewrite lookup_insert_ne.
    - eapply rep_step; [|done|done]. simpl. by rewrite lookup_insert_ne. }
  assert (∀ a r, rep s' a r → a = x ∧ r = x ∨ rep s a r) as Hfrom.
  { induction 1 as [a Ha|a p r Ha Hne Hp' IH]; simpl in Ha;
    destruct (decide (a = x)) as [->|Hax]; rewrite ?lookup_insert_eq, ?lookup_insert_ne in Ha by done.
    - by left.
    - right. by constructor.
    - congruence.
    - right. eapply rep_step; [done|done|]. destruct IH as [[-> ->]|?]; [|done].
      by destruct (Hother _ _ Ha). }
  split_and!.
  - intros y p Hy. simpl in Hy |- *. rewrite lookup_insert_is_Some'.
    destruct (decide (y = x)) as [->|Hyx].
    + rewrite lookup_insert_eq in Hy. injection Hy as <-. split_and!; [by left|done|done].
    + rewrite lookup_insert_ne in Hy by done. destruct (Hother _ _ Hy).
      rewrite !Hrk by done. destruct (Hwf y p Hy) as (? & ? & ?). split_and!; [by right|done|done].
  - simpl. rewrite dom_insert_L. by rewrite Hd.
  - intros z. destruct (decide (z = x)) as [->|Hz]; [|by rewrite Hrk].
    unfold rank_of. simpl. rewrite lookup_insert_eq. simpl. lia.
  - intros a b Hab. destruct (He a b Hab) as (r & ? & ?). exists r. split; by apply Hto.
  - intros a b (r & Ha & Hb). destruct (Hfrom a r Ha) as [[Ea Er]|Ha'], (Hfrom b r Hb) as [[Eb Er']|Hb'].
    + by subst.
    + subst r. apply rep_is_root in Hb'. congruence.
    + subst r. apply rep_is_root in Ha'. congruence.
    + apply Hs. by exists r.
Qed.

Lemma Connected_inv n known es s x y :
  inv n known es s →
  ∃ b s', Connected x y s = Some (b, s') ∧ inv n known es s' ∧
    (x ∈ known → y ∈ known → (b = true ↔ connected es x y)).
Proof.
  intros Hinv. unfold Connected, Find.
  destruct (inv_find n known es s x Hinv) as (rx & s1 & -> & _ & Hi1 & Hx & Hx'). simpl.
  destruct (inv_find n known es s1 y Hi1) as (ry & s2 & -> & Hc & Hi2 & Hy & Hy'). simpl.
  do 2 eexists. split; [done|]. split; [done|]. intros Hkx Hky.
  destruct (Hx Hkx) as [Hrx _], (Hy Hky) as [Hry _]. apply Hc in Hrx. rewrite bool_decide_eq_true.
  destruct Hi2 as (Hwf & Hd & _ & He & Hs). split.
  - intros ->. apply Hs. by exists ry.
  - assert (∀ a b, connected es a b → ∀ q, rep s2 a q → rep s2 b q) as Hall.
    { intros a b Hab. induction Hab as [a|a b c Hab _ IH]; [done|]. intros q Hq. apply IH.
      destruct Hab as [Hab|Hab]; destruct (He _ _ Hab) as (r & Ha & Hb).
      - by rewrite (rep_det _ _ _ _ Hq Ha).
      - by rewrite (rep_det _ _ _ _ Hq Hb). }
    intros Hxy. eapply rep_det; [|done]. by eapply Hall.
Qed.

Lemma New_inv : inv 0 ∅ [] New.
Proof.
  split_and!; simpl; try done.
  - intros a b Hab. by apply elem_of_nil in Hab.
  - intros a b (r & Ha & _). by destruct (rep_elem _ _ _ Ha).
Qed.

Definition op_ok (o : Op) : Prop := match o with OpMakeSet x => x ≠ "" | _ => True end.

Lemma run_op_inv n st s o :
  inv n st.1 st.2 s → 0 ≤ n < 2 ^ 63 - 1 → op_ok o →
  ∃ s', run_op o s = Some s' ∧ inv (n + 1) (spec_op o st).1 (spec_op o st).2 s'.
Proof.
  intros Hinv Hn Hok. destruct o as [x|x|x y|x y]; simpl.
  - eexists. split; [done|]. apply (inv_mono n); [apply MakeSet_inv; [done|lia|done]|lia].
  - unfold Find. destruct (inv_find n _ _ s x Hinv) as (r & s' & -> & _ & Hi & _). simpl.
    eexists. split; [done|]. eapply inv_mono; [done|lia].
  - apply Union_inv; [done|lia].
  - destruct (Connected_inv n _ _ s x y Hinv) as (b & s' & -> & Hi & _). simpl.
    eexists. split; [done|]. eapply inv_mono; [done|lia].
Qed.

Lemma run_ops_inv os : ∀ n st s,
  inv n st.1 st.2 s → 0 ≤ n → n + Z.of_nat (length os) < 2 ^ 63 → Forall op_ok os →
  let st' := foldl (λ st o, spec_op o st) st os in
  ∃ s' n', run_ops os s = Some s' ∧ inv n' st'.1 st'.2 s'.
Proof.
  induction os as [|o os IH]; intros n st s Hinv Hn Hlen Hok; simpl in *; [by exists s, n|].
  inversion Hok; subst. destruct (run_op_inv n st s o Hinv ltac:(lia) ltac:(done)) as (s1 & -> & Hi).
  simpl. apply (IH (n + 1) (spec_op o st) s1 Hi); [lia|lia|done].
Qed.

(** The disjoint sets are the equivalence closure of what was united: in every history
    of MakeSet (of non-empty names), Find, Union and Connected calls all the recursive
    finds end, and for two elements Connected answers whether they are connected by the
    pairs that were united while both were elements, whatever path compression
    and union by rank have done to the forest. *)
Theorem unionfind_decides_connectivity (os : list Op) (x y : string) :
  Forall op_ok os → Z.of_nat (length os) < 2 ^ 63 → x ∈ (spec os).1 → y ∈ (spec os).1 →
  ∃ s b s', run_ops os New = Some s ∧ Connected x y s = Some (b, s') ∧
    (b = true ↔ connected (spec os).2 x y).
Proof.
  intros Hok Hlen Hx Hy.
  destruct (run_ops_inv os 0 (∅, []) New New_inv ltac:(lia) ltac:(lia) Hok) as (s & n & Hs & Hi).
  destruct (Connected_inv _ _ _ s x y Hi) as (b & s' & Hc & _ & Hiff). exists s, b, s'.
  split_and!; [done|done|]. by apply Hiff.
Qed.

Lemma unionfind_decides_connectivity_witness :
  let os := [OpMakeSet "a"; OpMakeSet "b"; OpMakeSet "c"; OpMakeSet "d"; OpUnion "a" "b";
             OpUnion "c" "d"; OpUnion "e" "a"; OpUnion "b" "d"] in
  ∃ s b s', run_ops os New = Some s ∧ Connected "a" "c" s = Some (b, s') ∧
    (b = true ↔ connected (spec os).2 "a" "c").
Proof.
  intros os. apply (unionfind_decides_connectivity os "a" "c").
  - repeat constructor; done.
  - vm_compute. done.
  - compute_decide.
  - compute_decide.
Defined.
