(* ===== verification/Dag.v ===== *)
(** * pkg/datastructures/graph/dag

    The directed acyclic graph.  Go ranges over a map in an order that is not specified:
    an [Order] says in which order one call goes through the nodes and through the edges
    out of each node, and every call of a history has an order of its own (no call goes
    through the edges of a node twice). *)

From S2P Require Import Prelude Errors.
From stdpp Require Import relations options.
Open Scope Z_scope.

(* src: pkg/datastructures/graph/dag/dag.go 8-11 ErrCycleDetected *)
Definition ErrCycleDetected : error := FailedPrecondition "cycle detected" None.
(* src: pkg/datastructures/graph/dag/dag.go 8-11 ErrNodeNotFound *)
Definition ErrNodeNotFound : error := NotFound "node not found" None.

Record Order := { nodes_order : list string; out_order : string → list string }.

Section dag.
Context {T : Type}.

(** A node, and the graph: the map of its nodes. *)
(* src: pkg/datastructures/graph/dag/dag.go 13-24 node *)
Record node := { value : T; in_ : gset string; out : gset string }.

Notation DAG := (gmap string node).

(* src: pkg/datastructures/graph/dag/dag.go 26-31 New *)
Definition New : DAG := ∅.

(* src: pkg/datastructures/graph/dag/dag.go 33-45 AddNode *)
Definition AddNode (id : string) (v : T) (g : DAG) : DAG :=
  match g !! id with
  | None => <[id := {| value := v; in_ := ∅; out := ∅ |}]> g
  | Some _ => g
  end.

(** [g.nodes[id].out] and [g.nodes[id].in], empty for an unknown node. *)
Definition outs (g : DAG) (id : string) : gset string := default ∅ (out <$> g !! id).
Definition ins (g : DAG) (id : string) : gset string := default ∅ (in_ <$> g !! id).

(** An order that goes through exactly what there is. *)
Definition ranges (o : Order) (g : DAG) : Prop :=
  nodes_order o ≡ₚ elements (dom g) ∧ ∀ id, out_order o id ≡ₚ elements (outs g id).

(** ** Cycle detection *)

(** The variables the closure [visit] shares. *)
Record Visit := { visited : gset string; recursionStack : gset string; hasCycle : bool }.

Section detect.
Context (o : Order) (g : DAG).

(** The loop over the edges of [id]; the flag says that the loop returned from [visit]. *)
Fixpoint edges_loop (visit : string → Visit → option Visit) (ns : list string) (st : Visit) :
    option (Visit * bool) :=
  match ns with
  | [] => Some (st, false)
  | n :: ns =>
      if decide (n ∉ visited st) then st ← visit n st; edges_loop visit ns st
      else if decide (n ∈ recursionStack st) then
        Some ({| visited := visited st; recursionStack := recursionStack st; hasCycle := true |}, true)
      else edges_loop visit ns st
  end.

(* src: pkg/datastructures/graph/dag/dag.go 131-149 visit *)
Fixpoint visit (fuel : nat) (id : string) (st : Visit) : option Visit :=
  if hasCycle st then Some st
  else
    match fuel with
    | O => None
    | S fuel =>
        let st := {| visited := {[id]} ∪ visited st; recursionStack := {[id]} ∪ recursionStack st;
                     hasCycle := hasCycle st |} in
        '(st, returned) ← (match g !! id with
                           | Some _ => edges_loop (visit fuel) (out_order o id) st
                           | None => Some (st, false)
                           end);
        Some (if returned : bool then st
              else {| visited := visited st; recursionStack := recursionStack st ∖ {[id]};
                      hasCycle := hasCycle st |})
    end.

Fixpoint detect_loop (fuel : nat) (ids : list string) (st : Visit) : option bool :=
  match ids with
  | [] => Some false
  | id :: ids =>
      if decide (id ∉ visited st) then
        st ← visit fuel id st;
        if hasCycle st then Some true else detect_loop fuel ids st
      else detect_loop fuel ids st
  end.

(** A node is visited once: the recursion is at most as deep as there are nodes. *)
(* src: pkg/datastructures/graph/dag/dag.go 121-160 detectCycle *)
Definition detectCycle : option bool :=
  detect_loop (S (size g)) (nodes_order o)
    {| visited := ∅; recursionStack := ∅; hasCycle := false |}.
End detect.

Definition set_out (f : gset string → gset string) (n : node) : node :=
  {| value := value n; in_ := in_ n; out := f (out n) |}.
Definition set_in (f : gset string → gset string) (n : node) : node :=
  {| value := value n; in_ := f (in_ n); out := out n |}.

(** The order is the one of the call of [detectCycle], on the graph with the new edge. *)
(* src: pkg/datastructures/graph/dag/dag.go 47-77 AddEdge *)
Definition AddEdge (o : Order) (from to : string) (g : DAG) : option (option error * DAG) :=
  match g !! from, g !! to with
  | Some _, Some _ =>
      if decide (from = to) then Some (Some ErrCycleDetected, g)
      else
        let g := alter (set_in ({[from]} ∪.)) to (alter (set_out ({[to]} ∪.)) from g) in
        cyclic ← detectCycle o g;
        if cyclic : bool then
          let g := alter (set_in (.∖ {[from]})) to (alter (set_out (.∖ {[to]})) from g) in
          Some (Some ErrCycleDetected, g)
        else Some (None, g)
  | _, _ => Some (Some ErrNodeNotFound, g)
  end.

(** ** Topological sort *)

(* src: pkg/datastructures/graph/dag/dag.go 106-112 neighbor *)
Fixpoint relax (ns : list string) (inDegree : gmap string Z) (queue : list string) :
    gmap string Z * list string :=
  match ns with
  | [] => (inDegree, queue)
  | n :: ns =>
      let d := default 0 (inDegree !! n) - 1 in
      relax ns (<[n := d]> inDegree) (if decide (d = 0) then queue ++ [n] else queue)
  end.

(* src: pkg/datastructures/graph/dag/dag.go 100-113 queue *)
Fixpoint kahn_loop (fuel : nat) (o : Order) (inDegree : gmap string Z) (queue result : list string)
    : option (list string) :=
  match queue with
  | [] => Some result
  | currID :: queue =>
      match fuel with
      | O => None
      | S fuel =>
          let '(inDegree, queue) := relax (out_order o currID) inDegree queue in
          kahn_loop fuel o inDegree queue (result ++ [currID])
      end
  end.

(** [count] is the length of [result]; each round removes a node for good. *)
(* src: pkg/datastructures/graph/dag/dag.go 79-119 TopologicalSort *)
Definition TopologicalSort (o : Order) (g : DAG) : option (error + list string) :=
  let inDegree := (λ n, Z.of_nat (size (in_ n))) <$> g in
  let queue := filter (λ id, inDegree !! id = Some 0) (nodes_order o) in
  result ← kahn_loop (size g) o inDegree queue [];
  Some (if decide (length result ≠ size g) then inl ErrCycleDetected else inr result).

(** ** The depth-first search *)

Definition edge (g : DAG) : relation string := λ a b, b ∈ outs g a.

(** The edges out of each node number strictly downwards: the graph has no cycle. *)
Definition ranked (g : DAG) (f : string → nat) : Prop := ∀ a b, edge g a b → (f b < f a)%nat.

Lemma ranked_tc g f a b : ranked g f → tc (edge g) a b → (f b < f a)%nat.
Proof.
  intros Hf. induction 1 as [a b Hab|a b c Hab _ IH]; [by apply Hf|]. apply Hf in Hab. lia.
Qed.

Lemma ranked_acyclic g f x : ranked g f → ¬ tc (edge g) x x.
Proof. intros Hf Hx. apply (ranked_tc g f x x Hf) in Hx. lia. Qed.

Section dfs.
Context (o : Order) (g : DAG).
Hypotheses (Ho : ranges o g) (Hclosed : ∀ a b, edge g a b → b ∈ dom g).
#[local] Set Default Proof Using "Type*".

Definition finished (st : Visit) (b : string) : Prop := b ∈ visited st ∧ b ∉ recursionStack st.

(** Finished nodes lead to finished nodes of lower rank only. *)
Definition dfs_inv (st : Visit) : Prop :=
  hasCycle st = false ∧ recursionStack st ⊆ visited st ∧ visited st ⊆ dom g ∧
  ∃ (f : string → nat) m, ∀ b, finished st b →
    (f b < m)%nat ∧ ∀ c, edge g b c → finished st c ∧ (f c < f b)%nat.

(** What a search that ends without a cycle leaves, and a cycle otherwise. *)
Definition searched (st st' : Visit) : Prop :=
  if hasCycle st' then ∃ x, tc (edge g) x x
  else dfs_inv st' ∧ recursionStack st' = recursionStack st ∧ visited st ⊆ visited st'.

Definition visits (fuel : nat) : Prop := ∀ id st,
  dfs_inv st → id ∈ dom g → id ∉ visited st → (size (dom g ∖ visited st) ≤ fuel)%nat →
  (∀ s, s ∈ recursionStack st → tc (edge g) s id) →
  ∃ st', visit o g fuel id st = Some st' ∧ searched st st' ∧
    (hasCycle st' = false → id ∈ visited st').

Lemma visit_stopped fuel id st : hasCycle st = true → visit o g fuel id st = Some st.
Proof using Type. intros Hs. by destruct fuel; simpl; rewrite Hs. Qed.

Lemma edges_loop_stopped fuel ns st :
  hasCycle st = true →
  ∃ st' r, edges_loop (visit o g fuel) ns st = Some (st', r) ∧ hasCycle st' = true.
Proof using Type.
  intros Hs. induction ns as [|n ns IH]; simpl; [by exists st, false|].
  case_decide; [by rewrite visit_stopped|]. case_decide; [|done]. do 2 eexists. by split.
Qed.

Lemma edges_loop_spec fuel id : visits fuel → ∀ ns st,
  (∀ n, n ∈ ns → edge g id n) → dfs_inv st → (size (dom g ∖ visited st) ≤ fuel)%nat →
  (∀ s, s ∈ recursionStack st → rtc (edge g) s id) →
  ∃ st' r, edges_loop (visit o g fuel) ns st = Some (st', r) ∧ searched st st' ∧
    (hasCycle st' = false → r = false ∧ ∀ n, n ∈ ns → finished st' n).
Proof.
  intros Hvisits ns. induction ns as [|n ns IH]; intros st Hns Hinv Hsize Hstack; simpl.
  { exists st, false. pose proof Hinv as [Hc _]. unfold searched. rewrite Hc.
    split_and!; try done. intros _. split; [done|]. intros n Hn. by apply elem_of_nil in Hn. }
  assert (edge g id n) as Hn by (apply Hns; by left).
  case_decide as Hvis; [|case_decide as Hst].
  - destruct (Hvisits n st Hinv (Hclosed id n Hn) Hvis Hsize) as (st1 & -> & Hs1 & Hv1).
    { intros s Hs. eapply tc_rtc_l; [by apply Hstack|by apply tc_once]. }
    simpl. unfold searched in Hs1. destruct (hasCycle st1) eqn:Hc1.
    { destruct (edges_loop_stopped fuel ns st1 Hc1) as (st2 & r & Hl & Hc2).
      exists st2, r. unfold searched. rewrite Hc2. by split_and!. }
    destruct Hs1 as (Hinv1 & Hst1 & Hsub1).
    destruct (IH st1) as (st2 & r & Hl & Hs2 & Hr2); [|done| |by rewrite Hst1|].
    { intros n' Hn'. apply Hns. by right. }
    { etrans; [|exact Hsize]. apply subseteq_size. set_solver. }
    exists st2, r. unfold searched in *. destruct (hasCycle st2) eqn:Hc2; [by split_and!|].
    destruct Hs2 as (Hinv2 & Hst2 & Hsub2). split_and!; [done|done|congruence|set_solver|].
    intros _. destruct (Hr2 eq_refl) as [-> Hfin]. split; [done|].
    intros n' [->|Hn']%elem_of_cons; [|by apply Hfin].
    split; [by apply Hsub2, Hv1|]. rewrite Hst2, Hst1. destruct Hinv as (_ & Hsv & _). set_solver.
  - do 2 eexists. split; [done|]. unfold searched. simpl. split; [|done].
    exists n. eapply tc_rtc_l; [by apply Hstack|by apply tc_once].
  - destruct (IH st) as (st2 & r & Hl & Hs2 & Hr2); [|done|done|done|].
    { intros n' Hn'. apply Hns. by right. }
    exists st2, r. split_and!; [done|done|]. intros Hc2. destruct (Hr2 Hc2) as [-> Hfin].
    split; [done|]. intros n' [->|Hn']%elem_of_cons; [|by apply Hfin].
    unfold searched in Hs2. rewrite Hc2 in Hs2. destruct Hs2 as (_ & Hst2 & Hsub2).
    split; [|by rewrite Hst2]. apply Hsub2. destruct (decide (n ∈ visited st)); [done|tauto].
Qed.

(** Once its edges have been gone through, a node is finished above all the others. *)
Lemma finish id st' :
  id ∈ dom g → id ∈ recursionStack st' → dfs_inv st' →
  (∀ n, edge g id n → finished st' n) →
  dfs_inv {| visited := visited st'; recursionStack := recursionStack st' ∖ {[id]};
             hasCycle := hasCycle st' |}.
Proof.
  intros Hid Hstack (Hc & Hsub & Hdom & f & m & Hf) Hfin.
  split; [done|]. split; [set_solver|]. split; [done|].
  exists (λ x, if decide (x = id) then m else f x), (S m). simpl.
  assert (∀ b, finished st' b → b ≠ id) as Hne by (intros b [_ Hb] ->; done).
  intros b [Hb Hnb]. simpl in Hb, Hnb. destruct (decide (b = id)) as [->|Hbid].
  - split; [lia|]. intros c Hc'. apply Hfin in Hc'. rewrite decide_False by by apply Hne.
    destruct (Hf c Hc') as [? _]. split; [|lia]. destruct Hc'. split; simpl; [done|set_solver].
  - destruct (Hf b) as [Hm Hall]; [split; [done|set_solver]|]. split; [lia|].
    intros c Hbc. destruct (Hall c Hbc) as [Hfc Hlt]. rewrite decide_False by by apply Hne.
    split; [|done]. destruct Hfc. split; simpl; [done|set_solver].
Qed.

Lemma start_inv id st :
  dfs_inv st → id ∈ dom g → id ∉ visited st →
  dfs_inv {| visited := {[id]} ∪ visited st; recursionStack := {[id]} ∪ recursionStack st;
             hasCycle := hasCycle st |}.
Proof.
  intros (Hc & Hsub & Hdom & f & m & Hf) Hid Hnew. split; [done|].
  split; [simpl; set_solver|]. split; [simpl; set_solver|]. exists f, m.
  intros b [Hb Hnb]. simpl in Hb, Hnb. destruct (Hf b) as [Hm Hall]; [split; set_solver|].
  split; [done|]. intros c Hbc. destruct (Hall c Hbc) as [[? ?] ?]. split; [|done].
  split; simpl; [set_solver|]. intros [->%elem_of_singleton|?]%elem_of_union; done.
Qed.

Lemma visit_spec fuel : visits fuel.
Proof.
  induction fuel as [|fuel IH]; intros id st Hinv Hid Hnew Hsize Hstack.
  { assert (id ∈ dom g ∖ visited st) as Hin by set_solver.
    apply size_non_empty_iff in Hin || (assert (dom g ∖ visited st ≢ ∅) as Hne by set_solver;
      apply size_non_empty_iff in Hne); lia. }
  pose proof (start_inv id st Hinv Hid Hnew) as Hinv0. pose proof Hinv as (Hc0 & Hsub0 & _).
  simpl. rewrite Hc0 in *. set (st0 := {| visited := {[id]} ∪ visited st |}) in *.
  assert (is_Some (g !! id)) as [nd ->] by by apply elem_of_dom.
  destruct (edges_loop_spec fuel id IH (out_order o id) st0) as (st1 & r & -> & Hs & Hr).
  - intros n Hn. destruct Ho as [_ Hout]. rewrite Hout in Hn. by apply elem_of_elements in Hn.
  - done.
  - assert (dom g ∖ visited st0 ⊂ dom g ∖ visited st) as Hlt by (simpl; set_solver).
    apply subset_size in Hlt. lia.
  - simpl. intros s [->%elem_of_singleton|Hs]%elem_of_union; [done|]. apply tc_rtc. by apply Hstack.
  - simpl. eexists. split; [done|]. unfold searched in Hs |- *.
    destruct (hasCycle st1) eqn:Hc1.
    { destruct r; simpl; rewrite ?Hc1; by split. }
    destruct (Hr eq_refl) as [-> Hfin]. destruct Hs as (Hinv1 & Hst1 & Hsub1). simpl.
    assert (dfs_inv {| visited := visited st1; recursionStack := recursionStack st1 ∖ {[id]};
                       hasCycle := hasCycle st1 |}) as Hfinish.
    { apply finish; [done|rewrite Hst1; simpl; set_solver|done|].
      intros n Hn. apply Hfin. destruct Ho as [_ ->]. by apply elem_of_elements. }
    rewrite Hc1 in Hfinish. split_and!; [done| |simpl in *; set_solver|intros _; set_solver].
    rewrite Hst1. simpl. set_solver.
Qed.

Lemma detect_loop_spec fuel ids st :
  (size g < fuel)%nat → dfs_inv st → recursionStack st = ∅ → (∀ id, id ∈ ids → id ∈ dom g) →
  (∀ id, id ∈ dom g → id ∈ ids ∨ id ∈ visited st) →
  ∃ b, detect_loop o g fuel ids st = Some b ∧
    if b : bool then ∃ x, tc (edge g) x x else ∃ f, ranked g f.
Proof.
  intros Hfuel. revert st. induction ids as [|id ids IH]; intros st Hinv Hst Hids Hall; simpl.
  { exists false. split; [done|]. destruct Hinv as (_ & _ & _ & f & m & Hf). exists f.
    intros a b Hab. destruct (Hall a) as [Ha|Ha].
    - unfold edge, outs in Hab. destruct (g !! a) eqn:E; [by eapply elem_of_dom_2|set_solver].
    - by apply elem_of_nil in Ha.
    - apply Hf; [|done]. split; [done|set_solver]. }
  case_decide as Hv.
  - destruct (visit_spec fuel id st Hinv) as (st1 & -> & Hs & Hin).
    + apply Hids. by left.
    + done.
    + rewrite <- (size_dom (D := gset string)) in Hfuel.
      assert (size (dom g ∖ visited st) ≤ size (dom g))%nat by (apply subseteq_size; set_solver). lia.
    + rewrite Hst. set_solver.
    + simpl. unfold searched in Hs. destruct (hasCycle st1) eqn:Hc; [by exists true|].
      destruct Hs as (Hinv1 & Hst1 & Hsub). apply IH; [done|congruence| |].
      * intros i Hi. apply Hids. by right.
      * intros i Hi. destruct (Hall i Hi) as [[->|?]%elem_of_cons|?]; [right; by apply Hin|by left|].
        right. by apply Hsub.
  - apply IH; [done|done| |].
    + intros i Hi. apply Hids. by right.
    + intros i Hi. destruct (Hall i Hi) as [[->|?]%elem_of_cons|?]; [|by left|by right].
      right. destruct (decide (id ∈ visited st)); [done|tauto].
Qed.

(** [detectCycle] ends, and decides whether there is a cycle. *)
Lemma detectCycle_spec :
  ∃ b, detectCycle o g = Some b ∧ if b : bool then ∃ x, tc (edge g) x x else ∃ f, ranked g f.
Proof.
  destruct Ho as [Hnodes _]. apply detect_loop_spec.
  - lia.
  - split; [done|]. split; [done|]. split; [simpl; set_solver|]. exists (λ _, 0%nat), 0%nat.
    intros b [Hb _]. simpl in Hb. set_solver.
  - done.
  - intros id Hid. rewrite Hnodes in Hid. by apply elem_of_elements.
  - intros id Hid. left. rewrite Hnodes. by apply elem_of_elements.
Qed.
End dfs.

(** ** Adding an edge *)

(** The graph [AddEdge] tries, and the one it rolls back to. *)
Definition with_edge (from to : string) (g : DAG) : DAG :=
  alter (set_in ({[from]} ∪.)) to (alter (set_out ({[to]} ∪.)) from g).
Definition without_edge (from to : string) (g : DAG) : DAG :=
  alter (set_in (.∖ {[from]})) to (alter (set_out (.∖ {[to]})) from g).

Definition graph_ok (g : DAG) : Prop :=
  (∀ a b, b ∈ outs g a ↔ a ∈ ins g b) ∧ (∀ a b, edge g a b → b ∈ dom g) ∧ ∃ f, ranked g f.

Lemma outs_dom g a b : edge g a b → a ∈ dom g.
Proof. unfold edge, outs. destruct (g !! a) eqn:E; simpl; [by intros _; eapply elem_of_dom_2|set_solver]. Qed.

Lemma lookup_with_edge from to g a :
  with_edge from to g !! a =
    (λ n, {| value := value n; in_ := if decide (a = to) then {[from]} ∪ in_ n else in_ n;
             out := if decide (a = from) then {[to]} ∪ out n else out n |}) <$> g !! a.
Proof.
  unfold with_edge. rewrite !lookup_alter.
  repeat case_decide; subst; try done; destruct (g !! _) as [[]|]; done.
Qed.

Lemma edge_with_edge from to g a b :
  from ∈ dom g → edge (with_edge from to g) a b ↔ edge g a b ∨ a = from ∧ b = to.
Proof.
  intros [n Hn]%elem_of_dom. unfold edge, outs. rewrite lookup_with_edge.
  destruct (decide (a = from)) as [->|Ha].
  - rewrite Hn. simpl. set_solver.
  - destruct (g !! a); simpl; set_solver.
Qed.

Lemma ins_with_edge from to g a b :
  to ∈ dom g → a ∈ ins (with_edge from to g) b ↔ a ∈ ins g b ∨ a = from ∧ b = to.
Proof.
  intros [n Hn]%elem_of_dom. unfold ins. rewrite lookup_with_edge.
  destruct (decide (b = to)) as [->|Hb].
  - rewrite Hn. simpl. set_solver.
  - destruct (g !! b); simpl; set_solver.
Qed.

Lemma dom_with_edge from to g : dom (with_edge from to g) = dom g.
Proof. unfold with_edge. by rewrite !dom_alter_L. Qed.

Lemma add_remove (x : string) (X : gset string) : x ∉ X → ({[x]} ∪ X) ∖ {[x]} = X.
Proof. set_solver. Qed.

(** Taking back an edge that was not there gives back the graph. *)
Lemma without_with_edge from to g :
  from ≠ to → ¬ edge g from to → from ∉ ins g to → without_edge from to (with_edge from to g) = g.
Proof.
  intros Hne Hout Hin. apply map_eq. intros a. unfold without_edge, edge, outs, ins in *.
  destruct (decide (a = to)) as [->|Ht]; [|destruct (decide (a = from)) as [->|Hf]].
  - rewrite lookup_alter_eq, lookup_alter_ne, lookup_with_edge by done.
    destruct (g !! to) as [[v i u]|]; [|done]. simpl in *. rewrite decide_True, decide_False by congruence.
    unfold set_in. simpl. by rewrite add_remove.
  - rewrite lookup_alter_ne, lookup_alter_eq, lookup_with_edge by done.
    destruct (g !! from) as [[v i u]|]; [|done]. simpl in *. rewrite decide_False, decide_True by congruence.
    unfold set_out. simpl. by rewrite add_remove.
  - rewrite !lookup_alter_ne, lookup_with_edge by done.
    destruct (g !! a) as [[v i u]|]; [|done]. simpl. by rewrite !decide_False by done.
Qed.

(** A path that uses a new edge passes through its ends. *)
Lemma tc_with_edge from to g a b :
  from ∈ dom g → tc (edge (with_edge from to g)) a b →
  tc (edge g) a b ∨ rtc (edge g) a from ∧ rtc (edge g) to b.
Proof.
  intros Hfrom. induction 1 as [a b Hab|a b c Hab _ IH].
  - apply edge_with_edge in Hab as [Hab|[-> ->]]; [|right; by split|done]. left. by apply tc_once.
  - apply edge_with_edge in Hab as [Hab|[-> ->]]; [| |done].
    + destruct IH as [IH|[IH1 IH2]]; [left; by eapply tc_l|right; split; [by eapply rtc_l|done]].
    + right. split; [done|]. destruct IH as [IH|[_ IH]]; [by apply tc_rtc|done].
Qed.

Lemma ranked_rtc g f a b : ranked g f → rtc (edge g) a b → (f b ≤ f a)%nat.
Proof. intros Hf. induction 1 as [a|a b c Hab _ IH]; [done|]. apply Hf in Hab. lia. Qed.

(** [AddEdge] refuses exactly unknown ends and edges that would close a cycle, and a
    refusal changes nothing. *)
Lemma AddEdge_spec o from to g :
  graph_ok g → ranges o (with_edge from to g) →
  ∃ r g', AddEdge o from to g = Some (r, g') ∧ graph_ok g' ∧
    (r = Some ErrNodeNotFound ↔ from ∉ dom g ∨ to ∉ dom g) ∧
    (r = Some ErrCycleDetected ↔ from ∈ dom g ∧ to ∈ dom g ∧ rtc (edge g) to from) ∧
    match r with None => g' = with_edge from to g | Some _ => g' = g end.
Proof.
  intros Hok Hr. pose proof Hok as (Hio & Hcl & f & Hf). unfold AddEdge.
  assert (ErrNodeNotFound ≠ ErrCycleDetected) as Hdiff by done.
  destruct (g !! from) as [nf|] eqn:Ef; [|apply not_elem_of_dom in Ef];
    [|by exists (Some ErrNodeNotFound), g; split_and!; try done; split; intros; simplify_eq; tauto].
  destruct (g !! to) as [nt|] eqn:Et; [|apply not_elem_of_dom in Et];
    [|by exists (Some ErrNodeNotFound), g; split_and!; try done; split; intros; simplify_eq; tauto].
  apply elem_of_dom_2 in Ef, Et. case_decide as Heq.
  { subst. exists (Some ErrCycleDetected), g. split_and!; try done; split; intros; simplify_eq; tauto || by split_and!. }
  fold (with_edge from to g). set (g1 := with_edge from to g) in *.
  assert (∀ a b, edge g1 a b → b ∈ dom g1) as Hcl1.
  { intros a b Hab. unfold g1. rewrite dom_with_edge. apply edge_with_edge in Hab as [?|[-> ->]]; eauto. }
  destruct (detectCycle_spec o g1 Hr Hcl1) as (b & -> & Hb). simpl. destruct b.
  - destruct Hb as [x Hx]. apply tc_with_edge in Hx as [Hx|[Hx1 Hx2]]; [by apply (ranked_acyclic g f) in Hx| |done].
    assert (rtc (edge g) to from) as Hcyc by by etrans.
    assert (¬ edge g from to) as Hnew.
    { intros He. apply Hf in He. apply (ranked_rtc g f) in Hcyc; [lia|done]. }
    fold (without_edge from to g1). unfold g1. rewrite without_with_edge; [|done|done|by rewrite <- Hio].
    exists (Some ErrCycleDetected), g. split_and!; try done; split; intros; simplify_eq; try tauto.
  - destruct Hb as [f1 Hf1]. exists None, g1. split_and!; [done| | | |done].
    + split_and!; [|done|by exists f1]. intros a b. unfold g1.
      rewrite (ins_with_edge from to g a b Et). rewrite <- Hio. by apply edge_with_edge.
    + split; [done|tauto].
    + split; [done|]. intros (_ & _ & Hcyc). exfalso.
      assert (edge g1 from to) as He by (apply edge_with_edge; auto). apply Hf1 in He.
      assert (rtc (edge g1) to from) as Hcyc1.
      { eapply rtc_subrel; [|exact Hcyc]. intros. apply edge_with_edge; auto. }
      apply (ranked_rtc g1 f1) in Hcyc1; [lia|done].
Qed.

(** ** The topological sort *)

Lemma filter_ext_elem {A} (P Q : A → Prop) `{!∀ x, Decision (P x), !∀ x, Decision (Q x)} (l : list A) :
  (∀ x, x ∈ l → P x ↔ Q x) → filter P l = filter Q l.
Proof.
  induction l as [|x l IH]; intros Hl; [done|]. rewrite !filter_cons.
  rewrite IH by (intros; apply Hl; by right). pose proof (Hl x ltac:(by left)).
  repeat case_decide; tauto || done.
Qed.

Lemma relax_spec ns : ∀ deg q deg' q',
  NoDup ns → relax ns deg q = (deg', q') →
  (∀ v, v ∉ ns → deg' !! v = deg !! v) ∧
  (∀ v, v ∈ ns → deg' !! v = Some (default 0 (deg !! v) - 1)) ∧
  q' = q ++ filter (λ n, default 0 (deg !! n) = 1) ns.
Proof.
  induction ns as [|n ns IH]; intros deg q deg' q' Hnd Hr; simpl in Hr.
  { simplify_eq. split_and!; [done| |by rewrite app_nil_r]. intros v Hv. by apply elem_of_nil in Hv. }
  apply NoDup_cons in Hnd as [Hn Hnd]. destruct (IH _ _ _ _ Hnd Hr) as (Hout & Hin & Hq).
  split_and!.
  - intros v [Hvn Hv]%not_elem_of_cons. by rewrite Hout, lookup_insert_ne.
  - intros v [->|Hv]%elem_of_cons; [by rewrite Hout, lookup_insert_eq|].
    rewrite Hin by done. rewrite lookup_insert_ne by (intros ->; done). done.
  - rewrite Hq, filter_cons.
    assert (filter (λ n0, default 0 (<[n := default 0 (deg !! n) - 1]> deg !! n0) = 1) ns =
            filter (λ n0, default 0 (deg !! n0) = 1) ns) as ->.
    { apply filter_ext_elem. intros v Hv.
      rewrite lookup_insert_ne by (intros ->; done). done. }
    destruct (decide (default 0 (deg !! n) - 1 = 0)); [rewrite decide_True by lia|rewrite decide_False by lia].
    + by rewrite <- (assoc_L (++)).
    + done.
Qed.

(** Sets without the elements of a list that grows. *)
Definition minus (X : gset string) (l : list string) : gset string := X ∖ list_to_set l.

Lemma size_minus_0 X l : size (minus X l) = 0%nat ↔ X ⊆ list_to_set l.
Proof.
  unfold minus. rewrite size_empty_iff. split.
  - intros Hz x Hx. destruct (decide (x ∈@{gset string} list_to_set l)); [done|].
    assert (x ∈ X ∖ list_to_set l) as Hin by by apply elem_of_difference.
    rewrite Hz in Hin. by apply not_elem_of_empty in Hin.
  - intros Hsub x. rewrite elem_of_difference. split; [|by intros ?%not_elem_of_empty].
    intros [Hx Hn]. by apply Hsub in Hx.
Qed.

Lemma minus_snoc_in X l c :
  c ∈ X → c ∉ l → size (minus X l) = S (size (minus X (l ++ [c]))).
Proof.
  intros Hx Hl. unfold minus.
  replace (X ∖ list_to_set l) with ({[c]} ∪ X ∖ list_to_set (l ++ [c])).
  - rewrite size_union by (rewrite list_to_set_app_L; set_solver). by rewrite size_singleton.
  - apply set_eq. intros x. rewrite list_to_set_app_L. simpl. destruct (decide (x = c)); set_solver.
Qed.

Lemma minus_snoc_out X l c : c ∉ X → minus X (l ++ [c]) = minus X l.
Proof. intros Hx. unfold minus. rewrite list_to_set_app_L. set_solver. Qed.

Section kahn.
Context (o : Order) (g : DAG).
Hypotheses (Ho : ranges o g) (Hok : graph_ok g).
#[local] Set Default Proof Using "Type*".

(** Every degree counts the incoming edges from nodes not yet in the result; the result and
    the queue are the nodes that have none, each once; and a node of the result has its
    incoming edges from nodes before it. *)
Definition kahn_inv (deg : gmap string Z) (q res : list string) : Prop :=
  NoDup (res ++ q) ∧
  (∀ v, v ∈ dom g → deg !! v = Some (Z.of_nat (size (minus (ins g v) res)))) ∧
  (∀ v, v ∈ res ++ q ↔ v ∈ dom g ∧ size (minus (ins g v) res) = 0%nat) ∧
  (∀ i v, res !! i = Some v → ins g v ⊆ list_to_set (take i res)).

Lemma out_order_ins c v : v ∈ out_order o c ↔ c ∈ ins g v.
Proof. destruct Ho as [_ Hout], Hok as [Hio _]. rewrite Hout, elem_of_elements. apply Hio. Qed.

Lemma out_order_dom c v : v ∈ out_order o c → v ∈ dom g.
Proof.
  rewrite out_order_ins. destruct Hok as (Hio & Hcl & _). intros Hc. apply (Hcl c). by apply Hio.
Qed.

(** The nodes a round adds to the queue: those whose last pending edge comes from [c]. *)
Lemma released deg q res c v :
  kahn_inv deg (c :: q) res → c ∉ res →
  v ∈ filter (λ n, default 0 (deg !! n) = 1) (out_order o c) ↔
  v ∈ out_order o c ∧ size (minus (ins g v) (res ++ [c])) = 0%nat.
Proof.
  intros (_ & Hdeg & _) Hc. rewrite list_elem_of_filter.
  split; intros [H1 H2]; split; try done.
  - rewrite Hdeg in H1 by by eapply out_order_dom. simpl in H1.
    rewrite (minus_snoc_in _ res c) in H1; [lia|by apply out_order_ins|done].
  - rewrite Hdeg by by eapply out_order_dom. simpl.
    rewrite (minus_snoc_in _ res c); [lia|by apply out_order_ins|done].
Qed.

Lemma kahn_round c deg q res deg' q' :
  kahn_inv deg (c :: q) res → relax (out_order o c) deg q = (deg', q') →
  kahn_inv deg' q' (res ++ [c]).
Proof.
  intros Hinv Hr. pose proof Hinv as (Hnd & Hdeg & Hready & Hsorted).
  assert (NoDup (out_order o c)) as Hndo by (destruct Ho as [_ ->]; apply NoDup_elements).
  destruct (relax_spec (out_order o c) deg q deg' q' Hndo Hr) as (Hkeep & Hdec & ->).
  assert (c ∉ res) as Hc.
  { apply NoDup_app in Hnd as (_ & Hd & _). intros Hin. apply (Hd c Hin). by left. }
  pose proof (λ v, released deg q res c v Hinv Hc) as Hnew. set (new := filter _ _) in *.
  assert ((res ++ [c]) ++ q ++ new = (res ++ c :: q) ++ new) as Happ by by rewrite <- !(assoc_L (++)).
  unfold kahn_inv. rewrite Happ. split_and!.
  - apply NoDup_app. split_and!; [done| |by apply NoDup_filter].
    intros v [_ Hv]%Hready [Hv' _]%Hnew.
    rewrite (minus_snoc_in _ res c) in Hv; [lia|by apply out_order_ins|done].
  - intros v Hv. destruct (decide (v ∈ out_order o c)) as [Hin|Hni].
    + rewrite Hdec, Hdeg by done. simpl. f_equal.
      rewrite (minus_snoc_in _ res c); [lia|by apply out_order_ins|done].
    + rewrite Hkeep, Hdeg by done. rewrite minus_snoc_out; [done|]. by rewrite <- out_order_ins.
  - intros v. rewrite elem_of_app, Hready, Hnew. split.
    + intros [[? Hz]|[? ?]]; [|split; [by eapply out_order_dom|done]]. split; [done|].
      apply size_minus_0 in Hz. apply size_minus_0. rewrite list_to_set_app_L. set_solver.
    + intros [Hv Hz]. destruct (decide (v ∈ out_order o c)) as [Hin|Hni]; [by right; split|].
      left. split; [done|]. by rewrite <- (minus_snoc_out _ res c) by by rewrite <- out_order_ins.
  - intros i v Hi. apply lookup_app_Some in Hi as [Hi|[Hlen Hi]].
    + rewrite take_app_le by (apply lookup_lt_Some in Hi; lia). by apply Hsorted.
    + apply list_lookup_singleton_Some in Hi as [Hi <-].
      rewrite take_app_length' by lia. apply size_minus_0, Hready. apply elem_of_app. right. by left.
Qed.

(** An empty queue means that every node is in the result. *)
Lemma kahn_done deg res : kahn_inv deg [] res → res ≡ₚ elements (dom g).
Proof.
  intros (Hnd & _ & Hready & _). rewrite app_nil_r in *. destruct Hok as (Hio & Hcl & f & Hf).
  apply NoDup_Permutation; [done|apply NoDup_elements|]. intros v. rewrite elem_of_elements.
  split; [intros Hv; by apply Hready|].
  set (M := max_list (f <$> elements (dom g))). remember (M - f v)%nat as k eqn:Hk.
  revert v Hk. induction k as [k IH] using lt_wf_ind. intros v Hk Hv. apply Hready.
  split; [done|]. apply size_minus_0. intros p Hp. apply elem_of_list_to_set.
  assert (edge g p v) as Hpv by by apply Hio. pose proof (Hf p v Hpv) as Hlt.
  assert (p ∈ dom g) as Hpd by by eapply outs_dom.
  assert (f p ≤ M)%nat as HM.
  { apply max_list_elem_of_le. apply list_elem_of_fmap. exists p. split; [done|]. by apply elem_of_elements. }
  eapply (IH (M - f p)%nat); [lia|done|done].
Qed.

Lemma kahn_loop_spec fuel deg q res :
  kahn_inv deg q res → (size g ≤ length res + fuel)%nat →
  ∃ res', kahn_loop fuel o deg q res = Some res' ∧ res' ≡ₚ elements (dom g) ∧
    ∀ i v, res' !! i = Some v → ins g v ⊆ list_to_set (take i res').
Proof.
  revert deg q res. induction fuel as [|fuel IH]; intros deg q res Hinv Hfuel;
  (destruct q as [|c q]; [exists res; split_and!; [done|by eapply kahn_done|by apply Hinv]|]).
  - exfalso. destruct Hinv as (Hnd & _ & Hready & _).
    assert (size (list_to_set (res ++ c :: q) : gset string) ≤ size (dom g))%nat as Hle.
    { apply subseteq_size. intros v Hv%elem_of_list_to_set. by apply Hready. }
    rewrite size_list_to_set, length_app, size_dom in Hle by done. simpl in Hle. lia.
  - simpl. destruct (relax (out_order o c) deg q) as [deg' q'] eqn:Hr.
    apply (IH deg' q' (res ++ [c])); [by eapply kahn_round|]. rewrite length_app. simpl. lia.
Qed.

(** A position in the order is before that of every dependent. *)
Definition sorted (l : list string) : Prop :=
  ∀ a b i j, edge g a b → l !! i = Some a → l !! j = Some b → (i < j)%nat.

Lemma TopologicalSort_spec :
  ∃ l, TopologicalSort o g = Some (inr l) ∧ l ≡ₚ elements (dom g) ∧ sorted l.
Proof.
  pose proof Ho as [Hnodes _]. unfold TopologicalSort.
  set (deg := (λ n, Z.of_nat (size (in_ n))) <$> g).
  assert (∀ v, v ∈ dom g → deg !! v = Some (Z.of_nat (size (ins g v)))) as Hdeg.
  { intros v [n Hn]%elem_of_dom. unfold deg, ins. by rewrite lookup_fmap, Hn. }
  assert (∀ v, minus (ins g v) [] = ins g v) as Hm by (intros; unfold minus; simpl; set_solver).
  destruct (kahn_loop_spec (size g) deg (filter (λ id, deg !! id = Some 0) (nodes_order o)) [])
    as (l & -> & Hperm & Hsort).
  - unfold kahn_inv. simpl. split_and!; [| | |done].
    + apply NoDup_filter. rewrite Hnodes. apply NoDup_elements.
    + intros v Hv. by rewrite Hm, Hdeg.
    + intros v. rewrite list_elem_of_filter, Hnodes, elem_of_elements, Hm. split.
      * intros [Hz Hv]. rewrite Hdeg in Hz by done. split; [done|]. injection Hz as Hz. lia.
      * intros [Hv Hz]. rewrite Hdeg, Hz by done. done.
  - simpl. lia.
  - simpl. exists l. rewrite decide_False.
    2:{ intros Hne. apply Hne. rewrite Hperm. apply (size_dom (D := gset string)). }
    split_and!; [done|done|]. intros a b i j Hab Hi Hj.
    assert (a ∈ take j l) as Ha.
    { apply (elem_of_list_to_set (C := gset string)). apply (Hsort j b Hj).
      destruct Hok as (Hio & _). by apply Hio. }
    apply list_elem_of_lookup in Ha as [i' Hi']. apply lookup_take_Some in Hi' as [Hi' Hlt].
    assert (NoDup l) as Hnd by (rewrite Hperm; apply NoDup_elements).
    by rewrite (NoDup_lookup l i i' a Hnd Hi Hi').
Qed.
End kahn.

(** ** Histories *)

Lemma AddNode_ok id v g : graph_ok g → graph_ok (AddNode id v g).
Proof.
  intros (Hio & Hcl & f & Hf). unfold AddNode. destruct (g !! id) as [n|] eqn:E; [by split_and!; eauto|].
  assert (∀ a, outs (<[id := {| value := v; in_ := ∅; out := ∅ |}]> g) a = outs g a) as Ho.
  { intros a. unfold outs. destruct (decide (a = id)) as [->|?].
    - by rewrite lookup_insert_eq, E.
    - by rewrite lookup_insert_ne. }
  assert (∀ a, ins (<[id := {| value := v; in_ := ∅; out := ∅ |}]> g) a = ins g a) as Hi.
  { intros a. unfold ins. destruct (decide (a = id)) as [->|?].
    - by rewrite lookup_insert_eq, E.
    - by rewrite lookup_insert_ne. }
  unfold graph_ok, edge. split_and!.
  - intros a b. by rewrite Ho, Hi.
  - intros a b. rewrite Ho. intros Hab%Hcl. rewrite dom_insert_L. set_solver.
  - exists f. intros a b. unfold edge. rewrite Ho. apply Hf.
Qed.

Inductive Op := OpAddNode (id : string) (v : T) | OpAddEdge (o : Order) (from to : string).

Definition run_op (op : Op) (g : DAG) : option (option error * DAG) :=
  match op with
  | OpAddNode id v => Some (None, AddNode id v g)
  | OpAddEdge o from to => AddEdge o from to g
  end.

Fixpoint run_ops (ops : list Op) (g : DAG) : option DAG :=
  match ops with
  | [] => Some g
  | op :: ops => '(_, g) ← run_op op g; run_ops ops g
  end.

(** The order of each [AddEdge] ranges over the graph its cycle detection sees. *)
Fixpoint in_order (ops : list Op) (g : DAG) : Prop :=
  match ops with
  | [] => True
  | op :: ops =>
      match op with OpAddNode _ _ => True | OpAddEdge o from to => ranges o (with_edge from to g) end ∧
      match run_op op g with Some (_, g) => in_order ops g | None => True end
  end.

Lemma run_ops_ok ops g :
  graph_ok g → in_order ops g → ∃ g', run_ops ops g = Some g' ∧ graph_ok g'.
Proof.
  revert g. induction ops as [|op ops IH]; simpl; intros g Hok Hin; [by exists g|].
  destruct Hin as [Ho Hin]. destruct op as [id v|o from to]; simpl in *.
  - apply IH; [by apply AddNode_ok|done].
  - destruct (AddEdge_spec o from to g Hok Ho) as (r & g1 & E & Hok1 & _). rewrite E in *. by apply IH.
Qed.

(** C33. The graph stays acyclic and can always be sorted.  After any history of AddNode and
    AddEdge calls, whatever order Go's maps are gone through in: the graph has no
    cycle; an AddEdge call ends, with node-not-found exactly when an end is unknown,
    with cycle-detected exactly when the edge would close a cycle (there is a path back, or
    the ends are the same), adding just that edge otherwise and changing nothing when it
    refuses; and TopologicalSort ends and returns every node once, each before
    all that depend on it. *)
Theorem dag_acyclic_and_sorted (ops : list Op) :
  in_order ops New →
  ∃ g, run_ops ops New = Some g ∧ (∀ x, ¬ tc (edge g) x x) ∧
    (∀ o from to, ranges o (with_edge from to g) →
       ∃ r g', AddEdge o from to g = Some (r, g') ∧
         (r = Some ErrNodeNotFound ↔ from ∉ dom g ∨ to ∉ dom g) ∧
         (r = Some ErrCycleDetected ↔ from ∈ dom g ∧ to ∈ dom g ∧ rtc (edge g) to from) ∧
         (∀ a b, edge g' a b ↔ edge g a b ∨ r = None ∧ a = from ∧ b = to)) ∧
    (∀ o, ranges o g →
       ∃ l, TopologicalSort o g = Some (inr l) ∧ l ≡ₚ elements (dom g) ∧ sorted g l).
Proof.
  intros Hin.
  assert (graph_ok New) as Hnew.
  { split_and!; [done|done|]. exists (λ _, 0%nat). intros a b Hab. done. }
  destruct (run_ops_ok ops New Hnew Hin) as (g & Hg & Hok). exists g. split; [done|].
  pose proof Hok as (_ & _ & f & Hf). split; [intros x; by eapply ranked_acyclic|]. split.
  - intros o from to Ho. destruct (AddEdge_spec o from to g Hok Ho) as (r & g' & E & _ & H1 & H2 & H3).
    exists r, g'. split_and!; [done|done|done|]. intros a b. destruct r as [e|].
    + subst. split; [by left|intros [?|[? _]]; done].
    + subst. rewrite edge_with_edge; [split; intros; tauto|].
      destruct (decide (from ∈ dom g)) as [|Hn]; [done|].
      assert (None = Some ErrNodeNotFound) as [=]. apply H1. by left.
  - intros o Ho. by apply TopologicalSort_spec.
Qed.
End dag.

Lemma dag_acyclic_and_sorted_witness :
  let o1 := {| nodes_order := ["c"; "b"; "a"];
               out_order := λ id, if decide (id = "a") then ["b"] else [] |} in
  let o2 := {| nodes_order := ["b"; "a"; "c"];
               out_order := λ id, if decide (id = "a") then ["b"]
                                  else if decide (id = "b") then ["c"] else [] |} in
  let ops := [OpAddNode "a" 1; OpAddNode "b" 2; OpAddNode "c" 3; OpAddEdge o1 "a" "b";
              OpAddEdge o2 "b" "c"] in
  ∃ g, run_ops ops New = Some g ∧ TopologicalSort o2 g = Some (inr ["a"; "b"; "c"]) ∧
    ∀ x, ¬ tc (edge g) x x.
Proof.
  intros o1 o2 ops.
  assert (∀ (o : Order) (g : gmap string (node (T := Z))),
    bool_decide (Permutation (nodes_order o) (elements (dom g))) = true →
    bool_decide (map_Forall (λ id n, Permutation (out_order o id) (elements (out n))) g) = true →
    (∀ id, g !! id = None → out_order o id = []) → ranges o g) as Hr.
  { intros o g H1%bool_decide_eq_true H2%bool_decide_eq_true H3. split; [done|]. intros id.
    unfold outs. destruct (g !! id) as [n|] eqn:E; simpl; [by apply (H2 id n)|].
    rewrite H3 by done. by rewrite elements_empty. }
  set (g3 := AddNode "c" 3 (AddNode "b" 2 (AddNode "a" 1 New))).
  assert (run_op (OpAddEdge o1 "a" "b") g3 = Some (None, with_edge "a" "b" g3)) as E1
    by (vm_compute; reflexivity).
  assert (ranges o1 (with_edge "a" "b" g3)) as Hr1.
  { apply Hr; [vm_compute; reflexivity|vm_compute; reflexivity|]. intros id Hid. simpl.
    case_decide; [subst; vm_compute in Hid; done|done]. }
  assert (ranges o2 (with_edge "b" "c" (with_edge "a" "b" g3))) as Hr2.
  { apply Hr; [vm_compute; reflexivity|vm_compute; reflexivity|]. intros id Hid. simpl.
    repeat case_decide; subst; try (vm_compute in Hid); done. }
  assert (in_order ops New) as Hin.
  { do 3 (split; [exact I|]). split; [exact Hr1|]. fold g3. rewrite E1.
    split; [exact Hr2|]. by destruct (run_op _ _) as [[]|]. }
  destruct (dag_acyclic_and_sorted ops Hin) as (g & Hg & Hac & _). exists g.
  split; [done|]. split; [|done]. vm_compute in Hg. injection Hg as <-. vm_compute. reflexivity.
Defined.
