(* ===== verification/Swim.v ===== *)
(** * pkg/algorithms/gossip/swim

    SWIM membership: one node's view of the others.  Every method runs under the lock and
    is a function of the protocol's state and of the time it reads; the transport's
    answers, the order in which a map is gone through and the random choices are
    arguments.  A probe reads the members, pings without the lock and then marks its
    target: between the two anything may happen, so that the event system below has the
    marking of any member at any time. *)

From S2P Require Import Prelude.
From stdpp Require Import relations options.
Open Scope Z_scope.

(* src: pkg/algorithms/gossip/swim/swim.go 11-18 State *)
Inductive State := Alive | Suspect | Dead.

#[global] Instance swim_State_eq_dec : EqDecision State.
Proof. solve_decision. Defined.

(* src: pkg/algorithms/gossip/swim/swim.go 20-27 Member *)
Record Member := { ID : string; Address : string; MState : State; Incarnation : Z; LastUpdate : Z }.

#[global] Instance Member_eq_dec : EqDecision Member.
Proof. solve_decision. Defined.

(* src: pkg/algorithms/gossip/swim/swim.go 29-37 Config *)
Record Config := { BindAddress : string; CID : string; ProtocolPeriod : Z; PingTimeout : Z;
                   SuspectTimeout : Z; PingReqK : Z }.

(* src: pkg/algorithms/gossip/swim/swim.go 39-47 EventType *)
Inductive EventType := EventJoin | EventLeave | EventFail | EventUpdate.

(* src: pkg/algorithms/gossip/swim/swim.go 67-71 Event *)
Record Event := { Type_ : EventType; EMember : Member }.

(** [events] is what the channel holds; it has room for 100. *)
(* src: pkg/algorithms/gossip/swim/swim.go 49-65 Protocol *)
Record Protocol := { config : Config; members : gmap string Member; events : list Event;
                     incarnation : Z }.

(* src: pkg/algorithms/gossip/swim/swim.go 79-100 New *)
Definition New (c : Config) : Protocol :=
  {| config :=
       {| BindAddress := BindAddress c; CID := CID c;
          ProtocolPeriod := if decide (ProtocolPeriod c = 0) then 10 ^ 9 else ProtocolPeriod c;
          PingTimeout := PingTimeout c;
          SuspectTimeout := if decide (SuspectTimeout c = 0) then 3 * 10 ^ 9 else SuspectTimeout c;
          PingReqK := if decide (PingReqK c = 0) then 3 else PingReqK c |};
     members := ∅; events := []; incarnation := 0 |}.

Definition set_members (ms : gmap string Member) (p : Protocol) : Protocol :=
  {| config := config p; members := ms; events := events p; incarnation := incarnation p |}.
Definition set_incarnation (i : Z) (p : Protocol) : Protocol :=
  {| config := config p; members := members p; events := events p; incarnation := i |}.

(* src: pkg/algorithms/gossip/swim/swim.go 227-233 emitLocked *)
Definition emitLocked (ev : Event) (p : Protocol) : Protocol :=
  {| config := config p; members := members p;
     events := if decide (length (events p) < 100)%nat then events p ++ [ev] else events p;
     incarnation := incarnation p |}.

(* src: pkg/algorithms/gossip/swim/swim.go 118-135 Join *)
Definition Join (id address : string) (now : Z) (p : Protocol) : Protocol :=
  match members p !! id with
  | Some _ => p
  | None =>
      let m := {| ID := id; Address := address; MState := Alive; Incarnation := 0;
                  LastUpdate := now |} in
      emitLocked {| Type_ := EventJoin; EMember := m |} (set_members (<[id := m]> (members p)) p)
  end.

(** The list is in the order the map is gone through. *)
(* src: pkg/algorithms/gossip/swim/swim.go 137-147 Members *)
Definition Members (order : list string) (p : Protocol) : list Member :=
  omap (λ id, members p !! id) order.

(* src: pkg/algorithms/gossip/swim/swim.go 149-154 Incarnation *)
Definition get_Incarnation (p : Protocol) : Z := incarnation p.

(* src: pkg/algorithms/gossip/swim/swim.go 214-225 stateRank *)
Definition stateRank (s : State) : Z := match s with Alive => 0 | Suspect => 1 | Dead => 2 end.

Definition touched (s : State) (inc : Z) (addr : string) (now : Z) (m : Member) : Member :=
  {| ID := ID m; Address := addr; MState := s; Incarnation := inc; LastUpdate := now |}.

(* src: pkg/algorithms/gossip/swim/swim.go 156-212 GossipUpdate *)
Definition GossipUpdate (m : Member) (now : Z) (p : Protocol) : Protocol :=
  if decide (ID m = CID (config p)) then
    if decide (MState m ≠ Alive ∧ Incarnation m ≤ incarnation p) then
      let p := set_incarnation (u64 (incarnation p + 1)) p in
      let self := {| ID := CID (config p); Address := BindAddress (config p); MState := Alive;
                     Incarnation := incarnation p; LastUpdate := now |} in
      emitLocked {| Type_ := EventUpdate; EMember := self |} p
    else p
  else
    match members p !! ID m with
    | None =>
        if decide (MState m = Dead) then p
        else
          let cp := touched (MState m) (Incarnation m) (Address m) now m in
          emitLocked {| Type_ := EventJoin; EMember := cp |}
            (set_members (<[ID m := cp]> (members p)) p)
    | Some cur =>
        if decide (Incarnation m < Incarnation cur) then p
        else if decide (Incarnation m = Incarnation cur ∧
                        stateRank (MState m) ≤ stateRank (MState cur)) then p
        else
          let cur := touched (MState m) (Incarnation m) (Address m) now cur in
          match MState m with
          | Dead => emitLocked {| Type_ := EventFail; EMember := cur |}
                      (set_members (delete (ID m) (members p)) p)
          | _ => emitLocked {| Type_ := EventUpdate; EMember := cur |}
                   (set_members (<[ID m := cur]> (members p)) p)
          end
    end.

(** [time.Since], whose result saturates. *)
Definition since (now t : Z) : Z := (- 2 ^ 63) `max` (2 ^ 63 - 1) `min` (now - t).

(* src: pkg/algorithms/gossip/swim/swim.go 319-340 markSuspect *)
Definition markSuspect (id : string) (now : Z) (p : Protocol) : Protocol :=
  match members p !! id with
  | None => p
  | Some m =>
      match MState m with
      | Alive =>
          let m := touched Suspect (Incarnation m) (Address m) now m in
          emitLocked {| Type_ := EventUpdate; EMember := m |} (set_members (<[id := m]> (members p)) p)
      | Suspect =>
          if decide (SuspectTimeout (config p) < since now (LastUpdate m)) then
            let cp := touched Dead (Incarnation m) (Address m) (LastUpdate m) m in
            emitLocked {| Type_ := EventFail; EMember := cp |}
              (set_members (delete (ID m) (members p)) p)
          else p
      | Dead => p
      end
  end.

(* src: pkg/algorithms/gossip/swim/swim.go 342-355 markAlive *)
Definition markAlive (id : string) (now : Z) (p : Protocol) : Protocol :=
  match members p !! id with
  | None => p
  | Some m =>
      if decide (MState m ≠ Alive) then
        let m := touched Alive (u64 (Incarnation m + 1)) (Address m) now m in
        emitLocked {| Type_ := EventUpdate; EMember := m |} (set_members (<[id := m]> (members p)) p)
      else p
  end.

(** ** A probe *)

(** The order of the map, and the random index. *)
(* src: pkg/algorithms/gossip/swim/swim.go 269-291 selectRandomMember *)
Definition selectRandomMember (order : list string) (choice : nat) (p : Protocol) : option Member :=
  let keys := filter (λ k, k ≠ CID (config p)) order in
  id ← keys !! choice; members p !! id.

(** The order of the map after the shuffle, and the transport's answers. *)
(* src: pkg/algorithms/gossip/swim/swim.go 293-317 pingReq *)
Definition pingReq (order : list string) (PingReq : string → string → bool) (target : Member)
    (p : Protocol) : bool :=
  let proxies := filter (λ m, ID m ≠ CID (config p) ∧ ID m ≠ ID target ∧ MState m = Alive)
                        (Members order p) in
  existsb (λ proxy, PingReq (Address target) (Address proxy))
          (take (Z.to_nat (PingReqK (config p))) proxies).

(* src: pkg/algorithms/gossip/swim/swim.go 252-267 probe *)
Definition probe (order : list string) (choice : nat) (shuffled : list string)
    (Ping : string → bool) (PingReq : string → string → bool) (now : Z) (p : Protocol) : Protocol :=
  match selectRandomMember order choice p with
  | None => p
  | Some target =>
      if negb (Ping (Address target)) then
        if negb (pingReq shuffled PingReq target p) then markSuspect (ID target) now p else p
      else markAlive (ID target) now p
  end.

(** ** Views over time *)

Inductive Step :=
  | Joins (id address : string) (now : Z)
  | Gossips (m : Member) (now : Z)
  | ProbeFails (id : string) (now : Z)
  | ProbeSucceeds (id : string) (now : Z)
  | Drains.

(** [Drains] is the receiver of the event channel. *)
Definition step (s : Step) (p : Protocol) : Protocol :=
  match s with
  | Joins id a now => Join id a now p
  | Gossips m now => GossipUpdate m now p
  | ProbeFails id now => markSuspect id now p
  | ProbeSucceeds id now => markAlive id now p
  | Drains => {| config := config p; members := members p; events := list.tail (events p);
                 incarnation := incarnation p |}
  end.

Fixpoint run (ss : list Step) (p : Protocol) : Protocol :=
  match ss with [] => p | s :: ss => run ss (step s p) end.

(** What an update has to exceed to be believed: the incarnation, then the state. *)
Definition newer (m m' : Member) : Prop :=
  Incarnation m < Incarnation m' ∨
  Incarnation m = Incarnation m' ∧ stateRank (MState m) < stateRank (MState m').

Definition not_older (m m' : Member) : Prop := m' = m ∨ newer m m'.

Lemma not_older_trans m1 m2 m3 : not_older m1 m2 → not_older m2 m3 → not_older m1 m3.
Proof.
  intros [->|H1] [->|H2]; unfold not_older; auto. right. unfold newer in *. lia.
Qed.

(** [id] is a member before and after every step of a history. *)
Fixpoint stays (id : string) (ss : list Step) (p : Protocol) : Prop :=
  is_Some (members p !! id) ∧ match ss with [] => True | s :: ss => stays id ss (step s p) end.

(** Members are filed under their own identifiers. *)
Definition swim_ok (p : Protocol) : Prop :=
  ∀ id m, members p !! id = Some m → ID m = id.

(** The incarnations a step increments are below the largest uint64. *)
Definition step_ok (s : Step) (p : Protocol) : Prop :=
  match s with
  | ProbeSucceeds id _ => ∀ m, members p !! id = Some m → 0 ≤ Incarnation m < 2 ^ 64 - 1
  | Gossips m _ => 0 ≤ Incarnation m ∧ 0 ≤ incarnation p < 2 ^ 64 - 1
  | _ => True
  end.

Fixpoint run_ok (ss : list Step) (p : Protocol) : Prop :=
  match ss with [] => True | s :: ss => step_ok s p ∧ run_ok ss (step s p) end.

Lemma lookup_emit ev p : members (emitLocked ev p) = members p.
Proof. done. Qed.

Lemma swim_ok_insert p id m : swim_ok p → ID m = id → swim_ok (set_members (<[id := m]> (members p)) p).
Proof. intros Hok Hm i n. simpl. intros [[<- <-]|[_ Hn]]%lookup_insert_Some; [done|by apply Hok]. Qed.

Lemma swim_ok_delete p id : swim_ok p → swim_ok (set_members (delete id (members p)) p).
Proof. intros Hok i n. simpl. intros [_ Hn]%lookup_delete_Some. by apply Hok. Qed.

Lemma step_swim_ok s p : swim_ok p → swim_ok (step s p).
Proof.
  intros Hok. destruct s as [id a now|g now|id now|id now|]; simpl; [| | | |done].
  - unfold Join. destruct (members p !! id); [done|]. by apply (swim_ok_insert p).
  - unfold GossipUpdate. destruct (decide (ID g = CID (config p))); [by case_decide|].
    destruct (members p !! ID g) as [cur|] eqn:E.
    + destruct (decide (Incarnation g < Incarnation cur)); [done|].
      destruct (decide (_ ∧ _)); [done|]. apply Hok in E.
      destruct (MState g); [by apply (swim_ok_insert p)|by apply (swim_ok_insert p)|by apply (swim_ok_delete p)].
    + case_decide; [done|]. by apply (swim_ok_insert p).
  - unfold markSuspect. destruct (members p !! id) as [m|] eqn:E; [|done]. apply Hok in E.
    destruct (MState m); [by apply (swim_ok_insert p)| |done].
    case_decide; [by apply (swim_ok_delete p)|done].
  - unfold markAlive. destruct (members p !! id) as [m|] eqn:E; [|done]. apply Hok in E.
    case_decide; [by apply (swim_ok_insert p)|done].
Qed.

(** An update of one entry of the map leaves the others, and is not older. *)
Lemma insert_not_older p id m n i m0 m1 :
  members p !! id = Some m → not_older m n →
  members p !! i = Some m0 → <[id := n]> (members p) !! i = Some m1 → not_older m0 m1.
Proof.
  intros Hm Hn H0 [[<- <-]|[_ H1]]%lookup_insert_Some; [congruence|]. left. congruence.
Qed.

Lemma step_not_older s p id m m' :
  step_ok s p → members p !! id = Some m → members (step s p) !! id = Some m' → not_older m m'.
Proof.
  intros Hs Hm Hm'.
  assert (members (step s p) = members p → not_older m m') as Hsame.
  { intros E. rewrite E in Hm'. left. congruence. }
  destruct s as [i a now|g now|i now|i now|]; simpl in *; [| | | |by apply Hsame].
  - unfold Join in *. destruct (members p !! i) eqn:E; [by apply Hsame|].
    rewrite lookup_emit in Hm'. simpl in Hm'. rewrite lookup_insert_ne in Hm' by congruence. left. congruence.
  - unfold GossipUpdate in *. destruct (decide (ID g = CID (config p))).
    { apply Hsame. by case_decide. }
    destruct (members p !! ID g) as [cur|] eqn:E.
    + destruct (decide (Incarnation g < Incarnation cur)); [by apply Hsame|].
      destruct (decide (_ ∧ _)) as [|Hr]; [by apply Hsame|].
      assert (not_older cur (touched (MState g) (Incarnation g) (Address g) now cur)) as Hnew.
      { right. unfold newer. simpl. lia. }
      destruct (MState g) eqn:Es; simpl in Hm'.
      * by eapply insert_not_older.
      * by eapply insert_not_older.
      * apply lookup_delete_Some in Hm' as [_ Hm']. left. congruence.
    + case_decide; [by apply Hsame|]. simpl in Hm'.
      rewrite lookup_insert_ne in Hm' by congruence. left. congruence.
  - unfold markSuspect in *. destruct (members p !! i) as [n|] eqn:E; [|by apply Hsame].
    destruct (MState n) eqn:Es; [| |by apply Hsame].
    + simpl in Hm'. eapply insert_not_older; [exact E| |exact Hm|exact Hm'].
      right. right. simpl. rewrite Es. done.
    + case_decide; [|by apply Hsame]. simpl in Hm'.
      apply lookup_delete_Some in Hm' as [_ Hm']. left. congruence.
  - unfold markAlive in *. destruct (members p !! i) as [n|] eqn:E; [|by apply Hsame].
    case_decide; [|by apply Hsame]. simpl in Hm'.
    eapply insert_not_older; [exact E| |exact Hm|exact Hm']. right. left. simpl.
    specialize (Hs n eq_refl). rewrite u64_id by (unfold is_u64; lia). lia.
Qed.

(** Why a member leaves the view. *)
Definition removal (p : Protocol) (id : string) (m : Member) (s : Step) : Prop :=
  (∃ g now, s = Gossips g now ∧ ID g = id ∧ MState g = Dead ∧ newer m g) ∨
  (∃ i now, s = ProbeFails i now ∧ MState m = Suspect ∧
     SuspectTimeout (config p) < since now (LastUpdate m)).

Lemma step_removal s p id m :
  swim_ok p → members p !! id = Some m → members (step s p) !! id = None → removal p id m s.
Proof.
  intros Hok Hm Hno.
  assert (members (step s p) ≠ members p) as Hsame by congruence.
  assert (∀ i n, members (step s p) ≠ <[i := n]> (members p)) as Hins.
  { intros i n E. rewrite E in Hno. apply lookup_insert_None in Hno as [? _]. congruence. }
  destruct s as [i a now|g now|i now|i now|]; simpl in *; [| | | |done].
  - exfalso. unfold Join in *. destruct (members p !! i); [done|]. by eapply Hins.
  - left. exists g, now. unfold GossipUpdate in *. destruct (decide (ID g = CID (config p))).
    { exfalso. apply Hsame. by case_decide. }
    destruct (members p !! ID g) as [cur|] eqn:E.
    + destruct (decide (Incarnation g < Incarnation cur)); [done|].
      destruct (decide (_ ∧ _)) as [|Hr]; [done|].
      destruct (MState g) eqn:Es; [by exfalso; eapply Hins|by exfalso; eapply Hins|].
      simpl in Hno. apply lookup_delete_None in Hno as [Hid|?]; [|congruence].
      split_and!; try done. assert (cur = m) as -> by congruence. unfold newer. rewrite Es. lia.
    + case_decide; [done|]. by exfalso; eapply Hins.
  - right. exists i, now. unfold markSuspect in *. destruct (members p !! i) as [n|] eqn:E; [|done].
    destruct (MState n) eqn:Es; [by exfalso; eapply Hins| |done].
    case_decide; [|done]. simpl in Hno. apply lookup_delete_None in Hno as [Hid|?]; [|congruence].
    apply Hok in E as Hn. assert (n = m) as -> by congruence. by split_and!.
  - exfalso. unfold markAlive in *. destruct (members p !! i) as [n|]; [|done].
    case_decide; [by eapply Hins|done].
Qed.

Lemma step_incarnation s p : step_ok s p → incarnation p ≤ incarnation (step s p).
Proof.
  intros Hs. destruct s as [i a now|g now|i now|i now|]; simpl in *.
  - unfold Join. by destruct (members p !! i).
  - unfold GossipUpdate. destruct (decide (ID g = CID (config p))).
    + case_decide; simpl; [|done]. rewrite u64_id by (unfold is_u64; lia). lia.
    + destruct (members p !! ID g); [|by case_decide].
      repeat case_decide; try done. by destruct (MState g).
  - unfold markSuspect. destruct (members p !! i) as [n|]; [|done].
    destruct (MState n); [done| |done]. by case_decide.
  - unfold markAlive. destruct (members p !! i) as [n|]; [|done]. by case_decide.
  - done.
Qed.

Lemma run_app ss1 ss2 p : run (ss1 ++ ss2) p = run ss2 (run ss1 p).
Proof. revert p. induction ss1 as [|s ss1 IH]; intros p; simpl; [done|apply IH]. Qed.

Lemma run_ok_app ss1 ss2 p : run_ok (ss1 ++ ss2) p ↔ run_ok ss1 p ∧ run_ok ss2 (run ss1 p).
Proof. revert p. induction ss1 as [|s ss1 IH]; intros p; simpl; [tauto|]. rewrite IH. tauto. Qed.

Lemma run_swim_ok ss p : swim_ok p → swim_ok (run ss p).
Proof. revert p. induction ss as [|s ss IH]; intros p Hp; simpl; [done|]. by apply IH, step_swim_ok. Qed.

Lemma run_incarnation ss p : run_ok ss p → incarnation p ≤ incarnation (run ss p).
Proof.
  revert p. induction ss as [|s ss IH]; intros p; simpl; [done|]. intros [Hs Hss].
  pose proof (step_incarnation s p Hs). specialize (IH _ Hss). lia.
Qed.

Lemma run_not_older ss id : ∀ p m m',
  run_ok ss p → stays id ss p → members p !! id = Some m → members (run ss p) !! id = Some m' →
  not_older m m'.
Proof.
  induction ss as [|s ss IH]; intros p m m' Hok Hst Hm Hm'; simpl in *; [left; congruence|].
  destruct Hok as [Hs Hok], Hst as [_ Hst]. assert (is_Some (members (step s p) !! id)) as [m1 Hm1].
  { destruct ss; apply Hst. }
  eapply not_older_trans; [by eapply step_not_older|by eapply (IH (step s p))].
Qed.

(** A probe only ever marks the member it selected, never the node itself. *)
Lemma probe_marks order choice shuffled Ping PingReq now p :
  swim_ok p →
  probe order choice shuffled Ping PingReq now p = p ∨
  ∃ id, id ≠ CID (config p) ∧
    (probe order choice shuffled Ping PingReq now p = step (ProbeFails id now) p ∨
     probe order choice shuffled Ping PingReq now p = step (ProbeSucceeds id now) p).
Proof.
  intros Hok. unfold probe, selectRandomMember.
  destruct (filter _ order !! choice) as [id|] eqn:E; simpl; [|by left].
  apply list_elem_of_lookup_2, list_elem_of_filter in E as [Hne _].
  destruct (members p !! id) as [m|] eqn:Hm; [|by left]. apply Hok in Hm as <-.
  destruct (Ping (Address m)); simpl; [right; exists (ID m); auto|].
  destruct (pingReq _ _ _ _); simpl; [by left|right; exists (ID m); auto].
Qed.

(** A node's view of the others only advances.  In every history of joins, gossip,
    probe results and event reads (incarnations staying below the largest uint64): as long
    as a member stays in the view its incarnation never goes down, and its state gets
    worse only or the incarnation goes up; a member leaves the view only by a report of
    its death that is newer than the view, or by a failed probe while it has been suspected
    for longer than the timeout; the node's own incarnation never goes down, and any
    accusation of the node that is not ahead of it is answered with a higher
    incarnation; and a probe marks only a member other than the node. *)
Theorem swim_views_advance (c : Config) (ss ss' : list Step) :
  run_ok (ss ++ ss') (New c) →
  let p := run ss (New c) in
  let p' := run ss' p in
  (∀ id m m', stays id ss' p → members p !! id = Some m → members p' !! id = Some m' →
     not_older m m') ∧
  (∀ s id m, members p !! id = Some m → members (step s p) !! id = None → removal p id m s) ∧
  incarnation p ≤ incarnation p' ∧
  (∀ g now, ID g = CID (config p) → MState g ≠ Alive → step_ok (Gossips g now) p →
     Incarnation g ≤ incarnation p → Incarnation g < incarnation (step (Gossips g now) p)) ∧
  (∀ order choice shuffled Ping PingReq now,
     probe order choice shuffled Ping PingReq now p = p ∨
     ∃ id, id ≠ CID (config p) ∧
       (probe order choice shuffled Ping PingReq now p = step (ProbeFails id now) p ∨
        probe order choice shuffled Ping PingReq now p = step (ProbeSucceeds id now) p)).
Proof.
  intros [Hok1 Hok2]%run_ok_app p p'.
  assert (swim_ok p) as Hp by (apply run_swim_ok; intros id m Hm; done).
  split_and!.
  - intros id m m' Hst Hm Hm'. by eapply (run_not_older ss' id p).
  - intros s id m. by apply step_removal.
  - by apply run_incarnation.
  - intros g now Hid Hal [Hg Hi] Hle. simpl. unfold GossipUpdate.
    rewrite decide_True, decide_True by done. simpl. rewrite u64_id by (unfold is_u64; lia). lia.
  - intros. by apply probe_marks.
Qed.

(** A configuration, and a member as gossip reports it. *)
Definition sample_config (id : string) : Config :=
  {| BindAddress := "addr"; CID := id; ProtocolPeriod := 0; PingTimeout := 0;
     SuspectTimeout := 10; PingReqK := 0 |}.
Definition report (id : string) (s : State) (inc : Z) : Member :=
  {| ID := id; Address := "addr"; MState := s; Incarnation := inc; LastUpdate := 0 |}.

Lemma swim_views_advance_witness :
  let ss := [Joins "b" "addr" 0] in
  let ss' := [ProbeFails "b" 1; Gossips (report "b" Suspect 0) 2; ProbeSucceeds "b" 3] in
  let p := run ss (New (sample_config "a")) in
  ∃ m m', members p !! "b" = Some m ∧ members (run ss' p) !! "b" = Some m' ∧ newer m m' ∧
    not_older m m'.
Proof.
  intros ss ss' p. do 2 eexists. split; [vm_compute; reflexivity|].
  split; [vm_compute; reflexivity|]. split; [left; vm_compute; reflexivity|].
  assert (run_ok (ss ++ ss') (New (sample_config "a"))) as Hok.
  { split; [exact I|]. split; [exact I|]. split; [vm_compute; done|]. split; [|exact I].
    intros m Hm. vm_compute in Hm. injection Hm as <-. vm_compute. done. }
  eapply (proj1 (swim_views_advance (sample_config "a") ss ss' Hok) "b").
  - repeat split; vm_compute; eauto.
  - vm_compute. reflexivity.
  - vm_compute. reflexivity.
Defined.

(** Two ways in which membership goes wrong.  A report of a past life brings a dead
    member back: the node that removed b keeps no record of it, so the alive report b sent
    before it died, with an incarnation below the one it died with, makes it a member
    again.  And a node cannot refute a suspicion of an incarnation others made up: a,
    having suspected b and reached it again, raises b's incarnation to 1 itself; its
    next suspicion of b carries incarnation 1, and b, whose own is still 0, ignores it. *)
Theorem swim_revives_and_cannot_refute :
  (∃ m, members (run [Gossips (report "b" Alive 5) 1; Gossips (report "b" Dead 6) 2;
                      Gossips (report "b" Alive 5) 3] (New (sample_config "a"))) !! "b" = Some m ∧
        MState m = Alive ∧ Incarnation m = 5) ∧
  (∃ m, members (run [Joins "b" "addr" 0; ProbeFails "b" 1; ProbeSucceeds "b" 2; ProbeFails "b" 3]
                     (New (sample_config "a"))) !! "b" = Some m ∧ MState m = Suspect ∧
        GossipUpdate m 4 (New (sample_config "b")) = New (sample_config "b")).
Proof. split; eexists; (split; [vm_compute; reflexivity|]); done. Qed.
