(* ===== verification/Semaphore.v ===== *)
(** * pkg/concurrency/semaphore.go and pkg/resilience/bulkhead.go

    A weighted semaphore with a queue of waiters, and the bulkhead on top of it.
    [Acquire] is three stretches of code: the one under the lock that takes the units
    or queues a waiter ([Acquire_enter]), the one under the lock that runs when the
    context ends first ([Acquire_cancel]), and the return when the waiter's channel is
    closed.  A waiter is a pointer: a location in a heap of waiters, whose flag [ready]
    says whether its channel is closed.  A run is any interleaving of these stretches
    of any number of threads. *)

From S2P Require Import Prelude Errors.
From stdpp Require Import options.
Open Scope Z_scope.

(* src: pkg/concurrency/semaphore.go 15-18 waiter *)
Record waiter := { n : Z; ready : bool (* the channel is closed *) }.

(** [waiters] holds pointers into [heap]. *)
(* src: pkg/concurrency/semaphore.go 8-13 Semaphore *)
Record Semaphore := { size : Z; cur : Z; waiters : list nat; heap : gmap nat waiter }.

(* src: pkg/concurrency/semaphore.go 20-24 NewSemaphore *)
Definition NewSemaphore (limit : Z) : Semaphore :=
  {| size := limit; cur := 0; waiters := []; heap := ∅ |}.

(** [s.size-s.cur >= n] *)
Definition fits (s : Semaphore) (k : Z) : Prop := k ≤ i64 (size s - cur s).
#[global] Instance fits_dec s k : Decision (fits s k).
Proof. unfold fits. apply _. Defined.

Definition set_cur (v : Z) (s : Semaphore) : Semaphore :=
  {| size := size s; cur := v; waiters := waiters s; heap := heap s |}.
Definition set_waiters (l : list nat) (s : Semaphore) : Semaphore :=
  {| size := size s; cur := cur s; waiters := l; heap := heap s |}.
Definition set_heap (h : gmap nat waiter) (s : Semaphore) : Semaphore :=
  {| size := size s; cur := cur s; waiters := waiters s; heap := h |}.

(** [close(w.ready)] *)
Definition close_ready (w : nat) (x : waiter) (s : Semaphore) : Semaphore :=
  set_heap (<[w := {| n := n x; ready := true |}]> (heap s)) s.

(** One turn of the loop takes the head of the queue, so the loop recurses on it. *)
(* src: pkg/concurrency/semaphore.go 85-99 notifyWaiters *)
Fixpoint notify_loop (q : list nat) (s : Semaphore) : Semaphore :=
  match q with
  | [] => s
  | w :: q' =>
      match heap s !! w with
      | None => s
      | Some x =>
          if decide (fits s (n x))
          then notify_loop q' (close_ready w x (set_waiters q' (set_cur (i64 (cur s + n x)) s)))
          else s
      end
  end.

Definition notifyWaiters (s : Semaphore) : Semaphore := notify_loop (waiters s) s.

(** [inl]: nothing more to wait for; [inr w]: blocked in the select with waiter [w].
    [w] is the location of the new waiter. *)
(* src: pkg/concurrency/semaphore.go 26-38 Semaphore.Acquire *)
Definition Acquire_enter (w : nat) (k : Z) (s : Semaphore) : (unit + nat) * Semaphore :=
  if decide (fits s k ∧ waiters s = []) then (inl tt, set_cur (i64 (cur s + k)) s)
  else (inr w, set_waiters (waiters s ++ [w])
                 (set_heap (<[w := {| n := k; ready := false |}]> (heap s)) s)).

(** The branch of the context: [k] is the argument of [Acquire]. *)
(* src: pkg/concurrency/semaphore.go 39-58 Semaphore.Acquire *)
Definition Acquire_cancel (w : nat) (k : Z) (s : Semaphore) : Semaphore :=
  let s := set_waiters (remove_first (λ w', w' = w) (waiters s)) s in
  match heap s !! w with
  | Some {| ready := true |} => notifyWaiters (set_cur (i64 (cur s - k)) s)
  | _ => s
  end.

(* src: pkg/concurrency/semaphore.go 64-72 Semaphore.TryAcquire *)
Definition TryAcquire (k : Z) (s : Semaphore) : bool * Semaphore :=
  if decide (fits s k ∧ waiters s = []) then (true, set_cur (i64 (cur s + k)) s)
  else (false, s).

(** [inl]: the call panics, and leaves [cur] as it is then. *)
(* src: pkg/concurrency/semaphore.go 74-83 Semaphore.Release *)
Definition Release (k : Z) : GoM string Semaphore unit :=
  s ← get;
  put (set_cur (i64 (cur s - k)) s);;
  s ← get;
  throw_if (cur s < 0) "semaphore released more than held";;
  put (notifyWaiters s).

(** ** Threads

    [held t] is what thread [t] has acquired and not released, [waiting t] the waiter it
    is blocked on.  A thread that leaves [Acquire] drops the last reference to its
    waiter, which leaves the heap. *)

Record sys := { sem : Semaphore; held : gmap nat Z; waiting : gmap nat nat }.

Definition init (limit : Z) : sys :=
  {| sem := NewSemaphore limit; held := ∅; waiting := ∅ |}.

Definition give (t : nat) (k : Z) (h : gmap nat Z) : gmap nat Z :=
  <[t := default 0 (h !! t) + k]> h.

Definition collect (w : nat) (s : Semaphore) : Semaphore := set_heap (delete w (heap s)) s.

Inductive event :=
  | EEnter (t w : nat) (k : Z) | EReady (t : nat) | ECancel (t : nat)
  | ETry (t : nat) (k : Z) | ERelease (t : nat) (k : Z).

(** Callers ask for at least nothing, and release at most what they hold. *)
Inductive step : sys → event → sys → Prop :=
  | step_enter_now S t w k s' :
      0 ≤ k → is_i64 k → waiting S !! t = None → heap (sem S) !! w = None →
      Acquire_enter w k (sem S) = (inl tt, s') →
      step S (EEnter t w k) {| sem := s'; held := give t k (held S); waiting := waiting S |}
  | step_enter_wait S t w k w' s' :
      0 ≤ k → is_i64 k → waiting S !! t = None → heap (sem S) !! w = None →
      Acquire_enter w k (sem S) = (inr w', s') →
      step S (EEnter t w k) {| sem := s'; held := held S; waiting := <[t := w']> (waiting S) |}
  | step_ready S t w k :
      waiting S !! t = Some w → heap (sem S) !! w = Some {| n := k; ready := true |} →
      step S (EReady t) {| sem := collect w (sem S); held := give t k (held S);
                           waiting := delete t (waiting S) |}
  | step_cancel S t w x :
      waiting S !! t = Some w → heap (sem S) !! w = Some x →
      step S (ECancel t) {| sem := collect w (Acquire_cancel w (n x) (sem S)); held := held S;
                            waiting := delete t (waiting S) |}
  | step_try S t k b s' :
      0 ≤ k → is_i64 k → waiting S !! t = None → TryAcquire k (sem S) = (b, s') →
      step S (ETry t k) {| sem := s'; held := if b : bool then give t k (held S) else held S;
                           waiting := waiting S |}
  | step_release S t k :
      0 ≤ k ≤ default 0 (held S !! t) →
      step S (ERelease t k) {| sem := exec (Release k) (sem S); held := give t (- k) (held S);
                               waiting := waiting S |}.

Inductive run : sys → list event → sys → Prop :=
  | run_nil S : run S [] S
  | run_snoc S es S' e S'' : run S es S' → step S' e S'' → run S (es ++ [e]) S''.

(** What the waiters have been given and have not noticed yet. *)
Definition granted (h : gmap nat waiter) : Z :=
  msum ((λ x, if ready x then n x else 0) <$> h).

(** What is true of the semaphore between two stretches. *)
Record sem_ok (h : Z) (s : Semaphore) : Prop := {
  ok_size : is_i64 (size s);
  ok_cur : cur s = h + granted (heap s);
  ok_bounds : 0 ≤ cur s ≤ Z.max 0 (size s);
  ok_nodup : NoDup (waiters s);
  ok_queue : ∀ w, w ∈ waiters s ↔ ∃ k, heap s !! w = Some {| n := k; ready := false |};
  ok_n : ∀ w x, heap s !! w = Some x → 0 ≤ n x ∧ is_i64 (n x) }.

Record inv (S : sys) : Prop := {
  inv_sem : sem_ok (msum (held S)) (sem S);
  inv_held : map_Forall (λ _ v, 0 ≤ v) (held S);
  inv_waiting : ∀ t w, waiting S !! t = Some w → is_Some (heap (sem S) !! w);
  inv_owner : ∀ w, is_Some (heap (sem S) !! w) → ∃ t, waiting S !! t = Some w;
  inv_inj : ∀ t t' w, waiting S !! t = Some w → waiting S !! t' = Some w → t = t' }.

(** ** The invariant *)

Lemma granted_insert h w x :
  granted (<[w := x]> h) = (if ready x then n x else 0) + granted h
    - match h !! w with Some y => if ready y then n y else 0 | None => 0 end.
Proof.
  unfold granted. rewrite fmap_insert, msum_insert, lookup_fmap. by destruct (h !! w).
Qed.

Lemma granted_delete h w :
  granted (delete w h) = granted h
    - match h !! w with Some y => if ready y then n y else 0 | None => 0 end.
Proof. unfold granted. rewrite fmap_delete, msum_delete, lookup_fmap. by destruct (h !! w). Qed.

(** The waiter at the head of the queue is given its units. *)
Lemma grant_ok h s w q x :
  sem_ok h s → waiters s = w :: q → heap s !! w = Some x → fits s (n x) →
  sem_ok h (close_ready w x (set_waiters q (set_cur (i64 (cur s + n x)) s))).
Proof.
  intros [Hsz Hcur Hb Hnd Hq Hn] Hw Hx Hf.
  destruct (Hn w x Hx) as [Hn0 Hni].
  assert (ready x = false) as Hr.
  { destruct (Hq w) as [[k Hk] _]; [rewrite Hw; left|]. rewrite Hx in Hk. by simplify_eq. }
  assert (cur s + n x ≤ Z.max 0 (size s)) as Hle.
  { unfold fits in Hf. rewrite i64_id in Hf by (go_lia). lia. }
  rewrite i64_id by go_lia. rewrite Hw in Hnd, Hq. apply NoDup_cons in Hnd as [Hwq Hnd].
  constructor; cbn [size cur waiters heap close_ready set_waiters set_cur set_heap];
    [done| |lia|done| |].
  - rewrite granted_insert, Hx, Hr. simpl. lia.
  - intros w'. destruct (decide (w' = w)) as [->|Hne].
    + rewrite lookup_insert_eq. split; [done|]. intros [k ?]. by simplify_eq.
    + rewrite lookup_insert_ne by done. rewrite <- Hq, elem_of_cons. naive_solver.
  - intros w' x'. rewrite lookup_insert. case_decide; [|apply Hn]. intros [= <-]. done.
Qed.

(** Nobody at the head of the queue could be given its units now. *)
Definition saturated (s : Semaphore) : Prop :=
  ∀ w x, head (waiters s) = Some w → heap s !! w = Some x → ¬ fits s (n x).

(** [notifyWaiters] serves a prefix of the queue, and stops only at a waiter that does
    not fit. *)
Lemma notifyWaiters_spec h s :
  sem_ok h s →
  ∃ p, waiters s = p ++ waiters (notifyWaiters s) ∧
    sem_ok h (notifyWaiters s) ∧ saturated (notifyWaiters s) ∧
    size (notifyWaiters s) = size s ∧
    (∀ w, w ∈ p → ∃ k, heap (notifyWaiters s) !! w = Some {| n := k; ready := true |}) ∧
    (∀ w, n <$> heap (notifyWaiters s) !! w = n <$> heap s !! w) ∧
    (∀ w, w ∉ p → heap (notifyWaiters s) !! w = heap s !! w).
Proof.
  unfold notifyWaiters. remember (waiters s) as q eqn:Hq.
  revert s Hq. induction q as [|w q IH]; intros s Hq Hok; simpl.
  { exists []. rewrite <- Hq. split_and!; try done; [|set_solver]. intros w x. by rewrite <- Hq. }
  destruct (heap s !! w) as [x|] eqn:Hx; cycle 1.
  { exfalso. destruct (ok_queue _ _ Hok w) as [[k ?] _]; [rewrite <- Hq; left|]. congruence. }
  destruct (decide (fits s (n x))) as [Hf|Hf]; cycle 1.
  { exists []. rewrite <- Hq. split_and!; try done; [|set_solver]. intros w' x'. rewrite <- Hq.
    intros [= <-] Hx'. rewrite Hx in Hx'. by simplify_eq. }
  pose proof (grant_ok _ _ _ _ _ Hok (eq_sym Hq) Hx Hf) as Hok'.
  destruct (IH (close_ready w x (set_waiters q (set_cur (i64 (cur s + n x)) s))) eq_refl Hok')
    as (p & Hp & Hok'' & Hsat & Hsz & Hin & Hn & Hout).
  assert (w ∉ q) as Hwq by (pose proof (ok_nodup _ _ Hok) as Hnd; rewrite <- Hq in Hnd;
    by apply NoDup_cons in Hnd as [? _]).
  assert (w ∉ p) as Hwp by (intros ?; apply Hwq; rewrite Hp; set_solver).
  exists (w :: p). split_and!; try done.
  - cbn. by f_equal.
  - intros w' [->|?]%elem_of_cons; [|by apply Hin]. exists (n x).
    rewrite Hout by done. cbn. by rewrite lookup_insert_eq.
  - intros w'. rewrite Hn. cbn. rewrite lookup_insert. case_decide; [|done]. subst. by rewrite Hx.
  - intros w' [??]%not_elem_of_cons. rewrite Hout by done. cbn. by rewrite lookup_insert_ne.
Qed.

Lemma fits_cur h s k : sem_ok h s → fits s k → 0 ≤ k → cur s + k ≤ Z.max 0 (size s).
Proof.
  intros [Hsz _ Hb _ _ _] Hf ?. unfold fits in Hf. rewrite i64_id in Hf by go_lia. lia.
Qed.

Lemma cur_take h s k :
  sem_ok h s → fits s k → 0 ≤ k → sem_ok (h + k) (set_cur (i64 (cur s + k)) s).
Proof.
  intros Hok Hf Hk. pose proof (fits_cur _ _ _ Hok Hf Hk). destruct Hok as [Hsz Hcur Hb ???].
  rewrite i64_id by go_lia. constructor; cbn; try done; lia.
Qed.

Lemma cur_give h s k :
  sem_ok h s → 0 ≤ k ≤ cur s → sem_ok (h - k) (set_cur (i64 (cur s - k)) s).
Proof.
  intros [Hsz Hcur Hb ???] Hk. rewrite i64_id by go_lia. constructor; cbn; try done; lia.
Qed.

Lemma enqueue_ok h s w k :
  sem_ok h s → heap s !! w = None → 0 ≤ k → is_i64 k →
  sem_ok h (set_waiters (waiters s ++ [w])
              (set_heap (<[w := {| n := k; ready := false |}]> (heap s)) s)).
Proof.
  intros [Hsz Hcur Hb Hnd Hq Hn] Hw Hk Hki.
  assert (w ∉ waiters s) as Hnw by (rewrite Hq; intros [??]; congruence).
  constructor; cbn [size cur waiters heap set_waiters set_heap]; [done| |done| | |].
  - rewrite granted_insert, Hw. simpl. lia.
  - apply NoDup_app. split_and!; [done| |apply NoDup_singleton]. intros w' ??. set_solver.
  - intros w'. rewrite elem_of_app, list_elem_of_singleton, Hq, lookup_insert.
    case_decide as E; [|naive_solver]. subst. split; [by eexists|]. by right.
  - intros w' x. rewrite lookup_insert. case_decide; [|apply Hn]. by intros [= <-].
Qed.

(** A waiter leaves the heap: it was in the queue and is taken out, or its units go to
    its thread. *)
Lemma collect_queued_ok h s w k :
  sem_ok h s → heap s !! w = Some {| n := k; ready := false |} →
  sem_ok h (collect w (set_waiters (remove_first (λ w', w' = w) (waiters s)) s)).
Proof.
  intros [Hsz Hcur Hb Hnd Hq Hn] Hw.
  constructor; cbn [size cur waiters heap set_waiters set_heap collect]; [done| |done| | |].
  - rewrite granted_delete, Hw. simpl. lia.
  - by apply remove_first_nodup.
  - intros w'. destruct (decide (w' = w)) as [->|Hne].
    + rewrite lookup_delete_eq. split; [|by intros [? ?]]. intros Hin. exfalso. revert Hin.
      by apply remove_first_absent.
    + rewrite lookup_delete_ne, <- Hq by done. split; [apply remove_first_elem_of|].
      by apply remove_first_elem_of_ne.
  - intros w' x. rewrite lookup_delete_Some. intros [_ ?]. by eapply Hn.
Qed.

Lemma collect_ready_ok h s w k :
  sem_ok h s → heap s !! w = Some {| n := k; ready := true |} →
  sem_ok (h + k) (collect w s).
Proof.
  intros [Hsz Hcur Hb Hnd Hq Hn] Hw.
  constructor; cbn [size cur waiters heap set_heap collect]; [done| |done|done| |].
  - rewrite granted_delete, Hw. simpl. lia.
  - intros w'. rewrite Hq. rewrite lookup_delete. case_decide; [|done]. subst.
    rewrite Hw. split; intros [? ?]; by simplify_eq.
  - intros w' x. rewrite lookup_delete_Some. intros [_ ?]. by eapply Hn.
Qed.

Lemma notify_loop_collect q w s :
  w ∉ q → notify_loop q (collect w s) = collect w (notify_loop q s).
Proof.
  revert s. induction q as [|v q IH]; intros s; [done|].
  intros [Hwv Hwq]%not_elem_of_cons. cbn [notify_loop]. cbn [heap collect set_heap].
  rewrite lookup_delete_ne by done. destruct (heap s !! v) as [x|]; [|done].
  destruct (decide (fits s (n x))) as [Hf|Hf];
    destruct (decide (fits (collect w s) (n x))); try done.
  rewrite <- IH by done. f_equal.
  unfold close_ready, collect, set_waiters, set_cur, set_heap; cbn. f_equal.
  by rewrite delete_insert_ne.
Qed.

(** The state after a cancellation: the waiter is gone, and if it had been given its units
    they are offered to the others. *)
Lemma cancel_queued w k s :
  heap s !! w = Some {| n := k; ready := false |} →
  collect w (Acquire_cancel w k s) =
  collect w (set_waiters (remove_first (λ w', w' = w) (waiters s)) s).
Proof. intros Hw. unfold Acquire_cancel. cbn [heap set_waiters]. by rewrite Hw. Qed.

Lemma cancel_ready h w k s :
  sem_ok h s → heap s !! w = Some {| n := k; ready := true |} →
  collect w (Acquire_cancel w k s) =
  notifyWaiters (set_cur (i64 (cur s - k)) (collect w s)) ∧ w ∉ waiters s.
Proof.
  intros Hok Hw.
  assert (w ∉ waiters s) as Hnq.
  { rewrite (ok_queue _ _ Hok). intros [? ?]. congruence. }
  split; [|done]. unfold Acquire_cancel. cbn [heap set_waiters]. rewrite Hw.
  rewrite remove_first_none by (apply Forall_forall; intros ? ? ->; done).
  unfold notifyWaiters. cbn [waiters set_cur set_waiters collect set_heap].
  by rewrite <- notify_loop_collect.
Qed.

Lemma granted_pos h s w k :
  sem_ok h s → heap s !! w = Some {| n := k; ready := true |} → 0 ≤ h → h + k ≤ cur s.
Proof.
  intros Hok Hw Hh. rewrite (ok_cur _ _ Hok). unfold granted.
  assert (k ≤ msum ((λ x, if ready x then n x else 0) <$> heap s)); [|lia].
  apply (msum_le _ w); [|by rewrite lookup_fmap, Hw].
  intros w' v. rewrite lookup_fmap_Some. intros (x & <- & Hx).
  apply (ok_n _ _ Hok) in Hx. destruct (ready x); lia.
Qed.

Lemma cancel_spec h w x s :
  sem_ok h s → 0 ≤ h → heap s !! w = Some x →
  let s' := collect w (Acquire_cancel w (n x) s) in
  sem_ok h s' ∧ size s' = size s ∧
  (∃ p, remove_first (λ w', w' = w) (waiters s) = p ++ waiters s' ∧
    ∀ v, v ∈ p → ∃ k, heap s' !! v = Some {| n := k; ready := true |}) ∧
  (∀ v, n <$> heap s' !! v = n <$> delete w (heap s) !! v) ∧
  (ready x = true → saturated s').
Proof.
  intros Hok Hh Hw s'. subst s'. destruct x as [k [|]]; cbn [n ready].
  - destruct (cancel_ready h w k s Hok Hw) as [-> Hnq].
    pose proof (granted_pos _ _ _ _ Hok Hw Hh).
    pose proof (collect_ready_ok _ _ _ _ Hok Hw) as Hok1.
    destruct (ok_n _ _ Hok _ _ Hw) as [Hk _]. cbn in Hk.
    pose proof (cur_give _ _ k Hok1 ltac:(cbn; lia)) as Hok2.
    replace (h + k - k) with h in Hok2 by lia. cbn [cur collect set_heap] in Hok2.
    destruct (notifyWaiters_spec _ _ Hok2) as (p & Hp & ? & ? & Hsz & Hin & Hn & _).
    split_and!; try done. exists p. split; [|done]. rewrite <- Hp.
    apply remove_first_none, Forall_forall. by intros ? ? ->.
  - rewrite cancel_queued by done. split_and!; try done; [by eapply collect_queued_ok|].
    exists []. split; [done|]. set_solver.
Qed.

Lemma release_spec h k s :
  sem_ok h s → 0 ≤ k ≤ cur s →
  let s' := exec (Release k) s in
  outcome (Release k) s = inr tt ∧ sem_ok (h - k) s' ∧ size s' = size s ∧ saturated s' ∧
  (∃ p, waiters s = p ++ waiters s' ∧
    ∀ v, v ∈ p → ∃ k', heap s' !! v = Some {| n := k'; ready := true |}) ∧
  (∀ v, n <$> heap s' !! v = n <$> heap s !! v).
Proof.
  intros Hok Hk. pose proof (cur_give _ _ _ Hok Hk) as Hok1.
  destruct (notifyWaiters_spec _ _ Hok1) as (p & Hp & ? & ? & Hsz & Hin & Hn & _).
  assert (¬ cur (set_cur (i64 (cur s - k)) s) < 0) as Hpos by (pose proof (ok_bounds _ _ Hok1); lia).
  unfold exec, outcome, Release, mbind, GoM_bind, get, put, throw_if.
  rewrite decide_False by done. cbn. eauto 10.
Qed.

Lemma is_Some_n (h h' : gmap nat waiter) w :
  n <$> h' !! w = n <$> h !! w → is_Some (h' !! w) ↔ is_Some (h !! w).
Proof. destruct (h !! w), (h' !! w); simpl; intros; split; intros [??]; eauto; done. Qed.

Lemma give_sum t k h : msum (give t k h) = msum h + k.
Proof. unfold give. rewrite msum_insert. destruct (h !! t); simpl; lia. Qed.

Lemma give_nonneg t k h :
  map_Forall (λ _ v, 0 ≤ v) h → 0 ≤ default 0 (h !! t) + k →
  map_Forall (λ _ v, 0 ≤ v) (give t k h).
Proof. intros Hh Hk. by apply map_Forall_insert_2. Qed.

Lemma held_nonneg t (h : gmap nat Z) : map_Forall (λ _ v, 0 ≤ v) h → 0 ≤ default 0 (h !! t).
Proof. intros Hh. destruct (h !! t) eqn:E; simpl; [by eapply Hh|lia]. Qed.

Lemma granted_nonneg h s : sem_ok h s → 0 ≤ granted (heap s).
Proof.
  intros Hok. apply msum_nonneg. intros w v. rewrite lookup_fmap_Some. intros (x & <- & Hx).
  apply (ok_n _ _ Hok) in Hx. destruct (ready x); lia.
Qed.

Lemma held_le_cur S t : inv S → default 0 (held S !! t) ≤ cur (sem S).
Proof.
  intros [Hok Hh _ _ _]. pose proof (granted_nonneg _ _ Hok) as Hg.
  rewrite (ok_cur _ _ Hok). pose proof (msum_nonneg _ Hh).
  destruct (held S !! t) as [v|] eqn:E; simpl; [|lia].
  pose proof (msum_le _ _ _ Hh E). lia.
Qed.

Lemma sem_inv_init limit : is_i64 limit → inv (init limit).
Proof.
  intros. split; cbn; [|done|done|by intros ? [??]|done].
  split; cbn; try done; [lia|apply NoDup_nil_2|]. intros w. split; [set_solver|].
  intros [? Hw]. by rewrite lookup_empty in Hw.
Qed.

(** The bookkeeping of threads when thread [t] leaves its wait. *)
Lemma inv_leave S t w s' h' :
  inv S → waiting S !! t = Some w → sem_ok (msum h') s' → map_Forall (λ _ v, 0 ≤ v) h' →
  (∀ v, n <$> heap s' !! v = n <$> delete w (heap (sem S)) !! v) →
  inv {| sem := s'; held := h'; waiting := delete t (waiting S) |}.
Proof.
  intros [_ _ Hw Ho Hi] Ht Hok Hh Hn.
  constructor; cbn [sem held waiting]; [done|done| | |].
  - intros t' w' [??]%lookup_delete_Some. rewrite (is_Some_n _ _ _ (Hn w')).
    rewrite lookup_delete_ne; [by eapply Hw|]. naive_solver.
  - intros w'. rewrite (is_Some_n _ _ _ (Hn w')). intros [x [? Hx]%lookup_delete_Some].
    destruct (Ho w') as [t' ?]; [by eexists|]. exists t'. rewrite lookup_delete_ne; [done|].
    naive_solver.
  - intros t1 t2 w' [_ ?]%lookup_delete_Some [_ ?]%lookup_delete_Some. by eapply Hi.
Qed.

(** Steps that leave the waiters alone, and no entry of the heap appears or goes. *)
Lemma inv_same S s' h' :
  inv S → sem_ok (msum h') s' → map_Forall (λ _ v, 0 ≤ v) h' →
  (∀ v, n <$> heap s' !! v = n <$> heap (sem S) !! v) →
  inv {| sem := s'; held := h'; waiting := waiting S |}.
Proof.
  intros [_ _ Hw Ho Hi] Hok Hh Hn. constructor; cbn [sem held waiting]; try done.
  - intros t' w' ?. rewrite (is_Some_n _ _ _ (Hn w')). by eapply Hw.
  - intros w'. rewrite (is_Some_n _ _ _ (Hn w')). apply Ho.
Qed.

Lemma sem_inv_step S e S' : inv S → step S e S' → inv S'.
Proof.
  intros HI Hs. pose proof HI as [Hok Hh Hw Ho Hi].
  destruct Hs as [S t w k s' Hk Hki Ht Hw0 He|S t w k w' s' Hk Hki Ht Hw0 He|S t w k Ht Hx
    |S t w x Ht Hx|S t k b s' Hk Hki Ht He|S t k Hk].
  - unfold Acquire_enter in He. destruct (decide _) as [[Hf _]|]; simplify_eq.
    apply inv_same; [done| | |done].
    + rewrite give_sum. by apply cur_take.
    + apply give_nonneg; [done|]. pose proof (held_nonneg t _ Hh). lia.
  - unfold Acquire_enter in He. destruct (decide _); simplify_eq.
    constructor; cbn [sem held waiting heap set_waiters set_heap]; [by apply enqueue_ok|done| | |].
    + intros t' v. rewrite lookup_insert_Some. intros [[<- <-]|[? Hv]].
      * rewrite lookup_insert_eq. by eexists.
      * destruct (decide (v = w')) as [->|?]; [rewrite lookup_insert_eq; by eexists|].
        rewrite lookup_insert_ne by done. by eapply Hw.
    + intros v. destruct (decide (v = w')) as [->|?].
      * intros _. exists t. apply lookup_insert_eq.
      * rewrite lookup_insert_ne by done. intros [t' Ht']%Ho. exists t'.
        rewrite lookup_insert_ne; [done|]. naive_solver.
    + assert (∀ t', waiting S !! t' ≠ Some w') as Hfr.
      { intros t' [? ?]%Hw. congruence. }
      intros t1 t2 v. rewrite !lookup_insert_Some. intros [[<- <-]|[? Hv]] [[<- ?]|[? Hv']];
        try done; try (exfalso; by (eapply Hfr; first [exact Hv|subst; exact Hv|exact Hv'])).
      by eapply Hi.
  - eapply inv_leave; [done|done| | |done].
    + rewrite give_sum. by apply collect_ready_ok.
    + apply give_nonneg; [done|]. pose proof (held_nonneg t _ Hh).
      apply (ok_n _ _ Hok) in Hx. cbn in Hx. lia.
  - destruct (cancel_spec _ _ _ _ Hok (msum_nonneg _ Hh) Hx) as (? & _ & _ & ? & _).
    by eapply inv_leave.
  - unfold TryAcquire in He. destruct (decide _) as [[Hf _]|]; simplify_eq.
    + apply inv_same; [done| | |done].
      * rewrite give_sum. by apply cur_take.
      * apply give_nonneg; [done|]. pose proof (held_nonneg t _ Hh). lia.
    + by destruct S.
  - assert (k ≤ cur (sem S)) as Hkc.
    { pose proof (held_le_cur S t HI). lia. }
    destruct (release_spec _ k _ Hok ltac:(lia)) as (_ & Hok' & _ & _ & _ & Hn).
    apply inv_same; [done| | |done].
    + by rewrite give_sum, Z.add_opp_r.
    + apply give_nonneg; [done|]. lia.
Qed.

Lemma step_size S e S' : inv S → step S e S' → size (sem S') = size (sem S).
Proof.
  intros HI Hs. pose proof HI as [Hok Hh _ _ _].
  destruct Hs as [S t w k s' _ _ _ _ He|S t w k w' s' _ _ _ _ He|?|S t w x _ Hx
    |S t k b s' _ _ _ He|S t k Hk]; cbn [sem].
  - unfold Acquire_enter in He. by destruct (decide _); simplify_eq.
  - unfold Acquire_enter in He. by destruct (decide _); simplify_eq.
  - done.
  - by destruct (cancel_spec _ _ _ _ Hok (msum_nonneg _ Hh) Hx) as (_ & ? & _).
  - unfold TryAcquire in He. by destruct (decide _); simplify_eq.
  - pose proof (held_le_cur S t HI).
    by destruct (release_spec _ k _ Hok ltac:(lia)) as (_ & _ & ? & _).
Qed.

(** A waiter keeps the weight it was queued with. *)
Lemma step_weights S e S' w x' :
  inv S → step S e S' → heap (sem S') !! w = Some x' →
  (∃ x, heap (sem S) !! w = Some x ∧ n x = n x') ∨ ∃ t, e = EEnter t w (n x').
Proof.
  assert (∀ (h h' : gmap nat waiter), n <$> h' !! w = n <$> h !! w → h' !! w = Some x' →
    ∃ x, h !! w = Some x ∧ n x = n x') as Hfm.
  { intros h h' E Hx. rewrite Hx in E. destruct (h !! w); naive_solver. }
  intros HI Hs. pose proof HI as [Hok Hh _ _ _].
  destruct Hs as [S t v k s' _ _ _ _ He|S t v k w' s' _ _ _ _ He|S t v k Ht Hx|S t v x Ht Hx
    |S t k b s' _ _ _ He|S t k Hk]; cbn [sem].
  - unfold Acquire_enter in He. destruct (decide _); simplify_eq. eauto.
  - unfold Acquire_enter in He. destruct (decide _); simplify_eq. cbn.
    rewrite lookup_insert_Some. intros [[<- <-]|[_ ?]]; eauto.
  - cbn. intros [_ ?]%lookup_delete_Some. eauto.
  - destruct (cancel_spec _ _ _ _ Hok (msum_nonneg _ Hh) Hx) as (_ & _ & _ & Hn & _).
    intros Hx'. left. destruct (Hfm _ _ (Hn w) Hx') as (y & [_ ?]%lookup_delete_Some & ?). eauto.
  - unfold TryAcquire in He. destruct (decide _); simplify_eq; eauto.
  - pose proof (held_le_cur S t HI).
    destruct (release_spec _ k _ Hok ltac:(lia)) as (_ & _ & _ & _ & _ & Hn).
    intros Hx'. left. exact (Hfm _ _ (Hn w) Hx').
Qed.

Lemma sem_run_inv limit es S : is_i64 limit → run (init limit) es S → inv S ∧ size (sem S) = limit.
Proof.
  intros Hl. remember (init limit) as S0 eqn:E. induction 1 as [|S0 es S' e S'' _ IH Hs]; subst.
  - split; [by apply sem_inv_init|done].
  - destruct (IH eq_refl) as [HI <-]. split; [by eapply sem_inv_step|by eapply step_size].
Qed.

(** Whether the queue moved in the order of arrival. *)
Definition fifo (S : sys) (e : event) (S' : sys) : Prop :=
  let served q := ∃ p, q = p ++ waiters (sem S') ∧
    ∀ v, v ∈ p → ∃ k, heap (sem S') !! v = Some {| n := k; ready := true |} in
  match e with
  | EEnter t w k => waiters (sem S') = waiters (sem S) ++ [w] ∨
      waiters (sem S) = [] ∧ waiters (sem S') = []
  | EReady _ => waiters (sem S') = waiters (sem S)
  | ECancel t => ∃ w, waiting S !! t = Some w ∧
      served (remove_first (λ w', w' = w) (waiters (sem S)))
  | ETry t k => waiters (sem S') = waiters (sem S) ∧
      (sem S' = sem S ∨ waiters (sem S) = [])
  | ERelease _ _ => served (waiters (sem S))
  end.

Lemma step_fifo S e S' : inv S → step S e S' → fifo S e S'.
Proof.
  intros HI Hs. pose proof HI as [Hok Hh _ _ _].
  destruct Hs as [S t w k s' _ _ _ _ He|S t w k w' s' _ _ _ _ He|?|S t w x Ht Hx
    |S t k b s' _ _ _ He|S t k Hk]; unfold fifo; cbn [sem].
  - unfold Acquire_enter in He. destruct (decide _) as [[_ ?]|]; simplify_eq. by right.
  - unfold Acquire_enter in He. destruct (decide _); simplify_eq. by left.
  - done.
  - destruct (cancel_spec _ _ _ _ Hok (msum_nonneg _ Hh) Hx) as (_ & _ & ? & _). eauto.
  - unfold TryAcquire in He. destruct (decide _) as [[_ ?]|]; simplify_eq; auto.
  - pose proof (held_le_cur S t HI).
    by destruct (release_spec _ k _ Hok ltac:(lia)) as (_ & _ & _ & _ & ? & _).
Qed.

(** C12. In every interleaving of callers that ask for non-negative amounts and release no
    more than they hold, the units held by threads and those handed to waiters that have
    not woken up yet add up to [cur], which stays between nothing and the limit; a blocked
    thread is either in the queue or has been handed its units; no release panics; and the
    queue is served in the order of arrival, newcomers behind it. *)
Theorem semaphore_bounded_fifo limit es S :
  is_i64 limit → run (init limit) es S →
  (cur (sem S) = msum (held S) + granted (heap (sem S)) ∧
   0 ≤ msum (held S) ∧ 0 ≤ granted (heap (sem S)) ∧ cur (sem S) ≤ Z.max 0 limit) ∧
  (∀ t w, waiting S !! t = Some w →
     ∃ x, heap (sem S) !! w = Some x ∧ (ready x = false ↔ w ∈ waiters (sem S))) ∧
  (∀ t k, 0 ≤ k ≤ default 0 (held S !! t) → outcome (Release k) (sem S) = inr tt) ∧
  (∀ e S', step S e S' → fifo S e S').
Proof.
  intros Hl Hr. destruct (sem_run_inv _ _ _ Hl Hr) as [HI <-]. pose proof HI as [Hok Hh Hw _ _].
  pose proof (granted_nonneg _ _ Hok). pose proof (msum_nonneg _ Hh). split_and!.
  - apply Hok.
  - done.
  - done.
  - apply Hok.
  - intros t w Ht. destruct (Hw t w Ht) as [[k r] Hx]. exists {| n := k; ready := r |}.
    split; [done|]. rewrite (ok_queue _ _ Hok). cbn. split; [intros ->; eauto|].
    intros [k' ?]. by simplify_eq.
  - intros t k Hk. pose proof (held_le_cur S t HI).
    by destruct (release_spec _ k _ Hok ltac:(lia)) as [? _].
  - intros e S' Hs. by apply step_fifo.
Qed.

Lemma semaphore_bounded_fifo_witness :
  ∃ S, run (init 2) [ETry 0 2; EEnter 1 7 1; ERelease 0 1] S ∧
    outcome (Release 1) (sem S) = inr tt.
Proof.
  eexists. assert (Hr : run (init 2) [ETry 0 2; EEnter 1 7 1; ERelease 0 1]
    {| sem := exec (Release 1) (Acquire_enter 7 1 (TryAcquire 2 (NewSemaphore 2)).2).2;
       held := give 0 (-1) (give 0 2 ∅); waiting := <[1%nat := 7%nat]> ∅ |}).
  { apply (run_snoc _ [ETry 0 2; EEnter 1 7 1]
      {| sem := (Acquire_enter 7 1 (TryAcquire 2 (NewSemaphore 2)).2).2;
         held := give 0 2 ∅; waiting := <[1%nat := 7%nat]> ∅ |}).
    - apply (run_snoc _ [ETry 0 2] {| sem := (TryAcquire 2 (NewSemaphore 2)).2;
         held := give 0 2 ∅; waiting := ∅ |}).
      + apply (run_snoc _ [] (init 2)); [constructor|].
        apply (step_try (init 2) 0 2 true); [lia|compute_decide|done|done].
      + eapply (step_enter_wait {| sem := _; held := _; waiting := _ |});
          [lia|compute_decide|done|done|done].
    - apply (step_release {| sem := _; held := _; waiting := _ |}). compute_decide. }
  split; [exact Hr|].
  destruct (semaphore_bounded_fifo 2 _ _ ltac:(compute_decide) Hr) as (_ & _ & H & _).
  apply (H 0%nat). compute_decide.
Defined.

(** ** No lost wake-up

    Between two stretches nobody at the head of the queue fits, unless a waiter left the
    queue by cancellation: the code then looks at nobody else.  With weights of one that
    does not matter. *)

Lemma saturated_step S e S' :
  inv S → saturated (sem S) → step S e S' →
  ((∀ t, e ≠ ECancel t) ∨ ∀ w x, heap (sem S) !! w = Some x → n x = 1) →
  saturated (sem S').
Proof.
  intros HI Hsat Hs Hc. pose proof HI as [Hok Hh _ _ _].
  destruct Hs as [S t w k s' _ _ _ Hw0 He|S t w k w' s' _ _ _ Hw0 He|S t w k Ht Hx
    |S t w x Ht Hx|S t k b s' _ _ _ He|S t k Hk]; cbn [sem].
  - unfold Acquire_enter in He. destruct (decide _) as [[_ Hq]|]; simplify_eq.
    intros v y. cbn. by rewrite Hq.
  - unfold Acquire_enter in He. destruct (decide _) as [|Hn]; simplify_eq.
    intros v y. cbn. destruct (waiters (sem S)) as [|u q] eqn:Hq; cbn.
    + intros [= <-]. rewrite lookup_insert_eq. intros [= <-] Hf. by apply Hn.
    + intros [= <-] Hy. rewrite lookup_insert_ne in Hy.
      * apply (Hsat u y); [by rewrite Hq|done].
      * intros <-. destruct (ok_queue _ _ Hok w') as [[? ?] _]; [rewrite Hq; left|]. congruence.
  - intros v y. cbn. intros Hv [_ Hy]%lookup_delete_Some. by apply (Hsat v y).
  - destruct (cancel_spec _ _ _ _ Hok (msum_nonneg _ Hh) Hx) as (_ & _ & _ & _ & Hr).
    destruct x as [k [|]]; [by apply Hr|]. destruct Hc as [Hc|Hone]; [by destruct (Hc t)|].
    rewrite cancel_queued by done. intros v y. cbn. intros Hv [_ Hy]%lookup_delete_Some Hf.
    destruct (waiters (sem S)) as [|u q] eqn:Hq; [done|].
    destruct (ok_queue _ _ Hok u) as [[k' Hu] _]; [rewrite Hq; left|].
    apply (Hsat u _ ltac:(by rewrite Hq) Hu). cbn.
    rewrite (Hone _ _ Hy) in Hf. by rewrite (Hone _ _ Hu : k' = 1).
  - unfold TryAcquire in He. destruct (decide _) as [[_ Hq]|]; simplify_eq; [|done].
    intros v y. cbn. by rewrite Hq.
  - pose proof (held_le_cur S t HI).
    by destruct (release_spec _ k _ Hok ltac:(lia)) as (_ & _ & _ & ? & _).
Qed.

(** A run in which the second waiter stays blocked although its unit is free: the first
    one, which asked for two, gave up. *)
Theorem semaphore_cancel_strands :
  ∃ S, run (init 2) [ETry 0 1; EEnter 1 7 2; EEnter 2 8 1; ECancel 1] S ∧
    waiters (sem S) = [8%nat] ∧ heap (sem S) !! 8%nat = Some {| n := 1; ready := false |} ∧
    fits (sem S) 1.
Proof.
  eexists. split.
  - apply (run_snoc _ [ETry 0 1; EEnter 1 7 2; EEnter 2 8 1]
      {| sem := (Acquire_enter 8 1 (Acquire_enter 7 2 (TryAcquire 1 (NewSemaphore 2)).2).2).2;
         held := give 0 1 ∅; waiting := <[2%nat := 8%nat]> (<[1%nat := 7%nat]> ∅) |}).
    + apply (run_snoc _ [ETry 0 1; EEnter 1 7 2]
        {| sem := (Acquire_enter 7 2 (TryAcquire 1 (NewSemaphore 2)).2).2;
           held := give 0 1 ∅; waiting := <[1%nat := 7%nat]> ∅ |}).
      * apply (run_snoc _ [ETry 0 1] {| sem := (TryAcquire 1 (NewSemaphore 2)).2;
           held := give 0 1 ∅; waiting := ∅ |}).
        -- apply (run_snoc _ [] (init 2)); [constructor|].
           apply (step_try (init 2) 0 1 true); [lia|compute_decide|done|done].
        -- eapply (step_enter_wait {| sem := _; held := _; waiting := _ |});
             [lia|compute_decide|done|done|done].
      * eapply (step_enter_wait {| sem := _; held := _; waiting := _ |});
          [lia|compute_decide|done|done|done].
    + eapply (step_cancel {| sem := _; held := _; waiting := _ |} 1 7); vm_compute; reflexivity.
  - vm_compute. split_and!; done.
Qed.
