(* ===== verification/Bulkhead.v ===== *)
(** * pkg/resilience/bulkhead.go: bounded concurrency over the semaphore

    A call of [Execute] or [TryExecute] is a sequence of stretches: the acquisition of a
    slot in the [Semaphore], the protected function, which runs without a lock, and the
    deferred release.  A bulkhead's run interleaves the stretches of any number of calls.
    Each stretch is one step of the semaphore's threads, so the theorems on those carry
    over. *)

From S2P Require Import Prelude Errors Semaphore.
From stdpp Require Import options.
Open Scope Z_scope.

(* src: pkg/resilience/bulkhead.go 17-24 BulkheadConfig *)
Record BulkheadConfig := { cfg_Name : string; cfg_MaxConcurrent : Z }.

(* src: pkg/resilience/bulkhead.go 9-15 Bulkhead *)
Record Bulkhead := { name : string; bsem : Semaphore; max : Z }.

(* src: pkg/resilience/errors.go 23-24 ErrBulkheadFull *)
Definition ErrBulkheadFull : error :=
  ResourceExhausted "bulkhead concurrency limit reached" None.

(* src: pkg/resilience/bulkhead.go 26-36 NewBulkhead *)
Definition NewBulkhead (cfg : BulkheadConfig) : Bulkhead :=
  let m := if decide (cfg_MaxConcurrent cfg ≤ 0) then 1 else cfg_MaxConcurrent cfg in
  {| name := cfg_Name cfg; bsem := NewSemaphore m; max := m |}.

(* src: pkg/resilience/bulkhead.go 38-41 Bulkhead.Name *)
Definition Name (b : Bulkhead) : string := name b.
(* src: pkg/resilience/bulkhead.go 43-46 Bulkhead.MaxConcurrent *)
Definition MaxConcurrent (b : Bulkhead) : Z := max b.

(** Where a call stands: not started or returned with an answer, blocked in [Acquire] with
    its waiter, or running the protected function. *)
Inductive phase := Idle (answer : option (option error)) | Blocked (w : nat) | InFlight.

Definition set_bsem (s : Semaphore) (b : Bulkhead) : Bulkhead :=
  {| name := name b; bsem := s; max := max b |}.

(** [Execute] up to the protected function, or up to the wait; [w] is the location of the
    waiter it may allocate. *)
(* src: pkg/resilience/bulkhead.go 48-51 Bulkhead.Execute *)
Definition Execute_enter (w : nat) (b : Bulkhead) : phase * Bulkhead :=
  let '(r, s) := Acquire_enter w 1 (bsem b) in
  (match r with inl _ => InFlight | inr w => Blocked w end, set_bsem s b).

(** The wait ends with the context: [ctx.Err()] is returned. *)
(* src: pkg/resilience/bulkhead.go 51-53 Bulkhead.Execute *)
Definition Execute_cancel (ctxErr : error) (w : nat) (b : Bulkhead) : phase * Bulkhead :=
  (Idle (Some (Some ctxErr)), set_bsem (collect w (Acquire_cancel w 1 (bsem b))) b).

(** The protected function has returned [res]; the deferred [Release] runs. *)
(* src: pkg/resilience/bulkhead.go 54-56 Bulkhead.Execute *)
Definition Execute_leave (res : option error) (b : Bulkhead) : phase * Bulkhead :=
  (Idle (Some res), set_bsem (exec (Release 1) (bsem b)) b).

(** [TryExecute] up to the protected function; it leaves as [Execute] does. *)
(* src: pkg/resilience/bulkhead.go 58-66 Bulkhead.TryExecute *)
Definition TryExecute_enter (b : Bulkhead) : phase * Bulkhead :=
  let '(ok, s) := TryAcquire 1 (bsem b) in
  (if ok : bool then InFlight else Idle (Some (Some ErrBulkheadFull)), set_bsem s b).

(** ** Runs *)

Record bsys := { bulkhead : Bulkhead; calls : gmap nat phase }.

Definition binit (cfg : BulkheadConfig) (ids : gset nat) : bsys :=
  {| bulkhead := NewBulkhead cfg; calls := gset_to_gmap (Idle None) ids |}.

(** Call [c] moves on to phase [r.1] and leaves the bulkhead [r.2]. *)
Definition move (B : bsys) (c : nat) (r : phase * Bulkhead) : bsys :=
  {| bulkhead := r.2; calls := <[c := r.1]> (calls B) |}.

Inductive bstep : bsys → bsys → Prop :=
  | bstep_execute B c a w :
      calls B !! c = Some (Idle a) → heap (bsem (bulkhead B)) !! w = None →
      bstep B (move B c (Execute_enter w (bulkhead B)))
  | bstep_try B c a :
      calls B !! c = Some (Idle a) → bstep B (move B c (TryExecute_enter (bulkhead B)))
  | bstep_ready B c w k :
      calls B !! c = Some (Blocked w) →
      heap (bsem (bulkhead B)) !! w = Some {| n := k; ready := true |} →
      bstep B (move B c (InFlight, set_bsem (collect w (bsem (bulkhead B))) (bulkhead B)))
  | bstep_cancel B c w err :
      calls B !! c = Some (Blocked w) →
      bstep B (move B c (Execute_cancel err w (bulkhead B)))
  | bstep_leave B c res :
      calls B !! c = Some InFlight → bstep B (move B c (Execute_leave res (bulkhead B))).

Definition slots (p : phase) : Z := match p with InFlight => 1 | _ => 0 end.
Definition blocked_on (p : phase) : option nat :=
  match p with Blocked w => Some w | _ => None end.

(** The calls whose protected function is running. *)
Definition in_flight (B : bsys) : Z := msum (slots <$> calls B).

(** ** The bulkhead's calls are threads of the semaphore *)

Definition threads (B : bsys) : sys :=
  {| sem := bsem (bulkhead B); held := slots <$> calls B;
     waiting := omap blocked_on (calls B) |}.

Lemma threads_eq s s' h h' w w' :
  s = s' → h = h' → w = w' →
  {| sem := s; held := h; waiting := w |} = {| sem := s'; held := h'; waiting := w' |}.
Proof. by intros -> -> ->. Qed.

Section moves.
  #[local] Set Default Proof Using "Type*".
  Context (B : bsys) (c : nat) (p : phase) (Hc : calls B !! c = Some p).

Lemma slots_give k q :
    slots q = slots p + k → slots <$> <[c := q]> (calls B) = give c k (slots <$> calls B).
  Proof. intros E. unfold give. by rewrite fmap_insert, lookup_fmap, Hc, E. Qed.

Lemma slots_keep q : slots q = slots p → slots <$> <[c := q]> (calls B) = slots <$> calls B.
  Proof.
    intros E. rewrite fmap_insert, E. apply insert_id. by rewrite lookup_fmap, Hc.
  Qed.

Lemma blocked_lookup : omap blocked_on (calls B) !! c = blocked_on p.
  Proof. by rewrite lookup_omap, Hc. Qed.

Lemma blocked_keep q :
    blocked_on p = None → blocked_on q = None →
    omap blocked_on (<[c := q]> (calls B)) = omap blocked_on (calls B).
  Proof.
    intros Hp Hq. rewrite omap_insert_None by done. apply delete_id.
    by rewrite lookup_omap, Hc.
  Qed.
End moves.

Lemma sim_step B B' :
  inv (threads B) → (∀ w x, heap (bsem (bulkhead B)) !! w = Some x → n x = 1) →
  bstep B B' →
  ∃ e, step (threads B) e (threads B') ∧ ∀ t w k, e = EEnter t w k → k = 1.
Proof.
  intros HI Hone Hs.
  destruct Hs as [B0 c a w Hc Hw|B0 c a Hc|B0 c w k Hc Hw|B0 c w err Hc|B0 c res Hc];
    unfold threads, move; cbn [bulkhead calls];
    pose proof (blocked_lookup _ _ _ Hc) as Hb; cbn in Hb.
  - unfold Execute_enter. destruct (Acquire_enter w 1 _) as [[[]|w'] s'] eqn:E;
      cbn [fst snd bsem set_bsem]; exists (EEnter c w 1); (split; [|by intros ??? [=]]).
    + rewrite (slots_give _ _ _ Hc 1), (blocked_keep _ _ _ Hc) by done.
      by apply (step_enter_now (threads B0) c w 1).
    + rewrite (slots_keep _ _ _ Hc), (omap_insert_Some _ _ _ _ w') by done.
      by apply (step_enter_wait (threads B0) c w 1).
  - unfold TryExecute_enter. destruct (TryAcquire 1 _) as [[|] s'] eqn:E;
      cbn [fst snd bsem set_bsem]; exists (ETry c 1); (split; [|done]).
    + rewrite (slots_give _ _ _ Hc 1), (blocked_keep _ _ _ Hc) by done.
      by apply (step_try (threads B0) c 1 true).
    + rewrite (slots_keep _ _ _ Hc), (blocked_keep _ _ _ Hc) by done.
      by apply (step_try (threads B0) c 1 false).
  - cbn [fst snd bsem set_bsem]. exists (EReady c). split; [|done].
    rewrite (Hone _ _ Hw : k = 1) in Hw.
    rewrite (slots_give _ _ _ Hc 1), omap_insert_None by done.
    by apply (step_ready (threads B0) c w 1).
  - unfold Execute_cancel. cbn [fst snd bsem set_bsem]. exists (ECancel c). split; [|done].
    rewrite (slots_keep _ _ _ Hc), omap_insert_None by done.
    destruct (inv_waiting _ HI c w Hb) as [x Hx]. pose proof (Hone _ _ Hx) as Hn.
    pose proof (step_cancel (threads B0) c w x Hb Hx) as Hs. by rewrite Hn in Hs.
  - unfold Execute_leave. cbn [fst snd bsem set_bsem]. exists (ERelease c 1). split; [|done].
    rewrite (slots_give _ _ _ Hc (-1)), (blocked_keep _ _ _ Hc) by done.
    apply (step_release (threads B0) c 1). cbn. rewrite lookup_fmap, Hc. cbn. lia.
Qed.

(** ** The invariant *)

Record binv (m : Z) (B : bsys) : Prop := {
  binv_threads : inv (threads B);
  binv_sat : saturated (bsem (bulkhead B));
  binv_one : ∀ w x, heap (bsem (bulkhead B)) !! w = Some x → n x = 1;
  binv_size : size (bsem (bulkhead B)) = m }.

Lemma binv_init cfg ids :
  is_i64 (cfg_MaxConcurrent cfg) → binv (MaxConcurrent (NewBulkhead cfg)) (binit cfg ids).
Proof.
  intros Hm.
  assert (slots <$> gset_to_gmap (Idle None) ids = gset_to_gmap 0 ids) as Hs
    by apply fmap_gset_to_gmap.
  assert (omap blocked_on (gset_to_gmap (Idle None) ids) = ∅) as Hb.
  { apply map_eq. intros c. rewrite lookup_omap, lookup_gset_to_gmap.
    destruct (decide (c ∈ ids)); by simplify_option_eq. }
  assert (msum (gset_to_gmap 0 ids) = 0) as Hz.
  { clear. induction ids as [|c ids Hc IH] using set_ind_L; [by rewrite gset_to_gmap_empty, msum_empty|].
    rewrite gset_to_gmap_union_singleton, msum_insert, IH by done.
    rewrite (proj2 (lookup_gset_to_gmap_None _ _ _)) by done. done. }
  constructor; [|by intros ??|by intros ??|done].
  unfold threads, binit; cbn [bulkhead calls]. rewrite Hs, Hb.
  constructor; cbn [sem held waiting]; [|by intros ?? [??]%lookup_gset_to_gmap_Some; subst
    |done|by intros ? [??]|done].
  rewrite Hz. apply sem_inv_init. unfold NewBulkhead; cbn. case_decide; [compute_decide|done].
Qed.

Lemma binv_step m B B' : binv m B → bstep B B' → binv m B'.
Proof.
  intros [HI Hsat Hone Hsz] Hs.
  destruct (sim_step _ _ HI Hone Hs) as (e & He & Hw).
  constructor.
  - by eapply sem_inv_step.
  - apply (saturated_step _ _ _ HI Hsat He). by right.
  - intros w x Hx. destruct (step_weights _ _ _ _ _ HI He Hx) as [(y & Hy & <-)|[t Et]].
    + by eapply Hone.
    + by eapply Hw.
  - rewrite <- Hsz. apply (step_size _ _ _ HI He).
Qed.

Lemma brun_inv cfg ids B :
  is_i64 (cfg_MaxConcurrent cfg) → rtc bstep (binit cfg ids) B →
  binv (MaxConcurrent (NewBulkhead cfg)) B.
Proof.
  intros Hm. apply (rtc_ind_r (binv (MaxConcurrent (NewBulkhead cfg)))).
  - by apply binv_init.
  - intros ?? _ Hs IH. by eapply binv_step.
Qed.

(** In every interleaving of calls, at most [MaxConcurrent] protected functions run at
    a time; a call is blocked and not yet woken only while every slot is taken by a running
    call or by one that is about to run; [TryExecute] refuses exactly when all slots are
    taken; and the deferred release of a running call never panics. *)
Theorem bulkhead_isolates cfg ids B :
  is_i64 (cfg_MaxConcurrent cfg) → rtc bstep (binit cfg ids) B →
  let m := MaxConcurrent (NewBulkhead cfg) in
  let s := bsem (bulkhead B) in
  (in_flight B ≤ m ∧ in_flight B + granted (heap s) = cur s) ∧
  (∀ c w k, calls B !! c = Some (Blocked w) →
     heap s !! w = Some {| n := k; ready := false |} → cur s = m) ∧
  ((TryExecute_enter (bulkhead B)).1 = Idle (Some (Some ErrBulkheadFull)) ↔ cur s = m) ∧
  (∀ c, calls B !! c = Some InFlight → outcome (Release 1) s = inr tt).
Proof.
  intros Hm Hr m s. destruct (brun_inv _ _ _ Hm Hr) as [HI Hsat Hone Hsz].
  fold m in Hsz. fold s in Hsat, Hone, Hsz.
  pose proof (inv_sem _ HI : sem_ok (in_flight B) s) as Hok.
  assert (0 < m) as Hpos by (unfold m, NewBulkhead; cbn; case_decide; lia).
  pose proof (ok_bounds _ _ Hok) as Hb. pose proof (ok_size _ _ Hok) as Hi.
  assert (∀ k, fits s k ↔ k ≤ m - cur s) as Hfits.
  { intros k. unfold fits. rewrite i64_id, Hsz; [done|]. go_lia. }
  assert (waiters s ≠ [] → cur s = m) as Hfull.
  { intros Hq. destruct (waiters s) as [|w q] eqn:E; [done|].
    destruct (ok_queue _ _ Hok w) as [[k Hk] _]; [rewrite E; left|].
    assert (¬ fits s 1) as Hf by (rewrite <- (Hone _ _ Hk); apply (Hsat w); [by rewrite E|done]).
    rewrite Hfits in Hf. lia. }
  pose proof (granted_nonneg _ _ Hok) as Hg. pose proof (ok_cur _ _ Hok) as Hcur.
  split_and!; [lia|lia| | |].
  - intros c w k Hc Hw. apply Hfull. intros Hn.
    assert (w ∈ waiters s) as Hin by (apply (ok_queue _ _ Hok); eauto).
    rewrite Hn in Hin. set_solver.
  - unfold TryExecute_enter, TryAcquire. fold s.
    destruct (decide (fits s 1 ∧ waiters s = [])) as [[Hf%Hfits _]|Hn]; cbn [fst].
    + split; [done|lia].
    + split; [intros _|done]. destruct (decide (waiters s = [])) as [Hq|Hq]; [|by apply Hfull].
      destruct (decide (cur s = m)); [done|]. exfalso. apply Hn. split; [|done].
      apply Hfits. lia.
  - intros c Hc. pose proof (held_le_cur _ c HI) as Hle. cbn in Hle.
    rewrite lookup_fmap, Hc in Hle. cbn in Hle. fold s in Hle.
    by destruct (release_spec _ 1 _ Hok ltac:(lia)) as [? _].
Qed.

Lemma bulkhead_isolates_witness :
  ∃ B, rtc bstep (binit {| cfg_Name := "b"; cfg_MaxConcurrent := 1 |} {[ 0; 1 ]}%nat) B ∧
    in_flight B = 1 ∧ calls B !! 1%nat = Some (Blocked 7) ∧ cur (bsem (bulkhead B)) = 1.
Proof.
  set (B0 := binit {| cfg_Name := "b"; cfg_MaxConcurrent := 1 |} {[ 0; 1 ]}%nat).
  set (B1 := move B0 0 (TryExecute_enter (bulkhead B0))).
  set (B2 := move B1 1 (Execute_enter 7 (bulkhead B1))).
  assert (Hr : rtc bstep B0 B2).
  { eapply rtc_l; [apply (bstep_try B0 0 None); vm_compute; reflexivity|].
    eapply rtc_l; [|apply rtc_refl]. apply (bstep_execute B1 1 None 7); vm_compute; reflexivity. }
  exists B2. split; [exact Hr|]. split; [vm_compute; reflexivity|].
  split; [vm_compute; reflexivity|].
  apply (proj1 (proj2 (bulkhead_isolates {| cfg_Name := "b"; cfg_MaxConcurrent := 1 |}
    {[ 0; 1 ]}%nat B2 ltac:(compute_decide) Hr)) 1%nat 7%nat 1); vm_compute; reflexivity.
Defined.
