(* ===== verification/Retry.v ===== *)
(** * pkg/resilience: retry, fallback, timeouts, typed wrappers

    The functions call code they do not know and depend on the context, the clock and a
    random generator: these act on an arbitrary world [W].  [Env] collects what the code
    asks of it: [ctx.Err()], the [select] between the context and a timer, [rand.Float64].
    What the conversion of a float out of the range of [int64] gives is up to the
    platform: the field [oor]. *)

From S2P Require Import Prelude Errors Float64 FloatRound Breaker.
From stdpp Require Import options.
Open Scope Z_scope.

(** ** The environment *)

Record Env (W : Type) := {
  ctxErr : W → option error;
  (** the [select] on [ctx.Done()] and [time.After(d)]: whether the context came first *)
  sleep : Z → W → bool * W;
  Float64 : W → float64 * W;
  oor : float64 → Z }.
Arguments ctxErr {W}.
Arguments sleep {W}.
Arguments Float64 {W}.
Arguments oor {W}.


(* src: pkg/resilience/resilience.go 17-18 Executor *)
Definition Executor (W : Type) : Type := W → option error * W.

(* src: pkg/resilience/resilience.go 75-94 RetryConfig *)
Record RetryConfig := {
  MaxAttempts : Z; InitialBackoff : Z; MaxBackoff : Z; Multiplier : float64;
  Jitter : float64; RetryIf : option (error → bool) }.

(* src: pkg/resilience/resilience.go 107-117 DefaultRetryConfig *)
Definition DefaultRetryConfig : RetryConfig :=
  {| MaxAttempts := 3; InitialBackoff := 100 * 10 ^ 6; MaxBackoff := 10 * 10 ^ 9;
     Multiplier := of_i64 2; Jitter := SFdiv 53 1024 (of_i64 1) (of_i64 10);
     RetryIf := Some (λ _, true) |}.

(** The defaults [Retry] fills in. *)
(* src: pkg/resilience/retry.go 14-28 Retry *)
Definition fill (cfg : RetryConfig) : RetryConfig :=
  {| MaxAttempts := if decide (MaxAttempts cfg ≤ 0) then 1 else MaxAttempts cfg;
     Multiplier := if SFleb (Multiplier cfg) (of_i64 0) then of_i64 2 else Multiplier cfg;
     InitialBackoff := if decide (InitialBackoff cfg ≤ 0) then 100 * 10 ^ 6
                       else InitialBackoff cfg;
     MaxBackoff := if decide (MaxBackoff cfg ≤ 0) then 30 * 10 ^ 9 else MaxBackoff cfg;
     Jitter := Jitter cfg;
     RetryIf := match RetryIf cfg with None => Some (λ _, true) | r => r end |}.

Definition retry_if (cfg : RetryConfig) (e : error) : bool :=
  match RetryIf cfg with Some f => f e | None => true end.

Section Retry.
  Context {W : Type} (env : Env W).

(** [jitter] *)
(* src: pkg/resilience/retry.go 57-61 Retry *)
Definition draw (cfg : RetryConfig) (w : W) : float64 * W :=
  if SFltb (of_i64 0) (Jitter cfg) then
    let '(r, w) := Float64 env w in
    (fadd (of_i64 1) (fmul (fsub (fmul r (of_i64 2)) (of_i64 1)) (Jitter cfg)), w)
  else (of_i64 1, w).

(** The backoff of the next turn. *)
(* src: pkg/resilience/retry.go 71-75 Retry *)
Definition next_backoff (cfg : RetryConfig) (backoff : Z) : Z :=
  let backoff := to_i64 (oor env) (fmul (of_i64 backoff) (Multiplier cfg)) in
  if decide (MaxBackoff cfg < backoff) then MaxBackoff cfg else backoff.

(** [k] counts the turns that are left: [k = MaxAttempts - attempt]. *)
(* src: pkg/resilience/retry.go 30-79 Retry *)
Fixpoint retry_loop (cfg : RetryConfig) (fn : Executor W) (k : nat)
    (attempt backoff : Z) (lastErr : option error) (w : W) : option error * W :=
  match k with
  | O => (lastErr, w)
  | S k' =>
      match ctxErr env w with
      | Some e => (Some e, w)
      | None =>
          let '(err, w) := fn w in
          match err with
          | None => (None, w)
          | Some e =>
              if negb (retry_if cfg e) then (Some e, w)
              else if decide (attempt = MaxAttempts cfg - 1) then (Some e, w)
              else
                let '(jitter, w) := draw cfg w in
                let sleepDuration := to_i64 (oor env) (fmul (of_i64 backoff) jitter) in
                let '(done, w) := sleep env sleepDuration w in
                if done : bool then (ctxErr env w, w)
                else retry_loop cfg fn k' (attempt + 1) (next_backoff cfg backoff) (Some e) w
          end
      end
  end.

(* src: pkg/resilience/retry.go 12-79 Retry *)
Definition Retry (cfg : RetryConfig) (fn : Executor W) (w : W) : option error * W :=
  let cfg := fill cfg in
  retry_loop cfg fn (Z.to_nat (MaxAttempts cfg)) 0 (InitialBackoff cfg) None w.

(* src: pkg/resilience/retry.go 88-101 ExponentialBackoff *)
Definition ExponentialBackoff (attempt base max : Z) (jitter : float64) (w : W) : Z * W :=
  let backoff := fmul (of_i64 base) (SFldexp 53 1024 (of_i64 1) attempt) in
  let '(backoff, w) :=
    if SFltb (of_i64 0) jitter then
      let '(r, w) := Float64 env w in
      (fmul backoff (fadd (of_i64 1) (fmul (fsub (fmul r (of_i64 2)) (of_i64 1)) jitter)), w)
    else (backoff, w) in
  if decide (max < to_i64 (oor env) backoff) then (max, w)
  else (to_i64 (oor env) backoff, w).

(** Executors may be nil. *)
(* src: pkg/resilience/fallback.go 8-22 Fallback *)
Definition Fallback (primary secondary : option (Executor W)) (w : W) : option error * W :=
  match primary with
  | None => match secondary with None => (None, w) | Some s => s w end
  | Some p =>
      let '(err, w) := p w in
      match err with
      | Some e => match secondary with None => (Some e, w) | Some s => s w end
      | None => (None, w)
      end
  end.
End Retry.

(** Typed executors: a value and an error; [zero] is the zero value of the type. *)
Section Typed.
  Context {W T : Type} (zero : T).

(* src: pkg/resilience/typed.go 5-6 ExecutorT *)
Definition ExecutorT : Type := W → (T * option error) * W.

(* src: pkg/resilience/fallback.go 24-41 FallbackT *)
Definition FallbackT (primary secondary : option ExecutorT) (w : W) : (T * option error) * W :=
  match primary with
  | None => match secondary with None => ((zero, None), w) | Some s => s w end
  | Some p =>
      let '((val, err), w) := p w in
      match err with
      | Some e => match secondary with None => ((zero, Some e), w) | Some s => s w end
      | None => ((val, None), w)
      end
  end.

(** The closure assigns to the captured variable [result], which is part of the world the
    wrapped executor acts on. *)
Definition capture (fn : ExecutorT) : Executor (W * T) := λ '(w, _),
  let '((v, err), w) := fn w in (err, (w, v)).

Definition env_with (env : Env W) : Env (W * T) :=
  {| ctxErr := λ '(w, _), ctxErr env w;
     sleep := λ d '(w, t), let '(b, w) := sleep env d w in (b, (w, t));
     Float64 := λ '(w, t), let '(r, w) := Float64 env w in (r, (w, t));
     oor := oor env |}.

(* src: pkg/resilience/typed.go 29-42 RetryT *)
Definition RetryT (env : Env W) (cfg : RetryConfig) (fn : ExecutorT) (w : W)
    : (T * option error) * W :=
  let '(err, (w, result)) := Retry (env_with env) cfg (capture fn) (w, zero) in
  match err with Some e => ((zero, Some e), w) | None => ((result, None), w) end.

(** Breaker and function may be nil; [None]: the call of a nil function panics. *)
(* src: pkg/resilience/typed.go 8-27 ExecuteT *)
Definition ExecuteT (clock : W → Z) (fn : option ExecutorT) (b : option CircuitBreaker) (w : W)
    : option ((T * option error) * (option CircuitBreaker * W)) :=
  match b with
  | None =>
      match fn with
      | None => Some ((zero, None), (None, w))
      | Some fn => let '(r, w) := fn w in Some (r, (None, w))
      end
  | Some cb =>
      match fn with
      | None =>
          let '((allowed, reject), cb) := allowRequest (clock w) cb in
          if allowed then None else Some ((zero, reject), (Some cb, w))
      | Some fn =>
          let '(err, (cb, (w, result))) :=
            Breaker.Execute (λ '(w, _), clock w) (capture fn) (cb, (w, zero)) in
          Some (match err with Some e => (zero, Some e) | None => (result, None) end,
                (Some cb, w))
      end
  end.
End Typed.

(** The breaker is part of the world of the executor that [Retry] runs. *)
Definition env_breaker {W} (env : Env W) : Env (CircuitBreaker * W) :=
  {| ctxErr := λ '(_, w), ctxErr env w;
     sleep := λ d '(cb, w), let '(b, w) := sleep env d w in (b, (cb, w));
     Float64 := λ '(cb, w), let '(r, w) := Float64 env w in (r, (cb, w));
     oor := oor env |}.

(* src: pkg/resilience/retry.go 81-86 RetryWithCircuitBreaker *)
Definition RetryWithCircuitBreaker {W} (env : Env W) (clock : W → Z) (cfg : RetryConfig)
    (fn : Executor W) (s : CircuitBreaker * W) : option error * (CircuitBreaker * W) :=
  Retry (env_breaker env) cfg (Breaker.Execute clock fn) s.

(** ** Timeouts *)

(** [context.DeadlineExceeded] *)
Definition deadlineExceeded : error := OtherError "context deadline exceeded".

#[global] Instance error_eq_dec : EqDecision error.
Proof.
  refine (fix go (a b : error) {struct a} : Decision (a = b) :=
    match a, b with
    | AppError c m o, AppError c' m' o' =>
        match decide (c = c'), decide (m = m') with
        | left Hc, left Hm =>
            match o, o' with
            | None, None => left _
            | Some x, Some y => match go x y with left Hx => left _ | right Hx => right _ end
            | _, _ => right _
            end
        | right _, _ | _, right _ => right _
        end
    | WrapError m x, WrapError m' y =>
        match decide (m = m'), go x y with
        | left Hm, left Hx => left _
        | right _, _ | _, right _ => right _
        end
    | OtherError s, OtherError s' => cast_if (decide (s = s'))
    | _, _ => right _
    end); abstract congruence.
Defined.

(** [errors.Is] for a target that is compared by value. *)
Fixpoint is_target (target e : error) : bool :=
  bool_decide (e = target) ||
  match e with
  | AppError _ _ (Some e') => is_target target e'
  | WrapError _ e' => is_target target e'
  | _ => false
  end.

(* src: pkg/resilience/retry.go 148-161 wrapTimeoutErr *)
Definition wrapTimeoutErr (err : option error) : option error :=
  match err with
  | None => None
  | Some e =>
      if is_target deadlineExceeded e then
        if IsCode err CodeDeadlineExceeded then err
        else Some (DeadlineExceeded "operation timed out" err)
      else err
  end.

(** What the [select]s of [WithTimeout] see: the function's result first; or the end of
    the context with cause [cause], with the result there in the same window or not. *)
Inductive race :=
  | Finished (err : option error)
  | Ended (cause : error) (done : option (option error)).

(* src: pkg/resilience/retry.go 103-146 WithTimeout *)
Definition WithTimeout (timeout : Z) (unbounded : option error) (r : race) : option error :=
  if decide (timeout ≤ 0) then unbounded
  else
    match r with
    | Finished err => wrapTimeoutErr err
    | Ended cause (Some None) => Some (DeadlineExceeded "operation timed out" (Some cause))
    | Ended cause (Some err) => wrapTimeoutErr err
    | Ended cause None =>
        if is_target deadlineExceeded cause
        then Some (DeadlineExceeded "operation timed out" (Some cause))
        else Some cause
    end.

(** A deadline that fires is reported with the code for it, and other failures of the
    function are passed on as they are. *)
Lemma WithTimeout_code timeout u cause done :
  0 < timeout → is_target deadlineExceeded cause = true →
  (∀ err, done = Some err → err = None ∨ err = Some cause) →
  IsCode (WithTimeout timeout u (Ended cause done)) CodeDeadlineExceeded = true.
Proof.
  intros Ht Hc Hd. unfold WithTimeout. rewrite decide_False by lia.
  destruct done as [[e|]|]; [| |by rewrite Hc]; [|done].
  destruct (Hd _ eq_refl) as [?|[= ->]]; [done|]. simpl. rewrite Hc.
  by destruct (IsCode (Some cause) CodeDeadlineExceeded) eqn:E.
Qed.

(** ** Hedging

    What the [select]s of [HedgeT] receive: an outcome of an attempt or the end of the
    context with its error; the first one may also receive the timer. *)

Inductive received (T : Type) := Outcome (val : T) (err : option error) | CtxDone (cause : error).
Arguments Outcome {T}.
Arguments CtxDone {T}.

Section Hedge.
  Context {T : Type} (zero : T).

(** The loop after the timer: [sel] is what its [select]s receive, one per turn. *)
(* src: pkg/resilience/hedge.go 69-87 HedgeT *)
Fixpoint hedge_loop (sel : list (received T)) (firstErr : option error) : T * option error :=
  match sel with
  | [] => (zero, firstErr)
  | Outcome val None :: _ => (val, None)
  | Outcome _ (Some e) :: sel' =>
      hedge_loop sel' (match firstErr with None => Some e | _ => firstErr end)
  | CtxDone cause :: _ =>
      (zero, match firstErr with Some e => Some e | None => Some cause end)
  end.

(** [direct] is the result of running [fn] once ([None]: [fn] is nil), [first] what the
    first [select] receives ([None]: the timer), [second] and [third] what the later ones
    do.  The second component counts the attempts that were started. *)
(* src: pkg/resilience/hedge.go 21-92 HedgeT *)
Definition HedgeT (delay : Z) (direct : option (T * option error))
    (first : option (received T)) (second third : received T) : (T * option error) * nat :=
  match direct with
  | None => ((zero, None), 0%nat)
  | Some d =>
      if decide (delay ≤ 0) then (d, 1%nat)
      else
        match first with
        | Some (Outcome val None) => ((val, None), 1%nat)
        | Some (Outcome _ (Some e)) =>
            match second with
            | Outcome val None => ((val, None), 2%nat)
            | _ => ((zero, Some e), 2%nat)
            end
        | None => (hedge_loop [second; third] None, 2%nat)
        | Some (CtxDone cause) => ((zero, Some cause), 1%nat)
        end
  end.

(** A hedged call succeeds only with the value of an attempt that succeeded, and when both
    attempts fail it reports the error that came first. *)
Lemma HedgeT_spec delay d first second third v :
  0 < delay → (HedgeT delay (Some d) first second third).1 = (v, None) →
  first = Some (Outcome v None) ∨ second = Outcome v None ∨ third = Outcome v None.
Proof.
  intros Hd. unfold HedgeT. rewrite decide_False by lia.
  destruct first as [[? [?|]|?]|], second as [? [?|]|?], third as [? [?|]|?];
    simpl; naive_solver.
Qed.

Lemma HedgeT_both_fail delay d v2 v3 e2 e3 :
  0 < delay →
  HedgeT delay (Some d) None (Outcome v2 (Some e2)) (Outcome v3 (Some e3))
    = ((zero, Some e2), 2%nat).
Proof. intros. unfold HedgeT. by rewrite decide_False by lia. Qed.
End Hedge.

(* src: pkg/resilience/hedge.go 8-19 Hedge *)
Definition Hedge (delay : Z) (direct : option error) (first : option (received unit))
    (second third : received unit) : option error :=
  (HedgeT tt delay (Some (tt, direct)) first second third).1.2.

(** ** Configuration *)

(* src: pkg/resilience/config.go 8-44 Config *)
Record Config := {
  c_Name : string; c_FailureThreshold : Z; c_SuccessThreshold : Z; c_Timeout : Z;
  c_MaxRequests : Z; c_MaxAttempts : Z; c_InitialBackoff : Z; c_MaxBackoff : Z;
  c_Multiplier : float64; c_Jitter : float64; c_HedgeDelay : Z;
  c_BulkheadMaxConcurrent : Z }.

(* src: pkg/resilience/config.go 46-62 DefaultConfig *)
Definition DefaultConfig : Config :=
  {| c_Name := "default"; c_FailureThreshold := 5; c_SuccessThreshold := 2;
     c_Timeout := 30 * 10 ^ 9; c_MaxRequests := 0; c_MaxAttempts := 3;
     c_InitialBackoff := 100 * 10 ^ 6; c_MaxBackoff := 10 * 10 ^ 9;
     c_Multiplier := of_i64 2; c_Jitter := SFdiv 53 1024 (of_i64 1) (of_i64 10);
     c_HedgeDelay := 50 * 10 ^ 6; c_BulkheadMaxConcurrent := 0 |}.

(* src: pkg/resilience/config.go 64-77 CircuitBreaker *)
Definition config_CircuitBreaker (c : Config) : CircuitBreakerConfig :=
  {| Name := if decide (c_Name c = "") then "default" else c_Name c;
     FailureThreshold := c_FailureThreshold c; SuccessThreshold := c_SuccessThreshold c;
     Timeout := c_Timeout c; MaxRequests := c_MaxRequests c; OnStateChange := false |}.

(* src: pkg/resilience/config.go 79-89 Retry *)
Definition config_Retry (c : Config) : RetryConfig :=
  {| MaxAttempts := c_MaxAttempts c; InitialBackoff := c_InitialBackoff c;
     MaxBackoff := c_MaxBackoff c; Multiplier := c_Multiplier c; Jitter := c_Jitter c;
     RetryIf := Some (λ _, true) |}.

(** The defaults of the two configuration paths are the same. *)
Lemma DefaultConfig_agrees :
  config_Retry DefaultConfig = DefaultRetryConfig ∧
  config (NewCircuitBreaker (config_CircuitBreaker DefaultConfig)) =
    config_CircuitBreaker DefaultConfig.
Proof. done. Qed.

(** ** What a retried call does

    The calls of the function and the pauses, recorded in the world. *)

Inductive ev := Called (r : option error) | Slept (d : Z).

Definition log_env {W} (env : Env W) : Env (W * list ev) :=
  {| ctxErr := λ '(w, _), ctxErr env w;
     sleep := λ d '(w, l), let '(b, w) := sleep env d w in (b, (w, l ++ [Slept d]));
     Float64 := λ '(w, l), let '(r, w) := Float64 env w in (r, (w, l));
     oor := oor env |}.
Definition log_fn {W} (fn : Executor W) : Executor (W * list ev) := λ '(w, l),
  let '(r, w) := fn w in (r, (w, l ++ [Called r])).

Definition results (l : list ev) : list (option error) :=
  omap (λ x, match x with Called r => Some r | Slept _ => None end) l.

Definition pauses (l : list ev) : list Z :=
  omap (λ x, match x with Slept d => Some d | Called _ => None end) l.


Section retry_log.
  Context {W : Type} (env : Env W) (cfg : RetryConfig) (fn : Executor W).
  #[local] Set Default Proof Using "Type".








End retry_log.




(** [MaxBackoff] does not cap the pauses: the first backoff is not compared with it, and the
    jitter is applied after the comparison.  With backoffs of 40 and at most 20 seconds and a
    jitter of 1/2 whose draws are 3/4, the pauses are 50 and 25 seconds. *)
Theorem retry_pauses_above_max :
  let half := SFdiv 53 1024 (of_i64 1) (of_i64 2) in
  let env := {| ctxErr := λ _ : unit, None; sleep := λ _ w, (false, w);
                Float64 := λ w, (SFdiv 53 1024 (of_i64 3) (of_i64 4), w); oor := λ _, 0 |} in
  let cfg := {| MaxAttempts := 3; InitialBackoff := 40 * 10 ^ 9; MaxBackoff := 20 * 10 ^ 9;
                Multiplier := of_i64 2; Jitter := half; RetryIf := None |} in
  let fn : Executor unit := λ w, (Some deadlineExceeded, w) in
  pauses (Retry (log_env env) cfg (log_fn fn) (tt, [])).2.2 = [50 * 10 ^ 9; 25 * 10 ^ 9].
Proof. vm_compute. reflexivity. Qed.

(** The backoff of the default policy without jitter: 100, 200, 400 ms and so on, up to ten
    seconds. *)
Example default_backoffs :
  let env := {| ctxErr := λ _ : unit, None; sleep := λ _ w, (false, w);
                Float64 := λ w, (of_i64 0, w); oor := λ _, 0 |} in
  let next := next_backoff env DefaultRetryConfig in
  (λ i, Nat.iter i next (100 * 10 ^ 6) / 10 ^ 6) <$> [1; 2; 3; 6; 7; 8]%nat
    = [200; 400; 800; 6400; 10000; 10000].
Proof. vm_compute. reflexivity. Qed.

(** ** Retry over a circuit breaker *)

(** What the executor keeps while it fails is kept by the loop; [Q] is what holds at the
    end, also after a success. *)
Lemma retry_inv {W} (env : Env W) cfg (fn : Executor W) (J Q : W → Prop) w :
  (∀ w, J w → Q w) →
  (∀ w r w', J w → fn w = (r, w') → if r is Some _ then J w' else Q w') →
  (∀ d w b w', J w → sleep env d w = (b, w') → J w') →
  (∀ w f w', J w → Float64 env w = (f, w') → J w') →
  J w → Q (Retry env cfg fn w).2.
Proof.
  intros HQ Hfn Hsleep Hrand. unfold Retry. generalize (fill cfg) as c. intros c.
  generalize (Z.to_nat (MaxAttempts c)) as k. generalize 0 as attempt.
  generalize (InitialBackoff c) as backoff. generalize (None : option error) as lastErr.
  intros lastErr backoff attempt k. revert lastErr backoff attempt w.
  induction k as [|k IH]; intros lastErr backoff attempt w Hw; cbn [retry_loop]; [by apply HQ|].
  destruct (ctxErr env w); [by apply HQ|].
  destruct (fn w) as [[e|] w1] eqn:Ef; pose proof (Hfn _ _ _ Hw Ef) as H1; [|done]. cbn in H1.
  destruct (negb _); [by apply HQ|]. destruct (decide _); [by apply HQ|].
  destruct (draw env c w1) as [j w2] eqn:Ed.
  assert (J w2) as H2.
  { unfold draw in Ed. destruct (SFltb _ _); [|by simplify_eq].
    destruct (Float64 env w1) eqn:Er. simplify_eq. by eapply Hrand. }
  destruct (sleep env _ w2) as [[|] w3] eqn:Es; pose proof (Hsleep _ _ _ _ H2 Es); [by apply HQ|].
  by apply IH.
Qed.

(** [f0] failures were counted before the calls in [l]. *)
Definition tripping {W} (clock : W → Z) (cb0 : CircuitBreaker)
    (s : CircuitBreaker * (W * list ev)) : Prop :=
  let '(cb, (w, l)) := s in
  config cb = config cb0 ∧ Forall is_Some (results l) ∧
  let k := Z.of_nat (length (results l)) in
  (state cb = StateClosed ∧ failures cb = failures cb0 + k ∧
     failures cb < FailureThreshold (config cb0)) ∨
  (state cb = StateOpen ∧ (∃ w', lastFailure cb = UnixMilli (clock w')) ∧
     k = FailureThreshold (config cb0) - failures cb0).

Definition tripped {W} (cb0 : CircuitBreaker) (s : CircuitBreaker * (W * list ev)) : Prop :=
  let '(cb, (w, l)) := s in
  let k := Z.of_nat (length (results l)) in
  k ≤ FailureThreshold (config cb0) - failures cb0 ∧
  (state cb = StateOpen → k = FailureThreshold (config cb0) - failures cb0).

Lemma results_snoc l r : results (l ++ [Called r]) = results l ++ [r].
Proof. unfold results. by rewrite omap_app. Qed.

Section breaker.
  Context {W : Type} (clock : W → Z) (fn : Executor W) (cb0 : CircuitBreaker).
  (** The run is shorter than the breaker's timeout. *)
  Hypothesis Hwindow : ∀ w w', since (clock w) (UnixMilli (clock w')) ≤ Timeout (config cb0).
  Hypothesis Hrange : is_i64 (failures cb0) ∧ is_i64 (FailureThreshold (config cb0)).
  #[local] Set Default Proof Using "Type*".

Let lclock : W * list ev → Z := λ '(w, _), clock w.

Lemma tripping_Execute s r s' :
  tripping clock cb0 s → Breaker.Execute lclock (log_fn fn) s = (r, s') →
  if r is Some _ then tripping clock cb0 s' else tripped cb0 s'.
Proof.
  destruct s as [cb [w l]]. unfold tripping. intros (Hcfg & Hall & Hst). unfold Breaker.Execute.
  destruct Hst as [(Hst & Hf & Hlt)|(Hst & [w' Hlast] & Hk)]; unfold allowRequest; rewrite Hst.
  - cbn [log_fn fst snd]. destruct (fn w) as [[e|] w1]; intros [= <- <-]; cbn [record lclock].
    + unfold recordFailure. rewrite Hst. cbn [failures set_lastFailure set_failures config].
      rewrite Hcfg, results_snoc, length_app. cbn [length state set_failures set_lastFailure].
      assert (is_i64 (failures cb + 1)) as Hi by (clear -Hrange Hf Hlt; unfold is_i64 in *; lia).
      rewrite (i64_id _ Hi), Hst.
      destruct (decide (FailureThreshold (config cb0) ≤ failures cb + 1));
        [rewrite decide_True by done|].
      * unfold setState; cbn [state set_failures set_lastFailure]. rewrite Hst; cbn.
        split_and!; [done|by apply Forall_app; repeat constructor|].
        right. split_and!; [done|by eexists|lia].
      * cbn. split_and!; [done|by apply Forall_app; repeat constructor|]. left. split_and!; [done|lia|lia].
    + unfold tripped, recordSuccess. rewrite Hst, results_snoc, length_app. cbn. rewrite Hst.
      split; [lia|done].
  - assert (¬ Timeout (config cb) < since (lclock (w, l)) (lastFailure cb)) as Hn.
    { rewrite Hcfg, Hlast. pose proof (Hwindow w w'). cbn. lia. }
    rewrite decide_False by done. intros [= <- <-]. split_and!; [done|done|]. right. eauto.
Qed.
End breaker.

(** Under [RetryWithCircuitBreaker], a closed breaker with [failures] failures counted
    lets the function fail at most [FailureThreshold - failures] times, however many
    attempts the policy allows and whatever the function and the context do, as long as
    the run is shorter than the breaker's timeout; and it is open at the end only after
    exactly that many failures. *)
Theorem retry_stops_at_open_breaker {W} (env : Env W) (clock : W → Z) cfg (fn : Executor W) cb w :
  state cb = StateClosed → failures cb < FailureThreshold (config cb) →
  is_i64 (failures cb) ∧ is_i64 (FailureThreshold (config cb)) →
  (∀ w w', since (clock w) (UnixMilli (clock w')) ≤ Timeout (config cb)) →
  let '(_, (cb', (_, l))) := RetryWithCircuitBreaker (log_env env)
    (λ '(w, _), clock w) cfg (log_fn fn) (cb, (w, [])) in
  Z.of_nat (length (results l)) ≤ FailureThreshold (config cb) - failures cb ∧
  (state cb' = StateOpen →
     Z.of_nat (length (results l)) = FailureThreshold (config cb) - failures cb).
Proof.
  intros Hst Hf Hr Hw.
  pose proof (retry_inv (env_breaker (log_env env)) cfg
    (Breaker.Execute (λ '(w, _), clock w) (log_fn fn)) (tripping clock cb) (tripped cb)
    (cb, (w, []))) as H.
  unfold RetryWithCircuitBreaker.
  destruct (Retry (env_breaker (log_env env)) cfg _ _) as [r [cb' [w' l']]].
  cbn [snd] in H. apply H; clear H.
  - intros [cb1 [w1 l1]] (_ & _ & [(Hs & ? & ?)|(Hs & _ & ?)]); split; try lia. by rewrite Hs.
  - intros s r' s' Hs He. by eapply (tripping_Execute clock fn cb Hw Hr).
  - intros d [cb1 [w1 l1]] b s' Hs. cbn. destruct (sleep env d w1). intros [= <- <-].
    destruct Hs as (? & ? & ?). unfold tripping.
    by replace (results (l1 ++ [Slept d])) with (results l1)
      by (unfold results; by rewrite omap_app, app_nil_r).
  - intros [cb1 [w1 l1]] f s' Hs. cbn. destruct (Float64 env w1). by intros [= <- <-].
  - split_and!; [done|constructor|]. left. cbn. split_and!; [done|lia|done].
Qed.

Lemma retry_stops_at_open_breaker_witness :
  let cb := NewCircuitBreaker {| Name := "b"; FailureThreshold := 2; SuccessThreshold := 0;
    Timeout := 0; MaxRequests := 0; OnStateChange := false |} in
  let env := {| ctxErr := λ _ : unit, None; sleep := λ _ w, (false, w);
                Float64 := λ w, (of_i64 0, w); oor := λ _, 0 |} in
  let fn : Executor unit := λ w, (Some deadlineExceeded, w) in
  let '(_, (cb', (_, l))) := RetryWithCircuitBreaker (log_env env)
    (λ '(w, _), 0) DefaultRetryConfig (log_fn fn) (cb, (tt, [])) in
  state cb' = StateOpen ∧ Z.of_nat (length (results l)) = 2.
Proof.
  intros cb env fn.
  pose proof (retry_stops_at_open_breaker env (λ _, 0) DefaultRetryConfig fn cb tt) as H.
  destruct (RetryWithCircuitBreaker _ _ _ _ _) as [r [cb' [w l]]] eqn:E.
  assert (Hs : state cb' = StateOpen).
  { vm_compute in E. injection E as <- <- <- <-. reflexivity. }
  split; [exact Hs|]. apply H.
  - reflexivity.
  - vm_compute. reflexivity.
  - split; compute_decide.
  - intros ? ?. vm_compute. discriminate.
  - exact Hs.
Defined.
