(* ===== verification/EventStore.v ===== *)
(** * pkg/enterprise/eventsource: events, the store interface, the in-memory stores

    An event store keeps, per aggregate, the stream of its events, and accepts new events
    only from a writer that has seen all of the stream.  [EventStore] is the Go interface:
    its operations, and as laws what its comments promise; the in-memory store is an
    instance, and [EventRepository] (file [EventSource]) is verified against the class.
    [Any] is the type of the values in an event's metadata, which no code here looks at;
    [quote] is the verb [%q] of package fmt. *)

From S2P Require Import Prelude Errors.
From stdpp Require Import pretty.
From stdpp Require Import options.
Open Scope Z_scope.

(** ** Errors *)

(* src: pkg/enterprise/eventsource/errors.go 10-15 const *)
Definition CodeVersionConflict := "EVENTSOURCE_VERSION_CONFLICT".
Definition CodeInvalidArgument := "EVENTSOURCE_INVALID_ARGUMENT".
Definition CodeNotFound := "EVENTSOURCE_NOT_FOUND".
Definition CodeApplyFailed := "EVENTSOURCE_APPLY_FAILED".

(* src: pkg/enterprise/eventsource/errors.go 21-25 VersionConflict *)
Definition VersionConflict (quote : string → string) (aggregateID : string)
    (expected actual : Z) : error :=
  New CodeVersionConflict ("version conflict for aggregate " +:+ quote aggregateID +:+
    ": expected " +:+ pretty expected +:+ ", actual " +:+ pretty actual) None.

(* src: pkg/enterprise/eventsource/errors.go 27-33 ErrInvalidArgument *)
Definition ErrInvalidArgument (msg : string) (err : option error) : error :=
  New CodeInvalidArgument (or_default msg "invalid argument") err.

(* src: pkg/enterprise/eventsource/errors.go 35-38 ErrAggregateNotFound *)
Definition ErrAggregateNotFound (quote : string → string) (aggregateID : string) : error :=
  New CodeNotFound ("aggregate " +:+ quote aggregateID +:+ " not found") None.

(* src: pkg/enterprise/eventsource/errors.go 40-46 ErrApplyFailed *)
Definition ErrApplyFailed (msg : string) (err : option error) : error :=
  New CodeApplyFailed (or_default msg "failed to apply event") err.

(** ** Events *)

(* src: pkg/enterprise/eventsource/eventsource.go 25-36 Event *)
Record Event {Any : Type} := {
  ID : string; AggregateID : string; AggregateType : string; EventType : string;
  Version : Z; Timestamp : Z; Data : string; Metadata : option (gmap string Any) }.
Arguments Event : clear implicits.

(* src: pkg/enterprise/eventsource/eventsource.go 254-261 Snapshot *)
Record Snapshot := {
  snap_AggregateID : string; snap_AggregateType : string; snap_Version : Z;
  snap_Timestamp : Z; snap_Data : string }.

(* src: pkg/enterprise/eventsource/projection.go 13-27 Checkpoint *)
Record Checkpoint := { cp_Name : string; cp_Position : Z; cp_UpdatedAt : Z }.

(** The [i]-th event of a batch as [Append] stores it behind [cur] events. *)
(* src: pkg/enterprise/eventsource/adapters/memory/memory.go 52-56 Append *)
Definition stamp {Any} (aggregateID : string) (cur : nat) (now : nat → Z) (i : nat)
    (e : Event Any) : Event Any :=
  {| ID := ID e; AggregateID := aggregateID; AggregateType := AggregateType e;
     EventType := EventType e; Version := i64 (Z.of_nat cur + Z.of_nat i + 1);
     Timestamp := if decide (Timestamp e = zero_time) then now i else Timestamp e;
     Data := Data e; Metadata := Metadata e |}.

(** ** The interface

    [now i] is the time at which the [i]-th event of the batch is stamped.  [Append]
    answers with the batch as it changed it in place. *)

(* src: pkg/enterprise/eventsource/eventsource.go 38-54 EventStore *)
Class EventStore (Any S : Type) := {
  es_Append : option error → (nat → Z) → string → Z → list (Event Any) →
    GoM error S (list (Event Any));
  es_Load : option error → string → S → error + list (Event Any);
  es_LoadFrom : option error → string → Z → S → error + list (Event Any) }.

(** What the comments of the interface promise; [stream s id] is the stream of [id], empty
    if there is none.  Streams are assumed to be shorter than an [int] can count. *)
Class EventStoreLaws (Any S : Type) `{!EventStore Any S} := {
  stream : S → string → list (Event Any);
  (** events are numbered from 1 without gaps and carry their aggregate's identifier *)
  stored : S → Prop;
  law_versions s id i e :
    stored s → stream s id !! i = Some e → Version e = Z.of_nat i + 1 ∧ AggregateID e = id;
  law_append ctx now id v evs s :
    stored s → Z.of_nat (length (stream s id) + length evs) < 2 ^ 63 →
    match es_Append ctx now id v evs s with
    | (inr evs', s') =>
        stored s' ∧ ctx = None ∧ id ≠ "" ∧ (v < 0 ∨ v = Z.of_nat (length (stream s id))) ∧
        evs' = imap (stamp id (length (stream s id)) now) evs ∧
        stream s' id = stream s id ++ evs' ∧ ∀ id', id' ≠ id → stream s' id' = stream s id'
    | (inl e, s') =>
        s' = s ∧ (ctx = Some e ∨ id = "" ∨ 0 ≤ v ∧ v ≠ Z.of_nat (length (stream s id)))
    end;
  law_Load id s : stored s → es_Load None id s = inr (stream s id);
  law_LoadFrom id v s :
    stored s → Z.of_nat (length (stream s id)) < 2 ^ 63 → is_i64 v →
    es_LoadFrom None id v s = inr (filter (λ e, v ≤ Version e) (stream s id));
  law_ctx err id v s :
    es_Load (Some err) id s = inl err ∧ es_LoadFrom (Some err) id v s = inl err }.

(** ** The in-memory store *)

Section memory.
  Context {Any : Type} (quote : string → string).

(** [stream := s.streams[id]]: nil if there is none. *)
Definition stream_of (s : gmap string (list (Event Any))) (id : string) : list (Event Any) :=
  default [] (s !! id).

(* src: pkg/enterprise/eventsource/adapters/memory/memory.go 23-29 NewEventStore *)
Definition NewEventStore : gmap string (list (Event Any)) := ∅.

(* src: pkg/enterprise/eventsource/adapters/memory/memory.go 31-61 Append *)
Definition Append (ctx : option error) (now : nat → Z) (aggregateID : string)
    (expectedVersion : Z) (events : list (Event Any))
    : GoM error (gmap string (list (Event Any))) (list (Event Any)) :=
  throw_some ctx;;
  throw_if (aggregateID = "") (ErrInvalidArgument "aggregateID is required" None);;
  s ← get;
  let strm := stream_of s aggregateID in
  let currentVersion := Z.of_nat (length strm) in
  throw_if (0 ≤ expectedVersion ∧ currentVersion ≠ expectedVersion)
    (VersionConflict quote aggregateID expectedVersion currentVersion);;
  let events := imap (stamp aggregateID (length strm) now) events in
  put (<[aggregateID := strm ++ events]> s);;
  mret events.

(* src: pkg/enterprise/eventsource/adapters/memory/memory.go 63-80 Load *)
Definition Load (ctx : option error) (aggregateID : string)
    (s : gmap string (list (Event Any))) : error + list (Event Any) :=
  match ctx with
  | Some err => inl err
  | None => match s !! aggregateID with None => inr [] | Some strm => inr strm end
  end.

(* src: pkg/enterprise/eventsource/adapters/memory/memory.go 82-111 LoadFrom *)
Definition LoadFrom (ctx : option error) (aggregateID : string) (fromVersion : Z)
    (s : gmap string (list (Event Any))) : error + list (Event Any) :=
  match ctx with
  | Some err => inl err
  | None =>
      match s !! aggregateID with
      | None => inr []
      | Some strm =>
          if decide (fromVersion ≤ 1) then inr strm
          else
            let startIdx := i64 (fromVersion - 1) in
            if decide (Z.of_nat (length strm) ≤ startIdx) then inr []
            else inr (drop (Z.to_nat startIdx) strm)
      end
  end.

(** [order] is the order in which Go ranges over the map: any permutation of its keys. *)
(* src: pkg/enterprise/eventsource/adapters/memory/memory.go 113-127 LoadAll *)
Definition LoadAll (ctx : option error) (order : list string)
    (s : gmap string (list (Event Any))) : error + list (Event Any) :=
  match ctx with
  | Some err => inl err
  | None => inr (order ≫= stream_of s)
  end.

#[global] Instance memory_EventStore : EventStore Any (gmap string (list (Event Any))) := {|
  es_Append := Append; es_Load := Load; es_LoadFrom := LoadFrom |}.

(** Event [i] of a stream has version [i+1] and the stream's aggregate identifier, which is
    not empty. *)
Definition memory_ok (s : gmap string (list (Event Any))) : Prop :=
  map_Forall (λ id strm, id ≠ "" ∧
    ∀ i e, strm !! i = Some e → Version e = Z.of_nat i + 1 ∧ AggregateID e = id) s.

Lemma stream_of_ok s id i e :
  memory_ok s → stream_of s id !! i = Some e → Version e = Z.of_nat i + 1 ∧ AggregateID e = id.
Proof.
  intros Hs. unfold stream_of. destruct (s !! id) as [strm|] eqn:E; [|done].
  by apply (Hs id strm E).
Qed.

Lemma stamp_lookup id cur now (evs : list (Event Any)) i e :
  Z.of_nat (cur + length evs) < 2 ^ 63 →
  imap (stamp id cur now) evs !! i = Some e →
  Version e = Z.of_nat (cur + i) + 1 ∧ AggregateID e = id.
Proof.
  intros Hlen. rewrite list_lookup_imap, fmap_Some. intros (e0 & He0 & ->).
  apply lookup_lt_Some in He0. cbn. split; [|done]. go_lia.
Qed.

Lemma append_ok s id evs now :
  memory_ok s → id ≠ "" → Z.of_nat (length (stream_of s id) + length evs) < 2 ^ 63 →
  memory_ok (<[id := stream_of s id ++ imap (stamp id (length (stream_of s id)) now) evs]> s).
Proof.
  intros Hs Hid Hlen. apply map_Forall_insert_2; [|done]. split; [done|]. intros i e He.
  apply lookup_app_Some in He as [He|[Hle He]]; [by apply (stream_of_ok s)|].
  apply stamp_lookup in He as [-> ->]; [|done]. split; [lia|done].
Qed.

(** Versions are consecutive, so the suffix from index [v - 1] is what a filter on the
    version selects. *)
Lemma filter_versions (l : list (Event Any)) k v :
  (∀ i e, l !! i = Some e → Version e = Z.of_nat (k + i) + 1) →
  filter (λ e, v ≤ Version e) l = drop (Z.to_nat (v - 1 - Z.of_nat k)) l.
Proof.
  revert k. induction l as [|e l IH]; intros k Hl; [by rewrite drop_nil|].
  pose proof (Hl 0%nat e eq_refl) as He.
  assert (∀ i e, l !! i = Some e → Version e = Z.of_nat (S k + i) + 1) as Hl'.
  { intros i e' Hi. rewrite (Hl (S i) e' Hi). lia. }
  rewrite filter_cons. destruct (decide (v ≤ Version e)) as [Hv|Hv].
  - rewrite (IH (S k) Hl'). replace (Z.to_nat (v - 1 - Z.of_nat k)) with 0%nat by lia.
    by replace (Z.to_nat (v - 1 - Z.of_nat (S k))) with 0%nat by lia.
  - rewrite (IH (S k) Hl').
    replace (Z.to_nat (v - 1 - Z.of_nat k)) with (S (Z.to_nat (v - 1 - Z.of_nat (S k)))) by lia.
    done.
Qed.

Lemma LoadFrom_filter id v s :
  memory_ok s → Z.of_nat (length (stream_of s id)) < 2 ^ 63 → is_i64 v →
  LoadFrom None id v s = inr (filter (λ e, v ≤ Version e) (stream_of s id)).
Proof.
  intros Hs Hlen Hv. unfold LoadFrom.
  rewrite (filter_versions _ 0 v) by (intros i e He; by apply (stream_of_ok s id)).
  replace (v - 1 - Z.of_nat 0) with (v - 1) by lia.
  unfold stream_of in *. destruct (s !! id) as [strm|]; simpl in *; [|by rewrite drop_nil].
  destruct (decide (v ≤ 1)); [by replace (Z.to_nat (v - 1)) with 0%nat by lia|].
  rewrite i64_id by go_lia. case_decide; [|done]. by rewrite drop_ge by lia.
Qed.

#[global] Program Instance memory_laws :
  EventStoreLaws Any (gmap string (list (Event Any))) :=
  {| stream := stream_of; stored := memory_ok |}.
Next Obligation. intros s id i e. apply stream_of_ok. Qed.
Next Obligation.
  intros ctx now id v evs s Hs Hlen. cbn. unfold Append. go_run.
  destruct ctx as [err|]; [by auto|].
  destruct (decide (id = "")); [by auto|].
  destruct (decide (0 ≤ v ∧ _)) as [[? ?]|Hv]; [auto|].
  split_and!; try done; [by apply append_ok| | |].
  - destruct (decide (v < 0)); [by left|right]. lia.
  - unfold stream_of. by rewrite lookup_insert_eq.
  - intros id' Hne. unfold stream_of. by rewrite lookup_insert_ne.
Qed.
Next Obligation. intros id s _. cbn. unfold Load, stream_of. by destruct (s !! id). Qed.
Next Obligation. intros. by apply LoadFrom_filter. Qed.
Next Obligation. done. Qed.

(** ** Histories *)

Inductive call := CAppend (ctx : option error) (now : nat → Z) (id : string) (v : Z)
  (evs : list (Event Any)).

Definition do_call (c : call) (s : gmap string (list (Event Any)))
    : (error + list (Event Any)) * gmap string (list (Event Any)) :=
  let '(CAppend ctx now id v evs) := c in Append ctx now id v evs s.

Fixpoint run (cs : list call) (s : gmap string (list (Event Any)))
    : gmap string (list (Event Any)) :=
  match cs with [] => s | c :: cs' => run cs' (do_call c s).2 end.

(** No stream outgrows an [int]. *)
Fixpoint fits (cs : list call) (s : gmap string (list (Event Any))) : Prop :=
  match cs with
  | [] => True
  | CAppend _ _ id _ evs as c :: cs' =>
      Z.of_nat (length (stream_of s id) + length evs) < 2 ^ 63 ∧ fits cs' (do_call c s).2
  end.

Lemma do_call_spec c s :
  memory_ok s → (let '(CAppend _ _ id _ evs) := c in
    Z.of_nat (length (stream_of s id) + length evs) < 2 ^ 63) →
  memory_ok (do_call c s).2 ∧ ∀ id, stream_of s id `prefix_of` stream_of (do_call c s).2 id.
Proof.
  destruct c as [ctx now id v evs]. intros Hs Hlen.
  pose proof (law_append ctx now id v evs s Hs Hlen) as H. cbn in H. cbn [do_call].
  destruct (Append ctx now id v evs s) as [[e|evs'] s']; cbn.
  - destruct H as [-> _]. split; [done|]. by intros.
  - destruct H as (? & _ & _ & _ & _ & Heq & Hne). split; [done|]. intros id'.
    destruct (decide (id' = id)) as [->|]; [rewrite Heq; by eexists|by rewrite Hne].
Qed.

Lemma run_spec cs s :
  memory_ok s → fits cs s →
  memory_ok (run cs s) ∧ ∀ id, stream_of s id `prefix_of` stream_of (run cs s) id.
Proof.
  revert s. induction cs as [|[ctx now id v evs] cs IH]; intros s Hs Hf; [done|].
  destruct Hf as [Hlen Hf].
  destruct (do_call_spec (CAppend ctx now id v evs) s Hs Hlen) as [Hs' Hp].
  destruct (IH _ Hs' Hf) as [? Hp']. split; [done|]. intros id'. etrans; [apply Hp|apply Hp'].
Qed.

Lemma store_run_app cs1 cs2 s : run (cs1 ++ cs2) s = run cs2 (run cs1 s).
Proof. revert s. induction cs1; intros; simpl; auto. Qed.

Lemma fits_app cs1 cs2 s : fits (cs1 ++ cs2) s ↔ fits cs1 s ∧ fits cs2 (run cs1 s).
Proof.
  revert s. induction cs1 as [|[] cs1 IH]; intros s; [by simpl; tauto|].
  cbn [app fits run]. rewrite IH. tauto.
Qed.
End memory.

Arguments call : clear implicits.

(** C7. Over any history of [Append] calls (that no stream outgrows an [int] in): the
    events of a stream are numbered 1, 2, 3 ... and carry the stream's identifier; a stream
    only ever grows at its end; [LoadFrom] selects exactly the events from the given
    version on; and of two writers that both expect the stream at version [v >= 0] and have
    something to write, whatever comes between them, at most one succeeds: the other gets
    a version conflict and changes nothing. *)
Theorem eventstore_optimistic_log {Any} (quote : string → string)
    (before between : list (call Any)) id v ctx1 now1 evs1 ctx2 now2 evs2 :
  let c1 := CAppend ctx1 now1 id v evs1 in
  let c2 := CAppend ctx2 now2 id v evs2 in
  let s0 := run quote before ∅ in
  let s1 := (do_call quote c1 s0).2 in
  let s2 := run quote between s1 in
  fits quote (before ++ c1 :: between ++ [c2]) ∅ →
  (∀ i e, stream_of s2 id !! i = Some e → Version e = Z.of_nat i + 1 ∧ AggregateID e = id) ∧
  stream_of s0 id `prefix_of` stream_of s2 id ∧
  (∀ w, is_i64 w → Z.of_nat (length (stream_of s2 id)) < 2 ^ 63 →
     LoadFrom None id w s2 = inr (filter (λ e, w ≤ Version e) (stream_of s2 id))) ∧
  (0 ≤ v → evs1 ≠ [] → (∃ out, (do_call quote c1 s0).1 = inr out) → ctx2 = None →
   do_call quote c2 s2 =
     (inl (VersionConflict quote id v (Z.of_nat (length (stream_of s2 id)))), s2)).
Proof.
  intros c1 c2 s0 s1 s2 Hf.
  apply fits_app in Hf as [Hf0 [Hl1 Hf1]]. fold s0 s1 in Hl1, Hf1.
  apply fits_app in Hf1 as [Hf2 [Hl2 _]].
  destruct (run_spec quote before ∅ ltac:(done) Hf0) as [Hs0 _]. fold s0 in Hs0.
  destruct (do_call_spec quote c1 s0 Hs0 Hl1) as [Hs1 Hp1]. fold s1 in Hs1, Hp1.
  destruct (run_spec quote between s1 Hs1 Hf2) as [Hs2 Hp2]. fold s2 in Hs2, Hp2.
  split_and!.
  - intros i e. by apply stream_of_ok.
  - etrans; [apply Hp1|apply Hp2].
  - intros w Hw Hlen. by apply LoadFrom_filter.
  - intros Hv He [out Hout] ->.
    pose proof (law_append (EventStoreLaws := memory_laws quote) ctx1 now1 id v evs1 s0 Hs0 Hl1)
      as H. cbn in H. unfold s1, c1, do_call in Hout, Hp2.
    destruct (Append quote ctx1 now1 id v evs1 s0) as [[err|evs'] s1'] eqn:E1; [done|].
    destruct H as (_ & _ & Hid & Hv' & -> & Heq & _). cbn [snd] in Hp2.
    assert (v < Z.of_nat (length (stream_of s2 id))) as Hlt.
    { destruct Hv' as [Hneg| ->]; [lia|]. specialize (Hp2 id). apply prefix_length in Hp2.
      rewrite Heq, length_app, length_imap in Hp2. destruct evs1; [done|]. cbn in Hp2. lia. }
    unfold do_call, c2, Append. go_run. rewrite decide_False by done.
    rewrite decide_True by lia. done.
Qed.

Lemma eventstore_optimistic_log_witness :
  let ev := {| ID := ""; AggregateID := ""; AggregateType := "order"; EventType := "created";
    Version := 0; Timestamp := zero_time; Data := "{}"; Metadata := None |} : Event unit in
  let s := (Append (λ x, x) None (λ _, 5) "a" 0 [ev] ∅).2 in
  do_call (λ x, x) (CAppend None (λ _, 7) "a" 0 [ev]) s =
    (inl (VersionConflict (λ x, x) "a" 0 1), s).
Proof.
  intros ev s.
  pose proof (eventstore_optimistic_log (λ x, x) [] [] "a" 0 None (λ _, 5) [ev] None (λ _, 7) [ev])
    as H. cbv zeta in H. destruct H as (_ & _ & _ & H).
  - cbn. vm_compute. auto.
  - apply H; [lia|discriminate|eexists; vm_compute; reflexivity|reflexivity].
Defined.
