(* ===== verification/AuditLog.v ===== *)
(** * pkg/audit

    The audit log: events, the hash chain, redaction, and the in-memory store
    (adapters/memory).  Events are hashed as the JSON of GoJson.v.  Package regexp is a class: a
    compiled pattern is the function that replaces its matches by a mask.  Metadata is a map: a
    list of pairs with different keys, in the order in which Go happens to range over it.  The store's methods run under its lock: one call is one step. *)

From S2P Require Import Prelude GoStrings Errors Float64 Utf8 BaseN GoAny GoJson Digest.
From stdpp Require Import pretty sorting options.
Open Scope Z_scope.

(** ** Errors *)

(* src: pkg/audit/errors.go 10-19 const *)
Definition CodeInvalidArgument := "AUDIT_INVALID_ARGUMENT".
Definition CodeAppendFailed := "AUDIT_APPEND_FAILED".
Definition CodeMarshalFailed := "AUDIT_MARSHAL_FAILED".
Definition CodeChainBroken := "AUDIT_CHAIN_BROKEN".

(* src: pkg/audit/errors.go 25-31 ErrInvalidArgument *)
Definition ErrInvalidArgument (msg : string) (err : option error) : error :=
  New CodeInvalidArgument (or_default msg "invalid argument") err.

(* src: pkg/audit/errors.go 33-39 ErrAppendFailed *)
Definition ErrAppendFailed (msg : string) (err : option error) : error :=
  New CodeAppendFailed (or_default msg "failed to append audit event") err.

(* src: pkg/audit/errors.go 49-52 ErrMarshalFailed *)
Definition ErrMarshalFailed (err : error) : error := New CodeMarshalFailed "failed to marshal audit event" (Some err).

(* src: pkg/audit/errors.go 54-63 ErrChainBroken *)
Definition ErrChainBroken (index : nat) (detail : string) : error :=
  let msg := "audit hash chain broken" in
  New CodeChainBroken
    (if decide (detail ≠ "") then msg +:+ " at index " +:+ pretty index +:+ ": " +:+ detail
     else msg +:+ " at index " +:+ pretty index) None.

(** ** Events *)

(* src: pkg/audit/audit.go 184-227 Event *)
Record Event := mk_Event {
  ID : string; Timestamp : Z; EventType : string; Outcome : string; ActorID : string; ActorType : string; ActorIP : string; ActorUserAgent : string;
  TargetID : string; TargetType : string; ResourceID : string; ResourceType : string; Action : string; Description : string; Metadata : option (list (string * Any));
  RequestID : string; SessionID : string; CorrelationID : string; ErrorCode : string; ErrorMessage : string; Hash : string; PrevHash : string }.

Definition set_id (x : string) (e : Event) : Event :=
  let 'mk_Event _ x1 x2 x3 x4 x5 x6 x7 x8 x9 x10 x11 x12 x13 x14 x15 x16 x17 x18 x19 x20 x21 := e in
  mk_Event x x1 x2 x3 x4 x5 x6 x7 x8 x9 x10 x11 x12 x13 x14 x15 x16 x17 x18 x19 x20 x21.
Definition set_timestamp (x : Z) (e : Event) : Event :=
  let 'mk_Event x0 _ x2 x3 x4 x5 x6 x7 x8 x9 x10 x11 x12 x13 x14 x15 x16 x17 x18 x19 x20 x21 := e in
  mk_Event x0 x x2 x3 x4 x5 x6 x7 x8 x9 x10 x11 x12 x13 x14 x15 x16 x17 x18 x19 x20 x21.
Definition set_metadata (x : option (list (string * Any))) (e : Event) : Event :=
  let 'mk_Event x0 x1 x2 x3 x4 x5 x6 x7 x8 x9 x10 x11 x12 x13 _ x15 x16 x17 x18 x19 x20 x21 := e in
  mk_Event x0 x1 x2 x3 x4 x5 x6 x7 x8 x9 x10 x11 x12 x13 x x15 x16 x17 x18 x19 x20 x21.
Definition set_hash (x : string) (e : Event) : Event :=
  let 'mk_Event x0 x1 x2 x3 x4 x5 x6 x7 x8 x9 x10 x11 x12 x13 x14 x15 x16 x17 x18 x19 _ x21 := e in
  mk_Event x0 x1 x2 x3 x4 x5 x6 x7 x8 x9 x10 x11 x12 x13 x14 x15 x16 x17 x18 x19 x x21.
Definition set_prev (x : string) (e : Event) : Event :=
  let 'mk_Event x0 x1 x2 x3 x4 x5 x6 x7 x8 x9 x10 x11 x12 x13 x14 x15 x16 x17 x18 x19 x20 _ := e in
  mk_Event x0 x1 x2 x3 x4 x5 x6 x7 x8 x9 x10 x11 x12 x13 x14 x15 x16 x17 x18 x19 x20 x.
Definition set_agent (x : string) (e : Event) : Event :=
  let 'mk_Event x0 x1 x2 x3 x4 x5 x6 _ x8 x9 x10 x11 x12 x13 x14 x15 x16 x17 x18 x19 x20 x21 := e in
  mk_Event x0 x1 x2 x3 x4 x5 x6 x x8 x9 x10 x11 x12 x13 x14 x15 x16 x17 x18 x19 x20 x21.
Definition set_error_message (x : string) (e : Event) : Event :=
  let 'mk_Event x0 x1 x2 x3 x4 x5 x6 x7 x8 x9 x10 x11 x12 x13 x14 x15 x16 x17 x18 _ x20 x21 := e in
  mk_Event x0 x1 x2 x3 x4 x5 x6 x7 x8 x9 x10 x11 x12 x13 x14 x15 x16 x17 x18 x x20 x21.

(** *** The builder *)

(* src: pkg/audit/audit.go 249-253 EventBuilder.Actor *)
Definition with_Actor (id actorType : string) (e : Event) : Event :=
  let 'mk_Event x0 x1 x2 x3 _ _ x6 x7 x8 x9 x10 x11 x12 x13 x14 x15 x16 x17 x18 x19 x20 x21 := e in
  mk_Event x0 x1 x2 x3 id actorType x6 x7 x8 x9 x10 x11 x12 x13 x14 x15 x16 x17 x18 x19 x20 x21.

(* src: pkg/audit/audit.go 256-259 EventBuilder.ActorIP *)
Definition with_ActorIP (ip : string) (e : Event) : Event :=
  let 'mk_Event x0 x1 x2 x3 x4 x5 _ x7 x8 x9 x10 x11 x12 x13 x14 x15 x16 x17 x18 x19 x20 x21 := e in
  mk_Event x0 x1 x2 x3 x4 x5 ip x7 x8 x9 x10 x11 x12 x13 x14 x15 x16 x17 x18 x19 x20 x21.

(* src: pkg/audit/audit.go 262-266 EventBuilder.Target *)
Definition with_Target (id targetType : string) (e : Event) : Event :=
  let 'mk_Event x0 x1 x2 x3 x4 x5 x6 x7 _ _ x10 x11 x12 x13 x14 x15 x16 x17 x18 x19 x20 x21 := e in
  mk_Event x0 x1 x2 x3 x4 x5 x6 x7 id targetType x10 x11 x12 x13 x14 x15 x16 x17 x18 x19 x20 x21.

(* src: pkg/audit/audit.go 269-273 EventBuilder.Resource *)
Definition with_Resource (id resourceType : string) (e : Event) : Event :=
  let 'mk_Event x0 x1 x2 x3 x4 x5 x6 x7 x8 x9 _ _ x12 x13 x14 x15 x16 x17 x18 x19 x20 x21 := e in
  mk_Event x0 x1 x2 x3 x4 x5 x6 x7 x8 x9 id resourceType x12 x13 x14 x15 x16 x17 x18 x19 x20 x21.

(* src: pkg/audit/audit.go 276-279 EventBuilder.Action *)
Definition with_Action (action : string) (e : Event) : Event :=
  let 'mk_Event x0 x1 x2 x3 x4 x5 x6 x7 x8 x9 x10 x11 _ x13 x14 x15 x16 x17 x18 x19 x20 x21 := e in
  mk_Event x0 x1 x2 x3 x4 x5 x6 x7 x8 x9 x10 x11 action x13 x14 x15 x16 x17 x18 x19 x20 x21.

(* src: pkg/audit/audit.go 282-285 EventBuilder.Description *)
Definition with_Description (desc : string) (e : Event) : Event :=
  let 'mk_Event x0 x1 x2 x3 x4 x5 x6 x7 x8 x9 x10 x11 x12 _ x14 x15 x16 x17 x18 x19 x20 x21 := e in
  mk_Event x0 x1 x2 x3 x4 x5 x6 x7 x8 x9 x10 x11 x12 desc x14 x15 x16 x17 x18 x19 x20 x21.

(* src: pkg/audit/audit.go 288-291 EventBuilder.Outcome *)
Definition with_Outcome (outcome : string) (e : Event) : Event :=
  let 'mk_Event x0 x1 x2 _ x4 x5 x6 x7 x8 x9 x10 x11 x12 x13 x14 x15 x16 x17 x18 x19 x20 x21 := e in
  mk_Event x0 x1 x2 outcome x4 x5 x6 x7 x8 x9 x10 x11 x12 x13 x14 x15 x16 x17 x18 x19 x20 x21.

(* src: pkg/audit/audit.go 294-299 EventBuilder.Error *)
Definition with_Error (code message : string) (e : Event) : Event :=
  let 'mk_Event x0 x1 x2 _ x4 x5 x6 x7 x8 x9 x10 x11 x12 x13 x14 x15 x16 x17 _ _ x20 x21 := e in
  mk_Event x0 x1 x2 "failure" x4 x5 x6 x7 x8 x9 x10 x11 x12 x13 x14 x15 x16 x17 code message x20 x21.

(* src: pkg/audit/audit.go 311-314 EventBuilder.RequestID *)
Definition with_RequestID (id : string) (e : Event) : Event :=
  let 'mk_Event x0 x1 x2 x3 x4 x5 x6 x7 x8 x9 x10 x11 x12 x13 x14 _ x16 x17 x18 x19 x20 x21 := e in
  mk_Event x0 x1 x2 x3 x4 x5 x6 x7 x8 x9 x10 x11 x12 x13 x14 id x16 x17 x18 x19 x20 x21.

(* src: pkg/audit/audit.go 317-320 EventBuilder.SessionID *)
Definition with_SessionID (id : string) (e : Event) : Event :=
  let 'mk_Event x0 x1 x2 x3 x4 x5 x6 x7 x8 x9 x10 x11 x12 x13 x14 x15 _ x17 x18 x19 x20 x21 := e in
  mk_Event x0 x1 x2 x3 x4 x5 x6 x7 x8 x9 x10 x11 x12 x13 x14 x15 id x17 x18 x19 x20 x21.

(* src: pkg/audit/audit.go 323-326 EventBuilder.CorrelationID *)
Definition with_CorrelationID (id : string) (e : Event) : Event :=
  let 'mk_Event x0 x1 x2 x3 x4 x5 x6 x7 x8 x9 x10 x11 x12 x13 x14 x15 x16 _ x18 x19 x20 x21 := e in
  mk_Event x0 x1 x2 x3 x4 x5 x6 x7 x8 x9 x10 x11 x12 x13 x14 x15 x16 id x18 x19 x20 x21.

(** Assignment to a key of a map. *)
Definition map_set (k : string) (v : Any) (m : list (string * Any)) : list (string * Any) :=
  filter (λ kv, kv.1 ≠ k) m ++ [(k, v)].

(* src: pkg/audit/audit.go 302-308 EventBuilder.Metadata *)
Definition with_Metadata (key : string) (value : Any) (e : Event) : Event :=
  set_metadata (Some (map_set key value (default [] (Metadata e)))) e.

(* src: pkg/audit/audit.go 236-246 newEventBuilder *)
Definition newEventBuilder (now : Z) (eventType : string) : Event :=
  mk_Event "" now eventType "success" "" "" "" "" "" "" "" "" "" "" None "" "" "" "" "" "" "".

(** ** The hash chain *)

(** [m[k]] *)
Fixpoint map_get (k : string) (m : list (string * Any)) : option Any :=
  match m with [] => None | (k', v) :: m => if decide (k = k') then Some v else map_get k m end.

(* src: pkg/audit/chain.go 68-82 canonicalizeMetadata *)
Definition canonicalizeMetadata (m : option (list (string * Any))) : option (list (string * Any)) :=
  match m with
  | None => None
  | Some m => Some (omap (λ k, (k,.) <$> map_get k m) (merge_sort String.le m.*1))
  end.

Lemma map_get_elem m k v : NoDup m.*1 → map_get k m = Some v ↔ (k, v) ∈ m.
Proof.
  induction m as [|[k' v'] m IH]; cbn; [split; [done|by intros ?%elem_of_nil]|]. intros [Hn Hnd]%NoDup_cons. rewrite elem_of_cons.
  destruct (decide (k = k')) as [->|Hne].
  - split; [intros [= ->]; by left|]. intros [[= ->]|Hin]; [done|]. destruct Hn. apply list_elem_of_fmap. by exists (k', v).
  - rewrite IH by done. split; [by right|]. by intros [[= ? ?]|].
Qed.

(** The order in which the metadata is ranged over does not matter. *)
Lemma canonicalize_perm m m' : NoDup m.*1 → m ≡ₚ m' → canonicalizeMetadata (Some m) = canonicalizeMetadata (Some m').
Proof.
  intros Hnd Hp. cbn. f_equal. assert (merge_sort String.le m.*1 = merge_sort String.le m'.*1) as ->.
  { apply (Sorted_unique String.le); [apply Sorted_merge_sort, _|apply Sorted_merge_sort, _|]. by rewrite !merge_sort_Permutation, Hp. }
  apply list_omap_ext. apply Forall_Forall2_diag, Forall_forall. intros k _. f_equal. apply option_eq. intros v. assert (NoDup m'.*1) by (by rewrite <- Hp).
  rewrite !map_get_elem by done. by rewrite Hp.
Qed.

(** The texts that are hashed. *)
Definition texts (e : Event) : list string :=
  [PrevHash e; Format (Timestamp e); EventType e; Outcome e; ActorID e; ActorType e; ActorIP e; ActorUserAgent e; TargetID e; TargetType e;
   ResourceID e; ResourceType e; Action e; Description e; RequestID e; SessionID e; CorrelationID e; ErrorCode e; ErrorMessage e].

(** A field with the option omitempty. *)
Definition omitempty (s : string) : option (list Z) := if decide (s = "") then None else Some (json_string s).

(** The struct that is encoded, given the text of the metadata: the event without [ID] and
    [Hash]. *)
(* src: pkg/audit/chain.go 17-59 HashEvent *)
Definition payload (e : Event) (metadata : option (list Z)) : list (string * option (list Z)) := [
  ("prev_hash", Some (json_string (PrevHash e)));
  ("timestamp", Some (json_string (Format (Timestamp e))));
  ("event_type", Some (json_string (EventType e)));
  ("outcome", Some (json_string (Outcome e)));
  ("actor_id", omitempty (ActorID e));
  ("actor_type", omitempty (ActorType e));
  ("actor_ip", omitempty (ActorIP e));
  ("actor_user_agent", omitempty (ActorUserAgent e));
  ("target_id", omitempty (TargetID e));
  ("target_type", omitempty (TargetType e));
  ("resource_id", omitempty (ResourceID e));
  ("resource_type", omitempty (ResourceType e));
  ("action", omitempty (Action e));
  ("description", omitempty (Description e));
  ("metadata", metadata);
  ("request_id", omitempty (RequestID e));
  ("session_id", omitempty (SessionID e));
  ("correlation_id", omitempty (CorrelationID e));
  ("error_code", omitempty (ErrorCode e));
  ("error_message", omitempty (ErrorMessage e))].

(** Plain text: what JSON writes as it is. *)
Definition printable (s : string) : Prop := Forall (λ a, 32 ≤ Z.of_nat (Ascii.nat_of_ascii a) ≤ 126) (String.list_ascii_of_string s).

Lemma hex_digit_printable a : (a < 16)%nat → 32 ≤ Z.of_nat (Ascii.nat_of_ascii (hex_digit a)) ≤ 126.
Proof. intros Ha. unfold hex_digit. rewrite Ascii.nat_ascii_embedding by (destruct (decide _); lia). destruct (decide _); lia. Qed.

Lemma hex_printable bs : Forall is_byte bs → printable (hex bs).
Proof.
  induction 1 as [|b bs Hb _ IH]; [constructor|]. rewrite hex_cons. unfold hex_byte, printable in *. apply nibbles in Hb. cbn.
  constructor; [apply hex_digit_printable; lia|]. constructor; [apply hex_digit_printable; lia|exact IH].
Qed.

Lemma Sum256_bytes raw : Forall is_byte (Sum256 raw).
Proof.
  unfold Sum256. generalize (blocks (length (pad raw)) H0 (pad raw)). intros l. induction l as [|z l IH]; [constructor|].
  rewrite fmap_cons. cbn [concat]. apply Forall_app. split; [|done]. unfold be32. apply Forall_fmap, Forall_forall. intros k _. cbn.
  unfold is_byte. by apply Z.mod_pos_bound.
Qed.

Lemma hex_not_genesis raw : hex (Sum256 raw) ≠ "GENESIS".
Proof.
  pose proof (Sum256_length raw) as Hl. pose proof (Sum256_bytes raw) as Hb. destruct (Sum256 raw) as [|b bs]; [done|].
  rewrite hex_cons. apply Forall_cons in Hb as [Hb%nibbles _]. unfold hex_byte. cbn. intros [= E _]. revert E. unfold hex_digit.
  intros E. apply (f_equal Ascii.nat_of_ascii) in E. rewrite Ascii.nat_ascii_embedding in E by (destruct (decide _); lia).
  revert E. change (Ascii.nat_of_ascii _) with 71%nat. destruct (decide _); lia.
Qed.

Section chain.
  Context `{Json}.

(** The metadata of the event; an empty map is omitted. *)
Definition metadata_text (m : option (list (string * Any))) : error + option (list Z) :=
  match canonicalizeMetadata m with
  | None | Some [] => inr None
  | Some m => match json_map ((λ kv, (kv.1, json_value kv.2)) <$> m) with inl err => inl err | inr v => inr (Some v) end
  end.

(** [json.Marshal(payload)] *)
Definition Marshal (e : Event) : error + list Z :=
  match metadata_text (Metadata e) with
  | inl err => inl err
  | inr md => inr (json_struct (payload e md))
  end.

(* src: pkg/audit/chain.go 16-66 HashEvent *)
Definition HashEvent (e : Event) : error + string :=
  match Marshal e with
  | inl err => inl (ErrMarshalFailed err)
  | inr raw => inr (hex (Sum256 raw))
  end.

(* src: pkg/audit/chain.go 10-11 genesisPrevHash *)
Definition genesisPrevHash : string := "GENESIS".

(* src: pkg/audit/chain.go 88-100 VerifyChain *)
Fixpoint verify_loop (i : nat) (prev : string) (events : list Event) : option error :=
  match events with
  | [] => None
  | e :: events =>
      if decide (PrevHash e ≠ prev) then Some (ErrChainBroken i "prev_hash mismatch")
      else match HashEvent e with
      | inl err => Some err
      | inr want => if decide (Hash e ≠ want) then Some (ErrChainBroken i "hash mismatch") else verify_loop (S i) (Hash e) events
      end
  end.

(* src: pkg/audit/chain.go 86-102 VerifyChain *)
Definition VerifyChain (events : list Event) : option error := verify_loop 0 genesisPrevHash events.

(** ** The store *)

(* src: pkg/audit/adapters/memory/memory.go 29-34 Store *)
Record Store := { events : list Event; hashChain : bool; lastHash : string }.

(* src: pkg/audit/adapters/memory/memory.go 50-59 NewStore *)
Definition NewStore (chain : bool) : Store :=
  {| events := []; hashChain := chain; lastHash := if chain then "GENESIS" else "" |}.

Definition set_events (es : list Event) (s : Store) : Store := {| events := es; hashChain := hashChain s; lastHash := lastHash s |}.

(** [uuid] is the identifier that uuid.NewString gives. *)
(* src: pkg/audit/adapters/memory/memory.go 67-105 Append *)
Definition Append (ctx : option error) (now : Z) (uuid : string) (event : Event) : GoM error Store unit :=
  throw_some ctx;;
  throw_if (EventType event = "") (ErrInvalidArgument "event_type is required" None);;
  let event := if decide (Timestamp event = zero_time) then set_timestamp now event else event in
  s ← get;
  if hashChain s then
    let event := if decide (ID event = "") then set_id uuid event else event in
    let event := set_prev (lastHash s) event in
    h ← lift (HashEvent event);
    let event := set_hash h event in
    put {| events := events s ++ [event]; hashChain := hashChain s; lastHash := h |}
  else put (set_events (events s ++ [event]) s).

(* src: pkg/audit/audit.go 18-33 QueryFilter *)
Record QueryFilter := { f_ActorID : string; f_EventType : string; f_Since : Z; f_Until : Z; f_Limit : Z }.

(* src: pkg/audit/adapters/memory/memory.go 132-146 matchFilter *)
Definition matchFilter (e : Event) (f : QueryFilter) : bool :=
  if decide (f_ActorID f ≠ "" ∧ ActorID e ≠ f_ActorID f) then false
  else if decide (f_EventType f ≠ "" ∧ EventType e ≠ f_EventType f) then false
  else if decide (f_Since f ≠ zero_time ∧ Timestamp e < f_Since f) then false
  else if decide (f_Until f ≠ zero_time ∧ f_Until f < Timestamp e) then false
  else true.

(* src: pkg/audit/adapters/memory/memory.go 120-128 Query *)
Fixpoint query_loop (f : QueryFilter) (es out : list Event) : list Event :=
  match es with
  | [] => out
  | e :: es =>
      if negb (matchFilter e f) then query_loop f es out
      else
        let out := out ++ [e] in
        if decide (0 < f_Limit f ∧ f_Limit f ≤ Z.of_nat (length out)) then out else query_loop f es out
  end.

(* src: pkg/audit/adapters/memory/memory.go 108-130 Query *)
Definition Query (ctx : option error) (f : QueryFilter) : GoM error Store (list Event) :=
  throw_some ctx;;
  throw_if (f_Limit f < 0) (ErrInvalidArgument "limit must be >= 0" None);;
  s ← get;
  mret (query_loop f (events s) []).

(** The loop of [Purge] and [EraseByActor]: the events kept and the number removed. *)
(* src: pkg/audit/adapters/memory/memory.go 160-168 Purge *)
Fixpoint keep_loop (drop : Event → bool) (es : list Event) (removed : Z) : list Event * Z :=
  match es with
  | [] => ([], removed)
  | e :: es =>
      if drop e then keep_loop drop es (i64 (removed + 1))
      else let '(kept, removed) := keep_loop drop es removed in (e :: kept, removed)
  end.

(* src: pkg/audit/adapters/memory/memory.go 149-171 Purge *)
Definition Purge (ctx : option error) (olderThan : Z) : GoM error Store Z :=
  throw_some ctx;;
  throw_if (olderThan = zero_time) (ErrInvalidArgument "olderThan is required" None);;
  s ← get;
  let '(kept, removed) := keep_loop (λ e, bool_decide (Timestamp e < olderThan)) (events s) 0 in
  put (set_events kept s);; mret removed.

(* src: pkg/audit/adapters/memory/memory.go 174-182 ExportByActor *)
Definition ExportByActor (ctx : option error) (actorID : string) : GoM error Store (list Event) :=
  throw_some ctx;;
  throw_if (actorID = "") (ErrInvalidArgument "actorID is required" None);;
  Query ctx {| f_ActorID := actorID; f_EventType := ""; f_Since := zero_time; f_Until := zero_time; f_Limit := 0 |}.

(* src: pkg/audit/adapters/memory/memory.go 185-207 EraseByActor *)
Definition EraseByActor (ctx : option error) (actorID : string) : GoM error Store Z :=
  throw_some ctx;;
  throw_if (actorID = "") (ErrInvalidArgument "actorID is required" None);;
  s ← get;
  let '(kept, removed) := keep_loop (λ e, bool_decide (ActorID e = actorID)) (events s) 0 in
  put (set_events kept s);; mret removed.

(* src: pkg/audit/adapters/memory/memory.go 210-214 Len *)
Definition Len (s : Store) : Z := Z.of_nat (length (events s)).

(* src: pkg/audit/adapters/memory/memory.go 217-224 LastHash *)
Definition LastHash (s : Store) : string := if hashChain s then lastHash s else "".

(** *** Queries and removals *)

Lemma query_loop_filter f es : ∀ out, f_Limit f = 0 → query_loop f es out = out ++ filter (λ e, matchFilter e f) es.
Proof.
  induction es as [|e es IH]; intros out Hl; cbn [query_loop]; [by rewrite app_nil_r|].
  destruct (matchFilter e f) eqn:E; cbn [negb].
  - rewrite decide_False by lia. rewrite IH, filter_cons_True by (rewrite ?E; done || tauto). by rewrite <- app_assoc.
  - rewrite IH, filter_cons_False by (rewrite ?E; done || tauto). done.
Qed.

Lemma query_loop_limit f es : ∀ out, Z.of_nat (length out) < f_Limit f →
  query_loop f es out = out ++ take (Z.to_nat (f_Limit f) - length out) (filter (λ e, matchFilter e f) es).
Proof.
  induction es as [|e es IH]; intros out Hl; cbn [query_loop]; [by rewrite filter_nil, take_nil, app_nil_r|].
  destruct (matchFilter e f) eqn:E; cbn [negb].
  - rewrite filter_cons_True by (by rewrite E). destruct (Z.to_nat (f_Limit f) - length out)%nat as [|k] eqn:Ek; [lia|]. cbn [take].
    destruct (decide _) as [[_ Hd]|Hd]; rewrite length_app in Hd; cbn in Hd.
    + assert (k = 0%nat) as -> by lia. by rewrite take_0.
    + rewrite IH by (rewrite length_app; cbn; lia). rewrite length_app. cbn.
      replace (Z.to_nat (f_Limit f) - (length out + 1))%nat with k by lia. by rewrite <- app_assoc.
  - rewrite IH, filter_cons_False by (rewrite ?E; done || tauto). done.
Qed.

Lemma keep_loop_spec drop es : ∀ removed, 0 ≤ removed → removed + Z.of_nat (length es) < 2 ^ 63 →
  keep_loop drop es removed = (filter (λ e, negb (drop e)) es, removed + Z.of_nat (length es) - Z.of_nat (length (filter (λ e, negb (drop e)) es))).
Proof.
  induction es as [|e es IH]; intros r Hr Hl; cbn [keep_loop length]; [by rewrite filter_nil; cbn; f_equal; lia|]. cbn [length] in Hl.
  destruct (drop e) eqn:E.
  - rewrite i64_id by (unfold is_i64; lia). rewrite IH, filter_cons_False by (rewrite ?E; done || tauto || lia). f_equal. lia.
  - rewrite IH, filter_cons_True by (rewrite ?E; done || tauto || lia). cbn. f_equal. lia.
Qed.

(** [Query] returns the first [Limit] matching events, all of them for the limit 0;
    [EraseByActor] and [Purge] remove exactly the events they are asked to, and count them. *)
Theorem audit_query_and_erase (s : Store) (f : QueryFilter) (actor : string) (t : Z) :
  0 ≤ f_Limit f → actor ≠ "" → t ≠ zero_time → Z.of_nat (length (events s)) < 2 ^ 63 →
  let matches := filter (λ e, matchFilter e f) (events s) in
  let others := filter (λ e, ActorID e ≠ actor) (events s) in
  let recent := filter (λ e, t ≤ Timestamp e) (events s) in
  Query None f s = (inr (if decide (f_Limit f = 0) then matches else take (Z.to_nat (f_Limit f)) matches), s) ∧
  EraseByActor None actor s = (inr (Z.of_nat (length (events s)) - Z.of_nat (length others)), set_events others s) ∧
  Purge None t s = (inr (Z.of_nat (length (events s)) - Z.of_nat (length recent)), set_events recent s).
Proof.
  intros Hl Ha Ht Hlen matches others recent. split_and!.
  - unfold Query. go_run. rewrite decide_False by lia. f_equal. f_equal. destruct (decide (f_Limit f = 0)) as [E|E]; [by apply query_loop_filter|].
    rewrite query_loop_limit by (cbn; lia). cbn. by rewrite Nat.sub_0_r.
  - unfold EraseByActor. go_run. rewrite decide_False by done. rewrite keep_loop_spec by lia. cbn.
    assert (filter (λ e, negb (bool_decide (ActorID e = actor))) (events s) = others) as ->; [|done].
    apply list_filter_iff. intros e. rewrite negb_True, bool_decide_spec. done.
  - unfold Purge. go_run. rewrite decide_False by done. rewrite keep_loop_spec by lia. cbn.
    assert (filter (λ e, negb (bool_decide (Timestamp e < t))) (events s) = recent) as ->; [|done].
    apply list_filter_iff. intros e. rewrite negb_True, bool_decide_spec. lia.
Qed.

(** *** The chain *)

Definition tip (prev : string) (es : list Event) : string := match last es with Some e => Hash e | None => prev end.

Lemma verify_loop_snoc es e : ∀ i prev, verify_loop i prev (es ++ [e]) = None ↔
  verify_loop i prev es = None ∧ PrevHash e = tip prev es ∧ HashEvent e = inr (Hash e).
Proof.
  unfold tip. induction es as [|e' es IH]; intros i prev; cbn [app verify_loop].
  - cbn. destruct (decide (PrevHash e ≠ prev)) as [n|n%dec_stable]; [split; [done|by intros (_ & ? & _)]|].
    destruct (HashEvent e) as [err|w]; [split; [done|by intros (_ & _ & ?)]|].
    destruct (decide (Hash e ≠ w)) as [n'|n'%dec_stable]; [split; [done|]; intros (_ & _ & [= E]); congruence|].
    split; [|done]. intros _. split_and!; congruence.
  - rewrite last_cons. destruct (decide _); [by split; [|intros [? _]]|]. destruct (HashEvent e') as [|w]; [by split; [|intros [? _]]|].
    destruct (decide (Hash e' ≠ w)); [by split; [|intros [? _]]|].
    rewrite IH. by destruct (last es).
Qed.

Lemma Marshal_set_hash h e : Marshal (set_hash h e) = Marshal e.
Proof. by destruct e. Qed.

Lemma Append_chain ctx now uuid ev s :
  hashChain s = true → VerifyChain (events s) = None → lastHash s = tip genesisPrevHash (events s) →
  let s' := exec (Append ctx now uuid ev) s in
  hashChain s' = true ∧ VerifyChain (events s') = None ∧ lastHash s' = tip genesisPrevHash (events s') ∧
  (events s' = events s ∨ ∃ e, events s' = events s ++ [e] ∧ outcome (Append ctx now uuid ev) s = inr ()).
Proof.
  intros Hc Hv Hl. unfold Append. go_run. destruct ctx; [by split_and!; try left|]. destruct (decide _); [by split_and!; try left|].
  rewrite Hc. set (e1 := if decide (Timestamp ev = zero_time) then _ else _). set (e2 := if decide (ID e1 = "") then _ else _).
  set (e3 := set_prev (lastHash s) e2). destruct (HashEvent e3) as [|h] eqn:Eh; cbn; [by split_and!; try left|].
  assert (HashEvent (set_hash h e3) = inr (Hash (set_hash h e3))) as Hh.
  { unfold HashEvent in *. rewrite Marshal_set_hash. rewrite Eh. by destruct e3. }
  split_and!; [done| | |right; eauto].
  - apply verify_loop_snoc. split_and!; [done| |done]. rewrite <- Hl. unfold e3. by destruct e2.
  - unfold tip. rewrite last_snoc. by destruct e3.
Qed.

Lemma tip_printable prev es : printable prev → verify_loop 0 prev es = None → printable (tip prev es).
Proof.
  intros Hp. destruct es as [|e es _] using rev_ind; [done|]. intros (_ & _ & Hh)%verify_loop_snoc. unfold tip. rewrite last_snoc.
  unfold HashEvent in Hh. destruct (Marshal _) as [|raw]; [done|]. injection Hh as <-. apply hex_printable, Sum256_bytes.
Qed.

Lemma chain_empty es : VerifyChain es = None → tip genesisPrevHash es = genesisPrevHash → es = [].
Proof.
  destruct es as [|e es _] using rev_ind; [done|]. intros (_ & _ & Hh)%verify_loop_snoc. unfold tip. rewrite last_snoc. intros E.
  unfold HashEvent in Hh. destruct (Marshal _) as [|raw]; [done|]. injection Hh as Hh. rewrite E in Hh. by apply hex_not_genesis in Hh.
Qed.

(** *** What the bytes tell *)

(** The same texts, up to bytes that are not UTF-8, and the same metadata in JSON. *)
Definition same_event (e e' : Event) : Prop :=
  runes <$> texts e = runes <$> texts e' ∧ metadata_text (Metadata e) = metadata_text (Metadata e').

(** Different encodings of events of the two logs with one digest. *)
Definition collide (es es' : list Event) : Prop := ∃ e e' raw raw', e ∈ es ∧ e' ∈ es' ∧
  Marshal e = inr raw ∧ Marshal e' = inr raw' ∧ raw ≠ raw' ∧ Sum256 raw = Sum256 raw'.

Lemma collide_app es es' l l' : collide es es' → collide (es ++ l) (es' ++ l').
Proof. intros (e & e' & raw & raw' & He & He' & Hc). exists e, e', raw, raw'. split_and!; [apply elem_of_app; by left|apply elem_of_app; by left|apply Hc..]. Qed.

Lemma omitempty_inj s t : omitempty s = omitempty t → runes s = runes t.
Proof.
  unfold omitempty. destruct (decide (s = "")) as [->|], (decide (t = "")) as [->|]; try done. intros [= E].
  apply (json_string_prefix s t [] []). unfold json_string. by rewrite E.
Qed.

Lemma json_string_runes s t : json_string s = json_string t → runes s = runes t.
Proof. intros E. apply (json_string_prefix s t [] []). by rewrite E. Qed.

Lemma payload_closed (Hleaf : leaves_closed) e md : metadata_text (Metadata e) = inr md → ∀ k v, (k, Some v) ∈ payload e md → closed v.
Proof.
  intros Hmd k v Hin. assert (∀ s, Some v = omitempty s → closed v) as Ho. { unfold omitempty. intros s. destruct (decide _); [done|]. intros [= ->]. apply json_string_closed. }
  assert (Some v = md → closed v) as Hm.
  { intros <-. unfold metadata_text in Hmd. destruct (canonicalizeMetadata (Metadata e)) as [[|kv m]|]; [done| |done]. destruct (json_map _) as [|w] eqn:E; [done|]. injection Hmd as ->.
    eapply json_map_closed; [exact E|]. intros k' x ([k'' a] & E' & _)%list_elem_of_fmap. injection E' as -> E'. symmetry in E'. by eapply json_value_closed. }
  unfold payload in Hin. repeat (apply elem_of_cons in Hin as [[_ E]%pair_equal_spec|Hin]; [first [by apply Hm|by eapply Ho|apply (inj Some) in E as ->; apply json_string_closed]|]). by apply elem_of_nil in Hin.
Qed.

Lemma Marshal_inj (Hleaf : leaves_closed) e e' raw : Marshal e = inr raw → Marshal e' = inr raw → same_event e e'.
Proof.
  unfold Marshal, same_event. destruct (metadata_text (Metadata e)) as [|md] eqn:Em; [done|]. destruct (metadata_text (Metadata e')) as [|md'] eqn:Em'; [done|].
  intros E1 E. rewrite <- E1 in E. apply (inj inr) in E. symmetry in E. apply json_struct_inj in E; [|done| |by apply payload_closed|by apply payload_closed].
  2: { apply (bool_decide_unpack _). vm_compute. exact I. }
  unfold payload in E. repeat apply (inj2 cons) in E as [[_ ?]%pair_equal_spec E]. split; [|match goal with H : md = md' |- _ => by rewrite H end]. unfold texts.
  repeat (rewrite fmap_cons; apply (f_equal2 cons);
    [match goal with
     | H : omitempty ?s = omitempty ?t |- runes ?s = runes ?t => exact (omitempty_inj s t H)
     | H : Some (json_string ?s) = Some (json_string ?t) |- runes ?s = runes ?t => exact (json_string_runes s t (inj Some _ _ H))
     end|]). reflexivity.
Qed.

Lemma bytes_inj : Inj (=) (=) bytes.
Proof.
  intros s t E. unfold bytes in E. apply list_fmap_eq_inj in E.
  - by rewrite <- (String.string_of_list_ascii_of_string s), E, String.string_of_list_ascii_of_string.
  - intros a b Hab. apply N2Z.inj in Hab. by rewrite <- (Ascii.ascii_N_embedding a), Hab, Ascii.ascii_N_embedding.
Qed.

Lemma runes_printable s : printable s → runes s = bytes s.
Proof.
  intros Hs. unfold runes. rewrite scan_ascii.
  - generalize (bytes s). intros l. induction l as [|b l IH]; cbn; [done|]. f_equal. exact IH.
  - unfold bytes, printable in *. apply Forall_fmap. eapply Forall_impl; [exact Hs|]. cbn. unfold Ascii.nat_of_ascii. intros a. lia.
Qed.

Lemma chain_unique (Hleaf : leaves_closed) es : ∀ es', VerifyChain es = None → VerifyChain es' = None →
  tip genesisPrevHash es = tip genesisPrevHash es' → Forall2 same_event es es' ∨ collide es es'.
Proof.
  assert (printable genesisPrevHash) as Hg by (repeat constructor; vm_compute; congruence).
  induction es as [|e es IH] using rev_ind; intros es' Hv Hv' Ht.
  { rewrite (chain_empty es' Hv'); [left; constructor|done]. }
  destruct es' as [|e' es' _] using rev_ind. { by rewrite (chain_empty (es ++ [e])) by done; left. }
  apply verify_loop_snoc in Hv as (Hv & Hp & Hh). apply verify_loop_snoc in Hv' as (Hv' & Hp' & Hh'). unfold tip in Ht. rewrite !last_snoc in Ht.
  unfold HashEvent in Hh, Hh'. destruct (Marshal e) as [|raw] eqn:Er; [done|]. destruct (Marshal e') as [|raw'] eqn:Er'; [done|].
  apply (inj inr) in Hh, Hh'. rewrite <- Hh, <- Hh' in Ht. apply hex_inj in Ht; [|apply Sum256_bytes|apply Sum256_bytes].
  destruct (decide (raw = raw')) as [<-|Hne].
  2: { right. exists e, e', raw, raw'. split_and!; [by apply elem_of_app; right; left|by apply elem_of_app; right; left|done..]. }
  pose proof (Marshal_inj Hleaf e e' raw Er Er') as Hsame.
  assert (PrevHash e = PrevHash e') as Epe.
  { apply bytes_inj. rewrite <- !runes_printable by (rewrite ?Hp, ?Hp'; by apply tip_printable). destruct Hsame as [Hs _]. by apply (inj2 cons) in Hs as [? _]. }
  destruct (IH es' Hv Hv') as [IH'|Hc]; [congruence| |right; by apply collide_app]. left. apply Forall2_app; [done|]. by constructor.
Qed.

Inductive audit_call := CallAppend (ctx : option error) (now : Z) (uuid : string) (ev : Event).
Definition audit_exec (s : Store) (c : audit_call) : Store :=
  let 'CallAppend ctx now uuid ev := c in exec (Append ctx now uuid ev) s.

Lemma appends_chain cs : let s := foldl audit_exec (NewStore true) cs in
  hashChain s = true ∧ VerifyChain (events s) = None ∧ lastHash s = tip genesisPrevHash (events s).
Proof.
  induction cs as [|[ctx now uuid ev] cs (H1 & H2 & H3)] using rev_ind; [done|]. rewrite foldl_snoc. cbn [audit_exec].
  by destruct (Append_chain ctx now uuid ev _ H1 H2 H3) as (? & ? & ? & _).
Qed.

(** C10. The log is tamper-evident.  After any calls of [Append] on a chained store the events
    verify; and any list of events that verifies and ends in the store's [LastHash] has as many
    events, and each is the one stored in every text up to bytes that are not UTF-8, in its
    timestamp in the years 0 to 9999, and in its metadata as JSON; or the encoding of one of its
    events and that of a stored one are different and have the same SHA-256 digest.
    [leaves_closed]: the metadata values of foreign types are written as one JSON value. *)
Theorem audit_chain_tamper_evident (cs : list audit_call) :
  leaves_closed → let s := foldl audit_exec (NewStore true) cs in
  VerifyChain (events s) = None ∧
  ∀ es', VerifyChain es' = None → tip genesisPrevHash es' = LastHash s →
    Forall2 (λ e e', same_event e e' ∧ (four_digits (Timestamp e) → four_digits (Timestamp e') → Timestamp e = Timestamp e')) (events s) es' ∨
    collide (events s) es'.
Proof.
  intros Hleaf s. destruct (appends_chain cs) as (H1 & H2 & H3). fold s in H1, H2, H3. split; [done|].
  intros es' Hv Ht. destruct (chain_unique Hleaf (events s) es' H2 Hv) as [Hall|Hc]; [| |by right].
  - rewrite Ht. unfold LastHash. by rewrite H1.
  - left. eapply Forall2_impl; [exact Hall|]. intros e e' Hs. split; [done|]. intros F F'. apply Format_inj; [done|done|].
    destruct Hs as [Hs _]. by apply (inj2 cons) in Hs as [_ [? _]%(inj2 cons)].
Qed.

(** What [Purge] leaves of a chain does not verify: once an event in front of it is gone, the
    rest does not start at the genesis hash. *)
Theorem audit_purge_breaks_chain (removed kept : list Event) :
  VerifyChain (removed ++ kept) = None → removed ≠ [] → kept ≠ [] →
  VerifyChain kept = Some (ErrChainBroken 0 "prev_hash mismatch").
Proof.
  intros Hv Hr. destruct kept as [|e kept]; [done|]. intros _. unfold VerifyChain. cbn [verify_loop].
  assert (verify_loop 0 genesisPrevHash (removed ++ [e]) = None) as He.
  { revert Hv. replace (removed ++ e :: kept) with ((removed ++ [e]) ++ kept) by (by rewrite <- app_assoc). generalize (removed ++ [e]). intros l. unfold VerifyChain.
    induction kept as [|k kept IHk] using rev_ind; [by rewrite app_nil_r|]. rewrite app_assoc. intros (H1 & _)%verify_loop_snoc. by apply IHk. }
  apply verify_loop_snoc in He as (He & Hp & _). rewrite decide_True; [done|]. rewrite Hp. intros E. by apply Hr, chain_empty.
Qed.
End chain.

(** *** Numbers of other types *)

#[local] Instance numbers : Json := λ a, match a with AOther _ x => inr (bytes (pretty x)) | _ => inl (ErrAppendFailed "" None) end.

Lemma numbers_closed : leaves_closed (H := numbers).
Proof. intros [] v E; try done. apply (inj inr) in E as <-. apply pretty_closed. Qed.

Lemma audit_chain_tamper_evident_witness :
  let ev t := with_Metadata "n" (AOther 7 42) (newEventBuilder 5 t) in let s := foldl audit_exec (NewStore true) [CallAppend None 5 "u1" (ev "auth.login"); CallAppend None 6 "u2" (ev "auth.logout")] in
  length (events s) = 2%nat ∧ VerifyChain (events s) = None.
Proof.
  intros ev s. split; [vm_compute; reflexivity|].
  apply (audit_chain_tamper_evident [CallAppend None 5 "u1" (ev "auth.login"); CallAppend None 6 "u2" (ev "auth.logout")] numbers_closed).
Defined.

(** Bytes that are not UTF-8 are not protected: events that differ in them hash alike. *)
Theorem audit_invalid_text_not_protected `{Json} (e : Event) : let byte n := String (Ascii.ascii_of_N n) "" in
  HashEvent (with_Actor (byte 254%N) "user" e) = HashEvent (with_Actor (byte 255%N) "user" e) ∧ byte 254%N ≠ byte 255%N.
Proof. by destruct e. Qed.

(** ** Redaction *)

(** [regexp.Compile] and [ReplaceAllString]: a pattern compiles to the function that replaces its
    matches in a text by a mask. *)
Class Regexp := Compile : string → error + (string → string → string).

(* src: pkg/audit/redact.go 14-18 redactionPattern *)
Record redactionPattern := { name : string; pattern : string → string → string; mask : string }.

(* src: pkg/audit/redact.go 9-12 Redactor *)
Record Redactor := { patterns : list redactionPattern; replacement : string }.

(* src: pkg/audit/redact.go 48-75 NewRedactor *)
Definition defaultPatterns : list (string * string) := [
  ("credit_card", "\b(?:\d{4}[-\s]?){3}\d{4}\b");
  ("ssn", "\b\d{3}-\d{2}-\d{4}\b");
  ("email", "\b[a-zA-Z0-9._%+-]+@[a-zA-Z0-9.-]+\.[a-zA-Z]{2,}\b");
  ("phone", "\b(?:\+?1[-.\s]?)?\(?[0-9]{3}\)?[-.\s]?[0-9]{3}[-.\s]?[0-9]{4}\b");
  ("api_key", "\b(?:sk|pk|api|key|token|secret)[_-]?[a-zA-Z0-9]{20,}\b");
  ("aws_key", "\bAKIA[0-9A-Z]{16}\b");
  ("jwt", "\beyJ[a-zA-Z0-9_-]*\.eyJ[a-zA-Z0-9_-]*\.[a-zA-Z0-9_-]*\b");
  ("ipv4", "\b(?:\d{1,3}\.){3}\d{1,3}\b");
  ("password_url", "(?i)(?:password|passwd|pwd|secret|token)=([^&\s]+)")].

(* src: pkg/audit/redact.go 172-188 SensitiveFields *)
Definition SensitiveFields : list string :=
  ["password"; "passwd"; "secret"; "token"; "api_key"; "apikey"; "access_token"; "refresh_token"; "authorization";
   "credit_card"; "card_number"; "cvv"; "ssn"; "social_security"; "private_key"].

(* src: pkg/audit/redact.go 191-199 IsSensitiveField *)
Definition IsSensitiveField (name : string) : bool :=
  let lower := ToLower name in existsb (λ sensitive, Contains lower sensitive) SensitiveFields.
Arguments IsSensitiveField : simpl never.

Section redact.
  Context `{Regexp}.

(* src: pkg/audit/redact.go 96-112 AddPattern *)
Definition AddPattern (nm pat msk : string) (r : Redactor) : option error * Redactor :=
  match Compile pat with
  | inl err => (Some err, r)
  | inr compiled =>
      let msk := if decide (msk = "") then replacement r else msk in
      (None, {| patterns := patterns r ++ [ {| name := nm; pattern := compiled; mask := msk |} ]; replacement := replacement r |})
  end.

(** The maps of patterns are ranged over in the orders [defaults] and [custom]. *)
(* src: pkg/audit/redact.go 37-93 NewRedactor *)
Definition NewRedactor (repl : string) (defaults custom : list (string * string)) : Redactor :=
  let repl := if decide (repl = "") then "[REDACTED]" else repl in
  let add r kv := (AddPattern kv.1 kv.2 "" r).2 in
  foldl add (foldl add {| patterns := []; replacement := repl |} defaults) custom.

(* src: pkg/audit/redact.go 115-121 Redact *)
Definition Redact (r : Redactor) (input : string) : string :=
  foldl (λ result p, pattern p result (mask p)) input (patterns r).

(* src: pkg/audit/redact.go 138-153 redactValue *)
Fixpoint redactValue (r : Redactor) (v : Any) : Any :=
  match v with
  | AString s => AString (Redact r s)
  | AMap m => AMap (map (λ kv, (kv.1, if IsSensitiveField kv.1 then AString (replacement r) else redactValue r kv.2)) m)
  | AList l => AList (map (redactValue r) l)
  | v => v
  end.

(* src: pkg/audit/redact.go 126-136 RedactMap *)
Definition RedactMap (r : Redactor) (data : list (string * Any)) : list (string * Any) :=
  map (λ kv, (kv.1, if IsSensitiveField kv.1 then AString (replacement r) else redactValue r kv.2)) data.

(* src: pkg/audit/redact.go 156-169 RedactEvent *)
Definition RedactEvent (r : Redactor) (e : Event) : Event :=
  let e := with_ActorIP (Redact r (ActorIP e)) e in
  let e := set_agent (Redact r (ActorUserAgent e)) e in
  let e := with_Description (Redact r (Description e)) e in
  let e := set_error_message (Redact r (ErrorMessage e)) e in
  match Metadata e with Some m => set_metadata (Some (RedactMap r m)) e | None => e end.

(** A value in which every sensitive key, at any depth, has the replacement, and every string
    has gone through the patterns. *)
Inductive redacted (r : Redactor) : Any → Prop :=
  | red_string s : redacted r (AString (Redact r s))
  | red_map m : Forall (λ kv, IsSensitiveField kv.1 ∧ kv.2 = AString (replacement r) ∨ ¬ IsSensitiveField kv.1 ∧ redacted r kv.2) m → redacted r (AMap m)
  | red_list l : Forall (redacted r) l → redacted r (AList l)
  | red_other v : (∀ s, v ≠ AString s) → (∀ m, v ≠ AMap m) → (∀ l, v ≠ AList l) → redacted r v.

(** Redaction reaches every depth, and keeps the keys. *)
Theorem redaction_complete (r : Redactor) (data : list (string * Any)) :
  redacted r (AMap (RedactMap r data)) ∧ (RedactMap r data).*1 = data.*1.
Proof.
  assert (∀ v, redacted r (redactValue r v)) as Hv.
  { fix IH 1. intros [| | | | | | | |l|m|]; cbn; try (by apply red_other); [apply red_string| |].
    - apply red_list. induction l as [|x l IHl]; cbn; constructor; [apply IH|exact IHl].
    - apply red_map. induction m as [|[k x] m IHm]; cbn; constructor; [|exact IHm]. cbn. destruct (IsSensitiveField k); [left; by split|right; split; [tauto|apply IH]]. }
  split.
  - apply red_map. unfold RedactMap. induction data as [|[k x] m IHm]; cbn; constructor; [|exact IHm]. cbn. destruct (IsSensitiveField k); [left; by split|by right; split; [tauto|]].
  - unfold RedactMap. induction data as [|[k x] m IHm]; [done|]. cbn. by f_equal.
Qed.

(** A slice of strings is none of the cases of [redactValue]: it is logged as it is. *)
Theorem redaction_skips_string_slices (r : Redactor) (l : list string) :
  RedactMap r [("emails", AStrings l)] = [("emails", AStrings l)].
Proof. reflexivity. Qed.

(** ** The client *)

(* src: pkg/audit/audit.go 92-105 New *)
Definition client_redactor (repl : string) (defaults custom : list (string * string)) : Redactor :=
  if decide (repl ≠ "" ∨ custom ≠ []) then NewRedactor repl defaults custom else NewRedactor "[REDACTED]" defaults [].

(** [if err := m(); err != nil { return f(err) }] *)
Definition on_error {S A} (f : error → error) (m : GoM error S A) : GoM error S A := λ s,
  match m s with (inl err, s) => (inl (f err), s) | r => r end.

(** [append] is the Append of the client's store, which is not nil. *)
(* src: pkg/audit/audit.go 108-131 Log *)
Definition Log {S} (append : option error → Event → GoM error S unit) (enabled : bool) (redactor : option Redactor)
    (ctx : option error) (now : Z) (event : Event) : GoM error S unit :=
  if negb enabled then mret tt else
  throw_some ctx;;
  let event := if decide (Timestamp event = zero_time) then set_timestamp now event else event in
  let event := match redactor with Some r => RedactEvent r event | None => event end in
  on_error (λ err, ErrAppendFailed "" (Some err)) (append ctx event).
End redact.

(** ** Masks *)

Fixpoint repeat_star (n : nat) : string := match n with O => "" | S n => "*" +:+ repeat_star n end.

(** [s[lo:hi]], which panics outside of the string. *)
Definition slice (lo hi : Z) (s : string) : option string :=
  if decide (0 ≤ lo ≤ hi ∧ hi ≤ Z.of_nat (String.length s)) then Some (String.substring (Z.to_nat lo) (Z.to_nat (hi - lo)) s) else None.

(* src: pkg/audit/redact.go 202-207 MaskString *)
Definition MaskString (s : string) (showFirst showLast : Z) : option string :=
  let len := Z.of_nat (String.length s) in
  if decide (len ≤ i64 (showFirst + showLast)) then Some (repeat_star (String.length s))
  else
    a ← slice 0 showFirst s;
    let n := i64 (i64 (len - showFirst) - showLast) in
    m ← (if decide (n < 0) then None else Some (repeat_star (Z.to_nat n)));
    b ← slice (i64 (len - showLast)) len s;
    Some (a +:+ m +:+ b).

(** [strings.Split] by one byte. *)
Fixpoint split_at (c : Ascii.ascii) (s : string) : string * list string :=
  match s with
  | EmptyString => ("", [])
  | String a s => let '(t, r) := split_at c s in if decide (a = c) then ("", t :: r) else (String a t, r)
  end.

(* src: pkg/audit/redact.go 210-221 MaskEmail *)
Definition MaskEmail (email : string) : option string :=
  match split_at (Ascii.ascii_of_nat 64) email with
  | (local, [domain]) =>
      let n := Z.of_nat (String.length local) in
      if decide (n ≤ 2) then Some ("*@" +:+ domain)
      else a ← slice 0 1 local; b ← slice (n - 1) n local; Some (a +:+ repeat_star (Z.to_nat (n - 2)) +:+ b +:+ "@" +:+ domain)
  | _ => Some "[INVALID_EMAIL]"
  end.

(* src: pkg/audit/redact.go 224-231 MaskCreditCard *)
Definition MaskCreditCard (cc : string) : option string :=
  let cleaned := replace_from 0 (replace_from 0 cc " " "") "-" "" in
  let n := Z.of_nat (String.length cleaned) in
  if decide (n < 4) then Some "[INVALID_CC]"
  else b ← slice (n - 4) n cleaned; Some (repeat_star (Z.to_nat (n - 4)) +:+ b).

Example masks : (MaskString "4242424242424242" 2 4, MaskEmail "alice@example.com", MaskEmail "al@example.com", MaskCreditCard "4242-4242 42424242")
  = (Some "42**********4242", Some "a***e@example.com", Some "*@example.com", Some "************4242").
Proof. vm_compute. reflexivity. Qed.

Lemma string_app_length s t : String.length (s +:+ t) = (String.length s + String.length t)%nat.
Proof. induction s as [|a s IH]; [done|]. change (S (String.length (s +:+ t)) = S (String.length s + String.length t)). by rewrite IH. Qed.
Lemma repeat_star_length n : String.length (repeat_star n) = n.
Proof. induction n as [|n IH]; [done|]. cbn [repeat_star]. by rewrite string_app_length, IH. Qed.
Lemma substring_length s : ∀ i n, (i + n ≤ String.length s)%nat → String.length (String.substring i n s) = n.
Proof.
  induction s as [|a s IH]; intros [|i] [|n] Hl; cbn in *; try lia; try done.
  - f_equal. by apply (IH 0%nat n); lia.
  - apply IH. lia.
  - apply IH. lia.
Qed.

(** For counts that are not negative [MaskString] does not panic and keeps the length, and all
    but the [showFirst] first and [showLast] last bytes are stars. *)
Theorem MaskString_spec (s : string) (f l : Z) :
  0 ≤ f < 2 ^ 62 → 0 ≤ l < 2 ^ 62 → Z.of_nat (String.length s) < 2 ^ 63 →
  ∃ t, MaskString s f l = Some t ∧ String.length t = String.length s ∧
    (Z.of_nat (String.length s) ≤ f + l ∧ t = repeat_star (String.length s) ∨
     ∃ a b, String.length a = Z.to_nat f ∧ String.length b = Z.to_nat l ∧ t = a +:+ repeat_star (Z.to_nat (Z.of_nat (String.length s) - f - l)) +:+ b).
Proof.
  intros Hf Hl Hs. unfold MaskString. rewrite (i64_id (f + l)) by (unfold is_i64; lia). destruct (decide _) as [Hd|Hd].
  { eexists. split; [reflexivity|]. rewrite repeat_star_length. split; [done|]. by left. }
  set (len := Z.of_nat (String.length s)) in *. rewrite (i64_id (len - f)), (i64_id (len - f - l)), (i64_id (len - l)) by (unfold is_i64; lia).
  unfold slice. fold len. rewrite (decide_True (P := 0 ≤ 0 ≤ f ∧ f ≤ len)) by lia. rewrite (decide_False (P := len - f - l < 0)) by lia.
  rewrite (decide_True (P := 0 ≤ len - l ≤ len ∧ len ≤ len)) by lia. cbn [mbind option_bind]. eexists. split; [reflexivity|].
  rewrite !string_app_length, repeat_star_length, !substring_length by lia. split; [lia|]. right. eexists _, _. split_and!; [| |reflexivity]; rewrite substring_length; lia.
Qed.
