(* ===== verification/Broker.v ===== *)
(** * pkg/messaging, the in-memory broker

    Topics with one channel per consumer group.  Channels are a heap, since consumers keep the
    one they were given; a message is shared by reference and read only.  The stretches that
    run under a lock are definitions of their own; [system] interleaves them with the sends of
    publishers, which hold the read lock of their topic while they fan out.  A panic is
    explicit.  Map iteration orders, generated identifiers and the choices of [select] are
    arguments. *)

From S2P Require Import Prelude Errors.
From stdpp Require Import relations options.
Open Scope Z_scope.

(* src: pkg/messaging/errors.go 45-47 ErrTimeout *)
Definition ErrTimeout (operation : string) (err : option error) : error :=
  New "MESSAGING_TIMEOUT" ("messaging operation timed out: " +:+ operation) err.
(* src: pkg/messaging/errors.go 50-52 ErrClosed *)
Definition ErrClosed : error := New "MESSAGING_CLOSED" "broker connection is closed" None.
(* src: pkg/messaging/errors.go 75-77 ErrQueueFull *)
Definition ErrQueueFull : error := New "MESSAGING_QUEUE_FULL" "producer queue is full" None.

(* src: pkg/messaging/messaging.go 11-36 Message *)
Record Message := {
  ID : string; Topic : string; Key : list Z; Payload : list Z; Headers : gmap string string; Timestamp : Z }.

(** What [Publish] fills in. *)
(* src: pkg/messaging/adapters/memory/memory.go 143-151 Publish *)
Definition stamp (uuid : string) (now : Z) (topic : string) (m : Message) : Message :=
  {| ID := if decide (ID m = "") then uuid else ID m;
     Topic := if decide (Topic m = "") then topic else Topic m;
     Key := Key m; Payload := Payload m; Headers := Headers m;
     Timestamp := if decide (Timestamp m = zero_time) then now else Timestamp m |}.

(** A buffered channel; the capacity is that of the broker. *)
Record chan (M : Type) := Chan { buf : list M; is_closed : bool }.
Arguments Chan {M} _ _.
Arguments buf {M} _.
Arguments is_closed {M} _.

(** The channel of every group of a topic. *)
Abbreviation topic := (gmap string nat).

(* src: pkg/messaging/adapters/memory/memory.go 21-26 Broker *)
Record Broker (M : Type) := { BufferSize : Z; topics : gmap string topic; closed : bool; chans : gmap nat (chan M) }.
Arguments BufferSize {M} _.
Arguments topics {M} _.
Arguments closed {M} _.
Arguments chans {M} _.

Section broker.
  Context {M : Type}.
  Implicit Types (b : Broker M) (c : chan M) (m : M).

Definition set_topics ts b : Broker M := {| BufferSize := BufferSize b; topics := ts; closed := closed b; chans := chans b |}.
Definition set_chans cs b : Broker M := {| BufferSize := BufferSize b; topics := topics b; closed := closed b; chans := cs |}.

(* src: pkg/messaging/adapters/memory/memory.go 35-44 New *)
Definition New (bufferSize : Z) : Broker M :=
  {| BufferSize := if decide (bufferSize ≤ 0) then 1000 else bufferSize; topics := ∅; closed := false; chans := ∅ |}.

(* src: pkg/messaging/adapters/memory/memory.go 46-61 getOrCreateTopic *)
Definition getOrCreateTopic (name : string) b : Broker M :=
  match topics b !! name with Some _ => b | None => set_topics (<[name := ∅]> (topics b)) b end.

(** The test of [closed] that Producer, Consumer and Publish start with. *)
(* src: pkg/messaging/adapters/memory/memory.go 65-70 Producer *)
Definition check b : option error := if closed b then Some ErrClosed else None.

(* src: pkg/messaging/adapters/memory/memory.go 64-77 Producer *)
Definition Producer (name : string) b : error + Broker M :=
  match check b with Some e => inl e | None => inr (getOrCreateTopic name b) end.

(* src: pkg/messaging/adapters/memory/memory.go 88-105 Consumer *)
Definition Consumer_register (uuid name group : string) b : nat * string * Broker M :=
  let group := if decide (group = "") then uuid else group in
  let b := getOrCreateTopic name b in
  let ch := fresh (dom (chans b)) in
  let subs := default ∅ (topics b !! name) in
  (ch, group, set_chans (<[ch := Chan [] false]> (chans b)) (set_topics (<[name := <[group := ch]> subs]> (topics b)) b)).

(** Closing a closed channel panics. *)
(* src: pkg/messaging/adapters/memory/memory.go 118-124 Close *)
Fixpoint close_all (chs : list nat) (cs : gmap nat (chan M)) : option (gmap nat (chan M)) :=
  match chs with
  | [] => Some cs
  | ch :: chs =>
      c ← cs !! ch;
      if is_closed c then None else close_all chs (<[ch := Chan (buf c) true]> cs)
  end.

Definition all_subscribers (ts : gmap string topic) : list nat := concat ((λ nt, (map_to_list nt.2).*2) <$> map_to_list ts).

(* src: pkg/messaging/adapters/memory/memory.go 109-127 Close *)
Definition Close b : option (Broker M) :=
  if closed b then Some b
  else
    cs ← close_all (all_subscribers (topics b)) (chans b);
    Some {| BufferSize := BufferSize b; topics := topics b; closed := true; chans := cs |}.

(* src: pkg/messaging/adapters/memory/memory.go 130-134 Healthy *)
Definition Healthy b : bool := negb (closed b).

(** What the [select] of a send does.  A send on a closed channel is ready, and panics; [prefer]
    chooses when the context is done as well. *)
Inductive sent_result := Sent (b : Broker M) | Refused (e : error) | Panicked.

(* src: pkg/messaging/adapters/memory/memory.go 166-172 Publish *)
Definition send (ctx : option error) (prefer : bool) (ch : nat) m b : sent_result :=
  match chans b !! ch with
  | None => Refused ErrQueueFull
  | Some c =>
      let ready := is_closed c || bool_decide (Z.of_nat (length (buf c)) < BufferSize b) in
      match ctx with
      | Some e => if ready && prefer then if is_closed c then Panicked else Sent (set_chans (<[ch := Chan (buf c ++ [m]) false]> (chans b)) b)
                  else Refused (ErrTimeout "publish" (Some e))
      | None => if ready then if is_closed c then Panicked else Sent (set_chans (<[ch := Chan (buf c ++ [m]) false]> (chans b)) b)
                else Refused ErrQueueFull
      end
  end.

(** The loop over the subscribers, without interruption. *)
(* src: pkg/messaging/adapters/memory/memory.go 165-173 Publish *)
Fixpoint fan_out (ctx : option error) (prefer : bool) (chs : list nat) m b : option (option error * Broker M) :=
  match chs with
  | [] => Some (None, b)
  | ch :: chs =>
      match send ctx prefer ch m b with
      | Sent b => fan_out ctx prefer chs m b
      | Refused e => Some (Some e, b)
      | Panicked => None
      end
  end.

(* src: pkg/messaging/adapters/memory/memory.go 142-176 Publish *)
Definition Publish (ctx : option error) (prefer : bool) (name : string) m b : option (option error * Broker M) :=
  match check b with
  | Some e => Some (Some e, b)
  | None => fan_out ctx prefer (map_to_list (default ∅ (topics b !! name))).*2 m b
  end.

(* src: pkg/messaging/adapters/memory/memory.go 178-185 PublishBatch *)
Fixpoint PublishBatch (ctx : option error) (prefer : bool) (name : string) (ms : list M) b : option (option error * Broker M) :=
  match ms with
  | [] => Some (None, b)
  | m :: ms =>
      '(e, b) ← Publish ctx prefer name m b;
      match e with Some e => Some (Some e, b) | None => PublishBatch ctx prefer name ms b end
  end.

(** One turn of [Consume]: it returns, hands a message to the handler, whose error is ignored,
    or waits. *)
Inductive turn := Returns | Handles (m : M) | Waits.

(* src: pkg/messaging/adapters/memory/memory.go 201-217 Consume *)
Definition Consume_turn (done prefer : bool) (ch : nat) b : turn * Broker M :=
  match chans b !! ch with
  | None => (Waits, b)
  | Some c =>
      let ready := is_closed c || bool_decide (buf c ≠ []) in
      if done && negb (ready && prefer) then (Returns, b)
      else match buf c with
      | m :: ms => (Handles m, set_chans (<[ch := Chan ms (is_closed c)]> (chans b)) b)
      | [] => if is_closed c then (Returns, b) else (Waits, b)
      end
  end.

(** The flag of the consumer is its own; this is the effect of the first call. *)
(* src: pkg/messaging/adapters/memory/memory.go 219-233 Close *)
Definition consumer_Close (name group : string) b : Broker M :=
  match topics b !! name with
  | Some subs => set_topics (<[name := delete group subs]> (topics b)) b
  | None => b
  end.
End broker.

(** ** The system *)

(** A call of [Publish]: it has passed the test, it fans out over the channels it found, some of
    which it has served, it has returned nil with these subscribers in the topic when it
    released the lock, or it has returned an error. *)
Inductive call :=
  | Checked
  | Sending (subs delivered todo : list nat)
  | Acked (subscribers : topic)
  | Failed (delivered : list nat) (e : error).

Definition delivered (s : call) : list nat :=
  match s with Checked => [] | Sending _ d _ => d | Acked t => (map_to_list t).*2 | Failed d _ => d end.

(** Messages carry the number of the call that published them.  [closing] are the topics whose
    channels [Close] has not closed yet; [sent] and [received] are what has gone into and come
    out of every channel. *)
Abbreviation item := (nat * Message)%type.
Record system := {
  broker : Broker item; calls : gmap nat (string * Message * call); closing : list string;
  sent : nat → list item; received : nat → list item }.

Definition snoc_at (ch : nat) (x : item) (f : nat → list item) : nat → list item :=
  λ c, if decide (c = ch) then f c ++ [x] else f c.

(** No publisher holds the read lock of the topic. *)
Definition unlocked (s : system) (name : string) : Prop :=
  ∀ p m subs d t, calls s !! p ≠ Some (name, m, Sending subs d t).

(** The channels of the subscribers of a topic. *)
Definition subscribers (b : Broker item) (name : string) : topic := default ∅ (topics b !! name).

Definition with_broker (b : Broker item) (s : system) : system :=
  {| broker := b; calls := calls s; closing := closing s; sent := sent s; received := received s |}.
Definition with_call (p : nat) (c : string * Message * call) (s : system) : system :=
  {| broker := broker s; calls := <[p := c]> (calls s); closing := closing s; sent := sent s; received := received s |}.

(** [Producer] and [Consumer] test [closed] before they take the locks under which they change
    the broker: the change may come at any later time. *)
Inductive step (s : system) : system → Prop :=
  | step_producer name : closing s = [] → step s (with_broker (getOrCreateTopic name (broker s)) s)
  | step_consumer uuid name group ch g b : Consumer_register uuid name group (broker s) = (ch, g, b) → unlocked s name →
      step s (with_broker b s)
  | step_consumer_close name group : unlocked s name → step s (with_broker (consumer_Close name group (broker s)) s)
  | step_check p name uuid now m : check (broker s) = None → calls s !! p = None →
      step s (with_call p (name, stamp uuid now name m, Checked) s)
  | step_closed p name uuid now m e : check (broker s) = Some e → calls s !! p = None →
      step s (with_call p (name, stamp uuid now name m, Failed [] e) s)
  | step_begin p name m subs : calls s !! p = Some (name, m, Checked) →
      subs ≡ₚ (map_to_list (subscribers (broker s) name)).*2 →
      step s (with_call p (name, m, Sending subs [] subs) s)
  | step_send p name m subs d ch t ctx prefer b : calls s !! p = Some (name, m, Sending subs d (ch :: t)) →
      send ctx prefer ch (p, m) (broker s) = Sent b →
      step s {| broker := b; calls := <[p := (name, m, Sending subs (d ++ [ch]) t)]> (calls s); closing := closing s;
                sent := snoc_at ch (p, m) (sent s); received := received s |}
  | step_refuse p name m subs d ch t ctx prefer e : calls s !! p = Some (name, m, Sending subs d (ch :: t)) →
      send ctx prefer ch (p, m) (broker s) = Refused e → step s (with_call p (name, m, Failed d e) s)
  | step_ack p name m subs d : calls s !! p = Some (name, m, Sending subs d []) →
      step s (with_call p (name, m, Acked (subscribers (broker s) name)) s)
  | step_close : closed (broker s) = false →
      step s {| broker := {| BufferSize := BufferSize (broker s); topics := topics (broker s); closed := true; chans := chans (broker s) |};
                calls := calls s; closing := (map_to_list (topics (broker s))).*1; sent := sent s; received := received s |}
  | step_close_topic name rest cs : closing s ≡ₚ name :: rest → unlocked s name →
      close_all (map_to_list (subscribers (broker s) name)).*2 (chans (broker s)) = Some cs →
      step s {| broker := set_chans cs (broker s); calls := calls s; closing := rest; sent := sent s; received := received s |}
  | step_receive done prefer ch x b : Consume_turn done prefer ch (broker s) = (Handles x, b) →
      step s {| broker := b; calls := calls s; closing := closing s; sent := sent s; received := snoc_at ch x (received s) |}.

(** A publisher that sends on a closed channel, or [Close] that closes one twice. *)
Definition send_panics (s : system) : Prop :=
  ∃ p name m subs d ch t ctx prefer, calls s !! p = Some (name, m, Sending subs d (ch :: t)) ∧ send ctx prefer ch (p, m) (broker s) = Panicked.
Definition close_panics (s : system) : Prop :=
  ∃ name, name ∈ closing s ∧ close_all (map_to_list (subscribers (broker s) name)).*2 (chans (broker s)) = None.

Definition start (bufferSize : Z) : system :=
  {| broker := New bufferSize; calls := ∅; closing := []; sent := λ _, []; received := λ _, [] |}.

(** ** Invariant *)

Definition subscribed (b : Broker item) (name group : string) (ch : nat) : Prop :=
  ∃ t, topics b !! name = Some t ∧ t !! group = Some ch.

Definition of_call (p : nat) (l : list item) : list item := filter (λ x, x.1 = p) l.

Record inv (s : system) : Prop := {
  inv_size : 0 < BufferSize (broker s);
  inv_chan ch c : chans (broker s) !! ch = Some c →
    sent s ch = received s ch ++ buf c ∧ Z.of_nat (length (buf c)) ≤ BufferSize (broker s);
  inv_fresh ch : chans (broker s) !! ch = None → sent s ch = [] ∧ received s ch = [];
  inv_subs name group ch : subscribed (broker s) name group ch → is_Some (chans (broker s) !! ch);
  inv_inj n g n' g' ch : subscribed (broker s) n g ch → subscribed (broker s) n' g' ch → n = n' ∧ g = g';
  inv_open : closed (broker s) = false → closing s = [] ∧ ∀ ch c, chans (broker s) !! ch = Some c → is_closed c = false;
  inv_closing_nodup : NoDup (closing s);
  inv_closing name group ch c : name ∈ closing s → subscribed (broker s) name group ch → chans (broker s) !! ch = Some c → is_closed c = false;
  inv_none p : calls s !! p = None → ∀ ch, of_call p (sent s ch) = [];
  inv_call p name m st : calls s !! p = Some (name, m, st) →
    ∀ ch, of_call p (sent s ch) = if decide (ch ∈ delivered st) then [(p, m)] else [];
  inv_sending p name m subs d t : calls s !! p = Some (name, m, Sending subs d t) →
    subs = d ++ t ∧ subs ≡ₚ (map_to_list (subscribers (broker s) name)).*2;
}.

Lemma subscribed_get b name group ch : subscribed b name group ch ↔ default ∅ (topics b !! name) !! group = Some ch.
Proof. unfold subscribed. destruct (topics b !! name) as [t|]; cbn; [naive_solver|]. rewrite lookup_empty. naive_solver. Qed.

Lemma elem_of_values (t : topic) ch : ch ∈ (map_to_list t).*2 ↔ ∃ g, t !! g = Some ch.
Proof.
  rewrite list_elem_of_fmap. split.
  - intros ([g c] & -> & Hin). exists g. by apply elem_of_map_to_list.
  - intros [g Hg]. exists (g, ch). split; [done|]. by apply elem_of_map_to_list.
Qed.

Lemma NoDup_values (t : topic) : (∀ g g' ch, t !! g = Some ch → t !! g' = Some ch → g = g') → NoDup (map_to_list t).*2.
Proof.
  intros Hinj. apply NoDup_fmap_2_strong; [|apply NoDup_map_to_list]. intros [g c] [g' c'] Hx Hy. cbn. intros ->.
  apply elem_of_map_to_list in Hx, Hy. by rewrite (Hinj g g' c').
Qed.

Lemma of_call_snoc p ch x f c : of_call p (snoc_at ch x f c) = if decide (c = ch ∧ x.1 = p) then of_call p (f c) ++ [x] else of_call p (f c).
Proof.
  unfold snoc_at, of_call. destruct (decide (c = ch)) as [->|Hc]; [|by rewrite decide_False by tauto]. rewrite filter_app.
  destruct (decide (x.1 = p)) as [E|E]; [rewrite decide_True by done|rewrite decide_False by tauto]; cbn;
    [by rewrite decide_True|by rewrite decide_False, app_nil_r].
Qed.

Lemma broker_inv_start n : inv (start n).
Proof.
  split; cbn.
  - destruct (decide _); lia.
  - intros ch c. by rewrite lookup_empty.
  - done.
  - intros name g ch (t & Ht & _). cbn in Ht. by rewrite lookup_empty in Ht.
  - intros n1 g n' g' ch (t & Ht & _). cbn in Ht. by rewrite lookup_empty in Ht.
  - split; [done|]. intros ch c. by rewrite lookup_empty.
  - constructor.
  - set_solver.
  - done.
  - intros p name m st. by rewrite lookup_empty.
  - intros p name m subs d t. by rewrite lookup_empty.
Qed.

(** Fewer subscriptions. *)
Lemma inv_topics s b : inv s → BufferSize b = BufferSize (broker s) → closed b = closed (broker s) → chans b = chans (broker s) →
  (∀ n g ch, subscribed b n g ch → subscribed (broker s) n g ch) →
  (∀ n, subscribers b n = subscribers (broker s) n ∨ unlocked s n) → inv (with_broker b s).
Proof.
  intros I E1 E2 E3 Hsub Hl. destruct I as [? ? ? ? ? ? ? ? ? ? Hs]. split; cbn; rewrite ?E1, ?E2, ?E3; eauto.
  intros p name m subs d t Hp. destruct (Hl name) as [->|Hu]; [eauto|by destruct (Hu _ _ _ _ _ Hp)].
Qed.

Lemma getOrCreateTopic_spec {M} name (b : Broker M) :
  let b' := getOrCreateTopic name b in
  BufferSize b' = BufferSize b ∧ closed b' = closed b ∧ chans b' = chans b ∧
  ∀ n, default ∅ (topics b' !! n) = default ∅ (topics b !! n).
Proof.
  unfold getOrCreateTopic. destruct (topics b !! name) as [t|] eqn:E; cbn; [done|]. split_and!; [done|done|done|].
  intros n. destruct (decide (n = name)) as [->|Hn]; [by rewrite lookup_insert_eq, E|by rewrite lookup_insert_ne].
Qed.

Lemma inv_register s uuid name group ch g b : inv s → Consumer_register uuid name group (broker s) = (ch, g, b) → unlocked s name →
  inv (with_broker b s).
Proof.
  intros I H Hu. revert H. unfold Consumer_register. destruct (getOrCreateTopic_spec name (broker s)) as (E1 & E2 & E3 & E4). cbv zeta in *.
  set (b0 := getOrCreateTopic name (broker s)) in *. intros [= <- <- <-]. set (ch := fresh (dom (chans b0))). set (g := if decide (group = "") then uuid else group).
  assert (chans (broker s) !! ch = None) as Hch. { rewrite <- E3. apply not_elem_of_dom, is_fresh. }
  assert (∀ n g' c, subscribed (set_chans (<[ch := Chan [] false]> (chans b0)) (set_topics (<[name := <[g := ch]> (default ∅ (topics b0 !! name))]> (topics b0)) b0)) n g' c ↔
    n = name ∧ g' = g ∧ c = ch ∨ ¬ (n = name ∧ g' = g) ∧ subscribed (broker s) n g' c) as Hsub.
  { intros n g' c. rewrite !subscribed_get. cbn. destruct (decide (n = name)) as [->|Hn].
    - rewrite lookup_insert_eq. cbn. destruct (decide (g' = g)) as [->|Hg].
      + rewrite lookup_insert_eq. naive_solver.
      + rewrite lookup_insert_ne by done. rewrite E4. naive_solver.
    - rewrite lookup_insert_ne by done. rewrite E4. naive_solver. }
  assert (∀ n g' c, subscribed (broker s) n g' c → c ≠ ch) as Hold. { intros n g' c Hc ->. apply (inv_subs s I) in Hc. rewrite Hch in Hc. by destruct Hc. }
  split; cbn -[set_chans set_topics subscribed]; rewrite ?E1, ?E2, ?E3; cbn; rewrite ?E1, ?E2, ?E3; try apply I.
  - intros c x. destruct (decide (c = ch)) as [->|Hne]; [|rewrite lookup_insert_ne by done; apply I]. rewrite lookup_insert_eq. intros [= <-].
    destruct (inv_fresh s I ch Hch) as [-> ->]. cbn. pose proof (inv_size s I). split; [done|lia].
  - intros c Hc. destruct (decide (c = ch)) as [->|Hne]; [by rewrite lookup_insert_eq in Hc|]. rewrite lookup_insert_ne in Hc by done. by apply I.
  - intros n g' c [(_ & _ & ->)|[_ Hc]]%Hsub; [by rewrite lookup_insert_eq|]. rewrite lookup_insert_ne by (symmetry; by eapply Hold). by eapply I.
  - intros n g1 n' g2 c [(-> & -> & ->)|[_ H1]]%Hsub [(-> & -> & E)|[_ H2]]%Hsub; [done|by destruct (Hold _ _ _ H2)|by destruct (Hold _ _ _ H1)|by eapply I].
  - intros Hc. destruct (inv_open s I Hc) as [? Ho]. split; [done|]. intros c x. destruct (decide (c = ch)) as [->|Hne]; [rewrite lookup_insert_eq; by intros [= <-]|].
    rewrite lookup_insert_ne by done. apply Ho.
  - intros n g' c x Hn [(-> & -> & ->)|[_ H1]]%Hsub; [rewrite lookup_insert_eq; by intros [= <-]|]. rewrite lookup_insert_ne by (symmetry; by eapply Hold). by apply (inv_closing s I n g').
  - intros p n m subs d t Hp. unfold subscribers. cbn. rewrite lookup_insert_ne by (intros ->; by destruct (Hu _ _ _ _ _ Hp)). rewrite E4. by eapply I.
Qed.

Lemma topic_channels s name : inv s →
  NoDup (map_to_list (subscribers (broker s) name)).*2 ∧
  ∀ ch, ch ∈ (map_to_list (subscribers (broker s) name)).*2 ↔ ∃ g, subscribed (broker s) name g ch.
Proof.
  intros I. split.
  - apply NoDup_values. intros g g' ch H1 H2. unfold subscribers in H1, H2. rewrite <- subscribed_get in H1, H2. by destruct (inv_inj s I _ _ _ _ _ H1 H2).
  - intros ch. rewrite elem_of_values. by setoid_rewrite subscribed_get.
Qed.

(** A step of a call that sends nothing. *)
Lemma inv_with_call s p name m st : inv s →
  (∀ ch, of_call p (sent s ch) = if decide (ch ∈ delivered st) then [(p, m)] else []) →
  (∀ subs d t, st = Sending subs d t → subs = d ++ t ∧ subs ≡ₚ (map_to_list (subscribers (broker s) name)).*2) → inv (with_call p (name, m, st) s).
Proof.
  intros I Hd Hs. split; try apply I; cbn.
  - intros q Hq ch. apply (inv_none s I). by apply lookup_insert_None in Hq as [? _].
  - intros q n m' st' Hq ch. destruct (decide (q = p)) as [->|Hne].
    + rewrite lookup_insert_eq in Hq. injection Hq as <- <- <-. apply Hd.
    + rewrite lookup_insert_ne in Hq by done. by apply (inv_call s I _ _ _ _ Hq).
  - intros q n m' subs d t Hq. destruct (decide (q = p)) as [->|Hne].
    + rewrite lookup_insert_eq in Hq. injection Hq as <- _ ->. by eapply Hs.
    + rewrite lookup_insert_ne in Hq by done. by apply (inv_sending s I _ _ _ _ _ _ Hq).
Qed.

Lemma send_Sent ctx prefer ch (x : item) b b' : send ctx prefer ch x b = Sent b' →
  ∃ c, chans b !! ch = Some c ∧ is_closed c = false ∧ Z.of_nat (length (buf c)) < BufferSize b ∧
    b' = set_chans (<[ch := Chan (buf c ++ [x]) false]> (chans b)) b.
Proof.
  unfold send. destruct (chans b !! ch) as [c|]; [|done]. intros H. exists c. split; [done|].
  destruct (is_closed c) eqn:Ec; cbn [orb andb] in H; [destruct ctx, prefer; done|].
  destruct (bool_decide (Z.of_nat (length (buf c)) < BufferSize b)) eqn:Eb; cbn [andb] in H; [|destruct ctx; done].
  apply bool_decide_eq_true in Eb. destruct ctx; [destruct prefer; [|done]|]; injection H as <-; done.
Qed.

(** A change of one channel that stays subscribed. *)
Lemma subscribed_set_chans cs (b : Broker item) n g ch : subscribed (set_chans cs b) n g ch ↔ subscribed b n g ch.
Proof. done. Qed.

Lemma inv_send s p name m subs d ch t ctx prefer b : inv s → calls s !! p = Some (name, m, Sending subs d (ch :: t)) →
  send ctx prefer ch (p, m) (broker s) = Sent b →
  inv {| broker := b; calls := <[p := (name, m, Sending subs (d ++ [ch]) t)]> (calls s); closing := closing s;
         sent := snoc_at ch (p, m) (sent s); received := received s |}.
Proof.
  intros I Hp Hs. apply send_Sent in Hs as (c & Hc & Ho & Hl & ->). destruct (inv_sending s I _ _ _ _ _ _ Hp) as [-> Hsubs].
  assert (NoDup (d ++ ch :: t)) as Hnd by (rewrite Hsubs; by apply topic_channels).
  assert (ch ∉ d) as Hd. { apply NoDup_app in Hnd as (_ & Hx & _). intros Hin. apply (Hx ch Hin). set_solver. }
  split; cbn -[of_call snoc_at]; try apply I.
  - intros ch' c'. destruct (decide (ch' = ch)) as [->|Hne].
    + rewrite lookup_insert_eq. intros [= <-]. destruct (inv_chan s I _ _ Hc) as [E El]. unfold snoc_at. rewrite decide_True, E by done. cbn.
      rewrite app_assoc, length_app. cbn. split; [done|lia].
    + rewrite lookup_insert_ne by done. unfold snoc_at. rewrite decide_False by done. apply I.
  - intros ch' Hn. apply lookup_insert_None in Hn as [Hn Hne]. unfold snoc_at. rewrite decide_False by done. by apply I.
  - intros n g ch' Hs'. apply (inv_subs s I) in Hs'. apply lookup_insert_is_Some. destruct (decide (ch = ch')); [by left|by right].
  - intros Hcl. destruct (inv_open s I Hcl) as [? Hop]. split; [done|]. intros ch' c'. destruct (decide (ch' = ch)) as [->|Hne]; [rewrite lookup_insert_eq; by intros [= <-]|].
    rewrite lookup_insert_ne by done. apply Hop.
  - intros n g ch' c' Hn Hs'. destruct (decide (ch' = ch)) as [->|Hne]; [rewrite lookup_insert_eq; by intros [= <-]|].
    rewrite lookup_insert_ne by done. by apply (inv_closing s I n g).
  - intros q Hq ch'. apply lookup_insert_None in Hq as [Hq Hne]. rewrite of_call_snoc, decide_False by (cbn; tauto). by apply I.
  - intros q n m' st Hq ch'. destruct (decide (q = p)) as [->|Hne].
    + rewrite lookup_insert_eq in Hq. injection Hq as <- <- <-. rewrite of_call_snoc, (inv_call s I _ _ _ _ Hp ch'). cbn [delivered fst].
      destruct (decide (ch' = ch)) as [->|Hne].
      * rewrite (decide_True (P := ch = ch ∧ _)), (decide_False (P := ch ∈ d)), decide_True by (done || set_solver). done.
      * rewrite (decide_False (P := ch' = ch ∧ _)) by tauto. apply decide_ext. set_solver.
    + rewrite lookup_insert_ne in Hq by done. rewrite of_call_snoc, decide_False by (cbn; naive_solver). by apply (inv_call s I _ _ _ _ Hq).
  - intros q n m' subs' d' t' Hq. destruct (decide (q = p)) as [->|Hne].
    + rewrite lookup_insert_eq in Hq. injection Hq as <- <- <- <- <-. by rewrite <- app_assoc.
    + rewrite lookup_insert_ne in Hq by done. by apply (inv_sending s I _ _ _ _ _ _ Hq).
Qed.

Lemma close_all_spec (chs : list nat) : ∀ cs : gmap nat (chan item), NoDup chs → (∀ ch, ch ∈ chs → ∃ c, cs !! ch = Some c ∧ is_closed c = false) →
  ∃ cs', close_all chs cs = Some cs' ∧ ∀ ch, cs' !! ch = if decide (ch ∈ chs) then (λ c, Chan (buf c) true) <$> cs !! ch else cs !! ch.
Proof.
  induction chs as [|ch chs IH]; intros cs Hnd Hin; cbn [close_all]; [exists cs; split; [done|]; intros ch; by rewrite decide_False by set_solver|].
  apply NoDup_cons in Hnd as [Hn Hnd]. destruct (Hin ch) as (c & Hc & Ho); [set_solver|]. rewrite Hc. cbn [mbind option_bind]. rewrite Ho.
  destruct (IH (<[ch := Chan (buf c) true]> cs) Hnd) as (cs' & -> & Hcs').
  { intros ch' Hch'. rewrite lookup_insert_ne by (by intros ->). apply Hin. set_solver. }
  exists cs'. split; [done|]. intros ch'. rewrite Hcs'. destruct (decide (ch' = ch)) as [->|Hne].
  - rewrite (decide_False (P := ch ∈ chs)), decide_True by (done || set_solver). by rewrite lookup_insert_eq, Hc.
  - rewrite lookup_insert_ne by done. by rewrite (decide_ext (ch' ∈ ch :: chs) (ch' ∈ chs)) by set_solver.
Qed.

Lemma closing_closes s name : inv s → name ∈ closing s →
  ∃ cs, close_all (map_to_list (subscribers (broker s) name)).*2 (chans (broker s)) = Some cs ∧
    ∀ ch, cs !! ch = if decide (ch ∈ (map_to_list (subscribers (broker s) name)).*2)
                     then (λ c, Chan (buf c) true) <$> chans (broker s) !! ch else chans (broker s) !! ch.
Proof.
  intros I Hn. destruct (topic_channels s name I) as [Hnd Hin]. apply close_all_spec; [done|].
  intros ch [g Hg]%Hin. destruct (inv_subs s I _ _ _ Hg) as [c Hc]. exists c. split; [done|]. by apply (inv_closing s I name g ch).
Qed.

Lemma inv_close_topic s name rest cs : inv s → closing s ≡ₚ name :: rest →
  close_all (map_to_list (subscribers (broker s) name)).*2 (chans (broker s)) = Some cs →
  inv {| broker := set_chans cs (broker s); calls := calls s; closing := rest; sent := sent s; received := received s |}.
Proof.
  intros I Hp Hc. assert (name ∈ closing s) as Hn by (rewrite Hp; set_solver). destruct (closing_closes s name I Hn) as (cs' & E & Hcs).
  rewrite E in Hc. injection Hc as ->. pose proof (inv_closing_nodup s I) as Hnd. rewrite Hp in Hnd. apply NoDup_cons in Hnd as [Hnr Hnd].
  destruct (topic_channels s name I) as [_ Hin]. split; cbn; try apply I; [| | | |done|].
  - intros ch c. rewrite Hcs. destruct (decide _); [|apply I]. intros (c' & Hc' & ->)%fmap_Some. exact (inv_chan s I ch c' Hc').
  - intros ch. rewrite Hcs. destruct (decide _); [|apply I]. intros H%fmap_None. by apply I.
  - intros n g ch Hs. apply (inv_subs s I) in Hs. rewrite Hcs. destruct (decide _); [by apply fmap_is_Some|done].
  - intros Hcl. destruct (inv_open s I Hcl) as [E' _]. rewrite E' in Hn. set_solver.
  - intros n g ch c Hnr' Hs. rewrite Hcs, decide_False; [apply (inv_closing s I n g); [rewrite Hp; set_solver|done]|].
    intros [g' Hg']%Hin. destruct (inv_inj s I _ _ _ _ _ Hs Hg') as [-> _]. done.
Qed.

Lemma Consume_Handles dn prefer ch (x : item) b b' : Consume_turn dn prefer ch b = (Handles x, b') →
  ∃ c ms, chans b !! ch = Some c ∧ buf c = x :: ms ∧ b' = set_chans (<[ch := Chan ms (is_closed c)]> (chans b)) b.
Proof.
  unfold Consume_turn. destruct (chans b !! ch) as [c|]; [|done]. destruct (dn && _); [done|]. destruct (buf c) as [|y ms] eqn:E; [by destruct (is_closed c)|].
  intros [= <- <-]. by exists c, ms.
Qed.

Lemma inv_receive s dn prefer ch x b : inv s → Consume_turn dn prefer ch (broker s) = (Handles x, b) →
  inv {| broker := b; calls := calls s; closing := closing s; sent := sent s; received := snoc_at ch x (received s) |}.
Proof.
  intros I Hr. apply Consume_Handles in Hr as (c & ms & Hc & Eb & ->). split; cbn; try apply I.
  - intros ch' c'. destruct (decide (ch' = ch)) as [->|Hne].
    + rewrite lookup_insert_eq. intros [= <-]. destruct (inv_chan s I _ _ Hc) as [E El]. rewrite Eb in E, El. unfold snoc_at. rewrite decide_True by done.
      rewrite E, <- app_assoc. cbn in *. split; [done|lia].
    + rewrite lookup_insert_ne by done. unfold snoc_at. rewrite decide_False by done. apply I.
  - intros ch' Hn. apply lookup_insert_None in Hn as [Hn Hne]. unfold snoc_at. rewrite decide_False by done. by apply I.
  - intros n g ch' Hs'. apply (inv_subs s I) in Hs'. apply lookup_insert_is_Some. destruct (decide (ch = ch')); [by left|by right].
  - intros Hcl. destruct (inv_open s I Hcl) as [? Hop]. split; [done|]. intros ch' c'. destruct (decide (ch' = ch)) as [->|Hne]; [rewrite lookup_insert_eq; intros [= <-]; exact (Hop ch c Hc)|].
    rewrite lookup_insert_ne by done. apply Hop.
  - intros n g ch' c' Hn Hs'. destruct (decide (ch' = ch)) as [->|Hne]; [rewrite lookup_insert_eq; intros [= <-]; exact (inv_closing s I n g ch c Hn Hs' Hc)|].
    rewrite lookup_insert_ne by done. by apply (inv_closing s I n g).
Qed.

Lemma inv_step s s' : inv s → step s s' → inv s'.
Proof.
  intros I [name Hcl|uuid name group ch g b Hr Hu|name group Hu|p name uuid now m Hc Hp|p name uuid now m e Hc Hp|p name m subs Hp Hs|p name m subs d ch t ctx prefer b Hp Hs
    |p name m subs d ch t ctx prefer e Hp Hs|p name m subs d Hp|Hc|name rest cs Hp Hu Hc|dn prefer ch x b Hr].
  - destruct (getOrCreateTopic_spec name (broker s)) as (E1 & E2 & E3 & E4). apply inv_topics; [done|done|done|done| |].
    + intros n g ch. by rewrite !subscribed_get, E4.
    + intros n. left. apply E4.
  - by eapply inv_register.
  - unfold consumer_Close. destruct (topics (broker s) !! name) as [subs|] eqn:E; [|apply inv_topics; try done; by left].
    apply inv_topics; [done|done|done|done| |].
    2: { intros n. unfold subscribers. cbn. destruct (decide (n = name)) as [->|Hne]; [by right|left; by rewrite lookup_insert_ne]. }
    intros n g ch. rewrite !subscribed_get. cbn. destruct (decide (n = name)) as [->|Hne]; [|by rewrite lookup_insert_ne].
    rewrite lookup_insert_eq, E. cbn. intros [_ ?]%lookup_delete_Some. done.
  - apply inv_with_call; [done| |done]. intros ch. cbn. rewrite decide_False by set_solver. by apply I.
  - apply inv_with_call; [done| |done]. intros ch. cbn. rewrite decide_False by set_solver. by apply I.
  - apply inv_with_call; [done|intros ch; by rewrite (inv_call s I _ _ _ _ Hp)|]. intros ? ? ? [= <- <- <-]. by split.
  - by eapply inv_send.
  - apply inv_with_call; [done|intros c; by rewrite (inv_call s I _ _ _ _ Hp)|done].
  - destruct (inv_sending s I _ _ _ _ _ _ Hp) as [-> Hs]. rewrite app_nil_r in Hs. apply inv_with_call; [done| |done].
    intros c. rewrite (inv_call s I _ _ _ _ Hp). cbn [delivered]. apply decide_ext. by rewrite Hs.
  - destruct (inv_open s I Hc) as [_ Hop]. split; cbn; try apply I; [done|apply NoDup_fst_map_to_list|]. intros n g ch c _ _. apply Hop.
  - by eapply inv_close_topic.
  - by eapply inv_receive.
Qed.

Lemma inv_reachable n s : rtc step (start n) s → inv s.
Proof. intros H. eapply (rtc_ind_r (λ s, inv s)); [apply broker_inv_start| |exact H]. intros. by eapply inv_step. Qed.

(** *** Calls without interruption *)

(** The call [p] has returned. *)
Definition returned (s : system) (p : nat) (name : string) (m : Message) (e : option error) : Prop :=
  match e with
  | None => calls s !! p = Some (name, m, Acked (subscribers (broker s) name))
  | Some e => ∃ served, calls s !! p = Some (name, m, Failed served e)
  end.

(** What a call that runs alone computes is what a run of the system does. *)
Definition runs_as (s : system) (p : nat) (name : string) (m : Message) (r : option (option error * Broker item)) : Prop :=
  match r with
  | Some (e, b) => ∃ s', rtc step s s' ∧ broker s' = b ∧ returned s' p name m e
  | None => ∃ s', rtc step s s' ∧ send_panics s'
  end.

Lemma runs_as_after s s1 p name m r : rtc step s s1 → runs_as s1 p name m r → runs_as s p name m r.
Proof. intros H. destruct r as [[e b]|]; cbn; intros (s' & H' & HP); exists s'; (split; [by etrans|done]). Qed.

Lemma fan_out_runs ctx prefer p name m todo : ∀ s subs d, calls s !! p = Some (name, m, Sending subs d todo) →
  runs_as s p name m (fan_out ctx prefer todo (p, m) (broker s)).
Proof.
  induction todo as [|ch todo IH]; intros s subs d Hp; cbn [fan_out].
  - eexists. split; [apply rtc_once; by eapply step_ack|]. cbn. by rewrite lookup_insert_eq.
  - destruct (send ctx prefer ch (p, m) (broker s)) as [b|e|] eqn:E.
    + eapply runs_as_after; [apply rtc_once; by eapply step_send|]. eapply (IH {| broker := b |}). cbn. by rewrite lookup_insert_eq.
    + eexists. split; [apply rtc_once; by eapply step_refuse|]. cbn. rewrite lookup_insert_eq. eauto.
    + exists s. split; [done|]. by exists p, name, m, subs, d, ch, todo, ctx, prefer.
Qed.

Lemma Publish_runs s ctx prefer p name uuid now m : calls s !! p = None →
  runs_as s p name (stamp uuid now name m) (Publish ctx prefer name (p, stamp uuid now name m) (broker s)).
Proof.
  intros Hp. unfold Publish. destruct (check (broker s)) as [e|] eqn:Ec.
  - eexists. split; [apply rtc_once; by eapply step_closed|]. cbn. rewrite lookup_insert_eq. eauto.
  - eapply runs_as_after; [apply rtc_once; by apply (step_check s p name uuid now m)|].
    eapply runs_as_after; [apply rtc_once; eapply step_begin; [cbn; by rewrite lookup_insert_eq|done]|].
    eapply (fan_out_runs ctx prefer p name _ _ (with_call p _ (with_call p _ s))). cbn. by rewrite lookup_insert_eq.
Qed.

Lemma close_all_app {M} (l1 l2 : list nat) : ∀ cs : gmap nat (chan M), close_all (l1 ++ l2) cs = close_all l1 cs ≫= close_all l2.
Proof.
  induction l1 as [|ch l1 IH]; intros cs; cbn [close_all app]; [done|]. destruct (cs !! ch) as [c|]; cbn; [|done].
  destruct (is_closed c); [done|apply IH].
Qed.

Lemma close_topics_run l : ∀ s, inv s → closing s = l.*1 → (∀ n t, (n, t) ∈ l → topics (broker s) !! n = Some t) →
  (∀ n, unlocked s n) →
  ∃ cs s', close_all (concat ((λ nt, (map_to_list nt.2).*2) <$> l)) (chans (broker s)) = Some cs ∧ rtc step s s' ∧
    broker s' = set_chans cs (broker s) ∧ closing s' = [].
Proof.
  induction l as [|[n t] l IH]; intros s I Hcl Ht Hu; [exists (chans (broker s)), s; split_and!; [done|done|by destruct s as [[]]|done]|].
  cbn in Hcl. assert (n ∈ closing s) as Hn by (rewrite Hcl; set_solver). destruct (closing_closes s n I Hn) as (cs & E & _).
  assert (closing s ≡ₚ n :: l.*1) as Hp by by rewrite Hcl. pose proof (step_close_topic s n _ cs Hp (Hu n) E) as Hs.
  destruct (IH _ (inv_step _ _ I Hs)) as (cs' & s' & E' & Hr & Eb & Ec); [done|intros; apply Ht; set_solver|exact Hu|].
  exists cs', s'. split_and!; [|by eapply rtc_l|by rewrite Eb|done]. cbn [fmap list_fmap concat snd]. rewrite close_all_app.
  unfold subscribers in E. rewrite (Ht n t) in E by set_solver. cbn in E. by rewrite E.
Qed.

Lemma Close_runs s : inv s → closing s = [] → (∀ n, unlocked s n) →
  ∃ b s', Close (broker s) = Some b ∧ closed b = true ∧ rtc step s s' ∧ broker s' = b ∧ closing s' = [].
Proof.
  intros I Hcl Hu. unfold Close. destruct (closed (broker s)) eqn:E; [by exists (broker s), s|].
  pose proof (step_close s E) as Hs.
  destruct (close_topics_run (map_to_list (topics (broker s))) _ (inv_step _ _ I Hs)) as (cs & s' & E' & Hr & Eb & Ec);
    [done|intros n t; by rewrite elem_of_map_to_list|exact Hu|].
  unfold all_subscribers. cbn in E'. rewrite E'. eexists _, s'. split_and!; [done|done|by eapply rtc_l|by rewrite Eb|done].
Qed.

(** C16. In every interleaving of producers, consumers and [Close], with any order of the channels
    in the loop of [Publish]: a channel is a queue of at most [BufferSize] messages, and its
    consumer receives what was put into it in order and without loss.  While [Publish] runs,
    the channels it has served and those it has yet to serve are those of the groups subscribed
    to the topic, and when it returns nil it has put its message exactly once into the channel
    of every such group, and into no other; one that returned an error has put it once into
    those it had served.  [Close] never panics, and no [Publish] does while the broker is open.
    The calls of [Publish] and [Close] that run without interruption are among the runs, and do
    what [Publish] and [Close] compute. *)
Theorem broker_delivers (bufferSize : Z) (s : system) : rtc step (start bufferSize) s →
  (∀ ch c, chans (broker s) !! ch = Some c →
    sent s ch = received s ch ++ buf c ∧ Z.of_nat (length (buf c)) ≤ BufferSize (broker s)) ∧
  (∀ p name m subs served todo, calls s !! p = Some (name, m, Sending subs served todo) →
    served ++ todo ≡ₚ (map_to_list (subscribers (broker s) name)).*2 ∧
    ∀ ch, of_call p (sent s ch) = if decide (ch ∈ served) then [(p, m)] else []) ∧
  (∀ p name m subscribers, calls s !! p = Some (name, m, Acked subscribers) →
    (∀ group ch, subscribers !! group = Some ch → of_call p (sent s ch) = [(p, m)]) ∧
    (∀ ch, (∀ group, subscribers !! group ≠ Some ch) → of_call p (sent s ch) = [])) ∧
  (∀ p name m served e, calls s !! p = Some (name, m, Failed served e) →
    ∀ ch, of_call p (sent s ch) = if decide (ch ∈ served) then [(p, m)] else []) ∧
  ¬ close_panics s ∧ (closed (broker s) = false → ¬ send_panics s) ∧
  (∀ ctx prefer p name uuid now m, calls s !! p = None →
    runs_as s p name (stamp uuid now name m) (Publish ctx prefer name (p, stamp uuid now name m) (broker s))) ∧
  (closing s = [] → (∀ name, unlocked s name) →
    ∃ b s', Close (broker s) = Some b ∧ closed b = true ∧ rtc step s s' ∧ broker s' = b ∧ closing s' = []).
Proof.
  intros I%inv_reachable. split_and!.
  - apply I.
  - intros p name m subs d t Hp. destruct (inv_sending s I _ _ _ _ _ _ Hp) as [<- ?]. split; [done|]. exact (inv_call s I _ _ _ _ Hp).
  - intros p name m t Hp. split; [intros g ch Hg|intros ch Hg]; rewrite (inv_call s I _ _ _ _ Hp); cbn [delivered].
    + apply decide_True, elem_of_values. eauto.
    + apply decide_False. rewrite elem_of_values. naive_solver.
  - intros p name m d e Hp ch. exact (inv_call s I _ _ _ _ Hp ch).
  - intros (name & Hn & E). destruct (closing_closes s name I Hn) as (cs & E' & _). congruence.
  - intros Ho (p & name & m & subs & d & ch & t & ctx & prefer & Hp & Hs). unfold send in Hs. destruct (inv_open s I Ho) as [_ Hop].
    destruct (chans (broker s) !! ch) as [c|] eqn:Ec; [|done]. rewrite (Hop ch c Ec) in Hs. cbn [orb] in Hs. destruct ctx; by destruct (bool_decide _), prefer.
  - intros. by apply Publish_runs.
  - intros. by apply Close_runs.
Qed.

(** *** Runs *)

Definition hello (payload : Z) : Message :=
  {| ID := "m"; Topic := "t"; Key := []; Payload := [payload]; Headers := ∅; Timestamp := 1 |}.

Inductive label :=
  | LConsumer (name group : string) | LCheck (p : nat) (name : string) (m : Message) | LBegin (p : nat) (subs : list nat)
  | LSend (p : nat) | LAck (p : nat) | LClose | LCloseTopic (name : string) | LReceive (ch : nat).

Definition unlockedb (s : system) (name : string) : bool :=
  forallb (λ kv, match kv.2 with (n, _, Sending _ _ _) => negb (bool_decide (n = name)) | _ => true end) (map_to_list (calls s)).

Lemma unlockedb_spec s name : unlockedb s name = true → unlocked s name.
Proof.
  unfold unlockedb. rewrite forallb_forall. intros H p m subs d t Hp. apply elem_of_map_to_list, list_elem_of_In in Hp.
  apply H in Hp. cbn in Hp. by rewrite bool_decide_eq_true_2 in Hp.
Qed.

Definition exec_step (l : label) (s : system) : option system :=
  match l with
  | LConsumer name group => if unlockedb s name then Some (with_broker (Consumer_register "u" name group (broker s)).2 s) else None
  | LCheck p name m =>
      match check (broker s), calls s !! p with None, None => Some (with_call p (name, stamp "u" 1 name m, Checked) s) | _, _ => None end
  | LBegin p subs =>
      match calls s !! p with
      | Some (name, m, Checked) =>
          if decide (subs ≡ₚ (map_to_list (subscribers (broker s) name)).*2) then Some (with_call p (name, m, Sending subs [] subs) s) else None
      | _ => None
      end
  | LSend p =>
      match calls s !! p with
      | Some (name, m, Sending subs d (ch :: t)) =>
          match send None true ch (p, m) (broker s) with
          | Sent b => Some {| broker := b; calls := <[p := (name, m, Sending subs (d ++ [ch]) t)]> (calls s); closing := closing s;
                              sent := snoc_at ch (p, m) (sent s); received := received s |}
          | _ => None
          end
      | _ => None
      end
  | LAck p => match calls s !! p with Some (name, m, Sending subs d []) => Some (with_call p (name, m, Acked (subscribers (broker s) name)) s) | _ => None end
  | LClose =>
      if closed (broker s) then None
      else Some {| broker := {| BufferSize := BufferSize (broker s); topics := topics (broker s); closed := true; chans := chans (broker s) |};
                   calls := calls s; closing := (map_to_list (topics (broker s))).*1; sent := sent s; received := received s |}
  | LCloseTopic name =>
      match closing s, unlockedb s name, close_all (map_to_list (subscribers (broker s) name)).*2 (chans (broker s)) with
      | n :: rest, true, Some cs =>
          if decide (n = name) then Some {| broker := set_chans cs (broker s); calls := calls s; closing := rest; sent := sent s; received := received s |} else None
      | _, _, _ => None
      end
  | LReceive ch =>
      match Consume_turn false true ch (broker s) with
      | (Handles x, b) => Some {| broker := b; calls := calls s; closing := closing s; sent := sent s; received := snoc_at ch x (received s) |}
      | _ => None
      end
  end.

Lemma exec_step_sound l s s' : exec_step l s = Some s' → step s s'.
Proof.
  destruct l as [name group|p name m|p subs|p|p| |name|ch]; cbn [exec_step].
  - destruct (unlockedb s name) eqn:E; [|done]. destruct (Consumer_register "u" name group (broker s)) as [[ch g] b] eqn:Er.
    intros [= <-]. eapply step_consumer; [exact Er|by apply unlockedb_spec].
  - destruct (check (broker s)) eqn:E1, (calls s !! p) eqn:E2; try done. intros [= <-]. by apply step_check.
  - destruct (calls s !! p) as [[[name m] [| | |]]|] eqn:E; try done. destruct (decide _); [|done]. intros [= <-]. by eapply step_begin.
  - destruct (calls s !! p) as [[[name m] [|subs d [|ch t]| |]]|] eqn:E; try done. destruct (send None true ch (p, m) (broker s)) eqn:Es; try done.
    intros [= <-]. by eapply step_send.
  - destruct (calls s !! p) as [[[name m] [|subs d [|ch t]| |]]|] eqn:E; try done. intros [= <-]. by eapply step_ack.
  - destruct (closed (broker s)) eqn:E; [done|]. intros [= <-]. by apply step_close.
  - destruct (closing s) as [|n rest] eqn:E; [done|]. destruct (unlockedb s name) eqn:Eu; [|done]. destruct (close_all _ _) eqn:Ec; [|done].
    destruct (decide (n = name)) as [->|]; [|done]. intros [= <-]. eapply step_close_topic; [by rewrite E|by apply unlockedb_spec|done].
  - destruct (Consume_turn false true ch (broker s)) as [[| |] b] eqn:E; try done. intros [= <-]. by eapply step_receive.
Qed.

Fixpoint exec_all (ls : list label) (s : system) : option system :=
  match ls with [] => Some s | l :: ls => s ← exec_step l s; exec_all ls s end.

Lemma exec_all_sound ls : ∀ s s', exec_all ls s = Some s' → rtc step s s'.
Proof.
  induction ls as [|l ls IH]; intros s s'; cbn [exec_all]; [by intros [= ->]|].
  destruct (exec_step l s) as [s1|] eqn:E; [|done]. cbn. intros H. eapply rtc_l; [by eapply exec_step_sound|by apply IH].
Qed.

(** A run that ends in a state with the property [P]. *)
Lemma exec_reaches n ls (P : system → Prop) :
  match exec_all ls (start n) with Some s => P s | None => False end → ∃ s, rtc step (start n) s ∧ P s.
Proof. destruct (exec_all ls (start n)) as [s|] eqn:E; [|done]. intros HP. exists s. split; [by eapply exec_all_sound|done]. Qed.

Lemma broker_delivers_witness : ∃ s, rtc step (start 10) s ∧ received s 0%nat = [(7%nat, hello 5)] ∧
  sent s 0%nat = received s 0%nat ++ [].
Proof.
  destruct (exec_reaches 10 [LConsumer "t" "g"; LCheck 7 "t" (hello 5); LBegin 7 [0%nat]; LSend 7; LAck 7; LReceive 0]
    (λ s, received s 0%nat = [(7%nat, hello 5)] ∧ chans (broker s) !! 0%nat = Some (Chan [] false))) as (s & Hs & Hr & Hc).
  - vm_compute. split; reflexivity.
  - exists s. split; [exact Hs|]. split; [exact Hr|]. apply (proj1 (broker_delivers 10 s Hs) 0%nat (Chan [] false) Hc).
Defined.

(** [Publish] tests [closed] before it takes the lock of the topic: when [Close] runs in between,
    it sends on a closed channel and panics. *)
Theorem broker_publish_races_with_close : ∃ s, rtc step (start 10) s ∧ send_panics s.
Proof.
  apply (exec_reaches 10 [LConsumer "t" "g"; LCheck 7 "t" (hello 5); LClose; LCloseTopic "t"; LBegin 7 [0%nat]]).
  set (o := exec_all _ _). vm_compute in o. subst o.
  exists 7%nat, "t", (hello 5), [0%nat], [], 0%nat, [], None, true. split; vm_compute; reflexivity.
Qed.

(** Two publishers fan out at once, each in its own order: the groups receive the messages in
    different orders. *)
Theorem broker_groups_disagree : ∃ s, rtc step (start 10) s ∧
  sent s 0%nat = [(7%nat, hello 5); (8%nat, hello 6)] ∧ sent s 1%nat = [(8%nat, hello 6); (7%nat, hello 5)].
Proof.
  apply (exec_reaches 10 [LConsumer "t" "g"; LConsumer "t" "h"; LCheck 7 "t" (hello 5); LCheck 8 "t" (hello 6);
    LBegin 7 [0%nat; 1%nat]; LBegin 8 [0%nat; 1%nat]; LSend 7; LSend 8; LSend 8; LSend 7]). vm_compute. split; reflexivity.
Qed.

(** A second consumer of a group takes the place of the first instead of sharing its messages,
    and when the first is closed the second is unsubscribed. *)
Theorem broker_second_consumer_replaces (m : Message) :
  let '(c1, g1, b) := Consumer_register "u" "t" "g" (New 10) in
  let '(c2, g2, b) := Consumer_register "u" "t" "g" b in
  (snd <$> Publish None true "t" m b) = Some (set_chans (<[c2 := Chan [m] false]> (chans b)) b) ∧ c1 ≠ c2 ∧
  topics (consumer_Close "t" g1 b) !! "t" = Some ∅.
Proof. vm_compute. by split_and!. Qed.
