(* ===== verification/EventSource.v ===== *)
(** * pkg/enterprise/eventsource: aggregates, the repository, projections

    An aggregate embeds the base aggregate of the package and has a state of its own, of
    type [A], which only its [ApplyEvent] and [RestoreSnapshot] change.  The repository is
    written against the class [EventStore], the projection runner against a list of all
    events.  [json.Marshal] is outside the repository: [marshal] is its result. *)

From S2P Require Import Prelude Errors EventStore.
From stdpp Require Import options.
Open Scope Z_scope.

(** ** Snapshots and checkpoints in memory *)

(* src: pkg/enterprise/eventsource/adapters/memory/memory.go 135-141 NewSnapshotStore *)
Definition NewSnapshotStore : gmap string Snapshot := ∅.

(* src: pkg/enterprise/eventsource/adapters/memory/memory.go 143-156 SnapshotStore.Save *)
Definition Snapshot_Save (ctx : option error) (snapshot : Snapshot)
    : GoM error (gmap string Snapshot) unit :=
  throw_some ctx;;
  throw_if (snap_AggregateID snapshot = "") (ErrInvalidArgument "aggregateID is required" None);;
  s ← get;
  put (<[snap_AggregateID snapshot := snapshot]> s).

(* src: pkg/enterprise/eventsource/adapters/memory/memory.go 158-173 SnapshotStore.Load *)
Definition Snapshot_Load (ctx : option error) (aggregateID : string)
    (s : gmap string Snapshot) : error + option Snapshot :=
  match ctx with Some err => inl err | None => inr (s !! aggregateID) end.

(* src: pkg/enterprise/eventsource/adapters/memory/checkpoint.go 19-25 NewCheckpointStore *)
Definition NewCheckpointStore : gmap string Checkpoint := ∅.

(* src: pkg/enterprise/eventsource/adapters/memory/checkpoint.go 27-39 CheckpointStore.Load *)
Definition Checkpoint_Load (ctx : option error) (name : string) (s : gmap string Checkpoint)
    : error + Checkpoint :=
  match ctx with
  | Some err => inl err
  | None =>
      inr (default {| cp_Name := name; cp_Position := 0; cp_UpdatedAt := zero_time |} (s !! name))
  end.

(* src: pkg/enterprise/eventsource/adapters/memory/checkpoint.go 41-56 CheckpointStore.Save *)
Definition Checkpoint_Save (ctx : option error) (now : Z) (cp : Checkpoint)
    : GoM error (gmap string Checkpoint) unit :=
  throw_some ctx;;
  throw_if (cp_Name cp = "") (ErrInvalidArgument "checkpoint name is required" None);;
  let cp := {| cp_Name := cp_Name cp; cp_Position := cp_Position cp;
    cp_UpdatedAt := if decide (cp_UpdatedAt cp = zero_time) then now else cp_UpdatedAt cp |} in
  s ← get;
  put (<[cp_Name cp := cp]> s).

(** ** Aggregates *)

Section aggregate.
  Context {Any A : Type}.

(* src: pkg/enterprise/eventsource/eventsource.go 80-86 BaseEventSourcedAggregate *)
Record BaseEventSourcedAggregate := {
  id : string; aggregateType : string; version : Z; uncommittedEvents : list (Event Any) }.

(* src: pkg/enterprise/eventsource/eventsource.go 88-96 NewBaseEventSourcedAggregate *)
Definition NewBaseEventSourcedAggregate (i aggType : string) : BaseEventSourcedAggregate :=
  {| id := i; aggregateType := aggType; version := 0; uncommittedEvents := [] |}.

(* src: pkg/enterprise/eventsource/eventsource.go 113-116 SetVersion *)
Definition SetVersion (v : Z) (a : BaseEventSourcedAggregate) : BaseEventSourcedAggregate :=
  {| id := id a; aggregateType := aggregateType a; version := v;
     uncommittedEvents := uncommittedEvents a |}.

(* src: pkg/enterprise/eventsource/eventsource.go 118-121 IncrementVersion *)
Definition IncrementVersion (a : BaseEventSourcedAggregate) : BaseEventSourcedAggregate :=
  SetVersion (i64 (version a + 1)) a.

(* src: pkg/enterprise/eventsource/eventsource.go 128-131 ClearUncommittedEvents *)
Definition ClearUncommittedEvents (a : BaseEventSourcedAggregate) : BaseEventSourcedAggregate :=
  {| id := id a; aggregateType := aggregateType a; version := version a;
     uncommittedEvents := [] |}.

(* src: pkg/enterprise/eventsource/eventsource.go 133-151 RecordEvent *)
Definition RecordEvent (eventType : string) (marshal : error + string) (now : Z)
    (a : BaseEventSourcedAggregate) : option error * BaseEventSourcedAggregate :=
  match marshal with
  | inl err => (Some (Internal "failed to marshal event data" (Some err)), a)
  | inr jsonData =>
      let event := {| ID := ""; AggregateID := id a; AggregateType := aggregateType a;
        EventType := eventType;
        Version := i64 (version a + Z.of_nat (length (uncommittedEvents a)) + 1);
        Timestamp := now; Data := jsonData; Metadata := None |} in
      (None, {| id := id a; aggregateType := aggregateType a; version := version a;
                uncommittedEvents := uncommittedEvents a ++ [event] |})
  end.

(** An aggregate: the base it embeds and its own state. *)
Record aggregate := { base : BaseEventSourcedAggregate; st : A }.

Definition set_base (b : BaseEventSourcedAggregate) (a : aggregate) : aggregate :=
  {| base := b; st := st a |}.
Definition set_st (x : A) (a : aggregate) : aggregate := {| base := base a; st := x |}.

(** The methods an aggregate brings: [ApplyEvent], and, if it is snapshottable,
    [RestoreSnapshot] and [SnapshotData]. *)
(* src: pkg/enterprise/eventsource/eventsource.go 273-279 Snapshottable *)
Record Snapshottable := {
  RestoreSnapshot : string → A → option error * A; SnapshotData : A → error + string }.

Record behaviour := {
  ApplyEvent : Event Any → A → option error * A; snapshottable : option Snapshottable }.

(** ** The repository *)

Context {S : Type} `{!EventStore Any S} (bhv : behaviour).

(* src: pkg/enterprise/eventsource/eventsource.go 153-157 EventRepository *)
Record EventRepository := { store : S; snapshots : option (gmap string Snapshot) }.

(* src: pkg/enterprise/eventsource/eventsource.go 159-162 NewEventRepository *)
Definition NewEventRepository (s : S) : EventRepository := {| store := s; snapshots := None |}.

(* src: pkg/enterprise/eventsource/eventsource.go 164-168 NewEventRepositoryWithSnapshots *)
Definition NewEventRepositoryWithSnapshots (s : S) (sn : gmap string Snapshot)
    : EventRepository := {| store := s; snapshots := Some sn |}.

(* src: pkg/enterprise/eventsource/eventsource.go 170-173 SetSnapshotStore *)
Definition SetSnapshotStore (sn : option (gmap string Snapshot)) (r : EventRepository)
    : EventRepository := {| store := store r; snapshots := sn |}.

(** The aggregate is changed in place: the answer is an error or none, the aggregate and
    the repository. *)
(* src: pkg/enterprise/eventsource/eventsource.go 175-191 Save *)
Definition Save (ctx : option error) (now : nat → Z) (a : aggregate) (r : EventRepository)
    : option error * aggregate * EventRepository :=
  let events := uncommittedEvents (base a) in
  match events with
  | [] => (None, a, r)
  | _ :: _ =>
      match es_Append ctx now (id (base a)) (version (base a)) events (store r) with
      | (inl err, s) => (Some err, a, {| store := s; snapshots := snapshots r |})
      | (inr events, s) =>
          let v := match last events with Some e => Version e | None => 0 end in
          (None, set_base (ClearUncommittedEvents (SetVersion v (base a))) a,
           {| store := s; snapshots := snapshots r |})
      end
  end.

(* src: pkg/enterprise/eventsource/eventsource.go 226-234 applyEvents *)
Fixpoint applyEvents (events : list (Event Any)) (a : aggregate) : option error * aggregate :=
  match events with
  | [] => (None, a)
  | event :: events' =>
      match ApplyEvent bhv event (st a) with
      | (Some err, x) => (Some err, set_st x a)
      | (None, x) => applyEvents events' (set_base (SetVersion (Version event) (base a)) (set_st x a))
      end
  end.

(* src: pkg/enterprise/eventsource/eventsource.go 218-224 applyFrom *)
Definition applyFrom (ctx : option error) (fromVersion : Z) (r : EventRepository) (a : aggregate)
    : option error * aggregate :=
  match es_LoadFrom ctx (id (base a)) fromVersion (store r) with
  | inl err => (Some err, a)
  | inr events => applyEvents events a
  end.

(** The load of all events, at the end of [Load]. *)
Definition load_all_events (ctx : option error) (r : EventRepository) (a : aggregate)
    : option error * aggregate :=
  match es_Load ctx (id (base a)) (store r) with
  | inl err => (Some err, a)
  | inr events => applyEvents events a
  end.

(* src: pkg/enterprise/eventsource/eventsource.go 193-216 EventRepository.Load *)
Definition Repository_Load (ctx : option error) (r : EventRepository) (a : aggregate)
    : option error * aggregate :=
  match snapshottable bhv, snapshots r with
  | Some sn, Some snaps =>
      match Snapshot_Load ctx (id (base a)) snaps with
      | inl err => (Some err, a)
      | inr (Some snap) =>
          match RestoreSnapshot sn (snap_Data snap) (st a) with
          | (Some err, x) => (Some err, set_st x a)
          | (None, x) =>
              let a := set_base (SetVersion (snap_Version snap) (base a)) (set_st x a) in
              applyFrom ctx (i64 (snap_Version snap + 1)) r a
          end
      | inr None => load_all_events ctx r a
      end
  | _, _ => load_all_events ctx r a
  end.

(* src: pkg/enterprise/eventsource/eventsource.go 236-252 SaveSnapshot *)
Definition SaveSnapshot (ctx : option error) (now : Z) (sn : Snapshottable) (a : aggregate)
    (r : EventRepository) : option error * EventRepository :=
  match snapshots r with
  | None => (Some (ErrInvalidArgument "snapshot store is required" None), r)
  | Some snaps =>
      match SnapshotData sn (st a) with
      | inl err => (Some err, r)
      | inr data =>
          let '(res, snaps) := Snapshot_Save ctx
            {| snap_AggregateID := id (base a); snap_AggregateType := aggregateType (base a);
               snap_Version := version (base a); snap_Timestamp := now; snap_Data := data |} snaps in
          (match res with inl err => Some err | inr _ => None end,
           {| store := store r; snapshots := Some snaps |})
      end
  end.
End aggregate.

Arguments BaseEventSourcedAggregate : clear implicits.
Arguments aggregate : clear implicits.
Arguments behaviour : clear implicits.
Arguments Snapshottable : clear implicits.
Arguments EventRepository : clear implicits.

(** ** Saving and loading *)

Section repository.
  Context {Any A S : Type} `{!EventStore Any S, !EventStoreLaws Any S}.
  Context (bhv : behaviour Any A) (sn : Snapshottable A) (x0 : string → A).
  (** The aggregate is snapshottable, and restoring what [SnapshotData] gave restores the
      state. *)
  Context (Hsn : snapshottable bhv = Some sn)
    (Hrestore : ∀ x d y, SnapshotData sn x = inr d → RestoreSnapshot sn d y = (None, x)).
  #[local] Set Default Proof Using "Type".
  Implicit Types (s : S) (a : aggregate Any A) (evs : list (Event Any)).

(** The state after events have been applied, if all of them can be. *)
Fixpoint replay evs (x : A) : option A :=
  match evs with
  | [] => Some x
  | e :: evs' => match ApplyEvent bhv e x with (None, x') => replay evs' x' | _ => None end
  end.

(** An aggregate as the caller constructs it before [Load]. *)
Definition fresh_aggregate (i ty : string) : aggregate Any A :=
  {| base := NewBaseEventSourcedAggregate i ty; st := x0 i |}.

(** The version after events: that of the last one. *)
Definition version_after evs (v : Z) : Z := match last evs with Some e => Version e | None => v end.

Lemma replay_app evs1 evs2 x :
  replay (evs1 ++ evs2) x = x' ← replay evs1 x; replay evs2 x'.
Proof.
  revert x. induction evs1 as [|e evs1 IH]; intros x; [done|]. cbn.
  destruct (ApplyEvent bhv e x) as [[]]; [done|]. apply IH.
Qed.

Lemma version_after_cons e evs v : version_after (e :: evs) v = version_after evs (Version e).
Proof. unfold version_after. rewrite last_cons. by destruct (last evs). Qed.

Lemma applyEvents_replay evs a x :
  replay evs (st a) = Some x →
  applyEvents bhv evs a =
    (None, {| base := SetVersion (version_after evs (version (base a))) (base a); st := x |}).
Proof.
  revert a. induction evs as [|e evs IH]; intros [[i ty v u] y]; cbn; [by intros [= ->]|].
  destruct (ApplyEvent bhv e y) as [[]]; [done|]. intros Hr.
  rewrite IH by done. by rewrite version_after_cons.
Qed.

Lemma applyEvents_app evs1 evs2 a x :
  replay evs1 (st a) = Some x →
  applyEvents bhv (evs1 ++ evs2) a = applyEvents bhv evs2
    {| base := SetVersion (version_after evs1 (version (base a))) (base a); st := x |}.
Proof.
  revert a. induction evs1 as [|e evs1 IH]; intros [[i ty v u] y]; cbn; [by intros [= ->]|].
  destruct (ApplyEvent bhv e y) as [[]]; [done|]. intros Hr.
  rewrite IH by done. by rewrite version_after_cons.
Qed.

(** Every snapshot is the state its aggregate had at the snapshot's version. *)
Definition snap_sound s (snaps : gmap string Snapshot) : Prop :=
  ∀ i snap, snaps !! i = Some snap →
    0 ≤ snap_Version snap ≤ Z.of_nat (length (stream s i)) ∧
    ∃ x, replay (take (Z.to_nat (snap_Version snap)) (stream s i)) (x0 i) = Some x ∧
      ∀ y, RestoreSnapshot sn (snap_Data snap) y = (None, x).

Lemma version_take s i k :
  stored s → (k ≤ length (stream s i))%nat → version_after (take k (stream s i)) 0 = Z.of_nat k.
Proof.
  intros Hs Hk. unfold version_after. rewrite last_lookup, length_take, Nat.min_l by done.
  destruct k as [|k]; [by rewrite take_0|].
  cbn [Nat.pred]. rewrite lookup_take_lt by lia.
  destruct (lookup_lt_is_Some_2 (stream s i) k ltac:(lia)) as [e He]. rewrite He.
  destruct (law_versions s i k e Hs He) as [-> _]. lia.
Qed.

Lemma LoadFrom_drop s i v :
  stored s → Z.of_nat (length (stream s i)) < 2 ^ 63 → 0 ≤ v < 2 ^ 63 - 1 →
  es_LoadFrom None i (v + 1) s = inr (drop (Z.to_nat v) (stream s i)).
Proof.
  intros Hs Hlen Hv. rewrite law_LoadFrom by (unfold is_i64; auto with lia).
  rewrite (filter_versions _ 0) by (intros k e He; by apply (law_versions s i)).
  do 2 f_equal. lia.
Qed.

(** Loading over a snapshot and the later events gives what loading all events gives, also
    when an event cannot be applied. *)
Lemma load_with_snapshots s snaps i ty :
  stored s → Z.of_nat (length (stream s i)) < 2 ^ 63 - 1 → snap_sound s snaps →
  Repository_Load bhv None {| store := s; snapshots := Some snaps |} (fresh_aggregate i ty) =
  Repository_Load bhv None {| store := s; snapshots := None |} (fresh_aggregate i ty).
Proof using Hsn.
  intros Hs Hlen Hsound. unfold Repository_Load. rewrite Hsn. cbn [snapshots Snapshot_Load].
  cbn [id base fresh_aggregate NewBaseEventSourcedAggregate].
  destruct (snaps !! i) as [snap|] eqn:E; [|done].
  destruct (Hsound i snap E) as (Hv & x & Hx & Hr). cbn [st]. rewrite Hr.
  unfold applyFrom, load_all_events.
  cbn [id base fresh_aggregate NewBaseEventSourcedAggregate store set_base set_st SetVersion].
  rewrite i64_id, LoadFrom_drop, law_Load by (unfold is_i64; auto with lia).
  rewrite <- (take_drop (Z.to_nat (snap_Version snap)) (stream s i)) at 2.
  rewrite (applyEvents_app _ _ _ x) by done.
  cbn [base fresh_aggregate NewBaseEventSourcedAggregate version].
  rewrite version_take by (auto; lia). by rewrite Z2Nat.id by lia.
Qed.

(** The uncommitted events are as [RecordEvent] makes them. *)
Definition recorded (b : BaseEventSourcedAggregate Any) : Prop :=
  ∀ k e, uncommittedEvents b !! k = Some e →
    AggregateID e = id b ∧ Version e = version b + Z.of_nat k + 1 ∧ Timestamp e ≠ zero_time.

Lemma RecordEvent_recorded ty m now b :
  recorded b → now ≠ zero_time → 0 ≤ version b →
  version b + Z.of_nat (length (uncommittedEvents b)) + 1 < 2 ^ 63 →
  recorded (RecordEvent ty m now b).2.
Proof.
  intros Hb Hnow Hv Hlt. destruct m as [err|d]; [done|]. intros k e. cbn.
  rewrite lookup_app_Some, list_lookup_singleton_Some.
  intros [He|(Hle & Hk & <-)]; [by apply Hb|]. cbn. split_and!; [done| |done].
  rewrite i64_id by go_lia. lia.
Qed.

(** The aggregate has seen the whole stream, and its state is that of the stream and of
    what it has recorded since. *)
Record synced s a : Prop := {
  sy_id : id (base a) ≠ "";
  sy_version : version (base a) = Z.of_nat (length (stream s (id (base a))));
  sy_recorded : recorded (base a);
  sy_state : replay (stream s (id (base a)) ++ uncommittedEvents (base a)) (x0 (id (base a)))
               = Some (st a) }.

(** Stamping changes nothing of what was recorded on top of the stream. *)
Lemma stamp_recorded now b cur :
  recorded b → version b = Z.of_nat cur →
  Z.of_nat (cur + length (uncommittedEvents b)) < 2 ^ 63 →
  imap (stamp (id b) cur now) (uncommittedEvents b) = uncommittedEvents b.
Proof.
  intros Hb Hv Hlen. apply list_eq. intros k. rewrite list_lookup_imap.
  destruct (uncommittedEvents b !! k) as [e|] eqn:E; [|done]. cbn. f_equal.
  pose proof (lookup_lt_Some _ _ _ E). destruct (Hb k e E) as (Hi & Hve & Ht).
  destruct e as [eid ai aty ety ve t d m]; cbn in *. unfold stamp; cbn.
  rewrite decide_False by done. rewrite i64_id by go_lia. f_equal; [done|lia].
Qed.

Lemma snap_sound_prefix s s' snaps :
  (∀ i, stream s i `prefix_of` stream s' i) → snap_sound s snaps → snap_sound s' snaps.
Proof.
  intros Hp Hs i snap E. destruct (Hs i snap E) as (Hv & x & Hx & Hr).
  destruct (Hp i) as [l Hl]. rewrite Hl, length_app. split; [lia|]. exists x.
  by rewrite take_app_le by lia.
Qed.

Lemma load_synced s a :
  stored s → synced s a → uncommittedEvents (base a) = [] →
  Repository_Load bhv None {| store := s; snapshots := None |}
    (fresh_aggregate (id (base a)) (aggregateType (base a))) = (None, a).
Proof.
  intros Hs [Hi Hv _ Hst] Hu. destruct a as [[i ty v u] x]; cbn in *. subst u.
  rewrite app_nil_r in Hst. unfold Repository_Load, load_all_events. cbn.
  rewrite law_Load by done. rewrite (applyEvents_replay _ _ x) by done. cbn.
  pose proof (version_take s i _ Hs (Nat.le_refl _)) as Hva. rewrite firstn_all in Hva.
  rewrite Hva, <- Hv. clear Hsn. by destruct (snapshottable bhv).
Qed.

Lemma save_synced now s snaps a err a' r' :
  stored s → synced s a →
  Z.of_nat (length (stream s (id (base a))) + length (uncommittedEvents (base a))) < 2 ^ 63 →
  Save None now a {| store := s; snapshots := snaps |} = (err, a', r') →
  err = None ∧ stored (store r') ∧ snapshots r' = snaps ∧ synced (store r') a' ∧
  uncommittedEvents (base a') = [] ∧
  id (base a') = id (base a) ∧ aggregateType (base a') = aggregateType (base a) ∧
  st a' = st a ∧
  stream (store r') (id (base a)) = stream s (id (base a)) ++ uncommittedEvents (base a) ∧
  (∀ i, stream s i `prefix_of` stream (store r') i).
Proof.
  intros Hs [Hi Hv Hrec Hst] Hlen. unfold Save. cbn [store snapshots].
  destruct a as [[i ty v u] x]; cbn in *.
  destruct u as [|e0 u0]; [intros [= <- <- <-]; cbn; rewrite app_nil_r; by split_and!|].
  set (u := e0 :: u0) in *.
  pose proof (law_append None now i v u s Hs Hlen) as H.
  destruct (es_Append None now i v u s) as [[err'|evs'] s']; [naive_solver lia|].
  destruct H as (Hs' & _ & _ & _ & Hevs & Heq & Hne). intros [= <- <- <-]. cbn.
  rewrite (stamp_recorded now {| id := i; aggregateType := ty; version := v;
    uncommittedEvents := u |}) in Hevs by done. cbn in Hevs. subst evs'.
  assert (match last u with Some e => Version e | None => 0 end
    = Z.of_nat (length (stream s' i))) as Hver.
  { rewrite Heq, length_app, last_lookup.
    destruct (lookup_lt_is_Some_2 u (pred (length u)) ltac:(cbn; lia)) as [e He]. rewrite He.
    destruct (Hrec _ _ He) as (_ & -> & _). cbn. lia. }
  split_and!; try done.
  - split; cbn; [done|done|by intros k e|]. by rewrite app_nil_r, Heq.
  - intros j. destruct (decide (j = i)) as [->|Hj]; [rewrite Heq; by eexists|by rewrite Hne].
Qed.

Lemma SaveSnapshot_sound now s snaps a :
  stored s → synced s a → uncommittedEvents (base a) = [] → snap_sound s snaps →
  ∀ r', (SaveSnapshot None now sn a {| store := s; snapshots := Some snaps |}).2 = r' →
  ∃ snaps', r' = {| store := s; snapshots := Some snaps' |} ∧ snap_sound s snaps'.
Proof using Hrestore.
  intros Hs [Hi Hv _ Hst] Hu Hsound r' <-. unfold SaveSnapshot. cbn [snapshots].
  destruct (SnapshotData sn (st a)) as [err|d] eqn:Ed; [by eauto|].
  unfold Snapshot_Save. go_run. rewrite decide_False by done. cbn.
  eexists; split; [done|]. intros i snap. rewrite lookup_insert_Some.
  intros [[<- <-]|[_ E]]; [|by apply Hsound]. cbn. split; [lia|].
  exists (st a). split; [|intros y; by apply Hrestore].
  rewrite Hv, Nat2Z.id, firstn_all. by rewrite Hu, app_nil_r in Hst.
Qed.
End repository.

(** C6. On any event store that keeps the interface's promises, with an aggregate whose
    snapshots restore it: when an aggregate that has seen its whole stream is saved, the
    save succeeds and appends exactly the events it recorded; loading it into a fresh
    aggregate, over all events or over a snapshot and the later events, gives the saved
    aggregate; the stored snapshots stay sound, and so does the snapshot of the saved
    aggregate; and an aggregate that has missed an event cannot save and changes nothing. *)
Theorem repository_roundtrip {Any A S} `{!EventStore Any S, !EventStoreLaws Any S}
    (bhv : behaviour Any A) (sn : Snapshottable A) (x0 : string → A) now (s : S) snaps
    (a : aggregate Any A) :
  snapshottable bhv = Some sn →
  (∀ x d y, SnapshotData sn x = inr d → RestoreSnapshot sn d y = (None, x)) →
  stored s → snap_sound bhv sn x0 s snaps →
  Z.of_nat (length (stream s (id (base a))) + length (uncommittedEvents (base a))) < 2 ^ 63 - 1 →
  let '(err, a', r') := Save None now a {| store := s; snapshots := Some snaps |} in
  (synced bhv x0 s a →
    err = None ∧
    stream (store r') (id (base a)) = stream s (id (base a)) ++ uncommittedEvents (base a) ∧
    (∀ snaps', snapshots r' = snaps' ∨ snaps' = None →
       Repository_Load bhv None {| store := store r'; snapshots := snaps' |}
         (fresh_aggregate x0 (id (base a)) (aggregateType (base a))) = (None, a')) ∧
    ∃ snaps', (SaveSnapshot None (now 0%nat) sn a' r').2 =
        {| store := store r'; snapshots := Some snaps' |} ∧
      snap_sound bhv sn x0 (store r') snaps') ∧
  (0 ≤ version (base a) → version (base a) ≠ Z.of_nat (length (stream s (id (base a)))) →
    uncommittedEvents (base a) ≠ [] →
    is_Some err ∧ a' = a ∧ r' = {| store := s; snapshots := Some snaps |}).
Proof.
  intros Hsn Hrestore Hs Hsound Hlen.
  destruct (Save None now a {| store := s; snapshots := Some snaps |}) as [[err a'] r'] eqn:E.
  split.
  - intros Hsy.
    destruct (save_synced bhv x0 now s (Some snaps) a err a' r' Hs Hsy ltac:(lia) E)
      as (-> & Hs' & Hsn' & Hsy' & Hu' & Hid & Hty & Hst & Heq & Hp).
    pose proof (snap_sound_prefix bhv sn x0 _ _ _ Hp Hsound) as Hsound'.
    pose proof (load_synced bhv x0 _ _ Hs' Hsy' Hu') as Hload. rewrite Hid, Hty in Hload.
    destruct r' as [s' o]. cbn in *. subst o. split_and!; [done|done| |].
    + intros snaps' [<-| ->]; [|done].
      rewrite (load_with_snapshots bhv sn x0 Hsn); [done|done| |done].
      rewrite Heq, length_app. lia.
    + by eapply (SaveSnapshot_sound bhv sn x0).
  - intros Hv0 Hv Hu. unfold Save in E. cbn [store snapshots] in E.
    pose proof (law_append None now (id (base a)) (version (base a)) (uncommittedEvents (base a))
      s Hs ltac:(lia)) as H.
    destruct (uncommittedEvents (base a)) as [|e u]; [done|].
    destruct (es_Append _ _ _ _ _ s) as [[err'|evs'] s'].
    + destruct H as [-> _]. simplify_eq. eauto.
    + destruct H as (_ & _ & _ & Hv' & _). lia.
Qed.

(** A journal: the state is the concatenation of the data of all events. *)
Definition journal_sn : Snapshottable string :=
  {| RestoreSnapshot := λ d _, (None, d); SnapshotData := λ x, inr x |}.
Definition journal : behaviour unit string :=
  {| ApplyEvent := λ e x, (None, x +:+ Data e); snapshottable := Some journal_sn |}.
(** The journal [j] after "a" was recorded and applied. *)
Definition journal_a : aggregate unit string :=
  {| base := (RecordEvent "added" (inr "a") 5 (NewBaseEventSourcedAggregate "j" "journal")).2;
     st := "a" |}.

#[local] Instance plain_store : EventStore unit (gmap string (list (Event unit))) :=
  memory_EventStore (λ x, x).

Lemma repository_roundtrip_witness :
  let '(err, a', r') := Save None (λ _, 7) journal_a
    {| store := (∅ : gmap string (list (Event unit))); snapshots := Some ∅ |} in
  err = None ∧
  Repository_Load journal None r' (fresh_aggregate (λ _, "") "j" "journal") = (None, a') ∧
  version (base a') = 1.
Proof.
  pose proof (@repository_roundtrip unit string (gmap string (list (Event unit)))
    plain_store (memory_laws (λ x, x)) journal journal_sn
    (λ _, "") (λ _, 7) ∅ ∅ journal_a eq_refl) as H.
  destruct (Save None (λ _, 7) journal_a _) as [[err a'] r'] eqn:E.
  destruct H as [H _].
  - intros x d y. cbn. congruence.
  - intros ? ? ?. done.
  - intros i snap Hi. rewrite lookup_empty in Hi. discriminate.
  - vm_compute. reflexivity.
  - destruct H as (H1 & _ & H2 & _).
    + split; [discriminate|reflexivity| |reflexivity].
      intros [|k] e; [|done]. cbn. intros [= <-]. split_and!; [done|done|discriminate].
    + split; [exact H1|]. destruct r' as [s' o]. split; [apply (H2 o); left; reflexivity|].
      rewrite <- (f_equal (λ x, x.1.2) E : _ = a'). vm_compute. reflexivity.
Defined.

(** A snapshot that is taken while events are not saved holds their effect under the
    version before them: after the save, the next load applies them again. *)
Theorem snapshot_of_unsaved_applies_twice :
  let r0 := {| store := (∅ : gmap string (list (Event unit))); snapshots := Some ∅ |} in
  let r1 := (SaveSnapshot None 6 journal_sn journal_a r0).2 in
  let '(err, a', r2) := Save None (λ _, 7) journal_a r1 in
  err = None ∧ st a' = "a" ∧
  st (Repository_Load journal None r2
        (fresh_aggregate (λ _, "") "j" "journal")).2 = "aa".
Proof. vm_compute. done. Qed.
