(* ===== verification/Projection.v ===== *)
(** * pkg/enterprise/eventsource/projection.go: catch-up projections

    A runner applies the events of a store to a projector, in the order of [LoadAll], from
    a durable checkpoint on.  The projector is any function on a state [P] that may fail;
    [all] is the answer of [LoadAll].  The contexts and clocks of a run are functions of
    the index of the event at hand. *)

From S2P Require Import Prelude Errors EventStore EventSource.
From stdpp Require Import options.
Open Scope Z_scope.

(* src: pkg/enterprise/eventsource/projection.go 49-68 ProjectionConfig *)
Record ProjectionConfig := {
  pc_Name : string; BatchCheckpoints : Z; PollInterval : Z; InitialBackoff : Z;
  MaxBackoff : Z }.

(* src: pkg/enterprise/eventsource/projection.go 70-78 DefaultProjectionConfig *)
Definition DefaultProjectionConfig : ProjectionConfig :=
  {| pc_Name := ""; BatchCheckpoints := 1; PollInterval := 10 ^ 9;
     InitialBackoff := 200 * 10 ^ 6; MaxBackoff := 30 * 10 ^ 9 |}.

(** Whether the store, the checkpoints and the projector are there (not nil). *)
(* src: pkg/enterprise/eventsource/projection.go 80-88 ProjectionRunner *)
Record ProjectionRunner := {
  has_store : bool; has_checkpoints : bool; has_projector : bool;
  cfg : ProjectionConfig; types : gset string }.

(** [eventTypes] is the answer of [projector.EventTypes()], [None] for a nil projector,
    on which an empty name makes the call panic: the result is then [None]. *)
(* src: pkg/enterprise/eventsource/projection.go 90-125 NewProjectionRunner *)
Definition NewProjectionRunner (store checkpoints : bool) (eventTypes : option (list string))
    (c : ProjectionConfig) : option ProjectionRunner :=
  let def := DefaultProjectionConfig in
  let pos f := if decide (f c ≤ 0) then f def else f c in
  name ← (if decide (pc_Name c = "") then
            match eventTypes with
            | None => None
            | Some (t :: _) => Some t
            | Some [] => Some "default"
            end
          else Some (pc_Name c));
  Some {| has_store := store; has_checkpoints := checkpoints;
          has_projector := if eventTypes is Some _ then true else false;
          cfg := {| pc_Name := name; BatchCheckpoints := pos BatchCheckpoints;
                    PollInterval := pos PollInterval; InitialBackoff := pos InitialBackoff;
                    MaxBackoff := pos MaxBackoff |};
          types := list_to_set (default [] eventTypes) |}.

(* src: pkg/enterprise/eventsource/projection.go 260-266 shouldProject *)
Definition shouldProject (r : ProjectionRunner) (eventType : string) : bool :=
  if decide (types r = ∅) then true else bool_decide (eventType ∈ types r).

(* src: pkg/enterprise/eventsource/projection.go 130-136 ProjectionRunner.Checkpoint *)
Definition Runner_Checkpoint (r : ProjectionRunner) (ctx : option error)
    (cps : gmap string Checkpoint) : error + Checkpoint :=
  if has_checkpoints r then Checkpoint_Load ctx (pc_Name (cfg r)) cps
  else inl (ErrInvalidArgument "checkpoint store is required" None).

(* src: pkg/enterprise/eventsource/projection.go 138-148 ResetCheckpoint *)
Definition ResetCheckpoint (r : ProjectionRunner) (ctx : option error) (now : Z)
    : GoM error (gmap string Checkpoint) unit :=
  if has_checkpoints r then
    Checkpoint_Save ctx now
      {| cp_Name := pc_Name (cfg r); cp_Position := 0; cp_UpdatedAt := now |}
  else throw (ErrInvalidArgument "checkpoint store is required" None).

Section run.
  Context {Any P : Type} (Project : Event Any → P → option error * P).

(** What a run meets: the context when it starts, before event [i] and when the checkpoint
    behind event [i] is saved; the time after event [i]; the answer of [LoadAll]. *)
Record RunEnv := {
  startCtx : option error; loopCtx : nat → option error; saveCtx : nat → option error;
  now : nat → Z; all : error + list (Event Any) }.

(** The turns of the loop from index [i] on; [len] is [len(all)]. *)
(* src: pkg/enterprise/eventsource/projection.go 194-225 RunOnce *)
Fixpoint run_loop (r : ProjectionRunner) (env : RunEnv) (len i : nat) (evs : list (Event Any))
    (sinceLastSave : Z) (s : gmap string Checkpoint * P)
    : option error * (gmap string Checkpoint * P) :=
  match evs with
  | [] => (None, s)
  | ev :: evs' =>
      let '(cps, p) := s in
      match loopCtx env i with
      | Some err => (Some err, (cps, p))
      | None =>
          let '(err, p) := if shouldProject r (EventType ev) then Project ev p else (None, p) in
          match err with
          | Some e =>
              (Some (ErrApplyFailed ("projection failed for " +:+ EventType ev) (Some e)), (cps, p))
          | None =>
              let cp := {| cp_Name := pc_Name (cfg r); cp_Position := i64 (Z.of_nat i + 1);
                           cp_UpdatedAt := now env i |} in
              let sinceLastSave := i64 (sinceLastSave + 1) in
              if decide (BatchCheckpoints (cfg r) ≤ sinceLastSave ∨ i = (len - 1)%nat) then
                match Checkpoint_Save (saveCtx env i) (now env i) cp cps with
                | (inl e, cps) => (Some e, (cps, p))
                | (inr _, cps) => run_loop r env len (S i) evs' 0 (cps, p)
                end
              else run_loop r env len (S i) evs' sinceLastSave (cps, p)
          end
      end
  end.

(* src: pkg/enterprise/eventsource/projection.go 150-226 RunOnce *)
Definition RunOnce (r : ProjectionRunner) (env : RunEnv) (s : gmap string Checkpoint * P)
    : option error * (gmap string Checkpoint * P) :=
  match startCtx env with
  | Some err => (Some err, s)
  | None =>
      if negb (has_store r) then (Some (ErrInvalidArgument "event store is required" None), s)
      else if negb (has_checkpoints r) then
        (Some (ErrInvalidArgument "checkpoint store is required" None), s)
      else if negb (has_projector r) then
        (Some (ErrInvalidArgument "projector is required" None), s)
      else
        match Checkpoint_Load (startCtx env) (pc_Name (cfg r)) s.1 with
        | inl err => (Some err, s)
        | inr cp =>
            match all env with
            | inl err => (Some err, s)
            | inr all =>
                let start := if decide (cp_Position cp < 0) then 0 else cp_Position cp in
                let start := if decide (Z.of_nat (length all) < start) then 0 else start in
                if decide (Z.of_nat (length all) ≤ start) then (None, s)
                else
                  let i := Z.to_nat start in
                  run_loop r env (length all) i (drop i all) 0 s
            end
        end
  end.
End run.

Arguments RunEnv : clear implicits.

(** ** What has been delivered

    The projector with a log of the events it has projected. *)

Definition logged {Any P} (Project : Event Any → P → option error * P)
    (ev : Event Any) (s : P * list (Event Any)) : option error * (P * list (Event Any)) :=
  let '(err, p) := Project ev s.1 in
  (err, (p, match err with None => s.2 ++ [ev] | Some _ => s.2 end)).

Definition position (r : ProjectionRunner) (cps : gmap string Checkpoint) : Z :=
  match cps !! pc_Name (cfg r) with Some cp => cp_Position cp | None => 0 end.

Section delivery.
  Context {Any P : Type} (Project : Event Any → P → option error * P) (r : ProjectionRunner).
  Context (Hname : pc_Name (cfg r) ≠ "").
  #[local] Set Default Proof Using "Type*".

(** The events the projector is interested in. *)
Definition wanted (evs : list (Event Any)) : list (Event Any) :=
  filter (λ e, shouldProject r (EventType e) = true) evs.

Lemma wanted_app l1 l2 : wanted (l1 ++ l2) = wanted l1 ++ wanted l2.
Proof. apply filter_app. Qed.

Lemma save_position ctx now pos t cps :
  match Checkpoint_Save ctx now {| cp_Name := pc_Name (cfg r); cp_Position := pos;
          cp_UpdatedAt := t |} cps with
  | (inl _, cps') => cps' = cps
  | (inr _, cps') => position r cps' = pos
  end.
Proof.
  unfold Checkpoint_Save. go_run. destruct ctx; [done|]. rewrite decide_False by done.
  unfold position. by rewrite lookup_insert_eq.
Qed.

(** The loop delivers the wanted events up to some [k], and saves no position beyond it. *)
Lemma run_loop_spec env len i evs since cps p D res cps' p' D' :
  (i + length evs = len)%nat → Z.of_nat len < 2 ^ 63 →
  run_loop (logged Project) r env len i evs since (cps, (p, D)) = (res, (cps', (p', D'))) →
  ∃ k, (i ≤ k ≤ len)%nat ∧ D' = D ++ wanted (take (k - i) evs) ∧
    (position r cps' = position r cps ∨ Z.of_nat i < position r cps' ≤ Z.of_nat k) ∧
    (res = None → k = len ∧ (evs ≠ [] → position r cps' = Z.of_nat len)).
Proof.
  revert i since cps p D. induction evs as [|ev evs IH]; intros i since cps p D Hi Hlen; cbn [run_loop].
  { intros [= <- <- <- <-]. exists i. cbn in Hi. rewrite take_nil. cbn. rewrite app_nil_r.
    split_and!; [lia|lia|done|by left|]. intros _. split; [lia|done]. }
  cbn in Hi. destruct (loopCtx env i) as [err|].
  { intros [= <- <- <- <-]. exists i. replace (i - i)%nat with 0%nat by lia. cbn.
    rewrite app_nil_r. split_and!; [lia|lia|done|by left|done]. }
  destruct (if shouldProject r (EventType ev) then logged Project ev (p, D) else (None, (p, D)))
    as [err [p1 D1]] eqn:Ep.
  assert (if err is Some _ then D1 = D else D1 = D ++ wanted [ev]) as HD1.
  { unfold wanted. destruct (shouldProject r (EventType ev)) eqn:Es.
    - unfold logged in Ep. cbn in Ep. destruct (Project ev p) as [[e|] q]; simplify_eq; [done|].
      rewrite filter_cons_True by done. done.
    - simplify_eq. rewrite filter_cons_False by (by rewrite Es). by rewrite app_nil_r. }
  destruct err as [e|].
  { intros [= <- <- <- <-]. exists i. replace (i - i)%nat with 0%nat by lia. cbn.
    rewrite app_nil_r. split_and!; [lia|lia|done|by left|done]. }
  assert (∀ k, (i < k)%nat → wanted (take (k - i) (ev :: evs))
    = wanted [ev] ++ wanted (take (k - S i) evs)) as Htk.
  { intros k Hk. replace (k - i)%nat with (S (k - S i)) by lia.
    by rewrite <- (wanted_app [ev]). }
  destruct (decide _) as [_|Hns].
  - pose proof (save_position (saveCtx env i) (now env i) (i64 (Z.of_nat i + 1)) (now env i) cps)
      as Hsave.
    rewrite i64_id in Hsave |- * by go_lia.
    destruct (Checkpoint_Save _ _ _ cps) as [[e|[]] cps1].
    + intros [= <- <- <- <-]. exists (S i). rewrite (Htk (S i)) by lia. subst cps1.
      replace (S i - S i)%nat with 0%nat by lia. rewrite app_nil_r.
      split_and!; [lia|lia|done|by left|done].
    + intros Hr. destruct (IH (S i) 0 cps1 p1 D1 ltac:(lia) Hlen Hr)
        as (k & Hk & -> & Hpos & Hres).
      exists k. rewrite (Htk k) by lia. rewrite HD1, <- app_assoc. split_and!; [lia|lia|done| |].
      * right. destruct Hpos; lia.
      * intros Hn. destruct (Hres Hn) as [-> Hl]. split; [done|]. intros _.
        destruct evs; [|by apply Hl]. cbn in *. destruct Hpos; lia.
  - intros Hr. destruct (IH (S i) _ cps p1 D1 ltac:(lia) Hlen Hr) as (k & Hk & -> & Hpos & Hres).
    exists k. rewrite (Htk k) by lia. rewrite HD1, <- app_assoc. split_and!; [lia|lia|done| |].
    + destruct Hpos; [by left|right; lia].
    + intros Hn. destruct (Hres Hn) as [-> Hl]. split; [done|]. intros _.
      destruct evs; [|by apply Hl]. cbn in *. exfalso. apply Hns. right. lia.
Qed.

Lemma RunOnce_spec env cps p D res cps' p' D' l :
  has_store r = true → has_checkpoints r = true → has_projector r = true →
  all env = inr l → Z.of_nat (length l) < 2 ^ 63 →
  0 ≤ position r cps ≤ Z.of_nat (length l) →
  RunOnce (logged Project) r env (cps, (p, D)) = (res, (cps', (p', D'))) →
  ∃ k, (Z.to_nat (position r cps) ≤ k ≤ length l)%nat ∧
    D' = D ++ wanted (take (k - Z.to_nat (position r cps)) (drop (Z.to_nat (position r cps)) l)) ∧
    position r cps ≤ position r cps' ≤ Z.of_nat k ∧
    (res = None → k = length l ∧ position r cps' = Z.of_nat (length l)).
Proof.
  intros Hs Hc Hp Hall Hlen Hpos. unfold RunOnce. rewrite Hs, Hc, Hp, Hall. cbn [negb].
  assert (∀ m, take (m - m) (drop m l) = []) as Hnil
    by (intros m; by replace (m - m)%nat with 0%nat by lia).
  assert (∀ (e : option error) (s : gmap string Checkpoint * (P * list (Event Any))),
    (e, (cps, (p, D))) = (res, s) → (e = None → position r cps = Z.of_nat (length l)) →
    s = (cps', (p', D')) → ∃ k, (Z.to_nat (position r cps) ≤ k ≤ length l)%nat ∧
    D' = D ++ wanted (take (k - Z.to_nat (position r cps)) (drop (Z.to_nat (position r cps)) l)) ∧
    position r cps ≤ position r cps' ≤ Z.of_nat k ∧
    (res = None → k = length l ∧ position r cps' = Z.of_nat (length l))) as Hstop.
  { intros e s [= -> <-] He [= -> -> ->]. exists (Z.to_nat (position r cps')).
    rewrite Hnil, app_nil_r. split_and!; [lia|lia|done|lia|lia|].
    intros Hn. specialize (He Hn). split; lia. }
  destruct (startCtx env) as [err|]; [intros H; by eapply (Hstop (Some err))|].
  unfold Checkpoint_Load. cbn [fst].
  assert (cp_Position (default {| cp_Name := pc_Name (cfg r); cp_Position := 0;
    cp_UpdatedAt := zero_time |} (cps !! pc_Name (cfg r))) = position r cps) as Hcp
    by (unfold position; by destruct (cps !! _)).
  rewrite Hcp, (decide_False (P := position r cps < 0)) by lia.
  rewrite (decide_False (P := Z.of_nat (length l) < position r cps)) by lia.
  destruct (decide (Z.of_nat (length l) ≤ position r cps)) as [Hge|Hlt].
  { intros H. eapply (Hstop None); [exact H| |done]. lia. }
  intros H. apply run_loop_spec in H as (k & Hk & -> & Hpos' & Hres);
    [|rewrite length_drop; lia|done].
  exists k. split_and!; [lia|lia|done|lia|lia|]. intros Hn. destruct (Hres Hn) as [-> Hl].
  split; [done|]. apply Hl. intros E%(f_equal length). rewrite length_drop in E. cbn in E. lia.
Qed.

(** Successive runs; every run may find more events, behind those that were there. *)
Fixpoint run_all (envs : list (RunEnv Any)) (s : gmap string Checkpoint * (P * list (Event Any)))
    : list (option error) * (gmap string Checkpoint * (P * list (Event Any))) :=
  match envs with
  | [] => ([], s)
  | env :: envs' =>
      let '(res, s) := RunOnce (logged Project) r env s in
      let '(rs, s) := run_all envs' s in (res :: rs, s)
  end.

Inductive growing : list (Event Any) → list (RunEnv Any) → list (Event Any) → Prop :=
  | growing_nil l : growing l [] l
  | growing_cons l env l' envs l'' :
      all env = inr l' → l `prefix_of` l' → growing l' envs l'' → growing l (env :: envs) l''.

Lemma growing_prefix l envs l' : growing l envs l' → l `prefix_of` l'.
Proof. induction 1; [done|by etrans]. Qed.

(** What holds of the log [D] of deliveries between runs over [l]. *)
Definition covered (cps : gmap string Checkpoint) (D l : list (Event Any)) : Prop :=
  0 ≤ position r cps ≤ Z.of_nat (length l) ∧
  wanted (take (Z.to_nat (position r cps)) l) `sublist_of` D ∧
  Forall (λ e, e ∈ wanted l) D.

Lemma covered_prefix cps D l l' : l `prefix_of` l' → covered cps D l → covered cps D l'.
Proof.
  intros [k ->] (Hpos & Hsub & Hall). unfold covered. rewrite length_app. split_and!; [lia|lia| |].
  - rewrite take_app_le by lia. done.
  - eapply Forall_impl; [done|]. intros e He. rewrite wanted_app. set_solver.
Qed.

Lemma covered_RunOnce env cps p D res cps' p' D' l :
  has_store r = true → has_checkpoints r = true → has_projector r = true →
  all env = inr l → Z.of_nat (length l) < 2 ^ 63 → covered cps D l →
  RunOnce (logged Project) r env (cps, (p, D)) = (res, (cps', (p', D'))) →
  covered cps' D' l ∧ (res = None → position r cps' = Z.of_nat (length l)) ∧
  (res = None → D = wanted (take (Z.to_nat (position r cps)) l) → D' = wanted l).
Proof.
  intros Hs Hc Hp Hl Hlen (Hpos & Hsub & Hall) Hrun.
  destruct (RunOnce_spec _ _ _ _ _ _ _ _ _ Hs Hc Hp Hl Hlen Hpos Hrun)
    as (k & Hk & -> & Hpos' & Hres).
  set (c := Z.to_nat (position r cps)) in *. set (c' := Z.to_nat (position r cps')).
  assert (∀ m, (c ≤ m)%nat → take m l = take c l ++ take (m - c) (drop c l)) as Htake.
  { intros m Hm. rewrite take_take_drop. f_equal. lia. }
  split_and!.
  - split_and!; [lia|lia| |].
    + fold c'. rewrite (Htake c') by lia. rewrite wanted_app. apply sublist_app; [done|].
      replace (k - c)%nat with ((c' - c) + (k - c'))%nat by lia.
      rewrite <- take_take_drop, wanted_app. by apply sublist_inserts_r.
    + apply Forall_app. split; [done|]. apply Forall_forall. unfold wanted. intros e.
      rewrite !list_elem_of_filter. intros [? He]. split; [done|].
      eapply elem_of_sublist; [exact He|]. etrans; [apply sublist_take|apply sublist_drop].
  - by intros []%Hres.
  - intros Hn ->. destruct (Hres Hn) as [-> _]. rewrite <- wanted_app, <- Htake by lia.
    by rewrite firstn_all.
Qed.
End delivery.

(** C8. When the order of [LoadAll] is stable, so that every run finds the events of the run
    before and possibly more behind them, a runner that starts from an empty checkpoint
    store delivers at least once and in order: whatever runs fail, and wherever, every
    wanted event before the saved position has been projected, in the order of the store,
    and nothing else has; a run that succeeds brings the position to the end; and if all
    runs succeed, every wanted event is projected exactly once. *)
Theorem projection_at_least_once {Any P} (Project : Event Any → P → option error * P) r
    (envs : list (RunEnv Any)) l p :
  pc_Name (cfg r) ≠ "" → has_store r = true → has_checkpoints r = true →
  has_projector r = true → growing [] envs l → Z.of_nat (length l) < 2 ^ 63 →
  let '(rs, (cps, (_, D))) := run_all Project r envs (∅, (p, [])) in
  0 ≤ position r cps ≤ Z.of_nat (length l) ∧
  wanted r (take (Z.to_nat (position r cps)) l) `sublist_of` D ∧
  Forall (λ e, e ∈ wanted r l) D ∧
  (last rs = Some None → position r cps = Z.of_nat (length l)) ∧
  (Forall (λ x, x = None) rs → D = wanted r l).
Proof.
  intros Hname Hs Hc Hp Hg Hlen.
  assert (∀ l0 envs, growing l0 envs l → ∀ cps p D,
    covered r cps D l0 →
    let '(rs, (cps', (_, D'))) := run_all Project r envs (cps, (p, D)) in
    covered r cps' D' l ∧
    (last rs = Some None → position r cps' = Z.of_nat (length l)) ∧
    (Forall (λ x, x = None) rs → position r cps = Z.of_nat (length l0) → D = wanted r l0 →
       D' = wanted r l)) as Hmain.
  { clear Hg envs p. intros l0 envs Hg. induction Hg as [l|l0 env l' envs l Hall Hpre Hg IH];
      intros cps p D Hcov; cbn [run_all].
    { split_and!; done. }
    assert (l' `prefix_of` l) as Hpl by (by eapply growing_prefix). apply prefix_length in Hpl.
    assert (covered r cps D l') as Hcov' by (by eapply covered_prefix).
    destruct (RunOnce (logged Project) r env (cps, (p, D))) as [res [cps1 [p1 D1]]] eqn:E1.
    destruct (covered_RunOnce Project r Hname env _ _ _ _ _ _ _ l' Hs Hc Hp Hall ltac:(lia) Hcov' E1)
      as (Hcov1 & Hpos1 & Hex1).
    specialize (IH Hlen cps1 p1 D1 Hcov1).
    destruct (run_all Project r envs (cps1, (p1, D1))) as [rs [cps' [p' D']]] eqn:E2.
    destruct IH as (IHc & IHl & IHx). split_and!; [done| |].
    - destruct rs as [|x rs]; [|done]. cbn. intros [= ->].
      destruct envs as [|env' envs]; [|cbn in E2; destruct (RunOnce _ _ env' _);
        destruct (run_all _ _ envs _); simplify_eq].
      cbn in E2. simplify_eq. inversion Hg; subst. by apply Hpos1.
    - intros [-> Hrs]%Forall_cons Hpos ->. apply IHx; [done|by apply Hpos1|].
      apply Hex1; [done|]. rewrite Hpos, Nat2Z.id. destruct Hpre as [k ->].
      by rewrite take_app_length. }
  specialize (Hmain [] envs Hg ∅ p []).
  destruct (run_all Project r envs (∅, (p, []))) as [rs [cps [p' D]]].
  destruct Hmain as ((? & ? & ?) & ? & Hx).
  { split_and!; [done|done|apply sublist_nil_l|constructor]. }
  split_and!; try done; [lia|lia|]. intros. by apply Hx.
Qed.

(** A projector that counts, and a runner of it for all events. *)
Definition counter : Event unit → nat → option error * nat := λ _ n, (None, S n).
Definition counter_runner : ProjectionRunner :=
  default {| has_store := false; has_checkpoints := false; has_projector := false;
             cfg := DefaultProjectionConfig; types := ∅ |}
    (NewProjectionRunner true true (Some []) DefaultProjectionConfig).
Definition quiet (a : error + list (Event unit)) : RunEnv unit :=
  {| startCtx := None; loopCtx := λ _, None; saveCtx := λ _, None; now := λ _, 1; all := a |}.
Definition event (i a : string) (v : Z) : Event unit :=
  {| ID := i; AggregateID := a; AggregateType := "t"; EventType := "e"; Version := v;
     Timestamp := 1; Data := ""; Metadata := None |}.

Lemma projection_at_least_once_witness :
  let e1 := event "e1" "a" 1 in let e2 := event "e2" "a" 2 in
  let '(rs, (cps, (_, D))) :=
    run_all counter counter_runner [quiet (inr [e1]); quiet (inr [e1; e2])] (∅, (0%nat, [])) in
  rs = [None; None] ∧ D = [e1; e2].
Proof.
  intros e1 e2.
  pose proof (projection_at_least_once counter counter_runner
    [quiet (inr [e1]); quiet (inr [e1; e2])] [e1; e2] 0%nat) as H.
  destruct (run_all counter counter_runner _ _) as [rs [cps [p D]]] eqn:E.
  assert (Hrs : rs = [None; None])
    by (rewrite <- (f_equal fst E : _ = rs); vm_compute; reflexivity).
  split; [exact Hrs|]. destruct H as (_ & _ & _ & _ & H).
  - discriminate.
  - reflexivity.
  - reflexivity.
  - reflexivity.
  - eapply growing_cons; [reflexivity|by eexists|].
    eapply growing_cons; [reflexivity|by eexists|]. constructor.
  - vm_compute. reflexivity.
  - rewrite H; [reflexivity|]. rewrite Hrs. repeat constructor.
Defined.

(** The in-memory store's [LoadAll] is not stable: it concatenates the streams, so an
    event appended to a stream that is not the last one shifts the events behind it, even
    if Go ranges over the map in the same order.  A run then delivers an old event again,
    moves the checkpoint to the end, and never delivers the new event. *)
Theorem projection_skips_event :
  let e1 := event "e1" "a" 1 in let f1 := event "f1" "b" 1 in let e2 := event "e2" "a" 2 in
  let app i v e s := (Append (λ x, x) None (λ _, 1) i v [e] s).2 in
  let s1 := app "b" 0 f1 (app "a" 0 e1 ∅) in
  let s2 := app "a" 1 e2 s1 in
  let '(rs, (cps, (_, D))) :=
    run_all counter counter_runner
      [quiet (LoadAll None ["a"; "b"] s1); quiet (LoadAll None ["a"; "b"] s2);
       quiet (LoadAll None ["a"; "b"] s2)] (∅, (0%nat, [])) in
  rs = [None; None; None] ∧ D = [e1; f1; f1] ∧ position counter_runner cps = 3 ∧
  LoadAll None ["a"; "b"] s2 = inr [e1; e2; f1].
Proof. vm_compute. done. Qed.
