(* ===== verification/DurableSaga.v ===== *)
(** * pkg/workflow/saga/durable.go: sagas with persisted progress

    The durable executor saves the state of an execution after every step, in a store that
    outlives the process; [Resume] continues from what was saved.  As in [Saga], actions and
    compensations act on a world [W] that knows the time, and the context's error is a
    function of the world.  A run of the loop is a sequence of turns ([run_step]).  The
    process may be gone at any point: what is left is the store, which changes only where the
    code saves (at the end of a turn, when a step has failed, at the end), and a world, in
    which an interrupted action or compensation may have left anything. *)

From S2P Require Import Prelude Errors Saga.
From stdpp Require Import options.
Open Scope Z_scope.

Section durable.
Context {D W : Type} (nilD : D) (clock : W → Z).

(* src: pkg/workflow/saga/store.go 24-32 PersistedStepResult *)
Record PersistedStepResult := {
  p_Name : string; p_Status : ExecutionStatus; p_Output : D; p_Error : string;
  p_StartedAt : Z; p_CompletedAt : Z }.

(* src: pkg/workflow/saga/store.go 34-51 PersistedState *)
Record PersistedState := {
  s_ID : string; s_SagaName : string; s_Status : ExecutionStatus; NextStepIndex : nat;
  s_Input : D; CurrentData : D; s_Output : D; s_Error : string;
  s_Steps : list PersistedStepResult; s_StartedAt : Z; UpdatedAt : Z; s_CompletedAt : Z }.

(* src: pkg/workflow/saga/store.go 53-61 IsTerminal *)
Definition IsTerminal (s : PersistedState) : bool :=
  match s_Status s with
  | StatusCompleted | StatusCompensated | StatusFailed => true
  | _ => false
  end.

(** [Clone] copies the struct and the slice of steps: the identity on values. *)
(* src: pkg/workflow/saga/store.go 63-74 Clone *)
Definition Clone (s : PersistedState) : PersistedState := s.

(** ** The in-memory store *)

(* src: pkg/workflow/saga/adapters/memory/store.go 21-27 New *)
Definition NewStore : gmap string PersistedState := ∅.

(* src: pkg/workflow/saga/adapters/memory/store.go 29-41 Store.Save *)
Definition Save (ctx : option error) (state : PersistedState)
    : GoM error (gmap string PersistedState) unit :=
  throw_some ctx;;
  throw_if (s_ID state = "") (InvalidArgument "saga state id is required" None);;
  s ← get;
  put (<[s_ID state := Clone state]> s).

(* src: pkg/workflow/saga/adapters/memory/store.go 43-55 Store.Load *)
Definition Load (ctx : option error) (executionID : string) (s : gmap string PersistedState)
    : error + PersistedState :=
  match ctx with
  | Some err => inl err
  | None =>
      match s !! executionID with
      | None => inl (NotFound "saga execution not found" None)
      | Some st => inr (Clone st)
      end
  end.

(* src: pkg/workflow/saga/adapters/memory/store.go 57-69 Store.Delete *)
Definition Delete (ctx : option error) (executionID : string)
    : GoM error (gmap string PersistedState) unit :=
  throw_some ctx;;
  s ← get;
  _ ← unwrap (s !! executionID) (NotFound "saga execution not found" None);
  put (delete executionID s).

(** [order] is the order in which Go ranges over the map. *)
(* src: pkg/workflow/saga/adapters/memory/store.go 71-85 Store.ListIncomplete *)
Definition ListIncomplete (ctx : option error) (order : list string)
    (s : gmap string PersistedState) : error + list PersistedState :=
  match ctx with
  | Some err => inl err
  | None => inr (filter (λ st, IsTerminal st = false) (omap (λ i, s !! i) order))
  end.

(** ** The executor *)

(* src: pkg/workflow/saga/durable.go 221-250 stateToExecution *)
Definition stateToExecution (s : PersistedState) : Execution D :=
  {| ID := s_ID s; SagaName := s_SagaName s; Status := s_Status s; Input := s_Input s;
     Output := s_Output s; ErrorMsg := s_Error s; StartedAt := s_StartedAt s;
     CompletedAt := s_CompletedAt s;
     Steps := (λ r, {| r_Name := p_Name r; r_Status := p_Status r; r_Output := p_Output r;
       r_Error := if decide (p_Error r = "") then None else Some (Internal (p_Error r) None);
       r_StartedAt := p_StartedAt r; r_CompletedAt := p_CompletedAt r |}) <$> s_Steps s |}.

(** The assignments of the code to fields of [state]. *)
Definition set_status (v : ExecutionStatus) (now : Z) (s : PersistedState) : PersistedState :=
  {| s_ID := s_ID s; s_SagaName := s_SagaName s; s_Status := v;
     NextStepIndex := NextStepIndex s; s_Input := s_Input s; CurrentData := CurrentData s;
     s_Output := s_Output s; s_Error := s_Error s; s_Steps := s_Steps s;
     s_StartedAt := s_StartedAt s; UpdatedAt := now; s_CompletedAt := s_CompletedAt s |}.

Definition mark_step (v : ExecutionStatus) (err : string) (r : PersistedStepResult)
    : PersistedStepResult :=
  {| p_Name := p_Name r; p_Status := v; p_Output := p_Output r; p_Error := err;
     p_StartedAt := p_StartedAt r; p_CompletedAt := p_CompletedAt r |}.

(** [stepByName[name]]: the last step of the name. *)
(* src: pkg/workflow/saga/durable.go 176-180 compensateDurable *)
Definition step_by_name (l : list (Step D W)) (n : string) : option (Step D W) :=
  find_step n (rev l).

(** The loop over the steps of the state, from the last one. *)
(* src: pkg/workflow/saga/durable.go 182-202 compensateDurable *)
Fixpoint comp_loop (l : list (Step D W)) (rs : list PersistedStepResult)
    (firstErr : option error) (w : W) : list PersistedStepResult * option error * W :=
  match rs with
  | [] => ([], firstErr, w)
  | sr :: rs' =>
      if decide (p_Status sr ≠ StatusCompleted) then
        let '(out, e, w) := comp_loop l rs' firstErr w in (sr :: out, e, w)
      else
        match step_by_name l (p_Name sr) ≫= Compensate with
        | None =>
            let '(out, e, w) := comp_loop l rs' firstErr w in
            (mark_step StatusCompensated (p_Error sr) sr :: out, e, w)
        | Some comp =>
            match comp 0 (p_Output sr) w with
            | (inl err, w) =>
                let firstErr := match firstErr with None => Some err | _ => firstErr end in
                let '(out, e, w) := comp_loop l rs' firstErr w in
                (mark_step StatusFailed (Error err) sr :: out, e, w)
            | (inr _, w) =>
                let '(out, e, w) := comp_loop l rs' firstErr w in
                (mark_step StatusCompensated (p_Error sr) sr :: out, e, w)
            end
        end
  end.

(** The process between two turns: the state in memory, the store and the world. *)
Record conf := { state : PersistedState; store : gmap string PersistedState; world : W }.

(** What a call returns: the execution and the error, the store and the world. *)
Record result := {
  res_exec : option (Execution D); res_err : option error;
  res_store : gmap string PersistedState; res_world : W }.

(* src: pkg/workflow/saga/durable.go 175-219 compensateDurable *)
Definition compensateDurable (ctxErr : W → option error) (s : Saga D W) (c : conf)
    : option error * conf :=
  let st := state c in
  let '(rs, firstErr, w) := comp_loop (steps s) (rev (s_Steps st)) None (world c) in
  let now := clock w in
  let st := {| s_ID := s_ID st; s_SagaName := s_SagaName st;
    s_Status := match firstErr with Some _ => StatusFailed | None => StatusCompensated end;
    NextStepIndex := NextStepIndex st; s_Input := s_Input st; CurrentData := CurrentData st;
    s_Output := s_Output st;
    s_Error := match firstErr with
               | Some e => if decide (s_Error st = "") then Error e
                           else s_Error st +:+ "; compensation failed: " +:+ Error e
               | None => s_Error st end;
    s_Steps := rev rs; s_StartedAt := s_StartedAt st; UpdatedAt := now;
    s_CompletedAt := now |} in
  (firstErr, {| state := st; store := exec (Save (ctxErr w) st) (store c); world := w |}).

(** What a failed step leaves before the compensation: its state, and the attempt to save it. *)
(* src: pkg/workflow/saga/durable.go 135-144 runFrom *)
Definition fail_step (ctxErr : W → option error) (step : Step D W) (err : error) (start : Z) (c : conf) (w : W)
    : conf :=
  let st := state c in
  let sr := {| p_Name := Name step; p_Status := StatusFailed; p_Output := nilD;
               p_Error := Error err; p_StartedAt := start; p_CompletedAt := clock w |} in
  let st := {| s_ID := s_ID st; s_SagaName := s_SagaName st;
    s_Status := StatusCompensating; NextStepIndex := NextStepIndex st;
    s_Input := s_Input st; CurrentData := CurrentData st; s_Output := s_Output st;
    s_Error := Error err; s_Steps := s_Steps st ++ [sr]; s_StartedAt := s_StartedAt st;
    UpdatedAt := clock w; s_CompletedAt := s_CompletedAt st |} in
  {| state := st; store := exec (Save (ctxErr w) st) (store c); world := w |}.

(** One turn of the loop of [runFrom] at step [step], whose index is [NextStepIndex]:
    [inl] if it returns. *)
(* src: pkg/workflow/saga/durable.go 108-162 runFrom *)
Definition run_step (ctxErr : W → option error) (s : Saga D W) (step : Step D W) (c : conf)
    : result + conf :=
  let st := state c in
  let w := world c in
  match ctxErr w with
  | Some err =>
      let st := set_status StatusRunning (clock w) st in
      inl {| res_exec := Some (stateToExecution st); res_err := Some err;
             res_store := exec (Save (ctxErr w) st) (store c); res_world := w |}
  | None =>
      let start := clock w in
      let timeout := if decide (0 < Timeout step) then Timeout step else 0 in
      match Action step timeout (CurrentData st) w with
      | (inl err, w) =>
          let '(_, c) := compensateDurable ctxErr s (fail_step ctxErr step err start c w) in
          inl {| res_exec := Some (stateToExecution (state c)); res_err := Some err;
                 res_store := store c; res_world := world c |}
      | (inr output, w) =>
          let sr := {| p_Name := Name step; p_Status := StatusCompleted; p_Output := output;
                       p_Error := ""; p_StartedAt := start; p_CompletedAt := clock w |} in
          let st := {| s_ID := s_ID st; s_SagaName := s_SagaName st; s_Status := s_Status st;
            NextStepIndex := S (NextStepIndex st); s_Input := s_Input st; CurrentData := output;
            s_Output := s_Output st; s_Error := s_Error st; s_Steps := s_Steps st ++ [sr];
            s_StartedAt := s_StartedAt st; UpdatedAt := clock w;
            s_CompletedAt := s_CompletedAt st |} in
          match Save (ctxErr w) st (store c) with
          | (inl saveErr, sto) =>
              inl {| res_exec := Some (stateToExecution st);
                     res_err := Some (Internal "failed to persist saga state" (Some saveErr));
                     res_store := sto; res_world := w |}
          | (inr _, sto) => inr {| state := st; store := sto; world := w |}
          end
      end
  end.

(** The end of [runFrom], after the last step. *)
(* src: pkg/workflow/saga/durable.go 164-172 runFrom *)
Definition run_end (ctxErr : W → option error) (c : conf) : result :=
  let st := state c in
  let w := world c in
  let now := clock w in
  let st := {| s_ID := s_ID st; s_SagaName := s_SagaName st; s_Status := StatusCompleted;
    NextStepIndex := NextStepIndex st; s_Input := s_Input st; CurrentData := CurrentData st;
    s_Output := CurrentData st; s_Error := s_Error st; s_Steps := s_Steps st;
    s_StartedAt := s_StartedAt st; UpdatedAt := now; s_CompletedAt := now |} in
  match Save (ctxErr w) st (store c) with
  | (inl err, sto) =>
      {| res_exec := Some (stateToExecution st);
         res_err := Some (Internal "failed to persist saga state" (Some err));
         res_store := sto; res_world := w |}
  | (inr _, sto) =>
      {| res_exec := Some (stateToExecution st); res_err := None; res_store := sto;
         res_world := w |}
  end.

Fixpoint run_loop (ctxErr : W → option error) (s : Saga D W) (todo : list (Step D W)) (c : conf)
    : result :=
  match todo with
  | [] => run_end ctxErr c
  | step :: todo' =>
      match run_step ctxErr s step c with
      | inl r => r
      | inr c => run_loop ctxErr s todo' c
      end
  end.

(* src: pkg/workflow/saga/durable.go 104-173 runFrom *)
Definition runFrom (ctxErr : W → option error) (s : Saga D W) (c : conf) : result :=
  run_loop ctxErr s (drop (NextStepIndex (state c)) (steps s)) c.

(** [has_store] is false when the executor's store is nil. *)
(* src: pkg/workflow/saga/durable.go 23-50 DurableExecutor.Execute *)
Definition Durable_Execute (has_store : bool) (ctxErr : W → option error)
    (registry : gmap string (Saga D W)) (uid sagaName : string) (input : D)
    (sto : gmap string PersistedState) (w : W) : result :=
  let fail err := {| res_exec := None; res_err := Some err; res_store := sto; res_world := w |} in
  if negb has_store then fail (InvalidArgument "saga state store is required" None)
  else
    match Get registry sagaName with
    | None => fail (NotFound ("saga not found: " +:+ sagaName) None)
    | Some s =>
        let now := clock w in
        let st := {| s_ID := uid; s_SagaName := sagaName; s_Status := StatusRunning;
          NextStepIndex := 0; s_Input := input; CurrentData := input; s_Output := nilD;
          s_Error := ""; s_Steps := []; s_StartedAt := now; UpdatedAt := now;
          s_CompletedAt := zero_time |} in
        match Save (ctxErr w) st sto with
        | (inl err, sto) =>
            {| res_exec := None;
               res_err := Some (Internal "failed to persist saga state" (Some err));
               res_store := sto; res_world := w |}
        | (inr _, sto) => runFrom ctxErr s {| state := st; store := sto; world := w |}
        end
    end.

(* src: pkg/workflow/saga/durable.go 52-83 Resume *)
Definition Resume (has_store : bool) (ctxErr : W → option error)
    (registry : gmap string (Saga D W)) (executionID : string)
    (sto : gmap string PersistedState) (w : W) : result :=
  let fail err := {| res_exec := None; res_err := Some err; res_store := sto; res_world := w |} in
  if negb has_store then fail (InvalidArgument "saga state store is required" None)
  else
    match Load (ctxErr w) executionID sto with
    | inl err => fail err
    | inr st =>
        if IsTerminal st then
          {| res_exec := Some (stateToExecution st); res_err := None; res_store := sto;
             res_world := w |}
        else
          match Get registry (s_SagaName st) with
          | None => fail (NotFound ("saga not found: " +:+ s_SagaName st) None)
          | Some s =>
              if decide (s_Status st = StatusCompensating) then
                let '(err, c) := compensateDurable ctxErr s
                  {| state := st; store := sto; world := w |} in
                {| res_exec := Some (stateToExecution (state c)); res_err := err;
                   res_store := store c; res_world := world c |}
              else
                let st := set_status StatusRunning (clock w) st in
                match Save (ctxErr w) st sto with
                | (inl err, sto) =>
                    {| res_exec := None;
                       res_err := Some (Internal "failed to persist saga state" (Some err));
                       res_store := sto; res_world := w |}
                | (inr _, sto) => runFrom ctxErr s {| state := st; store := sto; world := w |}
                end
          end
    end.

(** The loop of [ResumeAll] over the listed executions. *)
(* src: pkg/workflow/saga/durable.go 91-101 ResumeAll *)
Fixpoint resume_loop (ctxErr : W → option error) (registry : gmap string (Saga D W))
    (l : list PersistedState) (out : list (Execution D)) (sto : gmap string PersistedState) (w : W)
    : list (Execution D) * option error * gmap string PersistedState * W :=
  match l with
  | [] => (out, None, sto, w)
  | st :: l' =>
      let r := Resume true ctxErr registry (s_ID st) sto w in
      match res_exec r, res_err r with
      | Some ex, _ => resume_loop ctxErr registry l' (out ++ [ex]) (res_store r) (res_world r)
      | None, Some err => (out, Some err, res_store r, res_world r)
      | None, None => resume_loop ctxErr registry l' out (res_store r) (res_world r)
      end
  end.

(* src: pkg/workflow/saga/durable.go 85-102 ResumeAll *)
Definition ResumeAll (ctxErr : W → option error) (registry : gmap string (Saga D W))
    (order : list string) (sto : gmap string PersistedState) (w : W)
    : list (Execution D) * option error * gmap string PersistedState * W :=
  match ListIncomplete (ctxErr w) order sto with
  | inl err => ([], Some err, sto, w)
  | inr l => resume_loop ctxErr registry l [] sto w
  end.

(** ** Progress that is saved is not lost *)

Definition done_result (r : PersistedStepResult) (so : Step D W * D) : Prop :=
  p_Name r = Name so.1 ∧ p_Output r = so.2 ∧ p_Status r = StatusCompleted.

(** A state of a run that has completed the steps [dn], latest first. *)
Record progressed (s : Saga D W) (uid : string) (dn : list (Step D W * D)) (st : PersistedState)
    : Prop := {
  pr_id : s_ID st = uid;
  pr_name : s_SagaName st = name s;
  pr_status : s_Status st = StatusRunning;
  pr_next : NextStepIndex st = length dn;
  pr_steps : Forall2 done_result (rev (s_Steps st)) dn }.

(** The call answered what the specification says, and the store holds the answer: the
    execution is over, and resuming it again changes nothing. *)
Definition settled (uid : string) (r : result) (spec : list (Step D W * D) * (error + D) * W)
    : Prop :=
  ∃ st, res_store r !! uid = Some st ∧ IsTerminal st = true ∧
    res_exec r = Some (stateToExecution st) ∧
    agrees (stateToExecution st, res_err r, res_world r) spec.

(** The completed steps [dn] were compensated in the world [w], the first error was returned,
    and the store holds the outcome: the execution is over. *)
Definition compensated (uid : string) (r : result) (dn : list (Step D W * D)) (w : W) : Prop :=
  ∃ st, res_store r !! uid = Some st ∧ IsTerminal st = true ∧
    res_exec r = Some (stateToExecution st) ∧
    let '(errs, w') := backward dn w in
    res_world r = w' ∧ res_err r = head errs ∧
    s_Status st = if decide (errs = []) then StatusCompensated else StatusFailed.

Lemma save_live uid st sto :
  uid ≠ "" → s_ID st = uid → Save None st sto = (inr tt, <[uid := st]> sto).
Proof.
  intros Huid Hid. unfold Save. go_run. rewrite Hid, decide_False by done. done.
Qed.

Lemma save_ok ctx uid st sto sto' :
  uid ≠ "" → s_ID st = uid → Save ctx st sto = (inr tt, sto') → sto' = <[uid := st]> sto.
Proof.
  intros Huid Hid. unfold Save. go_run. rewrite Hid. destruct ctx; [done|].
  rewrite decide_False by done. by intros [= <-].
Qed.

Section with_saga.
  Context (s : Saga D W) (Hnd : NoDup (Name <$> steps s)) (uid : string) (Huid : uid ≠ "").
  #[local] Set Default Proof Using "Type*".

Lemma step_by_name_self st : st ∈ steps s → step_by_name (steps s) (Name st) = Some st.
Proof.
  intros Hin. apply find_step_self.
  - by rewrite <- Permutation_rev.
  - by rewrite <- Permutation_rev.
Qed.

(** The compensation of completed steps is that of the specification; it reports the first
    error. *)
Lemma comp_loop_spec rs dn fe w :
  Forall2 done_result rs dn → Forall (λ so, so.1 ∈ steps s) dn →
  ∃ rs' errs w', backward dn w = (errs, w') ∧
    comp_loop (steps s) rs fe w = (rs', match fe with Some _ => fe | None => head errs end, w').
Proof.
  intros Hrs. revert fe w.
  induction Hrs as [|r [st out] rs dn (Hn & Ho & Hs) Hrs IH]; intros fe w Hin; cbn.
  { exists [], [], w. by destruct fe. }
  apply Forall_cons in Hin as [Hst Hin]. cbn in *.
  rewrite decide_False by (rewrite Hs; naive_solver).
  rewrite Hn, Ho, step_by_name_self by done. cbn.
  destruct (Compensate st) as [comp|].
  - destruct (comp 0 out w) as [[e|d] w1].
    + destruct (IH (match fe with None => Some e | _ => fe end) w1 Hin)
        as (rs' & errs & w' & -> & ->). eexists _, _, _. split; [done|]. by destruct fe.
    + destruct (IH fe w1 Hin) as (rs' & errs & w' & -> & ->). by eexists _, _, _.
  - destruct (IH fe w Hin) as (rs' & errs & w' & -> & ->). by eexists _, _, _.
Qed.

(** A turn that goes on is one step of the specification, and saves what it did. *)
Lemma run_step_continue ctxErr step c c' dn :
  progressed s uid dn (state c) → run_step ctxErr s step c = inr c' →
  ∃ out, progressed s uid ((step, out) :: dn) (state c') ∧
    store c' !! uid = Some (state c') ∧
    ∀ todo, forward (step :: todo) (CurrentData (state c)) dn (world c) =
            forward todo (CurrentData (state c')) ((step, out) :: dn) (world c').
Proof.
  intros [Hid Hname Hst Hnext Hsteps]. unfold run_step.
  destruct (ctxErr (world c)); [done|].
  assert ((if decide (0 < Timeout step) then Timeout step else 0) = 0 `max` Timeout step) as Ht
    by (case_decide; lia).
  rewrite Ht.
  destruct (Action step _ (CurrentData (state c)) (world c)) as [[err|out] w1] eqn:Ha.
  { by destruct (compensateDurable _ _ _). }
  destruct (Save _ _ _) as [[e|[]] sto] eqn:Es; [done|]. intros [= <-].
  apply (save_ok _ uid) in Es; [|done|done]. subst sto. exists out. split_and!; cbn.
  - split; cbn; [done|done|done|by rewrite Hnext|].
    rewrite rev_app_distr. by constructor.
  - by rewrite lookup_insert_eq.
  - intros todo. by rewrite Ha.
Qed.

Lemma run_end_settled ctxErr c dn :
  (∀ w, ctxErr w = None) → progressed s uid dn (state c) →
  settled uid (run_end ctxErr c) (dn, inr (CurrentData (state c)), world c).
Proof.
  intros Hctx [Hid _ _ _ _]. unfold run_end. rewrite Hctx, (save_live uid) by done.
  eexists. cbn. rewrite lookup_insert_eq. by split_and!.
Qed.

Lemma run_step_stop ctxErr step c dn r todo :
  (∀ w, ctxErr w = None) → progressed s uid dn (state c) →
  Forall (λ so, so.1 ∈ steps s) dn → run_step ctxErr s step c = inl r →
  settled uid r (forward (step :: todo) (CurrentData (state c)) dn (world c)).
Proof.
  intros Hctx [Hid Hname Hst Hnext Hsteps] Hin. unfold run_step. rewrite Hctx. cbn [forward].
  assert ((if decide (0 < Timeout step) then Timeout step else 0) = 0 `max` Timeout step) as Ht
    by (case_decide; lia).
  rewrite Ht.
  destruct (Action step _ (CurrentData (state c)) (world c)) as [[err|out] w1] eqn:Ha; cycle 1.
  { rewrite Hctx, (save_live uid) by done. done. }
  unfold compensateDurable, fail_step. cbn [state s_Steps world]. rewrite rev_app_distr. cbn [rev app comp_loop].
  rewrite decide_True by done. cbn [p_Status].
  destruct (comp_loop_spec (rev (s_Steps (state c))) dn None w1 Hsteps Hin)
    as (rs' & errs & w' & Hb & ->).
  intros [= <-]. eexists. cbn [res_store res_exec res_err res_world store state world].
  rewrite (Hctx w'). unfold exec. rewrite (save_live uid) by done. cbn [snd]. rewrite lookup_insert_eq.
  split_and!; [done| |done|].
  - unfold IsTerminal; cbn. by destruct (head errs).
  - unfold agrees. rewrite Hb. cbn. split_and!; [done|done|]. by destruct errs.
Qed.

Lemma run_loop_settled ctxErr todo c dn :
  (∀ w, ctxErr w = None) → progressed s uid dn (state c) →
  Forall (λ so, so.1 ∈ steps s) dn → Forall (λ st, st ∈ steps s) todo →
  settled uid (run_loop ctxErr s todo c) (forward todo (CurrentData (state c)) dn (world c)).
Proof.
  intros Hctx. revert c dn. induction todo as [|step todo IH]; intros c dn Hp Hdn Htodo.
  { by apply run_end_settled. }
  apply Forall_cons in Htodo as [Hst Htodo]. cbn [run_loop].
  destruct (run_step ctxErr s step c) as [r|c'] eqn:E; [by eapply run_step_stop|].
  destruct (run_step_continue _ _ _ _ _ Hp E) as (out & Hp' & _ & ->).
  apply IH; [done|by constructor|done].
Qed.

(** [Resume] of a state that was saved for compensation. *)
Lemma resume_compensating live registry step err start c w dn w' :
  (∀ w, live w = None) → Get registry (name s) = Some s →
  progressed s uid dn (state c) → Forall (λ so, so.1 ∈ steps s) dn →
  compensated uid (Resume true live registry uid (<[uid := state (fail_step live step err start c w)]> (store c)) w') dn w'.
Proof.
  intros Hlive Hreg [Hid Hname Hst Hnext Hsteps] Hin. unfold Resume, Load. cbn [negb]. rewrite Hlive, lookup_insert_eq.
  unfold Clone, IsTerminal. cbn [fail_step state s_Status s_SagaName]. rewrite Hname, Hreg, decide_True by done.
  unfold compensateDurable. cbn [state s_Steps world]. rewrite rev_app_distr. cbn [rev app comp_loop]. rewrite decide_True by done.
  destruct (comp_loop_spec (rev (s_Steps (state c))) dn None w' Hsteps Hin) as (rs' & errs & w2 & Hb & ->).
  eexists. cbn [res_store res_exec res_err res_world store state world]. rewrite (Hlive w2). unfold exec.
  rewrite (save_live uid) by done. cbn [snd]. rewrite lookup_insert_eq, Hb. split_and!; [done| |done|done|done|].
  - unfold IsTerminal; cbn. by destruct (head errs).
  - cbn. by destruct errs.
Qed.

(** Turns of the loop before the process is gone. *)
Inductive turns (ctxErr : W → option error) : list (Step D W) → conf → list (Step D W) → conf → Prop :=
  | turns_refl todo c : turns ctxErr todo c todo c
  | turns_step step todo c c' todo' c'' :
      run_step ctxErr s step c = inr c' → turns ctxErr todo c' todo' c'' →
      turns ctxErr (step :: todo) c todo' c''.

Lemma turns_spec ctxErr todo c todo' c' dn :
  turns ctxErr todo c todo' c' → progressed s uid dn (state c) →
  store c !! uid = Some (state c) →
  ∃ dn', progressed s uid dn' (state c') ∧ store c' !! uid = Some (state c') ∧
    rev dn.*1 ++ todo = rev dn'.*1 ++ todo' ∧
    forward todo (CurrentData (state c)) dn (world c) =
    forward todo' (CurrentData (state c')) dn' (world c').
Proof.
  intros Ht. revert dn. induction Ht as [todo c|step todo c c1 todo' c' Hs Ht IH]; intros dn Hp Hsto.
  { by exists dn. }
  destruct (run_step_continue _ _ _ _ _ Hp Hs) as (out & Hp1 & Hsto1 & Hf).
  destruct (IH _ Hp1 Hsto1) as (dn' & ? & ? & Heq & Hf'). exists dn'. split_and!; [done|done| |].
  - rewrite <- Heq. cbn. by rewrite <- app_assoc.
  - by rewrite Hf.
Qed.
End with_saga.
End durable.

Arguments PersistedStepResult : clear implicits.
Arguments PersistedState : clear implicits.
Arguments conf : clear implicits.
Arguments result : clear implicits.

(** The state [Execute] starts from. *)
Definition initial {D W} (nilD : D) (clock : W → Z) (uid : string) (s : Saga D W) (input : D)
    (w : W) : PersistedState D :=
  {| s_ID := uid; s_SagaName := name s; s_Status := StatusRunning; NextStepIndex := 0;
     s_Input := input; CurrentData := input; s_Output := nilD; s_Error := ""; s_Steps := [];
     s_StartedAt := clock w; UpdatedAt := clock w; s_CompletedAt := zero_time |}.

(** C3. Durable execution and crash recovery.  For a registered saga with distinct step
    names, [Execute] under a context that stays alive does what the in-memory [Execute] is
    specified to do (forward until a failure, then back), and leaves the outcome in the
    store.  If the process is gone after any number of turns of the loop, whatever the
    context, or inside the next action, with any effect of it on the world, [Resume] under a
    context that stays alive finds in the store what was done, runs the remaining steps from
    the interrupted one on, which is thus run again, each on the output of the one before it,
    or compensates all completed ones, and settles the execution; resumed between two turns
    in the world the process left, the whole is the uninterrupted execution.  If the process
    is gone while it compensates after a failed step whose state could be saved, [Resume]
    compensates all completed steps in the world it finds and settles the execution.
    Resuming a settled execution changes nothing. *)
Theorem durable_crash_resume {D W} (nilD : D) (clock : W → Z)
    (registry : gmap string (Saga D W)) (s : Saga D W) uid input sto w live :
  NoDup (Name <$> steps s) → uid ≠ "" → registry !! name s = Some s →
  (∀ w : W, live w = None) →
  let spec := forward (steps s) input [] w in
  let st0 := initial nilD clock uid s input w in
  settled uid (Durable_Execute nilD clock true live registry uid (name s) input sto w) spec ∧
  (∀ ctxErr todo c,
     turns nilD clock s ctxErr (steps s)
       {| state := st0; store := <[uid := st0]> sto; world := w |} todo c →
     ∃ dn, rev dn.*1 ++ todo = steps s ∧
       forward todo (CurrentData (state c)) dn (world c) = spec ∧
       (∀ w', settled uid (Resume nilD clock true live registry uid (store c) w')
                (forward todo (CurrentData (state c)) dn w')) ∧
       (∀ step todo' err w1 w', todo = step :: todo' →
          Action step (0 `max` Timeout step) (CurrentData (state c)) (world c) = (inl err, w1) → ctxErr w1 = None →
          compensated uid (Resume nilD clock true live registry uid
            (store (fail_step nilD clock ctxErr step err (clock (world c)) c w1)) w') dn w')) ∧
  (∀ sto' st w', sto' !! uid = Some st → IsTerminal st = true →
     Resume nilD clock true live registry uid sto' w' =
       {| res_exec := Some (stateToExecution st); res_err := None; res_store := sto'; res_world := w' |}).
Proof.
  intros Hnd Huid Hreg Hlive spec st0.
  assert (progressed s uid [] st0) as Hp0 by (by split).
  assert (Forall (λ st, st ∈ steps s) (steps s)) as Hall by (by apply Forall_forall).
  split_and!.
  - unfold Durable_Execute, Get. cbn [negb]. rewrite Hreg, Hlive.
    rewrite (save_live uid) by done. unfold runFrom. cbn [NextStepIndex state drop].
    by apply (run_loop_settled nilD clock s Hnd uid Huid live (steps s)
      {| state := st0; store := <[uid := st0]> sto; world := w |} []).
  - intros ctxErr todo c Ht.
    destruct (turns_spec nilD clock s Hnd uid Huid _ _ _ _ _ [] Ht Hp0)
      as (dn & Hp & Hsto & Heq & Hf); [by apply lookup_insert_eq|].
    exists dn. cbn in Heq. rewrite Heq in Hall. apply Forall_app in Hall as [Hdn Htodo].
    assert (Forall (λ so, so.1 ∈ steps s) dn) as Hin.
    { apply Forall_forall. intros so Hso. rewrite Heq. apply (proj1 (Forall_forall _ _) Hdn).
      rewrite <- Permutation_rev. by apply list_elem_of_fmap_2. }
    split_and!; [done|done| |].
    + intros w'. destruct Hp as [Hid Hname Hst Hnext Hsteps].
      unfold Resume, Load. cbn [negb]. rewrite Hlive, Hsto. unfold Clone, IsTerminal, Get.
      rewrite Hst, Hname, Hreg, decide_False by done.
      rewrite (save_live uid) by done. unfold runFrom. cbn [state set_status NextStepIndex].
      replace (drop (NextStepIndex (state c)) (steps s)) with todo; cycle 1.
      { rewrite Hnext, Heq. rewrite drop_app_length'; [done|]. by rewrite length_rev, length_fmap. }
      apply (run_loop_settled nilD clock s Hnd uid Huid live todo
        {| state := set_status StatusRunning (clock w') (state c); store := _; world := w' |} dn);
        [done|by split|done|by rewrite Heq].
    + intros step todo' err w1 w' -> _ Hctx.
      assert (store (fail_step nilD clock ctxErr step err (clock (world c)) c w1) =
        <[uid := state (fail_step nilD clock live step err (clock (world c)) c w1)]> (store c)) as ->.
      { cbn [fail_step store]. rewrite Hctx. unfold exec. rewrite (save_live uid); [done|done|apply Hp]. }
      by eapply resume_compensating.
  - intros sto' st w' Hr Hterm. unfold Resume, Load. cbn [negb]. rewrite Hlive, Hr. unfold Clone. by rewrite Hterm.
Qed.

Lemma durable_crash_resume_witness :
  let reg := Register NewRegistry sample_saga in
  let st0 := initial 0 ledger_clock "x" sample_saga 7 [] in
  ∃ c, run_step 0 ledger_clock (λ _, None) sample_saga (step_of "a" 1)
         {| state := st0; store := <["x" := st0]> ∅; world := [] |} = inr c ∧
    settled "x" (Resume 0 ledger_clock true (λ _, None) reg "x" (store c) (world c))
      (forward (steps sample_saga) 7 [] []).
Proof.
  intros reg st0. eexists. split; [vm_compute; reflexivity|].
  destruct (durable_crash_resume 0 ledger_clock reg sample_saga "x" 7 ∅ [] (λ _, None))
    as (_ & H & _); [compute_decide|discriminate|reflexivity|reflexivity|].
  edestruct (H (λ _, None)) as (dn & _ & <- & Hr & _); [|apply Hr].
  eapply turns_step; [|apply turns_refl]. vm_compute. reflexivity.
Defined.

(** A saga of two steps, in a world that is a ledger and a flag for the cancellation of the
    caller's context, which happens while the second step runs. *)
Definition add (v : Z) : ActionFunc Z (ledger * bool) := λ _ d '(l, c), (inr (d + v), (v :: l, c)).
Definition take_back : ActionFunc Z (ledger * bool) := λ _ d '(l, c), (inr 0, (tail l, c)).
Definition cut_off (v : Z) : ActionFunc Z (ledger * bool) := λ t d '(l, c),
  if c : bool then add v t d (l, c) else (inl (OtherError "context canceled"), (l, true)).
Definition two_steps : Saga Z (ledger * bool) :=
  {| name := "s";
     steps := [{| Name := "a"; Action := add 1; Compensate := Some take_back; Timeout := 0 |};
               {| Name := "b"; Action := cut_off 2; Compensate := None; Timeout := 0 |}] |}.

(** The errors of [Save] are ignored once a step has failed.  When the step fails because
    the context is cancelled, the store refuses both the state "compensating" and the final
    one: the caller is told that the saga was compensated, and it was, but the store still
    has it running behind its first step.  [Resume] then runs the second step on the output
    of the first, whose effect is gone, and reports the saga as completed. *)
Theorem durable_resumes_after_compensation :
  let reg := Register NewRegistry two_steps in
  let ctx (w : ledger * bool) := if w.2 then Some (OtherError "context canceled") else None in
  let clock (w : ledger * bool) := 0 in
  let r := Durable_Execute 0 clock true ctx reg "x" "s" 0 ∅ ([], false) in
  let r' := Resume 0 clock true (λ _, None) reg "x" (res_store r) (res_world r) in
  (Status <$> res_exec r = Some StatusCompensated ∧ (res_world r).1 = []) ∧
  (Status <$> res_exec r' = Some StatusCompleted ∧ res_err r' = None ∧ (res_world r').1 = [2]).
Proof. vm_compute. done. Qed.
