(* ===== verification/Distlock.v ===== *)
(** * pkg/concurrency/distlock: expiring locks, the in-memory adapter

    A lock object names a key and carries a value of its own; the adapter keeps, per key,
    the value of the holder and the time its hold expires.  [NewLock] takes the text of the
    current time for the value, which is an argument here and may be that of another lock:
    the theorems that need different values say so.  Locks are numbered; a run is any
    interleaving of calls on them, each with the time it happens at. *)

From S2P Require Import Prelude Errors.
From stdpp Require Import options.
Open Scope Z_scope.

(* src: pkg/concurrency/distlock/adapters/memory/memory.go 17-20 lockEntry *)
Record lockEntry := { e_value : string; expiresAt : Z }.

(* src: pkg/concurrency/distlock/adapters/memory/memory.go 46-53 Lock *)
Record Lock := { key : string; value : string; ttl : Z; held : bool }.

(** The adapter's map and the lock objects. *)
Record sys := { locks : gmap string lockEntry; objs : gmap nat Lock }.

(* src: pkg/concurrency/distlock/adapters/memory/memory.go 22-27 New *)
Definition New : sys := {| locks := ∅; objs := ∅ |}.

(** [v] is [time.Now().String()]. *)
(* src: pkg/concurrency/distlock/adapters/memory/memory.go 29-37 NewLock *)
Definition NewLock (k v : string) (d : Z) : Lock :=
  {| key := k; value := v; ttl := d; held := false |}.

Definition set_held (b : bool) (l : Lock) : Lock :=
  {| key := key l; value := value l; ttl := ttl l; held := b |}.

(* src: pkg/concurrency/distlock/adapters/memory/memory.go 55-75 Acquire *)
Definition Acquire (now : Z) (l : Lock) (m : gmap string lockEntry)
    : bool * Lock * gmap string lockEntry :=
  let take := (true, set_held true l,
    <[key l := {| e_value := value l; expiresAt := now + ttl l |}]> m) in
  match m !! key l with
  | Some entry => if decide (now < expiresAt entry) then (false, l, m) else take
  | None => take
  end.

(* src: pkg/concurrency/distlock/adapters/memory/memory.go 77-88 Release *)
Definition Release (l : Lock) (m : gmap string lockEntry) : Lock * gmap string lockEntry :=
  match m !! key l with
  | Some entry =>
      if decide (e_value entry = value l) then (set_held false l, delete (key l) m) else (l, m)
  | None => (l, m)
  end.

(* src: pkg/concurrency/distlock/adapters/memory/memory.go 90-102 Extend *)
Definition Extend (now d : Z) (l : Lock) (m : gmap string lockEntry)
    : Lock * gmap string lockEntry :=
  match m !! key l with
  | Some entry =>
      if decide (e_value entry = value l)
      then (l, <[key l := {| e_value := e_value entry; expiresAt := now + d |}]> m)
      else (set_held false l, m)
  | None => (set_held false l, m)
  end.

(* src: pkg/concurrency/distlock/adapters/memory/memory.go 104-106 IsHeld *)
Definition IsHeld (l : Lock) : bool := held l.

(* src: pkg/concurrency/distlock/adapters/memory/memory.go 39-44 Close *)
Definition Close (s : sys) : sys := {| locks := ∅; objs := objs s |}.

(** ** Acquiring with retries *)

(* src: pkg/concurrency/distlock/distlock.go 42-52 LockConfig *)
Record LockConfig := { TTL : Z; RetryDelay : Z; RetryCount : Z }.

(* src: pkg/concurrency/distlock/distlock.go 54-61 DefaultLockConfig *)
Definition DefaultLockConfig : LockConfig :=
  {| TTL := 10 * 10 ^ 9; RetryDelay := 50 * 10 ^ 6; RetryCount := 100 |}.

Section retry.
  (** The lock's [Acquire], the context's error and the [select] on the context and a timer
      act on a world. *)
  Context {W : Type} (acquire : W → (bool * option error) * W) (ctxErr : W → option error)
    (wait : Z → W → bool * W).

(* src: pkg/concurrency/distlock/distlock.go 75-100 AcquireWithRetry *)
Fixpoint acquire_loop (delay : Z) (k : nat) (w : W) : (bool * option error) * W :=
  match k with
  | O => ((false, None), w)
  | S k' =>
      match ctxErr w with
      | Some err => ((false, Some err), w)
      | None =>
          let '((acquired, err), w) := acquire w in
          match err with
          | Some e => ((false, Some e), w)
          | None =>
              if acquired : bool then ((true, None), w)
              else
                match k' with
                | O => ((false, None), w)
                | S _ =>
                    let '(done, w) := wait delay w in
                    if done : bool then ((false, ctxErr w), w) else acquire_loop delay k' w
                end
          end
      end
  end.

(* src: pkg/concurrency/distlock/distlock.go 63-101 AcquireWithRetry *)
Definition AcquireWithRetry (cfg : LockConfig) (w : W) : (bool * option error) * W :=
  let delay := if decide (RetryDelay cfg ≤ 0) then RetryDelay DefaultLockConfig
               else RetryDelay cfg in
  let count := if decide (RetryCount cfg < 0) then 0 else RetryCount cfg in
  acquire_loop delay (Z.to_nat (i64 (count + 1))) w.
End retry.

(** ** Mutual exclusion

    [lease i] is the time until which lock [i] has been told it holds its key: by its last
    successful [Acquire] or [Extend], and not given up since.  The clock does not go back. *)

Record run_state := { now : Z; st : sys; lease : gmap nat Z }.

Definition set_obj (i : nat) (l : Lock) (m : gmap string lockEntry) (s : sys) : sys :=
  {| locks := m; objs := <[i := l]> (objs s) |}.

Inductive step : run_state → run_state → Prop :=
  | step_new R i k v d :
      objs (st R) !! i = None →
      step R {| now := now R; st := set_obj i (NewLock k v d) (locks (st R)) (st R);
                lease := delete i (lease R) |}
  | step_acquire R i l t b l' m :
      now R ≤ t → objs (st R) !! i = Some l → Acquire t l (locks (st R)) = (b, l', m) →
      step R {| now := t; st := set_obj i l' m (st R);
                lease := if b : bool then <[i := t + ttl l]> (lease R) else lease R |}
  | step_release R i l t l' m :
      now R ≤ t → objs (st R) !! i = Some l → Release l (locks (st R)) = (l', m) →
      step R {| now := t; st := set_obj i l' m (st R); lease := delete i (lease R) |}
  | step_extend R i l t d l' m :
      now R ≤ t → objs (st R) !! i = Some l → Extend t d l (locks (st R)) = (l', m) →
      step R {| now := t; st := set_obj i l' m (st R);
                lease := if decide (e_value <$> locks (st R) !! key l = Some (value l))
                         then <[i := t + d]> (lease R) else delete i (lease R) |}
  | step_close R t :
      now R ≤ t → step R {| now := t; st := Close (st R); lease := ∅ |}.

Definition start (t : Z) : run_state := {| now := t; st := New; lease := ∅ |}.

(** The locks of a key carry different values. *)
Definition distinct (R : run_state) : Prop :=
  ∀ i j l l', objs (st R) !! i = Some l → objs (st R) !! j = Some l' →
    key l = key l' → value l = value l' → i = j.

(** An unexpired lease is the entry of its key. *)
Definition lease_ok (R : run_state) : Prop :=
  ∀ i e, lease R !! i = Some e → now R < e →
    ∃ l, objs (st R) !! i = Some l ∧ locks (st R) !! key l = Some {| e_value := value l; expiresAt := e |}.

(** Locks are never forgotten, and keep their keys and values. *)
Lemma objs_kept R R' i l : step R R' → objs (st R) !! i = Some l →
  ∃ l', objs (st R') !! i = Some l' ∧ key l' = key l ∧ value l' = value l.
Proof.
  assert (∀ s m k l0 l1, objs s !! k = Some l0 → key l1 = key l0 → value l1 = value l0 → objs s !! i = Some l →
    ∃ l', objs (set_obj k l1 m s) !! i = Some l' ∧ key l' = key l ∧ value l' = value l) as Hset.
  { intros s m k l0 l1 H0 Hk Hv Hi. cbn. destruct (decide (k = i)) as [->|Hne].
    - rewrite lookup_insert_eq. exists l1. rewrite H0 in Hi. by injection Hi as <-.
    - rewrite lookup_insert_ne by done. eauto. }
  intros Hs Hl. destruct Hs as [R k0 k v d Hi|R k0 l0 t b l1 m Ht Hi E|R k0 l0 t l1 m Ht Hi E|R k0 l0 t d l1 m Ht Hi E|R t Ht]; cbn [st].
  - cbn. rewrite lookup_insert_ne by congruence. eauto.
  - eapply Hset; [done| | |done]; unfold Acquire in E; repeat case_match; by simplify_eq.
  - eapply Hset; [done| | |done]; unfold Release in E; repeat case_match; by simplify_eq.
  - eapply Hset; [done| | |done]; unfold Extend in E; repeat case_match; by simplify_eq.
  - eauto.
Qed.

Lemma distinct_before R R' : step R R' → distinct R' → distinct R.
Proof.
  intros Hs Hd i j l l' Hi Hj Hk Hv. destruct (objs_kept R R' i l Hs Hi) as (l1 & H1 & K1 & V1).
  destruct (objs_kept R R' j l' Hs Hj) as (l2 & H2 & K2 & V2). eapply Hd; [exact H1|exact H2|congruence|congruence].
Qed.

(** Lock [i] has acted at time [t] and left the map [m]: leases of the others are kept if
    the entries of their keys are, and its own lease must match the map. *)
Lemma lease_act R i l l' t m ls :
  lease_ok R → now R ≤ t → objs (st R) !! i = Some l → key l' = key l → value l' = value l →
  (∀ j e, j ≠ i → ls !! j = Some e → lease R !! j = Some e) →
  (∀ j lj e, j ≠ i → objs (st R) !! j = Some lj →
     locks (st R) !! key lj = Some {| e_value := value lj; expiresAt := e |} → t < e →
     m !! key lj = Some {| e_value := value lj; expiresAt := e |}) →
  (∀ e, ls !! i = Some e → t < e → m !! key l = Some {| e_value := value l; expiresAt := e |}) →
  lease_ok {| now := t; st := set_obj i l' m (st R); lease := ls |}.
Proof.
  intros Hl Ht Hi Hk Hval Hls Hm Hown j e He Hlt. cbn [st now lease] in *. destruct (decide (j = i)) as [->|Hne].
  - exists l'. cbn. rewrite lookup_insert_eq, Hk, Hval. auto.
  - destruct (Hl j e (Hls _ _ Hne He)) as (lj & Hj & Hm'); [lia|]. exists lj. cbn.
    rewrite lookup_insert_ne by done. split; [done|]. by apply (Hm j).
Qed.

Lemma lease_step R R' : distinct R → lease_ok R → step R R' → lease_ok R'.
Proof.
  intros Hv Hl Hs.
  destruct Hs as [R i k v d Hi|R i l t b l' m Ht Hi E|R i l t l' m Ht Hi E
    |R i l t d l' m Ht Hi E|R t Ht].
  - intros j e. cbn [lease now st]. intros [Hne He]%lookup_delete_Some Hlt. destruct (Hl j e He Hlt) as (lj & Hj & Hm).
    exists lj. cbn. by rewrite lookup_insert_ne.
  - unfold Acquire in E.
    assert (b = false ∧ l' = l ∧ m = locks (st R) ∨
      b = true ∧ l' = set_held true l ∧
      m = <[key l := {| e_value := value l; expiresAt := t + ttl l |}]> (locks (st R)) ∧
      ∀ en, locks (st R) !! key l = Some en → expiresAt en ≤ t) as [(-> & El & ->)|(-> & -> & -> & Hex)].
    { destruct (locks (st R) !! key l) as [en|]; [destruct (decide (t < expiresAt en))|];
        simplify_eq; [by left|right; split_and!; try done..].
      intros ? [= <-]. lia. }
    + subst l'. apply (lease_act R i l); try done. intros e He Hlt. destruct (Hl i e He) as (li & Hli & ?); [lia|].
      by simplify_eq.
    + apply (lease_act R i l); try done.
      * intros j e Hne. by rewrite lookup_insert_ne.
      * intros j lj e Hne Hj Hm Hlt. rewrite lookup_insert_ne; [done|]. intros Hk.
        specialize (Hex _ ltac:(by rewrite Hk)). cbn in Hex. lia.
      * intros e. rewrite !lookup_insert_eq. congruence.
  - unfold Release in E. apply (lease_act R i l); try done.
    + repeat case_match; by simplify_eq.
    + repeat case_match; by simplify_eq.
    + intros j e Hne. by rewrite lookup_delete_ne.
    + intros j lj e Hne Hj Hm Hlt. destruct (locks (st R) !! key l) as [en|] eqn:Hen; [|by simplify_eq].
      destruct (decide (e_value en = value l)); simplify_eq; [|done].
      rewrite lookup_delete_ne; [done|]. intros Hk. apply Hne. apply (Hv j i lj l Hj Hi); [done|].
      rewrite Hk in Hen. rewrite Hen in Hm. by injection Hm as ->.
    + intros e. by rewrite lookup_delete_eq.
  - unfold Extend in E. destruct (locks (st R) !! key l) as [en|] eqn:Hen; cycle 1.
    { simplify_eq. rewrite decide_False by done. apply (lease_act R i l); try done.
      - intros j e Hne. by rewrite lookup_delete_ne.
      - intros e. by rewrite lookup_delete_eq. }
    cbn. destruct (decide (e_value en = value l)) as [Hval|Hval]; injection E as <- <-.
    + rewrite decide_True by congruence. apply (lease_act R i l); try done.
      * intros j e Hne. by rewrite lookup_insert_ne.
      * intros j lj e Hne Hj Hm Hlt. rewrite lookup_insert_ne; [done|]. intros Hk. apply Hne.
        apply (Hv j i lj l Hj Hi); [done|]. rewrite Hk in Hen. rewrite Hen in Hm.
        by injection Hm as ->.
      * intros e. rewrite !lookup_insert_eq. intros [= <-] _. by rewrite Hval.
    + rewrite decide_False by congruence. apply (lease_act R i l); try done.
      * intros j e Hne. by rewrite lookup_delete_ne.
      * intros e. by rewrite lookup_delete_eq.
  - by intros i e.
Qed.

Lemma lock_run_inv t R : rtc step (start t) R → distinct R → lease_ok R.
Proof.
  apply (rtc_ind_r (λ R, distinct R → lease_ok R)); [by intros _ i e|]. intros R1 R2 _ Hs IH Hd.
  pose proof (distinct_before _ _ Hs Hd). eapply lease_step; eauto.
Qed.

(** C14. In every interleaving of calls on the locks at times that do not go back, in which no
    two locks of a key were created with the same value (the text of the time), two locks of
    a key never have unexpired leases at the same time; and an unexpired lease is safe:
    another lock's [Acquire] is refused, and its [Release] and [Extend] leave the entry
    alone. *)
Theorem distlock_mutual_exclusion t R i j li lj ei ej :
  rtc step (start t) R → distinct R →
  objs (st R) !! i = Some li → objs (st R) !! j = Some lj → key li = key lj →
  lease R !! i = Some ei → now R < ei →
  (lease R !! j = Some ej → now R < ej → i = j) ∧
  (i ≠ j → ∀ t', now R ≤ t' < ei →
     (Acquire t' lj (locks (st R))).1.1 = false ∧
     (Release lj (locks (st R))).2 = locks (st R) ∧
     ∀ d, (Extend t' d lj (locks (st R))).2 = locks (st R)).
Proof.
  intros Hrun Hv Hi Hj Hk Hei Hlt. pose proof (lock_run_inv t R Hrun Hv) as Hl.
  destruct (Hl i ei Hei Hlt) as (l & Hi' & Hm). rewrite Hi in Hi'. injection Hi' as <-.
  split.
  - intros Hej Hltj. destruct (Hl j ej Hej Hltj) as (l & Hj' & Hm').
    rewrite Hj in Hj'. injection Hj' as <-. apply (Hv i j li lj); try done.
    rewrite <- Hk, Hm in Hm'. by injection Hm'.
  - intros Hne t' Ht'. assert (value li ≠ value lj) as Hval by (intros ?; by apply Hne, (Hv i j li lj)).
    unfold Acquire, Release, Extend. rewrite <- Hk, Hm. cbn.
    rewrite decide_True by lia. rewrite decide_False by done.
    split_and!; [done|done|]. intros d. by rewrite decide_False.
Qed.

Lemma distlock_mutual_exclusion_witness :
  ∃ R, rtc step (start 0) R ∧ lease R !! 0%nat = Some 10 ∧
    (Acquire 5 (NewLock "k" "w" 10) (locks (st R))).1.1 = false.
Proof.
  set (R1 := {| now := 0; st := set_obj 0 (NewLock "k" "v" 10) ∅ New; lease := ∅ |}).
  set (R2 := {| now := 0; st := set_obj 1 (NewLock "k" "w" 10) ∅ (st R1); lease := ∅ |}).
  set (a := Acquire 0 (NewLock "k" "v" 10) ∅).
  set (R3 := {| now := 0; st := set_obj 0 a.1.2 a.2 (st R2); lease := <[0%nat := 10]> ∅ |}).
  assert (Hr : rtc step (start 0) R3).
  { eapply rtc_l; [apply (step_new (start 0) 0 "k" "v" 10); reflexivity|].
    eapply rtc_l; [apply (step_new R1 1 "k" "w" 10); reflexivity|].
    eapply rtc_l; [apply (step_acquire R2 0 (NewLock "k" "v" 10) 0 true); reflexivity|].
    apply rtc_refl. }
  assert (Hd : distinct R3).
  { intros i j l l' Hi Hj _. cbn in Hi, Hj. rewrite !lookup_insert_Some, lookup_empty in Hi, Hj.
    destruct Hi as [[<- <-]|[_ [[<- <-]|[_ [[<- <-]|[_ ?]]]]]], Hj as [[<- <-]|[_ [[<- <-]|[_ [[<- <-]|[_ ?]]]]]]; done. }
  exists R3. split; [exact Hr|]. split; [reflexivity|].
  apply (proj2 (distlock_mutual_exclusion 0 R3 0 1 (set_held true (NewLock "k" "v" 10))
    (NewLock "k" "w" 10) 10 10 Hr Hd eq_refl eq_refl eq_refl eq_refl ltac:(cbn; lia))); [done|].
  cbn. lia.
Defined.

(** Locks that were created with the same text of the time are one lock to the adapter: the
    [Release] of the second, which was refused, deletes the hold of the first, and a third
    lock takes the key while the lease of the first lasts. *)
Theorem distlock_same_value_breaks :
  let a := NewLock "k" "v" 10 in let b := NewLock "k" "v" 10 in let c := NewLock "k" "w" 10 in
  let '(ok_a, a, m) := Acquire 0 a ∅ in
  let '(ok_b, b, m) := Acquire 1 b m in
  let '(b, m) := Release b m in
  let '(ok_c, c, m) := Acquire 2 c m in
  (ok_a, ok_b, ok_c) = (true, false, true) ∧ IsHeld a = true ∧ IsHeld c = true.
Proof. vm_compute. done. Qed.

(** [IsHeld] does not know about expiry: after another lock has taken the key over, both
    report that they hold it. *)
Theorem distlock_both_held :
  let a := NewLock "k" "v" 10 in let b := NewLock "k" "w" 10 in
  let '(_, a, m) := Acquire 0 a ∅ in
  let '(ok, b, m) := Acquire 10 b m in
  ok = true ∧ IsHeld a = true ∧ IsHeld b = true ∧ (e_value <$> m !! "k") = Some "w".
Proof. vm_compute. done. Qed.
