(* ===== verification/Scheduler.v ===== *)
(** * pkg/workflow/scheduler

    Scheduled jobs: the scheduler's tables, its in-memory store, and the goroutines that run due
    jobs, on any number of nodes that share the expiring locks of Distlock.v.  The cron parser
    (robfig/cron) and the verb %q of package fmt are classes; the clock and the identifiers are
    arguments, and a handler is a value of an arbitrary type, its outcome an argument. *)

From S2P Require Import Prelude Errors Distlock.
From stdpp Require Import options.
Open Scope Z_scope.
#[local] Set Default Proof Using "Type*".

(* src: pkg/workflow/scheduler/scheduler.go 14-22 JobStatus *)
Inductive JobStatus := NoStatus | JobStatusPending | JobStatusRunning | JobStatusCompleted | JobStatusFailed | JobStatusSkipped.

(* src: pkg/workflow/scheduler/scheduler.go 28-55 Job *)
Record Job := {
  ID : string; Name : string; Schedule_ : string; NextRun : Z; LastRun : Z; LastStatus : JobStatus; Timeout : Z; Enabled : bool; CreatedAt : Z }.

(* src: pkg/workflow/scheduler/scheduler.go 58-76 JobExecution *)
Record JobExecution := { x_ID : string; JobID : string; Status : JobStatus; Error : string; StartedAt : Z; CompletedAt : Z }.

Definition set_enabled (b : bool) (j : Job) : Job :=
  {| ID := ID j; Name := Name j; Schedule_ := Schedule_ j; NextRun := NextRun j; LastRun := LastRun j; LastStatus := LastStatus j; Timeout := Timeout j; Enabled := b; CreatedAt := CreatedAt j |}.
Definition set_next (t : Z) (j : Job) : Job :=
  {| ID := ID j; Name := Name j; Schedule_ := Schedule_ j; NextRun := t; LastRun := LastRun j; LastStatus := LastStatus j; Timeout := Timeout j; Enabled := Enabled j; CreatedAt := CreatedAt j |}.
Definition set_last (t : Z) (st : JobStatus) (j : Job) : Job :=
  {| ID := ID j; Name := Name j; Schedule_ := Schedule_ j; NextRun := NextRun j; LastRun := t; LastStatus := st; Timeout := Timeout j; Enabled := Enabled j; CreatedAt := CreatedAt j |}.

(** ** The store *)

(* src: pkg/workflow/scheduler/store.go 28-32 MemoryStore *)
Record MemoryStore := { s_jobs : gmap string Job; s_executions : gmap string (list JobExecution) }.

(* src: pkg/workflow/scheduler/store.go 35-41 NewMemoryStore *)
Definition NewMemoryStore : MemoryStore := {| s_jobs := ∅; s_executions := ∅ |}.

(* src: pkg/workflow/scheduler/store.go 44-53 SaveJob *)
Definition SaveJob (job : Job) (s : MemoryStore) : option error * MemoryStore :=
  if decide (Name job = "") then (Some (InvalidArgument "job name required" None), s)
  else (None, {| s_jobs := <[Name job := job]> (s_jobs s); s_executions := s_executions s |}).

(* src: pkg/workflow/scheduler/store.go 56-65 GetJob *)
Definition store_GetJob (name : string) (s : MemoryStore) : error + Job :=
  match s_jobs s !! name with Some job => inr job | None => inl (NotFound "job not found" None) end.

(* src: pkg/workflow/scheduler/store.go 80-88 DeleteJob *)
Definition DeleteJob (name : string) (s : MemoryStore) : option error * MemoryStore :=
  match s_jobs s !! name with
  | Some _ => (None, {| s_jobs := delete name (s_jobs s); s_executions := s_executions s |})
  | None => (Some (NotFound "job not found" None), s)
  end.

(* src: pkg/workflow/scheduler/store.go 91-100 SaveExecution *)
Definition SaveExecution (jobName : string) (exec : JobExecution) (s : MemoryStore) : MemoryStore :=
  {| s_jobs := s_jobs s; s_executions := <[jobName := default [] (s_executions s !! jobName) ++ [exec]]> (s_executions s) |}.

(* src: pkg/workflow/scheduler/store.go 103-113 ListExecutions *)
Definition ListExecutions (jobName : string) (s : MemoryStore) : list JobExecution := default [] (s_executions s !! jobName).

(** ** When a job runs next *)

(** [standardParser.Parse], and [fmt.Sprintf("%q")]. *)
Class Cron := { Parse : string → error + (Z → Z); Quote : string → string }.

Section scheduler.
  Context {C : Cron} {H : Type}.

(* src: pkg/workflow/scheduler/cron.go 23-40 nextRunTime *)
Definition nextRunTime (schedule : string) (from : Z) : error + Z :=
  if decide (schedule = "") then inl (InvalidArgument "empty schedule" None)
  else if decide (schedule = "once") then inr zero_time
  else match Parse schedule with
  | inl err => inl (InvalidArgument ("invalid cron schedule " +:+ Quote schedule) (Some err))
  | inr next =>
      if decide (next from = zero_time) then inl (FailedPrecondition ("cron schedule " +:+ Quote schedule +:+ " produced no next run") None)
      else inr (next from)
  end.

(** ** The scheduler of a node *)

(* src: pkg/workflow/scheduler/scheduler.go 81-91 Scheduler *)
Record Scheduler := {
  store : option MemoryStore; jobs : gmap string Job; handlers : gmap string H; executions : gmap string (list JobExecution);
  running : bool; interval : Z }.

(* src: pkg/workflow/scheduler/scheduler.go 100-110 New *)
Definition New (st : option MemoryStore) : Scheduler :=
  {| store := st; jobs := ∅; handlers := ∅; executions := ∅; running := false; interval := 60 * 10 ^ 9 |}.

Definition set_jobs (js : gmap string Job) (s : Scheduler) : Scheduler :=
  {| store := store s; jobs := js; handlers := handlers s; executions := executions s; running := running s; interval := interval s |}.
Definition set_store (st : option MemoryStore) (s : Scheduler) : Scheduler :=
  {| store := st; jobs := jobs s; handlers := handlers s; executions := executions s; running := running s; interval := interval s |}.
Definition set_running (b : bool) (s : Scheduler) : Scheduler :=
  {| store := store s; jobs := jobs s; handlers := handlers s; executions := executions s; running := b; interval := interval s |}.
Definition record_execution (name : string) (exec : JobExecution) (s : Scheduler) : Scheduler :=
  {| store := store s; jobs := jobs s; handlers := handlers s; executions := <[name := default [] (executions s !! name) ++ [exec]]> (executions s);
     running := running s; interval := interval s |}.

(** [s.store.SaveJob], if there is a store; its error. *)
Definition save (job : Job) (s : Scheduler) : option error * Scheduler :=
  match store s with
  | None => (None, s)
  | Some st => let '(err, st) := SaveJob job st in (err, set_store (Some st) s)
  end.

(* src: pkg/workflow/scheduler/scheduler.go 113-120 SetTickInterval *)
Definition SetTickInterval (d : Z) (s : Scheduler) : Scheduler :=
  if decide (d ≤ 0) then s
  else {| store := store s; jobs := jobs s; handlers := handlers s; executions := executions s; running := running s; interval := d |}.

Definition add_job (now next : Z) (uuid name schedule : string) (h : H) (s : Scheduler) : option error * Scheduler :=
  let job := {| ID := uuid; Name := name; Schedule_ := schedule; NextRun := next; LastRun := zero_time; LastStatus := NoStatus;
                Timeout := 3600 * 10 ^ 9; Enabled := true; CreatedAt := now |} in
  save job {| store := store s; jobs := <[name := job]> (jobs s); handlers := <[name := h]> (handlers s); executions := executions s;
              running := running s; interval := interval s |}.

(* src: pkg/workflow/scheduler/scheduler.go 123-159 Schedule *)
Definition Schedule (now : Z) (uuid name schedule : string) (handler : option H) (s : Scheduler) : option error * Scheduler :=
  if decide (name = "") then (Some (InvalidArgument "job name required" None), s)
  else match handler with
  | None => (Some (InvalidArgument "job handler required" None), s)
  | Some h =>
      match nextRunTime schedule now with
      | inl err => (Some (InvalidArgument "invalid schedule" (Some err)), s)
      | inr next => add_job now next uuid name schedule h s
      end
  end.

(* src: pkg/workflow/scheduler/scheduler.go 162-193 ScheduleOnce *)
Definition ScheduleOnce (now : Z) (uuid name : string) (runAt : Z) (handler : option H) (s : Scheduler) : option error * Scheduler :=
  if decide (name = "") then (Some (InvalidArgument "job name required" None), s)
  else match handler with
  | None => (Some (InvalidArgument "job handler required" None), s)
  | Some h => add_job now runAt uuid name "once" h s
  end.

(* src: pkg/workflow/scheduler/scheduler.go 196-209 Start *)
Definition Start (s : Scheduler) : option error * Scheduler :=
  if running s then (Some (Conflict "scheduler already running" None), s) else (None, set_running true s).

(* src: pkg/workflow/scheduler/scheduler.go 212-220 Stop *)
Definition Stop (s : Scheduler) : Scheduler := set_running false s.

Definition due (now : Z) (job : Job) : bool := Enabled job && negb (bool_decide (NextRun job = zero_time)) && negb (bool_decide (now < NextRun job)).

(** The names of the jobs for which a tick starts a goroutine. *)
(* src: pkg/workflow/scheduler/scheduler.go 238-254 tick *)
Definition tick (now : Z) (s : Scheduler) : list string := Name <$> filter (λ job, due now job = true) (map_to_list (jobs s)).*2.

(** What a goroutine finds: the time its lock will live, the job's identifier and the handler. *)
(* src: pkg/workflow/scheduler/scheduler.go 257-269 executeJob *)
Definition lookup_job (name : string) (s : Scheduler) : option (Z * string * H) :=
  job ← jobs s !! name;
  handler ← handlers s !! name;
  Some (if decide (Timeout job ≤ 0) then 30 * 10 ^ 9 else Timeout job, ID job, handler).

Definition completed (uuid jobID : string) (startedAt now : Z) (err : option string) : JobExecution :=
  {| x_ID := uuid; JobID := jobID; Status := match err with Some _ => JobStatusFailed | None => JobStatusCompleted end;
     Error := default "" err; StartedAt := startedAt; CompletedAt := now |}.

(** The handler of a due job has returned: the state under the lock, and the copy to save. *)
(* src: pkg/workflow/scheduler/scheduler.go 295-323 executeJob *)
Definition finish (now now' : Z) (name uuid jobID : string) (startedAt : Z) (err : option string) (s : Scheduler)
    : option (Job * JobExecution) * Scheduler :=
  match jobs s !! name with
  | None => (None, s)
  | Some job =>
      let exec := completed uuid jobID startedAt now err in
      let job := set_last (StartedAt exec) (Status exec) job in
      let job := if decide (Schedule_ job ≠ "once") then match nextRunTime (Schedule_ job) now' with inr next => set_next next job | inl _ => job end
                 else set_enabled false job in
      (Some (job, exec), record_execution name exec (set_jobs (<[name := job]> (jobs s)) s))
  end.

(** The same in [RunNow], which keeps the time of the next run. *)
(* src: pkg/workflow/scheduler/scheduler.go 424-439 RunNow *)
Definition finish_now (now : Z) (name uuid jobID : string) (startedAt : Z) (err : option string) (s : Scheduler) : option Job * JobExecution * Scheduler :=
  let exec := completed uuid jobID startedAt now err in
  let job := set_last (StartedAt exec) (Status exec) <$> jobs s !! name in
  let s := match job with Some job => set_jobs (<[name := job]> (jobs s)) s | None => s end in
  (job, exec, record_execution name exec s).

(** The saves after the lock, which ignore errors. *)
(* src: pkg/workflow/scheduler/scheduler.go 325-328 executeJob *)
Definition save_both (name : string) (job : option Job) (exec : JobExecution) (s : Scheduler) : Scheduler :=
  let s := match job with Some job => (save job s).2 | None => s end in
  match store s with None => s | Some st => set_store (Some (SaveExecution name exec st)) s end.

(* src: pkg/workflow/scheduler/scheduler.go 332-342 GetJob *)
Definition GetJob (name : string) (s : Scheduler) : error + Job :=
  match jobs s !! name with Some job => inr job | None => inl (NotFound "job not found" None) end.

(* src: pkg/workflow/scheduler/scheduler.go 345-355 ListJobs *)
Definition ListJobs (s : Scheduler) : list Job := (map_to_list (jobs s)).*2.

Definition switch (b : bool) (name : string) (s : Scheduler) : option error * Scheduler :=
  match jobs s !! name with
  | None => (Some (NotFound "job not found" None), s)
  | Some job => (None, (save (set_enabled b job) (set_jobs (<[name := set_enabled b job]> (jobs s)) s)).2)
  end.

(* src: pkg/workflow/scheduler/scheduler.go 358-371 EnableJob *)
Definition EnableJob : string → Scheduler → option error * Scheduler := switch true.

(* src: pkg/workflow/scheduler/scheduler.go 374-387 DisableJob *)
Definition DisableJob : string → Scheduler → option error * Scheduler := switch false.
End scheduler.
Arguments Scheduler H : clear implicits.

(** ** Nodes that share the locks *)

Section nodes.
  Context {C : Cron} {H : Type}.

(** A goroutine that runs a job, by what it does next; [till] is the end of its lease. *)
Inductive phase :=
  | Started
  | Looked (ttl : Z) (jobID : string) (h : H)
  | Running (till : Z) (jobID : string) (startedAt : Z) (h : H)
  | Saving (till : Z) (job : option Job) (exec : JobExecution)
  | Releasing (till : Z)
  | Done.
Record goroutine := Goroutine { g_node : nat; g_name : string; g_now : bool; g_phase : phase }.
Definition at_phase (ph : phase) (g : goroutine) : goroutine := Goroutine (g_node g) (g_name g) (g_now g) ph.

Record world := { dl : Distlock.run_state; nodes : gmap nat (Scheduler H); procs : gmap nat goroutine }.
Definition set_dl (d : Distlock.run_state) (w : world) : world := {| dl := d; nodes := nodes w; procs := procs w |}.
Definition set_node (n : nat) (s : Scheduler H) (w : world) : world := {| dl := dl w; nodes := <[n := s]> (nodes w); procs := procs w |}.
Definition set_proc (i : nat) (ph : phase) (g : goroutine) (w : world) : world := {| dl := dl w; nodes := nodes w; procs := <[i := at_phase ph g]> (procs w) |}.

(* src: pkg/workflow/scheduler/scheduler.go 271-271 executeJob *)
Definition lock_key (name : string) : string := "workflow:scheduler:" +:+ name.

(** The calls of the interface that change a node. *)
Inductive api : Scheduler H → Scheduler H → Prop :=
  | api_schedule s now uuid name sched h : api s (Schedule now uuid name sched h s).2
  | api_once s now uuid name runAt h : api s (ScheduleOnce now uuid name runAt h s).2
  | api_enable s name : api s (EnableJob name s).2
  | api_disable s name : api s (DisableJob name s).2
  | api_interval s d : api s (SetTickInterval d s)
  | api_start s : api s (Start s).2
  | api_stop s : api s (Stop s).

(** [RunNow] saves through its pointer: the entry of the table, unless it was replaced. *)
Definition pointed (name : string) (job : Job) (s : Scheduler H) : Job :=
  match jobs s !! name with Some j => if decide (ID j = ID job) then j else job | None => job end.

(** The lock of the goroutine, made with value [v] and tried at time [t]. *)
Definition try_lock (i : nat) (name v : string) (ttl t : Z) (d : Distlock.run_state) : bool * Distlock.run_state :=
  let l := NewLock (lock_key name) v ttl in
  let '(ok, l', m) := Acquire t l (locks (st d)) in
  (ok, {| Distlock.now := t; st := set_obj i l' m (set_obj i l (locks (st d)) (st d));
          lease := if ok : bool then <[i := t + ttl]> (delete i (lease d)) else delete i (lease d) |}).

Inductive wstep : world → world → Prop :=
  | w_api w n s s' : nodes w !! n = Some s → api s s' → wstep w (set_node n s' w)
  | w_tick w n s t ids :
      nodes w !! n = Some s → Distlock.now (dl w) ≤ t → length ids = length (tick t s) → NoDup ids → (∀ i, i ∈ ids → procs w !! i = None) →
      wstep w {| dl := dl w; nodes := nodes w;
                 procs := list_to_map (zip ids ((λ name, Goroutine n name false Started) <$> tick t s)) ∪ procs w |}
  | w_run_now w n s name i :
      nodes w !! n = Some s → procs w !! i = None → wstep w (set_proc i Started (Goroutine n name true Started) w)
  | w_lookup w i g s :
      procs w !! i = Some g → g_phase g = Started → nodes w !! g_node g = Some s →
      wstep w (set_proc i (match lookup_job (g_name g) s with Some (ttl, id, h) => Looked ttl id h | None => Done end) g w)
  | w_lock w i g ttl id h v t t' ok d :
      procs w !! i = Some g → g_phase g = Looked ttl id h → objs (st (dl w)) !! i = None →
      Distlock.now (dl w) ≤ t ≤ t' → try_lock i (g_name g) v ttl t (dl w) = (ok, d) →
      wstep w (set_dl d (set_proc i (if ok : bool then Running (t + ttl) id t' h else Done) g w))
  | w_finish w i g till id startedAt h now now' uuid err s r s' :
      procs w !! i = Some g → g_phase g = Running till id startedAt h → g_now g = false → nodes w !! g_node g = Some s →
      finish now now' (g_name g) uuid id startedAt err s = (r, s') →
      wstep w (set_node (g_node g) s' (set_proc i (match r with Some (job, exec) => Saving till (Some job) exec | None => Releasing till end) g w))
  | w_finish_now w i g till id startedAt h now uuid err s job exec s' :
      procs w !! i = Some g → g_phase g = Running till id startedAt h → g_now g = true → nodes w !! g_node g = Some s →
      finish_now now (g_name g) uuid id startedAt err s = (job, exec, s') →
      wstep w (set_node (g_node g) s' (set_proc i (Saving till job exec) g w))
  | w_save w i g till job exec s :
      procs w !! i = Some g → g_phase g = Saving till job exec → nodes w !! g_node g = Some s →
      let job := if g_now g then (λ j, pointed (g_name g) j s) <$> job else job in
      wstep w (set_node (g_node g) (save_both (g_name g) job exec s) (set_proc i (Releasing till) g w))
  | w_release w i g till l t l' m :
      procs w !! i = Some g → g_phase g = Releasing till → Distlock.now (dl w) ≤ t → objs (st (dl w)) !! i = Some l →
      Release l (locks (st (dl w))) = (l', m) →
      wstep w (set_dl {| Distlock.now := t; st := set_obj i l' m (st (dl w)); lease := delete i (lease (dl w)) |} (set_proc i Done g w)).

(** From the acquisition to the release. *)
Definition holds (ph : phase) : option Z :=
  match ph with Running till _ _ _ | Saving till _ _ | Releasing till => Some till | _ => None end.

Definition world_start (t : Z) (ns : gmap nat (Scheduler H)) : world := {| dl := Distlock.start t; nodes := ns; procs := ∅ |}.

Record world_inv (t0 : Z) (w : world) : Prop := {
  wi_locks : rtc Distlock.step (Distlock.start t0) (dl w);
  wi_held i g till : procs w !! i = Some g → holds (g_phase g) = Some till →
    lease (dl w) !! i = Some till ∧ ∃ l, objs (st (dl w)) !! i = Some l ∧ key l = lock_key (g_name g) }.

(** A step that leaves the locks alone and lets nobody begin to hold one. *)
Lemma world_inv_quiet t0 w w' : world_inv t0 w → dl w' = dl w →
  (∀ i g till, procs w' !! i = Some g → holds (g_phase g) = Some till → ∃ g0, procs w !! i = Some g0 ∧ holds (g_phase g0) = Some till ∧ g_name g0 = g_name g) →
  world_inv t0 w'.
Proof.
  intros [H1 H2] E Hp. split; rewrite E; [done|]. intros i g till Hi Ht. destruct (Hp i g till Hi Ht) as (g0 & G1 & G2 & <-). by apply H2.
Qed.

Lemma world_inv_proc t0 w i g ph n s : world_inv t0 w → procs w !! i = Some g → (∀ till, holds ph = Some till → holds (g_phase g) = Some till) →
  world_inv t0 (set_proc i ph g w) ∧ world_inv t0 (set_node n s (set_proc i ph g w)).
Proof.
  intros Hw Hi Hph. assert (∀ nd, world_inv t0 {| dl := dl w; nodes := nd; procs := <[i := at_phase ph g]> (procs w) |}) as Hn; [|split; apply Hn].
  intros nd. apply (world_inv_quiet t0 w); [done|done|]. cbn. intros j g' till [[<- <-]|[Hne Hj]]%lookup_insert_Some Ht; [|by exists g'].
  exists g. split_and!; [done|by apply Hph|done].
Qed.

Lemma world_inv_step t0 w w' : world_inv t0 w → wstep w w' → world_inv t0 w'.
Proof.
  intros Hw Hs. pose proof Hw as [H1 H2].
  destruct Hs as [w n s s' Hn Ha|w n s t ids Hn Ht Hl Hnd Hf|w n s name i Hn Hi|w i g s Hi Hph Hn|w i g ttl id h v t t' ok d Hi Hph Hob Ht Etry
    |w i g till id sa h now now' uuid err s r s' Hi Hph Hnow Hn Ef|w i g till id sa h now uuid err s job exec s' Hi Hph Hnow Hn Ef|w i g till job exec s Hi Hph Hn job'|w i g till l t l' m Hi Hph Ht Hob Er].
  - apply (world_inv_quiet t0 w); [done|done|]. intros i g till Hi Hh. by exists g.
  - apply (world_inv_quiet t0 w); [done|done|]. cbn. intros i g till [Hi|[_ Hi]]%lookup_union_Some_raw Hh; [|by exists g].
    apply elem_of_list_to_map_2 in Hi. apply elem_of_zip_r in Hi. apply list_elem_of_fmap in Hi as (name & -> & _). done.
  - apply (world_inv_quiet t0 w); [done|done|]. cbn. intros j g till [[<- <-]|[Hne Hj]]%lookup_insert_Some Hh; [done|by exists g].
  - apply (world_inv_proc t0 w i g _ 0 (New None)); [done|done|]. destruct (lookup_job _ _) as [[[ttl id] h]|]; done.
  - unfold try_lock in Etry. destruct (Acquire t (NewLock (lock_key (g_name g)) v ttl) (locks (st (dl w)))) as [[b l'] m] eqn:Ea. injection Etry as -> <-.
    set (d1 := {| Distlock.now := Distlock.now (dl w); st := set_obj i (NewLock (lock_key (g_name g)) v ttl) (locks (st (dl w))) (st (dl w)); lease := delete i (lease (dl w)) |}).
    assert (Distlock.step (dl w) d1) as S1 by (by apply step_new).
    assert (objs (st d1) !! i = Some (NewLock (lock_key (g_name g)) v ttl)) as Hd1 by (cbn; by rewrite lookup_insert_eq).
    pose proof (step_acquire d1 i (NewLock (lock_key (g_name g)) v ttl) t ok l' m ltac:(cbn; lia) Hd1 Ea) as S2. split; cbn [dl set_dl].
    + eapply rtc_r; [eapply rtc_r; [exact H1|exact S1]|exact S2].
    + cbn. intros j g' till [[<- <-]|[Hne Hj]]%lookup_insert_Some Hh.
      * destruct ok; [|done]. injection Hh as <-. rewrite !lookup_insert_eq. split; [done|]. exists l'. split; [done|]. unfold Acquire in Ea. repeat case_match; by simplify_eq.
      * destruct (H2 j g' till Hj Hh) as (L & l & L1 & L2). split; [destruct ok; rewrite ?lookup_insert_ne, lookup_delete_ne by done; done|]. exists l. by rewrite !lookup_insert_ne.
  - apply world_inv_proc; [done|done|]. rewrite Hph. by destruct r as [[job exec]|].
  - apply world_inv_proc; [done|done|]. by rewrite Hph.
  - apply world_inv_proc; [done|done|]. by rewrite Hph.
  - pose proof (step_release (dl w) i l t l' m Ht Hob Er) as S. split; cbn [dl set_dl]; [eapply rtc_r; [exact H1|exact S]|].
    cbn. intros j g' till' [[<- <-]|[Hne Hj]]%lookup_insert_Some Hh; [done|]. destruct (H2 j g' till' Hj Hh) as (L & l0 & L1 & L2).
    split; [by rewrite lookup_delete_ne|]. exists l0. by rewrite lookup_insert_ne.
Qed.

Lemma world_reachable t0 ns w : rtc wstep (world_start t0 ns) w → world_inv t0 w.
Proof.
  apply (rtc_ind_r (world_inv t0)); [split; [apply rtc_refl|done]|]. intros w1 w2 _ Hs IH. by eapply world_inv_step.
Qed.

(** C15. One node at a time runs a job.  However the ticks, calls and goroutines of any number of
    nodes that share the locks are interleaved, and whatever jobs they schedule, if no two locks
    of a key were created with the same value (the text of the time), two goroutines
    never hold a job of one name, from the acquisition of its lock over the handler and the
    update to the release, while the leases of both last; and as long as the lease of one lasts,
    the attempt of any other fails. *)
Theorem scheduler_exclusive (t0 : Z) (ns : gmap nat (Scheduler H)) (w : world) (i : nat) (g : goroutine) (till : Z) :
  rtc wstep (world_start t0 ns) w → distinct (dl w) →
  procs w !! i = Some g → holds (g_phase g) = Some till → Distlock.now (dl w) < till →
  (∀ j g' till', procs w !! j = Some g' → g_name g' = g_name g → holds (g_phase g') = Some till' → Distlock.now (dl w) < till' → j = i) ∧
  ∀ j v ttl t, Distlock.now (dl w) ≤ t < till → (try_lock j (g_name g) v ttl t (dl w)).1 = false.
Proof.
  intros Hr Hv Hi Hh Hlt. destruct (world_reachable t0 ns w Hr) as [H1 H2]. pose proof (lock_run_inv t0 (dl w) H1 Hv) as Hl.
  destruct (H2 i g till Hi Hh) as (L & l & O & K). destruct (Hl i till L Hlt) as (l1 & O1 & M). rewrite O in O1. injection O1 as <-. split.
  - intros j g' till' Hj Hn Hh' Hlt'. destruct (H2 j g' till' Hj Hh') as (L' & l' & O' & K'). destruct (Hl j till' L' Hlt') as (l1 & O1 & M'). rewrite O' in O1. injection O1 as <-.
    apply (Hv j i l' l O' O); [congruence|]. rewrite K', Hn, <- K, M in M'. by injection M'.
  - intros j v ttl t Ht. unfold try_lock, Acquire. cbn [NewLock key]. rewrite <- K, M. cbn. by rewrite decide_True by lia.
Qed.
End nodes.

(** ** Witnesses and behaviour that differs from what is meant *)

(** A schedule that runs ten later. *)
#[local] Instance every_ten : Cron := {| Parse := λ _, inr (λ t, t + 10); Quote := λ s, s |}.

Definition node_with_job : Scheduler unit := (Schedule 0 "id" "job" "@every 10ns" (Some ()) (New None)).2.
Definition two_nodes : gmap nat (Scheduler unit) := {[ 0%nat := node_with_job; 1%nat := node_with_job ]}.

Lemma both_due : ∃ w, rtc wstep (world_start (H := unit) 0 two_nodes) w ∧ nodes w = two_nodes ∧ dl w = Distlock.start 0 ∧
  procs w = <[1%nat := Goroutine 1 "job" false Started]> (<[0%nat := Goroutine 0 "job" false Started]> ∅).
Proof.
  eexists. split; [|split; [|split]].
  - eapply rtc_l; [apply (w_tick _ 0 node_with_job 10 [0%nat]); [reflexivity|cbn; lia|reflexivity|apply NoDup_singleton|done]|].
    eapply rtc_l; [apply (w_tick _ 1 node_with_job 10 [1%nat]); [reflexivity|cbn; lia|reflexivity|apply NoDup_singleton|]|apply rtc_refl].
    intros i ->%list_elem_of_singleton. reflexivity.
  - reflexivity.
  - reflexivity.
  - vm_compute. reflexivity.
Qed.

(** The first goroutine takes the lock. *)
Lemma scheduler_exclusive_witness : ∃ w, rtc wstep (world_start (H := unit) 0 two_nodes) w ∧
  ∀ j v ttl t, 11 ≤ t < 12 → (try_lock j "job" v ttl t (dl w)).1 = false.
Proof.
  destruct both_due as ([d ns ps] & Hr & Hn & Hd & Hp). cbn in Hn, Hd, Hp. subst d ns ps.
  set (w := {| dl := Distlock.start 0; nodes := two_nodes; procs := <[1%nat := Goroutine 1 "job" false Started]> (<[0%nat := Goroutine 0 "job" false Started]> ∅) |}) in Hr.
  pose proof (w_lookup w 0 (Goroutine 0 "job" false Started) node_with_job eq_refl eq_refl eq_refl) as S1. set (w1 := set_proc _ _ _ w) in S1.
  assert (∃ d, try_lock 0 "job" "v" (3600 * 10 ^ 9) 11 (dl w1) = (true, d) ∧ Distlock.now d = 11) as (d & Ed & Enow) by (eexists; split; reflexivity).
  pose proof (w_lock w1 0 (at_phase (Looked (3600 * 10 ^ 9) "id" ()) (Goroutine 0 "job" false Started)) (3600 * 10 ^ 9) "id" () "v" 11 11 true d eq_refl eq_refl eq_refl ltac:(cbn; lia) Ed) as S2.
  eexists. split; [eapply rtc_r; [eapply rtc_r; [exact Hr|exact S1]|exact S2]|].
  intros j v ttl t Ht.
  refine (proj2 (scheduler_exclusive 0 two_nodes _ 0 (Goroutine 0 "job" false (Running (11 + 3600 * 10 ^ 9) "id" 11 ())) (11 + 3600 * 10 ^ 9) _ _ _ _ _) j v ttl t _).
  - eapply rtc_r; [eapply rtc_r; [exact Hr|exact S1]|exact S2].
  - assert (d = (try_lock 0 "job" "v" (3600 * 10 ^ 9) 11 (Distlock.start 0)).2) as -> by exact (eq_sym (f_equal snd Ed)).
    assert (∃ x y, objs (st (try_lock 0 "job" "v" (3600 * 10 ^ 9) 11 (Distlock.start 0)).2) = <[0%nat := x]> (<[0%nat := y]> ∅))
      as (x & y & E) by (eexists _, _; reflexivity).
    intros a b l l' Ha Hb _ _. cbn [dl set_dl] in Ha, Hb. rewrite E, !lookup_insert_Some, lookup_empty in Ha, Hb.
    destruct Ha as [[<- _]|[_ [[<- _]|[_ ?]]]], Hb as [[<- _]|[_ [[<- _]|[_ ?]]]]; done.
  - reflexivity.
  - reflexivity.
  - cbn. rewrite Enow. lia.
  - cbn. rewrite Enow. lia.
Defined.

(** A due job can run on every node in turn: a goroutine does not look at [NextRun] again after
    it got the lock. *)
Theorem scheduler_runs_due_job_twice : ∃ w s0 s1 x0 x1, rtc wstep (world_start (H := unit) 0 two_nodes) w ∧
  nodes w !! 0%nat = Some s0 ∧ nodes w !! 1%nat = Some s1 ∧
  executions s0 !! "job" = Some [x0] ∧ executions s1 !! "job" = Some [x1] ∧
  (StartedAt x0, StartedAt x1, NextRun <$> jobs s0 !! "job") = (11, 14, Some 22).
Proof.
  destruct both_due as ([d ns ps] & Hr & Hn & Hd & Hp). cbn in Hn, Hd, Hp. subst d ns ps. eexists _, _, _, _, _. split; [|split_and!].
  - etransitivity; [exact Hr|]. eapply rtc_l; [eapply (w_lookup _ 0); reflexivity|].
    eapply rtc_l; [eapply (w_lock _ 0 _ (3600 * 10 ^ 9) "id" () "v" 11 11); [reflexivity|reflexivity|reflexivity|cbn; lia|reflexivity]|].
    eapply rtc_l; [eapply (w_finish _ 0 _ _ _ _ _ 12 12 "x" None); reflexivity|].
    eapply rtc_l; [eapply (w_save _ 0); reflexivity|].
    eapply rtc_l; [eapply (w_release _ 0 _ _ _ 13); [reflexivity|reflexivity|cbn; lia|reflexivity|reflexivity]|].
    eapply rtc_l; [eapply (w_lookup _ 1); reflexivity|].
    eapply rtc_l; [eapply (w_lock _ 1 _ (3600 * 10 ^ 9) "id" () "w" 14 14); [reflexivity|reflexivity|reflexivity|cbn; lia|reflexivity]|].
    eapply rtc_l; [eapply (w_finish _ 1 _ _ _ _ _ 15 15 "y" None); reflexivity|]. apply rtc_refl.
  - reflexivity.
  - reflexivity.
  - reflexivity.
  - reflexivity.
  - reflexivity.
Qed.

(** Without locks, or for jobs that outlast the interval, a tick starts a job that is still
    running: its next run is only set when it ends. *)
Theorem tick_ignores_running (s : Scheduler unit) now name job :
  jobs s !! name = Some job → Name job = name → due now job = true → name ∈ tick now s.
Proof.
  intros Hj <- Hd. unfold tick. apply list_elem_of_fmap. exists job. split; [done|]. apply list_elem_of_filter. split; [done|].
  apply list_elem_of_fmap. exists (Name job, job). split; [done|]. by apply elem_of_map_to_list.
Qed.

(** The copy that a goroutine saves after it gave up the lock can be older than the table: a job
    that was disabled in between is enabled in the store. *)
Theorem scheduler_store_stale : let s := (Schedule 0 "id" "job" "@every 10ns" (Some ()) (New (Some NewMemoryStore))).2 in
  ∃ job exec s1, finish 12 12 "job" "x" "id" 11 None s = (Some (job, exec), s1) ∧
    let s2 := save_both "job" (Some job) exec (DisableJob "job" s1).2 in
    (Enabled <$> jobs s2 !! "job", st ← store s2; Enabled <$> s_jobs st !! "job") = (Some false, Some true).
Proof. eexists _, _, _. split; [reflexivity|]. vm_compute. reflexivity. Qed.
