(* ===== verification/Oauth2.v ===== *)
(** * pkg/auth/oauth2: the in-memory authorization server

    Authorization codes, access and refresh tokens.  The cryptography is outside the
    repository's own logic: [Hash] and [Verify] of the hasher, SHA-256 with base64, and the
    random tokens are arguments; so are the clock, the context's error and the answer of
    the password authenticator.  Every method runs under the server's lock. *)

From S2P Require Import Prelude Errors Float64 GoStrings.
From stdpp Require Import options.
Open Scope Z_scope.

(** ** Errors and data *)

(* src: pkg/auth/oauth2/errors.go 5-12 const *)
Definition CodeClientNotFound := "AUTH_CLIENT_NOT_FOUND".
Definition CodeInvalidGrant := "AUTH_INVALID_GRANT".
Definition CodeInvalidClient := "AUTH_INVALID_CLIENT".
Definition CodeUnsupportedGrant := "AUTH_UNSUPPORTED_GRANT".
Definition CodeInvalidRequest := "AUTH_INVALID_REQUEST".

(* src: pkg/auth/oauth2/errors.go 14-20 ErrClientNotFound *)
Definition ErrClientNotFound : error := New CodeClientNotFound "oauth2 client not found" None.
Definition ErrInvalidGrant : error := New CodeInvalidGrant "invalid grant" None.
Definition ErrInvalidClient : error := New CodeInvalidClient "invalid client" None.
Definition ErrUnsupportedGrant : error := New CodeUnsupportedGrant "unsupported grant type" None.

(* src: pkg/auth/oauth2/errors.go 22-25 ErrInvalidRequestMsg *)
Definition ErrInvalidRequestMsg (msg : string) : error := New CodeInvalidRequest msg None.

(* src: pkg/auth/oauth2/oauth2.go 11-16 GrantType *)
Definition GrantAuthorizationCode := "authorization_code".
Definition GrantClientCredentials := "client_credentials".
Definition GrantRefreshToken := "refresh_token".
Definition GrantPassword := "password".
Definition ResponseTypeCode := "code".

(* src: pkg/auth/oauth2/oauth2.go 25-32 Client *)
Record Client := {
  c_ID : string; Secret : string; RedirectURIs : list string; GrantTypes : list string;
  c_Scopes : list string }.

(* src: pkg/auth/oauth2/oauth2.go 34-47 Config *)
Record Config := {
  Issuer : string; AccessTokenTTL : Z; RefreshTokenTTL : Z; AuthCodeTTL : Z }.

(* src: pkg/auth/oauth2/oauth2.go 49-62 AuthorizeRequest *)
Record AuthorizeRequest := {
  ResponseType : string; a_ClientID : string; a_RedirectURI : string; a_Scope : list string;
  State : string; a_Subject : string; a_CodeChallenge : string;
  a_CodeChallengeMethod : string }.

(* src: pkg/auth/oauth2/oauth2.go 64-69 AuthorizeResponse *)
Record AuthorizeResponse := { ar_Code : string; ar_State : string; ar_RedirectURI : string }.

(* src: pkg/auth/oauth2/oauth2.go 71-84 TokenRequest *)
Record TokenRequest := {
  GrantType : string; Code : string; RedirectURI : string; ClientID : string;
  ClientSecret : string; RefreshToken : string; Scope : list string; Username : string;
  Password : string; CodeVerifier : string }.

(* src: pkg/auth/oauth2/oauth2.go 86-94 TokenResponse *)
Record TokenResponse := {
  AccessToken : string; TokenType : string; ExpiresIn : Z; r_RefreshToken : string;
  r_Scope : string }.

(* src: pkg/auth/oauth2/oauth2.go 96-104 TokenClaims *)
Record TokenClaims := {
  tc_Subject : string; tc_ClientID : string; tc_Scopes : list string; tc_Issuer : string;
  tc_ExpiresAt : Z; tc_IssuedAt : Z }.

(* src: pkg/auth/oauth2/adapters/memory/memory.go 19-29 authCode *)
Record authCode := {
  ac_Code : string; ac_ClientID : string; ac_RedirectURI : string; ac_Subject : string;
  ac_Scopes : list string; ac_ExpiresAt : Z; CodeChallenge : string;
  CodeChallengeMethod : string; Used : bool }.

(* src: pkg/auth/oauth2/adapters/memory/memory.go 31-40 issuedToken *)
Record issuedToken := {
  t_Token : string; t_Subject : string; t_ClientID : string; t_Scopes : list string;
  t_ExpiresAt : Z; t_IssuedAt : Z; Refresh : bool; Revoked : bool }.

(* src: pkg/auth/oauth2/adapters/memory/memory.go 42-53 Server *)
Record Server := {
  cfg : Config; clients : gmap string Client; codes : gmap string authCode;
  tokens : gmap string issuedToken }.

(* src: pkg/auth/oauth2/adapters/memory/memory.go 68-95 New *)
Definition NewServer (c : Config) : Server :=
  {| cfg := {| Issuer := if decide (Issuer c = "") then "hyperforge-oauth2" else Issuer c;
       AccessTokenTTL := if decide (AccessTokenTTL c = 0) then 3600 * 10 ^ 9
                         else AccessTokenTTL c;
       RefreshTokenTTL := if decide (RefreshTokenTTL c = 0) then 30 * 24 * 3600 * 10 ^ 9
                          else RefreshTokenTTL c;
       AuthCodeTTL := if decide (AuthCodeTTL c = 0) then 600 * 10 ^ 9 else AuthCodeTTL c |};
     clients := ∅; codes := ∅; tokens := ∅ |}.

Definition set_codes (m : gmap string authCode) (s : Server) : Server :=
  {| cfg := cfg s; clients := clients s; codes := m; tokens := tokens s |}.
Definition set_tokens (m : gmap string issuedToken) (s : Server) : Server :=
  {| cfg := cfg s; clients := clients s; codes := codes s; tokens := m |}.
Definition use (c : authCode) : authCode :=
  {| ac_Code := ac_Code c; ac_ClientID := ac_ClientID c; ac_RedirectURI := ac_RedirectURI c;
     ac_Subject := ac_Subject c; ac_Scopes := ac_Scopes c; ac_ExpiresAt := ac_ExpiresAt c;
     CodeChallenge := CodeChallenge c; CodeChallengeMethod := CodeChallengeMethod c;
     Used := true |}.
Definition revoke (t : issuedToken) : issuedToken :=
  {| t_Token := t_Token t; t_Subject := t_Subject t; t_ClientID := t_ClientID t;
     t_Scopes := t_Scopes t; t_ExpiresAt := t_ExpiresAt t; t_IssuedAt := t_IssuedAt t;
     Refresh := Refresh t; Revoked := true |}.

(** ** Helpers *)

(** The loop [for _, x := range l { if x == g { return true } }; return false]. *)
Fixpoint grant_in (l : list string) (g : string) : bool :=
  match l with [] => false | gt :: l' => if decide (gt = g) then true else grant_in l' g end.

(* src: pkg/auth/oauth2/adapters/memory/memory.go 379-386 clientAllowsGrant *)
Definition clientAllowsGrant (c : Client) (g : string) : bool := grant_in (GrantTypes c) g.

(* src: pkg/auth/oauth2/adapters/memory/memory.go 388-398 redirectAllowed *)
Definition redirectAllowed (c : Client) (uri : string) : bool :=
  if decide (RedirectURIs c = []) then true else grant_in (RedirectURIs c) uri.

(* src: pkg/auth/oauth2/adapters/memory/memory.go 400-418 normalizeScopes *)
Definition normalizeScopes (requested allowed : list string) : list string :=
  match requested, allowed with
  | [], _ => allowed
  | _, [] => requested
  | _, _ => filter (λ s, s ∈ (list_to_set allowed : gset string)) requested
  end.

(** [strings.Join(l, " ")] *)
Fixpoint join_scopes (l : list string) : string :=
  match l with
  | [] => ""
  | [s] => s
  | s :: l' => s +:+ " " +:+ join_scopes l'
  end.

(** The hasher's [Verify], and base64 of SHA-256. *)
Class Crypto := { Verify : string → string → error + bool; s256 : string → string }.

Section server.
  Context `{!Crypto}.

(* src: pkg/auth/oauth2/adapters/memory/memory.go 420-434 verifyPKCE *)
Definition verifyPKCE (challenge method verifier : string) : bool :=
  if decide (verifier = "") then false
  else
    let m := ToLower method in
    if decide (m = "" ∨ m = "plain") then bool_decide (challenge = verifier)
    else if decide (m = "s256") then bool_decide (challenge = s256 verifier)
    else false.

(* src: pkg/auth/oauth2/adapters/memory/memory.go 332-344 authenticateClientLocked *)
Definition authenticateClientLocked (id secret : string) (s : Server) : error + Client :=
  match clients s !! id with
  | None => inl ErrInvalidClient
  | Some client =>
      if decide (Secret client ≠ "") then
        match Verify secret (Secret client) with
        | inr true => inr client
        | _ => inl ErrInvalidClient
        end
      else inr client
  end.

(** [access] and [refresh] are the random tokens, [now] the time. *)
(* src: pkg/auth/oauth2/adapters/memory/memory.go 346-377 issueTokensLocked *)
Definition issueTokensLocked (now : Z) (access refresh subject clientID : string)
    (scopes : list string) (withRefresh : bool) : GoM error Server TokenResponse :=
  s ← get;
  put (set_tokens (<[access := {| t_Token := access; t_Subject := subject;
    t_ClientID := clientID; t_Scopes := scopes; t_ExpiresAt := now + AccessTokenTTL (cfg s);
    t_IssuedAt := now; Refresh := false; Revoked := false |}]> (tokens s)) s);;
  let resp r := {| AccessToken := access; TokenType := "Bearer";
    ExpiresIn := to_i64 (λ _, 0) (Seconds (AccessTokenTTL (cfg s))); r_RefreshToken := r;
    r_Scope := join_scopes scopes |} in
  if withRefresh : bool then
    s ← get;
    put (set_tokens (<[refresh := {| t_Token := refresh; t_Subject := subject;
      t_ClientID := clientID; t_Scopes := scopes; t_ExpiresAt := now + RefreshTokenTTL (cfg s);
      t_IssuedAt := now; Refresh := true; Revoked := false |}]> (tokens s)) s);;
    mret (resp refresh)
  else mret (resp "").

(** ** The endpoints *)

(** [hashed] is the result of hashing the client's secret. *)
(* src: pkg/auth/oauth2/adapters/memory/memory.go 100-124 RegisterClient *)
Definition RegisterClient (ctx : option error) (hashed : error + string) (client : Client)
    : GoM error Server unit :=
  throw_some ctx;;
  throw_if (c_ID client = "") (ErrInvalidRequestMsg "client id required");;
  let grants := if decide (GrantTypes client = [])
                then [GrantAuthorizationCode; GrantRefreshToken] else GrantTypes client in
  secret ← (if decide (Secret client ≠ "") then
              match hashed with
              | inl err => throw (Internal "failed to hash client secret" (Some err))
              | inr h => mret h
              end
            else mret (Secret client));
  let client := {| c_ID := c_ID client; Secret := secret; RedirectURIs := RedirectURIs client;
                   GrantTypes := grants; c_Scopes := c_Scopes client |} in
  s ← get;
  put {| cfg := cfg s; clients := <[c_ID client := client]> (clients s); codes := codes s;
         tokens := tokens s |}.

(* src: pkg/auth/oauth2/adapters/memory/memory.go 126-171 Authorize *)
Definition Authorize (ctx : option error) (now : Z) (code : string) (req : AuthorizeRequest)
    : GoM error Server AuthorizeResponse :=
  throw_some ctx;;
  throw_if (ResponseType req ≠ ResponseTypeCode ∧ ResponseType req ≠ "")
    (ErrInvalidRequestMsg "unsupported response_type");;
  throw_if (a_ClientID req = "" ∨ a_Subject req = "" ∨ a_RedirectURI req = "")
    (ErrInvalidRequestMsg "client_id, subject, and redirect_uri are required");;
  s ← get;
  client ← unwrap (clients s !! a_ClientID req) ErrClientNotFound;
  throw_if (clientAllowsGrant client GrantAuthorizationCode = false) ErrUnsupportedGrant;;
  throw_if (redirectAllowed client (a_RedirectURI req) = false)
    (ErrInvalidRequestMsg "redirect_uri not registered");;
  put (set_codes (<[code := {| ac_Code := code; ac_ClientID := a_ClientID req;
    ac_RedirectURI := a_RedirectURI req; ac_Subject := a_Subject req;
    ac_Scopes := normalizeScopes (a_Scope req) (c_Scopes client);
    ac_ExpiresAt := now + AuthCodeTTL (cfg s); CodeChallenge := a_CodeChallenge req;
    CodeChallengeMethod := a_CodeChallengeMethod req; Used := false |}]> (codes s)) s);;
  mret {| ar_Code := code; ar_State := State req; ar_RedirectURI := a_RedirectURI req |}.

(* src: pkg/auth/oauth2/adapters/memory/memory.go 195-221 tokenAuthCode *)
Definition tokenAuthCode (now : Z) (access refresh : string) (req : TokenRequest)
    : GoM error Server TokenResponse :=
  s ← get;
  client ← lift (authenticateClientLocked (ClientID req) (ClientSecret req) s);
  throw_if (clientAllowsGrant client GrantAuthorizationCode = false) ErrUnsupportedGrant;;
  ac ← unwrap (codes s !! Code req) ErrInvalidGrant;
  throw_if (Used ac = true ∨ ac_ExpiresAt ac < now) ErrInvalidGrant;;
  throw_if (ac_ClientID ac ≠ ClientID req ∨ ac_RedirectURI ac ≠ RedirectURI req) ErrInvalidGrant;;
  throw_if (CodeChallenge ac ≠ "" ∧
      verifyPKCE (CodeChallenge ac) (CodeChallengeMethod ac) (CodeVerifier req) = false)
    ErrInvalidGrant;;
  put (set_codes (<[Code req := use ac]> (codes s)) s);;
  issueTokensLocked now access refresh (ac_Subject ac) (c_ID client) (ac_Scopes ac) true.

(* src: pkg/auth/oauth2/adapters/memory/memory.go 223-237 tokenClientCredentials *)
Definition tokenClientCredentials (now : Z) (access refresh : string) (req : TokenRequest)
    : GoM error Server TokenResponse :=
  s ← get;
  client ← lift (authenticateClientLocked (ClientID req) (ClientSecret req) s);
  throw_if (clientAllowsGrant client GrantClientCredentials = false) ErrUnsupportedGrant;;
  let scopes := normalizeScopes (Scope req) (c_Scopes client) in
  issueTokensLocked now access refresh (c_ID client) (c_ID client) scopes false.

(* src: pkg/auth/oauth2/adapters/memory/memory.go 239-264 tokenRefresh *)
Definition tokenRefresh (now : Z) (access refresh : string) (req : TokenRequest)
    : GoM error Server TokenResponse :=
  s ← get;
  client ← lift (authenticateClientLocked (ClientID req) (ClientSecret req) s);
  throw_if (clientAllowsGrant client GrantRefreshToken = false) ErrUnsupportedGrant;;
  rt ← unwrap (tokens s !! RefreshToken req) ErrInvalidGrant;
  throw_if (Refresh rt = false ∨ Revoked rt = true ∨ t_ExpiresAt rt < now) ErrInvalidGrant;;
  throw_if (t_ClientID rt ≠ c_ID client) ErrInvalidGrant;;
  let scopes := if decide (Scope req ≠ []) then normalizeScopes (Scope req) (t_Scopes rt)
                else t_Scopes rt in
  put (set_tokens (<[RefreshToken req := revoke rt]> (tokens s)) s);;
  issueTokensLocked now access refresh (t_Subject rt) (c_ID client) scopes true.

(** [auth] is the answer of the password authenticator, [None] if there is none. *)
(* src: pkg/auth/oauth2/adapters/memory/memory.go 266-286 tokenPassword *)
Definition tokenPassword (auth : option (error + string)) (now : Z) (access refresh : string)
    (req : TokenRequest) : GoM error Server TokenResponse :=
  match auth with
  | None => throw ErrUnsupportedGrant
  | Some (inl err) => throw (Unauthorized "invalid credentials" (Some err))
  | Some (inr subject) =>
      s ← get;
      client ← lift (authenticateClientLocked (ClientID req) (ClientSecret req) s);
      throw_if (clientAllowsGrant client GrantPassword = false) ErrUnsupportedGrant;;
      let scopes := normalizeScopes (Scope req) (c_Scopes client) in
      issueTokensLocked now access refresh subject (c_ID client) scopes true
  end.

(* src: pkg/auth/oauth2/adapters/memory/memory.go 173-193 Token *)
Definition Token (ctx : option error) (auth : option (error + string)) (now : Z)
    (access refresh : string) (req : TokenRequest) : GoM error Server TokenResponse :=
  throw_some ctx;;
  if decide (GrantType req = GrantAuthorizationCode ∨ GrantType req = "") then
    tokenAuthCode now access refresh req
  else if decide (GrantType req = GrantClientCredentials) then
    tokenClientCredentials now access refresh req
  else if decide (GrantType req = GrantRefreshToken) then tokenRefresh now access refresh req
  else if decide (GrantType req = GrantPassword) then tokenPassword auth now access refresh req
  else throw ErrUnsupportedGrant.

(* src: pkg/auth/oauth2/adapters/memory/memory.go 288-296 IssueAccessToken *)
Definition IssueAccessToken (ctx : option error) (now : Z) (access refresh subject clientID : string)
    (scopes : list string) : GoM error Server TokenResponse :=
  throw_some ctx;;
  issueTokensLocked now access refresh subject clientID scopes true.

(* src: pkg/auth/oauth2/adapters/memory/memory.go 298-309 Revoke *)
Definition Revoke (ctx : option error) (token : string) : GoM error Server unit :=
  throw_some ctx;;
  s ← get;
  match tokens s !! token with
  | Some t => put (set_tokens (<[token := revoke t]> (tokens s)) s)
  | None => mret tt
  end.

(* src: pkg/auth/oauth2/adapters/memory/memory.go 311-330 Introspect *)
Definition Introspect (ctx : option error) (now : Z) (token : string) (s : Server)
    : error + TokenClaims :=
  match ctx with
  | Some err => inl err
  | None =>
      match tokens s !! token with
      | None => inl (Unauthorized "invalid token" None)
      | Some t =>
          if decide (Revoked t = true ∨ Refresh t = true ∨ t_ExpiresAt t < now)
          then inl (Unauthorized "invalid token" None)
          else inr {| tc_Subject := t_Subject t; tc_ClientID := t_ClientID t;
                      tc_Scopes := t_Scopes t; tc_Issuer := Issuer (cfg s);
                      tc_ExpiresAt := t_ExpiresAt t; tc_IssuedAt := t_IssuedAt t |}
      end
  end.
End server.

(** ** Histories

    The calls that change the server; the random tokens of a call are new. *)

Section histories.
  Context `{!Crypto}.

Inductive op :=
  | ORegister (ctx : option error) (hashed : error + string) (client : Client)
  | OAuthorize (ctx : option error) (now : Z) (code : string) (req : AuthorizeRequest)
  | OToken (ctx : option error) (auth : option (error + string)) (now : Z)
      (access refresh : string) (req : TokenRequest)
  | OIssue (ctx : option error) (now : Z) (access refresh subject clientID : string)
      (scopes : list string)
  | ORevoke (ctx : option error) (token : string).

Definition do_op (o : op) (s : Server) : Server :=
  match o with
  | ORegister ctx hashed client => exec (RegisterClient ctx hashed client) s
  | OAuthorize ctx now code req => exec (Authorize ctx now code req) s
  | OToken ctx auth now access refresh req => exec (Token ctx auth now access refresh req) s
  | OIssue ctx now access refresh subject clientID scopes =>
      exec (IssueAccessToken ctx now access refresh subject clientID scopes) s
  | ORevoke ctx token => exec (Revoke ctx token) s
  end.

Definition new_tokens (access refresh : string) (s : Server) : Prop :=
  tokens s !! access = None ∧ tokens s !! refresh = None.

Definition fresh_op (o : op) (s : Server) : Prop :=
  match o with
  | OAuthorize _ _ code _ => codes s !! code = None
  | OToken _ _ _ access refresh _ => new_tokens access refresh s
  | OIssue _ _ access refresh _ _ _ => new_tokens access refresh s
  | _ => True
  end.

(** [run s os s']: the calls [os] lead from [s] to [s']. *)
Inductive run : Server → list op → Server → Prop :=
  | run_nil s : run s [] s
  | run_cons s o os s' : fresh_op o s → run (do_op o s) os s' → run s (o :: os) s'.

(** What is in the server stays, and codes and tokens only ever become used and revoked. *)
Record older (s s' : Server) : Prop := {
  old_codes c ac : codes s !! c = Some ac →
    codes s' !! c = Some ac ∨ codes s' !! c = Some (use ac);
  old_tokens t it : tokens s !! t = Some it →
    tokens s' !! t = Some it ∨ tokens s' !! t = Some (revoke it) }.

#[global] Instance older_preorder : PreOrder older.
Proof.
  split; [by split; auto|]. intros s1 s2 s3 [Hc Ht] [Hc' Ht']. split.
  - intros c ac E. destruct (Hc _ _ E) as [E'|E']; destruct (Hc' _ _ E'); auto.
  - intros t it E. destruct (Ht _ _ E) as [E'|E']; destruct (Ht' _ _ E'); auto.
Qed.

Lemma older_add_token s t it : tokens s !! t = None → older s (set_tokens (<[t := it]> (tokens s)) s).
Proof.
  intros Hn. split; cbn; [by auto|]. intros t' it' E. left.
  rewrite lookup_insert_ne; [done|]. congruence.
Qed.

Lemma older_use s c ac :
  codes s !! c = Some ac → older s (set_codes (<[c := use ac]> (codes s)) s).
Proof.
  intros Hc. split; cbn; [|by auto]. intros c' ac' E. rewrite lookup_insert.
  case_decide; [|by auto]. right. congruence.
Qed.

Lemma older_revoke s t it :
  tokens s !! t = Some it → older s (set_tokens (<[t := revoke it]> (tokens s)) s).
Proof.
  intros Ht. split; cbn; [by auto|]. intros t' it' E. rewrite lookup_insert.
  case_decide; [|by auto]. right. congruence.
Qed.

Lemma issue_older now access refresh subject clientID scopes b s :
  new_tokens access refresh s →
  older s (exec (issueTokensLocked now access refresh subject clientID scopes b) s) ∧
  ∃ resp, outcome (issueTokensLocked now access refresh subject clientID scopes b) s = inr resp.
Proof.
  intros [Ha Hr]. unfold exec, outcome, issueTokensLocked, mbind, GoM_bind, get, put, mret, GoM_ret.
  destruct b; cbn; (split; [|by eexists]).
  - split; cbn; [by auto|]. intros t it E. left.
    rewrite !lookup_insert_ne by congruence. done.
  - by apply older_add_token.
Qed.

(** What a successful redemption of a code has checked, and what it does. *)
Lemma tokenAuthCode_success now access refresh req s resp s' :
  new_tokens access refresh s → tokenAuthCode now access refresh req s = (inr resp, s') →
  ∃ client ac,
    authenticateClientLocked (ClientID req) (ClientSecret req) s = inr client ∧
    clientAllowsGrant client GrantAuthorizationCode = true ∧
    codes s !! Code req = Some ac ∧ Used ac = false ∧ now ≤ ac_ExpiresAt ac ∧
    ac_ClientID ac = ClientID req ∧ ac_RedirectURI ac = RedirectURI req ∧
    (CodeChallenge ac ≠ "" →
       verifyPKCE (CodeChallenge ac) (CodeChallengeMethod ac) (CodeVerifier req) = true) ∧
    older (set_codes (<[Code req := use ac]> (codes s)) s) s'.
Proof.
  intros Hnew. unfold tokenAuthCode, mbind, GoM_bind, get, put, lift, unwrap, throw_if.
  destruct (authenticateClientLocked _ _ s) as [err|client]; [done|].
  destruct (decide (clientAllowsGrant client _ = false)) as [|Hg]; [done|].
  destruct (codes s !! Code req) as [ac|] eqn:Hac; [|done].
  destruct (decide (Used ac = true ∨ _)) as [|Hu]; [done|].
  destruct (decide (ac_ClientID ac ≠ _ ∨ _)) as [|Hc]; [done|].
  destruct (decide (CodeChallenge ac ≠ "" ∧ _)) as [|Hp]; [done|]. intros E.
  exists client, ac. split_and!; try done.
  - by apply not_false_is_true.
  - apply not_true_is_false. naive_solver.
  - apply Z.nlt_ge. naive_solver.
  - destruct (decide (ac_ClientID ac = ClientID req)); naive_solver.
  - destruct (decide (ac_RedirectURI ac = RedirectURI req)); naive_solver.
  - intros Hch. destruct (verifyPKCE _ _ _) eqn:Hv; [done|]. exfalso. apply Hp. done.
  - destruct (issue_older now access refresh (ac_Subject ac) (c_ID client) (ac_Scopes ac) true
      (set_codes (<[Code req := use ac]> (codes s)) s) Hnew) as [Hold _].
    unfold exec in Hold. by rewrite E in Hold.
Qed.

(** The same for a refresh token. *)
Lemma tokenRefresh_success now access refresh req s resp s' :
  new_tokens access refresh s → tokenRefresh now access refresh req s = (inr resp, s') →
  ∃ client rt,
    authenticateClientLocked (ClientID req) (ClientSecret req) s = inr client ∧
    clientAllowsGrant client GrantRefreshToken = true ∧
    tokens s !! RefreshToken req = Some rt ∧ Refresh rt = true ∧ Revoked rt = false ∧
    now ≤ t_ExpiresAt rt ∧ t_ClientID rt = c_ID client ∧
    older (set_tokens (<[RefreshToken req := revoke rt]> (tokens s)) s) s'.
Proof.
  intros [Hna Hnr]. unfold tokenRefresh, mbind, GoM_bind, get, put, lift, unwrap, throw_if.
  destruct (authenticateClientLocked _ _ s) as [err|client]; [done|].
  destruct (decide (clientAllowsGrant client _ = false)) as [|Hg]; [done|].
  destruct (tokens s !! RefreshToken req) as [rt|] eqn:Hrt; [|done].
  destruct (decide (Refresh rt = false ∨ _)) as [|Hu]; [done|].
  destruct (decide (t_ClientID rt ≠ _)) as [|Hc]; [done|]. intros E.
  exists client, rt. split_and!; try done.
  - by apply not_false_is_true.
  - apply not_false_is_true. naive_solver.
  - apply not_true_is_false. naive_solver.
  - apply Z.nlt_ge. naive_solver.
  - destruct (decide (t_ClientID rt = c_ID client)); naive_solver.
  - set (s1 := set_tokens (<[RefreshToken req := revoke rt]> (tokens s)) s) in *.
    assert (new_tokens access refresh s1) as Hnew.
    { split; cbn; rewrite lookup_insert_ne by congruence; done. }
    match type of E with issueTokensLocked _ _ _ ?sub ?cl ?sc ?b _ = _ =>
      destruct (issue_older now access refresh sub cl sc b s1 Hnew) as [Hold _] end.
    unfold exec in Hold. by rewrite E in Hold.
Qed.

(** A redemption that fails changes nothing. *)
Lemma tokenAuthCode_error now access refresh req s err s' :
  new_tokens access refresh s → tokenAuthCode now access refresh req s = (inl err, s') → s' = s.
Proof.
  intros Hnew. unfold tokenAuthCode, mbind, GoM_bind, get, put, lift, unwrap, throw_if.
  destruct (authenticateClientLocked _ _ s) as [?|client]; [by intros [= _ <-]|].
  destruct (decide (clientAllowsGrant client _ = false)); [by intros [= _ <-]|].
  destruct (codes s !! Code req) as [ac|] eqn:Hac; [|by intros [= _ <-]].
  repeat (destruct (decide _); [by intros [= _ <-]|]). intros E.
  destruct (issue_older now access refresh (ac_Subject ac) (c_ID client) (ac_Scopes ac) true
      (set_codes (<[Code req := use ac]> (codes s)) s) Hnew) as [_ [r Hr]].
  unfold outcome in Hr. by rewrite E in Hr.
Qed.

Lemma tokenRefresh_error now access refresh req s err s' :
  new_tokens access refresh s → tokenRefresh now access refresh req s = (inl err, s') → s' = s.
Proof.
  intros [Hna Hnr]. unfold tokenRefresh, mbind, GoM_bind, get, put, lift, unwrap, throw_if.
  destruct (authenticateClientLocked _ _ s) as [?|client]; [by intros [= _ <-]|].
  destruct (decide (clientAllowsGrant client _ = false)); [by intros [= _ <-]|].
  destruct (tokens s !! RefreshToken req) as [rt|] eqn:Hrt; [|by intros [= _ <-]].
  destruct (decide (Refresh rt = false ∨ _)); [by intros [= _ <-]|].
  destruct (decide (t_ClientID rt ≠ _)); [by intros [= _ <-]|]. intros E.
  set (s1 := set_tokens (<[RefreshToken req := revoke rt]> (tokens s)) s) in *.
  assert (new_tokens access refresh s1) as Hnew.
  { split; cbn; rewrite lookup_insert_ne by congruence; done. }
  match type of E with issueTokensLocked _ _ _ ?sub ?cl ?sc ?b _ = _ =>
    destruct (issue_older now access refresh sub cl sc b s1 Hnew) as [_ [r Hr]] end.
  unfold outcome in Hr. by rewrite E in Hr.
Qed.

(** The grants that only issue tokens. *)
Lemma issuing_older (now : Z) access refresh (m : GoM error Server TokenResponse) s :
  new_tokens access refresh s →
  (exec m s = s ∨ ∃ subject clientID scopes b,
     m s = issueTokensLocked now access refresh subject clientID scopes b s) →
  older s (exec m s).
Proof.
  intros Hnew [->|(sub & cl & sc & b & E)]; [done|]. unfold exec. rewrite E.
  by apply issue_older.
Qed.

Lemma token_older ctx auth now access refresh req s :
  new_tokens access refresh s → older s (exec (Token ctx auth now access refresh req) s).
Proof.
  intros Hnew. unfold Token, exec, mbind, GoM_bind, throw_some. destruct ctx; [done|].
  destruct (decide (_ ∨ _)).
  { destruct (tokenAuthCode now access refresh req s) as [[err|resp] s'] eqn:E; cbn.
    - by rewrite (tokenAuthCode_error _ _ _ _ _ _ _ Hnew E).
    - destruct (tokenAuthCode_success _ _ _ _ _ _ _ Hnew E)
        as (client & ac & _ & _ & Hac & _ & _ & _ & _ & _ & Hold).
      etrans; [by apply (older_use s (Code req) ac)|done]. }
  destruct (decide _).
  { apply (issuing_older now access refresh); [done|].
    unfold tokenClientCredentials, exec, mbind, GoM_bind, get, lift, throw_if.
    destruct (authenticateClientLocked _ _ s) as [?|client]; [by left|].
    destruct (decide _); [by left|]. right. by eexists _, _, _, _. }
  destruct (decide _).
  { destruct (tokenRefresh now access refresh req s) as [[err|resp] s'] eqn:E; cbn.
    - by rewrite (tokenRefresh_error _ _ _ _ _ _ _ Hnew E).
    - destruct (tokenRefresh_success _ _ _ _ _ _ _ Hnew E)
        as (client & rt & _ & _ & Hrt & _ & _ & _ & _ & Hold).
      etrans; [by apply (older_revoke s (RefreshToken req) rt)|done]. }
  destruct (decide _); [|done].
  apply (issuing_older now access refresh); [done|].
  unfold tokenPassword, exec, mbind, GoM_bind, get, lift, throw_if, throw.
  destruct auth as [[?|subject]|]; [by left| |by left].
  destruct (authenticateClientLocked _ _ s) as [?|client]; [by left|].
  destruct (decide _); [by left|]. right. by eexists _, _, _, _.
Qed.

Lemma op_older o s : fresh_op o s → older s (do_op o s).
Proof.
  destruct o as [ctx hashed client|ctx now code req|ctx auth now access refresh req
    |ctx now access refresh sub cl sc|ctx token]; cbn; intros Hf.
  - assert (∀ m : gmap string Client, older s {| cfg := cfg s; clients := m; codes := codes s;
      tokens := tokens s |}) as Hm by (intros; split; cbn; auto).
    unfold RegisterClient. go_run. destruct ctx; [done|]. destruct (decide _); [done|].
    destruct (decide (Secret client ≠ "")); [|apply Hm]. destruct hashed; [done|apply Hm].
  - unfold Authorize. go_run. destruct ctx; [done|].
    do 2 (destruct (decide _); [done|]). destruct (clients s !! _) as [client|]; [|done].
    do 2 (destruct (decide _); [done|]). cbn. split; cbn; [|by auto].
    intros c ac E. left. rewrite lookup_insert_ne; [done|]. congruence.
  - by apply token_older.
  - unfold IssueAccessToken, exec, mbind, GoM_bind, throw_some. destruct ctx; [done|].
    by apply issue_older.
  - unfold Revoke, exec, mbind, GoM_bind, throw_some, get. destruct ctx; [done|].
    destruct (tokens s !! token) as [it|] eqn:E; [|done]. cbn. by apply older_revoke.
Qed.

Lemma run_older s os s' : run s os s' → older s s'.
Proof. induction 1; [done|]. etrans; [by apply op_older|done]. Qed.
End histories.

Arguments op : clear implicits.

Definition code_grant (req : TokenRequest) : Prop :=
  GrantType req = GrantAuthorizationCode ∨ GrantType req = "".

(** C9. In any state of the server and over any further history with new random tokens:
    an authorization code is exchanged only by a client that authenticates, is allowed the
    grant, and names the client and the redirect URI the code was issued for, before the
    code expires, and with the verifier of its challenge if it has one; and a code that has
    been exchanged is never accepted again.  A refresh token is likewise accepted only
    from its client, unrevoked and unexpired, and only once.  A revoked token never
    passes [Introspect] again. *)
Theorem oauth2_single_use `{!Crypto} s os s2 ctx auth now access refresh req resp s1 :
  new_tokens access refresh s →
  Token ctx auth now access refresh req s = (inr resp, s1) → run s1 os s2 →
  (code_grant req →
     (∃ client ac,
        authenticateClientLocked (ClientID req) (ClientSecret req) s = inr client ∧
        clientAllowsGrant client GrantAuthorizationCode = true ∧
        codes s !! Code req = Some ac ∧ Used ac = false ∧ now ≤ ac_ExpiresAt ac ∧
        ac_ClientID ac = ClientID req ∧ ac_RedirectURI ac = RedirectURI req ∧
        (CodeChallenge ac ≠ "" →
           verifyPKCE (CodeChallenge ac) (CodeChallengeMethod ac) (CodeVerifier req) = true)) ∧
     ∀ ctx' auth' now' access' refresh' req', code_grant req' → Code req' = Code req →
       new_tokens access' refresh' s2 →
       ∃ err, Token ctx' auth' now' access' refresh' req' s2 = (inl err, s2)) ∧
  (GrantType req = GrantRefreshToken →
     (∃ client rt,
        authenticateClientLocked (ClientID req) (ClientSecret req) s = inr client ∧
        tokens s !! RefreshToken req = Some rt ∧ Refresh rt = true ∧ Revoked rt = false ∧
        now ≤ t_ExpiresAt rt ∧ t_ClientID rt = c_ID client) ∧
     ∀ ctx' auth' now' access' refresh' req',
       GrantType req' = GrantRefreshToken → RefreshToken req' = RefreshToken req →
       new_tokens access' refresh' s2 →
       ∃ err, Token ctx' auth' now' access' refresh' req' s2 = (inl err, s2)) ∧
  (∀ token it, tokens s1 !! token = Some it → Revoked it = true →
     ∀ ctx' now', ∃ err, Introspect ctx' now' token s2 = inl err).
Proof.
  intros Hnew Htok Hrun. pose proof (run_older _ _ _ Hrun) as Hold. split_and!.
  - intros Hg. unfold Token, mbind, GoM_bind, throw_some in Htok. destruct ctx; [done|].
    rewrite decide_True in Htok by done.
    destruct (tokenAuthCode_success _ _ _ _ _ _ _ Hnew Htok)
      as (client & ac & Ha & Hgr & Hac & Hu & He & Hc & Hr & Hp & Hold1).
    split; [by exists client, ac|].
    intros ctx' auth' now' access' refresh' req' Hg' Hcode Hnew'.
    unfold Token, mbind, GoM_bind, throw_some. destruct ctx' as [err|]; [by exists err|].
    rewrite decide_True by done.
    destruct (tokenAuthCode now' access' refresh' req' s2) as [[err|resp'] s3] eqn:E.
    { exists err. by rewrite (tokenAuthCode_error _ _ _ _ _ _ _ Hnew' E). }
    destruct (tokenAuthCode_success _ _ _ _ _ _ _ Hnew' E)
      as (_ & ac' & _ & _ & Hac' & Hu' & _). exfalso. rewrite Hcode in Hac'.
    pose proof (old_codes _ _ (transitivity Hold1 Hold) (Code req) (use ac)) as [E'|E'];
      [by cbn; rewrite lookup_insert_eq| |]; rewrite E' in Hac'; by injection Hac' as <-.
  - intros Hg. unfold Token, mbind, GoM_bind, throw_some in Htok. destruct ctx; [done|].
    rewrite decide_False, decide_False, decide_True in Htok
      by (rewrite Hg; (done || by intros [|])).
    destruct (tokenRefresh_success _ _ _ _ _ _ _ Hnew Htok)
      as (client & rt & Ha & Hgr & Hrt & Hr & Hv & He & Hc & Hold1).
    split; [by exists client, rt|].
    intros ctx' auth' now' access' refresh' req' Hg' Htk Hnew'.
    unfold Token, mbind, GoM_bind, throw_some. destruct ctx' as [err|]; [by exists err|].
    rewrite decide_False, decide_False, decide_True by (rewrite Hg'; (done || by intros [|])).
    destruct (tokenRefresh now' access' refresh' req' s2) as [[err|resp'] s3] eqn:E.
    { exists err. by rewrite (tokenRefresh_error _ _ _ _ _ _ _ Hnew' E). }
    destruct (tokenRefresh_success _ _ _ _ _ _ _ Hnew' E)
      as (_ & rt' & _ & _ & Hrt' & _ & Hv' & _). exfalso. rewrite Htk in Hrt'.
    pose proof (old_tokens _ _ (transitivity Hold1 Hold) (RefreshToken req) (revoke rt))
      as [E'|E']; [by cbn; rewrite lookup_insert_eq| |]; rewrite E' in Hrt'; by injection Hrt' as <-.
  - intros token it Hit Hrev ctx' now'. unfold Introspect. destruct ctx' as [err|]; [by eauto|].
    destruct (old_tokens _ _ Hold token it Hit) as [E|E]; rewrite E, decide_True; eauto.
Qed.

(** A client that may have the scope "read", registered on a server with plain secrets. *)
#[local] Instance plain : Crypto :=
  {| Verify := λ a b, inr (bool_decide (a = b)); s256 := λ v, v |}.
Definition reader_server : Server :=
  exec (RegisterClient None (inr "") {| c_ID := "app"; Secret := ""; RedirectURIs := [];
    GrantTypes := []; c_Scopes := ["read"] |})
    (NewServer {| Issuer := ""; AccessTokenTTL := 0; RefreshTokenTTL := 0; AuthCodeTTL := 0 |}).
(** The user authorises the client for scope [sc]; the code is "c1". *)
Definition authorised (sc : string) : Server :=
  exec (Authorize None 0 "c1" {| ResponseType := "code"; a_ClientID := "app";
    a_RedirectURI := "u"; a_Scope := [sc]; State := ""; a_Subject := "user";
    a_CodeChallenge := ""; a_CodeChallengeMethod := "" |}) reader_server.
Definition code_req : TokenRequest :=
  {| GrantType := ""; Code := "c1"; RedirectURI := "u"; ClientID := "app"; ClientSecret := "";
     RefreshToken := ""; Scope := []; Username := ""; Password := ""; CodeVerifier := "" |}.
Definition refresh_req (sc : string) : TokenRequest :=
  {| GrantType := GrantRefreshToken; Code := ""; RedirectURI := ""; ClientID := "app";
     ClientSecret := ""; RefreshToken := "r1"; Scope := [sc]; Username := ""; Password := "";
     CodeVerifier := "" |}.

Lemma oauth2_single_use_witness :
  let s1 := exec (Token None None 1 "a1" "r1" code_req) (authorised "read") in
  ∃ err, Token None None 2 "a2" "r2" code_req s1 = (inl err, s1).
Proof.
  intros s1.
  assert (∃ resp, Token None None 1 "a1" "r1" code_req (authorised "read") = (inr resp, s1))
    as [resp Hr] by (eexists; vm_compute; reflexivity).
  pose proof (oauth2_single_use (authorised "read") [] s1 None None 1 "a1" "r1" code_req resp s1)
    as H. destruct H as (H & _ & _).
  - split; vm_compute; reflexivity.
  - exact Hr.
  - constructor.
  - destruct H as [_ H]; [right; reflexivity|].
    apply H; [right; reflexivity|reflexivity|split; vm_compute; reflexivity].
Defined.

(** A client can give itself a scope it is not allowed: [normalizeScopes] takes an empty
    list of allowed scopes for "everything is allowed".  A client restricted to "read"
    asks for "admin" and gets tokens without any scope; when it refreshes them with the
    scope "admin", the empty scopes of the refresh token are the allowed ones, and it gets
    an access token with the scope "admin". *)
Theorem oauth2_scope_escalation :
  let s1 := exec (Token None None 1 "a1" "r1" code_req) (authorised "admin") in
  let s2 := exec (Token None None 2 "a2" "r2" (refresh_req "admin")) s1 in
  c_Scopes <$> clients s2 !! "app" = Some ["read"] ∧
  (∃ cl, Introspect None 3 "a1" s2 = inr cl ∧ tc_Scopes cl = []) ∧
  (∃ cl, Introspect None 3 "a2" s2 = inr cl ∧ tc_Scopes cl = ["admin"]).
Proof. vm_compute. split_and!; [done|by eexists|by eexists]. Qed.
