(* ===== verification/Totp.v ===== *)
(** * pkg/auth/mfa/otp

    One-time passwords by time (RFC 6238, on HMAC-SHA-1) and recovery codes.  The bytes that
    crypto/rand gives are arguments.  [None] is a panic. *)

From S2P Require Import Prelude GoStrings Utf8 BaseN Digest.
From stdpp Require Import pretty options.
From Stdlib Require Import Ascii.
Open Scope Z_scope.

(** ** One-time passwords *)

(* src: pkg/auth/mfa/otp/totp.go 23-38 TOTPConfig *)
Record TOTPConfig := { Issuer : string; Digits : Z; Period : Z; Skew : Z; SecretLength : Z }.

(* src: pkg/auth/mfa/otp/totp.go 41-49 DefaultTOTPConfig *)
Definition DefaultTOTPConfig : TOTPConfig :=
  {| Issuer := "MyApp"; Digits := 6; Period := 30; Skew := 1; SecretLength := 20 |}.

Definition or_default (z d : Z) : Z := if decide (z = 0) then d else z.

(* src: pkg/auth/mfa/otp/totp.go 57-71 NewTOTP *)
Definition NewTOTP (cfg : TOTPConfig) : TOTPConfig :=
  {| Issuer := Issuer cfg; Digits := or_default (Digits cfg) 6; Period := or_default (Period cfg) 30;
     Skew := or_default (Skew cfg) 1; SecretLength := or_default (SecretLength cfg) 20 |}.

(** [secret] is what rand.Read fills in. *)
(* src: pkg/auth/mfa/otp/totp.go 74-80 GenerateSecret *)
Definition GenerateSecret (secret : list Z) : string := encode32 secret.

(** [binary.BigEndian.PutUint64] *)
Definition be64 (z : Z) : list Z := digits 256 8 z.

(* src: pkg/auth/mfa/otp/totp.go 110-114 generateCodeForCounter *)
Definition truncate (hash : list Z) : option Z :=
  l ← last hash;
  let offset := Z.to_nat (Z.land l 15) in
  h0 ← hash !! offset;
  h1 ← hash !! S offset;
  h2 ← hash !! S (S offset);
  h3 ← hash !! S (S (S offset));
  Some (Z.lor (Z.lor (Z.lor (Z.shiftl (Z.land h0 127) 24) (Z.shiftl (Z.land h1 255) 16)) (Z.shiftl (Z.land h2 255) 8)) (Z.land h3 255)).

(* src: pkg/auth/mfa/otp/totp.go 117-120 generateCodeForCounter *)
Fixpoint power (n : nat) (m : Z) : Z := match n with O => m | S n => power n (i64 (m * 10)) end.

(** [Some None] is an error: the secret is not base32. *)
(* src: pkg/auth/mfa/otp/totp.go 93-134 generateCodeForCounter *)
Definition generateCodeForCounter (t : TOTPConfig) (secret : string) (counter : Z) : option (option string) :=
  match decode32 (ToUpper secret) with
  | None => Some None
  | Some key =>
      code ← truncate (Sha1.hmac key (be64 counter));
      let mod_ := power (Z.to_nat (Digits t)) 1 in
      if decide (mod_ = 0) then None else
      let codeStr := pretty (Z.rem code mod_) in
      Some (Some (string_of_bytes (replicate (Z.to_nat (Digits t) - String.length codeStr) 48 ++ bytes codeStr)))
  end.

Definition counter_at (t : TOTPConfig) (at_ : Z) : Z := u64 (at_ / 10 ^ 9) / u64 (Period t).

(* src: pkg/auth/mfa/otp/totp.go 88-91 GenerateCodeAt *)
Definition GenerateCodeAt (t : TOTPConfig) (secret : string) (at_ : Z) : option (option string) :=
  generateCodeForCounter t secret (counter_at t at_).

(** The comparison in constant time. *)
(* src: pkg/auth/mfa/otp/totp.go 186-195 subtle *)
Definition subtle (a b : string) : bool :=
  if decide (String.length a ≠ String.length b) then false
  else bool_decide (foldl (λ result xy, Z.lor result (Z.lxor xy.1 xy.2)) 0 (zip (bytes a) (bytes b)) = 0).

(* src: pkg/auth/mfa/otp/totp.go 158-167 ValidateAtReturningCounter *)
Fixpoint validate_loop (t : TOTPConfig) (secret code : string) (counter : Z) (steps : list Z) : option (bool * Z) :=
  match steps with
  | [] => Some (false, 0)
  | i :: steps =>
      let usedCounter := u64 (counter + i) in
      expected ← generateCodeForCounter t secret usedCounter;
      match expected with
      | None => validate_loop t secret code counter steps
      | Some expected => if subtle expected code then Some (true, usedCounter) else validate_loop t secret code counter steps
      end
  end.

(* src: pkg/auth/mfa/otp/totp.go 154-169 ValidateAtReturningCounter *)
Definition ValidateAtReturningCounter (t : TOTPConfig) (secret code : string) (at_ : Z) : option (bool * Z) :=
  validate_loop t secret code (counter_at t at_) (seqZ (- Skew t) (2 * Skew t + 1)).

(* src: pkg/auth/mfa/otp/totp.go 148-151 ValidateAt *)
Definition ValidateAt (t : TOTPConfig) (secret code : string) (at_ : Z) : option bool :=
  fst <$> ValidateAtReturningCounter t secret code at_.

(** The test vectors of RFC 6238. *)
Example totp_rfc6238 : let t := {| Issuer := ""; Digits := 8; Period := 30; Skew := 1; SecretLength := 20 |} in
  let secret := encode32 (bytes "12345678901234567890") in
  (GenerateCodeAt t secret (59 * 10 ^ 9), GenerateCodeAt t secret (1111111109 * 10 ^ 9), GenerateCodeAt t secret (20000000000 * 10 ^ 9))
  = (Some (Some "94287082"), Some (Some "07081804"), Some (Some "65353130")).
Proof. vm_compute. reflexivity. Qed.

Lemma power_spec n m : 0 ≤ m → m * 10 ^ Z.of_nat n < 2 ^ 63 → power n m = m * 10 ^ Z.of_nat n.
Proof.
  revert m. induction n as [|n IH]; intros m Hm Hn; cbn [power]; [lia|]. rewrite Nat2Z.inj_succ, Z.pow_succ_r in * by lia.
  assert (1 ≤ 10 ^ Z.of_nat n) by (pose proof (Z.pow_pos_nonneg 10 (Z.of_nat n)); lia). rewrite i64_id by (unfold is_i64; nia). rewrite IH by nia. lia.
Qed.

(** The constant-time comparison is equality. *)
Lemma subtle_spec a b : subtle a b = bool_decide (a = b).
Proof.
  assert (∀ l m : list Z, ∀ r, length l = length m → 0 ≤ r → Forall (λ b, 0 ≤ b) l → Forall (λ b, 0 ≤ b) m →
    foldl (λ result xy, Z.lor result (Z.lxor xy.1 xy.2)) r (zip l m) = 0 ↔ r = 0 ∧ l = m) as Hf.
  { induction l as [|x l IH]; intros [|y m] r Hl Hr Hx Hy; try done; [naive_solver|]. cbn. apply Forall_cons in Hx as [Hx Hl']. apply Forall_cons in Hy as [Hy Hm'].
    rewrite IH; [|by injection Hl|apply Z.lor_nonneg; split; [done|]; by apply Z.lxor_nonneg|done|done]. rewrite Z.lor_eq_0_iff, Z.lxor_eq_0_iff. naive_solver. }
  assert (∀ s, Forall (λ b, 0 ≤ b) (bytes s)) as Hnn by (intros s; eapply Forall_impl; [apply bytes_range|]; cbn; lia).
  assert (∀ s, length (bytes s) = String.length s) as Hlen. { intros s. unfold bytes. rewrite length_fmap. induction s; cbn; [done|]. by f_equal. }
  unfold subtle. destruct (decide _) as [Hne|He%dec_stable].
  - symmetry. apply bool_decide_eq_false. by intros ->.
  - apply bool_decide_ext. rewrite Hf by (done || by rewrite !Hlen). split; [|by intros ->]. intros [_ E].
    by rewrite <- (string_of_bytes_bytes a), E, string_of_bytes_bytes.
Qed.

(** *** The codes of RFC 4226 *)

Definition hotp (key : list Z) (counter : Z) (d : nat) : string :=
  let hash := Sha1.hmac key (be64 counter) in
  let offset := Z.to_nat (default 0 (last hash) mod 16) in
  string_of_bytes (decimal d (value 256 (take 4 (drop offset hash)) mod 2 ^ 31 mod 10 ^ Z.of_nat d)).

Lemma lor_shiftl a b n : 0 ≤ n → 0 ≤ b < 2 ^ n → Z.lor (Z.shiftl a n) b = a * 2 ^ n + b.
Proof.
  intros Hn Hb. rewrite <- Z.shiftl_mul_pow2 by done. rewrite <- Z.lxor_lor, Z.add_nocarry_lxor; [done|..].
  all: apply Z.bits_inj'; intros i Hi; rewrite Z.land_spec, Z.shiftl_spec, Z.bits_0 by done;
    (destruct (decide (i < n)); [by rewrite Z.testbit_neg_r by lia|]);
    rewrite <- (Z.mod_small b (2 ^ n)), Z.mod_pow2_bits_high by lia; apply andb_false_r.
Qed.

Lemma truncate_spec hash : length hash = 20%nat → Forall (λ b, 0 ≤ b < 256) hash →
  truncate hash = Some (value 256 (take 4 (drop (Z.to_nat (default 0 (last hash) mod 16)) hash)) mod 2 ^ 31).
Proof.
  intros Hl Hb. unfold truncate. destruct (last hash) as [l|] eqn:El; [|by destruct hash as [|? ?] using rev_ind; [|rewrite last_snoc in El]]. cbn [mbind option_bind]. change (default 0 (Some l)) with l.
  change 15 with (Z.ones 4). rewrite Z.land_ones by done. change (2 ^ 4) with 16. set (o := Z.to_nat (l mod 16)).
  assert (o < 16)%nat as Ho by (unfold o; pose proof (Z.mod_pos_bound l 16); lia).
  assert (∀ i, (i < 4)%nat → ∃ h, hash !! (o + i)%nat = Some h ∧ drop o hash !! i = Some h ∧ 0 ≤ h < 256) as Hh.
  { intros i Hi. destruct (lookup_lt_is_Some_2 hash (o + i)%nat ltac:(lia)) as [h Hh]. exists h. rewrite lookup_drop. split_and!; [done|done|..]; rewrite Forall_lookup in Hb; by apply (Hb (o + i)%nat). }
  destruct (Hh 0%nat) as (h0 & L0 & D0 & B0); [lia|]. destruct (Hh 1%nat) as (h1 & L1 & D1 & B1); [lia|]. destruct (Hh 2%nat) as (h2 & L2 & D2 & B2); [lia|]. destruct (Hh 3%nat) as (h3 & L3 & D3 & B3); [lia|].
  rewrite Nat.add_0_r in L0. rewrite Nat.add_1_r in L1. replace (o + 2)%nat with (S (S o)) in L2 by lia. replace (o + 3)%nat with (S (S (S o))) in L3 by lia.
  rewrite L0, L1, L2, L3. cbn [mbind option_bind]. f_equal.
  assert (take 4 (drop o hash) = [h0; h1; h2; h3]) as ->.
  { destruct (drop o hash) as [|x0 [|x1 [|x2 [|x3 ?]]]]; try done. cbn in *. by simplify_eq. }
  change 127 with (Z.ones 7). change 255 with (Z.ones 8). rewrite !Z.land_ones by done. rewrite (Z.mod_small h1), (Z.mod_small h2), (Z.mod_small h3) by done.
  assert (0 ≤ h0 mod 2 ^ 7 < 2 ^ 7) as Hm by (by apply Z.mod_pos_bound).
  rewrite (lor_shiftl _ (Z.shiftl h1 16)) by (rewrite ?Z.shiftl_mul_pow2 by done; lia). rewrite Z.shiftl_mul_pow2 by done.
  replace (h0 mod 2 ^ 7 * 2 ^ 24 + h1 * 2 ^ 16) with (Z.shiftl (h0 mod 2 ^ 7 * 2 ^ 8 + h1) 16) by (rewrite Z.shiftl_mul_pow2 by done; lia).
  rewrite lor_shiftl by (rewrite ?Z.shiftl_mul_pow2 by done; lia). rewrite (Z.shiftl_mul_pow2 h2) by done.
  replace ((h0 mod 2 ^ 7 * 2 ^ 8 + h1) * 2 ^ 16 + h2 * 2 ^ 8) with (Z.shiftl ((h0 mod 2 ^ 7 * 2 ^ 8 + h1) * 2 ^ 8 + h2) 8) by (rewrite Z.shiftl_mul_pow2 by done; lia).
  rewrite lor_shiftl by lia. unfold value. cbn [value_from]. change (2 ^ 31) with (2 ^ 7 * 2 ^ 24).
  pose proof (Z.div_mod h0 (2 ^ 7)). apply (Z.mod_unique _ _ (h0 / 2 ^ 7)); lia.
Qed.

Lemma generateCode_spec t secret counter key : 1 ≤ Digits t ≤ 18 → decode32 (ToUpper secret) = Some key →
  generateCodeForCounter t secret counter = Some (Some (hotp key counter (Z.to_nat (Digits t)))).
Proof.
  intros Hd Hk. unfold generateCodeForCounter. rewrite Hk, truncate_spec by (apply Sha1.Sum_length || apply Sha1.Sum_bytes). cbn [mbind option_bind].
  set (n := Z.to_nat (Digits t)). assert (Z.of_nat n = Digits t) as Hn by (unfold n; lia). assert (10 ^ Z.of_nat n ≤ 10 ^ 18) by (apply Z.pow_le_mono_r; lia).
  assert (0 < 10 ^ Z.of_nat n) by (apply Z.pow_pos_nonneg; lia). rewrite power_spec by lia. rewrite Z.mul_1_l, decide_False by lia. unfold hotp.
  set (c := value 256 _ mod 2 ^ 31). assert (0 ≤ c) by (by apply Z.mod_pos_bound). rewrite Z.rem_mod_nonneg by lia.
  destruct (pretty_decimal n (c mod 10 ^ Z.of_nat n)) as [_ ->]; [lia|by apply Z.mod_pos_bound|done].
Qed.

Lemma validate_loop_spec t secret code counter steps key : 1 ≤ Digits t ≤ 18 → decode32 (ToUpper secret) = Some key →
  ∃ b c, validate_loop t secret code counter steps = Some (b, c) ∧
    (b = true ↔ ∃ i, i ∈ steps ∧ code = hotp key (u64 (counter + i)) (Z.to_nat (Digits t))) ∧
    (b = true → ∃ i, i ∈ steps ∧ c = u64 (counter + i) ∧ code = hotp key c (Z.to_nat (Digits t))).
Proof.
  intros Hd Hk. induction steps as [|i steps (b & c & IH & IHb & IHc)]; cbn [validate_loop].
  { exists false, 0. split_and!; [done| |done]. split; [done|]. by intros (i & ?%elem_of_nil & _). }
  rewrite (generateCode_spec t secret _ key) by done. cbn [mbind option_bind]. rewrite subtle_spec. destruct (bool_decide_reflect (hotp key (u64 (counter + i)) (Z.to_nat (Digits t)) = code)) as [E|E].
  - eexists true, _. split; [done|]. split; [split; [|done]|]; intros _; exists i; (split; [by left|done]).
  - exists b, c. split; [done|]. split.
    + rewrite IHb. split; intros (j & Hj & Ej); exists j; (split; [|done]); [by right|]. apply elem_of_cons in Hj as [->|Hj]; [congruence|done].
    + intros Hb. destruct (IHc Hb) as (j & Hj & Ej). exists j. split; [by right|done].
Qed.

Lemma validate_loop_error t secret code counter steps : decode32 (ToUpper secret) = None → validate_loop t secret code counter steps = Some (false, 0).
Proof. intros E. induction steps as [|i steps IH]; [done|]. cbn. unfold generateCodeForCounter. rewrite E. exact IH. Qed.

Lemma ToUpper_encode32 l : ToUpper (encode32 l) = encode32 l.
Proof.
  unfold encode32. pose proof (regroup_digit to32 l ltac:(done)) as Hd. cbn [to_base to32] in Hd. induction Hd as [|d ds Hd _ IH]; [done|].
  unfold string_of_bytes in *. cbn. f_equal; [|exact IH]. apply letter32_ok in Hd as [Hd _]. unfold to_upper_ascii.
  assert (Ascii.nat_of_ascii (Ascii.ascii_of_N (Z.to_N (letter32 d))) = Z.to_nat (letter32 d)) as ->.
  { unfold Ascii.nat_of_ascii. rewrite Ascii.N_ascii_embedding by lia. lia. }
  by rewrite decide_False by lia.
Qed.

(** C22. The passwords are those of RFC 6238 in the window.  For up to 18 digits and times since
    1970 the validation ends without a panic and accepts exactly the codes of the counters up to
    [Skew] before and after that of the time, compared in full; and a code that was generated
    from a secret of [GenerateSecret] at one time is accepted at any other whose counter is that
    near. *)
Theorem totp_window (t : TOTPConfig) (raw : list Z) (code : string) (at_ : Z) :
  1 ≤ Digits t ≤ 18 → 0 < Period t < 2 ^ 63 → 0 ≤ at_ < 2 ^ 63 → Forall (digit 256) raw →
  (∀ secret, ∃ b, ValidateAt t secret code at_ = Some b ∧
    (b = true ↔ ∃ key i, decode32 (ToUpper secret) = Some key ∧ - Skew t ≤ i ≤ Skew t ∧
      code = hotp key (u64 (at_ / 10 ^ 9 / Period t + i)) (Z.to_nat (Digits t)))) ∧
  ∀ at', 0 ≤ at' < 2 ^ 63 → Z.abs (at' / 10 ^ 9 / Period t - at_ / 10 ^ 9 / Period t) ≤ Skew t →
    GenerateCodeAt t (GenerateSecret raw) at' = Some (Some code) → ValidateAt t (GenerateSecret raw) code at_ = Some true.
Proof.
  intros Hd Hp Ha Hraw. assert (∀ a, 0 ≤ a < 2 ^ 63 → 0 ≤ a / 10 ^ 9 < 2 ^ 63) as Hdiv.
  { intros a Hr. split; [apply Z.div_pos; lia|]. apply Z.div_lt_upper_bound; lia. }
  assert (∀ a, 0 ≤ a < 2 ^ 63 → counter_at t a = a / 10 ^ 9 / Period t) as Hc.
  { intros a Hr. specialize (Hdiv a Hr). unfold counter_at. by rewrite !u64_id by (unfold is_u64; lia). }
  assert (∀ secret, ∃ b, ValidateAt t secret code at_ = Some b ∧ (b = true ↔ ∃ key i, decode32 (ToUpper secret) = Some key ∧ - Skew t ≤ i ≤ Skew t ∧
      code = hotp key (u64 (at_ / 10 ^ 9 / Period t + i)) (Z.to_nat (Digits t)))) as Hv.
  { intros secret. unfold ValidateAt, ValidateAtReturningCounter. rewrite Hc by done. destruct (decode32 (ToUpper secret)) as [key|] eqn:E.
    - destruct (validate_loop_spec t secret code (at_ / 10 ^ 9 / Period t) (seqZ (- Skew t) (2 * Skew t + 1)) key Hd E) as (b & c & -> & Hb & _). exists b. split; [done|]. rewrite Hb. split.
      + intros (i & Hi%elem_of_seqZ & Ei). exists key, i. split_and!; [done|lia|lia|done].
      + intros (key' & i & [= <-] & Hi & Ei). exists i. split; [apply elem_of_seqZ; lia|done].
    - rewrite validate_loop_error by done. exists false. split; [done|]. split; [done|]. by intros (? & ? & ? & _). }
  split; [exact Hv|]. intros at' Ha' Hnear Hgen. destruct (Hv (GenerateSecret raw)) as (b & -> & Hb). f_equal. apply Hb.
  assert (decode32 (ToUpper (GenerateSecret raw)) = Some raw) as Hk by (unfold GenerateSecret; rewrite ToUpper_encode32; by apply decode_encode32).
  unfold GenerateCodeAt in Hgen. rewrite (generateCode_spec t _ _ raw Hd Hk), Hc in Hgen by done. injection Hgen as <-.
  exists raw, (at' / 10 ^ 9 / Period t - at_ / 10 ^ 9 / Period t). split_and!; [done|lia|lia|]. f_equal. replace (at_ / 10 ^ 9 / Period t + (at' / 10 ^ 9 / Period t - at_ / 10 ^ 9 / Period t)) with (at' / 10 ^ 9 / Period t) by lia.
  symmetry. apply u64_id. specialize (Hdiv at' Ha'). unfold is_u64. split; [apply Z.div_pos; lia|]. apply Z.div_lt_upper_bound; nia.
Qed.

Lemma totp_window_witness : ValidateAt DefaultTOTPConfig (GenerateSecret (bytes "12345678901234567890")) "287082" (61 * 10 ^ 9) = Some true.
Proof.
  refine (proj2 (totp_window DefaultTOTPConfig (bytes "12345678901234567890") "287082" (61 * 10 ^ 9) _ _ _ _) (59 * 10 ^ 9) _ _ _).
  - cbn. lia.
  - cbn. lia.
  - lia.
  - apply bytes_range.
  - lia.
  - vm_compute. discriminate.
  - vm_compute. reflexivity.
Defined.

(** With 64 digits the modulus wraps to 0 and the code panics. *)
Theorem totp_many_digits_panic : generateCodeForCounter {| Issuer := ""; Digits := 64; Period := 30; Skew := 1; SecretLength := 20 |} "AA" 0 = None.
Proof. vm_compute. reflexivity. Qed.

(** ** Recovery codes *)

(* src: pkg/auth/mfa/otp/recovery.go 14-23 RecoveryCodeConfig *)
Record RecoveryCodeConfig := { Count : Z; Length : Z; GroupSize : Z }.

(* src: pkg/auth/mfa/otp/recovery.go 26-32 DefaultRecoveryCodeConfig *)
Definition DefaultRecoveryCodeConfig : RecoveryCodeConfig := {| Count := 10; Length := 10; GroupSize := 5 |}.

(** [s[:n]] and [s[n:]], up to the end of the string. *)
Fixpoint str_take (n : nat) (s : string) : string := match n, s with S n, String a s => String a (str_take n s) | _, _ => "" end.
Fixpoint str_drop (n : nat) (s : string) : string := match n, s with S n, String _ s => str_drop n s | _, _ => s end.

(* src: pkg/auth/mfa/otp/recovery.go 70-77 formatCode *)
Fixpoint groups (fuel n : nat) (code : string) : list string :=
  match fuel, code with
  | S fuel, String _ _ => str_take n code :: groups fuel n (str_drop n code)
  | _, _ => []
  end.

(* src: pkg/auth/mfa/otp/recovery.go 65-79 formatCode *)
Definition formatCode (m : RecoveryCodeConfig) (code : string) : string :=
  if decide (GroupSize m ≤ 0) then code else String.concat "-" (groups (String.length code) (Z.to_nat (GroupSize m)) code).

(* src: pkg/auth/mfa/otp/recovery.go 87-91 HashRecoveryCode *)
Definition HashRecoveryCode (code : string) : string :=
  hex (Sum256 (bytes (replace_from 0 (ToLower code) "-" ""))).

(** The codes to show and to store, for the bytes that rand.Read gives. *)
(* src: pkg/auth/mfa/otp/recovery.go 46-62 GenerateCodes *)
Definition GenerateCodes (m : RecoveryCodeConfig) (codes : list (list Z)) : list string * list string :=
  ((λ code, formatCode m (hex code)) <$> codes, (λ code, HashRecoveryCode (hex code)) <$> codes).

(* src: pkg/auth/mfa/otp/recovery.go 95-98 RecoveryCodeSet *)
Definition RecoveryCodeSet := gmap string bool.

(* src: pkg/auth/mfa/otp/recovery.go 101-110 NewRecoveryCodeSet *)
Definition NewRecoveryCodeSet (hashedCodes : list string) : RecoveryCodeSet :=
  foldl (λ codes code, <[code := false]> codes) ∅ hashedCodes.

(* src: pkg/auth/mfa/otp/recovery.go 114-127 Validate *)
Definition set_Validate (code : string) (s : RecoveryCodeSet) : bool * RecoveryCodeSet :=
  let hashed := HashRecoveryCode code in
  match s !! hashed with
  | Some false => (true, <[hashed := true]> s)
  | _ => (false, s)
  end.

(* src: pkg/auth/mfa/otp/recovery.go 130-141 RemainingCount *)
Definition RemainingCount (s : RecoveryCodeSet) : Z := Z.of_nat (size (filter (λ kv, kv.2 = false) s)).

Example formatCode_groups : formatCode DefaultRecoveryCodeConfig "0123456789abcdef0123" = "01234-56789-abcde-f0123".
Proof. reflexivity. Qed.

(** *** Formatting does not matter *)

Fixpoint undash (s : string) : string :=
  match s with EmptyString => "" | String a s => if decide (a = "-"%char) then undash s else String a (undash s) end.

Lemma replace_undash s : replace_from 0 s "-" "" = undash s.
Proof.
  induction s as [|a s IH]; [done|]. cbn [replace_from undash]. rewrite IH. cbn [String.prefix].
  destruct (decide (a = "-"%char)) as [->|Hn]; [by destruct s|]. destruct (Ascii.ascii_dec "-" a) as [<-|]; [done|done].
Qed.

Lemma undash_app s t : undash (s +:+ t) = undash s +:+ undash t.
Proof. induction s as [|a s IH]; [done|]. change (String a s +:+ t) with (String a (s +:+ t)). cbn [undash]. rewrite IH. by destruct (decide _). Qed.

Lemma ToLower_app s t : ToLower (s +:+ t) = ToLower s +:+ ToLower t.
Proof. induction s as [|a s IH]; [done|]. change (String a s +:+ t) with (String a (s +:+ t)). cbn [ToLower]. by rewrite IH. Qed.

Lemma str_app_nil s : s +:+ "" = s.
Proof. induction s as [|a s IH]; [done|]. change (String a s +:+ "") with (String a (s +:+ "")). by rewrite IH. Qed.

Lemma str_take_drop n s : str_take n s +:+ str_drop n s = s.
Proof. revert s. induction n as [|n IH]; intros [|a s]; try done. cbn [str_take str_drop]. by rewrite <- (IH s) at 3. Qed.

Lemma str_drop_length n s : (0 < n)%nat → s ≠ "" → (String.length (str_drop n s) < String.length s)%nat.
Proof.
  revert s. induction n as [|n IH]; intros [|a s] Hn Hs; try done; [lia|]. cbn. destruct n as [|n]; [cbn; lia|]. destruct s as [|b s]; [cbn; lia|].
  specialize (IH (String b s) ltac:(lia) ltac:(done)). lia.
Qed.

Lemma undash_groups fuel n s : (0 < n)%nat → (String.length s ≤ fuel)%nat → undash (ToLower (String.concat "-" (groups fuel n s))) = undash (ToLower s).
Proof.
  intros Hn. revert s. induction fuel as [|fuel IH]; intros [|a s] Hl; try done; [cbn in Hl; lia|]. cbn [groups].
  pose proof (str_drop_length n (String a s) Hn ltac:(done)) as Hd. specialize (IH (str_drop n (String a s)) ltac:(cbn in *; lia)).
  rewrite <- (str_take_drop n (String a s)) at 3. rewrite ToLower_app, undash_app, <- IH.
  destruct (groups fuel n (str_drop n (String a s))) as [|g gs]; [by rewrite str_app_nil|].
  change (String.concat "-" (str_take n (String a s) :: g :: gs)) with (str_take n (String a s) +:+ "-" +:+ String.concat "-" (g :: gs)).
  by rewrite !ToLower_app, !undash_app.
Qed.

(** A displayed code has the stored hash, and so has any spelling of it. *)
Lemma HashRecoveryCode_format m code : HashRecoveryCode (formatCode m code) = HashRecoveryCode code.
Proof.
  unfold HashRecoveryCode, formatCode. destruct (decide _); [done|]. rewrite !replace_undash, undash_groups; [done|lia|done].
Qed.

Lemma HashRecoveryCode_spelling code code' : undash (ToLower code) = undash (ToLower code') → HashRecoveryCode code = HashRecoveryCode code'.
Proof. unfold HashRecoveryCode. rewrite !replace_undash. by intros ->. Qed.
