(* ===== verification/Crypto.v ===== *)
(** * pkg/security/crypto/crypto.go and pkg/auth/encrypt.go

    Encryption of strings by AES-GCM.  The cipher of the standard library is the class [Gcm],
    with what it promises in [GcmLaws]; nonces are arguments. *)

From S2P Require Import Prelude GoStrings Errors Utf8 BaseN Digest.
From stdpp Require Import options.
Open Scope Z_scope.

(** [gcm.Seal] and [gcm.Open], by key and nonce. *)
Class Gcm := { Seal : list Z → list Z → list Z → list Z; Open : list Z → list Z → list Z → option (list Z) }.

(** Sealed bytes are bytes, and are opened again with the same key and nonce. *)
Class GcmLaws `{Gcm} : Prop := {
  seal_bytes key nonce p : Forall (digit 256) (Seal key nonce p);
  open_seal key nonce p : Forall (digit 256) p → Open key nonce (Seal key nonce p) = Some p }.

(* src: pkg/security/crypto/errors.go 5-10 const *)
Definition CodeInvalidKey := "CRYPTO_INVALID_KEY".
Definition CodeInvalidCiphertext := "CRYPTO_INVALID_CIPHERTEXT".
Definition CodeDecryptionFailed := "CRYPTO_DECRYPTION_FAILED".

(* src: pkg/security/crypto/errors.go 14-14 ErrInvalidKey *)
Definition ErrInvalidKey : error := New CodeInvalidKey "invalid encryption key" None.
(* src: pkg/security/crypto/errors.go 17-17 ErrInvalidCiphertext *)
Definition ErrInvalidCiphertext : error := New CodeInvalidCiphertext "invalid ciphertext" None.
(* src: pkg/security/crypto/errors.go 20-20 ErrDecryptionFailed *)
Definition ErrDecryptionFailed : error := New CodeDecryptionFailed "decryption failed" None.

(** Keys of 16, 24 or 32 bytes. *)
(* src: pkg/auth/encrypt.go 48-50 isAESKeyLen *)
Definition isAESKeyLen (n : nat) : bool := bool_decide (n = 16 ∨ n = 24 ∨ n = 32)%nat.

(** An encryptor is its key. *)
(* src: pkg/security/crypto/crypto.go 32-34 AESEncryptor *)
Record AESEncryptor := { key : list Z }.

(* src: pkg/security/crypto/crypto.go 41-46 NewAESEncryptor *)
Definition NewAESEncryptor (k : list Z) : error + AESEncryptor :=
  if isAESKeyLen (length k) then inr {| key := k |} else inl ErrInvalidKey.

Definition NonceSize : nat := 12.

Section aes.
  Context `{Gcm}.

(* src: pkg/security/crypto/crypto.go 50-67 Encrypt *)
Definition Encrypt (e : AESEncryptor) (nonce plaintext : list Z) : list Z := nonce ++ Seal (key e) nonce plaintext.

(* src: pkg/security/crypto/crypto.go 70-94 Decrypt *)
Definition Decrypt (e : AESEncryptor) (ciphertext : list Z) : error + list Z :=
  if decide (length ciphertext < NonceSize)%nat then inl ErrInvalidCiphertext
  else match Open (key e) (take NonceSize ciphertext) (drop NonceSize ciphertext) with
  | None => inl ErrDecryptionFailed
  | Some plaintext => inr plaintext
  end.

(* src: pkg/security/crypto/crypto.go 97-103 EncryptString *)
Definition EncryptString (e : AESEncryptor) (nonce : list Z) (plaintext : string) : string := encode64 (Encrypt e nonce (bytes plaintext)).

(* src: pkg/security/crypto/crypto.go 106-116 DecryptString *)
Definition DecryptString (e : AESEncryptor) (encoded : string) : error + string :=
  match decode64 encoded with
  | None => inl ErrInvalidCiphertext
  | Some ciphertext => match Decrypt e ciphertext with inl err => inl err | inr p => inr (string_of_bytes p) end
  end.

(** A nonce: 12 bytes. *)
Definition is_nonce (nonce : list Z) : Prop := length nonce = NonceSize ∧ Forall (digit 256) nonce.

(** Strings are decrypted to what was encrypted. *)
Theorem encrypt_roundtrip `{!GcmLaws} e nonce s : is_nonce nonce → DecryptString e (EncryptString e nonce s) = inr s.
Proof.
  intros [Hl Hn]. unfold DecryptString, EncryptString, Encrypt. rewrite decode_encode64 by (apply Forall_app; split; [done|apply seal_bytes]).
  unfold Decrypt. rewrite decide_False by (rewrite length_app; lia). rewrite take_app_length', drop_app_length', open_seal by (done || apply bytes_range). by rewrite string_of_bytes_bytes.
Qed.
End aes.

Definition usable (b : option (list Z)) : option (list Z) := b ← b; if isAESKeyLen (length b) then Some b else None.

(* src: pkg/auth/encrypt.go 34-46 parseAESKey *)
Definition parseAESKey (k : string) : list Z :=
  match usable (decode64 k) with
  | Some b => b
  | None =>
      match usable (decode_hex k) with
      | Some b => b
      | None => if isAESKeyLen (String.length k) then bytes k else Sum256 (bytes k)
      end
  end.

(* src: pkg/auth/errors.go 57-60 ErrInvalidConfigMsg *)
Definition ErrInvalidConfigMsg (msg : string) (err : option error) : error :=
  New "AUTH_INVALID_CONFIG" ("invalid auth configuration: " +:+ msg) err.

(** [None] is no encryption. *)
(* src: pkg/auth/encrypt.go 19-32 NewAESEncryptorFromKey *)
Definition NewAESEncryptorFromKey (k : string) : error + option AESEncryptor :=
  if decide (k = "") then inr None
  else match NewAESEncryptor (parseAESKey k) with
  | inl err => inl (ErrInvalidConfigMsg "encryption key" (Some err))
  | inr e => inr (Some e)
  end.

(** Every text is accepted as a key: one that is none is hashed to one. *)
Theorem every_key_accepted k : k ≠ "" → ∃ e, NewAESEncryptorFromKey k = inr (Some e) ∧ isAESKeyLen (length (key e)) = true.
Proof.
  intros Hk. unfold NewAESEncryptorFromKey. rewrite decide_False by done. assert (∀ b c, usable b = Some c → isAESKeyLen (length c) = true) as Hu.
  { intros [b|] c; [|done]. cbn. destruct (isAESKeyLen (length b)) eqn:E; [|done]. by intros [= <-]. }
  assert (isAESKeyLen (length (parseAESKey k)) = true) as Hp.
  { unfold parseAESKey. destruct (usable (decode64 k)) eqn:E; [by apply Hu in E|]. destruct (usable (decode_hex k)) eqn:E'; [by apply Hu in E'|].
    destruct (isAESKeyLen (String.length k)) eqn:El; [|by rewrite Sum256_length]. rewrite <- El. f_equal. unfold bytes. rewrite length_fmap. clear. induction k; cbn; [done|]. by f_equal. }
  unfold NewAESEncryptor. rewrite Hp. by eexists.
Qed.
