(* ===== verification/Mfa.v ===== *)
(** * pkg/auth/mfa/adapters/memory: second factors

    Enrolments with a one-time password and recovery codes (Totp.v), the secrets encrypted at
    rest (Crypto.v).  The methods run under the provider's lock: one call is one step.  The
    clock and the bytes that crypto/rand gives, which never fails, are arguments; [None] is a
    panic. *)

From S2P Require Import Prelude GoStrings Errors Utf8 BaseN Digest Totp Crypto.
From stdpp Require Import options.
Open Scope Z_scope.
#[local] Set Default Proof Using "Type*".

(* src: pkg/auth/mfa/mfa.go 35-44 Enrollment *)
Record Enrollment := { UserID : string; Type_ : string; Secret : string; Enabled : bool; Recovery : list string; CreatedAt : Z }.

(* src: pkg/auth/mfa/adapters/memory/memory.go 17-22 MFAProvider *)
Record MFAProvider := { enrollments : gmap string Enrollment; totpConfig : TOTPConfig; encryptor : option AESEncryptor }.

(* src: pkg/auth/mfa/mfa.go 9-32 Config *)
Record Config := { EncryptionKey : string; TOTPIssuer : string; TOTPDigits : Z; TOTPPeriod : Z }.

(* src: pkg/auth/mfa/adapters/memory/memory.go 26-41 New *)
Definition New (cfg : Config) : error + MFAProvider :=
  match NewAESEncryptorFromKey (EncryptionKey cfg) with
  | inl err => inl err
  | inr enc => inr {| enrollments := ∅; encryptor := enc;
      totpConfig := {| Issuer := TOTPIssuer cfg; Digits := TOTPDigits cfg; Period := TOTPPeriod cfg; Skew := 0; SecretLength := 0 |} |}
  end.

Definition set_enrollments (m : gmap string Enrollment) (p : MFAProvider) : MFAProvider :=
  {| enrollments := m; totpConfig := totpConfig p; encryptor := encryptor p |}.

Definition enable (e : Enrollment) : Enrollment :=
  {| UserID := UserID e; Type_ := Type_ e; Secret := Secret e; Enabled := true; Recovery := Recovery e; CreatedAt := CreatedAt e |}.
Definition set_recovery (l : list string) (e : Enrollment) : Enrollment :=
  {| UserID := UserID e; Type_ := Type_ e; Secret := Secret e; Enabled := Enabled e; Recovery := l; CreatedAt := CreatedAt e |}.

Definition answer (A : Type) : Type := option ((error + A) * MFAProvider).

Section provider.
  Context `{Gcm}.

(* src: pkg/auth/mfa/adapters/memory/memory.go 172-181 sealSecret *)
Definition sealSecret (p : MFAProvider) (nonce : list Z) (secret : string) : string :=
  match encryptor p with None => secret | Some e => EncryptString e nonce secret end.

(* src: pkg/auth/mfa/adapters/memory/memory.go 183-192 openSecret *)
Definition openSecret (p : MFAProvider) (stored : string) : error + string :=
  match encryptor p with
  | None => inr stored
  | Some e =>
      match DecryptString e stored with
      | inl err => inl (Internal "failed to decrypt mfa secret" (Some err))
      | inr plain => inr plain
      end
  end.

(* src: pkg/auth/mfa/adapters/memory/memory.go 43-77 Enroll *)
Definition Enroll (ctx : option error) (now : Z) (raw : list Z) (codes : list (list Z)) (nonce : list Z) (userID : string) (p : MFAProvider)
    : answer (string * list string) :=
  match ctx with
  | Some err => Some (inl err, p)
  | None =>
      let secret := GenerateSecret raw in
      let '(displayCodes, hashedCodes) := GenerateCodes DefaultRecoveryCodeConfig codes in
      let e := {| UserID := userID; Type_ := "totp"; Secret := sealSecret p nonce secret; Enabled := false; Recovery := hashedCodes; CreatedAt := now |} in
      Some (inr (secret, displayCodes), set_enrollments (<[userID := e]> (enrollments p)) p)
  end.

(* src: pkg/auth/mfa/adapters/memory/memory.go 79-106 CompleteEnrollment *)
Definition CompleteEnrollment (ctx : option error) (now : Z) (userID code : string) (p : MFAProvider) : answer unit :=
  match ctx with
  | Some err => Some (inl err, p)
  | None =>
      match enrollments p !! userID with
      | None => Some (inl (NotFound "mfa enrollment not found" None), p)
      | Some e =>
          if Enabled e then Some (inl (Conflict "mfa already enabled" None), p)
          else match openSecret p (Secret e) with
          | inl err => Some (inl err, p)
          | inr secret =>
              ok ← ValidateAt (NewTOTP (totpConfig p)) secret code now;
              if ok : bool then Some (inr (), set_enrollments (<[userID := enable e]> (enrollments p)) p)
              else Some (inl (InvalidArgument "invalid validation code" None), p)
          end
      end
  end.

(* src: pkg/auth/mfa/adapters/memory/memory.go 108-130 Verify *)
Definition Verify (ctx : option error) (now : Z) (userID code : string) (p : MFAProvider) : answer bool :=
  match ctx with
  | Some err => Some (inl err, p)
  | None =>
      match enrollments p !! userID with
      | None => Some (inl (NotFound "mfa enrollment not found" None), p)
      | Some e =>
          if Enabled e then
            match openSecret p (Secret e) with
            | inl err => Some (inl err, p)
            | inr secret => ok ← ValidateAt (NewTOTP (totpConfig p)) secret code now; Some (inr ok, p)
            end
          else Some (inl (Forbidden "mfa not enabled" None), p)
      end
  end.

(** The slice without the first element that is [hashedCode], if there is one. *)
(* src: pkg/auth/mfa/adapters/memory/memory.go 148-153 Recover *)
Fixpoint recover_loop (hashedCode : string) (l : list string) : option (list string) :=
  match l with
  | [] => None
  | hash :: l => if decide (hash = hashedCode) then Some l else cons hash <$> recover_loop hashedCode l
  end.

(* src: pkg/auth/mfa/adapters/memory/memory.go 132-156 Recover *)
Definition Recover (ctx : option error) (userID code : string) (p : MFAProvider) : answer bool :=
  match ctx with
  | Some err => Some (inl err, p)
  | None =>
      match enrollments p !! userID with
      | None => Some (inl (NotFound "mfa enrollment not found" None), p)
      | Some e =>
          if Enabled e then
            match recover_loop (HashRecoveryCode code) (Recovery e) with
            | Some l => Some (inr true, set_enrollments (<[userID := set_recovery l e]> (enrollments p)) p)
            | None => Some (inr false, p)
            end
          else Some (inl (Forbidden "mfa not enabled" None), p)
      end
  end.

(* src: pkg/auth/mfa/adapters/memory/memory.go 158-170 Disable *)
Definition Disable (ctx : option error) (userID : string) (p : MFAProvider) : answer unit :=
  match ctx with
  | Some err => Some (inl err, p)
  | None =>
      match enrollments p !! userID with
      | None => Some (inl (NotFound "mfa enrollment not found" None), p)
      | Some _ => Some (inr (), set_enrollments (delete userID (enrollments p)) p)
      end
  end.

(** ** Histories *)

Inductive call :=
  | CEnroll (ctx : option error) (now : Z) (raw : list Z) (codes : list (list Z)) (nonce : list Z) (u : string)
  | CComplete (ctx : option error) (now : Z) (u code : string)
  | CVerify (ctx : option error) (now : Z) (u code : string)
  | CRecover (ctx : option error) (u code : string)
  | CDisable (ctx : option error) (u : string).

Inductive reply := RError (e : error) | REnrolled (secret : string) (codes : list string) | ROk | RBool (b : bool).

Definition to_reply {A} (f : A → reply) (a : answer A) : option (reply * MFAProvider) :=
  '(r, p) ← a; Some (match r with inl e => RError e | inr x => f x end, p).

Definition run_call (c : call) (p : MFAProvider) : option (reply * MFAProvider) :=
  match c with
  | CEnroll ctx now raw codes nonce u => to_reply (λ '(s, l), REnrolled s l) (Enroll ctx now raw codes nonce u p)
  | CComplete ctx now u code => to_reply (λ _, ROk) (CompleteEnrollment ctx now u code p)
  | CVerify ctx now u code => to_reply RBool (Verify ctx now u code p)
  | CRecover ctx u code => to_reply RBool (Recover ctx u code p)
  | CDisable ctx u => to_reply (λ _, ROk) (Disable ctx u p)
  end.

Fixpoint run (cs : list call) (p : MFAProvider) : option (list (call * reply) * MFAProvider) :=
  match cs with
  | [] => Some ([], p)
  | c :: cs => '(r, p) ← run_call c p; '(rs, p) ← run cs p; Some ((c, r) :: rs, p)
  end.

(** ** What the history tells *)

Definition count (h : string) (l : list string) : nat := length (filter (λ x, x = h) l).
Arguments count : simpl never.

(** How often [h] is among the hashes of the recovery codes of [u] that are left, whether the
    enrolment of [u] was completed, and how often [h] was handed out and accepted. *)
Definition available (u h : string) (n : nat) (cr : call * reply) : nat :=
  match cr with
  | (CEnroll _ _ _ codes _ u', REnrolled _ _) => if decide (u = u') then count h ((λ c, HashRecoveryCode (hex c)) <$> codes) else n
  | (CRecover _ u' code, RBool true) => if decide (u = u' ∧ HashRecoveryCode code = h) then pred n else n
  | (CDisable _ u', ROk) => if decide (u = u') then O else n
  | _ => n
  end.
Definition completed (u : string) (b : bool) (cr : call * reply) : bool :=
  match cr with
  | (CEnroll _ _ _ _ _ u', REnrolled _ _) => if decide (u = u') then false else b
  | (CComplete _ _ u' _, ROk) => if decide (u = u') then true else b
  | (CDisable _ u', ROk) => if decide (u = u') then false else b
  | _ => b
  end.
Definition issued (u h : string) (cr : call * reply) : nat :=
  match cr with
  | (CEnroll _ _ _ codes _ u', REnrolled _ _) => if decide (u = u') then count h ((λ c, HashRecoveryCode (hex c)) <$> codes) else O
  | _ => O
  end.
Definition accepted (u h : string) (cr : call * reply) : nat :=
  match cr with
  | (CRecover _ u' code, RBool true) => if decide (u = u' ∧ HashRecoveryCode code = h) then 1 else 0
  | _ => O
  end%nat.
Definition total (f : call * reply → nat) (rs : list (call * reply)) : nat := sum_list (f <$> rs).

(** Up to 18 digits, after the defaults. *)
Definition sane (p : MFAProvider) : Prop := 1 ≤ Digits (NewTOTP (totpConfig p)) ≤ 18.

Lemma ValidateAt_total t secret code now : 1 ≤ Digits t ≤ 18 → ∃ b, ValidateAt t secret code now = Some b.
Proof.
  intros Hd. unfold ValidateAt, ValidateAtReturningCounter. destruct (decode32 (ToUpper secret)) as [key|] eqn:E.
  - destruct (validate_loop_spec t secret code (counter_at t now) (seqZ (- Skew t) (2 * Skew t + 1)) key Hd E) as (b & c & -> & _). by exists b.
  - rewrite validate_loop_error by done. by exists false.
Qed.

Lemma recover_loop_count h l : match recover_loop h l with
  | Some l' => ∀ x, count x l = (count x l' + if decide (x = h) then 1 else 0)%nat
  | None => count h l = 0%nat
  end.
Proof.
  unfold count. induction l as [|y l IH]; cbn [recover_loop]; [done|]. destruct (decide (y = h)) as [->|Hy].
  - intros x. rewrite filter_cons. destruct (decide (h = x)) as [->|]; [rewrite decide_True by done; cbn; lia|rewrite decide_False by done; lia].
  - destruct (recover_loop h l) as [l'|]; cbn [fmap option_fmap option_map]; [|by rewrite filter_cons_False].
    intros x. rewrite !filter_cons. specialize (IH x). destruct (decide (y = x)); cbn; lia.
Qed.

(** The state agrees with the history. *)
Definition agrees (p : MFAProvider) (rs : list (call * reply)) : Prop := sane p ∧ ∀ u,
  match enrollments p !! u with
  | None => foldl (completed u) false rs = false ∧ ∀ h, foldl (available u h) O rs = O
  | Some e => foldl (completed u) false rs = Enabled e ∧ ∀ h, foldl (available u h) O rs = count h (Recovery e)
  end.

(** A call that leaves the provider as it is. *)
Ltac unchanged H := eexists _, _; (split; [reflexivity|]); by apply H.

Lemma agrees_step p rs c : agrees p rs → ∃ r p', run_call c p = Some (r, p') ∧ agrees p' (rs ++ [(c, r)]).
Proof.
  intros [Hs Ha].
  assert (∀ r, (∀ u b, completed u b (c, r) = b) → (∀ u h n, available u h n (c, r) = n) → agrees p (rs ++ [(c, r)])) as Hsame.
  { intros r H1 H2. split; [done|]. intros u. specialize (Ha u). destruct (enrollments p !! u) as [e|]; setoid_rewrite foldl_snoc; rewrite H1; setoid_rewrite H2; exact Ha. }
  assert (∀ u0 o r, (∀ u, u ≠ u0 → (∀ b, completed u b (c, r) = b) ∧ ∀ h n, available u h n (c, r) = n) →
    (match o with None => completed u0 (foldl (completed u0) false rs) (c, r) = false ∧ ∀ h, available u0 h (foldl (available u0 h) O rs) (c, r) = O
     | Some e => completed u0 (foldl (completed u0) false rs) (c, r) = Enabled e ∧ ∀ h, available u0 h (foldl (available u0 h) O rs) (c, r) = count h (Recovery e) end) →
    agrees (set_enrollments (partial_alter (λ _, o) u0 (enrollments p)) p) (rs ++ [(c, r)])) as Hupd.
  { intros u0 o r H1 H2. split; [done|]. intros u. cbn [set_enrollments enrollments]. destruct (decide (u = u0)) as [->|Hu].
    - rewrite lookup_partial_alter_eq. destruct o; setoid_rewrite foldl_snoc; exact H2.
    - rewrite lookup_partial_alter_ne by done. destruct (H1 u Hu) as [H3 H4]. specialize (Ha u). destruct (enrollments p !! u); setoid_rewrite foldl_snoc; rewrite H3; setoid_rewrite H4; exact Ha. }
  destruct c as [ctx now raw codes nonce u|ctx now u code|ctx now u code|ctx u code|ctx u]; (destruct ctx as [err|]; [unchanged Hsame|]).
  - eexists _, _. split; [reflexivity|]. apply (Hupd u (Some _)); cbn; [intros u' Hu; split; intros; by rewrite decide_False|]. split; intros; by rewrite decide_True.
  - cbn. unfold CompleteEnrollment. pose proof (Ha u) as Hu. destruct (enrollments p !! u) as [e|] eqn:Ee; [|unchanged Hsame].
    destruct (Enabled e) eqn:En; [unchanged Hsame|]. destruct (openSecret p (Secret e)) as [err|secret]; [unchanged Hsame|].
    destruct (ValidateAt_total (NewTOTP (totpConfig p)) secret code now Hs) as ([] & ->); [|unchanged Hsame].
    eexists _, _. split; [reflexivity|]. apply (Hupd u (Some (enable e))); cbn; [intros u' Hne; split; intros; [by rewrite decide_False|done]|]. rewrite decide_True by done. split; [done|apply Hu].
  - cbn. unfold Verify. destruct (enrollments p !! u) as [e|] eqn:Ee; [|unchanged Hsame].
    destruct (Enabled e) eqn:En; [|unchanged Hsame]. destruct (openSecret p (Secret e)) as [err|secret]; [unchanged Hsame|].
    destruct (ValidateAt_total (NewTOTP (totpConfig p)) secret code now Hs) as (b & ->). unchanged Hsame.
  - cbn. unfold Recover. pose proof (Ha u) as Hu. destruct (enrollments p !! u) as [e|] eqn:Ee; [|unchanged Hsame].
    destruct (Enabled e) eqn:En; [|unchanged Hsame]. pose proof (recover_loop_count (HashRecoveryCode code) (Recovery e)) as Hc.
    destruct (recover_loop _ _) as [l|]; [|unchanged Hsame].
    eexists _, _. split; [reflexivity|]. apply (Hupd u (Some (set_recovery l e))); cbn.
    + intros u' Hne. split; [done|]. intros h n. rewrite decide_False; [done|]. by intros [? _].
    + destruct Hu as [Hu1 Hu2]. split; [congruence|]. intros h. rewrite Hu2. specialize (Hc h). destruct (decide (h = HashRecoveryCode code)) as [->|Hne].
      * rewrite decide_True by done. lia.
      * rewrite decide_False; [lia|]. intros [_ ?]. congruence.
  - cbn. unfold Disable. destruct (enrollments p !! u) as [e|] eqn:Ee; [|unchanged Hsame].
    eexists _, _. split; [reflexivity|]. apply (Hupd u None); cbn; [intros u' Hne; split; intros; by rewrite decide_False|]. split; intros; by rewrite decide_True.
Qed.

Lemma accepted_available p rs ctx u code p' : agrees p rs → run_call (CRecover ctx u code) p = Some (RBool true, p') →
  (0 < foldl (available u (HashRecoveryCode code)) O rs)%nat.
Proof.
  intros [_ Ha] E. specialize (Ha u). cbn in E. unfold Recover in E. destruct ctx; [done|]. destruct (enrollments p !! u) as [e|]; [|done].
  destruct (Enabled e); [|done]. destruct Ha as [_ Ha]. rewrite Ha. pose proof (recover_loop_count (HashRecoveryCode code) (Recovery e)) as Hc.
  destruct (recover_loop _ _) as [l|]; [|done]. rewrite Hc, decide_True by done. lia.
Qed.

(** What was accepted and what is left were handed out. *)
Definition balanced (rs : list (call * reply)) : Prop := ∀ u h,
  (total (accepted u h) rs + foldl (available u h) O rs ≤ total (issued u h) rs)%nat.

Lemma total_snoc f rs cr : total f (rs ++ [cr]) = (total f rs + f cr)%nat.
Proof. unfold total. rewrite fmap_app. induction rs as [|x rs IH]; cbn; [lia|]. unfold sum_list in *. cbn in *. lia. Qed.

Lemma balanced_step p rs c r p' : agrees p rs → run_call c p = Some (r, p') → balanced rs → balanced (rs ++ [(c, r)]).
Proof.
  intros Ha Hc Hb u h. specialize (Hb u h). rewrite !total_snoc, foldl_snoc.
  destruct c as [ctx now raw codes nonce u'|ctx now u' code|ctx now u' code|ctx u' code|ctx u']; destruct r as [e|s l| |[]]; cbn; try lia.
  - destruct (decide _); lia.
  - destruct (decide (u = u' ∧ HashRecoveryCode code = h)) as [[-> <-]|]; [|lia]. pose proof (accepted_available _ _ _ _ _ _ Ha Hc). lia.
  - destruct (decide _); lia.
Qed.

Lemma run_agrees cs p rs : agrees p rs → balanced rs → ∃ rs' p', run cs p = Some (rs', p') ∧ agrees p' (rs ++ rs') ∧ balanced (rs ++ rs').
Proof.
  revert p rs. induction cs as [|c cs IH]; intros p rs Ha Hb; [exists [], p; by rewrite app_nil_r|].
  destruct (agrees_step p rs c Ha) as (r & p1 & E & Ha1). pose proof (balanced_step _ _ _ _ _ Ha E Hb) as Hb1.
  destruct (IH p1 _ Ha1 Hb1) as (rs' & p2 & E2 & Ha2 & Hb2). exists ((c, r) :: rs'), p2. cbn [run]. rewrite E. cbn. rewrite E2. by rewrite <- app_assoc in Ha2, Hb2.
Qed.

(** C11. Recovery codes are used once, and only after the enrolment.  Over any history of calls by
    any users nothing panics; a code is accepted at most as often as it was handed out to the
    user; while the enrolment is completed a code is accepted exactly if it is among those of
    the last enrolment and has not been accepted since, however it is spelt; and while it is
    not, neither passwords nor codes are looked at. *)
Theorem mfa_recovery_once (cfg : Config) (cs : list call) (p0 : MFAProvider) :
  New cfg = inr p0 → sane p0 →
  ∃ rs p, run cs p0 = Some (rs, p) ∧ ∀ u,
    (∀ h, (total (accepted u h) rs ≤ total (issued u h) rs)%nat) ∧
    (foldl (completed u) false rs = true → ∀ code, ∃ p', Recover None u code p =
       Some (inr (bool_decide (0 < foldl (available u (HashRecoveryCode code)) O rs)%nat), p')) ∧
    (foldl (completed u) false rs = false → ∀ now code, ∃ e e', Verify None now u code p = Some (inl e, p) ∧ Recover None u code p = Some (inl e', p)).
Proof.
  intros Hnew Hs. assert (agrees p0 []) as Ha.
  { split; [done|]. intros u. unfold New in Hnew. destruct (NewAESEncryptorFromKey _); [done|]. injection Hnew as <-. cbn. by rewrite lookup_empty. }
  destruct (run_agrees cs p0 [] Ha) as (rs & p & E & [Hsp Hag] & Hb); [by intros u h|]. exists rs, p. split; [done|]. cbn [app] in *. intros u. specialize (Hag u).
  split_and!.
  - intros h. specialize (Hb u h). lia.
  - intros Hc code. unfold Recover. destruct (enrollments p !! u) as [e|]; [|by rewrite (proj1 Hag) in Hc]. destruct Hag as [H1 H2]. rewrite <- H1, Hc, H2.
    pose proof (recover_loop_count (HashRecoveryCode code) (Recovery e)) as Hl. destruct (recover_loop _ _) as [l|].
    + eexists. rewrite bool_decide_eq_true_2; [done|]. rewrite Hl, decide_True by done. lia.
    + eexists. rewrite bool_decide_eq_false_2; [done|lia].
  - intros Hc now code. unfold Verify, Recover. destruct (enrollments p !! u) as [e|]; [|eexists _, _; by split]. destruct Hag as [H1 _]. rewrite <- H1, Hc. eexists _, _. by split.
Qed.
End provider.

(** ** Encryption at rest *)

Section encryption.
  Context {G : Gcm} {L : GcmLaws} (k : AESEncryptor).

(** The enrolment with the secret encrypted, and without. *)
Definition sealed (a b : Enrollment) : Prop :=
  UserID a = UserID b ∧ Type_ a = Type_ b ∧ Enabled a = Enabled b ∧ Recovery a = Recovery b ∧ CreatedAt a = CreatedAt b ∧
  DecryptString k (Secret a) = inr (Secret b).

Definition similar (p q : MFAProvider) : Prop := encryptor p = Some k ∧ encryptor q = None ∧ totpConfig p = totpConfig q ∧
  ∀ u, option_Forall2 sealed (enrollments p !! u) (enrollments q !! u).

Definition good_nonce (c : call) : Prop := match c with CEnroll _ _ _ _ nonce _ => is_nonce nonce | _ => True end.

Lemma similar_alter p q u o o' : similar p q → option_Forall2 sealed o o' →
  similar (set_enrollments (partial_alter (λ _, o) u (enrollments p)) p) (set_enrollments (partial_alter (λ _, o') u (enrollments q)) q).
Proof.
  intros (H1 & H2 & H3 & H4) Ho. split_and!; [done|done|done|]. intros u'. cbn. destruct (decide (u' = u)) as [->|Hu].
  - by rewrite !lookup_partial_alter_eq.
  - by rewrite !lookup_partial_alter_ne.
Qed.

Lemma similar_step p q c : similar p q → good_nonce c →
  match run_call c p, run_call c q with Some (r, p'), Some (r', q') => r = r' ∧ similar p' q' | None, None => True | _, _ => False end.
Proof.
  intros Hsim Hn. pose proof Hsim as (H1 & H2 & H3 & H4).
  assert (∀ a b, sealed a b → openSecret p (Secret a) = inr (Secret b) ∧ openSecret q (Secret b) = inr (Secret b)) as Ho.
  { intros a b (_ & _ & _ & _ & _ & E). unfold openSecret. by rewrite H1, H2, E. }
  destruct c as [ctx now raw codes nonce u|ctx now u code|ctx now u code|ctx u code|ctx u]; (destruct ctx as [err|]; [done|]); cbn.
  - split; [done|]. apply (similar_alter p q u (Some _) (Some _)); [done|]. constructor. split_and!; try done. cbn. unfold sealSecret. rewrite H1, H2. by apply encrypt_roundtrip.
  - unfold CompleteEnrollment. destruct (H4 u) as [a b Hab|]; [|done]. destruct (Ho a b Hab) as [-> ->]. pose proof Hab as (E1 & E2 & E3 & E4 & E5 & E6).
    rewrite E3, H3. destruct (Enabled b); [done|]. destruct (ValidateAt _ _ _ _) as [[]|]; [|done|done]. split; [done|]. apply (similar_alter p q u (Some _) (Some _)); [done|]. constructor. by split_and!.
  - unfold Verify. destruct (H4 u) as [a b Hab|]; [|done]. destruct (Ho a b Hab) as [-> ->]. pose proof Hab as (E1 & E2 & E3 & E4 & E5 & E6).
    rewrite E3, H3. destruct (Enabled b); [|done]. by destruct (ValidateAt _ _ _ _).
  - unfold Recover. destruct (H4 u) as [a b Hab|]; [|done]. pose proof Hab as (E1 & E2 & E3 & E4 & E5 & E6).
    rewrite E3, E4. destruct (Enabled b) eqn:Eb; [|done]. destruct (recover_loop _ _); [|done]. split; [done|]. apply (similar_alter p q u (Some _) (Some _)); [done|]. constructor. split_and!; cbn; congruence.
  - unfold Disable. destruct (H4 u) as [a b Hab|]; [|done]. split; [done|]. apply (similar_alter p q u None None); [done|constructor].
Qed.

(** Encrypting the secrets changes no answer: with a key, a provider replies to every history as
    one without. *)
Theorem mfa_encryption_transparent (cs : list call) (t : TOTPConfig) : Forall good_nonce cs →
  fst <$> run cs {| enrollments := ∅; totpConfig := t; encryptor := Some k |} = fst <$> run cs {| enrollments := ∅; totpConfig := t; encryptor := None |}.
Proof.
  assert (∀ p q, similar p q → Forall good_nonce cs → fst <$> run cs p = fst <$> run cs q) as Hgen.
  { induction cs as [|c cs IH]; intros p q Hpq Hn; [done|]. apply Forall_cons in Hn as [Hc Hn]. pose proof (similar_step p q c Hpq Hc) as Hs. cbn [run].
    destruct (run_call c p) as [[r p']|], (run_call c q) as [[r' q']|]; try done. destruct Hs as [<- Hs]. cbn. specialize (IH p' q' Hs Hn).
    destruct (run cs p') as [[rs p'']|], (run cs q') as [[rs' q'']|]; cbn in *; congruence. }
  apply Hgen. split_and!; [done|done|done|]. intros u. cbn. rewrite !lookup_empty. constructor.
Qed.
End encryption.

(** ** Witnesses and behaviour that differs from what is meant *)

(** A cipher that hides nothing. *)
#[local] Instance clear : Gcm := {| Seal := λ _ _ p, (λ b, b mod 256) <$> p; Open := λ _ _ c, Some c |}.
#[local] Instance clear_laws : GcmLaws.
Proof.
  split.
  - intros ? ? p. apply Forall_fmap, Forall_true. intros b. by apply Z.mod_pos_bound.
  - intros ? ? p Hp. cbn. f_equal. induction Hp as [|b p Hb _ IH]; [done|]. cbn. f_equal; [by apply Z.mod_small|exact IH].
Qed.

Definition config : Config := {| EncryptionKey := ""; TOTPIssuer := "app"; TOTPDigits := 6; TOTPPeriod := 30 |}.
Definition provider0 : MFAProvider := {| enrollments := ∅; encryptor := None;
  totpConfig := {| Issuer := "app"; Digits := 6; Period := 30; Skew := 0; SecretLength := 0 |} |}.
Definition enrol : call := CEnroll None 0 (bytes "12345678901234567890") [[1; 2; 3]; [171; 205; 239]] [] "u".

Lemma mfa_recovery_once_witness : ∃ rs p, run [enrol; CComplete None (59 * 10 ^ 9) "u" "287082"; CRecover None "u" "AB-cd-EF"; CRecover None "u" "abcdef"] provider0 = Some (rs, p) ∧
  (snd <$> drop 1 rs) = [ROk; RBool true; RBool false] ∧ (total (accepted "u" (HashRecoveryCode "abcdef")) rs ≤ 1)%nat.
Proof.
  destruct (mfa_recovery_once config [enrol; CComplete None (59 * 10 ^ 9) "u" "287082"; CRecover None "u" "AB-cd-EF"; CRecover None "u" "abcdef"] provider0) as (rs & p & E & Hu).
  - reflexivity.
  - split; vm_compute; discriminate.
  - exists rs, p. split; [exact E|]. specialize (Hu "u"). destruct Hu as [Hu _]. specialize (Hu (HashRecoveryCode "abcdef")). revert Hu E. clear.
    intros Hu E. vm_compute in E. injection E as <- _. split; [reflexivity|]. etransitivity; [exact Hu|]. vm_compute. lia.
Defined.

(** A password is accepted again while its window lasts: [Verify] notes nothing. *)
Theorem mfa_password_replayed ctx now u code (p p' : MFAProvider) b : Verify ctx now u code p = Some (inr b, p') → Verify ctx now u code p' = Some (inr b, p').
Proof.
  unfold Verify. destruct ctx; [done|]. destruct (enrollments p !! u) as [e|] eqn:E; [|done]. destruct (Enabled e) eqn:En; [|done].
  destruct (openSecret p (Secret e)) as [|s] eqn:Eo; [done|]. destruct (ValidateAt _ _ _ _) as [ok|] eqn:Ev; [|done]. cbn. intros [= <- <-]. by rewrite E, En, Eo, Ev.
Qed.

(** [Enroll] replaces an enrolment that is enabled, without a password: the second factor is
    off until the new one is completed. *)
Theorem mfa_enroll_disables now raw codes nonce u (p : MFAProvider) : ∃ r p', Enroll None now raw codes nonce u p = Some (inr r, p') ∧
  ∀ now' code, Verify None now' u code p' = Some (inl (Forbidden "mfa not enabled" None), p').
Proof. eexists _, _. split; [reflexivity|]. intros now' code. unfold Verify. cbn. by rewrite lookup_insert_eq. Qed.
