(* ===== verification/LoadBalancing.v ===== *)
(** * pkg/algorithms/loadbalancing: balancers

    [Balancer] is the Go interface; round robin, random, least connections and the
    interleaved weighted round robin implement it, and the health-aware balancer wraps any
    of them.  A method is a function on the balancer's state.  [None] stands for a loop that
    did not end within its fuel, or an index out of range; the theorems exclude both. *)

From S2P Require Import Prelude Errors.
From stdpp Require Import options.
Open Scope Z_scope.

(* src: pkg/algorithms/loadbalancing/loadbalancing.go 9-12 ErrNoNodes *)
Definition ErrNoNodes : error := FailedPrecondition "no nodes available" None.

(* src: pkg/algorithms/loadbalancing/loadbalancing.go 14-22 Balancer *)
Class Balancer (B : Type) := {
  Next : B → option ((error + string) * B);
  Add : string → Z → B → B;
  Remove : string → B → B }.

(** ** Round robin *)

Module RoundRobin.

(* src: pkg/algorithms/loadbalancing/roundrobin/roundrobin.go 11-17 Balancer *)
Record RRBalancer := { rr_nodes : list string; count : Z }.

(* src: pkg/algorithms/loadbalancing/roundrobin/roundrobin.go 19-25 New *)
Definition rr_New (nodes : list string) : RRBalancer := {| rr_nodes := nodes; count := 0 |}.

(* src: pkg/algorithms/loadbalancing/roundrobin/roundrobin.go 27-40 Next *)
Definition rr_Next (b : RRBalancer) : option ((error + string) * RRBalancer) :=
  let n := Z.of_nat (length (rr_nodes b)) in
  if decide (n = 0) then Some (inl ErrNoNodes, b)
  else
    let c := u64 (count b + 1) in
    match rr_nodes b !! Z.to_nat (u64 (c - 1) mod n) with
    | Some x => Some (inr x, {| rr_nodes := rr_nodes b; count := c |})
    | None => None
    end.

(* src: pkg/algorithms/loadbalancing/roundrobin/roundrobin.go 42-47 Add *)
Definition rr_Add (node : string) (_ : Z) (b : RRBalancer) : RRBalancer :=
  {| rr_nodes := rr_nodes b ++ [node]; count := count b |}.

(* src: pkg/algorithms/loadbalancing/roundrobin/roundrobin.go 49-59 Remove *)
Definition rr_Remove (node : string) (b : RRBalancer) : RRBalancer :=
  {| rr_nodes := remove_first (λ x, x = node) (rr_nodes b); count := count b |}.

#[global] Instance rr_Balancer : Balancer RRBalancer :=
  {| Next := rr_Next; Add := rr_Add; Remove := rr_Remove |}.
End RoundRobin.

(** ** Least connections *)

Module LeastConnections.

(* src: pkg/algorithms/loadbalancing/leastconnections/leastconnections.go 17-27 New *)
Definition lc_New (nodes : list string) : gmap string Z :=
  foldl (λ m n, <[n := 0]> m) ∅ nodes.

(** The loop over the map in the order [l]. *)
(* src: pkg/algorithms/loadbalancing/leastconnections/leastconnections.go 38-46 Next *)
Fixpoint lc_scan (l : list (string * Z)) (best : string) (minConns : Z) : string :=
  match l with
  | [] => best
  | (node, conns) :: l' =>
      if decide (minConns = -1 ∨ conns < minConns) then lc_scan l' node conns
      else lc_scan l' best minConns
  end.

(** [order] is the order in which Go ranges over the map. *)
(* src: pkg/algorithms/loadbalancing/leastconnections/leastconnections.go 29-49 Next *)
Definition lc_Next (order : list (string * Z)) (m : gmap string Z) : error + string :=
  if decide (m = ∅) then inl ErrNoNodes else inr (lc_scan order "" (-1)).

(* src: pkg/algorithms/loadbalancing/leastconnections/leastconnections.go 51-59 Inc *)
Definition Inc (node : string) (m : gmap string Z) : gmap string Z :=
  match m !! node with Some c => <[node := i64 (c + 1)]> m | None => m end.

(* src: pkg/algorithms/loadbalancing/leastconnections/leastconnections.go 61-69 Dec *)
Definition Dec (node : string) (m : gmap string Z) : gmap string Z :=
  match m !! node with
  | Some c => if decide (0 < c) then <[node := i64 (c - 1)]> m else m
  | None => m
  end.

(* src: pkg/algorithms/loadbalancing/leastconnections/leastconnections.go 71-78 Add *)
Definition lc_Add (node : string) (m : gmap string Z) : gmap string Z :=
  match m !! node with Some _ => m | None => <[node := 0]> m end.

(* src: pkg/algorithms/loadbalancing/leastconnections/leastconnections.go 80-85 Remove *)
Definition lc_Remove (node : string) (m : gmap string Z) : gmap string Z := delete node m.

Lemma lc_scan_min l best minConns :
  (∀ x, x ∈ l → 0 ≤ x.2) → 0 ≤ minConns →
  ∃ c, (lc_scan l best minConns, c) ∈ (best, minConns) :: l ∧
    c ≤ minConns ∧ ∀ x, x ∈ l → c ≤ x.2.
Proof.
  revert best minConns. induction l as [|[node conns] l IH]; intros best m Hl Hm; cbn.
  - exists m. split_and!; [by left|lia|by intros x Hx%elem_of_nil].
  - assert (0 ≤ conns) as Hc by (apply (Hl (node, conns)); left).
    assert (∀ x, x ∈ l → 0 ≤ x.2) as Hl' by (intros x Hx; apply Hl; by right).
    destruct (decide (m = -1 ∨ conns < m)) as [Hd|Hd].
    + destruct (IH node conns Hl' Hc) as (c & Hin & Hle & Hall).
      exists c. split_and!; [by right|lia|]. intros x [->|Hx]%elem_of_cons; [done|auto].
    + destruct (IH best m Hl' Hm) as (c & Hin & Hle & Hall).
      exists c. split_and!; [apply elem_of_cons in Hin as [->|Hin]; [left|by do 2 right]|lia|].
      intros x [->|Hx]%elem_of_cons; [cbn; lia|auto].
Qed.

(** The chosen node is one of the map's, and no node has fewer connections. *)
Lemma lc_Next_least order m :
  m ≠ ∅ → order ≡ₚ map_to_list m → map_Forall (λ _ c, 0 ≤ c) m →
  ∃ node c, lc_Next order m = inr node ∧ m !! node = Some c ∧ map_Forall (λ _ c', c ≤ c') m.
Proof.
  intros Hm Ho Hpos. unfold lc_Next. rewrite decide_False by done.
  assert (∀ x, x ∈ order ↔ m !! x.1 = Some x.2) as Hin.
  { intros [k v]. rewrite Ho. apply elem_of_map_to_list. }
  destruct order as [|[node conns] l].
  { exfalso. apply Hm, map_to_list_empty_iff. symmetry in Ho. by apply Permutation_nil_r in Ho. }
  cbn. rewrite decide_True by (by left).
  destruct (lc_scan_min l node conns) as (c & Hc & Hle & Hall).
  - intros x Hx. apply (Hpos x.1), Hin. by right.
  - apply (Hpos node). apply (Hin (node, conns)). left.
  - exists (lc_scan l node conns), c. split; [done|]. apply Hin in Hc. split; [done|].
    intros k v Hkv. apply (Hin (k, v)) in Hkv. apply elem_of_cons in Hkv as [[= -> ->]|Hkv]; [done|].
    by apply (Hall (k, v)).
Qed.
End LeastConnections.

(** ** Interleaved weighted round robin *)

Module Weighted.

(* src: pkg/algorithms/loadbalancing/weightedroundrobin/weightedroundrobin.go 21-24 weightedNode *)
Record weightedNode := { id : string; weight : Z }.

(* src: pkg/algorithms/loadbalancing/weightedroundrobin/weightedroundrobin.go 10-19 Balancer *)
Record WBalancer := { nodes : list weightedNode; g : Z; maxW : Z; i : Z; cw : Z }.

(* src: pkg/algorithms/loadbalancing/weightedroundrobin/weightedroundrobin.go 26-34 New *)
Definition w_New : WBalancer := {| nodes := []; g := 0; maxW := 0; i := -1; cw := 0 |}.

(** The loop of [gcd]; it ends since the second number gets smaller. *)
(* src: pkg/algorithms/loadbalancing/weightedroundrobin/weightedroundrobin.go 104-109 gcd *)
Fixpoint gcd_loop (fuel : nat) (a b : Z) : Z :=
  if decide (b = 0) then a
  else match fuel with O => a | S fuel => gcd_loop fuel b (Z.rem a b) end.

(* src: pkg/algorithms/loadbalancing/weightedroundrobin/weightedroundrobin.go 104-109 gcd *)
Definition gcd (a b : Z) : Z := gcd_loop (S (Z.to_nat b)) a b.

(* src: pkg/algorithms/loadbalancing/weightedroundrobin/weightedroundrobin.go 91-102 recalc *)
Definition recalc (l : list weightedNode) : WBalancer :=
  {| nodes := l; g := foldl (λ a n, gcd a (weight n)) 0 l;
     maxW := foldl (λ m n, if decide (m < weight n) then weight n else m) 0 l;
     i := -1; cw := 0 |}.

(* src: pkg/algorithms/loadbalancing/weightedroundrobin/weightedroundrobin.go 64-75 Add *)
Definition w_Add (node : string) (w : Z) (b : WBalancer) : WBalancer :=
  let w := if decide (w ≤ 0) then 1 else w in
  recalc (nodes b ++ [{| id := node; weight := w |}]).

(* src: pkg/algorithms/loadbalancing/weightedroundrobin/weightedroundrobin.go 77-89 Remove *)
Definition w_Remove (node : string) (b : WBalancer) : WBalancer :=
  recalc (remove_first (λ n, id n = node) (nodes b)).

(** The turns of the [for] loop. *)
(* src: pkg/algorithms/loadbalancing/weightedroundrobin/weightedroundrobin.go 46-61 Next *)
Fixpoint next_loop (fuel : nat) (b : WBalancer) : option ((error + string) * WBalancer) :=
  match fuel with
  | O => None
  | S fuel =>
      let n := Z.of_nat (length (nodes b)) in
      let i' := Z.rem (i b + 1) n in
      let c := if decide (i' = 0)
               then let c := cw b - g b in if decide (c ≤ 0) then maxW b else c
               else cw b in
      let b' := {| nodes := nodes b; g := g b; maxW := maxW b; i := i'; cw := c |} in
      if decide (i' = 0 ∧ cw b - g b ≤ 0 ∧ c = 0) then Some (inl ErrNoNodes, b')
      else
        match nodes b !! Z.to_nat i' with
        | None => None
        | Some nd => if decide (c ≤ weight nd) then Some (inr (id nd), b') else next_loop fuel b'
        end
  end.

(** A node of the greatest weight is chosen in every round, so that the loop ends within
    one turn of the pointer through the nodes. *)
(* src: pkg/algorithms/loadbalancing/weightedroundrobin/weightedroundrobin.go 36-62 Next *)
Definition w_Next (b : WBalancer) : option ((error + string) * WBalancer) :=
  if decide (nodes b = []) then Some (inl ErrNoNodes, b)
  else next_loop (length (nodes b)) b.

#[global] Instance w_Balancer : Balancer WBalancer :=
  {| Next := w_Next; Add := w_Add; Remove := w_Remove |}.
(** *** The reference schedule

    One cycle has [maxW / g] rounds; round [k] visits, in list order, the nodes whose weight
    is at least [maxW - k * g]. *)

Definition round_ids (l : list weightedNode) (c : Z) : list string :=
  id <$> filter (λ nd, c ≤ weight nd) l.

Definition rounds (b : WBalancer) : nat := Z.to_nat (maxW b / g b).

Definition schedule (b : WBalancer) : list string :=
  seq 0 (rounds b) ≫= λ k, round_ids (nodes b) (maxW b - Z.of_nat k * g b).

(** [n] calls of [Next], with the nodes they return. *)
Fixpoint w_run (n : nat) (b : WBalancer) : option (list string * WBalancer) :=
  match n with
  | O => Some ([], b)
  | S n =>
      match w_Next b with
      | Some (inr x, b') =>
          match w_run n b' with Some (xs, b'') => Some (x :: xs, b'') | None => None end
      | _ => None
      end
  end.

(** Sums over the nodes; the total weight the list gives to an identifier. *)
Definition node_sum (f : weightedNode → Z) (l : list weightedNode) : Z :=
  foldr (λ nd acc, f nd + acc) 0 l.

Definition weight_of (x : string) (l : list weightedNode) : Z :=
  node_sum (λ nd, if decide (id nd = x) then weight nd else 0) l.

(** How often an identifier occurs in a list. *)
Definition occurrences (x : string) (l : list string) : Z :=
  Z.of_nat (length (filter (λ y, y = x) l)).

Lemma node_sum_ext f f' l : Forall (λ nd, f nd = f' nd) l → node_sum f l = node_sum f' l.
Proof. unfold node_sum. induction 1 as [|nd l Hnd _ IH]; cbn; [done|]. by rewrite Hnd, IH. Qed.

Lemma node_sum_add f f' l : node_sum f l + node_sum f' l = node_sum (λ nd, f nd + f' nd) l.
Proof. unfold node_sum. induction l as [|nd l IH]; cbn; lia. Qed.

Lemma node_sum_mul k f l : node_sum f l * k = node_sum (λ nd, f nd * k) l.
Proof. unfold node_sum. induction l as [|nd l IH]; cbn; lia. Qed.

Lemma occurrences_app x l l' : occurrences x (l ++ l') = occurrences x l + occurrences x l'.
Proof. unfold occurrences. rewrite filter_app, length_app. lia. Qed.

Lemma occurrences_round x l c :
  occurrences x (round_ids l c) = node_sum (λ nd, if decide (id nd = x ∧ c ≤ weight nd) then 1 else 0) l.
Proof.
  unfold occurrences, round_ids, node_sum. induction l as [|nd l IH]; cbn [foldr]; [done|].
  rewrite <- IH, filter_cons. destruct (decide (c ≤ weight nd)) as [Hc|Hc].
  - rewrite fmap_cons, filter_cons.
    destruct (decide (id nd = x)); [rewrite decide_True by done|rewrite decide_False by tauto];
      cbn [length]; lia.
  - rewrite decide_False by tauto. lia.
Qed.

Lemma seq_bind_lookup {A B} (f : nat → list B) (h : A → list B) (l : list A) t :
  (∀ k x, l !! k = Some x → f (t + k)%nat = h x) → seq t (length l) ≫= f = l ≫= h.
Proof.
  revert t. induction l as [|x l IH]; intros t Hf; [done|]. cbn [length seq].
  rewrite !bind_cons, <- (Hf 0%nat x eq_refl), Nat.add_0_r. f_equal. apply IH.
  intros k y Hy. rewrite <- (Hf (S k) y Hy). f_equal. lia.
Qed.

Lemma round_ids_bind l c :
  round_ids l c = l ≫= λ nd, if decide (c ≤ weight nd) then [id nd] else [].
Proof.
  unfold round_ids. induction l as [|nd l IH]; [done|].
  rewrite filter_cons, bind_cons, <- IH. by destruct (decide (c ≤ weight nd)).
Qed.

Lemma gcd_loop_spec fuel a b :
  0 ≤ a → 0 ≤ b → b < Z.of_nat fuel → gcd_loop fuel a b = Z.gcd a b.
Proof.
  revert a b. induction fuel as [|fuel IH]; intros a b Ha Hb Hf; [lia|]. cbn.
  destruct (decide (b = 0)) as [->|Hn].
  - rewrite Z.gcd_0_r. lia.
  - pose proof (Z.mod_pos_bound a b). rewrite Z.rem_mod_nonneg by lia.
    rewrite IH by lia. rewrite (Z.gcd_comm b), Z.gcd_mod by lia. apply Z.gcd_comm.
Qed.

Lemma gcd_spec a b : 0 ≤ a → 0 ≤ b → gcd a b = Z.gcd a b.
Proof. intros. apply gcd_loop_spec; lia. Qed.

(** The gcd and the maximum that [recalc] computes. *)
Lemma recalc_g_acc l a :
  0 ≤ a → Forall (λ nd, 0 < weight nd) l →
  let r := foldl (λ a n, gcd a (weight n)) a l in
  0 ≤ r ∧ (r | a) ∧ (0 < a ∨ l ≠ [] → 0 < r) ∧ Forall (λ nd, (r | weight nd)) l.
Proof.
  revert a. induction l as [|nd l IH]; intros a Ha Hl; cbn [foldl].
  - split_and!; [done|done|by intros [?|?]|done].
  - apply Forall_cons in Hl as [Hnd Hl]. rewrite gcd_spec by lia.
    pose proof (Z.gcd_nonneg a (weight nd)) as Hg.
    assert (Z.gcd a (weight nd) ≠ 0) as Hg0 by (intros [? ?]%Z.gcd_eq_0; lia).
    destruct (IH _ Hg Hl) as (H1 & H2 & H3 & H4). split_and!; [done| |intros _; apply H3; lia|].
    + etrans; [apply H2|apply Z.gcd_divide_l].
    + constructor; [|done]. etrans; [apply H2|apply Z.gcd_divide_r].
Qed.

Lemma recalc_maxW_acc l m :
  let r := foldl (λ m n, if decide (m < weight n) then weight n else m) m l in
  m ≤ r ∧ Forall (λ nd, weight nd ≤ r) l ∧ (r = m ∨ ∃ nd, nd ∈ l ∧ weight nd = r).
Proof.
  revert m. induction l as [|nd l IH]; intros m; cbn.
  - split_and!; [lia|done|by left].
  - destruct (IH (if decide (m < weight nd) then weight nd else m)) as (H1 & H2 & H3).
    set (m' := if decide _ then _ else _) in *.
    assert (m ≤ m' ∧ weight nd ≤ m' ∧ (m' = m ∨ m' = weight nd)) as (? & ? & Hm')
      by (subst m'; case_decide; lia).
    split_and!; [lia|constructor; [lia|done]|].
    destruct H3 as [-> | (nd' & ? & <-)]; [|right; exists nd'; split; [by right|done]].
    destruct Hm' as [-> | ->]; [by left|right; exists nd; split; [left|done]].
Qed.

(** *** Every call yields the next entry of the schedule *)

Record w_ok (b : WBalancer) : Prop := {
  ok_g : 0 < g b;
  ok_div : (g b | maxW b);
  ok_le : Forall (λ nd, weight nd ≤ maxW b ∧ 0 < weight nd ∧ (g b | weight nd)) (nodes b);
  ok_max : ∃ nd, nd ∈ nodes b ∧ weight nd = maxW b }.

Lemma recalc_ok l : l ≠ [] → Forall (λ nd, 0 < weight nd) l → w_ok (recalc l).
Proof.
  intros Hn Hl.
  destruct (recalc_g_acc l 0 ltac:(lia) Hl) as (_ & _ & Hg & Hd).
  destruct (recalc_maxW_acc l 0) as (Hm0 & Hm & Hmax).
  assert (∃ nd, nd ∈ l ∧ weight nd = maxW (recalc l)) as Hex.
  { destruct Hmax as [H0|?]; [|done]. destruct l as [|nd l]; [done|].
    apply Forall_cons in Hl as [? _], Hm as [? _]. lia. }
  split; [apply Hg; by right| | |exact Hex].
  - destruct Hex as (nd & Hin & <-). exact (proj1 (Forall_forall _ _) Hd nd Hin).
  - apply Forall_and; split; [done|]. apply Forall_and; by split.
Qed.
Section turns.
Context (b0 : WBalancer) (Hok : w_ok b0).
#[local] Set Default Proof Using "Type*".
#[local] Abbreviation len := (length (nodes b0)).
#[local] Abbreviation q := (rounds b0).

(** The weight threshold of turn [t] of the pointer, and what turn [t] chooses. *)
Definition turn_cw (t : nat) : Z := maxW b0 - Z.of_nat ((t / len) mod q) * g b0.

Definition turn_ids (t : nat) : list string :=
  match nodes b0 !! (t mod len)%nat with
  | Some nd => if decide (turn_cw t ≤ weight nd) then [id nd] else []
  | None => []
  end.

Definition turns (t n : nat) : list string := seq t n ≫= turn_ids.

(** The state whose next turn is turn [t]. *)
Definition before (b : WBalancer) (t : nat) : Prop :=
  nodes b = nodes b0 ∧ g b = g b0 ∧ maxW b = maxW b0 ∧
  Z.rem (i b + 1) (Z.of_nat len) = Z.of_nat (t mod len) ∧
  (if decide ((t mod len)%nat = 0%nat)
   then (if decide (cw b - g b ≤ 0) then maxW b else cw b - g b) else cw b) = turn_cw t.

Lemma len_pos : (0 < len)%nat.
Proof. destruct (ok_max _ Hok) as (nd & Hin & _). destruct (nodes b0); [by apply elem_of_nil in Hin|cbn; lia]. Qed.

Lemma maxW_pos : 0 < maxW b0.
Proof.
  destruct (ok_max _ Hok) as (nd & Hin & <-).
  apply (proj1 (Forall_forall _ _) (ok_le _ Hok) nd Hin).
Qed.

Lemma maxW_rounds : maxW b0 = Z.of_nat q * g b0 ∧ (0 < q)%nat.
Proof.
  pose proof maxW_pos. pose proof (ok_g _ Hok). destruct (ok_div _ Hok) as [z Hz].
  unfold rounds. rewrite Hz, Z.div_mul by lia. split; nia.
Qed.

Lemma turn_cw_bounds t : 0 < turn_cw t ≤ maxW b0.
Proof.
  destruct maxW_rounds as [Hm Hq]. pose proof (ok_g _ Hok).
  pose proof (Nat.mod_upper_bound (t / len) q ltac:(lia)).
  unfold turn_cw. rewrite Hm. nia.
Qed.

Lemma turn_cw_step t :
  turn_cw (S t) =
    if decide ((S t mod len)%nat = 0%nat)
    then (if decide (turn_cw t - g b0 ≤ 0) then maxW b0 else turn_cw t - g b0) else turn_cw t.
Proof.
  pose proof len_pos as Hl. destruct maxW_rounds as [Hm Hq]. pose proof (ok_g _ Hok).
  pose proof (Nat.div_mod_eq t len). pose proof (Nat.mod_upper_bound t len ltac:(lia)).
  pose proof (Nat.mod_upper_bound (t / len) q ltac:(lia)) as Hr.
  unfold turn_cw. destruct (decide ((t mod len + 1)%nat = len)) as [He|He].
  - assert (S t = (t / len + 1) * len)%nat as -> by nia.
    rewrite Nat.Div0.mod_mul, Nat.div_mul by lia. rewrite decide_True by done.
    pose proof (Nat.div_mod_eq (t / len) q).
    destruct (decide (((t / len) mod q + 1)%nat = q)) as [Hw|Hw].
    + assert (t / len + 1 = (t / len / q + 1) * q)%nat as -> by nia.
      rewrite Nat.Div0.mod_mul, decide_True by nia. lia.
    + assert ((t / len + 1) mod q = (t / len) mod q + 1)%nat as ->.
      { symmetry. apply Nat.mod_unique with (t / len / q)%nat; lia. }
      rewrite decide_False by nia. lia.
  - assert (S t mod len = t mod len + 1)%nat as ->.
    { symmetry. apply Nat.mod_unique with (t / len)%nat; lia. }
    assert (S t / len = t / len)%nat as ->.
    { symmetry. apply Nat.div_unique with (t mod len + 1)%nat; lia. }
    rewrite decide_False by lia. done.
Qed.
Definition after (t : nat) : WBalancer :=
  {| nodes := nodes b0; g := g b0; maxW := maxW b0; i := Z.of_nat (t mod len); cw := turn_cw t |}.

Lemma after_before t : before (after t) (S t).
Proof.
  pose proof len_pos. unfold before, after; cbn. split_and!; [done..| |].
  - rewrite Z.rem_mod_nonneg by lia.
    replace (Z.of_nat (t mod len) + 1) with (Z.of_nat (t mod len + 1)) by lia.
    rewrite <- Nat2Z.inj_mod, Nat.Div0.add_mod_idemp_l. do 2 f_equal. lia.
  - symmetry. apply turn_cw_step.
Qed.

Lemma next_loop_turn f b t :
  before b t →
  next_loop (S f) b =
    match turn_ids t with x :: _ => Some (inr x, after t) | [] => next_loop f (after t) end.
Proof.
  intros (Hn & Hg & Hm & Hi & Hc). pose proof (turn_cw_bounds t) as Hcw. pose proof len_pos.
  cbn [next_loop]. rewrite Hn, Hi. unfold turn_ids.
  assert (Z.of_nat (t mod len) = 0 ↔ (t mod len = 0)%nat) as Hz by lia.
  rewrite (decide_ext _ _ _ _ Hz), Hc.
  rewrite (decide_False (P := _ ∧ _)) by lia. rewrite Nat2Z.id, Hg, Hm.
  destruct (lookup_lt_is_Some_2 (nodes b0) (t mod len)) as [nd Hnd].
  { apply Nat.mod_upper_bound. lia. }
  rewrite Hnd. destruct (decide (turn_cw t ≤ weight nd)) as [Hw|Hw]; done.
Qed.

(** A window of [len] turns meets a node of the greatest weight. *)
Lemma window_hits t : ∃ d, (d < len)%nat ∧ turn_ids (t + d) ≠ [].
Proof.
  pose proof len_pos. destruct (ok_max _ Hok) as (nd & [k Hk]%list_elem_of_lookup & Hw).
  pose proof (lookup_lt_Some _ _ _ Hk) as Hkl.
  pose proof (Nat.mod_upper_bound t len ltac:(lia)).
  assert (∃ d, (d < len)%nat ∧ ((t + d) mod len = k)%nat) as (d & Hd & Hdk).
  { pose proof (Nat.div_mod_eq t len). destruct (decide (t mod len ≤ k)%nat) as [Hle|Hgt].
    - exists (k - t mod len)%nat. split; [lia|]. symmetry.
      apply Nat.mod_unique with (t / len)%nat; lia.
    - exists (len + k - t mod len)%nat. split; [lia|]. symmetry.
      apply Nat.mod_unique with (t / len + 1)%nat; nia. }
  exists d. split; [done|]. unfold turn_ids. rewrite Hdk, Hk.
  pose proof (turn_cw_bounds (t + d)). rewrite decide_True by lia. done.
Qed.

Lemma next_loop_window d f b t :
  before b t → (d < f)%nat → turn_ids (t + d) ≠ [] →
  ∃ x m, next_loop f b = Some (inr x, after (t + m)) ∧ turns t (S m) = [x].
Proof.
  revert f b t. induction d as [|d IH]; intros f b t Hb Hf Hd; (destruct f as [|f]; [lia|]).
  all: rewrite (next_loop_turn _ _ _ Hb).
  all: assert (turn_ids t = [] ∨ ∃ x, turn_ids t = [x]) as [Ht|[x Ht]]
         by (unfold turn_ids; repeat case_match; eauto); rewrite Ht.
  2,4: exists x, 0%nat; rewrite Nat.add_0_r; split; [done|]; unfold turns; cbn; by rewrite Ht.
  - rewrite Nat.add_0_r in Hd. done.
  - destruct (IH f (after t) (S t)) as (x & m & Hx & Htm); [apply after_before|lia| |].
    { by replace (S t + d)%nat with (t + S d)%nat by lia. }
    exists x, (S m). replace (t + S m)%nat with (S t + m)%nat by lia. split; [done|].
    unfold turns in *. change (seq t (S (S m))) with (t :: seq (S t) (S m)).
    by rewrite bind_cons, Ht.
Qed.

Lemma w_Next_turns b t :
  before b t → ∃ x m, w_Next b = Some (inr x, after (t + m)) ∧ turns t (S m) = [x].
Proof.
  intros Hb. pose proof len_pos. destruct (window_hits t) as (d & Hd & Hne).
  unfold w_Next. destruct (Hb) as (Hn & _). rewrite Hn, decide_False.
  - by apply next_loop_window with d.
  - intros He. rewrite He in *. cbn in *. lia.
Qed.

Lemma turns_app t n m : turns t (n + m) = turns t n ++ turns (t + n) m.
Proof. unfold turns. by rewrite seq_app, bind_app. Qed.

Lemma w_run_turns n b t :
  before b t →
  ∃ xs m b', w_run n b = Some (xs, b') ∧ before b' (t + m) ∧
    xs = turns t m ∧ length xs = n.
Proof.
  revert b t. induction n as [|n IH]; intros b t Hb; cbn [w_run].
  { exists [], 0%nat, b. rewrite Nat.add_0_r. by split_and!. }
  destruct (w_Next_turns b t Hb) as (x & m & -> & Hx).
  destruct (IH (after (t + m)) (S (t + m)) (after_before _)) as (xs & m' & b' & -> & Hb' & Hxs & Hl).
  exists (x :: xs), (S m + m')%nat, b'. split_and!; [done| | |cbn; lia].
  - by replace (t + (S m + m'))%nat with (S (t + m) + m')%nat by lia.
  - rewrite turns_app, Hx, Hxs. cbn. do 2 f_equal. lia.
Qed.
(** A round of turns chooses the nodes above its threshold, in list order. *)
Lemma turns_round r :
  turns (r * len) len = round_ids (nodes b0) (maxW b0 - Z.of_nat (r mod q) * g b0).
Proof.
  pose proof len_pos. rewrite round_ids_bind. apply seq_bind_lookup.
  intros k nd Hnd. pose proof (lookup_lt_Some _ _ _ Hnd). unfold turn_ids, turn_cw.
  assert ((r * len + k) mod len = k)%nat as ->.
  { rewrite Nat.add_comm, Nat.Div0.mod_add. by apply Nat.mod_small. }
  assert ((r * len + k) / len = r)%nat as ->.
  { rewrite Nat.div_add_l, Nat.div_small by lia. lia. }
  by rewrite Hnd.
Qed.

Lemma turns_rounds r m :
  turns (r * len) (m * len) =
  seq r m ≫= λ k, round_ids (nodes b0) (maxW b0 - Z.of_nat (k mod q) * g b0).
Proof.
  revert r. induction m as [|m IH]; intros r; [done|].
  cbn [Nat.mul seq]. rewrite turns_app, turns_round, bind_cons. f_equal.
  rewrite <- IH. f_equal. lia.
Qed.

Lemma turns_cycle c : turns (c * q * len) (q * len) = schedule b0.
Proof.
  destruct maxW_rounds as [_ Hq]. rewrite turns_rounds. unfold schedule.
  assert (∀ m k, (k + m ≤ q)%nat →
    seq (c * q + k) m ≫= (λ k, round_ids (nodes b0) (maxW b0 - Z.of_nat (k mod q) * g b0)) =
    seq k m ≫= (λ k, round_ids (nodes b0) (maxW b0 - Z.of_nat k * g b0))) as Hgen.
  { induction m as [|m IH]; intros k Hk; [done|]. cbn [seq]. rewrite !bind_cons.
    rewrite <- IH by lia.
    assert ((c * q + k) mod q = k)%nat as ->.
    { rewrite Nat.add_comm, Nat.Div0.mod_add. apply Nat.mod_small. lia. }
    by rewrite Nat.add_succ_r. }
  specialize (Hgen q 0%nat ltac:(lia)). by rewrite Nat.add_0_r in Hgen.
Qed.

Lemma turns_cycles c n : turns (c * (q * len)) (n * (q * len)) = concat (replicate n (schedule b0)).
Proof.
  revert c. induction n as [|n IH]; intros c; [done|].
  cbn [Nat.mul replicate concat]. rewrite turns_app.
  f_equal.
  - rewrite <- (turns_cycle c). f_equal. lia.
  - rewrite <- (IH (S c)). f_equal. lia.
Qed.

Lemma schedule_length : (0 < length (schedule b0))%nat.
Proof.
  destruct (ok_max _ Hok) as (nd & Hin & Hw). destruct maxW_rounds as [_ Hq].
  unfold schedule. destruct q as [|q']; [lia|]. cbn [seq]. rewrite bind_cons, length_app.
  assert (nd ∈ filter (λ nd, maxW b0 - Z.of_nat 0 * g b0 ≤ weight nd) (nodes b0)) as Hf.
  { apply list_elem_of_filter. split; [lia|done]. }
  unfold round_ids. rewrite length_fmap.
  destruct (filter _ _); [by apply elem_of_nil in Hf|cbn; lia].
Qed.

Lemma turns_cycles_long n : (n ≤ length (turns 0 (n * (q * len))))%nat.
Proof.
  pose proof schedule_length. change 0%nat with (0 * (q * len))%nat at 1. rewrite turns_cycles.
  induction n as [|n IH]; cbn [replicate concat]; [cbn; lia|]. rewrite length_app. lia.
Qed.

(** The choices of the first turns are a prefix of the repeated schedule. *)
Lemma turns_take_cycles m :
  take (length (turns 0 m)) (concat (replicate (length (turns 0 m)) (schedule b0))) = turns 0 m.
Proof.
  set (n := length (turns 0 m)). rewrite <- (turns_cycles 0 n). cbn [Nat.mul].
  pose proof (turns_cycles_long n) as Hlong.
  destruct (Nat.le_ge_cases m (n * (q * len))) as [Hm|Hm].
  - replace (n * (q * len))%nat with (m + (n * (q * len) - m))%nat by lia.
    rewrite turns_app. apply take_app_length.
  - assert (turns 0 m = turns 0 (n * (q * len)) ++ turns (0 + n * (q * len)) (m - n * (q * len))) as Hs.
    { rewrite <- turns_app. f_equal. lia. }
    assert (n = length (turns 0 m)) as Hn by done. rewrite Hs, length_app in Hn.
    rewrite take_ge by lia. rewrite Hs.
    destruct (turns (0 + _) _); [by rewrite app_nil_r|cbn in Hn; lia].
Qed.
End turns.

(** In [m] rounds of a cycle a node of weight [w] is chosen [m - (maxW - w) / g] times. *)
Lemma occurrences_rounds b x m :
  w_ok b →
  occurrences x (seq 0 m ≫= λ k, round_ids (nodes b) (maxW b - Z.of_nat k * g b)) =
  node_sum (λ nd, if decide (id nd = x) then Z.max 0 (Z.of_nat m - (maxW b - weight nd) / g b) else 0)
    (nodes b).
Proof.
  intros Hok. pose proof (ok_g _ Hok). pose proof (ok_le _ Hok) as Hle.
  induction m as [|m IH].
  - cbn [seq]. rewrite (node_sum_ext _ (λ _, 0)).
    + clear. unfold node_sum. by induction (nodes b) as [|nd l IH]; cbn; [|rewrite <- IH].
    + eapply Forall_impl; [exact Hle|]. intros nd (? & ? & ?). case_decide; [|done].
      assert (0 ≤ (maxW b - weight nd) / g b) by (apply Z.div_pos; lia). lia.
  - rewrite seq_S, bind_app, occurrences_app, IH. cbn [Nat.add]. rewrite bind_singleton, occurrences_round.
    rewrite node_sum_add. apply node_sum_ext.
    eapply Forall_impl; [exact Hle|]. intros nd (? & ? & [w' Hw]).
    destruct (ok_div _ Hok) as [q Hq].
    assert ((maxW b - weight nd) / g b = q - w') as ->.
    { rewrite Hq, Hw, <- Z.mul_sub_distr_r. apply Z.div_mul. lia. }
    destruct (decide (id nd = x)); [|by rewrite decide_False by tauto].
    destruct (decide (id nd = x ∧ maxW b - Z.of_nat m * g b ≤ weight nd)) as [[_ Hc]|Hc].
    + assert (q - Z.of_nat m ≤ w') by nia. lia.
    + assert (w' < q - Z.of_nat m) by (apply Z.nle_gt; intros ?; apply Hc; split; [done|nia]). lia.
Qed.

Lemma schedule_weights b x : w_ok b → occurrences x (schedule b) * g b = weight_of x (nodes b).
Proof.
  intros Hok. pose proof (ok_g _ Hok). unfold schedule. rewrite occurrences_rounds by done.
  rewrite node_sum_mul. apply node_sum_ext. eapply Forall_impl; [exact (ok_le _ Hok)|].
  intros nd (? & ? & [w' Hw]). case_decide; [|done].
  destruct (maxW_rounds b Hok) as [Hm _]. 
  assert ((maxW b - weight nd) / g b = Z.of_nat (rounds b) - w') as ->.
  { rewrite Hm, Hw, <- Z.mul_sub_distr_r. apply Z.div_mul. lia. }
  rewrite Z.max_r by nia. lia.
Qed.

(** Weighted round robin is exactly the interleaved reference schedule: after [recalc]
    (that is, after any [Add] or [Remove]) with at least one node, any number [n] of calls
    to [Next] succeeds, and the nodes returned are the first [n] entries of the schedule
    repeated forever; and in one cycle of the schedule every identifier occurs exactly its
    total weight divided by the gcd of the weights. *)
Theorem wrr_follows_schedule l n :
  l ≠ [] → Forall (λ nd, 0 < weight nd) l →
  (∃ b', w_run n (recalc l) = Some (take n (concat (replicate n (schedule (recalc l)))), b')) ∧
  ∀ x, occurrences x (schedule (recalc l)) * g (recalc l) = weight_of x l.
Proof.
  intros Hne Hpos. pose proof (recalc_ok l Hne Hpos) as Hok. split; [|by intros x; apply schedule_weights].
  set (b := recalc l) in *. pose proof (len_pos b Hok) as Hl.
  destruct (w_run_turns b Hok n b 0) as (xs & m & b' & -> & _ & Hxs & Hn).
  { pose proof (ok_g _ Hok). unfold before, turn_cw. rewrite Nat.Div0.mod_0_l, Nat.Div0.div_0_l, Nat.Div0.mod_0_l.
    split_and!; [done..| |].
    - change (i b + 1) with 0. apply Z.rem_0_l. lia.
    - rewrite decide_True by done. change (cw b) with 0. rewrite decide_True; lia. }
  exists b'. do 2 f_equal. symmetry. subst xs n. by apply turns_take_cycles.
Qed.

Lemma wrr_follows_schedule_witness :
  let l := [{| id := "a"; weight := 4 |}; {| id := "b"; weight := 2 |}] in
  schedule (recalc l) = ["a"; "a"; "b"] ∧
  ∃ b', w_run 5 (recalc l) = Some (["a"; "a"; "b"; "a"; "a"], b').
Proof.
  intros l. split; [vm_compute; reflexivity|].
  apply (wrr_follows_schedule l 5); [done|repeat constructor].
Defined.

End Weighted.

(** ** Skipping unhealthy nodes

    The wrapper works on any balancer.  The checker is a predicate on nodes that does not
    change during a call. *)

Module HealthAware.

Section HealthAware.
Context `{Balancer B}.

(* src: pkg/algorithms/loadbalancing/healthaware/healthaware.go 24-38 Balancer *)
Record HABalancer := { inner : option B; checker : option (string → bool) }.

(* src: pkg/algorithms/loadbalancing/healthaware/healthaware.go 67-75 isHealthy *)
Definition isHealthy (c : option (string → bool)) (node : string) : bool :=
  match c with None => true | Some f => f node end.

(* src: pkg/algorithms/loadbalancing/healthaware/healthaware.go 48-64 Next *)
Fixpoint ha_loop (fuel : nat) (c : option (string → bool)) (seen : gset string) (b : B)
    : option ((error + string) * B) :=
  match fuel with
  | O => None
  | S fuel =>
      match Next b with
      | None => None
      | Some (inl e, b') => Some (inl e, b')
      | Some (inr node, b') =>
          if isHealthy c node then Some (inr node, b')
          else if decide (node ∈ seen) then Some (inl ErrNoNodes, b')
          else
            let seen' := {[node]} ∪ seen in
            if decide (4096 < Z.of_nat (size seen')) then Some (inl ErrNoNodes, b')
            else ha_loop fuel c seen' b'
      end
  end.

(** Every turn adds a node to [seen], which never grows past 4097. *)
(* src: pkg/algorithms/loadbalancing/healthaware/healthaware.go 42-65 Next *)
Definition ha_Next (h : HABalancer) : option ((error + string) * HABalancer) :=
  match inner h with
  | None => Some (inl ErrNoNodes, h)
  | Some b =>
      match ha_loop (Z.to_nat 4097) (checker h) ∅ b with
      | Some (r, b') => Some (r, {| inner := Some b'; checker := checker h |})
      | None => None
      end
  end.

(* src: pkg/algorithms/loadbalancing/healthaware/healthaware.go 77-82 Add *)
Definition ha_Add (node : string) (w : Z) (h : HABalancer) : HABalancer :=
  {| inner := Add node w <$> inner h; checker := checker h |}.

(* src: pkg/algorithms/loadbalancing/healthaware/healthaware.go 84-89 Remove *)
Definition ha_Remove (node : string) (h : HABalancer) : HABalancer :=
  {| inner := Remove node <$> inner h; checker := checker h |}.

(* src: pkg/algorithms/loadbalancing/healthaware/healthaware.go 91-96 SetChecker *)
Definition SetChecker (c : option (string → bool)) (h : HABalancer) : HABalancer :=
  {| inner := inner h; checker := c |}.

(** What one call can answer, over any balancer: a healthy node, or an error. *)
Lemma ha_loop_healthy fuel c seen b node b' :
  ha_loop fuel c seen b = Some (inr node, b') → isHealthy c node = true.
Proof.
  revert seen b. induction fuel as [|fuel IH]; intros seen b; cbn [ha_loop]; [done|].
  destruct (Next b) as [[[e|x] b1]|]; [done| |done].
  destruct (isHealthy c x) eqn:Hx; [intros [= -> ->]; done|].
  repeat case_decide; [done|done|]. apply IH.
Qed.

(** The loop always ends within its fuel when the inner balancer's calls do. *)
Lemma ha_loop_ends fuel c seen b :
  (∀ b, is_Some (Next b)) → (4097 - Z.of_nat (size seen) ≤ Z.of_nat fuel) →
  Z.of_nat (size seen) ≤ 4096 → is_Some (ha_loop fuel c seen b).
Proof.
  intros Hn. revert seen b. induction fuel as [|fuel IH]; intros seen b Hf Hs; [lia|].
  cbn [ha_loop]. destruct (Hn b) as [[[e|x] b1] ->]; [done|].
  destruct (isHealthy c x); [done|]. destruct (decide (x ∈ seen)) as [|Hx]; [done|].
  assert (size ({[x]} ∪ seen) = S (size seen)) as Hsz.
  { rewrite size_union by set_solver. by rewrite size_singleton. }
  case_decide; [done|]. apply IH; lia.
Qed.
End HealthAware.
Arguments HABalancer : clear implicits.

#[global] Instance ha_Balancer `{Balancer B} : Balancer (HABalancer B) :=
  {| Next := ha_Next; Add := ha_Add; Remove := ha_Remove |}.

(** *** Over round robin *)

Import RoundRobin.

Lemma rr_Next_at b node :
  rr_nodes b !! (Z.to_nat (count b mod Z.of_nat (length (rr_nodes b)))) = Some node →
  0 ≤ count b < 2 ^ 64 - 1 →
  rr_Next b = Some (inr node, {| rr_nodes := rr_nodes b; count := count b + 1 |}).
Proof.
  intros Hn Hc. unfold rr_Next. rewrite decide_False.
  - rewrite (u64_id (count b + 1)), u64_id by (unfold is_u64; lia).
    replace (count b + 1 - 1) with (count b) by lia. by rewrite Hn.
  - destruct (rr_nodes b); [done|cbn; lia].
Qed.
Section scan.
Context (l : list string) (c0 : Z) (f : string → bool).
Hypothesis Hnodup : NoDup l.
Hypothesis Hlen : Z.of_nat (length l) ≤ 4097.
Hypothesis Hc0 : 0 ≤ c0 ∧ c0 + Z.of_nat (length l) < 2 ^ 64 - 1.
#[local] Set Default Proof Using "Type*".
#[local] Abbreviation R := (rotate (Z.to_nat c0) l).

Lemma NoDup_rotate : NoDup R.
Proof.
  unfold rotate. rewrite Permutation_app_comm, take_drop. done.
Qed.

(** The [k]-th call from count [c0] returns entry [k] of the rotated list. *)
Lemma rr_Next_rotate k node :
  (k ≤ length l)%nat → R !! (k mod length l)%nat = Some node →
  rr_Next {| rr_nodes := l; count := c0 + Z.of_nat k |} =
    Some (inr node, {| rr_nodes := l; count := c0 + Z.of_nat (S k) |}).
Proof.
  intros Hk HR. destruct (decide (length l = 0%nat)) as [H0|H0].
  { apply lookup_lt_Some in HR. rewrite length_rotate in HR. lia. }
  rewrite lookup_rotate_r in HR by (apply Nat.mod_upper_bound; lia).
  rewrite (rr_Next_at _ node); cbn [rr_nodes count]; [do 3 f_equal; lia| |lia].
  rewrite <- HR. unfold rotate_nat_add. f_equal. rewrite Z2Nat.id, Nat2Z.inj_mod by lia.
  f_equal. by rewrite Zplus_mod_idemp_r.
Qed.

Lemma ha_rr_scan rem pre fuel :
  R = pre ++ rem → l ≠ [] → Forall (λ x, f x = false) pre →
  (fuel + length pre = Z.to_nat 4097)%nat → (length pre < Z.to_nat 4097)%nat →
  ∃ b', ha_loop fuel (Some f) (list_to_set pre) {| rr_nodes := l; count := c0 + Z.of_nat (length pre) |} =
    Some (match List.find f rem with Some x => inr x | None => inl ErrNoNodes end, b').
Proof.
  revert pre fuel. pose proof NoDup_rotate as Hnd. pose proof (length_rotate l (Z.to_nat c0)) as HlR.
  induction rem as [|x rem IH]; intros pre fuel HR Hne Hpre Hfuel Hsz; (destruct fuel as [|fuel]; [lia|]).
  all: rewrite HR in HlR, Hnd; rewrite length_app in HlR; cbn [ha_loop].
  - destruct R as [|x R'] eqn:HeR.
    { apply length_zero_iff_nil in HeR. rewrite length_rotate in HeR.
      by apply length_zero_iff_nil in HeR. }
    cbn [length] in HlR. change (Next ?b) with (rr_Next b).
    rewrite (rr_Next_rotate (length pre) x); [|lia|].
    2:{ replace (length pre) with (length l) by lia. rewrite Nat.Div0.mod_same. by rewrite HeR. }
    rewrite app_nil_r in HR. subst pre. cbn [isHealthy].
    apply Forall_cons in Hpre as [Hx _]. rewrite Hx, decide_True; [by eexists|].
    apply elem_of_list_to_set. left.
  - cbn [length] in HlR. change (Next ?b) with (rr_Next b).
    rewrite (rr_Next_rotate (length pre) x); [|lia|].
    2:{ rewrite Nat.mod_small by lia. rewrite HR, list_lookup_middle; done. }
    cbn [isHealthy List.find]. destruct (f x) eqn:Hx; [by eexists|].
    apply NoDup_app in Hnd as (Hnp & Hdis & _).
    assert (x ∉ pre) as Hxp by (intros Hin; apply (Hdis x Hin); left).
    rewrite decide_False by (by rewrite elem_of_list_to_set).
    assert ({[x]} ∪ list_to_set pre =@{gset string} list_to_set (pre ++ [x])) as ->
      by (rewrite list_to_set_app_L; set_solver).
    rewrite size_list_to_set by (apply NoDup_app; split_and!; [done|set_solver|by apply NoDup_singleton]).
    rewrite length_app. cbn [length]. case_decide.
    + assert (rem = []) as -> by (destruct rem; cbn in HlR; [done|lia]). by eexists.
    + destruct (IH (pre ++ [x]) fuel) as [b' Hb']; rewrite ?length_app in *; cbn [length] in *; [|done| |lia|lia|].
      * by rewrite HR, <- app_assoc.
      * apply Forall_app; split; [done|]. by constructor.
      * exists b'. rewrite <- Hb'. repeat f_equal. lia.
Qed.
End scan.

(** Over round robin with distinct nodes (at most 4097 of them, and a counter that does
    not wrap during the call) the health-aware [Next] returns the first healthy node
    clockwise from the pointer, and [ErrNoNodes] exactly when no node is healthy. *)
Theorem healthaware_roundrobin_exact l c f :
  NoDup l → Z.of_nat (length l) ≤ 4097 → 0 ≤ c → c + Z.of_nat (length l) < 2 ^ 64 - 1 →
  ∃ h', ha_Next {| inner := Some {| rr_nodes := l; count := c |}; checker := Some f |} =
    Some (match List.find f (rotate (Z.to_nat c) l) with
          | Some x => inr x
          | None => inl ErrNoNodes
          end, h').
Proof.
  intros Hnd Hlen Hc Hcl. unfold ha_Next; cbn [inner checker].
  destruct (decide (l = [])) as [->|Hne].
  - unfold rotate. rewrite drop_nil, take_nil.
    replace (Z.to_nat 4097) with (S (Z.to_nat 4096)) by lia. by eexists.
  - destruct (ha_rr_scan l c f Hnd Hlen (conj Hc Hcl) (rotate (Z.to_nat c) l) [] (Z.to_nat 4097))
      as [b' Hb']; [done|done|by constructor|cbn; lia|cbn; lia|].
    cbn [length list_to_set foldr] in Hb'. rewrite Z.add_0_r in Hb'.
    eexists. by rewrite Hb'.
Qed.

Lemma healthaware_roundrobin_exact_witness :
  ∃ h', ha_Next {| inner := Some {| rr_nodes := ["a"; "b"; "c"]; count := 4 |};
                   checker := Some (λ x, bool_decide (x = "a")) |} = Some (inr "a", h').
Proof.
  destruct (healthaware_roundrobin_exact ["a"; "b"; "c"] 4 (λ x, bool_decide (x = "a")))
    as [h' ->]; [compute_decide|cbn; lia|lia|cbn; lia|]. exists h'. by vm_compute.
Defined.

(** Over weighted round robin the same [Next] gives up too early: a node of weight 2 comes
    twice in a row, its second visit ends the search, and the healthy node that the schedule
    would choose next is never asked. *)
Theorem healthaware_weighted_gives_up :
  let b := Weighted.w_Add "b" 1 (Weighted.w_Add "a" 2 Weighted.w_New) in
  let healthy := λ x, bool_decide (x = "b") in
  Weighted.schedule b = ["a"; "a"; "b"] ∧
  fst <$> ha_Next {| inner := Some b; checker := Some healthy |} = Some (inl ErrNoNodes).
Proof. split; vm_compute; reflexivity. Qed.
End HealthAware.
