(* ===== verification/Maglev.v ===== *)
(** * pkg/algorithms/loadbalancing/maglev: the Maglev lookup table

    [rebuild] gives every backend a permutation of the table (offset and skip from two
    FNV-1a hashes) and lets the backends claim free slots in turn.  [None] is a loop that
    did not end within the fuel, an index out of range or a division by zero.  For a prime
    table size the theorems exclude all three; [maglev_size_one_panics] and
    [maglev_composite_never_ends] show what happens otherwise. *)

From S2P Require Import Prelude Errors LoadBalancing.
From Stdlib Require Import Znumtheory.
From stdpp Require Import options.
Open Scope Z_scope.

(** ** FNV-1a (hash/fnv) *)

(* src: pkg/algorithms/loadbalancing/maglev/maglev.go 130-134 hash64 *)
Definition hash64 (s : string) : Z :=
  foldl (λ h c, u64 (Z.lxor h (Z.of_N (Ascii.N_of_ascii c)) * 1099511628211))
    14695981039346656037 (String.list_ascii_of_string s).

(* src: pkg/algorithms/loadbalancing/maglev/maglev.go 136-147 hash2 *)
Definition hash2 (s : string) : Z * Z :=
  let a := hash64 s in
  let b := hash64 (s +:+ "#maglev") in
  (a, if decide (b = 0) then 1 else b).

(** ** The table *)

(* src: pkg/algorithms/loadbalancing/maglev/maglev.go 16-17 DefaultTableSize *)
Definition DefaultTableSize : Z := 65537.

(* src: pkg/algorithms/loadbalancing/maglev/maglev.go 19-25 Balancer *)
Record MBalancer := { mg_nodes : list string; mg_table : list Z; tableSize : Z }.

(** Slot [j] of the preference list with the given offset and skip. *)
(* src: pkg/algorithms/loadbalancing/maglev/maglev.go 117-118 rebuild *)
Definition preference (m : Z) (row : Z * Z) (j : Z) : Z :=
  u64 (row.1 + u64 (u64 j * row.2)) mod m.

(* src: pkg/algorithms/loadbalancing/maglev/maglev.go 104-111 rebuild *)
Definition rows (m : Z) (nodes : list string) : list (Z * Z) :=
  (λ node, let '(h1, h2) := hash2 node in (h1 mod m, h2 mod (m - 1) + 1)) <$> nodes.

(** The search of one backend for a free slot, from preference [next] on. *)
(* src: pkg/algorithms/loadbalancing/maglev/maglev.go 117-122 rebuild *)
Fixpoint probe (fuel : nat) (m : Z) (table : list Z) (row : Z * Z) (next : Z) : option (Z * Z) :=
  match fuel with
  | O => None
  | S fuel =>
      let c := preference m row next in
      match table !! Z.to_nat c with
      | None => None
      | Some v => if decide (0 ≤ v) then probe fuel m table row (next + 1) else Some (c, next + 1)
      end
  end.

Record build := { table : list Z; next : list Z; filled : Z }.

(** One pass over the backends, from backend [i] on. *)
(* src: pkg/algorithms/loadbalancing/maglev/maglev.go 116-125 rebuild *)
Fixpoint fill_pass (fuel : nat) (m : Z) (rs : list (Z * Z)) (i : nat) (s : build) : option build :=
  match rs with
  | [] => Some s
  | row :: rs =>
      if decide (filled s < m) then
        match next s !! i with
        | None => None
        | Some nx =>
            match probe fuel m (table s) row nx with
            | None => None
            | Some (c, nx') =>
                fill_pass fuel m rs (S i)
                  {| table := <[Z.to_nat c := Z.of_nat i]> (table s);
                     next := <[i := nx']> (next s); filled := filled s + 1 |}
            end
        end
      else Some s
  end.

(* src: pkg/algorithms/loadbalancing/maglev/maglev.go 115-126 rebuild *)
Fixpoint fill (fuel pfuel : nat) (m : Z) (rs : list (Z * Z)) (s : build) : option build :=
  if decide (filled s < m) then
    match fuel with
    | O => None
    | S fuel' =>
        match fill_pass pfuel m rs 0 s with Some s' => fill fuel' pfuel m rs s' | None => None end
    end
  else Some s.

(** The skip is taken modulo [m - 1]: a division by zero when [m] is 1. *)
(* src: pkg/algorithms/loadbalancing/maglev/maglev.go 92-128 rebuild *)
Definition rebuild_with (fuel pfuel : nat) (m : Z) (nodes : list string) : option (list Z) :=
  let empty := replicate (Z.to_nat m) (-1) in
  if decide (nodes = []) then Some empty
  else if decide (m = 1) then None
  else table <$> fill fuel pfuel m (rows m nodes)
                   {| table := empty; next := replicate (length nodes) 0; filled := 0 |}.

(** [m] passes, and [m] probes for a slot, are enough when [m] is prime. *)
(* src: pkg/algorithms/loadbalancing/maglev/maglev.go 92-128 rebuild *)
Definition rebuild (m : Z) (nodes : list string) : option (list Z) :=
  rebuild_with (Z.to_nat m) (Z.to_nat m) m nodes.

(** [New], [Add] and [Remove] fail only when [rebuild] does. *)
(* src: pkg/algorithms/loadbalancing/maglev/maglev.go 27-39 New *)
Definition mg_New (size : Z) (nodes : list string) : option MBalancer :=
  let m := if decide (size ≤ 0) then DefaultTableSize else size in
  (λ t, {| mg_nodes := nodes; mg_table := t; tableSize := m |}) <$> rebuild m nodes.

(* src: pkg/algorithms/loadbalancing/maglev/maglev.go 49-63 NextKey *)
Definition NextKey (b : MBalancer) (key : string) : option (error + string) :=
  if decide (mg_nodes b = [] ∨ mg_table b = []) then Some (inl ErrNoNodes)
  else
    match mg_table b !! Z.to_nat (hash64 key mod tableSize b) with
    | None => None
    | Some nodeIdx =>
        if decide (nodeIdx < 0 ∨ Z.of_nat (length (mg_nodes b)) ≤ nodeIdx) then Some (inl ErrNoNodes)
        else match mg_nodes b !! Z.to_nat nodeIdx with Some x => Some (inr x) | None => None end
    end.

(* src: pkg/algorithms/loadbalancing/maglev/maglev.go 43-47 Next *)
Definition mg_Next (b : MBalancer) : option (error + string) := NextKey b "0".

(* src: pkg/algorithms/loadbalancing/maglev/maglev.go 65-77 Add *)
Definition mg_Add (node : string) (b : MBalancer) : option MBalancer :=
  if decide (node ∈ mg_nodes b) then Some b
  else
    let nodes := mg_nodes b ++ [node] in
    (λ t, {| mg_nodes := nodes; mg_table := t; tableSize := tableSize b |}) <$> rebuild (tableSize b) nodes.

(* src: pkg/algorithms/loadbalancing/maglev/maglev.go 79-90 Remove *)
Definition mg_Remove (node : string) (b : MBalancer) : option MBalancer :=
  if decide (node ∈ mg_nodes b) then
    let nodes := remove_first (λ x, x = node) (mg_nodes b) in
    (λ t, {| mg_nodes := nodes; mg_table := t; tableSize := tableSize b |}) <$> rebuild (tableSize b) nodes
  else Some b.

(** ** A preference list of a prime table is a permutation of the slots *)

Section prime_table.
Context (m : Z) (Hprime : prime m) (Hm : m < 2 ^ 31).
#[local] Set Default Proof Using "Type*".

Definition row_ok (row : Z * Z) : Prop := 0 ≤ row.1 < m ∧ 1 ≤ row.2 < m.

Lemma m_ge_2 : 2 ≤ m.
Proof. apply prime_ge_2, Hprime. Qed.

Lemma hash64_range s : 0 ≤ hash64 s < 2 ^ 64.
Proof.
  unfold hash64. assert (0 ≤ 14695981039346656037 < 2 ^ 64) as Hi by lia. revert Hi.
  generalize 14695981039346656037 as h. induction (String.list_ascii_of_string s) as [|c l IH];
    intros h Hh; cbn [foldl]; [done|]. apply IH, u64_range.
Qed.

Lemma rows_ok nodes : Forall row_ok (rows m nodes).
Proof.
  pose proof m_ge_2. apply Forall_fmap, Forall_true. intros node. unfold row_ok, hash2; cbn.
  pose proof (Z.mod_pos_bound (hash64 node) m).
  set (h2 := if decide _ then _ else _). pose proof (Z.mod_pos_bound h2 (m - 1)). lia.
Qed.

Lemma preference_plain row j :
  row_ok row → 0 ≤ j < m → preference m row j = (row.1 + j * row.2) mod m.
Proof.
  intros [? ?] ?. unfold preference.
  assert (0 ≤ j * row.2 < 2 ^ 62) by nia.
  by rewrite (u64_id j), (u64_id (j * row.2)), u64_id by (unfold is_u64; lia).
Qed.

Lemma preference_range row j : 0 ≤ preference m row j < m.
Proof. pose proof m_ge_2. apply Z.mod_pos_bound. lia. Qed.

Lemma preference_surj row c :
  row_ok row → 0 ≤ c < m → ∃ j, 0 ≤ j < m ∧ preference m row j = c.
Proof.
  intros Hrow Hc. pose proof m_ge_2. destruct (Hrow) as [? ?].
  assert (rel_prime row.2 m) as Hrel by (apply rel_prime_sym, prime_rel_prime; [done|];
    intros Hd; apply Z.divide_pos_le in Hd; lia).
  apply rel_prime_bezout in Hrel as [u v Huv].
  pose proof (Z.mod_pos_bound ((c - row.1) * u) m ltac:(lia)).
  exists (((c - row.1) * u) mod m). split; [done|]. rewrite preference_plain by done.
  rewrite Zplus_mod, Zmult_mod_idemp_l, <- Zplus_mod.
  replace (row.1 + (c - row.1) * u * row.2) with (c + (- (c - row.1) * v) * m) by nia.
  rewrite Z_mod_plus_full. by apply Z.mod_small.
Qed.
End prime_table.

(** ** The invariant of the build *)

Definition occupied (t : list Z) (c : Z) : Prop := ∃ v, t !! Z.to_nat c = Some v ∧ 0 ≤ v.

(** How many slots satisfy [P]; the slots of backend [k]; the free slots. *)
Definition slots (P : Z → Prop) `{∀ v, Decision (P v)} (t : list Z) : Z :=
  Z.of_nat (length (filter P t)).

#[local] Abbreviation slots_of k := (slots (λ v, v = Z.of_nat k)).
#[local] Abbreviation free := (slots (λ v, v < 0)).

Lemma slots_insert (P : Z → Prop) `{∀ v, Decision (P v)} t c v w :
  t !! c = Some v →
  slots P (<[c := w]> t) = slots P t - (if decide (P v) then 1 else 0) + (if decide (P w) then 1 else 0).
Proof.
  intros Hc. pose proof (lookup_lt_Some _ _ _ Hc). rewrite insert_take_drop by done.
  rewrite <- (take_drop_middle t c v Hc) at 3. unfold slots.
  rewrite !filter_app, !filter_cons, !length_app. repeat case_decide; cbn [length]; lia.
Qed.

Lemma free_slot t : 0 < free t → ∃ c v, t !! c = Some v ∧ v < 0.
Proof.
  unfold slots. intros H. destruct (filter (λ v, v < 0) t) as [|v l] eqn:Hf; [cbn in H; lia|].
  assert (v ∈ filter (λ v, v < 0) t) as [Hv [c Hc]%list_elem_of_lookup]%list_elem_of_filter
    by (rewrite Hf; left). eauto.
Qed.

Lemma occupied_insert t c c' w :
  0 ≤ w → Z.of_nat (length t) > c → 0 ≤ c → occupied t c' ∨ c' = c → occupied (<[Z.to_nat c := w]> t) c'.
Proof.
  intros Hw Hc Hc0 Ho. unfold occupied. destruct (decide (Z.to_nat c' = Z.to_nat c)) as [->|Hne].
  - exists w. split; [apply list_lookup_insert_eq; lia|done].
  - destruct Ho as [(v & Hv & ?)|]; [|congruence]. exists v.
    by rewrite list_lookup_insert_ne by done.
Qed.

Section build.
Context (m : Z) (Hprime : prime m) (Hm : m < 2 ^ 31).
Context (rs : list (Z * Z)) (Hrs : Forall (row_ok m) rs).
#[local] Set Default Proof Using "Type*".

Lemma probe_spec fuel t row nx j :
  Z.of_nat (length t) = m → row_ok m row → 0 ≤ nx ≤ j → j < m → j - nx < Z.of_nat fuel →
  ¬ occupied t (preference m row j) →
  ∃ nx' v, probe fuel m t row nx = Some (preference m row (nx' - 1), nx') ∧
    nx < nx' ≤ m ∧ t !! Z.to_nat (preference m row (nx' - 1)) = Some v ∧ v < 0 ∧
    ∀ j', nx ≤ j' < nx' - 1 → occupied t (preference m row j').
Proof.
  intros Hlen Hrow. revert nx. induction fuel as [|fuel IH]; intros nx Hnx Hj Hf Hfree; [lia|].
  cbn [probe]. pose proof (preference_range m Hprime Hm row nx) as Hr.
  destruct (lookup_lt_is_Some_2 t (Z.to_nat (preference m row nx))) as [v Hv]; [lia|].
  rewrite Hv. destruct (decide (0 ≤ v)) as [Hocc|Hocc].
  - assert (nx ≠ j) by (intros ->; apply Hfree; by exists v).
    destruct (IH (nx + 1)) as (nx' & v' & -> & Hb & Ht & Hneg & Hall); [lia|done|lia|done|].
    exists nx', v'. split_and!; [done|lia|lia|done|done|].
    intros j' Hj'. destruct (decide (j' = nx)) as [->|]; [by exists v|apply Hall; lia].
  - exists (nx + 1), v. replace (nx + 1 - 1) with nx by lia. split_and!; [done|lia|lia|done|lia|].
    intros. lia.
Qed.

Record inv (p : Z) (i : nat) (s : build) : Prop := {
  inv_table : Z.of_nat (length (table s)) = m;
  inv_next : length (next s) = length rs;
  inv_filled : filled s = p * Z.of_nat (length rs) + Z.of_nat i;
  inv_free : free (table s) = m - filled s;
  inv_entries : Forall (λ v, v < Z.of_nat (length rs)) (table s);
  inv_counts : ∀ k, (k < length rs)%nat →
    slots_of k (table s) = p + (if decide (k < i)%nat then 1 else 0);
  inv_rows : ∀ k row nx, rs !! k = Some row → next s !! k = Some nx →
    0 ≤ nx ≤ m ∧ ∀ j, 0 ≤ j < nx → occupied (table s) (preference m row j) }.

(** One claim: there is a free slot, so that the probe ends and the invariant moves on. *)
Lemma claim_slot p i s row nx fuel :
  inv p i s → filled s < m → rs !! i = Some row → next s !! i = Some nx → m ≤ Z.of_nat fuel →
  ∃ c nx', probe fuel m (table s) row nx = Some (c, nx') ∧
    inv p (S i) {| table := <[Z.to_nat c := Z.of_nat i]> (table s);
                   next := <[i := nx']> (next s); filled := filled s + 1 |}.
Proof.
  intros [Ht Hn Hfl Hfr Hen Hct Hro] Hlt Hrow Hnx Hfuel.
  pose proof (lookup_lt_Some _ _ _ Hrow) as Hi.
  assert (row_ok m row) as Hok by (by eapply Forall_lookup_1).
  destruct (Hro i row nx Hrow Hnx) as [Hnxb Hocc].
  destruct (free_slot (table s)) as (c & v & Hc & Hv); [lia|].
  pose proof (lookup_lt_Some _ _ _ Hc) as Hcl.
  destruct (preference_surj m Hprime Hm row (Z.of_nat c) Hok) as (j & Hj & Hpj); [lia|].
  assert (¬ occupied (table s) (preference m row j)) as Hno.
  { rewrite Hpj. intros (v' & Hv' & ?). rewrite Nat2Z.id in Hv'. simplify_eq. lia. }
  assert (nx ≤ j) by (apply Z.nlt_ge; intros Hjn; apply Hno, Hocc; lia).
  destruct (probe_spec fuel (table s) row nx j) as (nx' & w & Hp & Hb & Hw & Hneg & Hall);
    [done|done|lia|lia|lia|done|].
  exists (preference m row (nx' - 1)), nx'. split; [done|].
  pose proof (preference_range m Hprime Hm row (nx' - 1)) as Hcr.
  split; cbn [table next filled].
  - by rewrite length_insert.
  - by rewrite length_insert.
  - lia.
  - rewrite (slots_insert _ _ _ w) by done. rewrite decide_True, decide_False by lia. lia.
  - apply Forall_insert; [done|lia].
  - intros k Hk. rewrite (slots_insert _ _ _ w), Hct by done.
    rewrite (decide_False (P := w = _)) by lia.
    destruct (decide (k = i)) as [->|Hki].
    + rewrite decide_False, decide_True, decide_True by lia. lia.
    + rewrite (decide_False (P := Z.of_nat i = _)) by lia.
      repeat case_decide; lia.
  - intros k row' nx'' Hrow' Hnx''. destruct (decide (k = i)) as [->|Hki].
    + rewrite list_lookup_insert_eq in Hnx'' by lia. simplify_eq. split; [lia|].
      intros j' Hj'. apply occupied_insert; [lia|lia|lia|].
      destruct (decide (j' = nx'' - 1)) as [->|]; [by right|left].
      destruct (decide (j' < nx)); [apply Hocc; lia|apply Hall; lia].
    + rewrite list_lookup_insert_ne in Hnx'' by done.
      destruct (Hro k row' nx'' Hrow' Hnx'') as [? Ho]. split; [done|].
      intros j' Hj'. apply occupied_insert; [lia|lia|lia|]. left. by apply Ho.
Qed.
Lemma inv_wrap p s : inv p (length rs) s → inv (p + 1) 0 s.
Proof.
  intros [Ht Hn Hfl Hfr Hen Hct Hro]. split; try done; [lia|].
  intros k Hk. rewrite Hct by done. rewrite decide_True, decide_False by lia. lia.
Qed.

Lemma inv_filled_le p i s : inv p i s → filled s ≤ m.
Proof. intros [Ht Hn Hfl Hfr]. assert (0 ≤ free (table s)) by (unfold slots; lia). lia. Qed.

Lemma fill_pass_spec fuel rest p i s :
  m ≤ Z.of_nat fuel → drop i rs = rest → (i ≤ length rs)%nat → inv p i s →
  ∃ s' i', fill_pass fuel m rest i s = Some s' ∧ inv p i' s' ∧ (i ≤ i' ≤ length rs)%nat ∧
    (filled s' = m ∨ i' = length rs).
Proof.
  intros Hfuel. revert i s. induction rest as [|row rest IH]; intros i s Hd Hi Hinv; cbn [fill_pass].
  - exists s, i. split_and!; [done|done|lia|lia|]. right.
    assert (length (drop i rs) = 0%nat) as Hl by (by rewrite Hd). rewrite length_drop in Hl. lia.
  - assert (rs !! i = Some row) as Hrow.
    { rewrite <- (Nat.add_0_r i), <- lookup_drop, Hd. done. }
    pose proof (lookup_lt_Some _ _ _ Hrow).
    destruct (decide (filled s < m)) as [Hlt|Hge].
    + destruct (lookup_lt_is_Some_2 (next s) i) as [nx Hnx]; [by rewrite (inv_next _ _ _ Hinv)|].
      rewrite Hnx. destruct (claim_slot p i s row nx fuel) as (c & nx' & -> & Hinv'); [done..|].
      destruct (IH (S i) _ ltac:(by apply drop_S in Hrow; congruence) ltac:(lia) Hinv')
        as (s' & i' & Hs' & Hi' & Hb & He).
      exists s', i'. split_and!; [done|done|lia|lia|done].
    + exists s, i. split_and!; [done|done|lia|lia|]. left.
      pose proof (inv_filled_le _ _ _ Hinv). lia.
Qed.

Lemma fill_spec fuel pfuel p s :
  rs ≠ [] → m ≤ Z.of_nat pfuel → m - filled s ≤ Z.of_nat fuel → inv p 0 s →
  ∃ s' p' i', fill fuel pfuel m rs s = Some s' ∧ inv p' i' s' ∧ (i' < length rs)%nat ∧ filled s' = m.
Proof.
  intros Hne Hpf. assert (0 < length rs)%nat by (destruct rs; [done|cbn; lia]).
  revert p s. induction fuel as [|fuel IH]; intros p s Hf Hinv; cbn [fill];
    pose proof (inv_filled_le _ _ _ Hinv) as Hle.
  - rewrite decide_False by lia. exists s, p, 0%nat. split_and!; [done|done|lia|lia].
  - destruct (decide (filled s < m)); [|exists s, p, 0%nat; split_and!; [done|done|lia|lia]].
    destruct (fill_pass_spec pfuel rs p 0 s) as (s' & i' & -> & Hinv' & Hb & He); [done|done|lia|done|].
    destruct (decide (i' = length rs)) as [->|Hi'].
    + apply (IH (p + 1)); [|by apply inv_wrap].
      rewrite (inv_filled _ _ _ Hinv'). rewrite (inv_filled _ _ _ Hinv) in Hf. lia.
    + destruct He as [He|]; [|done]. exists s', p, i'. split_and!; [|done|lia|done].
      destruct fuel; cbn [fill]; by rewrite decide_False by lia.
Qed.
End build.

(** ** The table is complete and balanced *)

Lemma slots_replicate (P : Z → Prop) `{∀ v, Decision (P v)} n v :
  slots P (replicate n v) = if decide (P v) then Z.of_nat n else 0.
Proof.
  unfold slots. induction n as [|n IH]; cbn [replicate]; [by destruct (decide (P v))|].
  rewrite filter_cons. destruct (decide (P v)); cbn [length]; lia.
Qed.

Lemma build_inv_init m rs :
  0 ≤ m →
  inv m rs 0 0 {| table := replicate (Z.to_nat m) (-1); next := replicate (length rs) 0; filled := 0 |}.
Proof.
  intros Hm. split; cbn [table next filled].
  - rewrite length_replicate. lia.
  - apply length_replicate.
  - lia.
  - rewrite slots_replicate, decide_True by lia. lia.
  - apply Forall_replicate. lia.
  - intros k Hk. rewrite slots_replicate, !decide_False by lia. lia.
  - intros k row nx _ [-> _]%lookup_replicate_1. split; [lia|]. intros. lia.
Qed.

Lemma rebuild_table m nodes :
  prime m → m < 2 ^ 31 → nodes ≠ [] →
  ∃ t, rebuild m nodes = Some t ∧ Z.of_nat (length t) = m ∧
    Forall (λ v, 0 ≤ v < Z.of_nat (length nodes)) t ∧
    ∀ k, (k < length nodes)%nat →
      slots_of k t = m / Z.of_nat (length nodes) +
        (if decide (Z.of_nat k < m mod Z.of_nat (length nodes)) then 1 else 0).
Proof.
  intros Hp Hm Hne. pose proof (prime_ge_2 m Hp). unfold rebuild, rebuild_with.
  rewrite decide_False, decide_False by (done || lia).
  assert (length (rows m nodes) = length nodes) as Hl by apply length_fmap.
  assert (rows m nodes ≠ []) as Hr by (intros He; rewrite He in Hl; by destruct nodes).
  pose proof (build_inv_init m (rows m nodes) ltac:(lia)) as Hinit. rewrite <- Hl.
  eapply (fill_spec m Hp Hm _ (rows_ok m Hp Hm nodes) (Z.to_nat m) (Z.to_nat m)) in Hinit
    as (s' & p' & i' & -> & [Ht Hn Hfl Hfr Hen Hct Hro] & Hi' & Hm'); [|done|lia|cbn [filled]; lia].
  exists (table s'). split_and!; [done|done| |].
  - apply Forall_lookup. intros c v Hc. split; [|by eapply (Forall_lookup_1 _ _ _ _ Hen)].
    apply Z.nlt_ge. intros Hv.
    assert (v ∈ filter (λ v, v < 0) (table s')) as Hin
      by (apply list_elem_of_filter; split; [done|by eapply list_elem_of_lookup_2]).
    assert (free (table s') = 0) as Hz by lia. unfold slots in Hz.
    destruct (filter _ _); [by apply elem_of_nil in Hin|cbn in Hz; lia].
  - intros k Hk. rewrite Hct by done. rewrite Hm' in Hfl.
    rewrite <- (Z.div_unique m (Z.of_nat (length (rows m nodes))) p' (Z.of_nat i')),
      <- (Z.mod_unique m (Z.of_nat (length (rows m nodes))) p' (Z.of_nat i')) by lia.
    f_equal. repeat case_decide; lia.
Qed.

(** Building the Maglev table ends and the table is perfectly balanced: for a prime
    table size (below 2^31) and at least one backend, [rebuild] fills all [m] slots within
    [m] passes of [m] probes each, and backend number [k] of [n] owns [m / n] slots, one
    more if [k < m mod n].  Hence [NextKey] answers a backend of the list for every key. *)
Theorem maglev_complete_and_balanced m nodes key :
  prime m → m < 2 ^ 31 → nodes ≠ [] →
  ∃ b, mg_New m nodes = Some b ∧ mg_nodes b = nodes ∧ Z.of_nat (length (mg_table b)) = m ∧
    (∀ k, (k < length nodes)%nat →
       slots (λ v, v = Z.of_nat k) (mg_table b) = m / Z.of_nat (length nodes) +
         (if decide (Z.of_nat k < m mod Z.of_nat (length nodes)) then 1 else 0)) ∧
    ∃ x, NextKey b key = Some (inr x) ∧ x ∈ nodes.
Proof.
  intros Hp Hm Hne. pose proof (prime_ge_2 m Hp).
  destruct (rebuild_table m nodes Hp Hm Hne) as (t & Ht & Hlen & Hall & Hct).
  unfold mg_New. rewrite (decide_False (P := m ≤ 0)) by lia. rewrite Ht.
  eexists. split; [done|]. cbn. split_and!; [done|done|done|].
  unfold NextKey; cbn. rewrite decide_False.
  2:{ intros [?| ->]; [done|cbn in Hlen; lia]. }
  pose proof (Z.mod_pos_bound (hash64 key) m ltac:(lia)).
  destruct (lookup_lt_is_Some_2 t (Z.to_nat (hash64 key mod m))) as [v Hv]; [lia|].
  rewrite Hv. pose proof (Forall_lookup_1 _ _ _ _ Hall Hv) as Hvb. cbn in Hvb.
  rewrite decide_False by lia.
  destruct (lookup_lt_is_Some_2 nodes (Z.to_nat v)) as [x Hx]; [lia|].
  rewrite Hx. exists x. split; [done|]. by eapply list_elem_of_lookup_2.
Qed.

Lemma maglev_complete_and_balanced_witness :
  ∃ b, mg_New 7 ["a"; "b"; "c"] = Some b ∧ slots (λ v, v = 0) (mg_table b) = 3 ∧
    ∃ x, NextKey b "k" = Some (inr x).
Proof.
  destruct (maglev_complete_and_balanced 7 ["a"; "b"; "c"] "k") as (b & Hb & _ & _ & Hc & x & Hx & _).
  - apply prime_intro; [lia|]. intros n Hn. apply Zgcd_1_rel_prime.
    assert (n = 1 ∨ n = 2 ∨ n = 3 ∨ n = 4 ∨ n = 5 ∨ n = 6) as Hcases by lia.
    by destruct Hcases as [->|[->|[->|[->|[->| ->]]]]].
  - lia.
  - done.
  - exists b. split_and!; [done|exact (Hc 0%nat ltac:(cbn; lia))|eauto].
Defined.

(** A table of size 1 panics in [rebuild] as soon as there is a backend. *)
Theorem maglev_size_one_panics nodes : nodes ≠ [] → mg_New 1 nodes = None.
Proof.
  intros. unfold mg_New, rebuild, rebuild_with. rewrite (decide_False (P := 1 ≤ 0)) by lia.
  by rewrite decide_False, decide_True.
Qed.

(** A composite table size can make [rebuild] run forever: with 4 slots, the backend "e" has
    skip 2 and only ever probes slots 0 and 2. *)
Lemma probe_even_slots fuel next : probe fuel 4 [0; -1; 0; -1] (0, 2) next = None.
Proof.
  revert next. induction fuel as [|fuel IH]; intros next; cbn [probe]; [done|].
  assert (preference 4 (0, 2) next = 0 ∨ preference 4 (0, 2) next = 2) as [-> | ->];
    [|apply IH|apply IH].
  unfold preference, u64; cbn [fst snd]. 
  set (r := next mod 2 ^ 64). 
  pose proof (Z.div_mod (r * 2) (2 ^ 64) ltac:(lia)). pose proof (Z.mod_pos_bound (r * 2) (2 ^ 64)).
  rewrite Z.add_0_l, (Z.mod_small ((r * 2) mod 2 ^ 64)) by lia.
  pose proof (Z.div_mod ((r * 2) mod 2 ^ 64) 4). pose proof (Z.mod_pos_bound ((r * 2) mod 2 ^ 64) 4).
  lia.
Qed.

Theorem maglev_composite_never_ends fuel pfuel : rebuild_with fuel pfuel 4 ["e"] = None.
Proof.
  unfold rebuild_with. rewrite !decide_False by done.
  replace (rows 4 ["e"]) with [(0, 2)] by (vm_compute; done).
  destruct pfuel as [|pf]; [by destruct fuel|]. destruct fuel as [|[|[|fuel]]]; [done..|].
  change (table <$> fill (S fuel) (S pf) 4 [(0, 2)]
    {| table := [0; -1; 0; -1]; next := [2]; filled := 2 |} = None).
  cbn [fill fill_pass filled next table]. rewrite !decide_True by lia.
  change ([2] !! 0%nat) with (Some 2). cbn beta iota. by rewrite (probe_even_slots (S pf)).
Qed.
