(* ===== verification/Affinity.v ===== *)
(** * pkg/algorithms/loadbalancing: random, power of two choices, sticky sessions

    What [math/rand] draws is an argument of the operation that uses it, between 0 and its
    bound.  [None] is an index out of range. *)

From S2P Require Import Prelude Errors LoadBalancing.
From stdpp Require Import options.
Open Scope Z_scope.

(** ** Random *)

Module Random.

(* src: pkg/algorithms/loadbalancing/random/random.go 25-36 Next *)
Definition rnd_Next (draw : Z) (nodes : list string) : option (error + string) :=
  if decide (nodes = []) then Some (inl ErrNoNodes) else inr <$> nodes !! Z.to_nat draw.

(* src: pkg/algorithms/loadbalancing/random/random.go 38-43 Add *)
Definition rnd_Add (node : string) (nodes : list string) : list string := nodes ++ [node].

(* src: pkg/algorithms/loadbalancing/random/random.go 45-55 Remove *)
Definition rnd_Remove (node : string) (nodes : list string) : list string :=
  remove_first (λ x, x = node) nodes.
End Random.

(** ** Power of two choices *)

Module P2c.

(* src: pkg/algorithms/loadbalancing/p2c/p2c.go 15-21 Balancer *)
Record PBalancer := { conns : gmap string Z; plist : list string }.

(* src: pkg/algorithms/loadbalancing/p2c/p2c.go 100-110 Add *)
Definition p_Add (node : string) (b : PBalancer) : PBalancer :=
  match conns b !! node with
  | Some _ => b
  | None => {| conns := <[node := 0]> (conns b); plist := plist b ++ [node] |}
  end.

(* src: pkg/algorithms/loadbalancing/p2c/p2c.go 23-40 New *)
Definition p_New (nodes : list string) : PBalancer :=
  foldl (λ b n, match conns b !! n with
                | Some _ => b
                | None => {| conns := <[n := 0]> (conns b); plist := plist b ++ [n] |}
                end) {| conns := ∅; plist := [] |} nodes.

(* src: pkg/algorithms/loadbalancing/p2c/p2c.go 93-98 Load *)
Definition Load (b : PBalancer) (node : string) : Z := default 0 (conns b !! node).

(** The draws of [Intn(n)] and [Intn(n-1)]. *)
(* src: pkg/algorithms/loadbalancing/p2c/p2c.go 51-73 Next *)
Definition p_Next (i j : Z) (b : PBalancer) : option (error + string) :=
  match plist b with
  | [] => Some (inl ErrNoNodes)
  | [x] => Some (inr x)
  | _ =>
      let j := if decide (i ≤ j) then j + 1 else j in
      match plist b !! Z.to_nat i, plist b !! Z.to_nat j with
      | Some a, Some c => if decide (Load b a ≤ Load b c) then Some (inr a) else Some (inr c)
      | _, _ => None
      end
  end.

(* src: pkg/algorithms/loadbalancing/p2c/p2c.go 75-82 Inc *)
Definition p_Inc (node : string) (b : PBalancer) : PBalancer :=
  match conns b !! node with
  | Some c => {| conns := <[node := i64 (c + 1)]> (conns b); plist := plist b |}
  | None => b
  end.

(* src: pkg/algorithms/loadbalancing/p2c/p2c.go 84-91 Dec *)
Definition p_Dec (node : string) (b : PBalancer) : PBalancer :=
  match conns b !! node with
  | Some c =>
      if decide (0 < c) then {| conns := <[node := i64 (c - 1)]> (conns b); plist := plist b |} else b
  | None => b
  end.

(* src: pkg/algorithms/loadbalancing/p2c/p2c.go 112-126 Remove *)
Definition p_Remove (node : string) (b : PBalancer) : PBalancer :=
  match conns b !! node with
  | None => b
  | Some _ => {| conns := delete node (conns b); plist := remove_first (λ x, x = node) (plist b) |}
  end.

(** The list holds the keys of the map, each once. *)
Definition p_wf (b : PBalancer) : Prop :=
  NoDup (plist b) ∧ ∀ x, x ∈ plist b ↔ is_Some (conns b !! x).

Lemma p_wf_Add node b : p_wf b → p_wf (p_Add node b).
Proof.
  intros [Hnd Hd]. unfold p_Add. destruct (conns b !! node) eqn:Hn; [done|]. split; cbn.
  - apply NoDup_app. split_and!; [done| |apply NoDup_singleton].
    intros x Hx ->%list_elem_of_singleton. apply Hd in Hx as [? ?]. congruence.
  - intros x. rewrite elem_of_app, list_elem_of_singleton, Hd.
    destruct (decide (x = node)) as [->|Hne].
    + rewrite lookup_insert_eq. naive_solver.
    + rewrite lookup_insert_ne by done. naive_solver.
Qed.

Lemma p_wf_New nodes : p_wf (p_New nodes).
Proof.
  unfold p_New. assert (p_wf {| conns := ∅; plist := [] |}) as Hw.
  { split; cbn; [constructor|]. intros x. rewrite lookup_empty.
    split; [by intros ?%elem_of_nil|by intros [? ?]]. }
  revert Hw. generalize {| conns := ∅; plist := [] |} as b. induction nodes as [|n nodes IH];
    intros b Hw; cbn [foldl]; [done|]. by apply IH, (p_wf_Add n).
Qed.

Lemma p_wf_conns node v b : p_wf b → is_Some (conns b !! node) →
  p_wf {| conns := <[node := v]> (conns b); plist := plist b |}.
Proof.
  intros [Hnd Hd] Hn. split; [done|]. cbn. intros x. rewrite Hd.
  destruct (decide (x = node)) as [->|Hne].
  - rewrite lookup_insert_eq. naive_solver.
  - by rewrite lookup_insert_ne by done.
Qed.

Lemma p_wf_Inc node b : p_wf b → p_wf (p_Inc node b).
Proof. intros Hw. unfold p_Inc. destruct (conns b !! node) eqn:?; [|done]. by apply p_wf_conns. Qed.

Lemma p_wf_Dec node b : p_wf b → p_wf (p_Dec node b).
Proof.
  intros Hw. unfold p_Dec. destruct (conns b !! node) eqn:?; [|done]. case_decide; [|done].
  by apply p_wf_conns.
Qed.

Lemma p_wf_Remove node b : p_wf b → p_wf (p_Remove node b).
Proof.
  intros [Hnd Hd]. unfold p_Remove. destruct (conns b !! node) eqn:Hn; [|done]. split; cbn.
  - by apply remove_first_nodup.
  - intros x. destruct (decide (x = node)) as [->|Hne].
    + rewrite lookup_delete_eq. split; [|by intros [? ?]].
      intros Hin. exfalso. revert Hin. by apply remove_first_absent.
    + rewrite lookup_delete_ne, <- Hd by done. split.
      * apply remove_first_elem_of.
      * by apply remove_first_elem_of_ne.
Qed.

(** Over two distinct nodes, the one with fewer connections: a node that is strictly the
    most loaded is never chosen. *)
Lemma p_Next_spec i j b :
  p_wf b → (2 ≤ length (plist b))%nat →
  0 ≤ i < Z.of_nat (length (plist b)) → 0 ≤ j < Z.of_nat (length (plist b)) - 1 →
  ∃ a c x, a ≠ c ∧ a ∈ plist b ∧ c ∈ plist b ∧ p_Next i j b = Some (inr x) ∧
    (x = a ∨ x = c) ∧ Load b x = Load b a `min` Load b c.
Proof.
  intros [Hnd Hd] Hl Hi Hj. unfold p_Next.
  set (j' := if decide (i ≤ j) then j + 1 else j).
  assert (0 ≤ j' < Z.of_nat (length (plist b)) ∧ j' ≠ i) as [Hj' Hne] by (subst j'; case_decide; lia).
  destruct (lookup_lt_is_Some_2 (plist b) (Z.to_nat i)) as [a Ha]; [lia|].
  destruct (lookup_lt_is_Some_2 (plist b) (Z.to_nat j')) as [c Hc]; [lia|].
  assert (a ≠ c) as Hac.
  { intros ->. pose proof (NoDup_lookup _ _ _ _ Hnd Ha Hc). lia. }
  destruct (plist b) as [|x0 [|x1 l]] eqn:Hp; [cbn in Hl; lia..|]. rewrite Ha, Hc.
  exists a, c, (if decide (Load b a ≤ Load b c) then a else c).
  split_and!; [done|by eapply list_elem_of_lookup_2|by eapply list_elem_of_lookup_2|..];
    destruct (decide (Load b a ≤ Load b c)); auto; lia.
Qed.
End P2c.

(** ** Sticky sessions *)

Module Sticky.
Section Sticky.
Context `{Balancer F}.

(* src: pkg/algorithms/loadbalancing/sticky/sticky.go 38-45 Balancer *)
Record SBalancer :=
  { st_nodes : list string; affinity : gmap string string; rr : Z; fallback : option F }.

(* src: pkg/algorithms/loadbalancing/sticky/sticky.go 47-56 New *)
Definition st_New (fb : option F) (nodes : list string) : SBalancer :=
  {| st_nodes := nodes; affinity := ∅; rr := 0; fallback := fb |}.

(** The session a context carries: a non-empty string. *)
(* src: pkg/algorithms/loadbalancing/sticky/sticky.go 26-36 SessionFromContext *)
Definition SessionFromContext (ctx : option string) : option string :=
  match ctx with
  | Some v => if decide (v = "") then None else Some v
  | None => None
  end.

(** The answer of the fallback is not reachable: the first test returns for an empty list. *)
(* src: pkg/algorithms/loadbalancing/sticky/sticky.go 95-119 placeNewLocked *)
Definition placeNewLocked (b : SBalancer) : option ((error + string) * SBalancer) :=
  let n := Z.of_nat (length (st_nodes b)) in
  if decide (n = 0) then Some (inl ErrNoNodes, b)
  else
    match fallback b, decide (n = 0) with
    | Some fb, left _ =>
        match Next fb with
        | Some (r, fb') =>
            Some (r, {| st_nodes := st_nodes b; affinity := affinity b; rr := rr b; fallback := Some fb' |})
        | None => None
        end
    | _, _ =>
        let k := Z.rem (rr b) n in
        if decide (k < 0) then None
        else
          match st_nodes b !! Z.to_nat k with
          | Some node =>
              Some (inr node, {| st_nodes := st_nodes b; affinity := affinity b; rr := i64 (rr b + 1);
                                 fallback := fallback b |})
          | None => None
          end
    end.

(* src: pkg/algorithms/loadbalancing/sticky/sticky.go 121-128 hasNodeLocked *)
Definition hasNodeLocked (b : SBalancer) (node : string) : bool := bool_decide (node ∈ st_nodes b).

Definition set_affinity (a : gmap string string) (b : SBalancer) : SBalancer :=
  {| st_nodes := st_nodes b; affinity := a; rr := rr b; fallback := fallback b |}.

(* src: pkg/algorithms/loadbalancing/sticky/sticky.go 69-93 NextKey *)
Definition st_NextKey (session : string) (b : SBalancer) : option ((error + string) * SBalancer) :=
  if decide (session = "") then placeNewLocked b
  else
    let place (b : SBalancer) :=
      match placeNewLocked b with
      | Some (inl e, b') => Some (inl e, b')
      | Some (inr node, b') => Some (inr node, set_affinity (<[session := node]> (affinity b')) b')
      | None => None
      end in
    match affinity b !! session with
    | Some node =>
        if hasNodeLocked b node then Some (inr node, b)
        else place (set_affinity (delete session (affinity b)) b)
    | None => place b
    end.

(* src: pkg/algorithms/loadbalancing/sticky/sticky.go 60-67 Next *)
Definition st_Next (ctx : option string) (b : SBalancer) : option ((error + string) * SBalancer) :=
  match SessionFromContext ctx with
  | Some session => st_NextKey session b
  | None => placeNewLocked b
  end.

(* src: pkg/algorithms/loadbalancing/sticky/sticky.go 130-142 Add *)
Definition st_Add (node : string) (w : Z) (b : SBalancer) : SBalancer :=
  if hasNodeLocked b node then b
  else {| st_nodes := st_nodes b ++ [node]; affinity := affinity b; rr := rr b;
          fallback := Add node w <$> fallback b |}.

(* src: pkg/algorithms/loadbalancing/sticky/sticky.go 144-162 Remove *)
Definition st_Remove (node : string) (b : SBalancer) : SBalancer :=
  {| st_nodes := remove_first (λ x, x = node) (st_nodes b);
     affinity := filter (λ p, p.2 ≠ node) (affinity b); rr := rr b;
     fallback := Remove node <$> fallback b |}.

(* src: pkg/algorithms/loadbalancing/sticky/sticky.go 164-169 AffinitySize *)
Definition AffinitySize (b : SBalancer) : Z := Z.of_nat (size (affinity b)).

(** *** A session stays where it is until its node is removed *)

Inductive sticky_op := ONext (ctx : option string) | OAdd (node : string) (w : Z) | ORemove (node : string).

(** One operation; the answer of [Next] is dropped. *)
Definition op_run (b : SBalancer) (o : sticky_op) : option SBalancer :=
  match o with
  | ONext ctx => snd <$> st_Next ctx b
  | OAdd node w => Some (st_Add node w b)
  | ORemove node => Some (st_Remove node b)
  end.

Fixpoint ops_run (b : SBalancer) (os : list sticky_op) : option SBalancer :=
  match os with [] => Some b | o :: os => match op_run b o with Some b' => ops_run b' os | None => None end end.

Lemma placeNewLocked_spec b :
  0 ≤ rr b →
  ∃ r b', placeNewLocked b = Some (r, b') ∧ st_nodes b' = st_nodes b ∧ affinity b' = affinity b ∧
    (b' = b ∧ r = inl ErrNoNodes ∧ st_nodes b = [] ∨
     ∃ x, r = inr x ∧ x ∈ st_nodes b ∧ rr b' = i64 (rr b + 1)).
Proof.
  intros Hrr. unfold placeNewLocked.
  destruct (decide (Z.of_nat (length (st_nodes b)) = 0)) as [Hz|Hz].
  { eexists _, _. split_and!; [done..|]. left. split_and!; [done..|]. by destruct (st_nodes b). }
  pose proof (Z.rem_bound_pos (rr b) (Z.of_nat (length (st_nodes b))) Hrr ltac:(lia)) as Hk.
  destruct (lookup_lt_is_Some_2 (st_nodes b) (Z.to_nat (Z.rem (rr b) (Z.of_nat (length (st_nodes b))))))
    as [x Hx]; [lia|].
  rewrite decide_False, Hx by lia.
  destruct (fallback b); eexists _, _;
    (split_and!; [done..|]; right; exists x; split_and!; [done|by eapply list_elem_of_lookup_2|done]).
Qed.

(** [Next] of any context keeps an assignment to a present node. *)
Lemma st_Next_keeps ctx b s x :
  0 ≤ rr b → affinity b !! s = Some x → x ∈ st_nodes b →
  ∃ r b', st_Next ctx b = Some (r, b') ∧ affinity b' !! s = Some x ∧ st_nodes b' = st_nodes b ∧
    (rr b' = rr b ∨ rr b' = i64 (rr b + 1)).
Proof.
  intros Hrr Ha Hx.
  assert (∃ r b', placeNewLocked b = Some (r, b') ∧ affinity b' !! s = Some x ∧ st_nodes b' = st_nodes b ∧
    (rr b' = rr b ∨ rr b' = i64 (rr b + 1))) as Hplain.
  { destruct (placeNewLocked_spec b Hrr) as (r & b' & -> & Hn & Haf & Hc).
    exists r, b'. rewrite Haf. split_and!; [done..|]. destruct Hc as [(-> & _)|(? & _ & _ & ?)]; auto. }
  unfold st_Next. destruct (SessionFromContext ctx) as [t|]; [|done]. unfold st_NextKey.
  destruct (decide (t = "")); [done|].
  destruct (decide (t = s)) as [->|Hts].
  { rewrite Ha. unfold hasNodeLocked. rewrite bool_decide_true by done. eauto 10. }
  assert (∀ a, a !! s = Some x → ∃ r b',
    match placeNewLocked (set_affinity a b) with
    | Some (inl e, b') => Some (inl e, b')
    | Some (inr node, b') => Some (inr node, set_affinity (<[t := node]> (affinity b')) b')
    | None => None
    end = Some (r, b') ∧ affinity b' !! s = Some x ∧ st_nodes b' = st_nodes b ∧
    (rr b' = rr b ∨ rr b' = i64 (rr b + 1))) as Hplace.
  { intros a Has. destruct (placeNewLocked_spec (set_affinity a b) Hrr) as (r & b' & -> & Hn & Haf & Hc).
    cbn in Hn, Haf. destruct Hc as [(-> & -> & _)|(y & -> & _ & Hrr')].
    - eexists _, _. split_and!; [done..|by left].
    - eexists _, _. split_and!; [done| |done|by right]. cbn. rewrite lookup_insert_ne, Haf; done. }
  destruct (affinity b !! t) as [y|] eqn:Hy.
  - destruct (hasNodeLocked b y); [eauto 10|]. apply Hplace. by rewrite lookup_delete_ne.
  - destruct (Hplace (affinity b) Ha) as (r & b' & Hr & ?). exists r, b'. split; [|done].
    rewrite <- Hr. by destruct b.
Qed.
(** The assignment of [s] to [x] holds, and the cursor is at most [k]. *)
Definition assigned (s x : string) (k : Z) (b : SBalancer) : Prop :=
  affinity b !! s = Some x ∧ x ∈ st_nodes b ∧ 0 ≤ rr b ≤ k.

Lemma op_run_assigned s x k b o :
  assigned s x k b → o ≠ ORemove x → k < 2 ^ 63 - 1 →
  ∃ b', op_run b o = Some b' ∧ assigned s x (k + 1) b'.
Proof.
  intros (Ha & Hx & Hk) Hne Hbound. destruct o as [ctx|node w|node]; cbn [op_run].
  - destruct (st_Next_keeps ctx b s x ltac:(lia) Ha Hx) as (r & b' & -> & Ha' & Hn & Hrr).
    exists b'. split; [done|]. split_and!; [done|by rewrite Hn|..];
      destruct Hrr as [-> | ->]; rewrite ?i64_id by (unfold is_i64; lia); lia.
  - eexists. split; [done|]. unfold st_Add. destruct (hasNodeLocked b node).
    + split_and!; [done|done|lia|lia].
    + split_and!; [done|apply elem_of_app; by left|cbn; lia|cbn; lia].
  - assert (x ≠ node) by congruence. eexists. split; [done|]. split_and!; cbn; [| |lia|lia].
    + by apply map_lookup_filter_Some.
    + by apply remove_first_elem_of_ne.
Qed.

Lemma ops_run_assigned s x k b os :
  assigned s x k b → ORemove x ∉ os → k + Z.of_nat (length os) < 2 ^ 63 →
  ∃ b', ops_run b os = Some b' ∧ assigned s x (k + Z.of_nat (length os)) b'.
Proof.
  revert k b. induction os as [|o os IH]; intros k b Has Hnot Hk; cbn [ops_run length].
  { exists b. by rewrite Z.add_0_r. }
  apply not_elem_of_cons in Hnot as [Ho Hnot]. cbn [length] in Hk.
  destruct (op_run_assigned s x k b o) as (b1 & -> & Hb1); [done|done|lia|].
  destruct (IH (k + 1) b1) as (b2 & -> & Hb2); [done|done|lia|]. exists b2. split; [done|].
  by replace (k + Z.of_nat (S (length os))) with (k + 1 + Z.of_nat (length os)) by lia.
Qed.

Lemma st_NextKey_assigned s x k b :
  s ≠ "" → assigned s x k b → st_NextKey s b = Some (inr x, b).
Proof.
  intros Hs (Ha & Hx & _). unfold st_NextKey, hasNodeLocked.
  rewrite decide_False, Ha, bool_decide_true; done.
Qed.

Lemma st_NextKey_assigns s x b b' :
  s ≠ "" → 0 ≤ rr b < 2 ^ 63 - 1 → st_NextKey s b = Some (inr x, b') → assigned s x (rr b + 1) b'.
Proof.
  intros Hs Hrr. unfold st_NextKey. rewrite decide_False by done.
  assert (∀ a, match placeNewLocked (set_affinity a b) with
    | Some (inl e, b') => Some (inl e, b')
    | Some (inr node, b') => Some (inr node, set_affinity (<[s := node]> (affinity b')) b')
    | None => None
    end = Some (inr x, b') → assigned s x (rr b + 1) b') as Hplace.
  { intros a. destruct (placeNewLocked_spec (set_affinity a b)) as (r & b1 & -> & Hn & _ & Hc); [cbn; lia|].
    destruct Hc as [(_ & -> & _)|(y & -> & Hy & Hr)]; [done|]. intros [= -> <-].
    cbn in Hy, Hr. rewrite i64_id in Hr by (unfold is_i64; lia).
    split_and!; cbn; [apply lookup_insert_eq|by rewrite Hn|lia|lia]. }
  destruct (affinity b !! s) as [y|] eqn:Hy.
  - destruct (hasNodeLocked b y) eqn:Hh; [|apply Hplace]. intros [= -> <-].
    apply bool_decide_eq_true in Hh. split_and!; [done|done|lia|lia].
  - intros Hp. apply (Hplace (affinity b)). rewrite <- Hp. by destruct b.
Qed.

(** A session is sticky: once [NextKey] has answered node [x] for a session, any later
    sequence of calls (for this or other sessions, anonymous ones, additions, removals of
    other nodes, with any fallback balancer) runs without a panic, and the session is
    answered [x] again, until [x] itself is removed. *)
Theorem sticky_session_stays b b1 s x os :
  s ≠ "" → st_NextKey s b = Some (inr x, b1) → ORemove x ∉ os →
  0 ≤ rr b → rr b + 1 + Z.of_nat (length os) < 2 ^ 63 - 1 →
  ∃ b2, ops_run b1 os = Some b2 ∧ st_NextKey s b2 = Some (inr x, b2).
Proof.
  intros Hs Hb1 Hnot Hrr Hlen. apply st_NextKey_assigns in Hb1; [|done|lia].
  destruct (ops_run_assigned s x (rr b + 1) b1 os Hb1 Hnot) as (b2 & Hrun & Hb2); [lia|].
  exists b2. split; [done|]. by eapply st_NextKey_assigned.
Qed.
End Sticky.
Arguments SBalancer : clear implicits.

Lemma sticky_session_stays_witness :
  let b := st_New (F := RoundRobin.RRBalancer) None ["n1"; "n2"] in
  let b1 : SBalancer RoundRobin.RRBalancer :=
    {| st_nodes := ["n1"; "n2"]; affinity := {["alice" := "n1"]}; rr := 1; fallback := None |} in
  ∃ b2, ops_run b1 [ONext None; OAdd "n3" 1; ORemove "n2"; ONext (Some "bob")] = Some b2 ∧
    st_NextKey "alice" b2 = Some (inr "n1", b2).
Proof.
  intros b b1. apply (sticky_session_stays b b1); [done|reflexivity| |done|cbn; lia].
  rewrite !elem_of_cons, elem_of_nil. naive_solver.
Defined.

(** The fallback is never asked: [placeNewLocked] returns before its test when the list of
    nodes is empty, and the test itself requires an empty list. *)
Theorem sticky_fallback_unused `{Balancer F} (fb : F) b :
  fallback b = Some fb →
  placeNewLocked b = match placeNewLocked {| st_nodes := st_nodes b; affinity := affinity b; rr := rr b;
                                             fallback := None |} with
    | Some (r, b') => Some (r, {| st_nodes := st_nodes b'; affinity := affinity b'; rr := rr b';
                                  fallback := Some fb |})
    | None => None
    end.
Proof.
  intros Hfb. destruct b as [l a k f]. cbn in Hfb. subst f. unfold placeNewLocked; cbn.
  repeat case_match; by simplify_eq.
Qed.
End Sticky.
