(* ===== verification/RateLimit.v ===== *)
(** * pkg/algorithms/ratelimit: the process-local limiters

    The sliding window ([SlidingLocal]), the leaky bucket ([LeakyBucket]), the in-memory
    token buckets ([TokenBucket]), the traffic shaper ([Shaper]) and the hierarchy of buckets
    ([Htb]).  A point in time is a number of nanoseconds, and every
    reading of the clock is an argument of the operation.  The limiters over a shared cache
    are not modelled here. *)

From S2P Require Import Prelude Errors Float64 FloatRound GoTime.
From stdpp Require Import options.
Open Scope Z_scope.

(* src: pkg/algorithms/ratelimit/ratelimit.go 8-13 Result *)
Record Result := { Allowed : bool; Remaining : Z; Reset : Z }.

(** ** Sliding window *)

Module SlidingLocal.

(* src: pkg/algorithms/ratelimit/slidingwindow/local.go 10-16 Local *)
Record Local := { requests : list Z; limit : Z; window : Z }.

(* src: pkg/algorithms/ratelimit/slidingwindow/local.go 18-26 NewLocal *)
Definition NewLocal (l w : Z) : Local := {| requests := []; limit := l; window := w |}.

(* src: pkg/algorithms/ratelimit/slidingwindow/local.go 28-37 cleanup *)
Definition cleanup (now : Z) (sw : Local) : Local :=
  {| requests := filter (λ t, now - window sw < t) (requests sw);
     limit := limit sw; window := window sw |}.

(** [now1] is the clock of [cleanup], [now2] the clock of the admission. *)
(* src: pkg/algorithms/ratelimit/slidingwindow/local.go 44-58 AllowN *)
Definition AllowN (now1 now2 n : Z) (sw : Local) : bool * Local :=
  let sw := cleanup now1 sw in
  if decide (i64 (Z.of_nat (length (requests sw)) + n) ≤ limit sw) then
    (true, {| requests := requests sw ++ replicate (Z.to_nat n) now2; limit := limit sw; window := window sw |})
  else (false, sw).

(* src: pkg/algorithms/ratelimit/slidingwindow/local.go 39-42 Allow *)
Definition Allow (now1 now2 : Z) (sw : Local) : bool * Local := AllowN now1 now2 1 sw.

(** The inner option is a panic: with a limit of 0 or less there is no oldest request. *)
(* src: pkg/algorithms/ratelimit/slidingwindow/local.go 74-84 Reserve *)
Definition Reserve (now1 now2 : Z) (sw : Local) : option Z * Local :=
  let sw := cleanup now1 sw in
  if decide (Z.of_nat (length (requests sw)) < limit sw) then (Some 0, sw)
  else ((λ t, time_Sub (t + window sw) now2) <$> head (requests sw), sw).

(* src: pkg/algorithms/ratelimit/slidingwindow/local.go 87-92 Tokens *)
Definition Tokens (now : Z) (sw : Local) : float64 * Local :=
  let sw := cleanup now sw in (of_i64 (limit sw - Z.of_nat (length (requests sw))), sw).

(** A call: its two clock readings and the number of requests. *)
Record call := { at1 : Z; at2 : Z; cost : Z }.

(** The requests admitted by a sequence of calls, with their times. *)
Fixpoint admitted (cs : list call) (sw : Local) : list Z :=
  match cs with
  | [] => []
  | c :: cs =>
      let '(ok, sw') := AllowN (at1 c) (at2 c) (cost c) sw in
      (if ok : bool then replicate (Z.to_nat (cost c)) (at2 c) else []) ++ admitted cs sw'
  end.

(** The clock does not run backwards, and the costs are not absurd. *)
Fixpoint monotone (now : Z) (cs : list call) : Prop :=
  match cs with
  | [] => True
  | c :: cs => now ≤ at1 c ≤ at2 c ∧ - 2 ^ 63 ≤ cost c < 2 ^ 62 ∧ monotone (at2 c) cs
  end.

(** How many of the times lie in the window [(t, t + w]]. *)
Definition in_window (t w : Z) (h : list Z) : Z :=
  Z.of_nat (length (filter (λ x, t < x ≤ t + w) h)).

Lemma in_window_app t w h h' : in_window t w (h ++ h') = in_window t w h + in_window t w h'.
Proof. unfold in_window. rewrite filter_app, length_app. lia. Qed.

Lemma in_window_replicate t w n x :
  in_window t w (replicate n x) = if decide (t < x ≤ t + w) then Z.of_nat n else 0.
Proof.
  unfold in_window. induction n as [|n IH]; cbn [replicate]; [by case_decide|].
  rewrite filter_cons. case_decide; cbn [length]; [|done]. lia.
Qed.

Lemma length_filter_mono {A} (P Q : A → Prop) `{∀ x, Decision (P x)} `{∀ x, Decision (Q x)} l :
  (∀ x, x ∈ l → P x → Q x) → (length (filter P l) ≤ length (filter Q l))%nat.
Proof.
  intros HPQ. induction l as [|x l IH]; [done|]. rewrite !filter_cons.
  assert (length (filter P l) ≤ length (filter Q l))%nat by (apply IH; intros; apply HPQ; [by right|done]).
  destruct (decide (P x)) as [HP|]; [rewrite decide_True by (apply HPQ; [left|done]); cbn; lia|].
  case_decide; cbn; lia.
Qed.

Lemma filter_filter_le (a b : Z) (l : list Z) :
  a ≤ b → filter (λ t, b < t) (filter (λ t, a < t) l) = filter (λ t, b < t) l.
Proof. intros. rewrite list_filter_filter. apply list_filter_iff. intros x. lia. Qed.

Lemma filter_replicate_true {A} (P : A → Prop) `{∀ x, Decision (P x)} n x :
  P x → filter P (replicate n x) = replicate n x.
Proof.
  intros Hx. induction n as [|n IH]; [done|]. cbn [replicate].
  by rewrite filter_cons_True, IH.
Qed.

(** The state after a history [h] whose last call read the clock [now]: the requests kept
    are those of the history after some threshold that is in the past, and no window of the
    history holds more than the limit. *)
Record sw_inv (h : list Z) (now : Z) (sw : Local) : Prop := {
  sw_kept : ∃ a, a ≤ now - window sw ∧ requests sw = filter (λ t, a < t) h;
  sw_past : Forall (λ t, t ≤ now) h;
  sw_limit : ∀ t, in_window t (window sw) h ≤ limit sw }.

Lemma cleanup_kept h now now1 sw :
  now ≤ now1 → sw_inv h now sw →
  requests (cleanup now1 sw) = filter (λ t, now1 - window sw < t) h ∧
  Z.of_nat (length (requests (cleanup now1 sw))) ≤ limit sw.
Proof.
  intros Hn [(a & Ha & Hreq) Hpast Hlim].
  assert (requests (cleanup now1 sw) = filter (λ t, now1 - window sw < t) h) as He.
  { cbn. rewrite Hreq. apply filter_filter_le. lia. }
  split; [done|]. rewrite He. etrans; [|apply (Hlim (now1 - window sw))]. unfold in_window.
  apply inj_le, length_filter_mono. intros x Hx ?.
  apply (proj1 (Forall_forall _ _) Hpast) in Hx. lia.
Qed.

Lemma AllowN_inv h now c sw :
  0 < window sw → 0 ≤ limit sw < 2 ^ 62 → sw_inv h now sw →
  now ≤ at1 c ≤ at2 c → - 2 ^ 63 ≤ cost c < 2 ^ 62 →
  let '(ok, sw') := AllowN (at1 c) (at2 c) (cost c) sw in
  limit sw' = limit sw ∧ window sw' = window sw ∧
  sw_inv (h ++ if ok : bool then replicate (Z.to_nat (cost c)) (at2 c) else []) (at2 c) sw'.
Proof.
  intros Hw Hl Hinv Hc Hcost. destruct (cleanup_kept h now (at1 c) sw ltac:(lia) Hinv) as [Hk Hlen].
  destruct Hinv as [_ Hpast Hlim]. unfold AllowN. set (sw1 := cleanup (at1 c) sw) in *.
  assert (limit sw1 = limit sw ∧ window sw1 = window sw) as [Hl1 Hw1] by done.
  rewrite Hl1, ?Hw1.
  assert (Forall (λ t, t ≤ at2 c) h) as Hpast' by (eapply Forall_impl; [exact Hpast|]; intros; cbn in *; lia).
  rewrite i64_id by (unfold is_i64; lia).
  destruct (decide (_ ≤ _)) as [Hok|Hok]; (split_and!; [done|done|]).
  - split; cbn [limit window requests].
    + exists (at1 c - window sw). split; [lia|]. rewrite filter_app.
      rewrite Hk. f_equal. symmetry.
      apply filter_replicate_true. lia.
    + apply Forall_app. split; [done|]. apply Forall_replicate. lia.
    + intros t. rewrite in_window_app, in_window_replicate. pose proof (Hlim t).
      case_decide; [|lia].
      rewrite Hk in Hok.
      assert (in_window t (window sw) h ≤ Z.of_nat (length (filter (λ x, at1 c - window sw < x) h))); [|lia].
      unfold in_window. apply inj_le, length_filter_mono. intros. lia.
  - rewrite app_nil_r. split; rewrite ?Hl1, ?Hw1; [|done|done].
    exists (at1 c - window sw). split; [lia|done].
Qed.

Lemma admitted_inv cs h now sw :
  0 < window sw → 0 ≤ limit sw < 2 ^ 62 → sw_inv h now sw → monotone now cs →
  ∀ t, in_window t (window sw) (h ++ admitted cs sw) ≤ limit sw.
Proof.
  revert h now sw. induction cs as [|c cs IH]; intros h now sw Hw Hl Hinv Hm t; cbn [admitted].
  { rewrite app_nil_r. apply Hinv. }
  destruct Hm as (Hc & Hcost & Hm).
  pose proof (AllowN_inv h now c sw Hw Hl Hinv Hc Hcost) as HA.
  destruct (AllowN (at1 c) (at2 c) (cost c) sw) as [ok sw']. destruct HA as (Hl' & Hw' & Hinv').
  rewrite app_assoc, <- Hl', <- Hw'.
  eapply (IH _ (at2 c)); [by rewrite Hw'|by rewrite Hl'|done|done].
Qed.

(** The sliding window limits every window: for any sequence of [AllowN] calls with a
    clock that does not run backwards, any interval of the length of the window contains at
    most [limit] admitted requests. *)
Theorem sliding_window_limit l w now cs t :
  0 < w → 0 ≤ l < 2 ^ 62 → monotone now cs →
  in_window t w (admitted cs (NewLocal l w)) ≤ l.
Proof.
  intros Hw Hl Hm. apply (admitted_inv cs [] now (NewLocal l w) Hw Hl); [|done].
  split; cbn; [|done|].
  - exists (now - w). split; [lia|done].
  - intros t'. unfold in_window; cbn. lia.
Qed.

Lemma sliding_window_limit_witness :
  let cs := [{| at1 := 0; at2 := 1; cost := 2 |}; {| at1 := 5; at2 := 5; cost := 1 |};
             {| at1 := 12; at2 := 12; cost := 1 |}] in
  admitted cs (NewLocal 2 10) = [1; 1; 12] ∧ in_window 2 10 (admitted cs (NewLocal 2 10)) ≤ 2.
Proof.
  intros cs. split; [vm_compute; reflexivity|].
  apply (sliding_window_limit 2 10 0 cs 2); [lia|lia|cbn; lia].
Defined.
End SlidingLocal.

(** ** Leaky bucket *)

Module LeakyBucket.

(* src: pkg/algorithms/ratelimit/leakybucket/leakybucket.go 19-23 state *)
Record state := { queue : Z; lastLeak : Z }.

Section LeakyBucket.
Context (oor : float64 → Z).

(* src: pkg/algorithms/ratelimit/leakybucket/leakybucket.go 46-46 Allow *)
Definition leakRate (limit period : Z) : float64 := fdiv (of_i64 limit) (Seconds period).

(* src: pkg/algorithms/ratelimit/leakybucket/leakybucket.go 48-49 Allow *)
Definition leaked (limit period elapsed : Z) : Z :=
  to_i64 oor (fmul (Seconds elapsed) (leakRate limit period)).

(** The bucket of a key, after it was found or created. *)
(* src: pkg/algorithms/ratelimit/leakybucket/leakybucket.go 45-70 Allow *)
Definition allow (now limit period : Z) (s : state) : Result * state :=
  let q := i64 (queue s - leaked limit period (time_Sub now (lastLeak s))) in
  let q := if decide (q < 0) then 0 else q in
  let reset := i64 (to_i64 oor (fdiv (of_i64 1) (leakRate limit period)) * 10 ^ 9) in
  if decide (q < limit) then
    let q := i64 (q + 1) in
    ({| Allowed := true; Remaining := i64 (limit - q); Reset := reset |}, {| queue := q; lastLeak := now |})
  else ({| Allowed := false; Remaining := 0; Reset := reset |}, {| queue := q; lastLeak := now |}).

(** [t0] is the clock when the bucket is created. *)
(* src: pkg/algorithms/ratelimit/leakybucket/leakybucket.go 30-71 Allow *)
Definition lb_Allow (t0 now : Z) (key : string) (limit period : Z) (m : gmap string state)
    : Result * gmap string state :=
  let stateKey := "lb:" +:+ key in
  let s := default {| queue := 0; lastLeak := t0 |} (m !! stateKey) in
  let '(r, s') := allow now limit period s in (r, <[stateKey := s']> m).

(** The number of allowed calls at the times [ts]. *)
Fixpoint allowed_at (limit period : Z) (ts : list Z) (s : state) : Z :=
  match ts with
  | [] => 0
  | t :: ts =>
      let '(r, s') := allow t limit period s in
      (if Allowed r then 1 else 0) + allowed_at limit period ts s'
  end.

(** Each call comes so soon after the one before that less than one request leaks. *)
Fixpoint short_gaps (limit period last : Z) (ts : list Z) : Prop :=
  match ts with
  | [] => True
  | t :: ts => leaked limit period (time_Sub t last) = 0 ∧ short_gaps limit period t ts
  end.

Lemma allow_short now limit period s :
  0 ≤ queue s ≤ limit → is_i64 limit → leaked limit period (time_Sub now (lastLeak s)) = 0 →
  let '(r, s') := allow now limit period s in
  Allowed r = bool_decide (queue s < limit) ∧ lastLeak s' = now ∧
  queue s' = queue s + (if Allowed r then 1 else 0).
Proof.
  intros Hq Hl Hz. unfold allow. rewrite Hz, Z.sub_0_r. unfold is_i64 in Hl.
  rewrite (i64_id (queue s)) by (unfold is_i64; lia). rewrite (decide_False (P := queue s < 0)) by lia.
  destruct (decide (queue s < limit)) as [Hlt|Hge]; cbn.
  - rewrite bool_decide_true, i64_id by (done || unfold is_i64; lia). done.
  - rewrite bool_decide_false by done. split_and!; [done|done|lia].
Qed.

(** The leaky bucket can starve a client: every call resets the clock of the leak, and
    the leak since the last call is truncated to whole requests, so that a client whose
    calls come faster than one leak period is admitted at most [limit] times in total,
    however long it goes on (and, from an empty bucket, exactly the first [limit] calls). *)
Theorem leaky_bucket_starves limit period ts s :
  0 ≤ queue s ≤ limit → is_i64 limit → short_gaps limit period (lastLeak s) ts →
  allowed_at limit period ts s = Z.min (Z.of_nat (length ts)) (limit - queue s).
Proof.
  revert s. induction ts as [|t ts IH]; intros s Hq Hl Hg; cbn [allowed_at length].
  { lia. }
  destruct Hg as [Hz Hg]. pose proof (allow_short t limit period s Hq Hl Hz) as HA.
  destruct (allow t limit period s) as [r s']. destruct HA as (Hr & Hlast & Hq').
  rewrite Hr in Hq' |- *. rewrite <- Hlast in Hg.
  destruct (decide (queue s < limit)) as [Hlt|Hge];
    [rewrite bool_decide_true in * by done|rewrite bool_decide_false in * by done];
    rewrite (IH s') by (done || lia); lia.
Qed.
End LeakyBucket.

(** Ten requests per second, polled every 50 ms: 40 calls in 2 s admit 10. *)
Lemma leaky_bucket_starves_witness :
  allowed_at (λ _, 0) 10 (10 ^ 9) ((λ k, Z.of_nat k * (5 * 10 ^ 7)) <$> seq 1 40)
    {| queue := 0; lastLeak := 0 |} = 10.
Proof.
  rewrite (leaky_bucket_starves (λ _, 0) 10 (10 ^ 9)); [vm_compute; reflexivity|cbn; lia|compute_decide|].
  cbn [seq fmap list_fmap short_gaps lastLeak]. repeat split; vm_compute; reflexivity.
Defined.
End LeakyBucket.

(** ** Token buckets in memory *)

Module TokenBucket.

Section TokenBucket.
Context (oor : float64 → Z).

(** [t + elapsed * rate], at most the capacity. *)
(* src: pkg/algorithms/ratelimit/tokenbucket/local.go 31-39 refill *)
Definition refilled (rate capacity tokens : float64) (elapsed : Z) : float64 :=
  let t := fadd tokens (fmul (Seconds elapsed) rate) in
  if flt capacity t then capacity else t.

(* src: pkg/algorithms/ratelimit/tokenbucket/local.go 10-18 Local *)
Record TokenLocal := { tokens : float64; capacity : float64; rate : float64; lastUpdate : Z }.

(* src: pkg/algorithms/ratelimit/tokenbucket/local.go 20-29 NewLocal *)
Definition tb_NewLocal (now cap : Z) (r : float64) : TokenLocal :=
  {| tokens := of_i64 cap; capacity := of_i64 cap; rate := r; lastUpdate := now |}.

(* src: pkg/algorithms/ratelimit/tokenbucket/local.go 31-39 refill *)
Definition refill (now : Z) (tb : TokenLocal) : TokenLocal :=
  {| tokens := refilled (rate tb) (capacity tb) (tokens tb) (time_Sub now (lastUpdate tb));
     capacity := capacity tb; rate := rate tb; lastUpdate := now |}.

(* src: pkg/algorithms/ratelimit/tokenbucket/local.go 46-57 AllowN *)
Definition tb_AllowN (now n : Z) (tb : TokenLocal) : bool * TokenLocal :=
  let tb := refill now tb in
  if fge (tokens tb) (of_i64 n) then
    (true, {| tokens := fsub (tokens tb) (of_i64 n); capacity := capacity tb; rate := rate tb;
              lastUpdate := lastUpdate tb |})
  else (false, tb).

(* src: pkg/algorithms/ratelimit/tokenbucket/local.go 41-44 Allow *)
Definition tb_Allow (now : Z) (tb : TokenLocal) : bool * TokenLocal := tb_AllowN now 1 tb.

(* src: pkg/algorithms/ratelimit/tokenbucket/local.go 77-91 Reserve *)
Definition tb_Reserve (now : Z) (tb : TokenLocal) : Z * TokenLocal :=
  let tb := refill now tb in
  if fge (tokens tb) (of_i64 1) then (0, tb)
  else if fge (of_i64 0) (rate tb) then (3600 * 10 ^ 9, tb)
  else
    let needed := fsub (of_i64 1) (tokens tb) in
    (i64 (to_i64 oor (fmul (fdiv needed (rate tb)) (of_i64 1000)) * 10 ^ 6), tb).

(* src: pkg/algorithms/ratelimit/tokenbucket/local.go 93-99 Tokens *)
Definition tb_Tokens (now : Z) (tb : TokenLocal) : float64 * TokenLocal :=
  let tb := refill now tb in (tokens tb, tb).

(** The bucket never holds more than its capacity after a refill. *)
Lemma refill_capped now tb : flt (capacity tb) (tokens (refill now tb)) = false.
Proof.
  cbn. unfold refilled. set (t := fadd _ _). destruct (flt (capacity tb) t) eqn:E; [|done].
  apply flt_irrefl.
Qed.

(** *** The keyed limiter *)

(* src: pkg/algorithms/ratelimit/tokenbucket/tokenbucket.go 108-115 InMemoryLimiter *)
Record InMemoryLimiter :=
  { im_rate : float64; burst : Z; im_tokens : gmap string float64; im_last : gmap string Z }.

(* src: pkg/algorithms/ratelimit/tokenbucket/tokenbucket.go 117-126 NewInMemory *)
Definition NewInMemory (r : float64) (b : Z) : InMemoryLimiter :=
  {| im_rate := r; burst := b; im_tokens := ∅; im_last := ∅ |}.

(** The zero time of a missing [lastUpdate] entry is never read: a key gets its tokens only
    after its [lastUpdate]. *)
(* src: pkg/algorithms/ratelimit/tokenbucket/tokenbucket.go 128-153 Allow *)
Definition im_Allow (now : Z) (key : string) (l : InMemoryLimiter) : Result * InMemoryLimiter :=
  let t :=
    match im_tokens l !! key with
    | None => of_i64 (burst l)
    | Some t => refilled (im_rate l) (of_i64 (burst l)) t (time_Sub now (default 0 (im_last l !! key)))
    end in
  let last := <[key := now]> (im_last l) in
  if fge t (of_i64 1) then
    ({| Allowed := true; Remaining := to_i64 oor (fsub t (of_i64 1)); Reset := 0 |},
     {| im_rate := im_rate l; burst := burst l;
        im_tokens := <[key := fsub t (of_i64 1)]> (im_tokens l); im_last := last |})
  else
    ({| Allowed := false; Remaining := 0; Reset := 0 |},
     {| im_rate := im_rate l; burst := burst l; im_tokens := im_tokens l; im_last := last |}).

Fixpoint im_allowed (key : string) (ts : list Z) (l : InMemoryLimiter) : list bool :=
  match ts with
  | [] => []
  | t :: ts => let '(r, l') := im_Allow t key l in Allowed r :: im_allowed key ts l'
  end.

(** No gap between two calls is long enough to earn what is missing to a whole token. *)
Fixpoint short_refills (r : float64) (b : Z) (τ : float64) (last : Z) (ts : list Z) : Prop :=
  match ts with
  | [] => True
  | t :: ts =>
      fge (refilled r (of_i64 b) τ (time_Sub t last)) (of_i64 1) = false ∧ short_refills r b τ t ts
  end.

(** A refused call stores the time but not the tokens earned since the last one: when no
    single gap earns a whole token, every call is refused, for ever. *)
Theorem token_bucket_starves key ts τ last l :
  im_tokens l !! key = Some τ → im_last l !! key = Some last →
  short_refills (im_rate l) (burst l) τ last ts →
  im_allowed key ts l = replicate (length ts) false.
Proof.
  revert last l. induction ts as [|t ts IH]; intros last l Hτ Hl Hs; [done|].
  destruct Hs as [Ht Hs]. cbn [im_allowed length replicate]. unfold im_Allow.
  rewrite Hτ, Hl. change (default 0 (Some last)) with last. rewrite Ht. cbn [Allowed]. f_equal.
  apply (IH t); cbn; [done|apply lookup_insert_eq|done].
Qed.
End TokenBucket.

(** Ten tokens per second and a burst of one, polled every 50 ms. *)
Example token_bucket_starves_example :
  let calls := (λ k, Z.of_nat k * (5 * 10 ^ 7)) <$> seq 1 20 in
  im_allowed (λ _, 0) "k" calls (NewInMemory (of_i64 10) 1) = true :: replicate 19 false.
Proof. vm_compute. reflexivity. Qed.
End TokenBucket.

(** ** Tokens as numbers

    What the shaper and the hierarchy of buckets share: numbers that are not negative, and
    refills of a bucket of capacity at most [n]. *)

Definition good (f : float64) : Prop := valid f ∧ has_sign false f.
(** At most the whole number [n]. *)
Definition at_most (n : Z) (f : float64) : Prop := good f ∧ val f ≤ n * 2 ^ 1074.
Definition finite (f : float64) : Prop := good f ∧ val f < huge.

Lemma good_whole c : 0 ≤ c → good (of_i64 c).
Proof. apply of_i64_good. Qed.

Lemma at_most_fge n f : at_most n f → 0 ≤ n < 2 ^ 53 → ∀ c, 0 ≤ c < 2 ^ 53 → fge f (of_i64 c) = true → c ≤ n.
Proof.
  intros [[V S] Hf] Hn c Hc. destruct (of_i64_good c) as [Vc Sc]; [lia|]. rewrite fge_val, of_i64_val by done.
  pose proof (Z.pow_pos_nonneg 2 1074 ltac:(lia) ltac:(lia)) as HU. remember (2 ^ 1074) as U. clear HeqU. nia.
Qed.

Lemma at_most_sub n f c : at_most n f → 0 ≤ c → n < 2 ^ 53 → c < 2 ^ 53 → fge f (of_i64 c) = true →
  at_most (n - c) (fsub f (of_i64 c)).
Proof.
  intros [[V S] Hf] Hc Hn Hc' Hge. destruct (of_i64_good c Hc) as [Vc Sc]. rewrite fge_val, of_i64_val in Hge by done.
  destruct (fsub_whole f c n V S Hc Hn) as (? & ? & ?); [done|]. done.
Qed.

Lemma at_most_le n n' f : at_most n f → n ≤ n' → at_most n' f.
Proof. intros [G Hf] Hle. split; [done|]. etransitivity; [exact Hf|]. apply Z.mul_le_mono_nonneg_r; [apply Z.pow_nonneg|]; lia. Qed.

(** A refill keeps the bucket within its capacity. *)
Lemma refilled_le rate cap t d : finite rate → good cap → good t → 0 ≤ d < 2 ^ 63 →
  good (TokenBucket.refilled rate cap t d) ∧ val (TokenBucket.refilled rate cap t d) ≤ val cap.
Proof.
  intros [[Vr Sr] Fr] [Vc Sc] [Vt St] Hd. unfold TokenBucket.refilled. destruct (Seconds_mul_good d rate Hd Vr Sr Fr) as [Vm Sm].
  destruct (fadd_val t _ Vt Vm St Sm) as (Va & Sa & _). destruct (flt cap _) eqn:E; [done|]. split; [done|].
  apply fle_val; done.
Qed.

Lemma refilled_at_most n rate cap t d : finite rate → at_most n cap → good t → 0 ≤ d < 2 ^ 63 →
  at_most n (TokenBucket.refilled rate cap t d).
Proof. intros Hr [Gc Hc] Ht Hd. destruct (refilled_le rate cap t d) as [? ?]; [done..|]. split; [done|lia]. Qed.

(** At the instant of the last refill there is nothing to add. *)
Lemma refilled_again rate cap t : finite rate → has_sign false t → flt cap t = false →
  TokenBucket.refilled rate cap t 0 = t.
Proof.
  intros [[Vr Sr] Fr] St Hc. unfold TokenBucket.refilled. replace (Seconds 0) with (S754_zero false) by (vm_compute; done).
  assert (fmul (S754_zero false) rate = S754_zero false) as ->.
  { destruct rate as [s|s| |s m e]; cbn in Sr; subst; done. }
  assert (fadd t (S754_zero false) = t) as -> by (destruct t as [s|s| |s m e]; cbn in St; subst; done). by rewrite Hc.
Qed.

(** ** The traffic shaper *)

Module Shaper.
Section Shaper.
Context {task : Type}.

(** The channel [stopCh] is closed or open. *)
(* src: pkg/algorithms/ratelimit/shaper/shaper.go 9-19 Shaper *)
Record Shaper := { sh_rate : float64; sh_capacity : float64; queue : list task; sh_tokens : float64;
  sh_last : Z; stopCh : bool }.

(* src: pkg/algorithms/ratelimit/shaper/shaper.go 21-32 New *)
Definition sh_New (now : Z) (r c : float64) : Shaper :=
  {| sh_rate := r; sh_capacity := c; queue := []; sh_tokens := c; sh_last := now; stopCh := false |}.

(* src: pkg/algorithms/ratelimit/shaper/shaper.go 34-39 Push *)
Definition sh_Push (t : task) (s : Shaper) : Shaper :=
  {| sh_rate := sh_rate s; sh_capacity := sh_capacity s; queue := queue s ++ [t]; sh_tokens := sh_tokens s;
     sh_last := sh_last s; stopCh := stopCh s |}.

(** The tasks that are started, those that stay, and the tokens left. *)
(* src: pkg/algorithms/ratelimit/shaper/shaper.go 69-77 process *)
Fixpoint drain (q : list task) (tokens : float64) : list task * list task * float64 :=
  match q with
  | [] => ([], [], tokens)
  | t :: q' =>
      if fge tokens (of_i64 1) then
        let '(started, rest, tokens) := drain q' (fsub tokens (of_i64 1)) in (t :: started, rest, tokens)
      else ([], q, tokens)
  end.

(* src: pkg/algorithms/ratelimit/shaper/shaper.go 55-78 process *)
Definition process (now : Z) (s : Shaper) : list task * Shaper :=
  let tokens := TokenBucket.refilled (sh_rate s) (sh_capacity s) (sh_tokens s) (time_Sub now (sh_last s)) in
  let '(started, rest, tokens) := drain (queue s) tokens in
  (started, {| sh_rate := sh_rate s; sh_capacity := sh_capacity s; queue := rest; sh_tokens := tokens;
               sh_last := now; stopCh := stopCh s |}).

(** Closing a closed channel panics. *)
(* src: pkg/algorithms/ratelimit/shaper/shaper.go 80-82 Stop *)
Definition sh_Stop (s : Shaper) : option Shaper :=
  if stopCh s then None
  else Some {| sh_rate := sh_rate s; sh_capacity := sh_capacity s; queue := queue s; sh_tokens := sh_tokens s;
               sh_last := sh_last s; stopCh := true |}.

(** What the goroutine of [loop] and the callers do, in some order.  When the channel is
    closed and a tick is due, [select] takes either: with [last] the loop runs once more. *)
Inductive event := EvPush (t : task) | EvTick (now : Z) (last : bool) | EvStop.

(* src: pkg/algorithms/ratelimit/shaper/shaper.go 41-53 loop *)
Definition sh_step (e : event) (s : Shaper) : option (list task * Shaper) :=
  match e with
  | EvPush t => Some ([], sh_Push t s)
  | EvTick now last => if stopCh s && negb last then Some ([], s) else Some (process now s)
  | EvStop => (λ s, ([], s)) <$> sh_Stop s
  end.

Fixpoint sh_run (es : list event) (s : Shaper) : option (list task * Shaper) :=
  match es with
  | [] => Some ([], s)
  | e :: es =>
      '(st, s) ← sh_step e s;
      '(st', s) ← sh_run es s;
      Some (st ++ st', s)
  end.

Definition pushed (es : list event) : list task :=
  omap (λ e, match e with EvPush t => Some t | _ => None end) es.
Definition stops (es : list event) : nat :=
  length (omap (λ e, match e with EvStop => Some tt | _ => None end) es).

Lemma drain_app q tokens : (drain q tokens).1.1 ++ (drain q tokens).1.2 = q.
Proof.
  revert tokens. induction q as [|t q IH]; intros tokens; [done|]. cbn [drain]. destruct (fge _ _); [|done].
  specialize (IH (fsub tokens (of_i64 1))). destruct (drain q _) as [[st rest] tk]. cbn in *. by rewrite IH.
Qed.

(** The drain stops at an empty queue or an empty bucket. *)
Lemma drain_ends q tokens : (drain q tokens).1.2 = [] ∨ fge (drain q tokens).2 (of_i64 1) = false.
Proof.
  revert tokens. induction q as [|t q IH]; intros tokens; [by left|]. cbn [drain]. destruct (fge tokens _) eqn:E; [|by right].
  specialize (IH (fsub tokens (of_i64 1))). by destruct (drain q _) as [[st rest] tk].
Qed.

Lemma drain_at_most n q tokens : at_most n tokens → 0 ≤ n < 2 ^ 53 →
  Z.of_nat (length (drain q tokens).1.1) ≤ n ∧
  at_most (n - Z.of_nat (length (drain q tokens).1.1)) (drain q tokens).2.
Proof.
  revert n tokens. induction q as [|t q IH]; intros n tokens Ht Hn; cbn [drain].
  { cbn [fst snd length]. rewrite Z.sub_0_r. split; [lia|done]. }
  destruct (fge tokens _) eqn:E; [|cbn [fst snd length]; rewrite Z.sub_0_r; split; [lia|done]].
  pose proof (at_most_fge n tokens Ht Hn 1 ltac:(lia) E) as H1.
  pose proof (at_most_sub n tokens 1 Ht ltac:(lia) ltac:(lia) ltac:(lia) E) as Hs.
  destruct (IH (n - 1) _ Hs ltac:(lia)) as [Hl Ha]. destruct (drain q _) as [[st rest] tk]. cbn [fst snd length] in *.
  split; [lia|]. eapply at_most_le; [exact Ha|lia].
Qed.

(** A shaper of capacity at most [n]. *)
Record sh_ok (n : Z) (s : Shaper) : Prop := {
  ok_rate : finite (sh_rate s);
  ok_capacity : at_most n (sh_capacity s);
  ok_tokens : at_most n (sh_tokens s) }.

(** The clock does not run backwards. *)
Fixpoint clocked (now : Z) (es : list event) : Prop :=
  match es with
  | [] => True
  | EvTick t _ :: es => now ≤ t ∧ clocked t es
  | _ :: es => clocked now es
  end.

Lemma process_spec n now s : sh_ok n s → 0 ≤ n < 2 ^ 53 → sh_last s ≤ now →
  Z.of_nat (length (process now s).1) ≤ n ∧ sh_ok n (process now s).2.
Proof.
  intros [Hr Hc Ht] Hn Hnow. unfold process. set (tk := TokenBucket.refilled _ _ _ _).
  assert (at_most n tk) as Htk by (apply refilled_at_most; [done|done|apply Ht|unfold time_Sub; lia]).
  destruct (drain_at_most n (queue s) tk Htk Hn) as [Hl Ha]. destruct (drain (queue s) tk) as [[st rest] tk']. cbn in *.
  split; [done|]. split; [done|done|]. eapply at_most_le; [exact Ha|lia].
Qed.

Lemma process_ends now s :
  queue (process now s).2 = [] ∨ fge (sh_tokens (process now s).2) (of_i64 1) = false.
Proof.
  unfold process. set (tk := TokenBucket.refilled _ _ _ _). pose proof (drain_ends (queue s) tk) as Hd.
  by destruct (drain (queue s) tk) as [[? ?] ?].
Qed.

(** What every tick keeps, and what holds of the tasks every tick starts, over a history. *)
Lemma sh_run_inv (I : Shaper → Prop) (P : task → Prop) :
  (∀ s s', sh_rate s = sh_rate s' → sh_capacity s = sh_capacity s' → sh_tokens s = sh_tokens s' → I s → I s') →
  (∀ now s, I s → sh_last s ≤ now → I (process now s).2 ∧ Forall P (process now s).1) →
  ∀ es es' now0 s0 started s, I s0 → sh_last s0 ≤ now0 → clocked now0 (es ++ es') →
  sh_run es s0 = Some (started, s) →
  I s ∧ Forall P started ∧ ∃ now, sh_last s ≤ now ∧ clocked now es'.
Proof.
  intros Hstable Hproc es es'. induction es as [|e es IH]; intros now0 s0 started s HI Hl Hcl Hrun.
  { injection Hrun as <- <-. eauto. }
  cbn [sh_run] in Hrun. destruct (sh_step e s0) as [[st s1]|] eqn:Es; [|done]. cbn [mbind option_bind] in Hrun.
  destruct (sh_run es s1) as [[st' s2]|] eqn:Er; [|done]. cbn in Hrun. injection Hrun as <- <-.
  assert (∃ now1, I s1 ∧ Forall P st ∧ sh_last s1 ≤ now1 ∧ clocked now1 (es ++ es')) as (now1 & HI1 & HP & Hl1 & Hcl1).
  { destruct e as [t|t last|]; cbn [sh_step] in Es; cbn in Hcl.
    - injection Es as <- <-. exists now0. split_and!; [by apply (Hstable s0)|done|done|done].
    - exists t. destruct Hcl as [Ht Hcl]. destruct (_ && _).
      + injection Es as <- <-. split_and!; [done|done|lia|done].
      + destruct (Hproc t s0 HI ltac:(lia)) as [HI' HP].
        assert (sh_last (process t s0).2 = t) as Hl' by (unfold process; by destruct (drain _ _) as [[? ?] ?]).
        injection Es as Es. rewrite Es in HI', HP, Hl'. cbn in HI', HP, Hl'. split_and!; [done|done|lia|done].
    - unfold sh_Stop in Es. destruct (stopCh s0); [done|]. injection Es as <- <-. exists now0.
      split_and!; [by apply (Hstable s0)|done|done|done]. }
  destruct (IH now1 s1 st' s2 HI1 Hl1 Hcl1 Er) as (? & ? & ?). split_and!; [done|by apply Forall_app|done].
Qed.

(** Tasks are started in the order in which they were pushed, each once, and none is lost:
    after any events (with one call of [Stop] at most, since a second one panics) the tasks
    started and those in the queue are the ones pushed. *)
Theorem shaper_fifo es s :
  (stops es + (if stopCh s then 1 else 0) ≤ 1)%nat →
  ∃ started s', sh_run es s = Some (started, s') ∧ started ++ queue s' = queue s ++ pushed es.
Proof.
  revert s. induction es as [|e es IH]; intros s Hs; cbn [sh_run].
  { exists [], s. split; [done|]. cbn. by rewrite app_nil_r. }
  assert (∃ st s1, sh_step e s = Some (st, s1) ∧ st ++ queue s1 = queue s ++ pushed [e] ∧
    (stops es + (if stopCh s1 then 1 else 0) ≤ 1)%nat) as (st & s1 & -> & Hq & Hs1).
  { destruct e as [t|now last|]; cbn [sh_step pushed omap list_omap].
    - exists [], (sh_Push t s). done.
    - unfold stops in Hs. cbn in Hs. destruct (_ && _).
      + exists [], s. rewrite app_nil_r. done.
      + unfold process. pose proof (drain_app (queue s) (TokenBucket.refilled (sh_rate s) (sh_capacity s) (sh_tokens s) (time_Sub now (sh_last s)))) as Hd.
        destruct (drain _ _) as [[st rest] tk]. cbn in Hd. eexists _, _. split; [done|]. cbn. by rewrite app_nil_r.
    - unfold stops in Hs. cbn in Hs. unfold sh_Stop. destruct (stopCh s); [lia|].
      eexists _, _. split; [done|]. cbn. rewrite app_nil_r. split; [done|unfold stops; lia]. }
  cbn [mbind option_bind]. destruct (IH s1 Hs1) as (st' & s' & -> & Hq'). cbn [mbind option_bind].
  exists (st ++ st'), s'. split; [done|]. rewrite <- app_assoc, Hq', app_assoc, Hq, <- app_assoc. f_equal.
  unfold pushed. cbn [omap list_omap]. by destruct e.
Qed.

(** The burst bound, over any history: a tick starts at most [n] tasks when the capacity is
    at most the whole number [n] (below 2 ^ 53), and it stops only for want of tasks or of a
    whole token. *)
Theorem shaper_burst n r c now0 es now last started s :
  0 ≤ n < 2 ^ 53 → at_most n c → finite r → clocked now0 (es ++ [EvTick now last]) →
  sh_run es (sh_New now0 r c) = Some (started, s) →
  ∃ started' s', sh_step (EvTick now last) s = Some (started', s') ∧ Z.of_nat (length started') ≤ n ∧
    (stopCh s = false → queue s' = [] ∨ fge (sh_tokens s') (of_i64 1) = false).
Proof.
  intros Hn Hc Hr Hcl Hrun.
  destruct (sh_run_inv (sh_ok n) (λ _, True)) with es [EvTick now last] now0 (sh_New now0 r c) started s as (Hok & _ & t & Ht & Hnow & _);
    [intros s1 s2 E1 E2 E3 []; split; congruence| |done|done|done|done|].
  { intros t s1 Hs1 Ht. split; [by apply process_spec|by apply Forall_true]. }
  cbn [sh_step]. destruct (stopCh s) eqn:Est; cbn [andb]; [destruct (negb last)|].
  - exists [], s. split_and!; [done|cbn; lia|done].
  - pose proof (process_spec n now s Hok Hn ltac:(lia)) as [Hp _]. destruct (process now s) as [st s']. by exists st, s'.
  - pose proof (process_spec n now s Hok Hn ltac:(lia)) as [Hp _]. pose proof (process_ends now s) as He.
    destruct (process now s) as [st s']. by exists st, s'.
Qed.

(** A capacity below one token starves every task. *)
Theorem shaper_starves r c now0 es started s :
  flt c (of_i64 1) = true → good c → finite r → clocked now0 es →
  sh_run es (sh_New now0 r c) = Some (started, s) → started = [].
Proof.
  intros Hc [Vc Sc] Hr Hcl Hrun. destruct (of_i64_good 1 ltac:(lia)) as [V1 S1].
  set (I := λ s, sh_rate s = r ∧ sh_capacity s = c ∧ good (sh_tokens s) ∧ val (sh_tokens s) ≤ val c).
  destruct (sh_run_inv I (λ _, False)) with es ([] : list event) now0 (sh_New now0 r c) started s as (_ & HP & _);
    [unfold I; intros s1 s2 E1 E2 E3; by rewrite E1, E2, E3| |done|done|by rewrite app_nil_r|done|].
  - intros now s1 (Hr1 & Hc1 & Gt & Ht) Hnow. unfold process, I. rewrite Hr1, Hc1. set (tk := TokenBucket.refilled _ _ _ _).
    destruct (refilled_le r c (sh_tokens s1) (time_Sub now (sh_last s1))) as [[Vk Sk] Hk]; [done|done|done|unfold time_Sub; lia|].
    fold tk in Vk, Sk, Hk. assert (fge tk (of_i64 1) = false) as E.
    { apply not_true_iff_false. rewrite fge_val by done. intros H1. assert (fle (of_i64 1) c) as Hle by (apply fle_val; [done..|lia]).
      unfold fle in Hle. congruence. }
    assert (drain (queue s1) tk = ([], queue s1, tk)) as -> by (destruct (queue s1); cbn [drain]; [done|by rewrite E]). done.
  - destruct HP; done.
Qed.
End Shaper.

Lemma shaper_fifo_witness :
  let es := [EvPush 1%nat; EvPush 2%nat; EvTick 5 false; EvPush 3%nat; EvStop; EvTick 6 true] in
  ∃ started s', sh_run es (sh_New 0 (of_i64 1) (of_i64 1)) = Some (started, s') ∧ started ++ queue s' = [1; 2; 3]%nat.
Proof. intros es. apply (shaper_fifo es (sh_New 0 (of_i64 1) (of_i64 1))). cbn. lia. Defined.

Lemma shaper_burst_witness :
  ∃ started' s', sh_step (EvTick (10 ^ 10) false) (sh_Push 3%nat (sh_Push 2%nat (sh_Push 1%nat (sh_New 0 (of_i64 1) (of_i64 2))))) =
    Some (started', s') ∧ Z.of_nat (length started') ≤ 2 ∧
    (false = false → queue s' = [] ∨ fge (sh_tokens s') (of_i64 1) = false).
Proof.
  apply (shaper_burst 2 (of_i64 1) (of_i64 2) 0 [EvPush 1%nat; EvPush 2%nat; EvPush 3%nat] (10 ^ 10) false []).
  - lia.
  - split; [split; vm_compute; reflexivity|]. vm_compute. discriminate.
  - split; [split; vm_compute; reflexivity|]. vm_compute. reflexivity.
  - cbn. lia.
  - reflexivity.
Defined.

(** A token less is no difference to a bucket of 2 ^ 54 tokens: the whole queue is started. *)
Theorem shaper_large_unbounded {task} (q : list task) : (drain q (of_i64 (2 ^ 54))).1.1 = q.
Proof.
  induction q as [|t q IH]; [done|]. cbn [drain]. replace (fge _ _) with true by (vm_compute; done).
  replace (fsub _ _) with (of_i64 (2 ^ 54)) by (vm_compute; done). destruct (drain q _) as [[st rest] tk]. cbn in *. by rewrite IH.
Qed.
End Shaper.

(** ** The hierarchy of buckets *)

Module Htb.

(** Buckets are shared: a pointer is an address of the heap. *)
(* src: pkg/algorithms/ratelimit/htb/bucket.go 9-19 Bucket *)
Record Bucket := { ID : string; Parent : option nat; Rate : float64; Capacity : float64; Tokens : float64;
  LastRefill : Z; Children : list nat }.
Abbreviation heap := (gmap nat Bucket).

Definition set_Parent (p : option nat) (b : Bucket) : Bucket :=
  {| ID := ID b; Parent := p; Rate := Rate b; Capacity := Capacity b; Tokens := Tokens b;
     LastRefill := LastRefill b; Children := Children b |}.
Definition set_Children (cs : list nat) (b : Bucket) : Bucket :=
  {| ID := ID b; Parent := Parent b; Rate := Rate b; Capacity := Capacity b; Tokens := Tokens b;
     LastRefill := LastRefill b; Children := cs |}.
Definition set_Tokens (t : float64) (last : Z) (b : Bucket) : Bucket :=
  {| ID := ID b; Parent := Parent b; Rate := Rate b; Capacity := Capacity b; Tokens := t;
     LastRefill := last; Children := Children b |}.

(* src: pkg/algorithms/ratelimit/htb/bucket.go 21-31 New *)
Definition htb_New (now : Z) (id : string) (r c : float64) : Bucket :=
  {| ID := id; Parent := None; Rate := r; Capacity := c; Tokens := c; LastRefill := now; Children := [] |}.

(** A nil pointer panics. *)
(* src: pkg/algorithms/ratelimit/htb/bucket.go 33-39 AddChild *)
Definition AddChild (b child : nat) (h : heap) : option heap :=
  match h !! child, h !! b with
  | Some _, Some _ =>
      let h := alter (set_Parent (Some b)) child h in
      Some (alter (λ k, set_Children (Children k ++ [child]) k) b h)
  | _, _ => None
  end.

(** The loop follows the parents; without fuel it has not returned. *)
(* src: pkg/algorithms/ratelimit/htb/bucket.go 99-104 getPath *)
Fixpoint climb (fuel : nat) (h : heap) (curr : option nat) : option (list nat) :=
  match curr with
  | None => Some []
  | Some a =>
      match fuel with
      | O => None
      | S fuel => b ← h !! a; path ← climb fuel h (Parent b); Some (a :: path)
      end
  end.

(* src: pkg/algorithms/ratelimit/htb/bucket.go 98-117 getPath *)
Definition getPath (fuel : nat) (h : heap) (b : nat) : option (list nat) := reverse <$> climb fuel h (Some b).

(* src: pkg/algorithms/ratelimit/htb/bucket.go 72-81 Allow *)
Definition refill_bucket (now : Z) (b : Bucket) : Bucket :=
  set_Tokens (TokenBucket.refilled (Rate b) (Capacity b) (Tokens b) (time_Sub now (LastRefill b))) now b.

(* src: pkg/algorithms/ratelimit/htb/bucket.go 90-93 Allow *)
Definition consume (cost : float64) (b : Bucket) : Bucket := set_Tokens (fsub (Tokens b) cost) (LastRefill b) b.

(** A bucket of the path that has too little. *)
(* src: pkg/algorithms/ratelimit/htb/bucket.go 83-88 Allow *)
Definition short (cost : float64) (h : heap) (a : nat) : bool :=
  match h !! a with Some b => flt (Tokens b) cost | None => false end.

(* src: pkg/algorithms/ratelimit/htb/bucket.go 41-96 Allow *)
Definition htb_Allow (fuel : nat) (now : Z) (cost : float64) (b : nat) (h : heap) : option (bool * heap) :=
  path ← getPath fuel h b;
  let h := foldl (λ h a, alter (refill_bucket now) a h) h path in
  if existsb (short cost h) path then Some (false, h)
  else Some (true, foldl (λ h a, alter (consume cost) a h) h path).

(** *** Paths *)

(** The path ends at a root. *)
Definition rooted (h : heap) (a : nat) : Prop := ∃ fuel path, climb fuel h (Some a) = Some path.
Definition forest (h : heap) : Prop := ∀ a, is_Some (h !! a) → rooted h a.

(** The cases of a climb that returns. *)
Lemma climb_inv fuel h o p : climb fuel h o = Some p →
  (o = None ∧ p = []) ∨
  ∃ a b fuel' q, o = Some a ∧ fuel = S fuel' ∧ h !! a = Some b ∧ climb fuel' h (Parent b) = Some q ∧ p = a :: q.
Proof.
  destruct o as [a|]; [|destruct fuel; cbn; intros [= <-]; by left]. destruct fuel as [|fuel]; [done|]. cbn [climb]. intros Hc.
  destruct (h !! a) as [b|] eqn:Hb; [|done]. cbn in Hc. destruct (climb fuel h (Parent b)) as [q|] eqn:Hq; [|done]. cbn in Hc.
  injection Hc as <-. right. by exists a, b, fuel, q.
Qed.

Lemma climb_length fuel h o p : climb fuel h o = Some p → (length p ≤ fuel)%nat.
Proof.
  revert o p. induction fuel as [|fuel IH]; intros o p [[-> ->]|(a & b & f & q & -> & [= <-] & Hb & Hq & ->)]%climb_inv; [cbn; lia..|].
  apply IH in Hq. cbn. lia.
Qed.

Lemma climb_mono fuel fuel' h o p : climb fuel h o = Some p → (length p ≤ fuel')%nat → climb fuel' h o = Some p.
Proof.
  revert fuel' o p. induction fuel as [|fuel IH]; intros fuel' o p [[-> ->]|(a & b & f & q & -> & [= <-] & Hb & Hq & ->)]%climb_inv Hl;
    [by destruct fuel'..|].
  destruct fuel' as [|fuel']; cbn in Hl; [lia|]. cbn [climb]. rewrite Hb. cbn. by rewrite (IH fuel' _ _ Hq) by lia.
Qed.

Lemma climb_det f f' h o p p' : climb f h o = Some p → climb f' h o = Some p' → p = p'.
Proof.
  intros H H'. apply (climb_mono _ (length p + length p')) in H; [|lia].
  apply (climb_mono _ (length p + length p')) in H'; [|lia]. congruence.
Qed.

(** From a node of the path, the rest of the path. *)
Lemma climb_mid fuel h o p a : climb fuel h o = Some p → a ∈ p →
  ∃ l l', p = l ++ a :: l' ∧ climb fuel h (Some a) = Some (a :: l').
Proof.
  revert o p. induction fuel as [|fuel IH]; intros o p [[-> ->]|(x & b & f & q & -> & [= <-] & Hb & Hq & ->)]%climb_inv Ha;
    [by apply elem_of_nil in Ha..|].
  apply elem_of_cons in Ha as [->|Ha].
  - exists [], q. split; [done|]. cbn [climb]. rewrite Hb. cbn. by rewrite Hq.
  - destruct (IH _ _ Hq Ha) as (l & l' & -> & Hl). exists (x :: l), l'. split; [done|].
    apply (climb_mono fuel); [done|]. apply climb_length in Hl. lia.
Qed.

Lemma climb_NoDup fuel h o p : climb fuel h o = Some p → NoDup p.
Proof.
  revert o p. induction fuel as [|fuel IH]; intros o p Hc; pose proof Hc as [[-> ->]|(a & b & f & q & -> & [= <-] & Hb & Hq & ->)]%climb_inv;
    [constructor..|].
  constructor; [|by eapply IH]. intros Ha. destruct (climb_mid _ _ _ _ _ Hq Ha) as (l & l' & -> & Hl).
  pose proof (climb_det _ _ _ _ _ _ Hc Hl) as E. injection E as E. apply (f_equal length) in E. rewrite length_app in E. cbn in E. lia.
Qed.

Lemma climb_dom fuel h o p a : climb fuel h o = Some p → a ∈ p → is_Some (h !! a).
Proof.
  intros Hc Ha. destruct (climb_mid _ _ _ _ _ Hc Ha) as (_ & l' & _ & Hl).
  apply climb_inv in Hl as [[? ?]|(x & b & f & q & [= <-] & _ & Hb & _)]; [done|]. by exists b.
Qed.

(** As many turns as there are buckets are enough. *)
Lemma climb_size fuel h o p : climb fuel h o = Some p → climb (size h) h o = Some p.
Proof.
  intros Hc. apply (climb_mono fuel); [done|]. rewrite <- size_dom, <- (size_list_to_set (C := gset nat) p) by (by eapply climb_NoDup).
  apply subseteq_size. intros a Ha. apply elem_of_dom. eapply climb_dom; [done|set_solver].
Qed.

Lemma getPath_forest h a : forest h → is_Some (h !! a) →
  ∃ path, getPath (size h) h a = Some path ∧ a ∈ path ∧ NoDup path ∧ ∀ x, x ∈ path → is_Some (h !! x).
Proof.
  intros Hf Ha. destruct (Hf a Ha) as (fuel & p & Hp). exists (reverse p). unfold getPath. rewrite (climb_size _ _ _ _ Hp). cbn.
  split_and!; [done| |rewrite reverse_Permutation; by eapply climb_NoDup|intros x; rewrite elem_of_reverse; by eapply climb_dom].
  apply elem_of_reverse. apply climb_inv in Hp as [[? ?]|(x & b & f & q & [= <-] & _ & _ & _ & ->)]; [done|left].
Qed.

(** What the loop reads are the parents. *)
Lemma climb_ext h h' fuel o : (∀ a, Parent <$> h !! a = Parent <$> h' !! a) → climb fuel h o = climb fuel h' o.
Proof.
  intros He. revert o. induction fuel as [|fuel IH]; intros [a|]; cbn [climb]; [done..| |done].
  specialize (He a). destruct (h !! a) as [b|], (h' !! a) as [b'|]; cbn in *; [|done..]. injection He as ->. by rewrite IH.
Qed.

Lemma AddChild_parent b child h h' a : AddChild b child h = Some h' →
  Parent <$> h' !! a = if decide (a = child) then Some (Some b) else Parent <$> h !! a.
Proof.
  unfold AddChild. destruct (h !! child) as [c|] eqn:Hc; [|done]. destruct (h !! b) as [bb|] eqn:Hb; [|done]. intros [= <-].
  assert (∀ (f : Bucket → Bucket) i (m : heap), (∀ k, Parent (f k) = Parent k) → Parent <$> alter f i m !! a = Parent <$> m !! a) as Halter.
  { intros f i m Hf. destruct (decide (i = a)) as [->|Hne]; [rewrite lookup_alter_eq|by rewrite lookup_alter_ne].
    destruct (m !! a); [|done]. cbn. by rewrite Hf. }
  rewrite Halter by done. case_decide as Ea; [subst; rewrite lookup_alter_eq, Hc; done|]. by rewrite lookup_alter_ne by done.
Qed.

(** A bucket that gets a parent which is not below it keeps every path finite. *)
Lemma AddChild_rooted b child h h' fuel p : AddChild b child h = Some h' →
  climb fuel h (Some b) = Some p → child ∉ p → ∀ a, rooted h a → rooted h' a.
Proof.
  intros HA Hp Hn. pose proof (λ a, AddChild_parent b child h h' a HA) as Hpar.
  assert (∀ n o q, climb n h o = Some q → child ∉ q → climb n h' o = Some q) as Hoff.
  { induction n as [|n IH]; intros o q [[-> ->]|(x & k & f & r & -> & [= <-] & Hx & Hr & ->)]%climb_inv Hq; [done..|].
    apply not_elem_of_cons in Hq as [Hne Hq]. specialize (Hpar x). rewrite decide_False, Hx in Hpar by done.
    destruct (h' !! x) as [k'|] eqn:Hx'; [|done]. cbn in Hpar. injection Hpar as Hpar. cbn [climb]. rewrite Hx'. cbn. by rewrite Hpar, (IH _ _ Hr). }
  assert (∃ n r, climb n h' (Some child) = Some r) as (nc & rc & Hchild).
  { pose proof (Hpar child) as Hc. rewrite decide_True in Hc by done. destruct (h' !! child) as [k|] eqn:Hk; [|done]. cbn in Hc. injection Hc as Hc.
    exists (S fuel), (child :: p). cbn [climb]. rewrite Hk. cbn. by rewrite Hc, (Hoff _ _ _ Hp Hn). }
  intros a (n & q & Hq). assert (∃ n' q', climb n' h' (Some a) = Some q') as (n' & q' & ?); [|by exists n', q'].
  revert Hq. generalize (Some a) as o. revert q. clear a. induction n as [|n IH]; intros q o
    [[-> ->]|(x & k & f & r & -> & [= <-] & Hx & Hr & ->)]%climb_inv; [by exists 0%nat, []..|].
  destruct (decide (x = child)) as [->|Hne]; [by exists nc, rc|]. destruct (IH _ _ Hr) as (n' & q' & Hq').
  specialize (Hpar x). rewrite decide_False, Hx in Hpar by done. destruct (h' !! x) as [k'|] eqn:Hx'; [|done]. cbn in Hpar. injection Hpar as Hpar.
  exists (S n'), (x :: q'). cbn [climb]. rewrite Hx'. cbn. by rewrite Hpar, Hq'.
Qed.

(** Attaching a bucket below another that is not below it keeps the forest. *)
Lemma AddChild_forest b child h h' path : forest h → AddChild b child h = Some h' →
  getPath (size h) h b = Some path → child ∉ path → forest h'.
Proof.
  intros Hf HA Hp Hn a Ha. unfold getPath in Hp. destruct (climb (size h) h (Some b)) as [p|] eqn:Ep; [|done]. injection Hp as <-.
  rewrite elem_of_reverse in Hn. eapply AddChild_rooted; [done|done|done|]. apply Hf.
  pose proof (AddChild_parent b child h h' a HA) as Hpar. destruct Ha as [k Hk]. rewrite Hk in Hpar.
  case_decide; [subst; unfold AddChild in HA; destruct (h !! child); [by eexists|done]|]. destruct (h !! a); [by eexists|done].
Qed.

Lemma New_forest now id r c a h : forest h → h !! a = None → forest (<[a := htb_New now id r c]> h).
Proof.
  intros Hf Ha x [k Hx]. destruct (decide (x = a)) as [->|Hne].
  { exists 1%nat, [a]. cbn [climb]. by rewrite lookup_insert_eq. }
  rewrite lookup_insert_ne in Hx by done. destruct (Hf x) as (n & p & Hp); [by eexists|]. exists n, p. rewrite <- Hp.
  revert Hp. generalize (Some x) as o. revert p. induction n as [|n IH]; intros p o
    [[-> ->]|(y & k' & f & r' & -> & [= <-] & Hy & Hr & ->)]%climb_inv; [done..|].
  cbn [climb]. rewrite lookup_insert_ne by congruence. rewrite Hy. cbn. by rewrite (IH _ _ Hr).
Qed.

(** Making an ancestor of a bucket (or the bucket itself) its child closes a cycle, and
    [Allow] of any bucket on it never returns, whatever the tokens. *)
Theorem htb_cycle_hangs h b child path h' fuel fuel' now cost :
  getPath fuel h b = Some path → child ∈ path → AddChild b child h = Some h' →
  htb_Allow fuel' now cost child h' = None ∧ htb_Allow fuel' now cost b h' = None.
Proof.
  intros Hp Hin HA. unfold getPath in Hp. destruct (climb fuel h (Some b)) as [p|] eqn:Ep; [|done]. injection Hp as <-.
  rewrite elem_of_reverse in Hin.
  assert (∀ n q o, climb n h o = Some q → child ∈ q → ∀ m, climb m h' o = None) as Hno.
  { assert (∀ m n q o, climb n h o = Some q → child ∈ q → climb m h' o = None) as H; [|eauto].
    pose proof (λ a, AddChild_parent b child h h' a HA) as Hpar.
    induction m as [m IHm] using lt_wf_ind. intros n. induction n as [|n IH]; intros q o
      [[-> ->]|(x & k & f & r & -> & [= <-] & Hx & Hr & ->)]%climb_inv Hc; [by apply elem_of_nil in Hc..|].
    destruct m as [|m]; [done|]. cbn [climb]. specialize (Hpar x). destruct (h' !! x) as [k'|] eqn:Hx'; [|done]. cbn in Hpar |- *.
    destruct (decide (x = child)) as [->|Hne].
    - injection Hpar as ->. by rewrite (IHm m ltac:(lia) fuel p).
    - rewrite Hx in Hpar. injection Hpar as ->. apply elem_of_cons in Hc as [->|Hc]; [done|]. by rewrite (IHm m ltac:(lia) n r). }
  unfold htb_Allow, getPath. split.
  - destruct (climb_mid _ _ _ _ _ Ep Hin) as (l & l' & _ & Hl). by rewrite (Hno _ _ _ Hl) by left.
  - by rewrite (Hno _ _ _ Ep).
Qed.

(** *** Admission *)

Lemma lookup_foldl_alter (f : Bucket → Bucket) l (h : heap) a : NoDup l →
  foldl (λ h a, alter f a h) h l !! a = if decide (a ∈ l) then f <$> h !! a else h !! a.
Proof.
  intros Hl. revert h. induction Hl as [|x l Hx Hl IH]; intros h; cbn [foldl]; [by rewrite decide_False by apply not_elem_of_nil|].
  rewrite IH. destruct (decide (x = a)) as [->|Hne].
  - rewrite decide_False, decide_True by (done || left). apply lookup_alter_eq.
  - rewrite lookup_alter_ne by done. destruct (decide (a ∈ l)); [rewrite decide_True by (by right); done|].
    rewrite decide_False; [done|]. by apply not_elem_of_cons.
Qed.

(** Whether every bucket of the path has enough after its refill. *)
Definition enough (now : Z) (cost : float64) (h : heap) (path : list nat) : bool :=
  forallb (λ a, match h !! a with Some k => negb (flt (Tokens (refill_bucket now k)) cost) | None => true end) path.
Definition settle (ok : bool) (now : Z) (cost : float64) (k : Bucket) : Bucket :=
  if ok then consume cost (refill_bucket now k) else refill_bucket now k.

(** In a forest [Allow] returns.  It admits a request exactly if the bucket and all its
    ancestors, refilled, have enough; then all of them pay, and otherwise none does; every
    other bucket is left alone. *)
Theorem htb_all_or_nothing h b now cost : forest h → is_Some (h !! b) →
  ∃ path h', getPath (size h) h b = Some path ∧ b ∈ path ∧
    htb_Allow (size h) now cost b h = Some (enough now cost h path, h') ∧
    (∀ a, h' !! a = if decide (a ∈ path) then settle (enough now cost h path) now cost <$> h !! a else h !! a) ∧
    size h' = size h ∧ (∀ fuel o, climb fuel h' o = climb fuel h o).
Proof.
  intros Hf Hb. destruct (getPath_forest h b Hf Hb) as (path & Hp & Hin & Hnd & Hdom).
  unfold htb_Allow. rewrite Hp. cbn [mbind option_bind]. set (h1 := foldl _ h path).
  assert (∀ a, h1 !! a = if decide (a ∈ path) then refill_bucket now <$> h !! a else h !! a) as H1
    by (intros a; by apply lookup_foldl_alter).
  assert (existsb (short cost h1) path = negb (enough now cost h path)) as He.
  { assert (∀ l, Forall (λ a, a ∈ path) l → existsb (short cost h1) l = negb (enough now cost h l)) as Hl; [|apply Hl; by apply Forall_forall].
    induction 1 as [|a l Ha _ IH]; [done|]. cbn [existsb enough forallb]. fold (enough now cost h l).
    rewrite IH, negb_andb. f_equal. unfold short. rewrite H1, decide_True by done. destruct (h !! a); cbn; [by rewrite negb_involutive|done]. }
  rewrite He. exists path. set (ok := enough now cost h path).
  exists (if ok then foldl (λ h a, alter (consume cost) a h) h1 path else h1).
  assert (∀ a, (if ok then foldl (λ h a, alter (consume cost) a h) h1 path else h1) !! a =
    if decide (a ∈ path) then settle ok now cost <$> h !! a else h !! a) as Hlook.
  { intros a. destruct ok; [rewrite lookup_foldl_alter by done|]; rewrite H1; case_decide; try done. by destruct (h !! a). }
  split_and!; [done|done|by destruct ok|done| |].
  - rewrite <- !size_dom. f_equal. apply set_eq. intros a. rewrite !elem_of_dom, Hlook. case_decide; [|done]. by rewrite fmap_is_Some.
  - intros fuel o. apply climb_ext. intros a. rewrite Hlook. case_decide; [|done]. destruct (h !! a) as [k|]; [|done]. cbn. by destruct ok.
Qed.

(** Calls one after the other, with their costs as whole numbers, at one instant. *)
Fixpoint htb_calls (now : Z) (cs : list (nat * Z)) (h : heap) : option (list bool * heap) :=
  match cs with
  | [] => Some ([], h)
  | (b, c) :: cs =>
      '(ok, h) ← htb_Allow (size h) now (of_i64 c) b h;
      '(oks, h) ← htb_calls now cs h;
      Some (ok :: oks, h)
  end.

(** Whether a bucket is [r] or below it. *)
Definition below (h : heap) (r b : nat) : bool :=
  match getPath (size h) h b with Some p => bool_decide (r ∈ p) | None => false end.

(** What the admitted calls cost the bucket [r]. *)
Fixpoint spent (h : heap) (r : nat) (cs : list (nat * Z)) (oks : list bool) : Z :=
  match cs, oks with
  | (b, c) :: cs, ok :: oks => (if ok && below h r b then c else 0) + spent h r cs oks
  | _, _ => 0
  end.

(** Bucket [k] at the time [now], when [u] has been spent of a capacity of at most [n]. *)
Record paying (n now u : Z) (k : Bucket) : Prop := {
  pay_rate : finite (Rate k);
  pay_capacity : at_most n (Capacity k);
  pay_last : LastRefill k ≤ now;
  pay_tokens : good (Tokens k);
  pay_used : u = 0 ∨ LastRefill k = now ∧ val (Tokens k) ≤ val (Capacity k) ∧ at_most (n - u) (Tokens k) }.

Lemma paying_refill n now u k : 0 ≤ n → paying n now u k →
  let t := Tokens (refill_bucket now k) in
  val t ≤ val (Capacity k) ∧ at_most (n - u) t ∧ paying n now u (refill_bucket now k).
Proof.
  intros Hn [Hr Hc Hl Ht Hu]. cbn zeta. assert (0 ≤ time_Sub now (LastRefill k) < 2 ^ 63) as Hd by (unfold time_Sub; lia).
  pose proof (refilled_le _ _ _ _ Hr (proj1 Hc) Ht Hd) as [Hg Hle]. cbn.
  assert (at_most (n - u) (TokenBucket.refilled (Rate k) (Capacity k) (Tokens k) (time_Sub now (LastRefill k)))) as Ha.
  { destruct Hu as [->|(Hlast & Hcap & Ha)]; [rewrite Z.sub_0_r; by apply refilled_at_most|].
    replace (time_Sub now (LastRefill k)) with 0 by (unfold time_Sub; lia).
    rewrite refilled_again; [done|done|apply Ht|]. apply fle_val; [apply Ht|apply Hc|apply Ht|apply Hc|done]. }
  split_and!; [done|done|]. split; cbn; [done|done|lia|done|]. right. done.
Qed.

Lemma settle_paying n now u k c (ok : bool) : 0 ≤ n < 2 ^ 53 → 0 ≤ u → 0 ≤ c < 2 ^ 53 → paying n now u k →
  (ok = true → flt (Tokens (refill_bucket now k)) (of_i64 c) = false) →
  paying n now (if ok then u + c else u) (settle ok now (of_i64 c) k) ∧ (ok = true → u + c ≤ n).
Proof.
  intros Hn Hu Hc Hk Hok. destruct (paying_refill n now u k ltac:(lia) Hk) as (Hcap & Ha & Hp). cbn zeta in Hcap, Ha.
  destruct ok; [|done]. specialize (Hok eq_refl). unfold settle. set (k1 := refill_bucket now k) in *.
  destruct Ha as [[Vt St] Hle]. destruct (of_i64_good c ltac:(lia)) as [Vc Sc]. change (fle (of_i64 c) (Tokens k1)) in Hok.
  rewrite fle_val in Hok by done.
  assert (u + c ≤ n) as Huc.
  { rewrite of_i64_val in Hok by done. pose proof (Z.pow_pos_nonneg 2 1074 ltac:(lia) ltac:(lia)) as HU. remember (2 ^ 1074) as U. clear HeqU. nia. }
  split; [|done]. destruct Hp as [Hr1 Hc1 Hl1 Ht1 _].
  pose proof (at_most_sub (n - u) (Tokens k1) c (conj (conj Vt St) Hle) ltac:(lia) ltac:(lia) ltac:(lia)) as Hs.
  rewrite fge_val in Hs by done. specialize (Hs Hok). replace (n - u - c) with (n - (u + c)) in Hs by lia.
  split; cbn; [done|done|done|apply Hs|]. right. split_and!; [done| |done].
  change (val (fsub (Tokens k1) (of_i64 c)) ≤ val (Capacity k)).
  etransitivity; [|exact Hcap]. apply fsub_le; [done..|]. split; [done|].
  eapply Z.le_lt_trans; [exact Hle|]. apply whole_lt_huge. lia.
Qed.

(** The limit of every bucket holds for all that is below it: of the calls made at one
    instant, the admitted ones that pass through a bucket cost no more in sum than its
    capacity, whichever buckets they were made on. *)
Theorem htb_limit n r k now cs h :
  0 ≤ n < 2 ^ 53 → forest h → h !! r = Some k → paying n now 0 k →
  Forall (λ p, is_Some (h !! p.1) ∧ 0 ≤ p.2 < 2 ^ 53) cs →
  ∃ oks h', htb_calls now cs h = Some (oks, h') ∧ length oks = length cs ∧ spent h r cs oks ≤ n.
Proof.
  intros Hn Hf Hr Hk Hcs.
  enough (∀ u h k, 0 ≤ u ≤ n → forest h → h !! r = Some k → paying n now u k →
    Forall (λ p, is_Some (h !! p.1) ∧ 0 ≤ p.2 < 2 ^ 53) cs →
    ∃ oks h', htb_calls now cs h = Some (oks, h') ∧ length oks = length cs ∧ u + spent h r cs oks ≤ n) as H.
  { apply (H 0 h k); [lia|done..]. }
  clear k Hk Hr h Hf Hcs. induction cs as [|[b c] cs IH]; intros u h k Hu Hf Hr Hk Hcs; [exists [], h; cbn; split_and!; [done|done|lia]|].
  apply Forall_cons in Hcs as [[Hb Hc] Hcs]. cbn [fst snd] in Hb, Hc.
  destruct (htb_all_or_nothing h b now (of_i64 c) Hf Hb) as (path & h1 & Hp & Hin & HA & Hlook & Hsize & Hclimb).
  set (ok := enough now (of_i64 c) h path) in *. cbn [htb_calls]. rewrite HA. cbn [mbind option_bind].
  assert (∀ a, is_Some (h1 !! a) ↔ is_Some (h !! a)) as Hdom by (intros a; rewrite Hlook; case_decide; [apply fmap_is_Some|done]).
  assert (∃ k1, h1 !! r = Some k1 ∧ paying n now (u + if ok && below h r b then c else 0) k1 ∧
    u + (if ok && below h r b then c else 0) ≤ n) as (k1 & Hr1 & Hk1 & Hu1).
  { unfold below. rewrite Hp, Hlook, Hr. case_decide as Hrp; cbn; [rewrite bool_decide_true by done|rewrite bool_decide_false by done].
    - rewrite andb_true_r. destruct (settle_paying n now u k c ok Hn ltac:(lia) Hc Hk) as [Hs Hle].
      { unfold ok, enough. intros He. rewrite forallb_forall in He. specialize (He r (proj1 (list_elem_of_In _ _) Hrp)). rewrite Hr in He.
        by apply negb_true_iff in He. }
      eexists. split; [done|]. destruct ok; [split; [done|auto]|]. rewrite Z.add_0_r. split; [done|lia].
    - exists k. rewrite andb_false_r, Z.add_0_r. split_and!; [done|done|lia]. }
  destruct (IH (u + if ok && below h r b then c else 0) h1 k1) as (oks & h' & -> & Hlen & Hsp); [destruct (ok && below h r b); lia| |done|done| |].
  { intros a (f & q & Hq)%Hdom%Hf. exists f, q. by rewrite Hclimb. }
  { eapply Forall_impl; [exact Hcs|]. intros p [? ?]. by rewrite Hdom. }
  exists (ok :: oks), h'. cbn [mbind option_bind length]. split_and!; [done|by rewrite Hlen|].
  assert (spent h r cs oks = spent h1 r cs oks) as Hsame.
  { clear -Hsize Hclimb. revert oks. induction cs as [|[b c] cs IH]; intros [|ok oks]; cbn [spent]; [done..|].
    rewrite IH. unfold below, getPath. by rewrite Hsize, Hclimb. }
  cbn [spent]. lia.
Qed.

(** A cost that is not a number is always admitted, and from then on so is everything: NaN is
    never less than a cost. *)
Theorem htb_nan_opens now now' cost k :
  let k1 := settle true now S754_nan k in
  flt (Tokens (refill_bucket now k)) S754_nan = false ∧ flt (Tokens (refill_bucket now' k1)) cost = false ∧
  Tokens (settle true now' cost k1) = S754_nan.
Proof.
  assert (∀ x, fsub x S754_nan = S754_nan ∧ fadd S754_nan x = S754_nan ∧ flt x S754_nan = false ∧ flt S754_nan x = false ∧ fsub S754_nan x = S754_nan) as HN
    by (intros [| | |]; done).
  destruct (HN (Tokens (refill_bucket now k))) as (H1 & _ & H3 & _). cbn zeta. split; [exact H3|]. cbn in H1 |- *. rewrite H1.
  unfold TokenBucket.refilled. set (y := fmul _ _). destruct (HN y) as (_ & -> & _). destruct (HN (Capacity k)) as (_ & _ & -> & _).
  destruct (HN cost) as (_ & _ & _ & -> & ->). done.
Qed.

(** A tenant of 3 tokens below a root of 5: together with another tenant it cannot get more
    than the root has. *)
Definition two_tenants : option heap :=
  h ← AddChild 0 1 (<[0%nat := htb_New 0 "root" (of_i64 1) (of_i64 5)]>
        (<[1%nat := htb_New 0 "a" (of_i64 1) (of_i64 3)]> (<[2%nat := htb_New 0 "b" (of_i64 1) (of_i64 3)]> ∅)));
  AddChild 0 2 h.
Example htb_two_tenants :
  fst <$> (h ← two_tenants; htb_calls 0 [(1%nat, 2); (2%nat, 3); (1%nat, 1); (2%nat, 1)] h) = Some [true; true; false; false].
Proof. vm_compute. reflexivity. Qed.
End Htb.
