(* ===== verification/MemCache.v ===== *)
(** * pkg/cache: the in-memory cache, and the limiters on top of the cache interface

    [Cache] is the Go interface, with the clock readings of each operation as arguments; the
    in-memory adapter implements it.  A cached value is the JSON of one of the types its
    clients store: a counter or the state of a token bucket.  The fixed-window limiter and the
    sliding-window counter are written against the interface and run on the adapter. *)

From S2P Require Import Prelude Errors Float64 FloatRound GoTime RateLimit.
From stdpp Require Import pretty.
From stdpp Require Import options.
Open Scope Z_scope.

(** ** The interface *)

Inductive value := VInt (z : Z) | VBucket (tokens : float64) (lastRefill : Z).

(* src: pkg/cache/errors.go 5-12 ErrKeyNotFound *)
Definition ErrKeyNotFound : error := NotFound "key not found" None.
(* src: pkg/cache/errors.go 5-12 ErrKeyExpired *)
Definition ErrKeyExpired : error := NotFound "key expired" None.

(* src: pkg/cache/errors.go 14-17 IsNotFound *)
Definition IsNotFound (e : error) : bool := IsCode (Some e) CodeNotFound.

(** [decode] is [json.Unmarshal] into the destination of the caller; [ctx] is the error of
    the context, if it is cancelled. *)
(* src: pkg/cache/cache.go 29-71 Cache *)
Class Cache (C : Type) := {
  Get : ∀ {A}, option error → Z → (value → error + A) → string → C → error + A;
  Set_ : option error → Z → string → value → Z → C → error + C;
  Delete : option error → string → C → error + C;
  Exists_ : option error → Z → string → C → error + bool;
  Expire : option error → Z → Z → string → Z → C → error + C;
  GetTTL : option error → Z → Z → string → C → error + Z;
  Incr : option error → Z → Z → string → Z → C → error + (Z * C) }.

(** [errors.Wrap] of an error. *)
Definition wrap_error (e : error) (msg : string) : error := default e (Wrap (Some e) msg).

(** What json.Unmarshal makes of a value that is not a number. *)
Definition not_a_number : error := OtherError "json: cannot unmarshal object into Go value of type int64".

Definition decode_int (v : value) : error + Z :=
  match v with VInt z => inr z | VBucket _ _ => inl not_a_number end.

(** Every operation starts with the test of the context. *)
Definition with_ctx {A} (ctx : option error) (r : error + A) : error + A :=
  match ctx with Some e => inl e | None => r end.

(** ** The in-memory adapter *)

(** [expiresAt] is [None] for an entry without expiration. *)
(* src: pkg/cache/adapters/memory/memory.go 21-24 item *)
Record item := { val : value; expiresAt : option Z }.

(* src: pkg/cache/adapters/memory/memory.go 26-28 expired *)
Definition expired (now : Z) (it : item) : bool :=
  match expiresAt it with Some t => bool_decide (t < now) | None => false end.

(* src: pkg/cache/adapters/memory/memory.go 30-34 MemoryCache *)
Record MemoryCache := { items : gmap string item }.

(* src: pkg/cache/adapters/memory/memory.go 36-42 New *)
Definition mc_New : MemoryCache := {| items := ∅ |}.

(** An entry that is there and has not expired. *)
Definition live (now : Z) (key : string) (m : MemoryCache) : option item :=
  match items m !! key with
  | Some it => if expired now it then None else Some it
  | None => None
  end.

(* src: pkg/cache/adapters/memory/memory.go 49-64 Get *)
Definition mc_Get {A} (ctx : option error) (now : Z) (decode : value → error + A) (key : string)
    (m : MemoryCache) : error + A :=
  with_ctx ctx
    match items m !! key with
    | None => inl ErrKeyNotFound
    | Some it => if expired now it then inl ErrKeyExpired else decode (val it)
    end.

(** The expiration for a time to live; 0 or less means none. *)
Definition ttl_at (now ttl : Z) : option Z := if decide (0 < ttl) then Some (now + ttl) else None.

(* src: pkg/cache/adapters/memory/memory.go 66-85 Set *)
Definition mc_Set (ctx : option error) (now : Z) (key : string) (v : value) (ttl : Z) (m : MemoryCache)
    : error + MemoryCache :=
  with_ctx ctx (inr {| items := <[key := {| val := v; expiresAt := ttl_at now ttl |}]> (items m) |}).

(* src: pkg/cache/adapters/memory/memory.go 87-95 Delete *)
Definition mc_Delete (ctx : option error) (key : string) (m : MemoryCache) : error + MemoryCache :=
  with_ctx ctx (inr {| items := delete key (items m) |}).

(* src: pkg/cache/adapters/memory/memory.go 97-109 Exists *)
Definition mc_Exists (ctx : option error) (now : Z) (key : string) (m : MemoryCache) : error + bool :=
  with_ctx ctx (inr match live now key m with Some _ => true | None => false end).

(* src: pkg/cache/adapters/memory/memory.go 123-135 MGet *)
Fixpoint mget_loop {A} (now : Z) (decode : value → error + A) (keys : list string) (m : MemoryCache)
    (acc : gmap string A) : error + gmap string A :=
  match keys with
  | [] => inr acc
  | k :: keys =>
      match live now k m with
      | None => mget_loop now decode keys m acc
      | Some it =>
          match decode (val it) with
          | inl e => inl (wrap_error e "failed to unmarshal mget value")
          | inr a => mget_loop now decode keys m (<[k := a]> acc)
          end
      end
  end.

(** The destination is a map; what it held before is kept. *)
(* src: pkg/cache/adapters/memory/memory.go 111-136 MGet *)
Definition mc_MGet {A} (ctx : option error) (now : Z) (decode : value → error + A) (keys : list string)
    (m : MemoryCache) (dest : gmap string A) : error + gmap string A :=
  with_ctx ctx (mget_loop now decode keys m dest).

(** The entries in the order in which Go ranges over their map. *)
(* src: pkg/cache/adapters/memory/memory.go 138-157 MSet *)
Definition mc_MSet (ctx : option error) (now : Z) (kvs : list (string * value)) (ttl : Z) (m : MemoryCache)
    : error + MemoryCache :=
  with_ctx ctx (inr {| items := foldl (λ its p, <[p.1 := {| val := p.2; expiresAt := ttl_at now ttl |}]> its)
                                  (items m) kvs |}).

(* src: pkg/cache/adapters/memory/memory.go 159-177 Expire *)
Definition mc_Expire (ctx : option error) (now1 now2 : Z) (key : string) (ttl : Z) (m : MemoryCache)
    : error + MemoryCache :=
  with_ctx ctx
    match live now1 key m with
    | None => inl ErrKeyNotFound
    | Some it => inr {| items := <[key := {| val := val it; expiresAt := ttl_at now2 ttl |}]> (items m) |}
    end.

(* src: pkg/cache/adapters/memory/memory.go 179-198 GetTTL *)
Definition mc_GetTTL (ctx : option error) (now1 now2 : Z) (key : string) (m : MemoryCache) : error + Z :=
  with_ctx ctx
    match live now1 key m with
    | None => inl ErrKeyNotFound
    | Some it =>
        match expiresAt it with
        | None => inr (-1)
        | Some t =>
            let remaining := time_Sub t now2 in
            if decide (remaining < 0) then inl ErrKeyExpired else inr remaining
        end
    end.

(** A stored value that is not a number reads as 0.  The clock is read before the addition
    ([now1]) and after it ([now2]). *)
(* src: pkg/cache/adapters/memory/memory.go 200-232 Incr *)
Definition mc_Incr (ctx : option error) (now1 now2 : Z) (key : string) (delta : Z) (m : MemoryCache)
    : error + (Z * MemoryCache) :=
  with_ctx ctx
    (let v0 := match live now1 key m with
               | Some it => match decode_int (val it) with inr z => z | inl _ => 0 end
               | None => 0
               end in
     let v := i64 (v0 + delta) in
     let e := match live now2 key m with
              | Some it => expiresAt it
              | None => Some (now2 + 24 * 3600 * 10 ^ 9)
              end in
     inr (v, {| items := <[key := {| val := VInt v; expiresAt := e |}]> (items m) |})).

(** The number of deleted entries. *)
(* src: pkg/cache/adapters/memory/memory.go 234-249 DeletePrefix *)
Definition mc_DeletePrefix (ctx : option error) (prefix : string) (m : MemoryCache) : error + (Z * MemoryCache) :=
  let keep := filter (λ p, String.prefix prefix p.1 = false) (items m) in
  let gone := filter (λ p, String.prefix prefix p.1 = true) (items m) in
  with_ctx ctx (inr (Z.of_nat (size gone), {| items := keep |})).

(* src: pkg/cache/adapters/memory/memory.go 251-256 Close *)
Definition mc_Close (_ : MemoryCache) : MemoryCache := {| items := ∅ |}.

#[export] Instance mc_Cache : Cache MemoryCache := {|
  Get := @mc_Get; Set_ := mc_Set; Delete := mc_Delete; Exists_ := mc_Exists;
  Expire := mc_Expire; GetTTL := mc_GetTTL; Incr := mc_Incr |}.

(** ** Laws of the adapter *)

Lemma mc_Set_Get now now' key v ttl m m' :
  mc_Set None now key v ttl m = inr m' → (ttl ≤ 0 ∨ now' ≤ now + ttl) →
  ∀ A (d : value → error + A), mc_Get None now' d key m' = d v.
Proof.
  intros [= <-] Ht A d. unfold mc_Get; cbn. rewrite lookup_insert_eq. unfold expired, ttl_at; cbn.
  case_decide; [|done]. rewrite bool_decide_false by lia. done.
Qed.

Lemma live_Set_ne now now' key key' v ttl m m' :
  mc_Set None now key v ttl m = inr m' → key' ≠ key → live now' key' m' = live now' key' m.
Proof. intros [= <-] Hne. unfold live; cbn. by rewrite lookup_insert_ne. Qed.

Lemma live_Incr_ne now1 now2 now' key key' d m v m' :
  mc_Incr None now1 now2 key d m = inr (v, m') → key' ≠ key → live now' key' m' = live now' key' m.
Proof. unfold mc_Incr, with_ctx. intros [= _ <-] Hne. unfold live; cbn. by rewrite lookup_insert_ne. Qed.

(** ** The fixed-window limiter *)

Module FixedWindow.
Section FixedWindow.
Context `{Cache C}.
Context (oor : float64 → Z).

(** [time.Time.Truncate] counts from the year 1, which is this long before the epoch. *)
Definition zero_time : Z := 62135596800 * 10 ^ 9.
Definition Truncate (t d : Z) : Z := if decide (d ≤ 0) then t else t - (t + zero_time) mod d.
Definition Unix (t : Z) : Z := t / 10 ^ 9.

(* src: pkg/algorithms/ratelimit/fixedwindow/fixedwindow.go 24-28 Allow *)
Definition cacheKey (now : Z) (key : string) (period : Z) : string :=
  "rl:fixed:" +:+ key +:+ ":" +:+ pretty (Unix (Truncate now period)).

(** The clock readings of a call: for the window, in [Incr], in [Set], for [Reset]. *)
Record clock := { t_window : Z; t_incr1 : Z; t_incr2 : Z; t_set : Z; t_reset : Z }.

(** [None] is the division by zero of a period below a second. *)
(* src: pkg/algorithms/ratelimit/fixedwindow/fixedwindow.go 23-51 Allow *)
Definition fw_Allow (ctx : option error) (t : clock) (key : string) (limit period : Z) (store : C)
    : option ((error + Result) * C) :=
  let k := cacheKey (t_window t) key period in
  match Incr ctx (t_incr1 t) (t_incr2 t) k 1 store with
  | inl e => Some (inl (wrap_error e "ratelimit error"), store)
  | inr (curr, store) =>
      let store :=
        if decide (curr = 1) then
          match Set_ ctx (t_set t) k (VInt 1) (i64 (period * 2)) store with
          | inr store' => store'
          | inl _ => store
          end
        else store in
      let remaining := i64 (limit - curr) in
      let remaining := if decide (remaining < 0) then 0 else remaining in
      let secs := to_i64 oor (Seconds period) in
      if decide (secs = 0) then None
      else
        let resetSeconds := fsub (Seconds period) (of_i64 (Z.rem (Unix (t_reset t)) secs)) in
        Some (inr {| Allowed := bool_decide (curr ≤ limit); Remaining := remaining;
                     Reset := i64 (to_i64 oor resetSeconds * 10 ^ 9) |}, store)
  end.

(** A sequence of calls for one key, with what each was allowed. *)
Fixpoint fw_run (ts : list clock) (key : string) (limit period : Z) (store : C) : option (list bool) :=
  match ts with
  | [] => Some []
  | t :: ts =>
      match fw_Allow None t key limit period store with
      | Some (inr r, store') =>
          match fw_run ts key limit period store' with Some bs => Some (Allowed r :: bs) | None => None end
      | _ => None
      end
  end.
End FixedWindow.

(** The readings of a call lie between [lo] and [hi], and the window is window [w]. *)
Definition clock_in (lo hi w period : Z) (t : clock) : Prop :=
  Unix (Truncate (t_window t) period) = w ∧ lo ≤ t_incr1 t ≤ hi ∧ lo ≤ t_incr2 t ≤ hi ∧ lo ≤ t_set t ≤ hi.

(** The entry of the window's counter after [k > 0] calls. *)
Definition counted (key : string) (k w lo hi : Z) (m : MemoryCache) : Prop :=
  ∃ e, items m !! ("rl:fixed:" +:+ key +:+ ":" +:+ pretty w) = Some {| val := VInt k; expiresAt := e |} ∧
    match e with Some t => hi ≤ t | None => True end.

Section exact.
Context (oor : float64 → Z) (key : string) (limit period lo hi w : Z).
Hypothesis Hperiod : 0 < period < 2 ^ 62.
Hypothesis Hsecs : to_i64 oor (Seconds period) ≠ 0.
Hypothesis Hhi : hi ≤ lo + 2 * period.
#[local] Set Default Proof Using "Type*".

Lemma live_counted k m t :
  counted key k w lo hi m → t ≤ hi →
  ∃ e, live t ("rl:fixed:" +:+ key +:+ ":" +:+ pretty w) m = Some {| val := VInt k; expiresAt := e |} ∧
    match e with Some t => hi ≤ t | None => True end.
Proof.
  intros (e & He & Hb) Ht. exists e. split; [|done]. unfold live, expired. rewrite He. cbn.
  destruct e; [|done]. by rewrite bool_decide_false by lia.
Qed.

(** A call that finds the counter at [k] moves it to [k + 1]. *)
Lemma fw_Allow_step t k m :
  clock_in lo hi w period t → 1 ≤ k < 2 ^ 63 - 1 → counted key k w lo hi m →
  ∃ r m', fw_Allow oor None t key limit period m = Some (inr r, m') ∧
    Allowed r = bool_decide (k + 1 ≤ limit) ∧ counted key (k + 1) w lo hi m'.
Proof.
  intros (Hw & H1 & H2 & H3) Hk Hc. unfold fw_Allow, cacheKey. rewrite Hw.
  set (ck := "rl:fixed:" +:+ key +:+ ":" +:+ pretty w).
  destruct (live_counted k m (t_incr1 t) Hc ltac:(lia)) as (e1 & He1 & _).
  destruct (live_counted k m (t_incr2 t) Hc ltac:(lia)) as (e2 & He2 & Hb2). fold ck in He1, He2.
  change (Incr (Cache := mc_Cache)) with mc_Incr. unfold mc_Incr, with_ctx. rewrite He1, He2. cbn [decode_int val expiresAt].
  rewrite i64_id by (unfold is_i64; lia). rewrite (decide_False (P := k + 1 = 1)) by lia.
  rewrite (decide_False (P := to_i64 oor _ = 0)) by done.
  eexists _, _. split_and!; [done|done|]. exists e2. split; [|done]. cbn. fold ck. by rewrite lookup_insert_eq.
Qed.

(** The first call of a window creates the counter. *)
Lemma fw_Allow_first t m :
  clock_in lo hi w period t → items m !! ("rl:fixed:" +:+ key +:+ ":" +:+ pretty w) = None →
  ∃ r m', fw_Allow oor None t key limit period m = Some (inr r, m') ∧
    Allowed r = bool_decide (1 ≤ limit) ∧ counted key 1 w lo hi m'.
Proof.
  intros (Hw & H1 & H2 & H3) Hn. unfold fw_Allow, cacheKey. rewrite Hw.
  set (ck := "rl:fixed:" +:+ key +:+ ":" +:+ pretty w) in *.
  change (Incr (Cache := mc_Cache)) with mc_Incr. unfold mc_Incr, with_ctx, live. rewrite Hn.
  change (i64 (0 + 1)) with 1. rewrite (decide_True (P := 1 = 1)) by done.
  rewrite (decide_False (P := to_i64 oor _ = 0)) by done.
  eexists _, _. split_and!; [done|done|].
  exists (Some (t_set t + period * 2)). split; [|lia].
  cbn. fold ck. rewrite lookup_insert_eq. unfold ttl_at.
  rewrite i64_id by (unfold is_i64; lia). by rewrite decide_True by lia.
Qed.

Lemma fw_run_counted ts k m :
  Forall (clock_in lo hi w period) ts → 1 ≤ Z.of_nat k → Z.of_nat k + Z.of_nat (length ts) < 2 ^ 63 →
  counted key (Z.of_nat k) w lo hi m →
  fw_run oor ts key limit period m =
    Some ((λ i, bool_decide (Z.of_nat i ≤ limit)) <$> seq (S k) (length ts)).
Proof.
  intros Hts. revert k m. induction Hts as [|t ts Ht Hts IH]; intros k m Hk Hlen Hc; [done|].
  cbn [fw_run length] in *.
  destruct (fw_Allow_step t (Z.of_nat k) m Ht ltac:(lia) Hc) as (r & m' & -> & Hr & Hc').
  replace (Z.of_nat k + 1) with (Z.of_nat (S k)) in Hr, Hc' by lia.
  rewrite (IH (S k)) by (done || lia). cbn [seq]. rewrite fmap_cons. by rewrite Hr.
Qed.
End exact.

(** The fixed-window limiter on the in-memory cache admits exactly the first [limit]
    calls of a window: for a period of at least a second, calls made one after the other
    with the same key in the same window (and with all their clock readings within two
    periods of the first) are allowed one by one, call number [i] exactly if [i <= limit]. *)
Theorem fixed_window_exact oor key limit period lo hi w ts m :
  0 < period < 2 ^ 62 → to_i64 oor (Seconds period) ≠ 0 → hi ≤ lo + 2 * period →
  Forall (clock_in lo hi w period) ts → Z.of_nat (length ts) < 2 ^ 63 →
  items m !! ("rl:fixed:" +:+ key +:+ ":" +:+ pretty w) = None →
  fw_run oor ts key limit period m =
    Some ((λ i, bool_decide (Z.of_nat i ≤ limit)) <$> seq 1 (length ts)).
Proof.
  intros Hp Hs Hhi Hts Hlen Hn. destruct Hts as [|t ts Ht Hts]; [done|]. cbn [fw_run length] in *.
  destruct (fw_Allow_first oor key limit period lo hi w Hp Hs Hhi t m Ht Hn) as (r & m' & -> & Hr & Hc).
  rewrite (fw_run_counted oor key limit period lo hi w Hp Hs Hhi ts 1 m') by (done || lia).
  cbn [seq]. rewrite fmap_cons. by rewrite Hr.
Qed.

Lemma fixed_window_exact_witness :
  let t k := {| t_window := k; t_incr1 := k; t_incr2 := k; t_set := k; t_reset := k |} in
  fw_run (λ _, 0) [t 1; t 2; t 3] "k" 2 (10 ^ 9) mc_New = Some [true; true; false].
Proof.
  intros t. rewrite (fixed_window_exact (λ _, 0) "k" 2 (10 ^ 9) 1 3 0 [t 1; t 2; t 3] mc_New).
  - vm_compute. reflexivity.
  - lia.
  - vm_compute. done.
  - lia.
  - repeat constructor; cbn; lia.
  - cbn. lia.
  - done.
Defined.

(** A period below a second divides by zero. *)
Theorem fixed_window_subsecond_panics t m :
  fw_Allow (C := MemoryCache) (λ _, 0) None t "k" 10 (5 * 10 ^ 8) m = None.
Proof.
  unfold fw_Allow. change (Incr (Cache := mc_Cache)) with mc_Incr. unfold mc_Incr, with_ctx.
  assert (to_i64 (λ _, 0) (Seconds (5 * 10 ^ 8)) = 0) as -> by (vm_compute; reflexivity).
  by rewrite (decide_True (P := 0 = 0)).
Qed.

(** Two processes: the first sees the counter at 1, the second moves it to 2, and then the
    [Set] of the first resets it to 1, so that a limit of 2 admits three calls. *)
Definition race (k : string) (m : MemoryCache) : error + (Z * Z * Z) :=
  match mc_Incr None 1 1 k 1 m with
  | inr (v1, m) =>
      match mc_Incr None 1 1 k 1 m with
      | inr (v2, m) =>
          match mc_Set None 1 k (VInt v1) (2 * 10 ^ 9) m with
          | inr m => match mc_Incr None 1 1 k 1 m with inr (v3, _) => inr (v1, v2, v3) | inl e => inl e end
          | inl e => inl e
          end
      | inl e => inl e
      end
  | inl e => inl e
  end.

Theorem fixed_window_race : race "rl:fixed:k:0" mc_New = inr (1, 2, 2).
Proof. vm_compute. reflexivity. Qed.
End FixedWindow.

(** ** The sliding-window counter *)

Module SlidingCounter.
Import FixedWindow.

(* src: pkg/algorithms/ratelimit/slidingwindow/slidingwindow.go 26-32 windowKey *)
Definition windowKey (key : string) (windowStart : Z) : string := key +:+ ":" +:+ pretty windowStart.

(** The clock readings of a call: [time.Now], the two [Get]s, [time.Until], [Incr] and [Set]. *)
Record readings := { r_now : Z; r_get1 : Z; r_get2 : Z; r_until : Z; r_incr1 : Z; r_incr2 : Z; r_set : Z }.

(* src: pkg/algorithms/ratelimit/slidingwindow/slidingwindow.go 56-56 Allow *)
Definition windowStart (now period : Z) : Z := Unix (Truncate now period).
(* src: pkg/algorithms/ratelimit/slidingwindow/slidingwindow.go 57-60 Allow *)
Definition prevStart (now period : Z) : Z :=
  if decide (period < 10 ^ 9) then windowStart now period - 1
  else windowStart now period - Z.quot period (10 ^ 9).

(* src: pkg/algorithms/ratelimit/slidingwindow/slidingwindow.go 74-81 Allow *)
Definition weight (now period : Z) : float64 :=
  let elapsed := Seconds (time_Sub now (Truncate now period)) in
  let w := fsub (of_i64 1) (fdiv elapsed (Seconds period)) in
  let w := if flt w (of_i64 0) then of_i64 0 else w in
  if flt (of_i64 1) w then of_i64 1 else w.

(* src: pkg/algorithms/ratelimit/slidingwindow/slidingwindow.go 83-83 Allow *)
Definition estimate (prev curr : Z) (w : float64) : float64 :=
  fadd (fmul (of_i64 prev) w) (of_i64 (i64 (curr + 1))).

Section SlidingCounter.
Context `{Cache C}.
Context (oor : float64 → Z).

(* src: pkg/algorithms/ratelimit/slidingwindow/slidingwindow.go 34-44 loadCount *)
Definition loadCount (ctx : option error) (now : Z) (key : string) (store : C) : error + Z :=
  match Get ctx now decode_int key store with
  | inl e => if IsNotFound e then inr 0 else inl e
  | inr n => inr n
  end.

(** The two counters. *)
(* src: pkg/algorithms/ratelimit/slidingwindow/slidingwindow.go 62-72 Allow *)
Definition sw_load (ctx : option error) (t : readings) (key : string) (period : Z) (store : C) : error + (Z * Z) :=
  match loadCount ctx (r_get1 t) (windowKey key (windowStart (r_now t) period)) store with
  | inl e => inl (wrap_error e "slidingwindow curr get")
  | inr curr =>
      match loadCount ctx (r_get2 t) (windowKey key (prevStart (r_now t) period)) store with
      | inl e => inl (wrap_error e "slidingwindow prev get")
      | inr prev => inr (curr, prev)
      end
  end.

Definition clamp0 (z : Z) : Z := if decide (z < 0) then 0 else z.

(** The rest of the call, for the counters that were read. *)
(* src: pkg/algorithms/ratelimit/slidingwindow/slidingwindow.go 74-115 Allow *)
Definition sw_finish (ctx : option error) (t : readings) (key : string) (limit period : Z) (curr prev : Z) (store : C)
    : (error + Result) * C :=
  let w := weight (r_now t) period in
  let est := estimate prev curr w in
  let reset := time_Sub (Truncate (r_now t) period + period) (r_until t) in
  if flt (of_i64 limit) est then
    (inr {| Allowed := false;
            Remaining := clamp0 (i64 (limit - to_i64 oor (fadd (fmul (of_i64 prev) w) (of_i64 curr))));
            Reset := reset |}, store)
  else
    let k := windowKey key (windowStart (r_now t) period) in
    match Incr ctx (r_incr1 t) (r_incr2 t) k 1 store with
    | inl e => (inl (wrap_error e "slidingwindow incr"), store)
    | inr (newCurr, store) =>
        let store :=
          if decide (newCurr = 1) then
            match Set_ ctx (r_set t) k (VInt newCurr) (i64 (period * 2)) store with inr store' => store' | inl _ => store end
          else store in
        (inr {| Allowed := true; Remaining := clamp0 (i64 (limit - to_i64 oor est)); Reset := reset |}, store)
    end.

(** The store can be nil. *)
(* src: pkg/algorithms/ratelimit/slidingwindow/slidingwindow.go 46-115 Allow *)
Definition sw_Allow (ctx : option error) (t : readings) (key : string) (limit period : Z) (store : option C)
    : (error + Result) * option C :=
  match store with
  | None => (inl (InvalidArgument "slidingwindow Limiter requires a non-nil cache store" None), None)
  | Some c =>
      if decide (limit ≤ 0 ∨ period ≤ 0) then
        (inl (InvalidArgument "limit and period must be positive" None), Some c)
      else
        match sw_load ctx t key period c with
        | inl e => (inl e, Some c)
        | inr (curr, prev) => let '(r, c) := sw_finish ctx t key limit period curr prev c in (r, Some c)
        end
  end.

(** Calls for one key, with what each was allowed. *)
Fixpoint sw_run (ts : list readings) (key : string) (limit period : Z) (store : option C) : option (list bool) :=
  match ts with
  | [] => Some []
  | t :: ts =>
      match sw_Allow None t key limit period store with
      | (inr r, store) => (λ bs, Allowed r :: bs) <$> sw_run ts key limit period store
      | _ => None
      end
  end.
End SlidingCounter.

(** *** The estimate *)

Lemma Seconds_finite d : 0 ≤ d < 2 ^ 63 → finite (Seconds d).
Proof.
  intros Hd. destruct (Seconds_val d Hd) as (V & S & _ & Hle). split; [done|]. eapply Z.le_lt_trans; [exact Hle|].
  apply whole_lt_huge. Z.to_euclidean_division_equations; lia.
Qed.

Lemma Seconds_positive d : 10 ^ 9 ≤ d < 2 ^ 63 → ∃ m e, Seconds d = S754_finite false m e.
Proof.
  intros Hd. destruct (Seconds_finite d ltac:(lia)) as [[_ S] F]. apply (positive_finite _ S). split; [|done].
  destruct (Seconds_val d ltac:(lia)) as (_ & _ & Hlo & _). eapply Z.lt_le_trans; [|exact Hlo].
  apply Z.mul_pos_pos; [|apply Z.pow_pos_nonneg; lia]. apply Z.div_str_pos. lia.
Qed.

Lemma whole_finite z : 0 ≤ z < 2 ^ 53 → finite (of_i64 z).
Proof. intros Hz. split; [apply good_whole; lia|]. rewrite of_i64_val by done. apply whole_lt_huge. lia. Qed.

(** The weight is a finite number that is not negative, or the negative zero. *)
Lemma weight_spec now period : 10 ^ 9 ≤ period < 2 ^ 63 →
  weight now period = S754_zero true ∨ finite (weight now period).
Proof.
  intros Hp. unfold weight. set (e := time_Sub now (Truncate now period)). assert (0 ≤ e < period) as He.
  { unfold e, time_Sub, Truncate. rewrite decide_False by lia. pose proof (Z.mod_pos_bound (now + zero_time) period ltac:(lia)). lia. }
  destruct (Seconds_finite e ltac:(lia)) as [[Ve Se] Fe]. destruct (Seconds_positive period Hp) as (m & x & ->).
  destruct (fdiv_valid (Seconds e) m x Ve Se Fe) as (Vd & Sd & _). set (d := fdiv _ _) in *.
  pose proof (whole_finite 1 ltac:(lia)) as [[V1 S1] F1]. pose proof (whole_finite 0 ltac:(lia)) as H0.
  assert (finite (of_i64 1)) as H1 by done.
  destruct (decide (FloatRound.val d ≤ FloatRound.val (of_i64 1))) as [Hle|Hgt].
  - right. destruct (fsub_val (of_i64 1) d V1 Vd S1 Sd) as (V & S & _); [done|].
    pose proof (fsub_le (of_i64 1) d V1 Vd S1 Sd ltac:(done)) as Hl. repeat case_match; [done..|]. split; [done|lia].
  - pose proof (fsub_neg (of_i64 1) d V1 Vd S1 Sd ltac:(lia)) as S. destruct (fsub (of_i64 1) d) as [s|s| |s m' e']; cbn in S; subst; try done.
    + by left.
    + by right.
    + by right.
Qed.

(** At the start of a window the whole of the previous one counts. *)
Lemma weight_start now period : 10 ^ 9 ≤ period < 2 ^ 63 → Truncate now period = now → weight now period = of_i64 1.
Proof.
  intros Hp Ht. unfold weight. rewrite Ht. replace (time_Sub now now) with 0 by (unfold time_Sub; lia).
  by destruct (Seconds_positive period Hp) as (m & x & ->).
Qed.

(** The estimate is at least the count with the new call, and equal to it after an empty
    window. *)
Lemma estimate_ge prev curr w : 0 ≤ prev < 2 ^ 53 → 0 ≤ curr < 2 ^ 53 - 1 → w = S754_zero true ∨ finite w →
  fle (of_i64 (curr + 1)) (estimate prev curr w) ∧ is_num (estimate prev curr w) ∧
  (prev = 0 → estimate prev curr w = of_i64 (curr + 1)).
Proof.
  intros Hprev Hcurr Hw. unfold estimate. rewrite i64_id by (unfold is_i64; lia).
  pose proof (whole_finite (curr + 1) ltac:(lia)) as [[Vc Sc] Fc]. pose proof (whole_finite prev Hprev) as [[Vp Sp] Fp].
  destruct (positive_finite (of_i64 (curr + 1)) Sc) as (m & e & Ec).
  { split; [|done]. rewrite of_i64_val by lia. apply Z.mul_pos_pos; [lia|]. apply Z.pow_pos_nonneg; lia. }
  assert (∀ s, fadd (S754_zero s) (of_i64 (curr + 1)) = of_i64 (curr + 1)) as Hzero by (intros s; by rewrite Ec).
  destruct Hw as [->|[[Vw Sw] Fw]].
  - assert (∃ s, fmul (of_i64 prev) (S754_zero true) = S754_zero s) as [s ->].
    { destruct (of_i64 prev) as [s|s| |s m' e']; [by eexists|cbn [FloatRound.val] in Fp; lia|done|by eexists]. }
    rewrite Hzero. split_and!; [apply fle_refl|by eapply has_sign_num|done].
  - destruct (fmul_val _ _ Vp Vw Sp Sw Fp Fw) as (Vm & Sm & _). destruct (fadd_val _ _ Vm Vc Sm Sc) as (Va & Sa & Ha).
    split_and!; [|by eapply has_sign_num|].
    + apply fle_val; [done..|]. rewrite Ha. pose proof (val_nonneg (fmul (of_i64 prev) w)). pose proof (val_le_huge _ Vc).
      pose proof (rnd_mono 0 (FloatRound.val (of_i64 (curr + 1))) (FloatRound.val (fmul (of_i64 prev) w) + FloatRound.val (of_i64 (curr + 1)))) as Hm.
      rewrite rnd_val0 in Hm by done. pose proof (val_nonneg (of_i64 (curr + 1))). lia.
    + intros ->. assert (∃ s, fmul (of_i64 0) w = S754_zero s) as [s ->]; [|apply Hzero].
      destruct w as [s|s| |s m' e']; [by eexists|cbn [FloatRound.val] in Fw; lia|done|by eexists].
Qed.

Lemma flt_whole a b : 0 ≤ a < 2 ^ 53 → 0 ≤ b < 2 ^ 53 → flt (of_i64 a) (of_i64 b) = bool_decide (a < b).
Proof.
  intros Ha Hb. destruct (of_i64_good a ltac:(lia)) as [Va Sa]. destruct (of_i64_good b ltac:(lia)) as [Vb Sb].
  pose proof (fle_val (of_i64 b) (of_i64 a) Vb Va Sb Sa) as H. rewrite !of_i64_val in H by done. unfold fle in H.
  rewrite <- Z.mul_le_mono_pos_r in H by (apply Z.pow_pos_nonneg; lia).
  case_bool_decide; destruct (flt _ _); naive_solver lia.
Qed.

Lemma estimate_start limit prev curr : 0 ≤ limit < 2 ^ 53 → 0 ≤ prev → 0 ≤ curr → prev + curr + 1 < 2 ^ 53 →
  flt (of_i64 limit) (estimate prev curr (of_i64 1)) = bool_decide (limit < prev + curr + 1).
Proof.
  intros Hl Hp Hc Hs. unfold estimate. rewrite i64_id by (unfold is_i64; lia).
  destruct (whole_finite prev ltac:(lia)) as [[Vp Sp] Fp]. destruct (whole_finite (curr + 1) ltac:(lia)) as [[Vc Sc] Fc].
  destruct (whole_finite 1 ltac:(lia)) as [[V1 S1] F1]. destruct (whole_finite limit Hl) as [[Vl Sl] Fl].
  destruct (fmul_val _ _ Vp V1 Sp S1 Fp F1) as (Vm & Sm & Hm).
  rewrite (of_i64_val 1), Z.mul_1_l, rnd_val, Z.min_l in Hm by (done || lia || by apply val_le_huge).
  destruct (fadd_val _ _ Vm Vc Sm Sc) as (Va & Sa & Ha).
  pose proof (fle_val _ _ Va Vl Sa Sl) as Hle. rewrite Ha, Hm, !of_i64_val, <- Z.mul_add_distr_r in Hle by lia.
  pose proof (rnd_exact 0 (prev + (curr + 1)) 1074 ltac:(lia) ltac:(lia) ltac:(lia)) as Hr. rewrite Z.mul_1_r in Hr. rewrite Hr in Hle.
  rewrite Z.min_l in Hle by (apply Z.lt_le_incl, whole_lt_huge; lia).
  rewrite <- Z.mul_le_mono_pos_r in Hle by (apply Z.pow_pos_nonneg; lia). unfold fle in Hle.
  case_bool_decide; destruct (flt _ _); naive_solver lia.
Qed.

(** *** A window *)

(** The counter at a key stands at [k] until [hi]; there is none for 0. *)
Definition counter (ck : string) (k hi : Z) (m : MemoryCache) : Prop :=
  if decide (k = 0) then items m !! ck = None
  else ∃ e, items m !! ck = Some {| val := VInt k; expiresAt := e |} ∧ match e with Some t => hi ≤ t | None => True end.

(** A missing counter and an expired one read as 0. *)
Lemma load_live t ck m :
  loadCount None t ck m = match live t ck m with Some it => decode_int (val it) | None => inr 0 end.
Proof.
  unfold loadCount, live. cbn [Get mc_Cache]. unfold mc_Get, with_ctx. destruct (items m !! ck) as [it|]; [|done].
  destruct (expired t it); [done|]. by destruct (val it).
Qed.

Lemma counter_live ck k hi t m : counter ck k hi m → t ≤ hi →
  ∃ e, live t ck m = (if decide (k = 0) then None else Some {| val := VInt k; expiresAt := e |}) ∧
    match e with Some t => hi ≤ t | None => True end.
Proof.
  unfold counter, live. case_decide as Hk; [intros -> _; by exists None|]. intros (e & -> & He) Ht. exists e. split; [|done].
  unfold expired. cbn. destruct e as [x|]; [|done]. by rewrite bool_decide_false by lia.
Qed.

Lemma counter_load ck k hi t m : counter ck k hi m → t ≤ hi → loadCount None t ck m = inr k.
Proof.
  intros Hc Ht. rewrite load_live. destruct (counter_live ck k hi t m Hc Ht) as (e & -> & _). by case_decide; subst.
Qed.

Section window.
Context (oor : float64 → Z) (key : string) (limit period lo hi w p : Z).
Hypothesis Hlimit : 0 < limit < 2 ^ 53 - 1.
Hypothesis Hperiod : 10 ^ 9 ≤ period < 2 ^ 62.
Hypothesis Hhi : hi ≤ lo + 2 * period.
Hypothesis Hp : 0 ≤ p < 2 ^ 53.
#[local] Set Default Proof Using "All".
Let ck := windowKey key w.
Let pk := windowKey key (w - Z.quot period (10 ^ 9)).

(** The readings of a call in window [w]. *)
Definition in_window (t : readings) : Prop :=
  windowStart (r_now t) period = w ∧ r_get1 t ≤ hi ∧ r_get2 t ≤ hi ∧ r_incr1 t ≤ hi ∧ r_incr2 t ≤ hi ∧ lo ≤ r_set t.

Lemma keys_differ : pk ≠ ck.
Proof.
  unfold pk, ck, windowKey. intros E. apply (inj (String.append key)), (inj (String.append ":")), (inj pretty) in E.
  assert (1 ≤ Z.quot period (10 ^ 9)) by (rewrite Z.quot_div_nonneg by lia; apply Z.div_le_lower_bound; lia). lia.
Qed.

Lemma sw_Allow_step t k m : in_window t → 0 ≤ k ≤ limit → counter ck k hi m → counter pk p hi m →
  let ok := negb (flt (of_i64 limit) (estimate p k (weight (r_now t) period))) in
  ∃ r m', sw_Allow oor None t key limit period (Some m) = (inr r, Some m') ∧ Allowed r = ok ∧
    counter ck (if ok then k + 1 else k) hi m' ∧ counter pk p hi m'.
Proof.
  intros (Hw & Hg1 & Hg2 & Hi1 & Hi2 & Hs) Hk Hc Hpc. unfold sw_Allow. rewrite decide_False by lia.
  unfold sw_load, prevStart. rewrite decide_False, Hw by lia. fold ck pk. rewrite (counter_load ck k hi), (counter_load pk p hi) by done.
  unfold sw_finish. destruct (flt _ _); cbn [negb]; [by eexists _, m|]. rewrite Hw. fold ck.
  cbn [Incr mc_Cache]. unfold mc_Incr, with_ctx.
  destruct (counter_live ck k hi (r_incr1 t) m Hc Hi1) as (e1 & -> & _).
  destruct (counter_live ck k hi (r_incr2 t) m Hc Hi2) as (e2 & -> & He2).
  assert (match (if decide (k = 0) then None else Some {| val := VInt k; expiresAt := e1 |}) with
    | Some it => match decode_int (val it) with inl _ => 0 | inr z => z end | None => 0 end = k) as -> by (case_decide; by subst).
  rewrite (i64_id (k + 1)) by (unfold is_i64; lia).
  assert (∀ i, counter pk p hi {| items := <[ck := i]> (items m) |}) as Hkeep.
  { intros i. unfold counter. cbn. by rewrite lookup_insert_ne by (symmetry; apply keys_differ). }
  destruct (decide (k = 0)) as [->|Hk0].
  - rewrite decide_True by done. cbn [Set_ mc_Cache]. unfold mc_Set, with_ctx, ttl_at.
    rewrite (i64_id (period * 2)) by (unfold is_i64; lia). rewrite decide_True by lia. eexists _, _. split_and!; [done|done| |].
    + unfold counter. rewrite decide_False by lia. cbn. rewrite lookup_insert_eq. eexists. split; [done|]. cbn. lia.
    + cbn [items]. rewrite insert_insert_eq. apply Hkeep.
  - rewrite decide_False by lia. eexists _, _. split_and!; [done|done| |apply Hkeep].
    unfold counter. rewrite decide_False by lia. cbn. rewrite lookup_insert_eq. by exists e2.
Qed.

(** What the calls of the window are allowed, when [q] stands for the previous window in
    every estimate. *)
Lemma sw_run_counted ts k m q :
  Forall in_window ts → 0 ≤ k ≤ limit → counter ck k hi m → counter pk p hi m →
  ∃ bs, sw_run oor ts key limit period (Some m) = Some bs ∧ k + Z.of_nat (length (filter (λ b, b = true) bs)) ≤ limit ∧
    (Forall (λ t, ∀ k, 0 ≤ k ≤ limit → flt (of_i64 limit) (estimate p k (weight (r_now t) period)) = bool_decide (limit < q + k + 1)) ts →
     bs = (λ i, bool_decide (q + k + Z.of_nat i ≤ limit)) <$> seq 1 (length ts)).
Proof.
  intros Hts. revert k m. induction Hts as [|t ts Ht Hts IH]; intros k m Hk Hc Hpc; [exists []; cbn; split_and!; [done|lia|done]|].
  destruct (sw_Allow_step t k m Ht Hk Hc Hpc) as (r & m' & HA & Hr & Hc' & Hpc'). cbn [sw_run]. rewrite HA, Hr.
  destruct (estimate_ge p k (weight (r_now t) period) Hp ltac:(lia) (weight_spec (r_now t) period ltac:(lia))) as (Hge & Hnum & _).
  destruct (flt _ _) eqn:Ef; cbn [negb] in *.
  - destruct (IH k m' Hk Hc' Hpc') as (bs & -> & Hlen & Hex). exists (false :: bs). cbn [fmap option_fmap option_map].
    split_and!; [done|by rewrite filter_cons_False by done|]. intros [Hd Hf]%Forall_cons. specialize (Hd k Hk). rewrite Ef in Hd.
    symmetry in Hd. apply bool_decide_eq_true in Hd. rewrite (Hex Hf). cbn [length seq]. rewrite fmap_cons, bool_decide_false by lia. f_equal.
    rewrite <- (fmap_S_seq 1), <- list_fmap_compose. apply list_fmap_ext. intros i x [-> _]%lookup_seq. cbn. apply bool_decide_ext. lia.
  - assert (k + 1 ≤ limit) as Hk1.
    { pose proof (whole_finite limit ltac:(lia)) as [[_ Sl] _]. pose proof (whole_finite (k + 1) ltac:(lia)) as [[_ Sk] _].
      assert (fle (of_i64 (k + 1)) (of_i64 limit)) as Hle by (eapply fle_trans; [by eapply has_sign_num|exact Hnum|by eapply has_sign_num|done|exact Ef]).
      unfold fle in Hle. rewrite flt_whole in Hle by lia. apply bool_decide_eq_false in Hle. lia. }
    destruct (IH (k + 1) m' ltac:(lia) Hc' Hpc') as (bs & -> & Hlen & Hex). exists (true :: bs). cbn [fmap option_fmap option_map].
    split_and!; [done|rewrite filter_cons_True by done; cbn [length]; lia|]. intros [Hd Hf]%Forall_cons. specialize (Hd k Hk). rewrite Ef in Hd.
    symmetry in Hd. apply bool_decide_eq_false in Hd. rewrite (Hex Hf). cbn [length seq]. rewrite fmap_cons, bool_decide_true by lia. f_equal.
    rewrite <- (fmap_S_seq 1), <- list_fmap_compose. apply list_fmap_ext. intros i x [-> _]%lookup_seq. cbn. apply bool_decide_ext. lia.
Qed.
End window.

(** The sliding-window counter on the in-memory cache, for a period of at least a second:
    calls made one after the other in one window (with their clock readings within two
    periods of the first) are at most [limit] admitted ones, whatever the previous window
    counted.  After an empty window call number [i] is admitted exactly if [i <= limit]; at
    the very start of a window the [p] calls of the previous one still count in full. *)
Theorem sliding_counter_window oor key limit period lo hi w p ts m :
  0 < limit < 2 ^ 52 → 10 ^ 9 ≤ period < 2 ^ 62 → hi ≤ lo + 2 * period → 0 ≤ p < 2 ^ 52 →
  Forall (in_window period lo hi w) ts →
  counter (windowKey key w) 0 hi m → counter (windowKey key (w - Z.quot period (10 ^ 9))) p hi m →
  ∃ bs, sw_run oor ts key limit period (Some m) = Some bs ∧
    Z.of_nat (length (filter (λ b, b = true) bs)) ≤ limit ∧
    (p = 0 ∨ Forall (λ t, Truncate (r_now t) period = r_now t) ts →
     bs = (λ i, bool_decide (p + Z.of_nat i ≤ limit)) <$> seq 1 (length ts)).
Proof.
  intros Hl Hper Hhi Hp Hts Hc Hpc.
  destruct (sw_run_counted oor key limit period lo hi w p ltac:(lia) Hper Hhi ltac:(lia) ts 0 m p Hts ltac:(lia) Hc Hpc) as (bs & Hrun & Hlen & Hex).
  exists bs. split_and!; [done|lia|]. intros Hcase. rewrite Hex; [apply list_fmap_ext; intros i x _; by rewrite Z.add_0_r|].
  apply Forall_forall. intros t Ht k Hk. destruct Hcase as [->|Hstart].
  - destruct (estimate_ge 0 k (weight (r_now t) period) ltac:(lia) ltac:(lia) (weight_spec (r_now t) period ltac:(lia))) as (_ & _ & ->); [|done].
    by rewrite flt_whole by lia.
  - rewrite Forall_forall in Hstart. rewrite weight_start by (lia || by apply Hstart). apply estimate_start; lia.
Qed.

(** All the readings of a call at one time. *)
Definition all_at (t : Z) : readings :=
  {| r_now := t; r_get1 := t; r_get2 := t; r_until := t; r_incr1 := t; r_incr2 := t; r_set := t |}.

Lemma sliding_counter_window_witness :
  ∃ bs, sw_run (λ _, 0) (all_at <$> [1; 2; 3]) "k" 2 (10 ^ 9) (Some mc_New) = Some bs ∧
    Z.of_nat (length (filter (λ b, b = true) bs)) ≤ 2 ∧
    (0 = 0 ∨ Forall (λ t, Truncate (r_now t) (10 ^ 9) = r_now t) (all_at <$> [1; 2; 3]) →
     bs = (λ i, bool_decide (0 + Z.of_nat i ≤ 2)) <$> seq 1 (length (all_at <$> [1; 2; 3]))).
Proof.
  apply (sliding_counter_window (λ _, 0) "k" 2 (10 ^ 9) 1 3 0 0 (all_at <$> [1; 2; 3]) mc_New); [lia|lia|lia|lia| |done|done].
  repeat constructor; cbn; lia.
Defined.

(** Errors: no store, limits or periods that are not positive, and a failing store; the
    store is left as it was. *)
Lemma sw_Allow_errors oor ctx t key limit period (m : MemoryCache) :
  (sw_Allow (C := MemoryCache) oor ctx t key limit period None).1 =
    inl (InvalidArgument "slidingwindow Limiter requires a non-nil cache store" None) ∧
  (limit ≤ 0 ∨ period ≤ 0 → sw_Allow oor ctx t key limit period (Some m) =
    (inl (InvalidArgument "limit and period must be positive" None), Some m)) ∧
  (∀ e, 0 < limit → 0 < period → IsNotFound e = false → sw_Allow oor (Some e) t key limit period (Some m) =
    (inl (wrap_error e "slidingwindow curr get"), Some m)).
Proof.
  split_and!; [done|intros H; cbn [sw_Allow]; by rewrite decide_True|]. intros e Hl Hp He. cbn [sw_Allow]. rewrite decide_False by lia.
  unfold sw_load, loadCount. cbn [Get mc_Cache]. unfold mc_Get, with_ctx. by rewrite He.
Qed.

(** A period of one second and a half: its windows start at 1.5 s and 3 s, with the keys of
    seconds 1 and 3, but the second one looks for its predecessor at second 2.  Four calls
    pass within a tenth of a second where the limit is two. *)
Theorem sliding_counter_forgets :
  sw_run (λ _, 0) (all_at <$> [2900000000; 2900000000; 3000000000; 3000000000]) "k" 2 1500000000 (Some mc_New) =
  Some [true; true; true; true].
Proof. vm_compute. reflexivity. Qed.

(** Below a second all the windows of a second share a counter: with two calls allowed in
    100 ms, two calls at the start still count in full in the middle of the next window, where
    half of them should. *)
Theorem sliding_counter_subsecond :
  sw_run (λ _, 0) (all_at <$> [0; 0; 150000000]) "k" 2 100000000 (Some mc_New) = Some [true; true; false] ∧
  flt (of_i64 2) (estimate 2 0 (weight 150000000 100000000)) = false.
Proof. vm_compute. split; reflexivity. Qed.

(** Two calls at once read the counters before either adds to them: both are admitted under a
    limit of one. *)
Theorem sliding_counter_race :
  let t := all_at 1 in
  let load := sw_load None t "k" (10 ^ 9) mc_New in
  load = inr (0, 0) ∧
  let '(r1, m) := sw_finish (λ _, 0) None t "k" 1 (10 ^ 9) 0 0 mc_New in
  let '(r2, m) := sw_finish (λ _, 0) None t "k" 1 (10 ^ 9) 0 0 m in
  let allowed (r : error + Result) := match r with inr r => Allowed r | inl _ => false end in
  allowed r1 = true ∧ allowed r2 = true ∧ loadCount None 1 "k:0" m = inr 2.
Proof. vm_compute. split_and!; reflexivity. Qed.
End SlidingCounter.
