(* ===== verification/ResilientCache.v ===== *)
(** * pkg/cache/resilient.go: the cache behind a circuit breaker and retries

    The wrapper composes the breaker of [Breaker] and the retry loop of [Retry]; the wrapped
    cache is any code that acts on a world [W]. *)

From S2P Require Import Prelude Errors Float64 Breaker Retry MemCache.
From stdpp Require Import options.
Open Scope Z_scope.

(* src: pkg/cache/resilient.go 22-32 ResilientConfig *)
Record ResilientConfig := {
  CircuitBreakerEnabled : bool; CircuitBreakerThreshold : Z; CircuitBreakerTimeout : Z;
  RetryEnabled : bool; RetryMaxAttempts : Z; RetryBackoff : Z }.

(** The policy; [retryCfg] is the zero value when retries are off. *)
(* src: pkg/cache/resilient.go 49-60 NewResilientCache *)
Definition retryCfg (cfg : ResilientConfig) : RetryConfig :=
  if RetryEnabled cfg then
    {| MaxAttempts := RetryMaxAttempts cfg; InitialBackoff := RetryBackoff cfg; MaxBackoff := 10 ^ 9;
       Multiplier := of_i64 2; Jitter := of_i64 0;
       RetryIf := Some (λ err, negb (IsNotFound err)) |}
  else {| MaxAttempts := 0; InitialBackoff := 0; MaxBackoff := 0; Multiplier := of_i64 0;
          Jitter := of_i64 0; RetryIf := None |}.

(* src: pkg/cache/resilient.go 34-63 NewResilientCache *)
Definition NewResilientCache (cfg : ResilientConfig) : option CircuitBreaker * RetryConfig :=
  (if CircuitBreakerEnabled cfg then
     Some (NewCircuitBreaker {| Name := "cache"; FailureThreshold := CircuitBreakerThreshold cfg;
             SuccessThreshold := 2; Timeout := CircuitBreakerTimeout cfg; MaxRequests := 0;
             OnStateChange := false |})
   else None, retryCfg cfg).

Section ResilientCache.
Context {W : Type} (env : Env W) (clock : W → Z).

(** The state of a call: the breaker, if there is one, and the world. *)
Definition RState : Type := option CircuitBreaker * W.

Definition env_resilient : Env RState := {|
  ctxErr := λ s, ctxErr env s.2;
  sleep := λ d s, let '(b, w) := sleep env d s.2 in (b, (s.1, w));
  Float64 := λ s, let '(f, w) := Float64 env s.2 in (f, (s.1, w));
  oor := oor env |}.

(** A miss is recorded as a success; [opErr] is the variable the closure assigns. *)
(* src: pkg/cache/resilient.go 146-152 execute *)
Definition masked (fn : Executor W) (s : W * option error) : option error * (W * option error) :=
  let '(e, w) := fn s.1 in (if IsCode e CodeNotFound then None else e, (w, e)).

(* src: pkg/cache/resilient.go 136-157 execute *)
Definition operation (fn : Executor W) (s : RState) : option error * RState :=
  match s with
  | (None, w) => let '(e, w) := fn w in (e, (None, w))
  | (Some cb, w) =>
      let '(cbErr, (cb, (w, opErr))) := Execute (λ s, clock s.1) (masked fn) (cb, (w, None)) in
      match cbErr with
      | Some e => (Some e, (Some cb, w))
      | None => (opErr, (Some cb, w))
      end
  end.

(* src: pkg/cache/resilient.go 135-165 execute *)
Definition execute (rcfg : RetryConfig) (fn : Executor W) (s : RState) : option error * RState :=
  if decide (0 < MaxAttempts rcfg) then Retry env_resilient rcfg (operation fn) s else operation fn s.

(* src: pkg/cache/resilient.go 172-178 CircuitBreakerState *)
Definition CircuitBreakerState (s : RState) : option State := state <$> s.1.

(** ** Misses are free *)

(** A hit or a miss of the wrapped cache. *)
Definition hit_or_miss (e : option error) : Prop := e = None ∨ IsCode e CodeNotFound = true.

Lemma operation_closed fn cb w e w' :
  state cb = StateClosed → fn w = (e, w') → hit_or_miss e →
  operation fn (Some cb, w) = (e, (Some (set_failures 0 cb), w')).
Proof.
  intros Hst Hfn He. unfold operation, Execute, allowRequest. rewrite Hst. unfold masked at 1; cbn [fst].
  rewrite Hfn. assert ((if IsCode e CodeNotFound then None else e) = None) as -> by (destruct He as [-> | ->]; done).
  cbn [record]. unfold recordSuccess. by rewrite Hst.
Qed.

(** Neither is retried: [fn] is called once. *)
Lemma execute_closed cfg fn cb w e w' :
  ctxErr env w = None → state cb = StateClosed → fn w = (e, w') → hit_or_miss e →
  execute (retryCfg cfg) fn (Some cb, w) = (e, (Some (set_failures 0 cb), w')).
Proof.
  intros Hctx Hst Hfn He. pose proof (operation_closed fn cb w e w' Hst Hfn He) as Hop.
  unfold execute. case_decide as Hm; [|done]. unfold Retry.
  unfold retryCfg in Hm |- *. destruct (RetryEnabled cfg); [|cbn in Hm; lia]. cbn in Hm.
  set (c := fill _). assert (0 < MaxAttempts c) as Hpos by (subst c; cbn; case_decide; lia).
  destruct (Z.to_nat (MaxAttempts c)) as [|k] eqn:Hk; [lia|]. cbn [retry_loop].
  change (ctxErr env_resilient (Some cb, w)) with (ctxErr env w). rewrite Hctx, Hop.
  destruct e as [e|]; [|done].
  destruct He as [|He]; [done|].
  assert (retry_if c e = false) as ->; [|done]. subst c. cbn. unfold IsNotFound. by rewrite He.
Qed.

(** A sequence of calls on the wrapper, with what each returned. *)
Fixpoint calls (rcfg : RetryConfig) (fns : list (Executor W)) (s : RState) : list (option error) * RState :=
  match fns with
  | [] => ([], s)
  | fn :: fns =>
      let '(e, s) := execute rcfg fn s in
      let '(es, s) := calls rcfg fns s in (e :: es, s)
  end.

(** The same calls on the bare cache. *)
Fixpoint bare (fns : list (Executor W)) (w : W) : list (option error) * W :=
  match fns with
  | [] => ([], w)
  | fn :: fns => let '(e, w) := fn w in let '(es, w) := bare fns w in (e :: es, w)
  end.
End ResilientCache.

(** The resilient cache is transparent for hits and misses: with a breaker that starts
    closed and any retry policy of the wrapper, a sequence of operations that the wrapped
    cache answers with success or with "not found" gives the results of the bare cache, has
    the effects of the bare cache (every operation runs exactly once) and leaves the
    breaker closed, however many misses there are. *)
Theorem resilient_cache_transparent {W} (env : Env W) (clock : W → Z) cfg fns cb w :
  (∀ w, ctxErr env w = None) → state cb = StateClosed →
  Forall (λ fn : Executor W, ∀ w, hit_or_miss (fn w).1) fns →
  ∃ cb', calls env clock (retryCfg cfg) fns (Some cb, w) =
           ((bare fns w).1, (Some cb', (bare fns w).2)) ∧ state cb' = StateClosed.
Proof.
  intros Hctx Hst Hfns. revert cb w Hst. induction Hfns as [|fn fns Hfn Hfns IH]; intros cb w Hst; cbn [calls bare].
  { by exists cb. }
  destruct (fn w) as [e w'] eqn:He. specialize (Hfn w). rewrite He in Hfn. cbn in Hfn.
  rewrite (execute_closed env clock cfg fn cb w e w') by done.
  destruct (IH (set_failures 0 cb) w' Hst) as (cb' & -> & Hcb'). exists cb'.
  by destruct (bare fns w') as [es w''].
Qed.

Lemma resilient_cache_transparent_witness :
  let env := {| ctxErr := λ _ : Z, None; sleep := λ _ w, (false, w);
                Float64 := λ w, (of_i64 0, w); oor := λ _, 0 |} in
  let cfg := {| CircuitBreakerEnabled := true; CircuitBreakerThreshold := 1; CircuitBreakerTimeout := 10 ^ 9;
                RetryEnabled := true; RetryMaxAttempts := 3; RetryBackoff := 1 |} in
  let miss : Executor Z := λ w, (Some ErrKeyNotFound, w + 1) in
  let cb := NewCircuitBreaker {| Name := "cache"; FailureThreshold := 1; SuccessThreshold := 2;
              Timeout := 10 ^ 9; MaxRequests := 0; OnStateChange := false |} in
  ∃ cb', calls env (λ w, w) (retryCfg cfg) [miss; miss] (Some cb, 0) =
    ([Some ErrKeyNotFound; Some ErrKeyNotFound], (Some cb', 2)) ∧ state cb' = StateClosed.
Proof.
  intros env cfg miss cb. apply (resilient_cache_transparent env (λ w, w) cfg [miss; miss] cb 0); [done|done|].
  repeat (constructor; [intros ?; right; reflexivity|]). constructor.
Defined.
