(* ===== verification/HashRing.v ===== *)
(** * pkg/algorithms/consistenthash/ring: the consistent hashing ring

    Every node owns [replicas] points of the ring, at the CRC-32 of its name prefixed with
    the replica's number; a key belongs to the node of the first point clockwise from the
    CRC-32 of the key.  Module [Bounded] is pkg/algorithms/consistenthash/bounded, a ring of
    SHA-256 points that counts requests and passes over hosts with too many. *)

From S2P Require Import Prelude Errors Digest Float64 SliceSort.
From stdpp Require Import pretty sorting.
From stdpp Require Import options.
Open Scope Z_scope.

(** ** CRC-32 (hash/crc32, IEEE polynomial, reflected) *)

Definition crc_bit (c : Z) : Z :=
  if Z.odd c then Z.lxor (Z.shiftr c 1) 3988292384 else Z.shiftr c 1.

Definition ChecksumIEEE (s : string) : Z :=
  Z.lxor (foldl (λ c b, Nat.iter 8 crc_bit (Z.lxor c (Z.of_N (Ascii.N_of_ascii b)))) 4294967295
    (String.list_ascii_of_string s)) 4294967295.

Example ChecksumIEEE_check : ChecksumIEEE "123456789" = 3421780262.
Proof. vm_compute. reflexivity. Qed.

(** ** The ring *)

(* src: pkg/algorithms/consistenthash/ring/ring.go 11-17 Ring *)
Record Ring := { replicas : Z; keys : list Z; hashMap : gmap Z string }.

(** The point of replica [i] of a node. *)
(* src: pkg/algorithms/consistenthash/ring/ring.go 43-43 Add *)
Definition point (node : string) (i : nat) : Z := ChecksumIEEE (pretty i +:+ node).

(* src: pkg/algorithms/consistenthash/ring/ring.go 37-48 Add *)
Definition ring_Add (node : string) (r : Ring) : Ring :=
  let hs := point node <$> seq 0 (Z.to_nat (replicas r)) in
  {| replicas := replicas r; keys := merge_sort Z.le (keys r ++ hs);
     hashMap := foldl (λ m h, <[h := node]> m) (hashMap r) hs |}.

(* src: pkg/algorithms/consistenthash/ring/ring.go 19-35 New *)
Definition ring_New (n : Z) (nodes : list string) : Ring :=
  let n := if decide (n ≤ 0) then 50 else n in
  foldl (λ r node, ring_Add node r) {| replicas := n; keys := []; hashMap := ∅ |} nodes.

(** A missing entry of the map reads as the empty string. *)
Definition owner (m : gmap Z string) (k : Z) : string := default "" (m !! k).

(** The pass of [Remove], which deletes from the map while it reads it. *)
(* src: pkg/algorithms/consistenthash/ring/ring.go 57-64 Remove *)
Fixpoint remove_pass (node : string) (ks : list Z) (m : gmap Z string) : list Z * gmap Z string :=
  match ks with
  | [] => ([], m)
  | k :: ks =>
      if decide (owner m k = node) then remove_pass node ks (delete k m)
      else let '(ks', m') := remove_pass node ks m in (k :: ks', m')
  end.

(* src: pkg/algorithms/consistenthash/ring/ring.go 50-66 Remove *)
Definition ring_Remove (node : string) (r : Ring) : Ring :=
  let '(ks, m) := remove_pass node (keys r) (hashMap r) in
  {| replicas := replicas r; keys := ks; hashMap := m |}.

(** The index of the first point at or after the hash, with the wrap-around. *)
(* src: pkg/algorithms/consistenthash/ring/ring.go 77-87 Get *)
Definition start (ks : list Z) (hash : Z) : Z :=
  let n := Z.of_nat (length ks) in
  let idx := sort_Search n (λ i, match ks !! Z.to_nat i with Some k => bool_decide (hash ≤ k) | None => true end) in
  if decide (idx = n) then 0 else idx.

(* src: pkg/algorithms/consistenthash/ring/ring.go 68-90 Get *)
Definition ring_Get (key : string) (r : Ring) : option string :=
  if decide (keys r = []) then Some ""
  else owner (hashMap r) <$> keys r !! Z.to_nat (start (keys r) (ChecksumIEEE key)).

(** The walk of [GetN] from index [idx]. *)
(* src: pkg/algorithms/consistenthash/ring/ring.go 110-121 GetN *)
Fixpoint walk (fuel : nat) (r : Ring) (n : Z) (idx : Z) (result : list string) : option (list string) :=
  if decide (Z.of_nat (length result) < n ∧
             Z.of_nat (length result) < Z.quot (Z.of_nat (length (keys r))) (replicas r)) then
    match fuel with
    | O => None
    | S fuel =>
        match keys r !! Z.to_nat idx with
        | None => None
        | Some k =>
            let node := owner (hashMap r) k in
            walk fuel r n (Z.rem (idx + 1) (Z.of_nat (length (keys r))))
              (if decide (node ∈ result) then result else result ++ [node])
        end
    end
  else Some result.

(** [seen] holds the nodes of [result]; [make] panics on a negative capacity. *)
(* src: pkg/algorithms/consistenthash/ring/ring.go 92-124 GetN *)
Definition GetN (fuel : nat) (key : string) (n : Z) (r : Ring) : option (list string) :=
  if decide (keys r = []) then Some []
  else if decide (n < 0) then None
  else walk fuel r n (start (keys r) (ChecksumIEEE key)) [].

(** ** The first point clockwise *)

(** From [h], the point [k] is met no later than [k']. *)
Definition met_before (h k k' : Z) : Prop :=
  (h ≤ k ∧ (h ≤ k' → k ≤ k')) ∨ (k < h ∧ k' < h ∧ k ≤ k').

Definition clockwise (ks : list Z) (h k : Z) : Prop := k ∈ ks ∧ ∀ k', k' ∈ ks → met_before h k k'.

Lemma clockwise_unique ks h k k' : clockwise ks h k → clockwise ks h k' → k = k'.
Proof.
  intros [Hk Hall] [Hk' Hall']. specialize (Hall k' Hk'). specialize (Hall' k Hk).
  unfold met_before in *. lia.
Qed.

Lemma clockwise_sub ks ks' h k :
  clockwise ks h k → k ∈ ks' → (∀ x, x ∈ ks' → x ∈ ks) → clockwise ks' h k.
Proof. intros [_ Hall] Hk Hsub. split; auto. Qed.

Lemma sorted_lookup ks a b x y :
  StronglySorted Z.le ks → (a ≤ b)%nat → ks !! a = Some x → ks !! b = Some y → x ≤ y.
Proof.
  intros Hs. revert a b. induction Hs as [|k ks Hs IH Hall]; intros a b Hab Ha Hb; [done|].
  destruct a as [|a], b as [|b]; simpl in Ha, Hb; [simplify_eq; lia| |lia|].
  - simplify_eq. by eapply (Forall_lookup_1 _ _ _ _ Hall).
  - eapply (IH a b); [lia|done|done].
Qed.

(** The predicate of the binary search. *)
Lemma at_or_after_mono ks h a b : StronglySorted Z.le ks → a ≤ b →
  match ks !! Z.to_nat a with Some k => bool_decide (h ≤ k) | None => true end = true →
  match ks !! Z.to_nat b with Some k => bool_decide (h ≤ k) | None => true end = true.
Proof.
  intros Hs Hab. destruct (ks !! Z.to_nat a) as [x|] eqn:Hx.
  - intros Hhx%bool_decide_eq_true. destruct (ks !! Z.to_nat b) as [y|] eqn:Hy; [|done].
    apply bool_decide_eq_true. pose proof (sorted_lookup ks (Z.to_nat a) (Z.to_nat b) x y Hs ltac:(lia) Hx Hy). lia.
  - intros _. apply lookup_ge_None in Hx. rewrite (proj2 (lookup_ge_None ks _)) by lia. done.
Qed.

Lemma start_spec ks h :
  StronglySorted Z.le ks → ks ≠ [] → ∃ k, ks !! Z.to_nat (start ks h) = Some k ∧ clockwise ks h k.
Proof.
  intros Hs Hne. unfold start, sort_Search.
  set (f := λ i, match ks !! Z.to_nat i with Some k => bool_decide (h ≤ k) | None => true end).
  assert (0 < length ks)%nat as Hlen by (destruct ks; [done|cbn; lia]).
  destruct (sort_Search_spec (Z.to_nat (Z.of_nat (length ks))) f 0 (Z.of_nat (length ks))) as (Hr & Hlow & Hup);
    [lia|lia| |].
  { intros a b _ Hab _. by apply at_or_after_mono. }
  set (r := sort_search_loop _ f 0 _) in *.
  assert (∀ a x, ks !! a = Some x → Z.of_nat a < r → x < h) as Hbelow.
  { intros a x Hx Ha. specialize (Hlow (Z.of_nat a) ltac:(lia)). unfold f in Hlow.
    rewrite Nat2Z.id, Hx in Hlow. apply bool_decide_eq_false in Hlow. lia. }
  destruct (decide (r = Z.of_nat (length ks))) as [Hend|Hend].
  - destruct (lookup_lt_is_Some_2 ks 0 Hlen) as [k Hk]. exists k. split; [done|].
    split; [by eapply list_elem_of_lookup_2|]. intros k' [b Hb]%list_elem_of_lookup.
    pose proof (lookup_lt_Some _ _ _ Hb). right.
    pose proof (sorted_lookup ks 0 b k k' Hs ltac:(lia) Hk Hb).
    split_and!; [|eapply Hbelow; [done|lia]|done]. eapply Hbelow; [done|lia].
  - destruct (lookup_lt_is_Some_2 ks (Z.to_nat r)) as [k Hk]; [lia|]. exists k. split; [done|].
    split; [by eapply list_elem_of_lookup_2|]. intros k' [b Hb]%list_elem_of_lookup.
    specialize (Hup ltac:(lia)). unfold f in Hup. rewrite Hk in Hup. apply bool_decide_eq_true in Hup.
    left. split; [done|]. intros Hk'. destruct (decide (Z.of_nat b < r)) as [Hlt|Hge].
    + pose proof (Hbelow b k' Hb Hlt). lia.
    + by eapply (sorted_lookup ks (Z.to_nat r) b); [done|lia|done|done].
Qed.

(** ** The invariant *)

(** The points are sorted, and exactly the points have an entry in the map. *)
Record ring_ok (r : Ring) : Prop := {
  ok_sorted : StronglySorted Z.le (keys r);
  ok_owned : ∀ k, k ∈ keys r ↔ is_Some (hashMap r !! k) }.

Lemma ring_Get_spec key r :
  ring_ok r → keys r ≠ [] →
  ∃ k node, clockwise (keys r) (ChecksumIEEE key) k ∧ hashMap r !! k = Some node ∧
    ring_Get key r = Some node.
Proof.
  intros [Hs Hown] Hne. destruct (start_spec (keys r) (ChecksumIEEE key) Hs Hne) as (k & Hk & Hc).
  destruct (proj1 (Hown k)) as [node Hn]; [apply Hc|]. exists k, node. split_and!; [done|done|].
  unfold ring_Get, owner. rewrite decide_False, Hk by done. cbn. by rewrite Hn.
Qed.

Lemma lookup_foldl_insert (m : gmap Z string) hs node k :
  foldl (λ m h, <[h := node]> m) m hs !! k = if decide (k ∈ hs) then Some node else m !! k.
Proof.
  revert m. induction hs as [|h hs IH]; intros m; cbn [foldl].
  { rewrite decide_False; [done|apply not_elem_of_nil]. }
  rewrite IH. destruct (decide (k ∈ hs)) as [Hk|Hk].
  - rewrite decide_True; [done|by right].
  - destruct (decide (k = h)) as [->|Hne].
    + rewrite lookup_insert_eq, decide_True; [done|left].
    + rewrite lookup_insert_ne, decide_False; [done| |done]. rewrite elem_of_cons. tauto.
Qed.

Lemma ring_Add_ok node r : ring_ok r → ring_ok (ring_Add node r).
Proof.
  intros [Hs Hown]. split; cbn.
  - apply (StronglySorted_merge_sort Z.le).
  - intros k. rewrite merge_sort_Permutation, elem_of_app, lookup_foldl_insert, Hown.
    case_decide; naive_solver.
Qed.

Lemma ring_New_ok n nodes : ring_ok (ring_New n nodes).
Proof.
  unfold ring_New. set (n' := if decide (n ≤ 0) then 50 else n).
  assert (ring_ok {| replicas := n'; keys := []; hashMap := ∅ |}) as Hok.
  { split; cbn; [constructor|]. intros k. rewrite lookup_empty. split; [by intros ?%elem_of_nil|by intros [? ?]]. }
  revert Hok. generalize {| replicas := n'; keys := []; hashMap := ∅ |} as r.
  induction nodes as [|node nodes IH]; intros r Hok; cbn [foldl]; [done|]. by apply IH, ring_Add_ok.
Qed.

Lemma list_filter_ext_in {A} (P Q : A → Prop) `{∀ x, Decision (P x)} `{∀ x, Decision (Q x)} (l : list A) :
  (∀ x, x ∈ l → P x ↔ Q x) → filter P l = filter Q l.
Proof.
  intros HPQ. induction l as [|x l IH]; [done|]. rewrite !filter_cons, IH by (intros; apply HPQ; by right).
  by rewrite (decide_ext _ _ _ _ (HPQ x (list_elem_of_here _ _))).
Qed.

Lemma remove_pass_spec node ks m :
  NoDup ks → remove_pass node ks m =
    (filter (λ k, owner m k ≠ node) ks, foldl (λ m k, delete k m) m (filter (λ k, owner m k = node) ks)).
Proof.
  intros Hnd. revert m. induction Hnd as [|k ks Hk Hnd IH]; intros m; cbn [remove_pass]; [done|].
  rewrite !filter_cons. destruct (decide (owner m k = node)) as [Ho|Ho].
  - rewrite (decide_False (P := owner m k ≠ node)) by tauto. rewrite IH. cbn [foldl].
    assert (∀ k', k' ∈ ks → owner (delete k m) k' = owner m k') as Hext.
    { intros k' Hk'. unfold owner. rewrite lookup_delete_ne by congruence. done. }
    f_equal; [|f_equal]; apply list_filter_ext_in; intros x Hx; by rewrite Hext.
  - rewrite (decide_True (P := owner m k ≠ node)) by done. rewrite IH. done.
Qed.

Lemma lookup_foldl_delete (m : gmap Z string) ks k :
  foldl (λ m k, delete k m) m ks !! k = if decide (k ∈ ks) then None else m !! k.
Proof.
  revert m. induction ks as [|k0 ks IH]; intros m; cbn [foldl].
  { rewrite decide_False; [done|apply not_elem_of_nil]. }
  rewrite IH. destruct (decide (k ∈ ks)) as [Hk|Hk].
  - rewrite decide_True; [done|by right].
  - destruct (decide (k = k0)) as [->|Hne].
    + rewrite lookup_delete_eq, decide_True; [done|left].
    + rewrite lookup_delete_ne, decide_False; [done| |done]. rewrite elem_of_cons. tauto.
Qed.

Lemma StronglySorted_filter (P : Z → Prop) `{∀ x, Decision (P x)} ks :
  StronglySorted Z.le ks → StronglySorted Z.le (filter P ks).
Proof.
  induction 1 as [|k ks Hs IH Hall]; [constructor|]. rewrite filter_cons. case_decide; [|done].
  constructor; [done|]. apply Forall_forall. intros x [_ Hx]%list_elem_of_filter.
  by apply (proj1 (Forall_forall _ _) Hall).
Qed.

(** What [Remove] leaves of a ring whose points do not collide. *)
Lemma ring_Remove_spec node r :
  ring_ok r → NoDup (keys r) →
  ring_ok (ring_Remove node r) ∧ NoDup (keys (ring_Remove node r)) ∧
  ∀ k nd, hashMap r !! k = Some nd →
    (k ∈ keys (ring_Remove node r) ↔ nd ≠ node) ∧
    (nd ≠ node → hashMap (ring_Remove node r) !! k = Some nd).
Proof.
  intros [Hs Hown] Hnd. unfold ring_Remove. rewrite remove_pass_spec by done. cbn.
  assert (∀ k nd, hashMap r !! k = Some nd → owner (hashMap r) k = nd) as Hown'.
  { intros k nd Hk. unfold owner. by rewrite Hk. }
  split_and!.
  - split; cbn; [by apply StronglySorted_filter|]. intros k.
    rewrite list_elem_of_filter, lookup_foldl_delete, Hown.
    case_decide as Hd; rewrite list_elem_of_filter, Hown in Hd; [|naive_solver].
    split; [tauto|by intros [? ?]].
  - by apply NoDup_filter.
  - intros k nd Hk. pose proof (Hown' k nd Hk) as Ho.
    rewrite list_elem_of_filter, lookup_foldl_delete, Hown, Ho. split; [naive_solver|].
    intros Hne. rewrite decide_False; [done|]. rewrite list_elem_of_filter, Ho. tauto.
Qed.

(** The ring is a consistent hash: [Get] returns the owner of the first point clockwise
    from the hash of the key; adding a node moves a key only to the new node (even when
    points collide); and removing a node moves only the keys that belonged to it, provided
    no two points of the ring collide. *)
Theorem ring_consistent r node key :
  ring_ok r → keys r ≠ [] →
  (∃ k nd, clockwise (keys r) (ChecksumIEEE key) k ∧ hashMap r !! k = Some nd ∧
     ring_Get key r = Some nd) ∧
  (ring_Get key (ring_Add node r) = ring_Get key r ∨ ring_Get key (ring_Add node r) = Some node) ∧
  (NoDup (keys r) → ring_Get key r ≠ Some node →
     ring_Get key (ring_Remove node r) = ring_Get key r).
Proof.
  intros Hok Hne. destruct (ring_Get_spec key r Hok Hne) as (k & nd & Hc & Hk & Hg).
  split_and!; [eauto|..]; rewrite Hg.
  - pose proof (ring_Add_ok node r Hok) as Hok'.
    assert (∀ x, x ∈ keys (ring_Add node r) ↔ x ∈ keys r ∨ x ∈ point node <$> seq 0 (Z.to_nat (replicas r))) as Hin.
    { intros x. cbn. by rewrite merge_sort_Permutation, elem_of_app. }
    destruct (ring_Get_spec key (ring_Add node r) Hok') as (k' & nd' & Hc' & Hk' & ->).
    { intros He. destruct Hc as [Hkin _]. assert (k ∈ keys (ring_Add node r)) as Hk2 by (apply Hin; by left).
      rewrite He in Hk2. by apply elem_of_nil in Hk2. }
    cbn in Hk'. rewrite lookup_foldl_insert in Hk'. case_decide as Hd; [right; congruence|left].
    assert (k' ∈ keys r) as Hk'r by (destruct Hc' as [[?|?]%Hin _]; done).
    pose proof (clockwise_sub _ (keys r) _ _ Hc' Hk'r ltac:(intros x Hx; apply Hin; by left)) as Hcr.
    rewrite (clockwise_unique _ _ _ _ Hcr Hc) in Hk'. congruence.
  - intros Hnd Hnode. destruct (ring_Remove_spec node r Hok Hnd) as (Hok' & _ & Hspec).
    assert (nd ≠ node) as Hndn by congruence.
    destruct (Hspec k nd Hk) as [Hkin Hk2]. apply Hkin in Hndn as Hkr.
    destruct (ring_Get_spec key (ring_Remove node r) Hok') as (k' & nd' & Hc' & Hk' & ->).
    { intros He. rewrite He in Hkr. by apply elem_of_nil in Hkr. }
    assert (clockwise (keys (ring_Remove node r)) (ChecksumIEEE key) k) as Hcr.
    { apply (clockwise_sub (keys r)); [done|done|]. intros x Hx. apply Hok' in Hx as Hx'.
      destruct Hok as [_ Hown]. apply Hown.
      unfold ring_Remove in Hx. rewrite remove_pass_spec in Hx by done. cbn in Hx.
      apply list_elem_of_filter in Hx as [_ Hx]. by apply Hown. }
    rewrite (clockwise_unique _ _ _ _ Hc' Hcr), Hk2 in Hk' by done. congruence.
Qed.

Lemma ring_consistent_witness :
  let r := ring_New 3 ["a"; "b"; "c"] in
  (∃ nd, ring_Get "user:1" r = Some nd ∧ nd ≠ "b") ∧
  ring_Get "user:1" (ring_Remove "b" r) = ring_Get "user:1" r.
Proof.
  intros r. split; [eexists; split; [vm_compute; reflexivity|done]|].
  refine (proj2 (proj2 (ring_consistent r "b" "user:1" (ring_New_ok 3 _) _)) _ _); [vm_compute; done|compute_decide|].
  vm_compute. done.
Defined.

(** A node that is added twice owns every point twice; removing it deletes the map entry at
    the first copy of a point and keeps the second copy, and the keys of the node are now
    mapped to the empty string. *)
Theorem ring_double_add_remove :
  let r := ring_Remove "a" (ring_Add "a" (ring_New 2 ["a"])) in
  keys r ≠ [] ∧ hashMap r = ∅ ∧ ring_Get "user:1" r = Some "".
Proof. vm_compute. split_and!; done. Qed.

(** After the same double addition [GetN] looks for two nodes where there is one, and walks
    the ring for ever. *)
Lemma walk_one_owner fuel h idx result :
  (idx = 0 ∨ idx = 1) → result = [] ∨ result = ["a"] →
  walk fuel {| replicas := 1; keys := [h; h]; hashMap := {[h := "a"]} |} 2 idx result = None.
Proof.
  revert idx result. induction fuel as [|fuel IH]; intros idx result Hi Hr; cbn [walk keys replicas hashMap];
    rewrite decide_True by (destruct Hr as [-> | ->]; vm_compute; done); [done|].
  assert ([h; h] !! Z.to_nat idx = Some h) as -> by (destruct Hi as [-> | ->]; done).
  assert (owner {[h := "a"]} h = "a") as -> by (unfold owner; by rewrite lookup_singleton_eq).
  apply IH.
  - destruct Hi as [-> | ->]; vm_compute; auto.
  - destruct Hr as [-> | ->]; right; by vm_compute.
Qed.

Theorem ring_GetN_never_ends fuel : GetN fuel "user:1" 2 (ring_Add "a" (ring_New 1 ["a"])) = None.
Proof.
  assert (ring_Add "a" (ring_New 1 ["a"]) =
    {| replicas := 1; keys := [point "a" 0; point "a" 0]; hashMap := {[point "a" 0 := "a"]} |}) as ->
    by (vm_compute; reflexivity).
  unfold GetN. rewrite !decide_False by done. apply walk_one_owner; [|by left].
  vm_compute; auto.
Qed.

(** ** Bounded loads *)

Module Bounded.

(* src: pkg/algorithms/consistenthash/bounded/bounded.go 13-23 Hasher *)
Record Hasher := { vNodes : Z; loadFactor : float64; hosts : list string; ring : list Z; ringMap : gmap Z string;
  loads : gmap string Z }.

(* src: pkg/algorithms/consistenthash/bounded/bounded.go 25-36 New *)
Definition bl_New (v : Z) (f : float64) : Hasher :=
  {| vNodes := v; loadFactor := if fge (of_i64 1) f then fdiv (of_i64 5) (of_i64 4) else f; hosts := []; ring := [];
     ringMap := ∅; loads := ∅ |}.

(* src: pkg/algorithms/consistenthash/bounded/bounded.go 120-123 hash *)
Definition bl_hash (key : string) : Z := foldl (λ z b, z * 256 + b) 0 (take 8 (Sum256 (bytes_of key))).

(* src: pkg/algorithms/consistenthash/bounded/bounded.go 45-47 Add *)
Definition bl_point (host : string) (i : nat) : Z := bl_hash (host +:+ "-" +:+ pretty i).

(* src: pkg/algorithms/consistenthash/bounded/bounded.go 38-52 Add *)
Definition bl_Add (host : string) (h : Hasher) : Hasher :=
  let hs := bl_point host <$> seq 0 (Z.to_nat (vNodes h)) in
  {| vNodes := vNodes h; loadFactor := loadFactor h; hosts := hosts h ++ [host]; ring := merge_sort Z.le (ring h ++ hs);
     ringMap := foldl (λ m k, <[k := host]> m) (ringMap h) hs; loads := <[host := 0]> (loads h) |}.

Definition load (h : Hasher) (host : string) : Z := default 0 (loads h !! host).
Definition count (host : string) (h : Hasher) : Hasher :=
  {| vNodes := vNodes h; loadFactor := loadFactor h; hosts := hosts h; ring := ring h; ringMap := ringMap h;
     loads := <[host := i64 (load h host + 1)]> (loads h) |}.

(* src: pkg/algorithms/consistenthash/bounded/bounded.go 101-101 Get *)
Definition maxLoad : Z := 10.

(** The host of the point [i] places after index [idx]; [None] is an index out of range. *)
(* src: pkg/algorithms/consistenthash/bounded/bounded.go 104-106 Get *)
Definition host_at (h : Hasher) (idx i : Z) : option string :=
  owner (ringMap h) <$> ring h !! Z.to_nat (Z.rem (idx + i) (Z.of_nat (length (ring h)))).

(** The first candidate from turn [i] on, of [n] turns, that is not full. *)
(* src: pkg/algorithms/consistenthash/bounded/bounded.go 103-112 Get *)
Fixpoint bl_probe (n : nat) (h : Hasher) (idx i : Z) : option (option string) :=
  match n with
  | O => Some None
  | S n =>
      host ← host_at h idx i;
      if decide (load h host < maxLoad) then Some (Some host) else bl_probe n h idx (i + 1)
  end.

(* src: pkg/algorithms/consistenthash/bounded/bounded.go 54-118 Get *)
Definition bl_Get (key : string) (h : Hasher) : option ((error + string) * Hasher) :=
  if decide (ring h = []) then Some (inl (FailedPrecondition "no hosts" None), h)
  else
    let idx := start (ring h) (bl_hash key) in
    found ← bl_probe (length (hosts h)) h idx 0;
    match found with
    | Some host => Some (inr host, count host h)
    | None => host ← owner (ringMap h) <$> ring h !! Z.to_nat idx; Some (inr host, count host h)
    end.

(** *** The invariant *)

(** The points are sorted and each has an owner, and the owners are hosts. *)
Record bl_ok (h : Hasher) : Prop := {
  bl_sorted : StronglySorted Z.le (ring h);
  bl_owned : ∀ k, k ∈ ring h ↔ is_Some (ringMap h !! k);
  bl_hosts : ∀ k host, ringMap h !! k = Some host → host ∈ hosts h }.

Lemma bl_New_ok v f : bl_ok (bl_New v f).
Proof.
  split; cbn; [constructor| |done]. intros k. rewrite lookup_empty. split; [by intros ?%elem_of_nil|by intros [? ?]].
Qed.

Lemma bl_Add_ok host h : bl_ok h → bl_ok (bl_Add host h).
Proof.
  intros [Hs Ho Hh]. split; cbn.
  - apply (StronglySorted_merge_sort Z.le).
  - intros k. rewrite merge_sort_Permutation, elem_of_app, lookup_foldl_insert, Ho. case_decide; naive_solver.
  - intros k host'. rewrite lookup_foldl_insert, elem_of_app. case_decide; [intros [= <-]; right; left|]. eauto.
Qed.

Lemma count_ok host h : bl_ok h → bl_ok (count host h).
Proof. by intros [? ? ?]. Qed.

(** Every turn finds a point, and its owner is a host. *)
Lemma host_at_spec h idx i : bl_ok h → ring h ≠ [] → 0 ≤ idx → 0 ≤ i →
  ∃ k host, ring h !! Z.to_nat (Z.rem (idx + i) (Z.of_nat (length (ring h)))) = Some k ∧
    ringMap h !! k = Some host ∧ host_at h idx i = Some host ∧ host ∈ hosts h.
Proof.
  intros [_ Ho Hh] Hne Hidx Hi. assert (0 < length (ring h))%nat as Hlen by (destruct (ring h); [done|cbn; lia]).
  destruct (lookup_lt_is_Some_2 (ring h) (Z.to_nat (Z.rem (idx + i) (Z.of_nat (length (ring h)))))) as [k Hk].
  { rewrite Z.rem_mod_nonneg by lia. pose proof (Z.mod_pos_bound (idx + i) (Z.of_nat (length (ring h)))). lia. }
  destruct (proj1 (Ho k)) as [host Hhost]; [by eapply list_elem_of_lookup_2|]. exists k, host.
  unfold host_at, owner. rewrite Hk. cbn. rewrite Hhost. split_and!; [done|done|done|by eapply Hh].
Qed.

Lemma bl_probe_spec n h idx i : bl_ok h → ring h ≠ [] → 0 ≤ idx → 0 ≤ i →
  ∃ found, bl_probe n h idx i = Some found ∧
    match found with
    | Some host => ∃ j, i ≤ j < i + Z.of_nat n ∧ host_at h idx j = Some host ∧ load h host < maxLoad ∧
        ∀ j' host', i ≤ j' < j → host_at h idx j' = Some host' → maxLoad ≤ load h host'
    | None => ∀ j host, i ≤ j < i + Z.of_nat n → host_at h idx j = Some host → maxLoad ≤ load h host
    end.
Proof.
  intros Hok Hne Hidx. revert i. induction n as [|n IH]; intros i Hi; [exists None; split; [done|lia]|]. cbn [bl_probe].
  destruct (host_at_spec h idx i Hok Hne Hidx Hi) as (k & host & _ & _ & Hat & _). rewrite Hat. cbn [mbind option_bind].
  case_decide as Hl; [exists (Some host); split; [done|]; exists i; split_and!; [lia|lia|done|done|lia]|].
  destruct (IH (i + 1) ltac:(lia)) as (found & -> & Hf). exists found. split; [done|].
  assert (∀ j host', i ≤ j → (j = i → host' = host) → (i + 1 ≤ j → maxLoad ≤ load h host') → maxLoad ≤ load h host') as Hcase
    by (intros j host' Hj H1 H2; destruct (decide (j = i)) as [E|]; [rewrite (H1 E); lia|apply H2; lia]).
  destruct found as [host'|].
  - destruct Hf as (j & Hj & Haj & Hlj & Hbefore). exists j. split_and!; [lia|lia|done|done|].
    intros j' host'' Hj' Haj'. apply (Hcase j'); [lia|congruence|]. intros H1. eapply Hbefore; [|done]. lia.
  - intros j host' Hj Haj. apply (Hcase j); [lia|congruence|]. intros H1. eapply Hf; [|done]. lia.
Qed.

Lemma start_range ks h : ks ≠ [] → StronglySorted Z.le ks → 0 ≤ start ks h < Z.of_nat (length ks).
Proof.
  intros Hne Hs. destruct (start_spec ks h Hs Hne) as (k & Hk & _). pose proof (lookup_lt_Some _ _ _ Hk).
  unfold start, sort_Search in *. set (f := λ i : Z, _) in *.
  destruct (sort_Search_spec (Z.to_nat (Z.of_nat (length ks))) f 0 (Z.of_nat (length ks))) as (Hr & _); [lia|lia| |].
  { intros a b _ Hab _. by apply at_or_after_mono. }
  case_decide; lia.
Qed.

(** What [Get] does on a ring that is not empty: the request is counted for the first host, of
    as many points as there are hosts from the key on, that has fewer than ten; if there is
    none, for the host of the first point. *)
Theorem bounded_Get_spec key h : bl_ok h → ring h ≠ [] →
  let idx := start (ring h) (bl_hash key) in
  ∃ k0 canonical host, clockwise (ring h) (bl_hash key) k0 ∧ ringMap h !! k0 = Some canonical ∧
    bl_Get key h = Some (inr host, count host h) ∧ host ∈ hosts h ∧
    ((load h host < maxLoad ∧ ∃ j, 0 ≤ j < Z.of_nat (length (hosts h)) ∧ host_at h idx j = Some host ∧
        ∀ j' host', 0 ≤ j' < j → host_at h idx j' = Some host' → maxLoad ≤ load h host') ∨
     (host = canonical ∧ ∀ j host', 0 ≤ j < Z.of_nat (length (hosts h)) → host_at h idx j = Some host' → maxLoad ≤ load h host')).
Proof.
  intros Hok Hne idx. destruct (start_spec (ring h) (bl_hash key) (bl_sorted h Hok) Hne) as (k0 & Hk0 & Hcw).
  pose proof (start_range (ring h) (bl_hash key) Hne (bl_sorted h Hok)) as Hr.
  destruct (proj1 (bl_owned h Hok k0)) as [canonical Hcan]; [apply Hcw|].
  unfold bl_Get. rewrite decide_False by done. fold idx in Hk0, Hr |- *.
  destruct (bl_probe_spec (length (hosts h)) h idx 0 Hok Hne ltac:(lia) ltac:(lia)) as (found & -> & Hf). cbn [mbind option_bind].
  destruct found as [host|].
  - destruct Hf as (j & Hj & Hat & Hl & Hbefore). exists k0, canonical, host. split_and!; [done|done|done| |left; split; [done|]; exists j; split_and!; [lia|lia|done|done]].
    destruct (host_at_spec h idx j Hok Hne ltac:(lia) ltac:(lia)) as (_ & host' & _ & _ & Hat' & Hin). congruence.
  - exists k0, canonical, canonical. rewrite Hk0. cbn. unfold owner. rewrite Hcan. cbn.
    split_and!; [done|done|done|by eapply bl_hosts|by right].
Qed.

(** Every point of the ring is met within one turn around it. *)
Lemma host_at_all h idx k host : ring h ≠ [] → 0 ≤ idx < Z.of_nat (length (ring h)) → k ∈ ring h → ringMap h !! k = Some host →
  ∃ j, 0 ≤ j < Z.of_nat (length (ring h)) ∧ host_at h idx j = Some host.
Proof.
  intros Hne Hidx [r Hr]%list_elem_of_lookup Hk. pose proof (lookup_lt_Some _ _ _ Hr) as Hlt.
  set (n := Z.of_nat (length (ring h))) in *. exists ((Z.of_nat r - idx) mod n). split; [apply Z.mod_pos_bound; lia|].
  unfold host_at, owner. fold n. pose proof (Z.mod_pos_bound (Z.of_nat r - idx) n ltac:(lia)).
  rewrite Z.rem_mod_nonneg, Z.add_mod_idemp_r by lia. replace (idx + (Z.of_nat r - idx)) with (Z.of_nat r) by lia.
  rewrite Z.mod_small, Nat2Z.id, Hr by lia. cbn. by rewrite Hk.
Qed.

(** Where every host has a point and there are no more points than hosts (one virtual node
    each), a host that is full gets a request only when all are. *)
Theorem bounded_one_point_each key h : bl_ok h → ring h ≠ [] → (length (ring h) ≤ length (hosts h))%nat →
  (∀ host, host ∈ hosts h → ∃ k, ringMap h !! k = Some host) →
  ∃ host, bl_Get key h = Some (inr host, count host h) ∧ host ∈ hosts h ∧
    (load h host < maxLoad ∨ ∀ host', host' ∈ hosts h → maxLoad ≤ load h host').
Proof.
  intros Hok Hne Hlen Hall. destruct (bounded_Get_spec key h Hok Hne) as (k0 & can & host & _ & _ & HG & Hin & Hcase).
  exists host. split_and!; [done|done|]. destruct Hcase as [[Hl _]|[_ Hfull]]; [by left|right].
  intros host' (k & Hk)%Hall. destruct (host_at_all h (start (ring h) (bl_hash key)) k host' Hne) as (j & Hj & Hat).
  - apply start_range; [done|apply Hok].
  - apply (bl_owned h Hok). by eexists.
  - done.
  - apply (Hfull j host'); [lia|done].
Qed.

Fixpoint bl_gets (n : nat) (key : string) (h : Hasher) : option (list string) :=
  match n with
  | O => Some []
  | S n =>
      match bl_Get key h with
      | Some (inr host, h) => (λ l, host :: l) <$> bl_gets n key h
      | _ => None
      end
  end.

(** With two points each, the two candidates of a key can be points of one host: it gets the
    eleventh request and all that follow, and the other host none. *)
Theorem bounded_overloads_one :
  bl_gets 15 "user:1" (bl_Add "host2" (bl_Add "host1" (bl_New 2 (of_i64 1)))) = Some (replicate 15 "host1").
Proof. vm_compute. reflexivity. Qed.
End Bounded.
