(* ===== verification/Chord.v ===== *)
(** * pkg/algorithms/dht/chord: the Chord ring

    The nodes live in the registry of the in-process transport, a map from addresses to
    nodes; a remote call is a call on the node of that address.  Identifiers are SHA-1
    digests, read as integers.  [None] is a lookup that did not end within its fuel. *)

From S2P Require Import Prelude Errors Digest HashRing.
From stdpp Require Import options.
Open Scope Z_scope.

(** ** Nodes and the transport *)

(* src: pkg/algorithms/dht/chord/chord.go 28-32 RemoteNode *)
Record RemoteNode := { ID : Z; Addr : string }.

#[global] Instance RemoteNode_eq_dec : EqDecision RemoteNode.
Proof. solve_decision. Defined.

(** [transport] tells whether the node is bound to the in-process transport. *)
(* src: pkg/algorithms/dht/chord/chord.go 17-26 Node *)
Record Node := {
  id : Z; addr : string; successor : option RemoteNode; predecessor : option RemoteNode;
  finger : list (option RemoteNode); transport : bool }.

(** The registry of the in-process transport. *)
Abbreviation Registry := (gmap string Node).

(* src: pkg/algorithms/dht/chord/chord.go 41-57 Register *)
Definition Register (n : Node) (net : Registry) : Registry := <[addr n := n]> net.

(* src: pkg/algorithms/dht/chord/chord.go 94-106 New *)
Definition chord_New (a : string) (t : bool) : Node :=
  {| id := Sha1.sha1 a; addr := a; successor := None; predecessor := None;
     finger := replicate 160 None; transport := t |}.

(* src: pkg/algorithms/dht/chord/chord.go 116-119 Self *)
Definition Self (n : Node) : RemoteNode := {| ID := id n; Addr := addr n |}.

Definition set_successor (s : RemoteNode) (n : Node) : Node :=
  {| id := id n; addr := addr n; successor := Some s; predecessor := predecessor n;
     finger := <[0%nat := Some s]> (finger n); transport := transport n |}.

Definition set_predecessor (p : option RemoteNode) (n : Node) : Node :=
  {| id := id n; addr := addr n; successor := successor n; predecessor := p;
     finger := finger n; transport := transport n |}.

(* src: pkg/algorithms/dht/chord/chord.go 142-150 Create *)
Definition Create (n : Node) : Node := set_predecessor None (set_successor (Self n) n).

(* src: pkg/algorithms/dht/chord/chord.go 246-252 between *)
Definition between (n1 n2 key : Z) : bool :=
  if decide (n1 < n2) then bool_decide (n1 < key ∧ key < n2) else bool_decide (n1 < key ∨ key < n2).

(** The highest finger strictly between the node and the identifier. *)
(* src: pkg/algorithms/dht/chord/chord.go 195-203 closestPrecedingNodeLocked *)
Definition closestPrecedingNodeLocked (n : Node) (key : Z) : RemoteNode :=
  match List.find (λ f, match f with Some r => between (id n) key (ID r) | None => false end)
          (reverse (finger n)) with
  | Some (Some r) => r
  | _ => Self n
  end.

(* src: pkg/algorithms/dht/chord/chord.go 59-67 node *)
Definition peer (net : Registry) (a : string) : error + Node :=
  match net !! a with
  | Some n => inr n
  | None => inl (NotFound ("chord: unknown peer " +:+ a) None)
  end.

(** The lookup, with the remote calls it makes. *)
(* src: pkg/algorithms/dht/chord/chord.go 169-193 FindSuccessor *)
Fixpoint FindSuccessor (fuel : nat) (net : Registry) (n : Node) (key : Z) : option (error + RemoteNode) :=
  match fuel with
  | O => None
  | S fuel =>
      match successor n with
      | None => Some (inl (FailedPrecondition "chord: no successor" None))
      | Some succ =>
          if between (id n) (ID succ) key || bool_decide (key = ID succ) then Some (inr succ)
          else
            let pred := closestPrecedingNodeLocked n key in
            if decide (Addr pred = addr n ∨ ID pred = id n) then Some (inr succ)
            else if negb (transport n)
            then Some (inl (FailedPrecondition "chord: transport required for remote FindSuccessor" None))
            else
              match peer net (Addr pred) with
              | inl e => Some (inl e)
              | inr n' => FindSuccessor fuel net n' key
              end
      end
  end.

(* src: pkg/algorithms/dht/chord/chord.go 69-75 InProcessTransport.FindSuccessor *)
Definition rpc_FindSuccessor (fuel : nat) (net : Registry) (a : string) (key : Z)
    : option (error + RemoteNode) :=
  match peer net a with inl e => Some (inl e) | inr n => FindSuccessor fuel net n key end.

(** The node at address [a] joins through [boot]; its new state is stored in the registry. *)
(* src: pkg/algorithms/dht/chord/chord.go 152-167 Join *)
Definition Join (fuel : nat) (net : Registry) (n : Node) (boot : string) : option (error + Node) :=
  if negb (transport n) then Some (inl (FailedPrecondition "chord: transport required for Join" None))
  else
    match rpc_FindSuccessor fuel net boot (id n) with
    | None => None
    | Some (inl e) => Some (inl e)
    | Some (inr succ) => Some (inr (set_predecessor None (set_successor succ n)))
    end.

(* src: pkg/algorithms/dht/chord/chord.go 234-244 Notify *)
Definition Notify (r : RemoteNode) (n : Node) : Node :=
  match predecessor n with
  | None => set_predecessor (Some r) n
  | Some p => if between (ID p) (id n) (ID r) then set_predecessor (Some r) n else n
  end.

(* src: pkg/algorithms/dht/chord/chord.go 85-92 InProcessTransport.Notify *)
Definition rpc_Notify (net : Registry) (a : string) (r : RemoteNode) : error + Registry :=
  match peer net a with inl e => inl e | inr n => inr (<[a := Notify r n]> net) end.

(* src: pkg/algorithms/dht/chord/chord.go 77-83 InProcessTransport.GetPredecessor *)
Definition rpc_GetPredecessor (net : Registry) (a : string) : error + option RemoteNode :=
  match peer net a with inl e => inl e | inr n => inr (predecessor n) end.

(** [Stabilize] of the registered node at address [a].  An error of [Notify] leaves the new
    successor in place, hence the registry beside the result. *)
(* src: pkg/algorithms/dht/chord/chord.go 205-232 Stabilize *)
Definition Stabilize (net : Registry) (a : string) (n : Node) : option error * Registry :=
  match successor n with
  | None => (Some (FailedPrecondition "chord: no successor" None), net)
  | Some succ =>
      if negb (transport n)
      then (Some (FailedPrecondition "chord: transport required for Stabilize" None), net)
      else
        match rpc_GetPredecessor net (Addr succ) with
        | inl e => (Some e, net)
        | inr x =>
            let '(succ, net) :=
              match x with
              | Some x =>
                  if between (id n) (ID succ) (ID x) then (x, <[a := set_successor x n]> net) else (succ, net)
              | None => (succ, net)
              end in
            match rpc_Notify net (Addr succ) (Self n) with
            | inl e => (Some e, net)
            | inr net' => (None, net')
            end
        end
  end.

(** ** Stable rings *)

(** The identifiers of the registered nodes. *)
Definition member (net : Registry) (r : RemoteNode) : Prop :=
  ∃ n, net !! Addr r = Some n ∧ id n = ID r.

(** Every node is registered under its address, knows a successor with no node between, has
    it in its first finger, and has only members in its other fingers. *)
Record stable (net : Registry) : Prop := {
  st_addr : ∀ a n, net !! a = Some n → addr n = a ∧ transport n = true;
  st_inj : ∀ a b n n', net !! a = Some n → net !! b = Some n' → id n = id n' → a = b;
  st_succ : ∀ a n, net !! a = Some n → ∃ s, successor n = Some s ∧ member net s ∧
    finger n !! 0%nat = Some (Some s) ∧
    ∀ b n', net !! b = Some n' → between (id n) (ID s) (id n') = false;
  st_finger : ∀ a n r, net !! a = Some n → Some r ∈ finger n → member net r }.

Lemma between_spec a c x : between a c x = true ↔ (a < c ∧ a < x ∧ x < c) ∨ (c ≤ a ∧ (a < x ∨ x < c)).
Proof. unfold between. case_decide; rewrite bool_decide_eq_true; lia. Qed.

Lemma between_false a c x : between a c x = false ↔ ¬ ((a < c ∧ a < x ∧ x < c) ∨ (c ≤ a ∧ (a < x ∨ x < c))).
Proof. rewrite <- between_spec. by destruct (between a c x). Qed.

Lemma closest_between n key r :
  closestPrecedingNodeLocked n key = r →
  (Some r ∈ finger n ∧ between (id n) key (ID r) = true) ∨
  (r = Self n ∧ ∀ x, Some x ∈ finger n → between (id n) key (ID x) = false).
Proof.
  intros <-. unfold closestPrecedingNodeLocked.
  set (f := λ o, match o with Some r => between (id n) key (ID r) | None => false end).
  destruct (List.find f (reverse (finger n))) as [[r|]|] eqn:Hf.
  - apply List.find_some in Hf as [Hin Hb]. apply list_elem_of_In in Hin.
    rewrite elem_of_reverse in Hin. by left.
  - apply List.find_some in Hf as [_ Hb]. done.
  - right. split; [done|]. intros x Hx. apply elem_of_reverse, list_elem_of_In in Hx.
    apply (List.find_none _ _ Hf _ Hx).
Qed.

(** The nodes a lookup from identifier [c] can still meet before [key]. *)
Definition ahead (net : Registry) (c key : Z) : gset string :=
  dom (filter (λ p, between c key (id p.2) = true) net).

Lemma elem_of_ahead net c key a :
  a ∈ ahead net c key ↔ ∃ n, net !! a = Some n ∧ between c key (id n) = true.
Proof.
  unfold ahead. rewrite elem_of_dom. split; intros [n Hn]; exists n; by apply map_lookup_filter_Some in Hn
    || by apply map_lookup_filter_Some.
Qed.

Lemma ahead_shrinks net c key r :
  member net r → between c key (ID r) = true → ahead net (ID r) key ⊂ ahead net c key.
Proof.
  intros (n & Hn & Hid) Hb. split.
  - intros a. rewrite !elem_of_ahead. intros (n' & Hn' & Hb'). exists n'. split; [done|].
    rewrite between_spec in *. lia.
  - intros Hsub. assert (Addr r ∈ ahead net c key) as Hin
      by (apply elem_of_ahead; exists n; by rewrite Hid).
    apply Hsub, elem_of_ahead in Hin as (n' & Hn' & Hb'). rewrite Hn in Hn'. simplify_eq.
    rewrite between_spec in Hb'. lia.
Qed.

(** In a stable ring a lookup that is not answered here goes on at a node closer to the key. *)
Lemma closest_progress net a n s key :
  stable net → net !! a = Some n → successor n = Some s →
  between (id n) (ID s) key = false → key ≠ ID s →
  let r := closestPrecedingNodeLocked n key in
  member net r ∧ between (id n) key (ID r) = true ∧ Addr r ≠ addr n ∧ ID r ≠ id n.
Proof.
  intros Hst Hn Hs Hb Hk r. destruct (st_addr _ Hst a n Hn) as [Ha _].
  destruct (st_succ _ Hst a n Hn) as (s' & Hs' & _ & Hf & _). rewrite Hs in Hs'. injection Hs' as <-.
  destruct (closest_between n key r eq_refl) as [[Hin Hbr]|[_ Hnone]].
  - pose proof (st_finger _ Hst a n r Hn Hin) as Hm. split_and!; [done|done| |].
    + intros Hra. destruct Hm as (n' & Hn' & Hid). rewrite Hra, Ha, Hn in Hn'. simplify_eq.
      rewrite Hid in Hbr. rewrite between_spec in Hbr. lia.
    + intros Hid. rewrite Hid, between_spec in Hbr. lia.
  - exfalso. specialize (Hnone s (list_elem_of_lookup_2 _ _ _ Hf)).
    rewrite between_false in Hb, Hnone. lia.
Qed.

Lemma FindSuccessor_stable fuel net a n key :
  stable net → net !! a = Some n → (size (ahead net (id n) key) < fuel)%nat →
  ∃ r, FindSuccessor fuel net n key = Some (inr r) ∧ member net r ∧
    ∀ b n', net !! b = Some n' → met_before key (ID r) (id n').
Proof.
  intros Hst. revert a n. induction fuel as [|fuel IH]; intros a n Hn Hf; [lia|].
  destruct (st_succ _ Hst a n Hn) as (s & Hs & Hm & _ & Hnone).
  cbn [FindSuccessor]. rewrite Hs.
  destruct (between (id n) (ID s) key || bool_decide (key = ID s)) eqn:Hhere.
  - exists s. split_and!; [done|done|]. intros b n' Hn'. specialize (Hnone b n' Hn').
    specialize (Hnone). pose proof (proj1 (between_false _ _ _) Hnone) as Hno.
    unfold met_before. apply orb_true_iff in Hhere as [Hhere|Hhere%bool_decide_eq_true]; [|lia].
    rewrite between_spec in Hhere. lia.
  - apply orb_false_iff in Hhere as [Hb Hk%bool_decide_eq_false].
    destruct (closest_progress net a n s key Hst Hn Hs Hb Hk) as (Hmr & Hbr & Hra & Hri).
    set (r := closestPrecedingNodeLocked n key) in *.
    rewrite decide_False by tauto. destruct (st_addr _ Hst a n Hn) as [_ ->]. cbn [negb].
    destruct (Hmr) as (n' & Hn' & Hid). unfold peer. rewrite Hn'.
    apply (IH (Addr r)); [done|]. rewrite Hid.
    pose proof (subset_size _ _ (ahead_shrinks net (id n) key r Hmr Hbr)). lia.
Qed.

Lemma chord_lookup_correct_aux net a n key :
  stable net → net !! a = Some n →
  ∃ r, FindSuccessor (S (size net)) net n key = Some (inr r) ∧ member net r ∧
    ∀ b n', net !! b = Some n' → met_before key (ID r) (id n').
Proof.
  intros Hst Hn. apply (FindSuccessor_stable _ net a); [done|done|].
  unfold ahead. rewrite size_dom. apply Nat.lt_succ_r, map_size_filter.
Qed.

(** C34. In a stable ring, whatever further fingers the nodes have as long as these point to
    members, a lookup started at any node ends after at most one call per node and returns
    the member that comes first clockwise from the key. *)
Theorem chord_lookup_correct net a n key :
  stable net → net !! a = Some n →
  ∃ r, FindSuccessor (S (size net)) net n key = Some (inr r) ∧ member net r ∧
    ∀ b n', net !! b = Some n' → met_before key (ID r) (id n').
Proof. apply chord_lookup_correct_aux. Qed.

(** ** A node joins a stable ring *)

(** Every node's predecessor has it as its successor. *)
Definition linked (net : Registry) : Prop :=
  ∀ a n, net !! a = Some n →
    ∃ p, net !! addr p = Some p ∧ predecessor n = Some (Self p) ∧ successor p = Some (Self n).

Section join.
Context (net : Registry) (Hst : stable net) (Hlk : linked net).
Context (x : Node) (Hx : net !! addr x = None) (Hxt : transport x = true).
Context (Hxid : ∀ a n, net !! a = Some n → id n ≠ id x).
Context (Hxf : length (finger x) ≠ 0%nat ∧ ∀ r, Some r ∉ finger x).
Context (s : Node) (Hs : net !! addr s = Some s).
Context (Hfirst : ∀ b n', net !! b = Some n' → met_before (id x) (id s) (id n')).
Context (p : Node) (Hp : net !! addr p = Some p).
Context (Hps : predecessor s = Some (Self p)) (Hpp : successor p = Some (Self s)).
#[local] Set Default Proof Using "Type*".

(** What the join and the two stabilisations make of the nodes of the ring. *)
Definition relink (n : Node) : Node :=
  let n := if decide (addr n = addr s) then set_predecessor (Some (Self x)) n else n in
  if decide (addr n = addr p) then set_successor (Self x) n else n.

Definition joined : Node := set_predecessor (Some (Self p)) (set_successor (Self s) x).

Definition net_joined : Registry := <[addr x := joined]> (relink <$> net).

Lemma relink_same n : id (relink n) = id n ∧ addr (relink n) = addr n ∧ transport (relink n) = transport n.
Proof. unfold relink. repeat case_decide; done. Qed.

Lemma net_joined_lookup a m :
  net_joined !! a = Some m ↔
  (a = addr x ∧ m = joined) ∨ (a ≠ addr x ∧ ∃ n, net !! a = Some n ∧ m = relink n).
Proof.
  unfold net_joined. destruct (decide (a = addr x)) as [->|Hne].
  - rewrite lookup_insert_eq. naive_solver.
  - rewrite lookup_insert_ne, lookup_fmap by done. destruct (net !! a) eqn:E; cbn; naive_solver.
Qed.

Lemma member_joined r : member net r → member net_joined r.
Proof.
  intros (n & Hn & Hid). exists (relink n). split; [|by rewrite (proj1 (relink_same n))].
  apply net_joined_lookup. right. split; [congruence|eauto].
Qed.

Lemma member_x : member net_joined (Self x).
Proof. exists joined. split; [|done]. apply net_joined_lookup. by left. Qed.

Lemma node_addr a n : net !! a = Some n → addr n = a.
Proof. intros Hn. apply (st_addr _ Hst a n Hn). Qed.

Lemma gap_p_s b n' : net !! b = Some n' → between (id p) (id s) (id n') = false.
Proof.
  intros Hn'. destruct (st_succ _ Hst _ _ Hp) as (s' & Hs' & _ & _ & Hg).
  rewrite Hpp in Hs'. injection Hs' as <-. apply (Hg b n' Hn').
Qed.

(** The new node lies between the old neighbours, and only there. *)
Lemma x_between : between (id p) (id s) (id x) = true ∧ between (id x) (id s) (id p) = false.
Proof.
  pose proof (Hfirst _ _ Hp) as H1. pose proof (Hxid _ _ Hp). pose proof (Hxid _ _ Hs).
  pose proof (proj1 (between_false _ _ _) (gap_p_s _ _ Hs)).
  unfold met_before in H1. rewrite between_spec, between_false. lia.
Qed.

Lemma x_only_between a n t :
  net !! a = Some n → successor n = Some t → between (id n) (ID t) (id x) = true → a = addr p.
Proof.
  intros Hn Ht Hb. destruct (st_succ _ Hst a n Hn) as (t' & Ht' & (nt & Hnt & Hid) & _ & Hg).
  rewrite Ht in Ht'. injection Ht' as <-.
  pose proof (proj1 (between_false _ _ _) (Hg _ _ Hs)). pose proof (proj1 (between_false _ _ _) (Hg _ _ Hp)).
  pose proof (proj1 (between_false _ _ _) (Hg _ _ Hnt)).
  pose proof (proj1 (between_false _ _ _) (gap_p_s _ _ Hn)). pose proof (proj1 (between_false _ _ _) (gap_p_s _ _ Hnt)).
  pose proof (Hfirst _ _ Hn). pose proof (Hfirst _ _ Hnt). pose proof (Hfirst _ _ Hp).
  pose proof (Hxid _ _ Hn). pose proof (Hxid _ _ Hnt). pose proof (Hxid _ _ Hs). pose proof (Hxid _ _ Hp).
  rewrite between_spec in Hb. unfold met_before in *.
  apply (st_inj _ Hst a (addr p) n p Hn Hp). lia.
Qed.
(** The successor of a node after the join, and its gap. *)
Lemma relink_succ a n :
  net !! a = Some n →
  ∃ t, successor (relink n) = Some t ∧ member net_joined t ∧ finger (relink n) !! 0%nat = Some (Some t) ∧
    between (id n) (ID t) (id x) = false ∧
    ∀ b n', net !! b = Some n' → between (id n) (ID t) (id n') = false.
Proof.
  intros Hn. pose proof (node_addr a n Hn) as Ha.
  destruct (st_succ _ Hst a n Hn) as (t & Ht & Hm & Hf & Hg).
  destruct (decide (a = addr p)) as [->|Hne].
  - assert (n = p) as -> by congruence. exists (Self x).
    assert (successor (relink p) = Some (Self x) ∧ finger (relink p) !! 0%nat = Some (Some (Self x))) as [Hs' Hf'].
    { unfold relink. rewrite (decide_True (P := addr (if decide _ then _ else _) = _)) by (case_decide; done).
      split; [done|]. cbn. apply list_lookup_insert_eq.
      apply lookup_lt_Some in Hf. by case_decide. }
    split_and!; [done|apply member_x|done| |].
    + cbn [ID Self]. apply between_false. lia.
    + intros b n' Hn'. pose proof (gap_p_s b n' Hn') as Hgap. destruct x_between as [Hb _].
      cbn [ID Self]. rewrite between_spec in Hb. rewrite between_false in *. lia.
  - exists t. unfold relink.
    rewrite (decide_False (P := addr (if decide _ then _ else _) = _)) by (case_decide; cbn; congruence).
    split_and!; [by case_decide|by apply member_joined|by case_decide| |done].
    destruct (between (id n) (ID t) (id x)) eqn:Hb; [|done]. exfalso. apply Hne.
    by apply (x_only_between a n t).
Qed.

Lemma stable_joined : stable net_joined.
Proof.
  assert (Some (Self s) ∈ finger joined ∧ finger joined !! 0%nat = Some (Some (Self s))) as [Hjin Hj].
  { cbn. assert (<[0%nat := Some (Self s)]> (finger x) !! 0%nat = Some (Some (Self s))) as He
      by (apply list_lookup_insert_eq; lia). split; [by eapply list_elem_of_lookup_2|done]. }
  assert (member net_joined (Self s)) as Hms by (apply member_joined; by exists s).
  split.
  - intros a m [[-> ->]|(_ & n & Hn & ->)]%net_joined_lookup; [done|].
    destruct (relink_same n) as (_ & -> & ->). apply (st_addr _ Hst a n Hn).
  - intros a b m m' [[-> ->]|(Ha & n & Hn & ->)]%net_joined_lookup [[-> ->]|(Hb & n' & Hn' & ->)]%net_joined_lookup;
      rewrite ?(proj1 (relink_same _)); cbn.
    + done.
    + intros Hid. by destruct (Hxid b n' Hn').
    + intros Hid. by destruct (Hxid a n Hn).
    + by apply (st_inj _ Hst).
  - intros a m [[-> ->]|(Ha & n & Hn & ->)]%net_joined_lookup.
    + exists (Self s). split_and!; [done|done|done|].
      intros b m [[-> ->]|(_ & n' & Hn' & ->)]%net_joined_lookup; rewrite ?(proj1 (relink_same _)); cbn [ID Self].
      * change (id joined) with (id x). apply between_false. lia.
      * pose proof (Hfirst b n' Hn'). pose proof (Hxid b n' Hn'). pose proof (Hxid _ _ Hs). unfold met_before in *.
        change (id joined) with (id x). apply between_false. lia.
    + destruct (relink_succ a n Hn) as (t & Ht & Hm & Hf & Hbx & Hg). exists t.
      rewrite (proj1 (relink_same n)). split_and!; [done|done|done|].
      intros b m [[-> ->]|(_ & n' & Hn' & ->)]%net_joined_lookup; rewrite ?(proj1 (relink_same _)); eauto.
  - intros a m r [[-> ->]|(Ha & n & Hn & ->)]%net_joined_lookup Hr.
    + cbn in Hr. apply list_elem_of_lookup in Hr as [k Hk]. destruct (decide (k = 0%nat)) as [->|Hk0].
      * rewrite list_lookup_insert_eq in Hk by lia. by simplify_eq.
      * rewrite list_lookup_insert_ne in Hk by done. exfalso.
        apply (proj2 Hxf r). by eapply list_elem_of_lookup_2.
    + unfold relink in Hr.
      assert (Some r ∈ finger n ∨ r = Self x) as [Hr'| ->];
        [|by apply member_joined, (st_finger _ Hst a n)|apply member_x].
      repeat case_decide; cbn in Hr; auto;
        apply list_elem_of_lookup in Hr as [k Hk]; (destruct (decide (k = 0%nat)) as [->|Hk0];
          [apply list_lookup_insert_Some in Hk as [(_ & [=] & _)|[? _]]; [by right|done]
          |rewrite list_lookup_insert_ne in Hk by done; left; by eapply list_elem_of_lookup_2]).
Qed.

Lemma linked_joined : linked net_joined.
Proof.
  intros a m [[-> ->]|(Ha & n & Hn & ->)]%net_joined_lookup.
  - exists (relink p). assert (addr (relink p) = addr p) as Hap by apply relink_same.
    split_and!.
    + rewrite Hap. apply net_joined_lookup. right. split; [congruence|eauto].
    + cbn. unfold Self. by rewrite Hap, (proj1 (relink_same p)).
    + unfold relink. rewrite (decide_True (P := addr (if decide _ then _ else _) = _)) by (by case_decide). done.
  - pose proof (node_addr a n Hn) as Han. destruct (decide (a = addr s)) as [->|Hne].
    + assert (n = s) as -> by congruence. exists joined. split_and!.
      * apply net_joined_lookup. by left.
      * unfold relink. rewrite (decide_True (P := addr s = addr s)) by done. by case_decide.
      * cbn. unfold Self. by rewrite (proj1 (proj2 (relink_same s))), (proj1 (relink_same s)).
    + destruct (Hlk a n Hn) as (q & Hq & Hqp & Hqs). exists (relink q).
      assert (addr (relink q) = addr q) as Haq by apply relink_same. split_and!.
      * rewrite Haq. apply net_joined_lookup. right. split; [congruence|eauto].
      * unfold relink at 1. rewrite (decide_False (P := addr n = addr s)) by congruence.
        unfold Self. rewrite Haq, (proj1 (relink_same q)). by case_decide.
      * assert (addr q ≠ addr p) as Hqp'.
        { intros He. rewrite He, Hp in Hq. by simplify_eq. }
        unfold relink at 1. rewrite (decide_False (P := addr (if decide _ then _ else _) = _)) by (by case_decide).
        unfold Self. rewrite (proj1 (proj2 (relink_same n))), (proj1 (relink_same n)). by case_decide.
Qed.
(** The three steps produce exactly this registry. *)
Lemma join_steps :
  let x1 := set_predecessor None (set_successor (Self s) x) in
  let net1 := <[addr x := x1]> net in
  let net2 := <[addr s := set_predecessor (Some (Self x)) s]> net1 in
  Stabilize net1 (addr x) x1 = (None, net2) ∧
  ∃ p2, net2 !! addr p = Some p2 ∧ Stabilize net2 (addr p) p2 = (None, net_joined).
Proof.
  intros x1 net1 net2. destruct x_between as [Hin Hout].
  assert (addr s ≠ addr x) as Hsx by congruence. assert (addr p ≠ addr x) as Hpx by congruence.
  assert (transport p = true) as Htp by apply (st_addr _ Hst _ _ Hp).
  assert (successor x1 = Some (Self s) ∧ transport x1 = true ∧ id x1 = id x ∧ Self x1 = Self x ∧
    predecessor x1 = None) as (Hx1s & Hx1t & Hx1i & Hx1S & Hx1p) by done.
  split.
  - unfold Stabilize. rewrite Hx1s, Hx1t, Hx1i, Hx1S. cbn [negb].
    unfold rpc_GetPredecessor, peer, net1. cbn [Addr Self ID]. rewrite lookup_insert_ne, Hs, Hps by done.
    cbn [ID Self]. rewrite Hout. unfold rpc_Notify, peer. cbn [Addr Self]. rewrite lookup_insert_ne, Hs by done.
    unfold Notify. rewrite Hps. cbn [ID Self]. by rewrite Hin.
  - set (p2 := if decide (addr p = addr s) then set_predecessor (Some (Self x)) p else p).
    assert (net2 !! addr p = Some p2) as Hp2.
    { unfold net2, p2. destruct (decide (addr p = addr s)) as [He|He].
      - rewrite He, lookup_insert_eq. f_equal. congruence.
      - unfold net1. by rewrite !lookup_insert_ne. }
    assert (successor p2 = Some (Self s) ∧ transport p2 = true ∧ id p2 = id p ∧ Self p2 = Self p)
      as (Hp2s & Hp2t & Hp2i & Hp2S) by (unfold p2; by case_decide).
    exists p2. split; [done|]. unfold Stabilize. rewrite Hp2s, Hp2t. cbn [negb].
    unfold rpc_GetPredecessor, peer. cbn [Addr Self]. unfold net2 at 1. rewrite lookup_insert_eq.
    cbn [predecessor set_predecessor]. rewrite Hp2i. cbn [ID Self]. rewrite Hin.
    unfold rpc_Notify, peer. cbn [Addr Self].
    rewrite lookup_insert_ne by done. unfold net2 at 1. rewrite lookup_insert_ne by done.
    unfold net1 at 1. rewrite lookup_insert_eq. f_equal.
    assert (Notify (Self p2) x1 = joined) as -> by (unfold Notify; by rewrite Hx1p, Hp2S).
    apply map_eq. intros a. unfold net_joined. destruct (decide (a = addr x)) as [->|Hax].
    { by rewrite !lookup_insert_eq. }
    rewrite !(lookup_insert_ne _ (addr x)), lookup_fmap by done.
    destruct (decide (a = addr p)) as [->|Hap].
    { rewrite lookup_insert_eq, Hp. cbn. f_equal. unfold relink, p2.
      by rewrite (decide_True (P := addr (if decide _ then _ else _) = _)) by (by case_decide). }
    rewrite lookup_insert_ne by done. unfold net2. destruct (decide (a = addr s)) as [->|Has].
    { rewrite lookup_insert_eq, Hs. cbn. f_equal. unfold relink.
      rewrite (decide_True (P := addr s = addr s)) by done. by rewrite decide_False. }
    rewrite lookup_insert_ne by done. unfold net1. rewrite lookup_insert_ne by done.
    destruct (net !! a) as [n|] eqn:Hn; cbn; [|done]. f_equal. pose proof (node_addr a n Hn).
    unfold relink. rewrite (decide_False (P := addr n = addr s)), decide_False by congruence. done.
Qed.
End join.

(** C35. A join repairs the ring: when a fresh node joins a stable ring through any member,
    one [Stabilize] of the new node followed by one [Stabilize] of its predecessor succeed
    and give again a stable ring with correct predecessors, with the new node in it. *)
Theorem chord_join_stabilizes net x boot b :
  stable net → linked net → net !! addr x = None → transport x = true →
  (∀ a n, net !! a = Some n → id n ≠ id x) → finger x = replicate 160 None → net !! boot = Some b →
  ∃ x1 net2 p p2 net3,
    Join (S (size net)) net x boot = Some (inr x1) ∧
    Stabilize (Register x1 net) (addr x) x1 = (None, net2) ∧
    net2 !! p = Some p2 ∧ Stabilize net2 p p2 = (None, net3) ∧
    stable net3 ∧ linked net3 ∧ dom net3 = {[addr x]} ∪ dom net.
Proof.
  intros Hst Hlk Hx Hxt Hxid Hxf Hb.
  assert (length (finger x) ≠ 0%nat ∧ ∀ r, Some r ∉ finger x) as Hxf'.
  { rewrite Hxf. split; [done|]. intros r Hr. by apply elem_of_replicate_inv in Hr. }
  destruct (chord_lookup_correct_aux net boot b (id x) Hst Hb) as (r & Hr & (s & Hs & Hsid) & Hfirst).
  assert (addr s = Addr r) as Hsa by apply (st_addr _ Hst _ _ Hs).
  assert (r = Self s) as -> by (destruct r; unfold Self; cbn in *; congruence).
  cbn [Addr Self ID] in *. destruct (Hlk _ _ Hs) as (p & Hp & Hps & Hpp).
  destruct (join_steps net Hst Hlk x Hx Hxt Hxid Hxf' s Hs Hfirst p Hp Hps Hpp) as (Hst1 & p2 & Hp2 & Hst2).
  eexists _, _, (addr p), p2, _. split_and!; [|exact Hst1|exact Hp2|exact Hst2|..].
  - unfold Join, rpc_FindSuccessor, peer. rewrite Hxt, Hb, Hr. done.
  - by apply stable_joined.
  - by apply linked_joined.
  - unfold net_joined. by rewrite dom_insert_L, dom_fmap_L.
Qed.

(** *** The ring of one node *)

Definition single (a : string) : Registry :=
  let n := Create (chord_New a true) in {[ a := set_predecessor (Some (Self n)) n ]}.

(** One [Stabilize] links a freshly created ring. *)
Lemma Stabilize_created a :
  let n := Create (chord_New a true) in Stabilize {[ a := n ]} a n = (None, single a).
Proof.
  intros n. unfold Stabilize. change (successor n) with (Some (Self n)).
  unfold rpc_GetPredecessor, rpc_Notify, peer. change (Addr (Self n)) with a.
  rewrite lookup_singleton_eq. cbn [transport negb n]. change (predecessor n) with (@None RemoteNode).
  change (negb (transport n)) with false. cbn iota beta. change (Addr (Self n)) with a.
  rewrite lookup_singleton_eq. cbn iota beta. unfold single. by rewrite insert_singleton_eq.
Qed.

Lemma single_lookup a b n :
  single a !! b = Some n →
  b = a ∧ n = set_predecessor (Some (Self (chord_New a true))) (Create (chord_New a true)).
Proof. unfold single. intros [<- <-]%lookup_singleton_Some. done. Qed.

Lemma single_member a : member (single a) (Self (chord_New a true)).
Proof. eexists. split; [apply lookup_singleton_eq|done]. Qed.

Lemma single_ok a : stable (single a) ∧ linked (single a).
Proof.
  split; [split|].
  - by intros b n [-> ->]%single_lookup.
  - by intros b b' n n' [-> ->]%single_lookup [-> ->]%single_lookup.
  - intros b n [-> ->]%single_lookup. exists (Self (chord_New a true)).
    split_and!; [done|apply single_member|done|].
    intros b' n' [-> ->]%single_lookup. apply between_false. cbn [id Self ID Create set_predecessor set_successor].
    lia.
  - intros b n r [-> ->]%single_lookup Hr. cbn [finger set_predecessor Create set_successor] in Hr.
    apply list_elem_of_lookup in Hr as [k Hk]. apply list_lookup_insert_Some in Hk as [(_ & [= <-] & _)|[_ Hk]].
    + apply single_member.
    + cbn [finger chord_New] in Hk. by apply lookup_replicate in Hk as [? _].
  - intros b n [-> ->]%single_lookup. eexists. split_and!; [apply lookup_singleton_eq|done|done].
Qed.

Lemma chord_lookup_correct_witness :
  ∃ r, FindSuccessor 2 (single "n1") (set_predecessor (Some (Self (chord_New "n1" true))) (Create (chord_New "n1" true)))
         12345 = Some (inr r) ∧ Addr r = "n1".
Proof.
  destruct (chord_lookup_correct (single "n1") "n1"
    (set_predecessor (Some (Self (chord_New "n1" true))) (Create (chord_New "n1" true))) 12345) as (r & Hr & Hm & _).
  - apply single_ok.
  - apply lookup_singleton_eq.
  - exists r. split; [|destruct Hm as (n & Hn & _); by apply single_lookup in Hn as [? _]].
    rewrite <- Hr. f_equal.
Defined.

Lemma chord_join_stabilizes_witness :
  ∃ net3, stable net3 ∧ linked net3 ∧ dom net3 = {["n2"; "n1"]}.
Proof.
  destruct (chord_join_stabilizes (single "n1") (chord_New "n2" true) "n1"
    (set_predecessor (Some (Self (chord_New "n1" true))) (Create (chord_New "n1" true))))
    as (x1 & net2 & p & p2 & net3 & _ & _ & _ & _ & Hst & Hlk & Hdom).
  - apply single_ok.
  - apply single_ok.
  - by apply lookup_singleton_ne.
  - done.
  - intros a n [-> ->]%single_lookup. vm_compute. done.
  - done.
  - apply lookup_singleton_eq.
  - exists net3. split_and!; [done|done|]. rewrite Hdom. unfold single. by rewrite dom_singleton_L.
Defined.
