(* ===== verification/Sorting.v ===== *)
(** * Sorting and binary search (pkg/algorithms/sort, pkg/algorithms/search/binarysearch)

    The four sorting routines and the binary searches.  The element type is any type of
    Go's constraint [Ordered], the class [Ordered] here; what the theorems need of the
    operators is the class [TotalOrder], which integers and strings satisfy (and float64
    does not, because of NaN).  A slice that is sorted in place is threaded through the
    definitions; a sub-slice is the part of the list it shares with its parent, put back
    after the call.  An index out of range is [None]. *)

From S2P Require Import Prelude.
From stdpp Require Import sorting.
From stdpp Require Import options.
From S2P Require Import Ordered.

Open Scope Z_scope.
#[local] Set Default Proof Using "Type*".

(** ** Slices *)

(** [s[i], s[j] = s[j], s[i]] *)
Definition swap {A} (s : list A) (i j : nat) : option (list A) :=
  x ← s !! i; y ← s !! j; Some (<[j := x]> (<[i := y]> s)).

Section swap.
  Context {A : Type}.
  Implicit Types s : list A.

Lemma insert_swap_perm s i x y : s !! i = Some x → x :: <[i := y]> s ≡ₚ y :: s.
Proof.
  intros Hi. rewrite insert_take_drop by (by eapply lookup_lt_Some).
  rewrite <- (take_drop_middle s i x Hi) at 3. solve_Permutation.
Qed.

(** A swap of two places inside the slice exchanges them and moves nothing else. *)
Lemma swap_spec s i j x y :
  s !! i = Some x → s !! j = Some y →
  ∃ s', swap s i j = Some s' ∧ s' ≡ₚ s ∧ length s' = length s ∧
    s' !! i = Some y ∧ s' !! j = Some x ∧ ∀ k, k ≠ i → k ≠ j → s' !! k = s !! k.
Proof.
  intros Hi Hj. unfold swap. rewrite Hi, Hj. cbn.
  pose proof (lookup_lt_Some _ _ _ Hi). pose proof (lookup_lt_Some _ _ _ Hj).
  assert (<[i := y]> s !! j = Some y) as Hj'.
  { destruct (decide (i = j)) as [->|]; [by apply list_lookup_insert_eq|by rewrite list_lookup_insert_ne]. }
  eexists. split_and!; [done| | | | |].
  - apply (Permutation_cons_inv (a := y)). rewrite (insert_swap_perm _ _ _ _ Hj').
    by apply insert_swap_perm.
  - by rewrite !length_insert.
  - destruct (decide (i = j)) as [->|]; [|rewrite list_lookup_insert_ne by done; by apply list_lookup_insert_eq].
    rewrite list_lookup_insert_eq by (by rewrite length_insert). congruence.
  - apply list_lookup_insert_eq. by rewrite length_insert.
  - intros k ??. by rewrite !list_lookup_insert_ne.
Qed.
End swap.

(** ** Merge sort *)

Module MergeSort.
Section merge.
  Context `{Ordered A}.

(** The loop compares the heads of what is left of both slices ([left[i:]] and
    [right[j:]]); when one is used up the other is appended. *)
(* src: pkg/algorithms/sort/mergesort/mergesort.go 19-37 merge *)
Fixpoint merge (left : list A) : list A → list A :=
  fix merge_right (right : list A) : list A :=
    match left, right with
    | [], _ => right
    | _, [] => left
    | x :: left', y :: right' =>
        if ole x y then x :: merge left' right else y :: merge_right right'
    end.

(* src: pkg/algorithms/sort/mergesort/mergesort.go 7-17 Sort *)
Fixpoint merge_Sort (fuel : nat) (s : list A) : option (list A) :=
  if decide (length s ≤ 1)%nat then Some s
  else match fuel with
  | O => None
  | S fuel =>
      let mid := Nat.div2 (length s) in
      left ← merge_Sort fuel (take mid s);
      right ← merge_Sort fuel (drop mid s);
      Some (merge left right)
  end.
End merge.

Section proofs.
  Context `{TotalOrder A}.
  Implicit Types l : list A.

Lemma merge_perm l k : merge l k ≡ₚ l ++ k.
Proof.
  revert k. induction l as [|x l IHl]; intros k; [by destruct k|].
  induction k as [|y k IHk]; [by rewrite app_nil_r|]. cbn. destruct (ole x y).
  - by rewrite IHl.
  - change (y :: merge (x :: l) k ≡ₚ x :: l ++ y :: k). rewrite IHk. solve_Permutation.
Qed.

Lemma merge_ordered l k : ordered l → ordered k → ordered (merge l k).
Proof.
  intros Hl. revert k. induction Hl as [|x l Hl IHl Hx]; intros k Hk; [by destruct k|].
  induction Hk as [|y k Hk IHk Hy]; [by constructor|]. cbn. destruct (ole x y) eqn:E.
  - rewrite ole_spec in E. apply negb_true_iff in E. constructor; [apply IHl; by constructor|].
    rewrite merge_perm. apply Forall_app. split; [done|]. constructor; [done|].
    eapply Forall_impl; [done|]. intros z Hz. by transitivity y.
  - change (ordered (y :: merge (x :: l) k)). constructor; [done|]. rewrite merge_perm. cbn.
    rewrite ole_spec in E. apply negb_false_iff, olt_le in E. constructor; [done|].
    apply Forall_app. split; [|done]. eapply Forall_impl; [done|]. intros z Hz. by transitivity x.
Qed.

Lemma sort_spec fuel l : (length l ≤ fuel)%nat →
  ∃ r, merge_Sort fuel l = Some r ∧ r ≡ₚ l ∧ ordered r.
Proof.
  revert l. induction fuel as [|fuel IH]; intros l Hf; cbn.
  - destruct l; [|cbn in *; lia]. eexists. split_and!; [done|done|constructor].
  - destruct (decide _) as [Hd|Hd].
    { eexists. split_and!; [done|done|]. destruct l as [|x [|y l]]; [constructor|by repeat constructor|cbn in *; lia]. }
    set (mid := Nat.div2 (length l)).
    assert (0 < mid < length l)%nat as Hm.
    { subst mid. rewrite Nat.div2_div. split; [apply Nat.div_str_pos; lia|apply Nat.div_lt; lia]. }
    destruct (IH (take mid l)) as (a & -> & Hap & Has); [rewrite length_take; lia|].
    destruct (IH (drop mid l)) as (b & -> & Hbp & Hbs); [rewrite length_drop; lia|].
    cbn. eexists. split_and!; [done| |by apply merge_ordered].
    by rewrite merge_perm, Hap, Hbp, take_drop.
Qed.
End proofs.
End MergeSort.

(** ** Quick sort *)

Module QuickSort.
Section quick.
  Context `{Ordered A}.

(** [for j := 0; j < len(s)-1; j++]; the loop variable [i] starts at -1, and [k] is [i+1]. *)
(* src: pkg/algorithms/sort/quicksort/quicksort.go 44-49 partition *)
Fixpoint partition_loop (pivot : A) (js : list nat) (k : nat) (s : list A) : option (nat * list A) :=
  match js with
  | [] => Some (k, s)
  | j :: js =>
      x ← s !! j;
      if olt x pivot then s ← swap s k j; partition_loop pivot js (S k) s
      else partition_loop pivot js k s
  end.

(* src: pkg/algorithms/sort/quicksort/quicksort.go 40-53 partition *)
Definition partition (s : list A) : option (nat * list A) :=
  let last := (length s - 1)%nat in
  pivot ← s !! last;
  '(k, s) ← partition_loop pivot (seq 0 last) 0 s;
  s ← swap s k last;
  Some (k, s).

(** [if s[b] < s[a] { s[a], s[b] = s[b], s[a] }] *)
(* src: pkg/algorithms/sort/quicksort/quicksort.go 20-28 Sort *)
Definition order2 (a b : nat) (s : list A) : option (list A) :=
  x ← s !! a; y ← s !! b; if olt y x then swap s a b else Some s.

(* src: pkg/algorithms/sort/quicksort/quicksort.go 14-32 Sort *)
Definition median_of_three (s : list A) : option (list A) :=
  let mid := Nat.div2 (length s) in
  let high := (length s - 1)%nat in
  s ← order2 0 mid s;
  s ← order2 0 high s;
  s ← order2 mid high s;
  swap s mid high.

(** [Sort(s[:p])] and [Sort(s[p+1:])] write into the two parts of the slice. *)
(* src: pkg/algorithms/sort/quicksort/quicksort.go 9-38 Sort *)
Fixpoint quick_Sort (fuel : nat) (s : list A) : option (list A) :=
  if decide (length s ≤ 1)%nat then Some s
  else match fuel with
  | O => None
  | S fuel =>
      s ← median_of_three s;
      '(p, s) ← partition s;
      pv ← s !! p;
      left ← quick_Sort fuel (take p s);
      right ← quick_Sort fuel (drop (S p) s);
      Some (left ++ pv :: right)
  end.
End quick.

Section proofs.
  Context `{TotalOrder A}.
  Implicit Types s : list A.

(** The loop keeps what is below the pivot in front of the rest, and the last place. *)
Lemma partition_loop_spec pivot n j k s :
  (k ≤ j)%nat → (j + n < length s)%nat →
  (∀ a x, (a < k)%nat → s !! a = Some x → olt x pivot = true) →
  (∀ a x, (k ≤ a < j)%nat → s !! a = Some x → olt x pivot = false) →
  ∃ k' s', partition_loop pivot (seq j n) k s = Some (k', s') ∧ s' ≡ₚ s ∧ (k' ≤ j + n)%nat ∧
    (∀ a x, (a < k')%nat → s' !! a = Some x → olt x pivot = true) ∧
    (∀ a x, (k' ≤ a < j + n)%nat → s' !! a = Some x → olt x pivot = false) ∧
    (∀ a, (j + n ≤ a)%nat → s' !! a = s !! a).
Proof.
  revert j k s. induction n as [|n IH]; intros j k s Hkj Hlen Hlo Hhi; cbn.
  { exists k, s. rewrite Nat.add_0_r in *. split_and!; done || lia. }
  destruct (lookup_lt_is_Some_2 s j) as [x Hx]; [lia|].
  destruct (lookup_lt_is_Some_2 s k) as [y Hy]; [lia|]. rewrite Hx. cbn.
  replace (j + S n)%nat with (S j + n)%nat in * by lia. destruct (olt x pivot) eqn:E.
  - destruct (swap_spec s k j y x Hy Hx) as (s1 & -> & Hp & Hl & Hk & Hj & Hne). cbn.
    destruct (IH (S j) (S k) s1) as (k' & s' & -> & Hp' & Hk' & Hlo' & Hhi' & Hend).
    + lia.
    + lia.
    + intros a z Ha Hz. destruct (decide (a = k)) as [->|]; [congruence|].
      rewrite Hne in Hz by lia. apply (Hlo a); [lia|done].
    + intros a z Ha Hz. destruct (decide (a = j)) as [->|].
      * replace z with y by congruence. destruct (decide (k = j)) as [->|]; [lia|]. apply (Hhi k); [lia|done].
      * rewrite Hne in Hz by lia. apply (Hhi a); [lia|done].
    + exists k', s'. split_and!; [done|by rewrite Hp', Hp|done|done|done|].
      intros a Ha. rewrite Hend, Hne by lia. done.
  - apply IH; [lia|lia|done|]. intros a z Ha Hz.
    destruct (decide (a = j)) as [->|]; [congruence|apply (Hhi a); [lia|done]].
Qed.

Lemma partition_spec s : s ≠ [] →
  ∃ p pv s', partition s = Some (p, s') ∧ s' ≡ₚ s ∧ s' !! p = Some pv ∧
    Forall (λ x, le x pv) (take p s') ∧ Forall (le pv) (drop (S p) s').
Proof.
  intros Hs. assert (0 < length s)%nat by (destruct s; [done|cbn; lia]). unfold partition.
  destruct (lookup_lt_is_Some_2 s (length s - 1)) as [pv Hpv]; [lia|]. rewrite Hpv. cbn.
  destruct (partition_loop_spec pv (length s - 1) 0 0 s) as (k & s1 & -> & Hp1 & Hk & Hlo & Hhi & Hend);
    [lia|lia|lia|lia|]. cbn.
  pose proof (Permutation_length Hp1) as Hl1. specialize (Hend (length s - 1)%nat ltac:(lia)).
  rewrite Hpv in Hend. destruct (lookup_lt_is_Some_2 s1 k) as [y Hy]; [lia|].
  destruct (swap_spec s1 k (length s - 1) y pv Hy Hend) as (s2 & -> & Hp2 & Hl2 & Hk2 & Hj2 & Hne). cbn.
  exists k, pv, s2. split_and!; [done|by rewrite Hp2, Hp1|done| |]; apply Forall_lookup; intros a x Ha.
  - apply lookup_take_Some in Ha as [Ha Hak]. apply olt_le. apply (Hlo a); [lia|]. by rewrite Hne in Ha by lia.
  - rewrite lookup_drop in Ha. pose proof (lookup_lt_Some _ _ _ Ha). unfold le.
    destruct (decide (S k + a = length s - 1)%nat) as [Heq|].
    + rewrite Heq in Ha. replace x with y by congruence. apply (Hhi k); [lia|done].
    + apply (Hhi (S k + a)%nat); [lia|]. by rewrite Hne in Ha by lia.
Qed.

Lemma order2_spec a b s : (a < length s)%nat → (b < length s)%nat →
  ∃ s', order2 a b s = Some s' ∧ s' ≡ₚ s.
Proof.
  intros [x Hx]%lookup_lt_is_Some_2 [y Hy]%lookup_lt_is_Some_2. unfold order2. rewrite Hx, Hy. cbn.
  destruct (olt y x); [|by eauto]. destruct (swap_spec s a b x y Hx Hy) as (s' & -> & Hp & _). eauto.
Qed.

Lemma median_of_three_spec s : (1 < length s)%nat → ∃ s', median_of_three s = Some s' ∧ s' ≡ₚ s.
Proof.
  intros Hl. assert (Nat.div2 (length s) < length s)%nat by (apply Nat.lt_div2; lia). unfold median_of_three.
  set (mid := Nat.div2 (length s)) in *.
  destruct (order2_spec 0 mid s) as (s1 & -> & P1); [lia|lia|]. pose proof (Permutation_length P1). cbn.
  destruct (order2_spec 0 (length s - 1) s1) as (s2 & -> & P2); [lia|lia|]. pose proof (Permutation_length P2). cbn.
  destruct (order2_spec mid (length s - 1) s2) as (s3 & -> & P3); [lia|lia|]. pose proof (Permutation_length P3). cbn.
  destruct (lookup_lt_is_Some_2 s3 mid) as [x Hx]; [lia|].
  destruct (lookup_lt_is_Some_2 s3 (length s - 1)) as [y Hy]; [lia|].
  destruct (swap_spec s3 _ _ x y Hx Hy) as (s4 & -> & P4 & _).
  exists s4. split; [done|]. by rewrite P4, P3, P2, P1.
Qed.

Lemma ordered_around (l r : list A) pv :
  ordered l → ordered r → Forall (λ x, le x pv) l → Forall (le pv) r → ordered (l ++ pv :: r).
Proof.
  intros Hl Hr Hlp Hpr. apply StronglySorted_app. split_and!; [|done|by constructor].
  intros x y Hx Hy. rewrite Forall_forall in Hlp. apply elem_of_cons in Hy as [->|Hy]; [by apply Hlp|].
  rewrite Forall_forall in Hpr. transitivity pv; auto.
Qed.

Lemma sort_spec' fuel s : (length s ≤ fuel)%nat →
  ∃ r, quick_Sort fuel s = Some r ∧ r ≡ₚ s ∧ ordered r.
Proof.
  revert s. induction fuel as [|fuel IH]; intros s Hf; cbn.
  - destruct s; [|cbn in *; lia]. eexists. split_and!; [done|done|constructor].
  - destruct (decide _) as [Hd|Hd].
    { eexists. split_and!; [done|done|]. destruct s as [|x [|y s]]; [constructor|by repeat constructor|cbn in *; lia]. }
    destruct (median_of_three_spec s) as (s1 & -> & P1); [lia|]. cbn. pose proof (Permutation_length P1) as L1.
    destruct (partition_spec s1) as (p & pv & s2 & -> & P2 & Hpv & Hlo & Hhi).
    { intros ->. cbn in *. lia. }
    cbn. rewrite Hpv. cbn. pose proof (Permutation_length P2) as L2. pose proof (lookup_lt_Some _ _ _ Hpv).
    destruct (IH (take p s2)) as (l & -> & Pl & Sl); [rewrite length_take; lia|].
    destruct (IH (drop (S p) s2)) as (r & -> & Pr & Sr); [rewrite length_drop; lia|]. cbn.
    eexists. split_and!; [done| |].
    + by rewrite Pl, Pr, take_drop_middle, P2, P1.
    + by apply ordered_around; [| |rewrite Pl|rewrite Pr].
Qed.
End proofs.
End QuickSort.

(** ** Heap sort *)

Module HeapSort.
Section heap.
  Context `{Ordered A}.

(** [if c < n && s[c] > s[largest] { largest = c }] *)
(* src: pkg/algorithms/sort/heapsort/heapsort.go 27-33 heapify *)
Definition larger (s : list A) (n c largest : nat) : option nat :=
  if decide (c < n)%nat then
    x ← s !! c; y ← s !! largest; Some (if olt y x then c else largest)
  else Some largest.

(* src: pkg/algorithms/sort/heapsort/heapsort.go 22-39 heapify *)
Fixpoint heapify (fuel : nat) (s : list A) (n i : nat) : option (list A) :=
  largest ← larger s n (2 * i + 1) i;
  largest ← larger s n (2 * i + 2) largest;
  if decide (largest = i) then Some s
  else match fuel with
  | O => None
  | S fuel => s ← swap s i largest; heapify fuel s n largest
  end.

(** [for i := n/2 - 1; i >= 0; i--]: [i] is the number of turns left. *)
(* src: pkg/algorithms/sort/heapsort/heapsort.go 10-13 Sort *)
Fixpoint build (n i : nat) (s : list A) : option (list A) :=
  match i with
  | O => Some s
  | S i => s ← heapify n s n i; build n i s
  end.

(** [for i := n - 1; i > 0; i--] *)
(* src: pkg/algorithms/sort/heapsort/heapsort.go 15-19 Sort *)
Fixpoint extract (i : nat) (s : list A) : option (list A) :=
  match i with
  | O => Some s
  | S i' => s ← swap s 0 i; s ← heapify i s i 0; extract i' s
  end.

(* src: pkg/algorithms/sort/heapsort/heapsort.go 7-20 Sort *)
Definition heap_Sort (s : list A) : option (list A) :=
  let n := length s in
  s ← build n (Nat.div2 n) s;
  extract (n - 1) s.
End heap.

Section proofs.
  Context `{TotalOrder A}.
  Implicit Types s : list A.

Definition child (p c : nat) : Prop := c = (2 * p + 1)%nat ∨ c = (2 * p + 2)%nat.

(** The parents from [i0] on are not below their children, in the first [n] places. *)
Definition heap_on s (n i0 : nat) : Prop :=
  ∀ p c x y, (i0 ≤ p)%nat → child p c → (c < n)%nat → s !! p = Some x → s !! c = Some y → le y x.

Lemma larger_spec s n c m z : (n ≤ length s)%nat → s !! m = Some z →
  ∃ m' z', larger s n c m = Some m' ∧ s !! m' = Some z' ∧ (m' = m ∨ m' = c ∧ (c < n)%nat) ∧ le z z' ∧
    ((c < n)%nat → ∀ y, s !! c = Some y → le y z').
Proof.
  intros Hn Hm. unfold larger. destruct (decide (c < n)%nat) as [Hc|Hc].
  - destruct (lookup_lt_is_Some_2 s c) as [y Hy]; [lia|]. rewrite Hm, Hy. cbn.
    destruct (olt z y) eqn:E; eexists _, _; (split_and!; [done|done|by eauto| |]).
    + by apply olt_le.
    + intros _ ? [= ->]. done.
    + done.
    + intros _ ? [= ->]. done.
  - exists m, z. split_and!; [done|done|by eauto|done|lia].
Qed.

Lemma heapify_spec fuel s n i i0 :
  (n ≤ length s)%nat → (i < length s)%nat → (n ≤ i + 1 + fuel)%nat → (i0 ≤ i)%nat →
  (∀ p c x y, (i0 ≤ p)%nat → p ≠ i → child p c → (c < n)%nat →
    s !! p = Some x → s !! c = Some y → le y x) →
  (∀ p c x y, (i0 ≤ p)%nat → child p i → child i c → (c < n)%nat →
    s !! p = Some x → s !! c = Some y → le y x) →
  ∃ s', heapify fuel s n i = Some s' ∧ s' ≡ₚ s ∧ (∀ a, (n ≤ a)%nat → a ≠ i → s' !! a = s !! a) ∧
    heap_on s' n i0.
Proof.
  revert s i. induction fuel as [|fuel IH]; intros s i Hn Hi Hf Hi0 Hpar Hgrand; cbn [heapify].
  all: destruct (lookup_lt_is_Some_2 s i Hi) as [x Hx].
  all: destruct (larger_spec s n (2 * i + 1) i x Hn Hx) as (m1 & z1 & -> & Hm1 & Hc1 & Hle1 & Hl1).
  all: cbn [mbind option_bind].
  all: destruct (larger_spec s n (2 * i + 2) m1 z1 Hn Hm1) as (m & z & -> & Hm & Hc & Hle & Hl2).
  all: cbn [mbind option_bind].
  all: assert (le x z) as Hxz by (by transitivity z1).
  all: assert (∀ c y, child i c → (c < n)%nat → s !! c = Some y → le y z) as Hch
    by (intros c y [->| ->] Hcn Hy; [transitivity z1; [by apply Hl1|done]|by apply Hl2]).
  all: destruct (decide (m = i)) as [->|Hmi].
  1,3: exists s; split_and!; [done|done|done|]; intros p c x' y Hp Hpc Hcn Hx' Hy;
    (destruct (decide (p = i)) as [->|]; [replace x' with z by congruence; by eapply Hch|by eapply Hpar]).
  { exfalso. destruct Hc as [->|[-> ?]], Hc1 as [->|[-> ?]]; lia. }
  assert (child i m ∧ (m < n)%nat) as [Him Hmn].
  { unfold child. destruct Hc as [->|[-> ?]], Hc1 as [->|[-> ?]]; done || (split; [auto|lia]). }
  destruct (swap_spec s i m x z Hx Hm) as (s1 & -> & P1 & L1 & Hi1 & Hm1' & Hne). cbn [mbind option_bind].
  unfold child in *.
  destruct (IH s1 m) as (s2 & -> & P2 & Htail & Hheap); [lia|lia|lia|lia| | |].
  - intros p c x' y Hp Hpm Hpc Hcn Hx' Hy. destruct (decide (p = i)) as [->|Hpi].
    + replace x' with z by congruence. destruct (decide (c = m)) as [->|].
      * replace y with x by congruence. done.
      * rewrite Hne in Hy by lia. by eapply Hch.
    + rewrite Hne in Hx' by lia. destruct (decide (c = i)) as [->|].
      * replace y with z by congruence. by eapply (Hgrand p m).
      * rewrite Hne in Hy by lia. by eapply (Hpar p c).
  - intros p c x' y Hp Hpm Hmc Hcn Hx' Hy. assert (p = i) as -> by lia.
    replace x' with z by congruence. rewrite Hne in Hy by lia. by eapply (Hpar m c); [lia|lia| | | |].
  - exists s2. split_and!; [done|by rewrite P2, P1| |done].
    intros a Ha Hai. rewrite Htail, Hne by lia. done.
Qed.

Lemma build_spec n i s : (n = length s)%nat → (i ≤ n)%nat → heap_on s n i →
  ∃ s', build n i s = Some s' ∧ s' ≡ₚ s ∧ heap_on s' n 0.
Proof.
  revert s. induction i as [|i IH]; intros s Hn Hi Hh; cbn; [by eauto|].
  destruct (heapify_spec n s n i i) as (s1 & -> & P1 & _ & H1); [lia|lia|lia|lia| | |].
  - intros p c x y Hp Hpi. apply (Hh p). lia.
  - intros p c x y Hp [Hc|Hc]; lia.
  - cbn. destruct (IH s1) as (s2 & -> & P2 & H2); [by rewrite P1|lia|done|].
    exists s2. split_and!; [done|by rewrite P2, P1|done].
Qed.

(** The first element of a heap is its greatest. *)
Lemma heap_top s n x : (n ≤ length s)%nat → heap_on s n 0 → s !! O = Some x →
  ∀ a y, (a < n)%nat → s !! a = Some y → le y x.
Proof.
  intros Hn Hh Hx. induction a as [a IH] using lt_wf_ind. intros y Ha Hy.
  destruct (decide (a = O)) as [->|Ha0]; [replace y with x by congruence; done|].
  assert (child ((a - 1) / 2) a) as Hc.
  { unfold child. pose proof (Nat.div_mod_eq (a - 1) 2). pose proof (Nat.mod_upper_bound (a - 1) 2). lia. }
  assert ((a - 1) / 2 < a)%nat by (apply Nat.Div0.div_lt_upper_bound; lia).
  destruct (lookup_lt_is_Some_2 s ((a - 1) / 2)) as [z Hz]; [lia|].
  transitivity z; [by eapply (Hh _ a); [lia| | | |]|apply (IH ((a - 1) / 2)%nat); [done|lia|done]].
Qed.

Lemma perm_take_drop s s' n : s' ≡ₚ s → (∀ a, (n ≤ a)%nat → s' !! a = s !! a) →
  take n s' ≡ₚ take n s ∧ drop n s' = drop n s.
Proof.
  intros Hp Ha. assert (drop n s' = drop n s) as Hd.
  { apply list_eq. intros b. rewrite !lookup_drop. apply Ha. lia. }
  split; [|done]. apply (Permutation_app_inv_r (drop n s)).
  rewrite <- Hd at 1. by rewrite !take_drop.
Qed.

Lemma extract_spec i s :
  (S i ≤ length s)%nat → heap_on s (S i) 0 → ordered (drop (S i) s) →
  (∀ x y, x ∈ take (S i) s → y ∈ drop (S i) s → le x y) →
  ∃ s', extract i s = Some s' ∧ s' ≡ₚ s ∧ ordered s'.
Proof.
  revert s. induction i as [|i IH]; intros s Hl Hh Ho Hx; cbn [extract].
  { exists s. split_and!; [done|done|]. destruct s as [|x s]; [constructor|]. cbn in *. rewrite drop_0 in *.
    constructor; [done|]. apply Forall_forall. intros y Hy. apply Hx; [|done]. rewrite take_0. set_solver. }
  destruct (lookup_lt_is_Some_2 s 0) as [x0 Hx0]; [lia|].
  destruct (lookup_lt_is_Some_2 s (S i)) as [xi Hxi]; [lia|].
  destruct (swap_spec s 0 (S i) x0 xi Hx0 Hxi) as (s1 & -> & P1 & L1 & H10 & H1i & Hne). cbn [mbind option_bind].
  destruct (heapify_spec (S i) s1 (S i) 0 0) as (s2 & -> & P2 & Ht & Hh2); [lia|lia|lia|lia| | |].
  { intros p c x y Hp Hp0 [Hc|Hc] Hcn Hx' Hy; rewrite Hne in Hx', Hy by lia;
      (eapply (Hh p c); [lia|unfold child; lia|lia|done|done]). }
  { intros p c x y Hp [Hc|Hc]; lia. }
  cbn [mbind option_bind].
  destruct (perm_take_drop s s1 (S (S i)) P1) as [T1 D1]; [intros; apply Hne; lia|].
  destruct (perm_take_drop s1 s2 (S i) P2) as [T2 D2]; [intros; apply Ht; lia|].
  assert (drop (S i) s2 = x0 :: drop (S (S i)) s) as D3.
  { rewrite D2, <- D1. by apply drop_S. }
  assert (∀ x, x ∈ take (S i) s2 → x ∈ take (S (S i)) s) as Hin.
  { intros x. rewrite T2, <- T1. rewrite (take_S_r _ _ _ H1i). set_solver. }
  pose proof (heap_top s (S (S i)) x0 Hl Hh Hx0) as Htop.
  destruct (IH s2) as (s3 & -> & P3 & O3).
  - rewrite P2. lia.
  - done.
  - rewrite D3. constructor; [done|]. apply Forall_forall. intros y Hy. apply Hx; [|done].
    apply list_elem_of_lookup. exists O. by rewrite lookup_take_lt by lia.
  - intros x y Hx2 Hy. rewrite D3 in Hy. apply Hin in Hx2.
    apply elem_of_cons in Hy as [->|Hy]; [|by apply Hx].
    apply list_elem_of_lookup in Hx2 as [a [Hxa Ha]%lookup_take_Some]. by eapply Htop.
  - exists s3. split_and!; [done|by rewrite P3, P2, P1|done].
Qed.

Lemma heapsort_spec s : ∃ r, heap_Sort s = Some r ∧ r ≡ₚ s ∧ ordered r.
Proof.
  unfold heap_Sort. destruct (build_spec (length s) (Nat.div2 (length s)) s) as (s1 & -> & P1 & H1); [done|rewrite Nat.div2_div; apply Nat.Div0.div_le_upper_bound; lia| |].
  { rewrite Nat.div2_div. intros p c x y Hp Hc Hcn. exfalso.
    pose proof (Nat.div_mod_eq (length s) 2). pose proof (Nat.mod_upper_bound (length s) 2).
    unfold child in Hc. lia. }
  cbn [mbind option_bind]. pose proof (Permutation_length P1) as L1. destruct s as [|x s].
  { apply Permutation_nil_r in P1 as ->. exists []. split_and!; [done|done|constructor]. }
  cbn in L1. cbn [length Nat.sub]. rewrite Nat.sub_0_r.
  destruct (extract_spec (length s) s1) as (s2 & -> & P2 & O2); [lia|done| | |].
  - rewrite drop_ge by lia. constructor.
  - intros ??. rewrite (drop_ge s1) by lia. by intros _ ?%not_elem_of_nil.
  - exists s2. split_and!; [done|by rewrite P2, P1|done].
Qed.
End proofs.
End HeapSort.

(** ** Radix sort *)

Module RadixSort.

(** [for _, v := range l { ... }] where a turn may panic. *)
Fixpoint for_each {A B} (f : A → B → option B) (l : list A) (b : B) : option B :=
  match l with
  | [] => Some b
  | x :: l => b ← f x b; for_each f l b
  end.

(* src: pkg/algorithms/sort/radixsort/radixsort.go 19-27 getMax *)
Definition getMax (s : list Z) : option Z :=
  mx ← head s; Some (foldl (λ mx v : Z, if decide (mx < v) then v else mx) mx s).

(** The index [(v/exp)%10]: negative, hence out of range, for most negative [v]. *)
(* src: pkg/algorithms/sort/radixsort/radixsort.go 36-36 countingSort *)
Definition digit (exp v : Z) : option nat :=
  let d := Z.rem (Z.quot v exp) 10 in if decide (0 ≤ d) then Some (Z.to_nat d) else None.

(* src: pkg/algorithms/sort/radixsort/radixsort.go 34-37 countingSort *)
Definition count_digits (exp : Z) (s : list Z) : list nat → option (list nat) :=
  for_each (λ v count, d ← digit exp v; c ← count !! d; Some (<[d := S c]> count)) s.

(* src: pkg/algorithms/sort/radixsort/radixsort.go 39-43 countingSort *)
Definition accumulate : list nat → option (list nat) :=
  for_each (λ i count, c ← count !! i; c' ← count !! (i - 1)%nat;
                       Some (<[i := (c + c')%nat]> count)) (seq 1 9).

(* src: pkg/algorithms/sort/radixsort/radixsort.go 45-49 countingSort *)
Definition place (exp : Z) (s : list Z) : list Z * list nat → option (list Z * list nat) :=
  for_each (λ v '(output, count),
    d ← digit exp v; c ← count !! d;
    match c with
    | O => None
    | S p => if decide (p < length output)%nat
             then Some (<[p := v]> output, <[d := p]> count) else None
    end) (reverse s).

(* src: pkg/algorithms/sort/radixsort/radixsort.go 29-56 countingSort *)
Definition countingSort (s : list Z) (exp : Z) : option (list Z) :=
  count ← count_digits exp s (replicate 10 0%nat);
  count ← accumulate count;
  '(output, _) ← place exp s (replicate (length s) 0, count);
  Some output.

(** [for exp := 1; maxVal/exp > 0; exp *= 10]: the product wraps around. *)
(* src: pkg/algorithms/sort/radixsort/radixsort.go 13-16 Sort *)
Fixpoint radix_loop (fuel : nat) (maxVal exp : Z) (s : list Z) : option (list Z) :=
  if decide (0 < Z.quot maxVal exp) then
    match fuel with
    | O => None
    | S fuel => s ← countingSort s exp; radix_loop fuel maxVal (i64 (exp * 10)) s
    end
  else Some s.

(** At most 19 turns: an [int] has that many digits. *)
(* src: pkg/algorithms/sort/radixsort/radixsort.go 6-17 Sort *)
Definition radix_Sort (s : list Z) : option (list Z) :=
  if decide (length s = 0)%nat then Some s
  else maxVal ← getMax s; radix_loop 19 maxVal 1 s.

Section counting.
  Variables (exp : Z) (s : list Z).
  Hypothesis (Hexp : 0 < exp) (Hs : Forall (λ v, 0 ≤ v) s).

Definition dg (e v : Z) : nat := Z.to_nat ((v / e) mod 10).
Definition bucket (e : Z) (d : nat) (l : list Z) : list Z := filter (λ v, dg e v = d) l.
Definition buckets (e : Z) (m : nat) (l : list Z) : list Z := concat ((λ d, bucket e d l) <$> seq 0 m).

Lemma digit_dg v : 0 ≤ v → digit exp v = Some (dg exp v).
Proof.
  intros Hv. unfold digit, dg. rewrite Z.quot_div_nonneg, Z.rem_mod_nonneg by (lia || by apply Z.div_pos).
  rewrite decide_True; [done|]. apply Z.mod_pos_bound. lia.
Qed.

Lemma dg_lt v : (dg exp v < 10)%nat.
Proof. unfold dg. pose proof (Z.mod_pos_bound (v / exp) 10). lia. Qed.

Lemma buckets_S m l : buckets exp (S m) l = buckets exp m l ++ bucket exp m l.
Proof. unfold buckets. rewrite seq_S, fmap_app, concat_app. cbn. by rewrite app_nil_r. Qed.

Lemma buckets_below m l : buckets exp m l ≡ₚ filter (λ v, (dg exp v < m)%nat) l.
Proof.
  induction m as [|m IH].
  - cbn. induction l as [|x l IHl]; [done|]. by rewrite filter_cons, decide_False by lia.
  - rewrite buckets_S, IH. unfold bucket. clear. induction l as [|x l IHl]; [done|]. rewrite !filter_cons.
    repeat case_decide; try lia; cbn; [by rewrite <- IHl|rewrite <- IHl; solve_Permutation|done].
Qed.

Lemma buckets_perm l : buckets exp 10 l ≡ₚ l.
Proof.
  rewrite buckets_below. induction l as [|x l IH]; [done|].
  rewrite filter_cons, decide_True by apply dg_lt. by f_equiv.
Qed.

Lemma bucket_le_all m : (m < 10)%nat →
  (length (buckets exp m s) + length (bucket exp m s) ≤ length s)%nat.
Proof.
  intros Hm. rewrite <- length_app, <- buckets_S, buckets_below. apply length_filter.
Qed.

(** Places of different digits, or of different ranks within a digit, differ. *)
Lemma place_inj d d' r r' :
  (r < length (bucket exp d s))%nat → (r' < length (bucket exp d' s))%nat →
  (length (buckets exp d s) + r = length (buckets exp d' s) + r')%nat → d = d' ∧ r = r'.
Proof.
  assert (∀ a b, (a < b)%nat →
    (length (buckets exp a s) + length (bucket exp a s) ≤ length (buckets exp b s))%nat) as Hmono.
  { intros a b Hab. rewrite <- length_app, <- buckets_S. induction Hab as [|b Hab IH]; [done|].
    rewrite (buckets_S b), length_app. lia. }
  intros Hr Hr' Heq. destruct (lt_eq_lt_dec d d') as [[Hd| ->]|Hd]; [|lia|]; apply Hmono in Hd; lia.
Qed.

Lemma count_digits_spec l f : Forall (λ v, 0 ≤ v) l →
  count_digits exp l (f <$> seq 0 10) = Some ((λ d, f d + length (bucket exp d l))%nat <$> seq 0 10).
Proof.
  intros Hl. revert f. induction Hl as [|v l Hv Hl IH]; intros f; unfold count_digits in *; cbn [for_each].
  { f_equal. apply list_fmap_ext. intros. cbn. lia. }
  rewrite digit_dg by done. cbn [mbind option_bind]. pose proof (dg_lt v) as Hd.
  rewrite list_lookup_fmap, lookup_seq_lt by done. cbn [mbind option_bind fmap option_fmap option_map].
  replace (<[dg exp v := S (f (0 + dg exp v)%nat)]> (f <$> seq 0 10))
    with ((λ d, f d + if decide (dg exp v = d) then 1 else 0)%nat <$> seq 0 10).
  - rewrite IH. f_equal. apply list_fmap_ext. intros _ d _. unfold bucket. rewrite filter_cons.
    case_decide; cbn; lia.
  - apply list_eq. intros d. destruct (decide (d < 10)%nat) as [Hlt|Hge].
    + rewrite list_lookup_fmap, lookup_seq_lt by done. cbn [fmap option_fmap option_map Nat.add].
      destruct (decide (dg exp v = d)) as [<-|Hne].
      * rewrite list_lookup_insert_eq by (by rewrite length_fmap, length_seq). f_equal. lia.
      * rewrite list_lookup_insert_ne, list_lookup_fmap, lookup_seq_lt by done. cbn. f_equal. lia.
    + rewrite !lookup_ge_None_2; [done| |]; rewrite ?length_insert, length_fmap, length_seq; lia.
Qed.

Lemma accumulate_spec :
  accumulate ((λ d, length (bucket exp d s)) <$> seq 0 10) =
  Some ((λ d, length (buckets exp d s) + length (bucket exp d s))%nat <$> seq 0 10).
Proof.
  assert (∀ m, length (buckets exp (S m) s) = (length (buckets exp m s) + length (bucket exp m s))%nat) as HS.
  { intros m. by rewrite buckets_S, length_app. }
  unfold accumulate. cbn -[buckets bucket]. rewrite !HS. change (length (buckets exp 0 s)) with 0%nat.
  cbn [Nat.add]. f_equal. repeat (apply (f_equal2 cons); [lia|]). done.
Qed.

(** The loop from the end fills the places of the elements still to come last. *)
Lemma place_spec pre suf output f : s = pre ++ suf →
  length output = length s →
  (∀ d, f d = (length (buckets exp d s) + length (bucket exp d pre))%nat) →
  (∀ d r, (d < 10)%nat → (length (bucket exp d pre) ≤ r < length (bucket exp d s))%nat →
    output !! (length (buckets exp d s) + r)%nat = bucket exp d s !! r) →
  ∃ output' count', place exp pre (output, f <$> seq 0 10) = Some (output', count') ∧
    length output' = length s ∧
    ∀ d r, (d < 10)%nat → (r < length (bucket exp d s))%nat →
      output' !! (length (buckets exp d s) + r)%nat = bucket exp d s !! r.
Proof.
  revert suf output f. induction pre as [|v pre IH] using rev_ind; intros suf output f Hsplit Hlen Hf Hout.
  { eexists _, _. split_and!; [done|done|]. intros d r Hd Hr. apply Hout; [done|]. cbn. lia. }
  unfold place in *. rewrite reverse_snoc. cbn [for_each].
  assert (0 ≤ v) as Hv.
  { rewrite Forall_forall in Hs. apply Hs. rewrite Hsplit. set_solver. }
  rewrite digit_dg by done. cbn [mbind option_bind]. pose proof (dg_lt v) as Hd.
  rewrite list_lookup_fmap, lookup_seq_lt by done. cbn [mbind option_bind fmap option_fmap option_map Nat.add].
  assert (∀ d, bucket exp d (pre ++ [v]) = bucket exp d pre ++ if decide (dg exp v = d) then [v] else []) as Hb.
  { intros d. unfold bucket. rewrite filter_app. f_equal. }
  assert (∀ d, bucket exp d s = bucket exp d (pre ++ [v]) ++ bucket exp d suf) as Hbs.
  { intros d. unfold bucket. by rewrite Hsplit, filter_app. }
  rewrite Hf, Hb, decide_True, length_app by done. cbn [length].
  set (d0 := dg exp v) in *. set (p := (length (buckets exp d0 s) + length (bucket exp d0 pre))%nat).
  replace (length (buckets exp d0 s) + (length (bucket exp d0 pre) + 1))%nat with (S p) by lia.
  cbn [mbind option_bind].
  assert (length (bucket exp d0 pre) < length (bucket exp d0 s))%nat as Hr0.
  { rewrite Hbs, Hb, decide_True, !length_app by done. cbn. lia. }
  pose proof (bucket_le_all d0 Hd).
  rewrite decide_True by lia. cbn [mbind option_bind].
  replace (<[d0 := p]> (f <$> seq 0 10))
    with ((λ d, (length (buckets exp d s) + length (bucket exp d pre))%nat) <$> seq 0 10).
  - apply (IH (v :: suf)); [by rewrite Hsplit, <- app_assoc|by rewrite length_insert|done|].
    intros d r Hd10 Hr. destruct (decide (d = d0 ∧ r = length (bucket exp d0 pre))) as [[-> ->]|Hne].
    + rewrite list_lookup_insert_eq by lia. rewrite Hbs, Hb, decide_True by done.
      rewrite <- app_assoc, lookup_app_r by lia. by rewrite Nat.sub_diag.
    + rewrite list_lookup_insert_ne.
      * apply Hout; [done|]. rewrite Hb, length_app. split; [|lia].
        case_decide; cbn; [|lia]. destruct (decide (r = length (bucket exp d pre))); [naive_solver|lia].
      * intros Heq. apply Hne. by destruct (place_inj d0 d (length (bucket exp d0 pre)) r) as [<- <-]; [lia|lia|lia|].
  - apply list_eq. intros d. destruct (decide (d < 10)%nat) as [Hlt|Hge].
    + rewrite list_lookup_fmap, lookup_seq_lt by done. cbn [fmap option_fmap option_map Nat.add].
      destruct (decide (d0 = d)) as [<-|Hne].
      * by rewrite list_lookup_insert_eq by (by rewrite length_fmap, length_seq).
      * rewrite list_lookup_insert_ne, list_lookup_fmap, lookup_seq_lt by done. cbn. f_equal.
        rewrite Hf, Hb, decide_False, app_nil_r by done. done.
    + rewrite !lookup_ge_None_2; [done| |]; rewrite ?length_insert, length_fmap, length_seq; lia.
Qed.

Lemma concat_ext (bs : list (list Z)) l :
  length l = length (concat bs) →
  (∀ j b r, bs !! j = Some b → (r < length b)%nat → l !! (length (concat (take j bs)) + r)%nat = b !! r) →
  l = concat bs.
Proof.
  clear. revert l. induction bs as [|b bs IH]; intros l Hl Hb; cbn in *.
  { by apply nil_length_inv. }
  rewrite length_app in Hl. rewrite <- (take_drop (length b) l). f_equal.
  - apply list_eq. intros r. destruct (decide (r < length b)%nat) as [Hr|Hr].
    + rewrite lookup_take_lt by done. by apply (Hb O b r).
    + rewrite !lookup_ge_None_2; [done|lia|rewrite length_take; lia].
  - apply IH; [rewrite length_drop; lia|]. intros j b' r Hj Hr. rewrite lookup_drop.
    rewrite <- (Hb (S j) b' r Hj Hr). cbn. rewrite length_app. f_equal. lia.
Qed.

(** Counting sort puts the elements in order of the digit and keeps the order within one. *)
Lemma countingSort_buckets : countingSort s exp = Some (buckets exp 10 s).
Proof.
  unfold countingSort. change (replicate 10 0%nat) with ((λ _ : nat, 0%nat) <$> seq 0 10).
  rewrite count_digits_spec by done. cbn [mbind option_bind Nat.add]. rewrite accumulate_spec. cbn [mbind option_bind].
  destruct (place_spec s [] (replicate (length s) 0)
    (λ d, length (buckets exp d s) + length (bucket exp d s))%nat) as (out & c & -> & Hl & Hout).
  - by rewrite app_nil_r.
  - by rewrite length_replicate.
  - done.
  - lia.
  - cbn [mbind option_bind]. f_equal. unfold buckets. apply concat_ext.
    { rewrite Hl. fold (buckets exp 10 s). by rewrite buckets_perm. }
    intros j b r Hj Hr. apply list_lookup_fmap_Some in Hj as (d & -> & [-> Hd]%lookup_seq).
    rewrite <- Hout by done. f_equal. f_equal. f_equal. unfold buckets. f_equal.
    rewrite <- fmap_take, take_seq. f_equal. f_equal. lia.
Qed.

(** If the elements were in order modulo [exp] they are now in order modulo [10 * exp]. *)
Lemma countingSort_refines :
  StronglySorted (λ x y, x mod exp ≤ y mod exp) s →
  ∃ r, countingSort s exp = Some r ∧ r ≡ₚ s ∧ StronglySorted (λ x y, x mod (exp * 10) ≤ y mod (exp * 10)) r.
Proof.
  intros Hsort. rewrite countingSort_buckets. eexists. split_and!; [done|apply buckets_perm|].
  assert (∀ x, x mod (exp * 10) = x mod exp + exp * Z.of_nat (dg exp x)) as Hmod.
  { intros x. rewrite Z.rem_mul_r by lia. unfold dg. pose proof (Z.mod_pos_bound (x / exp) 10). lia. }
  assert (∀ x, 0 ≤ x mod exp < exp) as Hb by (intros; apply Z.mod_pos_bound; lia).
  generalize 10%nat as m. induction m as [|m IH]; [constructor|]. rewrite buckets_S.
  apply StronglySorted_app. split_and!; [|done|].
  - intros x y Hx Hy. rewrite buckets_below in Hx. apply list_elem_of_filter in Hx as [Hx _], Hy as [Hy _].
    rewrite !Hmod. pose proof (Hb x). pose proof (Hb y). nia.
  - clear IH. unfold bucket. revert Hs. intros _. induction Hsort as [|x l Hl IH Hx]; [constructor|]. rewrite filter_cons.
    case_decide as Hd; [|done]. constructor; [done|]. apply Forall_forall. intros y [Hy Hyl]%list_elem_of_filter.
    rewrite !Hmod, Hd, Hy. rewrite Forall_forall in Hx. specialize (Hx y Hyl). lia.
Qed.
End counting.

Lemma getMax_spec s : s ≠ [] → ∃ mx, getMax s = Some mx ∧ mx ∈ s ∧ Forall (λ v, v ≤ mx) s.
Proof.
  destruct s as [|x s]; [done|]. intros _. unfold getMax. cbn [head mbind option_bind].
  eexists. split; [done|].
  assert (∀ l m, let r := foldl (λ mx v, if decide (mx < v) then v else mx) m l in
    (r = m ∨ r ∈ l) ∧ m ≤ r ∧ Forall (λ v, v ≤ r) l) as Hfold.
  { clear. induction l as [|y l IH]; intros m; cbn; [split_and!; [by left|lia|constructor]|].
    destruct (decide (m < y)) as [Hy|Hy]; [destruct (IH y) as (Hin & Hle & Hall)|destruct (IH m) as (Hin & Hle & Hall)];
      (split_and!; [set_solver|lia|constructor; [lia|done]]). }
  destruct (Hfold (x :: s) x) as (Hin & Hle & Hall). split; [|done].
  destruct Hin as [->|]; [apply list_elem_of_here|done].
Qed.

Lemma radix_loop_spec fuel k maxVal s :
  (k + fuel = 19)%nat → 0 ≤ maxVal < 2 ^ 63 → Forall (λ v, 0 ≤ v ≤ maxVal) s →
  StronglySorted (λ x y, x mod 10 ^ Z.of_nat k ≤ y mod 10 ^ Z.of_nat k) s →
  ∃ r, radix_loop fuel maxVal (i64 (10 ^ Z.of_nat k)) s = Some r ∧ r ≡ₚ s ∧ ordered r.
Proof.
  revert k s. induction fuel as [|fuel IH]; intros k s Hk Hmax Hs Hsort; cbn [radix_loop].
  - assert (k = 19)%nat as -> by lia. rewrite decide_False.
    2:{ replace (i64 (10 ^ Z.of_nat 19)) with (- (8446744073709551616)) by done.
        rewrite Z.quot_opp_r by lia. rewrite Z.quot_div_nonneg by lia.
        pose proof (Z.div_pos maxVal 8446744073709551616). lia. }
    exists s. split_and!; [done|done|]. induction Hsort as [|x l Hl IHl Hx]; [constructor|].
    apply Forall_cons in Hs as [Hx0 Hs]. constructor; [auto|]. rewrite Forall_forall in *. intros y Hy.
    specialize (Hx y Hy). specialize (Hs y Hy). rewrite !Z.mod_small in Hx by lia. unfold le. cbn. lia.
  - assert (0 < 10 ^ Z.of_nat k ≤ 10 ^ 18) as Hpow.
    { split; [apply Z.pow_pos_nonneg; lia|apply Z.pow_le_mono_r; lia]. }
    rewrite (i64_id (10 ^ Z.of_nat k)) by (unfold is_i64; lia). rewrite Z.quot_div_nonneg by lia.
    destruct (decide _) as [Hd|Hd].
    + destruct (countingSort_refines (10 ^ Z.of_nat k) s) as (r & -> & Pr & Sr); [lia| |done|].
      { eapply Forall_impl; [done|]. cbn. lia. }
      cbn [mbind option_bind]. replace (10 ^ Z.of_nat k * 10) with (10 ^ Z.of_nat (S k)) in *
        by (rewrite Nat2Z.inj_succ, Z.pow_succ_r by lia; lia).
      destruct (IH (S k) r) as (r' & -> & Pr' & Sr'); [lia|done|by rewrite Pr|done|].
      exists r'. split_and!; [done|by rewrite Pr'|done].
    + exists s. split_and!; [done|done|]. assert (maxVal < 10 ^ Z.of_nat k) as Hlt.
      { apply Z.nle_gt. intros Hle. apply Hd. apply Z.div_str_pos. lia. }
      induction Hsort as [|x l Hl IHl Hx]; [constructor|].
      apply Forall_cons in Hs as [Hx0 Hs]. constructor; [auto|]. rewrite Forall_forall in *. intros y Hy.
      specialize (Hx y Hy). specialize (Hs y Hy). rewrite !Z.mod_small in Hx by lia. unfold le. cbn. lia.
Qed.

Lemma radixsort_spec s : Forall (λ v, 0 ≤ v < 2 ^ 63) s → ∃ r, radix_Sort s = Some r ∧ r ≡ₚ s ∧ ordered r.
Proof.
  intros Hs. unfold radix_Sort. destruct (decide _) as [Hl|Hl].
  { apply nil_length_inv in Hl as ->. exists []. split_and!; [done|done|constructor]. }
  destruct (getMax_spec s) as (mx & -> & Hin & Hmx); [by intros ->|]. cbn [mbind option_bind].
  rewrite Forall_forall in Hs. pose proof (Hs _ Hin).
  apply (radix_loop_spec 19 0 mx s); [done|done| |].
  - rewrite Forall_forall in *. intros x Hx. specialize (Hs x Hx). specialize (Hmx x Hx). lia.
  - clear. induction s as [|x s IH]; constructor; [done|]. apply Forall_forall. intros y _.
    rewrite Z.pow_0_r, !Z.mod_1_r. lia.
Qed.
End RadixSort.

(** ** Binary search *)

Module BinarySearch.

(** [for lo < hi { ... }]; the predicate indexes a slice, so it may panic. *)
(* src: pkg/algorithms/search/binarysearch/binarysearch.go 29-37 SearchFunc *)
Fixpoint func_loop (fuel : nat) (ok : nat → option bool) (lo hi : nat) : option nat :=
  if decide (lo < hi)%nat then
    match fuel with
    | O => None
    | S fuel =>
        let mid := (lo + (hi - lo) / 2)%nat in
        b ← ok mid;
        if negb b then func_loop fuel ok (mid + 1)%nat hi else func_loop fuel ok lo mid
    end
  else Some lo.

(* src: pkg/algorithms/search/binarysearch/binarysearch.go 28-39 SearchFunc *)
Definition SearchFunc (n : nat) (ok : nat → option bool) : option nat := func_loop n ok 0 n.

Section search.
  Context `{Ordered A}.

(* src: pkg/algorithms/search/binarysearch/binarysearch.go 9-17 Search *)
Fixpoint search_loop (fuel : nat) (s : list A) (target : A) (lo hi : nat) : option nat :=
  if decide (lo < hi)%nat then
    match fuel with
    | O => None
    | S fuel =>
        let mid := (lo + (hi - lo) / 2)%nat in
        x ← s !! mid;
        if olt x target then search_loop fuel s target (mid + 1)%nat hi
        else search_loop fuel s target lo mid
    end
  else Some lo.

(* src: pkg/algorithms/search/binarysearch/binarysearch.go 8-22 Search *)
Definition Search (s : list A) (target : A) : option (nat * bool) :=
  lo ← search_loop (length s) s target 0 (length s);
  if decide (lo < length s)%nat then
    x ← s !! lo; Some (lo, oeq x target)
  else Some (lo, false).

(* src: pkg/algorithms/search/binarysearch/binarysearch.go 43-45 LowerBound *)
Definition LowerBound (s : list A) (target : A) : option nat :=
  SearchFunc (length s) (λ i, x ← s !! i; Some (ole target x)).

(* src: pkg/algorithms/search/binarysearch/binarysearch.go 49-51 UpperBound *)
Definition UpperBound (s : list A) (target : A) : option nat :=
  SearchFunc (length s) (λ i, x ← s !! i; Some (olt target x)).
End search.

(** With a predicate that holds from some index on, the loop finds that index. *)
Lemma func_loop_spec fuel ok (f : nat → bool) lo hi :
  (lo ≤ hi)%nat → (hi - lo ≤ fuel)%nat → (∀ i, (lo ≤ i < hi)%nat → ok i = Some (f i)) →
  (∀ i j, (lo ≤ i ≤ j)%nat → (j < hi)%nat → f i = true → f j = true) →
  ∃ r, func_loop fuel ok lo hi = Some r ∧ (lo ≤ r ≤ hi)%nat ∧
    (∀ i, (lo ≤ i < r)%nat → f i = false) ∧ (∀ i, (r ≤ i < hi)%nat → f i = true).
Proof.
  revert lo hi. induction fuel as [|fuel IH]; intros lo hi Hle Hf Hok Hmono; cbn [func_loop].
  { rewrite decide_False by lia. exists lo. split_and!; [done|lia|lia|lia|lia]. }
  destruct (decide (lo < hi)%nat) as [Hlt|]; [|exists lo; split_and!; [done|lia|lia|lia|lia]].
  assert (lo ≤ lo + (hi - lo) / 2 < hi)%nat as Hmid.
  { pose proof (Nat.div_lt (hi - lo) 2). lia. }
  set (mid := (lo + (hi - lo) / 2)%nat) in *. rewrite Hok by lia. cbn [mbind option_bind].
  destruct (f mid) eqn:Em; cbn [negb].
  - destruct (IH lo mid) as (r & -> & Hr & Hlow & Hup); [lia|lia|intros; apply Hok; lia|
      intros i j ??; apply Hmono; lia|].
    exists r. split_and!; [done|lia|lia|done|]. intros i Hi.
    destruct (decide (i < mid)%nat); [apply Hup; lia|]. apply (Hmono mid); [lia|lia|done].
  - destruct (IH (mid + 1)%nat hi) as (r & -> & Hr & Hlow & Hup); [lia|lia|intros; apply Hok; lia|
      intros i j ??; apply Hmono; lia|].
    exists r. split_and!; [done|lia|lia| |done]. intros i Hi.
    destruct (decide (mid < i)%nat); [apply Hlow; lia|].
    destruct (f i) eqn:Ei; [|done]. rewrite (Hmono i mid) in Em; [done|lia|lia|done].
Qed.

(** [Search] runs the loop of [SearchFunc] on the predicate of [LowerBound]. *)
Lemma search_loop_func `{TotalOrder A} fuel (s : list A) target lo hi :
  search_loop fuel s target lo hi = func_loop fuel (λ i, x ← s !! i; Some (ole target x)) lo hi.
Proof.
  revert lo hi. induction fuel as [|fuel IH]; intros lo hi; cbn [search_loop func_loop]; [done|].
  case_decide; [|done]. destruct (s !! _) as [x|]; cbn [mbind option_bind]; [|done].
  rewrite ole_spec, negb_involutive. by destruct (olt x target).
Qed.

Lemma bound_spec `{TotalOrder A} (s : list A) (p : A → bool) :
  ordered s → (∀ x y, le x y → p x = true → p y = true) →
  ∃ r, SearchFunc (length s) (λ i, x ← s !! i; Some (p x)) = Some r ∧ (r ≤ length s)%nat ∧
    Forall (λ x, p x = false) (take r s) ∧ Forall (λ x, p x = true) (drop r s).
Proof.
  intros Hs Hp. unfold SearchFunc.
  destruct (func_loop_spec (length s) (λ i, x ← s !! i; Some (p x))
    (λ i, match s !! i with Some x => p x | None => true end) 0 (length s)) as (r & -> & Hr & Hlow & Hup).
  - lia.
  - lia.
  - intros i Hi. destruct (lookup_lt_is_Some_2 s i) as [x Hx]; [lia|]. by rewrite Hx.
  - intros i j Hij Hj. destruct (lookup_lt_is_Some_2 s i) as [x Hx]; [lia|].
    destruct (lookup_lt_is_Some_2 s j) as [y Hy]; [lia|]. rewrite Hx, Hy. apply Hp.
    destruct (decide (i = j)) as [->|]; [replace y with x by congruence; done|].
    rewrite ordered_lookup in Hs. apply (Hs i j); [lia|done|done].
  - exists r. split_and!; [done|lia| |]; apply Forall_lookup; intros i x Hi.
    + apply lookup_take_Some in Hi as [Hi ?]. specialize (Hlow i ltac:(lia)). by rewrite Hi in Hlow.
    + rewrite lookup_drop in Hi. pose proof (lookup_lt_Some _ _ _ Hi).
      specialize (Hup (r + i)%nat ltac:(lia)). by rewrite Hi in Hup.
Qed.
End BinarySearch.

(** ** The theorems *)

Lemma ordered_unique `{TotalOrder A} (l k : list A) : ordered l → ordered k → l ≡ₚ k → l = k.
Proof.
  intros Hl Hk Hp. assert (AntiSymm eq (@le A _)) by (intros x y Hxy Hyx; by apply olt_total).
  by apply (StronglySorted_unique le).
Qed.

(** C38. The four sorting routines return, without an index out of range: merge sort, quick sort
    and heap sort give back the same slice, which is the elements of the argument in
    ascending order; radix sort does so for slices of non-negative int values, also for those
    whose last power of ten overflows. *)
Theorem sorting_correct `{TotalOrder A} (s : list A) (ints : list Z) :
  Forall (λ v, 0 ≤ v < 2 ^ 63) ints →
  (∃ r, MergeSort.merge_Sort (length s) s = Some r ∧ QuickSort.quick_Sort (length s) s = Some r ∧
     HeapSort.heap_Sort s = Some r ∧ r ≡ₚ s ∧ ordered r) ∧
  (∃ r, RadixSort.radix_Sort ints = Some r ∧ r ≡ₚ ints ∧ ordered r).
Proof.
  intros Hints. split; [|by apply RadixSort.radixsort_spec].
  destruct (MergeSort.sort_spec (length s) s) as (r1 & -> & P1 & S1); [done|].
  destruct (QuickSort.sort_spec' (length s) s) as (r2 & -> & P2 & S2); [done|].
  destruct (HeapSort.heapsort_spec s) as (r3 & -> & P3 & S3).
  exists r1. rewrite (ordered_unique r2 r1), (ordered_unique r3 r1); [done|done|done|by rewrite P3|done|done|by rewrite P2].
Qed.

Lemma sorting_correct_witness :
  (∃ r, MergeSort.merge_Sort 5 [3; -1; 2; 3; 0] = Some r ∧ QuickSort.quick_Sort 5 [3; -1; 2; 3; 0] = Some r ∧
     HeapSort.heap_Sort [3; -1; 2; 3; 0] = Some r ∧ r ≡ₚ [3; -1; 2; 3; 0] ∧ ordered r) ∧
  (∃ r, RadixSort.radix_Sort [9223372036854775807; 0; 170; 45; 10 ^ 18] = Some r ∧
     r ≡ₚ [9223372036854775807; 0; 170; 45; 10 ^ 18] ∧ ordered r).
Proof.
  apply (sorting_correct [3; -1; 2; 3; 0] [9223372036854775807; 0; 170; 45; 10 ^ 18]).
  repeat constructor; lia.
Defined.

(** On a slice in ascending order [LowerBound] and [UpperBound] split the slice into what is
    below the target and the rest, and into what is not above it and the rest; [Search]
    answers the lower bound, and whether the target occurs in the slice. *)
Theorem binary_search_correct `{TotalOrder A} (s : list A) (target : A) :
  ordered s →
  ∃ lo hi, BinarySearch.LowerBound s target = Some lo ∧ BinarySearch.UpperBound s target = Some hi ∧
    (lo ≤ hi ≤ length s)%nat ∧
    Forall (λ x, olt x target = true) (take lo s) ∧ Forall (le target) (drop lo s) ∧
    Forall (λ x, le x target) (take hi s) ∧ Forall (λ x, olt target x = true) (drop hi s) ∧
    BinarySearch.Search s target = Some (lo, bool_decide (lo < hi)%nat) ∧ (target ∈ s ↔ (lo < hi)%nat).
Proof.
  intros Hs. unfold BinarySearch.LowerBound, BinarySearch.UpperBound.
  destruct (BinarySearch.bound_spec s (ole target)) as (lo & Hlo & Hl1 & Hl2 & Hl3); [done| |].
  { intros x y Hxy. rewrite !ole_spec, !negb_true_iff. intros. change (le target y). by transitivity x. }
  destruct (BinarySearch.bound_spec s (olt target)) as (hi & Hhi & Hh1 & Hh2 & Hh3); [done| |].
  { intros x y Hxy Htx. destruct (olt target y) eqn:E; [done|].
    assert (le x target) as Hxt by (by transitivity y). unfold le in Hxt. by rewrite Htx in Hxt. }
  assert (Forall (λ x, olt x target = true) (take lo s)) as Hlow.
  { eapply Forall_impl; [done|]. cbn. intros x. rewrite ole_spec. by intros ?%negb_false_iff. }
  assert (Forall (le target) (drop lo s)) as Hup.
  { eapply Forall_impl; [done|]. cbn. intros x. rewrite ole_spec. by intros ?%negb_true_iff. }
  assert (∀ x i, s !! i = Some x → (i < lo)%nat → olt x target = true) as Hlow'.
  { intros x i Hx Hi. rewrite Forall_lookup in Hlow. apply (Hlow i). by rewrite lookup_take_lt. }
  assert (∀ x i, s !! i = Some x → (hi ≤ i)%nat → olt target x = true) as Hhi'.
  { intros x i Hx Hi. rewrite Forall_lookup in Hh3. apply (Hh3 (i - hi)%nat). rewrite lookup_drop.
    by replace (hi + (i - hi))%nat with i by lia. }
  assert (lo ≤ hi)%nat as Hle.
  { destruct (decide (lo ≤ hi)%nat); [done|]. destruct (lookup_lt_is_Some_2 s hi) as [x Hx]; [lia|].
    pose proof (Hlow' x hi Hx ltac:(lia)) as E1%olt_le. pose proof (Hhi' x hi Hx ltac:(lia)) as E2.
    unfold le in E1. congruence. }
  assert (∀ x i, s !! i = Some x → (lo ≤ i < hi)%nat → x = target) as Hmid.
  { intros x i Hx Hi. rewrite Forall_lookup in Hup, Hh2. apply olt_total.
    - apply (Hup (i - lo)%nat). rewrite lookup_drop. by replace (lo + (i - lo))%nat with i by lia.
    - apply (Hh2 i). rewrite lookup_take_lt by lia. done. }
  assert (target ∈ s ↔ (lo < hi)%nat) as Hin.
  { split.
    - intros [i Hi]%list_elem_of_lookup. destruct (decide (lo < hi)%nat); [done|].
      destruct (decide (i < lo)%nat) as [Hil|Hil]; [apply (Hlow' _ _ Hi) in Hil|apply (Hhi' target i) in Hi; [|lia]];
        by rewrite olt_irrefl in *.
    - intros Hlt. destruct (lookup_lt_is_Some_2 s lo) as [x Hx]; [lia|].
      rewrite <- (Hmid x lo Hx) by lia. by eapply list_elem_of_lookup_2. }
  exists lo, hi. split_and!; try done. unfold BinarySearch.Search. rewrite BinarySearch.search_loop_func. unfold BinarySearch.SearchFunc in Hlo.
  rewrite Hlo. cbn [mbind option_bind]. destruct (decide (lo < length s)%nat) as [Hlt|Hge].
  - destruct (lookup_lt_is_Some_2 s lo Hlt) as [x Hx]. rewrite Hx. cbn [mbind option_bind].
    destruct (oeq x target) eqn:E; f_equal; f_equal; symmetry.
    + apply bool_decide_eq_true, Hin. apply oeq_spec in E as <-. by eapply list_elem_of_lookup_2.
    + apply bool_decide_eq_false. intros Hlohi. apply not_true_iff_false in E. apply E, oeq_spec.
      apply (Hmid x lo); [done|lia].
  - rewrite bool_decide_false by lia. done.
Qed.
