(* ===== verification/Heap.v ===== *)
(** * pkg/datastructures/heap/heap.go

    A binary min-heap of items with a [float64] score.  An index out of range is [None].  The
    methods run under the heap's lock. *)

From S2P Require Import Prelude Float64 Sorting.
From stdpp Require Import options.
Open Scope Z_scope.

Section heap.
  Context {T : Type}.

(* src: pkg/datastructures/heap/heap.go 8-12 Item *)
Record Item := { Value : T; Score : float64; Index : nat }.

(* src: pkg/datastructures/heap/heap.go 15-18 MinHeap *)
Record MinHeap := { items : list Item }.

(* src: pkg/datastructures/heap/heap.go 20-24 NewMinHeap *)
Definition NewMinHeap : MinHeap := {| items := [] |}.

(* src: pkg/datastructures/heap/heap.go 28-28 Len *)
Definition Len (h : MinHeap) : nat := length (items h).

(* src: pkg/datastructures/heap/heap.go 30-32 Less *)
Definition Less (l : list Item) (i j : nat) : option bool :=
  x ← l !! i; y ← l !! j; Some (flt (Score x) (Score y)).

Definition set_Index (i : nat) (x : Item) : Item := {| Value := Value x; Score := Score x; Index := i |}.

(* src: pkg/datastructures/heap/heap.go 34-38 Swap *)
Definition Swap (l : list Item) (i j : nat) : option (list Item) :=
  l ← swap l i j;
  Some (alter (set_Index j) j (alter (set_Index i) i l)).

(** The slice after [Push] of an item. *)
(* src: pkg/datastructures/heap/heap.go 42-47 Push *)
Definition Push (x : Item) (h : MinHeap) : MinHeap :=
  {| items := items h ++ [set_Index (length (items h)) x] |}.

(* src: pkg/datastructures/heap/heap.go 51-63 Pop *)
Definition Pop (h : MinHeap) : option (Item * MinHeap) :=
  let n := length (items h) in
  item ← (if decide (n = 0)%nat then None else items h !! (n - 1)%nat);
  Some (item, {| items := take (n - 1) (items h) |}).

(** The parent of [j] is [(j - 1) / 2], which is 0 for [j = 0]. *)
(* src: pkg/datastructures/heap/heap.go 66-75 up *)
Fixpoint up (fuel : nat) (l : list Item) (j : nat) : option (list Item) :=
  let i := ((j - 1) / 2)%nat in
  if decide (i = j) then Some l
  else
    b ← Less l j i;
    if negb b then Some l
    else match fuel with
    | O => None
    | S fuel => l ← Swap l j i; up fuel l i
    end.

(** The smaller child of [i] when there are two. *)
(* src: pkg/datastructures/heap/heap.go 85-88 down *)
Definition smaller_child (l : list Item) (n j1 : nat) : option nat :=
  if decide (j1 + 1 < n)%nat then
    b ← Less l (j1 + 1) j1;
    Some (if b : bool then (j1 + 1)%nat else j1)
  else Some j1.

(** The place where the item ends is the first component; [j1 < 0] cannot happen here. *)
(* src: pkg/datastructures/heap/heap.go 79-94 down *)
Fixpoint down_loop (fuel : nat) (l : list Item) (i n : nat) : option (nat * list Item) :=
  let j1 := (2 * i + 1)%nat in
  if decide (n ≤ j1)%nat then Some (i, l)
  else
    j ← smaller_child l n j1;
    b ← Less l j i;
    if negb b then Some (i, l)
    else match fuel with
    | O => None
    | S fuel => l ← Swap l i j; down_loop fuel l j n
    end.

(* src: pkg/datastructures/heap/heap.go 78-96 down *)
Definition down (l : list Item) (i0 n : nat) : option (bool * list Item) :=
  '(i, l) ← down_loop n l i0 n;
  Some (bool_decide (i0 < i)%nat, l).

(* src: pkg/datastructures/heap/heap.go 100-112 PushItem *)
Definition PushItem (value : T) (score : float64) (h : MinHeap) : option MinHeap :=
  let n := length (items h) in
  l ← up n (items h ++ [{| Value := value; Score := score; Index := n |}]) n;
  Some {| items := l |}.

(** [None] inside is the answer [false]. *)
(* src: pkg/datastructures/heap/heap.go 114-139 PopItem *)
Definition PopItem (h : MinHeap) : option (option (T * float64) * MinHeap) :=
  let n := length (items h) in
  if decide (n = 0)%nat then Some (None, h)
  else
    l ← Swap (items h) 0 (n - 1);
    '(_, l) ← down l 0 (n - 1);
    item ← l !! (n - 1)%nat;
    Some (Some (Value item, Score item), {| items := take (n - 1) l |}).

(* src: pkg/datastructures/heap/heap.go 141-150 Peek *)
Definition Peek (h : MinHeap) : option (T * float64) :=
  x ← head (items h); Some (Value x, Score x).

(* src: pkg/datastructures/heap/heap.go 152-156 Size *)
Definition Size (h : MinHeap) : nat := length (items h).

(** ** The invariant *)

Definition entry (x : Item) : T * float64 := (Value x, Score x).
Definition entries (h : MinHeap) : list (T * float64) := entry <$> items h.

Definition numbers (l : list Item) : Prop := Forall (λ x, is_num (Score x)) l.
Definition indexed (l : list Item) : Prop := ∀ i x, l !! i = Some x → Index x = i.
Definition child (p c : nat) : Prop := c = (2 * p + 1)%nat ∨ c = (2 * p + 2)%nat.
Definition below (l : list Item) (p c : nat) : Prop :=
  ∀ x y, l !! p = Some x → l !! c = Some y → fle (Score x) (Score y).
Definition heap_on (l : list Item) (n : nat) : Prop :=
  ∀ p c, child p c → (c < n)%nat → below l p c.
Definition heap_ok (h : MinHeap) : Prop :=
  numbers (items h) ∧ indexed (items h) ∧ heap_on (items h) (length (items h)).

Lemma numbers_lookup l i x : numbers l → l !! i = Some x → is_num (Score x).
Proof. intros H. by apply (Forall_lookup_1 _ _ _ _ H). Qed.

Ltac is_number :=
  match goal with
  | H : ?l !! ?i = Some ?x |- is_num (Score ?x) => by apply (numbers_lookup l i x)
  end.

Lemma numbers_entries l k : entry <$> l ≡ₚ entry <$> k → numbers k → numbers l.
Proof.
  unfold numbers. intros Hp Hk. assert (Forall (λ e, is_num e.2) (entry <$> l)) as H.
  { rewrite Hp. by apply Forall_fmap. }
  rewrite Forall_fmap in H. exact H.
Qed.

Lemma Less_spec l i j x y : l !! i = Some x → l !! j = Some y → Less l i j = Some (flt (Score x) (Score y)).
Proof. intros Hx Hy. unfold Less. by rewrite Hx, Hy. Qed.

Lemma entry_set_Index i x : entry (set_Index i x) = entry x.
Proof. done. Qed.

Lemma alter_Index_entries i (l : list Item) : entry <$> alter (set_Index i) i l = entry <$> l.
Proof.
  apply list_eq. intros k. rewrite !list_lookup_fmap, list_lookup_alter.
  case_decide as E; [|done]. rewrite E. by destruct (l !! k).
Qed.

Lemma Swap_spec l i j x y : indexed l → l !! i = Some x → l !! j = Some y →
  ∃ l', Swap l i j = Some l' ∧ entry <$> l' ≡ₚ entry <$> l ∧ length l' = length l ∧ indexed l' ∧
    l' !! i = Some (set_Index i y) ∧ l' !! j = Some (set_Index j x) ∧
    ∀ k, k ≠ i → k ≠ j → l' !! k = l !! k.
Proof.
  intros Hix Hx Hy. unfold Swap. destruct (swap_spec l i j x y Hx Hy) as (l1 & -> & P & L & H1 & H2 & Hne).
  cbn [mbind option_bind]. eexists. split; [done|].
  assert (alter (set_Index j) j (alter (set_Index i) i l1) !! i = Some (set_Index i y)) as Ei.
  { destruct (decide (i = j)) as [->|]; [|by rewrite list_lookup_alter_ne, list_lookup_alter_eq, H1].
    rewrite !list_lookup_alter_eq, H1. by replace y with x by congruence. }
  assert (alter (set_Index j) j (alter (set_Index i) i l1) !! j = Some (set_Index j x)) as Ej.
  { rewrite list_lookup_alter_eq. destruct (decide (i = j)) as [->|]; [by rewrite list_lookup_alter_eq, H2|].
    by rewrite list_lookup_alter_ne, H2. }
  assert (∀ k, k ≠ i → k ≠ j → alter (set_Index j) j (alter (set_Index i) i l1) !! k = l !! k) as Ek.
  { intros k ??. rewrite !list_lookup_alter_ne by done. by apply Hne. }
  split_and!; [|by rewrite !length_alter| |done|done|done].
  - rewrite !alter_Index_entries. by apply fmap_Permutation.
  - intros k z. destruct (decide (k = i)) as [->|]; [rewrite Ei; by intros [= <-]|].
    destruct (decide (k = j)) as [->|]; [rewrite Ej; by intros [= <-]|]. rewrite Ek by done. apply Hix.
Qed.

(** ** Sifting *)

(** [up] repairs a heap whose only offence is between [j] and its parent. *)
Lemma up_spec fuel l j :
  (j < length l)%nat → (j ≤ fuel)%nat → numbers l → indexed l →
  (∀ p c, child p c → c ≠ j → below l p c) → (∀ p c, child p j → child j c → below l p c) →
  ∃ l', up fuel l j = Some l' ∧ entry <$> l' ≡ₚ entry <$> l ∧ length l' = length l ∧ indexed l' ∧
    heap_on l' (length l).
Proof.
  revert l j. induction fuel as [|fuel IH]; intros l j Hj Hf Hn Hix Hpar Hgr; cbn [up].
  all: set (i := ((j - 1) / 2)%nat).
  all: assert ((j = 0 ∧ i = 0)%nat ∨ child i j) as Hcase
    by (unfold i, child; pose proof (Nat.div_mod_eq (j - 1) 2); pose proof (Nat.mod_upper_bound (j - 1) 2); lia).
  all: destruct (decide (i = j)) as [Hij|Hij].
  1,3: exists l; split_and!; [done|done|done|done|]; intros p c Hpc Hc; apply Hpar; [done|];
    unfold child in *; lia.
  { unfold child in *; lia. }
  destruct Hcase as [[? ?]|Hch]; [lia|]. assert (i < j)%nat as Hlt by (unfold child in Hch; lia).
  destruct (lookup_lt_is_Some_2 l j Hj) as [x Hx]. destruct (lookup_lt_is_Some_2 l i) as [y Hy]; [lia|].
  rewrite (Less_spec l j i x y Hx Hy). cbn [mbind option_bind].
  destruct (flt (Score x) (Score y)) eqn:Hlt'; cbn [negb].
  2: { exists l. split_and!; try done. intros p c Hpc Hc. destruct (decide (c = j)) as [->|]; [|by apply Hpar].
       assert (p = i) as -> by (unfold child in *; lia). intros x' y' ??. simplify_eq. done. }
  destruct (Swap_spec l j i x y Hix Hx Hy) as (l1 & -> & P1 & L1 & Hix1 & Hj1 & Hi1 & Hne). cbn [mbind option_bind].
  pose proof (numbers_entries _ _ P1 Hn) as Hn1. pose proof (numbers_lookup l _ _ Hn Hx) as Nx.
  pose proof (numbers_lookup l _ _ Hn Hy) as Ny. apply flt_fle in Hlt'; [|done|done].
  destruct (IH l1 i) as (l2 & -> & P2 & L2 & Hix2 & Hh2); [lia|lia|done|done| | |].
  - intros p c Hpc Hci x' y' Hx' Hy'. destruct (decide (c = j)) as [->|Hcj].
    + assert (p = i) as -> by (unfold child in *; lia). simplify_eq. done.
    + rewrite Hne in Hy' by done. destruct (decide (p = i)) as [->|Hpi].
      * simplify_eq. cbn. apply (fle_trans _ (Score y)); [done|done|is_number|done|].
        by apply (Hpar i c).
      * destruct (decide (p = j)) as [->|]; [simplify_eq; cbn; by apply (Hgr i c)|].
        rewrite Hne in Hx' by done. by apply (Hpar p c).
  - intros p c Hpi Hic x' y' Hx' Hy'. rewrite Hne in Hx' by (unfold child in *; lia).
    assert (fle (Score x') (Score y)) as Hxy by (apply (Hpar p i); [done|lia|done|done]).
    destruct (decide (c = j)) as [->|Hcj]; [by simplify_eq|]. rewrite Hne in Hy' by (unfold child in *; lia).
    apply (fle_trans _ (Score y)); [is_number|done|is_number|done|].
    by apply (Hpar i c).
  - exists l2. rewrite L1 in *. split_and!; [done|by rewrite P2|done|done|done].
Qed.

Lemma smaller_child_spec l n i : (n ≤ length l)%nat → numbers l → (2 * i + 1 < n)%nat →
  ∃ j y, smaller_child l n (2 * i + 1) = Some j ∧ child i j ∧ (j < n)%nat ∧ l !! j = Some y ∧
    ∀ c z, child i c → (c < n)%nat → l !! c = Some z → fle (Score y) (Score z).
Proof.
  intros Hn Hnum Hi. unfold smaller_child. unfold child.
  destruct (lookup_lt_is_Some_2 l (2 * i + 1)) as [y1 H1]; [lia|].
  destruct (decide (2 * i + 1 + 1 < n)%nat) as [H2n|H2n].
  - destruct (lookup_lt_is_Some_2 l (2 * i + 1 + 1)) as [y2 H2]; [lia|].
    pose proof (numbers_lookup _ _ _ Hnum H1). pose proof (numbers_lookup _ _ _ Hnum H2).
    rewrite (Less_spec _ _ _ y2 y1 H2 H1). cbn [mbind option_bind]. destruct (flt (Score y2) (Score y1)) eqn:E.
    + exists (2 * i + 1 + 1)%nat, y2. split_and!; [done|lia|lia|done|].
      intros c z [->| ->] Hc Hz; [replace z with y1 by congruence; by apply flt_fle|].
      replace (2 * i + 2)%nat with (2 * i + 1 + 1)%nat in Hz by lia. replace z with y2 by congruence. apply fle_refl.
    + exists (2 * i + 1)%nat, y1. split_and!; [done|lia|lia|done|].
      intros c z [->| ->] Hc Hz; [replace z with y1 by congruence; apply fle_refl|].
      replace (2 * i + 2)%nat with (2 * i + 1 + 1)%nat in Hz by lia. by replace z with y2 by congruence.
  - exists (2 * i + 1)%nat, y1. split_and!; [done|lia|lia|done|].
    intros c z [->| ->] Hc Hz; [replace z with y1 by congruence; apply fle_refl|lia].
Qed.

(** [down] repairs a heap whose only offence is between [i] and its children. *)
Lemma down_loop_spec fuel l i n :
  (n ≤ length l)%nat → (i < length l)%nat → (n ≤ i + 1 + fuel)%nat → numbers l → indexed l →
  (∀ p c, child p c → (c < n)%nat → p ≠ i → below l p c) →
  (∀ p c, child p i → child i c → (c < n)%nat → below l p c) →
  ∃ i' l', down_loop fuel l i n = Some (i', l') ∧ entry <$> l' ≡ₚ entry <$> l ∧ length l' = length l ∧
    indexed l' ∧ heap_on l' n ∧ (i ≤ i')%nat ∧ ∀ k, (n ≤ k)%nat → k ≠ i → l' !! k = l !! k.
Proof.
  revert l i. induction fuel as [|fuel IH]; intros l i Hn Hi Hf Hnum Hix Hpar Hgr; cbn [down_loop].
  all: destruct (decide (n ≤ 2 * i + 1)%nat) as [Hend|Hend];
    [exists i, l; split_and!; try done; intros p c Hpc Hc; apply Hpar; [done|done|unfold child in *; lia]|].
  { lia. }
  destruct (smaller_child_spec l n i Hn Hnum) as (j & y & -> & Hij & Hjn & Hy & Hmin); [lia|]. cbn [mbind option_bind].
  destruct (lookup_lt_is_Some_2 l i Hi) as [x Hx]. rewrite (Less_spec _ _ _ y x Hy Hx). cbn [mbind option_bind].
  pose proof (numbers_lookup l _ _ Hnum Hx) as Nx. pose proof (numbers_lookup l _ _ Hnum Hy) as Ny.
  destruct (flt (Score y) (Score x)) eqn:Hlt; cbn [negb].
  2: { exists i, l. split_and!; try done. intros p c Hpc Hc. destruct (decide (p = i)) as [->|]; [|by apply Hpar].
       intros x' z Hx' Hz. simplify_eq. apply (fle_trans _ (Score y)); [done|done|is_number|done|eauto]. }
  destruct (Swap_spec l i j x y Hix Hx Hy) as (l1 & -> & P1 & L1 & Hix1 & Hi1 & Hj1 & Hne). cbn [mbind option_bind].
  pose proof (numbers_entries _ _ P1 Hnum) as Hn1. apply flt_fle in Hlt; [|done|done].
  assert (i < j)%nat as Hlt' by (unfold child in Hij; lia).
  destruct (IH l1 j) as (i' & l2 & -> & P2 & L2 & Hix2 & Hh2 & Hi' & Htail); [lia|lia|lia|done|done| | |].
  - intros p c Hpc Hc Hpj x' y' Hx' Hy'. destruct (decide (p = i)) as [->|Hpi].
    + simplify_eq. cbn. destruct (decide (c = j)) as [->|]; [simplify_eq; done|].
      rewrite Hne in Hy' by (unfold child in *; lia). eauto.
    + rewrite Hne in Hx' by done. destruct (decide (c = i)) as [->|].
      * simplify_eq. cbn. by apply (Hgr p j).
      * rewrite Hne in Hy' by (unfold child in *; lia). by apply (Hpar p c).
  - intros p c Hpj Hjc Hc x' z Hx' Hz. assert (p = i) as -> by (unfold child in *; lia). simplify_eq. cbn.
    rewrite Hne in Hz by (unfold child in *; lia). apply (Hpar j c); [done|done|lia|done|done].
  - exists i', l2. rewrite L1 in *. split_and!; [done|by rewrite P2|done|done|done|lia|].
    intros k Hk Hki. rewrite Htail, Hne by lia. done.
Qed.

Lemma heap_root_min l x : numbers l → heap_on l (length l) → l !! O = Some x →
  Forall (λ e, fle (Score x) e.2) (entry <$> l).
Proof.
  intros Hnum Hh Hx. apply Forall_fmap, Forall_lookup. intros k. induction k as [k IH] using lt_wf_ind.
  intros y Hy. cbn. destruct (decide (k = O)) as [->|Hk]; [replace y with x by congruence; apply fle_refl|].
  pose proof (Nat.div_mod_eq (k - 1) 2). pose proof (Nat.mod_upper_bound (k - 1) 2).
  pose proof (lookup_lt_Some _ _ _ Hy). set (p := ((k - 1) / 2)%nat) in *.
  destruct (lookup_lt_is_Some_2 l p) as [z Hz]; [lia|].
  apply (fle_trans _ (Score z)); [is_number|is_number|is_number|by apply (IH p); [lia|]|].
  apply (Hh p k); [unfold child; lia|lia|done|done].
Qed.

Lemma PushItem_ok v s h : heap_ok h → is_num s →
  ∃ h', PushItem v s h = Some h' ∧ heap_ok h' ∧ entries h' ≡ₚ (v, s) :: entries h.
Proof.
  intros (Hn & Hix & Hh) Hs. unfold PushItem, entries, heap_ok.
  set (n := length (items h)). set (x := {| Value := v; Score := s; Index := n |}).
  assert (∀ k y, (items h ++ [x]) !! k = Some y → items h !! k = Some y ∨ k = n ∧ y = x) as Hlk.
  { intros k y [?|[? Hy]]%lookup_app_Some; [by left|right].
    apply list_lookup_singleton_Some in Hy as [? ?]. split; [unfold n; lia|done]. }
  destruct (up_spec n (items h ++ [x]) n) as (l & -> & P & L & Hix' & Hh').
  - rewrite length_app. cbn. lia.
  - done.
  - by apply Forall_app_2; [|constructor].
  - intros k y [?|[-> ->]]%Hlk; [by apply Hix|done].
  - intros p c Hpc Hcn a b Ha [Hb|[? ?]]%Hlk; [|done]. pose proof (lookup_lt_Some _ _ _ Hb).
    apply Hlk in Ha as [Ha|[-> ->]]; [|unfold child, n in *; lia]. by apply (Hh p c).
  - intros p c _ Hc a b _ Hb. apply lookup_lt_Some in Hb. rewrite length_app in Hb. cbn in Hb. unfold child, n in *. lia.
  - eexists. split; [done|]. cbn. rewrite <- L in Hh'. split; [split_and!; [|done|done]|].
    + apply (numbers_entries _ _ P). by apply Forall_app_2; [|constructor].
    + rewrite P, fmap_app. cbn. solve_Permutation.
Qed.

Lemma PopItem_ok h : heap_ok h → items h ≠ [] →
  ∃ e h', PopItem h = Some (Some e, h') ∧ heap_ok h' ∧ Peek h = Some e ∧ entries h ≡ₚ e :: entries h' ∧
    Forall (λ e', fle e.2 e'.2) (entries h).
Proof.
  intros (Hn & Hix & Hh) Hne. unfold PopItem. destruct (items h) as [|x l0] eqn:El; [done|]. rewrite <- El in *.
  set (n := length (items h)). assert (0 < n)%nat as Hpos by (unfold n; rewrite El; cbn; lia).
  rewrite decide_False by lia. assert (items h !! O = Some x) as Hx by (by rewrite El).
  destruct (lookup_lt_is_Some_2 (items h) (n - 1)) as [z Hz]; [lia|].
  destruct (Swap_spec (items h) 0 (n - 1) x z Hix Hx Hz) as (l1 & -> & P1 & L1 & Hix1 & H0 & H1 & Hne1).
  cbn [mbind option_bind]. unfold down. pose proof (numbers_entries _ _ P1 Hn) as Hn1.
  destruct (down_loop_spec (n - 1) l1 0 (n - 1)) as (i' & l2 & -> & P2 & L2 & Hix2 & Hh2 & _ & Htail);
    [lia|lia|lia|done|done| | |].
  { intros p c Hpc Hc Hp. intros a b Ha Hb. rewrite Hne1 in Ha, Hb by (unfold child in *; lia).
    apply (Hh p c); [done|lia|done|done]. }
  { intros p c Hp. unfold child in Hp. lia. }
  cbn [mbind option_bind]. assert (entry <$> l2 !! (n - 1)%nat = Some (entry x)) as Hlast.
  { destruct (decide (n - 1 = 0)%nat) as [E|].
    - assert (entry <$> l2 ≡ₚ [entry x]) as P3.
      { rewrite P2, P1, El. unfold n in E. rewrite El in E. by destruct l0. }
      destruct l2 as [|y [|]]; apply Permutation_length in P3 as P4; try done. rewrite E. cbn.
      apply Permutation_singleton_r in P3. cbn in P3. congruence.
    - by rewrite Htail, H1 by lia. }
  destruct (l2 !! (n - 1)%nat) as [y|] eqn:Hy; [|done]. cbn in Hlast. injection Hlast as HV HS.
  assert (entries h ≡ₚ entry y :: (entry <$> take (n - 1) l2)) as Hp.
  { unfold entries. rewrite <- P1, <- P2. rewrite <- (take_drop (n - 1) l2) at 1.
    rewrite (drop_S _ y _ Hy), (drop_ge l2) by lia. rewrite fmap_app. cbn. solve_Permutation. }
  eexists _, _. split; [done|]. unfold heap_ok, entries, Peek. cbn. rewrite El at 1. cbn. split_and!.
  - apply Forall_take. by apply (numbers_entries _ _ P2).
  - intros k w [Hw _]%lookup_take_Some. by apply Hix2.
  - rewrite length_take, L2, L1. intros p c Hpc Hc a b [Ha _]%lookup_take_Some [Hb _]%lookup_take_Some.
    apply (Hh2 p c); [done|lia|done|done].
  - by rewrite HV, HS.
  - done.
  - rewrite HS. by apply heap_root_min.
Qed.
End heap.
Arguments Item : clear implicits.
Arguments MinHeap : clear implicits.

(** ** Priority queue *)

Section queue.
  Context {T : Type}.
  Notation entry_ := (T * float64)%type.

Inductive op := OPush (value : T) (score : float64) | OPop.

(** The answers of the [PopItem]s of a history. *)
Fixpoint run (ops : list op) (h : MinHeap T) : option (list (option entry_) * MinHeap T) :=
  match ops with
  | [] => Some ([], h)
  | OPush v s :: ops => h ← PushItem v s h; run ops h
  | OPop :: ops => '(a, h) ← PopItem h; '(out, h) ← run ops h; Some (a :: out, h)
  end.

(** A priority queue is a multiset; [OPop] takes out one of the entries with the least
    score. *)
Inductive serves : list op → list (option entry_) → list entry_ → list entry_ → Prop :=
  | serves_nil l l' : l ≡ₚ l' → serves [] [] l l'
  | serves_push v s ops out l l' : serves ops out ((v, s) :: l) l' → serves (OPush v s :: ops) out l l'
  | serves_empty ops out l' : serves ops out [] l' → serves (OPop :: ops) (None :: out) [] l'
  | serves_pop e ops out l0 l l' : l ≡ₚ e :: l0 → Forall (λ e', fle e.2 e'.2) l →
      serves ops out l0 l' → serves (OPop :: ops) (Some e :: out) l l'.

Definition scores_ok (ops : list op) : Prop :=
  Forall (λ o, match o with OPush _ s => is_num s | OPop => True end) ops.

Lemma serves_perm ops out l k l' : l ≡ₚ k → serves ops out l l' → serves ops out k l'.
Proof.
  intros Hp Hs. revert k Hp. induction Hs as [l l' Hl|v s ops out l l' _ IH|ops out l' Hs _|e ops out l0 l l' Hl Hm Hs _];
    intros k Hp.
  - constructor. by rewrite <- Hp.
  - constructor. apply IH. by rewrite Hp.
  - apply Permutation_nil_l in Hp. subst k. by constructor.
  - econstructor; [by rewrite <- Hp|by rewrite <- Hp|done].
Qed.

Lemma run_serves ops (h : MinHeap T) : heap_ok h → scores_ok ops →
  ∃ out h', run ops h = Some (out, h') ∧ heap_ok h' ∧ serves ops out (entries h) (entries h').
Proof.
  revert h. induction ops as [|[v s|] ops IH]; intros h Hok Hs; cbn [run].
  - exists [], h. split_and!; [done|done|by constructor].
  - apply Forall_cons in Hs as [Hv Hs]. destruct (PushItem_ok v s h Hok Hv) as (h1 & -> & Hok1 & P1). cbn [mbind option_bind].
    destruct (IH h1 Hok1 Hs) as (out & h' & -> & Hok' & Hrun). exists out, h'. split_and!; [done|done|].
    constructor. by apply (serves_perm _ _ _ _ _ P1).
  - apply Forall_cons in Hs as [_ Hs]. destruct (items h) as [|x l] eqn:El.
    + assert (PopItem h = Some (None, h)) as -> by (unfold PopItem; by rewrite El). cbn [mbind option_bind].
      destruct (IH h Hok Hs) as (out & h' & -> & Hok' & Hrun). cbn.
      eexists _, h'. split_and!; [done|done|]. unfold entries in *. rewrite El in *. by constructor.
    + destruct (PopItem_ok h Hok) as (e & h1 & -> & Hok1 & _ & P & Hmin); [by rewrite El|]. cbn [mbind option_bind].
      destruct (IH h1 Hok1 Hs) as (out & h' & -> & Hok' & Hrun). cbn. eexists _, h'. split_and!; [done|done|].
      by econstructor.
Qed.

Lemma New_heap_ok : heap_ok (NewMinHeap (T := T)).
Proof. split_and!; [constructor|by intros i x|by intros p c _ Hc]. Qed.
End queue.
Arguments op : clear implicits.

(** Any history of [PushItem]s with scores that are numbers and of [PopItem]s runs without an
    index out of range, and every [PopItem] takes out an entry with the least score, or finds
    the heap empty. *)
Theorem heap_is_priority_queue {T} (ops : list (op T)) :
  scores_ok ops → ∃ out h, run ops NewMinHeap = Some (out, h) ∧ serves ops out [] (entries h).
Proof.
  intros Hs. destruct (run_serves ops NewMinHeap New_heap_ok Hs) as (out & h & Hrun & _ & Hsrv). eauto.
Qed.

(** With a score that is not a number the order is lost: 1 comes out before 0. *)
Theorem heap_nan_breaks_order :
  run [OPush "c" (of_i64 3); OPush "n" S754_nan; OPush "b" (of_i64 1); OPush "a" (of_i64 0); OPop; OPop] NewMinHeap
  = Some ([Some ("b", of_i64 1); Some ("a", of_i64 0)],
          {| items := [{| Value := "c"; Score := of_i64 3; Index := 0 |}; {| Value := "n"; Score := S754_nan; Index := 1 |}] |}).
Proof. vm_compute. reflexivity. Qed.
