(* ===== verification/Dijkstra.v ===== *)
(** * pkg/algorithms/graph/dijkstra: shortest paths

    Dijkstra's algorithm over the heap of [Heap] with the binary64 arithmetic of the code:
    the length of a walk is the sum of its weights from the start on, rounded after every
    step.  The order in which Go ranges over the neighbours of a node is the class
    [EdgeOrder].  A heap operation that would panic, and running out of fuel, is [None]. *)

From S2P Require Import Prelude Float64 FloatRound Heap.
From stdpp Require Import options.
Open Scope Z_scope.

Abbreviation Graph := (gmap string (gmap string float64)).

(* src: pkg/algorithms/graph/dijkstra/dijkstra.go 14-17 PathResult *)
Record PathResult := { Distance : float64; Path : list string }.

Class EdgeOrder := {
  range_edges : gmap string float64 → list (string * float64);
  range_edges_perm : ∀ m, range_edges m ≡ₚ map_to_list m;
}.

Definition zero : float64 := of_i64 0.
(** [math.MaxFloat64] *)
Definition MaxFloat64 : float64 := S754_finite false 9007199254740991 971.

(** The heap, the distances and the predecessors. *)
Record Search := { pq : MinHeap string; distances : gmap string float64; previous : gmap string string }.

Section code.
  Context `{EdgeOrder}.

(* src: pkg/algorithms/graph/dijkstra/dijkstra.go 54-61 ShortestPath *)
Fixpoint relax (u : string) (es : list (string * float64)) (s : Search) : option Search :=
  match es with
  | [] => Some s
  | (v, weight) :: es =>
      let alt := fadd (default zero (distances s !! u)) weight in
      if match distances s !! v with None => true | Some dist => flt alt dist end then
        h ← PushItem v alt (pq s);
        relax u es {| pq := h; distances := <[v := alt]> (distances s); previous := <[v := u]> (previous s) |}
      else relax u es s
  end.

(** A predecessor that is not there is the empty string; [path] is in the order after the
    reversal. *)
(* src: pkg/algorithms/graph/dijkstra/dijkstra.go 35-45 ShortestPath *)
Fixpoint path_back (fuel : nat) (prev : gmap string string) (start curr : string) (path : list string)
    : option (list string) :=
  if decide (curr = "") then Some path
  else match fuel with
  | O => None
  | S fuel =>
      let path := curr :: path in
      let curr := default "" (prev !! curr) in
      if decide (curr = start) then Some (start :: path) else path_back fuel prev start curr path
  end.

(* src: pkg/algorithms/graph/dijkstra/dijkstra.go 29-62 ShortestPath *)
Fixpoint search_loop (fuel : nat) (g : Graph) (start end_ : string) (s : Search) : option (option PathResult) :=
  if decide (Heap.Size (pq s) = 0%nat) then Some None
  else match fuel with
  | O => None
  | S fuel =>
      '(r, h) ← PopItem (pq s);
      let s := {| pq := h; distances := distances s; previous := previous s |} in
      match r with
      | None => Some None
      | Some (u, _) =>
          if decide (u = end_) then
            path ← path_back (S (size (previous s))) (previous s) start end_ [];
            Some (Some {| Distance := default zero (distances s !! end_); Path := path |})
          else if match distances s !! u with Some d => feq d MaxFloat64 | None => false end then
            search_loop fuel g start end_ s
          else
            s ← relax u (range_edges (default ∅ (g !! u))) s;
            search_loop fuel g start end_ s
      end
  end.

Definition num_edges (g : Graph) : nat := Z.to_nat (msum ((λ m, Z.of_nat (size m)) <$> g)).

(* src: pkg/algorithms/graph/dijkstra/dijkstra.go 21-65 ShortestPath *)
Definition ShortestPath (g : Graph) (start end_ : string) : option (option PathResult) :=
  h ← PushItem start zero NewMinHeap;
  search_loop (1 + num_edges g) g start end_ {| pq := h; distances := {[start := zero]}; previous := ∅ |}.
End code.

(** ** Walks *)

Definition weight_of (g : Graph) (u v : string) : option float64 := m ← g !! u; m !! v.

(** [walk g x l d]: the list [l] of nodes is a walk from [x], and [d] the rounded sum of its
    weights. *)
Inductive walk (g : Graph) (x : string) : string → list string → float64 → Prop :=
  | walk_here : walk g x x [x] zero
  | walk_step u v l d w : walk g x u l d → weight_of g u v = Some w → walk g x v (l ++ [v]) (fadd d w).

(** Not negative, and in the format. *)
Definition good (f : float64) : Prop := valid f ∧ has_sign false f.

Lemma good_zero : good zero.
Proof. done. Qed.
Lemma good_num f : good f → is_num f.
Proof. intros [_ ?]. by eapply has_sign_num. Qed.
Lemma good_fadd a b : good a → good b → good (fadd a b).
Proof. intros [??] [??]. by destruct (fadd_val a b) as (? & ? & _). Qed.
Lemma good_mono a b c : good a → good b → good c → fle a b → fle (fadd a c) (fadd b c).
Proof. intros [??] [??] [??]. by apply fadd_mono. Qed.
Lemma good_ge a c : good a → good c → fle a (fadd a c).
Proof. intros [??] [??]. by apply fadd_ge. Qed.
Lemma good_trans a b c : good a → good b → good c → fle a b → fle b c → fle a c.
Proof. intros ? ? ?. apply fle_trans; by apply good_num. Qed.
Lemma good_zero_le a : good a → fle zero a.
Proof. intros [V S]. apply fle_val; [done|done|done|done|]. apply val_nonneg. Qed.

Section correct.
  Context `{EdgeOrder} (g : Graph) (start : string).
  Hypothesis weights_good : ∀ u v w, weight_of g u v = Some w → good w.
  Hypothesis names : start ≠ "" ∧ ∀ u v w, weight_of g u v = Some w → v ≠ "".
  #[local] Set Default Proof Using "Type*".

Lemma walk_good v l d : walk g start v l d → good d.
Proof. induction 1; [apply good_zero|]. apply good_fadd; eauto. Qed.
Lemma walk_last v l d : walk g start v l d → last l = Some v.
Proof. destruct 1; [done|]. by rewrite last_snoc. Qed.
Lemma walk_name v l d : walk g start v l d → v ≠ "".
Proof. destruct names as [H1 H2]. destruct 1; eauto. Qed.

(** The predecessors along a path. *)
Definition linked (prev : gmap string string) (l : list string) : Prop :=
  head l = Some start ∧ ∀ i a b, l !! i = Some a → l !! S i = Some b → prev !! b = Some a.

(** [S] are the settled nodes: those popped before.  The edges [todo] of [cur], the node
    settled last, are not relaxed yet; those of nodes at the distance [MaxFloat64] never are. *)
Record inv (X : gset string) (cur : string) (todo : list (string * float64)) (s : Search) : Prop := {
  i_heap : heap_ok (pq s);
  i_entry : ∀ v sc, (v, sc) ∈ entries (pq s) → good sc ∧ ∃ d, distances s !! v = Some d ∧ fle d sc;
  i_wait : ∀ v d, distances s !! v = Some d → v ∉ X → (v, d) ∈ entries (pq s);
  i_start : distances s !! start = Some zero ∧ previous s !! start = None;
  i_settled : ∀ u, u ∈ X → is_Some (distances s !! u);
  i_low : ∀ u v d e, u ∈ X → v ∉ X → distances s !! u = Some d → distances s !! v = Some e → fle d e;
  i_relaxed : ∀ u v w d, u ∈ X → weight_of g u v = Some w → (u = cur → (v, w) ∉ todo) →
    distances s !! u = Some d → feq d MaxFloat64 = false → ∃ e, distances s !! v = Some e ∧ fle e (fadd d w);
  i_path : ∀ v d, distances s !! v = Some d → ∃ l, walk g start v l d ∧ linked (previous s) l ∧ NoDup l ∧
    ∀ x, x ∈ l → x ≠ v → x ∈ X;
}.

Lemma i_good X cur todo s v d : inv X cur todo s → distances s !! v = Some d → good d.
Proof. intros Hi Hd. destruct (i_path _ _ _ _ Hi v d Hd) as (l & Hw & _). by eapply walk_good. Qed.

(** The node with the better distance [alt] over [u]. *)
Lemma improve X u v w todo du alt s h :
  inv X u ((v, w) :: todo) s → u ∈ X → v ∉ X → (v, w) ∉ todo → weight_of g u v = Some w →
  distances s !! u = Some du → alt = fadd du w → (∀ x d, x ∈ X → distances s !! x = Some d → fle d du) →
  (∀ e, distances s !! v = Some e → flt alt e = true) →
  heap_ok h → entries h ≡ₚ (v, alt) :: entries (pq s) →
  inv X u todo {| pq := h; distances := <[v := alt]> (distances s); previous := <[v := u]> (previous s) |}.
Proof.
  intros Hi Hu Hv Hvt Hw Hdu Halt Hmax Hlt Hok Hp. destruct (i_good _ _ _ _ _ _ Hi Hdu) as [Gd Sd].
  assert (good alt) as Ga by (subst alt; apply good_fadd; [done|by eapply weights_good]).
  assert (∀ e, distances s !! v = Some e → fle alt e) as Hbetter.
  { intros e He. apply flt_fle; [by apply good_num|by eapply good_num, i_good|by apply Hlt]. }
  assert (v ≠ u) as Hvu by set_solver. pose proof Hi as [IH IE IW IS IX IL IR IP]. split; cbn.
  - done.
  - intros x sc. rewrite Hp. intros [[= -> ->]|Hx]%elem_of_cons.
    { split; [done|]. rewrite lookup_insert_eq. eexists. split; [done|apply fle_refl]. }
    destruct (IE x sc Hx) as (Gsc & d & Hd & Hle). split; [done|]. destruct (decide (x = v)) as [->|].
    + rewrite lookup_insert_eq. eexists. split; [done|]. apply (good_trans _ d); [done|by eapply i_good|done|by apply Hbetter|done].
    + rewrite lookup_insert_ne by done. eauto.
  - intros x d. rewrite Hp. destruct (decide (x = v)) as [->|].
    + rewrite lookup_insert_eq. intros [= <-] _. apply list_elem_of_here.
    + rewrite lookup_insert_ne by done. intros Hx Hxs. apply list_elem_of_further. by apply IW.
  - destruct IS as [IS1 IS2]. assert (v ≠ start) as Hvs.
    { intros ->. specialize (Hlt zero IS1). pose proof (good_zero_le alt Ga) as Hle. unfold fle in Hle. congruence. }
    by rewrite !lookup_insert_ne.
  - intros x Hx. rewrite lookup_insert_ne by set_solver. by apply IX.
  - intros x y d e Hx Hy Hd. rewrite lookup_insert_ne in Hd by set_solver. destruct (decide (y = v)) as [->|].
    + rewrite lookup_insert_eq. intros [= <-]. apply (good_trans _ du); [by eapply i_good|done|done|by eapply Hmax|].
      subst alt. apply good_ge; [done|by eapply weights_good].
    + rewrite lookup_insert_ne by done. by apply (IL x y).
  - intros x y w' d Hx Hxy Hdone Hd Hm. rewrite lookup_insert_ne in Hd by set_solver. destruct (decide (y = v)) as [->|].
    + rewrite lookup_insert_eq. eexists. split; [done|]. destruct (decide (x = u)) as [->|Hxu].
      * assert (w' = w ∧ d = du) as [-> ->] by (split; congruence). subst alt. apply fle_refl.
      * destruct (IR x v w' d Hx Hxy) as (e & He & Hle); [by intros ->|done|done|].
        apply (good_trans _ e); [done|by eapply i_good| |by apply Hbetter|done].
        apply good_fadd; [by eapply i_good|by eapply weights_good].
    + rewrite lookup_insert_ne by done. apply (IR x y w' d Hx Hxy); [|done|done]. intros ->.
      apply not_elem_of_cons. split; [congruence|by apply Hdone].
  - intros x d. destruct (decide (x = v)) as [->|Hxv].
    + rewrite lookup_insert_eq. intros [= <-]. destruct (IP u du Hdu) as (l & Hl & [Hhd Hlk] & Hnd & Hls).
      assert (v ∉ l) as Hvl. { intros Hin. apply Hv. destruct (decide (v = u)) as [->|]; [done|by apply Hls]. }
      exists (l ++ [v]). pose proof (walk_last _ _ _ Hl) as Hlast. split_and!.
      * subst alt. by econstructor.
      * split; [by destruct l|]. intros i a b Ha Hb. rewrite lookup_app in Hb.
        destruct (l !! S i) as [b'|] eqn:Eb.
        -- injection Hb as ->. rewrite lookup_insert_ne.
           ++ apply (Hlk i); [|done]. rewrite lookup_app_l in Ha; [done|]. apply lookup_lt_Some in Eb. lia.
           ++ intros ->. apply Hvl. by eapply list_elem_of_lookup_2.
        -- apply list_lookup_singleton_Some in Hb as [Hi' <-]. rewrite lookup_insert_eq.
           apply lookup_ge_None in Eb. assert (S i = length l) as Hil by lia.
           rewrite lookup_app_l in Ha by lia. rewrite last_lookup, <- Hil in Hlast. cbn in Hlast. congruence.
      * apply NoDup_app. split_and!; [done|set_solver|apply NoDup_singleton].
      * intros x [Hx|Hx]%elem_of_app Hne; [|set_solver]. destruct (decide (x = u)) as [->|]; [done|by apply Hls].
    + rewrite lookup_insert_ne by done. intros Hd. destruct (IP x d Hd) as (l & Hl & [Hhd Hlk] & Hnd & Hls).
      exists l. split_and!; [done| |done|done]. split; [done|]. intros i a b Ha Hb. rewrite lookup_insert_ne; [by apply (Hlk i)|].
      intros ->. apply Hv, Hls; [by eapply list_elem_of_lookup_2|done].
Qed.

(** An edge that gives nothing better is done. *)
Lemma skip X u v w todo du s :
  inv X u ((v, w) :: todo) s → weight_of g u v = Some w → distances s !! u = Some du →
  (∃ e, distances s !! v = Some e ∧ fle e (fadd du w)) → inv X u todo s.
Proof.
  intros [IH IE IW IS IX IL IR IP] Hw Hdu (e & He & Hle). split; try done.
  intros x y w' d Hx Hxy Hdone Hd Hm. destruct (decide (x = u ∧ y = v)) as [[-> ->]|Hne].
  - assert (w' = w ∧ d = du) as [-> ->] by (split; congruence). eauto.
  - apply (IR x y w' d); [done|done| |done|done]. intros ->. apply not_elem_of_cons. split; [|by apply Hdone].
    intros [= -> ->]. by apply Hne.
Qed.

Lemma relax_edges_spec X u todo du s :
  inv X u todo s → u ∈ X → distances s !! u = Some du → (∀ x d, x ∈ X → distances s !! x = Some d → fle d du) →
  NoDup todo.*1 → (∀ v w, (v, w) ∈ todo → weight_of g u v = Some w) →
  ∃ s', relax u todo s = Some s' ∧ inv X u [] s' ∧
    (length (entries (pq s')) ≤ length (entries (pq s)) + length todo)%nat.
Proof.
  revert s. induction todo as [|[v w] todo IHt]; intros s Hi Hu Hdu Hmax Hnd Hes; cbn [relax].
  { exists s. split_and!; [done|done|lia]. }
  cbn in Hnd. apply NoDup_cons in Hnd as [Hvt Hnd]. rewrite Hdu. change (default zero (Some du)) with du. cbv zeta.
  assert (weight_of g u v = Some w) as Hw by (apply Hes; set_solver).
  assert ((v, w) ∉ todo) as Hvw by (intros Hin; apply Hvt, list_elem_of_fmap; by exists (v, w)).
  assert (good du) as Gdu by (by eapply i_good). assert (good w) as Gw by (by eapply weights_good).
  set (alt := fadd du w). assert (good alt) as Ga by (by apply good_fadd).
  destruct (match distances s !! v with Some dist => flt alt dist | None => true end) eqn:E.
  - assert (v ∉ X) as Hv.
    { intros Hin. destruct (i_settled _ _ _ _ Hi v Hin) as [d Hd]. rewrite Hd in E.
      assert (fle d alt) as Hle.
      { apply (good_trans _ du); [by eapply i_good|done|done|by eapply Hmax|by apply good_ge]. }
      unfold fle in Hle. congruence. }
    destruct (PushItem_ok v alt (pq s) (i_heap _ _ _ _ Hi) (good_num _ Ga)) as (h & -> & Hok & Hp). cbn [mbind option_bind].
    assert (v ≠ u) as Hvu by set_solver.
    destruct (IHt {| pq := h; distances := <[v := alt]> (distances s); previous := <[v := u]> (previous s) |})
      as (s' & -> & Hi' & Hlen).
    + eapply improve; try done. intros e He. by rewrite He in E.
    + done.
    + cbn. by rewrite lookup_insert_ne.
    + cbn. intros x d Hx. rewrite lookup_insert_ne by set_solver. by apply Hmax.
    + done.
    + intros; apply Hes. set_solver.
    + exists s'. split_and!; [done|done|]. cbn [pq] in Hlen. rewrite Hp in Hlen. cbn [length] in *. lia.
  - destruct (distances s !! v) as [e|] eqn:He; [|done].
    destruct (IHt s) as (s' & -> & Hi' & Hlen); try done.
    + eapply skip; try done. by exists e.
    + intros; apply Hes. set_solver.
    + exists s'. split_and!; [done|done|]. cbn. lia.
Qed.

(** The edges of a node at the distance [MaxFloat64] are left out. *)
Lemma dead_end X u todo du s : inv X u todo s → distances s !! u = Some du → feq du MaxFloat64 = true → inv X u [] s.
Proof.
  intros [IH IE IW IS IX IL IR IP] Hdu Hm. split; try done. intros x v w d Hx Hxv _ Hd Hm'.
  apply (IR x v w d); [done|done| |done|done]. intros ->. congruence.
Qed.

(** Popping a node again relaxes nothing. *)
Lemma relax_again X u es du s :
  inv X u [] s → u ∈ X → distances s !! u = Some du → feq du MaxFloat64 = false →
  (∀ v w, (v, w) ∈ es → weight_of g u v = Some w) → relax u es s = Some s.
Proof.
  intros Hi Hu Hdu Hm. induction es as [|[v w] es IHe]; intros Hes; cbn [relax]; [done|].
  rewrite Hdu. change (default zero (Some du)) with du. cbv zeta.
  destruct (i_relaxed _ _ _ _ Hi u v w du Hu) as (e & -> & Hle); [apply Hes; set_solver|set_solver|done|done|].
  unfold fle in Hle. rewrite Hle. apply IHe. intros; apply Hes. set_solver.
Qed.

(** ** Popping *)

Lemma pop_entries h h1 (u : string) sc x : entries h ≡ₚ (u, sc) :: entries h1 →
  x ∈ entries h → x ≠ (u, sc) → x ∈ entries h1.
Proof. intros ->. intros [->|?]%elem_of_cons; done. Qed.

Lemma settle X cur u sc h s :
  inv X cur [] s → heap_ok h → entries (pq s) ≡ₚ (u, sc) :: entries h →
  Forall (λ e, fle sc e.2) (entries (pq s)) → u ∉ X →
  ∃ du, distances s !! u = Some du ∧ (∀ x d, x ∈ {[u]} ∪ X → distances s !! x = Some d → fle d du) ∧
    (∀ v e, v ∉ X → distances s !! v = Some e → fle du e) ∧
    inv ({[u]} ∪ X) u (range_edges (default ∅ (g !! u))) {| pq := h; distances := distances s; previous := previous s |}.
Proof.
  intros Hi Hok Hp Hmin Hu. pose proof Hi as [IH IE IW IS IX IL IR IP].
  destruct (IE u sc) as (Gsc & du & Hdu & Hle); [rewrite Hp; apply list_elem_of_here|].
  rewrite Forall_forall in Hmin.
  assert (∀ v e, v ∉ X → distances s !! v = Some e → fle du e) as Hlow.
  { intros v e Hv He. apply (good_trans _ sc); [by eapply i_good|done|by eapply i_good|done|].
    apply (Hmin (v, e)). by apply IW. }
  exists du. split_and!; [done| |done|].
  { intros x d [->%elem_of_singleton|Hx]%elem_of_union Hd; [replace d with du by congruence; apply fle_refl|].
    by apply (IL x u). }
  split; cbn; try done.
  - intros v s' Hv. apply IE. rewrite Hp. by apply list_elem_of_further.
  - intros v d Hd Hv. apply (pop_entries _ _ _ _ _ Hp); [apply IW; [done|set_solver]|set_solver].
  - intros x [->%elem_of_singleton|Hx]%elem_of_union; [by eexists|by apply IX].
  - intros x v d e [->%elem_of_singleton|Hx]%elem_of_union Hv Hd He; [|apply (IL x v); set_solver].
    replace d with du by congruence. apply (Hlow v); [set_solver|done].
  - intros x v w d Hx Hxv Hdone Hd Hm. destruct (decide (x = u)) as [->|Hne].
    + exfalso. apply (Hdone eq_refl). rewrite range_edges_perm, elem_of_map_to_list.
      unfold weight_of in Hxv. destruct (g !! u); done.
    + apply (IR x v w d); [set_solver|done|set_solver|done|done].
  - intros v d Hd. destruct (IP v d Hd) as (l & ? & ? & ? & Hls). exists l. split_and!; [done..|].
    intros x Hx Hne. apply elem_of_union_r. by apply Hls.
Qed.

Lemma pop_again X cur u sc h s :
  inv X cur [] s → heap_ok h → entries (pq s) ≡ₚ (u, sc) :: entries h → u ∈ X →
  inv X u [] {| pq := h; distances := distances s; previous := previous s |}.
Proof.
  intros [IH IE IW IS IX IL IR IP] Hok Hp Hu. split; cbn; try done.
  - intros v s' Hv. apply IE. rewrite Hp. by apply list_elem_of_further.
  - intros v d Hd Hv. apply (pop_entries _ _ _ _ _ Hp); [by apply IW|set_solver].
  - intros x v w d Hx Hxv _ Hd Hm. apply (IR x v w d); [done|done|set_solver|done|done].
Qed.

(** ** The path *)

Lemma path_back_spec prev l v acc fuel :
  linked prev l → NoDup l → last l = Some v → (∀ x, x ∈ l → x ≠ "") → prev !! start = None →
  (length l ≤ fuel)%nat → path_back fuel prev start v acc = Some (l ++ acc).
Proof.
  intros Hlk Hnd Hlast Hne Hs. revert v acc fuel Hlk Hnd Hlast Hne.
  induction l as [|x l IH] using rev_ind; intros v acc fuel [Hhd Hlk] Hnd Hlast Hne Hf; [done|].
  rewrite last_snoc in Hlast. injection Hlast as ->. rewrite length_app in Hf. cbn in Hf.
  destruct fuel as [|fuel]; [lia|]. cbn [path_back]. rewrite decide_False by (apply Hne; set_solver).
  destruct names as [Hstart _]. destruct l as [|y l _] using rev_ind.
  { cbn in Hhd. injection Hhd as ->. rewrite Hs. change (default "" None) with "". cbv zeta.
    rewrite decide_False by done. by destruct fuel. }
  assert (prev !! v = Some y) as ->.
  { apply (Hlk (length l)); [by rewrite lookup_app_l, lookup_app_r, Nat.sub_diag by (rewrite ?length_app; cbn; lia)|].
    rewrite lookup_app_r by (rewrite length_app; cbn; lia). by rewrite length_app, Nat.add_1_r, Nat.sub_diag. }
  change (default "" (Some y)) with y. cbv zeta. destruct (decide (y = start)) as [->|Hys].
  - destruct l as [|z l]; [done|]. cbn in Hhd. injection Hhd as ->. exfalso.
    rewrite <- !app_assoc in Hnd. cbn in Hnd. apply NoDup_cons in Hnd as [Hnin _]. apply Hnin. set_solver.
  - rewrite <- (app_assoc _ [v]). cbn [app]. apply IH; [split| |by rewrite last_snoc|set_solver|lia].
    + by destruct l.
    + intros i a b Ha Hb. apply (Hlk i); by apply lookup_app_l_Some.
    + apply NoDup_app in Hnd. tauto.
Qed.

Lemma linked_length prev l : linked prev l → NoDup l → (length l ≤ S (size prev))%nat.
Proof.
  intros [Hhd Hlk] Hnd. destruct l as [|x l]; [cbn; lia|]. cbn. apply NoDup_cons in Hnd as [_ Hnd].
  rewrite <- (size_dom (D := gset string)), <- (size_list_to_set (C := gset string) l Hnd).
  apply le_n_S, subseteq_size. intros y. rewrite elem_of_list_to_set. intros [i Hi]%list_elem_of_lookup_1.
  destruct (lookup_lt_is_Some_2 (x :: l) i) as [z Hz]; [apply lookup_lt_Some in Hi; cbn; lia|].
  apply elem_of_dom. exists z. by apply (Hlk i).
Qed.

Lemma walk_names v l d : walk g start v l d → ∀ x, x ∈ l → x ≠ "".
Proof.
  destruct names as [Hn1 Hn2]. induction 1 as [|u v l d w _ IH Hw]; intros x.
  - intros ->%list_elem_of_singleton. done.
  - intros [Hx|Hx]%elem_of_app; [auto|]. apply list_elem_of_singleton in Hx as ->. by eapply Hn2.
Qed.

(** ** The search *)

Definition out_edges (X : gset string) : Z := msum (filter (λ p, p.1 ∉ X) ((λ m : gmap string float64, Z.of_nat (size m)) <$> g)).

Lemma out_edges_nonneg X : 0 ≤ out_edges X.
Proof.
  apply msum_nonneg. intros k v [Hv _]%map_lookup_filter_Some. rewrite lookup_fmap, fmap_Some in Hv.
  destruct Hv as (m & _ & ->). lia.
Qed.

Lemma out_edges_settle X u : u ∉ X →
  out_edges X = out_edges ({[u]} ∪ X) + Z.of_nat (length (range_edges (default ∅ (g !! u)))).
Proof.
  intros Hu. unfold out_edges. rewrite (msum_filter_delete _ _ u Hu). f_equal. rewrite range_edges_perm, length_map_to_list, lookup_fmap.
  by destruct (g !! u) as [m|].
Qed.

Lemma edges_spec u v w : (v, w) ∈ range_edges (default ∅ (g !! u)) → weight_of g u v = Some w.
Proof.
  rewrite range_edges_perm, elem_of_map_to_list. unfold weight_of. destruct (g !! u); cbn; [done|]. by rewrite lookup_empty.
Qed.

Lemma edges_nodup u : NoDup (range_edges (default ∅ (g !! u))).*1.
Proof. rewrite range_edges_perm. apply NoDup_fst_map_to_list. Qed.

(** A walk of length [d] may have been missed: a walk that is not longer ends in a node at the
    distance [MaxFloat64], which the code takes to be unreachable. *)
Definition capped (d : float64) : Prop := ∃ v l d', walk g start v l d' ∧ feq d' MaxFloat64 = true ∧ fle d' d.

Lemma capped_ge d w : capped d → good d → good w → capped (fadd d w).
Proof.
  intros (v & l & d' & Hw & Hm & Hle) Gd Gw. exists v, l, d'. split_and!; [done|done|].
  apply (good_trans _ d); [by eapply walk_good|done|by apply good_fadd|done|by apply good_ge].
Qed.

(** A walk that is not capped goes along settled nodes, up to the first that is not. *)
Lemma walk_settled X cur s x l d : inv X cur [] s → walk g start x l d →
  capped d ∨ (∃ y e, y ∉ X ∧ distances s !! y = Some e ∧ fle e d) ∨ x ∈ X ∧ ∃ e, distances s !! x = Some e ∧ fle e d.
Proof.
  intros Hi Hw. induction Hw as [|u y l d w Hw IHw Huy].
  - right. destruct (i_start _ _ _ _ Hi) as [Hst _]. destruct (decide (start ∈ X)) as [Hs|Hs]; [right|left].
    + split; [done|]. exists zero. split; [done|apply fle_refl].
    + exists start, zero. split_and!; [done|done|apply fle_refl].
  - assert (good w) as Gw by (by eapply weights_good). assert (good d) as Gd by (by eapply walk_good).
    destruct IHw as [Hc|[(y' & e & Hy & He & Hle)|(Hu & e & He & Hle)]]; [left; by apply capped_ge| |].
    + right. left. exists y', e. split_and!; [done|done|].
      apply (good_trans _ d); [by eapply i_good|done|by apply good_fadd|done|by apply good_ge].
    + assert (good e) as Ge by (by eapply i_good). destruct (feq e MaxFloat64) eqn:Hm.
      { left. apply capped_ge; [|done|done]. destruct (i_path _ _ _ _ Hi u e He) as (l' & Hl' & _). by exists u, l', e. }
      right. destruct (i_relaxed _ _ _ _ Hi u y w e Hu Huy) as (e' & He' & Hle'); [set_solver|done|done|].
      assert (fle e' (fadd d w)) as Hle2.
      { apply (good_trans _ (fadd e w)); [by eapply i_good|by apply good_fadd|by apply good_fadd|done|by apply good_mono]. }
      destruct (decide (y ∈ X)) as [Hy|Hy]; [right; eauto|left; eauto].
Qed.

(** No walk to a node that is popped is shorter. *)
Lemma popped_least X cur s du end_ l d : inv X cur [] s → end_ ∉ X → good du →
  (∀ x e, x ∉ X → distances s !! x = Some e → fle du e) → walk g start end_ l d → fle du d ∨ capped d.
Proof.
  intros Hi Hend Gdu Hlow Hw. destruct (walk_settled X cur s end_ l d Hi Hw) as [?|[(y & e & Hy & He & Hle)|[? _]]]; [by right| |done].
  left. apply (good_trans _ e); [done|by eapply i_good|by eapply walk_good|by apply (Hlow y)|done].
Qed.

Definition shortest (end_ : string) (r : option PathResult) : Prop :=
  match r with
  | Some p => walk g start end_ (Path p) (Distance p) ∧ NoDup (Path p) ∧
      ∀ l d, walk g start end_ l d → fle (Distance p) d ∨ capped d
  | None => ∀ l d, walk g start end_ l d → capped d
  end.

Lemma all_settled X cur s x l d : inv X cur [] s → entries (pq s) = [] → x ∉ X → walk g start x l d → capped d.
Proof.
  intros Hi He Hx Hw. destruct (walk_settled X cur s x l d Hi Hw) as [?|[(y & e & Hy & Hd & _)|[? _]]]; [done| |done].
  pose proof (i_wait _ _ _ _ Hi y e Hd Hy) as Hin. rewrite He in Hin. by apply elem_of_nil in Hin.
Qed.

Lemma dijkstra_loop_spec fuel X cur end_ s :
  inv X cur [] s → end_ ∉ X → Z.of_nat (length (entries (pq s))) + out_edges X ≤ Z.of_nat fuel →
  ∃ r, search_loop fuel g start end_ s = Some r ∧ shortest end_ r.
Proof.
  revert X cur s. induction fuel as [|fuel IH]; intros X cur s Hi Hend Hf; cbn [search_loop].
  all: pose proof (out_edges_nonneg X) as Hpos.
  all: assert (Heap.Size (pq s) = length (entries (pq s))) as Hsz by (unfold Heap.Size, entries; by rewrite length_fmap).
  all: destruct (decide (Heap.Size (pq s) = 0%nat)) as [E|E].
  1,3: exists None; split; [done|]; intros l d Hw; eapply all_settled; [exact Hi| |exact Hend|exact Hw];
    apply length_zero_iff_nil; lia.
  { lia. }
  destruct (PopItem_ok (pq s) (i_heap _ _ _ _ Hi)) as ([u sc] & h & -> & Hok & _ & Hp & Hmin).
  { intros Enil. apply E. unfold Heap.Size. by rewrite Enil. }
  cbn [mbind option_bind]. cbv zeta. cbn [distances previous pq]. rewrite Hp in Hf. cbn [length] in Hf. cbn [snd] in Hmin.
  destruct (decide (u ∈ X)) as [Hu|Hu].
  - rewrite decide_False by (by intros ->). pose proof (pop_again X cur u sc h s Hi Hok Hp Hu) as Hi'.
    destruct (i_settled _ _ _ _ Hi u Hu) as [du Hdu]. rewrite Hdu.
    destruct (feq du MaxFloat64) eqn:Hm; [apply (IH X u); [done|done|cbn [pq]; lia]|].
    rewrite (relax_again X u _ du _ Hi' Hu Hdu Hm (edges_spec u)). cbn [mbind option_bind]. apply (IH X u); [done|done|]. cbn [pq]. lia.
  - destruct (settle X cur u sc h s Hi Hok Hp Hmin Hu) as (du & Hdu & Hmax & Hlow & Hi').
    destruct (i_path _ _ _ _ Hi u du Hdu) as (l & Hl & Hlk & Hnd & _).
    destruct (decide (u = end_)) as [->|Hne].
    + rewrite (path_back_spec _ l end_ []); [|done|done|by eapply walk_last|by eapply walk_names|apply (i_start _ _ _ _ Hi)|by apply linked_length].
      cbn [mbind option_bind]. eexists. split; [done|]. cbn [shortest Distance Path]. rewrite Hdu, app_nil_r. split_and!; [done|done|].
      intros l' d' Hw'. eapply (popped_least X cur s du end_ l' d'); [done|done|by eapply i_good|done|done].
    + rewrite (out_edges_settle X u Hu) in Hf. rewrite Hdu. destruct (feq du MaxFloat64) eqn:Hm.
      { apply (IH ({[u]} ∪ X) u); [by eapply dead_end|set_solver|cbn [pq]; lia]. }
      destruct (relax_edges_spec _ u _ du _ Hi') as (s' & -> & Hi2 & Hlen);
        [set_solver|done|done|apply edges_nodup|apply edges_spec|]. cbn [mbind option_bind].
      apply (IH ({[u]} ∪ X) u); [done|set_solver|]. cbn [pq] in Hlen. lia.
Qed.
End correct.

(** C21. Dijkstra's algorithm is right on binary64, up to the distance [math.MaxFloat64], which
    the code takes to mean unreachable.  On a graph whose weights are not negative and whose
    nodes have names, [ShortestPath] ends without a panic of the heap.  A path it returns is a
    walk without repetition, [Distance] is its length, and no walk is shorter; it returns nil
    only if there is no walk from the start to the end: in both cases unless a walk from the
    start, to any node, has a length of exactly [MaxFloat64] and is not longer than the one
    that was missed.  Lengths are sums rounded after every step.  This holds in whatever order
    the neighbours are ranged over. *)
Theorem dijkstra_shortest `{EdgeOrder} (g : Graph) (start end_ : string) :
  (∀ u v w, weight_of g u v = Some w → valid w ∧ has_sign false w) →
  (start ≠ "" ∧ ∀ u v w, weight_of g u v = Some w → v ≠ "") →
  ∃ r, ShortestPath g start end_ = Some r ∧
    match r with
    | Some p => walk g start end_ (Path p) (Distance p) ∧ NoDup (Path p) ∧
        ∀ l d, walk g start end_ l d → fle (Distance p) d ∨
          ∃ v l' d', walk g start v l' d' ∧ feq d' MaxFloat64 = true ∧ fle d' d
    | None => ∀ l d, walk g start end_ l d → ∃ v l' d', walk g start v l' d' ∧ feq d' MaxFloat64 = true ∧ fle d' d
    end.
Proof.
  intros Hg Hn. unfold ShortestPath.
  destruct (PushItem_ok start zero NewMinHeap New_heap_ok) as (h & -> & Hok & Hp); [done|]. cbn [mbind option_bind].
  apply (dijkstra_loop_spec g start Hg Hn _ ∅ start); [|set_solver|].
  - assert (∀ v d, ({[start := zero]} : gmap string float64) !! v = Some d → v = start ∧ d = zero) as Hs.
    { intros v d [<- <-]%lookup_singleton_Some. done. }
    split; cbn [pq distances previous].
    + done.
    + intros v sc. rewrite Hp. intros Hv%list_elem_of_singleton. simplify_eq. split; [done|].
      exists zero. split; [by rewrite lookup_singleton_eq|apply fle_refl].
    + intros v d [-> ->]%Hs _. rewrite Hp. apply list_elem_of_here.
    + split; [by rewrite lookup_singleton_eq|apply lookup_empty].
    + intros u Hu. by apply not_elem_of_empty in Hu.
    + intros u v d e Hu. by apply not_elem_of_empty in Hu.
    + intros u v w d Hu. by apply not_elem_of_empty in Hu.
    + intros v d [-> ->]%Hs. exists [start]. split_and!; [constructor| |apply NoDup_singleton|].
      * split; [done|]. intros [|i] a b _ Hb; done.
      * intros x Hx%list_elem_of_singleton Hne. done.
  - cbn [pq]. rewrite Hp. cbn [length entries NewMinHeap items fmap list_fmap]. unfold num_edges, out_edges.
    rewrite map_filter_id by (intros; set_solver).
    assert (0 ≤ msum ((λ m : gmap string float64, Z.of_nat (size m)) <$> g)); [|lia].
    apply msum_nonneg. intros k v. rewrite lookup_fmap, fmap_Some. intros (m & _ & ->). lia.
Qed.

(** Keys in the order of [map_to_list]. *)
#[local] Instance example_order : EdgeOrder := {| range_edges m := map_to_list m; range_edges_perm m := Permutation_refl _ |}.

Definition f (z : Z) : float64 := of_i64 z.
Definition sample : Graph := {["a" := {["b" := f 7; "c" := f 1]}; "b" := {["d" := f 1]}; "c" := {["b" := f 2; "d" := f 9]}]}.

Lemma sample_steps u v w : weight_of sample u v = Some w →
  (u, v, w) ∈ [("a", "b", f 7); ("a", "c", f 1); ("b", "d", f 1); ("c", "b", f 2); ("c", "d", f 9)].
Proof.
  unfold weight_of, sample. intros (m & Hu & Hv)%bind_Some.
  rewrite !lookup_insert_Some, lookup_singleton_Some in Hu.
  destruct Hu as [[<- <-]|[_ [[<- <-]|[_ [<- <-]]]]];
    rewrite ?lookup_insert_Some, lookup_singleton_Some in Hv; naive_solver eauto using list_elem_of_here, list_elem_of_further.
Qed.

(** The lengths of all walks. *)
Lemma sample_walks v l d : walk sample "a" v l d →
  (v, d) ∈ [("a", f 0); ("b", f 7); ("b", f 3); ("c", f 1); ("d", f 8); ("d", f 4); ("d", f 10)].
Proof.
  induction 1 as [|u v l d w _ IH Hw]; [apply list_elem_of_here|]. apply sample_steps in Hw.
  rewrite !elem_of_cons in IH. rewrite !elem_of_cons in Hw. rewrite !elem_of_cons.
  assert (fadd (f 7) (f 1) = f 8 ∧ fadd (f 3) (f 1) = f 4 ∧ fadd (f 1) (f 2) = f 3 ∧ fadd (f 1) (f 9) = f 10 ∧
    fadd (f 0) (f 7) = f 7 ∧ fadd (f 0) (f 1) = f 1) as (E1 & E2 & E3 & E4 & E5 & E6) by (by vm_compute).
  destruct Hw as [Hw|[Hw|[Hw|[Hw|[Hw|Hw]]]]]; [..|by apply elem_of_nil in Hw]; injection Hw as -> -> ->;
    (destruct IH as [IH|[IH|[IH|[IH|[IH|[IH|[IH|IH]]]]]]]; [..|by apply elem_of_nil in IH]);
    try discriminate IH; injection IH as ->; rewrite ?E1, ?E2, ?E3, ?E4, ?E5, ?E6; tauto.
Qed.

Lemma sample_no_max v l d : walk sample "a" v l d → feq d MaxFloat64 = false.
Proof.
  intros Hw%sample_walks. rewrite !elem_of_cons in Hw.
  destruct Hw as [Hw|[Hw|[Hw|[Hw|[Hw|[Hw|[Hw|Hw]]]]]]]; [..|by apply elem_of_nil in Hw]; injection Hw as -> ->; by vm_compute.
Qed.

Lemma dijkstra_shortest_witness :
  ShortestPath sample "a" "d" = Some (Some {| Distance := f 4; Path := ["a"; "c"; "b"; "d"] |}) ∧
  ∀ l d, walk sample "a" "d" l d → fle (f 4) d.
Proof.
  destruct (dijkstra_shortest sample "a" "d") as (r & Hr & Hs).
  - intros u v w Hw%sample_steps. rewrite !elem_of_cons in Hw.
    destruct Hw as [Hw|[Hw|[Hw|[Hw|[Hw|Hw]]]]]; [..|by apply elem_of_nil in Hw]; injection Hw as -> -> ->; by vm_compute.
  - split; [done|]. intros u v w Hw%sample_steps. rewrite !elem_of_cons in Hw.
    destruct Hw as [Hw|[Hw|[Hw|[Hw|[Hw|Hw]]]]]; [..|by apply elem_of_nil in Hw]; by injection Hw as -> -> ->.
  - assert (ShortestPath sample "a" "d" = Some (Some {| Distance := f 4; Path := ["a"; "c"; "b"; "d"] |})) as E
      by (vm_compute; reflexivity).
    split; [exact E|]. rewrite E in Hr. injection Hr as <-. destruct Hs as (_ & _ & Hs). intros l d Hw.
    destruct (Hs l d Hw) as [?|(v & l' & d' & Hw' & Hm & _)]; [done|]. rewrite (sample_no_max _ _ _ Hw') in Hm. discriminate Hm.
Defined.

(** A node at the distance [MaxFloat64] is taken to be unreachable and its edges are not looked
    at: over an edge of that weight there is a walk, and [ShortestPath] returns nil. *)
Theorem dijkstra_max_weight_is_unreachable :
  let g := {["a" := {["b" := MaxFloat64]}; "b" := {["c" := f 1]}]} in
  ShortestPath g "a" "c" = Some None ∧ walk g "a" "c" ["a"; "b"; "c"] MaxFloat64.
Proof.
  split; [vm_compute; reflexivity|].
  replace MaxFloat64 with (fadd (fadd zero MaxFloat64) (f 1)) at 2 by (vm_compute; reflexivity).
  apply (walk_step _ _ "b" "c" ["a"; "b"]); [apply (walk_step _ _ "a" "b" ["a"]); [constructor|]|]; by vm_compute.
Qed.

(** The path to a node whose name is empty is lost. *)
Theorem dijkstra_empty_name :
  ShortestPath {["a" := {["" := f 1]}]} "a" "" = Some (Some {| Distance := f 1; Path := [] |}).
Proof. vm_compute. reflexivity. Qed.
