(* ===== verification/SearchIndex.v ===== *)
(** * pkg/data/search and its in-memory engine

    Documents, the inverted index and the search over it.  A document is the map the caller
    passes (the engine keeps that map; it is taken not to be changed afterwards).  The order
    in which Go ranges over a set of identifiers is the class [Ranging]; where a loop over a
    map only builds a set, a map or a sum of small integers, it goes in the order of
    [map_to_list].  A comparison or a map key of a slice or map type panics: [None].  The
    methods ignore the context and run under the engine's lock. *)

From S2P Require Import Prelude GoStrings Errors Float64 GoAny SliceSort.
From stdpp Require Import sorting options.
Open Scope Z_scope.

(* src: pkg/data/search/search.go 86-104 FieldMapping *)
Record FieldMapping := {
  Type_ : string; Analyzer : string; Searchable : bool; Filterable : bool; Sortable : bool; Facetable : bool;
}.
(* src: pkg/data/search/search.go 116-125 IndexSettings *)
Record IndexSettings := { NumberOfShards : Z; NumberOfReplicas : Z; RefreshInterval : Z }.
(* src: pkg/data/search/search.go 107-113 IndexMapping *)
Record IndexMapping := { im_Fields : gmap string FieldMapping; Settings : IndexSettings }.

Abbreviation FilterOperatorEquals := "eq".
Abbreviation FilterOperatorNotEquals := "ne".
Abbreviation FilterOperatorGreaterThan := "gt".
Abbreviation FilterOperatorLessThan := "lt".
Abbreviation FilterOperatorGreaterOrEq := "gte".
Abbreviation FilterOperatorLessOrEq := "lte".
Abbreviation FilterOperatorIn := "in".
Abbreviation FilterOperatorNotIn := "nin".
Abbreviation FilterOperatorExists := "exists".

(* src: pkg/data/search/search.go 158-167 Filter *)
Record Filter := { f_Field : string; Operator : string; f_Value : Any }.
(* src: pkg/data/search/search.go 186-192 SortOption *)
Record SortOption := { so_Field : string; Descending : bool }.
(* src: pkg/data/search/search.go 128-155 Query *)
Record Query := {
  Text : string; Fields : list string; Filters : list Filter; Sort : list SortOption;
  From : Z; Size : Z; Highlight : bool; Facets : list string; MinScore : float64;
}.
(* src: pkg/data/search/search.go 213-225 Hit *)
Record Hit := {
  h_ID : string; h_Score : float64; Source : gmap string Any; Highlights : option (gmap string (list string));
}.
(* src: pkg/data/search/search.go 228-234 FacetValue *)
Record FacetValue := { fv_Value : Any; fv_Count : Z }.
(* src: pkg/data/search/search.go 195-210 SearchResult *)
Record SearchResult := {
  Hits : list Hit; Total : Z; MaxScore : float64; Took : Z; r_Facets : option (gmap string (list FacetValue));
}.
(* src: pkg/data/search/search.go 283-295 IndexInfo *)
Record IndexInfo := { ii_Name : string; DocCount : Z; SizeBytes : Z; CreatedAt : Z }.
(* src: pkg/data/search/search.go 298-307 SuggestQuery *)
Record SuggestQuery := { Prefix : string; sq_Field : string; sq_Size : Z }.
(* src: pkg/data/search/search.go 310-319 Suggestion *)
Record Suggestion := { s_Text : string; s_Score : float64 }.
(* src: pkg/data/search/search.go 237-246 BulkOperation *)
Record BulkOperation := { Action : string; op_ID : string; Document : Any }.
(* src: pkg/data/search/search.go 259-280 BulkResult *)
Record BulkResult := { Successful : Z; Failed : Z; be_Errors : list (string * string) }.

(* src: pkg/data/search/adapters/memory/memory.go 16-20 document *)
Record document := { id : string; data : gmap string Any; indexedAt : Z }.
(* src: pkg/data/search/adapters/memory/memory.go 23-29 index *)
Record index := {
  name : string; mapping : option IndexMapping; documents : gmap string document;
  invertedIndex : gmap string (gset string); createdAt : Z;
}.
(* src: pkg/data/search/adapters/memory/memory.go 32-35 Engine *)
Definition Engine := gmap string index.
(* src: pkg/data/search/adapters/memory/memory.go 38-43 New *)
Definition New : Engine := ∅.

Definition set_documents (d : gmap string document) (i : index) : index :=
  {| name := name i; mapping := mapping i; documents := d; invertedIndex := invertedIndex i; createdAt := createdAt i |}.
Definition set_inverted (d : gmap string (gset string)) (i : index) : index :=
  {| name := name i; mapping := mapping i; documents := documents i; invertedIndex := d; createdAt := createdAt i |}.

Abbreviation SearchM := (GoM error Engine).

(** ** Tokens and the inverted index *)

(* src: pkg/data/search/adapters/memory/memory.go 694-698 tokenize *)
Definition tokenize (text : string) : list string := FieldsFunc (λ r, negb (is_alnum r)) (ToLower text).

(* src: pkg/data/search/adapters/memory/memory.go 701-724 collectTokens *)
Fixpoint collectTokens (v : Any) (tokens : gset string) : gset string :=
  match v with
  | AString s => list_to_set (tokenize s) ∪ tokens
  | AMap m =>
      (fix go (m : list (string * Any)) (tokens : gset string) : gset string :=
         match m with [] => tokens | (_, val) :: m => go m (collectTokens val tokens) end) m tokens
  | AList l =>
      (fix go (l : list Any) (tokens : gset string) : gset string :=
         match l with [] => tokens | val :: l => go l (collectTokens val tokens) end) l tokens
  | AStrings l => foldl (λ tokens val, list_to_set (tokenize val) ∪ tokens) tokens l
  | _ => tokens
  end.

(** The tokens of a document. *)
Definition tokens_of (d : gmap string Any) : gset string := collectTokens (AMap (map_to_list d)) ∅.
Arguments tokens_of : simpl never.

(* src: pkg/data/search/adapters/memory/memory.go 731-736 addToIndex *)
Definition add_token (docID token : string) (inv : gmap string (gset string)) : gmap string (gset string) :=
  <[token := {[docID]} ∪ default ∅ (inv !! token)]> inv.

(* src: pkg/data/search/adapters/memory/memory.go 727-737 addToIndex *)
Definition addToIndex (idx : index) (docID : string) (d : gmap string Any) : index :=
  set_inverted (foldr (add_token docID) (invertedIndex idx) (elements (tokens_of d))) idx.

(* src: pkg/data/search/adapters/memory/memory.go 744-751 removeFromIndex *)
Definition remove_token (docID token : string) (inv : gmap string (gset string)) : gmap string (gset string) :=
  match inv !! token with
  | None => inv
  | Some docs =>
      let docs := docs ∖ {[docID]} in
      if decide (size docs = 0%nat) then delete token inv else <[token := docs]> inv
  end.

(* src: pkg/data/search/adapters/memory/memory.go 740-752 removeFromIndex *)
Definition removeFromIndex (idx : index) (docID : string) (d : gmap string Any) : index :=
  set_inverted (foldr (remove_token docID) (invertedIndex idx) (elements (tokens_of d))) idx.

(** ** Indexes and documents *)

(* src: pkg/data/search/adapters/memory/memory.go 50-67 CreateIndex *)
Definition CreateIndex (indexName : string) (m : option IndexMapping) (now : Z) : SearchM () :=
  e ← get;
  throw_if (is_Some (e !! indexName)) (Conflict "index already exists" None);;
  put (<[indexName := {| name := indexName; mapping := m; documents := ∅; invertedIndex := ∅; createdAt := now |}]> e).

(* src: pkg/data/search/adapters/memory/memory.go 69-79 DeleteIndex *)
Definition DeleteIndex (indexName : string) : SearchM () :=
  e ← get;
  throw_if (e !! indexName = None) (NotFound "index not found" None);;
  put (delete indexName e).

(* src: pkg/data/search/adapters/memory/memory.go 81-96 GetIndex *)
Definition GetIndex (indexName : string) : SearchM IndexInfo :=
  e ← get;
  idx ← unwrap (e !! indexName) (NotFound "index not found" None);
  mret {| ii_Name := indexName; DocCount := Z.of_nat (size (documents idx)); SizeBytes := 0; CreatedAt := createdAt idx |}.

(** [now1] and [now2] are the clock at the creation of the index and of the document. *)
(* src: pkg/data/search/adapters/memory/memory.go 105-138 indexLocked *)
Definition indexLocked (indexName docID : string) (doc : Any) (now1 now2 : Z) (e : Engine) : Engine :=
  let idx := default {| name := indexName; mapping := None; documents := ∅; invertedIndex := ∅; createdAt := now1 |}
               (e !! indexName) in
  let d := match doc with AMap m => list_to_map m | _ => {["_source" := doc]} end in
  let idx := match documents idx !! docID with Some oldDoc => removeFromIndex idx docID (data oldDoc) | None => idx end in
  let idx := set_documents (<[docID := {| id := docID; data := d; indexedAt := now2 |}]> (documents idx)) idx in
  <[indexName := addToIndex idx docID d]> e.

(* src: pkg/data/search/adapters/memory/memory.go 98-103 Index *)
Definition Index (indexName docID : string) (doc : Any) (now1 now2 : Z) : SearchM () :=
  e ← get; put (indexLocked indexName docID doc now1 now2 e).

(* src: pkg/data/search/adapters/memory/memory.go 140-159 Get *)
Definition Get (indexName docID : string) : SearchM Hit :=
  e ← get;
  idx ← unwrap (e !! indexName) (NotFound "index not found" None);
  doc ← unwrap (documents idx !! docID) (NotFound "document not found" None);
  mret {| h_ID := docID; h_Score := of_i64 1; Source := data doc; Highlights := None |}.

(* src: pkg/data/search/adapters/memory/memory.go 167-183 deleteLocked *)
Definition deleteLocked (indexName docID : string) : SearchM () :=
  e ← get;
  idx ← unwrap (e !! indexName) (NotFound "index not found" None);
  doc ← unwrap (documents idx !! docID) (NotFound "document not found" None);
  let idx := removeFromIndex idx docID (data doc) in
  put (<[indexName := set_documents (delete docID (documents idx)) idx]> e).

(* src: pkg/data/search/adapters/memory/memory.go 161-165 Delete *)
Definition Delete (indexName docID : string) : SearchM () := deleteLocked indexName docID.

(** One operation of a batch; an action of another name does nothing and counts as
    successful. *)
(* src: pkg/data/search/adapters/memory/memory.go 651-660 Bulk *)
Definition bulk_op (indexName : string) (op : BulkOperation) (now1 now2 : Z) (e : Engine) : option error * Engine :=
  if decide (Action op ∈ ["index"; "create"; "update"])
  then (None, indexLocked indexName (op_ID op) (Document op) now1 now2 e)
  else if decide (Action op = "delete")
  then match deleteLocked indexName (op_ID op) e with (inl err, e) => (Some err, e) | (inr _, e) => (None, e) end
  else (None, e).

(* src: pkg/data/search/adapters/memory/memory.go 650-671 Bulk *)
Fixpoint bulk_loop (indexName : string) (ops : list BulkOperation) (now : Z) (r : BulkResult) (e : Engine)
    : BulkResult * Engine :=
  match ops with
  | [] => (r, e)
  | op :: ops =>
      let '(err, e) := bulk_op indexName op now now e in
      let r := match err with
               | Some err => {| Successful := Successful r; Failed := Failed r + 1;
                                be_Errors := be_Errors r ++ [(op_ID op, Error err)] |}
               | None => {| Successful := Successful r + 1; Failed := Failed r; be_Errors := be_Errors r |}
               end in
      bulk_loop indexName ops now r e
  end.

(* src: pkg/data/search/adapters/memory/memory.go 643-675 Bulk *)
Definition Bulk (indexName : string) (ops : list BulkOperation) (now : Z) : SearchM BulkResult :=
  e ← get;
  let '(r, e) := bulk_loop indexName ops now {| Successful := 0; Failed := 0; be_Errors := [] |} e in
  put e;; mret r.

(* src: pkg/data/search/adapters/memory/memory.go 677-687 Refresh *)
Definition Refresh (indexName : string) : SearchM () :=
  e ← get; throw_if (e !! indexName = None) (NotFound "index not found" None).

(** ** Matching and scoring *)

(* src: pkg/data/search/adapters/memory/memory.go 511-523 toFloat64 *)
Definition toFloat64 (v : Any) : option float64 :=
  match v with
  | AInt n | AInt64 n => Some (of_i64 n)
  | AFloat64 f | AFloat32 f => Some f
  | _ => None
  end.

(* src: pkg/data/search/adapters/memory/memory.go 488-509 compareValues *)
Definition compareValues (docValue : Any) (op : string) (filterValue : Any) : bool :=
  match toFloat64 docValue, toFloat64 filterValue with
  | Some docNum, Some filterNum =>
      if decide (op = FilterOperatorGreaterThan) then flt filterNum docNum
      else if decide (op = FilterOperatorLessThan) then flt docNum filterNum
      else if decide (op = FilterOperatorGreaterOrEq) then fge docNum filterNum
      else if decide (op = FilterOperatorLessOrEq) then fge filterNum docNum
      else false
  | _, _ => false
  end.

(* src: pkg/data/search/adapters/memory/memory.go 474-481 matchesFilter *)
Fixpoint any_in (value : Any) (arr : list Any) : option bool :=
  match arr with
  | [] => Some false
  | v :: arr => b ← any_eq v value; if b : bool then Some true else any_in value arr
  end.

(* src: pkg/data/search/adapters/memory/memory.go 460-486 matchesFilter *)
Definition matchesFilter (d : gmap string Any) (f : Filter) : option bool :=
  match d !! f_Field f with
  | None =>
      if decide (Operator f = FilterOperatorExists) then any_eq (f_Value f) (ABool false) else Some false
  | Some value =>
      if decide (Operator f = FilterOperatorEquals) then any_eq value (f_Value f)
      else if decide (Operator f = FilterOperatorNotEquals) then negb <$> any_eq value (f_Value f)
      else if decide (Operator f = FilterOperatorExists) then any_eq (f_Value f) (ABool true)
      else if decide (Operator f = FilterOperatorIn) then
        match f_Value f with AList arr => any_in value arr | _ => Some false end
      else Some (compareValues value (Operator f) (f_Value f))
  end.

(* src: pkg/data/search/adapters/memory/memory.go 451-457 matchesQuery *)
Fixpoint matches_filters (d : gmap string Any) (fs : list Filter) : option bool :=
  match fs with
  | [] => Some true
  | f :: fs => b ← matchesFilter d f; if negb b then Some false else matches_filters d fs
  end.

Definition contains_text (textLower : string) (v : Any) : bool :=
  match v with AString str => Contains (ToLower str) textLower | _ => false end.

(* src: pkg/data/search/adapters/memory/memory.go 418-447 matchesQuery *)
Definition matches_text (d : gmap string Any) (text : string) (fields : list string) : bool :=
  let textLower := ToLower text in
  if decide (fields = []) then existsb (λ p, contains_text textLower p.2) (map_to_list d)
  else existsb (λ f, match d !! f with Some v => contains_text textLower v | None => false end) fields.

(* src: pkg/data/search/adapters/memory/memory.go 410-458 matchesQuery *)
Definition matchesQuery (d : gmap string Any) (q : Query) : option bool :=
  if decide (Text q = "" ∧ Filters q = []) then Some true
  else if decide (Text q ≠ "" ∧ matches_text d (Text q) (Fields q) = false) then Some false
  else matches_filters d (Filters q).

(* src: pkg/data/search/adapters/memory/memory.go 525-541 calculateScore *)
Definition calculateScore (d : gmap string Any) (q : Query) : float64 :=
  if decide (Text q = "") then of_i64 1
  else
    let textLower := ToLower (Text q) in
    let score := foldl (λ score (p : string * Any), match p.2 with
                          | AString str => fadd score (of_i64 (Z.of_nat (Count (ToLower str) textLower)))
                          | _ => score
                          end) (of_i64 0) (map_to_list d) in
    fadd score (of_i64 1).

(* src: pkg/data/search/adapters/memory/memory.go 543-563 generateHighlights *)
Definition generateHighlights (d : gmap string Any) (q : Query) : option (gmap string (list string)) :=
  if decide (Text q = "") then None
  else
    Some (omap (λ v, match v with
                     | AString str =>
                         if Contains (ToLower str) (ToLower (Text q))
                         then Some [replace_from 0 str (Text q) ("<em>" +:+ Text q +:+ "</em>")] else None
                     | _ => None
                     end) d).

(** ** Search *)

(** The order in which Go ranges over a set. *)
Class Ranging := {
  range : gset string → list string;
  range_perm : ∀ X, range X ≡ₚ elements X;
}.

Section search.
  Context `{Ranging} `{SliceSort}.

(* src: pkg/data/search/adapters/memory/memory.go 317-337 getCandidateIDs *)
Fixpoint intersect (inv : gmap string (gset string)) (tokens cands : list string) : list string :=
  match tokens with
  | [] => cands
  | token :: tokens =>
      match inv !! token with
      | None => []
      | Some docs =>
          let cands := filter (.∈ docs) cands in
          if decide (cands = []) then cands else intersect inv tokens cands
      end
  end.

(** [None]: the inverted index is not used. *)
(* src: pkg/data/search/adapters/memory/memory.go 295-340 getCandidateIDs *)
Definition getCandidateIDs (idx : index) (queryText : string) : option (list string) :=
  if decide (queryText = "") then None
  else match tokenize queryText with
  | [] => None
  | token :: tokens =>
      match invertedIndex idx !! token with
      | None => Some []
      | Some docs => Some (intersect (invertedIndex idx) tokens (range docs))
      end
  end.

(* src: pkg/data/search/adapters/memory/memory.go 365-372 getHits *)
Definition make_hit (docID : string) (d : gmap string Any) (q : Query) : Hit :=
  {| h_ID := docID; h_Score := calculateScore d q; Source := d;
     Highlights := if Highlight q then generateHighlights d q else None |}.

(* src: pkg/data/search/adapters/memory/memory.go 345-376 getHits *)
Fixpoint hits_loop (idx : index) (ids : list string) (q : Query) : option (list Hit) :=
  match ids with
  | [] => Some []
  | docID :: ids =>
      match documents idx !! docID with
      | None => hits_loop idx ids q
      | Some doc =>
          b ← matchesQuery (data doc) q;
          hits ← hits_loop idx ids q;
          Some (if b : bool then make_hit docID (data doc) q :: hits else hits)
      end
  end.

(* src: pkg/data/search/adapters/memory/memory.go 342-379 getHits *)
Definition getHits (idx : index) (candidateIDs : option (list string)) (q : Query) : option (list Hit) :=
  hits_loop idx (match candidateIDs with Some ids => ids | None => range (dom (documents idx)) end) q.

(* src: pkg/data/search/adapters/memory/memory.go 585-606 compareAny *)
Definition compareAny (a b : Any) : comparison :=
  match a, b with
  | AString sa, AString sb => String.compare sa sb
  | _, _ =>
      match toFloat64 a, toFloat64 b with
      | Some na, Some nb => if flt na nb then Lt else if flt nb na then Gt else Eq
      | _, _ => Eq
      end
  end.

(** A missing field is nil. *)
(* src: pkg/data/search/adapters/memory/memory.go 567-581 applySort *)
Fixpoint sort_less (sorts : list SortOption) (x y : Hit) : bool :=
  match sorts with
  | [] => false
  | s :: sorts =>
      let vi := default ANil (Source x !! so_Field s) in
      let vj := default ANil (Source y !! so_Field s) in
      match compareAny vi vj with
      | Eq => sort_less sorts x y
      | Gt => Descending s
      | Lt => negb (Descending s)
      end
  end.

(* src: pkg/data/search/adapters/memory/memory.go 565-583 applySort *)
Definition applySort (hits : list Hit) (sorts : list SortOption) : list Hit := sort_Slice (sort_less sorts) hits.

(* src: pkg/data/search/adapters/memory/memory.go 381-408 paginateHits *)
Definition paginateHits (hits : list Hit) (q : Query) : list Hit * float64 :=
  match hits with
  | [] => ([], of_i64 0)
  | h :: _ =>
      let maxScore := h_Score h in
      let from := if decide (From q < 0) then 0 else From q in
      if decide (Z.of_nat (length hits) ≤ from) then ([], maxScore)
      else
        let hits := drop (Z.to_nat from) hits in
        let size_ := if decide (Size q ≤ 0) then 10 else Size q in
        let size_ := if decide (Z.of_nat (length hits) < size_) then Z.of_nat (length hits) else size_ in
        (take (Z.to_nat size_) hits, maxScore)
  end.

(** The map of counters has the keys that are equal to none before (NaN is equal to
    nothing); [None] for a key that cannot be hashed. *)
(* src: pkg/data/search/adapters/memory/memory.go 620-620 calculateFacets *)
Fixpoint count_value (v : Any) (counts : list FacetValue) : option (list FacetValue) :=
  match counts with
  | [] => Some [{| fv_Value := v; fv_Count := 1 |}]
  | c :: counts =>
      b ← any_eq (fv_Value c) v;
      if b : bool then Some ({| fv_Value := fv_Value c; fv_Count := i64 (fv_Count c + 1) |} :: counts)
      else counts ← count_value v counts; Some (c :: counts)
  end.

(* src: pkg/data/search/adapters/memory/memory.go 616-622 calculateFacets *)
Fixpoint count_field (docs : list document) (field : string) (counts : list FacetValue) : option (list FacetValue) :=
  match docs with
  | [] => Some counts
  | doc :: docs =>
      match data doc !! field with
      | None => count_field docs field counts
      | Some v => if hashable v then counts ← count_value v counts; count_field docs field counts else None
      end
  end.

(* src: pkg/data/search/adapters/memory/memory.go 615-638 calculateFacets *)
Fixpoint facet_fields (idx : index) (fields : list string) : option (gmap string (list FacetValue)) :=
  match fields with
  | [] => Some ∅
  | field :: fields =>
      values ← count_field (map_to_list (documents idx)).*2 field [];
      rest ← facet_fields idx fields;
      Some (<[field := sort_Slice (λ x y, bool_decide (fv_Count y < fv_Count x)) values]> rest)
  end.

(* src: pkg/data/search/adapters/memory/memory.go 608-641 calculateFacets *)
Definition calculateFacets (idx : index) (q : Query) : option (option (gmap string (list FacetValue))) :=
  if decide (Facets q = []) then Some None else Some <$> facet_fields idx (Facets q).

Definition by_score (x y : Hit) : bool := flt (h_Score y) (h_Score x).

(* src: pkg/data/search/adapters/memory/memory.go 185-219 Search *)
Definition Search (indexName : string) (q : Query) (start finish : Z) (e : Engine) : option (error + SearchResult) :=
  match e !! indexName with
  | None => Some (inl (NotFound "index not found" None))
  | Some idx =>
      hits ← getHits idx (getCandidateIDs idx (Text q)) q;
      let hits := sort_Slice by_score hits in
      let hits := if decide (Sort q = []) then hits else applySort hits (Sort q) in
      let '(page, maxScore) := paginateHits hits q in
      facets ← calculateFacets idx q;
      Some (inr {| Hits := page; Total := Z.of_nat (length hits); MaxScore := maxScore;
                   Took := finish - start; r_Facets := facets |})
  end.

(** The best score of every token that starts with the prefix. *)
(* src: pkg/data/search/adapters/memory/memory.go 267-277 collectPrefixMatches *)
Definition consider (prefix : string) (seen : gmap string float64) (text : string) : gmap string float64 :=
  foldl (λ seen token,
    if HasPrefix token prefix then
      let score := fdiv (of_i64 (Z.of_nat (String.length prefix))) (of_i64 (Z.of_nat (String.length token) + 1)) in
      match seen !! token with
      | Some prev => if flt prev score then <[token := score]> seen else seen
      | None => <[token := score]> seen
      end
    else seen) seen (tokenize text).

(* src: pkg/data/search/adapters/memory/memory.go 266-293 collectPrefixMatches *)
Definition collectPrefixMatches (d : gmap string Any) (field prefix : string) (seen : gmap string float64)
    : gmap string float64 :=
  let text v := match v with AString str => Some str | _ => None end in
  if decide (field ≠ "") then
    match d !! field ≫= text with Some str => consider prefix seen str | None => seen end
  else foldl (consider prefix) seen (omap (λ p, text p.2) (map_to_list d)).

Definition by_suggestion (x y : Suggestion) : bool :=
  if feq (s_Score x) (s_Score y) then string_lt (s_Text x) (s_Text y) else flt (s_Score y) (s_Score x).

(* src: pkg/data/search/adapters/memory/memory.go 221-264 Suggest *)
Definition Suggest (indexName : string) (q : SuggestQuery) (e : Engine) : error + list Suggestion :=
  match e !! indexName with
  | None => inl (NotFound "index not found" None)
  | Some idx =>
      let prefix := ToLower (TrimSpace (Prefix q)) in
      if decide (prefix = "") then inr []
      else
        let size_ := if decide (sq_Size q ≤ 0) then 10 else sq_Size q in
        let seen := foldl (λ seen doc, collectPrefixMatches (data doc) (sq_Field q) prefix seen) ∅
                      (map_to_list (documents idx)).*2 in
        let suggestions := (λ p, {| s_Text := p.1; s_Score := p.2 |}) <$> map_to_list seen in
        inr (take (Z.to_nat size_) (sort_Slice by_suggestion suggestions))
  end.
End search.

(** ** The inverted index is exact *)

(** The documents listed under a token. *)
Definition posting (inv : gmap string (gset string)) (t : string) : gset string := default ∅ (inv !! t).
Definition no_empty (inv : gmap string (gset string)) : Prop := ∀ t docs, inv !! t = Some docs → docs ≠ ∅.

Definition index_ok (idx : index) : Prop :=
  no_empty (invertedIndex idx) ∧
  ∀ t i, i ∈ posting (invertedIndex idx) t ↔
    ∃ doc, documents idx !! i = Some doc ∧ t ∈ tokens_of (data doc).
Definition engine_ok (e : Engine) : Prop := map_Forall (λ _, index_ok) e.

Lemma posting_add i l inv t :
  posting (foldr (add_token i) inv l) t = if decide (t ∈ l) then {[i]} ∪ posting inv t else posting inv t.
Proof.
  induction l as [|u l IH]; cbn [foldr]; [by rewrite decide_False by set_solver|].
  unfold posting at 1, add_token at 1. destruct (decide (u = t)) as [->|Hne].
  - rewrite lookup_insert_eq, decide_True by set_solver. cbn. fold (posting (foldr (add_token i) inv l) t).
    rewrite IH. case_decide; set_solver.
  - rewrite lookup_insert_ne by done. fold (posting (foldr (add_token i) inv l) t). rewrite IH.
    destruct (decide (t ∈ l)); [rewrite decide_True by set_solver|rewrite decide_False by set_solver]; done.
Qed.

Lemma no_empty_add i l inv : no_empty inv → no_empty (foldr (add_token i) inv l).
Proof.
  intros He. induction l as [|u l IH]; cbn; [done|]. intros t docs. unfold add_token at 1.
  rewrite lookup_insert_Some. intros [[_ <-]|[_ Hl]]; [set_solver|by eapply IH].
Qed.

Lemma posting_remove i l inv t :
  posting (foldr (remove_token i) inv l) t = if decide (t ∈ l) then posting inv t ∖ {[i]} else posting inv t.
Proof.
  induction l as [|u l IH]; cbn [foldr]; [by rewrite decide_False by set_solver|].
  set (inv' := foldr (remove_token i) inv l) in *.
  assert (posting (remove_token i u inv') t = if decide (t = u) then posting inv' t ∖ {[i]} else posting inv' t) as ->.
  { unfold remove_token, posting. destruct (inv' !! u) as [docs|] eqn:Hu.
    - destruct (decide (t = u)) as [->|Hne].
      + rewrite Hu. cbn. destruct (decide (size _ = O)) as [Hs|Hs]; [rewrite lookup_delete_eq|by rewrite lookup_insert_eq].
        apply size_empty_inv in Hs. set_solver.
      + destruct (decide (size _ = O)); [by rewrite lookup_delete_ne|by rewrite lookup_insert_ne].
    - destruct (decide (t = u)) as [->|]; [|done]. rewrite Hu. set_solver. }
  rewrite IH. destruct (decide (t = u)) as [->|Hne].
  - rewrite (decide_True (P := u ∈ u :: l)) by set_solver. case_decide; set_solver.
  - destruct (decide (t ∈ l)); [rewrite decide_True by set_solver|rewrite decide_False by set_solver]; done.
Qed.

Lemma no_empty_remove i l inv : no_empty inv → no_empty (foldr (remove_token i) inv l).
Proof.
  intros He. induction l as [|u l IH]; cbn; [done|]. intros t docs. unfold remove_token at 1.
  destruct (_ !! u) as [d|] eqn:Hu; [|by apply IH].
  destruct (decide (size _ = O)) as [Hs|Hs].
  - rewrite lookup_delete_Some. intros [_ Hl]. by eapply IH.
  - rewrite lookup_insert_Some. intros [[_ <-]|[_ Hl]]; [|by eapply IH]. intros Hempty. apply Hs. by rewrite Hempty, size_empty.
Qed.

Lemma posting_add_set i (X : gset string) inv t :
  posting (foldr (add_token i) inv (elements X)) t = if decide (t ∈ X) then {[i]} ∪ posting inv t else posting inv t.
Proof. rewrite posting_add. apply decide_ext. apply elem_of_elements. Qed.
Lemma posting_remove_set i (X : gset string) inv t :
  posting (foldr (remove_token i) inv (elements X)) t = if decide (t ∈ X) then posting inv t ∖ {[i]} else posting inv t.
Proof. rewrite posting_remove. apply decide_ext. apply elem_of_elements. Qed.

(** Taking a document out of the postings. *)
Lemma remove_ok idx i doc : index_ok idx → documents idx !! i = Some doc →
  no_empty (invertedIndex (removeFromIndex idx i (data doc))) ∧
  ∀ t j, j ∈ posting (invertedIndex (removeFromIndex idx i (data doc))) t ↔
    j ≠ i ∧ ∃ d, documents idx !! j = Some d ∧ t ∈ tokens_of (data d).
Proof.
  intros [Hne Hex] Hd. split; [by apply no_empty_remove|]. intros t j. cbn. rewrite posting_remove_set.
  destruct (decide (t ∈ tokens_of (data doc))) as [Ht|Ht].
  - rewrite elem_of_difference, Hex, elem_of_singleton. tauto.
  - rewrite Hex. split; [|tauto]. intros (d & Hj & Htd). split; [|eauto]. intros ->. by simplify_eq.
Qed.

Lemma unlisted_ok idx i : index_ok idx → documents idx !! i = None →
  ∀ t j, j ∈ posting (invertedIndex idx) t ↔ j ≠ i ∧ ∃ d, documents idx !! j = Some d ∧ t ∈ tokens_of (data d).
Proof.
  intros [_ Hex] Hi t j. rewrite Hex. split; [|tauto]. intros (d & Hd & Ht). split; [|eauto]. intros ->. by simplify_eq.
Qed.

Lemma indexLocked_ok e n i doc t1 t2 : engine_ok e → engine_ok (indexLocked n i doc t1 t2 e).
Proof.
  intros He. unfold indexLocked. apply map_Forall_insert_2; [|done].
  set (idx := default _ (e !! n)). assert (index_ok idx) as Hok.
  { unfold idx. destruct (e !! n) as [x|] eqn:Hn; [by apply (He n)|]. split; [done|]. intros t j. cbn. set_solver. }
  clearbody idx. set (d := match doc with AMap m => _ | _ => _ end). clearbody d.
  set (idx1 := match documents idx !! i with Some _ => _ | None => _ end).
  assert (documents idx1 = documents idx ∧ no_empty (invertedIndex idx1) ∧ ∀ t j,
    j ∈ posting (invertedIndex idx1) t ↔ j ≠ i ∧ ∃ d, documents idx !! j = Some d ∧ t ∈ tokens_of (data d)) as (Hdoc & Hne & Hex).
  { unfold idx1. destruct (documents idx !! i) as [old|] eqn:Hi.
    - split; [done|]. by apply remove_ok.
    - split; [done|]. split; [by destruct Hok|]. by apply unlisted_ok. }
  clearbody idx1. split; cbn; [by apply no_empty_add|]. intros t j. rewrite posting_add_set, Hdoc.
  destruct (decide (j = i)) as [->|Hji].
  - rewrite lookup_insert_eq. destruct (decide (t ∈ tokens_of d)); [|rewrite Hex; naive_solver].
    split; [|set_solver]. intros _. by eexists.
  - rewrite lookup_insert_ne by done. specialize (Hex t j). destruct (decide (t ∈ tokens_of d)); set_solver.
Qed.

Lemma deleteLocked_ok e n i : engine_ok e → engine_ok (exec (deleteLocked n i) e).
Proof.
  intros He. unfold exec, deleteLocked, get, put, unwrap, mbind, GoM_bind. cbn.
  destruct (e !! n) as [idx|] eqn:Hn; cbn; [|done]. destruct (documents idx !! i) as [doc|] eqn:Hi; cbn; [|done].
  apply map_Forall_insert_2; [|done]. destruct (remove_ok idx i doc (He n idx Hn) Hi) as [Hne Hex].
  split; [done|]. intros t j. cbn in *. rewrite Hex. destruct (decide (j = i)) as [->|];
    [rewrite lookup_delete_eq; naive_solver|rewrite lookup_delete_ne by done; tauto].
Qed.

(** *** Histories *)

Inductive call :=
  | CCreate (n : string) (m : option IndexMapping) (now : Z) | CDeleteIndex (n : string)
  | CIndex (n i : string) (doc : Any) (now1 now2 : Z) | CDelete (n i : string)
  | CBulk (n : string) (ops : list BulkOperation) (now : Z).

Definition run_call (e : Engine) (c : call) : Engine :=
  match c with
  | CCreate n m now => exec (CreateIndex n m now) e
  | CDeleteIndex n => exec (DeleteIndex n) e
  | CIndex n i doc t1 t2 => exec (Index n i doc t1 t2) e
  | CDelete n i => exec (Delete n i) e
  | CBulk n ops now => exec (Bulk n ops now) e
  end.

Lemma bulk_loop_ok n ops now r e : engine_ok e → engine_ok (bulk_loop n ops now r e).2.
Proof.
  revert r e. induction ops as [|op ops IH]; intros r e He; cbn [bulk_loop]; [done|].
  assert (engine_ok (bulk_op n op now now e).2) as Hop.
  { unfold bulk_op. destruct (decide _); [by apply indexLocked_ok|]. destruct (decide (Action op = "delete")); [|done].
    pose proof (deleteLocked_ok e n (op_ID op) He) as Hd. unfold exec in Hd.
    by destruct (deleteLocked n (op_ID op) e) as [[] ?]. }
  destruct (bulk_op n op now now e) as [err e1]. by apply IH.
Qed.

Lemma run_call_engine_ok e c : engine_ok e → engine_ok (run_call e c).
Proof.
  intros He. destruct c as [n m now|n|n i doc t1 t2|n i|n ops now]; cbn [run_call].
  - unfold exec, CreateIndex, throw_if, get, put, mbind, GoM_bind. cbn. destruct (decide _); cbn; [done|].
    apply map_Forall_insert_2; [|done]. split; [done|]. intros t j. cbn. set_solver.
  - unfold exec, DeleteIndex, throw_if, get, put, mbind, GoM_bind. cbn. destruct (decide _); cbn; [done|].
    by apply map_Forall_delete.
  - by apply indexLocked_ok.
  - by apply deleteLocked_ok.
  - unfold exec, Bulk, get, put, mbind, GoM_bind. cbn.
    pose proof (bulk_loop_ok n ops now {| Successful := 0; Failed := 0; be_Errors := [] |} e He) as Hb.
    by destruct (bulk_loop _ _ _ _ _).
Qed.

Lemma history_ok cs : engine_ok (foldl run_call New cs).
Proof.
  assert (∀ e, engine_ok e → engine_ok (foldl run_call e cs)) as H; [|by apply H].
  induction cs as [|c cs IH]; intros e He; cbn; [done|]. apply IH. by apply run_call_engine_ok.
Qed.

(** ** Search is a scan *)

(** All words of the query occur in the document, and it matches. *)
Definition found (q : Query) (d : gmap string Any) : Prop :=
  list_to_set (tokenize (Text q)) ⊆ tokens_of d ∧ matchesQuery d q = Some true.

(** The hits a scan of all documents would collect. *)
Definition scanned (idx : index) (q : Query) (all : list Hit) : Prop :=
  NoDup (h_ID <$> all) ∧
  ∀ h, h ∈ all ↔ ∃ doc, documents idx !! h_ID h = Some doc ∧ found q (data doc) ∧ h = make_hit (h_ID h) (data doc) q.

Definition page (q : Query) (all : list Hit) : list Hit :=
  take (Z.to_nat (if decide (Size q ≤ 0) then 10 else Size q)) (drop (Z.to_nat (From q)) all).

Section exact.
  Context `{Ranging} `{SliceSort}.
  #[local] Set Default Proof Using "Type*".

Lemma intersect_spec inv tokens cands : NoDup cands →
  NoDup (intersect inv tokens cands) ∧
  ∀ i, i ∈ intersect inv tokens cands ↔ i ∈ cands ∧ ∀ t, t ∈ tokens → i ∈ posting inv t.
Proof.
  revert cands. induction tokens as [|t tokens IH]; intros cands Hnd; cbn [intersect]; [set_solver|].
  destruct (inv !! t) as [docs|] eqn:Ht.
  - assert (posting inv t = docs) as Hp by (unfold posting; by rewrite Ht).
    destruct (decide (filter (.∈ docs) cands = [])) as [E|E].
    + rewrite E. split; [constructor|]. intros i. split; [set_solver|]. intros [Hi Hall].
      rewrite <- E. apply list_elem_of_filter. split; [|done]. rewrite <- Hp. apply Hall. set_solver.
    + destruct (IH (filter (.∈ docs) cands)) as [Hn Hi]; [by apply NoDup_filter|]. split; [done|].
      intros i. rewrite Hi, list_elem_of_filter. setoid_rewrite elem_of_cons. rewrite <- Hp.
      split; [intros [[? ?] ?]; split; [done|]; intros ? [->|?]; auto|]. intros [? Hall]. split; [|auto]. auto.
  - split; [constructor|]. intros i. split; [set_solver|]. intros [_ Hall]. exfalso.
    assert (i ∈ posting inv t) as Hi by (apply Hall; set_solver). unfold posting in Hi. rewrite Ht in Hi. set_solver.
Qed.

(** The identifiers that are looked at are those of the documents with all words of the
    query. *)
Lemma candidates_spec idx text : index_ok idx →
  let ids := match getCandidateIDs idx text with Some ids => ids | None => range (dom (documents idx)) end in
  NoDup ids ∧ ∀ i, i ∈ ids ↔ ∃ doc, documents idx !! i = Some doc ∧
    list_to_set (tokenize text) ⊆ tokens_of (data doc).
Proof.
  intros [Hne Hex] ids. assert (∀ X : gset string, NoDup (range X)) as Hnd.
  { intros X. rewrite range_perm. apply NoDup_elements. }
  assert (tokenize text = [] → NoDup (range (dom (documents idx))) ∧ ∀ i, i ∈ range (dom (documents idx)) ↔
    ∃ doc, documents idx !! i = Some doc ∧ list_to_set (tokenize text) ⊆ tokens_of (data doc)) as Hscan.
  { intros ->. split; [done|]. intros i. rewrite range_perm, elem_of_elements, elem_of_dom. unfold is_Some. set_solver. }
  unfold ids, getCandidateIDs. destruct (decide (text = "")) as [->|]; [by apply Hscan|].
  destruct (tokenize text) as [|t tokens]; [by apply Hscan|]. clear Hscan.
  assert (∀ i, (∀ u, u ∈ t :: tokens → i ∈ posting (invertedIndex idx) u) ↔
    ∃ doc, documents idx !! i = Some doc ∧ list_to_set (t :: tokens) ⊆ tokens_of (data doc)) as Hall.
  { intros i. split.
    - intros Hu. destruct (proj1 (Hex t i)) as (doc & Hd & _); [apply Hu; set_solver|]. exists doc. split; [done|].
      intros u. rewrite elem_of_list_to_set. intros Hin. destruct (proj1 (Hex u i) (Hu u Hin)) as (doc' & Hd' & ?). by simplify_eq.
    - intros (doc & Hd & Hs) u Hu. apply Hex. exists doc. split; [done|]. apply Hs. by apply elem_of_list_to_set. }
  destruct (invertedIndex idx !! t) as [docs|] eqn:Ht.
  - destruct (intersect_spec (invertedIndex idx) tokens (range docs) (Hnd _)) as [Hn Hi]. split; [done|].
    intros i. rewrite Hi, <- Hall, range_perm, elem_of_elements. setoid_rewrite elem_of_cons.
    assert (posting (invertedIndex idx) t = docs) as <- by (unfold posting; by rewrite Ht). naive_solver.
  - split; [constructor|]. intros i. rewrite <- Hall. split; [set_solver|]. intros Hu. exfalso.
    assert (i ∈ posting (invertedIndex idx) t) as Hi by (apply Hu; set_solver).
    unfold posting in Hi. rewrite Ht in Hi. set_solver.
Qed.

Lemma hits_loop_spec idx ids q : NoDup ids →
  (∀ i doc, documents idx !! i = Some doc → is_Some (matchesQuery (data doc) q)) →
  ∃ all, hits_loop idx ids q = Some all ∧ NoDup (h_ID <$> all) ∧
    ∀ h, h ∈ all ↔ h_ID h ∈ ids ∧ ∃ doc, documents idx !! h_ID h = Some doc ∧
      matchesQuery (data doc) q = Some true ∧ h = make_hit (h_ID h) (data doc) q.
Proof.
  intros Hnd Hsafe. induction Hnd as [|i ids Hi Hnd IH]; cbn [hits_loop].
  { exists []. split_and!; [done|constructor|set_solver]. }
  destruct IH as (all & -> & Hn & Hall). destruct (documents idx !! i) as [doc|] eqn:Hd.
  - destruct (Hsafe i doc Hd) as [b Hb]. rewrite Hb. cbn [mbind option_bind]. eexists. split; [done|].
    destruct b.
    + split.
      * cbn. constructor; [|done]. intros (h & Hh & [? _]%Hall)%list_elem_of_fmap. cbn in Hh. by subst.
      * intros h. rewrite elem_of_cons, Hall, elem_of_cons. split.
        -- intros [->|(? & ?)]; [|by auto]. cbn. split; [by left|]. by exists doc.
        -- intros [[Hhi|?] (doc' & Hd' & ? & Hh)]; [left|right; eauto]. rewrite Hhi in *. by simplify_eq.
    + split; [done|]. intros h. rewrite Hall, elem_of_cons. split; [naive_solver|].
      intros [[Hhi|?] (doc' & Hd' & ? & ?)]; [|eauto]. rewrite Hhi in *. by simplify_eq.
  - exists all. split_and!; [done|done|]. intros h. rewrite Hall, elem_of_cons. split; [naive_solver|].
    intros [[Hhi|?] (doc' & Hd' & ?)]; [|eauto]. rewrite Hhi in *. by simplify_eq.
Qed.

Lemma paginate_spec hits q : (paginateHits hits q).1 = page q hits ∧
  (paginateHits hits q).2 = match hits with [] => of_i64 0 | h :: _ => h_Score h end.
Proof.
  unfold paginateHits, page. destruct hits as [|h l]; [by rewrite drop_nil, take_nil|]. set (hits := h :: l).
  set (from := if decide (From q < 0) then 0 else From q).
  assert (Z.to_nat (From q) = Z.to_nat from) as -> by (unfold from; case_decide; lia).
  destruct (decide (Z.of_nat (length hits) ≤ from)); cbn [fst snd]; split; try done.
  - rewrite (drop_ge hits) by lia. by rewrite take_nil.
  - set (sz := if decide (Size q ≤ 0) then 10 else Size q). set (len := length (drop (Z.to_nat from) hits)).
    case_decide; [|done]. rewrite !take_ge; [done|fold len; lia|fold len; lia].
Qed.

Lemma score_num d q : is_num (calculateScore d q).
Proof.
  apply (has_sign_num false). unfold calculateScore. case_decide; [by apply of_i64_nonneg|].
  apply fadd_nonneg; [|by apply of_i64_nonneg]. set (tl := ToLower (Text q)). clearbody tl.
  assert (∀ l s, has_sign false s → has_sign false (foldl (λ score (p : string * Any), match p.2 with
    | AString str => fadd score (of_i64 (Z.of_nat (Count (ToLower str) tl))) | _ => score end) s l)) as Hf.
  { induction l as [|[k v] l IH]; intros s Hs; cbn [foldl]; [done|]. apply IH. cbn.
    destruct v; try done. apply fadd_nonneg; [done|]. apply of_i64_nonneg. lia. }
  apply Hf. by apply of_i64_nonneg.
Qed.

Lemma by_score_weak hits : Forall (λ h, is_num (h_Score h)) hits → strict_weak by_score hits.
Proof.
  intros Hn. rewrite Forall_forall in Hn. split; unfold by_score.
  - intros x y Hx Hy Hxy. apply flt_fle in Hxy; [done|by apply Hn|by apply Hn].
  - intros x y z Hx Hy Hz Hxy Hyz. apply (fle_trans _ (h_Score y)); auto.
Qed.
End exact.

(** ** Theorems *)

(** C24. Search through the inverted index is a scan of the documents.  After any history of
    calls, a search in an index in which no document makes a filter or a facet panic returns
    the page at [From] of a list that holds, once each, exactly the documents that match
    the query and contain all of its words; [Total] is its length, and without a sort option
    it is in descending order of the scores, the first of which is [MaxScore].  This is so
    for every order of ranging over maps and every function that sorts.  [MinScore] plays no
    part. *)
Theorem search_is_scan `{Ranging} `{SliceSort} (cs : list call) (n : string) (idx : index) (q : Query) (t1 t2 : Z) :
  foldl run_call New cs !! n = Some idx →
  (∀ i doc, documents idx !! i = Some doc → is_Some (matchesQuery (data doc) q)) →
  is_Some (calculateFacets idx q) →
  ∃ r all, Search n q t1 t2 (foldl run_call New cs) = Some (inr r) ∧
    scanned idx q all ∧ Total r = Z.of_nat (length all) ∧ Hits r = page q all ∧
    (Sort q = [] → StronglySorted (λ x y, fle (h_Score y) (h_Score x)) all ∧
       MaxScore r = match all with [] => of_i64 0 | h :: _ => h_Score h end).
Proof.
  intros Hidx Hsafe [facets Hf]. pose proof (history_ok cs n idx Hidx) as Hok.
  destruct (candidates_spec idx (Text q) Hok) as [Hnd Hids].
  destruct (hits_loop_spec idx _ q Hnd Hsafe) as (hits & Hhits & Hn & Hin).
  unfold Search, getHits. rewrite Hidx, Hhits. cbn [mbind option_bind].
  set (all := if decide (Sort q = []) then _ else _). rewrite (surjective_pairing (paginateHits all q)), Hf. cbn.
  assert (all ≡ₚ hits) as Hp.
  { unfold all, applySort. case_decide; by rewrite !sort_Slice_perm. }
  eexists _, all. split; [done|]. destruct (paginate_spec all q) as [H1 H2]. split_and!; [|done|done|].
  - split; [by rewrite Hp|]. intros h. rewrite Hp, Hin, Hids. unfold found. split.
    + intros ((doc & Hd & ?) & doc' & Hd' & ? & ?). simplify_eq. eauto.
    + intros (doc & Hd & [? ?] & ?). eauto 10.
  - intros Hs. split; [|done]. unfold all. rewrite decide_True by done. apply sort_Slice_order, by_score_weak.
    apply Forall_forall. intros h (_ & doc & _ & _ & ->)%Hin. apply score_num.
Qed.

(** An order and a sorting function for examples. *)
#[local] Instance example_range : Ranging := {| range X := elements X; range_perm X := Permutation_refl _ |}.
#[local] Instance example_sort : SliceSort := insertion.

Definition text_query (s : string) : Query :=
  {| Text := s; Fields := []; Filters := []; Sort := []; From := 0; Size := 0; Highlight := false; Facets := [];
     MinScore := of_i64 0 |}.
Definition doc_of (s : string) : Any := AMap [("title", AString s)].
Definition sample_calls : list call :=
  [CIndex "p" "1" (doc_of "A laptop, a good Laptop") 0 0; CIndex "p" "2" (doc_of "laptops") 0 0;
   CIndex "p" "3" (doc_of "laptop") 0 0; CIndex "p" "3" (doc_of "phone") 1 1; CDelete "p" "4"].

Definition hit_ids (r : option (error + SearchResult)) : list string :=
  match r with Some (inr r) => h_ID <$> Hits r | _ => [] end.

Lemma search_is_scan_witness :
  hit_ids (Search "p" (text_query "Laptop") 0 0 (foldl run_call New sample_calls)) = ["1"] ∧
  ∀ idx, foldl run_call New sample_calls !! "p" = Some idx → ∃ all, scanned idx (text_query "Laptop") all.
Proof.
  split; [by vm_compute|]. intros idx Hidx.
  destruct (search_is_scan sample_calls "p" idx (text_query "Laptop") 0 0 Hidx) as (r & all & _ & Hs & _).
  - intros i doc _. unfold matchesQuery. cbn. destruct (decide _); [by eexists|]. destruct (decide _); by eexists.
  - by eexists.
  - by exists all.
Defined.

(** [MinScore] is not looked at: a hit whose score is below it is returned. *)
Theorem search_ignores_min_score :
  let q := {| Text := "laptop"; Fields := []; Filters := []; Sort := []; From := 0; Size := 0; Highlight := false;
              Facets := []; MinScore := of_i64 1000 |} in
  match Search "p" q 0 0 (foldl run_call New sample_calls) with
  | Some (inr r) => (λ h, (h_ID h, flt (h_Score h) (MinScore q))) <$> Hits r = [("1", true)]
  | _ => False
  end.
Proof. by vm_compute. Qed.

(** A search for a part of a word does not find the document, which matches the query: only
    whole words are in the inverted index.  A text without letters and digits is looked for
    in all documents. *)
Theorem search_misses_part_of_word :
  let e := foldl run_call New [CIndex "p" "1" (doc_of "laptops :-)") 0 0] in
  matchesQuery {["title" := AString "laptops :-)"]} (text_query "laptop") = Some true ∧
  hit_ids (Search "p" (text_query "laptop") 0 0 e) = [] ∧ hit_ids (Search "p" (text_query ":-)") 0 0 e) = ["1"].
Proof. by vm_compute. Qed.

(** A document is never found by the words of a nested value, although they are indexed. *)
Theorem search_misses_nested :
  let doc := AMap [("tags", AStrings ["red"; "blue"])] in
  hit_ids (Search "p" (text_query "red") 0 0 (foldl run_call New [CIndex "p" "1" doc 0 0])) = [].
Proof. by vm_compute. Qed.

(** The operators [nin] and [range] are declared but match nothing. *)
Theorem search_operator_ignored d f :
  Operator f = FilterOperatorNotIn ∨ Operator f = "range" → matchesFilter d f = Some false.
Proof.
  intros Hop. unfold matchesFilter, compareValues.
  destruct (d !! f_Field f) as [v|], Hop as [-> | ->]; cbn; try done.
  all: by destruct (toFloat64 v), (toFloat64 (f_Value f)).
Qed.

(** A facet over a field that holds a slice panics. *)
Theorem search_facet_panics :
  let q := {| Text := ""; Fields := []; Filters := []; Sort := []; From := 0; Size := 0; Highlight := false;
              Facets := ["tags"]; MinScore := of_i64 0 |} in
  Search "p" q 0 0 (foldl run_call New [CIndex "p" "1" (AMap [("tags", AStrings [])]) 0 0]) = None.
Proof. by vm_compute. Qed.
