(* ===== verification/VectorSearch.v ===== *)
(** * pkg/database/vector: nearest neighbours

    The in-memory store, the search over shards that gathers the best results in a heap, and
    the hybrid of vector and keyword scores.  A float32 is given by its value: the arithmetic
    of float32 rounds to 24 bits, conversion to float64 changes nothing.  [sort.Slice] is an
    argument.  Products and sums are rounded separately, without fused operations. *)

From S2P Require Import Prelude GoStrings Errors Float64 GoAny SliceSort Heap.
From stdpp Require Import pretty sorting options.
Open Scope Z_scope.

(** ** float32 *)

Definition to_f32 (f : float64) : float64 :=
  match f with
  | S754_finite s m e => binary_normalize 24 128 (cond_Zopp s (Z.pos m)) e s
  | _ => f
  end.
Definition f32_add : float64 → float64 → float64 := SFadd 24 128.
Definition f32_mul : float64 → float64 → float64 := SFmul 24 128.
Definition f32_div : float64 → float64 → float64 := SFdiv 24 128.
Definition f32_of (z : Z) : float64 := binary_normalize 24 128 z 0 false.
Definition fsqrt : float64 → float64 := SFsqrt 53 1024.

(** ** Results and filters *)

Abbreviation Metadata := (option (gmap string Any)).

(* src: pkg/database/vector/vector.go 33-37 Result *)
Record Result := { ID : string; Score : float64; Metadata_ : Metadata }.

(* src: pkg/database/vector/vector.go 40-47 SearchOpts *)
Record SearchOpts := { Limit : Z; Filter_ : gmap string Any }.

(** How [fmt.Sprint] prints a value is an argument of the filter. *)
Class Printer := Sprint : Any → string.

Section store.
  Context `{Printer} `{SliceSort}.

(* src: pkg/database/vector/vector.go 84-86 valuesEqual *)
Definition valuesEqual (a b : Any) : bool := bool_decide (Sprint a = Sprint b).

(* src: pkg/database/vector/vector.go 68-82 MatchFilter *)
Definition MatchFilter (metadata : Metadata) (filter : gmap string Any) : bool :=
  if decide (filter = ∅) then true
  else match metadata with
  | None => false
  | Some md => forallb (λ p, match md !! p.1 with Some got => valuesEqual got p.2 | None => false end) (map_to_list filter)
  end.

(** ** The in-memory store *)

(* src: pkg/database/vector/adapters/memory/memory.go 13-17 entry *)
Record entry := { id : string; vector : list float64; metadata : Metadata }.
(* src: pkg/database/vector/adapters/memory/memory.go 20-23 Store *)
Definition Store := list entry.
(* src: pkg/database/vector/adapters/memory/memory.go 26-31 New *)
Definition New : Store := [].

(* src: pkg/database/vector/adapters/memory/memory.go 138-143 cosineSimilarity *)
Fixpoint products (a b : list float64) (acc : float64 * float64 * float64) : float64 * float64 * float64 :=
  match a, b with
  | x :: a, y :: b =>
      let '(dot, na, nb) := acc in
      products a b (fadd dot (fmul x y), fadd na (fmul x x), fadd nb (fmul y y))
  | _, _ => acc
  end.

(* src: pkg/database/vector/adapters/memory/memory.go 133-150 cosineSimilarity *)
Definition cosineSimilarity (a b : list float64) : float64 :=
  let zero := of_i64 0 in
  if decide (length a ≠ length b) then zero
  else
    let '(dot, na, nb) := products a b (zero, zero, zero) in
    if feq na zero || feq nb zero then zero
    else to_f32 (fdiv dot (fmul (fsqrt na) (fsqrt nb))).

(** [cloneMetadata] and [cloneVector] copy: values here. *)
(* src: pkg/database/vector/adapters/memory/memory.go 39-85 SearchWithOpts *)
Definition SearchWithOpts (q : list float64) (opts : SearchOpts) (s : Store) : list Result :=
  let limit := if decide (Limit opts ≤ 0) then 10 else Limit opts in
  let results := (λ e, {| ID := id e; Score := cosineSimilarity q (vector e); Metadata_ := metadata e |}) <$>
                   filter (λ e, MatchFilter (metadata e) (Filter_ opts) = true) s in
  take (Z.to_nat limit) (sort_Slice (λ x y, flt (Score y) (Score x)) results).

(* src: pkg/database/vector/adapters/memory/memory.go 34-36 Search *)
Definition Search (q : list float64) (limit : Z) (s : Store) : list Result :=
  SearchWithOpts q {| Limit := limit; Filter_ := ∅ |} s.

(* src: pkg/database/vector/adapters/memory/memory.go 88-108 Upsert *)
Fixpoint Upsert (i : string) (vec : list float64) (md : Metadata) (s : Store) : Store :=
  match s with
  | [] => [{| id := i; vector := vec; metadata := md |}]
  | e :: s => if decide (id e = i) then {| id := id e; vector := vec; metadata := md |} :: s else e :: Upsert i vec md s
  end.

(* src: pkg/database/vector/adapters/memory/memory.go 111-122 Delete *)
Fixpoint Delete (i : string) (s : Store) : error + Store :=
  match s with
  | [] => inl (NotFound "vector not found" None)
  | e :: s => if decide (id e = i) then inr s else match Delete i s with inl err => inl err | inr s => inr (e :: s) end
  end.

(* src: pkg/database/vector/adapters/memory/memory.go 125-130 Close *)
Definition Close (_ : Store) : Store := [].
End store.

(** ** Scatter and gather *)

(** What the search of one shard did; a panic is recovered and reports nothing. *)
Inductive outcome := Found (res : list Result) | Failed (err : error) | Panicked.

(* src: pkg/database/vector/search.go 77-88 ScatterGatherSearch *)
Definition gather_one (limit : Z) (res : Result) (h : MinHeap Result) : option (MinHeap Result) :=
  if decide (Z.of_nat (Heap.Size h) < limit) then PushItem res (Score res) h
  else
    let minScore := match Peek h with Some (_, s) => s | None => of_i64 0 end in
    if flt minScore (Score res) then
      '(_, h) ← PopItem h;
      PushItem res (Score res) h
    else Some h.

(* src: pkg/database/vector/search.go 75-90 ScatterGatherSearch *)
Fixpoint gather (limit : Z) (results : list Result) (h : MinHeap Result) : option (MinHeap Result) :=
  match results with
  | [] => Some h
  | res :: results => h ← gather_one limit res h; gather limit results h
  end.

Definition zero_Result : Result := {| ID := ""; Score := of_i64 0; Metadata_ := None |}.

(** [finalResults] is filled from the back: [acc] is what is filled so far. *)
(* src: pkg/database/vector/search.go 95-98 ScatterGatherSearch *)
Fixpoint extract (n : nat) (h : MinHeap Result) (acc : list Result) : option (list Result) :=
  match n with
  | O => Some acc
  | S n => '(r, h) ← PopItem h; extract n h (default zero_Result (fst <$> r) :: acc)
  end.

(** The first error of the shards, in the order in which they end; [group] is what
    [errgroup.Wait] answers. *)
(* src: pkg/database/vector/search.go 54-57 ScatterGatherSearch *)
Fixpoint group (done_ : list (string * outcome)) : option error :=
  match done_ with
  | [] => None
  | (shardID, Failed err) :: _ => Wrap (Some err) ("search failed on shard " +:+ shardID)
  | _ :: done_ => group done_
  end.

(** The channel holds the results of the shards in the order in which they end. *)
(* src: pkg/database/vector/search.go 58-58 ScatterGatherSearch *)
Definition sent (done_ : list (string * outcome)) : list Result :=
  done_ ≫= λ p, match p.2 with Found res => res | _ => [] end.

(** [acquire] is the first error of the semaphore, if any; [done_] the shards as they end. *)
(* src: pkg/database/vector/search.go 20-111 ScatterGatherSearch *)
Definition ScatterGatherSearch (limit : Z) (acquire : option error) (done_ : list (string * outcome))
    : option (error + list Result) :=
  match acquire with
  | Some err => Some (inl err)
  | None =>
      match group done_ with
      | Some err => Some (inl err)
      | None =>
          h ← gather limit (sent done_) NewMinHeap;
          finalResults ← extract (Heap.Size h) h [];
          Some (inr finalResults)
      end
  end.

(** ** Hybrid search *)

(* src: pkg/database/vector/hybrid.go 13-33 HybridOpts *)
Record HybridOpts := {
  ho_Limit : Z; KeywordQuery : string; ho_Filter : gmap string Any; KeywordWeight : float64;
  VectorWeight : float64; CandidateLimit : Z;
}.
(* src: pkg/database/vector/hybrid.go 36-42 HybridResult *)
Record HybridResult := {
  hr_ID : string; hr_Metadata : Metadata; KeywordScore : float64; VectorScore : float64; HybridScore : float64;
}.

(** The counters are float32; [exact] is whether a field is equal to the query. *)
(* src: pkg/database/vector/hybrid.go 120-135 keywordScore *)
Definition count_keyword (queryLower : string) (acc : float64 * float64 * bool) (v : Any) : float64 * float64 * bool :=
  let '(matched, total, exact) := acc in
  let one := f32_of 1 in
  match v with
  | AString s =>
      let lower := ToLower s in
      if decide (lower = queryLower) then (f32_add matched one, f32_add total one, true)
      else if Contains lower queryLower then (f32_add matched one, f32_add total one, exact)
      else (matched, f32_add total one, exact)
  | _ => acc
  end.

(* src: pkg/database/vector/hybrid.go 114-144 keywordScore *)
Definition keywordScore (md : Metadata) (queryLower : string) : float64 :=
  let m := default ∅ md in
  if decide (m = ∅) then f32_of 0
  else
    let '(matched, total, exact) := foldl (count_keyword queryLower) (f32_of 0, f32_of 0, false) (map_to_list m).*2 in
    if feq total (f32_of 0) then f32_of 0
    else if exact : bool then f32_of 1
    else
      let score := f32_div matched total in
      if flt (of_i64 1) score then f32_of 1 else score.

Definition by_hybrid (x y : HybridResult) : bool :=
  if feq (HybridScore x) (HybridScore y) then string_lt (hr_ID x) (hr_ID y)
  else flt (HybridScore y) (HybridScore x).

(** The weights, 0.3 and 0.7 when none is given, divided by their sum if it is positive. *)
(* src: pkg/database/vector/hybrid.go 60-68 HybridSearch *)
Definition weights (opts : HybridOpts) : float64 * float64 :=
  let '(kwW, vecW) :=
    if feq (KeywordWeight opts) (f32_of 0) && feq (VectorWeight opts) (f32_of 0)
    then (f32_div (f32_of 3) (f32_of 10), f32_div (f32_of 7) (f32_of 10))
    else (KeywordWeight opts, VectorWeight opts) in
  let sum := f32_add kwW vecW in
  if flt (f32_of 0) sum then (f32_div kwW sum, f32_div vecW sum) else (kwW, vecW).

(* src: pkg/database/vector/hybrid.go 69-75 HybridSearch *)
Definition candidate_limit (opts : HybridOpts) (limit : Z) : Z :=
  if decide (CandidateLimit opts ≤ 0) then
    let cand := i64 (limit * 5) in if decide (cand < 50) then 50 else cand
  else CandidateLimit opts.

(** [store] is the search of any store, [None] a nil one. *)
(* src: pkg/database/vector/hybrid.go 52-112 HybridSearch *)
Definition HybridSearch (store : option (list float64 → SearchOpts → error + list Result)) (query : list float64)
    (opts : HybridOpts) : error + list HybridResult :=
  match store with
  | None => inl (InvalidArgument "vector store is required" None)
  | Some search =>
      let limit := if decide (ho_Limit opts ≤ 0) then 10 else ho_Limit opts in
      let '(kwW, vecW) := weights opts in
      match search query {| Limit := candidate_limit opts limit; Filter_ := ho_Filter opts |} with
      | inl err => inl err
      | inr vectorHits =>
          let q := TrimSpace (ToLower (KeywordQuery opts)) in
          let out := (λ hit,
            let kw := if decide (q ≠ "") then keywordScore (Metadata_ hit) q else f32_of 1 in
            {| hr_ID := ID hit; hr_Metadata := Metadata_ hit; KeywordScore := kw; VectorScore := Score hit;
               HybridScore := f32_add (f32_mul kwW kw) (f32_mul vecW (Score hit)) |}) <$> vectorHits in
          inr (take (Z.to_nat limit) (SliceStable by_hybrid out))
      end
  end.

(** ** The best results *)

Definition higher (x y : Result) : Prop := fle (Score y) (Score x).

(** [out] are [k] of the best of [all], or all of them, in descending order. *)
Definition best (k : nat) (all out : list Result) : Prop :=
  ∃ rest, all ≡ₚ out ++ rest ∧ length out = (k `min` length all)%nat ∧ StronglySorted higher out ∧
    ∀ x y, x ∈ out → y ∈ rest → higher x y.

Definition scored (l : list Result) : Prop := Forall (λ r, is_num (Score r)) l.

#[global] Instance scored_perm : Proper ((≡ₚ) ==> iff) scored.
Proof. intros l k Hp. unfold scored. by rewrite Hp. Qed.
Lemma scored_elem l x : scored l → x ∈ l → is_num (Score x).
Proof. unfold scored. rewrite Forall_forall. auto. Qed.

(** What the heap holds while the results come in. *)
Definition gathered (k : nat) (seen : list Result) (h : MinHeap Result) : Prop :=
  heap_ok h ∧ Forall (λ e, e.2 = Score e.1) (entries h) ∧
  ∃ rest, seen ≡ₚ (entries h).*1 ++ rest ∧ Heap.Size h = (k `min` length seen)%nat ∧
    ∀ x y, x ∈ (entries h).*1 → y ∈ rest → higher x y.

Lemma Size_entries (h : MinHeap Result) : Heap.Size h = length (entries h).
Proof. unfold Heap.Size, entries. by rewrite length_fmap. Qed.

Lemma values_cons (h h1 : MinHeap Result) e x : entries h ≡ₚ e :: entries h1 →
  x ∈ (entries h).*1 ↔ x = e.1 ∨ x ∈ (entries h1).*1.
Proof. intros ->. cbn. apply elem_of_cons. Qed.

Lemma gather_one_spec k seen res h : (1 ≤ k)%nat → gathered k seen h → scored seen → is_num (Score res) →
  ∃ h', gather_one (Z.of_nat k) res h = Some h' ∧ gathered k (seen ++ [res]) h'.
Proof.
  intros Hk (Hok & Hsc & rest & Hp & Hsz & Hbest) Hnum Hres. unfold gather_one.
  assert (length seen = (length (entries h) + length rest)%nat) as Hlen
    by (rewrite Hp, length_app, length_fmap; done).
  rewrite Size_entries in *. destruct (decide (Z.of_nat (length (entries h)) < Z.of_nat k)) as [Hlt|Hge].
  - destruct (PushItem_ok res (Score res) h Hok Hres) as (h' & -> & Hok' & P'). exists h'. split; [done|].
    assert (rest = []) as -> by (apply length_zero_iff_nil; lia).
    split_and!; [done|by rewrite P'; constructor|]. exists []. rewrite Size_entries, P', Hp.
    split_and!; [cbn; rewrite !app_nil_r; solve_Permutation| |set_solver].
    rewrite !length_app, length_fmap. cbn [length] in *. lia.
  - assert (items h ≠ []) as Hne.
    { intros E. unfold entries in Hge. rewrite E in Hge. cbn in Hge. lia. }
    destruct (PopItem_ok h Hok Hne) as (e & h1 & Hpop & Hok1 & -> & P1 & Hmin). destruct e as [v s]. cbn [snd fst] in *.
    assert (s = Score v) as ->. { rewrite P1 in Hsc. by apply Forall_cons in Hsc as [? _]. }
    destruct (flt (Score v) (Score res)) eqn:Hlt.
    + rewrite Hpop. cbn [mbind option_bind].
      destruct (PushItem_ok res (Score res) h1 Hok1 Hres) as (h' & -> & Hok' & P'). exists h'. split; [done|].
      rewrite P1 in Hp, Hsc. apply Forall_cons in Hsc as [_ Hsc]. cbn in Hp.
      assert (is_num (Score v)) as Hv by (rewrite Hp in Hnum; apply (scored_elem _ _ Hnum); set_solver).
      apply flt_fle in Hlt; [|done|done].
      split_and!; [done|by rewrite P'; constructor|]. exists (v :: rest). rewrite Size_entries, P', Hp.
      split_and!; [cbn; solve_Permutation| |].
      { rewrite P1 in Hsz, Hlen, Hge. rewrite length_app. cbn [length] in *. rewrite length_app, length_fmap. lia. }
      assert (∀ x, x ∈ (entries h1).*1 → higher x v) as Hv1.
      { intros x ([x' s'] & -> & Hx)%list_elem_of_fmap. rewrite P1, Forall_cons in Hmin. destruct Hmin as [_ Hmin].
        rewrite Forall_forall in Hmin, Hsc. unfold higher. cbn. specialize (Hmin _ Hx). specialize (Hsc _ Hx). cbn in *. by subst s'. }
      assert (∀ y, y ∈ rest → higher v y) as Hv2.
      { intros y Hy. apply Hbest; [|done]. apply (values_cons _ _ _ _ P1). auto. }
      intros x y [->|Hx]%(values_cons _ _ _ _ P') [->|Hy]%elem_of_cons; [done| |by apply Hv1|].
      * unfold higher in *. apply (fle_trans _ (Score v)); [|done|done|by apply Hv2|done].
        rewrite Hp in Hnum. apply (scored_elem _ _ Hnum). set_solver.
      * apply Hbest; [|done]. apply (values_cons _ _ _ _ P1). auto.
    + exists h. split; [done|]. split_and!; [done|done|]. exists (res :: rest). rewrite Size_entries, Hp.
      split_and!; [solve_Permutation|rewrite !length_app, length_fmap; cbn [length]; lia|].
      intros x y Hx [->|Hy]%elem_of_cons; [|by apply Hbest].
      apply list_elem_of_fmap in Hx as ([x' s'] & -> & Hx). cbn. rewrite Forall_forall in Hmin, Hsc.
      specialize (Hmin _ Hx). pose proof (Hsc _ Hx) as Es. cbn in Es. subst s'. cbn in Hmin.
      assert (∀ z s, (z, s) ∈ entries h → is_num (Score z)) as Hz.
      { intros z s Hz. rewrite Hp in Hnum. apply (scored_elem _ _ Hnum).
        apply elem_of_app. left. apply list_elem_of_fmap. by exists (z, s). }
      unfold higher. apply (fle_trans _ (Score v)); [done| |by eapply Hz|done|done].
      apply (Hz v (Score v)). rewrite P1. apply list_elem_of_here.
Qed.

Lemma gather_spec k results seen h : (1 ≤ k)%nat → gathered k seen h → scored (seen ++ results) →
  ∃ h', gather (Z.of_nat k) results h = Some h' ∧ gathered k (seen ++ results) h'.
Proof.
  intros Hk. revert seen h. induction results as [|res results IH]; intros seen h Hg Hs; cbn [gather].
  { exists h. by rewrite app_nil_r. }
  unfold scored in Hs. pose proof Hs as Hs'. rewrite Forall_app, Forall_cons in Hs'. destruct Hs' as (Hs1 & Hr & _).
  destruct (gather_one_spec k seen res h Hk Hg Hs1 Hr) as (h1 & -> & Hg1). cbn [mbind option_bind].
  replace (seen ++ res :: results) with ((seen ++ [res]) ++ results) in * by (by rewrite <- app_assoc).
  by apply IH.
Qed.

Lemma extract_sorted (h : MinHeap Result) acc : heap_ok h → Forall (λ e, e.2 = Score e.1) (entries h) →
  StronglySorted higher acc → (∀ x y, x ∈ (entries h).*1 → y ∈ acc → higher x y) →
  ∃ out, extract (Heap.Size h) h acc = Some (out ++ acc) ∧ out ≡ₚ (entries h).*1 ∧ StronglySorted higher (out ++ acc).
Proof.
  rewrite Size_entries. remember (length (entries h)) as n eqn:Hn. revert h acc Hn.
  induction n as [|n IH]; intros h acc Hn Hok Hsc Hacc Hle; cbn [extract].
  { exists []. symmetry in Hn. apply length_zero_iff_nil in Hn. by rewrite Hn. }
  assert (items h ≠ []) as Hne by (intros E; unfold entries in Hn; by rewrite E in Hn).
  destruct (PopItem_ok h Hok Hne) as ([v s] & h1 & -> & Hok1 & _ & P1 & Hmin). cbn [mbind option_bind fmap option_fmap option_map default fst].
  rewrite P1 in Hsc, Hmin. apply Forall_cons in Hsc as [Es Hsc]. apply Forall_cons in Hmin as [_ Hmin]. cbn in Es, Hmin. subst s.
  destruct (IH h1 (v :: acc)) as (out & Hout & Hp & Hs).
  - rewrite P1 in Hn. cbn in Hn. lia.
  - done.
  - done.
  - constructor; [done|]. apply Forall_forall. intros y Hy. apply Hle; [|done]. apply (values_cons _ _ _ _ P1). auto.
  - intros x y Hx [->|Hy]%elem_of_cons.
    + apply list_elem_of_fmap in Hx as ([x' s'] & -> & Hx). rewrite Forall_forall in Hmin, Hsc.
      specialize (Hmin _ Hx). specialize (Hsc _ Hx). cbn in *. by subst s'.
    + apply Hle; [|done]. apply (values_cons _ _ _ _ P1). auto.
  - exists (out ++ [v]). rewrite <- app_assoc. split_and!; [done| |done]. rewrite P1, Hp. cbn. solve_Permutation.
Qed.

Lemma gather_best k results : (1 ≤ k)%nat → scored results →
  ∃ h out, gather (Z.of_nat k) results NewMinHeap = Some h ∧ extract (Heap.Size h) h [] = Some out ∧ best k results out.
Proof.
  intros Hk Hs. destruct (gather_spec k results [] NewMinHeap Hk) as (h & Hg & Hok & Hsc & rest & Hp & Hsz & Hb).
  - split; [apply New_heap_ok|]. split; [constructor|]. exists []. cbn. split_and!; [done|lia|by intros x y Hx%elem_of_nil].
  - done.
  - destruct (extract_sorted h []) as (out & Hout & Ho & Hsort); [done|done|constructor|by intros x y _ Hy%elem_of_nil|].
    rewrite app_nil_r in Hout, Hsort. exists h, out. split_and!; [done|done|]. exists rest. cbn in Hp, Hsz.
    split_and!; [by rewrite Ho|by rewrite Ho, length_fmap, <- Size_entries|done|].
    intros x y. rewrite Ho. apply Hb.
Qed.

(** ** Shards *)

Section shards.
  Context `{Printer} `{SliceSort}.
  #[local] Set Default Proof Using "Type*".

Definition result_of (q : list float64) (e : entry) : Result :=
  {| ID := id e; Score := cosineSimilarity q (vector e); Metadata_ := metadata e |}.

(** The search of one store returns its best entries. *)
Lemma Search_best q k s : (1 ≤ k)%nat → scored (result_of q <$> s) →
  best k (result_of q <$> s) (Search q (Z.of_nat k) s).
Proof.
  intros Hk Hs. unfold Search, SearchWithOpts, Store in *. cbn [Limit Filter_]. rewrite decide_False, Nat2Z.id by lia.
  assert (filter (λ e, MatchFilter (metadata e) ∅ = true) s = s) as ->.
  { clear. induction s as [|e s IH]; [done|].  rewrite filter_cons_True by done. by rewrite IH. }
  fold (result_of q). set (all := result_of q <$> s) in *. set (less := λ x y, flt (Score y) (Score x)).
  assert (in_order less (sort_Slice less all)) as Ho.
  { apply sort_Slice_order. split; unfold less.
    - intros x y Hx Hy Hxy. apply flt_fle in Hxy; [done|by eapply scored_elem..].
    - intros x y z Hx Hy Hz Hxy Hyz. by apply (fle_trans _ (Score y)); [by eapply scored_elem..| |]. }
  exists (drop k (sort_Slice less all)). split_and!.
  - by rewrite take_drop, sort_Slice_perm.
  - by rewrite length_take, sort_Slice_perm.
  - eapply StronglySorted_app_1_l. rewrite take_drop. exact Ho.
  - intros x y Hx Hy. eapply (StronglySorted_app_1_elem_of higher); [rewrite take_drop; exact Ho|done|done].
Qed.

(** The best of the best of parts are the best of the whole. *)
Lemma best_parts k alls outs out : (1 ≤ k)%nat → Forall2 (best k) alls outs → scored (concat alls) →
  best k (concat outs) out → best k (concat alls) out.
Proof.
  intros Hk Hb Hs (rest & Hp & Hlen & Hsort & Hbest).
  assert (∃ rests, concat alls ≡ₚ concat outs ++ rests ∧ (length (concat outs) < k → rests = [])%nat ∧
    ∀ y, y ∈ rests → ∃ o, o ⊆+ concat outs ∧ length o = k ∧ ∀ x, x ∈ o → higher x y) as (rests & Hp' & Hfew & Hdom).
  { clear Hp Hlen Hsort Hbest Hs rest out. induction Hb as [|all o alls outs (r & Hr & Hl & _ & Hle) _ IH]; cbn.
    { exists []. split_and!; [done|done|set_solver]. }
    destruct IH as (rests & Hp & Hfew & Hdom). exists (r ++ rests).
    assert (r ≠ [] → length o = k) as Hfull.
    { intros Hne. rewrite Hr, length_app in Hl. destruct r; [done|]. cbn in Hl. lia. }
    split_and!.
    - rewrite Hr, Hp. solve_Permutation.
    - rewrite length_app. intros Hlt. rewrite Hfew by lia. destruct r; [done|]. assert (length o = k) by (apply Hfull; discriminate). lia.
    - intros y [Hy|Hy]%elem_of_app.
      + exists o. split_and!; [by apply submseteq_inserts_r|apply Hfull; intros ->; by apply elem_of_nil in Hy|]. intros x Hx. by apply Hle.
      + destruct (Hdom y Hy) as (o' & Ho' & ? & ?). exists o'. split_and!; [by apply submseteq_inserts_l|done|done]. }
  exists (rest ++ rests). split_and!.
  - rewrite Hp', Hp. solve_Permutation.
  - rewrite Hlen, Hp', length_app. destruct (decide (length (concat outs) < k)%nat) as [Hlt|]; [rewrite Hfew by done; cbn; lia|lia].
  - done.
  - intros x y Hx [Hy|Hy]%elem_of_app; [by apply Hbest|]. destruct (Hdom y Hy) as (o & Ho & Hol & Hoy).
    rewrite Hp in Ho. apply submseteq_app_r in Ho as (l1 & l2 & Ho & Hl1 & Hl2). destruct l2 as [|z l2].
    + rewrite app_nil_r in Ho. rewrite <- Ho in Hl1. apply Hoy.
      assert (o ≡ₚ out) as ->; [|done]. apply submseteq_length_Permutation; [done|]. lia.
    + assert (z ∈ rest) as Hz by (eapply elem_of_submseteq; [|exact Hl2]; apply list_elem_of_here).
      assert (higher z y) as Hzy by (apply Hoy; rewrite Ho; set_solver).
      assert (∀ w, w ∈ out ++ rest ∨ w ∈ rests → is_num (Score w)) as Hnum.
      { intros w Hw. apply (scored_elem _ _ Hs). rewrite Hp', Hp. by apply elem_of_app. }
      unfold higher in *. apply (fle_trans _ (Score z)); [by apply Hnum; right|apply Hnum; left|apply Hnum; left|done|by apply Hbest].
      * apply elem_of_app. by right.
      * apply elem_of_app. by left.
Qed.
End shards.

(** C25. A search over shards is a search over their union: when every shard is an in-memory
    store that is asked for its nearest [limit] entries, then, in whatever order the shards
    end, the heap that gathers their answers runs without an index out of range, and the
    result are [limit] of the best entries of all shards (or all of them), in descending order
    of their scores. *)
Theorem sharded_search_exact `{Printer} `{SliceSort} (q : list float64) (limit : Z) (shards : list (string * Store))
    (done_ : list (string * outcome)) :
  1 ≤ limit → scored (result_of q <$> concat shards.*2) →
  done_ ≡ₚ (λ p, (p.1, Found (Search q limit p.2))) <$> shards →
  ∃ out, ScatterGatherSearch limit None done_ = Some (inr out) ∧
    best (Z.to_nat limit) (result_of q <$> concat shards.*2) out.
Proof.
  intros Hl Hs Hd. set (k := Z.to_nat limit). assert (Z.of_nat k = limit) as Hk by lia.
  assert (group done_ = None ∧ sent done_ ≡ₚ concat ((λ p, Search q limit p.2) <$> shards)) as [Hg Hsent].
  { split.
    - assert (Forall (λ p, ∃ r, p.2 = Found r) done_) as Hf.
      { rewrite Hd. apply Forall_fmap, Forall_true. intros p. by eexists. }
      clear Hd. induction Hf as [|[n o] d [r Hr] _ IH]; cbn in *; [done|]. by subst o.
    - unfold sent. rewrite Hd. clear. induction shards as [|[n s] shards IH]; cbn; [done|]. f_equiv. exact IH. }
  assert (Forall2 (best k) ((λ p : string * Store, result_of q <$> p.2) <$> shards) ((λ p : string * Store, Search q limit p.2) <$> shards)) as Hb.
  { rewrite Forall2_fmap. apply Forall_Forall2_diag, Forall_forall. intros [n s] Hin. cbn. rewrite <- Hk.
    apply Search_best; [lia|]. unfold scored in *. rewrite Forall_fmap in *. rewrite Forall_forall in *. intros e He. apply Hs.
    apply elem_of_concat. exists s. split; [done|]. apply list_elem_of_fmap. by exists (n, s). }
  assert (concat ((λ p : string * Store, result_of q <$> p.2) <$> shards) = result_of q <$> concat shards.*2) as Hc.
  { clear. induction shards as [|[n s] shards IH]; cbn; [done|]. by rewrite fmap_app, IH. }
  unfold ScatterGatherSearch. rewrite Hg.
  assert (scored (sent done_)) as Hss.
  { apply Forall_forall. intros x Hx. rewrite Hsent in Hx. apply (scored_elem _ _ Hs). rewrite <- Hc.
    clear -Hb Hx. induction Hb as [|a o alls outs (r & Hr & _) _ IH]; cbn in *; [done|].
    apply elem_of_app in Hx as [Hx|Hx]; apply elem_of_app; [left; rewrite Hr; set_solver|by right; apply IH]. }
  destruct (gather_best k (sent done_)) as (h & out & Hga & Hex & Hbest); [lia|done|].
  rewrite Hk in Hga. rewrite Hga. cbn [mbind option_bind]. rewrite Hex. exists out. split; [done|].
  rewrite <- Hc. eapply best_parts; [lia|exact Hb|by rewrite Hc|].
  destruct Hbest as (rest & H1 & H2 & H3 & H4). exists rest. rewrite <- Hsent. done.
Qed.

(** A printer and a sorting function for examples. *)
#[local] Instance example_printer : Printer := λ v, match v with AString s => s | AInt z => pretty z | _ => "" end.
#[local] Instance example_sort : SliceSort := insertion.

Definition vec (a b : Z) : list float64 := [of_i64 a; of_i64 b].
Definition store_of (l : list (string * list float64)) : Store :=
  (λ p, {| id := p.1; vector := p.2; metadata := None |}) <$> l.
Definition sample_shards : list (string * Store) :=
  [("s1", store_of [("a", vec 1 0); ("b", vec 0 1); ("c", vec 1 1)]); ("s2", store_of [("d", vec 2 1); ("e", vec 1 2)])].

Lemma sharded_search_exact_witness :
  let q := vec 1 0 in
  let done_ := (λ p, (p.1, Found (Search q 2 p.2))) <$> reverse sample_shards in
  ∃ out, ScatterGatherSearch 2 None done_ = Some (inr out) ∧ ID <$> out = ["a"; "d"] ∧
    best 2 (result_of q <$> concat sample_shards.*2) out.
Proof.
  destruct (sharded_search_exact (vec 1 0) 2 sample_shards
    ((λ p, (p.1, Found (Search (vec 1 0) 2 p.2))) <$> reverse sample_shards)) as (out & Hout & Hb).
  - lia.
  - apply (bool_decide_unpack _). vm_compute. exact I.
  - apply fmap_Permutation, reverse_Permutation.
  - exists out. split_and!; [exact Hout| |exact Hb]. vm_compute in Hout. injection Hout as <-. reflexivity.
Defined.

(** With a limit of 0 a result comes back. *)
Theorem scatter_zero_limit :
  let r := {| ID := "a"; Score := of_i64 1; Metadata_ := None |} in
  ScatterGatherSearch 0 None [("s", Found [r])] = Some (inr [r]).
Proof. by vm_compute. Qed.

(** The panic of a shard's search is swallowed: the answer is that of the other shards,
    without an error. *)
Theorem scatter_swallows_panic limit done1 done2 shard :
  ScatterGatherSearch limit None (done1 ++ (shard, Panicked) :: done2) = ScatterGatherSearch limit None (done1 ++ done2).
Proof.
  unfold ScatterGatherSearch. assert (group (done1 ++ (shard, Panicked) :: done2) = group (done1 ++ done2)) as ->.
  { induction done1 as [|[n []] done1 IH]; cbn; [done|done|done|done]. }
  assert (sent (done1 ++ (shard, Panicked) :: done2) = sent (done1 ++ done2)) as ->; [|done].
  unfold sent. by rewrite !bind_app.
Qed.

(** The filter compares printed values, so that the string 1 matches the number 1. *)
Theorem filter_by_print : MatchFilter (Some {["size" := AString "1"]}) {["size" := AInt 1]} = true.
Proof. by vm_compute. Qed.
