(* ===== verification/StateMachine.v ===== *)
(** * Workflow definitions and their states
      (pkg/workflow/workflow.go, pkg/workflow/adapters/memory)

    The definitions a workflow is made of, and what the in-memory engine does in one state:
    task, wait, choice and parallel states.  A value of type [interface{}] is a [Value].
    What is outside the program (the context, the timers, the task handlers, the order in
    which goroutines get ready) is a type of worlds: every turn of a loop sees one world when
    it looks at the context and one after its state has run.  State types are ASCII. *)

From S2P Require Import Prelude GoStrings Errors Float64.
From stdpp Require Import options.
Open Scope Z_scope.

(** ** Data *)

(** The dynamic types the engine looks at; [VOther] is any other value. *)
Inductive Value :=
  | VNil
  | VBool (b : bool)
  | VInt (z : Z)
  | VInt64 (z : Z)
  | VFloat64 (f : float64)
  | VString (s : string)
  | VMap (m : list (string * Value))
  | VSlice (l : list Value)
  | VOther (tag : nat).

(* src: pkg/workflow/workflow.go 116-123 ChoiceRule *)
Record ChoiceRule := {
  Variable_ : string; StringEquals : string; NumericEquals : option float64;
  BooleanEquals : option bool; IsPresent : option bool; rule_Next : string;
}.

(* src: pkg/workflow/workflow.go 127-130 Branch *)
Record BranchOf (S : Type) := { br_StartAt : string; br_States : list S }.
Arguments br_StartAt {_} _.
Arguments br_States {_} _.

(** The fields [Retry] and [Catch] are not read by the engine. *)
(* src: pkg/workflow/workflow.go 75-111 State *)
Inductive State := MkState {
  Name : string; Type_ : string; Resource : string; Next : string; End_ : bool;
  TimeoutSeconds : Z; Seconds_ : Z; Choices : list ChoiceRule; Default : string;
  Branches : list (BranchOf State);
}.
Abbreviation Branch := (BranchOf State).

(** [states := make(map[string]workflow.State); for _, s := range ... { states[s.Name] = s }] *)
(* src: pkg/workflow/adapters/memory/memory.go 216-219 runExecution *)
Definition state_map (l : list State) : gmap string State :=
  foldl (λ m s, <[Name s := s]> m) ∅ l.

(** ** Contexts and handlers *)

Inductive ctx_error := CtxDeadlineExceeded | CtxCanceled.
Definition ctxError (c : ctx_error) : error :=
  match c with
  | CtxDeadlineExceeded => OtherError "context deadline exceeded"
  | CtxCanceled => OtherError "context canceled"
  end.

(** [ctx_Err]: [ctx.Err()]; [timer_fires d]: the timer of [d] nanoseconds is what the select
    sees; [arrival n]: the order in which the results of [n] branches come in. *)
Class World (W : Type) := {
  ctx_Err : W → option ctx_error;
  timer_fires : Z → W → bool;
  arrival : nat → W → list nat;
}.

(** A handler is given its extra timeout, if any, and acts in the world. *)
(* src: pkg/workflow/workflow.go 134-134 TaskHandler *)
Definition TaskHandler (W : Type) : Type := option Z → W → Value → Value * option error.

Section states.
  Context {W : Type} `{World W}.
  Implicit Types (st : State) (w : W).

(** ** Task, wait and choice *)

(* src: pkg/workflow/adapters/memory/memory.go 290-306 execTask *)
Definition execTask w st (handlers : gmap string (TaskHandler W)) (input : Value) : Value * option error :=
  match handlers !! Resource st with
  | None => (input, None)
  | Some h =>
      h (if decide (0 < TimeoutSeconds st) then Some (i64 (TimeoutSeconds st * 10 ^ 9)) else None) w input
  end.

(* src: pkg/workflow/adapters/memory/memory.go 308-321 execWait *)
Definition execWait w st : option error :=
  let sec := Seconds_ st in
  if decide (sec ≤ 0) then None
  else if timer_fires (i64 (sec * 10 ^ 9)) w then None
  else ctxError <$> ctx_Err w.

Fixpoint map_get (m : list (string * Value)) (k : string) : option Value :=
  match m with
  | [] => None
  | (k', v) :: m => if decide (k = k') then Some v else map_get m k
  end.

(* src: pkg/workflow/adapters/memory/memory.go 341-376 matchChoice *)
Definition matchChoice (rule : ChoiceRule) (input : Value) : bool :=
  match input with
  | VMap m =>
      let key := TrimPrefix (TrimPrefix (Variable_ rule) "$.") "." in
      let val := map_get m key in
      match IsPresent rule with
      | Some p => bool_decide (bool_decide (is_Some val) = p)
      | None =>
          match val with
          | None => false
          | Some val =>
              match BooleanEquals rule, NumericEquals rule with
              | Some b, _ => match val with VBool b' => bool_decide (b' = b) | _ => false end
              | None, Some f =>
                  match val with
                  | VFloat64 n => SFeqb n f
                  | VInt n | VInt64 n => SFeqb (of_i64 n) f
                  | _ => false
                  end
              | None, None =>
                  if decide (StringEquals rule = "") then false
                  else match val with VString s => bool_decide (s = StringEquals rule) | _ => false end
              end
          end
      end
  | _ => false
  end.

(** [inl]: the error; [inr]: the name of the next state. *)
(* src: pkg/workflow/adapters/memory/memory.go 323-339 execChoice *)
Definition execChoice st (input : Value) : error + string :=
  match list_find (λ rule, matchChoice rule input = true) (Choices st) with
  | Some (_, rule) =>
      if decide (rule_Next rule = "")
      then inl (InvalidArgument ("choice rule for " +:+ quote (Name st) +:+ " missing Next") None)
      else inr (rule_Next rule)
  | None =>
      if decide (Default st ≠ "") then inr (Default st)
      else if decide (Next st ≠ "") then inr (Next st)
      else inl (FailedPrecondition
                  ("no choice matched and no Default for state " +:+ quote (Name st)) None)
  end.

(** ** Parallel states *)

(** [for range st.Branches { r := <-ch; ... }] over the order in which results come in.
    [None]: a result that is still to come is waited for. *)
(* src: pkg/workflow/adapters/memory/memory.go 400-408 execParallel *)
Fixpoint collect (rs : list (option (Value * option error))) (order : list nat) (outs : list Value)
    : option (Value * option error) :=
  match order with
  | [] => Some (VSlice outs, None)
  | i :: order =>
      match rs !! i with
      | Some (Some (out, None)) => collect rs order (<[i := out]> outs)
      | Some (Some (_, Some e)) => Some (VNil, Some e)
      | _ => None
      end
  end.

(** [run i br] is what the goroutine of branch [i] sends. *)
(* src: pkg/workflow/adapters/memory/memory.go 378-409 execParallel *)
Definition execParallel w st (run : nat → Branch → option (Value * option error)) (input : Value)
    : option (Value * option error) :=
  match Branches st with
  | [] => Some (input, None)
  | brs => collect (imap run brs) (arrival (length brs) w) (replicate (length brs) VNil)
  end.

(** The beginning of [runBranch], before its loop. *)
(* src: pkg/workflow/adapters/memory/memory.go 411-430 runBranch *)
Definition runBranch (loop : gmap string State → Value → string → option (Value * option error))
    (parentStates : gmap string State) (input : Value) (br : Branch) : option (Value * option error) :=
  let states := match br_States br with [] => parentStates | l => state_map l end in
  if decide (br_StartAt br = "")
  then Some (input, Some (InvalidArgument "parallel branch missing StartAt" None))
  else loop states input (br_StartAt br).

(** The loop of [runBranch].  [env p] is the pair of worlds of a turn: [p] is the place of the
    branch followed by the number of the turn.  [None]: the loop is still running after
    [fuel] turns. *)
(* src: pkg/workflow/adapters/memory/memory.go 431-471 runBranch *)
Fixpoint branch_loop (fuel : nat) (env : list nat → W * W) (handlers : gmap string (TaskHandler W))
    (p : list nat) (n : nat) (states : gmap string State) (data : Value) (current : string)
    : option (Value * option error) :=
  match fuel with
  | O => None
  | S fuel =>
      let '(w0, w1) := env (p ++ [n]) in
      match ctx_Err w0 with
      | Some c => Some (VNil, Some (ctxError c))
      | None =>
          match states !! current with
          | None => Some (VNil, Some (NotFound ("unknown branch state " +:+ quote current) None))
          | Some st =>
              let next (data : Value) (err : option error) :=
                match err with
                | Some e => Some (VNil, Some e)
                | None =>
                    if End_ st || bool_decide (Next st = "") then Some (data, None)
                    else branch_loop fuel env handlers p (S n) states data (Next st)
                end in
              let ty := ToLower (Type_ st) in
              if decide (ty = "task" ∨ ty = "") then
                let '(data, err) := execTask w1 st handlers data in next data err
              else if decide (ty = "wait") then next data (execWait w1 st)
              else if decide (ty = "choice") then
                match execChoice st data with
                | inl e => Some (VNil, Some e)
                | inr choiceNext =>
                    if decide (choiceNext = "") then Some (data, None)
                    else branch_loop fuel env handlers p (S n) states data choiceNext
                end
              else if decide (ty = "succeed" ∨ ty = "pass") then next data None
              else if decide (ty = "fail") then
                Some (VNil, Some (Internal ("branch state " +:+ quote (Name st) +:+ " failed") None))
              else if decide (ty = "parallel") then
                match execParallel w1 st
                        (λ i br, runBranch (branch_loop fuel env handlers (p ++ [n; i]) 0) states data br) data with
                | None => None
                | Some (data, err) => next data err
                end
              else Some (VNil, Some (InvalidArgument
                     ("unsupported branch state type " +:+ quote (Type_ st)) None))
          end
      end
  end.

(** ** One state of an execution *)

(* src: pkg/workflow/workflow.go 17-26 ExecutionStatus *)
Inductive ExecutionStatus :=
  StatusPending | StatusRunning | StatusCompleted | StatusFailed | StatusCancelled | StatusTimedOut.

(* src: pkg/workflow/adapters/memory/memory.go 485-490 terminalFromCtx *)
Definition terminalFromCtx (c : ctx_error) : ExecutionStatus :=
  match c with CtxDeadlineExceeded => StatusTimedOut | CtxCanceled => StatusCancelled end.

(** What the loop of [runExecution] does after a state: [e.finish] or another turn. *)
Inductive Turn :=
  | Finish (status : ExecutionStatus) (output : Value) (err : option error)
  | Goto (data : Value) (current : string).

(** [None]: a branch of a parallel state is still running after [fuel] turns. *)
(* src: pkg/workflow/adapters/memory/memory.go 244-286 runExecution *)
Definition run_state (fuel : nat) (env : list nat → W * W) w (states : gmap string State)
    (handlers : gmap string (TaskHandler W)) st (data : Value) : option Turn :=
  let next (data : Value) (err : option error) :=
    match err with
    | Some e =>
        match ctx_Err w with
        | Some c => Finish (terminalFromCtx c) data (Some (ctxError c))
        | None => Finish StatusFailed data (Some e)
        end
    | None =>
        if End_ st || bool_decide (Next st = "") then Finish StatusCompleted data None
        else Goto data (Next st)
    end in
  let ty := ToLower (Type_ st) in
  if decide (ty = "task" ∨ ty = "") then
    let '(data, err) := execTask w st handlers data in Some (next data err)
  else if decide (ty = "wait") then Some (next data (execWait w st))
  else if decide (ty = "choice") then
    match execChoice st data with
    | inl e => Some (next data (Some e))
    | inr choiceNext =>
        if decide (choiceNext = "") then Some (Finish StatusCompleted data None)
        else Some (Goto data choiceNext)
    end
  else if decide (ty = "parallel") then
    match execParallel w st
            (λ i br, runBranch (branch_loop fuel env handlers [i] 0) states data br) data with
    | None => None
    | Some (data, err) => Some (next data err)
    end
  else if decide (ty = "succeed" ∨ ty = "pass") then Some (next data None)
  else if decide (ty = "fail") then
    Some (Finish StatusFailed data (Some (Internal ("state " +:+ quote (Name st) +:+ " failed") None)))
  else Some (Finish StatusFailed data
               (Some (InvalidArgument ("unsupported state type " +:+ quote (Type_ st)) None))).

(** ** Results of parallel states *)

(** Results come in some order, every one once. *)
Class WorldOk : Prop := arrival_perm n w : arrival n w ≡ₚ seq 0 n.

Lemma collect_all rs order outs vs :
  length outs = length vs → NoDup order →
  (∀ i, i ∈ order → ∃ v, vs !! i = Some v ∧ rs !! i = Some (Some (v, None))) →
  (∀ i, i ∉ order → outs !! i = vs !! i) →
  collect rs order outs = Some (VSlice vs, None).
Proof.
  revert outs. induction order as [|i order IH]; intros outs Hl Hnd Hin Hout; cbn.
  { do 3 f_equal. apply list_eq. intros i. apply Hout. set_solver. }
  apply NoDup_cons in Hnd as [Hi Hnd]. destruct (Hin i) as (v & Hv & ->); [set_solver|].
  apply IH; [by rewrite length_insert|done|set_solver|]. intros j Hj.
  destruct (decide (j = i)) as [->|Hne].
  - rewrite Hv. apply list_lookup_insert_eq. rewrite Hl. by eapply lookup_lt_Some.
  - rewrite list_lookup_insert_ne by done. apply Hout. set_solver.
Qed.

Lemma collect_error rs order outs r :
  collect rs order outs = Some r → r.2 = None ∨
  ∃ i v e, i ∈ order ∧ rs !! i = Some (Some (v, Some e)) ∧ r = (VNil, Some e).
Proof.
  revert outs. induction order as [|i order IH]; intros outs; cbn; [intros [= <-]; by left|].
  destruct (rs !! i) as [[[out [e|]]|]|] eqn:E; try done.
  - intros [= <-]. right. exists i, out, e. split_and!; [set_solver|done|done].
  - intros [|(j & v & e & Hj & Hrs)]%IH; [by left|]. right. exists j, v, e. split; [set_solver|done].
Qed.

Lemma collect_total rs order outs :
  (∀ i, i ∈ order → ∃ r, rs !! i = Some (Some r)) → is_Some (collect rs order outs).
Proof.
  revert outs. induction order as [|i order IH]; intros outs Hin; cbn; [done|].
  destruct (Hin i) as [[out [e|]] ->]; [set_solver|done|]. apply IH. set_solver.
Qed.

Lemma execParallel_eq w st run input : Branches st ≠ [] →
  execParallel w st run input =
    collect (imap run (Branches st)) (arrival (length (Branches st)) w) (replicate (length (Branches st)) VNil).
Proof. unfold execParallel. by destruct (Branches st). Qed.

(** When every branch succeeds the result is the slice of their results in the order of the
    branches, whatever the order in which they came in; an error is the error of a branch. *)
Theorem parallel_in_order `{!WorldOk} w st run input :
  Branches st ≠ [] →
  (∀ vs, length vs = length (Branches st) →
    (∀ i br, Branches st !! i = Some br → ∃ v, vs !! i = Some v ∧ run i br = Some (v, None)) →
    execParallel w st run input = Some (VSlice vs, None)) ∧
  (∀ v e, execParallel w st run input = Some (v, Some e) →
    ∃ i br v', Branches st !! i = Some br ∧ run i br = Some (v', Some e)).
Proof.
  intros Hne. rewrite execParallel_eq by done.
  set (brs := Branches st) in *. split.
  - intros vs Hl Hrun. apply collect_all.
    + by rewrite length_replicate.
    + rewrite arrival_perm. apply NoDup_seq.
    + intros i Hi. rewrite arrival_perm in Hi. apply elem_of_seq in Hi.
      destruct (lookup_lt_is_Some_2 brs i) as [br Hbr]; [lia|].
      destruct (Hrun i br Hbr) as (v & Hv & Hr). exists v. split; [done|].
      rewrite list_lookup_imap, Hbr. cbn. by rewrite Hr.
    + intros i Hi. rewrite arrival_perm, elem_of_seq in Hi.
      rewrite !lookup_ge_None_2; [done|lia|rewrite length_replicate; lia].
  - intros v e [Hr|(i & v' & e' & Hi & Hrs & Heq)]%collect_error; [done|]. simplify_eq.
    rewrite list_lookup_imap in Hrs. apply fmap_Some in Hrs as (br & Hbr & Hrs). eauto.
Qed.

(** ** Termination *)

(** The names a state can go to. *)
Definition successors st : list string :=
  filter (λ nm, nm ≠ "")
    (if decide (ToLower (Type_ st) = "choice")
     then (rule_Next <$> Choices st) ++ [Default st; Next st]
     else if End_ st then [] else [Next st]).

Definition branch_states (states : gmap string State) (br : Branch) : gmap string State :=
  match br_States br with [] => states | l => state_map l end.

(** Every path from [current] ends within [n] states, also through the branches. *)
Fixpoint ends_within (n : nat) (states : gmap string State) (current : string) : bool :=
  match n with
  | O => false
  | S n =>
      match states !! current with
      | None => true
      | Some st =>
          forallb (ends_within n states) (successors st) &&
          forallb (λ br, bool_decide (br_StartAt br = "") ||
                         ends_within n (branch_states states br) (br_StartAt br)) (Branches st)
      end
  end.

Lemma execChoice_successor st input nm :
  ToLower (Type_ st) = "choice" → execChoice st input = inr nm → nm ∈ successors st ∧ nm ≠ "".
Proof.
  unfold successors. intros ->. rewrite decide_True by done. unfold execChoice.
  destruct (list_find _ _) as [[i rule]|] eqn:E; intros Hc.
  - case_decide; simplify_eq. split; [|done]. apply list_elem_of_filter. split; [done|].
    apply elem_of_app. left. apply list_elem_of_fmap. exists rule. split; [done|].
    apply list_find_Some in E as (E & _). by eapply list_elem_of_lookup_2.
  - repeat case_decide; simplify_eq; (split; [|done]); apply list_elem_of_filter; (split; [done|]); set_solver.
Qed.

Lemma next_successor st :
  ToLower (Type_ st) ≠ "choice" → End_ st || bool_decide (Next st = "") = false → Next st ∈ successors st.
Proof.
  intros Hty [He Hn%bool_decide_eq_false]%orb_false_iff. unfold successors.
  rewrite decide_False, He by done. apply list_elem_of_filter. split; [done|]. set_solver.
Qed.

Lemma forallb_elem {A} (f : A → bool) l x : forallb f l = true → x ∈ l → f x = true.
Proof. intros Hf Hx. rewrite forallb_forall in Hf. apply Hf. by apply list_elem_of_In. Qed.

Lemma ends_next n states current st nm :
  ends_within (S n) states current = true → states !! current = Some st → nm ∈ successors st →
  ends_within n states nm = true.
Proof.
  cbn. intros He Hst Hin. rewrite Hst in He. apply andb_true_iff in He as [He _]. by eapply forallb_elem.
Qed.

Lemma execParallel_total `{!WorldOk} w st run input :
  (∀ i br, br ∈ Branches st → is_Some (run i br)) → is_Some (execParallel w st run input).
Proof.
  intros Hrun. destruct (decide (Branches st = [])) as [E|E]; [unfold execParallel; by rewrite E|].
  rewrite execParallel_eq by done.
  apply collect_total. intros i Hi. rewrite arrival_perm in Hi. apply elem_of_seq in Hi.
  destruct (lookup_lt_is_Some_2 (Branches st) i) as [br Hbr]; [lia|].
  destruct (Hrun i br) as [r Hr]; [by eapply list_elem_of_lookup_2|].
  exists r. rewrite list_lookup_imap, Hbr. cbn. by rewrite Hr.
Qed.

Lemma execParallel_some `{!WorldOk} w st run input :
  (∀ i br, br ∈ Branches st → is_Some (run i br)) → ∃ d e, execParallel w st run input = Some (d, e).
Proof. intros Hrun. destruct (execParallel_total w st run input Hrun) as [[d e] ->]. eauto. Qed.

Lemma ends_branch n states current st br :
  ends_within (S n) states current = true → states !! current = Some st → br ∈ Branches st →
  br_StartAt br ≠ "" → ends_within n (branch_states states br) (br_StartAt br) = true.
Proof.
  cbn. intros He Hst Hbr Hs. rewrite Hst in He. apply andb_true_iff in He as [_ He].
  pose proof (forallb_elem _ _ _ He Hbr) as Hb. cbn in Hb. by rewrite bool_decide_false in Hb.
Qed.

Local Ltac not_choice := intros Heq; rewrite Heq in *; naive_solver.
Local Ltac split_decide :=
  match goal with |- context [decide ?P] => let Hd := fresh "Hd" in destruct (decide P) as [Hd|Hd] end.

Lemma branch_loop_total `{!WorldOk} n fuel env handlers p k states data current :
  ends_within n states current = true → (n ≤ fuel)%nat →
  is_Some (branch_loop fuel env handlers p k states data current).
Proof.
  revert fuel p k states data current. induction n as [|n IH]; intros fuel p k states data current He Hf; [done|].
  destruct fuel as [|fuel]; [lia|]. cbn [branch_loop]. destruct (env (p ++ [k])) as [w0 w1].
  destruct (ctx_Err w0); [done|]. destruct (states !! current) as [st|] eqn:Hst; [|done].
  assert (∀ d err, ToLower (Type_ st) ≠ "choice" → is_Some (match err with
    | Some e => Some (VNil, Some e)
    | None => if End_ st || bool_decide (Next st = "") then Some (d, None)
              else branch_loop fuel env handlers p (S k) states d (Next st) end)) as Hnext.
  { intros d [e|] Hty; [done|]. destruct (_ || _) eqn:Eo; [done|]. apply IH; [|lia].
    eapply ends_next; [done|done|]. by apply next_successor. }
  match goal with |- context [execParallel w1 st ?run data] =>
    assert (∃ d e, execParallel w1 st run data = Some (d, e)) as (dp & ep & Hpar) end.
  { apply execParallel_some. intros i br Hbr. unfold runBranch.
    split_decide; [done|]. apply IH; [by eapply ends_branch|lia]. }
  rewrite Hpar. destruct (execTask w1 st handlers data) as [dt et].
  repeat split_decide; try done; try (by apply Hnext; not_choice).
  - destruct (execChoice st data) as [ec|nm] eqn:Ec; [done|]. split_decide; [done|]. apply IH; [|lia].
    eapply ends_next; [done|done|]. by eapply execChoice_successor.
  - apply (Hnext _ None). not_choice.
Qed.

(** An execution only goes on to a successor. *)
Lemma run_state_successor fuel env w states handlers st data d c :
  run_state fuel env w states handlers st data = Some (Goto d c) → c ∈ successors st.
Proof.
  unfold run_state. intros Hr.
  assert (∀ d' err, ToLower (Type_ st) ≠ "choice" → Some (match err with
    | Some e => match ctx_Err w with
                | Some c => Finish (terminalFromCtx c) d' (Some (ctxError c))
                | None => Finish StatusFailed d' (Some e) end
    | None => if End_ st || bool_decide (Next st = "") then Finish StatusCompleted d' None
              else Goto d' (Next st) end) = Some (Goto d c) → c ∈ successors st) as Hnext.
  { intros d' [e|] Hty; [by destruct (ctx_Err w)|]. destruct (_ || _) eqn:Eo; [done|].
    intros [= _ <-]. by apply next_successor. }
  destruct (execTask w st handlers data) as [dt et].
  repeat match type of Hr with
  | (if decide ?P then _ else _) = _ => let Hd := fresh "Hd" in destruct (decide P) as [Hd|Hd]
  end; try (by eapply Hnext; [not_choice|exact Hr]); try done.
  - destruct (execChoice st data) as [e|nm] eqn:Ec; [by destruct (ctx_Err w)|].
    destruct (decide (nm = "")); simplify_eq. by eapply execChoice_successor.
  - destruct (execParallel _ _ _ _) as [[dp ep]|]; [|done]. eapply Hnext; [not_choice|exact Hr].
  - eapply (Hnext _ None); [not_choice|exact Hr].
Qed.

(** A state of a definition that ends within [S n] states has a result, and goes on to one that
    ends within [n]. *)
Lemma run_state_total `{!WorldOk} n fuel env w states handlers current st data :
  states !! current = Some st → ends_within (S n) states current = true → (n ≤ fuel)%nat →
  ∃ t, run_state fuel env w states handlers st data = Some t ∧
    ∀ d c, t = Goto d c → ends_within n states c = true.
Proof.
  intros Hst He Hf. unfold run_state.
  assert (∀ d err, ToLower (Type_ st) ≠ "choice" → ∃ t, Some (match err with
    | Some e => match ctx_Err w with
                | Some c => Finish (terminalFromCtx c) d (Some (ctxError c))
                | None => Finish StatusFailed d (Some e) end
    | None => if End_ st || bool_decide (Next st = "") then Finish StatusCompleted d None
              else Goto d (Next st) end) = Some t ∧ ∀ d c, t = Goto d c → ends_within n states c = true) as Hnext.
  { intros d err Hty. eexists. split; [done|]. intros d' c. destruct err; [by destruct (ctx_Err w)|].
    destruct (_ || _) eqn:Eo; [done|]. intros [= _ <-]. eapply ends_next; [done|done|]. by apply next_successor. }
  match goal with |- context [execParallel w st ?run data] =>
    assert (∃ d e, execParallel w st run data = Some (d, e)) as (dp & ep & Hpar) end.
  { apply execParallel_some. intros i br Hbr. unfold runBranch.
    split_decide; [done|]. eapply branch_loop_total; [by eapply ends_branch|lia]. }
  rewrite Hpar. destruct (execTask w st handlers data) as [dt et].
  repeat split_decide; try (by eexists; split; [done|]); try (by apply Hnext; not_choice).
  - destruct (execChoice st data) as [ec|nm] eqn:Ec.
    + eexists. split; [done|]. by destruct (ctx_Err w).
    + split_decide; eexists; (split; [done|]); [done|]. intros d c [= _ <-].
      eapply ends_next; [done|done|]. by eapply execChoice_successor.
  - apply (Hnext _ None). not_choice.
Qed.
End states.
