(* ===== verification/Workflow.v ===== *)
(** * pkg/workflow/adapters/memory: the in-memory workflow engine

    The engine's methods are the stretches of code under its lock.  The goroutine of an
    execution is a [Runner]: [runner_step] is the stretch up to its next lock or wait, so
    that a turn of its loop is two steps, between which anything else can happen.  A run of
    the system is any list of events.  An execution is found by its identifier, which is
    never given to another one; a channel is a location with the value it buffers. *)

From S2P Require Import Prelude GoStrings Errors StateMachine Lru.
From stdpp Require Import pretty.
From stdpp Require Import options.
Open Scope Z_scope.

(* src: pkg/workflow/workflow.go 51-72 WorkflowDefinition *)
Record WorkflowDefinition := {
  def_ID : string; def_Name : string; Version : string; States : list State; StartAt : string;
  def_TimeoutSeconds : Z; CreatedAt : Z;
}.

(* src: pkg/workflow/workflow.go 164-191 Execution *)
Record Execution := {
  ID : string; WorkflowID : string; Status : ExecutionStatus; Input : Value; Output : Value;
  ErrorText : string; CurrentState : string; StartedAt : Z; CompletedAt : Z;
}.

(* src: pkg/workflow/workflow.go 194-209 StartOptions *)
Record StartOptions := {
  opt_WorkflowID : string; opt_ExecutionID : string; opt_Input : Value; opt_Timeout : Z;
  IdempotencyKey : string;
}.

(* src: pkg/workflow/workflow.go 212-224 ListOptions *)
Record ListOptions := {
  list_WorkflowID : string; list_Status : option ExecutionStatus; Limit : Z;
}.

(* src: pkg/workflow/errors.go 7-11 ErrWorkflowNotFound *)
Definition ErrWorkflowNotFound := NotFound "workflow not found" None.
Definition ErrExecutionNotFound := NotFound "execution not found" None.
(* src: pkg/workflow/errors.go 13-26 ErrExecutionAlreadyExists *)
Definition ErrExecutionAlreadyExists := Conflict "execution already exists" None.
Definition ErrExecutionNotRunning := Conflict "execution is not running" None.
Definition ErrExecutionTimeout := Internal "execution timed out" None.

#[global] Instance ExecutionStatus_eq_dec : EqDecision ExecutionStatus.
Proof. solve_decision. Defined.

(** Neither running nor pending. *)
Definition settled (x : Execution) : Prop := Status x ≠ StatusRunning ∧ Status x ≠ StatusPending.
#[global] Instance settled_dec x : Decision (settled x).
Proof. unfold settled. apply _. Defined.

Section engine.
  Context {W : Type} `{World W}.

(** [chans] holds what the channels made by [Wait] buffer. *)
(* src: pkg/workflow/adapters/memory/memory.go 30-42 Engine *)
Record Engine := {
  workflows : gmap string WorkflowDefinition;
  defCache : @Lru.Cache string WorkflowDefinition _ _;
  executions : gmap string Execution;
  signals : gmap string (gmap string Value);
  waiters : gmap string (list nat);
  handlers : gmap string (TaskHandler W);
  idempo : gmap string string;
  DefaultTimeout : Z;
  workDuration : Z;
  chans : gmap nat (option Execution);
}.

(* src: pkg/workflow/adapters/memory/memory.go 57-70 newEngine *)
Definition newEngine (defaultTimeout : Z) : Engine :=
  {| workflows := ∅; defCache := Lru.New 128; executions := ∅; signals := ∅; waiters := ∅;
     handlers := ∅; idempo := ∅; DefaultTimeout := defaultTimeout;
     workDuration := 100 * 10 ^ 6; chans := ∅ |}.

(* src: pkg/workflow/adapters/memory/memory.go 50-55 NewWithConfig *)
Definition NewWithConfig (defaultTimeout : Z) : Engine :=
  newEngine (if decide (defaultTimeout ≤ 0) then 3600 * 10 ^ 9 else defaultTimeout).

(** Assignments to the fields. *)
Definition set_executions (m : gmap string Execution) (e : Engine) : Engine :=
  {| workflows := workflows e; defCache := defCache e; executions := m; signals := signals e;
     waiters := waiters e; handlers := handlers e; idempo := idempo e;
     DefaultTimeout := DefaultTimeout e; workDuration := workDuration e; chans := chans e |}.
Definition set_waiters (m : gmap string (list nat)) (ch : gmap nat (option Execution)) (e : Engine) : Engine :=
  {| workflows := workflows e; defCache := defCache e; executions := executions e;
     signals := signals e; waiters := m; handlers := handlers e; idempo := idempo e;
     DefaultTimeout := DefaultTimeout e; workDuration := workDuration e; chans := ch |}.
Definition set_signals (m : gmap string (gmap string Value)) (e : Engine) : Engine :=
  {| workflows := workflows e; defCache := defCache e; executions := executions e; signals := m;
     waiters := waiters e; handlers := handlers e; idempo := idempo e;
     DefaultTimeout := DefaultTimeout e; workDuration := workDuration e; chans := chans e |}.
Definition set_idempo (m : gmap string string) (e : Engine) : Engine :=
  {| workflows := workflows e; defCache := defCache e; executions := executions e;
     signals := signals e; waiters := waiters e; handlers := handlers e; idempo := m;
     DefaultTimeout := DefaultTimeout e; workDuration := workDuration e; chans := chans e |}.
Definition set_defs (m : gmap string WorkflowDefinition) (c : @Lru.Cache string WorkflowDefinition _ _)
    (e : Engine) : Engine :=
  {| workflows := m; defCache := c; executions := executions e; signals := signals e;
     waiters := waiters e; handlers := handlers e; idempo := idempo e;
     DefaultTimeout := DefaultTimeout e; workDuration := workDuration e; chans := chans e |}.

(** A nil handler is as if there was none: the entry is removed. *)
(* src: pkg/workflow/adapters/memory/memory.go 74-78 RegisterTaskHandler *)
Definition RegisterTaskHandler (resource : string) (h : option (TaskHandler W)) (e : Engine) : Engine :=
  {| workflows := workflows e; defCache := defCache e; executions := executions e;
     signals := signals e; waiters := waiters e;
     handlers := partial_alter (λ _, h) resource (handlers e); idempo := idempo e;
     DefaultTimeout := DefaultTimeout e; workDuration := workDuration e; chans := chans e |}.

(* src: pkg/workflow/adapters/memory/memory.go 81-85 SetWorkDuration *)
Definition SetWorkDuration (d : Z) (e : Engine) : Engine :=
  {| workflows := workflows e; defCache := defCache e; executions := executions e;
     signals := signals e; waiters := waiters e; handlers := handlers e; idempo := idempo e;
     DefaultTimeout := DefaultTimeout e; workDuration := d; chans := chans e |}.

(** [ch <- copyExecution(exec)] unless the channel is full. *)
(* src: pkg/workflow/adapters/memory/memory.go 89-92 notifyWaitersLocked *)
Definition offer (x : Execution) (ch : gmap nat (option Execution)) (c : nat) : gmap nat (option Execution) :=
  match ch !! c with Some None => <[c := Some x]> ch | _ => ch end.

(* src: pkg/workflow/adapters/memory/memory.go 87-95 notifyWaitersLocked *)
Definition notifyWaitersLocked (x : Execution) (e : Engine) : Engine :=
  set_waiters (delete (ID x) (waiters e))
    (foldl (offer x) (chans e) (default [] (waiters e !! ID x))) e.

(** ** Definitions *)

(* src: pkg/workflow/adapters/memory/memory.go 97-109 RegisterWorkflow *)
Definition RegisterWorkflow (def : WorkflowDefinition) (uuid : string) (now : Z) (e : Engine) : Engine :=
  let def := {| def_ID := if decide (def_ID def = "") then uuid else def_ID def;
                def_Name := def_Name def; Version := Version def; States := States def;
                StartAt := StartAt def; def_TimeoutSeconds := def_TimeoutSeconds def;
                CreatedAt := now |} in
  set_defs (<[def_ID def := def]> (workflows e)) (Lru.Set_ (def_ID def) def (defCache e)) e.

(** [GetWorkflow] looks into the cache, which has a lock of its own, then reads the map under
    the engine's, and stores what it read in the cache after it has given the lock back. *)
(* src: pkg/workflow/adapters/memory/memory.go 112-115 GetWorkflow *)
Definition GetWorkflow_cached (workflowID : string) (e : Engine) : option WorkflowDefinition * Engine :=
  let '(r, c) := Lru.Get workflowID (defCache e) in (r, set_defs (workflows e) c e).
(* src: pkg/workflow/adapters/memory/memory.go 117-122 GetWorkflow *)
Definition GetWorkflow_load (workflowID : string) (e : Engine) : error + WorkflowDefinition :=
  match workflows e !! workflowID with Some wf => inr wf | None => inl ErrWorkflowNotFound end.
(* src: pkg/workflow/adapters/memory/memory.go 124-126 GetWorkflow *)
Definition GetWorkflow_store (workflowID : string) (cp : WorkflowDefinition) (e : Engine) : Engine :=
  set_defs (workflows e) (Lru.Set_ workflowID cp (defCache e)) e.

(* src: pkg/workflow/adapters/memory/memory.go 111-127 GetWorkflow *)
Definition GetWorkflow (workflowID : string) (e : Engine) : (error + WorkflowDefinition) * Engine :=
  match GetWorkflow_cached workflowID e with
  | (Some cp, e) => (inr cp, e)
  | (None, e) =>
      match GetWorkflow_load workflowID e with
      | inl err => (inl err, e)
      | inr cp => (inr cp, GetWorkflow_store workflowID cp e)
      end
  end.

(** ** Starting an execution *)

(** The goroutine of an execution: at the head of its loop, in a state, or waiting in
    [simulatePassThrough]. *)
Inductive Phase :=
  | AtHead (data : Value) (current : string)
  | Entered (data : Value) (current : string)
  | PassThrough (work : Z).
Record Runner := {
  r_states : gmap string State; r_handlers : gmap string (TaskHandler W); r_timeout : Z; r_phase : Phase;
}.

(* src: pkg/workflow/adapters/memory/memory.go 171-180 Start *)
Definition effective_timeout (wf : WorkflowDefinition) (opts : StartOptions) (e : Engine) : Z :=
  let timeout := if decide (opt_Timeout opts ≤ 0) then DefaultTimeout e else opt_Timeout opts in
  if decide (0 < def_TimeoutSeconds wf) then
    let wfTimeout := i64 (def_TimeoutSeconds wf * 10 ^ 9) in
    if decide (timeout ≤ 0 ∨ wfTimeout < timeout) then wfTimeout else timeout
  else timeout.

(** [runExecution] up to its loop.  Its context ends after [r_timeout], if that is positive,
    and with the caller's otherwise. *)
(* src: pkg/workflow/adapters/memory/memory.go 195-222 runExecution *)
Definition runExecution (input : Value) (def : WorkflowDefinition) (hs : gmap string (TaskHandler W))
    (timeout work : Z) : Runner :=
  {| r_states := state_map (States def); r_handlers := hs; r_timeout := timeout;
     r_phase := if decide (StartAt def = "" ∨ length (States def) = 0%nat)
                then PassThrough (if decide (work ≤ 0) then 100 * 10 ^ 6 else work)
                else AtHead input (StartAt def) |}.

(** The last component is the new goroutine. *)
(* src: pkg/workflow/adapters/memory/memory.go 129-193 Start *)
Definition Start (opts : StartOptions) (uuid : string) (now : Z) (e : Engine)
    : (error + Execution) * Engine * option (string * Runner) :=
  match workflows e !! opt_WorkflowID opts with
  | None => (inl ErrWorkflowNotFound, e, None)
  | Some wf =>
      let hit := if decide (IdempotencyKey opts ≠ "")
                 then idempo e !! IdempotencyKey opts ≫= λ existingID, executions e !! existingID
                 else None in
      match hit with
      | Some exec => (inr exec, e, None)
      | None =>
          let execID := if decide (opt_ExecutionID opts = "") then uuid else opt_ExecutionID opts in
          match executions e !! execID with
          | Some _ => (inl ErrExecutionAlreadyExists, e, None)
          | None =>
              let exec := {| ID := execID; WorkflowID := opt_WorkflowID opts; Status := StatusRunning;
                             Input := opt_Input opts; Output := VNil; ErrorText := "";
                             CurrentState := StartAt wf; StartedAt := now; CompletedAt := zero_time |} in
              let e := set_executions (<[execID := exec]> (executions e)) e in
              let e := set_signals (<[execID := ∅]> (signals e)) e in
              let e := if decide (IdempotencyKey opts ≠ "")
                       then set_idempo (<[IdempotencyKey opts := execID]> (idempo e)) e else e in
              (inr exec, e, Some (execID, runExecution (opt_Input opts) wf (handlers e)
                                            (effective_timeout wf opts e) (workDuration e)))
          end
      end
  end.

(** ** Running and settling *)

Definition with_state (s : string) (x : Execution) : Execution :=
  {| ID := ID x; WorkflowID := WorkflowID x; Status := Status x; Input := Input x; Output := Output x;
     ErrorText := ErrorText x; CurrentState := s; StartedAt := StartedAt x; CompletedAt := CompletedAt x |}.

(** The fields [finish] assigns. *)
(* src: pkg/workflow/adapters/memory/memory.go 498-513 finish *)
Definition finished (status : ExecutionStatus) (output : Value) (err : option error) (now : Z)
    (x : Execution) : Execution :=
  {| ID := ID x; WorkflowID := WorkflowID x; Status := status; Input := Input x;
     Output := match output with
               | VNil => if decide (status = StatusCompleted) then Input x else Output x
               | _ => output
               end;
     ErrorText := match err with
                  | None => ErrorText x
                  | Some er => if decide (status = StatusTimedOut) then Error ErrExecutionTimeout
                               else if decide (status = StatusCancelled) then ErrorText x else Error er
                  end;
     CurrentState := CurrentState x; StartedAt := StartedAt x; CompletedAt := now |}.

(* src: pkg/workflow/adapters/memory/memory.go 492-515 finish *)
Definition finish (id : string) (status : ExecutionStatus) (output : Value) (err : option error)
    (now : Z) (e : Engine) : Engine :=
  match executions e !! id with
  | None => e
  | Some x =>
      if decide (settled x) then e
      else let x := finished status output err now x in
           notifyWaitersLocked x (set_executions (<[id := x]> (executions e)) e)
  end.

(** The next stretch of the goroutine of [id]: [None] when it returns, and the same phase when
    it has to go on waiting (for [fuel] turns of the branches of a parallel state). *)
(* src: pkg/workflow/adapters/memory/memory.go 224-288 runExecution *)
Definition runner_step (fuel : nat) (env : list nat → W * W) (w : W) (now : Z) (id : string)
    (r : Runner) (e : Engine) : option Phase * Engine :=
  match r_phase r with
  | PassThrough work =>
      if timer_fires work w
      then (None, finish id StatusCompleted (default VNil (Input <$> executions e !! id)) None now e)
      else match ctx_Err w with
           | Some c => (None, finish id (terminalFromCtx c) VNil (Some (ctxError c)) now e)
           | None => (Some (PassThrough work), e)
           end
  | AtHead data current =>
      match ctx_Err w with
      | Some c => (None, finish id (terminalFromCtx c) VNil (Some (ctxError c)) now e)
      | None =>
          match executions e !! id with
          | None => (None, e)
          | Some x =>
              if decide (Status x ≠ StatusRunning) then (None, e)
              else (Some (Entered data current),
                    set_executions (<[id := with_state current x]> (executions e)) e)
          end
      end
  | Entered data current =>
      match r_states r !! current with
      | None =>
          (None, finish id StatusFailed VNil
                   (Some (NotFound ("unknown state " +:+ quote current) None)) now e)
      | Some st =>
          match run_state fuel env w (r_states r) (r_handlers r) st data with
          | None => (Some (Entered data current), e)
          | Some (Finish status output err) => (None, finish id status output err now e)
          | Some (Goto data current) => (Some (AtHead data current), e)
          end
      end
  end.

(** ** The other methods *)

(* src: pkg/workflow/adapters/memory/memory.go 517-527 GetExecution *)
Definition GetExecution (id : string) (e : Engine) : error + Execution :=
  match executions e !! id with Some x => inr x | None => inl ErrExecutionNotFound end.

(** [order] lists the executions as the loop over the map meets them; the result is the page and
    whether there is more. *)
(* src: pkg/workflow/adapters/memory/memory.go 529-553 ListExecutions *)
Definition ListExecutions (order : list Execution) (opts : ListOptions) : list Execution * string :=
  let l := filter (λ x, (list_WorkflowID opts = "" ∨ WorkflowID x = list_WorkflowID opts) ∧
                        (list_Status opts = None ∨ list_Status opts = Some (Status x))) order in
  if decide (0 < Limit opts ∧ Limit opts < Z.of_nat (length l))
  then (take (Z.to_nat (Limit opts)) l, "more") else (l, "").

(* src: pkg/workflow/adapters/memory/memory.go 555-573 Cancel *)
Definition Cancel (id : string) (now : Z) (e : Engine) : option error * Engine :=
  match executions e !! id with
  | None => (Some ErrExecutionNotFound, e)
  | Some x =>
      if decide (Status x ≠ StatusRunning) then (Some ErrExecutionNotRunning, e)
      else let x := {| ID := ID x; WorkflowID := WorkflowID x; Status := StatusCancelled;
                       Input := Input x; Output := Output x; ErrorText := ErrorText x;
                       CurrentState := CurrentState x; StartedAt := StartedAt x; CompletedAt := now |} in
           (None, notifyWaitersLocked x (set_executions (<[id := x]> (executions e)) e))
  end.

(** [None]: an assignment to an entry of a nil map. *)
(* src: pkg/workflow/adapters/memory/memory.go 575-590 Signal *)
Definition Signal (id name : string) (data : Value) (e : Engine) : option (option error * Engine) :=
  match executions e !! id with
  | None => Some (Some ErrExecutionNotFound, e)
  | Some x =>
      if decide (Status x ≠ StatusRunning) then Some (Some ErrExecutionNotRunning, e)
      else m ← signals e !! id; Some (None, set_signals (<[id := <[name := data]> m]> (signals e)) e)
  end.

(** [Wait] up to its select: the answer, or the new channel [ch] on which it waits. *)
(* src: pkg/workflow/adapters/memory/memory.go 592-607 Wait *)
Definition Wait_enter (id : string) (ch : nat) (e : Engine) : (error + Execution + nat) * Engine :=
  match executions e !! id with
  | None => (inl (inl ErrExecutionNotFound), e)
  | Some x =>
      if decide (settled x) then (inl (inr x), e)
      else (inr ch, set_waiters (<[id := default [] (waiters e !! id) ++ [ch]]> (waiters e))
                                (<[ch := None]> (chans e)) e)
  end.

(** The select when a result has come in. *)
(* src: pkg/workflow/adapters/memory/memory.go 609-611 Wait *)
Definition Wait_receive (ch : nat) (e : Engine) : option Execution := chans e !! ch ≫= id.

(** ** The system *)

(** [owners] records for which execution a channel was made. *)
Record Sys := { eng : Engine; runners : gmap string Runner; owners : gmap nat string }.

Definition init (defaultTimeout : Z) : Sys :=
  {| eng := NewWithConfig defaultTimeout; runners := ∅; owners := ∅ |}.

Inductive event :=
  | ERegister (def : WorkflowDefinition) (uuid : string) (now : Z)
  | EHandler (resource : string) (h : option (TaskHandler W))
  | EWork (d : Z)
  | EGet (id : string)
  | EGetStore (id : string) (cp : WorkflowDefinition)
  | EStart (opts : StartOptions) (uuid : string) (now : Z)
  | ERun (id : string) (fuel : nat) (env : list nat → W * W) (w : W) (now : Z)
  | ECancel (id : string) (now : Z)
  | ESignal (id name : string) (data : Value)
  | EWait (id : string) (ch : nat).

Definition upd_eng (f : Engine → Engine) (s : Sys) : Sys :=
  {| eng := f (eng s); runners := runners s; owners := owners s |}.

(** A channel is made at a fresh location. *)
Definition step (s : Sys) (ev : event) : Sys :=
  match ev with
  | ERegister def uuid now => upd_eng (RegisterWorkflow def uuid now) s
  | EHandler resource h => upd_eng (RegisterTaskHandler resource h) s
  | EWork d => upd_eng (SetWorkDuration d) s
  | EGet id => upd_eng (λ e, (GetWorkflow id e).2) s
  | EGetStore id cp => upd_eng (GetWorkflow_store id cp) s
  | EStart opts uuid now =>
      let '(_, e, new) := Start opts uuid now (eng s) in
      {| eng := e; owners := owners s;
         runners := match new with Some (id, r) => <[id := r]> (runners s) | None => runners s end |}
  | ERun id fuel env w now =>
      match runners s !! id with
      | None => s
      | Some r =>
          let '(ph, e) := runner_step fuel env w now id r (eng s) in
          {| eng := e; owners := owners s;
             runners := match ph with
                        | Some ph => <[id := {| r_states := r_states r; r_handlers := r_handlers r;
                                                r_timeout := r_timeout r; r_phase := ph |}]> (runners s)
                        | None => delete id (runners s)
                        end |}
      end
  | ECancel id now => upd_eng (λ e, (Cancel id now e).2) s
  | ESignal id name data => upd_eng (λ e, default e (snd <$> Signal id name data e)) s
  | EWait id ch =>
      match chans (eng s) !! ch with
      | Some _ => s
      | None =>
          match Wait_enter id ch (eng s) with
          | (inr _, e) => {| eng := e; runners := runners s; owners := <[ch := id]> (owners s) |}
          | (_, e) => {| eng := e; runners := runners s; owners := owners s |}
          end
      end
  end.

Definition run (evs : list event) (s : Sys) : Sys := foldl step s evs.

(** ** The invariant *)

(** What a waiter of [id] on [ch] can count on. *)
Definition waiter_ok (e : Engine) (ch : nat) (id : string) : Prop :=
  ∃ x, executions e !! id = Some x ∧
    ((Status x = StatusRunning ∧ chans e !! ch = Some None ∧ ch ∈ default [] (waiters e !! id)) ∨
     (settled x ∧ chans e !! ch = Some (Some x))).

Record inv (s : Sys) : Prop := {
  inv_exec id x : executions (eng s) !! id = Some x → ID x = id ∧
    (settled x ∧ waiters (eng s) !! id = None ∨ Status x = StatusRunning ∧ is_Some (runners s !! id));
  inv_owner ch id : owners s !! ch = Some id → waiter_ok (eng s) ch id;
  inv_waiters id ch : ch ∈ default [] (waiters (eng s) !! id) → owners s !! ch = Some id;
  inv_chan ch : is_Some (chans (eng s) !! ch) → is_Some (owners s !! ch);
  inv_sig id : is_Some (executions (eng s) !! id) → is_Some (signals (eng s) !! id);
  inv_idem k id : idempo (eng s) !! k = Some id → is_Some (executions (eng s) !! id);
  inv_runner id : is_Some (runners s !! id) → is_Some (executions (eng s) !! id);
}.

(** [s'] continues [s]: settled executions are as they were, the others keep what identifies
    them, and no idempotency key is given to another execution. *)
Record extends (e e' : Engine) : Prop := {
  ext_exec id x : executions e !! id = Some x → ∃ x', executions e' !! id = Some x' ∧
    WorkflowID x' = WorkflowID x ∧ Input x' = Input x ∧ StartedAt x' = StartedAt x ∧
    (settled x → x' = x);
  ext_idem k id : idempo e !! k = Some id → idempo e' !! k = Some id;
  ext_flows id : is_Some (workflows e !! id) → is_Some (workflows e' !! id);
}.

#[global] Instance extends_preorder : PreOrder extends.
Proof.
  split.
  - intros e. split; [|done|done]. intros id x Hx. by exists x.
  - intros e1 e2 e3 [X1 I1 F1] [X2 I2 F2]. split; [|naive_solver|naive_solver].
    intros id x (x2 & Hx2 & Hw2 & Hi2 & Ht2 & Hs2)%X1.
    destruct (X2 id x2 Hx2) as (x3 & Hx3 & Hw3 & Hi3 & Ht3 & Hs3).
    exists x3. split_and!; [done|congruence|congruence|congruence|].
    intros Hx. specialize (Hs2 Hx) as ->. auto.
Qed.

(** Steps that leave the executions, the waiters and the indices alone. *)
Definition same_core (e e' : Engine) : Prop :=
  executions e' = executions e ∧ waiters e' = waiters e ∧ chans e' = chans e ∧
  idempo e' = idempo e ∧ (∀ id, is_Some (workflows e !! id) → is_Some (workflows e' !! id)) ∧
  (∀ id, is_Some (signals e !! id) → is_Some (signals e' !! id)).

Lemma same_core_ok e s rs : inv s → same_core (eng s) e → (∀ id, is_Some (runners s !! id) ↔ is_Some (rs !! id)) →
  inv {| eng := e; runners := rs; owners := owners s |} ∧ extends (eng s) e.
Proof.
  intros Hinv (He & Hw & Hc & Hi & Hf & Hsg) Hrs. split.
  - destruct Hinv as [IE IO IW IC IS II IR]. split; cbn; rewrite ?He, ?Hw, ?Hc, ?Hi; try done.
    + intros id x Hx. rewrite <- Hrs. by apply IE.
    + intros ch id Ho. unfold waiter_ok. rewrite He, Hw, Hc. by apply IO.
    + auto.
    + intros id. rewrite <- Hrs. apply IR.
  - split; rewrite ?He, ?Hi; [|done|done]. intros id x Hx. by exists x.
Qed.

Lemma offer_other x ch c c' : c' ≠ c → offer x ch c !! c' = ch !! c'.
Proof. intros Hne. unfold offer. destruct (ch !! c) as [[|]|]; [done| |done]. by rewrite lookup_insert_ne. Qed.

Lemma offer_all x l ch c :
  foldl (offer x) ch l !! c =
    match ch !! c with Some None => Some (if decide (c ∈ l) then Some x else None) | o => o end.
Proof.
  revert ch. induction l as [|c' l IH]; intros ch; cbn [foldl].
  { destruct (ch !! c) as [[|]|]; [done| |done]. rewrite decide_False; [done|set_solver]. }
  rewrite IH. destruct (decide (c = c')) as [->|Hne].
  - unfold offer. destruct (ch !! c') as [[v|]|] eqn:E; [by rewrite E| |by rewrite E].
    rewrite lookup_insert_eq, decide_True by set_solver. done.
  - rewrite offer_other by done. destruct (ch !! c) as [[|]|]; [done| |done].
    f_equal. apply decide_ext. set_solver.
Qed.

Lemma offer_dom x l ch c : is_Some (foldl (offer x) ch l !! c) ↔ is_Some (ch !! c).
Proof. rewrite offer_all. by destruct (ch !! c) as [[|]|]. Qed.

(** Settling a running execution wakes all its waiters up. *)
Lemma settle_ok s id x x' rs :
  inv s → executions (eng s) !! id = Some x → ¬ settled x → settled x' → ID x' = id →
  WorkflowID x' = WorkflowID x → Input x' = Input x → StartedAt x' = StartedAt x →
  (∀ id', id' ≠ id → rs !! id' = runners s !! id') →
  let e := notifyWaitersLocked x' (set_executions (<[id := x']> (executions (eng s))) (eng s)) in
  inv {| eng := e; runners := rs; owners := owners s |} ∧ extends (eng s) e.
Proof.
  intros [IE IO IW IC IS II IR] Hx Hns Hs Hid Hwf Hin Hst Hrs. split.
  - split; cbn; rewrite ?Hid.
    + intros id' y. destruct (decide (id' = id)) as [->|Hne].
      * rewrite lookup_insert_eq, lookup_delete_eq. intros [= <-]. auto.
      * rewrite lookup_insert_ne, lookup_delete_ne, Hrs by done. apply IE.
    + intros ch id' Ho. destruct (IO ch id' Ho) as (y & Hy & Hcase). unfold waiter_ok. cbn. rewrite Hid.
      destruct (decide (id' = id)) as [->|Hne].
      * exists x'. rewrite lookup_insert_eq. split; [done|]. right. split; [done|]. rewrite offer_all.
        destruct Hcase as [(_ & -> & Hw)|[? _]]; [by rewrite decide_True|]. replace y with x in * by congruence. done.
      * exists y. rewrite lookup_insert_ne by done. split; [done|]. rewrite lookup_delete_ne by done.
        assert (ch ∉ default [] (waiters (eng s) !! id)) as Hni by (intros ?%IW; congruence).
        rewrite offer_all. destruct (chans (eng s) !! ch) as [[|]|]; [done| |done].
        by rewrite decide_False.
    + intros id' ch. destruct (decide (id' = id)) as [->|Hne].
      * rewrite lookup_delete_eq. by intros ?%not_elem_of_nil.
      * rewrite lookup_delete_ne by done. apply IW.
    + intros ch. rewrite offer_dom. apply IC.
    + intros id' Hy. apply IS. destruct (decide (id' = id)) as [->|]; [by eexists|]. by rewrite lookup_insert_ne in Hy.
    + intros k id' Hk. apply lookup_insert_is_Some'. right. by eapply II.
    + intros id' Hr. apply lookup_insert_is_Some'. destruct (decide (id' = id)) as [->|]; [by left|].
      right. apply IR. by rewrite <- Hrs.
  - split; cbn; [|done|done]. intros id' y Hy. destruct (decide (id' = id)) as [->|Hne].
    + exists x'. rewrite lookup_insert_eq. replace y with x in * by congruence. split_and!; try done.
    + exists y. by rewrite lookup_insert_ne.
Qed.

Lemma not_settled_running s id x : inv s → executions (eng s) !! id = Some x → ¬ settled x → Status x = StatusRunning.
Proof. intros Hinv Hx Hn. by destruct (inv_exec s Hinv id x Hx) as [_ [[??]|[??]]]. Qed.

Lemma run_turn_settles fuel env w states hs st data status output err :
  run_state fuel env w states hs st data = Some (Finish status output err) →
  status ≠ StatusRunning ∧ status ≠ StatusPending.
Proof.
  unfold run_state. intros Hr.
  repeat match type of Hr with
  | context [match ?x with _ => _ end] => destruct x; simplify_eq
  end; try done; by destruct c.
Qed.

(** [finish] with a final status keeps the invariant; the goroutine may go. *)
Lemma finish_ok s id status output err now rs :
  inv s → status ≠ StatusRunning → status ≠ StatusPending →
  (∀ id', id' ≠ id → rs !! id' = runners s !! id') → is_Some (executions (eng s) !! id) →
  let e := finish id status output err now (eng s) in
  inv {| eng := e; runners := rs; owners := owners s |} ∧ extends (eng s) e.
Proof.
  intros Hinv Hs1 Hs2 Hrs [x Hx] e. subst e. unfold finish. rewrite Hx.
  destruct (inv_exec s Hinv id x Hx) as [Hid _].
  destruct (decide (settled x)) as [Hset|Hset].
  - split; [|done]. destruct Hinv as [IE IO IW IC IS II IR]. split; cbn; try done.
    + intros id' y Hy. destruct (IE id' y Hy) as [? [?|[Hr ?]]]; [auto|]. split; [done|]. right. split; [done|].
      destruct (decide (id' = id)) as [->|Hne]; [|by rewrite Hrs]. destruct Hset. congruence.
    + intros id' Hr. destruct (decide (id' = id)) as [->|]; [by eexists|]. apply IR. by rewrite <- Hrs.
  - by eapply settle_ok.
Qed.

Lemma start_ok s opts uuid now :
  inv s → inv (step s (EStart opts uuid now)) ∧ extends (eng s) (eng (step s (EStart opts uuid now))).
Proof.
  intros Hinv. assert (inv {| eng := eng s; owners := owners s; runners := runners s |} ∧ extends (eng s) (eng s)) as Hsame.
  { by destruct s. }
  cbn. unfold Start. destruct (workflows (eng s) !! opt_WorkflowID opts) as [wf|] eqn:Hwf; [|done].
  destruct (if decide (IdempotencyKey opts ≠ "") then _ else _) as [hx|] eqn:Hhit; [done|].
  set (id := if decide (opt_ExecutionID opts = "") then uuid else opt_ExecutionID opts).
  destruct (executions (eng s) !! id) as [y|] eqn:Hid; [done|]. cbn.
  set (x := {| ID := id |}). set (r := runExecution _ _ _ _ _).
  assert (IdempotencyKey opts ≠ "" → idempo (eng s) !! IdempotencyKey opts = None) as Hnew.
  { intros Hk. rewrite decide_True in Hhit by done.
    destruct (idempo (eng s) !! IdempotencyKey opts) as [id'|] eqn:Ei; [|done]. cbn in Hhit.
    destruct (inv_idem s Hinv _ _ Ei) as [y Hy]. congruence. }
  match goal with |- inv {| eng := ?e |} ∧ _ => set (e1 := e) end.
  assert (executions e1 = <[id := x]> (executions (eng s)) ∧ waiters e1 = waiters (eng s) ∧
    chans e1 = chans (eng s) ∧ signals e1 = <[id := ∅]> (signals (eng s)) ∧ workflows e1 = workflows (eng s) ∧
    idempo e1 = if decide (IdempotencyKey opts ≠ "") then <[IdempotencyKey opts := id]> (idempo (eng s))
                else idempo (eng s)) as (HE & HW & HC & HS & HF & HI) by (unfold e1; case_decide; done).
  clearbody e1. destruct Hinv as [IE IO IW IC IS II IR]. split.
  - split; cbn; rewrite ?HE, ?HW, ?HC, ?HS, ?HI; try done.
    + intros id' y. rewrite !lookup_insert_Some. intros [[<- <-]|[Hne Hy]].
      * split; [done|]. right. split; [done|]. rewrite lookup_insert_eq. by eexists.
      * rewrite lookup_insert_ne by done. by apply IE.
    + intros ch id' (y & Hy & Hcase)%IO. exists y. rewrite HE, HC, HW. rewrite lookup_insert_ne by congruence. done.
    + intros id'. rewrite !lookup_insert_is_Some'. naive_solver.
    + intros k id'. rewrite lookup_insert_is_Some'. case_decide; [|intros; right; by eapply II].
      rewrite lookup_insert_Some. intros [[_ <-]|[_ ?]]; [by left|right; by eapply II].
    + intros id'. rewrite !lookup_insert_is_Some'. naive_solver.
  - split; rewrite ?HE, ?HF, ?HI; [| |done].
    + intros id' y Hy. exists y. by rewrite lookup_insert_ne by congruence.
    + intros k id' Hk. case_decide as Hkey; [|done]. rewrite lookup_insert_ne; [done|].
      intros <-. rewrite Hnew in Hk; done.
Qed.

Lemma runner_ok s id fuel env w now :
  inv s → inv (step s (ERun id fuel env w now)) ∧ extends (eng s) (eng (step s (ERun id fuel env w now))).
Proof.
  intros Hinv. cbn. destruct (runners s !! id) as [r|] eqn:Hr; [|done].
  destruct (inv_runner s Hinv id) as [x Hx]; [by eexists|].
  assert (∀ st o er, st ≠ StatusRunning → st ≠ StatusPending →
    let e := finish id st o er now (eng s) in
    inv {| eng := e; runners := delete id (runners s); owners := owners s |} ∧ extends (eng s) e) as Hfin.
  { intros st o er ??. apply finish_ok; try done. intros. by rewrite lookup_delete_ne. }
  assert (∀ r', inv {| eng := eng s; runners := <[id := r']> (runners s); owners := owners s |} ∧
    extends (eng s) (eng s)) as Hstay.
  { intros r'. apply same_core_ok; [done|done|]. intros id'. rewrite lookup_insert_is_Some'. naive_solver. }
  unfold runner_step. destruct (r_phase r) as [data current|data current|work].
  - destruct (ctx_Err w) as [c|]; [by apply Hfin; destruct c|]. rewrite Hx.
    destruct (decide (Status x ≠ StatusRunning)) as [Hd|Hd%dec_stable].
    + split; [|done]. destruct Hinv as [IE IO IW IC IS II IR]. split; cbn; try done.
      * intros id' y Hy. destruct (IE id' y Hy) as [? [?|[? ?]]]; [auto|]. split; [done|]. right.
        rewrite lookup_delete_ne; [done|]. intros ->. congruence.
      * intros id' [_ ?]%lookup_delete_is_Some. auto.
    + destruct Hinv as [IE IO IW IC IS II IR]. split; [split; cbn; try done|split; cbn; [|done|done]].
      * intros id' y. rewrite lookup_insert_Some. intros [[<- <-]|[Hne Hy]].
        -- split; [by destruct (IE id x Hx)|]. right. rewrite lookup_insert_eq. by split; [|eexists].
        -- rewrite lookup_insert_ne by done. by apply IE.
      * intros ch id' (y & Hy & Hcase)%IO. unfold waiter_ok. cbn. destruct (decide (id' = id)) as [->|].
        -- exists (with_state current x). rewrite lookup_insert_eq. split; [done|]. left.
           replace y with x in * by congruence. by destruct Hcase as [(?&?&?)|[[??] _]].
        -- exists y. by rewrite lookup_insert_ne.
      * intros id' Hy. apply IS. apply lookup_insert_is_Some' in Hy as [<-|?]; [by eexists|done].
      * intros k id' Hk. apply lookup_insert_is_Some'. right. by eapply II.
      * intros id' Hy. apply lookup_insert_is_Some'. apply lookup_insert_is_Some' in Hy as [<-|?]; [by left|right; auto].
      * intros id' y Hy. destruct (decide (id' = id)) as [->|].
        -- exists (with_state current x). rewrite lookup_insert_eq. replace y with x in * by congruence.
           split_and!; try done. intros [? _]. done.
        -- exists y. by rewrite lookup_insert_ne.
  - destruct (r_states r !! current) as [st|]; [|by apply Hfin].
    destruct (run_state _ _ _ _ _ _ _) as [[status output err|d c]|] eqn:Hrun; [|apply Hstay|apply Hstay].
    by apply Hfin; eapply run_turn_settles.
  - destruct (timer_fires work w); [by apply Hfin|]. destruct (ctx_Err w) as [c|]; [by apply Hfin; destruct c|apply Hstay].
Qed.

Lemma event_ok s ev : inv s → inv (step s ev) ∧ extends (eng s) (eng (step s ev)).
Proof.
  intros Hinv. destruct ev as [def uuid now|resource h|d|id|id cp|opts uuid now|id fuel env w now|id now|id nm data|id ch].
  - apply same_core_ok; [done| |done]. split_and!; try done. intros id' Hid'. apply lookup_insert_is_Some'. by right.
  - by apply same_core_ok.
  - by apply same_core_ok.
  - apply same_core_ok; [done| |done]. cbn. unfold GetWorkflow, GetWorkflow_cached.
    destruct (Lru.Get id (defCache (eng s))) as [[cp|] c]; [done|].
    unfold GetWorkflow_load. cbn. by destruct (workflows (eng s) !! id).
  - by apply same_core_ok.
  - by apply start_ok.
  - by apply runner_ok.
  - cbn. unfold upd_eng, Cancel. destruct (executions (eng s) !! id) as [x|] eqn:Hx; [|by apply same_core_ok].
    destruct (inv_exec s Hinv id x Hx) as [Hid _].
    destruct (decide (Status x ≠ StatusRunning)) as [Hd|Hd%dec_stable]; [by apply same_core_ok|].
    eapply settle_ok; try done. by intros [? _].
  - cbn. apply same_core_ok; [done| |done]. unfold Signal.
    destruct (executions (eng s) !! id) as [x|]; [|done].
    destruct (decide (Status x ≠ StatusRunning)); [done|].
    destruct (signals (eng s) !! id) as [m|] eqn:Hm; [|done]. split_and!; try done.
    intros id' Hid'. apply lookup_insert_is_Some'. by right.
  - cbn. destruct (chans (eng s) !! ch) as [v|] eqn:Hch; [done|]. unfold Wait_enter.
    destruct (executions (eng s) !! id) as [x|] eqn:Hx; [|by apply same_core_ok].
    destruct (decide (settled x)) as [Hs|Hs]; [by apply same_core_ok|]. cbn.
    pose proof (not_settled_running s id x Hinv Hx Hs) as Hrun.
    destruct Hinv as [IE IO IW IC IS II IR].
    assert (owners s !! ch = None) as Hfresh.
    { destruct (owners s !! ch) as [id'|] eqn:Ho; [|done]. destruct (IO ch id' Ho) as (y & _ & [(_ & ? & _)|[_ ?]]); congruence. }
    split; [split; cbn; try done|split; cbn; [|done|done]].
    + intros id' y Hy. destruct (decide (id' = id)) as [->|]; [|rewrite lookup_insert_ne by done; by apply IE].
      destruct (IE id y Hy) as [? _]. split; [done|]. right. destruct (IE id y Hy) as [_ [[Hsy _]|?]]; [|done].
      replace y with x in * by congruence. done.
    + intros ch' id'. unfold waiter_ok. cbn. rewrite lookup_insert_Some. intros [[<- <-]|[Hne Ho]].
      * exists x. split; [done|]. left. rewrite !lookup_insert_eq. split_and!; [done|done|]. cbn. set_solver.
      * destruct (IO ch' id' Ho) as (y & Hy & Hcase). exists y. split; [done|]. rewrite (lookup_insert_ne (chans _)) by done.
        destruct Hcase as [(?&?&?)|?]; [left|by right]. split_and!; [done|done|].
        destruct (decide (id' = id)) as [->|]; [rewrite lookup_insert_eq; cbn; set_solver|by rewrite lookup_insert_ne].
    + intros id' ch'. destruct (decide (id' = id)) as [->|].
      * rewrite lookup_insert_eq. cbn. rewrite elem_of_app, list_elem_of_singleton. intros [Hin| ->].
        -- apply IW in Hin. rewrite lookup_insert_ne; [done|]. congruence.
        -- apply lookup_insert_eq.
      * rewrite (lookup_insert_ne (waiters _)) by done. intros Hin%IW. rewrite lookup_insert_ne; [done|]. congruence.
    + intros ch'. rewrite !lookup_insert_is_Some'. naive_solver.
    + intros id' y Hy. by exists y.
Qed.

(** ** Runs *)

Lemma engine_init_inv d : inv (init d).
Proof. split; cbn; try done; intros *; rewrite ?lookup_empty; by try intros [? ?] || intros ?%not_elem_of_nil. Qed.

Lemma events_ok evs s : inv s → inv (run evs s) ∧ extends (eng s) (eng (run evs s)).
Proof.
  revert s. induction evs as [|ev evs IH]; intros s Hinv; [done|].
  destruct (event_ok s ev Hinv) as [H1 E1]. destruct (IH _ H1) as [H2 E2].
  split; [done|]. by etransitivity.
Qed.

(** A call of [Start] with a key that is in use answers the execution of the key. *)
Lemma Start_hit opts uuid now e id x :
  is_Some (workflows e !! opt_WorkflowID opts) → IdempotencyKey opts ≠ "" →
  idempo e !! IdempotencyKey opts = Some id → executions e !! id = Some x →
  Start opts uuid now e = (inr x, e, None).
Proof.
  intros [wf Hwf] Hk Hi Hx. unfold Start. rewrite Hwf, decide_True, Hi by done. cbn. by rewrite Hx.
Qed.

Lemma Start_records opts uuid now e x e' new :
  (∀ k id y, idempo e !! k = Some id → executions e !! id = Some y → ID y = id) →
  Start opts uuid now e = (inr x, e', new) → IdempotencyKey opts ≠ "" →
  idempo e' !! IdempotencyKey opts = Some (ID x) ∧ executions e' !! ID x = Some x.
Proof.
  intros HID. unfold Start. destruct (workflows e !! opt_WorkflowID opts) as [wf|]; [|done].
  intros Hst Hk. rewrite decide_True in Hst by done.
  destruct (idempo e !! IdempotencyKey opts ≫= _) as [y|] eqn:Hhit.
  - simplify_eq. destruct (idempo e' !! IdempotencyKey opts) as [id|] eqn:Hi; [|done]. cbn in Hhit.
    rewrite (HID _ _ _ Hi Hhit). done.
  - destruct (executions e !! _) eqn:Hid; [done|]. simplify_eq. cbn. rewrite decide_True by done. cbn.
    by rewrite !lookup_insert_eq.
Qed.

(** ** Progress *)

(** The execution of [id] is settled, or its goroutine needs at most [k] steps more, and [n]
    turns in the branches of a parallel state. *)
Definition budget (n : nat) (s : Sys) (id : string) (k : nat) : Prop :=
  ∃ x, executions (eng s) !! id = Some x ∧ (settled x ∨
    ∃ r m, runners s !! id = Some r ∧ (m ≤ n)%nat ∧
      match r_phase r with
      | AtHead _ c => ends_within m (r_states r) c = true ∧ (2 * m ≤ k)%nat
      | Entered _ c => ends_within m (r_states r) c = true ∧ (2 * m ≤ S k)%nat
      | PassThrough _ => False
      end).

Lemma finish_settles id status output err now e :
  is_Some (executions e !! id) → status ≠ StatusRunning → status ≠ StatusPending →
  ∃ x, executions (finish id status output err now e) !! id = Some x ∧ settled x.
Proof.
  intros [x Hx] ??. unfold finish. rewrite Hx. destruct (decide (settled x)); [by eauto|].
  eexists. cbn. rewrite lookup_insert_eq. split; [done|]. done.
Qed.

Definition runs_id (id : string) (n : nat) (ev : event) : bool :=
  match ev with ERun id' fuel _ _ _ => bool_decide (id' = id ∧ n ≤ fuel)%nat | _ => false end.

(** Other events leave the goroutine of an existing execution alone. *)
Lemma runners_frame s ev id : is_Some (executions (eng s) !! id) →
  (∀ fuel env w now, ev ≠ ERun id fuel env w now) → runners (step s ev) !! id = runners s !! id.
Proof.
  intros [x Hx] Hev. destruct ev as [| | | | |opts uuid now|id' fuel env w now| | |id' ch]; try done; cbn.
  - unfold Start. destruct (workflows (eng s) !! _); [|done]. destruct (if decide _ then _ else _); [done|].
    set (id' := if decide _ then uuid else _). destruct (executions (eng s) !! id') eqn:Hid; [done|].
    cbn. rewrite lookup_insert_ne by congruence. done.
  - destruct (runners s !! id') as [r|]; [|done].
    destruct (runner_step fuel env w now id' r (eng s)) as [[ph|] e]; cbn.
    + rewrite lookup_insert_ne; [done|]. intros ->. naive_solver.
    + rewrite lookup_delete_ne; [done|]. intros ->. naive_solver.
  - destruct (chans (eng s) !! ch); [done|]. unfold Wait_enter.
    destruct (executions (eng s) !! id') as [y|]; [|done]. by destruct (decide (settled y)).
Qed.

Section progress.
  Context `{!WorldOk}.
#[local] Set Default Proof Using "Type*".

Lemma budget_run n s id k fuel env w now :
  inv s → budget n s id k →
  budget n (step s (ERun id fuel env w now)) id (k - if decide (n ≤ fuel)%nat then 1 else 0).
Proof.
  intros Hinv (x & Hx & Hcase). set (k' := (k - _)%nat). assert (k ≤ S k' ∧ k' ≤ k)%nat as Hk'.
  { unfold k'. case_decide; lia. }
  destruct (decide (settled x)) as [Hs|Hs].
  { destruct (event_ok s (ERun id fuel env w now) Hinv) as [_ [HE _ _]].
    destruct (HE id x Hx) as (x' & Hx' & _ & _ & _ & Heq). exists x'. split; [done|]. left. by rewrite Heq. }
  destruct Hcase as [|(r & m & Hr & Hm & Hph)]; [done|].
  pose proof (not_settled_running s id x Hinv Hx Hs) as Hrun.
  assert (∀ status o er now rs ow, status ≠ StatusRunning → status ≠ StatusPending →
    budget n {| eng := finish id status o er now (eng s); runners := rs; owners := ow |} id k') as Hfin.
  { intros status o er now' rs ow ??.
    destruct (finish_settles id status o er now' (eng s)) as (y & Hy & ?); [by eexists|done|done|].
    exists y. split; [done|]. by left. }
  cbn. rewrite Hr. unfold runner_step. destruct (r_phase r) as [data c|data c|work]; [| |done].
  - destruct Hph as [He Hk]. destruct (ctx_Err w) as [ce|]; [by apply Hfin; destruct ce|].
    rewrite Hx, decide_False by (rewrite Hrun; auto). exists (with_state c x). cbn. rewrite !lookup_insert_eq.
    split; [done|]. right. eexists _, m. split; [done|]. split; [done|]. cbn. split; [done|lia].
  - destruct Hph as [He Hk]. destruct m as [|m]; [done|].
    destruct (r_states r !! c) as [st|] eqn:Hst; [|by apply Hfin].
    destruct (run_state fuel env w (r_states r) (r_handlers r) st data) as [[status output err|d c']|] eqn:Ht.
    + by apply Hfin; eapply run_turn_settles.
    + exists x. cbn. rewrite lookup_insert_eq. split; [done|]. right. eexists _, m. split; [done|]. split; [lia|].
      cbn. split; [|lia]. eapply ends_next; [done|done|]. by eapply run_state_successor.
    + exists x. cbn. rewrite lookup_insert_eq. split; [done|]. right. eexists _, (S m). split; [done|].
      split; [done|]. cbn [r_phase r_states]. split; [done|]. subst k'. destruct (decide (n ≤ fuel)%nat); [|lia].
      destruct (run_state_total m fuel env w (r_states r) (r_handlers r) c st data) as (t & Ht' & _); [done|done|lia|].
      congruence.
Qed.

Lemma budget_step n s id k ev :
  inv s → budget n s id k → budget n (step s ev) id (k - if runs_id id n ev then 1 else 0).
Proof.
  intros Hinv Hb.
  assert ((∃ fuel env w now, ev = ERun id fuel env w now) ∨ ∀ fuel env w now, ev ≠ ERun id fuel env w now)
    as [(fuel & env & w & now & ->)|Hne].
  { destruct ev as [| | | | | |id' fuel env w now| | |]; try (by right).
    destruct (decide (id' = id)) as [->|]; [left; eauto|right; congruence]. }
  - pose proof (budget_run n s id k fuel env w now Hinv Hb) as Hr. cbn [runs_id].
    destruct (decide (n ≤ fuel)%nat); [rewrite bool_decide_true by done|rewrite bool_decide_false by naive_solver]; done.
  - assert (runs_id id n ev = false) as ->.
    { destruct ev as [| | | | | |id' fuel env w now| | |]; try done. apply bool_decide_eq_false. naive_solver. }
    rewrite Nat.sub_0_r. destruct Hb as (x & Hx & Hcase). destruct (event_ok s ev Hinv) as [_ [HE _ _]].
    destruct (HE id x Hx) as (x' & Hx' & _ & _ & _ & Heq). exists x'. split; [done|].
    destruct Hcase as [Hs|Hr]; [left; by rewrite Heq|]. right. rewrite runners_frame; [done|by eexists|done].
Qed.

Lemma budget_runs n s id k evs :
  inv s → budget n s id k → budget n (run evs s) id (k - length (filter (λ ev, runs_id id n ev = true) evs)).
Proof.
  revert s k. induction evs as [|ev evs IH]; intros s k Hinv Hb; [by rewrite Nat.sub_0_r|].
  apply (budget_step n s id k ev) in Hb; [|done]. apply event_ok with (ev := ev) in Hinv as [Hinv _].
  specialize (IH _ _ Hinv Hb). cbn [run foldl]. rewrite filter_cons.
  destruct (runs_id id n ev); [rewrite decide_True by done|rewrite decide_False by done].
  - cbn [length]. replace (k - S _)%nat with (k - 1 - length (filter (λ ev, runs_id id n ev = true) evs))%nat by lia. done.
  - by rewrite Nat.sub_0_r in IH.
Qed.
End progress.
End engine.

(** ** Theorems *)

(** C4. An execution settles once and everybody hears of it.  In any interleaving of calls and
    goroutines: an execution that is completed, failed, cancelled or timed out never changes
    again; one that is not has a goroutine; a caller that waits gets exactly the execution as
    it was settled, and is still registered as long as it is not; a signal never meets a nil
    map; and every later [Start] with the idempotency key of an execution answers that
    execution and starts nothing. *)
Theorem workflow_settles_once {W} `{World W} (defaultTimeout : Z) (evs1 evs2 : list (@event W)) :
  let s1 := run evs1 (init defaultTimeout) in
  let s2 := run evs2 s1 in
  (∀ id x, executions (eng s1) !! id = Some x → ∃ x', executions (eng s2) !! id = Some x' ∧
     ID x' = id ∧ WorkflowID x' = WorkflowID x ∧ Input x' = Input x ∧ (settled x → x' = x) ∧
     (settled x' ∨ Status x' = StatusRunning ∧ is_Some (runners s2 !! id))) ∧
  (∀ ch id, owners s2 !! ch = Some id → ∃ x, executions (eng s2) !! id = Some x ∧
     ((settled x ∧ Wait_receive ch (eng s2) = Some x) ∨
      (Status x = StatusRunning ∧ Wait_receive ch (eng s2) = None ∧
       ch ∈ default [] (waiters (eng s2) !! id)))) ∧
  (∀ id name data, is_Some (Signal id name data (eng s2))) ∧
  (∀ opts uuid now x e new, Start opts uuid now (eng s1) = (inr x, e, new) →
     IdempotencyKey opts ≠ "" →
     ∀ opts' uuid' now', IdempotencyKey opts' = IdempotencyKey opts →
     let s3 := run evs2 (step s1 (EStart opts uuid now)) in
     is_Some (workflows (eng s3) !! opt_WorkflowID opts') →
     ∃ x', ID x' = ID x ∧ executions (eng s3) !! ID x = Some x' ∧
       Start opts' uuid' now' (eng s3) = (inr x', eng s3, None)).
Proof.
  intros s1 s2. destruct (events_ok evs1 _ (engine_init_inv defaultTimeout)) as [I1 _]. fold s1 in I1.
  destruct (events_ok evs2 s1 I1) as [I2 E2]. fold s2 in I2, E2. split_and!.
  - intros id x Hx. destruct (ext_exec _ _ E2 id x Hx) as (x' & Hx' & Hw & Hi & _ & Hs).
    destruct (inv_exec s2 I2 id x' Hx') as [Hid Hcase]. exists x'. split_and!; try done. naive_solver.
  - intros ch id Ho. destruct (inv_owner s2 I2 ch id Ho) as (x & Hx & Hcase). exists x. split; [done|].
    unfold Wait_receive. destruct Hcase as [(? & -> & ?)|(? & ->)]; [by right|by left].
  - intros id name data. unfold Signal. destruct (executions (eng s2) !! id) as [x|] eqn:Hx; [|done].
    destruct (decide _); [done|]. destruct (inv_sig s2 I2 id) as [m ->]; [by eexists|]. done.
  - intros opts uuid now x e new Hst Hk opts' uuid' now' Hk' s3 Hwf.
    destruct (event_ok s1 (EStart opts uuid now) I1) as [I1' _].
    destruct (events_ok evs2 _ I1') as [I3 E3]. fold s3 in I3, E3.
    destruct (Start_records opts uuid now (eng s1) x e new) as [Hidem Hex]; [|done|done|].
    { intros k id y _ Hy. by destruct (inv_exec s1 I1 id y Hy). }
    assert (eng (step s1 (EStart opts uuid now)) = e) as He by (cbn; by rewrite Hst).
    rewrite He in E3. apply (ext_idem _ _ E3) in Hidem.
    destruct (ext_exec _ _ E3 (ID x) x Hex) as (x' & Hx' & _).
    destruct (inv_exec s3 I3 _ _ Hx') as [Hid _]. exists x'. split_and!; [done|done|].
    apply (Start_hit _ _ _ _ (ID x)); [done|by rewrite Hk'|by rewrite Hk'|done].
Qed.

(** C5. A workflow whose definition has no cycle ends: however its goroutine is interleaved
    with anything else, after two steps for each of the [n] states a path can visit (each
    with enough turns for the branches of a parallel state) the execution is settled,
    whatever the handlers answer. *)
Theorem workflow_completes {W} `{WorldOk W} (defaultTimeout : Z) (evs1 evs2 : list (@event W))
    (opts : StartOptions) (uuid : string) (now : Z) (wf : WorkflowDefinition) (n : nat) x e id r :
  let s1 := run evs1 (init defaultTimeout) in
  workflows (eng s1) !! opt_WorkflowID opts = Some wf →
  StartAt wf ≠ "" → States wf ≠ [] →
  ends_within n (state_map (States wf)) (StartAt wf) = true →
  Start opts uuid now (eng s1) = (inr x, e, Some (id, r)) →
  (2 * n ≤ length (filter (λ ev, runs_id id n ev = true) evs2))%nat →
  ∃ x', executions (eng (run evs2 (step s1 (EStart opts uuid now)))) !! id = Some x' ∧ settled x'.
Proof.
  intros s1 Hwf Hsa Hst He Hstart Hlen. destruct (events_ok evs1 _ (engine_init_inv defaultTimeout)) as [I1 _]. fold s1 in I1.
  destruct (event_ok s1 (EStart opts uuid now) I1) as [I2 _].
  assert (budget n (step s1 (EStart opts uuid now)) id (2 * n)) as Hb.
  { cbn. rewrite Hstart. unfold Start in Hstart. rewrite Hwf in Hstart.
    destruct (if decide _ then _ else _); [done|].
    set (id' := if decide (opt_ExecutionID opts = "") then uuid else _) in Hstart.
    destruct (executions (eng s1) !! id') eqn:Hid; [done|]. clearbody id'. simplify_eq.
    eexists. cbn. rewrite lookup_insert_eq.
    split; [destruct (decide (IdempotencyKey opts ≠ "")); cbn; by rewrite lookup_insert_eq|]. right.
    eexists _, n. split; [done|]. split; [done|]. cbn.
    rewrite decide_False; [split; [done|lia]|]. by intros [?|?%nil_length_inv]. }
  destruct (budget_runs n _ id _ evs2 I2 Hb) as (x' & Hx' & [Hs|(r' & m & _ & _ & Hph)]); [by eauto|].
  destruct (r_phase r') as [d c|d c|]; [| |done]; destruct Hph as [? ?], m; done || lia.
Qed.

(** ** A concrete world *)

(** Everything works, and branches answer last first. *)
#[global] Instance calm : World unit :=
  {| ctx_Err _ := None; timer_fires _ _ := true; arrival n _ := reverse (seq 0 n) |}.
#[global] Instance calm_ok : WorldOk (W := unit).
Proof. intros n w. apply reverse_Permutation. Qed.

Definition st0 (name type resource next : string) (branches : list Branch) : State :=
  {| Name := name; Type_ := type; Resource := resource; Next := next; End_ := false;
     TimeoutSeconds := 0; Seconds_ := 0; Choices := []; Default := ""; Branches := branches |}.

(** Two branches in parallel, whose results are given to a task. *)
Definition wf0 : WorkflowDefinition :=
  {| def_ID := "wf"; def_Name := ""; Version := "1"; StartAt := "fork"; def_TimeoutSeconds := 0; CreatedAt := 0;
     States := [st0 "fork" "Parallel" "" "join" [{| br_StartAt := "a"; br_States := [] |};
                                                 {| br_StartAt := "b"; br_States := [] |}];
                st0 "a" "Task" "one" "" []; st0 "b" "pass" "" "" []; st0 "join" "Task" "last" "" []] |}.
Definition start0 : StartOptions :=
  {| opt_WorkflowID := "wf"; opt_ExecutionID := "x"; opt_Input := VInt 7; opt_Timeout := 0; IdempotencyKey := "k" |}.
Definition one0 : TaskHandler unit := λ _ _ _, (VInt 1, None).
Definition nil0 : TaskHandler unit := λ _ _ _, (VNil, None).
Definition register0 : list (@event unit) := [ERegister wf0 "" 1; EHandler "one" (Some one0)].
Definition env0 : list nat → unit * unit := λ _, (tt, tt).
Definition drive (k : nat) : list (@event unit) := replicate k (ERun "x" 9 env0 tt 5).

Lemma workflow_completes_witness :
  ∃ x', executions (eng (run (drive 6) (step (run register0 (init 0)) (EStart start0 "u" 2)))) !! "x" = Some x' ∧
    settled x' ∧ Status x' = StatusCompleted ∧ Output x' = VSlice [VInt 1; VInt 7].
Proof.
  destruct (workflow_completes 0 register0 (drive 6) start0 "u" 2
    (default wf0 (workflows (eng (run register0 (init 0))) !! "wf")) 3
    {| ID := "x"; WorkflowID := "wf"; Status := StatusRunning; Input := VInt 7; Output := VNil; ErrorText := "";
       CurrentState := "fork"; StartedAt := 2; CompletedAt := zero_time |}
    (Start start0 "u" 2 (eng (run register0 (init 0)))).1.2 "x"
    (default (runExecution VNil wf0 ∅ 0 0)
       (snd <$> (Start start0 "u" 2 (eng (run register0 (init 0)))).2)))
    as (x' & Hx' & Hs); [done|done|done|by vm_compute|done|by vm_compute; lia|].
  exists x'. split; [done|]. split; [done|]. vm_compute in Hx'. by simplify_eq.
Defined.

(** An execution that is cancelled while a caller waits, and started again with its key. *)
Lemma workflow_settles_once_witness :
  let evs := register0 ++ [EStart start0 "u" 2; EWait "x" 0; ERun "x" 9 env0 tt 5; ECancel "x" 6] in
  let s2 := run (drive 6) (run evs (init 0)) in
  ∃ x, Wait_receive 0 (eng s2) = Some x ∧ executions (eng s2) !! "x" = Some x ∧ Status x = StatusCancelled.
Proof.
  intros evs s2. destruct (workflow_settles_once 0 evs (drive 6)) as (_ & Hwait & _).
  destruct (Hwait 0%nat "x") as (x & Hx & Hcase); [by vm_compute|].
  assert (Status x = StatusCancelled) as Hst by (vm_compute in Hx; by simplify_eq).
  exists x. destruct Hcase as [[_ Hr]|[Hr _]]; [exact (conj Hr (conj Hx Hst))|]. rewrite Hst in Hr. discriminate Hr.
Defined.

(** ** Behaviour that differs from what the interface says *)

(** The output of an execution is what its last task returned, unless that is nil: then it is
    the input of the execution. *)
Theorem workflow_nil_output_replaced :
  let s := run (register0 ++ [EHandler "last" (Some nil0); EStart start0 "u" 2] ++ drive 6) (init 0) in
  option_map (λ x, (Status x, Output x)) (executions (eng s) !! "x") = Some (StatusCompleted, VInt 7).
Proof. vm_compute. reflexivity. Qed.

Definition wf_version (v : string) : WorkflowDefinition :=
  {| def_ID := "wf"; def_Name := ""; Version := v; StartAt := ""; def_TimeoutSeconds := 0; CreatedAt := 0; States := [] |}.
Definition wf_other (i : nat) : WorkflowDefinition :=
  {| def_ID := "other" +:+ pretty i; def_Name := ""; Version := ""; StartAt := ""; def_TimeoutSeconds := 0;
     CreatedAt := 0; States := [] |}.

(** [GetWorkflow] gives the lock back before it stores what it read: when the definition is
    registered anew in between, the old version is cached over the new one, and is what every
    later [GetWorkflow] answers, while [Start] uses the new one. *)
Theorem workflow_stale_definition :
  let e0 := eng (run (ERegister (wf_version "v1") "" 1 :: ((λ i, ERegister (wf_other i) "" 2) <$> seq 0 128))
                     (init (W := unit) 0)) in
  (* the first GetWorkflow misses the cache and reads v1 *)
  let '(cached, e1) := GetWorkflow_cached "wf" e0 in
  let read := GetWorkflow_load "wf" e1 in
  (* the definition is registered anew, then the first call stores what it read *)
  let e2 := RegisterWorkflow (wf_version "v2") "" 3 e1 in
  let e3 := match read with inr cp => GetWorkflow_store "wf" cp e2 | inl _ => e2 end in
  cached = None ∧ Version <$> workflows e3 !! "wf" = Some "v2" ∧
  match (GetWorkflow "wf" e3).1 with inr wf => Version wf = "v1" | inl _ => False end.
Proof. vm_compute. done. Qed.
