(* ===== verification/Merkle.v ===== *)
(** * pkg/datastructures/merkle: Merkle trees

    Nodes are cells of a heap, a list whose positions are the pointers: [GetProof] compares
    pointers and follows parents.  The byte slices of a proof can share a backing array, into
    which [VerifyProof] may append; so they are windows of a memory.  A digest has 32 bytes
    and no spare capacity, which makes every other append of the package a copy. *)

From S2P Require Import Prelude Errors Digest.
From stdpp Require Import options.
Open Scope Z_scope.

Abbreviation loc := nat.

(* src: pkg/datastructures/merkle/tree.go 17-24 Node *)
Record Node := {
  Parent : option loc; Left : option loc; Right : option loc;
  Hash : list Z; Data : list Z; IsLeaf : bool;
}.

(** [hashStrategy] is always [calculateHash]. *)
(* src: pkg/datastructures/merkle/tree.go 10-14 Tree *)
Record Tree := { heap : list Node; Root : loc; Leaves : list loc }.

(* src: pkg/datastructures/merkle/tree.go 49-52 calculateHash *)
Definition calculateHash (data : list Z) : list Z := Sum256 data.

Definition with_parent (p : loc) (n : Node) : Node :=
  {| Parent := Some p; Left := Left n; Right := Right n; Hash := Hash n; Data := Data n; IsLeaf := IsLeaf n |}.

(** ** Building *)

(** The parent of [node1] and [node2], added to the heap. *)
(* src: pkg/datastructures/merkle/tree.go 75-82 buildTree *)
Definition join (node1 node2 : loc) (h : list Node) : option (loc * list Node) :=
  n1 ← h !! node1; n2 ← h !! node2;
  let parent := length h in
  let h := h ++ [{| Parent := None; Left := Some node1; Right := Some node2;
                    Hash := calculateHash (Hash n1 ++ Hash n2); Data := []; IsLeaf := false |}] in
  Some (parent, alter (with_parent parent) node2 (alter (with_parent parent) node1 h)).

(** The loop over pairs of nodes; a last node without a partner is copied. *)
(* src: pkg/datastructures/merkle/tree.go 59-84 buildTree *)
Fixpoint pair_up (nodes : list loc) (h : list Node) : option (list loc * list Node) :=
  match nodes with
  | [] => Some ([], h)
  | [node1] =>
      n1 ← h !! node1;
      let node2 := length h in
      let h := h ++ [{| Parent := None; Left := None; Right := None;
                        Hash := Hash n1; Data := Data n1; IsLeaf := IsLeaf n1 |}] in
      '(p, h) ← join node1 node2 h; Some ([p], h)
  | node1 :: node2 :: rest =>
      '(p, h) ← join node1 node2 h;
      '(ps, h) ← pair_up rest h; Some (p :: ps, h)
  end.

(* src: pkg/datastructures/merkle/tree.go 54-87 buildTree *)
Fixpoint buildTree (fuel : nat) (nodes : list loc) (h : list Node) : option (loc * list Node) :=
  match nodes with
  | [n] => Some (n, h)
  | _ =>
      match fuel with
      | O => None
      | S fuel => '(parents, h) ← pair_up nodes h; buildTree fuel parents h
      end
  end.

(** [inr None]: more turns than leaves, which does not happen. *)
(* src: pkg/datastructures/merkle/tree.go 27-47 New *)
Definition New (data : list (list Z)) : error + option Tree :=
  match data with
  | [] => inl (InvalidArgument "cannot create tree with no data" None)
  | _ =>
      let h := (λ d, {| Parent := None; Left := None; Right := None;
                        Hash := calculateHash d; Data := d; IsLeaf := true |}) <$> data in
      let leaves := seq 0 (length data) in
      inr ('(root, h) ← buildTree (length data) leaves h;
           Some {| heap := h; Root := root; Leaves := leaves |})
  end.

(** ** Proofs *)

(** The walk to the root; [None] when a pointer is nil or the walk does not end. *)
(* src: pkg/datastructures/merkle/tree.go 122-144 GetProof *)
Fixpoint proof_loop (fuel : nat) (h : list Node) (current : loc) : option (list (list Z)) :=
  n ← h !! current;
  match Parent n with
  | None => Some []
  | Some parent =>
      match fuel with
      | O => None
      | S fuel =>
          pn ← h !! parent;
          let sibling := if decide (Left pn = Some current) then Right pn else Left pn in
          p ← match sibling with
              | Some s => Hash <$> h !! s
              | None => Some (Hash n)
              end;
          proof ← proof_loop fuel h parent;
          Some (p :: proof)
      end
  end.

(* src: pkg/datastructures/merkle/tree.go 117-145 GetProof *)
Definition GetProof (t : Tree) (index : Z) : error + option (list (list Z)) :=
  if decide (index < 0 ∨ Z.of_nat (length (Leaves t)) ≤ index)
  then inl (InvalidArgument "index out of bounds" None)
  else inr (current ← Leaves t !! Z.to_nat index; proof_loop (length (heap t)) (heap t) current).

(** ** Verification *)

(** A slice is a window of the memory with room up to its capacity. *)
Record slice := { off : nat; len : nat; cap : nat }.
Definition content (mem : list Z) (s : slice) : list Z := take (len s) (drop (off s) mem).

(** [append(s, bs...)]: the bytes of the result, and the memory, in which they are written
    behind the slice if there is room. *)
Definition go_append (s : slice) (bs : list Z) (mem : list Z) : list Z * list Z :=
  (content mem s ++ bs,
   if decide (len s + length bs ≤ cap s)%nat
   then take (off s + len s) mem ++ bs ++ drop (off s + len s + length bs) mem else mem).

(** One turn of the loop; [hash] is the fresh array of a digest. *)
(* src: pkg/datastructures/merkle/tree.go 93-102 VerifyProof *)
Definition verify_turn (p : slice) (hash : list Z) (index : Z) (mem : list Z) : list Z * Z * list Z :=
  let '(siblingHash, mem) :=
    if decide (Z.rem index 2 = 0) then (hash ++ content mem p, mem) else go_append p hash mem in
  (calculateHash siblingHash, Z.quot index 2, mem).

(* src: pkg/datastructures/merkle/tree.go 93-102 VerifyProof *)
Fixpoint verify_loop (proof : list slice) (hash : list Z) (index : Z) (mem : list Z) : list Z * list Z :=
  match proof with
  | [] => (hash, mem)
  | p :: proof => let '(hash, index, mem) := verify_turn p hash index mem in verify_loop proof hash index mem
  end.

(** The answer and the memory after the call. *)
(* src: pkg/datastructures/merkle/tree.go 90-114 VerifyProof *)
Definition VerifyProof (rootHash data : slice) (proof : list slice) (index : Z) (mem : list Z) : bool * list Z :=
  let '(hash, mem) := verify_loop proof (calculateHash (content mem data)) index mem in
  (bool_decide (hash = content mem rootHash), mem).

(** ** Verification by value *)

Fixpoint fold_proof (proof : list (list Z)) (hash : list Z) (index : Z) : list Z :=
  match proof with
  | [] => hash
  | p :: proof =>
      fold_proof proof (calculateHash (if decide (Z.rem index 2 = 0) then hash ++ p else p ++ hash))
        (Z.quot index 2)
  end.
Definition verifies (rootHash data : list Z) (proof : list (list Z)) (index : Z) : bool :=
  bool_decide (fold_proof proof (calculateHash data) index = rootHash).

(** Slices without spare capacity, as [GetProof] returns them, are not written to. *)
Lemma VerifyProof_by_value rootHash data proof index mem :
  Forall (λ p, len p = cap p) proof →
  VerifyProof rootHash data proof index mem =
    (verifies (content mem rootHash) (content mem data) (content mem <$> proof) index, mem).
Proof.
  intros Hp. unfold VerifyProof, verifies.
  assert (∀ hash index, length hash = 32%nat →
    verify_loop proof hash index mem = (fold_proof (content mem <$> proof) hash index, mem)) as ->; [|done|apply Sum256_length].
  induction Hp as [|p proof Hp _ IH]; intros hash i Hh; [done|].
  cbn [verify_loop verify_turn fmap list_fmap fold_proof]. unfold verify_turn.
  destruct (decide (Z.rem i 2 = 0)); [apply IH, Sum256_length|]. unfold go_append.
  rewrite decide_False by lia. apply IH, Sum256_length.
Qed.

(** ** The tree by levels *)

Fixpoint pairs (l : list (list Z)) : list (list Z) :=
  match l with
  | [] => []
  | [a] => [calculateHash (a ++ a)]
  | a :: b :: l => calculateHash (a ++ b) :: pairs l
  end.

(** The partner of place [i]; the last of an odd number of hashes is its own. *)
Fixpoint sibling (l : list (list Z)) (i : nat) : list Z :=
  match l, i with
  | [], _ => []
  | [a], _ => a
  | _ :: b :: _, O => b
  | a :: _ :: _, S O => a
  | _ :: _ :: l, S (S i) => sibling l i
  end.

Fixpoint root_of (fuel : nat) (l : list (list Z)) : list Z :=
  match l, fuel with
  | [a], _ => a
  | _, S fuel => root_of fuel (pairs l)
  | _, O => []
  end.

Fixpoint path_of (fuel : nat) (l : list (list Z)) (i : nat) : list (list Z) :=
  match l, fuel with
  | [a], _ => []
  | _, S fuel => sibling l i :: path_of fuel (pairs l) (Nat.div2 i)
  | _, O => []
  end.

Definition merkle_root (data : list (list Z)) : list Z := root_of (length data) (calculateHash <$> data).
Definition merkle_path (data : list (list Z)) (i : nat) : list (list Z) :=
  path_of (length data) (calculateHash <$> data) i.

(** Induction over a list two elements at a time. *)
Lemma pair_ind {A} (P : list A → Prop) :
  P [] → (∀ a, P [a]) → (∀ a b l, P l → P (a :: b :: l)) → ∀ l, P l.
Proof.
  intros H0 H1 H2 l. assert (P l ∧ ∀ a, P (a :: l)) as [? _]; [|done].
  induction l as [|a l [IH1 IH2]]; split; auto.
Qed.

Lemma pairs_length l : (2 ≤ length l)%nat → (1 ≤ length (pairs l) < length l)%nat.
Proof.
  assert (∀ l, (length l ≤ 2 * length (pairs l) ≤ S (length l))%nat) as Hl.
  { intros k. induction k as [|a|a b k IH] using pair_ind; cbn in *; lia. }
  intros. specialize (Hl l). lia.
Qed.

Lemma pairs_32 l : Forall (λ x, length x = 32%nat) (pairs l).
Proof. induction l as [|a|a b l IH] using pair_ind; cbn; repeat constructor; try done; apply Sum256_length. Qed.

Definition glue (i : nat) (x p : list Z) : list Z := if Nat.even i then x ++ p else p ++ x.

(** The parent of place [i] is the digest of the two places, in order. *)
Lemma pairs_lookup l i x : l !! i = Some x →
  pairs l !! Nat.div2 i = Some (calculateHash (glue i x (sibling l i))).
Proof.
  revert i. induction l as [|a|a b l IH] using pair_ind; intros i; [done| |].
  - destruct i as [|i]; [|done]. intros [= <-]. done.
  - destruct i as [|[|i]]; [by intros [= <-]|by intros [= <-]|]. exact (IH i).
Qed.

Lemma even_rem i : (if decide (Z.rem (Z.of_nat i) 2 = 0) then true else false) = Nat.even i.
Proof.
  rewrite Z.rem_mod_nonneg by lia. pose proof (Nat.div_mod_eq i 2). pose proof (Nat.mod_upper_bound i 2).
  assert (Z.of_nat i mod 2 = Z.of_nat (i mod 2)) as -> by (by rewrite Nat2Z.inj_mod).
  destruct (Nat.even i) eqn:E.
  - apply Nat.even_spec, Nat.Even_double in E. rewrite decide_True; [done|].
    unfold Nat.double in E. assert (i mod 2 = 0)%nat as -> by (rewrite E, <- (Nat.mul_1_l (Nat.div2 i)), <- Nat.mul_add_distr_r, Nat.mul_comm, Nat.Div0.mod_mul; done). done.
  - rewrite decide_False; [done|]. intros Hm. apply not_true_iff_false in E. apply E, Nat.even_spec.
    exists (i / 2)%nat. lia.
Qed.

Lemma fold_proof_cons p proof hash i :
  fold_proof (p :: proof) hash (Z.of_nat i) = fold_proof proof (calculateHash (glue i hash p)) (Z.of_nat (Nat.div2 i)).
Proof.
  cbn. unfold glue. rewrite <- even_rem. rewrite Z.quot_div_nonneg, Nat.div2_div, Nat2Z.inj_div by lia.
  by destruct (decide _).
Qed.

Section levels.
  Implicit Types (l : list (list Z)) (i : nat).

Lemma path_of_verifies fuel l i x : (length l ≤ S fuel)%nat → l !! i = Some x →
  fold_proof (path_of fuel l i) x (Z.of_nat i) = root_of fuel l.
Proof.
  revert l i x. induction fuel as [|fuel IH]; intros l i x Hf Hx; (destruct l as [|a [|b l]]; [done| |]).
  - destruct i as [|i]; [|done]. by simplify_eq/=.
  - cbn in Hf; lia.
  - destruct i as [|i]; [|done]. by simplify_eq/=.
  - cbn [path_of root_of]. rewrite fold_proof_cons. apply IH; [|by apply pairs_lookup].
    pose proof (pairs_length (a :: b :: l)). cbn in *. lia.
Qed.

(** The arguments of the digest on the way up from the digest [hash] of place [i]. *)
Fixpoint hashed (proof : list (list Z)) (hash : list Z) (i : nat) : list (list Z) :=
  match proof with
  | [] => []
  | p :: proof => glue i hash p :: hashed proof (calculateHash (glue i hash p)) (Nat.div2 i)
  end.

(** Different strings of the two lists with one digest. *)
Definition collide (xs ys : list (list Z)) : Prop :=
  ∃ x y, x ∈ xs ∧ y ∈ ys ∧ x ≠ y ∧ calculateHash x = calculateHash y.

Lemma collide_cons a b xs ys : collide xs ys → collide (a :: xs) (b :: ys).
Proof. intros (x & y & Hx & Hy & H). exists x, y. split_and!; [by right|by right|apply H|apply H]. Qed.

Lemma collide_here a b xs ys : a ≠ b → calculateHash a = calculateHash b → collide (a :: xs) (b :: ys).
Proof. intros Hne He. exists a, b. split_and!; [by left|by left|done|done]. Qed.

Lemma path_of_sound fuel l i x hash proof :
  (length l ≤ S fuel)%nat → l !! i = Some x → Forall (λ y, length y = 32%nat) l → length hash = 32%nat →
  length proof = length (path_of fuel l i) →
  fold_proof proof hash (Z.of_nat i) = root_of fuel l →
  hash = x ∨ collide (hashed proof hash i) (hashed (path_of fuel l i) x i).
Proof.
  revert l i x hash proof. induction fuel as [|fuel IH]; intros l i x hash proof Hf Hx H32 Hh Hlen Hfold;
    (destruct l as [|a [|b l]]; [done| |]).
  1,3: destruct i as [|i]; [|done]; simplify_eq/=; destruct proof; [by left|done].
  - cbn in Hf; lia.
  - destruct proof as [|p proof]; [done|]. cbn [path_of root_of length hashed] in *. rewrite fold_proof_cons in Hfold.
    destruct (IH (pairs (a :: b :: l)) (Nat.div2 i) (calculateHash (glue i x (sibling (a :: b :: l) i)))
      (calculateHash (glue i hash p)) proof) as [Heq|?]; try done; [|by apply pairs_lookup|apply pairs_32|
      apply Sum256_length|lia| |right; by apply collide_cons].
    { pose proof (pairs_length (a :: b :: l)). cbn in *. lia. }
    destruct (decide (glue i hash p = glue i x (sibling (a :: b :: l) i))) as [Hg|Hg];
      [|right; by apply collide_here].
    left. rewrite Forall_lookup in H32. specialize (H32 i x Hx). unfold glue in Hg.
    destruct (Nat.even i); [by apply app_inj_1 in Hg as [? _]; [|lia]|by apply app_inj_2 in Hg as [_ ?]; [|lia]].
Qed.
End levels.

(** ** The nodes on the heap *)

(** The nodes are distinct roots with these hashes. *)
Definition roots (h : list Node) (nodes : list loc) (hs : list (list Z)) : Prop :=
  NoDup nodes ∧ Forall2 (λ n x, ∃ nd, h !! n = Some nd ∧ Parent nd = None ∧ Hash nd = x) nodes hs.

(** From [h] to [h'] only parents of [nodes] were set. *)
Definition keeps (nodes : list loc) (h h' : list Node) : Prop :=
  (length h ≤ length h')%nat ∧
  ∀ l nd, h !! l = Some nd → ∃ nd', h' !! l = Some nd' ∧ Hash nd' = Hash nd ∧ Left nd' = Left nd ∧
    Right nd' = Right nd ∧ (l ∉ nodes → nd' = nd).

Lemma keeps_trans nodes ps h h1 h2 :
  keeps nodes h h1 → keeps ps h1 h2 → Forall (λ p, (length h ≤ p)%nat) ps → keeps nodes h h2.
Proof.
  intros [L1 K1] [L2 K2] Hps. split; [lia|]. intros l nd Hl.
  destruct (K1 l nd Hl) as (n1 & Hn1 & A1 & B1 & C1 & D1). destruct (K2 l n1 Hn1) as (n2 & Hn2 & A2 & B2 & C2 & D2).
  exists n2. split_and!; [done|congruence|congruence|congruence|]. intros Hni. rewrite D2; [auto|].
  intros Hin. rewrite Forall_forall in Hps. apply lookup_lt_Some in Hl. specialize (Hps l Hin). lia.
Qed.

(** A node below its parent, with the hash of the other child. *)
Definition child_of (h : list Node) (n p : loc) (sib : list Z) : Prop :=
  ∃ nd pn s sn, h !! n = Some nd ∧ Parent nd = Some p ∧ h !! p = Some pn ∧
    (if decide (Left pn = Some n) then Right pn else Left pn) = Some s ∧ h !! s = Some sn ∧ Hash sn = sib.

Lemma child_of_keeps nodes h h' n p sib :
  keeps nodes h h' → n ∉ nodes → child_of h n p sib → child_of h' n p sib.
Proof.
  intros [_ K] Hn (nd & pn & s & sn & Hnd & Hp & Hpn & Hs & Hsn & Hh).
  destruct (K _ _ Hnd) as (nd' & ? & _ & _ & _ & Heq). rewrite Heq in * by done.
  destruct (K _ _ Hpn) as (pn' & ? & _ & HL & HR & _). destruct (K _ _ Hsn) as (sn' & ? & HH & _).
  exists nd, pn', s, sn'. rewrite HL, HR. split_and!; try done. congruence.
Qed.

Lemma join_spec h a b na nb :
  a ≠ b → h !! a = Some na → h !! b = Some nb →
  ∃ h', join a b h = Some (length h, h') ∧ length h' = S (length h) ∧ keeps [a; b] h h' ∧
    (∃ pn, h' !! length h = Some pn ∧ Parent pn = None ∧ Hash pn = calculateHash (Hash na ++ Hash nb)) ∧
    child_of h' a (length h) (Hash nb) ∧ child_of h' b (length h) (Hash na).
Proof.
  intros Hab Ha Hb. unfold join. rewrite Ha, Hb. cbn [mbind option_bind].
  set (pn := {| Parent := None |}). set (p := length h).
  pose proof (lookup_lt_Some _ _ _ Ha). pose proof (lookup_lt_Some _ _ _ Hb).
  set (h' := alter _ b (alter _ a (h ++ [pn]))).
  assert (h' !! p = Some pn) as Hp.
  { unfold h', p. rewrite !list_lookup_alter_ne by lia. rewrite lookup_app_r by lia. by rewrite Nat.sub_diag. }
  assert (h' !! a = Some (with_parent p na)) as Ha'.
  { unfold h'. rewrite list_lookup_alter_ne, list_lookup_alter_eq by done. by rewrite lookup_app_l, Ha by lia. }
  assert (h' !! b = Some (with_parent p nb)) as Hb'.
  { unfold h'. rewrite list_lookup_alter_eq, list_lookup_alter_ne by done. by rewrite lookup_app_l, Hb by lia. }
  exists h'. split; [done|]. split; [unfold h'; rewrite !length_alter, length_app; cbn; lia|]. split_and!.
  - split; [unfold h'; rewrite !length_alter, length_app; cbn; lia|]. intros l nd Hl.
    pose proof (lookup_lt_Some _ _ _ Hl).
    destruct (decide (l = a)) as [->|]; [exists (with_parent p na); replace nd with na by congruence; set_solver|].
    destruct (decide (l = b)) as [->|]; [exists (with_parent p nb); replace nd with nb by congruence; set_solver|].
    exists nd. unfold h'. rewrite !list_lookup_alter_ne, lookup_app_l by done. done.
  - by exists pn.
  - exists (with_parent p na), pn, b, (with_parent p nb). cbn. rewrite decide_True by done. done.
  - exists (with_parent p nb), pn, a, (with_parent p na). cbn. rewrite decide_False by congruence. done.
Qed.

Lemma roots_keeps nodes h h' ns hs : keeps nodes h h' → (∀ n, n ∈ ns → n ∉ nodes) → roots h ns hs → roots h' ns hs.
Proof.
  intros [_ K] Hd [Hnd Hf]. split; [done|]. clear Hnd. induction Hf as [|n x ns hs (nd & Hn & Hp & Hh) Hf IH]; [constructor|].
  constructor; [|apply IH; set_solver]. destruct (K n nd Hn) as (nd' & Hn' & _ & _ & _ & Heq).
  rewrite Heq in Hn' by set_solver. by exists nd.
Qed.

Lemma keeps_weaken nodes nodes' h h' : nodes ⊆ nodes' → keeps nodes h h' → keeps nodes' h h'.
Proof.
  intros Hsub [L K]. split; [done|]. intros l nd Hl. destruct (K l nd Hl) as (nd' & ? & ? & ? & ? & Heq).
  exists nd'. split_and!; try done. intros. apply Heq. set_solver.
Qed.

(** One level: the parents are roots with the digests of the pairs, above every node. *)
Lemma pair_up_spec nodes : ∀ h hs, roots h nodes hs →
  ∃ ps h', pair_up nodes h = Some (ps, h') ∧ keeps nodes h h' ∧ roots h' ps (pairs hs) ∧
    Forall (λ p, (length h ≤ p)%nat) ps ∧
    ∀ j n, nodes !! j = Some n → ∃ p, ps !! Nat.div2 j = Some p ∧ child_of h' n p (sibling hs j).
Proof.
  induction nodes as [|a|a b nodes IH] using pair_ind; intros h hs [Hnd Hf].
  - apply Forall2_nil_inv_l in Hf as ->. exists [], h. split_and!; try done.
    split; [done|]. intros l nd ?. by exists nd.
  - apply Forall2_cons_inv_l in Hf as (xa & hs0 & (na & Ha & Hpa & Hha) & ->%Forall2_nil_inv_l & ->).
    cbn [pair_up]. rewrite Ha. cbn [mbind option_bind]. set (dup := {| Parent := None |}).
    pose proof (lookup_lt_Some _ _ _ Ha).
    destruct (join_spec (h ++ [dup]) a (length h) na dup) as (h' & -> & Hl & Hk & Hpn & Hca & _).
    { lia. }
    { by rewrite lookup_app_l. }
    { rewrite lookup_app_r by lia. by rewrite Nat.sub_diag. }
    cbn [mbind option_bind]. rewrite length_app in *. cbn [length] in *. eexists _, _. split; [done|]. split_and!.
    + destruct Hk as [Lk Kk]. split; [lia|]. intros l nd Hln. pose proof (lookup_lt_Some _ _ _ Hln).
      destruct (Kk l nd) as (nd' & ? & ? & ? & ? & Heq); [by rewrite lookup_app_l|]. exists nd'. split_and!; try done.
      intros Hni. apply Heq. rewrite elem_of_cons, list_elem_of_singleton. intros [->| ->]; [set_solver|lia].
    + split; [apply NoDup_singleton|]. constructor; [|constructor]. destruct Hpn as (pn & ? & ? & ?).
      exists pn. split_and!; try done. cbn in *. congruence.
    + repeat constructor. lia.
    + intros [|j] n; [|done]. intros [= <-]. eexists. split; [done|]. cbn. cbn in Hca. by rewrite <- Hha.
  - apply Forall2_cons_inv_l in Hf as (xa & hs0 & (na & Ha & Hpa & Hha) & Hf & ->).
    apply Forall2_cons_inv_l in Hf as (xb & hs1 & (nb & Hb & Hpb & Hhb) & Hf & ->).
    apply NoDup_cons in Hnd as [Hna Hnd]. apply NoDup_cons in Hnd as [Hnb Hnd].
    destruct (join_spec h a b na nb) as (h1 & Hj & Hl1 & Hk1 & (pn & Hpn & Hpp & Hph) & Hca & Hcb);
      [set_solver|done|done|].
    assert (Forall (λ n, (n < length h)%nat) nodes) as Hlt.
    { clear -Hf. induction Hf as [|n x ns hs (nd & Hn & _) _ IH]; constructor; [by eapply lookup_lt_Some|done]. }
    destruct (IH h1 hs1) as (ps & h2 & Hp2 & Hk2 & [Hnd2 Hr2] & Hps & Hch).
    { eapply roots_keeps; [done| |by split]. set_solver. }
    assert (length h ∉ nodes) as Hpnot.
    { intros Hin. rewrite Forall_forall in Hlt. specialize (Hlt _ Hin). lia. }
    cbn [pair_up]. rewrite Hj. cbn [mbind option_bind]. rewrite Hp2. cbn [mbind option_bind].
    eexists _, _. split; [done|]. split_and!.
    + destruct Hk1 as [L1 K1], Hk2 as [L2 K2]. split; [lia|]. intros l nd Hln.
      destruct (K1 l nd Hln) as (n1 & Hn1 & A1 & B1 & C1 & D1). destruct (K2 l n1 Hn1) as (n2 & Hn2 & A2 & B2 & C2 & D2).
      exists n2. split_and!; [done|congruence|congruence|congruence|]. intros Hni. rewrite D2 by set_solver. apply D1. set_solver.
    + split.
      * apply NoDup_cons. split; [|done]. intros Hin. rewrite Forall_forall in Hps. specialize (Hps _ Hin). lia.
      * constructor; [|done]. destruct Hk2 as [_ K2]. destruct (K2 _ _ Hpn) as (pn' & Hpn' & _ & _ & _ & Heq).
        rewrite Heq in Hpn' by done. exists pn. split_and!; [done|done|congruence].
    + constructor; [done|]. eapply Forall_impl; [done|]. cbn. lia.
    + intros [|[|j]] n.
      * intros [= <-]. eexists. split; [done|]. cbn. rewrite <- Hhb. eapply child_of_keeps; [exact Hk2|set_solver|done].
      * intros [= <-]. eexists. split; [done|]. cbn. rewrite <- Hha. eapply child_of_keeps; [exact Hk2|set_solver|done].
      * apply Hch.
Qed.

Lemma path_of_length fuel l i : (length (path_of fuel l i) ≤ fuel)%nat.
Proof.
  revert l i. induction fuel as [|fuel IH]; intros [|a [|b l]] i; cbn [path_of length]; try lia;
    specialize (IH (pairs (a :: b :: l)) (Nat.div2 i)) || specialize (IH (pairs []) (Nat.div2 i)); lia.
Qed.

Lemma proof_loop_child f h n p sib proof :
  child_of h n p sib → proof_loop f h p = Some proof → proof_loop (S f) h n = Some (sib :: proof).
Proof.
  intros (nd & pn & s & sn & Hn & Hp & Hpn & Hs & Hsn & Hh) Hpr. cbn [proof_loop]. rewrite Hn. cbn [mbind option_bind].
  rewrite Hp, Hpn. cbn [mbind option_bind]. rewrite Hs, Hsn. cbn [mbind option_bind fmap option_fmap option_map].
  rewrite Hpr. cbn. by rewrite Hh.
Qed.

(** The tree above [nodes]: its root has the digest of the levels, and walking up from a node
    gives its path. *)
Lemma buildTree_spec fuel nodes : ∀ h hs, nodes ≠ [] → (length nodes ≤ S fuel)%nat → roots h nodes hs →
  ∃ root h', buildTree fuel nodes h = Some (root, h') ∧ keeps nodes h h' ∧
    (∃ rn, h' !! root = Some rn ∧ Hash rn = root_of fuel hs) ∧
    ∀ j n f, nodes !! j = Some n → (length (path_of fuel hs j) ≤ f)%nat →
      proof_loop f h' n = Some (path_of fuel hs j).
Proof.
  revert nodes. induction fuel as [|fuel IH]; intros nodes h hs Hne Hlen Hroots.
  all: pose proof (Forall2_length _ _ _ (proj2 Hroots)) as Hl.
  all: destruct nodes as [|a [|b nodes]]; [done| |].
  1,3: destruct Hroots as [_ Hf]; apply Forall2_cons_inv_l in Hf as (xa & hs0 & (na & Ha & Hpa & Hha) & ->%Forall2_nil_inv_l & ->);
    exists a, h; (split; [done|]); split_and!;
    [split; [done|]; intros l nd ?; by exists nd|by exists na|];
    intros [|j] n f; [|done]; intros [= <-] _; (destruct f; cbn; rewrite Ha; cbn; by rewrite Hpa).
  - cbn in Hlen; lia.
  - cbn [buildTree]. destruct (pair_up_spec (a :: b :: nodes) h hs Hroots) as (ps & h1 & Hp & Hk & Hr & Hps & Hch).
    rewrite Hp. cbn [mbind option_bind]. destruct hs as [|xa [|xb hs]]; [done|done|].
    pose proof (Forall2_length _ _ _ (proj2 Hr)) as Hlps. pose proof (pairs_length (xa :: xb :: hs)).
    assert (∀ n, n ∈ a :: b :: nodes → n ∉ ps) as Hdisj.
    { intros n Hn Hin. rewrite Forall_forall in Hps. specialize (Hps n Hin).
      apply list_elem_of_lookup in Hn as [j Hj]. destruct Hroots as [_ Hf].
      destruct (Forall2_lookup_l _ _ _ _ _ Hf Hj) as (x & _ & nd & Hnd & _). apply lookup_lt_Some in Hnd. lia. }
    destruct (IH ps h1 (pairs (xa :: xb :: hs))) as (root & h2 & -> & Hk2 & Hroot & Hwalk).
    { intros ->. cbn in *. lia. }
    { cbn in *. lia. }
    { done. }
    exists root, h2. split; [done|]. split; [by eapply keeps_trans|]. split; [done|].
    intros j n f Hj Hf. cbn [path_of] in *. destruct f as [|f]; [cbn in Hf; lia|].
    destruct (Hch j n Hj) as (p & Hpj & Hc). eapply proof_loop_child.
    + eapply child_of_keeps; [done| |done]. apply Hdisj. by eapply list_elem_of_lookup_2.
    + apply Hwalk; [done|]. cbn [length] in Hf. lia.
Qed.

Lemma New_spec data : data ≠ [] →
  ∃ t, New data = inr (Some t) ∧ length (Leaves t) = length data ∧
    (∃ rn, heap t !! Root t = Some rn ∧ Hash rn = merkle_root data) ∧
    ∀ i, (i < length data)%nat → GetProof t (Z.of_nat i) = inr (Some (merkle_path data i)).
Proof.
  intros Hne. set (h := (λ d, {| Parent := None; Left := None; Right := None;
                        Hash := calculateHash d; Data := d; IsLeaf := true |}) <$> data).
  assert (New data = inr ('(root, h) ← buildTree (length data) (seq 0 (length data)) h;
           Some {| heap := h; Root := root; Leaves := seq 0 (length data) |})) as -> by (by destruct data).
  destruct (buildTree_spec (length data) (seq 0 (length data)) h (calculateHash <$> data))
    as (root & h' & Hb & [Hlen _] & Hroot & Hwalk).
  { by destruct data. }
  { rewrite length_seq. lia. }
  { split; [apply NoDup_seq|]. apply Forall2_same_length_lookup. rewrite length_seq, length_fmap. split; [done|].
    intros i n x [-> Hi]%lookup_seq Hx. unfold h. cbn. rewrite list_lookup_fmap.
    apply list_lookup_fmap_Some in Hx as (d & -> & ->). cbn. by eexists. }
  rewrite Hb. cbn [mbind option_bind]. eexists. split; [done|]. cbn [Leaves heap Root].
  split; [apply length_seq|]. split; [done|]. intros i Hi. unfold GetProof. cbn [Leaves heap].
  rewrite decide_False by (rewrite length_seq; lia). f_equal. rewrite Nat2Z.id, lookup_seq_lt by done.
  cbn [mbind option_bind]. apply (Hwalk i); [by rewrite lookup_seq_lt|].
  etransitivity; [apply path_of_length|]. unfold h in Hlen. rewrite length_fmap in Hlen. done.
Qed.

Lemma New_unique data t rn proof i :
  New data = inr (Some t) → heap t !! Root t = Some rn → GetProof t (Z.of_nat i) = inr (Some proof) →
  (i < length data)%nat → Hash rn = merkle_root data ∧ proof = merkle_path data i.
Proof.
  intros Ht Hr Hp Hi. destruct (New_spec data) as (t' & Ht' & _ & (rn' & Hr' & HR') & Hp'); [by intros ->|].
  rewrite Ht in Ht'. injection Ht' as <-. rewrite Hr in Hr'. injection Hr' as <-.
  rewrite Hp' in Hp by done. by injection Hp as <-.
Qed.

(** C39. Merkle proofs are complete and binding.  [New] and [GetProof] follow no nil pointer and
    end; the proof of every leaf is accepted by [VerifyProof] for its data and index, leaving
    the memory as it is; and if a proof of that length is accepted for other data at the
    index, then a string that its verification hashes and a different one that the honest
    verification hashes have the same digest. *)
Theorem merkle_proofs (data : list (list Z)) (i : nat) (d : list Z) :
  data !! i = Some d →
  ∃ t rn proof, New data = inr (Some t) ∧ heap t !! Root t = Some rn ∧
    GetProof t (Z.of_nat i) = inr (Some proof) ∧
    (∀ mem rootHash ds ps, Forall (λ p, len p = cap p) ps →
       content mem rootHash = Hash rn → content mem ds = d → content mem <$> ps = proof →
       VerifyProof rootHash ds ps (Z.of_nat i) mem = (true, mem)) ∧
    (∀ mem rootHash ds ps, Forall (λ p, len p = cap p) ps → length ps = length proof →
       content mem rootHash = Hash rn → content mem ds ≠ d →
       (VerifyProof rootHash ds ps (Z.of_nat i) mem).1 = true →
       collide (content mem ds :: hashed (content mem <$> ps) (calculateHash (content mem ds)) i)
         (d :: hashed proof (calculateHash d) i)).
Proof.
  intros Hd. destruct (New_spec data) as (t & Ht & _ & (rn & Hr & Hh) & Hp); [by intros ->|].
  exists t, rn, (merkle_path data i). pose proof (lookup_lt_Some _ _ _ Hd) as Hi.
  assert ((calculateHash <$> data) !! i = Some (calculateHash d)) as Hx by (by rewrite list_lookup_fmap, Hd).
  assert (length (calculateHash <$> data) ≤ S (length data))%nat as Hl by (rewrite length_fmap; lia).
  split_and!; [done|done|by apply Hp| |].
  - intros mem rootHash ds ps Hps HR HD HP. rewrite VerifyProof_by_value by done. f_equal.
    unfold verifies. rewrite HD, HP, HR, Hh. apply bool_decide_eq_true. by apply path_of_verifies.
  - intros mem rootHash ds ps Hps Hlen HR HD. rewrite VerifyProof_by_value by done. cbn [fst].
    unfold verifies. intros Hv%bool_decide_eq_true. rewrite HR, Hh in Hv.
    destruct (path_of_sound (length data) (calculateHash <$> data) i (calculateHash d)
      (calculateHash (content mem ds)) (content mem <$> ps)) as [Heq|?]; try done.
    + apply Forall_fmap, Forall_true. intros. apply Sum256_length.
    + apply Sum256_length.
    + by rewrite length_fmap.
    + by apply collide_here.
    + by apply collide_cons.
Qed.

(** The leaf at place 2 of three, its proof laid out in a memory without spare room. *)
Lemma merkle_proofs_witness :
  let data := [bytes_of "a"; bytes_of "b"; bytes_of "c"] in
  let mem := merkle_root data ++ bytes_of "c" ++ concat (merkle_path data 2) in
  VerifyProof {| off := 0; len := 32; cap := 32 |} {| off := 32; len := 1; cap := 1 |}
    [{| off := 33; len := 32; cap := 32 |}; {| off := 65; len := 32; cap := 32 |}] 2 mem = (true, mem).
Proof.
  destruct (merkle_proofs [bytes_of "a"; bytes_of "b"; bytes_of "c"] 2 (bytes_of "c")) as
    (t & rn & proof & Ht & Hr & Hp & Hok & _); [done|].
  destruct (New_unique _ _ _ _ 2 Ht Hr Hp ltac:(vm_compute; lia)) as [HR ->]. clear Ht Hr Hp.
  intros data mem. refine (Hok mem _ _ _ _ _ _ _).
  - by repeat constructor.
  - rewrite HR. vm_compute. reflexivity.
  - vm_compute. reflexivity.
  - vm_compute. reflexivity.
Defined.

(** ** Behaviour that differs from what a proof should show *)

(** A proof is not bound to the number of leaves: the tree of three leaves has the root of the
    tree that repeats the last one, and a fourth leaf is proved to be in it. *)
Theorem merkle_repeated_leaf (a b c : list Z) :
  merkle_root [a; b; c] = merkle_root [a; b; c; c] ∧
  verifies (merkle_root [a; b; c]) c (merkle_path [a; b; c; c] 3) 3 = true.
Proof.
  split; [done|]. apply bool_decide_eq_true.
  change (merkle_root [a; b; c]) with (merkle_root [a; b; c; c]). unfold merkle_root, merkle_path.
  apply (path_of_verifies 4 (calculateHash <$> [a; b; c; c]) 3 (calculateHash c)); [cbn; lia|done].
Qed.

(** Nor to the height: leaves and inner nodes are hashed alike, so the 64 bytes of two digests
    are proved to be a leaf. *)
Theorem merkle_inner_node_as_leaf (a b : list Z) :
  verifies (merkle_root [a; b]) (calculateHash a ++ calculateHash b) [] 0 = true.
Proof. by apply bool_decide_eq_true. Qed.

(** A valid proof whose hashes were cut from one buffer, as a decoder does, is refused: the first
    append, at an odd index, writes the digest over the second hash. *)
Theorem merkle_shared_buffer_rejected :
  let data := bytes_of <$> ["a"; "b"; "c"] in
  let mem := merkle_root data ++ bytes_of "b" ++ concat (merkle_path data 1) in
  let p (spare : nat) := [{| off := 33; len := 32; cap := 32 + spare |}; {| off := 65; len := 32; cap := 32 |}] in
  let verify spare := (VerifyProof {| off := 0; len := 32; cap := 32 |} {| off := 32; len := 1; cap := 1 |}
                         (p spare) 1 mem).1 in
  verify 0%nat = true ∧ verify 32%nat = false.
Proof. vm_compute. done. Qed.
