(* ===== verification/RangeTree.v ===== *)
(** * Trees over ranges (pkg/datastructures/tree/fenwick, pkg/datastructures/tree/segment)

    The Fenwick tree and the segment tree live in a slice; an index out of range, which
    panics, is [None], and so is a loop that does not end within its fuel. *)

From S2P Require Import Prelude.
From stdpp Require Import options.
Open Scope Z_scope.

(** [s[i]] and [s[i] = v] *)
Definition at_ (s : list Z) (i : Z) : option Z := if decide (0 ≤ i) then s !! Z.to_nat i else None.
Definition put_at (s : list Z) (i v : Z) : option (list Z) :=
  if decide (0 ≤ i < Z.of_nat (length s)) then Some (<[Z.to_nat i := v]> s) else None.

Lemma at_Some s i : 0 ≤ i < Z.of_nat (length s) → ∃ x, at_ s i = Some x.
Proof.
  intros Hi. unfold at_. rewrite decide_True by lia. apply lookup_lt_is_Some_2. lia.
Qed.

Lemma put_at_spec s i v : 0 ≤ i < Z.of_nat (length s) →
  ∃ s', put_at s i v = Some s' ∧ length s' = length s ∧ at_ s' i = Some v ∧
    ∀ k, k ≠ i → at_ s' k = at_ s k.
Proof.
  intros Hi. unfold put_at. rewrite decide_True by done. eexists. split; [done|].
  split; [apply length_insert|]. unfold at_. split.
  - rewrite decide_True by lia. apply list_lookup_insert_eq. lia.
  - intros k Hk. case_decide; [|done]. apply list_lookup_insert_ne. lia.
Qed.

(** ** Fenwick trees *)

Module Fenwick.

(** [i & -i] *)
Definition lowbit (i : Z) : Z := Z.land i (- i).

(* src: pkg/datastructures/tree/fenwick/fenwick.go 9-13 New *)
Definition fw_New (size : Z) : list Z := replicate (Z.to_nat (size + 1)) 0.

(* src: pkg/datastructures/tree/fenwick/fenwick.go 16-21 Add *)
Fixpoint Add (fuel : nat) (t : list Z) (i delta : Z) : option (list Z) :=
  if decide (i < Z.of_nat (length t)) then
    match fuel with
    | O => None
    | S fuel =>
        x ← at_ t i;
        t ← put_at t i (i64 (x + delta));
        Add fuel t (i64 (i + lowbit i)) delta
    end
  else Some t.

(* src: pkg/datastructures/tree/fenwick/fenwick.go 24-31 Query *)
Fixpoint query_loop (fuel : nat) (t : list Z) (sum i : Z) : option Z :=
  if decide (0 < i) then
    match fuel with
    | O => None
    | S fuel => x ← at_ t i; query_loop fuel t (i64 (sum + x)) (i64 (i - lowbit i))
    end
  else Some sum.

(* src: pkg/datastructures/tree/fenwick/fenwick.go 24-31 Query *)
Definition fw_Query (t : list Z) (i : Z) : option Z := query_loop (length t) t 0 i.

(* src: pkg/datastructures/tree/fenwick/fenwick.go 34-36 RangeQuery *)
Definition RangeQuery (t : list Z) (i j : Z) : option Z :=
  a ← fw_Query t j; b ← fw_Query t (i - 1); Some (i64 (a - b)).

(** *** The lowest bit *)

Lemma lowbit_double z : lowbit (2 * z) = 2 * lowbit z.
Proof.
  unfold lowbit. replace (- (2 * z)) with (2 * - z) by lia.
  rewrite !(Z.mul_comm 2), <- !(Z.shiftl_mul_pow2 _ 1) by lia. symmetry. apply Z.shiftl_land.
Qed.

Lemma lowbit_odd z : lowbit (2 * z + 1) = 1.
Proof.
  unfold lowbit. apply Z.bits_inj'. intros n Hn. rewrite Z.land_spec.
  replace (- (2 * z + 1)) with (2 * Z.lnot z + 1) by (unfold Z.lnot; lia).
  destruct (decide (n = 0)) as [->|].
  - by rewrite !Z.testbit_odd_0.
  - replace n with (Z.succ (n - 1)) by lia. rewrite !Z.testbit_odd_succ by lia.
    rewrite Z.lnot_spec by lia.
    assert (Z.testbit 1 (Z.succ (n - 1)) = false) as -> by (change 1 with (2 ^ 0) at 1; apply Z.pow2_bits_false; lia).
    by destruct (Z.testbit z (n - 1)).
Qed.

(** A positive number is an odd multiple of its lowest bit, a power of two. *)
Lemma lowbit_spec i : 0 < i → ∃ a u, 0 ≤ a ∧ 0 ≤ u ∧ lowbit i = 2 ^ a ∧ i = 2 ^ a * (2 * u + 1).
Proof.
  intros Hi. destruct i as [|p|p]; [lia| |lia]. clear Hi. induction p as [p IH|p IH|].
  - exists 0, (Z.pos p). rewrite Pos2Z.inj_xI, lowbit_odd. split_and!; lia.
  - destruct IH as (a & u & Ha & Hu & Hl & Hi). exists (a + 1), u.
    rewrite Pos2Z.inj_xO, lowbit_double, Hl, Z.pow_add_r by lia. split_and!; lia.
  - by exists 0, 0.
Qed.

Lemma lowbit_range i : 0 < i → 0 < lowbit i ≤ i.
Proof.
  intros (a & u & Ha & Hu & -> & Hi)%lowbit_spec. pose proof (Z.pow_pos_nonneg 2 a). nia.
Qed.

(** Place [k] of the tree holds the sum of the elements it covers. *)
Definition covers (i k : Z) : Prop := k - lowbit k < i ≤ k.
#[global] Instance covers_dec i k : Decision (covers i k).
Proof. unfold covers. apply _. Defined.

(** The places that cover [i] are [i] and those that cover the next place of the loop. *)
Lemma covers_next i k : 0 < i → 0 < k → covers i k ↔ k = i ∨ covers (i + lowbit i) k.
Proof.
  intros Hi Hk. pose proof (lowbit_range i Hi). pose proof (lowbit_range k Hk).
  destruct (lowbit_spec i Hi) as (a & u & Ha & Hu & Hli & Heq).
  destruct (lowbit_spec k Hk) as (b & v & Hb & Hv & Hlk & Hek).
  unfold covers. rewrite Hli, Hlk in *. clear Hli Hlk.
  (* both numbers as multiples of the smaller power *)
  destruct (decide (a ≤ b)) as [Hab|Hab].
  - assert (2 ^ b = 2 ^ a * 2 ^ (b - a)) as Hp by (rewrite <- Z.pow_add_r by lia; f_equal; lia).
    assert (0 < 2 ^ (b - a)) as HQ by (apply Z.pow_pos_nonneg; lia).
    assert (0 < 2 ^ a) as HA by (apply Z.pow_pos_nonneg; lia).
    revert Hp HQ HA Heq Hek. generalize (2 ^ (b - a)) (2 ^ a) (2 ^ b). intros Q A B -> HQ HA -> ->. clear -Hu Hv HQ HA.
    replace (A * Q * (2 * v + 1) - A * Q) with (A * (2 * (Q * v))) by lia.
    replace (A * Q * (2 * v + 1)) with (A * (2 * (Q * v) + Q)) by lia.
    replace (A * (2 * u + 1) + A) with (A * (2 * u + 2)) by lia. set (T := Q * v).
    rewrite <- !Z.mul_lt_mono_pos_l, <- !Z.mul_le_mono_pos_l, Z.mul_cancel_l by lia. lia.
  - assert (2 ^ a = 2 ^ b * (2 * 2 ^ (a - b - 1))) as Hp.
    { rewrite <- Z.pow_succ_r, <- Z.pow_add_r by lia. f_equal. lia. }
    assert (0 < 2 ^ (a - b - 1)) as HQ by (apply Z.pow_pos_nonneg; lia).
    assert (0 < 2 ^ b) as HB by (apply Z.pow_pos_nonneg; lia).
    revert Hp HQ HB Heq Hek. generalize (2 ^ (a - b - 1)) (2 ^ b) (2 ^ a). intros Q B A -> HQ HB -> ->. clear -Hu Hv HQ HB.
    replace (B * (2 * v + 1) - B) with (B * (2 * v)) by lia.
    replace (B * (2 * Q) * (2 * u + 1) + B * (2 * Q)) with (B * (2 * (Q * (2 * u + 1)) + 2 * Q)) by lia.
    replace (B * (2 * Q) * (2 * u + 1)) with (B * (2 * (Q * (2 * u + 1)))) by lia. set (T := Q * (2 * u + 1)).
    rewrite <- !Z.mul_lt_mono_pos_l, <- !Z.mul_le_mono_pos_l, Z.mul_cancel_l by lia. lia.
Qed.

(** *** Additions and sums *)

(** [delta] is added at exactly the places that cover [i]. *)
Lemma Add_spec fuel t i delta :
  0 < i → Z.of_nat (length t) < 2 ^ 62 → Z.of_nat (length t) - i ≤ Z.of_nat fuel →
  ∃ t', Add fuel t i delta = Some t' ∧ length t' = length t ∧
    ∀ k, 0 < k → at_ t' k = if decide (covers i k) then (λ x, i64 (x + delta)) <$> at_ t k else at_ t k.
Proof.
  revert t i. induction fuel as [|fuel IH]; intros t i Hi Hlen Hf; cbn [Add];
    (destruct (decide (i < Z.of_nat (length t))) as [Hlt|Hge]; [try lia|]).
  1,3: exists t; (split_and!; [done|done|]); intros k Hk; case_decide as Hc; [|done];
    unfold covers in Hc; unfold at_; rewrite decide_True by lia; by rewrite lookup_ge_None_2 by lia.
  destruct (at_Some t i) as [x Hx]; [lia|]. rewrite Hx. cbn [mbind option_bind].
  destruct (put_at_spec t i (i64 (x + delta))) as (t1 & -> & L1 & Hi1 & Hne); [lia|]. cbn [mbind option_bind].
  pose proof (lowbit_range i Hi). rewrite (i64_id (i + lowbit i)) by (unfold is_i64; lia).
  destruct (IH t1 (i + lowbit i)) as (t2 & -> & L2 & H2); [lia|lia|lia|].
  exists t2. split_and!; [done|lia|]. intros k Hk. rewrite H2 by done.
  destruct (decide (covers i k)) as [Hc|Hc].
  - apply covers_next in Hc as [->|Hc]; [|..]; try done.
    + rewrite decide_False by (unfold covers; lia). by rewrite Hi1, Hx.
    + rewrite decide_True by done. rewrite Hne; [done|]. unfold covers in Hc. lia.
  - rewrite covers_next in Hc by done. rewrite decide_False by naive_solver. apply Hne. naive_solver.
Qed.

(** The sum of what was added behind [lo] and up to [hi]. *)
Definition amount (lo hi : Z) (hist : list (Z * Z)) : Z :=
  sumZ ((λ '(j, d), if decide (lo < j ≤ hi) then d else 0) <$> hist).

Lemma amount_split lo mid hi hist : lo ≤ mid ≤ hi → amount lo hi hist = amount lo mid hist + amount mid hi hist.
Proof.
  intros Hm. unfold amount. induction hist as [|[j d] hist IH]; [done|]. cbn [fmap list_fmap]. rewrite !sumZ_cons, IH.
  repeat case_decide; lia.
Qed.

Lemma amount_empty lo hist : amount lo lo hist = 0.
Proof.
  unfold amount. induction hist as [|[j d] hist IH]; [done|]. cbn [fmap list_fmap].
  rewrite sumZ_cons, IH, decide_False by lia. done.
Qed.

(** The tree of a history of additions. *)
Definition represents (t : list Z) (hist : list (Z * Z)) : Prop :=
  ∀ k, 0 < k < Z.of_nat (length t) → at_ t k = Some (i64 (amount (k - lowbit k) k hist)).

Lemma query_loop_spec fuel t hist acc i :
  represents t hist → Z.of_nat (length t) < 2 ^ 62 → i < Z.of_nat (length t) → 0 ≤ i ≤ Z.of_nat fuel →
  query_loop fuel t (i64 acc) i = Some (i64 (acc + amount 0 i hist)).
Proof.
  intros Hr Hlen. revert acc i. induction fuel as [|fuel IH]; intros acc i Hi Hf; cbn [query_loop].
  { rewrite decide_False by lia. replace i with 0 by lia. rewrite amount_empty. do 2 f_equal. lia. }
  destruct (decide (0 < i)) as [Hpos|Hneg].
  2:{ replace i with 0 by lia. rewrite amount_empty. do 2 f_equal. lia. }
  pose proof (lowbit_range i Hpos). rewrite Hr by lia. cbn [mbind option_bind].
  rewrite (i64_id (i - lowbit i)) by (unfold is_i64; lia). rewrite i64_add_l, i64_add_r, IH by lia.
  do 2 f_equal. rewrite (amount_split 0 (i - lowbit i) i) by lia. lia.
Qed.

(** A history of additions, the oldest first. *)
Fixpoint adds (t : list Z) (hist : list (Z * Z)) : option (list Z) :=
  match hist with
  | [] => Some t
  | (i, d) :: hist => t ← Add (length t) t i d; adds t hist
  end.

Lemma amount_app lo hi h1 h2 : amount lo hi (h1 ++ h2) = amount lo hi h1 + amount lo hi h2.
Proof. unfold amount. by rewrite fmap_app, sumZ_app. Qed.

Lemma amount_one lo hi i d : amount lo hi [(i, d)] = if decide (lo < i ≤ hi) then d else 0.
Proof. unfold amount. cbn. lia. Qed.

Lemma adds_represents t hist0 hist :
  represents t hist0 → Z.of_nat (length t) < 2 ^ 62 → Forall (λ p, 0 < p.1) hist →
  ∃ t', adds t hist = Some t' ∧ length t' = length t ∧ represents t' (hist0 ++ hist).
Proof.
  intros Hr Hlen Hh. revert t hist0 Hr Hlen. induction Hh as [|[i d] hist Hi Hh IH]; intros t hist0 Hr Hlen; cbn [adds].
  { exists t. by rewrite app_nil_r. }
  cbn in Hi. destruct (Add_spec (length t) t i d) as (t1 & -> & L1 & H1); [done|done|lia|]. cbn [mbind option_bind].
  destruct (IH t1 (hist0 ++ [(i, d)])) as (t2 & -> & L2 & H2); [|lia|].
  - intros k Hk. rewrite H1, Hr by lia. rewrite amount_app, amount_one. unfold covers.
    repeat case_decide; try done; cbn; rewrite ?i64_add_l; do 2 f_equal; lia.
  - exists t2. rewrite <- app_assoc in H2. split_and!; [done|lia|done].
Qed.

(** After any additions at places from 1 on, [fw_Query] and [RangeQuery] return the sums of what was
    added up to [i], and from [i] to [j], as an [int]. *)
Theorem fenwick_sums size hist i j :
  0 ≤ size < 2 ^ 62 - 1 → Forall (λ p, 0 < p.1) hist → 1 ≤ i ≤ j + 1 → j ≤ size →
  ∃ t, adds (fw_New size) hist = Some t ∧ fw_Query t j = Some (i64 (amount 0 j hist)) ∧
    RangeQuery t i j = Some (i64 (amount (i - 1) j hist)).
Proof.
  intros Hs Hh Hi Hj. assert (length (fw_New size) = Z.to_nat (size + 1)) as Hl by apply length_replicate.
  destruct (adds_represents (fw_New size) [] hist) as (t & Ht & Hlt & Hr); [|rewrite Hl; lia|done|].
  { intros k Hk. unfold fw_New, at_. rewrite decide_True, lookup_replicate_2 by (rewrite Hl in Hk; lia). done. }
  assert (∀ k, 0 ≤ k ≤ size → fw_Query t k = Some (i64 (amount 0 k hist))) as Hq.
  { intros k Hk. unfold fw_Query. apply (query_loop_spec _ _ hist 0); [done|rewrite Hlt, Hl; lia..]. }
  exists t. split; [done|]. split; [apply Hq; lia|]. unfold RangeQuery. rewrite !Hq by lia. cbn [mbind option_bind].
  rewrite i64_sub_l, i64_sub_r, (amount_split 0 (i - 1) j) by lia. do 2 f_equal. lia.
Qed.

(** [Add] at place 0, which has no lowest bit, never returns. *)
Theorem fenwick_add_zero_hangs t delta fuel : t ≠ [] → Add fuel t 0 delta = None.
Proof.
  revert t. induction fuel as [|fuel IH]; intros t Ht; cbn [Add];
    (rewrite decide_True by (destruct t; [done|cbn; lia])); [done|].
  destruct (at_ t 0) as [x|]; [|done]. cbn [mbind option_bind].
  unfold put_at. case_decide; [|done]. cbn [mbind option_bind]. apply IH. by destruct t.
Qed.
End Fenwick.

(** ** Segment trees *)

Module Segment.

(** [op] may be nil, which stands for the sum. *)
(* src: pkg/datastructures/tree/segment/tree.go 5-9 Tree *)
Record Tree := { tree : list Z; n : Z; op : Z → Z → Z }.

Definition sum (a b : Z) : Z := i64 (a + b).

(* src: pkg/datastructures/tree/segment/tree.go 32-41 build *)
Fixpoint build (fuel : nat) (op : Z → Z → Z) (data t : list Z) (node start end_ : Z) : option (list Z) :=
  if decide (start = end_) then x ← at_ data start; put_at t node x
  else match fuel with
  | O => None
  | S fuel =>
      let mid := Z.quot (start + end_) 2 in
      t ← build fuel op data t (2 * node) start mid;
      t ← build fuel op data t (2 * node + 1) (mid + 1) end_;
      a ← at_ t (2 * node); b ← at_ t (2 * node + 1); put_at t node (op a b)
  end.

(* src: pkg/datastructures/tree/segment/tree.go 13-30 New *)
Definition New (data : list Z) (op : option (Z → Z → Z)) : option Tree :=
  let op := default sum op in
  let n := Z.of_nat (length data) in
  let nodes := replicate (4 * length data) 0 in
  t ← (if decide (0 < n) then build (length data) op data nodes 1 0 (n - 1) else Some nodes);
  Some {| tree := t; n := n; op := op |}.

(* src: pkg/datastructures/tree/segment/tree.go 48-60 update *)
Fixpoint update (fuel : nat) (op : Z → Z → Z) (t : list Z) (node start end_ idx val : Z) : option (list Z) :=
  if decide (start = end_) then put_at t node val
  else match fuel with
  | O => None
  | S fuel =>
      let mid := Z.quot (start + end_) 2 in
      t ← (if decide (start ≤ idx ≤ mid) then update fuel op t (2 * node) start mid idx val
           else update fuel op t (2 * node + 1) (mid + 1) end_ idx val);
      a ← at_ t (2 * node); b ← at_ t (2 * node + 1); put_at t node (op a b)
  end.

(* src: pkg/datastructures/tree/segment/tree.go 44-46 Update *)
Definition Update (idx val : Z) (t : Tree) : option Tree :=
  l ← update (Z.to_nat (n t)) (op t) (tree t) 1 0 (n t - 1) idx val;
  Some {| tree := l; n := n t; op := op t |}.

(* src: pkg/datastructures/tree/segment/tree.go 67-80 query *)
Fixpoint query (fuel : nat) (op : Z → Z → Z) (t : list Z) (node start end_ l r : Z) : option Z :=
  if decide (r < start ∨ end_ < l) then Some 0
  else if decide (l ≤ start ∧ end_ ≤ r) then at_ t node
  else match fuel with
  | O => None
  | S fuel =>
      let mid := Z.quot (start + end_) 2 in
      p1 ← query fuel op t (2 * node) start mid l r;
      p2 ← query fuel op t (2 * node + 1) (mid + 1) end_ l r;
      Some (op p1 p2)
  end.

(* src: pkg/datastructures/tree/segment/tree.go 63-65 Query *)
Definition Query (l r : Z) (t : Tree) : option Z :=
  query (Z.to_nat (n t)) (op t) (tree t) 1 0 (n t - 1) l r.

Local Ltac div_lia := clear; Z.to_euclidean_division_equations; lia.

(** *** Places of the tree *)

(** [k] is [x] or below it. *)
Definition under (x k : Z) : Prop := ∃ d, 0 ≤ d ∧ k / 2 ^ d = x.

Lemma under_refl x : under x x.
Proof. exists 0. split; [done|]. by rewrite Z.pow_0_r, Z.div_1_r. Qed.

Lemma under_child x c k : c = 2 * x ∨ c = 2 * x + 1 → under c k → under x k.
Proof.
  intros Hc (d & Hd & Hk). exists (d + 1). split; [lia|].
  rewrite Z.pow_add_r, <- Z.div_div, Hk by lia. change (2 ^ 1) with 2. destruct Hc as [->| ->]; div_lia.
Qed.

Lemma under_ge x k : 0 < x → under x k → x ≤ k.
Proof.
  intros Hx (d & Hd & Hk). pose proof (Z.pow_pos_nonneg 2 d). pose proof (Z.mul_div_le k (2 ^ d)). nia.
Qed.

Lemma under_disjoint x k : 0 < x → under (2 * x) k → under (2 * x + 1) k → False.
Proof.
  intros Hx (d & Hd & Hk) (d' & Hd' & Hk').
  assert (∀ a b u v, 0 ≤ a < b → k / 2 ^ a = u → k / 2 ^ b = v → v = u / 2 ^ (b - a)) as Hdiv.
  { intros a b u v Hab <- <-. rewrite Z.div_div by lia. rewrite <- Z.pow_add_r by lia. do 2 f_equal. lia. }
  destruct (Z.lt_trichotomy d d') as [Hlt|[->|Hlt]]; [|lia|].
  - apply (Hdiv d d' _ _ ltac:(lia) Hk) in Hk'. replace (d' - d) with (1 + (d' - d - 1)) in Hk' by lia.
    rewrite Z.pow_add_r, <- Z.div_div in Hk' by lia. change (2 ^ 1) with 2 in Hk'.
    replace (2 * x / 2) with x in Hk' by div_lia.
    pose proof (Z.div_le_upper_bound x (2 ^ (d' - d - 1)) x). pose proof (Z.pow_pos_nonneg 2 (d' - d - 1)). nia.
  - apply (Hdiv d' d _ _ ltac:(lia) Hk') in Hk. replace (d - d') with (1 + (d - d' - 1)) in Hk by lia.
    rewrite Z.pow_add_r, <- Z.div_div in Hk by lia. change (2 ^ 1) with 2 in Hk.
    replace ((2 * x + 1) / 2) with x in Hk by div_lia.
    pose proof (Z.div_le_upper_bound x (2 ^ (d - d' - 1)) x). pose proof (Z.pow_pos_nonneg 2 (d - d' - 1)). nia.
Qed.

(** The places used for a range lie within four times the number of elements. *)
Definition fits (n node start end_ : Z) : Prop :=
  0 < node < 4 * n ∧ (start < end_ → (node + 1) * (end_ - start) ≤ 2 * (n - 1)).

Lemma fits_root n : 0 < n → fits n 1 0 (n - 1).
Proof. intros. split; lia. Qed.

Lemma fits_children n node s e : 0 ≤ s < e → fits n node s e →
  let mid := Z.quot (s + e) 2 in
  s ≤ mid < e ∧ fits n (2 * node) s mid ∧ fits n (2 * node + 1) (mid + 1) e.
Proof.
  intros Hs [Hn Hf]. cbn zeta. rewrite Z.quot_div_nonneg by lia. set (mid := (s + e) / 2).
  assert (2 * mid ≤ s + e < 2 * mid + 2) as Hm by (unfold mid; div_lia). clearbody mid. specialize (Hf ltac:(lia)).
  split; [lia|]. split; (split; [nia|]); intros; nia.
Qed.

(** *** Operations with the identity 0 *)

(** What [query] relies on: it answers 0 for a range it does not meet. *)
Class SumLike (f : Z → Z → Z) : Prop := {
  f_range x y : is_i64 (f x y);
  f_assoc x y z : f (f x y) z = f x (f y z);
  f_0_l x : is_i64 x → f 0 x = x;
  f_0_r x : is_i64 x → f x 0 = x;
}.

#[global] Instance sum_sumlike : SumLike sum.
Proof.
  unfold sum. split; intros.
  - apply i64_range.
  - rewrite i64_add_l, i64_add_r. f_equal. lia.
  - by apply i64_id.
  - rewrite Z.add_0_r. by apply i64_id.
Qed.

Section proofs.
  Context (f : Z → Z → Z) `{!SumLike f}.
#[local] Set Default Proof Using "Type*".
  Implicit Types (data t : list Z).

(** The elements from [s] to [e], and their combination. *)
Definition slice data (s e : Z) : list Z := take (Z.to_nat (e - s + 1)) (drop (Z.to_nat s) data).
Definition seg data (s e : Z) : Z := foldr f 0 (slice data s e).

Lemma fold_i64 l : is_i64 (foldr f 0 l).
Proof. destruct l; [done|]. cbn [foldr]. apply (f_range (f := f)). Qed.

Lemma fold_app l k : foldr f 0 (l ++ k) = f (foldr f 0 l) (foldr f 0 k).
Proof.
  induction l as [|x l IH]; cbn; [symmetry; apply f_0_l, fold_i64|]. by rewrite IH, f_assoc.
Qed.

Lemma slice_split data s m e : 0 ≤ s ≤ m + 1 → m ≤ e → slice data s e = slice data s m ++ slice data (m + 1) e.
Proof.
  intros Hs Hm. unfold slice. replace (Z.to_nat (m + 1)) with (Z.to_nat s + Z.to_nat (m - s + 1))%nat by lia.
  rewrite <- drop_drop. rewrite <- (take_drop (Z.to_nat (m - s + 1)) (drop (Z.to_nat s) data)) at 1.
  destruct (decide (Z.to_nat (m - s + 1) ≤ length (drop (Z.to_nat s) data))%nat) as [Hl|Hl].
  - rewrite take_app, take_take, length_take. f_equal; f_equal; lia.
  - rewrite (drop_ge _ (Z.to_nat (m - s + 1))) by lia. rewrite !app_nil_r, take_take, take_nil, app_nil_r. f_equal. lia.
Qed.

Lemma seg_split data s m e : 0 ≤ s ≤ m + 1 → m ≤ e → f (seg data s m) (seg data (m + 1) e) = seg data s e.
Proof. intros. unfold seg. by rewrite (slice_split data s m e), fold_app. Qed.

Lemma seg_empty data s e : e < s → seg data s e = 0.
Proof. intros. unfold seg, slice. by replace (Z.to_nat (e - s + 1)) with 0%nat by lia. Qed.

Lemma seg_one data s x : is_i64 x → at_ data s = Some x → seg data s s = x.
Proof.
  unfold at_. case_decide; [|done]. intros Hi Hx. unfold seg, slice. replace (s - s + 1) with 1 by lia.
  rewrite (drop_S _ _ _ Hx). cbn. by apply f_0_r.
Qed.

(** The tree below [node] holds the combinations of its ranges. *)
Inductive rep (t data : list Z) : Z → Z → Z → Prop :=
  | rep_leaf node s x : at_ data s = Some x → at_ t node = Some x → rep t data node s s
  | rep_node node s e : s < e →
      rep t data (2 * node) s (Z.quot (s + e) 2) → rep t data (2 * node + 1) (Z.quot (s + e) 2 + 1) e →
      at_ t node = Some (seg data s e) → rep t data node s e.

Lemma rep_value t data node s e : Forall is_i64 data → rep t data node s e → at_ t node = Some (seg data s e).
Proof.
  intros Hd [? ? x Hx Hn|]; [|done]. rewrite Hn. f_equal. symmetry. apply seg_one; [|done].
  rewrite Forall_lookup in Hd. unfold at_ in Hx. case_decide; [eauto|done].
Qed.

Lemma rep_frame t t' data node s e :
  (∀ k, under node k → at_ t' k = at_ t k) → rep t data node s e → rep t' data node s e.
Proof.
  intros Hk Hr. induction Hr as [node s x Hx Hn|node s e Hlt Hl IHl Hr IHr Hn].
  - eapply rep_leaf; [done|]. rewrite Hk; [done|apply under_refl].
  - apply rep_node; [done| | |].
    + apply IHl. intros k Hu. apply Hk. eapply under_child; [|done]. by left.
    + apply IHr. intros k Hu. apply Hk. eapply under_child; [|done]. by right.
    + rewrite Hk; [done|apply under_refl].
Qed.

(** A node is built from its children. *)
Lemma rep_join t data node s e :
  0 < node < Z.of_nat (length t) → 0 ≤ s < e → Forall is_i64 data →
  rep t data (2 * node) s (Z.quot (s + e) 2) → rep t data (2 * node + 1) (Z.quot (s + e) 2 + 1) e →
  ∃ t', (a ← at_ t (2 * node); b ← at_ t (2 * node + 1); put_at t node (f a b)) = Some t' ∧
    length t' = length t ∧ rep t' data node s e ∧ ∀ k, k ≠ node → at_ t' k = at_ t k.
Proof.
  intros Hn Hs Hd Hl Hr. rewrite (rep_value _ _ _ _ _ Hd Hl), (rep_value _ _ _ _ _ Hd Hr). cbn [mbind option_bind].
  assert (s ≤ Z.quot (s + e) 2 < e) as Hm.
  { rewrite Z.quot_div_nonneg by lia. Z.to_euclidean_division_equations. lia. }
  rewrite seg_split by lia. destruct (put_at_spec t node (seg data s e)) as (t' & -> & Hlen & Hv & Hne); [lia|].
  exists t'. split_and!; [done|done| |done].
  apply rep_node; [lia| | |done].
  - eapply rep_frame; [|done]. intros k Hu. apply Hne. intros ->. apply under_ge in Hu; lia.
  - eapply rep_frame; [|done]. intros k Hu. apply Hne. intros ->. apply under_ge in Hu; lia.
Qed.

Lemma segment_build_spec fuel data t node s e :
  Forall is_i64 data → 0 ≤ s ≤ e → e < Z.of_nat (length data) → e - s ≤ Z.of_nat fuel →
  length t = (4 * length data)%nat → fits (Z.of_nat (length data)) node s e →
  ∃ t', build fuel f data t node s e = Some t' ∧ length t' = length t ∧ rep t' data node s e ∧
    ∀ k, ¬ under node k → at_ t' k = at_ t k.
Proof.
  intros Hd. revert t node s e. induction fuel as [|fuel IH]; intros t node s e Hs He Hf Hl Hfit; cbn [build];
    (destruct (decide (s = e)) as [<-|Hne]; [|try lia]).
  1,2: destruct (at_Some data s) as [x Hx]; [lia|]; rewrite Hx; cbn [mbind option_bind];
    destruct (put_at_spec t node x) as (t' & -> & Hlen & Hv & Hk); [destruct Hfit; lia|];
    exists t'; (split_and!; [done|done|by eapply rep_leaf|]); intros k Hu; apply Hk; intros ->; apply Hu, under_refl.
  assert (0 ≤ s < e) as Hse by lia.
  destruct (fits_children _ _ _ _ Hse Hfit) as (Hm & Hfl & Hfr).
  destruct (IH t (2 * node) s (Z.quot (s + e) 2)) as (t1 & -> & L1 & R1 & K1); [lia|lia|lia|done|done|].
  cbn [mbind option_bind].
  destruct (IH t1 (2 * node + 1) (Z.quot (s + e) 2 + 1) e) as (t2 & -> & L2 & R2 & K2); [lia|lia|lia|lia|done|].
  destruct Hfit as [Hn _].
  destruct (rep_join t2 data node s e) as (t3 & Hj & L3 & R3 & K3); [lia|lia|done| |done|].
  { eapply rep_frame; [|exact R1]. intros k Hu. apply K2. intros Hu'. apply (under_disjoint node k); [lia|exact Hu|exact Hu']. }
  exists t3. split; [done|]. split_and!; [lia|done|]. intros k Hu. rewrite K3, K2, K1; [done| | |].
  - intros Hu'. apply Hu. eapply under_child; [|done]. by left.
  - intros Hu'. apply Hu. eapply under_child; [|done]. by right.
  - intros ->. apply Hu, under_refl.
Qed.

Lemma rep_data_ext t data data' node s e :
  0 ≤ s → (∀ k, s ≤ k ≤ e → at_ data' k = at_ data k) → rep t data node s e → rep t data' node s e.
Proof.
  intros Hs Hext Hr. induction Hr as [node s x Hx Hn|node s e Hlt Hl IHl Hr IHr Hn].
  - eapply rep_leaf; [|done]. rewrite Hext by lia. done.
  - assert (s ≤ Z.quot (s + e) 2 < e) as Hm.
    { rewrite Z.quot_div_nonneg by lia. clear -Hlt. Z.to_euclidean_division_equations. lia. }
    apply rep_node; [done|apply IHl; [done|]; intros; apply Hext; lia|apply IHr; [lia|]; intros; apply Hext; lia|].
    rewrite Hn. f_equal. unfold seg. f_equal. unfold slice. apply list_eq. intros i.
    destruct (decide (i < Z.to_nat (e - s + 1))%nat) as [Hi|Hi].
    + rewrite !lookup_take_lt, !lookup_drop by done. specialize (Hext (s + Z.of_nat i) ltac:(lia)).
      unfold at_ in Hext. rewrite decide_True in Hext by lia. rewrite decide_True in Hext by lia.
      by replace (Z.to_nat (s + Z.of_nat i)) with (Z.to_nat s + i)%nat in Hext by lia.
    + rewrite !lookup_take_ge by lia. done.
Qed.

Lemma update_spec fuel data t node s e idx v :
  Forall is_i64 data → is_i64 v → 0 ≤ s → s ≤ idx ≤ e → e < Z.of_nat (length data) → e - s ≤ Z.of_nat fuel →
  length t = (4 * length data)%nat → fits (Z.of_nat (length data)) node s e → rep t data node s e →
  ∃ t', update fuel f t node s e idx v = Some t' ∧ length t' = length t ∧
    rep t' (<[Z.to_nat idx := v]> data) node s e ∧ ∀ k, ¬ under node k → at_ t' k = at_ t k.
Proof.
  intros Hd Hv. set (data' := <[Z.to_nat idx := v]> data).
  assert (Forall is_i64 data') as Hd' by (by apply Forall_insert).
  assert (∀ k, k ≠ idx → 0 ≤ idx → at_ data' k = at_ data k) as Hother.
  { intros k Hk Hi. unfold at_, data'. case_decide; [|done]. apply list_lookup_insert_ne. lia. }
  revert t node s e. induction fuel as [|fuel IH]; intros t node s e Hs Hi He Hf Hl Hfit Hr; cbn [update];
    (destruct (decide (s = e)) as [<-|Hne]; [|try lia]).
  1,2: destruct (put_at_spec t node v) as (t' & -> & Hlen & Hnv & Hk); [destruct Hfit; lia|];
    exists t'; (split_and!; [done|done| |]);
    [eapply rep_leaf; [|done]; unfold at_, data'; rewrite decide_True by lia;
     replace s with idx by lia; apply list_lookup_insert_eq; lia
    |intros k Hu; apply Hk; intros ->; apply Hu, under_refl].
  assert (0 ≤ s < e) as Hse by lia.
  destruct (fits_children _ _ _ _ Hse Hfit) as (Hm & Hfl & Hfr).
  assert (0 < node < Z.of_nat (length t)) as Hn by (destruct Hfit; lia).
  inversion Hr as [|? ? ? _ Hrl Hrr _]; subst; [lia|].
  assert (∀ k, ¬ under node k → k ≠ node ∧ ¬ under (2 * node) k ∧ ¬ under (2 * node + 1) k) as Hout.
  { intros k Hu. split_and!; intros Hu'; apply Hu; [subst; apply under_refl|eapply under_child; [|done]..]; auto. }
  destruct (decide (s ≤ idx ≤ Z.quot (s + e) 2)) as [Hin|Hin].
  - destruct (IH t (2 * node) s (Z.quot (s + e) 2)) as (t1 & -> & L1 & R1 & K1); [lia|lia|lia|lia|done|done|done|].
    cbn [mbind option_bind].
    destruct (rep_join t1 data' node s e) as (t2 & Hj & L2 & R2 & K2); [lia|lia|done|done| |].
    { eapply rep_frame, (rep_data_ext t data); [|lia| |done].
      - intros k Hu. apply K1. intros Hu'. apply (under_disjoint node k); [lia|exact Hu'|exact Hu].
      - intros k Hk. apply Hother; lia. }
    exists t2. split; [done|]. split_and!; [lia|done|]. intros k (? & ? & ?)%Hout. by rewrite K2, K1.
  - destruct (IH t (2 * node + 1) (Z.quot (s + e) 2 + 1) e) as (t1 & -> & L1 & R1 & K1);
      [lia|lia|lia|lia|done|done|done|]. cbn [mbind option_bind].
    destruct (rep_join t1 data' node s e) as (t2 & Hj & L2 & R2 & K2); [lia|lia|done| |done|].
    { eapply rep_frame, (rep_data_ext t data); [|lia| |done].
      - intros k Hu. apply K1. intros Hu'. apply (under_disjoint node k); [lia|exact Hu|exact Hu'].
      - intros k Hk. apply Hother; lia. }
    exists t2. split; [done|]. split_and!; [lia|done|]. intros k (? & ? & ?)%Hout. by rewrite K2, K1.
Qed.

Lemma query_spec fuel data t node s e l r :
  Forall is_i64 data → 0 ≤ s ≤ e → e - s ≤ Z.of_nat fuel → rep t data node s e → l ≤ r →
  query fuel f t node s e l r = Some (seg data (Z.max l s) (Z.min r e)).
Proof.
  intros Hd Hs Hf Hr Hlr. revert node s e Hs Hf Hr. induction fuel as [|fuel IH]; intros node s e Hs Hf Hr; cbn [query].
  all: destruct (decide (r < s ∨ e < l)) as [Hout|Hin]; [rewrite seg_empty by lia; done|].
  all: destruct (decide (l ≤ s ∧ e ≤ r)) as [Hall|Hpart];
    [rewrite (rep_value _ _ _ _ _ Hd Hr); f_equal; f_equal; lia|].
  - lia.
  - inversion Hr as [|? ? ? Hlt Hrl Hrr _]; subst; [lia|].
    assert (s ≤ Z.quot (s + e) 2 < e) as Hm.
    { rewrite Z.quot_div_nonneg by lia. clear -Hlt. Z.to_euclidean_division_equations. lia. }
    erewrite (IH (2 * node)), (IH (2 * node + 1)) by (done || lia). cbn [mbind option_bind]. f_equal.
    set (m := Z.quot (s + e) 2) in *.
    destruct (decide (r ≤ m)) as [Hrm|Hrm].
    { rewrite (seg_empty data (Z.max l (m + 1))) by lia. rewrite f_0_r by apply fold_i64. f_equal; lia. }
    destruct (decide (m < l)) as [Hlm|Hlm].
    { rewrite (seg_empty data (Z.max l s) (Z.min r m)) by lia. rewrite f_0_l by apply fold_i64. f_equal; lia. }
    replace (Z.min r m) with m by lia. replace (Z.max l (m + 1)) with (m + 1) by lia. apply seg_split; lia.
Qed.
End proofs.

(** A history of updates. *)
Fixpoint updates (us : list (Z * Z)) (t : Tree) : option Tree :=
  match us with
  | [] => Some t
  | (idx, v) :: us => t ← Update idx v t; updates us t
  end.
Definition spec_updates (us : list (Z * Z)) (data : list Z) : list Z :=
  foldl (λ d '(idx, v), <[Z.to_nat idx := v]> d) data us.

Lemma updates_spec f `{!SumLike f} us : ∀ data t,
  Forall is_i64 data → Forall (λ '(idx, v), 0 ≤ idx < Z.of_nat (length data) ∧ is_i64 v) us →
  length t = (4 * length data)%nat → rep f t data 1 0 (Z.of_nat (length data) - 1) →
  ∃ t', updates us {| tree := t; n := Z.of_nat (length data); op := f |} =
      Some {| tree := t'; n := Z.of_nat (length data); op := f |} ∧
    rep f t' (spec_updates us data) 1 0 (Z.of_nat (length data) - 1) ∧ Forall is_i64 (spec_updates us data).
Proof.
  induction us as [|[idx v] us IH]; intros data t Hd Hu Hl Hr; cbn [updates spec_updates foldl]; [by eauto|].
  apply Forall_cons in Hu as [[Hi Hv] Hu]. unfold Update. cbn [n op tree].
  destruct (update_spec f (Z.to_nat (Z.of_nat (length data))) data t 1 0 (Z.of_nat (length data) - 1) idx v)
    as (t1 & -> & L1 & R1 & _); [done|done|lia|lia|lia|lia|done|apply fits_root; lia|done|].
  cbn [mbind option_bind].
  destruct (IH (<[Z.to_nat idx := v]> data) t1) as (t2 & Ht2 & R2 & F2); rewrite ?length_insert; [|done|lia|done|].
  { by apply Forall_insert. }
  rewrite length_insert in *. eauto.
Qed.

Lemma segment_tree_aux f `{!SumLike f} data us l r :
  Forall is_i64 data → data ≠ [] → Forall (λ '(idx, v), 0 ≤ idx < Z.of_nat (length data) ∧ is_i64 v) us →
  0 ≤ l ≤ r → r < Z.of_nat (length data) →
  ∃ t0 t, New data (Some f) = Some t0 ∧ updates us t0 = Some t ∧
    Query l r t = Some (foldr f 0 (slice (spec_updates us data) l r)).
Proof.
  intros Hd Hne Hu Hl Hr. assert (0 < length data)%nat by (destruct data; [done|cbn; lia]).
  unfold New. cbn [default from_option id]. rewrite decide_True by lia.
  destruct (segment_build_spec f (length data) data (replicate (4 * length data) 0) 1 0 (Z.of_nat (length data) - 1))
    as (t0 & -> & L0 & R0 & _); [done|lia|lia|lia|apply length_replicate|apply fits_root; lia|].
  cbn [mbind option_bind]. rewrite length_replicate in L0.
  destruct (updates_spec f us data t0 Hd Hu L0 R0) as (t & Ht & Rt & Ft).
  eexists _, _. split; [done|]. split; [exact Ht|]. unfold Query. cbn [n op tree].
  rewrite (query_spec f _ (spec_updates us data)) by (done || lia). f_equal. unfold seg. do 2 f_equal; lia.
Qed.

(** [Update] outside the range of the elements overwrites the last one. *)
Lemma update_outside fuel f t node s e idx v :
  0 ≤ s ≤ e → idx < s ∨ e < idx → update fuel f t node s e idx v = update fuel f t node s e e v.
Proof.
  revert t node s. induction fuel as [|fuel IH]; intros t node s Hs Hi; cbn [update];
    (destruct (decide (s = e)) as [->|Hne]; [done|]); [done|].
  assert (s ≤ Z.quot (s + e) 2 < e) as Hm.
  { rewrite Z.quot_div_nonneg by lia. Z.to_euclidean_division_equations. lia. }
  rewrite !decide_False by lia. by rewrite IH by lia.
Qed.

Theorem segment_update_outside t idx v :
  0 < n t → idx < 0 ∨ n t ≤ idx → Update idx v t = Update (n t - 1) v t.
Proof. intros Hn Hi. unfold Update. rewrite update_outside by lia. done. Qed.

(** A tree for the minimum, one of the operations the package names, answers 0. *)
Theorem segment_min_wrong :
  (t ← New [5; 3; 4] (Some Z.min); Query 0 1 t) = Some 0.
Proof. reflexivity. Qed.
End Segment.

(** After any additions at places from 1 on, [Query] and [RangeQuery] of a Fenwick tree are
    the sums of what was added up to [j], and from [i] to [j]; after any updates within its
    range, [Query] of a segment tree is the combination of the elements from [l] to [r], for
    every operation with the identity 0.  Both end and stay within their slices, and the sums
    wrap as an int does. *)
Theorem range_trees_sum size hist i j f `{!Segment.SumLike f} data us l r :
  0 ≤ size < 2 ^ 62 - 1 → Forall (λ p, 0 < p.1) hist → 1 ≤ i ≤ j + 1 → j ≤ size →
  Forall is_i64 data → Forall (λ '(idx, v), 0 ≤ idx < Z.of_nat (length data) ∧ is_i64 v) us →
  0 ≤ l ≤ r → r < Z.of_nat (length data) →
  (∃ t, Fenwick.adds (Fenwick.fw_New size) hist = Some t ∧
     Fenwick.fw_Query t j = Some (i64 (Fenwick.amount 0 j hist)) ∧
     Fenwick.RangeQuery t i j = Some (i64 (Fenwick.amount (i - 1) j hist))) ∧
  (∃ t0 t, Segment.New data (Some f) = Some t0 ∧ Segment.updates us t0 = Some t ∧
     Segment.Query l r t = Some (foldr f 0 (Segment.slice (Segment.spec_updates us data) l r))).
Proof.
  intros. split; [by apply Fenwick.fenwick_sums|]. apply Segment.segment_tree_aux; try done.
  intros ->. cbn in *. lia.
Qed.

Lemma range_trees_sum_witness :
  (∃ t, Fenwick.adds (Fenwick.fw_New 7) [(3, 5); (1, -2); (7, 9)] = Some t ∧
     Fenwick.fw_Query t 6 = Some (i64 (Fenwick.amount 0 6 [(3, 5); (1, -2); (7, 9)])) ∧
     Fenwick.RangeQuery t 2 6 = Some (i64 (Fenwick.amount (2 - 1) 6 [(3, 5); (1, -2); (7, 9)]))) ∧
  (∃ t0 t, Segment.New [4; 2; 7] (Some Segment.sum) = Some t0 ∧ Segment.updates [(1, 10)] t0 = Some t ∧
     Segment.Query 1 2 t = Some (foldr Segment.sum 0 (Segment.slice (Segment.spec_updates [(1, 10)] [4; 2; 7]) 1 2))).
Proof.
  apply (range_trees_sum 7 [(3, 5); (1, -2); (7, 9)] 2 6 Segment.sum [4; 2; 7] [(1, 10)] 1 2);
    repeat constructor; cbn; lia.
Defined.
