(* ===== verification/Bloom.v ===== *)
(** * pkg/datastructures/bloomfilter and pkg/cache/bloom.go

    The Bloom filter over words of 64 bits, with its inlined 128-bit FNV-1a hash, and the
    cache that asks it before it looks a key up.  The cache is any implementation of the
    interface (the class [Cache] of [MemCache], with the operations on several keys added
    here).  [None] is a panic: an index out of range or a division by zero.  The number of
    bits and hashes that [New] computes from logarithms are arguments of [NewWithSize]. *)

From S2P Require Import Prelude Errors MemCache.
From stdpp Require Import options.
Open Scope Z_scope.

(** ** Hashing *)

(** [bits.Mul64(h2, 315)] is the pair of the high and the low word. *)
(* src: pkg/datastructures/bloomfilter/bloomfilter.go 166-180 doubleHash *)
Definition hash_step (h : Z * Z) (b : Z) : Z * Z :=
  let '(h1, h2) := h in
  let h2 := Z.lxor h2 b in
  let hi := h2 * 315 / 2 ^ 64 in
  let lo := u64 (h2 * 315) in
  (u64 (u64 (u64 (h1 * 315) + u64 (Z.shiftl h2 24)) + hi), lo).

(* src: pkg/datastructures/bloomfilter/bloomfilter.go 159-183 doubleHash *)
Definition doubleHash (data : list Z) : Z * Z :=
  foldl hash_step (7809847782465536322, 7113472399480571277) data.

Definition bytes (s : string) : list Z :=
  (λ c, Z.of_N (Ascii.N_of_ascii c)) <$> String.list_ascii_of_string s.

(** FNV-1a with 128 bits, as the standard library documents it. *)
Definition fnv128a (data : list Z) : Z :=
  foldl (λ h b, Z.lxor h b * (2 ^ 88 + 315) mod 2 ^ 128) 144066263297769815596495629667062367629 data.

(** ** The filter *)

(* src: pkg/datastructures/bloomfilter/bloomfilter.go 23-29 BloomFilter *)
Record BloomFilter := { bits : list Z; numBits : Z; numHash : Z; count : Z }.

(* src: pkg/datastructures/bloomfilter/bloomfilter.go 65-73 NewWithSize *)
Definition NewWithSize (nb nh : Z) : BloomFilter :=
  {| bits := replicate (Z.to_nat (u64 (nb + 63) / 64)) 0; numBits := nb; numHash := nh; count := 0 |}.

(** [(uint(h1) + i*uint(h2)) % numBits] *)
(* src: pkg/datastructures/bloomfilter/bloomfilter.go 87-87 Add *)
Definition position (h : Z * Z) (nb i : Z) : option Z :=
  if decide (nb = 0) then None else Some (u64 (h.1 + u64 (i * h.2)) mod nb).

(* src: pkg/datastructures/bloomfilter/bloomfilter.go 83-91 Add *)
Fixpoint add_loop (ix : list Z) (h : Z * Z) (nb : Z) (l : list Z) : option (list Z) :=
  match ix with
  | [] => Some l
  | i :: ix =>
      pos ← position h nb i;
      w ← l !! Z.to_nat (pos / 64);
      add_loop ix h nb (<[Z.to_nat (pos / 64) := Z.lor w (Z.shiftl 1 (pos mod 64))]> l)
  end.

(* src: pkg/datastructures/bloomfilter/bloomfilter.go 76-93 Add *)
Definition Add (data : list Z) (bf : BloomFilter) : option BloomFilter :=
  l ← add_loop (seqZ 0 (numHash bf)) (doubleHash data) (numBits bf) (bits bf);
  Some {| bits := l; numBits := numBits bf; numHash := numHash bf; count := u64 (count bf + 1) |}.

(* src: pkg/datastructures/bloomfilter/bloomfilter.go 109-119 Contains *)
Fixpoint contains_loop (ix : list Z) (h : Z * Z) (nb : Z) (l : list Z) : option bool :=
  match ix with
  | [] => Some true
  | i :: ix =>
      pos ← position h nb i;
      w ← l !! Z.to_nat (pos / 64);
      if decide (Z.land w (Z.shiftl 1 (pos mod 64)) = 0) then Some false
      else contains_loop ix h nb l
  end.

(* src: pkg/datastructures/bloomfilter/bloomfilter.go 102-120 Contains *)
Definition Contains (data : list Z) (bf : BloomFilter) : option bool :=
  contains_loop (seqZ 0 (numHash bf)) (doubleHash data) (numBits bf) (bits bf).

(* src: pkg/datastructures/bloomfilter/bloomfilter.go 148-155 Clear *)
Definition Clear (bf : BloomFilter) : BloomFilter :=
  {| bits := (λ _, 0) <$> bits bf; numBits := numBits bf; numHash := numHash bf; count := 0 |}.

(** [bf.bits[i] |= other.bits[i]] for every [i]; [other] is another filter. *)
(* src: pkg/datastructures/bloomfilter/bloomfilter.go 193-208 Union *)
Definition Union (bf other : BloomFilter) : option (bool * BloomFilter) :=
  if decide (numBits bf ≠ numBits other ∨ numHash bf ≠ numHash other) then Some (false, bf)
  else if decide (length (bits bf) ≤ length (bits other))%nat then
    Some (true, {| bits := zip_with Z.lor (bits bf) (bits other); numBits := numBits bf;
                   numHash := numHash bf; count := count bf |})
  else None.

(* src: pkg/datastructures/bloomfilter/bloomfilter.go 96-98 AddString *)
Definition AddString (s : string) : BloomFilter → option BloomFilter := Add (bytes s).
(* src: pkg/datastructures/bloomfilter/bloomfilter.go 123-125 ContainsString *)
Definition ContainsString (s : string) : BloomFilter → option bool := Contains (bytes s).

(** *** The inlined hash *)

Lemma hash_step_spec h1 h2 b :
  0 ≤ h1 → 0 ≤ h2 < 2 ^ 64 → 0 ≤ b < 256 →
  let '(h1', h2') := hash_step (h1, h2) b in
  h1' * 2 ^ 64 + h2' = Z.lxor (h1 * 2 ^ 64 + h2) b * (2 ^ 88 + 315) mod 2 ^ 128 ∧
  0 ≤ h1' ∧ 0 ≤ h2' < 2 ^ 64.
Proof.
  intros Hh1 Hh2 Hb. unfold hash_step.
  assert (Z.lxor (h1 * 2 ^ 64 + h2) b = h1 * 2 ^ 64 + Z.lxor h2 b ∧ 0 ≤ Z.lxor h2 b < 2 ^ 64) as [-> Hx].
  { assert (0 ≤ Z.lxor h2 b < 2 ^ 64) as Hx.
    { split; [apply Z.lxor_nonneg; lia|]. destruct (decide (Z.lxor h2 b = 0)) as [->|Hne]; [lia|].
      apply Z.log2_lt_pow2; [pose proof (proj2 (Z.lxor_nonneg h2 b)); lia|].
      eapply Z.le_lt_trans; [apply Z.log2_lxor; lia|]. apply Z.max_lub_lt.
      - destruct (decide (h2 = 0)) as [->|]; [done|]. apply Z.log2_lt_pow2; lia.
      - destruct (decide (b = 0)) as [->|]; [done|]. apply Z.log2_lt_pow2; lia. }
    split; [|done].
    assert (∀ a c, 0 ≤ c < 2 ^ 64 → a * 2 ^ 64 + c = Z.lxor (Z.shiftl a 64) c) as Hadd.
    { intros a c Hc. rewrite <- Z.shiftl_mul_pow2 by lia. apply Z.add_nocarry_lxor. apply Z.bits_inj'. intros n Hn.
      rewrite Z.land_spec, Z.bits_0. destruct (decide (n < 64)).
      - by rewrite Z.shiftl_spec_low by lia.
      - rewrite <- (Z.mod_small c (2 ^ 64)), Z.mod_pow2_bits_high by lia. by rewrite andb_false_r. }
    rewrite !Hadd by (done || lia). by rewrite Z.lxor_assoc. }
  set (x := Z.lxor h2 b) in *. clearbody x. split; [|split; [apply u64_range|apply u64_range]].
  rewrite u64_add_l, <- Z.add_assoc, u64_add_l, (Z.add_comm (u64 (Z.shiftl x 24))), Z.add_assoc, u64_add_r.
  unfold u64. rewrite Z.shiftl_mul_pow2 by lia.
  replace ((h1 * 2 ^ 64 + x) * (2 ^ 88 + 315)) with
    ((h1 * 315 + x * 2 ^ 24) * 2 ^ 64 + x * 315 + h1 * 2 ^ 24 * 2 ^ 128) by lia.
  rewrite Z_mod_plus_full. pose proof (Z.div_mod (x * 315) (2 ^ 64) ltac:(lia)) as Hdm.
  set (q := x * 315 / 2 ^ 64) in *. set (r := x * 315 mod 2 ^ 64) in *.
  assert (0 ≤ r < 2 ^ 64) as Hr by (apply Z.mod_pos_bound; lia). clearbody q r.
  replace ((h1 * 315 + x * 2 ^ 24) * 2 ^ 64 + x * 315) with (r + 2 ^ 64 * (h1 * 315 + x * 2 ^ 24 + q)) by lia.
  change (2 ^ 128) with (2 ^ 64 * 2 ^ 64). rewrite Z.rem_mul_r by lia.
  rewrite (Z.mul_comm (2 ^ 64) (h1 * 315 + x * 2 ^ 24 + q)), Z_mod_plus_full, Z.div_add by lia.
  rewrite (Z.mod_small r), (Z.div_small r) by lia.
  rewrite Z.add_0_l. replace (h1 * 315 + q + x * 2 ^ 24) with (h1 * 315 + x * 2 ^ 24 + q) by lia. lia.
Qed.

(** The inlined code computes FNV-1a with 128 bits, high word first. *)
Theorem doubleHash_is_fnv128a data : Forall (λ b, 0 ≤ b < 256) data →
  let '(h1, h2) := doubleHash data in h1 * 2 ^ 64 + h2 = fnv128a data.
Proof.
  intros Hd. unfold doubleHash, fnv128a.
  change 144066263297769815596495629667062367629 with (7809847782465536322 * 2 ^ 64 + 7113472399480571277).
  assert (∀ h1 h2, 0 ≤ h1 → 0 ≤ h2 < 2 ^ 64 →
    let '(a, b) := foldl hash_step (h1, h2) data in
    a * 2 ^ 64 + b = foldl (λ h b, Z.lxor h b * (2 ^ 88 + 315) mod 2 ^ 128) (h1 * 2 ^ 64 + h2) data) as Hfold.
  { induction Hd as [|b data Hb Hd IH]; intros h1 h2 Hh1 Hh2; [done|]. cbn [foldl].
    pose proof (hash_step_spec h1 h2 b Hh1 Hh2 Hb) as Hs. destruct (hash_step (h1, h2) b) as [h1' h2'].
    destruct Hs as (<- & ? & ?). by apply IH. }
  by apply Hfold.
Qed.

(** *** What the bits say *)

Definition bit (l : list Z) (pos : Z) : bool :=
  match l !! Z.to_nat (pos / 64) with Some w => Z.testbit w (pos mod 64) | None => false end.

Definition pos_of (bf : BloomFilter) (data : list Z) (i : Z) : Z :=
  u64 ((doubleHash data).1 + u64 (i * (doubleHash data).2)) mod numBits bf.

(** A filter as the constructors make it: enough words for its bits. *)
Definition wf (bf : BloomFilter) : Prop :=
  0 < numBits bf ∧ numBits bf ≤ 64 * Z.of_nat (length (bits bf)).

Lemma land_bit w k : 0 ≤ k → Z.land w (Z.shiftl 1 k) = 0 ↔ Z.testbit w k = false.
Proof.
  intros Hk. rewrite Z.shiftl_1_l. split.
  - intros Hz. assert (Z.testbit (Z.land w (2 ^ k)) k = false) as Hb by (by rewrite Hz, Z.bits_0).
    rewrite Z.land_spec, Z.pow2_bits_true, andb_true_r in Hb by lia. done.
  - intros Hb. apply Z.bits_inj'. intros n Hn. rewrite Z.land_spec, Z.bits_0.
    destruct (decide (n = k)) as [->|]; [by rewrite Hb|]. rewrite Z.pow2_bits_false by lia. apply andb_false_r.
Qed.

Lemma pos_range bf data i : wf bf → 0 ≤ pos_of bf data i < numBits bf ∧
  (Z.to_nat (pos_of bf data i / 64) < length (bits bf))%nat.
Proof.
  intros [H0 Hl]. assert (0 ≤ pos_of bf data i < numBits bf) as Hp by (apply Z.mod_pos_bound; lia).
  split; [done|]. assert (pos_of bf data i / 64 < Z.of_nat (length (bits bf))); [apply Z.div_lt_upper_bound; lia|].
  pose proof (Z.div_pos (pos_of bf data i) 64). lia.
Qed.

(** Setting a bit sets that bit only. *)
Lemma bit_set l w pos q : 0 ≤ pos → 0 ≤ q → l !! Z.to_nat (pos / 64) = Some w →
  bit (<[Z.to_nat (pos / 64) := Z.lor w (Z.shiftl 1 (pos mod 64))]> l) q = bool_decide (q = pos) || bit l q.
Proof.
  intros Hp Hq Hw. unfold bit. pose proof (Z.mod_pos_bound pos 64). pose proof (Z.mod_pos_bound q 64).
  pose proof (Z.div_pos pos 64). pose proof (Z.div_pos q 64).
  pose proof (Z.div_mod pos 64). pose proof (Z.div_mod q 64).
  destruct (decide (q / 64 = pos / 64)) as [Heq|Hne].
  - rewrite Heq, list_lookup_insert_eq, Hw by (by eapply lookup_lt_Some).
    rewrite Z.lor_spec, Z.shiftl_1_l, orb_comm. f_equal.
    destruct (decide (q = pos)) as [->|]; [rewrite bool_decide_true by done; apply Z.pow2_bits_true; lia|].
    rewrite bool_decide_false by done. apply Z.pow2_bits_false. lia.
  - rewrite list_lookup_insert_ne by lia. rewrite bool_decide_false; [done|]. congruence.
Qed.

Lemma set_bits_spec bf data ix l : wf bf → length l = length (bits bf) →
  ∃ l', add_loop ix (doubleHash data) (numBits bf) l = Some l' ∧ length l' = length l ∧
    ∀ q, 0 ≤ q → bit l' q = bool_decide (q ∈ pos_of bf data <$> ix) || bit l q.
Proof.
  intros Hwf. revert l. induction ix as [|i ix IH]; intros l Hl; cbn [add_loop].
  { exists l. split_and!; [done|done|]. intros q Hq. rewrite bool_decide_false; [done|]. set_solver. }
  unfold position. destruct (pos_range bf data i Hwf) as [Hp Hlt]. destruct Hwf as [Hnb ?].
  rewrite decide_False by lia. cbn [mbind option_bind]. fold (pos_of bf data i).
  destruct (lookup_lt_is_Some_2 l (Z.to_nat (pos_of bf data i / 64))) as [w Hw]; [by rewrite Hl|].
  rewrite Hw. cbn [mbind option_bind]. edestruct IH as (l' & -> & Hl' & Hbit); [|exists l'; split_and!; [done| |]].
  - by rewrite length_insert.
  - by rewrite Hl', length_insert.
  - intros q Hq. rewrite Hbit, bit_set by (done || lia). rewrite orb_assoc. f_equal. cbn [fmap list_fmap].
    rewrite <- bool_decide_or. apply bool_decide_ext. rewrite elem_of_cons. tauto.
Qed.

Lemma contains_loop_spec bf data ix : wf bf →
  contains_loop ix (doubleHash data) (numBits bf) (bits bf) =
    Some (bool_decide (Forall (λ i, bit (bits bf) (pos_of bf data i) = true) ix)).
Proof.
  intros Hwf. induction ix as [|i ix IH]; cbn [contains_loop]; [by rewrite bool_decide_true|].
  unfold position. destruct (pos_range bf data i Hwf) as [Hp Hlt]. pose proof Hwf as [Hnb ?].
  rewrite decide_False by lia. cbn [mbind option_bind]. fold (pos_of bf data i).
  destruct (lookup_lt_is_Some_2 (bits bf) (Z.to_nat (pos_of bf data i / 64)) Hlt) as [w Hw].
  rewrite Hw. cbn [mbind option_bind]. pose proof (Z.mod_pos_bound (pos_of bf data i) 64).
  assert (bit (bits bf) (pos_of bf data i) = Z.testbit w (pos_of bf data i mod 64)) as Hb by (unfold bit; by rewrite Hw).
  destruct (decide (Z.land w _ = 0)) as [Hz|Hz]; rewrite land_bit, <- Hb in Hz by lia.
  - rewrite bool_decide_false; [done|]. intros [Hb' _]%Forall_cons. congruence.
  - apply not_false_iff_true in Hz. rewrite IH. f_equal. apply bool_decide_ext. rewrite Forall_cons. naive_solver.
Qed.

(** *** The filter over a history *)

(** A filter is made by additions, clearing, and merging another filter of the same size in. *)
Inductive build := BNew | BAdd (b : build) (data : list Z) | BClear (b : build) | BUnion (b o : build).

Fixpoint made (nb nh : Z) (b : build) : option BloomFilter :=
  match b with
  | BNew => Some (NewWithSize nb nh)
  | BAdd b data => made nb nh b ≫= Add data
  | BClear b => Clear <$> made nb nh b
  | BUnion b o => x ← made nb nh b; y ← made nb nh o; snd <$> Union x y
  end.
Fixpoint content (b : build) : list (list Z) :=
  match b with
  | BNew => []
  | BAdd b data => data :: content b
  | BClear b => []
  | BUnion b o => content b ++ content o
  end.

(** [bf] has exactly the bits of [c]. *)
Record holds (nb nh : Z) (bf : BloomFilter) (c : list (list Z)) : Prop := {
  h_bits : numBits bf = nb; h_hash : numHash bf = nh; h_wf : wf bf;
  h_len : length (bits bf) = Z.to_nat (u64 (nb + 63) / 64);
  h_exact q : 0 ≤ q → bit (bits bf) q = true ↔ ∃ d i, d ∈ c ∧ 0 ≤ i < nh ∧ q = pos_of bf d i;
}.

Lemma bit_zero {A} (l : list A) q : bit ((λ _, 0) <$> l) q = false.
Proof. unfold bit. rewrite list_lookup_fmap. destruct (l !! _); [apply Z.bits_0|done]. Qed.

Lemma New_holds nb nh : 0 < nb < 2 ^ 64 - 63 → holds nb nh (NewWithSize nb nh) [].
Proof.
  intros Hnb. assert (u64 (nb + 63) = nb + 63) as Hu by (apply u64_id; unfold is_u64; lia).
  split; cbn; try done.
  - split; [cbn; lia|]. cbn. rewrite length_replicate, Hu. pose proof (Z.div_mod (nb + 63) 64).
    pose proof (Z.mod_pos_bound (nb + 63) 64). pose proof (Z.div_pos (nb + 63) 64). lia.
  - apply length_replicate.
  - intros q Hq. unfold bit. split; [|set_solver]. destruct (replicate _ _ !! _) as [w|] eqn:Hw; [|done].
    apply lookup_replicate in Hw as [-> _]. by rewrite Z.bits_0.
Qed.

Lemma Add_holds nb nh bf c data : holds nb nh bf c →
  ∃ bf', Add data bf = Some bf' ∧ holds nb nh bf' (data :: c).
Proof.
  intros [Hb Hh Hwf Hlen Hex]. unfold Add.
  destruct (set_bits_spec bf data (seqZ 0 (numHash bf)) (bits bf) Hwf eq_refl) as (l & -> & Hl & Hbit).
  cbn [mbind option_bind]. eexists. split; [done|]. split; cbn; try done.
  - destruct Hwf. split; cbn; [done|]. by rewrite Hl.
  - by rewrite Hl.
  - intros q Hq. rewrite Hbit, orb_true_iff, bool_decide_eq_true, Hex, list_elem_of_fmap by done.
    change (pos_of {| bits := l; numBits := numBits bf; numHash := numHash bf; count := u64 (count bf + 1) |})
      with (pos_of bf). setoid_rewrite elem_of_seqZ. setoid_rewrite elem_of_cons. subst nh. split.
    + intros [(i & -> & Hi)|(d & i & Hd & Hi & ->)]; [exists data, i|exists d, i]; split_and!; auto; lia.
    + intros (d & i & [->|Hd] & Hi & ->); [left; exists i; split; [done|lia]|right; by exists d, i].
Qed.

Lemma Union_holds nb nh x y c d : holds nb nh x c → holds nb nh y d →
  ∃ z, Union x y = Some (true, z) ∧ holds nb nh z (c ++ d).
Proof.
  intros [Hb Hh Hwf Hlen Hex] [Hb' Hh' Hwf' Hlen' Hex']. unfold Union.
  rewrite decide_False by (intros [?|?]; congruence). rewrite decide_True by lia. eexists. split; [done|].
  assert (length (zip_with Z.lor (bits x) (bits y)) = length (bits x)) as Hl by (rewrite length_zip_with; lia).
  split; cbn; try done.
  - destruct Hwf. split; cbn; [done|]. by rewrite Hl.
  - by rewrite Hl.
  - intros q Hq. assert (bit (zip_with Z.lor (bits x) (bits y)) q = bit (bits x) q || bit (bits y) q) as ->.
    { unfold bit. rewrite lookup_zip_with.
      destruct (bits x !! Z.to_nat (q / 64)) as [a|] eqn:Ea; cbn.
      - destruct (lookup_lt_is_Some_2 (bits y) (Z.to_nat (q / 64))) as [b Eb].
        { apply lookup_lt_Some in Ea. lia. }
        rewrite Eb. cbn. apply Z.lor_spec.
      - apply lookup_ge_None in Ea. rewrite (proj2 (lookup_ge_None (bits y) _)) by lia. done. }
    rewrite orb_true_iff, Hex, Hex' by done.
    assert (∀ e i, pos_of y e i = pos_of x e i) as Hxy by (intros; unfold pos_of; by rewrite Hb, Hb').
    change (pos_of {| bits := zip_with Z.lor (bits x) (bits y); numBits := numBits x; numHash := numHash x; count := count x |})
      with (pos_of x). setoid_rewrite elem_of_app. setoid_rewrite Hxy. split.
    + intros [(e & i & ? & ? & ->)|(e & i & ? & ? & ->)]; exists e, i; auto.
    + intros (e & i & [?|?] & ? & ->); [left|right]; by exists e, i.
Qed.

Lemma made_holds nb nh b : 0 < nb < 2 ^ 64 - 63 →
  ∃ bf, made nb nh b = Some bf ∧ holds nb nh bf (content b).
Proof.
  intros Hnb. induction b as [|b (bf & IH & Hh) data|b (bf & IH & Hh)|b (x & IHx & Hx) o (y & IHy & Hy)]; cbn.
  - eexists. split; [done|]. by apply New_holds.
  - rewrite IH. cbn. by apply Add_holds.
  - rewrite IH. cbn. eexists. split; [done|]. destruct Hh as [? ? [? ?] ? ?]. split; cbn; try done.
    + split; cbn; [done|]. by rewrite length_fmap.
    + by rewrite length_fmap.
    + intros q Hq. rewrite bit_zero. split; [done|set_solver].
  - rewrite IHx, IHy. cbn. destruct (Union_holds nb nh x y _ _ Hx Hy) as (z & -> & Hz). eauto.
Qed.

Lemma holds_Contains nb nh bf c data : holds nb nh bf c →
  ∃ b, Contains data bf = Some b ∧ (data ∈ c → b = true) ∧
    (b = true ↔ ∀ i, 0 ≤ i < nh → ∃ d j, d ∈ c ∧ 0 ≤ j < nh ∧ pos_of bf data i = pos_of bf d j).
Proof.
  intros [Hb Hh Hwf Hlen Hex]. unfold Contains. rewrite contains_loop_spec by done. eexists. split; [done|].
  assert (bool_decide (Forall (λ i, bit (bits bf) (pos_of bf data i) = true) (seqZ 0 (numHash bf))) = true ↔
    ∀ i, 0 ≤ i < nh → ∃ d j, d ∈ c ∧ 0 ≤ j < nh ∧ pos_of bf data i = pos_of bf d j) as Hiff.
  { rewrite bool_decide_eq_true, Forall_forall. setoid_rewrite elem_of_seqZ. subst nh.
    split; intros Hf i Hi; specialize (Hf i ltac:(lia)); [apply Hex in Hf|apply Hex]; try done;
      apply pos_range; done. }
  split; [|done]. intros Hd. apply Hiff. intros i Hi. by exists data, i.
Qed.

(** A Bloom filter never panics, answers true for everything added since it was cleared, to it
    or to a filter merged into it, and true exactly if every position of the element is a
    position of an added one. *)
Theorem bloom_filter_exact nb nh b data : 0 < nb < 2 ^ 64 - 63 →
  ∃ bf r, made nb nh b = Some bf ∧ Contains data bf = Some r ∧ (data ∈ content b → r = true) ∧
    (r = true ↔ ∀ i, 0 ≤ i < nh → ∃ d j, d ∈ content b ∧ 0 ≤ j < nh ∧ pos_of bf data i = pos_of bf d j).
Proof.
  intros Hnb. destruct (made_holds nb nh b Hnb) as (bf & Hm & Hh).
  destruct (holds_Contains nb nh bf _ data Hh) as (r & Hr & H1 & H2). eauto 6.
Qed.

(** A filter without bits divides by zero. *)
Theorem bloom_zero_bits_panics nh data : 0 < nh → Add data (NewWithSize 0 nh) = None.
Proof.
  intros Hnh. unfold Add. cbn [numHash NewWithSize]. rewrite (seqZ_cons 0 nh) by lia. done.
Qed.

(** ** The cache behind the filter *)

(** The operations of the interface on several keys. *)
(* src: pkg/cache/cache.go 45-51 Cache *)
Class MultiCache (C : Type) := {
  MGet : ∀ {A}, option error → Z → (value → error + A) → list string → C → gmap string A → error + gmap string A;
  MSet : option error → Z → list (string * value) → Z → C → error + C;
}.
#[export] Instance mc_MultiCache : MultiCache MemoryCache := {| MGet := @mc_MGet; MSet := mc_MSet |}.

Section cache.
  Context {C : Type} `{Cache C} `{MultiCache C}.

(* src: pkg/cache/bloom.go 16-20 BloomCache *)
Record BloomCache := { cache : C; bloom : BloomFilter; prefix : string }.

(** The filter of [NewBloomCache] has the size [New] computes. *)
(* src: pkg/cache/bloom.go 35-41 NewBloomCache *)
Definition NewBloomCache (c : C) (nb nh : Z) (pre : string) : BloomCache :=
  {| cache := c; bloom := NewWithSize nb nh; prefix := pre |}.

(** The error, or the answer and what becomes of the cache; the filter keeps what was added
    before the inner call failed. *)
Definition inner (r : error + C) (bf : BloomFilter) (bc : BloomCache) : option error * BloomCache :=
  match r with
  | inl e => (Some e, {| cache := cache bc; bloom := bf; prefix := prefix bc |})
  | inr c => (None, {| cache := c; bloom := bf; prefix := prefix bc |})
  end.

(* src: pkg/cache/bloom.go 43-53 BloomCache.Get *)
Definition bc_Get {A} (ctx : option error) (now : Z) (decode : value → error + A) (key : string)
    (bc : BloomCache) : option (error + A) :=
  b ← ContainsString (prefix bc +:+ key) (bloom bc);
  Some (if negb b then inl ErrKeyNotFound else Get ctx now decode key (cache bc)).

(* src: pkg/cache/bloom.go 55-59 BloomCache.Set *)
Definition bc_Set (ctx : option error) (now : Z) (key : string) (v : value) (ttl : Z) (bc : BloomCache)
    : option (option error * BloomCache) :=
  bf ← AddString (prefix bc +:+ key) (bloom bc);
  Some (inner (Set_ ctx now key v ttl (cache bc)) bf bc).

(* src: pkg/cache/bloom.go 61-65 BloomCache.Delete *)
Definition bc_Delete (ctx : option error) (key : string) (bc : BloomCache) : option error * BloomCache :=
  inner (Delete ctx key (cache bc)) (bloom bc) bc.

(* src: pkg/cache/bloom.go 67-73 BloomCache.Exists *)
Definition bc_Exists (ctx : option error) (now : Z) (key : string) (bc : BloomCache) : option (error + bool) :=
  b ← ContainsString (prefix bc +:+ key) (bloom bc);
  Some (if negb b then inr false else Exists_ ctx now key (cache bc)).

(* src: pkg/cache/bloom.go 76-81 BloomCache.MGet *)
Fixpoint filter_keys (pre : string) (bf : BloomFilter) (keys : list string) : option (list string) :=
  match keys with
  | [] => Some []
  | key :: keys =>
      b ← ContainsString (pre +:+ key) bf;
      l ← filter_keys pre bf keys;
      Some (if b : bool then key :: l else l)
  end.

(* src: pkg/cache/bloom.go 75-83 BloomCache.MGet *)
Definition bc_MGet {A} (ctx : option error) (now : Z) (decode : value → error + A) (keys : list string)
    (dest : gmap string A) (bc : BloomCache) : option (error + gmap string A) :=
  filtered ← filter_keys (prefix bc) (bloom bc) keys;
  Some (MGet ctx now decode filtered (cache bc) dest).

(* src: pkg/cache/bloom.go 131-135 BloomCache.Warm *)
Fixpoint add_keys (pre : string) (keys : list string) (bf : BloomFilter) : option BloomFilter :=
  match keys with
  | [] => Some bf
  | key :: keys => bf ← AddString (pre +:+ key) bf; add_keys pre keys bf
  end.

(* src: pkg/cache/bloom.go 85-90 BloomCache.MSet *)
Definition bc_MSet (ctx : option error) (now : Z) (kvs : list (string * value)) (ttl : Z) (bc : BloomCache)
    : option (option error * BloomCache) :=
  bf ← add_keys (prefix bc) kvs.*1 (bloom bc);
  Some (inner (MSet ctx now kvs ttl (cache bc)) bf bc).

(* src: pkg/cache/bloom.go 92-94 BloomCache.Expire *)
Definition bc_Expire (ctx : option error) (now1 now2 : Z) (key : string) (ttl : Z) (bc : BloomCache)
    : option error * BloomCache :=
  inner (Expire ctx now1 now2 key ttl (cache bc)) (bloom bc) bc.

(* src: pkg/cache/bloom.go 96-98 BloomCache.GetTTL *)
Definition bc_GetTTL (ctx : option error) (now1 now2 : Z) (key : string) (bc : BloomCache) : error + Z :=
  GetTTL ctx now1 now2 key (cache bc).

(* src: pkg/cache/bloom.go 100-104 BloomCache.Incr *)
Definition bc_Incr (ctx : option error) (now1 now2 : Z) (key : string) (delta : Z) (bc : BloomCache)
    : option ((error + Z) * BloomCache) :=
  bf ← AddString (prefix bc +:+ key) (bloom bc);
  Some match Incr ctx now1 now2 key delta (cache bc) with
       | inl e => (inl e, {| cache := cache bc; bloom := bf; prefix := prefix bc |})
       | inr (v, c) => (inr v, {| cache := c; bloom := bf; prefix := prefix bc |})
       end.
End cache.
Arguments BloomCache : clear implicits.

(** *** Transparency over the in-memory cache *)

(** The calls, with their clocks; [decode] reads values as [Z]. *)
Inductive call :=
  | CGet (now : Z) (key : string) | CSet (now : Z) (key : string) (v : value) (ttl : Z)
  | CDelete (key : string) | CExists (now : Z) (key : string)
  | CMGet (now : Z) (keys : list string) | CMSet (now : Z) (kvs : list (string * value)) (ttl : Z)
  | CExpire (now1 now2 : Z) (key : string) (ttl : Z) | CGetTTL (now1 now2 : Z) (key : string)
  | CIncr (now1 now2 : Z) (key : string) (delta : Z).
Inductive answer :=
  | AGet (r : error + Z) | ADone (e : option error) | AExists (r : error + bool)
  | AMGet (r : error + gmap string Z) | ANum (r : error + Z).

(** With the filter; a call that panics has no answer. *)
Definition bc_call (x : call) (bc : BloomCache MemoryCache) : option (answer * BloomCache MemoryCache) :=
  match x with
  | CGet now k => (λ r, (AGet r, bc)) <$> bc_Get None now decode_int k bc
  | CSet now k v ttl => (λ '(e, bc), (ADone e, bc)) <$> bc_Set None now k v ttl bc
  | CDelete k => let '(e, bc) := bc_Delete None k bc in Some (ADone e, bc)
  | CExists now k => (λ r, (AExists r, bc)) <$> bc_Exists None now k bc
  | CMGet now ks => (λ r, (AMGet r, bc)) <$> bc_MGet None now decode_int ks ∅ bc
  | CMSet now kvs ttl => (λ '(e, bc), (ADone e, bc)) <$> bc_MSet None now kvs ttl bc
  | CExpire n1 n2 k ttl => let '(e, bc) := bc_Expire None n1 n2 k ttl bc in Some (ADone e, bc)
  | CGetTTL n1 n2 k => Some (ANum (bc_GetTTL None n1 n2 k bc), bc)
  | CIncr n1 n2 k d => (λ '(r, bc), (ANum r, bc)) <$> bc_Incr None n1 n2 k d bc
  end.

(** Without it. *)
Definition upd (r : error + MemoryCache) (m : MemoryCache) : answer * MemoryCache :=
  match r with inl e => (ADone (Some e), m) | inr m => (ADone None, m) end.
Definition mc_call (x : call) (m : MemoryCache) : answer * MemoryCache :=
  match x with
  | CGet now k => (AGet (mc_Get None now decode_int k m), m)
  | CSet now k v ttl => upd (mc_Set None now k v ttl m) m
  | CDelete k => upd (mc_Delete None k m) m
  | CExists now k => (AExists (mc_Exists None now k m), m)
  | CMGet now ks => (AMGet (mc_MGet None now decode_int ks m ∅), m)
  | CMSet now kvs ttl => upd (mc_MSet None now kvs ttl m) m
  | CExpire n1 n2 k ttl => upd (mc_Expire None n1 n2 k ttl m) m
  | CGetTTL n1 n2 k => (ANum (mc_GetTTL None n1 n2 k m), m)
  | CIncr n1 n2 k d =>
      match mc_Incr None n1 n2 k d m with inl e => (ANum (inl e), m) | inr (v, m) => (ANum (inr v), m) end
  end.

Fixpoint bc_answers (xs : list call) (bc : BloomCache MemoryCache) : option (list answer) :=
  match xs with
  | [] => Some []
  | x :: xs => '(a, bc) ← bc_call x bc; l ← bc_answers xs bc; Some (a :: l)
  end.
Fixpoint mc_answers (xs : list call) (m : MemoryCache) : list answer :=
  match xs with
  | [] => []
  | x :: xs => let '(a, m) := mc_call x m in a :: mc_answers xs m
  end.

Section transparent.
  Variables (nb nh : Z) (pre : string).

(** Every stored key is in the filter. *)
Definition covered (bc : BloomCache MemoryCache) (m : MemoryCache) : Prop :=
  cache bc = m ∧ prefix bc = pre ∧
  ∃ c, holds nb nh (bloom bc) c ∧ ∀ k, is_Some (items m !! k) → bytes (pre +:+ k) ∈ c.

Lemma covered_ask bc m k : covered bc m →
  ∃ b, ContainsString (prefix bc +:+ k) (bloom bc) = Some b ∧ (b = false → items m !! k = None).
Proof.
  intros (_ & -> & c & Hh & Hc). destruct (holds_Contains nb nh _ c (bytes (pre +:+ k)) Hh) as (b & Hb & H1 & _).
  exists b. split; [done|]. intros Hbf. destruct (items m !! k) as [it|] eqn:E; [|done].
  assert (b = true) by (apply H1, Hc; by exists it). congruence.
Qed.

Lemma covered_learn bc m k : covered bc m → ∃ bf, AddString (prefix bc +:+ k) (bloom bc) = Some bf ∧
  ∀ m', (∀ k', is_Some (items m' !! k') → k' = k ∨ is_Some (items m !! k')) →
    covered {| cache := m'; bloom := bf; prefix := prefix bc |} m'.
Proof.
  intros (_ & Hp & c & Hh & Hc). rewrite Hp.
  destruct (Add_holds nb nh (bloom bc) c (bytes (pre +:+ k)) Hh) as (bf & Hadd & Hh').
  exists bf. split; [done|]. intros m' Hm'. split_and!; [done|done|]. eexists. split; [done|].
  intros k' [->|Hk']%Hm'; [apply list_elem_of_here|apply list_elem_of_further; auto].
Qed.

Lemma covered_shrink bc m m' : covered bc m → (∀ k, is_Some (items m' !! k) → is_Some (items m !! k)) →
  covered {| cache := m'; bloom := bloom bc; prefix := prefix bc |} m'.
Proof. intros (_ & Hp & c & Hh & Hc) Hm. split_and!; [done|done|]. exists c. split; [done|]. auto. Qed.

Lemma covered_learn_all bc m ks : covered bc m → ∃ bf, add_keys (prefix bc) ks (bloom bc) = Some bf ∧
  ∀ m', (∀ k', is_Some (items m' !! k') → k' ∈ ks ∨ is_Some (items m !! k')) →
    covered {| cache := m'; bloom := bf; prefix := prefix bc |} m'.
Proof.
  intros (_ & Hp & c & Hh & Hc). rewrite Hp.
  assert (∃ bf c', add_keys pre ks (bloom bc) = Some bf ∧ holds nb nh bf c' ∧ (∀ d, d ∈ c → d ∈ c') ∧
    ∀ k, k ∈ ks → bytes (pre +:+ k) ∈ c') as (bf & c' & Hadd & Hh' & Hin & Hks).
  { clear Hc Hp. revert Hh. generalize (bloom bc) as bf. revert c. induction ks as [|k ks IH]; intros c bf Hh; cbn [add_keys].
    - exists bf, c. split_and!; [done|done|done|set_solver].
    - destruct (Add_holds nb nh bf c (bytes (pre +:+ k)) Hh) as (bf1 & Hadd & Hh1).
      unfold AddString. rewrite Hadd. cbn [mbind option_bind].
      destruct (IH _ bf1 Hh1) as (bf2 & c2 & -> & Hh2 & Hi2 & Hk2). exists bf2, c2. set_solver. }
  exists bf. split; [done|]. intros m' Hm'. split_and!; [done|done|]. exists c'. split; [done|].
  intros k' [Hk|Hk]%Hm'; auto.
Qed.

Lemma mget_filtered bc m now ks : covered bc m →
  ∃ l, filter_keys (prefix bc) (bloom bc) ks = Some l ∧
    ∀ acc, mget_loop now decode_int l m acc = mget_loop now decode_int ks m acc.
Proof.
  intros Hc. induction ks as [|k ks (l & Hl & IH)]; cbn [filter_keys]; [by eauto|].
  destruct (covered_ask bc m k Hc) as (b & -> & Hb). rewrite Hl. cbn [mbind option_bind].
  eexists. split; [done|]. intros acc. destruct b; cbn [mget_loop].
  - destruct (live now k m) as [it|]; [|done]. by destruct (decode_int (val it)).
  - rewrite IH. unfold live. by rewrite Hb.
Qed.

(** One call has the answer of the bare cache. *)
Lemma bc_call_refines x bc m : covered bc m →
  ∃ bc', bc_call x bc = Some ((mc_call x m).1, bc') ∧ covered bc' (mc_call x m).2.
Proof.
  intros Hc. pose proof Hc as (Hm & Hp & _).
  destruct x as [now k|now k v ttl|k|now k|now ks|now kvs ttl|n1 n2 k ttl|n1 n2 k|n1 n2 k d]; cbn [bc_call mc_call].
  - unfold bc_Get. destruct (covered_ask bc m k Hc) as (b & -> & Hb). cbn. exists bc. split; [|done]. do 3 f_equal.
    destruct b; cbn; [by rewrite Hm|]. unfold mc_Get. by rewrite Hb.
  - unfold bc_Set. destruct (covered_learn bc m k Hc) as (bf & -> & Hl). cbn. eexists. split; [done|]. rewrite Hm.
    apply Hl. cbn. intros k' Hk'. apply lookup_insert_is_Some' in Hk' as [->|?]; auto.
  - cbn. eexists. split; [done|]. rewrite Hm. eapply covered_shrink; [done|]. cbn. intros k' Hk'.
    by apply lookup_delete_is_Some in Hk' as [_ ?].
  - unfold bc_Exists. destruct (covered_ask bc m k Hc) as (b & -> & Hb). cbn. exists bc. split; [|done]. do 3 f_equal.
    destruct b; cbn; [by rewrite Hm|]. unfold mc_Exists, live. by rewrite Hb.
  - unfold bc_MGet. destruct (mget_filtered bc m now ks Hc) as (l & -> & Hl). cbn. exists bc. split; [|done].
    do 3 f_equal. unfold mc_MGet. by rewrite Hm, Hl.
  - unfold bc_MSet. destruct (covered_learn_all bc m kvs.*1 Hc) as (bf & -> & Hl). cbn. eexists. split; [done|].
    rewrite Hm. apply Hl. cbn. intros k'. generalize (items m) as its. clear.
    induction kvs as [|[k v] kvs IH]; intros its; cbn; [auto|]. intros [Hin|Hin]%IH; [set_solver|].
    apply lookup_insert_is_Some' in Hin as [->|?]; set_solver.
  - cbn. unfold bc_Expire, inner. cbn. rewrite Hm. unfold mc_Expire. cbn.
    destruct (live n1 k m) as [it|] eqn:Hit; cbn.
    + eexists. split; [done|]. eapply covered_shrink; [done|]. cbn. intros k' Hk'.
      apply lookup_insert_is_Some' in Hk' as [<-|?]; [|done]. unfold live in Hit. destruct (items m !! k); [done|done].
    + eexists. split; [done|]. by eapply covered_shrink.
  - exists bc. split; [|done]. unfold bc_GetTTL. by rewrite Hm.
  - unfold bc_Incr. destruct (covered_learn bc m k Hc) as (bf & -> & Hl). cbn. eexists. split; [by rewrite Hm|].
    apply Hl. cbn. intros k' Hk'. apply lookup_insert_is_Some' in Hk' as [->|?]; auto.
Qed.

Lemma bc_answers_refine xs bc m : covered bc m → bc_answers xs bc = Some (mc_answers xs m).
Proof.
  revert bc m. induction xs as [|x xs IH]; intros bc m Hc; [done|]. cbn [bc_answers mc_answers].
  destruct (bc_call_refines x bc m Hc) as (bc' & -> & Hc'). cbn [mbind option_bind].
  destruct (mc_call x m) as [a m']. cbn in *. by rewrite (IH _ _ Hc').
Qed.
End transparent.

(** A Bloom filter in front of the in-memory cache changes no answer: for every history of
    calls that starts with an empty cache, whatever the size of the filter, every lookup,
    existence test, multi-key lookup and counter answers as the bare cache does, and no call
    panics. *)
Theorem bloom_cache_transparent (nb nh : Z) (pre : string) (xs : list call) :
  0 < nb < 2 ^ 64 - 63 →
  bc_answers xs (NewBloomCache mc_New nb nh pre) = Some (mc_answers xs mc_New).
Proof.
  intros Hnb. apply (bc_answers_refine nb nh pre). split_and!; [done|done|].
  exists []. split; [by apply New_holds|]. intros k. cbn. rewrite lookup_empty. by intros [].
Qed.

Lemma bloom_cache_transparent_witness :
  bc_answers [CSet 0 "a" (MemCache.VInt 3) 0; CGet 1 "a"; CGet 1 "b"; CMGet 2 ["b"; "a"]; CIncr 3 3 "c" 1; CExists 4 "c"]
    (NewBloomCache mc_New 64 3 "p:") =
  Some [ADone None; AGet (inr 3); AGet (inl ErrKeyNotFound); AMGet (inr {["a" := 3]}); ANum (inr 1); AExists (inr true)].
Proof. rewrite (bloom_cache_transparent 64 3 "p:") by lia. vm_compute. reflexivity. Defined.
