(* ===== verification/Dedup.v ===== *)
(** * pkg/messaging/dedup.go

    The deduplicating consumer over the Bloom filter.  The wrapped handler runs between two
    stretches under the lock, [claim] and [settle]; deliveries to any number of goroutines
    interleave them.  The sizes of the filter are arguments, as in [Bloom]; a panic is [None]. *)

From S2P Require Import Prelude Errors Float64 Broker Bloom.
From stdpp Require Import options.
Open Scope Z_scope.

(* src: pkg/messaging/dedup.go 15-20 DeduplicatingConsumer *)
Record DeduplicatingConsumer := { bloom : BloomFilter; inFlight : gset string }.

(** The consumer over a filter of [nb] bits and [nh] hashes. *)
(* src: pkg/messaging/dedup.go 40-45 NewDeduplicatingConsumer *)
Definition NewDeduplicatingConsumer (nb nh : Z) : DeduplicatingConsumer := {| bloom := NewWithSize nb nh; inFlight := ∅ |}.

(* src: pkg/messaging/dedup.go 23-30 DeduplicationConfig *)
Record DeduplicationConfig := { ExpectedMessages : Z; FalsePositiveRate : float64 }.

(** 0.001 in binary64. *)
Definition one_in_thousand : float64 := S754_finite false 4611686018427388 (-62).

(* src: pkg/messaging/dedup.go 34-39 NewDeduplicatingConsumer *)
Definition dedup_defaults (cfg : DeduplicationConfig) : DeduplicationConfig :=
  {| ExpectedMessages := if decide (ExpectedMessages cfg = 0) then 1000000 else ExpectedMessages cfg;
     FalsePositiveRate :=
       if flt (FalsePositiveRate cfg) (of_i64 0) || feq (FalsePositiveRate cfg) (of_i64 0) then one_in_thousand
       else FalsePositiveRate cfg |}.

(** [sizes] are the numbers of bits and hashes that the filter computes, with logarithms, for a
    number of elements and a rate; what is shown of the consumer holds for all of them. *)
(* src: pkg/messaging/dedup.go 33-46 NewDeduplicatingConsumer *)
Definition dedup_of_config (sizes : Z → float64 → Z * Z) (cfg : DeduplicationConfig) : DeduplicatingConsumer :=
  let cfg := dedup_defaults cfg in
  let '(nb, nh) := sizes (ExpectedMessages cfg) (FalsePositiveRate cfg) in NewDeduplicatingConsumer nb nh.

(** [string(payload)] *)
Definition string_of (bs : list Z) : string := String.string_of_list_ascii ((λ b, Ascii.ascii_of_N (Z.to_N b)) <$> bs).

(* src: pkg/messaging/dedup.go 83-88 getDeduplicationKey *)
Definition getDeduplicationKey (msg : Message) : string :=
  if decide (ID msg ≠ "") then ID msg else Topic msg +:+ ":" +:+ string_of (Payload msg).

(** Before the handler: whether it is to run. *)
(* src: pkg/messaging/dedup.go 54-64 Consume *)
Definition claim (key : string) (dc : DeduplicatingConsumer) : option (bool * DeduplicatingConsumer) :=
  seen ← ContainsString key (bloom dc);
  Some (if seen : bool then (false, dc)
        else if decide (key ∈ inFlight dc) then (false, dc)
        else (true, {| bloom := bloom dc; inFlight := {[key]} ∪ inFlight dc |})).

(** After the handler. *)
(* src: pkg/messaging/dedup.go 68-73 Consume *)
Definition settle (key : string) (ok : bool) (dc : DeduplicatingConsumer) : option DeduplicatingConsumer :=
  bf ← (if ok then AddString key (bloom dc) else Some (bloom dc));
  Some {| bloom := bf; inFlight := inFlight dc ∖ {[key]} |}.

(** One delivery, without interruption. *)
(* src: pkg/messaging/dedup.go 48-77 Consume *)
Definition handle (handler : Message → option error) (msg : Message) (dc : DeduplicatingConsumer)
    : option (option error * DeduplicatingConsumer) :=
  let key := getDeduplicationKey msg in
  '(run, dc) ← claim key dc;
  if run : bool then
    let err := handler msg in
    dc ← settle key (bool_decide (err = None)) dc;
    Some (err, dc)
  else Some (None, dc).

(* src: pkg/messaging/dedup.go 108-113 Reset *)
Definition Reset (dc : DeduplicatingConsumer) : DeduplicatingConsumer := {| bloom := Clear (bloom dc); inFlight := ∅ |}.

(** ** Interleaved deliveries *)

(** [running] are the handlers that run, by goroutine, with their keys; [succeeded] the keys
    of the handlers that have returned nil. *)
Record deliveries := { dc : DeduplicatingConsumer; running : gmap nat string; succeeded : list string }.

Inductive event := Deliver (g : nat) (msg : Message) | Return (g : nat) (ok : bool).

Definition deliver_step (s : deliveries) (e : event) : option deliveries :=
  match e with
  | Deliver g msg =>
      match running s !! g with
      | Some _ => Some s
      | None =>
          let key := getDeduplicationKey msg in
          '(run, d) ← claim key (dc s);
          Some (if run : bool then {| dc := d; running := <[g := key]> (running s); succeeded := succeeded s |}
                else {| dc := d; running := running s; succeeded := succeeded s |})
      end
  | Return g ok =>
      match running s !! g with
      | None => Some s
      | Some key =>
          d ← settle key ok (dc s);
          Some {| dc := d; running := delete g (running s); succeeded := if ok then key :: succeeded s else succeeded s |}
      end
  end.

Fixpoint deliver_all (es : list event) (s : deliveries) : option deliveries :=
  match es with [] => Some s | e :: es => s ← deliver_step s e; deliver_all es s end.

Record once (nb nh : Z) (s : deliveries) : Prop := {
  o_filter : holds nb nh (bloom (dc s)) (bytes <$> succeeded s);
  o_flight k : k ∈ inFlight (dc s) ↔ ∃ g, running s !! g = Some k;
  o_alone g g' k : running s !! g = Some k → running s !! g' = Some k → g = g';
  o_new g k : running s !! g = Some k → k ∉ succeeded s;
  o_once : NoDup (succeeded s);
}.

Lemma once_claim nb nh s key : once nb nh s → ∃ seen, ContainsString key (bloom (dc s)) = Some seen ∧ (key ∈ succeeded s → seen = true).
Proof.
  intros [Hf _ _ _ _]. destruct (holds_Contains nb nh _ _ (bytes key) Hf) as (b & Hb & Hin & _). exists b. split; [done|].
  intros Hk. apply Hin. apply list_elem_of_fmap. by exists key.
Qed.

Lemma once_step nb nh s e : once nb nh s → ∃ s', deliver_step s e = Some s' ∧ once nb nh s'.
Proof.
  intros Ho. destruct e as [g msg|g ok]; cbn [deliver_step].
  - destruct (running s !! g) as [k|] eqn:Eg; [by exists s|]. set (key := getDeduplicationKey msg).
    destruct (once_claim nb nh s key Ho) as (seen & Hs & Hseen). unfold claim. rewrite Hs. cbn [mbind option_bind].
    destruct seen; [eexists; split; [reflexivity|]; by destruct Ho|]. destruct (decide (key ∈ inFlight (dc s))) as [Hin|Hout]; [eexists; split; [reflexivity|]; by destruct Ho|].
    eexists. split; [reflexivity|]. destruct Ho as [Hf Hfl Hal Hnew Hnd]. split; cbn; [done| | | |done].
    + intros k. rewrite elem_of_union, elem_of_singleton, Hfl. split.
      * intros [->|[g' Hg']]; [exists g; by rewrite lookup_insert_eq|]. exists g'. rewrite lookup_insert_ne; [done|congruence].
      * intros [g' Hg']. apply lookup_insert_Some in Hg' as [[-> ->]|[Hne Hg']]; [by left|right; by exists g'].
    + intros g1 g2 k [[-> ->]|[Hn1 H1]]%lookup_insert_Some [[-> E]|[Hn2 H2]]%lookup_insert_Some; [done| | |by eapply Hal].
      * destruct Hout. apply Hfl. by exists g2.
      * destruct Hout. apply Hfl. exists g1. by rewrite E.
    + intros g' k [[-> <-]|[Hn H1]]%lookup_insert_Some; [by intros ?%Hseen|by eapply Hnew].
  - destruct (running s !! g) as [k|] eqn:Eg; [|by exists s]. destruct Ho as [Hf Hfl Hal Hnew Hnd]. unfold settle.
    assert (∃ bf, (if ok then AddString k (bloom (dc s)) else Some (bloom (dc s))) = Some bf ∧
      holds nb nh bf (bytes <$> (if ok then k :: succeeded s else succeeded s))) as (bf & -> & Hf').
    { destruct ok; [|by eexists]. unfold AddString. by apply Add_holds. }
    cbn [mbind option_bind]. eexists. split; [reflexivity|]. split; cbn; [done| | | |].
    + intros k'. rewrite elem_of_difference, elem_of_singleton, Hfl. split.
      * intros [[g' Hg'] Hne]. exists g'. rewrite lookup_delete_ne; [done|congruence].
      * intros [g' [Hne Hg']%lookup_delete_Some]. split; [by exists g'|]. intros ->. by destruct Hne; eapply Hal.
    + intros g1 g2 k' [_ H1]%lookup_delete_Some [_ H2]%lookup_delete_Some. by eapply Hal.
    + intros g' k' [Hne H1]%lookup_delete_Some. pose proof (Hnew _ _ H1). destruct ok; [|done]. rewrite not_elem_of_cons. split; [|done].
      intros ->. destruct Hne. by eapply Hal.
    + destruct ok; [|done]. apply NoDup_cons. split; [by eapply Hnew|done].
Qed.

(** C17. However deliveries to any number of goroutines interleave, nothing panics, the handlers of
    one key never run at the same time, no key succeeds twice, and none whose handler has
    succeeded runs again.  A delivery is skipped only if its key runs or all positions of its key
    in the filter belong to keys that succeeded. *)
Theorem dedup_handles_once (nb nh : Z) (es : list event) : 0 < nb < 2 ^ 64 - 63 →
  ∃ s, deliver_all es {| dc := NewDeduplicatingConsumer nb nh; running := ∅; succeeded := [] |} = Some s ∧
    (∀ g g' k, running s !! g = Some k → running s !! g' = Some k → g = g') ∧
    NoDup (succeeded s) ∧ (∀ g k, running s !! g = Some k → k ∉ succeeded s) ∧
    ∀ msg, ∃ run d, claim (getDeduplicationKey msg) (dc s) = Some (run, d) ∧
      (run = false → (∃ g, running s !! g = Some (getDeduplicationKey msg)) ∨
        ∀ i, 0 ≤ i < nh → ∃ k j, k ∈ succeeded s ∧ 0 ≤ j < nh ∧
          pos_of (bloom (dc s)) (bytes (getDeduplicationKey msg)) i = pos_of (bloom (dc s)) (bytes k) j).
Proof.
  intros Hnb. assert (once nb nh {| dc := NewDeduplicatingConsumer nb nh; running := ∅; succeeded := [] |}) as Ho.
  { split; cbn; [by apply New_holds| |done|done|constructor]. intros k. split; [set_solver|]. intros [g Hg]. by rewrite lookup_empty in Hg. }
  revert Ho. generalize {| dc := NewDeduplicatingConsumer nb nh; running := ∅; succeeded := [] |}.
  induction es as [|e es IH]; intros s Ho; cbn [deliver_all]; [|destruct (once_step nb nh s e Ho) as (s' & -> & Ho'); by apply IH].
  exists s. split; [done|]. pose proof Ho as [Hf Hfl Hal Hnew Hnd]. split_and!; [done|done|done|]. intros msg. set (key := getDeduplicationKey msg).
  destruct (holds_Contains nb nh _ _ (bytes key) Hf) as (b & Hb & _ & Hiff). unfold claim, ContainsString. rewrite Hb. cbn [mbind option_bind].
  destruct b; [exists false, (dc s); split; [done|]; intros _; right; intros i Hi|].
  - destruct (proj1 Hiff eq_refl i Hi) as (d & j & Hd & Hj & E). apply list_elem_of_fmap in Hd as (k & -> & Hk). by exists k, j.
  - destruct (decide (key ∈ inFlight (dc s))) as [Hin|]; [|by eexists true, _]. exists false, (dc s). split; [done|]. intros _. left. by apply Hfl.
Qed.

Lemma dedup_handles_once_witness : ∃ s,
  deliver_all [Deliver 1 (hello 5); Deliver 2 (hello 5); Return 1 true; Deliver 2 (hello 6)] {| dc := NewDeduplicatingConsumer 64 3; running := ∅; succeeded := [] |} = Some s ∧
  NoDup (succeeded s).
Proof.
  destruct (dedup_handles_once 64 3 [Deliver 1 (hello 5); Deliver 2 (hello 5); Return 1 true; Deliver 2 (hello 6)]) as (s & Hs & _ & Hn & _); [lia|].
  exists s. split; [exact Hs|exact Hn].
Defined.

(** [Reset] forgets the handlers that run: a second delivery of a message runs while the first
    still does. *)
Theorem dedup_reset_runs_twice :
  (d ← deliver_step {| dc := NewDeduplicatingConsumer 64 3; running := ∅; succeeded := [] |} (Deliver 1 (hello 5));
   d ← deliver_step {| dc := Reset (dc d); running := running d; succeeded := succeeded d |} (Deliver 2 (hello 5));
   Some (map_to_list (running d))) = Some [(2%nat, "m"); (1%nat, "m")].
Proof. vm_compute. reflexivity. Qed.
