(* ===== verification/Cuckoo.v ===== *)
(** * pkg/datastructures/bloomfilter/cuckoo

    The cuckoo filter; its field bucketSize is always 4.  The random choices are arguments: the coin that picks the bucket to start
    from, and the slot to empty at every kick.  The kick loop has its own bound, [maxKicks].
    An index out of range and the modulus of an empty filter are [None]. *)

From S2P Require Import Prelude.
From stdpp Require Import options.
Open Scope Z_scope.
#[local] Set Default Proof Using "Type*".

(** FNV-1a with 32 and 64 bits (hash/fnv). *)
Definition fnv32a (data : list Z) : Z := foldl (λ h b, u32 (Z.lxor h b * 16777619)) 2166136261 data.
Definition fnv64a (data : list Z) : Z := foldl (λ h b, u64 (Z.lxor h b * 1099511628211)) 14695981039346656037 data.

Example fnv_check : (fnv32a [97], fnv64a [97]) = (3826002220, 12638187200555641996).
Proof. reflexivity. Qed.

(* src: pkg/datastructures/bloomfilter/cuckoo/filter.go 9-11 maxKicks *)
Definition maxKicks : nat := 500.

(** Buckets have four slots; 0 is an empty slot. *)
(* src: pkg/datastructures/bloomfilter/cuckoo/filter.go 15-20 Filter *)
Record Filter := { buckets : list (list Z); count : Z; capacity : Z }.

Definition set_buckets (bs : list (list Z)) (f : Filter) : Filter := {| buckets := bs; count := count f; capacity := capacity f |}.
Definition counted (d : Z) (f : Filter) : Filter := {| buckets := buckets f; count := u64 (count f + d); capacity := capacity f |}.

(* src: pkg/datastructures/bloomfilter/cuckoo/filter.go 25-34 New *)
Definition New (cap : Z) : Filter :=
  {| buckets := replicate (Z.to_nat (u64 (cap + 3) / 4)) [0; 0; 0; 0]; count := 0; capacity := cap |}.

(* src: pkg/datastructures/bloomfilter/cuckoo/filter.go 126-135 getFingerprint *)
Definition getFingerprint (data : list Z) : Z :=
  let fp := Z.land (fnv32a data) 65535 in if decide (fp = 0) then 1 else fp.

(* src: pkg/datastructures/bloomfilter/cuckoo/filter.go 137-141 getIndex *)
Definition getIndex (data : list Z) (numBuckets : Z) : option Z :=
  if decide (numBuckets = 0) then None else Some (fnv64a data mod numBuckets).

(* src: pkg/datastructures/bloomfilter/cuckoo/filter.go 143-154 getAltIndex *)
Definition getAltIndex (i fp numBuckets : Z) : option Z :=
  let hashFp := fnv64a [fp mod 256; fp / 256] in
  if decide (numBuckets = 0) then None else Some (Z.lxor i hashFp mod numBuckets).

(** The loop of [insert] over the slots. *)
(* src: pkg/datastructures/bloomfilter/cuckoo/filter.go 98-103 insert *)
Fixpoint fill_slot (fp : Z) (b : list Z) : option (list Z) :=
  match b with
  | [] => None
  | x :: b => if decide (x = 0) then Some (fp :: b) else cons x <$> fill_slot fp b
  end.

(* src: pkg/datastructures/bloomfilter/cuckoo/filter.go 97-105 insert *)
Definition insert (fp i : Z) (f : Filter) : option (bool * Filter) :=
  b ← buckets f !! Z.to_nat i;
  Some (match fill_slot fp b with
        | Some b => (true, set_buckets (<[Z.to_nat i := b]> (buckets f)) f)
        | None => (false, f)
        end).

(* src: pkg/datastructures/bloomfilter/cuckoo/filter.go 107-114 bucketContains *)
Definition bucketContains (i fp : Z) (f : Filter) : option bool :=
  b ← buckets f !! Z.to_nat i; Some (bool_decide (fp ∈ (b : list Z))).

(* src: pkg/datastructures/bloomfilter/cuckoo/filter.go 117-122 deleteFromBucket *)
Fixpoint clear_slot (fp : Z) (b : list Z) : option (list Z) :=
  match b with
  | [] => None
  | x :: b => if decide (x = fp) then Some (0 :: b) else cons x <$> clear_slot fp b
  end.

(* src: pkg/datastructures/bloomfilter/cuckoo/filter.go 116-124 deleteFromBucket *)
Definition deleteFromBucket (i fp : Z) (f : Filter) : option (bool * Filter) :=
  b ← buckets f !! Z.to_nat i;
  Some (match clear_slot fp b with
        | Some b => (true, set_buckets (<[Z.to_nat i := b]> (buckets f)) f)
        | None => (false, f)
        end).

Definition numBuckets (f : Filter) : Z := Z.of_nat (length (buckets f)).

(* src: pkg/datastructures/bloomfilter/cuckoo/filter.go 74-80 Contains *)
Definition Contains (data : list Z) (f : Filter) : option bool :=
  let fp := getFingerprint data in
  i1 ← getIndex data (numBuckets f);
  i2 ← getAltIndex i1 fp (numBuckets f);
  c1 ← bucketContains i1 fp f;
  if c1 : bool then Some true else bucketContains i2 fp f.

(** [slot k] is the random slot of kick number [k]. *)
(* src: pkg/datastructures/bloomfilter/cuckoo/filter.go 56-69 Add *)
Fixpoint kick (todo k : nat) (slot : nat → nat) (fp currIndex : Z) (f : Filter) : option (bool * Filter) :=
  match todo with
  | O => Some (false, f)
  | S todo =>
      b ← buckets f !! Z.to_nat currIndex;
      oldFp ← b !! slot k;
      let f := set_buckets (<[Z.to_nat currIndex := <[slot k := fp]> b]> (buckets f)) f in
      currIndex ← getAltIndex currIndex oldFp (numBuckets f);
      '(ok, f) ← insert oldFp currIndex f;
      if ok : bool then Some (true, counted 1 f) else kick todo (S k) slot oldFp currIndex f
  end.

(* src: pkg/datastructures/bloomfilter/cuckoo/filter.go 36-72 Add *)
Definition Add (coin : bool) (slot : nat → nat) (data : list Z) (f : Filter) : option (bool * Filter) :=
  c ← Contains data f;
  if c : bool then Some (true, f) else
  let fp := getFingerprint data in
  i1 ← getIndex data (numBuckets f);
  i2 ← getAltIndex i1 fp (numBuckets f);
  '(ok, f) ← insert fp i1 f;
  if ok : bool then Some (true, counted 1 f) else
  '(ok, f) ← insert fp i2 f;
  if ok : bool then Some (true, counted 1 f) else
  kick maxKicks 0 slot fp (if coin then i2 else i1) f.

(* src: pkg/datastructures/bloomfilter/cuckoo/filter.go 82-95 Delete *)
Definition Delete (data : list Z) (f : Filter) : option (bool * Filter) :=
  let fp := getFingerprint data in
  i1 ← getIndex data (numBuckets f);
  '(ok, f) ← deleteFromBucket i1 fp f;
  if ok : bool then Some (true, counted (-1) f) else
  i2 ← getAltIndex i1 fp (numBuckets f);
  '(ok, f) ← deleteFromBucket i2 fp f;
  Some (ok, if ok : bool then counted (-1) f else f).

(** ** No false negatives *)

Section pow2.
  Context (k : Z) (Hk : 0 ≤ k < 62).

Definition alt (i fp : Z) : Z := Z.lxor i (fnv64a [fp mod 256; fp / 256]) mod 2 ^ k.

Lemma alt_range i fp : 0 ≤ alt i fp < 2 ^ k.
Proof. apply Z.mod_pos_bound. lia. Qed.

(** For a power of two the two buckets of a fingerprint are each other's alternative. *)
Lemma alt_alt i fp : 0 ≤ i < 2 ^ k → alt (alt i fp) fp = i.
Proof.
  intros Hi. unfold alt. set (h := fnv64a _). apply Z.bits_inj'. intros n Hn.
  destruct (decide (n < k)) as [Hlt|Hge].
  - rewrite Z.mod_pow2_bits_low, Z.lxor_spec, Z.mod_pow2_bits_low, Z.lxor_spec by lia. by destruct (Z.testbit i n), (Z.testbit h n).
  - rewrite Z.mod_pow2_bits_high by lia. rewrite <- (Z.mod_small i (2 ^ k)) by lia. by rewrite Z.mod_pow2_bits_high by lia.
Qed.

Definition shape (f : Filter) : Prop := numBuckets f = 2 ^ k ∧ Forall (λ b, length b = 4%nat) (buckets f).

Definition in_bucket (f : Filter) (i fp : Z) : Prop := ∃ b, buckets f !! Z.to_nat i = Some b ∧ fp ∈ b.

(** The fingerprint is in one of its two buckets. *)
Definition present (f : Filter) (i fp : Z) : Prop := in_bucket f i fp ∨ in_bucket f (alt i fp) fp.

Lemma present_alt f i fp : 0 ≤ i < 2 ^ k → present f (alt i fp) fp ↔ present f i fp.
Proof. intros Hi. unfold present. rewrite alt_alt by done. tauto. Qed.

Lemma shape_lookup f i : shape f → 0 ≤ i < 2 ^ k → ∃ b, buckets f !! Z.to_nat i = Some b ∧ length b = 4%nat.
Proof.
  intros [Hn Hb] Hi. unfold numBuckets in Hn. destruct (lookup_lt_is_Some_2 (buckets f) (Z.to_nat i)) as [b E]; [lia|].
  exists b. split; [done|]. rewrite Forall_forall in Hb. apply Hb. by apply list_elem_of_lookup_2 in E.
Qed.

Lemma getIndex_spec data f : shape f → getIndex data (numBuckets f) = Some (fnv64a data mod 2 ^ k).
Proof. intros [-> _]. unfold getIndex. rewrite decide_False; [done|]. pose proof (Z.pow_pos_nonneg 2 k). lia. Qed.
Lemma getAltIndex_spec i fp f : shape f → getAltIndex i fp (numBuckets f) = Some (alt i fp).
Proof. intros [-> _]. unfold getAltIndex. rewrite decide_False; [done|]. pose proof (Z.pow_pos_nonneg 2 k). lia. Qed.

(** Replacing a bucket by one of four slots. *)
Lemma shape_set f i b : shape f → length b = 4%nat → shape (set_buckets (<[Z.to_nat i := b]> (buckets f)) f).
Proof.
  intros [Hn Hb] Hl. split; [unfold numBuckets; cbn; by rewrite length_insert|]. cbn. by apply Forall_insert.
Qed.

Lemma in_bucket_set f i b j fp : 0 ≤ i → 0 ≤ j → is_Some (buckets f !! Z.to_nat i) →
  in_bucket (set_buckets (<[Z.to_nat i := b]> (buckets f)) f) j fp ↔ if decide (j = i) then fp ∈ b else in_bucket f j fp.
Proof.
  clear Hk. intros Hi Hj Hs. apply lookup_lt_is_Some in Hs. unfold in_bucket. cbn. destruct (decide (j = i)) as [->|Hne].
  - rewrite list_lookup_insert_eq by done. naive_solver.
  - rewrite list_lookup_insert_ne by lia. done.
Qed.

Lemma fill_slot_spec fp b b' : fill_slot fp b = Some b' → length b' = length b ∧ fp ∈ b' ∧ ∀ x, x ≠ 0 → x ∈ b → x ∈ b'.
Proof.
  clear Hk. revert b'. induction b as [|x b IH]; intros b'; cbn; [done|]. destruct (decide (x = 0)) as [->|Hx].
  - intros [= <-]. split_and!; [done|set_solver|]. intros y Hy. rewrite !elem_of_cons. naive_solver.
  - intros (b1 & H1 & ->)%fmap_Some. destruct (IH b1 H1) as (? & ? & ?). split_and!; [cbn; lia|set_solver|]. intros y Hy. rewrite !elem_of_cons. naive_solver.
Qed.

Lemma insert_spec fp i f : shape f → 0 ≤ i < 2 ^ k → ∃ ok f', insert fp i f = Some (ok, f') ∧ shape f' ∧
  (∀ j x, 0 ≤ j → x ≠ 0 → in_bucket f j x → in_bucket f' j x) ∧ (ok = true → in_bucket f' i fp) ∧ (ok = false → f' = f).
Proof.
  intros Hs Hi. destruct (shape_lookup f i Hs Hi) as (b & Eb & Hl). unfold insert. rewrite Eb. cbn [mbind option_bind].
  destruct (fill_slot fp b) as [b'|] eqn:Ef; [|by eexists false, f]. apply fill_slot_spec in Ef as (Hl' & Hin & Hk'). eexists true, _. split; [reflexivity|].
  assert (is_Some (buckets f !! Z.to_nat i)) as Hsome by (by rewrite Eb). split_and!; [apply shape_set; [done|lia]| | |done].
  - intros j x Hj Hx Hjx. rewrite in_bucket_set by (done || lia). destruct (decide (j = i)) as [->|]; [|done].
    destruct Hjx as (b1 & E1 & Hx1). rewrite Eb in E1. injection E1 as <-. by apply Hk'.
  - intros _. rewrite in_bucket_set by (done || lia). by rewrite decide_True.
Qed.

Lemma bucketContains_spec i fp f : shape f → 0 ≤ i < 2 ^ k → ∃ c, bucketContains i fp f = Some c ∧ (c = true ↔ in_bucket f i fp).
Proof.
  intros Hs Hi. destruct (shape_lookup f i Hs Hi) as (b & Eb & _). unfold bucketContains, in_bucket. rewrite Eb. cbn [mbind option_bind].
  eexists. split; [reflexivity|]. rewrite bool_decide_eq_true. split; [by exists b|]. by intros (b1 & [= <-] & ?).
Qed.

Definition index (data : list Z) : Z := fnv64a data mod 2 ^ k.
Lemma index_range data : 0 ≤ index data < 2 ^ k.
Proof. apply Z.mod_pos_bound. pose proof (Z.pow_pos_nonneg 2 k). lia. Qed.

Lemma Contains_spec data f : shape f → ∃ c, Contains data f = Some c ∧ (c = true ↔ present f (index data) (getFingerprint data)).
Proof.
  intros Hs. unfold Contains. rewrite getIndex_spec by done. cbn [mbind option_bind]. fold (index data). rewrite getAltIndex_spec by done. cbn [mbind option_bind].
  set (fp := getFingerprint data). destruct (bucketContains_spec (index data) fp f Hs (index_range data)) as (c1 & -> & H1). cbn [mbind option_bind].
  destruct (bucketContains_spec (alt (index data) fp) fp f Hs (alt_range _ _)) as (c2 & -> & H2). unfold present. destruct c1.
  - exists true. split; [done|]. tauto.
  - exists c2. split; [done|]. rewrite H2, <- H1. naive_solver.
Qed.

Lemma fp_nonzero data : getFingerprint data ≠ 0.
Proof. clear Hk. unfold getFingerprint. destruct (decide _); lia. Qed.

(** While a fingerprint is carried from bucket to bucket, everything else is in its place. *)
Lemma kick_spec todo : ∀ n slot fp i f, shape f → 0 ≤ i < 2 ^ k → (∀ n, (slot n < 4)%nat) →
  ∃ ok f', kick todo n slot fp i f = Some (ok, f') ∧ shape f' ∧
    (ok = true → ∀ j x, 0 ≤ j < 2 ^ k → x ≠ 0 → present f j x ∨ (x = fp ∧ (i = j ∨ i = alt j x)) → present f' j x).
Proof.
  induction todo as [|todo IH]; intros n slot fp i f Hs Hi Hslot; cbn [kick]; [by eexists false, f|].
  destruct (shape_lookup f i Hs Hi) as (b & Eb & Hl). rewrite Eb. cbn [mbind option_bind].
  destruct (lookup_lt_is_Some_2 b (slot n)) as [old Eold]; [specialize (Hslot n); lia|]. rewrite Eold. cbn [mbind option_bind].
  set (f1 := set_buckets _ f). assert (shape f1) as Hs1 by (apply shape_set; [done|by rewrite length_insert]).
  rewrite getAltIndex_spec by done. cbn [mbind option_bind]. pose proof (alt_range i old) as Ha.
  assert (∀ j x, 0 ≤ j → in_bucket f1 j x ↔ if decide (j = i) then x ∈ <[slot n := fp]> b else in_bucket f j x) as Hf1.
  { intros j x Hj. apply in_bucket_set; [lia|done|by rewrite Eb]. }
  assert (∀ j x, 0 ≤ j < 2 ^ k → in_bucket f j x → in_bucket f1 j x ∨ (x = old ∧ j = i)) as Hkeep.
  { intros j x Hj Hx. rewrite Hf1 by lia. destruct (decide (j = i)) as [->|]; [|by left]. destruct Hx as (b1 & E1 & Hx). rewrite Eb in E1. injection E1 as <-.
    apply list_elem_of_lookup in Hx as [m Hm]. destruct (decide (m = slot n)) as [->|Hne]; [right; split; [congruence|done]|]. left.
    apply list_elem_of_lookup. exists m. by rewrite list_lookup_insert_ne. }
  assert (in_bucket f1 i fp) as Hnew.
  { rewrite Hf1, decide_True by (done || lia). apply list_elem_of_lookup. exists (slot n). apply list_lookup_insert_eq. specialize (Hslot n). lia. }
  (* what was there, or is carried, is there or is the old fingerprint on its way to its other bucket *)
  assert (∀ j x, 0 ≤ j < 2 ^ k → present f j x ∨ (x = fp ∧ (i = j ∨ i = alt j x)) → present f1 j x ∨ (x = old ∧ (alt i old = j ∨ alt i old = alt j x))) as Hgo.
  { intros j x Hj [[Hx|Hx]|[-> [->|Ei]]].
    - apply Hkeep in Hx as [Hx|[-> ->]]; [left; by left|right; auto|done].
    - apply Hkeep in Hx as [Hx|[-> Ei]]; [left; by right|right; split; [done|]; left; rewrite <- Ei; by apply alt_alt|apply alt_range].
    - left. by left.
    - left. right. by rewrite <- Ei. }
  destruct (insert_spec old (alt i old) f1 Hs1 Ha) as (ok & f2 & -> & Hs2 & Hmono & Hok & Hno). cbn [mbind option_bind]. destruct ok.
  - eexists true, _. split; [reflexivity|]. split; [exact Hs2|]. intros _ j x Hj Hx Hp. apply Hgo in Hp; [|done].
    assert (∀ g, present (counted 1 g) j x ↔ present g j x) as Hc by done. rewrite Hc. clear Hc. destruct Hp as [[Hp|Hp]|[-> [<-|Ej]]].
    + left. apply Hmono; [lia|done|done].
    + right. apply Hmono; [apply alt_range|done|done].
    + left. by apply Hok.
    + right. rewrite <- Ej. by apply Hok.
  - rewrite (Hno eq_refl) in *.
    destruct (IH (S n) slot old (alt i old) f1 Hs1 Ha Hslot) as (ok' & f' & -> & Hs' & Hp'). eexists ok', f'. split; [done|]. split; [done|].
    intros Hok' j x Hj Hx Hp. apply Hp'; [done|done|done|]. by apply Hgo.
Qed.

Lemma cuckoo_Add_spec coin slot data f : shape f → (∀ n, (slot n < 4)%nat) →
  ∃ ok f', Add coin slot data f = Some (ok, f') ∧ shape f' ∧
    (ok = true → present f' (index data) (getFingerprint data) ∧
      ∀ d, present f (index d) (getFingerprint d) → present f' (index d) (getFingerprint d)).
Proof.
  intros Hs Hslot. unfold Add. destruct (Contains_spec data f Hs) as (c & -> & Hc). cbn [mbind option_bind].
  destruct c; [exists true, f; naive_solver|]. clear Hc. rewrite getIndex_spec by done. cbn [mbind option_bind]. fold (index data).
  set (fp := getFingerprint data). rewrite getAltIndex_spec by done. cbn [mbind option_bind]. pose proof (index_range data) as Hi. pose proof (alt_range (index data) fp) as Hi2.
  assert (∀ g j x, present (counted 1 g) j x ↔ present g j x) as Hcount by done.
  assert (∀ g j, shape g → 0 ≤ j < 2 ^ k → j = index data ∨ j = alt (index data) fp → ∃ ok g', insert fp j g = Some (ok, g') ∧ shape g' ∧ (ok = false → g' = g) ∧
    (ok = true → present g' (index data) fp ∧ ∀ d, present g (index d) (getFingerprint d) → present g' (index d) (getFingerprint d))) as Hins.
  { intros g j Hg Hj Hjd. destruct (insert_spec fp j g Hg Hj) as (ok & g' & -> & Hs' & Hmono & Hok & Hno). exists ok, g'. split_and!; [done|done|done|].
    intros ->. split; [destruct Hjd as [->| ->]; [left|right]; by apply Hok|]. intros d [Hd|Hd]; [left|right]; (apply Hmono; [apply index_range || apply alt_range|apply fp_nonzero|done]). }
  destruct (Hins f (index data) Hs Hi) as (ok & f1 & -> & Hs1 & Hno1 & Hok1); [by left|]. cbn [mbind option_bind].
  destruct ok; [exists true, (counted 1 f1); split; [done|]; split; [exact Hs1|]; intros _; by apply Hok1|]. rewrite (Hno1 eq_refl).
  destruct (Hins f (alt (index data) fp) Hs Hi2) as (ok & f2 & -> & Hs2 & Hno2 & Hok2); [by right|]. cbn [mbind option_bind].
  destruct ok; [exists true, (counted 1 f2); split; [done|]; split; [exact Hs2|]; intros _; by apply Hok2|]. rewrite (Hno2 eq_refl).
  destruct (kick_spec maxKicks 0 slot fp (if coin then alt (index data) fp else index data) f Hs) as (ok & f' & -> & Hs' & Hp); [by destruct coin|done|].
  exists ok, f'. split_and!; [done|done|]. intros ->. split.
  - apply Hp; [done|done|apply fp_nonzero|]. right. split; [done|]. destruct coin; auto.
  - intros d Hd. apply Hp; [done|apply index_range|apply fp_nonzero|by left].
Qed.

Lemma New_shape cap : u64 (cap + 3) / 4 = 2 ^ k → shape (New cap).
Proof.
  intros Hc. split; [unfold numBuckets; cbn; rewrite length_replicate, Hc; pose proof (Z.pow_pos_nonneg 2 k); lia|]. cbn. apply Forall_replicate. done.
Qed.
End pow2.

Record addition := { a_coin : bool; a_slot : nat → nat; a_data : list Z }.

(** The results of a sequence of additions, and the filter. *)
Fixpoint add_all (xs : list addition) (f : Filter) : option (list bool * Filter) :=
  match xs with
  | [] => Some ([], f)
  | x :: xs => '(ok, f) ← Add (a_coin x) (a_slot x) (a_data x) f; '(oks, f) ← add_all xs f; Some (ok :: oks, f)
  end.

(** A filter whose number of buckets is a power of two has no false negatives: whatever the
    random choices, additions never panic, and if all returned true then [Contains] answers true
    for everything added. *)
Theorem cuckoo_no_false_negatives (cap k : Z) (xs : list addition) :
  0 ≤ k < 62 → u64 (cap + 3) / 4 = 2 ^ k → (∀ x n, x ∈ xs → (a_slot x n < 4)%nat) →
  ∃ oks f, add_all xs (New cap) = Some (oks, f) ∧
    (Forall (eq true) oks → ∀ x, x ∈ xs → Contains (a_data x) f = Some true).
Proof.
  intros Hk Hcap. pose proof (New_shape k Hk cap Hcap) as Hs. revert Hs. generalize (New cap).
  enough (∀ f, shape k f → (∀ x n, x ∈ xs → (a_slot x n < 4)%nat) → ∃ oks f', add_all xs f = Some (oks, f') ∧ shape k f' ∧ (Forall (eq true) oks →
    (∀ x, x ∈ xs → present k f' (index k (a_data x)) (getFingerprint (a_data x))) ∧
    ∀ d, present k f (index k d) (getFingerprint d) → present k f' (index k d) (getFingerprint d))) as Hall.
  { intros f Hs Hslot. destruct (Hall f Hs Hslot) as (oks & f' & E & Hs' & Hp). exists oks, f'. split; [done|]. intros Hoks x Hx.
    destruct (Contains_spec k Hk (a_data x) f' Hs') as (c & -> & Hc). f_equal. apply Hc. by apply (proj1 (Hp Hoks)). }
  induction xs as [|x xs IH]; intros f Hs Hslot; cbn [add_all]; [exists [], f; split; [done|]; split; [done|]; intros _; split; [set_solver|done]|].
  destruct (cuckoo_Add_spec k Hk (a_coin x) (a_slot x) (a_data x) f Hs) as (ok & f1 & -> & Hs1 & H1); [intros n; apply Hslot; set_solver|]. cbn [mbind option_bind].
  destruct (IH f1 Hs1) as (oks & f2 & -> & Hs2 & H2); [intros y n Hy; apply Hslot; set_solver|]. cbn [mbind option_bind].
  exists (ok :: oks), f2. split_and!; [done|done|]. intros [<- Hoks]%Forall_cons. destruct (H1 eq_refl) as [Hx Hd]. destruct (H2 Hoks) as [Hxs Hd2]. split.
  - intros y [->|Hy]%elem_of_cons; [by apply Hd2|by apply Hxs].
  - intros d Hpd. by apply Hd2, Hd.
Qed.

Definition bytes_of (s : string) : list Z := (λ c, Z.of_N (Ascii.N_of_ascii c)) <$> String.list_ascii_of_string s.
Definition add_word (w : string) : addition := {| a_coin := false; a_slot := λ _, 0%nat; a_data := bytes_of w |}.

Lemma cuckoo_no_false_negatives_witness : ∃ oks f, add_all (add_word <$> ["a"; "b"; "c"; "d"; "e"; "f"]) (New 8) = Some (oks, f) ∧
  Contains (bytes_of "c") f = Some true.
Proof.
  destruct (cuckoo_no_false_negatives 8 1 (add_word <$> ["a"; "b"; "c"; "d"; "e"; "f"])) as (oks & f & E & H); [lia|reflexivity| |].
  - intros x n (w & -> & _)%list_elem_of_fmap. cbn. lia.
  - exists oks, f. split; [exact E|]. apply (H ltac:(vm_compute in E; injection E as <- _; repeat constructor) (add_word "c")).
    apply list_elem_of_fmap. exists "c". split; [reflexivity|]. compute_decide.
Defined.

(** With three buckets the second bucket of a fingerprint does not lead back to the first: after
    a kick an element that was added is not found. *)
Theorem cuckoo_three_buckets_lose :
  ('(oks, f) ← add_all (add_word <$> ["e"; "v"; "h"; "l"; "w"; "j"; "u"; "p"; "a"]) (New 12);
   c ← Contains (bytes_of "v") f; Some (forallb id oks, c)) = Some (true, false).
Proof. vm_compute. reflexivity. Qed.

(** [Add] stores nothing for an element that seems to be there: when one of two elements with the
    same fingerprint is deleted, the other is gone too. *)
Theorem cuckoo_delete_removes_other :
  ('(oks, f) ← add_all (add_word <$> ["exr"; "jda"]) (New 4);
   '(ok, f) ← Delete (bytes_of "jda") f; c ← Contains (bytes_of "exr") f; Some (oks, ok, c)) = Some ([true; true], true, false).
Proof. vm_compute. reflexivity. Qed.

(** An addition that fails has added its element and dropped another. *)
Theorem cuckoo_failed_add_drops :
  ('(oks, f) ← add_all (add_word <$> ["a"; "b"; "c"; "d"]) (New 4);
   '(ok, f) ← Add false (λ k, if decide (k = 499)%nat then 1%nat else 0%nat) (bytes_of "e") f;
   cb ← Contains (bytes_of "b") f; ce ← Contains (bytes_of "e") f; Some (oks, ok, cb, ce)) = Some ([true; true; true; true], false, false, true).
Proof. vm_compute. reflexivity. Qed.
