(* ===== verification/GraphSearch.v ===== *)
(** * Graph traversals (pkg/algorithms/graph/bfs, pkg/algorithms/graph/dfs)

    Breadth-first and depth-first search over adjacency lists, unweighted shortest paths and
    cycle detection.  The caller's [visit] acts on a state of its own.  [None] is a loop that
    has not ended within its fuel; the theorems show that the fuel suffices. *)

From S2P Require Import Prelude.
From stdpp Require Import relations sorting.
From stdpp Require Import options.
Open Scope Z_scope.

Abbreviation AdjacencyList := (gmap string (list string)).

(** [g[u]] *)
Definition succs (g : AdjacencyList) (u : string) : list string := default [] (g !! u).

(** The nodes that occur in the graph, and the number of its edges. *)
Definition nodes (g : AdjacencyList) : gset string :=
  dom g ∪ list_to_set (concat (map_to_list g).*2).
Definition out_degrees (g : AdjacencyList) : gmap string Z := (λ l, Z.of_nat (length l)) <$> g.
Definition num_edges (g : AdjacencyList) : nat := Z.to_nat (msum (out_degrees g)).

Definition edge (g : AdjacencyList) (u v : string) : Prop := v ∈ succs g u.

Lemma edge_nodes g u v : edge g u v → v ∈ nodes g.
Proof.
  unfold edge, succs, nodes. destruct (g !! u) as [l|] eqn:E; cbn; [|by intros ?%elem_of_nil].
  intros Hv. apply elem_of_union_r, elem_of_list_to_set, list_elem_of_In, in_concat. exists l. split; [|by apply list_elem_of_In].
  apply list_elem_of_In, list_elem_of_fmap. exists (u, l). split; [done|]. by apply elem_of_map_to_list.
Qed.

(** ** Breadth-first search *)

Module Bfs.

(** [for _, v := range g[u] { if !visited[v] { visited[v] = true; queue = append(queue, v) } }] *)
(* src: pkg/algorithms/graph/bfs/bfs.go 27-32 Traverse *)
Fixpoint push (vs : list string) (visited : gset string) (queue : list string) : gset string * list string :=
  match vs with
  | [] => (visited, queue)
  | v :: vs => if decide (v ∉ visited) then push vs ({[v]} ∪ visited) (queue ++ [v]) else push vs visited queue
  end.

(* src: pkg/algorithms/graph/bfs/bfs.go 21-33 Traverse *)
Fixpoint traverse_loop {S} (fuel : nat) (g : AdjacencyList) (visit : string → S → bool * S)
    (visited : gset string) (queue : list string) (s : S) : option S :=
  match queue with
  | [] => Some s
  | u :: queue =>
      match fuel with
      | O => None
      | S fuel =>
          let '(b, s) := visit u s in
          if negb b then Some s
          else let '(visited, queue) := push (succs g u) visited queue in
               traverse_loop fuel g visit visited queue s
      end
  end.

(** A node enters the queue once. *)
(* src: pkg/algorithms/graph/bfs/bfs.go 13-34 Traverse *)
Definition Traverse {S} (g : AdjacencyList) (start : string) (visit : option (string → S → bool * S)) (s : S)
    : option S :=
  match visit with
  | None => Some s
  | Some visit => traverse_loop (size ({[start]} ∪ nodes g)) g visit {[start]} [start] s
  end.

(* src: pkg/algorithms/graph/bfs/bfs.go 37-44 Reachable *)
Definition Reachable (g : AdjacencyList) (start : string) : option (list string) :=
  Traverse g start (Some (λ node out, (true, out ++ [node]))) [].

(* src: pkg/algorithms/graph/bfs/bfs.go 66-72 ShortestPath *)
Fixpoint push_parent (u : string) (vs : list string) (visited : gset string) (parent : gmap string string)
    (queue : list string) : gset string * gmap string string * list string :=
  match vs with
  | [] => (visited, parent, queue)
  | v :: vs =>
      if decide (v ∉ visited) then push_parent u vs ({[v]} ∪ visited) (<[v := u]> parent) (queue ++ [v])
      else push_parent u vs visited parent queue
  end.

(** The search: [Some (Some parent)] when [end_] was found. *)
(* src: pkg/algorithms/graph/bfs/bfs.go 58-76 ShortestPath *)
Fixpoint search_loop (fuel : nat) (g : AdjacencyList) (end_ : string) (visited : gset string)
    (parent : gmap string string) (queue : list string) : option (option (gmap string string)) :=
  match queue with
  | [] => Some None
  | u :: queue =>
      if decide (u = end_) then Some (Some parent)
      else match fuel with
      | O => None
      | S fuel =>
          let '(visited, parent, queue) := push_parent u (succs g u) visited parent queue in
          search_loop fuel g end_ visited parent queue
      end
  end.

(** [for cur := end; cur != start; { ... }]; the inner [None] is the return of nil. *)
(* src: pkg/algorithms/graph/bfs/bfs.go 78-86 ShortestPath *)
Fixpoint walk_back (fuel : nat) (start : string) (parent : gmap string string) (cur : string) (path : list string)
    : option (option (list string)) :=
  if decide (cur = start) then Some (Some path)
  else match fuel with
  | O => None
  | S fuel =>
      match parent !! cur with
      | None => Some None
      | Some p => walk_back fuel start parent p (path ++ [p])
      end
  end.

(* src: pkg/algorithms/graph/bfs/bfs.go 48-91 ShortestPath *)
Definition ShortestPath (g : AdjacencyList) (start end_ : string) : option (option (list string)) :=
  if decide (start = end_) then Some (Some [start])
  else
    let n := size ({[start]} ∪ nodes g) in
    match search_loop n g end_ {[start]} ∅ [start] with
    | None => None
    | Some None => Some None
    | Some (Some parent) =>
        match walk_back n start parent end_ [end_] with
        | None => None
        | Some None => Some None
        | Some (Some path) => Some (Some (reverse path))
        end
    end.

(** *** The invariant of the search *)

Section bfs.
  Context (g : AdjacencyList) (start : string).
  Implicit Types (expanded queue : list string) (parent : gmap string string) (lvl : gmap string nat).

(** [lvl] gives the visited nodes their distance from [start]: a node other than [start] is one
    step further than its parent, what an expanded node points to is visited and at most one
    step further, and the queue is in order of the distance, spanning at most two. *)
Record inv expanded (visited : gset string) parent queue lvl : Prop := {
  i_dom : dom lvl = visited;
  i_vis x : x ∈ visited ↔ x ∈ expanded ∨ x ∈ queue;
  i_nodup : NoDup (expanded ++ queue);
  i_sub : visited ⊆ {[start]} ∪ nodes g;
  i_start : lvl !! start = Some 0%nat;
  i_parent x n : lvl !! x = Some n → x ≠ start → ∃ p m, parent !! x = Some p ∧ edge g p x ∧
    lvl !! p = Some m ∧ n = S m;
  i_closed u v n : u ∈ expanded → edge g u v → lvl !! u = Some n → ∃ m, lvl !! v = Some m ∧ (m ≤ S n)%nat;
  i_queue : ∀ i j x y n m, (i ≤ j)%nat → (expanded ++ queue) !! i = Some x → (expanded ++ queue) !! j = Some y →
    lvl !! x = Some n → lvl !! y = Some m → (n ≤ m)%nat;
  i_span x y n m : head queue = Some x → y ∈ queue → lvl !! x = Some n → lvl !! y = Some m → (m ≤ S n)%nat;
}.

Lemma inv_init : inv [] {[start]} ∅ [start] {[start := 0%nat]}.
Proof.
  split; try done.
  - apply dom_singleton_L.
  - intros x. rewrite elem_of_nil, list_elem_of_singleton, elem_of_singleton. tauto.
  - apply NoDup_singleton.
  - set_solver.
  - apply lookup_singleton_eq.
  - intros x n [<- _]%lookup_singleton_Some. done.
  - intros u v n Hu. by apply elem_of_nil in Hu.
  - intros i j x y n m _ _ _ Hx Hy. apply lookup_singleton_Some in Hx as [_ <-]. lia.
  - intros x y n m _ _ Hx Hy. apply lookup_singleton_Some in Hx as [_ <-], Hy as [_ <-]. lia.
Qed.

(** While the edges of [u] are gone through, everything holds but that [u] is closed; new nodes
    are one step further than [u]. *)
Record inv_mid expanded u nu (todo : list string) (visited : gset string) parent queue lvl : Prop := {
  m_dom : dom lvl = visited;
  m_vis x : x ∈ visited ↔ x ∈ expanded ++ [u] ∨ x ∈ queue;
  m_nodup : NoDup ((expanded ++ [u]) ++ queue);
  m_sub : visited ⊆ {[start]} ∪ nodes g;
  m_start : lvl !! start = Some 0%nat;
  m_parent x n : lvl !! x = Some n → x ≠ start → ∃ p m, parent !! x = Some p ∧ edge g p x ∧
    lvl !! p = Some m ∧ n = S m;
  m_u : lvl !! u = Some nu;
  m_closed w v n : w ∈ expanded → edge g w v → lvl !! w = Some n → ∃ m, lvl !! v = Some m ∧ (m ≤ S n)%nat;
  m_seen v : edge g u v → v ∈ todo ∨ ∃ m, lvl !! v = Some m ∧ (m ≤ S nu)%nat;
  m_expanded x n : x ∈ expanded ++ [u] → lvl !! x = Some n → (n ≤ nu)%nat;
  m_sorted : ∀ i j x y n m, (i ≤ j)%nat → ((expanded ++ [u]) ++ queue) !! i = Some x →
    ((expanded ++ [u]) ++ queue) !! j = Some y → lvl !! x = Some n → lvl !! y = Some m → (n ≤ m)%nat;
  m_span y m : y ∈ queue → lvl !! y = Some m → (nu ≤ m ≤ S nu)%nat;
}.

Lemma inv_pop expanded visited parent u queue lvl :
  inv expanded visited parent (u :: queue) lvl →
  ∃ nu, inv_mid expanded u nu (succs g u) visited parent queue lvl.
Proof.
  intros [ID IV IN IS I0 IP IC IQ ISP].
  assert (u ∈ visited) as Hu by (apply IV; right; apply list_elem_of_here).
  rewrite <- ID in Hu. apply elem_of_dom in Hu as [nu Hnu]. exists nu.
  assert (∀ l, expanded ++ u :: l = (expanded ++ [u]) ++ l) as Happ by (intros; by rewrite <- app_assoc).
  assert (∀ x, x ∈ u :: queue → is_Some (lvl !! x)) as Hlvl.
  { intros x Hx. apply elem_of_dom. rewrite ID. apply IV. by right. }
  split; try done.
  - intros x. rewrite IV, elem_of_app, elem_of_cons, list_elem_of_singleton. tauto.
  - by rewrite <- Happ.
  - auto.
  - intros x n [Hx|Hx]%elem_of_app Hn.
    + apply list_elem_of_lookup in Hx as [i Hi]. eapply (IQ i (length expanded)); [|by rewrite lookup_app_l by (by eapply lookup_lt_Some)| |done|done].
      * apply lookup_lt_Some in Hi. lia.
      * by rewrite list_lookup_middle.
    + apply list_elem_of_singleton in Hx as ->. simplify_eq. lia.
  - rewrite <- Happ. apply IQ.
  - intros y m Hy Hm. split.
    + apply list_elem_of_lookup in Hy as [j Hj]. eapply (IQ (length expanded) (length expanded + S j)%nat); [lia| | |done|done].
      * by rewrite list_lookup_middle.
      * rewrite lookup_app_r by lia. by replace (length expanded + S j - length expanded)%nat with (S j) by lia.
    + eapply (ISP u y); [done|by right|done|done].
Qed.

Lemma push_step expanded u nu v todo visited parent queue lvl :
  edge g u v → v ∉ visited →
  inv_mid expanded u nu (v :: todo) visited parent queue lvl →
  inv_mid expanded u nu todo ({[v]} ∪ visited) (<[v := u]> parent) (queue ++ [v]) (<[v := S nu]> lvl).
Proof.
  intros Huv Hv [MD MV MN MS M0 MP MU MC ME MX MSO MSP].
  assert (lvl !! v = None) as Hlv by (apply not_elem_of_dom; by rewrite MD).
  assert (∀ x n, lvl !! x = Some n → <[v := S nu]> lvl !! x = Some n) as Hkeep.
  { intros x n Hx. rewrite lookup_insert_ne; [done|]. congruence. }
  assert (∀ x, x ∈ (expanded ++ [u]) ++ queue → x ≠ v) as Hne.
  { intros x Hx ->. apply Hv, MV. by apply elem_of_app. }
  split.
  - rewrite dom_insert_L, MD. done.
  - intros x. rewrite elem_of_union, MV, (elem_of_app queue), list_elem_of_singleton, elem_of_singleton. tauto.
  - rewrite app_assoc. apply NoDup_app. split_and!; [done| |apply NoDup_singleton].
    intros x Hx ->%list_elem_of_singleton. by apply Hne in Hx.
  - apply edge_nodes in Huv. set_solver.
  - by apply Hkeep.
  - intros x n. rewrite lookup_insert_Some. intros [[<- <-]|[Hxv Hx]] Hxs.
    + exists u, nu. rewrite lookup_insert_eq. split_and!; [done|done|by apply Hkeep|done].
    + destruct (MP x n Hx Hxs) as (p & m & Hp & He & Hm & ->). exists p, m.
      rewrite lookup_insert_ne by done. split_and!; [done|done|by apply Hkeep|done].
  - by apply Hkeep.
  - intros w y n Hw Hwy. rewrite lookup_insert_ne.
    + intros Hn. destruct (MC w y n Hw Hwy Hn) as (m & Hm & Hle). exists m. split; [by apply Hkeep|done].
    + intros <-. apply (Hne v); [|done]. rewrite !elem_of_app. by left; left.
  - intros y [[->|Hy]%elem_of_cons|(m & Hm & Hle)]%ME; [|by left|].
    + right. exists (S nu). rewrite lookup_insert_eq. split; [done|lia].
    + right. exists m. split; [by apply Hkeep|done].
  - intros x n Hx. rewrite lookup_insert_ne; [by apply MX|]. intros <-. apply (Hne v); [|done]. apply elem_of_app. by left.
  - intros i j x y n m Hij. rewrite app_assoc. intros Hi Hj. rewrite !lookup_insert_Some.
    intros [[<- <-]|[Hxv Hx]] [[<- <-]|[Hyv Hy]]; [lia| | |].
    + exfalso. rewrite lookup_app_l in Hi.
      { apply (Hne v); [|done]. by eapply list_elem_of_lookup_2. }
      destruct (lookup_app_Some ((expanded ++ [u]) ++ queue) [v] j y) as [[Hj'|[Hj' Hj'']] _]; [done| |].
      * apply lookup_lt_Some in Hj'. lia.
      * apply list_lookup_singleton_Some in Hj'' as [_ <-]. done.
    + apply lookup_app_Some in Hi as [Hi|[_ Hi]]; [|apply list_lookup_singleton_Some in Hi as [_ <-]; done].
      apply list_elem_of_lookup_2, elem_of_app in Hi as [Hi|Hi]; [specialize (MX x n Hi Hx); lia|].
      specialize (MSP x n Hi Hx). lia.
    + apply lookup_app_Some in Hi as [Hi|[_ Hi]]; [|apply list_lookup_singleton_Some in Hi as [_ <-]; done].
      apply lookup_app_Some in Hj as [Hj|[_ Hj]]; [|apply list_lookup_singleton_Some in Hj as [_ <-]; done].
      by eapply (MSO i j).
  - intros y m Hy. rewrite lookup_insert_Some. intros [[<- <-]|[Hyv Hm]]; [lia|].
    apply elem_of_app in Hy as [Hy|Hy%list_elem_of_singleton]; [by eapply MSP|done].
Qed.

Lemma push_spec expanded u nu vs : ∀ visited parent queue lvl,
  (∀ v, v ∈ vs → edge g u v) → inv_mid expanded u nu vs visited parent queue lvl →
  ∃ visited' parent' queue' lvl', push_parent u vs visited parent queue = (visited', parent', queue') ∧
    push vs visited queue = (visited', queue') ∧
    inv_mid expanded u nu [] visited' parent' queue' lvl' ∧
    (size visited' + length queue = size visited + length queue')%nat.
Proof.
  induction vs as [|v vs IH]; intros visited parent queue lvl Hvs Hm; cbn [push push_parent].
  { exists visited, parent, queue, lvl. split_and!; [done|done|done|lia]. }
  destruct (decide (v ∉ visited)) as [Hv|Hv].
  - destruct (IH ({[v]} ∪ visited) (<[v := u]> parent) (queue ++ [v]) (<[v := S nu]> lvl)) as (vis' & p' & q' & l' & H1 & H2 & H3 & H4).
    + intros w Hw. apply Hvs. by right.
    + apply push_step; [apply Hvs; by left|done|done].
    + exists vis', p', q', l'. split_and!; [done|done|done|].
      rewrite length_app, size_union, size_singleton in H4 by set_solver. cbn in H4. lia.
  - apply (IH visited parent queue lvl); [intros w Hw; apply Hvs; by right|].
    destruct Hm as [MD MV MN MS M0 MP MU MC ME MX MSO MSP]. split; try done.
    apply dec_stable in Hv. intros y [[->|Hy]%elem_of_cons|Hy]%ME; [|by left|by right]. right.
    rewrite <- MD in Hv. apply elem_of_dom in Hv as [m Hmv]. exists m. split; [done|].
    rewrite <- MD in MV. assert (v ∈ dom lvl) as Hin by (by apply elem_of_dom; eexists).
    apply MV in Hin as [Hin|Hin]; [specialize (MX v m Hin Hmv); lia|specialize (MSP v m Hin Hmv); lia].
Qed.

Lemma inv_mid_done expanded u nu visited parent queue lvl :
  inv_mid expanded u nu [] visited parent queue lvl → inv (expanded ++ [u]) visited parent queue lvl.
Proof.
  intros [MD MV MN MS M0 MP MU MC ME MX MSO MSP]. split; try done.
  - intros w v n [Hw|Hw%list_elem_of_singleton]%elem_of_app Hwv Hn; [by eapply MC|]. subst w. simplify_eq.
    destruct (ME v Hwv) as [Hv|?]; [by apply elem_of_nil in Hv|done].
  - intros x y n m Hx Hy Hn Hm. assert (x ∈ queue) as Hxq by (destruct queue; [done|]; cbn in Hx; simplify_eq; apply list_elem_of_here).
    specialize (MSP x n Hxq Hn) as H1. specialize (MSP y m Hy Hm) as H2. lia.
Qed.

(** Expanding the head of the queue: both versions of the loop do the same, and one node more
    is expanded. *)
Lemma expand_spec expanded visited parent u queue lvl :
  inv expanded visited parent (u :: queue) lvl →
  ∃ visited' parent' queue' lvl', push_parent u (succs g u) visited parent queue = (visited', parent', queue') ∧
    push (succs g u) visited queue = (visited', queue') ∧ inv (expanded ++ [u]) visited' parent' queue' lvl' ∧
    (size visited' + length queue = size visited + length queue')%nat.
Proof.
  intros [nu Hm]%inv_pop. edestruct push_spec as (v' & p' & q' & l' & H1 & H2 & H3 & H4); [|exact Hm|].
  { done. }
  exists v', p', q', l'. split_and!; [done|done|by eapply inv_mid_done|done].
Qed.

Lemma level_walk expanded visited parent queue lvl n x :
  inv expanded visited parent queue lvl → lvl !! x = Some n → nsteps (edge g) n start x.
Proof.
  intros Hinv. revert x. induction n as [|n IH]; intros x Hx; destruct (decide (x = start)) as [->|Hne].
  - constructor.
  - destruct (i_parent _ _ _ _ _ Hinv x _ Hx Hne) as (p & m & _ & _ & _ & ?). done.
  - rewrite (i_start _ _ _ _ _ Hinv) in Hx. done.
  - destruct (i_parent _ _ _ _ _ Hinv x _ Hx Hne) as (p & m & _ & Hpx & Hm & [= <-]).
    eapply nsteps_r; [by apply IH|done].
Qed.

(** A walk leads to a node that is as near as the walk is long, unless something as near is
    still in the queue. *)
Lemma walk_level expanded visited parent queue lvl n y :
  inv expanded visited parent queue lvl → nsteps (edge g) n start y →
  (∃ m, lvl !! y = Some m ∧ (m ≤ n)%nat) ∨ ∃ z m, z ∈ queue ∧ lvl !! z = Some m ∧ (m ≤ n)%nat.
Proof.
  intros Hinv. revert y. induction n as [|n IH]; intros y Hy.
  - inversion Hy; subst. left. exists 0%nat. split; [apply (i_start _ _ _ _ _ Hinv)|lia].
  - apply nsteps_inv_r in Hy as (z & Hz & Hzy). destruct (IH z Hz) as [(m & Hm & Hle)|(z' & m & Hz' & Hm & Hle)].
    + assert (z ∈ visited) as Hv by (rewrite <- (i_dom _ _ _ _ _ Hinv); by apply elem_of_dom; eexists).
      apply (i_vis _ _ _ _ _ Hinv) in Hv as [Hv|Hv].
      * left. destruct (i_closed _ _ _ _ _ Hinv z y m Hv Hzy Hm) as (k & Hk & ?). exists k. split; [done|lia].
      * right. exists z, m. split_and!; [done|done|lia].
    + right. exists z', m. split_and!; [done|done|lia].
Qed.

Definition shortest (n : nat) (x : string) : Prop :=
  nsteps (edge g) n start x ∧ ∀ k, nsteps (edge g) k start x → (n ≤ k)%nat.

(** The level of a node that is expanded, or at the head of the queue, is its distance. *)
Lemma level_shortest expanded visited parent queue lvl n x :
  inv expanded visited parent queue lvl → lvl !! x = Some n → x ∈ expanded ∨ head queue = Some x → shortest n x.
Proof.
  intros Hinv Hn Hx. split; [by eapply level_walk|]. intros k Hk.
  destruct (walk_level _ _ _ _ _ _ _ Hinv Hk) as [(m & Hm & ?)|(z & m & Hz & Hm & ?)]; [simplify_eq; lia|].
  assert (n ≤ m)%nat; [|lia]. apply list_elem_of_lookup in Hz as [j Hj].
  assert ((expanded ++ queue) !! (length expanded + j)%nat = Some z) as Hj'.
  { rewrite lookup_app_r by lia. by replace (length expanded + j - length expanded)%nat with j by lia. }
  destruct Hx as [Hx|Hx].
  - apply list_elem_of_lookup in Hx as [i Hi]. pose proof (lookup_lt_Some _ _ _ Hi).
    eapply (i_queue _ _ _ _ _ Hinv i (length expanded + j)%nat); [lia|by rewrite lookup_app_l|done|done|done].
  - destruct queue as [|x' queue]; [done|]. cbn in Hx. simplify_eq.
    eapply (i_queue _ _ _ _ _ Hinv (length expanded) (length expanded + j)%nat); [lia| |done|done|done].
    by rewrite list_lookup_middle.
Qed.

(** There are at least as many visited nodes as the level of one of them. *)
Lemma level_bound expanded visited parent queue lvl n x :
  inv expanded visited parent queue lvl → lvl !! x = Some n → (n < size visited)%nat.
Proof.
  intros Hinv Hn. assert (∃ X : gset string, X ⊆ visited ∧ size X = S n ∧ ∀ y m, y ∈ X → lvl !! y = Some m → (m ≤ n)%nat)
    as (X & HX & Hs & _); [|apply subseteq_size in HX; lia].
  revert x Hn. induction n as [|n IH]; intros x Hx.
  - exists {[x]}. rewrite size_singleton. split_and!; [|done|].
    + intros y ->%elem_of_singleton. rewrite <- (i_dom _ _ _ _ _ Hinv). apply elem_of_dom. by eexists.
    + intros y m ->%elem_of_singleton ?. simplify_eq. lia.
  - destruct (decide (x = start)) as [->|Hne]; [rewrite (i_start _ _ _ _ _ Hinv) in Hx; done|].
    destruct (i_parent _ _ _ _ _ Hinv x _ Hx Hne) as (p & m & _ & _ & Hm & [= <-]).
    destruct (IH p Hm) as (X & HX & Hs & Hle).
    assert (x ∉ X) as Hni by (intros Hin; specialize (Hle x _ Hin Hx); lia).
    exists ({[x]} ∪ X). split_and!.
    + assert (x ∈ visited) by (rewrite <- (i_dom _ _ _ _ _ Hinv); apply elem_of_dom; by eexists). set_solver.
    + rewrite size_union, size_singleton by set_solver. lia.
    + intros y k [->%elem_of_singleton|Hy]%elem_of_union Hk; [simplify_eq; lia|]. specialize (Hle y k Hy Hk). lia.
Qed.

(** When the queue is empty everything reachable is expanded. *)
Lemma inv_complete expanded visited parent lvl x :
  inv expanded visited parent [] lvl → x ∈ expanded ↔ rtc (edge g) start x.
Proof.
  intros Hinv. split.
  - intros Hx. assert (x ∈ visited) as Hv by (apply (i_vis _ _ _ _ _ Hinv); by left).
    rewrite <- (i_dom _ _ _ _ _ Hinv) in Hv. apply elem_of_dom in Hv as [n Hn].
    apply rtc_nsteps. exists n. by eapply level_walk.
  - intros [n Hn]%rtc_nsteps. destruct (walk_level _ _ _ _ _ _ _ Hinv Hn) as [(m & Hm & _)|(z & m & Hz & _)].
    + assert (x ∈ visited) as Hv by (rewrite <- (i_dom _ _ _ _ _ Hinv); by apply elem_of_dom; eexists).
      apply (i_vis _ _ _ _ _ Hinv) in Hv as [?|?%elem_of_nil]; done.
    + by apply elem_of_nil in Hz.
Qed.

Definition bound (visited : gset string) queue : nat :=
  (size ({[start]} ∪ nodes g) - size visited + length queue)%nat.

Lemma bound_expand expanded visited parent u queue lvl visited' parent' queue' lvl' :
  inv expanded visited parent (u :: queue) lvl → inv (expanded ++ [u]) visited' parent' queue' lvl' →
  (size visited' + length queue = size visited + length queue')%nat →
  (S (bound visited' queue') ≤ bound visited (u :: queue))%nat.
Proof.
  intros [_ _ _ S1 _ _ _ _ _] [_ _ _ S2 _ _ _ _ _] Hsz. unfold bound. cbn [length].
  apply subseteq_size in S1, S2. lia.
Qed.

Lemma traverse_spec fuel expanded visited parent queue lvl :
  inv expanded visited parent queue lvl → (bound visited queue ≤ fuel)%nat →
  ∃ out visited' parent' lvl',
    traverse_loop fuel g (λ node out, (true, out ++ [node])) visited queue expanded = Some out ∧
    inv out visited' parent' [] lvl'.
Proof.
  revert expanded visited parent queue lvl. induction fuel as [|fuel IH]; intros expanded visited parent [|u queue] lvl Hinv Hf;
    cbn [traverse_loop]; [by eauto 10|unfold bound in Hf; cbn in Hf; lia|by eauto 10|]. cbn [negb].
  destruct (expand_spec _ _ _ _ _ _ Hinv) as (v' & p' & q' & l' & _ & -> & Hinv' & Hsz).
  apply (IH _ _ p' _ l'); [done|]. pose proof (bound_expand _ _ _ _ _ _ _ _ _ _ Hinv Hinv' Hsz). lia.
Qed.

Lemma search_spec fuel end_ expanded visited parent queue lvl :
  inv expanded visited parent queue lvl → (bound visited queue ≤ fuel)%nat → end_ ∉ expanded →
  (search_loop fuel g end_ visited parent queue = Some None ∧ ¬ rtc (edge g) start end_) ∨
  ∃ expanded' visited' parent' queue' lvl',
    search_loop fuel g end_ visited parent queue = Some (Some parent') ∧
    inv expanded' visited' parent' (end_ :: queue') lvl'.
Proof.
  revert expanded visited parent queue lvl. induction fuel as [|fuel IH]; intros expanded visited parent [|u queue] lvl Hinv Hf Hend;
    cbn [search_loop].
  1,3: left; split; [done|]; by rewrite <- inv_complete by done.
  - unfold bound in Hf. cbn in Hf. lia.
  - destruct (decide (u = end_)) as [->|Hne]; [right; by eauto 10|].
    destruct (expand_spec _ _ _ _ _ _ Hinv) as (v' & p' & q' & l' & -> & _ & Hinv' & Hsz).
    apply (IH _ _ p' _ l' Hinv').
    + pose proof (bound_expand _ _ _ _ _ _ _ _ _ _ Hinv Hinv' Hsz). lia.
    + rewrite elem_of_app, list_elem_of_singleton. naive_solver.
Qed.

(** [path] goes backwards along edges, from its last node to its first. *)
Definition backwards (path : list string) : Prop :=
  ∀ i x y, path !! i = Some x → path !! S i = Some y → edge g y x.

Lemma walk_back_spec fuel expanded visited parent queue lvl cur n path :
  inv expanded visited parent queue lvl → lvl !! cur = Some n → (n ≤ fuel)%nat →
  last path = Some cur → backwards path →
  ∃ r, walk_back fuel start parent cur path = Some (Some r) ∧ length r = (length path + n)%nat ∧
    head r = head path ∧ last r = Some start ∧ backwards r.
Proof.
  intros Hinv. revert cur n path. induction fuel as [|fuel IH]; intros cur n path Hn Hf Hlast Hb; cbn [walk_back];
    (destruct (decide (cur = start)) as [->|Hne];
     [rewrite (i_start _ _ _ _ _ Hinv) in Hn; simplify_eq; exists path; split_and!; [done|lia|done|done|done]|]);
    destruct (i_parent _ _ _ _ _ Hinv cur n Hn Hne) as (p & m & Hp & Hpc & Hm & ->); [lia|].
  rewrite Hp. destruct (IH p m (path ++ [p])) as (r & -> & Hl & Hh & Hr & Hbr); [done|lia|apply last_snoc| |].
  - intros i x y Hx Hy. apply lookup_app_Some in Hy as [Hy|[Hle Hy]].
    + apply (Hb i); [|done]. apply lookup_lt_Some in Hy. rewrite lookup_app_l in Hx by lia. done.
    + apply list_lookup_singleton_Some in Hy as [Hi <-]. rewrite last_lookup in Hlast.
      assert (length path = S i) as Hlen by lia. rewrite Hlen in Hlast. cbn in Hlast.
      rewrite lookup_app_l in Hx by lia. by simplify_eq.
  - exists r. split_and!; [done| | |done|done].
    + rewrite length_app in Hl. cbn in Hl. lia.
    + rewrite Hh. destruct path; done.
Qed.
End bfs.
End Bfs.

(** ** Depth-first search *)

Module Dfs.

(** [for i := len(neighbors) - 1; i >= 0; i-- { ... }]; the top of the stack is the head. *)
(* src: pkg/algorithms/graph/dfs/dfs.go 31-37 Traverse *)
Definition push_unvisited (visited : gset string) (vs stack : list string) : list string :=
  filter (λ v, v ∉ visited) vs ++ stack.

(* src: pkg/algorithms/graph/dfs/dfs.go 21-38 Traverse *)
Fixpoint dfs_loop {S} (fuel : nat) (g : AdjacencyList) (visit : string → S → bool * S)
    (visited : gset string) (stack : list string) (s : S) : option S :=
  match stack with
  | [] => Some s
  | u :: stack =>
      match fuel with
      | O => None
      | S fuel =>
          if decide (u ∈ visited) then dfs_loop fuel g visit visited stack s
          else
            let visited := {[u]} ∪ visited in
            let '(b, s) := visit u s in
            if negb b then dfs_loop fuel g visit visited stack s
            else dfs_loop fuel g visit visited (push_unvisited visited (succs g u) stack) s
      end
  end.

(** Every turn takes an entry from the stack; an edge is pushed at most once. *)
(* src: pkg/algorithms/graph/dfs/dfs.go 14-39 Traverse *)
Definition dfs_Traverse {S} (g : AdjacencyList) (start : string) (visit : option (string → S → bool * S)) (s : S)
    : option S :=
  match visit with
  | None => Some s
  | Some visit => dfs_loop (1 + num_edges g) g visit ∅ [start] s
  end.

(* src: pkg/algorithms/graph/dfs/dfs.go 42-49 Reachable *)
Definition dfs_Reachable (g : AdjacencyList) (start : string) : option (list string) :=
  dfs_Traverse g start (Some (λ node out, (true, out ++ [node]))) [].

(** A node that is in neither set is white. *)
Record Colors := { gray : gset string; black : gset string }.

(** The loop over the neighbours in the closure [visit]; true when a cycle was found. *)
(* src: pkg/algorithms/graph/dfs/dfs.go 64-73 HasCycle *)
Fixpoint cycle_edges (visit : string → Colors → option (bool * Colors)) (vs : list string) (c : Colors)
    : option (bool * Colors) :=
  match vs with
  | [] => Some (false, c)
  | v :: vs =>
      if decide (v ∈ gray c) then Some (true, c)
      else if decide (v ∈ black c) then cycle_edges visit vs c
      else
        '(b, c) ← visit v c;
        if b : bool then Some (true, c) else cycle_edges visit vs c
  end.

(* src: pkg/algorithms/graph/dfs/dfs.go 62-76 HasCycle *)
Fixpoint cycle_visit (fuel : nat) (g : AdjacencyList) (u : string) (c : Colors) : option (bool * Colors) :=
  match fuel with
  | O => None
  | S fuel =>
      '(b, c) ← cycle_edges (cycle_visit fuel g) (succs g u) {| gray := {[u]} ∪ gray c; black := black c |};
      Some (if b : bool then (true, c)
            else (false, {| gray := gray c ∖ {[u]}; black := {[u]} ∪ black c |}))
  end.

(** [for u := range g], in the order [us]. *)
(* src: pkg/algorithms/graph/dfs/dfs.go 78-83 HasCycle *)
Fixpoint cycle_loop (fuel : nat) (g : AdjacencyList) (us : list string) (c : Colors) : option bool :=
  match us with
  | [] => Some false
  | u :: us =>
      if decide (u ∉ gray c ∧ u ∉ black c) then
        '(b, c) ← cycle_visit fuel g u c;
        if b : bool then Some true else cycle_loop fuel g us c
      else cycle_loop fuel g us c
  end.

(* src: pkg/algorithms/graph/dfs/dfs.go 53-84 HasCycle *)
Definition HasCycle (g : AdjacencyList) (order : list string) : option bool :=
  cycle_loop (S (size (nodes g))) g order {| gray := ∅; black := ∅ |}.

(** *** Everything reachable, once *)

Section dfs.
  Context (g : AdjacencyList) (start : string).

(** The edges out of the nodes not visited yet. *)
Definition remaining (visited : gset string) : Z :=
  msum (filter (λ p, p.1 ∉ visited) (out_degrees g)).

Lemma remaining_visit visited u : u ∉ visited →
  remaining visited = remaining ({[u]} ∪ visited) + Z.of_nat (length (succs g u)).
Proof.
  intros Hu. unfold remaining. rewrite (msum_filter_delete _ _ u Hu). f_equal.
  unfold out_degrees, succs. rewrite lookup_fmap. by destruct (g !! u).
Qed.

Record dfs_inv (out : list string) (visited : gset string) (stack : list string) : Prop := {
  d_out x : x ∈ out ↔ x ∈ visited;
  d_nodup : NoDup out;
  d_reach x : x ∈ visited ∨ x ∈ stack → rtc (edge g) start x;
  d_start : start ∈ visited ∨ start ∈ stack;
  d_closed u v : u ∈ visited → edge g u v → v ∈ visited ∨ v ∈ stack;
}.

Lemma dfs_loop_spec fuel out visited stack :
  dfs_inv out visited stack → Z.of_nat (length stack) + remaining visited ≤ Z.of_nat fuel →
  ∃ out' visited', dfs_loop fuel g (λ node out, (true, out ++ [node])) visited stack out = Some out' ∧
    dfs_inv out' visited' [].
Proof.
  assert (∀ visited, 0 ≤ remaining visited) as Hpos.
  { intros vis. apply msum_nonneg. intros k v [Hv _]%map_lookup_filter_Some. unfold out_degrees in Hv.
    rewrite lookup_fmap in Hv. destruct (g !! k); cbn in Hv; simplify_eq; lia. }
  revert out visited stack. induction fuel as [|fuel IH]; intros out visited [|u stack] Hinv Hf; cbn [dfs_loop];
    [by eauto|specialize (Hpos visited); cbn in Hf; lia|by eauto|].
  destruct Hinv as [DO DN DR DS DC]. cbn [length] in Hf. destruct (decide (u ∈ visited)) as [Hu|Hu].
  - apply IH; [|lia]. split; [done|done| | |].
    + intros x Hx. apply DR. destruct Hx; [by left|right; by apply list_elem_of_further].
    + destruct DS as [?|[->|?]%elem_of_cons]; auto.
    + intros w v Hw Hv. destruct (DC w v Hw Hv) as [?|[->|?]%elem_of_cons]; auto.
  - cbn [negb]. apply IH.
    + assert (rtc (edge g) start u) as Hru by (apply DR; right; apply list_elem_of_here). split.
      * intros x. rewrite elem_of_app, list_elem_of_singleton, DO. set_solver.
      * apply NoDup_app. split_and!; [done| |apply NoDup_singleton]. intros x Hx ->%list_elem_of_singleton. by apply Hu, DO.
      * intros x. unfold push_unvisited. rewrite elem_of_app, list_elem_of_filter, elem_of_union, elem_of_singleton.
        intros [[->|Hx]|[[_ Hx]|Hx]]; [done|apply DR; by left| |apply DR; right; by apply list_elem_of_further].
        eapply rtc_r; [done|exact Hx].
      * unfold push_unvisited. rewrite elem_of_app, elem_of_union, elem_of_singleton.
        destruct DS as [?|[->|?]%elem_of_cons]; auto.
      * intros w v Hw Hv. unfold push_unvisited. rewrite elem_of_app, list_elem_of_filter.
        destruct (decide (v ∈ {[u]} ∪ visited)) as [|Hn]; [by left|]. right.
        apply elem_of_union in Hw as [->%elem_of_singleton|Hw]; [by left|].
        destruct (DC w v Hw Hv) as [?|[->|?]%elem_of_cons]; [set_solver|set_solver|by right].
    + rewrite (remaining_visit visited u Hu) in Hf. unfold push_unvisited. rewrite length_app.
      pose proof (length_filter (λ v, v ∉ {[u]} ∪ visited) (succs g u)). lia.
Qed.

Lemma dfs_Reachable_spec : ∃ out, dfs_Reachable g start = Some out ∧ NoDup out ∧
  ∀ x, x ∈ out ↔ rtc (edge g) start x.
Proof.
  unfold dfs_Reachable, dfs_Traverse.
  destruct (dfs_loop_spec (1 + num_edges g) [] ∅ [start]) as (out & vis & -> & [DO DN DR DS DC]).
  - split; [set_solver|constructor| |right; apply list_elem_of_here|set_solver].
    intros x [Hx|Hx]; [set_solver|]. apply list_elem_of_singleton in Hx as ->. done.
  - cbn [length]. unfold num_edges, remaining.
    replace (filter (λ p : string * Z, p.1 ∉ (∅ : gset string)) (out_degrees g)) with (out_degrees g); [lia|].
    symmetry. apply map_filter_id. set_solver.
  - exists out. split_and!; [done|done|]. intros x. rewrite DO. split; [intros; apply DR; by left|].
    assert (start ∈ vis) as Hs by (destruct DS as [?|?%elem_of_nil]; done). clear DO DN DR DS.
    intros Hr. revert Hs. induction Hr as [|a b c Hab _ IH]; [done|]. intros Ha. apply IH.
    destruct (DC a b Ha Hab) as [?|?%elem_of_nil]; done.
Qed.

(** *** Cycles *)

(** Black nodes lead to black nodes of lower rank only. *)
Record color_inv (c : Colors) : Prop := {
  c_disj : gray c ## black c;
  c_rank : ∃ (f : string → nat) m, ∀ b, b ∈ black c →
    (f b < m)%nat ∧ ∀ v, edge g b v → v ∈ black c ∧ (f v < f b)%nat;
}.

Definition white_left (c : Colors) : nat := size (nodes g ∖ (gray c ∪ black c)).

(** A search that finds a cycle is right, and one that does not leaves the gray nodes gray. *)
Definition colored (b : bool) (c c' : Colors) : Prop :=
  if b then ∃ x, tc (edge g) x x else color_inv c' ∧ gray c' = gray c ∧ black c ⊆ black c'.

Definition visit_ok (fuel : nat) : Prop := ∀ u c,
  color_inv c → u ∈ nodes g → u ∉ gray c → u ∉ black c → (white_left c ≤ fuel)%nat →
  (∀ s, s ∈ gray c → tc (edge g) s u) →
  ∃ b c', cycle_visit fuel g u c = Some (b, c') ∧ colored b c c' ∧ (b = false → u ∈ black c').

Lemma cycle_edges_spec fuel u vs c :
  visit_ok fuel → (∀ v, v ∈ vs → edge g u v) → color_inv c → (white_left c ≤ fuel)%nat →
  (∀ s, s ∈ gray c → rtc (edge g) s u) →
  ∃ b c', cycle_edges (cycle_visit fuel g) vs c = Some (b, c') ∧ colored b c c' ∧
    (b = false → ∀ v, v ∈ vs → v ∈ black c').
Proof.
  intros Hvisit. revert c. induction vs as [|v vs IH]; intros c Hvs Hinv Hw Hg; cbn [cycle_edges].
  { exists false, c. split_and!; [done|done|]. intros _ v Hv. by apply elem_of_nil in Hv. }
  assert (edge g u v) as Huv by (apply Hvs, list_elem_of_here).
  assert (∀ v, v ∈ vs → edge g u v) as Hvs' by (intros; apply Hvs; by apply list_elem_of_further).
  destruct (decide (v ∈ gray c)) as [Hgv|Hgv]; [|destruct (decide (v ∈ black c)) as [Hbv|Hbv]].
  - exists true, c. split_and!; [done| |done]. exists v. eapply tc_rtc_l; [by apply Hg|by apply tc_once].
  - destruct (IH c Hvs' Hinv Hw Hg) as (b & c' & Hr & Hc & Hb). exists b, c'. split_and!; [done|done|].
    intros -> w [->|Hin]%elem_of_cons; [|by apply Hb]. destruct Hc as (_ & _ & Hsub). by apply Hsub.
  - destruct (Hvisit v c Hinv) as (b & c1 & -> & Hc1 & Hb1); [by eapply edge_nodes|done|done|done| |].
    { intros s Hs. eapply tc_rtc_l; [by apply Hg|by apply tc_once]. }
    cbn [mbind option_bind]. destruct b; [exists true, c1; by split_and!|].
    destruct Hc1 as (Hinv1 & Hg1 & Hsub1).
    destruct (IH c1 Hvs' Hinv1) as (b & c2 & Hr & Hc2 & Hb2).
    + etransitivity; [|exact Hw]. unfold white_left. apply subseteq_size. set_solver.
    + by rewrite Hg1.
    + exists b, c2. split; [done|]. split.
      * destruct b; [done|]. destruct Hc2 as (? & ? & ?). split_and!; [done|congruence|set_solver].
      * intros -> w [->|Hin]%elem_of_cons; [|by apply Hb2]. destruct Hc2 as (_ & _ & Hsub). by apply Hsub, Hb1.
Qed.

Lemma cycle_visit_spec fuel : visit_ok fuel.
Proof.
  induction fuel as [|fuel IH]; intros u c Hinv Hu Hg Hb Hw Hs.
  { assert (u ∈ nodes g ∖ (gray c ∪ black c)) as Hin by set_solver. unfold white_left in Hw.
    assert (nodes g ∖ (gray c ∪ black c) ≡ ∅) as He by (apply size_empty_iff; lia). set_solver. }
  cbn [cycle_visit]. set (c0 := {| gray := {[u]} ∪ gray c; black := black c |}).
  destruct (cycle_edges_spec fuel u (succs g u) c0 IH) as (b & c1 & -> & Hc1 & Hb1).
  - done.
  - destruct Hinv as [HD HR]. split; [cbn; set_solver|done].
  - assert (nodes g ∖ (gray c0 ∪ black c0) ⊂ nodes g ∖ (gray c ∪ black c)) as Hlt by (cbn; set_solver).
    apply subset_size in Hlt. unfold white_left in *. lia.
  - cbn. intros s [->%elem_of_singleton|Hin]%elem_of_union; [done|]. by apply tc_rtc, Hs.
  - cbn [mbind option_bind]. destruct b; [by exists true, c1|].
    destruct Hc1 as ([HD (f & m & Hf)] & Hgr & Hsub). specialize (Hb1 eq_refl). cbn in Hgr, Hsub.
    eexists false, _. split; [done|]. split; [|intros _; cbn; set_solver]. split_and!; [|cbn; set_solver|cbn; set_solver].
    split; cbn; [set_solver|]. assert (u ∉ black c1) as Hu1 by (rewrite Hgr in HD; set_solver).
    exists (λ x, if decide (x = u) then m else f x), (S m). intros b Hbb.
    destruct (decide (b = u)) as [->|Hbu].
    + split; [lia|]. intros v Hv. specialize (Hb1 v Hv). rewrite decide_False by (intros ->; done).
      destruct (Hf v Hb1) as [? _]. split; [set_solver|lia].
    + assert (b ∈ black c1) as Hbc by set_solver. destruct (Hf b Hbc) as [Hm Hall]. split; [lia|].
      intros v Hv. destruct (Hall v Hv) as [Hv1 Hlt]. rewrite decide_False by (intros ->; done). split; [set_solver|lia].
Qed.

Lemma cycle_loop_spec us c :
  color_inv c → gray c = ∅ → (∀ u, u ∈ us → u ∈ nodes g) →
  (∀ u, is_Some (g !! u) → u ∈ us ∨ u ∈ black c) →
  ∃ b, cycle_loop (S (size (nodes g))) g us c = Some b ∧
    if b : bool then ∃ x, tc (edge g) x x else ∃ f : string → nat, ∀ a v, edge g a v → (f v < f a)%nat.
Proof.
  revert c. induction us as [|u us IH]; intros c Hinv Hg Hn Hall; cbn [cycle_loop].
  { exists false. split; [done|]. destruct Hinv as [_ (f & m & Hf)]. exists f. intros a v Hav.
    destruct (Hall a) as [Ha|Ha]; [|by apply elem_of_nil in Ha|by apply Hf].
    unfold edge, succs in Hav. destruct (g !! a); [done|]. by apply elem_of_nil in Hav. }
  destruct (decide (u ∉ gray c ∧ u ∉ black c)) as [[Hug Hub]|Hd].
  - destruct (cycle_visit_spec (S (size (nodes g))) u c Hinv) as (b & c1 & -> & Hc1 & Hb1); [|done|done| | |].
    + apply Hn, list_elem_of_here.
    + unfold white_left. assert (size (nodes g ∖ (gray c ∪ black c)) ≤ size (nodes g))%nat by (apply subseteq_size; set_solver). lia.
    + rewrite Hg. set_solver.
    + cbn [mbind option_bind]. destruct b; [by exists true|]. destruct Hc1 as (Hinv1 & Hg1 & Hsub1).
      apply IH; [done|congruence|intros; apply Hn; by apply list_elem_of_further|].
      intros w Hw. destruct (Hall w Hw) as [[->|?]%elem_of_cons|?]; [right; by apply Hb1|by left|right; by apply Hsub1].
  - apply IH; [done|done|intros; apply Hn; by apply list_elem_of_further|].
    intros w Hw. destruct (Hall w Hw) as [[->|?]%elem_of_cons|?]; [|by left|by right]. right.
    destruct (decide (u ∈ black c)); [done|]. exfalso. apply Hd. rewrite Hg. set_solver.
Qed.

Lemma HasCycle_spec order : order ≡ₚ elements (dom g) →
  ∃ b, HasCycle g order = Some b ∧ (b = true ↔ ∃ x, tc (edge g) x x).
Proof.
  intros Ho. unfold HasCycle. destruct (cycle_loop_spec order {| gray := ∅; black := ∅ |}) as (b & -> & Hb).
  - split; [cbn; set_solver|]. exists (λ _, 0%nat), 0%nat. cbn. set_solver.
  - done.
  - intros u. rewrite Ho, elem_of_elements. unfold nodes. set_solver.
  - intros u Hu. left. rewrite Ho, elem_of_elements. by apply elem_of_dom.
  - exists b. split; [done|]. destruct b; [done|]. split; [done|]. destruct Hb as [f Hf]. intros [x Hx]. exfalso.
    assert (∀ a v, tc (edge g) a v → (f v < f a)%nat) as Htc.
    { intros a v. induction 1 as [a v Hav|a v w Hav _ IH]; [by apply Hf|]. apply Hf in Hav. lia. }
    specialize (Htc x x Hx). lia.
Qed.
End dfs.
End Dfs.

(** ** Theorems *)

Lemma bfs_Reachable_spec g start : ∃ out, Bfs.Reachable g start = Some out ∧ NoDup out ∧
  (∀ x, x ∈ out ↔ rtc (edge g) start x) ∧
  ∀ i j x y n m, (i ≤ j)%nat → out !! i = Some x → out !! j = Some y →
    Bfs.shortest g start n x → Bfs.shortest g start m y → (n ≤ m)%nat.
Proof.
  unfold Bfs.Reachable, Bfs.Traverse.
  destruct (Bfs.traverse_spec g start (size ({[start]} ∪ nodes g)) [] {[start]} ∅ [start] {[start := 0%nat]})
    as (out & vis & par & lvl & -> & Hinv); [apply Bfs.inv_init| |].
  { unfold Bfs.bound. rewrite size_singleton. cbn [length].
    assert (size ({[start]} : gset string) ≤ size ({[start]} ∪ nodes g))%nat as Hs by (apply subseteq_size; set_solver).
    rewrite size_singleton in Hs. lia. }
  exists out. pose proof (Bfs.i_nodup _ _ _ _ _ _ _ Hinv) as Hnd. rewrite app_nil_r in Hnd.
  split_and!; [done|done|intros; by eapply Bfs.inv_complete|].
  intros i j x y n m Hij Hx Hy [Hn1 Hn2] [Hm1 Hm2].
  assert (∀ z, z ∈ out → ∃ k, lvl !! z = Some k ∧ Bfs.shortest g start k z) as Hlvl.
  { intros z Hz. assert (z ∈ vis) as Hv by (apply (Bfs.i_vis _ _ _ _ _ _ _ Hinv); by left).
    rewrite <- (Bfs.i_dom _ _ _ _ _ _ _ Hinv) in Hv. apply elem_of_dom in Hv as [k Hk]. exists k. split; [done|].
    eapply Bfs.level_shortest; [done|done|by left]. }
  destruct (Hlvl x) as (a & Ha & [Ha1 Ha2]); [by eapply list_elem_of_lookup_2|].
  destruct (Hlvl y) as (b & Hb & [Hb1 Hb2]); [by eapply list_elem_of_lookup_2|].
  pose proof (Bfs.i_queue _ _ _ _ _ _ _ Hinv i j x y a b Hij) as Hab. rewrite app_nil_r in Hab.
  specialize (Hab Hx Hy Ha Hb). specialize (Hn2 a Ha1). specialize (Ha2 n Hn1). specialize (Hb2 m Hm1). specialize (Hm2 b Hb1). lia.
Qed.

(** [path] is a walk from [start] to [end_] along edges. *)
Definition is_walk (g : AdjacencyList) (path : list string) (start end_ : string) : Prop :=
  head path = Some start ∧ last path = Some end_ ∧
  ∀ i x y, path !! i = Some x → path !! S i = Some y → edge g x y.

Lemma ShortestPath_spec g start end_ : ∃ r, Bfs.ShortestPath g start end_ = Some r ∧
  match r with
  | Some path => is_walk g path start end_ ∧ ∀ n, nsteps (edge g) n start end_ → (length path ≤ S n)%nat
  | None => ¬ rtc (edge g) start end_
  end.
Proof.
  unfold Bfs.ShortestPath. destruct (decide (start = end_)) as [->|Hne].
  { eexists. split; [done|]. split; [split_and!; [done|done|]|intros; cbn; lia].
    intros [|i] x y; cbn; intros _ Hy; done. }
  set (n := size ({[start]} ∪ nodes g)).
  assert (Bfs.bound g start {[start]} [start] ≤ n)%nat as Hb.
  { unfold Bfs.bound. fold n. rewrite size_singleton. cbn [length].
    assert (size ({[start]} : gset string) ≤ n)%nat as Hs by (apply subseteq_size; set_solver).
    rewrite size_singleton in Hs. lia. }
  destruct (Bfs.search_spec g start n end_ [] {[start]} ∅ [start] {[start := 0%nat]})
    as [[-> Hno]|(ex & vis & par & q & lvl & -> & Hinv)]; [apply Bfs.inv_init|done|set_solver|by eauto|].
  assert (end_ ∈ vis) as Hv by (apply (Bfs.i_vis _ _ _ _ _ _ _ Hinv); right; apply list_elem_of_here).
  rewrite <- (Bfs.i_dom _ _ _ _ _ _ _ Hinv) in Hv. apply elem_of_dom in Hv as [k Hk].
  assert (Bfs.shortest g start k end_) as [_ Hshort] by (eapply Bfs.level_shortest; [done|done|by right]).
  destruct (Bfs.walk_back_spec g start n ex vis par (end_ :: q) lvl end_ k [end_]) as (r & -> & Hl & Hh & Hr & Hback);
    [done|done| |done| |].
  - apply (Bfs.level_bound _ _ _ _ _ _ _ _ _ Hinv) in Hk.
    pose proof (subseteq_size _ _ (Bfs.i_sub _ _ _ _ _ _ _ Hinv)). unfold n. lia.
  - intros i x y _ Hy. destruct i; done.
  - eexists. split; [done|]. split; [|rewrite length_reverse, Hl; cbn; intros m Hm%Hshort; lia]. split_and!.
    + rewrite head_reverse. done.
    + rewrite last_reverse, Hh. done.
    + intros i x y Hx Hy. pose proof (lookup_lt_Some _ _ _ Hy) as Hlt. rewrite length_reverse in Hlt.
      rewrite reverse_lookup in Hx, Hy by lia. apply (Hback (length r - S (S i))%nat); [done|].
      by replace (S (length r - S (S i))) with (length r - S i)%nat by lia.
Qed.

(** Graph traversals.  Breadth-first and depth-first search end and return exactly the nodes
    reachable from the start, each once, the first in order of their distance;
    [ShortestPath] returns a walk with the least number of edges, or nil exactly if there is
    none; and [HasCycle] decides, in whatever order the map is gone through, whether the
    graph has a cycle. *)
Theorem graph_search_correct (g : AdjacencyList) (start end_ : string) (order : list string) :
  order ≡ₚ elements (dom g) →
  (∃ out, Bfs.Reachable g start = Some out ∧ NoDup out ∧ (∀ x, x ∈ out ↔ rtc (edge g) start x) ∧
     ∀ i j x y n m, (i ≤ j)%nat → out !! i = Some x → out !! j = Some y →
       Bfs.shortest g start n x → Bfs.shortest g start m y → (n ≤ m)%nat) ∧
  (∃ out, Dfs.dfs_Reachable g start = Some out ∧ NoDup out ∧ (∀ x, x ∈ out ↔ rtc (edge g) start x)) ∧
  (∃ r, Bfs.ShortestPath g start end_ = Some r ∧
     match r with
     | Some path => is_walk g path start end_ ∧ ∀ n, nsteps (edge g) n start end_ → (length path ≤ S n)%nat
     | None => ¬ rtc (edge g) start end_
     end) ∧
  (∃ b, Dfs.HasCycle g order = Some b ∧ (b = true ↔ ∃ x, tc (edge g) x x)).
Proof.
  intros Ho. split_and!; [apply bfs_Reachable_spec|apply Dfs.dfs_Reachable_spec|apply ShortestPath_spec|].
  by apply Dfs.HasCycle_spec.
Qed.

Definition sample : AdjacencyList :=
  {["a" := ["b"; "c"]; "b" := ["d"]; "c" := ["d"; "a"]; "d" := ["e"]]}.

Lemma graph_search_correct_witness :
  Bfs.Reachable sample "a" = Some ["a"; "b"; "c"; "d"; "e"] ∧
  Dfs.dfs_Reachable sample "a" = Some ["a"; "b"; "d"; "e"; "c"] ∧
  Bfs.ShortestPath sample "a" "e" = Some (Some ["a"; "b"; "d"; "e"]) ∧
  (∀ n, nsteps (edge sample) n "a" "e" → (4 ≤ S n)%nat) ∧ ∃ x, tc (edge sample) x x.
Proof.
  destruct (graph_search_correct sample "a" "e" ["d"; "a"; "c"; "b"]) as (_ & _ & (r & Hr & Hsp) & (b & Hb & Hiff)).
  { apply (bool_decide_unpack _). vm_compute. exact I. }
  split_and!; [by vm_compute|by vm_compute|by vm_compute| |].
  - vm_compute in Hr. simplify_eq. destruct Hsp as [_ Hmin]. exact Hmin.
  - apply Hiff. vm_compute in Hb. by simplify_eq.
Defined.

(** The documentation of [dfs.Traverse] says that later neighbours are explored first; the loop
    pushes them in reverse, so that the first neighbour is. *)
Theorem dfs_first_neighbour_first :
  Dfs.dfs_Reachable {["a" := ["b"; "c"]]} "a" = Some ["a"; "b"; "c"].
Proof. by vm_compute. Qed.
