(* ===== verification/Kruskal.v ===== *)
(** * pkg/algorithms/graph/kruskal

    Kruskal's algorithm on the disjoint sets of [UnionFind], with weights in binary64.  The
    first part is the theory it needs: forests as lists of pairs each of which joins two
    components, and the bound of the size of a forest by any set of pairs that connects as
    much.  [MST] sorts the slice of its caller in place: it returns that slice too. *)

From S2P Require Import Prelude Float64 FloatRound SliceSort UnionFind.
From stdpp Require Import relations sorting options.
Open Scope Z_scope.

(** ** Forests *)

Abbreviation pairs := (list (string * string)).

(** A representative of the component of [x]. *)
Fixpoint comp (es : pairs) (x : string) : string :=
  match es with
  | [] => x
  | (a, b) :: es => if decide (comp es x = comp es a) then comp es b else comp es x
  end.

Lemma connected_sub es es' : (∀ a b, (a, b) ∈ es → connected es' a b) → ∀ x y, connected es x y → connected es' x y.
Proof.
  intros Hs x y Hxy. induction Hxy as [x|x y z Hxy _ IH]; [reflexivity|]. etransitivity; [|exact IH].
  destruct Hxy as [H|H]; [by apply Hs|]. symmetry. by apply Hs.
Qed.

Lemma connected_in es a b : (a, b) ∈ es → connected es a b.
Proof. intros H. by apply rtsc_lr. Qed.

Lemma comp_connected es x : connected es x (comp es x).
Proof.
  induction es as [|[a b] es IH] in x |- *; cbn [comp]; [reflexivity|].
  assert (∀ y z, connected es y z → connected ((a, b) :: es) y z) as Hm by (intros; by apply connected_mono).
  destruct (decide _) as [E|]; [|by apply Hm]. transitivity a.
  - apply Hm. transitivity (comp es x); [apply IH|]. rewrite E. symmetry. apply IH.
  - transitivity b; [apply connected_edge|]. apply Hm, IH.
Qed.

Lemma comp_edge es a b : (a, b) ∈ es → comp es a = comp es b.
Proof.
  induction es as [|[c d] es IH]; [by intros ?%elem_of_nil|]. intros [[= -> ->]|H]%elem_of_cons; cbn [comp].
  - rewrite decide_True by done. by destruct (decide _).
  - by rewrite (IH H).
Qed.

Lemma comp_eq es x y : comp es x = comp es y ↔ connected es x y.
Proof.
  split.
  - intros E. transitivity (comp es x); [apply comp_connected|]. rewrite E. symmetry. apply comp_connected.
  - intros Hxy. induction Hxy as [|x y z Hxy _ IH]; [done|]. rewrite <- IH.
    destruct Hxy as [H|H]; [|symmetry]; by apply comp_edge.
Qed.

#[global] Instance connected_dec es x y : Decision (connected es x y).
Proof. destruct (decide (comp es x = comp es y)) as [E|E]; [left|right]; by rewrite <- comp_eq. Defined.

(** The components of the vertices [V]. *)
Definition comps (V : gset string) (es : pairs) : gset string := set_map (comp es) V.

Definition within (V : gset string) (es : pairs) : Prop := ∀ a b, (a, b) ∈ es → a ∈ V ∧ b ∈ V.

Lemma comps_cons V a b es : a ∈ V → b ∈ V →
  comps V ((a, b) :: es) = if decide (connected es a b) then comps V es else comps V es ∖ {[comp es a]}.
Proof.
  intros Ha Hb. apply set_eq. intros c. unfold comps. destruct (decide (connected es a b)) as [Hc|Hc].
  - apply comp_eq in Hc. rewrite !elem_of_map. f_equiv. intros x. cbn [comp]. rewrite <- Hc. destruct (decide _) as [E|]; [by rewrite E|done].
  - rewrite <- comp_eq in Hc. rewrite elem_of_difference, elem_of_singleton, !elem_of_map. cbn [comp]. split.
    + intros (x & -> & Hx). destruct (decide _) as [E|E]; (split; [by eexists|]); congruence.
    + intros [(x & -> & Hx) Hne]. exists x. by rewrite decide_False.
Qed.

Lemma comps_size V a b es : a ∈ V → b ∈ V →
  (size (comps V es) = size (comps V ((a, b) :: es)) + if decide (connected es a b) then 0 else 1)%nat.
Proof.
  intros Ha Hb. rewrite comps_cons by done. destruct (decide _); [lia|]. rewrite size_difference.
  - rewrite size_singleton. assert (comp es a ∈ comps V es) as Hin by (apply elem_of_map; eauto).
    assert (size (comps V es) ≠ 0%nat); [|lia]. intros E%size_empty_inv. set_solver.
  - intros x ->%elem_of_singleton. apply elem_of_map. eauto.
Qed.

(** A forest: every pair joins two components of the pairs after it. *)
Fixpoint forest (es : pairs) : Prop :=
  match es with [] => True | (a, b) :: es => ¬ connected es a b ∧ forest es end.

Lemma comps_nil V : comps V [] = V.
Proof. apply set_eq. intros x. unfold comps. rewrite elem_of_map. cbn. naive_solver. Qed.

Lemma forest_size V es : within V es → forest es → (size (comps V es) + length es = size V)%nat.
Proof.
  induction es as [|[a b] es IH]; intros HV Hf; [rewrite comps_nil; cbn; lia|]. destruct Hf as [Hc Hf].
  destruct (HV a b) as [Ha Hb]; [set_solver|]. pose proof (comps_size V a b es Ha Hb) as H. rewrite decide_False in H by done.
  cbn. rewrite <- IH; [lia| |done]. intros x y Hxy. apply HV. set_solver.
Qed.

Lemma pairs_size V es : within V es → (size V ≤ size (comps V es) + length es)%nat.
Proof.
  induction es as [|[a b] es IH]; intros HV; [rewrite comps_nil; cbn; lia|].
  destruct (HV a b) as [Ha Hb]; [set_solver|]. pose proof (comps_size V a b es Ha Hb) as H.
  destruct (decide (connected es a b)); cbn; (etransitivity; [apply IH; intros x y Hxy; apply HV; set_solver|lia]).
Qed.

Lemma list_set_size (l : list string) : (size (list_to_set l : gset string) ≤ length l)%nat.
Proof.
  induction l as [|x l IH]; cbn; [by rewrite size_empty|]. rewrite size_union_alt, size_singleton.
  pose proof (subseteq_size (list_to_set l ∖ {[x]}) (list_to_set l : gset string)) as H. specialize (H ltac:(set_solver)). lia.
Qed.

(** What connects more has fewer components. *)
Lemma comps_coarser V es es' : (∀ x y, connected es x y → connected es' x y) → (size (comps V es') ≤ size (comps V es))%nat.
Proof.
  intros Hs. assert (comps V es' ⊆ list_to_set (comp es' <$> elements (comps V es))) as Hsub.
  { intros c. unfold comps. rewrite elem_of_map. intros (x & -> & Hx). apply elem_of_list_to_set, list_elem_of_fmap.
    exists (comp es x). split; [|apply elem_of_elements, elem_of_map; eauto]. apply comp_eq, Hs, comp_connected. }
  apply subseteq_size in Hsub. etransitivity; [exact Hsub|].
  etransitivity; [apply list_set_size|]. rewrite length_fmap. unfold size, set_size. cbn. lia.
Qed.

(** A forest is not larger than pairs that connect as much. *)
Lemma forest_bound F G : forest F → (∀ a b, (a, b) ∈ F → connected G a b) → (length F ≤ length G)%nat.
Proof.
  intros HF Hs. set (V := list_to_set (F.*1 ++ F.*2 ++ G.*1 ++ G.*2) : gset string).
  assert (within V F ∧ within V G) as [WF WG].
  { split; intros a b H; unfold V; rewrite !elem_of_list_to_set, !elem_of_app, !list_elem_of_fmap; split;
      [left|right; left|right; right; left|right; right; right]; by exists (a, b). }
  pose proof (forest_size V F WF HF). pose proof (pairs_size V G WG).
  pose proof (comps_coarser V F G (connected_sub F G Hs)). lia.
Qed.

Lemma forest_sublist F G : F `sublist_of` G → forest G → forest F.
Proof.
  induction 1 as [|[a b] F G Hs IH|[a b] F G Hs IH]; [done| |]; intros [Hc HG]; [|by apply IH].
  split; [|by apply IH]. intros H. apply Hc. revert H. apply connected_sub. intros x y Hxy. apply connected_in.
  by eapply elem_of_sublist.
Qed.

Lemma connected_perm F G : F ≡ₚ G → ∀ x y, connected F x y → connected G x y.
Proof. intros HP. apply connected_sub. intros a b H. apply connected_in. by rewrite <- HP. Qed.

Lemma forest_count V es : within V es → (size (comps V es) + length es = size V)%nat → forest es.
Proof.
  induction es as [|[a b] es IH]; intros HV Hn; [done|].
  assert (within V es) as HV' by (intros x y Hxy; apply HV; set_solver).
  destruct (HV a b) as [Ha Hb]; [set_solver|]. pose proof (comps_size V a b es Ha Hb) as H.
  pose proof (pairs_size V es HV'). cbn in Hn. destruct (decide (connected es a b)) as [|Hc]; [lia|].
  split; [done|]. apply IH; [done|lia].
Qed.

(** The order of the pairs does not matter. *)
Lemma forest_perm F G : F ≡ₚ G → forest F → forest G.
Proof.
  intros HP HF. set (V := list_to_set (F.*1 ++ F.*2) : gset string).
  assert (within V F) as WF.
  { intros a b H; unfold V; rewrite !elem_of_list_to_set, !elem_of_app, !list_elem_of_fmap. split; [left|right]; by exists (a, b). }
  assert (within V G) as WG by (intros a b H; apply WF; by rewrite HP).
  apply (forest_count V); [done|]. rewrite <- (forest_size V F WF HF). f_equal; [|by rewrite HP].
  pose proof (comps_coarser V F G (connected_perm F G HP)). pose proof (comps_coarser V G F (connected_perm G F (symmetry HP))). lia.
Qed.

(** ** The algorithm *)

(* src: pkg/algorithms/graph/kruskal/kruskal.go 9-13 Edge *)
Record Edge := { U : string; V : string; Weight : float64 }.

(* src: pkg/algorithms/graph/kruskal/kruskal.go 18-20 MST *)
Definition lighter (a b : Edge) : bool := flt (Weight a) (Weight b).

(* src: pkg/algorithms/graph/kruskal/kruskal.go 24-28 MST *)
Definition make_sets (edges : list Edge) (ds : DSet) : DSet :=
  foldl (λ ds e, MakeSet (V e) (MakeSet (U e) ds)) ds edges.

(* src: pkg/algorithms/graph/kruskal/kruskal.go 33-39 MST *)
Fixpoint mst_loop (edges : list Edge) (ds : DSet) (result : list Edge) (totalWeight : float64)
    : option (list Edge * float64) :=
  match edges with
  | [] => Some (result, totalWeight)
  | e :: edges =>
      '(c, ds) ← Connected (U e) (V e) ds;
      if c : bool then mst_loop edges ds result totalWeight
      else
        ds ← UnionFind.Union (U e) (V e) ds;
        mst_loop edges ds (result ++ [e]) (fadd totalWeight (Weight e))
  end.

Section MST.
Context `{SliceSort}.

(* src: pkg/algorithms/graph/kruskal/kruskal.go 15-42 MST *)
Definition MST (edges : list Edge) : option (list Edge * (list Edge * float64)) :=
  let edges := sort_Slice lighter edges in
  let ds := make_sets edges UnionFind.New in
  r ← mst_loop edges ds [] (S754_zero false);
  Some (edges, r).
End MST.

(** ** It is minimal *)

Definition ends (e : Edge) : string * string := (U e, V e).
Definition total (l : list Edge) : float64 := foldl (λ t e, fadd t (Weight e)) (S754_zero false) l.
#[global] Instance fle_dec a b : Decision (fle a b).
Proof. unfold fle. apply _. Defined.

(** The edges of weight at most [w]. *)
Definition upto (w : float64) (l : list Edge) : list Edge := filter (λ e, fle (Weight e) w) l.

(** What the loop has done: [acc] are the edges chosen so far, the last one first. *)
Definition greedy (seen acc : list Edge) : Prop :=
  forest (ends <$> acc) ∧ reverse acc `sublist_of` seen ∧
  ∀ e, e ∈ seen → connected (ends <$> upto (Weight e) acc) (U e) (V e).

Lemma upto_all w l : (∀ e, e ∈ l → fle (Weight e) w) → upto w l = l.
Proof.
  intros H. induction l as [|e l IH]; [done|]. unfold upto. rewrite filter_cons_True by (apply H; set_solver).
  f_equal. apply IH. set_solver.
Qed.

Lemma elem_upto w l e : e ∈ upto w l ↔ fle (Weight e) w ∧ e ∈ l.
Proof. unfold upto. by rewrite list_elem_of_filter. Qed.

Lemma ends_connected l e : e ∈ l → connected (ends <$> l) (U e) (V e).
Proof. intros He. apply connected_in. apply (list_elem_of_fmap_2 ends l e He). Qed.

Lemma connected_ends l k : (∀ e, e ∈ l → connected (ends <$> k) (U e) (V e)) →
  ∀ x y, connected (ends <$> l) x y → connected (ends <$> k) x y.
Proof. intros Hs. apply connected_sub. intros a b (e & E & He)%list_elem_of_fmap. injection E as -> ->. by apply Hs. Qed.

Lemma connected_more l k x y : (∀ e, e ∈ l → e ∈ k) → connected (ends <$> l) x y → connected (ends <$> k) x y.
Proof. intros Hs. apply connected_ends. intros e He. by apply ends_connected, Hs. Qed.

Lemma greedy_skip seen acc e : (∀ d, d ∈ seen → fle (Weight d) (Weight e)) →
  greedy seen acc → connected (ends <$> acc) (U e) (V e) → greedy (seen ++ [e]) acc.
Proof.
  intros Hle (Hf & Hs & Hc) He. split_and!; [done|by apply sublist_inserts_r|].
  intros d [Hd| ->%list_elem_of_singleton]%elem_of_app; [by apply Hc|]. rewrite upto_all; [done|].
  intros d Hd. apply Hle. eapply elem_of_sublist; [|done]. by apply elem_of_reverse.
Qed.

Lemma greedy_take seen acc e : greedy seen acc → ¬ connected (ends <$> acc) (U e) (V e) → greedy (seen ++ [e]) (e :: acc).
Proof.
  intros (Hf & Hs & Hc) He. split_and!; [done| |].
  - rewrite reverse_cons. by apply sublist_app.
  - intros d [Hd| ->%list_elem_of_singleton]%elem_of_app.
    + eapply connected_more, Hc; [|done]. intros x. rewrite !elem_upto. set_solver.
    + apply ends_connected, elem_upto. split; [apply fle_refl|set_solver].
Qed.

Lemma total_app l e : total (l ++ [e]) = fadd (total l) (Weight e).
Proof. unfold total. by rewrite foldl_app. Qed.

Lemma mst_loop_greedy edges : ∀ seen acc ds n known,
  in_order lighter (seen ++ edges) → inv n known (ends <$> acc) ds → n + Z.of_nat (length edges) < 2 ^ 63 →
  (∀ e, e ∈ edges → U e ∈ known ∧ V e ∈ known) → greedy seen acc →
  ∃ acc', mst_loop edges ds (reverse acc) (total (reverse acc)) = Some (reverse acc', total (reverse acc')) ∧
    greedy (seen ++ edges) acc'.
Proof.
  induction edges as [|e edges IH]; intros seen acc ds n known Hord Hinv Hn Hk Hg; cbn [mst_loop].
  { exists acc. by rewrite app_nil_r. }
  destruct (Hk e) as [HU HV]; [set_solver|].
  assert (∀ d, d ∈ seen → fle (Weight d) (Weight e)) as Hle.
  { intros d Hd. apply (StronglySorted_app_1_elem_of _ seen (e :: edges) d e Hord Hd); set_solver. }
  destruct (Connected_inv n known _ ds (U e) (V e) Hinv) as (b & ds1 & -> & Hinv1 & Hb). cbn.
  specialize (Hb HU HV). assert (seen ++ e :: edges = (seen ++ [e]) ++ edges) as Eapp by (by rewrite <- app_assoc).
  rewrite Eapp in Hord |- *. destruct b.
  - apply (IH _ _ _ n known); [done|done|cbn in Hn; lia|set_solver|]. apply greedy_skip; [done|done|by apply Hb].
  - destruct (Union_inv n known _ ds1 (U e) (V e) Hinv1 ltac:(cbn in Hn; lia)) as (ds2 & -> & Hinv2). cbn.
    rewrite decide_True in Hinv2 by done. rewrite <- total_app, <- reverse_cons.
    apply (IH _ (e :: acc) _ (n + 1) known); [done|done|cbn in Hn; lia|set_solver|]. apply greedy_take; [done|].
    intros Hc. apply Hb in Hc. done.
Qed.

Lemma make_sets_inv edges : ∀ known ds, inv 0 known [] ds → Forall (λ e, U e ≠ "" ∧ V e ≠ "") edges →
  ∃ known', inv 0 known' [] (make_sets edges ds) ∧ known ⊆ known' ∧ ∀ e, e ∈ edges → U e ∈ known' ∧ V e ∈ known'.
Proof.
  induction edges as [|e edges IH]; intros known ds Hi Hne; [exists known; set_solver|].
  apply Forall_cons in Hne as [[HU HV] Hne]. cbn.
  destruct (IH ({[V e]} ∪ ({[U e]} ∪ known)) (MakeSet (V e) (MakeSet (U e) ds))) as (k & Hk & Hsub & Hin); [|done|].
  { by repeat apply MakeSet_inv. }
  exists k. set_solver.
Qed.

(** Fewer light edges in every other forest. *)
Lemma greedy_dominates seen acc F w : greedy seen acc → Forall (λ e, is_num (Weight e)) seen → is_num w →
  (∀ e, e ∈ F → e ∈ seen) → forest (ends <$> F) → (length (upto w F) ≤ length (upto w acc))%nat.
Proof.
  intros (Hf & Hs & Hc) Hnum Hw HF Hforest. rewrite <- (length_fmap ends), <- (length_fmap ends (upto w acc)).
  rewrite Forall_forall in Hnum. apply forest_bound.
  - eapply forest_sublist; [|exact Hforest]. apply fmap_sublist, sublist_filter.
  - intros a b (e & E & [Hew He]%elem_upto)%list_elem_of_fmap. injection E as -> ->.
    eapply connected_more, Hc, HF; [|done]. intros x. rewrite !elem_upto. intros [Hx Hxa]. split; [|done].
    assert (x ∈ seen) by (eapply elem_of_sublist; [by apply elem_of_reverse|done]).
    apply (fle_trans _ (Weight e)); auto.
Qed.

Lemma upto_split w i l : upto w l = upto w (take i l) ++ upto w (drop i l).
Proof. unfold upto. by rewrite <- filter_app, take_drop. Qed.

Lemma upto_none w l : (∀ e, e ∈ l → ¬ fle (Weight e) w) → upto w l = [].
Proof.
  intros H. induction l as [|e l IH]; [done|]. unfold upto. rewrite filter_cons_False by (apply H; set_solver). apply IH. set_solver.
Qed.

(** Two lists in ascending order: the one that has more light edges everywhere is lighter at
    every place. *)
Lemma sorted_pointwise l k : in_order lighter l → in_order lighter k → length l = length k →
  Forall (λ e, is_num (Weight e)) l → Forall (λ e, is_num (Weight e)) k →
  (∀ w, is_num w → (length (upto w k) ≤ length (upto w l))%nat) → Forall2 (λ a b, fle (Weight a) (Weight b)) l k.
Proof.
  intros Hl Hk Hlen Nl Nk Hdom. apply Forall2_same_length_lookup_2; [done|]. intros i a b Ha Hb.
  destruct (decide (fle (Weight a) (Weight b))) as [?|Hn]; [done|exfalso].
  rewrite Forall_forall in Nl, Nk. assert (a ∈ l) as Hal by (by eapply list_elem_of_lookup_2). assert (b ∈ k) as Hbk by (by eapply list_elem_of_lookup_2).
  specialize (Hdom (Weight b) (Nk b Hbk)).
  assert (upto (Weight b) (drop i l) = []) as E1.
  { apply upto_none. intros e He Hle. apply Hn. rewrite (drop_S l a i Ha) in He. apply elem_of_cons in He as [->|He]; [done|].
    apply (fle_trans _ (Weight e)); [by apply Nl| |by apply Nk| |done].
    - apply Nl. by eapply elem_of_sublist, sublist_drop.
    - rewrite <- (take_drop i l), (drop_S l a i Ha) in Hl. apply StronglySorted_app_1_r in Hl.
      apply (StronglySorted_app_1_elem_of _ [a] (drop (S i) l) a e Hl); [set_solver|done]. }
  assert (upto (Weight b) (take (S i) k) = take (S i) k) as E2.
  { apply upto_all. intros e He. rewrite (take_S_r k i b Hb) in He. apply elem_of_app in He as [He| ->%list_elem_of_singleton]; [|apply fle_refl].
    rewrite <- (take_drop i k), (drop_S k b i Hb) in Hk. apply (StronglySorted_app_1_elem_of _ _ _ e b Hk He). set_solver. }
  rewrite (upto_split _ i l), E1, app_nil_r, (upto_split _ (S i) k), E2, length_app, length_take in Hdom.
  pose proof (lookup_lt_Some _ _ _ Hb). assert (length (upto (Weight b) (take i l)) ≤ i)%nat; [|lia].
  etransitivity; [apply length_filter|]. rewrite length_take. lia.
Qed.

Definition nonneg (e : Edge) : Prop := valid (Weight e) ∧ has_sign false (Weight e).

Lemma total_mono l k : Forall2 (λ a b, fle (Weight a) (Weight b)) l k → Forall nonneg l → Forall nonneg k →
  ∀ s t, valid s → has_sign false s → valid t → has_sign false t → fle s t →
  fle (foldl (λ t e, fadd t (Weight e)) s l) (foldl (λ t e, fadd t (Weight e)) t k).
Proof.
  induction 1 as [|a b l k Hab _ IH]; intros Nl Nk s t Vs Ss Vt St Hst; [done|].
  apply Forall_cons in Nl as [[Va Sa] Nl], Nk as [[Vb Sb] Nk]. cbn.
  destruct (fadd_val s (Weight a) Vs Va Ss Sa) as (V1 & S1 & E1). destruct (fadd_val t (Weight b) Vt Vb St Sb) as (V2 & S2 & E2).
  apply IH; try done. rewrite fle_val in Hab, Hst by done. apply fle_val; [done..|]. rewrite E1, E2.
  pose proof (val_nonneg s). pose proof (val_nonneg (Weight a)).
  pose proof (rnd_mono 0 (val s + val (Weight a)) (val t + val (Weight b)) ltac:(lia) ltac:(lia)). lia.
Qed.

(** A spanning forest of [edges]. *)
Definition spanning (edges F : list Edge) : Prop :=
  (∀ e, e ∈ F → e ∈ edges) ∧ forest (ends <$> F) ∧
  ∀ x y, connected (ends <$> F) x y ↔ connected (ends <$> edges) x y.

Lemma spanning_same_length edges F G : spanning edges F → spanning edges G → length F = length G.
Proof.
  intros (HF & fF & cF) (HG & fG & cG). rewrite <- (length_fmap ends F), <- (length_fmap ends G).
  apply Nat.le_antisymm; apply forest_bound; try done; intros a b Hab; apply connected_in in Hab.
  - by apply cG, cF.
  - by apply cF, cG.
Qed.

Lemma lighter_weak edges : Forall (λ e, is_num (Weight e)) edges → strict_weak lighter edges.
Proof.
  rewrite Forall_forall. intros Hn. split; unfold lighter.
  - intros x y Hx Hy Hlt. apply (flt_fle _ _ (Hn x Hx) (Hn y Hy) Hlt).
  - intros x y z Hx Hy Hz H1 H2. apply (fle_trans (Weight z) (Weight y) (Weight x)); auto.
Qed.

Lemma in_order_sublist l k : l `sublist_of` k → in_order lighter k → in_order lighter l.
Proof.
  induction 1 as [|x l k Hs IH|x l k Hs IH]; intros Hk; [done| |]; apply StronglySorted_inv in Hk as [Hk Hx].
  - constructor; [by apply IH|]. by eapply sublist_Forall.
  - by apply IH.
Qed.

(** C23. Kruskal's algorithm returns a minimum spanning forest.  For edges between named
    vertices whose weights are not NaN, all searches in the disjoint sets end; the caller's
    slice is sorted; the result is a subsequence of it that has no cycle and connects what the
    edges connect.  Every forest of the edges has, below every weight, at most as many
    edges as the result.  [totalWeight] is the sum of the result, rounded after every
    addition, and if no weight is negative no spanning forest, added up in ascending order,
    gives less. *)
Theorem kruskal_minimum `{SliceSort} (edges : list Edge) :
  Forall (λ e, is_num (Weight e) ∧ U e ≠ "" ∧ V e ≠ "") edges → Z.of_nat (length edges) < 2 ^ 63 →
  ∃ sorted result, MST edges = Some (sorted, (result, total result)) ∧
    sorted ≡ₚ edges ∧ in_order lighter sorted ∧ result `sublist_of` sorted ∧ spanning edges result ∧
    (∀ F w, (∀ e, e ∈ F → e ∈ edges) → forest (ends <$> F) → is_num w →
      (length (upto w F) ≤ length (upto w result))%nat) ∧
    (∀ F, Forall nonneg edges → spanning edges F → in_order lighter F → fle (total result) (total F)).
Proof.
  intros Hedges Hlen. pose proof (sort_Slice_perm _ lighter edges) as HP. set (sorted := sort_Slice lighter edges) in *.
  assert (Forall (λ e, is_num (Weight e)) edges) as Hnum by (by eapply Forall_impl; [done|intros ? (? & _)]).
  assert (Forall (λ e, is_num (Weight e)) sorted) as Hnum' by (by rewrite HP).
  pose proof (sort_Slice_order _ lighter edges (lighter_weak edges Hnum)) as Hord. fold sorted in Hord.
  destruct (make_sets_inv sorted ∅ New) as (known & Hinv & _ & Hk).
  { apply New_inv. } { rewrite HP. by eapply Forall_impl; [exact Hedges|intros ? (_ & ?)]. }
  destruct (mst_loop_greedy sorted [] [] (make_sets sorted New) 0 known) as (acc & Hloop & Hg).
  { done. } { done. } { rewrite HP. lia. } { done. } { split_and!; [done|done|set_solver]. }
  cbn [app] in Hg. pose proof Hg as (Hf & Hs & Hc).
  assert (∀ w, length (upto w (reverse acc)) = length (upto w acc)) as Hrev.
  { intros w. unfold upto. apply Permutation_length. by rewrite reverse_Permutation. }
  assert (∀ F w, (∀ e, e ∈ F → e ∈ edges) → forest (ends <$> F) → is_num w → (length (upto w F) ≤ length (upto w (reverse acc)))%nat) as Hdom.
  { intros F w HF HfF Hw. rewrite Hrev. apply (greedy_dominates sorted); [done|done|done| |done]. intros e He. rewrite HP. by apply HF. }
  assert (spanning edges (reverse acc)) as Hspan.
  { split_and!.
    - intros e He. rewrite <- HP. by eapply elem_of_sublist.
    - eapply forest_perm; [|exact Hf]. by rewrite reverse_Permutation.
    - intros x y. split.
      + apply connected_more. intros e He. rewrite <- HP. by eapply elem_of_sublist.
      + apply connected_ends. intros e He. rewrite <- HP in He. eapply connected_more, Hc, He.
        intros d [_ Hd]%elem_upto. by apply elem_of_reverse. }
  exists sorted, (reverse acc). split_and!; [|done|done|done|done|done|].
  - unfold MST. fold sorted. change (reverse []) with ([] : list Edge) in Hloop. change (total []) with (S754_zero false) in Hloop.
    cbv zeta. by rewrite Hloop.
  - intros F Hnn HF HoF. assert (Forall (λ e, is_num (Weight e)) F ∧ Forall nonneg F ∧ Forall (λ e, is_num (Weight e)) (reverse acc) ∧ Forall nonneg (reverse acc)) as (N1 & N2 & N3 & N4).
    { rewrite Forall_forall in Hnn, Hnum. rewrite !Forall_forall. split_and!; intros e He;
        [by apply Hnum, HF|by apply Hnn, HF|by apply Hnum, Hspan|by apply Hnn, Hspan]. }
    apply total_mono; try done. apply sorted_pointwise; [by eapply in_order_sublist|done|by eapply spanning_same_length|done|done|].
    intros w Hw. apply Hdom; [apply HF|apply HF|done].
Qed.

Lemma kruskal_minimum_witness : let w z := of_i64 z in
  let es := [ {| U := "a"; V := "b"; Weight := w 3 |}; {| U := "b"; V := "c"; Weight := w 1 |}; {| U := "a"; V := "c"; Weight := w 2 |} ] in
  ∃ sorted result, @MST insertion es = Some (sorted, (result, total result)) ∧ spanning es result.
Proof.
  intros w es. destruct (@kruskal_minimum insertion es) as (s & r & E & _ & _ & _ & Hs & _).
  - repeat constructor; try discriminate; by vm_compute.
  - vm_compute. reflexivity.
  - exists s, r. split; [exact E|exact Hs].
Defined.

(** An edge of the node with the empty name is never united, so that it is taken every time:
    the result of two parallel edges is a cycle. *)
Theorem kruskal_empty_name : let e z := {| U := ""; V := "a"; Weight := of_i64 z |} in
  @MST insertion [e 1; e 2] = Some ([e 1; e 2], ([e 1; e 2], of_i64 3)) ∧ ¬ forest (ends <$> [e 1; e 2]).
Proof. split; [vm_compute; reflexivity|]. cbn. intros [H _]. apply H. apply connected_edge. Qed.

(** The order of the sum matters: of the edges of a path the same forest, added up from the
    heaviest on, gives less than [totalWeight]. *)
Theorem kruskal_total_needs_order :
  let e u v z := {| U := u; V := v; Weight := of_i64 z |} in
  let es := [e "a" "b" 1; e "b" "c" 1; e "c" "d" (2 ^ 53)] in
  @MST insertion es = Some (es, (es, of_i64 (2 ^ 53 + 2))) ∧ total (reverse es) = of_i64 (2 ^ 53) ∧
  flt (total (reverse es)) (total es) = true.
Proof. split_and!; vm_compute; reflexivity. Qed.
