(* ===== verification/AhoCorasick.v ===== *)
(** * pkg/algorithms/search/ahocorasick

    Matching of many patterns at once.  The nodes are a heap; the address of a node is the
    runes on the way to it from the root, which has the empty address.  A nil dereference is
    [None].  The children of a node are ranged over in the order of the map; Go's order is any.
    Following failure links ends after as many steps as the address is long, and the loop
    over the queue after as many as there are nodes: this is their fuel. *)

From S2P Require Import Prelude Utf8.
From stdpp Require Import options.
Open Scope Z_scope.
#[local] Set Default Proof Using "Type*".

Abbreviation addr := (list Z).

(* src: pkg/algorithms/search/ahocorasick/ahocorasick.go 10-14 node *)
Record node := { children : gmap Z addr; fail_ : option addr; outputs : list string }.

(** The heap of a matcher. *)
Abbreviation Matcher := (gmap addr node).

Definition root : addr := [].
Definition empty_node : node := {| children := ∅; fail_ := None; outputs := [] |}.
Definition set_children (c : gmap Z addr) (n : node) : node := {| children := c; fail_ := fail_ n; outputs := outputs n |}.

(* src: pkg/algorithms/search/ahocorasick/ahocorasick.go 28-33 build *)
Fixpoint descend (rs : list Z) (n : addr) (m : Matcher) : option (addr * Matcher) :=
  match rs with
  | [] => Some (n, m)
  | r :: rs =>
      nd ← m !! n;
      match children nd !! r with
      | Some c => descend rs c m
      | None =>
          let c := n ++ [r] in
          descend rs c (<[c := empty_node]> (<[n := set_children (<[r := c]> (children nd)) nd]> m))
      end
  end.

(* src: pkg/algorithms/search/ahocorasick/ahocorasick.go 26-35 build *)
Definition add_pattern (p : string) (m : Matcher) : option Matcher :=
  '(n, m) ← descend (runes p) root m;
  nd ← m !! n;
  Some (<[n := {| children := children nd; fail_ := fail_ nd; outputs := outputs nd ++ [p] |}]> m).

Fixpoint add_patterns (ps : list string) (m : Matcher) : option Matcher :=
  match ps with [] => Some m | p :: ps => m ← add_pattern p m; add_patterns ps m end.

(** Follow failure links from [n] until a node has a child for [r]. *)
(* src: pkg/algorithms/search/ahocorasick/ahocorasick.go 83-89 FindAll *)
Fixpoint next_node (fuel : nat) (n : option addr) (r : Z) (m : Matcher) : option (option addr) :=
  match n with
  | None => Some None
  | Some a =>
      nd ← m !! a;
      match children nd !! r with
      | Some c => Some (Some c)
      | None => match fuel with O => None | S fuel => next_node fuel (fail_ nd) r m end
      end
  end.
Definition follow (n : option addr) (r : Z) (m : Matcher) : option (option addr) :=
  next_node (S (length (default [] n))) n r m.

(* src: pkg/algorithms/search/ahocorasick/ahocorasick.go 40-44 build *)
Fixpoint init_children (cs : list addr) (m : Matcher) : option Matcher :=
  match cs with
  | [] => Some m
  | c :: cs =>
      nd ← m !! c;
      init_children cs (<[c := {| children := children nd; fail_ := Some root; outputs := outputs nd |}]> m)
  end.

(* src: pkg/algorithms/search/ahocorasick/ahocorasick.go 50-64 build *)
Definition link_child (curr : addr) (r : Z) (child : addr) (m : Matcher) : option Matcher :=
  cn ← m !! curr;
  next ← follow (fail_ cn) r m;
  nd ← m !! child;
  let fl := match next with Some next => Some next | None => fail_ nd end in
  let fl := default root fl in
  fn ← m !! fl;
  Some (<[child := {| children := children nd; fail_ := Some fl; outputs := outputs nd ++ outputs fn |}]> m).

(* src: pkg/algorithms/search/ahocorasick/ahocorasick.go 49-67 build *)
Fixpoint link_children (curr : addr) (cs : list (Z * addr)) (queue : list addr) (m : Matcher) : option (list addr * Matcher) :=
  match cs with
  | [] => Some (queue, m)
  | (r, child) :: cs => m ← link_child curr r child m; link_children curr cs (queue ++ [child]) m
  end.

(* src: pkg/algorithms/search/ahocorasick/ahocorasick.go 46-68 build *)
Fixpoint link_queue (fuel : nat) (queue : list addr) (m : Matcher) : option Matcher :=
  match queue with
  | [] => Some m
  | curr :: queue =>
      match fuel with
      | O => None
      | S fuel =>
          cn ← m !! curr;
          '(queue, m) ← link_children curr (map_to_list (children cn)) queue m;
          link_queue fuel queue m
      end
  end.

(* src: pkg/algorithms/search/ahocorasick/ahocorasick.go 24-69 build *)
Definition build (patterns : list string) (m : Matcher) : option Matcher :=
  m ← add_patterns patterns m;
  rn ← m !! root;
  let queue := (map_to_list (children rn)).*2 in
  m ← init_children queue m;
  link_queue (size m) queue m.

(* src: pkg/algorithms/search/ahocorasick/ahocorasick.go 16-22 New *)
Definition New (patterns : list string) : option Matcher := build patterns {[ root := empty_node ]}.

(* src: pkg/algorithms/search/ahocorasick/ahocorasick.go 71-76 Match *)
Record Match := { Pattern : string; Index : Z }.

(* src: pkg/algorithms/search/ahocorasick/ahocorasick.go 82-101 FindAll *)
Fixpoint find_loop (i : Z) (text : list (Z * nat)) (curr : addr) (m : Matcher) : option (list Match) :=
  match text with
  | [] => Some []
  | (r, w) :: text =>
      next ← follow (Some curr) r m;
      let curr := default root next in
      nd ← m !! curr;
      let found := (λ p, {| Pattern := p; Index := i - Z.of_nat (String.length p) + 1 |}) <$> outputs nd in
      rest ← find_loop (i + Z.of_nat w) text curr m;
      Some (found ++ rest)
  end.

(* src: pkg/algorithms/search/ahocorasick/ahocorasick.go 78-103 FindAll *)
Definition FindAll (text : string) (m : Matcher) : option (list Match) :=
  find_loop 0 (scan (bytes text)) root m.

(** ** The trie *)

(** A child is at the address of its parent and its rune. *)
Definition shape (m : Matcher) : Prop :=
  root ∈ dom m ∧ (∀ a r, a ++ [r] ∈ dom m → a ∈ dom m) ∧
  ∀ a nd r, m !! a = Some nd → children nd !! r = if decide (a ++ [r] ∈ dom m) then Some (a ++ [r]) else None.

(** The patterns that are [a]. *)
Definition own (ps : list string) (a : addr) : list string := filter (λ p, runes p = a) ps.

Definition plain (ps : list string) (m : Matcher) : Prop :=
  shape m ∧ (∀ p, p ∈ ps → runes p ∈ dom m) ∧ ∀ a nd, m !! a = Some nd → fail_ nd = None ∧ outputs nd = own ps a.

Lemma own_none (ps : list string) (m : Matcher) (a : addr) : (∀ p, p ∈ ps → runes p ∈ dom m) → a ∉ dom m → own ps a = [].
Proof.
  intros Hp Ha. destruct (own ps a) as [|p l] eqn:E; [done|]. assert (p ∈ own ps a) as Hin by (rewrite E; set_solver).
  apply list_elem_of_filter in Hin as [<- Hin]. by destruct Ha; apply Hp.
Qed.

Lemma shape_new (m : Matcher) n nd r : shape m → m !! n = Some nd → n ++ [r] ∉ dom m →
  shape (<[n ++ [r] := empty_node]> (<[n := set_children (<[r := n ++ [r]]> (children nd)) nd]> m)).
Proof.
  intros (H1 & H2 & H3) Hn Hr. assert (n ∈ dom m) as Hnd by (by apply elem_of_dom_2 in Hn).
  assert (n ++ [r] ≠ n) as Hne by (intros E; apply (f_equal length) in E; rewrite length_app in E; cbn in E; lia).
  assert (∀ x, n ++ [r] ++ [x] ∉ dom m) as Hdeep. { intros x Hx. rewrite app_assoc in Hx. by apply H2 in Hx. }
  split_and!.
  - rewrite !dom_insert_L. set_solver.
  - intros a x. rewrite !dom_insert_L, !elem_of_union, !elem_of_singleton. intros [E|[E|Hx]]; [|right; right; apply (H2 a x); by rewrite E|].
    + apply app_inj_2 in E as [-> _]; [|done]. by right; left.
    + right; right. by eapply H2.
  - intros a d x Ha. rewrite !dom_insert_L. destruct (decide (a = n ++ [r])) as [->|Ha1].
    + rewrite lookup_insert_eq in Ha. injection Ha as <-. cbn. rewrite lookup_empty, decide_False; [done|]. rewrite <- app_assoc. cbn.
      rewrite !elem_of_union, !elem_of_singleton. intros [E|[E|E]]; [|by apply (f_equal length) in E; rewrite length_app in E; cbn in E; lia|by apply (Hdeep x)].
      apply (f_equal length) in E. rewrite !length_app in E. cbn in E. lia.
    + rewrite lookup_insert_ne in Ha by done. destruct (decide (a = n)) as [->|Ha2].
      * rewrite lookup_insert_eq in Ha. injection Ha as <-. cbn. destruct (decide (x = r)) as [->|Hx]; [rewrite lookup_insert_eq, decide_True by set_solver; done|].
        rewrite lookup_insert_ne by done. rewrite (H3 n nd x Hn). destruct (decide (n ++ [x] ∈ dom m)) as [Hin|Hout]; [by rewrite decide_True by set_solver|].
        rewrite decide_False; [done|]. rewrite !elem_of_union, !elem_of_singleton. intros [E|[E|E]]; [by apply app_inj_2 in E as [_ [=]]| |done].
        apply (f_equal length) in E. rewrite length_app in E. cbn in E. lia.
      * rewrite lookup_insert_ne in Ha by done. rewrite (H3 a d x Ha). destruct (decide (a ++ [x] ∈ dom m)) as [Hin|Hout]; [by rewrite decide_True by set_solver|].
        rewrite decide_False; [done|]. rewrite !elem_of_union, !elem_of_singleton. intros [E|[E|E]]; [by apply app_inj_2 in E as [? _]| |done].
        rewrite E in Hout. done.
Qed.

Lemma descend_plain ps rs : ∀ n m, plain ps m → n ∈ dom m →
  ∃ m', descend rs n m = Some (n ++ rs, m') ∧ plain ps m' ∧ n ++ rs ∈ dom m'.
Proof.
  induction rs as [|r rs IH]; intros n m Hp Hn; cbn [descend]; [exists m; by rewrite app_nil_r|].
  pose proof Hp as (Hs & Hd & Ho). apply elem_of_dom in Hn as [nd Hnd]. rewrite Hnd. cbn. pose proof Hs as (_ & _ & H3). rewrite (H3 n nd r Hnd).
  rewrite (app_assoc n [r] rs : n ++ r :: rs = _). destruct (decide (n ++ [r] ∈ dom m)) as [Hin|Hout]; [by apply IH|].
  apply IH; [|set_solver]. assert (n ++ [r] ≠ n) as Hne by (intros E; apply (f_equal length) in E; rewrite length_app in E; cbn in E; lia).
  split_and!; [by apply shape_new|rewrite !dom_insert_L; set_solver|].
  intros a d Ha. destruct (decide (a = n ++ [r])) as [->|Ha1].
  - rewrite lookup_insert_eq in Ha. injection Ha as <-. split; [done|]. cbn. symmetry. by eapply own_none.
  - rewrite lookup_insert_ne in Ha by done. destruct (decide (a = n)) as [->|Ha2]; [|rewrite lookup_insert_ne in Ha by done; by apply Ho].
    rewrite lookup_insert_eq in Ha. injection Ha as <-. cbn. by apply Ho.
Qed.

(** A change of a node that keeps its children keeps the shape. *)
Lemma shape_update (m : Matcher) a nd nd' : shape m → m !! a = Some nd → children nd' = children nd → shape (<[a := nd']> m).
Proof.
  intros (H1 & H2 & H3) Ha Hc. assert (dom (<[a := nd']> m) = dom m) as Ed by (apply dom_insert_lookup_L; by eexists).
  unfold shape. rewrite Ed. split_and!; [done|done|]. intros b d r Hb. destruct (decide (a = b)) as [<-|Hne].
  - rewrite lookup_insert_eq in Hb. injection Hb as <-. rewrite Hc. by apply H3.
  - rewrite lookup_insert_ne in Hb by done. by apply H3.
Qed.

Lemma add_patterns_plain ps : ∀ done m, plain done m → ∃ m', add_patterns ps m = Some m' ∧ plain (done ++ ps) m'.
Proof.
  induction ps as [|p ps IH]; intros dn m Hp; cbn [add_patterns]; [exists m; by rewrite app_nil_r|].
  unfold add_pattern. destruct (descend_plain dn (runes p) root m Hp) as (m1 & -> & (Hs & Hd & Ho) & Hin); [by apply Hp|]. cbn.
  apply elem_of_dom in Hin as [nd Hnd]. change (root ++ runes p) with (runes p) in *. rewrite Hnd. cbn.
  assert (dn ++ p :: ps = (dn ++ [p]) ++ ps) as -> by (by rewrite <- app_assoc). apply IH. split_and!.
  - by eapply shape_update.
  - intros q. rewrite dom_insert_L, elem_of_app, list_elem_of_singleton. intros [Hq| ->]; set_solver.
  - intros a d Ha. unfold own. rewrite filter_app. destruct (decide (runes p = a)) as [<-|Hne].
    + rewrite lookup_insert_eq in Ha. injection Ha as <-. cbn. destruct (Ho _ _ Hnd) as [-> ->]. by rewrite decide_True.
    + rewrite lookup_insert_ne in Ha by done. destruct (Ho a d Ha) as [-> ->]. cbn. by rewrite decide_False, app_nil_r.
Qed.

(** ** Failure links *)

(** The longest suffix that is a node. *)
Fixpoint lsuf (D : gset addr) (t : addr) : addr :=
  if decide (t ∈ D) then t else match t with [] => [] | _ :: t => lsuf D t end.
(** The patterns that are suffixes of [x], the longest first. *)
Fixpoint outs (ps : list string) (x : addr) : list string :=
  own ps x ++ match x with [] => [] | _ :: x => outs ps x end.

Lemma lsuf_in D t : root ∈ D → lsuf D t ∈ D.
Proof. intros Hr. induction t as [|a t IH]; cbn; destruct (decide _); done. Qed.
Lemma lsuf_length D t : (length (lsuf D t) ≤ length t)%nat.
Proof. induction t as [|a t IH]; cbn; destruct (decide _); cbn; lia. Qed.
Lemma lsuf_node D t : t ∈ D → lsuf D t = t.
Proof. intros H. destruct t; cbn; by rewrite decide_True. Qed.

Lemma lsuf_snoc D t r : root ∈ D → (∀ a r, a ++ [r] ∈ D → a ∈ D) → lsuf D (t ++ [r]) = lsuf D (lsuf D t ++ [r]).
Proof.
  intros Hr Hc. induction t as [|a t IH]; [cbn [lsuf]; by destruct (decide ([] ∈ D))|].
  destruct (decide (a :: t ∈ D)) as [Hin|Hout]; [by rewrite (lsuf_node D (a :: t))|].
  cbn [lsuf app]. rewrite (decide_False (P := a :: t ∈ D)) by done. rewrite decide_False; [done|]. intros H. by apply Hout, (Hc _ r).
Qed.

Lemma outs_lsuf (ps : list string) (m : Matcher) (t : addr) : (∀ p, p ∈ ps → runes p ∈ dom m) → outs ps t = outs ps (lsuf (dom m) t).
Proof.
  intros Hp. induction t as [|a t IH]; cbn [lsuf]; [by destruct (decide _)|].
  destruct (decide _) as [Hin|Hout]; [done|]. cbn [outs]. by rewrite (own_none ps m).
Qed.

Lemma outs_root (ps : list string) : (∀ p, p ∈ ps → runes p ≠ []) → outs ps [] = [].
Proof.
  intros Hne. cbn. rewrite app_nil_r. destruct (own ps []) as [|p l] eqn:E; [done|]. assert (p ∈ own ps []) as Hin by (rewrite E; set_solver).
  apply list_elem_of_filter in Hin as [Hp Hin]. by destruct (Hne p Hin).
Qed.

Section link.
  Context (ps : list string) (D : gset addr).
  Context (Hnodes : ∀ p, p ∈ ps → runes p ∈ D) (Hne : ∀ p, p ∈ ps → runes p ≠ []).

Definition base (m : Matcher) : Prop :=
  shape m ∧ dom m = D ∧ ∃ rn, m !! root = Some rn ∧ fail_ rn = None ∧ outputs rn = [].
Definition good (m : Matcher) (x : addr) : Prop :=
  ∃ nd, m !! x = Some nd ∧ fail_ nd = Some (lsuf D (tail x)) ∧ outputs nd = outs ps x.
Definition raw (m : Matcher) (x : addr) : Prop :=
  ∃ nd, m !! x = Some nd ∧ fail_ nd = None ∧ outputs nd = own ps x.

Lemma next_node_spec m r fuel : base m → ∀ x, x ∈ D → (∀ y, y ∈ D → y ≠ [] → (length y ≤ length x)%nat → good m y) →
  (length x < fuel)%nat → ∃ o, next_node fuel (Some x) r m = Some o ∧ default [] o = lsuf D (x ++ [r]).
Proof.
  intros (Hs & Hd & rn & Hr & Hrf & _). pose proof Hs as (H1 & H2 & H3). rewrite Hd in H1, H2. induction fuel as [|fuel IH]; intros x Hx Hg Hf; [lia|].
  cbn [next_node]. rewrite <- Hd in Hx. apply elem_of_dom in Hx as [nd Hnd]. rewrite Hnd. cbn. rewrite (H3 x nd r Hnd), Hd.
  destruct (decide (x ++ [r] ∈ D)) as [Hin|Hout]; [exists (Some (x ++ [r])); split; [done|]; cbn; by rewrite lsuf_node|].
  destruct x as [|a x].
  - assert (nd = rn) as -> by (change [] with root in Hnd; congruence). rewrite Hrf. exists None. destruct fuel; (split; [done|]); cbn.
    all: cbn in Hout; rewrite (decide_False (P := [r] ∈ D)) by done; by rewrite decide_True.
  - destruct (Hg (a :: x)) as (nd' & Hnd' & Hfail & _); [rewrite <- Hd; by apply elem_of_dom_2 in Hnd|done|done|].
    assert (nd' = nd) as -> by congruence. rewrite Hfail. cbn [tail]. pose proof (lsuf_length D x) as Hlen. cbn [length] in *.
    destruct (IH (lsuf D x)) as (o & -> & Ho); [by apply lsuf_in| |lia|].
    + intros y Hy Hyn Hyl. apply Hg; [done|done|lia].
    + exists o. split; [done|]. rewrite Ho, <- lsuf_snoc by done. cbn [app lsuf]. by rewrite (decide_False (P := a :: x ++ [r] ∈ D)).
Qed.

Lemma base_update m x nd nd' : base m → x ≠ root → m !! x = Some nd → children nd' = children nd → base (<[x := nd']> m).
Proof.
  intros (Hs & Hd & rn & Hr & Hrf & Hro) Hx Hnd Hc. split_and!; [by eapply shape_update| |].
  - rewrite dom_insert_lookup_L; [done|by eexists].
  - exists rn. by rewrite lookup_insert_ne.
Qed.

Lemma link_child_ok m curr r : base m → curr ∈ D → curr ≠ [] → curr ++ [r] ∈ D →
  (∀ y, y ∈ D → y ≠ [] → (length y ≤ length curr)%nat → good m y) → raw m (curr ++ [r]) →
  ∃ nd', link_child curr r (curr ++ [r]) m = Some (<[curr ++ [r] := nd']> m) ∧
    base (<[curr ++ [r] := nd']> m) ∧ good (<[curr ++ [r] := nd']> m) (curr ++ [r]).
Proof.
  intros Hb Hc Hcn Hcr Hg (nd & Hnd & Hf & Ho). pose proof Hb as (Hs & Hd & rn & Hr & Hrf & Hro). pose proof Hs as (H1 & H2 & _). rewrite Hd in H1, H2.
  destruct (Hg curr Hc Hcn) as (cn & Hcnode & Hcf & _); [done|]. unfold link_child. rewrite Hcnode. cbn [mbind option_bind]. rewrite Hcf. unfold follow.
  set (y := lsuf D (tail curr)). assert (length y < length curr)%nat as Hy.
  { pose proof (lsuf_length D (tail curr)). fold y in H. destruct curr; [done|cbn in *; lia]. }
  destruct (next_node_spec m r (S (length y)) Hb y) as (o & Ho1 & Ho2); [by apply lsuf_in|intros z Hz Hzn Hzl; apply Hg; [done|done|lia]|lia|].
  change (default [] (Some y)) with y. rewrite Ho1. cbn [mbind option_bind]. rewrite Hnd. cbn [mbind option_bind]. rewrite Hf.
  assert (default root (match o with Some next => Some next | None => None end) = lsuf D (tail (curr ++ [r]))) as Efl.
  { assert (tail (curr ++ [r]) = tail curr ++ [r]) as -> by (by destruct curr). unfold y in Ho2. rewrite <- lsuf_snoc in Ho2 by done. rewrite <- Ho2. by destruct o. }
  rewrite Efl. set (fl := lsuf D (tail (curr ++ [r]))) in *.
  assert (∃ fn, m !! fl = Some fn ∧ outputs fn = outs ps fl) as (fn & Hfn & Hfo).
  { destruct (decide (fl = [])) as [->|Hfn]; [exists rn; split; [done|]; by rewrite outs_root by done|].
    destruct (Hg fl) as (fn & ? & _ & ?); [by apply lsuf_in|done| |by exists fn].
    unfold fl. etransitivity; [apply lsuf_length|]. destruct curr; [done|]. cbn. rewrite length_app. cbn. lia. }
  rewrite Hfn. cbn [mbind option_bind]. eexists. split; [reflexivity|]. split; [eapply base_update; [done|by destruct curr|done|done]|].
  eexists. rewrite lookup_insert_eq. split_and!; [done|done|]. cbn. rewrite Ho, Hfo. unfold fl. rewrite <- Hd, <- outs_lsuf by (by rewrite Hd).
  by destruct curr.
Qed.

Lemma good_frame m m' x : m' !! x = m !! x → good m x → good m' x.
Proof. unfold good. by intros ->. Qed.
Lemma raw_frame m m' x : m' !! x = m !! x → raw m x → raw m' x.
Proof. unfold raw. by intros ->. Qed.

Lemma link_children_ok curr cs : ∀ q m, base m → curr ∈ D → curr ≠ [] → NoDup cs.*2 →
  (∀ y, y ∈ D → y ≠ [] → (length y ≤ length curr)%nat → good m y) →
  (∀ r c, (r, c) ∈ cs → c = curr ++ [r] ∧ c ∈ D ∧ raw m c) →
  ∃ m', link_children curr cs q m = Some (q ++ cs.*2, m') ∧ base m' ∧ (∀ c, c ∈ cs.*2 → good m' c) ∧
    ∀ x, x ∉ cs.*2 → m' !! x = m !! x.
Proof.
  induction cs as [|[r c] cs IH]; intros q m Hb Hc Hcn Hnd Hg Hcs; cbn [link_children].
  { exists m. rewrite app_nil_r. split_and!; [done|done|set_solver|done]. }
  destruct (Hcs r c) as (-> & Hin & Hraw); [set_solver|]. apply NoDup_cons in Hnd as [Hnin Hnd]. cbn in Hnin.
  destruct (link_child_ok m curr r Hb Hc Hcn Hin Hg Hraw) as (nd & -> & Hb1 & Hg1). cbn [mbind option_bind].
  set (m1 := <[curr ++ [r] := nd]> m) in *. assert (∀ x, x ≠ curr ++ [r] → m1 !! x = m !! x) as Hfr by (intros x Hx; by apply lookup_insert_ne).
  destruct (IH (q ++ [curr ++ [r]]) m1 Hb1 Hc Hcn Hnd) as (m' & E & Hb' & Hg' & Hfr').
  - intros y Hy Hyn Hyl. eapply good_frame, Hg; try done. apply Hfr. intros ->. rewrite length_app in Hyl. cbn in Hyl. lia.
  - intros r' c' Hc'. destruct (Hcs r' c') as (-> & Hin' & Hraw'); [set_solver|]. split_and!; [done|done|]. eapply raw_frame, Hraw'. apply Hfr.
    intros E. apply Hnin. rewrite <- E. apply list_elem_of_fmap. by exists (r', curr ++ [r']).
  - exists m'. split_and!; [by rewrite E, <- app_assoc|done| |].
    + cbn. intros c [->|Hc']%elem_of_cons; [|by apply Hg']. eapply good_frame, Hg1. by apply Hfr'.
    + cbn. intros x Hx. rewrite Hfr', Hfr; set_solver.
Qed.

(** The queue holds nodes of one depth and then their successors at the next. *)
Definition queued (m : Matcher) (d : nat) (Q1 Q2 : list addr) : Prop :=
  base m ∧ (1 ≤ d)%nat ∧ NoDup Q1 ∧
  (∀ x, x ∈ D → x ≠ [] → (length x ≤ d)%nat → good m x) ∧
  (∀ x, x ∈ Q1 → x ∈ D ∧ length x = d) ∧
  (∀ x, x ∈ Q2 → x ∈ D ∧ length x = S d ∧ good m x) ∧ NoDup Q2 ∧
  (∀ x r, x ++ [r] ∈ Q2 → x ∉ Q1) ∧
  (∀ x r, x ++ [r] ∈ D → length x = d → x ∉ Q1 → x ++ [r] ∈ Q2) ∧
  (∀ x, x ∈ D → (d < length x)%nat → x ∉ Q2 → raw m x).

(** The nodes that have left the queue. *)
Definition served (d : nat) (Q1 : list addr) : gset addr :=
  filter (λ x, (length x < d)%nat ∨ (length x = d ∧ x ∉ Q1)) D.

Lemma queued_next m d Q2 : queued m d [] Q2 → queued m (S d) Q2 [] ∧ served (S d) Q2 = served d [].
Proof.
  intros (Hb & Hd & _ & Hg & _ & HQ2 & Hnd & _ & Hall & Hraw).
  assert (∀ x, x ∈ D → length x = S d → x ∈ Q2) as Hlev.
  { intros x Hx Hl. destruct x as [|y x _] using rev_ind; [done|]. rewrite length_app in Hl. cbn in Hl. apply Hall; [done|lia|set_solver]. }
  split.
  - split_and!; [done|lia|done| |by intros x Hx; destruct (HQ2 x Hx) as (? & ? & ?)|set_solver|constructor|set_solver| |].
    + intros x Hx Hxn Hl. destruct (decide (length x = S d)) as [E|]; [by apply HQ2, Hlev|]. apply Hg; [done|done|lia].
    + intros x r Hx Hl Hn. destruct Hn. apply Hlev; [|done]. destruct Hb as ((_ & H2 & _) & <- & _). by eapply H2.
    + intros x Hx Hl _. apply Hraw; [done|lia|]. intros Hin. destruct (HQ2 x Hin) as (_ & ? & _). lia.
  - unfold served. apply set_eq. intros x. rewrite !elem_of_filter. split; intros [H Hx]; (split; [|done]).
    + destruct H as [H|[H Hn]]; [destruct (decide (length x = d)); [right; set_solver|left; lia]|]. by destruct Hn; apply Hlev.
    + destruct H as [H|[H _]]; left; lia.
Qed.

Lemma link_queue_ok fuel : ∀ m d Q1 Q2, queued m d Q1 Q2 → (size D ≤ fuel + size (served d Q1))%nat →
  ∃ m', link_queue fuel (Q1 ++ Q2) m = Some m' ∧ base m' ∧ ∀ x, x ∈ D → x ≠ [] → good m' x.
Proof.
  assert (∀ m d, queued m d [] [] → ∀ x, x ∈ D → x ≠ [] → good m x) as Hdone.
  { intros m d (Hb & _ & _ & Hg & _ & _ & _ & _ & Hall & _) x Hx Hxn. apply Hg; [done|done|]. clear Hxn. destruct Hb as ((_ & H2 & _) & Hdom & _). rewrite Hdom in H2.
    induction x as [|r x IH] using rev_ind; [cbn; lia|]. specialize (IH (H2 _ _ Hx)). rewrite length_app. cbn.
    destruct (decide (length x = d)) as [E|]; [|lia]. by apply Hall, elem_of_nil in Hx; [|done|set_solver]. }
  assert (∀ fuel m d x Q1 Q2, queued m d (x :: Q1) Q2 → (size D ≤ fuel + size (served d (x :: Q1)))%nat →
    ∃ f' m' Q, fuel = S f' ∧ queued m' d Q1 Q ∧ (size D ≤ f' + size (served d Q1))%nat ∧
      link_queue fuel ((x :: Q1) ++ Q2) m = link_queue f' (Q1 ++ Q) m') as Hstep.
  { intros f m d x Q1 Q2 (Hb & Hd & Hnd & Hg & HQ1 & HQ2 & Hnd2 & Hpar & Hall & Hraw) Hf.
    destruct (HQ1 x) as [HxD Hxl]; [set_solver|]. apply NoDup_cons in Hnd as [Hxn Hnd].
    assert (x ∉ served d (x :: Q1)) as Hxleft. { unfold served. rewrite elem_of_filter. intros [[?|[_ ?]] _]; [lia|set_solver]. }
    assert (served d Q1 = {[x]} ∪ served d (x :: Q1)) as Eleft.
    { unfold served. apply set_eq. intros y. rewrite elem_of_union, !elem_of_filter, elem_of_singleton. destruct (decide (y = x)) as [->|]; set_solver. }
    assert (size (served d (x :: Q1)) < size D)%nat as Hlt.
    { apply subset_size. split; [intros y; unfold served; rewrite elem_of_filter; tauto|]. intros Hs. by apply Hxleft, Hs. }
    destruct f as [|f]; [lia|]. cbn [app link_queue]. destruct (Hg x) as (nd & Hnd' & _); [done|by intros ->; cbn in Hxl; lia|lia|].
    rewrite Hnd'. cbn [mbind option_bind]. pose proof Hb as ((_ & H2 & H3) & Hdom & _). rewrite Hdom in H2, H3.
    set (cs := map_to_list (children nd)).
    assert (∀ r c, (r, c) ∈ cs ↔ c = x ++ [r] ∧ c ∈ D) as Hcs.
    { intros r c. unfold cs. rewrite elem_of_map_to_list, (H3 x nd r Hnd'). destruct (decide _) as [?|Hn]; split; [by intros [= <-]|by intros [-> _]|done|by intros [-> ?]]. }
    assert (∀ c, c ∈ cs.*2 ↔ ∃ r, c = x ++ [r] ∧ c ∈ D) as Hcs2.
    { intros c. rewrite list_elem_of_fmap. split; [intros ([r c'] & -> & Hin); exists r; by apply Hcs|]. intros [r Hr]. exists (r, c). split; [done|]. by apply Hcs. }
    assert (NoDup cs.*2) as Hndc.
    { assert (cs.*2 = (λ r, x ++ [r]) <$> cs.*1) as ->.
      { rewrite <- list_fmap_compose. apply list_fmap_ext. intros i [r c] Hi. cbn. apply list_elem_of_lookup_2 in Hi. by apply Hcs in Hi as [-> _]. }
      apply NoDup_fmap; [|apply NoDup_fst_map_to_list]. intros r r' E. by apply app_inj_2 in E as [_ [=]]. }
    destruct (link_children_ok x cs (Q1 ++ Q2) m Hb HxD) as (m' & E & Hb' & Hg' & Hfr); [by intros ->; cbn in Hxl; lia|done| | |].
    { intros y Hy Hyn Hyl. apply Hg; [done|done|lia]. }
    { intros r c Hin. apply Hcs in Hin as [-> Hin]. split_and!; [done|done|]. apply Hraw; [done|rewrite length_app; cbn; lia|].
      intros HQ. apply (Hpar x r HQ). set_solver. }
    rewrite E. cbn [mbind option_bind]. exists f, m', (Q2 ++ cs.*2). rewrite <- app_assoc. split_and!; [done| |rewrite Eleft, size_union, size_singleton by set_solver; lia|done].
    assert (∀ c, c ∈ cs.*2 → length c = S d) as Hlen by (intros c [r [-> _]]%Hcs2; rewrite length_app; cbn; lia).
    assert (∀ c, c ∈ Q2 → c ∉ cs.*2) as Hdisj by (intros c Hc [r [-> _]]%Hcs2; apply (Hpar x r Hc); set_solver).
    split_and!; [done|done|done| | | | | | |].
    - intros y Hy Hyn Hyl. eapply good_frame, Hg; [|done|done|done]. apply Hfr. intros Hc%Hlen. lia.
    - intros y Hy. apply HQ1. set_solver.
    - intros y [Hy|Hy]%elem_of_app.
      + destruct (HQ2 y Hy) as (? & ? & ?). split_and!; [done|done|]. eapply good_frame; [|done]. by apply Hfr, Hdisj.
      + split_and!; [by apply Hcs2 in Hy as (? & _ & ?)|by apply Hlen|by apply Hg'].
    - apply NoDup_app. split_and!; [done|done|done].
    - intros y r [Hy|Hy]%elem_of_app; [intros Hin; apply (Hpar y r Hy); set_solver|]. apply Hcs2 in Hy as (r' & Ey & _). by apply app_inj_2 in Ey as [-> _].
    - intros y r Hy Hyl Hyn. rewrite elem_of_app. destruct (decide (y = x)) as [->|Hne']; [right; apply Hcs2; eauto|left; apply Hall; set_solver].
    - intros y Hy Hyl Hyn. rewrite elem_of_app in Hyn. eapply raw_frame, Hraw; [|done|done|tauto]. apply Hfr. tauto. }
  induction fuel as [|fuel IH]; intros m d Q1 Q2 Hq Hf; (destruct Q1 as [|x Q1]; [destruct Q2 as [|x Q2]|]).
  1, 4: exists m; cbn; split_and!; [done|apply Hq|by eapply Hdone].
  1, 3: apply queued_next in Hq as [Hq El]; rewrite <- El in Hf; destruct (Hstep _ _ _ _ _ _ Hq Hf) as (f' & m' & Q & [=] & Hq' & Hf' & E).
  - subst f'. cbn [app] in E |- *. rewrite app_nil_r in E. rewrite E. by eapply IH.
  - destruct (Hstep _ _ _ _ _ _ Hq Hf) as (f' & m' & Q & [=] & _).
  - destruct (Hstep _ _ _ _ _ _ Hq Hf) as (f' & m' & Q & [= <-] & Hq' & Hf' & ->). by eapply IH.
Qed.
End link.

(** ** The matcher *)

Definition link_root (nd : node) : node := {| children := children nd; fail_ := Some root; outputs := outputs nd |}.

Lemma init_children_ok cs : ∀ m, NoDup cs → (∀ c, c ∈ cs → c ∈ dom m) →
  ∃ m', init_children cs m = Some m' ∧ (∀ x, x ∉ cs → m' !! x = m !! x) ∧ ∀ x, x ∈ cs → m' !! x = link_root <$> m !! x.
Proof.
  induction cs as [|c cs IH]; intros m Hnd Hin; cbn [init_children]; [exists m; split_and!; [done|done|set_solver]|].
  apply NoDup_cons in Hnd as [Hc Hnd]. assert (c ∈ dom m) as Hcm by (apply Hin; set_solver). apply elem_of_dom in Hcm as [nd Hnd']. rewrite Hnd'. cbn [mbind option_bind].
  change {| children := children nd; fail_ := Some root; outputs := outputs nd |} with (link_root nd).
  destruct (IH (<[c := link_root nd]> m) Hnd) as (m' & -> & H1 & H2); [intros x Hx; rewrite dom_insert_L; set_solver|].
  exists m'. split_and!; [done| |].
  - intros x Hx. rewrite H1 by set_solver. apply lookup_insert_ne. set_solver.
  - intros x [->|Hx]%elem_of_cons; [by rewrite H1, lookup_insert_eq, Hnd' by done|].
    rewrite H2 by done. rewrite lookup_insert_ne; [done|]. by intros ->.
Qed.

(** Every node of a built matcher has the longest proper suffix that is a node as its failure
    link, and the patterns that end there as its outputs. *)
Definition built (ps : list string) (m : Matcher) : Prop :=
  (∀ p, p ∈ ps → runes p ∈ dom m) ∧ base (dom m) m ∧ ∀ x, x ∈ dom m → x ≠ [] → good ps (dom m) m x.

Lemma New_built ps : (∀ p, p ∈ ps → runes p ≠ []) → ∃ m, New ps = Some m ∧ built ps m.
Proof.
  intros Hne. unfold New, build.
  destruct (add_patterns_plain ps [] {[root := empty_node]}) as (m & -> & Hs & Hp & Ho).
  { split_and!; [split_and!| |].
    - set_solver.
    - intros a r. rewrite dom_singleton_L, elem_of_singleton. by destruct a.
    - intros a nd r [<- <-]%lookup_singleton_Some. cbn. by rewrite lookup_empty, decide_False by set_solver.
    - set_solver.
    - by intros a nd [<- <-]%lookup_singleton_Some. }
  cbn [mbind option_bind app] in *. pose proof Hs as (H1 & H2 & H3). pose proof H1 as H1'. apply elem_of_dom in H1' as [rn Hrn]. rewrite Hrn. cbn [mbind option_bind].
  set (Q := (map_to_list (children rn)).*2).
  assert (∀ c, c ∈ Q ↔ ∃ r, c = [r] ∧ c ∈ dom m) as HQ.
  { intros c. unfold Q. rewrite list_elem_of_fmap. split.
    - intros ([r c'] & -> & Hin). apply elem_of_map_to_list in Hin. rewrite (H3 root rn r Hrn) in Hin. destruct (decide _) as [Hi|]; [|done]. injection Hin as <-. by exists r.
    - intros (r & -> & Hin). exists (r, [r]). split; [done|]. apply elem_of_map_to_list. rewrite (H3 root rn r Hrn). by rewrite decide_True. }
  assert (NoDup Q) as Hnd.
  { assert (Q = (λ r, [r]) <$> (map_to_list (children rn)).*1) as ->.
    { unfold Q. rewrite <- list_fmap_compose. apply list_fmap_ext. intros i [r c] Hi. cbn. apply list_elem_of_lookup_2, elem_of_map_to_list in Hi.
      rewrite (H3 root rn r Hrn) in Hi. destruct (decide _); [|done]. by injection Hi. }
    apply NoDup_fmap; [by intros r r' [=]|apply NoDup_fst_map_to_list]. }
  destruct (init_children_ok Q m Hnd) as (m1 & E1 & Hout & Hin); [by intros c (r & -> & ?)%HQ|]. rewrite E1. cbn [mbind option_bind].
  assert (dom m1 = dom m) as Ed.
  { apply set_eq. intros x. rewrite !elem_of_dom. destruct (decide (x ∈ Q)) as [Hx|Hx]; [by rewrite Hin, fmap_is_Some|by rewrite Hout]. }
  assert (root ∉ Q) as HrQ by (by intros (r & [=] & _)%HQ).
  assert (queued ps (dom m) m1 1 Q []) as Hq.
  { split_and!; [split_and!; [split_and!| |]|done|done| | |set_solver|constructor|set_solver| |].
    - by rewrite Ed.
    - by rewrite Ed.
    - intros a nd r Ha. rewrite Ed. destruct (decide (a ∈ Q)) as [Hx|Hx]; [|rewrite Hout in Ha by done; by apply H3].
      rewrite Hin in Ha by done. apply fmap_Some in Ha as (nd' & Ha & ->). by apply (H3 a nd').
    - done.
    - exists rn. rewrite Hout by done. split_and!; [done|by apply (Ho _ _ Hrn)|]. rewrite (proj2 (Ho _ _ Hrn)).
      pose proof (outs_root ps Hne) as H. cbn in H. by rewrite app_nil_r in H.
    - intros x Hx Hxn Hl. destruct x as [|r [|]]; [done| |cbn in Hl; lia]. assert ([r] ∈ Q) as Hr by (apply HQ; eauto).
      apply elem_of_dom in Hx as [nd Hx]. exists (link_root nd). rewrite Hin, Hx by done. split_and!; [done| |].
      + cbn. by destruct (decide _).
      + cbn. rewrite (proj2 (Ho _ _ Hx)). pose proof (outs_root ps Hne) as H. cbn in H. by rewrite H, app_nil_r.
    - intros x (r & -> & Hx)%HQ. done.
    - intros x r Hx Hl Hn. destruct Hn. destruct x as [|y [|]]; [done| |done]. apply HQ. exists y. split; [done|]. by eapply H2.
    - intros x Hx Hl _. assert (x ∉ Q) as Hn by (intros (r & -> & _)%HQ; cbn in Hl; lia). apply elem_of_dom in Hx as [nd Hx].
      exists nd. rewrite Hout by done. split; [done|]. by apply Ho. }
  destruct (link_queue_ok ps (dom m) Hp Hne (size m1) m1 1 Q [] Hq) as (m2 & E2 & Hb & Hg).
  { rewrite <- Ed, size_dom. lia. }
  rewrite app_nil_r in E2. exists m2. split; [done|]. assert (dom m2 = dom m) as Ed2 by apply Hb. unfold built. rewrite Ed2. by split_and!.
Qed.

(** The matches by the definition: at every rune of the text, the patterns that are suffixes of
    what was read, the longest first. *)
Fixpoint naive (ps : list string) (i : Z) (before : list Z) (text : list (Z * nat)) : list Match :=
  match text with
  | [] => []
  | (r, w) :: text =>
      ((λ p, {| Pattern := p; Index := i - Z.of_nat (String.length p) + 1 |}) <$> outs ps (before ++ [r])) ++
      naive ps (i + Z.of_nat w) (before ++ [r]) text
  end.

Lemma find_loop_ok ps m text : (∀ p, p ∈ ps → runes p ≠ []) → built ps m → ∀ i before,
  find_loop i text (lsuf (dom m) before) m = Some (naive ps i before text).
Proof.
  intros Hne (Hp & Hb & Hg). pose proof Hb as ((H1 & H2 & _) & _ & rn & Hrn & _ & Hro).
  induction text as [|[r w] text IH]; intros i before; cbn [find_loop naive]; [done|].
  destruct (next_node_spec ps (dom m) Hp Hne m r (S (length (lsuf (dom m) before))) Hb (lsuf (dom m) before)) as (o & E & Ho);
    [by apply lsuf_in|intros y Hy Hyn _; by apply Hg|lia|].
  assert (follow (Some (lsuf (dom m) before)) r m = Some o) as -> by exact E. cbn [mbind option_bind]. change root with (@nil Z). rewrite Ho, <- lsuf_snoc by done.
  assert (∃ nd, m !! lsuf (dom m) (before ++ [r]) = Some nd ∧ outputs nd = outs ps (before ++ [r])) as (nd & -> & Hnd).
  { rewrite (outs_lsuf ps m) by done. destruct (decide (lsuf (dom m) (before ++ [r]) = [])) as [->|Hn]; [exists rn; by rewrite Hro, outs_root by done|].
    destruct (Hg (lsuf (dom m) (before ++ [r]))) as (nd & ? & _ & ?); [by apply lsuf_in|done|by exists nd]. }
  cbn [mbind option_bind]. by rewrite Hnd, IH.
Qed.

Lemma elem_of_outs ps p x : p ∈ outs ps x ↔ p ∈ ps ∧ ∃ y, x = y ++ runes p.
Proof.
  assert (∀ x, p ∈ own ps x ↔ p ∈ ps ∧ x = runes p) as Hown.
  { intros z. unfold own. rewrite list_elem_of_filter. naive_solver. }
  induction x as [|a x IH]; cbn [outs]; rewrite elem_of_app, Hown; [rewrite elem_of_nil|rewrite IH]; split.
  - intros [[Hp E]|[]]. split; [done|]. by exists [].
  - intros [Hp [y E]]. symmetry in E. apply app_eq_nil in E as [_ E]. by left.
  - intros [[Hp E]|[Hp [y ->]]]; (split; [done|]); [by exists []|by exists (a :: y)].
  - intros [Hp [[|b y] E]]; [by left|]. right. split; [done|]. injection E as _ ->. by exists y.
Qed.

Lemma elem_of_naive ps p j text : ∀ i before, {| Pattern := p; Index := j |} ∈ naive ps i before text ↔
  ∃ t1 r w t2, text = t1 ++ (r, w) :: t2 ∧ p ∈ outs ps (before ++ t1.*1 ++ [r]) ∧ j = i + Z.of_nat (sum_list (t1.*2)) - Z.of_nat (String.length p) + 1.
Proof.
  induction text as [|[r w] text IH]; intros i before; cbn [naive].
  { rewrite elem_of_nil. split; [done|]. intros (t1 & r & w & t2 & E & _). by destruct t1. }
  rewrite elem_of_app, list_elem_of_fmap, IH. split.
  - intros [(q & [= -> ->] & Hq)|(t1 & r' & w' & t2 & -> & Hq & ->)].
    + exists [], r, w, text. cbn. split_and!; [done|done|lia].
    + exists ((r, w) :: t1), r', w', t2. cbn. rewrite <- app_assoc in Hq. split_and!; [done|done|lia].
  - intros (t1 & r' & w' & t2 & E & Hq & ->). destruct t1 as [|[r1 w1] t1]; cbn in E; injection E as -> -> ->.
    + left. exists p. cbn in Hq |- *. split; [|done]. f_equal. lia.
    + right. exists t1, r', w', t2. rewrite <- app_assoc. cbn in Hq |- *. split_and!; [done|done|lia].
Qed.

Definition ascii (s : string) : Prop := Forall (λ b, b < 128) (bytes s).

Lemma runes_nonempty p : p ≠ EmptyString → runes p ≠ [].
Proof.
  intros Hp E. assert (length (bytes p) = 0%nat) as El.
  { rewrite <- scan_total. unfold runes in E. apply fmap_nil_inv in E. by rewrite E. }
  unfold bytes in El. rewrite length_fmap in El. by destruct p.
Qed.

Lemma length_bytes s : length (bytes s) = String.length s.
Proof. unfold bytes. rewrite length_fmap. induction s; cbn; [done|]. by f_equal. Qed.

Lemma runes_ascii s : ascii s → runes s = bytes s.
Proof. intros H. unfold runes. rewrite scan_ascii by done. by rewrite <- list_fmap_compose, list_fmap_id. Qed.

Lemma sum_ones (l : list Z) : sum_list (((λ b, (b, 1%nat)) <$> l).*2) = length l.
Proof. induction l as [|b l IH]; [done|]. cbn. by f_equal. Qed.

Lemma elem_of_naive_ascii ps p j text : (∀ p, p ∈ ps → p ≠ EmptyString) → ascii text → p ∈ ps → ascii p →
  {| Pattern := p; Index := j |} ∈ naive ps 0 [] (scan (bytes text)) ↔
  ∃ pre post, bytes text = pre ++ bytes p ++ post ∧ j = Z.of_nat (length pre).
Proof.
  intros Hne Ht Hp Ha. rewrite elem_of_naive, scan_ascii by done. split.
  - intros (t1 & r & w & t2 & E & [_ [y Hy]]%elem_of_outs & ->). apply fmap_app_inv in E as (l1 & l2 & -> & E2 & E).
    destruct l2 as [|b l2]; [done|]. cbn in E2. injection E2 as -> -> ->.
    rewrite runes_ascii in Hy by done. cbn in Hy. rewrite <- list_fmap_compose, list_fmap_id in Hy.
    exists y, l2. rewrite E, app_assoc, <- Hy, <- app_assoc. split; [done|]. rewrite sum_ones.
    apply (f_equal length) in Hy. rewrite !length_app, length_bytes in Hy. cbn in Hy. lia.
  - intros (pre & post & E & ->). destruct (bytes p) as [|b l _] eqn:Eb using rev_ind.
    { exfalso. apply (Hne p Hp). apply (f_equal length) in Eb. rewrite length_bytes in Eb. by destruct p. }
    rewrite E. exists ((λ b, (b, 1%nat)) <$> (pre ++ l)), b, 1%nat, ((λ b, (b, 1%nat)) <$> post). split_and!.
    + by rewrite <- app_assoc, !fmap_app, <- app_assoc.
    + apply elem_of_outs. split; [done|]. exists pre. rewrite runes_ascii, Eb by done. cbn. by rewrite <- list_fmap_compose, list_fmap_id, <- app_assoc.
    + rewrite sum_ones, length_app, <- length_bytes, Eb, length_app. cbn. lia.
Qed.

(** C28. For any patterns other than the empty string the automaton is built, and on any text
    [FindAll] returns, in order, exactly what comparing every pattern with every suffix of every
    prefix of the text gives.  For ASCII text and patterns its matches are exactly the
    occurrences: a pattern is reported at a byte index if and only if it starts there. *)
Theorem aho_corasick_finds_all (patterns : list string) :
  (∀ p, p ∈ patterns → p ≠ EmptyString) →
  ∃ m, New patterns = Some m ∧
    ∀ text, ∃ ms, FindAll text m = Some ms ∧ ms = naive patterns 0 [] (scan (bytes text)) ∧
      ∀ p j, ascii text → p ∈ patterns → ascii p →
        {| Pattern := p; Index := j |} ∈ ms ↔ ∃ pre post, bytes text = pre ++ bytes p ++ post ∧ j = Z.of_nat (length pre).
Proof.
  intros Hne. assert (∀ p, p ∈ patterns → runes p ≠ []) as Hr by (intros p Hp; by apply runes_nonempty, Hne).
  destruct (New_built patterns Hr) as (m & Hm & Hb). exists m. split; [done|]. intros text. eexists. split; [|split; [reflexivity|]].
  - unfold FindAll. pose proof (find_loop_ok patterns m (scan (bytes text)) Hr Hb 0 []) as H. by rewrite lsuf_node in H by apply Hb.
  - intros p j Ht Hp Ha. by apply elem_of_naive_ascii.
Qed.

Lemma aho_corasick_finds_all_witness : ∃ m, New ["he"; "she"; "his"; "hers"]%string = Some m ∧
  FindAll "ushers"%string m = Some [ {| Pattern := "she"; Index := 1 |}; {| Pattern := "he"; Index := 2 |}; {| Pattern := "hers"; Index := 2 |} ]%string.
Proof.
  destruct (aho_corasick_finds_all ["he"; "she"; "his"; "hers"]%string) as (m & Hm & H).
  - intros p. rewrite !elem_of_cons, elem_of_nil. intros [->|[->|[->|[->|[]]]]]; discriminate.
  - exists m. split; [exact Hm|]. destruct (H "ushers"%string) as (ms & -> & -> & _). vm_compute. reflexivity.
Defined.

(** The bytes of é (U+00E9). *)
Definition e_acute : string := String (Ascii.ascii_of_nat 195) (String (Ascii.ascii_of_nat 169) EmptyString).

(** The index of a match is computed from the first byte of its last rune: a pattern that ends
    in a rune of two bytes is reported one byte early, at -1 when it starts the text. *)
Theorem match_index_early :
  (m ← New [e_acute]; FindAll e_acute m) = Some [ {| Pattern := e_acute; Index := -1 |} ].
Proof. vm_compute. reflexivity. Qed.

(** The empty pattern is reported only at nodes below the first level whose failure link is the
    root: in "ab" after the second letter, in "a" not at all. *)
Theorem empty_pattern_irregular :
  (m ← New [EmptyString; "ab"%string]; FindAll "ab"%string m)
    = Some [ {| Pattern := "ab"; Index := 0 |}; {| Pattern := ""; Index := 2 |} ]%string ∧
  (m ← New [EmptyString; "ab"%string]; FindAll "a"%string m) = Some [].
Proof. split; vm_compute; reflexivity. Qed.
